(* ===== verification/_CoqProject ===== *)
-Q . S2P
Prelude.v
Addr.v
Codec.v
R3.v
R3Train.v
R3Ctl.v
R2.v
R2Train.v
Wire.v
Frag.v
Partial.v
Reasm.v
ReasmTrace.v
Roundtrip.v
Binding.v
Flow.v
FlowRun.v
Stage.v
StageRun.v
Pack.v
Drain.v
DrainRun.v
DnsKey.v
DnsPolicy.v
DnsMemo.v
DnsAnswer.v
DnsCache.v
Pin.v
FastTable.v
FastRun.v
ReplyMemo.v
DnsGate.v
DnsGateRun.v
Sess.v
SessTask.v
FastPath.v
SessSys.v
SessDemo.v
SessInv.v
SessAtoms.v
SessSafe.v
SessProgs.v
FastProgs.v
SessRun.v
SessSweep.v
SessLaws.v
FastLaws.v
SessRace.v
Window.v
Client.v
RejectRun.v
Dispatch.v
DispatchRun.v
UplinkInv.v
UplinkRun.v
UplinkSys.v
UplinkLaws.v
Hub.v
