(* ===== verification/Prelude.v ===== *)
(** * MyQUIC2: a verification of its datagram layer

    MyQUIC2 carries UDP and TCP traffic between a client and a server over one
    QUIC connection per transport slot.  This library models the parts of the
    Rust program in [src/] that decide what happens to a UDP datagram, and proves
    what makes each of them correct.  File names below are those under [src/];
    a definition keeps the name of the function it translates, with the type's
    name in front where Rust would write [Type::function].

    ** The program and its model

    A datagram that leaves an endpoint is encoded as a frame of the configured
    wire revision, alone, in a train with others, or cut into fragments; it waits
    in the egress stager when the connection is busy.  At the other end the frame
    is decoded, fragments are reassembled, and the flow id is looked up in the
    connection's tables.  The server forwards the payload from a UDP socket that
    belongs to the client's session, after resolving and vetting the target;
    replies go back the same way.

    - Addresses ([src/mqp/addr.rs], [error.rs]): [Addr].
    - Revision 3 codec ([src/mqp/r3.rs], [ctl_stream.rs]): [Codec], [R3] (data,
      fragments, flow ids), [R3Train], [R3Ctl] (control messages and stream).
    - Revision 2 codec ([src/mqp/r2.rs]): [R2], [R2Train].
    - The adapter both endpoints call ([src/mqp/wire.rs]): [Wire].
    - Fragmentation ([src/udp/r2_frag.rs], [send.rs]): [Frag].
    - Reassembly ([src/udp/r2_reasm.rs]): [Partial] (one payload), [Reasm] (the
      table), [ReasmTrace] (any sequence of operations), [Roundtrip] (against the
      fragmenter).
    - Flow bindings, tables and registry ([src/mqp/r2_flow.rs]): [Binding] (the
      lock-free operations of one binding), [Flow], [FlowRun].
    - The egress stager ([src/udp/r2_stage.rs]): [Stage] (queues and claims),
      [StageRun], [Pack] (encoders), [Drain] (send, requeue, loop), [DrainRun].
    - Names ([src/dns]): [DnsKey], [DnsPolicy], [DnsMemo], [DnsAnswer], [DnsCache].
    - The server ([src/bin/myquic2-server]): [Pin] ([pin.rs]), [DnsGate]
      and [DnsGateRun] (the gate of [forward.rs]), [FastTable] and [FastRun] (the
      datagram reader's session table of [accept.rs]), [FastPath], [FastProgs] and
      [FastLaws] (its forwarding path), [ReplyMemo] (reply classification of
      [reader.rs]), [Sess] (the state and critical
      sections of [table.rs], [memo.rs], [accept.rs], [reader.rs], [forward.rs]),
      [SessTask] (the functions, as programs over those sections), [SessSys] (the
      system of calls in flight), [SessDemo], [SessInv], [SessAtoms], [SessSafe],
      [SessProgs], [SessRun], [SessSweep], [SessLaws], [SessRace].
    - The client ([src/bin/myquic2-client]): [Window] (the queue window of
      [rev2.rs]), [Client] (a connection generation, an association and the path
      of a payload, [rev2.rs]), [RejectRun] (its refused targets), [Dispatch] and
      [DispatchRun] (the downlink dispatcher, [dispatcher.rs]), [UplinkInv] and
      [UplinkRun] (the shared tables and the sends), [UplinkSys] (all
      associations with the dispatcher and redials), [UplinkLaws].

    ** How the code is represented

    Integers are [Z]; [as_u8] to [as_u64], [saturating_add], [checked_add] and the
    like write out what happens at the width.  Bytes are [Z] below 256 in a
    [list Z]; a [&str] is its UTF-8 bytes.  [Result] is [res], whose third case
    [Panic] is a panic of the program (an index out of range, an overflow the
    debug build traps, a failed assertion); theorems exclude it where they say
    that an operation returns.  Hash maps are [gmap]s; where iteration order could
    matter it is a parameter constrained to be a permutation ([HashIter]).  Data
    behind an [Arc] that several tables share lives in a heap and the tables hold
    its address.

    Concurrency is explicit.  [Binding] interleaves calls one atomic access at a
    time; [DnsCache] one access to shared state at a time; [Drain] lets the other
    tasks act whenever the drain asks for the lock; [SessSys] interleaves any
    number of calls of the server's tasks, each a [task] whose steps are atomic
    accesses or critical sections; [UplinkSys] takes one event of one association
    or one datagram of the dispatcher at a time, with the other tasks' turns at the
    stager inside it.  A section that holds a shard's write lock is one
    step; the lock-free reads inside it ([last], [live]) are taken at that instant.
    Memory is sequentially consistent: the theorems are about the order of
    accesses, not about weaker orderings.

    ** What the theorems show

    - Codecs: every frame an encoder accepts decodes to what was encoded, in both
      revisions and through the adapter; the two revisions meet one contract
      ([Wire.WireCodec]).
    - Fragments: a payload cut by the fragmenter and delivered in any order comes
      back exactly, once; the reassembler never joins fragments of different
      contexts, stays within its bounds, and refines an abstract slot table.
    - Flows: the registry's indexes are exact over any sequence and interleaving of
      its operations; a binding's state machine only moves as documented.
    - Stager: the cost model is the encoders' length; a drain returns whatever the
      others do; no item is lost, duplicated or reordered within a session.
    - Names: a key identifies a name and port; the policy is exactly the reserved
      ranges; the memo refines a map; an answer always comes from a resolution of
      that name, and a refusal is never served after it was withdrawn.
    - Server sessions, in every interleaving: the global budget is conserved on
      every path, a socket belongs to the session it was asked for, a close is final
      for the lookups it cancels, no flow outlives its session (restricted filter),
      nothing is sent into special-use space unless configured, and a sweep evicts
      exactly the idle sessions.
    - The client, whatever its associations, the server's control plane and the
      redials did: a payload uses only a live flow of its session and target, or
      goes inline for a stated reason; every send, flush and replay returns with
      the bounds and counters exact; the hold is a queue; the window's cache
      admits what the exact probe would, up to the bytes it does not see; a train
      is delivered as its items one by one.
    - The DNS gate's bounds, order and accounting, the reply filter, the reader's
      fast table and the reply memo against the definitions they shortcut.
    - [SessRace] and the ends of some other files hold concrete runs of behaviour
      the code's comments rule out.

    ** Bounds and fuel

    A loop whose recursion is not structural takes its number of turns and gives
    [Panic] when they run out.  The turns are what the code allows: the queue's
    bound for a claim and a drain ([R2_STAGE_MAX_ITEMS], the number of queued items
    plus one), the width of the counter for digits and varints, the length of the
    input for decoders and dial candidates, the buckets of a table for a probe, one
    clock per held payload for a replay.  The theorems that say an operation
    returns are proved for these.  [SessTask] needs none: a [task] is finite.

    ** Parameters

    Code that is not in the repository is an argument or a class: the QUIC
    connection ([DatagramConn], [QuicConn], [RecvStream]), [ipnet] ([IpNet]), [moka]
    ([MokaCache] in [DnsCache]), std's hasher ([GateHasher]) and hash-map order
    ([HashIter]), the resolver's and the kernel's answers (arguments of the tasks
    that wait for them).  Each class states documented behaviour only and has an
    instance that computes it, used by the witnesses.

    ** Not modelled

    The client's SOCKS front end, pool, egress selection, handshake and retry
    tasks, the TCP pump, TLS, sockets and the transport set-up are calls into
    tokio, quinn, rustls and the system.  The parts of the server that
    only move bytes between them (ingress dispatch, reply packing, the datagram
    reader's loop) and the legacy MQP-2 and v3 formats are left out.  Counters and
    log lines are modelled only where a theorem accounts for losses.  Configuration
    parsing is left out. *)
From stdpp Require Export base list gmap strings numbers.
From Stdlib Require Export ZArith Lia.

#[global] Open Scope Z_scope.

(* ------------------------------------------------------------------ *)
(** ** Machine integers *)

Definition usize_max : Z := 2 ^ 64 - 1.
Definition isize_max : Z := 2 ^ 63 - 1.

Definition is_u8 (n : Z) : Prop := 0 <= n < 2 ^ 8.
Definition is_u16 (n : Z) : Prop := 0 <= n < 2 ^ 16.
Definition is_u32 (n : Z) : Prop := 0 <= n < 2 ^ 32.
Definition is_u64 (n : Z) : Prop := 0 <= n < 2 ^ 64.
Definition is_usize (n : Z) : Prop := 0 <= n <= usize_max.

(** [n as u8], [n as u16], [n as u32] and [n as u64] of a wider unsigned integer. *)
Definition as_u8 (n : Z) : Z := n mod 2 ^ 8.
Definition as_u16 (n : Z) : Z := n mod 2 ^ 16.
Definition as_u32 (n : Z) : Z := n mod 2 ^ 32.
Definition as_u64 (n : Z) : Z := n mod 2 ^ 64.

(** [usize] arithmetic. *)
Definition checked_add (a b : Z) : option Z :=
  if a + b <=? usize_max then Some (a + b) else None.
Definition checked_mul (a b : Z) : option Z :=
  if a * b <=? usize_max then Some (a * b) else None.
Definition checked_sub (a b : Z) : option Z :=
  if b <=? a then Some (a - b) else None.
Definition saturating_add (a b : Z) : Z := Z.min (a + b) usize_max.
Definition saturating_sub (a b : Z) : Z := Z.max (a - b) 0.
Definition saturating_mul (a b : Z) : Z := Z.min (a * b) usize_max.

(* ------------------------------------------------------------------ *)
(** ** Results

    A computation of the program gives a value, the error of a [Result]
    (or the [None] of an [Option], as [Nope]), or a panic: an index or a
    slice out of range. *)

Inductive res (E A : Type) : Type :=
| Ok (a : A)
| Err (e : E)
| Panic.
Arguments Ok {E A} a.
Arguments Err {E A} e.
Arguments Panic {E A}.

(** The [None] of a function that returns an [Option]. *)
Abbreviation Nope := (Err tt).

Definition res_bind {E A B} (m : res E A) (k : A -> res E B) : res E B :=
  match m with
  | Ok a => k a
  | Err e => Err e
  | Panic => Panic
  end.

(** [o.ok_or(e)]. *)
Definition ok_or {E A} (o : option A) (e : E) : res E A :=
  match o with Some a => Ok a | None => Err e end.

(** [r.ok()] of a [Result], in a function that returns an [Option]. *)
Definition res_ok {E A} (m : res E A) : res unit A :=
  match m with Ok a => Ok a | Err _ => Nope | Panic => Panic end.

(** An [Option] followed by [?] in a function that returns an [Option]. *)
Definition of_option {A} (o : option A) : res unit A := ok_or o tt.

(** An operation that panics when it has no value. *)
Definition or_panic {E A} (o : option A) : res E A :=
  match o with Some a => Ok a | None => Panic end.

Declare Scope mq_scope.
Delimit Scope mq_scope with mq.
#[global] Open Scope mq_scope.

Notation "'let!' x ':=' e 'in' k" := (res_bind e (fun x => k))
  (at level 10, x binder, e at level 200, k at level 200) : mq_scope.
Notation "'let!' ' p ':=' e 'in' k" := (res_bind e (fun p => k))
  (at level 10, p strict pattern, e at level 200, k at level 200) : mq_scope.
(** [if !c { return Err(e) }] *)
Notation "'guard!' c 'else' e 'in' k" := (if c then k else Err e)
  (at level 10, c at level 200, e at level 200, k at level 200) : mq_scope.

Lemma res_bind_ok {E A B} (m : res E A) (k : A -> res E B) b :
  res_bind m k = Ok b <-> exists a, m = Ok a /\ k a = Ok b.
Proof. destruct m; simpl; naive_solver. Qed.

Lemma res_bind_no_panic {E A B} (m : res E A) (k : A -> res E B) :
  m <> Panic -> (forall a, m = Ok a -> k a <> Panic) -> res_bind m k <> Panic.
Proof. destruct m; simpl; naive_solver. Qed.

Lemma ok_or_ok {E A} (o : option A) (e : E) a : ok_or o e = Ok a <-> o = Some a.
Proof. destruct o; simpl; naive_solver. Qed.

Lemma or_panic_ok {E A} (o : option A) a : @or_panic E A o = Ok a <-> o = Some a.
Proof. destruct o; simpl; naive_solver. Qed.

Lemma res_ok_ok {E A} (m : res E A) a : res_ok m = Ok a <-> m = Ok a.
Proof. destruct m; simpl; naive_solver. Qed.

Lemma ok_or_no_panic {E A} (o : option A) (e : E) : ok_or o e <> Panic.
Proof. by destruct o. Qed.

Lemma res_ok_no_panic {E A} (m : res E A) : m <> Panic -> res_ok m <> Panic.
Proof. by destruct m. Qed.

Lemma guard_ok {E A} (c : bool) (k : res E A) e a :
  (if c then k else Err e) = Ok a <-> c = true /\ k = Ok a.
Proof. destruct c; naive_solver. Qed.

Lemma guard_no_panic {E A} (c : bool) (k : res E A) (e : E) :
  (c = true -> k <> Panic) -> (if c then k else Err e) <> Panic.
Proof. destruct c; naive_solver. Qed.

Create HintDb nopanic.
#[export] Hint Resolve ok_or_no_panic res_ok_no_panic : nopanic.
#[export] Hint Extern 5 (_ <= _) => lia : nopanic.

(* ------------------------------------------------------------------ *)
(** ** Byte strings *)

(** A buffer: a list of [u8] values. *)
Abbreviation bytes := (list Z).

Definition bytes_ok (b : bytes) : Prop := Forall is_u8 b.

Definition len {A} (b : list A) : Z := Z.of_nat (length b).

(** [b.get(i)] and [b.first()]. *)
Definition get {A} (b : list A) (i : Z) : option A := b !! Z.to_nat i.
Definition first {A} (b : list A) : option A := head b.

(** [b.get(s..e)] and [b.get(s..)]; indexing with a range panics where
    these have no value. *)
Definition slice {A} (b : list A) (s e : Z) : option (list A) :=
  if (s <=? e) && (e <=? len b)
  then Some (take (Z.to_nat (e - s)) (drop (Z.to_nat s) b)) else None.
Definition slice_from {A} (b : list A) (s : Z) : option (list A) :=
  if s <=? len b then Some (drop (Z.to_nat s) b) else None.

(** [b[i]], [&b[s..e]] and [&b[s..]]. *)
Definition idx {E A} (b : list A) (i : Z) : res E A := or_panic (get b i).
Definition sub {E A} (b : list A) (s e : Z) : res E (list A) := or_panic (slice b s e).
Definition sub_from {E A} (b : list A) (s : Z) : res E (list A) := or_panic (slice_from b s).

(** [out[pos..pos + x.len()].copy_from_slice(x)]. *)
Definition write_at {E A} (out : list A) (pos : Z) (x : list A) : res E (list A) :=
  if pos + len x <=? len out
  then Ok (take (Z.to_nat pos) out ++ x ++ drop (Z.to_nat (pos + len x)) out)
  else Panic.

(** [to_le_bytes], [to_be_bytes], [from_le_bytes], [from_be_bytes]. *)
Definition le16 (n : Z) : bytes := [n mod 2 ^ 8; n / 2 ^ 8 mod 2 ^ 8].
Definition le32 (n : Z) : bytes :=
  [n mod 2 ^ 8; n / 2 ^ 8 mod 2 ^ 8; n / 2 ^ 16 mod 2 ^ 8; n / 2 ^ 24 mod 2 ^ 8].
Definition be16 (n : Z) : bytes := [n / 2 ^ 8 mod 2 ^ 8; n mod 2 ^ 8].
Definition of_le16 (b0 b1 : Z) : Z := b0 + 2 ^ 8 * b1.
Definition of_le32 (b0 b1 b2 b3 : Z) : Z :=
  b0 + 2 ^ 8 * b1 + 2 ^ 16 * b2 + 2 ^ 24 * b3.
Definition of_be16 (b0 b1 : Z) : Z := 2 ^ 8 * b0 + b1.

(** Invert a successful computation into the successes of its steps. *)
Ltac res_inv :=
  repeat match goal with
  | H : res_bind _ _ = Ok _ |- _ =>
      let a := fresh "v" in let H1 := fresh "H" in
      apply res_bind_ok in H as (a & H1 & H)
  | H : ok_or _ _ = Ok _ |- _ => apply (proj1 (ok_or_ok _ _ _)) in H
  | H : of_option _ = Ok _ |- _ => apply (proj1 (ok_or_ok _ _ _)) in H
  | H : or_panic _ = Ok _ |- _ => apply (proj1 (or_panic_ok _ _)) in H
  | H : idx _ _ = Ok _ |- _ => apply (proj1 (or_panic_ok _ _)) in H
  | H : sub _ _ _ = Ok _ |- _ => apply (proj1 (or_panic_ok _ _)) in H
  | H : sub_from _ _ = Ok _ |- _ => apply (proj1 (or_panic_ok _ _)) in H
  | H : res_ok _ = Ok _ |- _ => apply (proj1 (res_ok_ok _ _)) in H
  | H : Ok _ = Ok _ |- _ => injection H as H
  | H : Err _ = Ok _ |- _ => discriminate H
  | H : Panic = Ok _ |- _ => discriminate H
  | H : (if _ then _ else Err _) = Ok _ |- _ =>
      let H1 := fresh "H" in apply guard_ok in H as (H1 & H)
  | x : (_ * _)%type |- _ => destruct x
  end.

Create HintDb mq.

Ltac ulia :=
  unfold is_u8, is_u16, is_u32, is_u64, is_usize, usize_max, isize_max in *; lia.
Ltac umod :=
  unfold is_u8, is_u16, is_u32, is_u64, is_usize, usize_max, isize_max,
    as_u8, as_u16, as_u32, as_u64, of_le16, of_le32, of_be16 in *;
  Z.div_mod_to_equations; lia.

(** Boolean comparisons as propositions. *)
Ltac zbool :=
  rewrite ?Z.geb_leb, ?Z.gtb_ltb in *;
  rewrite ?Z.ltb_lt, ?Z.ltb_ge, ?Z.leb_le, ?Z.leb_gt, ?Z.eqb_eq, ?Z.eqb_neq in *.

Lemma len_nonneg {A} (b : list A) : 0 <= len b.
Proof. unfold len; lia. Qed.

Lemma len_to_nat {A} (b : list A) : Z.to_nat (len b) = length b.
Proof. unfold len; lia. Qed.

Lemma len_nil {A} : len (@nil A) = 0.
Proof. done. Qed.

Lemma len_cons {A} (x : A) b : len (x :: b) = 1 + len b.
Proof. unfold len; simpl; lia. Qed.

Lemma len_app {A} (a b : list A) : len (a ++ b) = len a + len b.
Proof. unfold len; rewrite length_app; lia. Qed.

Lemma len_take {A} n (b : list A) : 0 <= n -> len (take (Z.to_nat n) b) = Z.min n (len b).
Proof. intros. unfold len. rewrite length_take. lia. Qed.

Lemma len_drop {A} n (b : list A) : 0 <= n -> len (drop (Z.to_nat n) b) = Z.max 0 (len b - n).
Proof. intros. unfold len. rewrite length_drop. lia. Qed.

Lemma len_le16 n : len (le16 n) = 2.
Proof. done. Qed.

Lemma len_le32 n : len (le32 n) = 4.
Proof. done. Qed.

Lemma len_be16 n : len (be16 n) = 2.
Proof. done. Qed.

Create Rewrite HintDb len.
#[export] Hint Rewrite @len_nil @len_cons @len_app @len_le16 @len_le32 @len_be16 : len.

(** Length goals: push [len] to the atoms, then linear arithmetic. *)
Ltac lens :=
  autorewrite with len in *;
  repeat match goal with
  | |- context [len ?b] =>
      lazymatch goal with
      | _ : 0 <= len b |- _ => fail
      | _ => pose proof (len_nonneg b)
      end
  | _ : context [len ?b] |- _ =>
      lazymatch goal with
      | _ : 0 <= len b |- _ => fail
      | _ => pose proof (len_nonneg b)
      end
  end;
  first [ulia | unfold len in *; ulia].

Lemma of_le16_le16 n : is_u16 n -> of_le16 (n mod 2 ^ 8) (n / 2 ^ 8 mod 2 ^ 8) = n.
Proof. umod. Qed.

Lemma of_le32_le32 n : is_u32 n ->
  of_le32 (n mod 2 ^ 8) (n / 2 ^ 8 mod 2 ^ 8) (n / 2 ^ 16 mod 2 ^ 8)
    (n / 2 ^ 24 mod 2 ^ 8) = n.
Proof. umod. Qed.

Lemma of_be16_be16 n : is_u16 n -> of_be16 (n / 2 ^ 8 mod 2 ^ 8) (n mod 2 ^ 8) = n.
Proof. umod. Qed.

Lemma le16_of_le16 a b : is_u8 a -> is_u8 b -> le16 (of_le16 a b) = [a; b].
Proof. intros; unfold le16; repeat f_equal; umod. Qed.

Lemma le32_of_le32 a b c d : is_u8 a -> is_u8 b -> is_u8 c -> is_u8 d ->
  le32 (of_le32 a b c d) = [a; b; c; d].
Proof. intros; unfold le32; repeat f_equal; umod. Qed.

Lemma be16_of_be16 a b : is_u8 a -> is_u8 b -> be16 (of_be16 a b) = [a; b].
Proof. intros; unfold be16; repeat f_equal; umod. Qed.

Lemma of_le16_u16 a b : is_u8 a -> is_u8 b -> is_u16 (of_le16 a b).
Proof. umod. Qed.

Lemma of_le32_u32 a b c d :
  is_u8 a -> is_u8 b -> is_u8 c -> is_u8 d -> is_u32 (of_le32 a b c d).
Proof. umod. Qed.

Lemma of_be16_u16 a b : is_u8 a -> is_u8 b -> is_u16 (of_be16 a b).
Proof. umod. Qed.

Lemma le16_ok n : bytes_ok (le16 n).
Proof. unfold le16; repeat constructor; umod. Qed.

Lemma le32_ok n : bytes_ok (le32 n).
Proof. unfold le32; repeat constructor; umod. Qed.

Lemma be16_ok n : bytes_ok (be16 n).
Proof. unfold be16; repeat constructor; umod. Qed.

Lemma bytes_ok_app a b : bytes_ok (a ++ b) <-> bytes_ok a /\ bytes_ok b.
Proof. apply Forall_app. Qed.

Lemma bytes_ok_cons x b : bytes_ok (x :: b) <-> is_u8 x /\ bytes_ok b.
Proof. apply Forall_cons_iff. Qed.

Lemma bytes_ok_nil : bytes_ok [].
Proof. constructor. Qed.

Lemma bytes_ok_cons_2 x b : is_u8 x -> bytes_ok b -> bytes_ok (x :: b).
Proof. by constructor. Qed.

Lemma bytes_ok_app_2 a b : bytes_ok a -> bytes_ok b -> bytes_ok (a ++ b).
Proof. intros; by apply bytes_ok_app. Qed.

#[export] Hint Resolve bytes_ok_nil bytes_ok_cons_2 bytes_ok_app_2 : mq.
#[export] Hint Resolve le16_ok le32_ok be16_ok of_le16_u16 of_le32_u32 of_be16_u16 : mq.

Lemma as_u8_small n : is_u8 n -> as_u8 n = n.
Proof. umod. Qed.

Lemma as_u8_u8 n : is_u8 (as_u8 n).
Proof. umod. Qed.

Lemma as_u64_u64 n : is_u64 (as_u64 n).
Proof. apply Z.mod_pos_bound. lia. Qed.

Lemma as_u64_small n : 0 <= n <= usize_max -> as_u64 n = n.
Proof. unfold as_u64, usize_max. intros. apply Z.mod_small. lia. Qed.

Lemma checked_add_ok a b c : checked_add a b = Some c <-> a + b <= usize_max /\ c = a + b.
Proof. unfold checked_add; case_match; naive_solver lia. Qed.

Lemma checked_add_small a b : a + b <= usize_max -> checked_add a b = Some (a + b).
Proof. intros; by apply checked_add_ok. Qed.

Lemma checked_mul_ok a b c : checked_mul a b = Some c <-> a * b <= usize_max /\ c = a * b.
Proof. unfold checked_mul; case_match; naive_solver lia. Qed.

Lemma checked_mul_small a b : a * b <= usize_max -> checked_mul a b = Some (a * b).
Proof. intros; by apply checked_mul_ok. Qed.

Lemma bytes_ok_compute b : forallb (fun x => (0 <=? x) && (x <? 2 ^ 8)) b = true -> bytes_ok b.
Proof.
  rewrite forallb_forall. intros H. apply Forall_forall. intros x Hx.
  specialize (H x Hx). ulia.
Qed.

(** Side conditions of a concrete instance. *)
Ltac concrete :=
  solve [ apply bytes_ok_compute; reflexivity
        | ulia
        | vm_compute; split; congruence
        | vm_compute; reflexivity
        | vm_compute; congruence ].

(* ------------------------------------------------------------------ *)
(** ** Exhaustive checks over a byte *)

Definition u8_all (P : Z -> bool) : bool := forallb (fun k => P (Z.of_nat k)) (seq 0 256).

(** A decidable fact about one byte holds once it is computed for all 256. *)
Lemma u8_exhaust (P : Z -> bool) : u8_all P = true -> forall n, is_u8 n -> P n = true.
Proof.
  unfold u8_all; intros HP n Hn. rewrite forallb_forall in HP.
  specialize (HP (Z.to_nat n)).
  rewrite Z2Nat.id in HP by ulia. apply HP, in_seq. ulia.
Qed.

(* ------------------------------------------------------------------ *)
(** ** Cursors

    [cursor b off rest]: a decoder that stands at offset [off] of [b] has
    [rest] in front of it. *)

Definition cursor {A} (b : list A) (off : Z) (rest : list A) : Prop :=
  exists pre, b = pre ++ rest /\ off = len pre.

Lemma cursor_start {A} (b : list A) : cursor b 0 b.
Proof. by exists []. Qed.

Lemma cursor_app {A} (b : list A) off x rest :
  cursor b off (x ++ rest) -> cursor b (off + len x) rest.
Proof. intros (pre & -> & ->). exists (pre ++ x). split; [by rewrite app_assoc | lens]. Qed.

Lemma cursor_cons {A} (b : list A) off x rest :
  cursor b off (x :: rest) -> cursor b (off + 1) rest.
Proof. intros H. by apply (cursor_app b off [x] rest) in H. Qed.

Lemma cursor_bounds {A} (b : list A) off rest :
  cursor b off rest -> 0 <= off /\ off + len rest = len b.
Proof. intros (pre & -> & ->). split; lens. Qed.

Lemma cursor_exists {A} (b : list A) off : 0 <= off <= len b ->
  cursor b off (drop (Z.to_nat off) b).
Proof.
  intros Hoff. exists (take (Z.to_nat off) b). split; [by rewrite take_drop |].
  unfold len in *. rewrite length_take. lia.
Qed.

Lemma cursor_drop {A} (b : list A) off rest :
  cursor b off rest -> drop (Z.to_nat off) b = rest.
Proof.
  intros (pre & -> & ->). unfold len. rewrite Nat2Z.id. apply drop_app_length.
Qed.

Lemma cursor_inj {A} (b : list A) off r1 r2 : cursor b off r1 -> cursor b off r2 -> r1 = r2.
Proof. intros H1%cursor_drop H2%cursor_drop. congruence. Qed.

Lemma cursor_get {A} (b : list A) off x rest : cursor b off (x :: rest) -> get b off = Some x.
Proof.
  intros (pre & -> & ->). unfold get, len. rewrite Nat2Z.id.
  by apply list_lookup_middle.
Qed.

Lemma cursor_get_nil {A} (b : list A) off : cursor b off [] -> get b off = None.
Proof.
  intros (pre & -> & ->). unfold get, len. rewrite Nat2Z.id, app_nil_r.
  by apply lookup_ge_None.
Qed.

Lemma get_cursor {A} (b : list A) off x : 0 <= off -> get b off = Some x ->
  exists rest, cursor b off (x :: rest).
Proof.
  intros Hoff Hg. unfold get in Hg.
  assert (Hl : off <= len b) by (apply lookup_lt_Some in Hg; unfold len; lia).
  pose proof (cursor_exists b off ltac:(lia)) as Hc.
  rewrite (drop_S b x) in Hc by done. eauto.
Qed.

Lemma cursor_slice {A} (b : list A) off x rest n :
  cursor b off (x ++ rest) -> n = len x -> slice b off (off + n) = Some x.
Proof.
  intros (pre & -> & ->) ->. unfold slice.
  replace (_ && _) with true by (symmetry; apply andb_true_iff; split; apply Z.leb_le; lens).
  f_equal. rewrite len_to_nat, drop_app_length.
  replace (Z.to_nat (len pre + len x - len pre)) with (length x) by (unfold len; lia).
  apply take_app_length.
Qed.

Lemma slice_cursor {A} (b : list A) off e x : 0 <= off -> slice b off e = Some x ->
  exists rest, cursor b off (x ++ rest) /\ e = off + len x.
Proof.
  unfold slice. intros Hoff. case_match eqn:E; [|done]. intros [= <-].
  apply andb_true_iff in E as [E1%Z.leb_le E2%Z.leb_le].
  pose proof (cursor_exists b off ltac:(lia)) as Hc.
  exists (drop (Z.to_nat (e - off)) (drop (Z.to_nat off) b)).
  rewrite take_drop. split; [done|].
  unfold len in *. rewrite length_take, length_drop. lia.
Qed.

Lemma cursor_slice_from {A} (b : list A) off rest :
  cursor b off rest -> slice_from b off = Some rest.
Proof.
  intros H. unfold slice_from. pose proof (cursor_bounds _ _ _ H).
  replace (off <=? len b) with true by (symmetry; apply Z.leb_le; lens).
  f_equal. by apply cursor_drop.
Qed.

Lemma slice_from_cursor {A} (b : list A) off rest :
  0 <= off -> slice_from b off = Some rest -> cursor b off rest.
Proof.
  unfold slice_from. intros Hoff. case_match eqn:E; [|done]. intros [= <-].
  apply Z.leb_le in E. apply cursor_exists. lia.
Qed.

Lemma first_cursor {A} (b : list A) x : first b = Some x ->
  exists rest, b = x :: rest /\ cursor b 1 rest.
Proof.
  destruct b as [|y rest]; [done|]. intros [= ->]. exists rest. split; [done|].
  by exists [x].
Qed.

Lemma cursor_bytes_ok b off rest : bytes_ok b -> cursor b off rest -> bytes_ok rest.
Proof. intros Hb (pre & -> & _). by apply bytes_ok_app in Hb as [_ ?]. Qed.

Lemma sub_prefix {E A} (pre z : list A) : @sub E A (pre ++ z) 0 (len pre) = Ok pre.
Proof.
  unfold sub. rewrite (cursor_slice _ 0 pre z (len pre) (cursor_start _) eq_refl
    : slice (pre ++ z) 0 (len pre) = _). done.
Qed.

Lemma idx_no_panic {E A} (b : list A) i : 0 <= i < len b -> @idx E A b i <> Panic.
Proof.
  intros Hi. unfold idx, get.
  destruct (lookup_lt_is_Some_2 b (Z.to_nat i)) as [x ->]; [unfold len in *; lia | done].
Qed.

Lemma sub_no_panic {E A} (b : list A) s e : s <= e <= len b -> @sub E A b s e <> Panic.
Proof.
  intros Hi. unfold sub, slice.
  by replace (_ && _) with true by (symmetry; apply andb_true_iff; split; apply Z.leb_le; lia).
Qed.

Lemma sub_from_no_panic {E A} (b : list A) s : s <= len b -> @sub_from E A b s <> Panic.
Proof.
  intros Hi. unfold sub_from, slice_from.
  by replace (_ <=? _) with true by (symmetry; apply Z.leb_le; lia).
Qed.

(** A write replaces the middle part of the buffer that it covers. *)
Lemma write_at_middle {E A} (a x y c buf : list A) pos :
  buf = a ++ x ++ c -> pos = len a -> len x = len y ->
  @write_at E A buf pos y = Ok (a ++ y ++ c).
Proof.
  intros -> -> Hl. unfold write_at.
  replace (_ <=? _) with true by (symmetry; apply Z.leb_le; lens).
  rewrite <- Hl, <- (len_app a x), !len_to_nat, take_app_length.
  by rewrite (app_assoc a x c), drop_app_length.
Qed.

#[export] Hint Resolve idx_no_panic sub_no_panic sub_from_no_panic : nopanic.
(** What a read under a cursor says about the bytes ahead of it. *)
Lemma cursor_get_inv {A} (b : list A) off o rest x :
  cursor b off rest -> get b o = Some x -> o = off ->
  exists rest', rest = x :: rest' /\ cursor b (off + 1) rest'.
Proof.
  intros Hc Hg ->. pose proof (cursor_bounds _ _ _ Hc) as [H0 _].
  destruct (get_cursor _ _ _ H0 Hg) as [r Hc'].
  rewrite (cursor_inj _ _ _ _ Hc Hc'). eauto using cursor_cons.
Qed.

Lemma cursor_slice_inv {A} (b : list A) off s e rest x :
  cursor b off rest -> slice b s e = Some x -> s = off ->
  exists rest', rest = x ++ rest' /\ e = off + len x /\ cursor b e rest'.
Proof.
  intros Hc Hg ->. pose proof (cursor_bounds _ _ _ Hc) as [H0 _].
  destruct (slice_cursor _ _ _ _ H0 Hg) as (r & Hc' & ->).
  rewrite (cursor_inj _ _ _ _ Hc Hc'). eauto using cursor_app.
Qed.

Lemma cursor_slice_from_inv {A} (b : list A) off s rest x :
  cursor b off rest -> slice_from b s = Some x -> s = off -> x = rest.
Proof.
  intros Hc Hg ->. rewrite (cursor_slice_from _ _ _ Hc) in Hg. by injection Hg.
Qed.

#[export] Hint Resolve cursor_start cursor_cons cursor_get cursor_slice_from
  cursor_bytes_ok : mq.

(** Step a decoder past the guard at its head, which holds by arithmetic. *)
Ltac pass_guard :=
  match goal with
  | |- (if ?c then _ else _) = _ => replace c with true by (symmetry; lens)
  end.

(** Write a constant offset of the cursor [Hc] as a numeral. *)
Ltac norm_cursor Hc :=
  match type of Hc with
  | cursor ?b ?o ?r =>
      let o' := eval vm_compute in o in
      lazymatch isZcst o' with true => change (cursor b o' r) in Hc end
  | _ => idtac
  end.
Ltac next Hc := apply cursor_cons in Hc; norm_cursor Hc.

(** Learn the bytes ahead of the cursor [Hc] from the reads that succeeded. *)
Ltac read_all Hc :=
  repeat (cbv beta in Hc; match goal with
  | H : get ?b ?o = Some ?x |- _ =>
      lazymatch type of Hc with cursor b ?off ?r =>
        let E := fresh in let r' := fresh "r" in
        let Er := fresh in let Hc' := fresh in
        assert (E : o = off) by lia;
        destruct (cursor_get_inv b off o r x Hc H E) as (r' & Er & Hc');
        clear E H Hc; rename Hc' into Hc; subst r
      end
  | H : slice ?b ?s ?e = Some ?x |- _ =>
      lazymatch type of Hc with cursor b ?off ?r =>
        let E := fresh in let r' := fresh "r" in let He := fresh "He" in
        let Er := fresh in let Hc' := fresh in
        assert (E : s = off) by lia;
        destruct (cursor_slice_inv b off s e r x Hc H E) as (r' & Er & He & Hc');
        clear E H Hc; rename Hc' into Hc; subst r
      end
  | H : slice_from ?b ?s = Some ?x |- _ =>
      lazymatch type of Hc with cursor b ?off ?r =>
        let E := fresh in
        assert (E : s = off) by lia;
        pose proof (cursor_slice_from_inv b off s r x Hc H E); subst x;
        clear E H
      end
  end).

(** Absence of panics: walk the computation, every index within bounds.
    [np_learn] turns a successful read into the bounds it implies; a file that
    adds readers extends it. *)
Lemma get_bound {A} (b : list A) i x : 0 <= i -> get b i = Some x -> 0 <= i < len b.
Proof. intros Hi H%lookup_lt_Some. unfold len. lia. Qed.

Lemma slice_from_bound (b r : bytes) o : 0 <= o -> bytes_ok b -> slice_from b o = Some r ->
  len r = len b - o /\ bytes_ok r.
Proof.
  intros Ho Hb H%slice_from_cursor; [|done].
  pose proof (cursor_bounds _ _ _ H). split; [lia | eauto with mq].
Qed.

Lemma sub_from_bound {E} (b r : bytes) o : 0 <= o -> bytes_ok b -> @sub_from E Z b o = Ok r ->
  len r = len b - o /\ bytes_ok r.
Proof. intros Ho Hb H%or_panic_ok. by apply slice_from_bound. Qed.

Ltac np_learn_base :=
  match goal with
  | H : ok_or ?o _ = Ok _ |- _ => apply (proj1 (ok_or_ok _ _ _)) in H
  | H : get ?b ?i = Some _ |- _ =>
      lazymatch goal with _ : 0 <= i < len b |- _ => fail | _ => idtac end;
      assert (0 <= i < len b) by (eapply get_bound; [lens | exact H])
  | Hb : bytes_ok ?b, H : sub_from ?b ?o = Ok ?r |- _ =>
      lazymatch goal with _ : bytes_ok r |- _ => fail | _ => idtac end;
      destruct (sub_from_bound b r o ltac:(lens) Hb H)
  | Hb : bytes_ok ?b, H : slice_from ?b ?o = Some ?r |- _ =>
      lazymatch goal with _ : bytes_ok r |- _ => fail | _ => idtac end;
      destruct (slice_from_bound b r o ltac:(lens) Hb H)
  end.
Ltac np_learn := np_learn_base.

Ltac np_step :=
  match goal with
  | |- Ok _ <> Panic => discriminate
  | |- Err _ <> Panic => discriminate
  | |- ok_or _ _ <> Panic => apply ok_or_no_panic
  | |- of_option _ <> Panic => apply ok_or_no_panic
  | |- res_bind _ _ <> Panic => apply res_bind_no_panic; [| intros ? ?]
  | |- idx _ _ <> Panic => apply idx_no_panic; lens
  | |- sub _ _ _ <> Panic => apply sub_no_panic; lens
  | |- sub_from _ _ <> Panic => apply sub_from_no_panic; lens
  | |- (if _ then _ else Err _) <> Panic => apply guard_no_panic; intros ?
  | |- (if ?c then _ else _) <> Panic => destruct c eqn:?
  | |- (match ?p with (_, _) => _ end) <> Panic => destruct p
  | |- _ <> Panic => solve [auto with nopanic]
  | |- _ <> Panic => np_learn
  end.

(* ------------------------------------------------------------------ *)
(** ** Sums over finite maps *)

Definition gsum {A} (f : A -> Z) (m : gmap Z A) : Z := map_fold (fun _ x n => f x + n) 0 m.

Lemma gsum_insert {A} (f : A -> Z) m k x : m !! k = None -> gsum f (<[k := x]> m) = f x + gsum f m.
Proof. intros Hk. unfold gsum. rewrite map_fold_insert_L; [done | intros; lia | done]. Qed.

Lemma gsum_replace {A} (f : A -> Z) m k x y : m !! k = Some x -> gsum f (<[k := y]> m) = gsum f m - f x + f y.
Proof.
  intros Hk. rewrite <- (insert_delete_id m k x Hk) at 2. rewrite <- insert_delete_eq.
  rewrite !gsum_insert by apply lookup_delete_eq. lia.
Qed.

Lemma gsum_nonneg {A} (f : A -> Z) m : (forall y, 0 <= f y) -> 0 <= gsum f m.
Proof.
  intros Hf. induction m as [|k x m Hk IH] using map_ind; [done|]. rewrite gsum_insert by done. specialize (Hf x). lia.
Qed.

Lemma gsum_le {A} (f : A -> Z) m k x : (forall y, 0 <= f y) -> m !! k = Some x -> f x <= gsum f m.
Proof.
  intros Hf Hk. rewrite <- (insert_delete_id m k x Hk), gsum_insert by apply lookup_delete_eq.
  pose proof (gsum_nonneg f (delete k m) Hf). lia.
Qed.
