(* ===== verification/Addr.v ===== *)
(** The address codec of [src/mqp/addr.rs] and the codec errors of
    [src/mqp/error.rs]: [atyp u8 | addr | port u16 BE] with [0x01] IPv4,
    [0x04] IPv6, [0x03] domain.  Every frame that carries a binding embeds
    one of these addresses.

    The borrowed [TargetAddrRef] and the owned [TargetAddr] hold the same
    data, so one type stands for both.  A [&str] is the list of its UTF-8
    bytes; [utf8_valid] is the check of [std::str::from_utf8]. *)
From S2P Require Import Prelude.

(* ------------------------------------------------------------------ *)
(** ** Errors *)

Inductive MqpError : Type :=
| Malformed (why : string)
| Refused (why : string)
| BadAtyp (atyp : Z)
| BadBndAtyp (atyp : Z)
| BadDomainUtf8
| BadBatchCount (n : Z).

(* ------------------------------------------------------------------ *)
(** ** Socket addresses *)

Inductive SocketAddr : Type :=
| SockV4 (ip : bytes) (port : Z)
| SockV6 (ip : bytes) (port flowinfo scope_id : Z).

#[export] Instance SocketAddr_eq_dec : EqDecision SocketAddr.
Proof. solve_decision. Defined.

Definition is_unspecified (ip : bytes) : bool := forallb (fun o => o =? 0) ip.

(** The IP of a socket address ([SocketAddr::ip]); the two families have
    octet strings of different lengths. *)
Definition sock_ip (a : SocketAddr) : bytes :=
  match a with SockV4 ip _ => ip | SockV6 ip _ _ _ => ip end.

Inductive TargetAddr : Type :=
| AddrIp (a : SocketAddr)
| AddrDomain (d : bytes) (port : Z).

#[export] Instance TargetAddr_eq_dec : EqDecision TargetAddr.
Proof. solve_decision. Defined.

(** [TargetAddr::socket_addr]. *)
Definition socket_addr (t : TargetAddr) : option SocketAddr :=
  match t with AddrIp s => Some s | AddrDomain _ _ => None end.

(* ------------------------------------------------------------------ *)
(** ** UTF-8 ([std::str::from_utf8]) *)

Definition between (lo x hi : Z) : bool := (lo <=? x) && (x <=? hi).
Definition is_cont (x : Z) : bool := between 0x80 x 0xBF.

Fixpoint utf8_valid (b : bytes) : bool :=
  match b with
  | [] => true
  | x :: r =>
      if x <? 0x80 then utf8_valid r
      else if between 0xC2 x 0xDF then
        match r with
        | y :: r' => is_cont y && utf8_valid r'
        | _ => false
        end
      else if between 0xE0 x 0xEF then
        match r with
        | y :: z :: r' =>
            (if x =? 0xE0 then between 0xA0 y 0xBF
             else if x =? 0xED then between 0x80 y 0x9F
             else is_cont y) && is_cont z && utf8_valid r'
        | _ => false
        end
      else if between 0xF0 x 0xF4 then
        match r with
        | y :: z :: w :: r' =>
            (if x =? 0xF0 then between 0x90 y 0xBF
             else if x =? 0xF4 then between 0x80 y 0x8F
             else is_cont y) && is_cont z && is_cont w && utf8_valid r'
        | _ => false
        end
      else false
  end.

(* ------------------------------------------------------------------ *)
(** ** Encoding *)

(** [TargetAddrRef::encode]: append the wire form to [out]. *)
Definition encode (t : TargetAddr) (out : bytes) : res MqpError bytes :=
  match t with
  | AddrIp (SockV4 ip port) =>
      guard! negb (is_unspecified ip) else Refused "refuse unspecified v4" in
      Ok (out ++ [0x01] ++ ip ++ be16 port)
  | AddrIp (SockV6 ip port _ scope_id) =>
      guard! negb (is_unspecified ip) else Refused "refuse unspecified v6" in
      guard! scope_id =? 0
        else Refused "v6 scope_id dropped on wire, refuse scoped addr" in
      Ok (out ++ [0x04] ++ ip ++ be16 port)
  | AddrDomain d p =>
      guard! negb (len d =? 0) else Refused "empty domain" in
      guard! negb (len d >? 255) else Refused "domain too long" in
      Ok (out ++ [0x03] ++ [as_u8 (len d)] ++ d ++ be16 p)
  end.

(** [AddrHeader]: an address that was validated and measured. *)
Record AddrHeader : Type := mkAddrHeader { ah_addr : TargetAddr; ah_len : Z }.

Definition ADDR_MAX_LEN : Z := 1 + 1 + 255 + 2.

(** [TargetAddrRef::header]. *)
Definition header (t : TargetAddr) : res MqpError AddrHeader :=
  let! n :=
    match t with
    | AddrIp (SockV4 ip _) =>
        guard! negb (is_unspecified ip) else Refused "refuse unspecified v4" in
        Ok (1 + 4 + 2)
    | AddrIp (SockV6 ip _ _ scope_id) =>
        guard! negb (is_unspecified ip) else Refused "refuse unspecified v6" in
        guard! scope_id =? 0
          else Refused "v6 scope_id dropped on wire, refuse scoped addr" in
        Ok (1 + 16 + 2)
    | AddrDomain d _ =>
        let n := len d in
        guard! negb (n =? 0) else Refused "empty domain" in
        guard! negb (n >? 255) else Refused "domain too long" in
        Ok (1 + 1 + n + 2)
    end in
  Ok (mkAddrHeader t n).

(** [AddrHeader::encode_into]: write the header at the front of [out],
    giving the buffer and the number of bytes written. *)
Definition encode_into {E} (h : AddrHeader) (out : bytes) : res E (bytes * Z) :=
  match ah_addr h with
  | AddrIp (SockV4 ip port) =>
      let! out := write_at out 0 [0x01] in
      let! out := write_at out 1 ip in
      let! out := write_at out 5 (be16 port) in
      Ok (out, 7)
  | AddrIp (SockV6 ip port _ _) =>
      let! out := write_at out 0 [0x04] in
      let! out := write_at out 1 ip in
      let! out := write_at out 17 (be16 port) in
      Ok (out, 19)
  | AddrDomain d p =>
      let! out := write_at out 0 [0x03] in
      let! out := write_at out 1 [as_u8 (len d)] in
      let! out := write_at out 2 d in
      let! out := write_at out (2 + len d) (be16 p) in
      Ok (out, 4 + len d)
  end.

(** [put_addr] of [r2.rs] and [r3.rs] (the two are the same code): grow the
    frame by the header length and encode in place. *)
Definition put_addr {E} (out : bytes) (h : AddrHeader) : res E bytes :=
  let! '(w, _) := encode_into h (repeat 0 (Z.to_nat (ah_len h))) in
  Ok (out ++ w).

(* ------------------------------------------------------------------ *)
(** ** Decoding *)

(** [TargetAddrRef::decode]: the address at the front of [b] and its wire
    length. *)
Definition decode (b : bytes) : res MqpError (TargetAddr * Z) :=
  guard! negb (len b =? 0) else Malformed "empty addr" in
  let! atyp := idx b 0 in
  if atyp =? 0x01 then
    guard! negb (len b <? 7) else Malformed "short v4" in
    let! b1 := idx b 1 in let! b2 := idx b 2 in
    let! b3 := idx b 3 in let! b4 := idx b 4 in
    let ip := [b1; b2; b3; b4] in
    guard! negb (is_unspecified ip) else Refused "refuse unspecified v4 target" in
    let! p0 := idx b 5 in let! p1 := idx b 6 in
    Ok (AddrIp (SockV4 ip (of_be16 p0 p1)), 7)
  else if atyp =? 0x04 then
    guard! negb (len b <? 19) else Malformed "short v6" in
    let! o := sub b 1 17 in
    guard! negb (is_unspecified o) else Refused "refuse unspecified v6 target" in
    let! p0 := idx b 17 in let! p1 := idx b 18 in
    Ok (AddrIp (SockV6 o (of_be16 p0 p1) 0 0), 19)
  else if atyp =? 0x03 then
    guard! negb (len b <? 2) else Malformed "short domain" in
    let! n := idx b 1 in
    guard! negb (n =? 0) else Malformed "bad domain len" in
    guard! negb (len b <? 2 + n + 2) else Malformed "short domain body" in
    let! d := sub b 2 (2 + n) in
    guard! utf8_valid d else BadDomainUtf8 in
    let! p0 := idx b (2 + n) in let! p1 := idx b (3 + n) in
    Ok (AddrDomain d (of_be16 p0 p1), 4 + n)
  else Err (BadAtyp atyp).

(* ------------------------------------------------------------------ *)
(** ** Well-formed addresses *)

(** What the Rust types guarantee of an address value. *)
Definition addr_wf (t : TargetAddr) : Prop :=
  match t with
  | AddrIp (SockV4 ip port) => len ip = 4 /\ bytes_ok ip /\ is_u16 port
  | AddrIp (SockV6 ip port flowinfo scope_id) =>
      len ip = 16 /\ bytes_ok ip /\ is_u16 port /\ is_u32 flowinfo /\ is_u32 scope_id
  | AddrDomain d p => bytes_ok d /\ utf8_valid d = true /\ is_u16 p
  end.

(** What the wire keeps of an address: an IPv6 flow label is not carried. *)
Definition wire_addr (t : TargetAddr) : TargetAddr :=
  match t with
  | AddrIp (SockV6 ip port _ scope_id) => AddrIp (SockV6 ip port 0 scope_id)
  | _ => t
  end.

Lemma split_at_len {A} (l : list A) n m : len l = n + m -> 0 <= n -> 0 <= m ->
  exists x y, l = x ++ y /\ len x = n /\ len y = m.
Proof.
  intros Hl Hn Hm. exists (take (Z.to_nat n) l), (drop (Z.to_nat n) l).
  split; [by rewrite take_drop|]. unfold len in *.
  rewrite length_take, length_drop. lia.
Qed.

Lemma encode_app t out w :
  encode t out = Ok w <-> exists e, encode t [] = Ok e /\ w = out ++ e.
Proof.
  destruct t as [[ip p|ip p f s]|d p]; simpl; repeat case_match; naive_solver.
Qed.

(** Case analysis of a successful [encode]. *)
Lemma encode_inv t e : encode t [] = Ok e ->
  match t with
  | AddrIp (SockV4 ip port) => is_unspecified ip = false /\ e = 0x01 :: ip ++ be16 port
  | AddrIp (SockV6 ip port _ scope_id) =>
      is_unspecified ip = false /\ scope_id = 0 /\ e = 0x04 :: ip ++ be16 port
  | AddrDomain d p => 1 <= len d <= 255 /\ e = 0x03 :: len d :: d ++ be16 p
  end.
Proof.
  destruct t as [[ip p|ip p f s]|d p]; simpl; intros H; res_inv;
    rewrite ?negb_true_iff in *; repeat split; try done; try lens.
  subst e. rewrite as_u8_small by lens. done.
Qed.

Lemma encode_len t e : addr_wf t -> encode t [] = Ok e -> 5 <= len e <= ADDR_MAX_LEN.
Proof.
  intros Hwf H%encode_inv. unfold ADDR_MAX_LEN.
  destruct t as [[ip p|ip p f s]|d p]; simpl in *; destruct_and?; subst; lens.
Qed.

Lemma encode_bytes_ok t e : addr_wf t -> encode t [] = Ok e -> bytes_ok e.
Proof.
  intros Hwf H%encode_inv.
  destruct t as [[ip p|ip p f s]|d p]; simpl in *; destruct_and?; subst;
    repeat (apply bytes_ok_cons; split); try ulia;
    apply bytes_ok_app; auto with mq.
Qed.

(** [header] accepts exactly the addresses [encode] accepts, with the same
    error, and measures the bytes [encode] writes. *)
Lemma header_encode t : addr_wf t ->
  match header t, encode t [] with
  | Ok h, Ok e => h = mkAddrHeader t (len e)
  | Err x, Err y => x = y
  | _, _ => False
  end.
Proof.
  destruct t as [[ip p|ip p f s]|d p]; simpl; intros Hwf; unfold header;
    repeat (case_match; simplify_eq/=); try done; f_equal; lens.
Qed.

Lemma header_ok t h : addr_wf t -> header t = Ok h ->
  exists e, encode t [] = Ok e /\ h = mkAddrHeader t (len e).
Proof.
  intros Hwf Hh. pose proof (header_encode t Hwf) as H. rewrite Hh in H.
  destruct (encode t []); naive_solver.
Qed.

Lemma header_of_encode t e : addr_wf t -> encode t [] = Ok e ->
  header t = Ok (mkAddrHeader t (len e)).
Proof.
  intros Hwf He. pose proof (header_encode t Hwf) as H. rewrite He in H.
  destruct (header t); naive_solver.
Qed.

(** [encode_into] writes the bytes of [encode] at the front of any buffer
    that is long enough and leaves the rest of the buffer alone. *)
Lemma encode_into_encode {E} t e out tail : addr_wf t -> encode t [] = Ok e -> len out = len e ->
  @encode_into E (mkAddrHeader t (len e)) (out ++ tail) = Ok (e ++ tail, len e).
Proof.
  intros Hwf He%encode_inv Hl. unfold encode_into. simpl.
  destruct t as [[ip p|ip p f s]|d p]; simpl in *; destruct_and?; subst e.
  - destruct (split_at_len out 1 6) as (x0 & r & -> & Hx0 & Hr); [lens..|].
    destruct (split_at_len r 4 2) as (x1 & x2 & -> & Hx1 & Hx2); [lens..|].
    rewrite <- !app_assoc. erewrite (write_at_middle [] x0) by (done || lens); simpl.
    erewrite (write_at_middle [0x01] x1) by (done || lens); simpl.
    erewrite (write_at_middle (0x01 :: ip) x2) by (done || lens); simpl.
    f_equal; f_equal; [by rewrite <- app_assoc | lens].
  - destruct (split_at_len out 1 18) as (x0 & r & -> & Hx0 & Hr); [lens..|].
    destruct (split_at_len r 16 2) as (x1 & x2 & -> & Hx1 & Hx2); [lens..|].
    rewrite <- !app_assoc. erewrite (write_at_middle [] x0) by (done || lens); simpl.
    erewrite (write_at_middle [0x04] x1) by (done || lens); simpl.
    erewrite (write_at_middle (0x04 :: ip) x2) by (done || lens); simpl.
    f_equal; f_equal; [by rewrite <- app_assoc | lens].
  - destruct (split_at_len out 1 (3 + len d)) as (x0 & r & -> & Hx0 & Hr); [lens..|].
    destruct (split_at_len r 1 (2 + len d)) as (x1 & r' & -> & Hx1 & Hr'); [lens..|].
    destruct (split_at_len r' (len d) 2) as (x2 & x3 & -> & Hx2 & Hx3); [lens..|].
    rewrite <- !app_assoc. erewrite (write_at_middle [] x0) by (done || lens); simpl.
    rewrite as_u8_small by lens.
    erewrite (write_at_middle [0x03] x1) by (done || lens); simpl.
    erewrite (write_at_middle [0x03; len d] x2) by (done || lens); simpl.
    erewrite (write_at_middle (0x03 :: len d :: d) x3) by (done || lens); simpl.
    f_equal; f_equal; [by rewrite <- app_assoc | lens].
Qed.

Lemma len_repeat {A} (x : A) n : len (repeat x n) = Z.of_nat n.
Proof. unfold len. by rewrite repeat_length. Qed.
#[export] Hint Rewrite @len_repeat : len.

Lemma put_addr_ok {E} t e out : addr_wf t -> encode t [] = Ok e ->
  @put_addr E out (mkAddrHeader t (len e)) = Ok (out ++ e).
Proof.
  intros Hwf He. unfold put_addr; simpl. rewrite len_to_nat.
  rewrite <- (app_nil_r (repeat _ _)), (encode_into_encode t e _ []) by (done || lens).
  simpl. by rewrite app_nil_r.
Qed.

(* ------------------------------------------------------------------ *)
(** ** Decoding what was encoded, and only that *)

Lemma idx_cursor {E A} (b : list A) off x rest : cursor b off (x :: rest) -> @idx E A b off = Ok x.
Proof. intros H. unfold idx. by rewrite (cursor_get _ _ _ _ H). Qed.

Lemma sub_cursor {E A} (b : list A) off e x rest :
  cursor b off (x ++ rest) -> e = off + len x -> @sub E A b off e = Ok x.
Proof. intros H ->. unfold sub. by rewrite (cursor_slice _ _ _ _ _ H eq_refl). Qed.

(** Read the next item under the cursor [Hc]. *)
Ltac read_idx Hc := rewrite (idx_cursor _ _ _ _ Hc); apply cursor_cons in Hc; simpl.

Lemma decode_v4 b ip p rest : len ip = 4 -> is_u16 p -> is_unspecified ip = false ->
  cursor b 0 (0x01 :: ip ++ be16 p ++ rest) -> decode b = Ok (AddrIp (SockV4 ip p), 7).
Proof.
  intros Hl Hp Hu Hc. destruct ip as [|i0 [|i1 [|i2 [|i3 [|]]]]]; try (exfalso; lens).
  pose proof (cursor_bounds _ _ _ Hc) as [_ Hb]. unfold decode.
  pass_guard. read_idx Hc. pass_guard. do 4 read_idx Hc.
  simpl in Hu. rewrite Hu. simpl. do 2 read_idx Hc. by rewrite of_be16_be16.
Qed.

Lemma decode_v6 b ip p rest : len ip = 16 -> is_u16 p -> is_unspecified ip = false ->
  cursor b 0 (0x04 :: ip ++ be16 p ++ rest) -> decode b = Ok (AddrIp (SockV6 ip p 0 0), 19).
Proof.
  intros Hl Hp Hu Hc. pose proof (cursor_bounds _ _ _ Hc) as [_ Hb]. unfold decode.
  pass_guard. read_idx Hc. pass_guard.
  rewrite (sub_cursor b 1 17 ip _ Hc) by lens. simpl. rewrite Hu. simpl.
  apply cursor_app in Hc. rewrite Hl in Hc. do 2 read_idx Hc. by rewrite of_be16_be16.
Qed.

Lemma decode_domain b d p rest : 1 <= len d <= 255 -> is_u16 p -> utf8_valid d = true ->
  cursor b 0 (0x03 :: len d :: d ++ be16 p ++ rest) -> decode b = Ok (AddrDomain d p, 4 + len d).
Proof.
  intros Hl Hp Hu Hc. pose proof (cursor_bounds _ _ _ Hc) as [_ Hb]. unfold decode.
  pass_guard. read_idx Hc. pass_guard. read_idx Hc. do 2 pass_guard.
  rewrite (sub_cursor b 2 _ d _ Hc) by lens. simpl. rewrite Hu.
  apply cursor_app in Hc. read_idx Hc. replace (3 + len d) with (2 + len d + 1) by lia.
  read_idx Hc. by rewrite of_be16_be16.
Qed.

Lemma decode_encode t e rest : addr_wf t -> encode t [] = Ok e ->
  decode (e ++ rest) = Ok (wire_addr t, len e).
Proof.
  intros Hwf He%encode_inv.
  destruct t as [[ip p|ip p f s]|d p]; simpl in Hwf, He; destruct_and?; subst e.
  - erewrite decode_v4; [f_equal; f_equal; lens | done.. |].
    exists []. simpl. by rewrite <- app_assoc.
  - subst s. erewrite decode_v6; [f_equal; f_equal; lens | done.. |].
    exists []. simpl. by rewrite <- app_assoc.
  - erewrite decode_domain; [f_equal; f_equal; lens | done.. |].
    exists []. simpl. by rewrite <- app_assoc.
Qed.

(** The decoder accepts only canonical encodings: whatever it accepts is the
    encoding of the address it returns. *)
Lemma decode_inv b t n : bytes_ok b -> decode b = Ok (t, n) ->
  exists e rest, b = e ++ rest /\ n = len e /\ encode t [] = Ok e /\ addr_wf t /\ wire_addr t = t.
Proof.
  intros Hb Hd. unfold decode in Hd. pose proof (cursor_start b) as Hc. res_inv.
  match goal with H : get b 0 = Some _ |- _ => rename H into Hg end.
  assert (Hb' : exists r, b = v :: r /\ cursor b (0 + 1) r) by (eapply cursor_get_inv; eauto).
  destruct Hb' as (r & Hr & Hc1). rewrite Hr. clear Hc Hg.
  pose proof (cursor_bytes_ok _ _ _ Hb Hc1) as Hok.
  destruct (v =? 1) eqn:E1; [|destruct (v =? 4) eqn:E4].
  - apply Z.eqb_eq in E1 as ->. res_inv. read_all Hc1. subst t n.
    rewrite !bytes_ok_cons in Hok. destruct_and! Hok.
    eexists (0x01 :: [_; _; _; _] ++ [_; _]), _.
    split; [reflexivity|]. split; [done|]. cbn [encode].
    match goal with H : negb (is_unspecified _) = true |- _ => rewrite H end.
    rewrite be16_of_be16 by done. cbn [addr_wf]. split_and!; auto 8 with mq.
  - apply Z.eqb_eq in E4 as ->. res_inv. read_all Hc1. subst t n.
    rewrite bytes_ok_app, !bytes_ok_cons in Hok. destruct_and! Hok.
    eexists (0x04 :: _ ++ [_; _]), _. 
    split; [simpl; rewrite <- app_assoc; reflexivity|]. split; [lens|]. cbn [encode].
    match goal with H : negb (is_unspecified _) = true |- _ => rewrite H end. simpl.
    rewrite be16_of_be16 by done. cbn [addr_wf]. split_and!; auto with mq; lens.
  - res_inv.
    match goal with H : (v =? 3) = true |- _ => apply Z.eqb_eq in H as -> end.
    read_all Hc1. subst t n.
    rewrite !bytes_ok_cons, bytes_ok_app, !bytes_ok_cons in Hok. destruct_and! Hok.
    match goal with He : 2 + ?x = _ + len ?d |- _ =>
      assert (x = len d) as -> by lens; eexists (0x03 :: len d :: d ++ [_; _]), _ end.
    split_and!; [simpl; rewrite <- app_assoc; reflexivity | lens | | cbn; auto with mq | done].
    unfold encode. do 2 pass_guard. by rewrite as_u8_small, be16_of_be16 by done.
Qed.

Lemma decode_no_panic b : bytes_ok b -> decode b <> Panic.
Proof.
  intros Hb. unfold decode. repeat np_step;
  match goal with H : idx _ 1 = Ok ?n |- _ =>
    assert (is_u8 n) by (apply or_panic_ok in H; eapply Forall_lookup_1; eauto) end;
    repeat np_step.
Qed.

Lemma decode_bound b t n : bytes_ok b -> decode b = Ok (t, n) -> 0 <= n <= len b.
Proof. intros Hb (e & r & -> & -> & _)%decode_inv; [lens|done]. Qed.

#[export] Hint Resolve decode_no_panic : nopanic.

(* ------------------------------------------------------------------ *)
(** ** Properties of the address codec *)

(** Encoding an address and decoding it gives the address back (up to the
    IPv6 flow label, which the wire does not carry) and consumes exactly the
    bytes written, whatever follows; and the measured, allocation-free path
    ([header] then [put_addr]) writes the very same bytes. *)
Theorem addr_roundtrip t out rest w : addr_wf t -> encode t out = Ok w ->
  exists e, w = out ++ e /\ len e <= ADDR_MAX_LEN /\
    decode (e ++ rest) = Ok (wire_addr t, len e) /\
    header t = Ok (mkAddrHeader t (len e)) /\
    put_addr (E := unit) out (mkAddrHeader t (len e)) = Ok w.
Proof.
  intros Hwf (e & He & ->)%encode_app. exists e. split_and!; [done | | | |].
  - by apply (encode_len t e Hwf He).
  - by apply decode_encode.
  - by apply header_of_encode.
  - by apply put_addr_ok.
Qed.

Definition example_target : TargetAddr := AddrDomain [104; 105; 46; 105; 111] 443.

Lemma addr_roundtrip_witness : exists e,
  [9] ++ [3; 5; 104; 105; 46; 105; 111; 1; 187] = [9] ++ e /\ len e <= ADDR_MAX_LEN /\
  decode (e ++ [1; 2]) = Ok (wire_addr example_target, len e) /\
  header example_target = Ok (mkAddrHeader example_target (len e)) /\
  put_addr (E := unit) [9] (mkAddrHeader example_target (len e)) =
    Ok ([9] ++ [3; 5; 104; 105; 46; 105; 111; 1; 187]).
Proof.
  apply (addr_roundtrip example_target [9] [1; 2]).
  - cbn [addr_wf example_target]. split_and!; concrete.
  - reflexivity.
Defined.

(** On any byte string the decoder returns an error or an address, never
    panics, and an accepted address is canonical: re-encoding it gives back
    the bytes it was read from, so two different encodings of one address
    are never both accepted. *)
Theorem addr_decode_canonical b : bytes_ok b ->
  match decode b with
  | Ok (t, n) => addr_wf t /\ exists e rest, b = e ++ rest /\ n = len e /\ encode t [] = Ok e
  | Err _ => True
  | Panic => False
  end.
Proof.
  intros Hb. pose proof (decode_no_panic b Hb). destruct (decode b) as [[t n]|e|] eqn:E; try done.
  apply decode_inv in E as (e & rest & ? & ? & ? & ? & _); [|done]. eauto 6.
Qed.

Lemma addr_decode_canonical_witness :
  bytes_ok [1; 192; 0; 2; 1; 0; 53; 7] /\
  match decode [1; 192; 0; 2; 1; 0; 53; 7] with
  | Ok (t, n) => addr_wf t /\
      exists e rest, [1; 192; 0; 2; 1; 0; 53; 7] = e ++ rest /\ n = len e /\ encode t [] = Ok e
  | Err _ => True
  | Panic => False
  end.
Proof.
  assert (H : bytes_ok [1; 192; 0; 2; 1; 0; 53; 7]) by concrete.
  split; [exact H | exact (addr_decode_canonical [1; 192; 0; 2; 1; 0; 53; 7] H)].
Defined.
