(* ===== verification/Codec.v ===== *)
(** What the two wire codecs share: the little-endian field readers, reading an
    address behind a header, and the tactics that walk an encoder or a decoder
    along the bytes of its frame. *)
From S2P Require Import Prelude Addr.

(* ------------------------------------------------------------------ *)
(** ** Fixed-width fields

    A reader takes the buffer and an offset and gives the value with the
    offset after it.  The two error texts belong to the codec that uses it. *)

Definition get_le16 (overflow truncated : string) (b : bytes) (off : Z)
    : res MqpError (Z * Z) :=
  let! end_ := ok_or (checked_add off 2) (Malformed overflow) in
  let! s := ok_or (slice b off end_) (Malformed truncated) in
  let! s0 := idx s 0 in let! s1 := idx s 1 in
  Ok (of_le16 s0 s1, end_).

Definition get_le32 (overflow truncated : string) (b : bytes) (off : Z)
    : res MqpError (Z * Z) :=
  let! end_ := ok_or (checked_add off 4) (Malformed overflow) in
  let! s := ok_or (slice b off end_) (Malformed truncated) in
  let! s0 := idx s 0 in let! s1 := idx s 1 in
  let! s2 := idx s 2 in let! s3 := idx s 3 in
  Ok (of_le32 s0 s1 s2 s3, end_).

Section Fields.
Context (eo et : string).

Lemma get_le16_cursor b off n rest :
cursor b off (le16 n ++ rest) -> is_u16 n -> len b <= usize_max ->
get_le16 eo et b off = Ok (n, off + 2).
Proof.
intros Hc Hn Hb. pose proof (cursor_bounds _ _ _ Hc). unfold get_le16.
rewrite checked_add_small by lens. simpl.
rewrite (cursor_slice _ _ _ _ 2 Hc) by done. simpl. by rewrite of_le16_le16.
Qed.

Lemma get_le32_cursor b off n rest :
cursor b off (le32 n ++ rest) -> is_u32 n -> len b <= usize_max ->
get_le32 eo et b off = Ok (n, off + 4).
Proof.
intros Hc Hn Hb. pose proof (cursor_bounds _ _ _ Hc). unfold get_le32.
rewrite checked_add_small by lens. simpl.
rewrite (cursor_slice _ _ _ _ 4 Hc) by done. simpl. by rewrite of_le32_le32.
Qed.

Lemma get_le16_inv b off r n off' :
bytes_ok b -> cursor b off r -> get_le16 eo et b off = Ok (n, off') ->
exists r', r = le16 n ++ r' /\ off' = off + 2 /\ cursor b off' r' /\ is_u16 n.
Proof.
intros Hb Hc H. pose proof (cursor_bytes_ok _ _ _ Hb Hc) as Hr. unfold get_le16 in H. res_inv.
apply checked_add_ok in H0 as [_ ->].
destruct (cursor_slice_inv b off off (off + 2) r v0 Hc H1 eq_refl) as (r' & -> & He & Hc').
destruct v0 as [|x [|y [|]]]; try (exfalso; lens).
injection H2 as <-. injection H3 as <-. subst.
apply bytes_ok_app in Hr as [Hr _]. rewrite !bytes_ok_cons in Hr. destruct_and! Hr.
exists r'. rewrite le16_of_le16 by done. eauto with mq.
Qed.

Lemma get_le32_inv b off r n off' :
bytes_ok b -> cursor b off r -> get_le32 eo et b off = Ok (n, off') ->
exists r', r = le32 n ++ r' /\ off' = off + 4 /\ cursor b off' r' /\ is_u32 n.
Proof.
intros Hb Hc H. pose proof (cursor_bytes_ok _ _ _ Hb Hc) as Hr. unfold get_le32 in H. res_inv.
apply checked_add_ok in H0 as [_ ->].
destruct (cursor_slice_inv b off off (off + 4) r v0 Hc H1 eq_refl) as (r' & -> & He & Hc').
destruct v0 as [|x [|y [|z [|w [|]]]]]; try (exfalso; lens).
injection H2 as <-. injection H3 as <-. injection H4 as <-. injection H5 as <-. subst.
apply bytes_ok_app in Hr as [Hr _]. rewrite !bytes_ok_cons in Hr. destruct_and! Hr.
exists r'. rewrite le32_of_le32 by done. eauto 10 with mq.
Qed.

Lemma get_le16_no_panic b off : 0 <= off -> get_le16 eo et b off <> Panic.
Proof.
intros Hoff. unfold get_le16. repeat np_step; res_inv;
  apply checked_add_ok in H as [_ ->]; apply slice_cursor in H0 as (r & _ & ?); try done;
  np_step.
Qed.

Lemma get_le32_no_panic b off : 0 <= off -> get_le32 eo et b off <> Panic.
Proof.
intros Hoff. unfold get_le32. repeat np_step; res_inv;
  apply checked_add_ok in H as [_ ->]; apply slice_cursor in H0 as (r & _ & ?); try done;
  np_step.
Qed.

Lemma get_le16_bound b off n off' : 0 <= off -> get_le16 eo et b off = Ok (n, off') -> off' <= len b /\ off' = off + 2.
Proof.
intros Ho H. unfold get_le16 in H. res_inv. apply checked_add_ok in H0 as [_ ->].
destruct (slice_cursor _ _ _ _ Ho H1) as (r & Hc%cursor_bounds & ?). lens.
Qed.

Lemma get_le32_bound b off n off' : 0 <= off -> get_le32 eo et b off = Ok (n, off') -> off' <= len b /\ off' = off + 4.
Proof.
intros Ho H. unfold get_le32 in H. res_inv. apply checked_add_ok in H0 as [_ ->].
destruct (slice_cursor _ _ _ _ Ho H1) as (r & Hc%cursor_bounds & ?). lens.
Qed.

Lemma get_le16_step b off n rest : is_u16 n -> len b <= usize_max ->
cursor b off (le16 n ++ rest) -> get_le16 eo et b off = Ok (n, off + 2) /\ cursor b (off + 2) rest.
Proof. intros. split; [by eapply get_le16_cursor | by apply (cursor_app _ _ (le16 n))]. Qed.

Lemma get_le32_step b off n rest : is_u32 n -> len b <= usize_max ->
cursor b off (le32 n ++ rest) -> get_le32 eo et b off = Ok (n, off + 4) /\ cursor b (off + 4) rest.
Proof. intros. split; [by eapply get_le32_cursor | by apply (cursor_app _ _ (le32 n))]. Qed.
End Fields.

#[export] Hint Resolve get_le16_no_panic get_le32_no_panic : nopanic.

(** Bits placed above a value that fits below them are added to it. *)
Lemma lor_shift k h l : 0 <= k -> 0 <= h -> 0 <= l < 2 ^ k ->
  Z.lor l (Z.shiftl h k) = l + h * 2 ^ k.
Proof.
  intros Hk Hh Hl. rewrite <- Z.lxor_lor, <- Z.add_nocarry_lxor, Z.shiftl_mul_pow2; try lia.
  all: apply Z.bits_inj'; intros i Hi; rewrite Z.land_spec, Z.bits_0.
  all: destruct (Z.ltb_spec i k).
  all: try (rewrite (Z.shiftl_spec_low h k i) by lia; apply andb_false_r).
  all: rewrite <- (Z.mod_small l (2 ^ k)), Z.mod_pow2_bits_high by lia; done.
Qed.

Lemma lor_shift8 h l : 0 <= h -> is_u8 l -> Z.lor (Z.shiftl h 8) l = h * 2 ^ 8 + l.
Proof. intros Hh Hl. rewrite Z.lor_comm, lor_shift by ulia. lia. Qed.

(* ------------------------------------------------------------------ *)
(** ** Frames with an address *)

Lemma sub_from_cursor {E} (b : bytes) off rest : cursor b off rest -> @sub_from E Z b off = Ok rest.
Proof. intros H. unfold sub_from. by rewrite (cursor_slice_from _ _ _ H). Qed.

Ltac step_addr Hc :=
  rewrite (sub_from_cursor _ _ _ Hc); cbn [res_bind];
  match goal with
  | Hw : addr_wf ?t, He : encode ?t [] = Ok ?e |- context [decode (?e ++ ?r)] =>
      rewrite (decode_encode t e r Hw He); cbn [res_bind]; apply cursor_app in Hc
  end.

(** Invert the reads of a successful decode along the cursor [Hc]. *)
Ltac inv_rest Hc :=
  match goal with
  | H : slice_from ?b ?o = Some ?x |- _ =>
      pose proof (cursor_slice_from_inv b _ o _ x Hc H eq_refl); subst x; clear H
  end.
Ltac inv_addr Hb Hc :=
  inv_rest Hc;
  match goal with
  | H : decode ?r = Ok (?t, ?n) |- _ =>
      let e := fresh "e" in let r' := fresh "r" in let Er := fresh "Er" in
      destruct (decode_inv r t n (cursor_bytes_ok _ _ _ Hb Hc) H)
        as (e & r' & Er & ? & ? & ? & ?);
      rewrite Er in Hc; apply cursor_app in Hc; clear H; subst n
  end.

(** Solve a header-carrying encoder in both directions. *)
Ltac enc_fwd :=
  let H := fresh "Henc" in intros H; res_inv;
  match goal with
  | Hw : addr_wf _, Hh : header _ = Ok _, Hp : put_addr _ _ = Ok _ |- _ =>
      let e := fresh "e" in let He := fresh "He" in
      apply (header_ok _ _ Hw) in Hh as (e & He & ->); exists e;
      rewrite (put_addr_ok _ _ _ Hw He) in Hp; res_inv; subst
  end.
Ltac enc_bwd :=
  match goal with
  | Hw : addr_wf _, He : encode _ [] = Ok _ |- _ =>
      rewrite (header_of_encode _ _ Hw He); cbn [res_ok res_bind ah_len];
      pass_guard; rewrite (put_addr_ok _ _ _ Hw He)
  end.

(** The boolean guards of the encoders, as conjunctions. *)
Ltac bools :=
  rewrite ?negb_orb, ?negb_involutive, ?andb_true_iff in *; destruct_and?.

(* ------------------------------------------------------------------ *)
(** ** Burst frames: dictionaries and items *)

Lemma len_map {A B} (f : A -> B) l : len (map f l) = len l.
Proof. unfold len. by rewrite length_map. Qed.

#[export] Hint Rewrite @len_map : len.

Lemma existsb_eqb f l : existsb (Z.eqb f) l = bool_decide (f ∈ l).
Proof.
  apply eq_bool_prop_intro. rewrite bool_decide_spec, Is_true_true, existsb_exists, list_elem_of_In.
  split; [intros (x & Hx & ->%Z.eqb_eq); done | intros H; exists f; by rewrite Z.eqb_refl].
Qed.

Lemma write_at_next {E A} (pre z : list A) x y :
  @write_at E A (pre ++ x :: z) (len pre) [y] = Ok ((pre ++ [y]) ++ z).
Proof. rewrite (write_at_middle pre [x] [y] z) by done. by rewrite <- app_assoc. Qed.

(** The flow array of a decoder beyond its dictionary. *)
Lemma get_padded (fs : list Z) n i : 0 <= i < len fs -> get (fs ++ replicate n 0) i = get fs i.
Proof. intros Hi. unfold get. apply lookup_app_l. unfold len in *. lia. Qed.

(** A payload that the walk stepped over is in the buffer. *)
Lemma payload_inv {A} (b : list A) off l r : cursor b off r -> 0 <= l -> off + l <= len b ->
  exists p rest, r = p ++ rest /\ len p = l /\ cursor b (off + l) rest.
Proof.
  intros Hc Hl He. pose proof (cursor_bounds _ _ _ Hc).
  exists (take (Z.to_nat l) r), (drop (Z.to_nat l) r).
  assert (len (take (Z.to_nat l) r) = l) by (unfold len in *; rewrite length_take; lia).
  split_and!; [by rewrite take_drop | done |].
  rewrite <- (take_drop (Z.to_nat l) r) in Hc. apply cursor_app in Hc. congruence.
Qed.

(** Invert a successful [Option] computation. *)
Ltac destruct_if_none H E :=
  match type of H with (if ?c then None else _) = Some _ =>
    destruct c eqn:E; [discriminate H|] end.
Ltac opt_inv_base :=
  match goal with
  | H : (_ ← _; _) = Some _ |- _ =>
      let x := fresh "x" in let E := fresh "E" in
      apply bind_Some in H as (x & E & H)
  | H : checked_add _ _ = Some _ |- _ => apply checked_add_ok in H as [? ->]
  | H : checked_mul _ _ = Some _ |- _ => apply checked_mul_ok in H as [? ->]
  | H : (if _ then None else _) = Some _ |- _ =>
      let E := fresh "E" in destruct_if_none H E
  end.
Ltac opt_inv := repeat opt_inv_base.
