(* ===== verification/R3.v ===== *)
(** The MQP-3 rev3 wire codec of [src/mqp/r3.rs]: frame classes, the
    owner-split 14-bit flow-id space and its allocator, the [DATA] frames
    (steady and the four extended forms) and the [FRAG] frames.  [TRAIN]
    frames are in [R3Train], control messages in [R3Ctl]. *)
From S2P Require Import Prelude Addr Codec.

(* ------------------------------------------------------------------ *)
(** ** Frame classes, forms and bounds *)

Definition CLASS_MASK : Z := 0xC0.
Definition CLASS_DATA : Z := 0x00.
Definition CLASS_DATA_EXT : Z := 0x40.
Definition CLASS_TRAIN : Z := 0x80.
Definition CLASS_FRAG : Z := 0xC0.

Definition FLAG_OPEN : Z := 0x01.
Definition FLAG_SRC : Z := 0x02.
Definition FLAG_INLINE : Z := 0x04.

Definition FORM_OPEN : Z := FLAG_OPEN.
Definition FORM_SRC : Z := FLAG_SRC.
Definition FORM_OPEN_SRC : Z := Z.lor FLAG_OPEN FLAG_SRC.
Definition FORM_INLINE : Z := FLAG_INLINE.

Definition EXT_RESERVED_MASK : Z := 0x30.
Definition EXT_FLAGS_MASK : Z := 0x0F.

Definition FID_MAX : Z := 0x3FFF.
Definition CLIENT_FID_MAX : Z := 0x1FFF.
Definition SERVER_FID_BASE : Z := 0x2000.
Definition FIDS_PER_OWNER : Z := 8192.

Definition MAX_FRAG_TOTAL : Z := 64.
Definition MAX_FRAG_BYTES : Z := 8192.

Inductive R3Kind : Type := Data | DataExt | Train | Frag.

#[export] Instance R3Kind_eq_dec : EqDecision R3Kind.
Proof. solve_decision. Defined.

Definition is_r3 (b : bytes) : bool := negb (len b =? 0).

Definition kind (b : bytes) : option R3Kind :=
  match first b with
  | None => None
  | Some b0 =>
      let c := Z.land b0 CLASS_MASK in
      Some (if c =? CLASS_DATA then Data
            else if c =? CLASS_DATA_EXT then DataExt
            else if c =? CLASS_TRAIN then Train
            else Frag)
  end.

(* ------------------------------------------------------------------ *)
(** ** Flow ids *)

Inductive FidOwner : Type := Client | Server.

#[export] Instance FidOwner_eq_dec : EqDecision FidOwner.
Proof. solve_decision. Defined.

Definition is_client_fid (fid : Z) : bool := fid <=? CLIENT_FID_MAX.
Definition is_server_fid (fid : Z) : bool := (SERVER_FID_BASE <=? fid) && (fid <=? FID_MAX).
Definition valid_fid (fid : Z) : bool := fid <=? FID_MAX.

Definition fid_owner (fid : Z) : option FidOwner :=
  if is_client_fid fid then Some Client
  else if is_server_fid fid then Some Server
  else None.

Definition require_fid_owner (fid : Z) (owner : FidOwner) (bad : string) : res MqpError unit :=
  let ok := match owner with
            | Client => is_client_fid fid
            | Server => is_server_fid fid
            end in
  if ok then Ok tt else Err (Malformed bad).

(** The monotonic allocator of one endpoint's half of the id space. *)
Record FlowIds : Type := mkFlowIds {
  fi_owner : FidOwner;
  fi_next : Z;
  fi_end : Z;
  fi_base : Z
}.

Definition FlowIds_new (owner : FidOwner) : FlowIds :=
  let '(base, end_) := match owner with
                       | Client => (0, FIDS_PER_OWNER)
                       | Server => (SERVER_FID_BASE, SERVER_FID_BASE + FIDS_PER_OWNER)
                       end in
  mkFlowIds owner base end_ base.

Definition FlowIds_alloc (s : FlowIds) : option Z * FlowIds :=
  if fi_next s >=? fi_end s then (None, s)
  else (Some (as_u16 (fi_next s)),
        mkFlowIds (fi_owner s) (fi_next s + 1) (fi_end s) (fi_base s)).

Definition FlowIds_remaining (s : FlowIds) : Z := fi_end s - fi_next s.
Definition FlowIds_allocated (s : FlowIds) : Z := fi_next s - fi_base s.
Definition FlowIds_is_exhausted (s : FlowIds) : bool := fi_next s >=? fi_end s.

(* ------------------------------------------------------------------ *)
(** ** Fixed-width fields *)

Definition get_u16 (b : bytes) (off : Z) : res MqpError (Z * Z) :=
  get_le16 "r3 u16 offset overflow" "truncated r3 u16" b off.

Definition get_u32 (b : bytes) (off : Z) : res MqpError (Z * Z) :=
  get_le32 "r3 u32 offset overflow" "truncated r3 u32" b off.

Definition put_u16 (out : bytes) (n : Z) : bytes := out ++ le16 n.
Definition put_u32 (out : bytes) (n : Z) : bytes := out ++ le32 n.

Definition ext_flags (b0 : Z) (bad_reserved : string) : res MqpError Z :=
  guard! negb (negb (Z.land b0 EXT_RESERVED_MASK =? 0)) else Malformed bad_reserved in
  Ok (Z.land b0 EXT_FLAGS_MASK).

(* ------------------------------------------------------------------ *)
(** ** DATA *)

Record DataRef : Type := mkDataRef {
  d_fid : option Z;
  d_sess : option Z;
  d_addr : option TargetAddr;
  d_src : bool;
  d_payload : bytes
}.

Definition data_steady_len (payload_len : Z) : Z := 2 + payload_len.
Definition data_open_len (addr_len payload_len : Z) : Z := 7 + addr_len + payload_len.
Definition data_src_len (addr_len payload_len : Z) : Z := 3 + addr_len + payload_len.
Definition data_inline_len (addr_len payload_len : Z) : Z := 5 + addr_len + payload_len.

Definition encode_data_steady (fid : Z) (payload : bytes) (limit : Z) : res unit bytes :=
  guard! negb (negb (valid_fid fid)) else tt in
  let total := data_steady_len (len payload) in
  guard! negb (total >? limit) else tt in
  let v := [] ++ [Z.land (as_u8 (Z.shiftr fid 8)) 0x3F] in
  let v := v ++ [as_u8 fid] in
  let v := v ++ payload in
  Ok v.

Definition encode_data_open (fid sess : Z) (addr : TargetAddr) (src : bool)
    (payload : bytes) (limit : Z) : res unit bytes :=
  let owner := if src then Server else Client in
  let! _ := res_ok (require_fid_owner fid owner "r3 data open fid owner") in
  let! h := res_ok (header addr) in
  let total := data_open_len (ah_len h) (len payload) in
  guard! negb (total >? limit) else tt in
  let flags := if src then FORM_OPEN_SRC else FORM_OPEN in
  let v := [] ++ [Z.lor CLASS_DATA_EXT flags] in
  let v := put_u16 v fid in
  let v := put_u32 v sess in
  let! v := put_addr v h in
  let v := v ++ payload in
  Ok v.

Definition encode_data_src (fid : Z) (addr : TargetAddr) (payload : bytes) (limit : Z)
    : res unit bytes :=
  guard! negb (negb (valid_fid fid)) else tt in
  let! h := res_ok (header addr) in
  let total := data_src_len (ah_len h) (len payload) in
  guard! negb (total >? limit) else tt in
  let v := [] ++ [Z.lor CLASS_DATA_EXT FORM_SRC] in
  let v := put_u16 v fid in
  let! v := put_addr v h in
  let v := v ++ payload in
  Ok v.

Definition encode_data_inline (sess : Z) (addr : TargetAddr) (payload : bytes) (limit : Z)
    : res unit bytes :=
  let! h := res_ok (header addr) in
  let total := data_inline_len (ah_len h) (len payload) in
  guard! negb (total >? limit) else tt in
  let v := [] ++ [Z.lor CLASS_DATA_EXT FORM_INLINE] in
  let v := put_u32 v sess in
  let! v := put_addr v h in
  let v := v ++ payload in
  Ok v.

Definition decode_data (b : bytes) : res MqpError DataRef :=
  let! b0 := ok_or (first b) (Malformed "empty r3 frame") in
  let cls := Z.land b0 CLASS_MASK in
  if cls =? CLASS_DATA then
    let! b1 := ok_or (get b 1) (Malformed "short r3 data") in
    let fid := Z.lor (Z.shiftl (Z.land b0 0x3F) 8) b1 in
    let! payload := sub_from b 2 in
    Ok (mkDataRef (Some fid) None None false payload)
  else if cls =? CLASS_DATA_EXT then
    let! flags := ext_flags b0 "bad r3 data reserved" in
    let off := 1 in
    if (flags =? FORM_OPEN) || (flags =? FORM_OPEN_SRC) then
      let src := flags =? FORM_OPEN_SRC in
      let! '(fid, off) := get_u16 b off in
      let owner := if src then Server else Client in
      let! _ := require_fid_owner fid owner "r3 data open fid owner" in
      let! '(sess, off) := get_u32 b off in
      let! rest := sub_from b off in
      let! '(addr, n) := decode rest in
      let off := off + n in
      let! payload := sub_from b off in
      Ok (mkDataRef (Some fid) (Some sess) (Some addr) src payload)
    else if flags =? FORM_SRC then
      let! '(fid, off) := get_u16 b off in
      guard! negb (negb (valid_fid fid)) else Malformed "bad r3 data fid" in
      let! rest := sub_from b off in
      let! '(addr, n) := decode rest in
      let off := off + n in
      let! payload := sub_from b off in
      Ok (mkDataRef (Some fid) None (Some addr) true payload)
    else if flags =? FORM_INLINE then
      let! '(sess, off) := get_u32 b off in
      let! rest := sub_from b off in
      let! '(addr, n) := decode rest in
      let off := off + n in
      let! payload := sub_from b off in
      Ok (mkDataRef None (Some sess) (Some addr) false payload)
    else Err (Malformed "bad r3 data flags")
  else Err (Malformed "bad r3 data kind").

(* ------------------------------------------------------------------ *)
(** ** FRAG *)

Record FragRef : Type := mkFragRef {
  f_fid : option Z;
  f_sess : option Z;
  f_addr : option TargetAddr;
  f_src : bool;
  f_frag_id : Z;
  f_idx : Z;
  f_total : Z;
  f_chunk_off : Z;
  f_chunk : bytes
}.

Definition frag_steady_len (chunk_len : Z) : Z := 9 + chunk_len.
Definition frag_open_len (addr_len chunk_len : Z) : Z := 13 + addr_len + chunk_len.
Definition frag_src_len (addr_len chunk_len : Z) : Z := 9 + addr_len + chunk_len.
Definition frag_inline_len (addr_len chunk_len : Z) : Z := 11 + addr_len + chunk_len.

Definition frag_meta_ok (idx total : Z) (chunk : bytes) : bool :=
  ((1 <=? total) && (total <=? MAX_FRAG_TOTAL))
  && (idx <? total)
  && negb (len chunk =? 0)
  && (len chunk <=? MAX_FRAG_BYTES).

Definition encode_frag_steady (fid frag_id idx total : Z) (chunk : bytes) (limit : Z)
    : res unit bytes :=
  guard! negb (negb (valid_fid fid) || negb (frag_meta_ok idx total chunk)) else tt in
  let total_len := frag_steady_len (len chunk) in
  guard! negb (total_len >? limit) else tt in
  let v := [] ++ [CLASS_FRAG] in
  let v := put_u16 v fid in
  let v := put_u32 v frag_id in
  let v := v ++ [idx] in
  let v := v ++ [total] in
  let v := v ++ chunk in
  Ok v.

Definition encode_frag_open (fid sess : Z) (addr : TargetAddr) (src : bool)
    (frag_id idx total : Z) (chunk : bytes) (limit : Z) : res unit bytes :=
  let owner := if src then Server else Client in
  let! _ := res_ok (require_fid_owner fid owner "r3 frag open fid owner") in
  guard! negb (negb (frag_meta_ok idx total chunk)) else tt in
  let! h := res_ok (header addr) in
  let total_len := frag_open_len (ah_len h) (len chunk) in
  guard! negb (total_len >? limit) else tt in
  let flags := if src then FORM_OPEN_SRC else FORM_OPEN in
  let v := [] ++ [Z.lor CLASS_FRAG flags] in
  let v := put_u16 v fid in
  let v := put_u32 v frag_id in
  let v := v ++ [idx] in
  let v := v ++ [total] in
  let v := put_u32 v sess in
  let! v := put_addr v h in
  let v := v ++ chunk in
  Ok v.

Definition encode_frag_src (fid : Z) (addr : TargetAddr) (frag_id idx total : Z)
    (chunk : bytes) (limit : Z) : res unit bytes :=
  guard! negb (negb (valid_fid fid) || negb (frag_meta_ok idx total chunk)) else tt in
  let! h := res_ok (header addr) in
  let total_len := frag_src_len (ah_len h) (len chunk) in
  guard! negb (total_len >? limit) else tt in
  let v := [] ++ [Z.lor CLASS_FRAG FORM_SRC] in
  let v := put_u16 v fid in
  let v := put_u32 v frag_id in
  let v := v ++ [idx] in
  let v := v ++ [total] in
  let! v := put_addr v h in
  let v := v ++ chunk in
  Ok v.

Definition encode_frag_inline (sess : Z) (addr : TargetAddr) (frag_id idx total : Z)
    (chunk : bytes) (limit : Z) : res unit bytes :=
  guard! negb (negb (frag_meta_ok idx total chunk)) else tt in
  let! h := res_ok (header addr) in
  let total_len := frag_inline_len (ah_len h) (len chunk) in
  guard! negb (total_len >? limit) else tt in
  let v := [] ++ [Z.lor CLASS_FRAG FORM_INLINE] in
  let v := put_u32 v frag_id in
  let v := v ++ [idx] in
  let v := v ++ [total] in
  let v := put_u32 v sess in
  let! v := put_addr v h in
  let v := v ++ chunk in
  Ok v.

(** The flow id and the source flag of the form, read from offset 1. *)
Definition decode_frag_flow (b : bytes) (flags : Z) : res MqpError (option Z * bool * Z) :=
  let off := 1 in
  if flags =? 0 then
    let! '(fid, off) := get_u16 b off in
    guard! negb (negb (valid_fid fid)) else Malformed "bad r3 frag fid" in
    Ok (Some fid, false, off)
  else if (flags =? FORM_OPEN) || (flags =? FORM_OPEN_SRC) then
    let src := flags =? FORM_OPEN_SRC in
    let! '(fid, off) := get_u16 b off in
    let owner := if src then Server else Client in
    let! _ := require_fid_owner fid owner "r3 frag open fid owner" in
    Ok (Some fid, src, off)
  else if flags =? FORM_SRC then
    let! '(fid, off) := get_u16 b off in
    guard! negb (negb (valid_fid fid)) else Malformed "bad r3 frag fid" in
    Ok (Some fid, true, off)
  else if flags =? FORM_INLINE then Ok (None, false, off)
  else Err (Malformed "bad r3 frag flags").

(** The binding context of the form: session and address. *)
Definition decode_frag_ctx (b : bytes) (flags off : Z)
    : res MqpError (option Z * option TargetAddr * Z) :=
  if (flags =? FORM_OPEN) || (flags =? FORM_OPEN_SRC) || (flags =? FORM_INLINE) then
    let! '(sess, off) := get_u32 b off in
    let! rest := sub_from b off in
    let! '(addr, n) := decode rest in
    Ok (Some sess, Some addr, off + n)
  else if flags =? FORM_SRC then
    let! rest := sub_from b off in
    let! '(addr, n) := decode rest in
    Ok (None, Some addr, off + n)
  else Ok (None, None, off).

Definition decode_frag (b : bytes) : res MqpError FragRef :=
  let! b0 := ok_or (first b) (Malformed "empty r3 frame") in
  guard! negb (negb (Z.land b0 CLASS_MASK =? CLASS_FRAG)) else Malformed "bad r3 frag kind" in
  let! flags := ext_flags b0 "bad r3 frag reserved" in
  let! '(fid, src, off) := decode_frag_flow b flags in
  let! '(frag_id, off) := get_u32 b off in
  let! idx := ok_or (get b off) (Malformed "short r3 frag idx") in
  let! total := ok_or (get b (off + 1)) (Malformed "short r3 frag total") in
  let off := off + 2 in
  let! '(sess, addr, off) := decode_frag_ctx b flags off in
  let! chunk := sub_from b off in
  guard! negb (negb (frag_meta_ok idx total chunk)) else Malformed "bad r3 frag meta" in
  Ok (mkFragRef fid sess addr src frag_id idx total off chunk).

(* ------------------------------------------------------------------ *)
(** ** Lemmas: fields under a cursor *)

Lemma get_u16_step b off n rest : is_u16 n -> len b <= usize_max ->
  cursor b off (le16 n ++ rest) -> get_u16 b off = Ok (n, off + 2) /\ cursor b (off + 2) rest.
Proof. apply get_le16_step. Qed.

Lemma get_u32_step b off n rest : is_u32 n -> len b <= usize_max ->
  cursor b off (le32 n ++ rest) -> get_u32 b off = Ok (n, off + 4) /\ cursor b (off + 4) rest.
Proof. apply get_le32_step. Qed.

Lemma get_u16_inv b off r n off' :
  bytes_ok b -> cursor b off r -> get_u16 b off = Ok (n, off') ->
  exists r', r = le16 n ++ r' /\ off' = off + 2 /\ cursor b off' r' /\ is_u16 n.
Proof. apply get_le16_inv. Qed.

Lemma get_u32_inv b off r n off' :
  bytes_ok b -> cursor b off r -> get_u32 b off = Ok (n, off') ->
  exists r', r = le32 n ++ r' /\ off' = off + 4 /\ cursor b off' r' /\ is_u32 n.
Proof. apply get_le32_inv. Qed.

Lemma get_u16_no_panic b off : 0 <= off -> get_u16 b off <> Panic.
Proof. apply get_le16_no_panic. Qed.

Lemma get_u32_no_panic b off : 0 <= off -> get_u32 b off <> Panic.
Proof. apply get_le32_no_panic. Qed.

#[export] Hint Resolve get_u16_no_panic get_u32_no_panic : nopanic.

Lemma get_u16_bound b off n off' : 0 <= off -> get_u16 b off = Ok (n, off') ->
  off' <= len b /\ off' = off + 2.
Proof. apply get_le16_bound. Qed.

Lemma get_u32_bound b off n off' : 0 <= off -> get_u32 b off = Ok (n, off') ->
  off' <= len b /\ off' = off + 4.
Proof. apply get_le32_bound. Qed.

Lemma ext_flags_no_panic b0 bad : ext_flags b0 bad <> Panic.
Proof. unfold ext_flags. by case_match. Qed.

Lemma require_fid_owner_no_panic fid o bad : require_fid_owner fid o bad <> Panic.
Proof. unfold require_fid_owner. by case_match. Qed.

#[export] Hint Resolve ext_flags_no_panic require_fid_owner_no_panic : nopanic.

Ltac np_learn ::=
  first
  [ np_learn_base
  | match goal with
    | H : get_u16 ?b ?o = Ok (_, ?o') |- _ =>
        lazymatch goal with _ : o' <= len b |- _ => fail | _ => idtac end;
        destruct (get_u16_bound b o _ o' ltac:(lens) H)
    | H : get_u32 ?b ?o = Ok (_, ?o') |- _ =>
        lazymatch goal with _ : o' <= len b |- _ => fail | _ => idtac end;
        destruct (get_u32_bound b o _ o' ltac:(lens) H)
    | Hb : bytes_ok ?r, H : decode ?r = Ok (_, ?n) |- _ =>
        lazymatch goal with _ : 0 <= n <= len r |- _ => fail | _ => idtac end;
        pose proof (decode_bound r _ n Hb H)
    end ].

(** Lemmas on the first byte. *)

Lemma fid_high fid : is_u16 fid -> valid_fid fid = true ->
  Z.land (as_u8 (Z.shiftr fid 8)) 0x3F = fid / 2 ^ 8 /\ 0 <= fid / 2 ^ 8 < 64.
Proof.
  unfold valid_fid, FID_MAX. intros Hf Hv.
  change 0x3F with (Z.ones 6). rewrite Z.land_ones, Z.shiftr_div_pow2 by lia. umod.
Qed.

Definition first_byte_checks (b0 : Z) : bool :=
  implb (b0 <? 64) ((Z.land b0 CLASS_MASK =? CLASS_DATA) && (Z.land b0 0x3F =? b0)).

Lemma small_first_byte b0 : 0 <= b0 < 64 ->
  Z.land b0 CLASS_MASK = CLASS_DATA /\ Z.land b0 0x3F = b0.
Proof.
  intros H. assert (Hc : first_byte_checks b0 = true).
  { apply u8_exhaust; [vm_compute; reflexivity | ulia]. }
  unfold first_byte_checks in Hc. lia.
Qed.

(** A byte is its class bits plus its low six bits. *)
Definition class_split_checks (b0 : Z) : bool :=
  (b0 =? Z.lor (Z.land b0 CLASS_MASK) (Z.land b0 0x3F)) &&
  implb (Z.land b0 CLASS_MASK =? CLASS_DATA) (b0 <? 64) &&
  implb (Z.land b0 EXT_RESERVED_MASK =? 0)
        (b0 =? Z.lor (Z.land b0 CLASS_MASK) (Z.land b0 EXT_FLAGS_MASK)).

Lemma class_split b0 : is_u8 b0 -> class_split_checks b0 = true.
Proof. apply u8_exhaust. vm_compute. reflexivity. Qed.

(* ------------------------------------------------------------------ *)
(** ** DATA frames: the four forms as one specification

    [DataForm] is the header of a [DATA] frame as a value, [data_encode] the
    encoder of that form, [data_wire] the bytes it stands for and [data_view]
    what a receiver sees. *)

Inductive DataForm : Type :=
| DSteady (fid : Z)
| DOpen (fid sess : Z) (addr : TargetAddr) (src : bool)
| DSrc (fid : Z) (addr : TargetAddr)
| DInline (sess : Z) (addr : TargetAddr).

Definition data_encode (f : DataForm) (payload : bytes) (limit : Z) : res unit bytes :=
  match f with
  | DSteady fid => encode_data_steady fid payload limit
  | DOpen fid sess addr src => encode_data_open fid sess addr src payload limit
  | DSrc fid addr => encode_data_src fid addr payload limit
  | DInline sess addr => encode_data_inline sess addr payload limit
  end.

Definition data_view (f : DataForm) (payload : bytes) : DataRef :=
  match f with
  | DSteady fid => mkDataRef (Some fid) None None false payload
  | DOpen fid sess addr src => mkDataRef (Some fid) (Some sess) (Some (wire_addr addr)) src payload
  | DSrc fid addr => mkDataRef (Some fid) None (Some (wire_addr addr)) true payload
  | DInline sess addr => mkDataRef None (Some sess) (Some (wire_addr addr)) false payload
  end.

(** The field types of a form. *)
Definition data_form_wf (f : DataForm) : Prop :=
  match f with
  | DSteady fid => is_u16 fid
  | DOpen fid sess addr _ => is_u16 fid /\ is_u32 sess /\ addr_wf addr
  | DSrc fid addr => is_u16 fid /\ addr_wf addr
  | DInline sess addr => is_u32 sess /\ addr_wf addr
  end.

(** The form's flow id is one its encoder may send. *)
Definition owner_ok (src : bool) (fid : Z) : bool :=
  if src then is_server_fid fid else is_client_fid fid.

Definition data_fid_ok (f : DataForm) : bool :=
  match f with
  | DSteady fid | DSrc fid _ => valid_fid fid
  | DOpen fid _ _ src => owner_ok src fid
  | DInline _ _ => true
  end.

(** The header bytes, given the encoded address. *)
Definition data_header (f : DataForm) (e : bytes) : bytes :=
  match f with
  | DSteady fid => [fid / 2 ^ 8; fid mod 2 ^ 8]
  | DOpen fid sess _ src => [if src then 0x43 else 0x41] ++ le16 fid ++ le32 sess ++ e
  | DSrc fid _ => [0x42] ++ le16 fid ++ e
  | DInline sess _ => [0x44] ++ le32 sess ++ e
  end.

(** The encoding of the form's address, if it carries one. *)
Definition data_addr_enc (f : DataForm) (e : bytes) : Prop :=
  match f with
  | DSteady _ => e = []
  | DOpen _ _ addr _ | DSrc _ addr | DInline _ addr => encode addr [] = Ok e
  end.

Lemma require_fid_owner_ok fid (src : bool) bad u :
  require_fid_owner fid (if src then Server else Client) bad = Ok u <-> owner_ok src fid = true.
Proof. destruct src, u; unfold require_fid_owner; simpl; case_match; naive_solver. Qed.

Lemma require_owner_true fid (src : bool) bad : owner_ok src fid = true ->
  require_fid_owner fid (if src then Server else Client) bad = Ok tt.
Proof. apply require_fid_owner_ok. Qed.

(** An encoder succeeds exactly on forms with an encodable address, a flow id
    of the right owner and a frame within [limit]; the frame is the header
    followed by the payload. *)
Lemma data_encode_spec f payload limit w : data_form_wf f ->
  data_encode f payload limit = Ok w <->
  exists e, data_addr_enc f e /\ data_fid_ok f = true /\
    w = data_header f e ++ payload /\ len w <= limit.
Proof.
  destruct f as [fid|fid sess addr src|fid addr|sess addr]; cbn [data_form_wf];
    intros Hwf; destruct_and?; cbn [data_encode data_addr_enc data_fid_ok data_header].
  - unfold encode_data_steady, data_steady_len. split.
    + intros H. res_inv. exists []. rewrite !negb_involutive in *.
      destruct (fid_high fid) as [Hh _]; [done..|]. rewrite Hh in H. subst w.
      split_and!; [done..|]. simpl in *. lens.
    + intros (e & -> & Hf & -> & Hl). destruct (fid_high fid) as [Hh _]; [done..|].
      rewrite Hf. simpl in *. pass_guard. rewrite Hh. done.
  - unfold encode_data_open, data_open_len. split.
    + enc_fwd. 
      match goal with H : require_fid_owner _ _ _ = Ok _ |- _ =>
        apply require_fid_owner_ok in H end.
      split_and!; [done..| |]; [destruct src; simpl; by rewrite <- ?app_assoc|].
      simpl in *. destruct src; simpl; lens.
    + intros (e & He & Hf & -> & Hl). rewrite require_owner_true by done. simpl.
      enc_bwd. simpl. destruct src; simpl; by rewrite <- ?app_assoc.
  - unfold encode_data_src, data_src_len. split.
    + enc_fwd. rewrite !negb_involutive in *.
      split_and!; [done..| |]; [simpl; by rewrite <- ?app_assoc|]. simpl in *. lens.
    + intros (e & He & Hf & -> & Hl). rewrite Hf. simpl.
      enc_bwd. simpl. by rewrite <- ?app_assoc.
  - unfold encode_data_inline, data_inline_len. split.
    + enc_fwd.
      split_and!; [done..| |]; [simpl; by rewrite <- ?app_assoc|]. simpl in *. lens.
    + intros (e & He & _ & -> & Hl). enc_bwd. simpl. by rewrite <- ?app_assoc.
Qed.

Ltac step_u16 Hc :=
  let Hg := fresh in
  eapply get_u16_step in Hc as [Hg Hc];
  [rewrite Hg; clear Hg; cbn [res_bind] | done | done].
Ltac step_u32 Hc :=
  let Hg := fresh in
  eapply get_u32_step in Hc as [Hg Hc];
  [rewrite Hg; clear Hg; cbn [res_bind] | done | done].
Lemma decode_data_encoded f e payload :
  data_form_wf f -> data_addr_enc f e -> data_fid_ok f = true ->
  len (data_header f e ++ payload) <= usize_max ->
  decode_data (data_header f e ++ payload) = Ok (data_view f payload).
Proof.
  intros Hwf Ha Hf Hl. remember (data_header f e ++ payload) as b eqn:Eb.
  pose proof (cursor_start b) as Hc. rewrite Eb in Hc at 2.
  assert (Hb0 : exists r, b = (match data_header f e with b0 :: _ => b0 | [] => 0 end) :: r)
    by (destruct f; subst b; simpl; eauto).
  destruct Hb0 as [r Er]. unfold decode_data. rewrite Er at 1. cbn [first head ok_or res_bind].
  destruct f as [fid|fid sess addr src|fid addr|sess addr];
    cbn [data_form_wf data_addr_enc data_fid_ok data_header] in *; destruct_and?.
  - destruct (fid_high fid) as [_ Hh]; [done..|].
    destruct (small_first_byte (fid / 2 ^ 8) Hh) as [-> ->]. simpl.
    next Hc. rewrite (cursor_get _ _ _ _ Hc). simpl.
    next Hc. rewrite (sub_from_cursor _ _ _ Hc). simpl.
    rewrite lor_shift8 by umod. repeat f_equal. umod.
  - replace (Z.land (if src then 0x43 else 0x41) CLASS_MASK) with CLASS_DATA_EXT by by destruct src.
    replace (ext_flags (if src then 0x43 else 0x41) "bad r3 data reserved")
      with (@Ok MqpError Z (if src then FORM_OPEN_SRC else FORM_OPEN)) by by destruct src.
    simpl. rewrite <- !app_assoc in Hc. next Hc.
    destruct src; simpl.
    all: step_u16 Hc; unfold require_fid_owner; cbn [owner_ok] in Hf; rewrite Hf; cbn [res_bind];
      step_u32 Hc; step_addr Hc; by rewrite (sub_from_cursor _ _ _ Hc).
  - simpl. rewrite <- !app_assoc in Hc. next Hc.
    step_u16 Hc. rewrite Hf. cbn [negb]. step_addr Hc. by rewrite (sub_from_cursor _ _ _ Hc).
  - simpl. rewrite <- !app_assoc in Hc. next Hc.
    step_u32 Hc. step_addr Hc. by rewrite (sub_from_cursor _ _ _ Hc).
Qed.

(** Invert the field reads of a successful decode along the cursor [Hc]. *)
Ltac inv_u16 Hb Hc :=
  match goal with
  | H : get_u16 ?b ?o = Ok (?n, ?o') |- _ =>
      let r' := fresh "r" in let Er := fresh "Er" in let Hc' := fresh in let Eo := fresh in
      destruct (get_u16_inv _ _ _ _ _ Hb Hc H) as (r' & Er & Eo & Hc' & ?);
      clear Hc H; rename Hc' into Hc; try subst o'
  end.
Ltac inv_u32 Hb Hc :=
  match goal with
  | H : get_u32 ?b ?o = Ok (?n, ?o') |- _ =>
      let r' := fresh "r" in let Er := fresh "Er" in let Hc' := fresh in let Eo := fresh in
      destruct (get_u32_inv _ _ _ _ _ Hb Hc H) as (r' & Er & Eo & Hc' & ?);
      clear Hc H; rename Hc' into Hc; try subst o'
  end.
(** The first byte of an accepted extended frame is its class and its form. *)
Lemma ext_first_byte b0 cls flags bad : is_u8 b0 -> Z.land b0 CLASS_MASK = cls ->
  ext_flags b0 bad = Ok flags -> b0 = Z.lor cls flags.
Proof.
  intros Hu <- Hf. pose proof (class_split b0 Hu) as Hcs. unfold class_split_checks in Hcs.
  unfold ext_flags in Hf. res_inv. subst flags. lia.
Qed.

Lemma decode_data_inv b d : bytes_ok b -> decode_data b = Ok d ->
  exists f e payload, data_form_wf f /\ data_addr_enc f e /\ data_fid_ok f = true /\
    b = data_header f e ++ payload /\ d = data_view f payload.
Proof.
  intros Hb Hd. unfold decode_data in Hd. apply res_bind_ok in Hd as (b0 & Hb0 & Hd).
  apply ok_or_ok, first_cursor in Hb0 as (r & Er0 & Hc).
  assert (Hu : is_u8 b0) by (subst b; by apply bytes_ok_cons in Hb as [? _]).
  pose proof (class_split b0 Hu) as Hcs. unfold class_split_checks in Hcs.
  case_match eqn:Ec; [|case_match eqn:Ee; [|done]].
  - res_inv. assert (Hk : 0 <= b0 < 64) by ulia.
    destruct (small_first_byte b0 Hk) as [_ Hm].
    pose proof (cursor_bytes_ok _ _ _ Hb Hc) as Hr. read_all Hc. rewrite Hm in *.
    apply bytes_ok_cons in Hr as [Hv _].
    rewrite lor_shift8 in * by ulia.
    exists (DSteady (b0 * 2 ^ 8 + v)), [], r0.
    unfold data_form_wf, data_addr_enc, data_fid_ok, valid_fid, FID_MAX, data_header, data_view.
    split_and!; [umod | done | umod | | done].
    rewrite Er0. simpl. f_equal; [umod|f_equal; umod].
  - apply Z.eqb_eq in Ee. apply res_bind_ok in Hd as (flags & Hf & Hd).
    apply (ext_first_byte b0 CLASS_DATA_EXT flags) in Hf; [|done..].
    clear Hcs Ec Ee. revert Hd.
    case_match eqn:Eo; [|case_match eqn:Es; [|case_match eqn:Ei; [|done]]]; intros Hd; res_inv.
    + inv_u16 Hb Hc. inv_u32 Hb Hc. inv_addr Hb Hc. inv_rest Hc.
      match goal with H : require_fid_owner _ _ _ = Ok _ |- _ =>
        apply require_fid_owner_ok in H end.
      eexists (DOpen _ _ _ (flags =? FORM_OPEN_SRC)), _, _. split_and!; try done.
      * cbn. rewrite Er0, Er, Er1, Er2. rewrite Hf. 
        assert (flags = FORM_OPEN \/ flags = FORM_OPEN_SRC) as [-> | ->] by lia.
        all: simpl; by rewrite <- ?app_assoc.
      * cbn [data_view]. congruence.
    + apply Z.eqb_eq in Es. inv_u16 Hb Hc. inv_addr Hb Hc. inv_rest Hc.
      rewrite negb_involutive in *.
      eexists (DSrc _ _), _, r1. split_and!; try done; [|cbn [data_view]; congruence].
      cbn. rewrite Er0, Er, Er1, Hf, Es. simpl. by rewrite <- ?app_assoc.
    + apply Z.eqb_eq in Ei. inv_u32 Hb Hc. inv_addr Hb Hc. inv_rest Hc.
      eexists (DInline _ _), _, r1. split_and!; try done; [|cbn [data_view]; congruence].
      cbn. rewrite Er0, Er, Er1, Hf, Ei. simpl. by rewrite <- ?app_assoc.
Qed.

Lemma decode_data_no_panic b : bytes_ok b -> decode_data b <> Panic.
Proof.
  intros Hb. unfold decode_data. repeat np_step.
Qed.

(* ------------------------------------------------------------------ *)
(** ** FRAG frames as one specification *)

Inductive FragForm : Type :=
| FSteady (fid : Z)
| FOpen (fid sess : Z) (addr : TargetAddr) (src : bool)
| FSrc (fid : Z) (addr : TargetAddr)
| FInline (sess : Z) (addr : TargetAddr).

Definition frag_encode (f : FragForm) (frag_id idx total : Z) (chunk : bytes) (limit : Z)
    : res unit bytes :=
  match f with
  | FSteady fid => encode_frag_steady fid frag_id idx total chunk limit
  | FOpen fid sess addr src => encode_frag_open fid sess addr src frag_id idx total chunk limit
  | FSrc fid addr => encode_frag_src fid addr frag_id idx total chunk limit
  | FInline sess addr => encode_frag_inline sess addr frag_id idx total chunk limit
  end.

Definition frag_form_wf (f : FragForm) : Prop :=
  match f with
  | FSteady fid => is_u16 fid
  | FOpen fid sess addr _ => is_u16 fid /\ is_u32 sess /\ addr_wf addr
  | FSrc fid addr => is_u16 fid /\ addr_wf addr
  | FInline sess addr => is_u32 sess /\ addr_wf addr
  end.

Definition frag_fid_ok (f : FragForm) : bool :=
  match f with
  | FSteady fid | FSrc fid _ => valid_fid fid
  | FOpen fid _ _ src => owner_ok src fid
  | FInline _ _ => true
  end.

Definition frag_header (f : FragForm) (frag_id idx total : Z) (e : bytes) : bytes :=
  match f with
  | FSteady fid => [0xC0] ++ le16 fid ++ le32 frag_id ++ [idx; total]
  | FOpen fid sess _ src =>
      [if src then 0xC3 else 0xC1] ++ le16 fid ++ le32 frag_id ++ [idx; total] ++ le32 sess ++ e
  | FSrc fid _ => [0xC2] ++ le16 fid ++ le32 frag_id ++ [idx; total] ++ e
  | FInline sess _ => [0xC4] ++ le32 frag_id ++ [idx; total] ++ le32 sess ++ e
  end.

Definition frag_addr_enc (f : FragForm) (e : bytes) : Prop :=
  match f with
  | FSteady _ => e = []
  | FOpen _ _ addr _ | FSrc _ addr | FInline _ addr => encode addr [] = Ok e
  end.

Definition frag_view (f : FragForm) (frag_id idx total : Z) (e chunk : bytes) : FragRef :=
  let off := len (frag_header f frag_id idx total e) in
  match f with
  | FSteady fid => mkFragRef (Some fid) None None false frag_id idx total off chunk
  | FOpen fid sess addr src =>
      mkFragRef (Some fid) (Some sess) (Some (wire_addr addr)) src frag_id idx total off chunk
  | FSrc fid addr =>
      mkFragRef (Some fid) None (Some (wire_addr addr)) true frag_id idx total off chunk
  | FInline sess addr =>
      mkFragRef None (Some sess) (Some (wire_addr addr)) false frag_id idx total off chunk
  end.

Lemma frag_encode_spec f frag_id idx total chunk limit w : frag_form_wf f ->
  frag_encode f frag_id idx total chunk limit = Ok w <->
  exists e, frag_addr_enc f e /\ frag_fid_ok f = true /\ frag_meta_ok idx total chunk = true /\
    w = frag_header f frag_id idx total e ++ chunk /\ len w <= limit.
Proof.
  destruct f as [fid|fid sess addr src|fid addr|sess addr]; cbn [frag_form_wf];
    intros Hwf; destruct_and?; cbn [frag_encode frag_addr_enc frag_fid_ok frag_header].
  - unfold encode_frag_steady, frag_steady_len. split.
    + intros H. res_inv. exists []. subst w. bools.
      split_and!; [done.. | simpl; by rewrite <- ?app_assoc | simpl; lens].
    + intros (e & -> & Hf & Hm & -> & Hl). rewrite Hf, Hm. simpl in *. pass_guard.
      simpl. by rewrite <- ?app_assoc.
  - unfold encode_frag_open, frag_open_len. split.
    + enc_fwd.
      match goal with H : require_fid_owner _ _ _ = Ok _ |- _ =>
        apply require_fid_owner_ok in H end.
      bools. split_and!; [done.. | |]; [destruct src; simpl; by rewrite <- ?app_assoc|].
      simpl in *. destruct src; simpl; lens.
    + intros (e & He & Hf & Hm & -> & Hl). rewrite require_owner_true, Hm by done. simpl.
      enc_bwd. simpl. destruct src; simpl; by rewrite <- ?app_assoc.
  - unfold encode_frag_src, frag_src_len. split.
    + enc_fwd.
      bools. split_and!; [done.. | |]; [simpl; by rewrite <- ?app_assoc|]. simpl in *. lens.
    + intros (e & He & Hf & Hm & -> & Hl). rewrite Hf, Hm. simpl.
      enc_bwd. simpl. by rewrite <- ?app_assoc.
  - unfold encode_frag_inline, frag_inline_len. split.
    + enc_fwd.
      bools. split_and!; [done.. | |]; [simpl; by rewrite <- ?app_assoc|]. simpl in *. lens.
    + intros (e & He & _ & Hm & -> & Hl). rewrite Hm. simpl. enc_bwd. simpl. by rewrite <- ?app_assoc.
Qed.

(** A [FRAG] byte 0 with form [flags] passes the class and reserved checks. *)
Lemma frag_first_byte flags bad : flags ∈ [0; FORM_OPEN; FORM_SRC; FORM_OPEN_SRC; FORM_INLINE] ->
  Z.land (Z.lor CLASS_FRAG flags) CLASS_MASK = CLASS_FRAG /\
  ext_flags (Z.lor CLASS_FRAG flags) bad = Ok flags.
Proof. rewrite list_elem_of_In. simpl. intros H. intuition (subst; done). Qed.

Definition frag_flags (f : FragForm) : Z :=
  match f with
  | FSteady _ => 0
  | FOpen _ _ _ src => if src then FORM_OPEN_SRC else FORM_OPEN
  | FSrc _ _ => FORM_SRC
  | FInline _ _ => FORM_INLINE
  end.

Lemma frag_header_first f frag_id idx total e : exists r,
  frag_header f frag_id idx total e = Z.lor CLASS_FRAG (frag_flags f) :: r.
Proof. destruct f as [|? ? ? []| |]; simpl; eauto. Qed.

(** The fragment fields shared by every form. *)
Lemma frag_meta_step b off frag_id idx total rest : is_u32 frag_id -> len b <= usize_max ->
  cursor b off (le32 frag_id ++ [idx; total] ++ rest) ->
  get_u32 b off = Ok (frag_id, off + 4) /\ get b (off + 4) = Some idx /\
  get b (off + 4 + 1) = Some total /\ cursor b (off + 4 + 2) rest.
Proof.
  intros Hi Hb Hc. eapply get_u32_step in Hc as [? Hc]; [|done..]. split; [done|].
  split; [by eapply cursor_get|]. apply cursor_cons in Hc.
  split; [by eapply cursor_get|]. apply cursor_cons in Hc.
  by replace (off + 4 + 2) with (off + 4 + 1 + 1) by lia.
Qed.

Ltac step_frag_meta Hc :=
  let H1 := fresh in let H2 := fresh in let H3 := fresh in
  eapply frag_meta_step in Hc as (H1 & H2 & H3 & Hc); [|done|done];
  rewrite H1; cbn [res_bind]; rewrite H2; cbn [ok_or res_bind]; rewrite H3;
  cbn [ok_or res_bind]; clear H1 H2 H3.

Lemma decode_frag_encoded f frag_id idx total e chunk :
  frag_form_wf f -> frag_addr_enc f e -> frag_fid_ok f = true -> is_u32 frag_id ->
  frag_meta_ok idx total chunk = true ->
  len (frag_header f frag_id idx total e ++ chunk) <= usize_max ->
  decode_frag (frag_header f frag_id idx total e ++ chunk)
    = Ok (frag_view f frag_id idx total e chunk).
Proof.
  intros Hwf Ha Hf Hi Hm Hl.
  destruct (frag_header_first f frag_id idx total e) as [r Er].
  remember (frag_header f frag_id idx total e ++ chunk) as b eqn:Eb.
  pose proof (cursor_start b) as Hc. rewrite Eb in Hc at 2.
  assert (Efst : first b = Some (Z.lor CLASS_FRAG (frag_flags f))) by (subst b; by rewrite Er).
  unfold decode_frag. rewrite Efst. cbn [ok_or res_bind].
  destruct (frag_first_byte (frag_flags f) "bad r3 frag reserved") as [-> ->].
  { destruct f as [|? ? ? []| |]; simpl; set_solver. }
  cbn [Z.eqb Pos.eqb CLASS_FRAG negb res_bind]. clear Er Efst.
  unfold frag_view, decode_frag_flow, decode_frag_ctx.
  destruct f as [fid|fid sess addr src|fid addr|sess addr];
    cbn [frag_form_wf frag_addr_enc frag_fid_ok frag_header frag_flags] in *; destruct_and?.
  - simpl. rewrite <- !app_assoc in Hc. next Hc. step_u16 Hc. rewrite Hf. cbn [negb res_bind].
    step_frag_meta Hc. rewrite (sub_from_cursor _ _ _ Hc). cbn [res_bind]. by rewrite Hm.
  - rewrite <- !app_assoc in Hc. next Hc. destruct src; simpl in Hf |- *.
    all: step_u16 Hc; unfold require_fid_owner; rewrite Hf; cbn [res_bind];
      step_frag_meta Hc; step_u32 Hc; step_addr Hc; rewrite (sub_from_cursor _ _ _ Hc);
      cbn [res_bind]; rewrite Hm; cbn [negb]; do 2 f_equal; lens.
  - rewrite <- !app_assoc in Hc. next Hc. simpl. step_u16 Hc. rewrite Hf. cbn [negb res_bind].
    step_frag_meta Hc. step_addr Hc. rewrite (sub_from_cursor _ _ _ Hc).
    cbn [res_bind]. rewrite Hm. cbn [negb]. do 2 f_equal; lens.
  - rewrite <- !app_assoc in Hc. next Hc. simpl.
    step_frag_meta Hc. step_u32 Hc. step_addr Hc. rewrite (sub_from_cursor _ _ _ Hc).
    cbn [res_bind]. rewrite Hm. cbn [negb]. do 2 f_equal; lens.
Qed.

Lemma decode_frag_flow_bound b flags o s off :
  decode_frag_flow b flags = Ok (o, s, off) -> 1 <= off.
Proof.
  unfold decode_frag_flow. intros H. repeat case_match; res_inv;
    try match goal with H : get_u16 b 1 = Ok _ |- _ => apply get_u16_bound in H; [|done] end; lia.
Qed.

Lemma decode_frag_flow_no_panic b flags : decode_frag_flow b flags <> Panic.
Proof. unfold decode_frag_flow. repeat np_step. Qed.

Lemma decode_frag_ctx_bound b flags off s a off' : bytes_ok b -> 0 <= off <= len b ->
  decode_frag_ctx b flags off = Ok (s, a, off') -> off <= off' <= len b.
Proof.
  intros Hb Hoff E. unfold decode_frag_ctx in E.
  repeat case_match; res_inv; repeat np_learn; lia.
Qed.

Lemma decode_frag_ctx_no_panic b flags off : bytes_ok b -> 0 <= off <= len b ->
  decode_frag_ctx b flags off <> Panic.
Proof. intros Hb Hoff. unfold decode_frag_ctx. repeat np_step. Qed.

#[export] Hint Resolve decode_frag_flow_no_panic decode_frag_ctx_no_panic : nopanic.

Lemma decode_frag_no_panic b : bytes_ok b -> decode_frag b <> Panic.
Proof.
  intros Hb. unfold decode_frag. repeat np_step.
  all: match goal with H : decode_frag_flow _ _ = Ok _ |- _ =>
    apply decode_frag_flow_bound in H end; repeat np_step.
  match goal with H : decode_frag_ctx _ _ _ = Ok _ |- _ =>
    apply decode_frag_ctx_bound in H; [|done|lens] end. np_step.
Qed.

Lemma decode_frag_inv b d : bytes_ok b -> decode_frag b = Ok d ->
  exists f frag_id idx total e chunk,
    frag_form_wf f /\ is_u32 frag_id /\ frag_addr_enc f e /\ frag_fid_ok f = true /\
    frag_meta_ok idx total chunk = true /\
    b = frag_header f frag_id idx total e ++ chunk /\ d = frag_view f frag_id idx total e chunk.
Proof.
  intros Hb Hd. unfold decode_frag in Hd. apply res_bind_ok in Hd as (b0 & Hb0 & Hd).
  apply ok_or_ok, first_cursor in Hb0 as (r & Er0 & Hc).
  assert (Hu : is_u8 b0) by (subst b; by apply bytes_ok_cons in Hb as [? _]).
  apply guard_ok in Hd as [Hk Hd]. bools. apply Z.eqb_eq in Hk.
  apply res_bind_ok in Hd as (flags & Hf & Hd).
  apply (ext_first_byte b0 CLASS_FRAG flags) in Hf; [|done..].
  apply res_bind_ok in Hd as ([[fid src] off] & Hflow & Hd).
  unfold decode_frag_flow in Hflow. unfold decode_frag_ctx in Hd. revert Hflow Hd.
  case_match eqn:E0; [|case_match eqn:Eo; [|case_match eqn:Es; [|case_match eqn:Ei; [|done]]]];
    intros Hflow Hd; res_inv; subst fid src off; bools.
  - apply Z.eqb_eq in E0 as ->. inv_u16 Hb Hc. inv_u32 Hb Hc. simpl in *. res_inv. subst.
    read_all Hc. eexists (FSteady _), _, _, _, [], _.
    split_and!; [done..| |]; [simpl; reflexivity|]. done.
  - inv_u16 Hb Hc. inv_u32 Hb Hc. read_all Hc. cbn [orb] in *. res_inv. subst.
    change (1 + 2 + 4 + 1 + 1) with (1 + 2 + 4 + 2) in Hc.
    inv_u32 Hb Hc. inv_addr Hb Hc. inv_rest Hc.
    match goal with H : require_fid_owner _ _ _ = Ok _ |- _ =>
      apply require_fid_owner_ok in H end.
    match goal with
    | |- context [mkFragRef (Some ?fid) (Some ?s) (Some ?a) ?src ?i ?x ?t _ ?c] =>
        eexists (FOpen fid s a src), i, x, t, _, c
    end.
    assert (flags = FORM_OPEN \/ flags = FORM_OPEN_SRC) as [-> | ->] by lia.
    all: split_and!; [done..| |]; [subst; simpl; by rewrite <- ?app_assoc|].
    all: unfold frag_view; f_equal; first [congruence | cbn [frag_header]; lens].
  - apply Z.eqb_eq in Es as ->. inv_u16 Hb Hc. inv_u32 Hb Hc. read_all Hc.
    change (FORM_SRC =? FORM_INLINE) with false in *. change (FORM_SRC =? FORM_SRC) with true in *.
    cbn [orb] in *. res_inv. revert Er0. subst. intros Er0.
    change (1 + 2 + 4 + 1 + 1) with (1 + 2 + 4 + 2) in Hc.
    inv_addr Hb Hc. inv_rest Hc.
    match goal with
    | |- context [mkFragRef (Some ?fid) _ (Some ?a) _ ?i ?x ?t _ ?c] =>
        eexists (FSrc fid a), i, x, t, _, c
    end.
    split_and!; [done..| |]; [subst; simpl; by rewrite <- ?app_assoc|].
    all: unfold frag_view; f_equal; first [congruence | cbn [frag_header]; lens].
  - apply Z.eqb_eq in Ei as ->. inv_u32 Hb Hc. read_all Hc.
    change (FORM_INLINE =? FORM_INLINE) with true in *. cbn [orb] in *. res_inv. revert Er0. subst. intros Er0.
    change (1 + 4 + 1 + 1) with (1 + 4 + 2) in Hc.
    inv_u32 Hb Hc. inv_addr Hb Hc. inv_rest Hc.
    match goal with
    | |- context [mkFragRef _ (Some ?s) (Some ?a) _ ?i ?x ?t _ ?c] =>
        eexists (FInline s a), i, x, t, _, c
    end.
    split_and!; [done..| |]; [subst; simpl; by rewrite <- ?app_assoc|].
    all: unfold frag_view; f_equal; first [congruence | cbn [frag_header]; lens].
Qed.

(* ------------------------------------------------------------------ *)
(** ** Claims *)

Definition example_v4 : TargetAddr := AddrIp (SockV4 [1; 2; 3; 4] 53).

(** C24: every rev3 [DATA] frame that an encoder produces (steady, [OPEN],
    [OPEN_SRC], [SRC] or [INLINE]) fits its limit and is decoded back to the
    fields it was built from, with the payload byte for byte; of an address
    only an IPv6 flow label is lost, which the wire does not carry. *)
Theorem r3_data_roundtrip f payload limit w :
  data_form_wf f -> limit <= isize_max -> data_encode f payload limit = Ok w ->
  decode_data w = Ok (data_view f payload) /\ len w <= limit.
Proof.
  intros Hwf Hl (e & He & Hf & -> & Hw)%data_encode_spec; [|done].
  split; [apply decode_data_encoded; auto; ulia | done].
Qed.

Lemma r3_data_roundtrip_witness :
  let w := [0x43; 0x01; 0x20; 9; 0; 0; 0; 1; 1; 2; 3; 4; 0; 53; 7; 8] in
  decode_data w = Ok (data_view (DOpen 0x2001 9 example_v4 true) [7; 8]) /\ len w <= 1200.
Proof.
  apply (r3_data_roundtrip (DOpen 0x2001 9 example_v4 true) [7; 8] 1200).
  - cbn. split_and!; concrete.
  - concrete.
  - reflexivity.
Defined.

(** The [DATA] decoder is canonical.  A frame it accepts is exactly the
    frame the encoder of the decoded form writes, so no two byte strings have
    one meaning; and its flow id is one the sender was allowed to use. *)
Theorem r3_data_canonical b d :
  bytes_ok b -> decode_data b = Ok d ->
  exists f payload, data_form_wf f /\ data_fid_ok f = true /\ d = data_view f payload /\
    data_encode f payload (len b) = Ok b.
Proof.
  intros Hb Hd. destruct (decode_data_inv b d Hb Hd) as (f & e & p & Hwf & He & Hf & Eb & ->).
  exists f, p. split_and!; [done..|]. apply data_encode_spec; [done|].
  exists e. split_and!; [done..|lia].
Qed.

Lemma r3_data_canonical_witness :
  exists f payload, data_form_wf f /\ data_fid_ok f = true /\
    mkDataRef (Some 0x1234) None None false [9; 9] = data_view f payload /\
    data_encode f payload 4 = Ok [0x12; 0x34; 9; 9].
Proof.
  apply (r3_data_canonical [0x12; 0x34; 9; 9]); [concrete | reflexivity].
Defined.

(** Every rev3 [FRAG] frame that an encoder produces is decoded back to
    its flow, context, position and chunk, and the reported chunk offset is
    where the chunk starts in the datagram. *)
Theorem r3_frag_roundtrip f frag_id i total chunk limit w :
  frag_form_wf f -> is_u32 frag_id -> limit <= isize_max ->
  frag_encode f frag_id i total chunk limit = Ok w ->
  exists e, frag_addr_enc f e /\ len w <= limit /\
    decode_frag w = Ok (frag_view f frag_id i total e chunk) /\
    slice_from w (f_chunk_off (frag_view f frag_id i total e chunk)) = Some chunk.
Proof.
  intros Hwf Hi Hl (e & He & Hf & Hm & -> & Hw)%frag_encode_spec; [|done].
  exists e. split_and!; [done..| |].
  - apply decode_frag_encoded; auto; ulia.
  - replace (f_chunk_off _) with (len (frag_header f frag_id i total e)) by by destruct f.
    apply cursor_slice_from. eexists; eauto.
Qed.

Lemma r3_frag_roundtrip_witness :
  let w := [0xC0; 5; 0; 7; 0; 0; 0; 1; 2; 42] in
  exists e, frag_addr_enc (FSteady 5) e /\ len w <= 1200 /\
    decode_frag w = Ok (frag_view (FSteady 5) 7 1 2 e [42]) /\
    slice_from w (f_chunk_off (frag_view (FSteady 5) 7 1 2 e [42])) = Some [42].
Proof. apply (r3_frag_roundtrip (FSteady 5) 7 1 2 [42] 1200); concrete. Defined.

(** The [FRAG] decoder is canonical, and what it accepts is within the
    fragment bounds: 1 to 64 fragments, an index below the total and a
    nonempty chunk of at most 8192 bytes. *)
Theorem r3_frag_canonical b d :
  bytes_ok b -> decode_frag b = Ok d ->
  0 <= f_idx d < f_total d /\ f_total d <= MAX_FRAG_TOTAL /\
  1 <= len (f_chunk d) <= MAX_FRAG_BYTES /\
  exists f e, frag_form_wf f /\ frag_fid_ok f = true /\
    d = frag_view f (f_frag_id d) (f_idx d) (f_total d) e (f_chunk d) /\
    frag_encode f (f_frag_id d) (f_idx d) (f_total d) (f_chunk d) (len b) = Ok b.
Proof.
  intros Hb Hd.
  destruct (decode_frag_inv b d Hb Hd) as (f & i & x & t & e & c & Hwf & Hi & He & Hf & Hm & Eb & ->).
  assert (Hx : is_u8 x) by (subst b; destruct f; simpl in Hb; rewrite ?bytes_ok_cons in Hb; 
    destruct_and? Hb; repeat match goal with H : bytes_ok (_ ++ _) |- _ =>
      apply bytes_ok_app in H as [? H] | H : bytes_ok (_ :: _) |- _ =>
      apply bytes_ok_cons in H as [? H] end; done).
  replace (f_frag_id _) with i by by destruct f.
  replace (f_idx _) with x by by destruct f.
  replace (f_total _) with t by by destruct f.
  replace (f_chunk _) with c by by destruct f.
  pose proof Hm as Hm'. unfold frag_meta_ok in Hm'. split_and!; [lens..|].
  exists f, e. split_and!; [done..|]. apply frag_encode_spec; [done|].
  exists e. split_and!; [done..|lia].
Qed.

Lemma r3_frag_canonical_witness :
  let d := mkFragRef (Some 5) None None false 7 1 2 9 [42] in
  0 <= f_idx d < f_total d /\ f_total d <= MAX_FRAG_TOTAL /\
  1 <= len (f_chunk d) <= MAX_FRAG_BYTES /\
  exists f e, frag_form_wf f /\ frag_fid_ok f = true /\
    d = frag_view f (f_frag_id d) (f_idx d) (f_total d) e (f_chunk d) /\
    frag_encode f (f_frag_id d) (f_idx d) (f_total d) (f_chunk d) 10
      = Ok [0xC0; 5; 0; 7; 0; 0; 0; 1; 2; 42].
Proof.
  apply (r3_frag_canonical [0xC0; 5; 0; 7; 0; 0; 0; 1; 2; 42]); [concrete | reflexivity].
Defined.

(** The answers of [n] successive allocations. *)
Fixpoint alloc_many (n : nat) (s : FlowIds) : list (option Z) * FlowIds :=
  match n with
  | O => ([], s)
  | S n => let '(o, s) := FlowIds_alloc s in
           let '(os, s) := alloc_many n s in (o :: os, s)
  end.

Definition owner_base (o : FidOwner) : Z :=
  match o with Client => 0 | Server => SERVER_FID_BASE end.

Definition flow_ids_inv (s : FlowIds) : Prop :=
  fi_base s = owner_base (fi_owner s) /\ fi_end s = fi_base s + FIDS_PER_OWNER /\
  fi_base s <= fi_next s <= fi_end s.

Lemma flow_ids_new o : flow_ids_inv (FlowIds_new o).
Proof. destruct o; unfold flow_ids_inv; cbn; split_and!; try done; lia. Qed.

Lemma flow_ids_range s : flow_ids_inv s -> 0 <= fi_next s /\ fi_end s <= 16384.
Proof.
  unfold flow_ids_inv, owner_base, FIDS_PER_OWNER, SERVER_FID_BASE.
  destruct (fi_owner s); lia.
Qed.

(** One allocation: the next id while there is one, and the state after it. *)
Lemma flow_ids_alloc s : flow_ids_inv s ->
  FlowIds_alloc s =
    (if fi_next s <? fi_end s then Some (fi_next s) else None,
     mkFlowIds (fi_owner s) (Z.min (fi_next s + 1) (fi_end s)) (fi_end s) (fi_base s)).
Proof.
  intros Hs. pose proof (flow_ids_range s Hs). destruct Hs as (_ & _ & Hr).
  unfold FlowIds_alloc. destruct (Z.ltb_spec (fi_next s) (fi_end s)).
  - rewrite Z.min_l by lia. rewrite Z.geb_leb. case_match; [lia|].
    repeat f_equal. umod.
  - rewrite Z.min_r by lia. rewrite Z.geb_leb. case_match; [|lia].
    destruct s; simpl in *. repeat f_equal. lia.
Qed.

Lemma alloc_many_spec n s : flow_ids_inv s ->
  (alloc_many n s).2 =
    mkFlowIds (fi_owner s) (Z.min (fi_next s + Z.of_nat n) (fi_end s)) (fi_end s) (fi_base s) /\
  forall k, (k < n)%nat -> (alloc_many n s).1 !! k =
    Some (if fi_next s + Z.of_nat k <? fi_end s then Some (fi_next s + Z.of_nat k) else None).
Proof.
  revert s. induction n as [|n IH]; intros s Hs.
  - destruct Hs as (_ & _ & Hr). split; [|lia]. destruct s; simpl in *. f_equal. lia.
  - cbn [alloc_many]. rewrite (flow_ids_alloc s Hs).
    destruct Hs as (Hb & He & Hr).
    edestruct (IH (mkFlowIds (fi_owner s) (Z.min (fi_next s + 1) (fi_end s)) (fi_end s) (fi_base s)))
      as [IH1 IH2]; [unfold flow_ids_inv; simpl; lia|].
    destruct (alloc_many n _) as [os s'']. cbn [fst snd fi_owner fi_next fi_end fi_base] in *.
    split; [rewrite IH1; f_equal; lia|]. intros [|k] Hk; simpl.
    + by rewrite Z.add_0_r.
    + rewrite IH2 by lia. repeat case_match; zbool; try (exfalso; lia); [do 2 f_equal; lia | done].
Qed.

(** An endpoint's allocator hands out the 8192 flow ids of its own half in
    increasing order, each once and never one of the peer's, and then only
    answers [None]; the reported counts agree with what was handed out. *)
Theorem flow_ids_alloc_spec owner n k :
  (k < n)%nat ->
  let '(answers, s) := alloc_many n (FlowIds_new owner) in
  answers !! k = Some (if Z.of_nat k <? FIDS_PER_OWNER
                       then Some (owner_base owner + Z.of_nat k) else None) /\
  (Z.of_nat k < FIDS_PER_OWNER ->
     fid_owner (owner_base owner + Z.of_nat k) = Some owner) /\
  FlowIds_allocated s = Z.min (Z.of_nat n) FIDS_PER_OWNER /\
  FlowIds_allocated s + FlowIds_remaining s = FIDS_PER_OWNER /\
  FlowIds_is_exhausted s = (FIDS_PER_OWNER <=? Z.of_nat n).
Proof.
  intros Hk. destruct (alloc_many_spec n _ (flow_ids_new owner)) as [Hs Ha].
  specialize (Ha k Hk). destruct (alloc_many n _) as [os s]. simpl in Hs, Ha. subst s.
  unfold FlowIds_allocated, FlowIds_remaining, FlowIds_is_exhausted, fid_owner,
    is_client_fid, is_server_fid, CLIENT_FID_MAX, FID_MAX.
  rewrite Ha. destruct owner; cbn [FlowIds_new fi_owner fi_next fi_end fi_base owner_base] in *;
    unfold FIDS_PER_OWNER, SERVER_FID_BASE in *; split_and!; try lia.
  all: first [by intros ?; repeat case_match; try lia | repeat case_match; try lia; repeat f_equal; lia].
Qed.

Lemma flow_ids_alloc_spec_witness :
  let '(answers, s) := alloc_many 3 (FlowIds_new Server) in
  answers !! 2%nat = Some (Some 0x2002) /\
  (2 < FIDS_PER_OWNER -> fid_owner 0x2002 = Some Server) /\
  FlowIds_allocated s = Z.min 3 FIDS_PER_OWNER /\
  FlowIds_allocated s + FlowIds_remaining s = FIDS_PER_OWNER /\
  FlowIds_is_exhausted s = (FIDS_PER_OWNER <=? 3).
Proof. apply (flow_ids_alloc_spec Server 3 2). lia. Defined.
