(* ===== verification/R3Train.v ===== *)
(** The rev3 [TRAIN] frames of [src/mqp/r3.rs]: many packets of one flow or of
    a small dictionary of flows in one DATAGRAM.  The three encoders, the
    decoder that validates the whole frame, and the iterator that walks the
    items afterwards without checking again. *)
From S2P Require Import Prelude Addr Codec R3.

Definition TRAIN_FORM_SAME : Z := 0.
Definition TRAIN_FORM_SAME_EQUAL : Z := 1.
Definition TRAIN_FORM_DICT : Z := 2.
Definition TRAIN_FORM_SHIFT : Z := 4.
Definition TRAIN_FORM_MASK : Z := 0x30.
Definition TRAIN_RESERVED_MASK : Z := 0x0F.
Definition MAX_TRAIN_ITEMS : Z := 64.

Definition valid_train_count (n : Z) : option unit :=
  if (1 <=? n) && (n <=? MAX_TRAIN_ITEMS) then Some tt else None.

(* ------------------------------------------------------------------ *)
(** ** Item lengths: one byte below 255, else [0xFF] and a [u16] *)

Definition item_len_len (n : Z) : option Z :=
  if n <? 0xFF then Some 1
  else if n <=? 2 ^ 16 - 1 then Some 3
  else None.

Definition put_item_len (out : bytes) (n : Z) : bytes * bool :=
  if n <? 0xFF then (out ++ [as_u8 n], true)
  else if n <=? 2 ^ 16 - 1 then (out ++ [0xFF] ++ le16 n, true)
  else (out, false).

Definition get_item_len (b : bytes) (off : Z) : res MqpError (Z * Z) :=
  let! fst := ok_or (get b off) (Malformed "truncated r3 train item len") in
  let off := off + 1 in
  if fst =? 0xFF then get_u16 b off else Ok (fst, off).

(** The iterator's reader; [None] means stop. *)
Definition item_len_at (b : bytes) (off : Z) : res unit (Z * Z) :=
  let! fst := of_option (get b off) in
  let off := off + 1 in
  if fst =? 0xFF then
    let! end_ := of_option (checked_add off 2) in
    let! s := of_option (slice b off end_) in
    let off := end_ in
    let! s0 := idx s 0 in let! s1 := idx s 1 in
    Ok (of_le16 s0 s1, off)
  else Ok (fst, off).

(* ------------------------------------------------------------------ *)
(** ** Encoders *)

(** [for p in payloads { total += item_len_len(p) + p.len() }], checked. *)
Fixpoint same_total (total : Z) (payloads : list bytes) : option Z :=
  match payloads with
  | [] => Some total
  | p :: ps =>
      l ← item_len_len (len p);
      total ← checked_add total l;
      total ← checked_add total (len p);
      same_total total ps
  end.

Definition train_same_len (fid : Z) (payloads : list bytes) : option Z :=
  _ ← valid_train_count (len payloads);
  if negb (valid_fid fid) then None else same_total 4 payloads.

Definition train_same_equal_len (fid : Z) (payloads : list bytes) : option Z :=
  _ ← valid_train_count (len payloads);
  if negb (valid_fid fid) then None else
  p0 ← first payloads;
  let item_len := len p0 in
  if existsb (fun p => negb (len p =? item_len)) payloads then None else
  let total := 4 in
  l ← item_len_len item_len;
  total ← checked_add total l;
  body ← checked_mul item_len (len payloads);
  checked_add total body.

(** Every dictionary entry is a valid id not seen before it. *)
Fixpoint distinct_fids (seen flows : list Z) : bool :=
  match flows with
  | [] => true
  | f :: fs => if negb (valid_fid f) || existsb (Z.eqb f) seen then false
               else distinct_fids (seen ++ [f]) fs
  end.

Definition valid_train_flows (flows : list Z) (items : list (Z * bytes)) : option unit :=
  if (len flows =? 0) || (len flows >? MAX_TRAIN_ITEMS) || (len flows >? len items) then None
  else if negb (distinct_fids [] flows) then None
  else if existsb (fun it => it.1 >=? len flows) items then None
  else Some tt.

Fixpoint dict_flows_total (total : Z) (flows : list Z) : option Z :=
  match flows with
  | [] => Some total
  | _ :: fs => total ← checked_add total 2; dict_flows_total total fs
  end.

Fixpoint dict_items_total (total : Z) (items : list (Z * bytes)) : option Z :=
  match items with
  | [] => Some total
  | (_, p) :: its =>
      total ← checked_add total 1;
      l ← item_len_len (len p);
      total ← checked_add total l;
      total ← checked_add total (len p);
      dict_items_total total its
  end.

Definition train_dict_len (flows : list Z) (items : list (Z * bytes)) : option Z :=
  _ ← valid_train_count (len items);
  _ ← valid_train_flows flows items;
  total ← dict_flows_total 3 flows;
  dict_items_total total items.

(** The write loops; [put_item_len]'s flag is only asserted in debug builds. *)
Fixpoint put_same (v : bytes) (payloads : list bytes) : bytes :=
  match payloads with
  | [] => v
  | p :: ps => put_same ((put_item_len v (len p)).1 ++ p) ps
  end.

Fixpoint put_dict (v : bytes) (items : list (Z * bytes)) : bytes :=
  match items with
  | [] => v
  | (i, p) :: its => put_dict ((put_item_len (v ++ [i]) (len p)).1 ++ p) its
  end.

Definition encode_train_same (fid : Z) (payloads : list bytes) (limit : Z) : res unit bytes :=
  let! total := of_option (train_same_len fid payloads) in
  guard! negb (total >? limit) else tt in
  let v := [] ++ [Z.lor CLASS_TRAIN TRAIN_FORM_SAME] in
  let v := put_u16 v fid in
  let v := v ++ [as_u8 (len payloads)] in
  let v := put_same v payloads in
  guard! negb (negb (len v =? total)) else tt in
  Ok v.

Definition encode_train_same_equal (fid : Z) (payloads : list bytes) (limit : Z)
    : res unit bytes :=
  let! total := of_option (train_same_equal_len fid payloads) in
  guard! negb (total >? limit) else tt in
  let! p0 := of_option (first payloads) in
  let item_len := len p0 in
  let v := [] ++ [Z.lor CLASS_TRAIN (Z.shiftl TRAIN_FORM_SAME_EQUAL TRAIN_FORM_SHIFT)] in
  let v := put_u16 v fid in
  let v := v ++ [as_u8 (len payloads)] in
  let v := (put_item_len v item_len).1 in
  let v := fold_left (fun v p => v ++ p) payloads v in
  guard! negb (negb (len v =? total)) else tt in
  Ok v.

Definition encode_train_dict (flows : list Z) (items : list (Z * bytes)) (limit : Z)
    : res unit bytes :=
  let! total := of_option (train_dict_len flows items) in
  guard! negb (total >? limit) else tt in
  let v := [] ++ [Z.lor CLASS_TRAIN (Z.shiftl TRAIN_FORM_DICT TRAIN_FORM_SHIFT)] in
  let v := v ++ [as_u8 (len flows)] in
  let v := v ++ [as_u8 (len items)] in
  let v := fold_left put_u16 flows v in
  let v := put_dict v items in
  guard! negb (negb (len v =? total)) else tt in
  Ok v.

(* ------------------------------------------------------------------ *)
(** ** Decoder *)

Record TrainFrame : Type := mkTrainFrame {
  tf_form : Z;
  tf_count : Z;
  tf_nfl : Z;
  tf_item_len : Z;
  tf_flows : list Z;
  tf_items : bytes
}.

(** [[0u16; MAX_TRAIN_ITEMS]]. *)
Definition no_flows : list Z := replicate (Z.to_nat MAX_TRAIN_ITEMS) 0.

(** The [(len, payload)] walk of a [SAME] train: the offset after [n] items. *)
Fixpoint walk_same (b : bytes) (n : nat) (p : Z) : res MqpError Z :=
  match n with
  | O => Ok p
  | S n =>
      let! '(l, p) := get_item_len b p in
      let! end_ := ok_or (checked_add p l) (Malformed "r3 train item overflow") in
      guard! negb (end_ >? len b) else Malformed "bad r3 train item length" in
      walk_same b n end_
  end.

Fixpoint walk_dict (b : bytes) (nfl : Z) (n : nat) (p : Z) : res MqpError Z :=
  match n with
  | O => Ok p
  | S n =>
      let! i := ok_or (get b p) (Malformed "short r3 train item") in
      let p := p + 1 in
      guard! negb (i >=? nfl) else Malformed "bad r3 train item fid" in
      let! '(l, p) := get_item_len b p in
      let! end_ := ok_or (checked_add p l) (Malformed "r3 train item overflow") in
      guard! negb (end_ >? len b) else Malformed "bad r3 train item length" in
      walk_dict b nfl n end_
  end.

(** [for i in i..nfl]: read the dictionary into [flows]. *)
Fixpoint read_dict (b : bytes) (n : nat) (i : Z) (flows : list Z) (off : Z)
    : res MqpError (list Z * Z) :=
  match n with
  | O => Ok (flows, off)
  | S n =>
      let! '(fid, off) := get_u16 b off in
      let! seen := sub flows 0 i in
      guard! negb (negb (valid_fid fid) || existsb (Z.eqb fid) seen)
        else Malformed "bad r3 train dict fid" in
      let! flows := write_at flows i [fid] in
      read_dict b n (i + 1) flows off
  end.

Definition decode_train_single (b : bytes) (form : Z) : res MqpError TrainFrame :=
  let! '(fid, off) := get_u16 b 1 in
  guard! negb (negb (valid_fid fid)) else Malformed "bad r3 train fid" in
  let! count := ok_or (get b off) (Malformed "short r3 train count") in
  let off := off + 1 in
  let! _ := ok_or (valid_train_count count) (Malformed "bad r3 train count") in
  let! flows := write_at no_flows 0 [fid] in
  let! '(item_len, off) :=
    if form =? TRAIN_FORM_SAME_EQUAL then
      let! '(n, off) := get_item_len b off in
      let! body := ok_or (checked_mul count n) (Malformed "r3 train items overflow") in
      let! end_ := ok_or (checked_add off body) (Malformed "r3 train items overflow") in
      guard! negb (end_ >? len b) else Malformed "bad r3 train item length" in
      guard! negb (negb (end_ =? len b)) else Malformed "r3 train trailing bytes" in
      Ok (n, off)
    else
      let! p := walk_same b (Z.to_nat count) off in
      guard! negb (negb (p =? len b)) else Malformed "r3 train trailing bytes" in
      Ok (0, off) in
  let! items := sub_from b off in
  Ok (mkTrainFrame form count 1 item_len flows items).

Definition decode_train_dict (b : bytes) (form : Z) : res MqpError TrainFrame :=
  let off := 1 in
  let! nfl := ok_or (get b off) (Malformed "short r3 train nfl") in
  let off := off + 1 in
  let! count := ok_or (get b off) (Malformed "short r3 train count") in
  let off := off + 1 in
  let! _ := ok_or (valid_train_count count) (Malformed "bad r3 train count") in
  guard! negb ((nfl =? 0) || (nfl >? count)) else Malformed "bad r3 train nfl" in
  let! '(flows, off) := read_dict b (Z.to_nat nfl) 0 no_flows off in
  let items_start := off in
  let! p := walk_dict b nfl (Z.to_nat count) off in
  guard! negb (negb (p =? len b)) else Malformed "r3 train trailing bytes" in
  let! items := sub_from b items_start in
  Ok (mkTrainFrame form count nfl 0 flows items).

Definition decode_train (b : bytes) : res MqpError TrainFrame :=
  let! b0 := ok_or (first b) (Malformed "empty r3 frame") in
  guard! negb (negb (Z.land b0 CLASS_MASK =? CLASS_TRAIN)) else Malformed "bad r3 train kind" in
  guard! negb (negb (Z.land b0 TRAIN_RESERVED_MASK =? 0)) else Malformed "bad r3 train reserved" in
  let form := Z.shiftr (Z.land b0 TRAIN_FORM_MASK) TRAIN_FORM_SHIFT in
  if (form =? TRAIN_FORM_SAME) || (form =? TRAIN_FORM_SAME_EQUAL)
  then decode_train_single b form
  else if form =? TRAIN_FORM_DICT then decode_train_dict b form
  else Err (Malformed "bad r3 train form").

(* ------------------------------------------------------------------ *)
(** ** The item iterator *)

Record TrainItems : Type := mkTrainItems {
  ti_form : Z;
  ti_remaining : Z;
  ti_item_len : Z;
  ti_nfl : Z;
  ti_flows : list Z;
  ti_items : bytes
}.

Definition items (t : TrainFrame) : TrainItems :=
  mkTrainItems (tf_form t) (tf_count t) (tf_item_len t) (tf_nfl t) (tf_flows t) (tf_items t).

Definition flows (t : TrainFrame) : res unit (list Z) := sub (tf_flows t) 0 (tf_nfl t).

Definition with_items (s : TrainItems) (r : Z) (b : bytes) : TrainItems :=
  mkTrainItems (ti_form s) r (ti_item_len s) (ti_nfl s) (ti_flows s) b.

(** A step that gives [None] where it fails. *)
Definition next_item (s : TrainItems) : res unit ((Z * bytes) * bytes) :=
  let its := ti_items s in
  if ti_form s =? TRAIN_FORM_SAME then
    let! '(l, off) := item_len_at its 0 in
    let! end_ := of_option (checked_add off l) in
    let! payload := of_option (slice its off end_) in
    let! rest := sub_from its end_ in
    let! f := idx (ti_flows s) 0 in
    Ok ((f, payload), rest)
  else if ti_form s =? TRAIN_FORM_SAME_EQUAL then
    let! payload := of_option (slice its 0 (ti_item_len s)) in
    let! rest := sub_from its (ti_item_len s) in
    let! f := idx (ti_flows s) 0 in
    Ok ((f, payload), rest)
  else if ti_form s =? TRAIN_FORM_DICT then
    let! i := of_option (first its) in
    guard! negb (i >=? ti_nfl s) else tt in
    let! '(l, off) := item_len_at its 1 in
    let! end_ := of_option (checked_add off l) in
    let! payload := of_option (slice its off end_) in
    let! rest := sub_from its end_ in
    let! f := idx (ti_flows s) i in
    Ok ((f, payload), rest)
  else Nope.

(** [TrainItems::next]: the item, if any, and the iterator after the call.
    The count is decremented before the item is read. *)
Definition next (s : TrainItems) : res unit (option (Z * bytes) * TrainItems) :=
  if ti_remaining s =? 0 then Ok (None, s) else
  let r := ti_remaining s - 1 in
  match next_item s with
  | Ok (it, rest) => Ok (Some it, with_items s r rest)
  | Err _ => Ok (None, with_items s r (ti_items s))
  | Panic => Panic
  end.

(** [for it in train.items()]: every call uses up one of the remaining items,
    so the count bounds the calls. *)
Fixpoint drain (fuel : nat) (s : TrainItems) : res unit (list (Z * bytes) * TrainItems) :=
  match fuel with
  | O => Ok ([], s)
  | S fuel =>
      let! '(o, s) := next s in
      match o with
      | None => Ok ([], s)
      | Some it => let! '(its, s) := drain fuel s in Ok (it :: its, s)
      end
  end.

Definition collect (t : TrainFrame) : res unit (list (Z * bytes) * TrainItems) :=
  drain (S (Z.to_nat (tf_count t))) (items t).

(* ------------------------------------------------------------------ *)
(** ** Lemmas: item lengths *)

(** The encodings a reader accepts for a length; a writer uses the short one
    whenever it can. *)
Inductive item_len_enc : Z -> bytes -> Prop :=
| ile_short n : 0 <= n < 0xFF -> item_len_enc n [n]
| ile_long n : is_u16 n -> item_len_enc n (0xFF :: le16 n).

Lemma item_len_enc_bound n e : item_len_enc n e -> is_u16 n /\ 1 <= len e <= 3.
Proof. destruct 1; (split; [ulia | lens]). Qed.

Lemma get_item_len_cursor b off n e rest : len b <= usize_max ->
  item_len_enc n e -> cursor b off (e ++ rest) -> get_item_len b off = Ok (n, off + len e).
Proof.
  intros Hb [m Hm|m Hm] Hc; cbn [app] in Hc; unfold get_item_len;
    rewrite (cursor_get _ _ _ _ Hc); cbn [ok_or res_bind].
  - replace (m =? 255) with false by lia. done.
  - apply cursor_cons in Hc. change (255 =? 255) with true.
    destruct (get_u16_step _ _ _ _ Hm Hb Hc) as [-> _]. do 2 f_equal. lens.
Qed.

Lemma get_item_len_inv b off r n off' : bytes_ok b -> cursor b off r ->
  get_item_len b off = Ok (n, off') ->
  exists e rest, r = e ++ rest /\ item_len_enc n e /\ off' = off + len e /\ cursor b off' rest.
Proof.
  intros Hb Hc H. unfold get_item_len in H. apply res_bind_ok in H as (x & Hg & H).
  apply (proj1 (ok_or_ok _ _ _)) in Hg.
  destruct (cursor_get_inv _ _ _ _ _ Hc Hg eq_refl) as (r' & -> & Hc').
  pose proof (cursor_bytes_ok _ _ _ Hb Hc) as [Hx _]%bytes_ok_cons.
  destruct (Z.eqb_spec x 255) as [->|Hne].
  - destruct (get_u16_inv _ _ _ _ _ Hb Hc' H) as (r'' & -> & -> & Hc'' & Hn).
    exists (255 :: le16 n), r''. split_and!; [done | by constructor | lens | done].
  - injection H as -> <-. exists [n], r'. split_and!; [done | constructor; ulia | done..].
Qed.

Lemma get_item_len_no_panic b off : 0 <= off -> get_item_len b off <> Panic.
Proof. intros. unfold get_item_len. repeat np_step. Qed.

(** The iterator's reader agrees with the decoder's. *)
Lemma item_len_at_get b off : item_len_at b off = res_ok (get_item_len b off).
Proof.
  unfold item_len_at, get_item_len, get_u16, get_le16, of_option.
  destruct (get b off) as [x|]; simpl; [|done]. case_match; [|done].
  destruct (checked_add (off + 1) 2) as [e|]; simpl; [|done].
  destruct (slice b (off + 1) e) as [s|]; simpl; [|done].
  by destruct s as [|s0 [|s1 s]].
Qed.

Lemma put_item_len_enc n : 0 <= n <= 2 ^ 16 - 1 -> exists e,
  item_len_enc n e /\ item_len_len n = Some (len e) /\
  forall out, put_item_len out n = (out ++ e, true).
Proof.
  intros Hn. unfold item_len_len, put_item_len. destruct (Z.ltb_spec n 255).
  - exists [n]. split_and!; [by constructor; lia | done |].
    intros. by rewrite as_u8_small by ulia.
  - replace (n <=? 2 ^ 16 - 1) with true by lia.
    exists (255 :: le16 n). split_and!; [constructor; ulia | done..].
Qed.

Lemma item_len_len_bound n l : item_len_len n = Some l -> n <= 2 ^ 16 - 1.
Proof. unfold item_len_len. repeat case_match; try done; lia. Qed.

(* ------------------------------------------------------------------ *)
(** ** Items on the wire

    [item_wire form len nfl flows it w]: the bytes [w] are an encoding of the
    item [it] in a train of that form. *)

Inductive item_wire (il nfl : Z) (fl : list Z) : Z -> Z * bytes -> bytes -> Prop :=
| iw_same fid p e : get fl 0 = Some fid -> item_len_enc (len p) e ->
    item_wire il nfl fl TRAIN_FORM_SAME (fid, p) (e ++ p)
| iw_equal fid p : get fl 0 = Some fid -> len p = il ->
    item_wire il nfl fl TRAIN_FORM_SAME_EQUAL (fid, p) p
| iw_dict fid p e i : 0 <= i < nfl -> get fl i = Some fid -> item_len_enc (len p) e ->
    item_wire il nfl fl TRAIN_FORM_DICT (fid, p) (i :: e ++ p).

Inductive items_wire (il nfl : Z) (fl : list Z) (form : Z) : list (Z * bytes) -> bytes -> Prop :=
| isw_nil : items_wire il nfl fl form [] []
| isw_cons it its w ws : item_wire il nfl fl form it w -> items_wire il nfl fl form its ws ->
    items_wire il nfl fl form (it :: its) (w ++ ws).

#[export] Hint Constructors item_len_enc item_wire items_wire : mq.

(** Reading one item off the front of well-formed item bytes. *)
Lemma next_item_wire s it w rest :
  item_wire (ti_item_len s) (ti_nfl s) (ti_flows s) (ti_form s) it w ->
  ti_items s = w ++ rest -> len (w ++ rest) <= usize_max ->
  next_item s = Ok (it, rest).
Proof.
  destruct s as [form rem il nfl fl its]. simpl. intros Hw -> Hl. unfold next_item. simpl.
  pose proof (cursor_start (w ++ rest)) as Hc.
  destruct Hw as [fid p e Hf He|fid p Hf Hp|fid p e i Hi Hf He]; simpl.
  - rewrite <- app_assoc in Hc at 2. rewrite item_len_at_get, (get_item_len_cursor _ _ _ _ _ Hl He Hc).
    cbn [res_ok res_bind]. apply cursor_app in Hc. pose proof (cursor_bounds _ _ _ Hc).
    rewrite checked_add_small by lens. cbn [of_option ok_or res_bind].
    rewrite (cursor_slice _ _ _ _ (len p) Hc) by done. cbn [of_option ok_or res_bind].
    apply cursor_app in Hc. rewrite (sub_from_cursor _ _ _ Hc). cbn [res_bind].
    unfold idx. by rewrite Hf.
  - subst il. rewrite (cursor_slice _ _ _ _ (len p) Hc eq_refl : slice _ 0 (len p) = _).
    cbn [of_option ok_or res_bind].
    apply cursor_app in Hc. rewrite (sub_from_cursor _ _ _ Hc : sub_from _ (len p) = _).
    cbn [res_bind]. unfold idx. by rewrite Hf.
  - replace (i >=? nfl) with false by lia. cbn [negb].
    cbn [app] in Hc, Hl. rewrite <- app_assoc in Hc at 2. next Hc.
    rewrite item_len_at_get, (get_item_len_cursor _ _ _ _ _ Hl He Hc).
    cbn [res_ok res_bind]. apply cursor_app in Hc. pose proof (cursor_bounds _ _ _ Hc).
    rewrite checked_add_small by lens. cbn [of_option ok_or res_bind].
    rewrite (cursor_slice _ _ _ _ (len p) Hc) by done. cbn [of_option ok_or res_bind].
    apply cursor_app in Hc. rewrite (sub_from_cursor _ _ _ Hc). cbn [res_bind].
    unfold idx. by rewrite Hf.
Qed.

(** Well-formed item bytes are drained to exactly their items. *)
Lemma drain_wire s its w fuel :
  items_wire (ti_item_len s) (ti_nfl s) (ti_flows s) (ti_form s) its w ->
  ti_items s = w -> ti_remaining s = len its -> len w <= usize_max ->
  (length its < fuel)%nat ->
  drain fuel s = Ok (its, with_items s 0 []).
Proof.
  intros Hw. revert s fuel Hw. revert w. induction its as [|it its IH];
    intros w s fuel Hw Hi Hr Hl Hf; (destruct fuel as [|fuel]; [lia|]); cbn [drain].
  - unfold next. rewrite Hr. simpl. inversion Hw; subst. by destruct s; simpl in *; subst.
  - inversion Hw as [|? ? w0 ws Hw0 Hws E1 E2]. rewrite <- E2 in Hi, Hl. clear E1 E2 w Hw. unfold next.
    replace (ti_remaining s =? 0) with false by lens.
    rewrite (next_item_wire s it w0 ws) by done. cbn [res_bind].
    rewrite (IH ws) by (simpl; try done; simpl in *; lens). done.
Qed.

(* ------------------------------------------------------------------ *)
(** ** Lemmas: the validating walks *)

Section Walks.
Context (b : bytes) (il nfl : Z) (fl : list Z).
Hypothesis Hlen : len b <= usize_max.

Lemma walk_same_wire its w off rest :
  items_wire il nfl fl TRAIN_FORM_SAME its w -> cursor b off (w ++ rest) ->
  walk_same b (length its) off = Ok (off + len w).
Proof.
  intros Hw. revert off. induction Hw as [|it its w ws Hit Hws IH]; intros off Hc; simpl.
  - f_equal. lens.
  - inversion Hit as [fid p e Hf He| |]; subst. rewrite <- !app_assoc in Hc.
    rewrite (get_item_len_cursor _ _ _ _ _ Hlen He Hc). cbn [res_bind].
    apply cursor_app in Hc. pose proof (cursor_bounds _ _ _ Hc).
    rewrite checked_add_small by lens. cbn [ok_or res_bind]. pass_guard.
    apply cursor_app in Hc. rewrite IH by done. f_equal. lens.
Qed.

Lemma walk_dict_wire its w off rest :
  items_wire il nfl fl TRAIN_FORM_DICT its w -> cursor b off (w ++ rest) ->
  walk_dict b nfl (length its) off = Ok (off + len w).
Proof.
  intros Hw. revert off. induction Hw as [|it its w ws Hit Hws IH]; intros off Hc; simpl.
  - f_equal. lens.
  - inversion Hit as [| |fid p e i Hi Hf He]; subst. rewrite <- app_assoc in Hc.
    cbn [app] in Hc. rewrite <- app_assoc in Hc.
    rewrite (cursor_get _ _ _ _ Hc). cbn [ok_or res_bind].
    replace (i >=? nfl) with false by lia. cbn [negb]. apply cursor_cons in Hc.
    rewrite (get_item_len_cursor _ _ _ _ _ Hlen He Hc). cbn [res_bind].
    apply cursor_app in Hc. pose proof (cursor_bounds _ _ _ Hc).
    rewrite checked_add_small by lens. cbn [ok_or res_bind]. pass_guard.
    apply cursor_app in Hc. rewrite IH by done. f_equal. lens.
Qed.

Hypothesis Hb : bytes_ok b.

Lemma walk_same_inv n off off' r fid : get fl 0 = Some fid -> cursor b off r ->
  walk_same b n off = Ok off' ->
  exists its w rest, r = w ++ rest /\ items_wire il nfl fl TRAIN_FORM_SAME its w /\
    length its = n /\ off' = off + len w.
Proof.
  intros Hf. revert off r. induction n as [|n IH]; intros off r Hc H; simpl in H.
  - injection H as <-. exists [], [], r. split_and!; [done | constructor | done | lens].
  - res_inv. destruct (get_item_len_inv _ _ _ _ _ Hb Hc H0) as (e & r1 & -> & He & -> & Hc1).
    apply checked_add_ok in H1 as [_ ->]. apply item_len_enc_bound in He as Hn.
    destruct (payload_inv _ _ z _ Hc1) as (p & r2 & -> & Hp & Hc2); [ulia | lia|].
    destruct (IH _ _ Hc2 H) as (its & w & rest & -> & Hw & <- & ->). subst z.
    exists ((fid, p) :: its), ((e ++ p) ++ w), rest.
    rewrite <- !app_assoc. split_and!; [done | | done | lens].
    rewrite app_assoc. eauto with mq.
Qed.

Lemma walk_dict_inv n off off' r :
  (forall i, 0 <= i < nfl -> is_Some (get fl i)) -> cursor b off r ->
  walk_dict b nfl n off = Ok off' ->
  exists its w rest, r = w ++ rest /\ items_wire il nfl fl TRAIN_FORM_DICT its w /\
    length its = n /\ off' = off + len w.
Proof.
  intros Hf. revert off r. induction n as [|n IH]; intros off r Hc H; simpl in H.
  - injection H as <-. exists [], [], r. split_and!; [done | constructor | done | lens].
  - res_inv. destruct (cursor_get_inv _ _ _ _ _ Hc H0 eq_refl) as (r0 & -> & Hc0).
    pose proof (cursor_bytes_ok _ _ _ Hb Hc) as [Hv _]%bytes_ok_cons.
    destruct (get_item_len_inv _ _ _ _ _ Hb Hc0 H2) as (e & r1 & -> & He & -> & Hc1).
    apply checked_add_ok in H3 as [_ ->]. apply item_len_enc_bound in He as Hn.
    destruct (payload_inv _ _ z _ Hc1) as (p & r2 & -> & Hp & Hc2); [ulia | lia|].
    destruct (IH _ _ Hc2 H) as (its & w & rest & -> & Hw & <- & ->). subst z.
    destruct (Hf v) as [fid Hfid]; [ulia|].
    exists ((fid, p) :: its), ((v :: e ++ p) ++ w), rest.
    split_and!; [cbn; by rewrite <- !app_assoc | | done | lens].
    constructor; [constructor; [ulia | done..] | done].
Qed.
End Walks.

(* ------------------------------------------------------------------ *)
(** ** Lemmas: the flow dictionary *)

Definition fids_wire (fs : list Z) : bytes := concat (map le16 fs).

Lemma fids_wire_cons f fs : fids_wire (f :: fs) = le16 f ++ fids_wire fs.
Proof. done. Qed.

Lemma len_fids_wire fs : len (fids_wire fs) = 2 * len fs.
Proof. induction fs as [|f fs IH]; [done|]. rewrite fids_wire_cons. lens. Qed.

#[export] Hint Rewrite len_fids_wire : len.

Lemma fold_put_u16 fs v : fold_left put_u16 fs v = v ++ fids_wire fs.
Proof.
  revert v. induction fs as [|f fs IH]; intros v; simpl; [by rewrite app_nil_r|].
  rewrite IH. unfold put_u16. by rewrite <- app_assoc.
Qed.

Lemma distinct_fids_spec seen fs :
  distinct_fids seen fs = true <->
  Forall (fun f => valid_fid f = true) fs /\ NoDup fs /\ (forall f, f ∈ fs -> f ∉ seen).
Proof.
  revert seen. induction fs as [|f fs IH]; intros seen; simpl.
  - split; [intros _; split_and!; [constructor..|set_solver] | done].
  - rewrite existsb_eqb, Forall_cons_iff, list.NoDup_cons. destruct (valid_fid f) eqn:Ev; simpl.
    2: { split; [done | naive_solver]. }
    case_bool_decide as Hs; [split; [done | set_solver]|]. rewrite IH. set_solver.
Qed.

Section Dict.
Context (b : bytes).

Lemma read_dict_wire fs pre z off rest : len b <= usize_max ->
  Forall is_u16 fs -> distinct_fids pre fs = true -> (length fs <= length z)%nat ->
  cursor b off (fids_wire fs ++ rest) ->
  read_dict b (length fs) (len pre) (pre ++ z) off
    = Ok (pre ++ fs ++ drop (length fs) z, off + 2 * len fs).
Proof.
  intros Hl Hu. revert pre z off. induction Hu as [|f fs Hf Hu IH]; intros pre z off Hd Hz Hc; simpl.
  - do 2 f_equal. lens.
  - destruct z as [|x z]; [simpl in Hz; lia|]. rewrite fids_wire_cons, <- app_assoc in Hc.
    destruct (get_u16_step _ _ _ _ Hf Hl Hc) as [-> Hc']. cbn [res_bind].
    rewrite sub_prefix. cbn [res_bind]. simpl in Hd.
    case_match eqn:Eg; [done|]. cbn [negb]. rewrite write_at_next. cbn [res_bind].
    replace (len pre + 1) with (len (pre ++ [f])) by lens.
    rewrite IH; [|done|simpl in Hz; lia|done]. rewrite <- app_assoc. do 2 f_equal. lens.
Qed.

Lemma read_dict_inv n pre z off r fl off' : bytes_ok b -> (n <= length z)%nat ->
  cursor b off r -> read_dict b n (len pre) (pre ++ z) off = Ok (fl, off') ->
  exists fs rest, r = fids_wire fs ++ rest /\ length fs = n /\ Forall is_u16 fs /\
    distinct_fids pre fs = true /\ fl = pre ++ fs ++ drop n z /\
    off' = off + 2 * len fs /\ cursor b off' rest.
Proof.
  intros Hb. revert pre z off r. induction n as [|n IH]; intros pre z off r Hz Hc H; simpl in H.
  - injection H as <- <-. exists [], r. change (len (@nil Z)) with 0.
    replace (off + 2 * 0) with off by lia. done.
  - destruct z as [|x z]; [simpl in Hz; lia|]. apply res_bind_ok in H as ([f o] & Hg & H).
    destruct (get_u16_inv _ _ _ _ _ Hb Hc Hg) as (r' & -> & -> & Hc' & Hf).
    rewrite sub_prefix in H. cbn [res_bind] in H. apply guard_ok in H as [Hd H].
    rewrite write_at_next in H. cbn [res_bind] in H.
    replace (len pre + 1) with (len (pre ++ [f])) in H by lens.
    apply (IH _ _ _ r') in H as (fs & rest & -> & <- & Hfs & Hds & -> & -> & Hr);
      [|simpl in Hz; lia|done].
    exists (f :: fs), rest. rewrite fids_wire_cons, <- !app_assoc.
    split_and!; [done|simpl; lia|by constructor| |done|lens|].
    + simpl. by case_match.
    + by replace (off + 2 * len (f :: fs)) with (off + 2 + 2 * len fs) by lens.
Qed.
End Dict.

(* ------------------------------------------------------------------ *)
(** ** Trains as one specification *)

Inductive Train : Type :=
| TSame (fid : Z) (payloads : list bytes)
| TSameEqual (fid : Z) (payloads : list bytes)
| TDict (flows : list Z) (its : list (Z * bytes)).

Definition train_encode (t : Train) (limit : Z) : res unit bytes :=
  match t with
  | TSame fid ps => encode_train_same fid ps limit
  | TSameEqual fid ps => encode_train_same_equal fid ps limit
  | TDict fs its => encode_train_dict fs its limit
  end.

Definition train_wf (t : Train) : Prop :=
  match t with
  | TSame fid _ | TSameEqual fid _ => is_u16 fid
  | TDict fs its => Forall is_u16 fs /\ Forall (fun it => is_u8 it.1) its
  end.

(** The packets of a train, with the flow each belongs to. *)
Definition train_items (t : Train) : list (Z * bytes) :=
  match t with
  | TSame fid ps | TSameEqual fid ps => map (fun p => (fid, p)) ps
  | TDict fs its => map (fun it => (default 0 (get fs it.1), it.2)) its
  end.

Definition train_flows (t : Train) : list Z :=
  match t with TSame fid _ | TSameEqual fid _ => [fid] | TDict fs _ => fs end.

Definition train_form (t : Train) : Z :=
  match t with
  | TSame _ _ => TRAIN_FORM_SAME
  | TSameEqual _ _ => TRAIN_FORM_SAME_EQUAL
  | TDict _ _ => TRAIN_FORM_DICT
  end.

Definition train_item_len (t : Train) : Z :=
  match t with TSameEqual _ (p :: _) => len p | _ => 0 end.

(** The header bytes; [e] encodes the shared length of a [SAME_EQUAL] train. *)
Definition train_header (t : Train) (e : bytes) : bytes :=
  match t with
  | TSame fid ps => [0x80] ++ le16 fid ++ [len ps]
  | TSameEqual fid ps => [0x90] ++ le16 fid ++ [len ps] ++ e
  | TDict fs its => [0xA0; len fs; len its] ++ fids_wire fs
  end.

Definition train_frame (t : Train) (w : bytes) : TrainFrame :=
  mkTrainFrame (train_form t) (len (train_items t)) (len (train_flows t)) (train_item_len t)
    (train_flows t ++ replicate (64 - length (train_flows t)) 0) w.

(** [w] holds the items of [t], whose header is well formed. *)
Definition train_wire (t : Train) (e w : bytes) : Prop :=
  1 <= len (train_items t) <= MAX_TRAIN_ITEMS /\
  1 <= len (train_flows t) <= len (train_items t) /\
  distinct_fids [] (train_flows t) = true /\ Forall is_u16 (train_flows t) /\
  match t with TSameEqual _ _ => item_len_enc (train_item_len t) e | _ => e = [] end /\
  items_wire (train_item_len t) (len (train_flows t))
    (train_flows t ++ replicate (64 - length (train_flows t)) 0) (train_form t) (train_items t) w.

Lemma valid_train_count_ok n u : valid_train_count n = Some u <-> 1 <= n <= MAX_TRAIN_ITEMS.
Proof. unfold valid_train_count. destruct u. case_match; naive_solver lia. Qed.

Ltac opt_inv ::=
  repeat match goal with
  | H : valid_train_count _ = Some _ |- _ => apply valid_train_count_ok in H
  | _ => opt_inv_base
  end.

Lemma put_same_wire nfl fl fid ps total total' : get fl 0 = Some fid ->
  same_total total ps = Some total' -> exists w, (forall v, put_same v ps = v ++ w) /\
    items_wire 0 nfl fl TRAIN_FORM_SAME (map (fun p => (fid, p)) ps) w.
Proof.
  intros Hf. revert total. induction ps as [|p ps IH]; intros total H; simpl in *.
  - exists []. split; [intros; by rewrite app_nil_r | constructor].
  - opt_inv. apply item_len_len_bound in E as Hn.
    destruct (put_item_len_enc (len p)) as (e & He & _ & Hput); [lens|].
    destruct (IH _ H) as (w & Hv & Hw).
    exists ((e ++ p) ++ w). split; [|by constructor; [constructor|]].
    intros v. rewrite Hput, Hv. simpl. by rewrite <- !app_assoc.
Qed.

Lemma put_dict_wire fl fs its total total' :
  (forall i, 0 <= i < len fs -> get fl i = get fs i) ->
  Forall (fun it => is_u8 it.1) its -> existsb (fun it => it.1 >=? len fs) its = false ->
  dict_items_total total its = Some total' -> exists w, (forall v, put_dict v its = v ++ w) /\
    items_wire 0 (len fs) fl TRAIN_FORM_DICT
      (map (fun it => (default 0 (get fs it.1), it.2)) its) w.
Proof.
  intros Hf Hu. revert total. induction Hu as [|[i p] its Hi Hu IH]; intros total Hx H; simpl in *.
  - exists []. split; [intros; by rewrite app_nil_r | constructor].
  - apply orb_false_iff in Hx as [Hx Hx']. opt_inv. apply item_len_len_bound in E0 as Hn.
    destruct (put_item_len_enc (len p)) as (e & He & _ & Hput); [lens|].
    destruct (IH _ Hx' H) as (w & Hv & Hw).
    exists ((i :: e ++ p) ++ w).
    split; [intros v; rewrite Hput, Hv; simpl; by rewrite <- !app_assoc|].
    constructor; [|done]. constructor; [ulia| |done].
    rewrite Hf by ulia. destruct (get fs i) eqn:Eg; [done|].
    apply lookup_ge_None in Eg. exfalso. unfold len in *. ulia.
Qed.

Lemma fold_app_concat (ps : list bytes) v : fold_left (fun v p => v ++ p) ps v = v ++ concat ps.
Proof.
  revert v. induction ps as [|p ps IH]; intros v; simpl; [by rewrite app_nil_r|].
  by rewrite IH, <- app_assoc.
Qed.

Lemma equal_wire nfl fl fid il ps : get fl 0 = Some fid ->
  existsb (fun p => negb (len p =? il)) ps = false ->
  items_wire il nfl fl TRAIN_FORM_SAME_EQUAL (map (fun p => (fid, p)) ps) (concat ps).
Proof.
  intros Hf. induction ps as [|p ps IH]; simpl; [constructor|].
  intros [Hp Hx]%orb_false_iff. constructor; [constructor; [done|lia] | auto].
Qed.

(** What an encoder writes is the header and the items of its train. *)
Lemma train_encode_wire t limit b : train_wf t -> train_encode t limit = Ok b ->
  exists e w, b = train_header t e ++ w /\ train_wire t e w /\ len b <= limit.
Proof.
  unfold train_wire. destruct t as [fid ps|fid ps|fs its];
    cbn [train_encode train_wf train_header train_items train_flows train_form];
    intros Hwf H.
  - unfold encode_train_same in H. res_inv. unfold train_same_len in H0. opt_inv. bools.
    destruct (put_same_wire 1 ([fid] ++ replicate 63 0) fid ps _ _ eq_refl H0) as (w & Hw & Hi).
    rewrite Hw in *. subst b. exists [], w. unfold MAX_TRAIN_ITEMS, put_u16 in *. rewrite len_map.
    rewrite as_u8_small in * by lens. split; [done|]. split; [|lens].
    split_and!; try done; [lens..|by simpl; rewrite E0|by constructor].
  - unfold encode_train_same_equal in H. res_inv. unfold train_same_equal_len in H0. opt_inv. bools.
    destruct ps as [|p0 ps]; [done|]. simpl in E1, H2. injection E1 as <-. injection H2 as <-.
    apply item_len_len_bound in E3 as Hn.
    destruct (put_item_len_enc (len p0)) as (e & He & _ & Hput); [lens|].
    rewrite Hput, fold_app_concat in *. cbn [fst] in *. subst b. exists e, (concat (p0 :: ps)).
    unfold MAX_TRAIN_ITEMS, put_u16 in *. rewrite len_map. rewrite as_u8_small in * by lens.
    split; [simpl; by rewrite <- ?app_assoc|]. split; [|lens].
    split_and!; try done; [lens..|by simpl; rewrite E0|by constructor|by apply equal_wire].
  - unfold encode_train_dict in H. res_inv. unfold train_dict_len in H0. opt_inv. bools.
    unfold valid_train_flows in E0. opt_inv. rewrite negb_false_iff in *.
    rewrite !orb_false_iff in *. destruct_and?.
    destruct (put_dict_wire (fs ++ replicate (64 - length fs) 0) fs its x1 v) as (w & Hw & Hi);
      [|done..|].
    { intros i Hi. unfold get. apply lookup_app_l. unfold len in *. lia. }
    rewrite Hw, fold_put_u16 in *. subst b. exists [], w. unfold MAX_TRAIN_ITEMS, put_u16 in *. rewrite len_map.
    rewrite !as_u8_small in * by lens. split; [simpl; by rewrite <- ?app_assoc|].
    split; [|lens]. split_and!; auto; lens.
Qed.

Lemma train_header_first t e : exists r, train_header t e =
  Z.lor CLASS_TRAIN (Z.shiftl (train_form t) TRAIN_FORM_SHIFT) :: r.
Proof. destruct t; simpl; eauto. Qed.

Lemma train_first_byte t :
  let b0 := Z.lor CLASS_TRAIN (Z.shiftl (train_form t) TRAIN_FORM_SHIFT) in
  Z.land b0 CLASS_MASK = CLASS_TRAIN /\ Z.land b0 TRAIN_RESERVED_MASK = 0 /\
  Z.shiftr (Z.land b0 TRAIN_FORM_MASK) TRAIN_FORM_SHIFT = train_form t.
Proof. by destruct t. Qed.

Lemma equal_wire_len il nfl fl its w :
  items_wire il nfl fl TRAIN_FORM_SAME_EQUAL its w -> len w = len its * il.
Proof.
  induction 1 as [|it its w ws Hi Hs IH]; [done|]. inversion Hi; subst. lens.
Qed.

Lemma train_wire_valid_fid t e w fid : train_wire t e w -> fid ∈ train_flows t ->
  valid_fid fid = true.
Proof.
  intros (_ & _ & (Hv & _ & _)%distinct_fids_spec & _) Hin.
  rewrite Forall_forall in Hv. apply Hv. by apply list_elem_of_In.
Qed.

(** The header fields of the single-flow forms. *)
Lemma decode_single_step b form fid count rest : is_u16 fid -> valid_fid fid = true ->
  valid_train_count count = Some tt -> len b <= usize_max ->
  cursor b 1 (le16 fid ++ count :: rest) ->
  cursor b 4 rest /\ decode_train_single b form =
    let! '(item_len, off) :=
      if form =? TRAIN_FORM_SAME_EQUAL then
        let! '(n, off) := get_item_len b 4 in
        let! body := ok_or (checked_mul count n) (Malformed "r3 train items overflow") in
        let! end_ := ok_or (checked_add off body) (Malformed "r3 train items overflow") in
        guard! negb (end_ >? len b) else Malformed "bad r3 train item length" in
        guard! negb (negb (end_ =? len b)) else Malformed "r3 train trailing bytes" in
        Ok (n, off)
      else
        let! p := walk_same b (Z.to_nat count) 4 in
        guard! negb (negb (p =? len b)) else Malformed "r3 train trailing bytes" in
        Ok (0, 4) in
    let! items := sub_from b off in
    Ok (mkTrainFrame form count 1 item_len ([fid] ++ replicate 63 0) items).
Proof.
  intros Hu Hv Hcount Hl Hc. unfold decode_train_single. step_u16 Hc. rewrite Hv. cbn [negb].
  rewrite (cursor_get _ _ _ _ Hc). cbn [ok_or res_bind]. rewrite Hcount. cbn [ok_or res_bind].
  split; [by next Hc | done].
Qed.

(** The decoder accepts every well-formed train and returns its header. *)
Lemma decode_train_wire t e w : train_wire t e w ->
  len (train_header t e ++ w) <= usize_max ->
  decode_train (train_header t e ++ w) = Ok (train_frame t w).
Proof.
  intros Ht Hl. destruct (train_header_first t e) as [r Er].
  remember (train_header t e ++ w) as b eqn:Eb.
  pose proof (cursor_start b) as Hc. rewrite Eb in Hc at 2.
  assert (Ef : first b = Some (Z.lor CLASS_TRAIN (Z.shiftl (train_form t) TRAIN_FORM_SHIFT)))
    by (subst b; by rewrite Er).
  unfold decode_train. rewrite Ef. cbn [ok_or res_bind].
  destruct (train_first_byte t) as (-> & -> & ->). cbn [Z.eqb Pos.eqb CLASS_TRAIN negb]. clear Er Ef Eb.
  pose proof Ht as (Hn & Hnf & Hd & Hu & He & Hi).
  assert (Hcount : valid_train_count (len (train_items t)) = Some tt) by by apply valid_train_count_ok.
  unfold train_frame. unfold MAX_TRAIN_ITEMS in Hn.
  destruct t as [fid ps|fid ps|fs its];
    cbn [train_form train_items train_flows train_header] in *; rewrite ?len_map in *.
  - subst e. cbn [orb Z.eqb TRAIN_FORM_SAME TRAIN_FORM_SAME_EQUAL].
    rewrite <- !app_assoc in Hc. next Hc. apply Forall_cons_iff in Hu as [Hu _].
    pose proof (train_wire_valid_fid _ _ _ fid Ht ltac:(set_solver)) as Hv.
    destruct (decode_single_step _ TRAIN_FORM_SAME _ _ _ Hu Hv Hcount Hl Hc) as [Hc4 ->].
    pose proof (cursor_bounds _ _ _ Hc4). rewrite <- (app_nil_r w) in Hc4.
    cbn [Z.eqb TRAIN_FORM_SAME TRAIN_FORM_SAME_EQUAL].
    rewrite len_to_nat, <- (length_map (fun p => (fid, p)) ps).
    rewrite (walk_same_wire _ _ _ _ Hl _ _ _ _ Hi Hc4). cbn [res_bind].
    replace (4 + len w =? len b) with true by lia. cbn [negb res_bind].
    rewrite app_nil_r in Hc4. by rewrite (sub_from_cursor _ _ _ Hc4).
  - cbn [orb Z.eqb TRAIN_FORM_SAME TRAIN_FORM_SAME_EQUAL].
    rewrite <- !app_assoc in Hc. next Hc. apply Forall_cons_iff in Hu as [Hu _].
    pose proof (train_wire_valid_fid _ _ _ fid Ht ltac:(set_solver)) as Hv.
    destruct (decode_single_step _ TRAIN_FORM_SAME_EQUAL _ _ _ Hu Hv Hcount Hl Hc) as [Hc4 ->].
    cbn [Z.eqb Pos.eqb TRAIN_FORM_SAME_EQUAL]. change (1 =? 1) with true. cbv iota.
    rewrite (get_item_len_cursor _ _ _ _ _ Hl He Hc4). cbn [res_bind].
    apply item_len_enc_bound in He as Hb. apply equal_wire_len in Hi. rewrite len_map in Hi.
    apply cursor_app in Hc4. pose proof (cursor_bounds _ _ _ Hc4).
    rewrite checked_mul_small by ulia. cbn [ok_or res_bind].
    rewrite checked_add_small by ulia. cbn [ok_or res_bind].
    replace (_ >? len b) with false by lia. replace (_ =? len b) with true by lia.
    cbn [negb res_bind].
    by rewrite (sub_from_cursor _ _ _ Hc4).
  - subst e. cbn [orb Z.eqb TRAIN_FORM_SAME TRAIN_FORM_SAME_EQUAL TRAIN_FORM_DICT Pos.eqb].
    unfold decode_train_dict. rewrite <- !app_assoc in Hc. next Hc.
    rewrite (cursor_get _ _ _ _ Hc). cbn [ok_or res_bind]. next Hc.
    change (1 + 1) with 2. rewrite (cursor_get _ _ _ _ Hc). cbn [ok_or res_bind]. next Hc.
    rewrite Hcount. cbn [ok_or res_bind]. pass_guard. cbn [app] in Hc.
    rewrite len_to_nat. change (2 + 1) with 3.
    assert (Hz : (length fs <= length no_flows)%nat)
      by (change (length no_flows) with 64%nat; unfold len in *; lia).
    rewrite (read_dict_wire b fs [] no_flows 3 w Hl Hu Hd Hz Hc : read_dict _ _ 0 no_flows 3 = _).
    cbn [res_bind app]. apply cursor_app in Hc. rewrite len_fids_wire in Hc.
    pose proof (cursor_bounds _ _ _ Hc). rewrite <- (app_nil_r w) in Hc.
    rewrite len_to_nat, <- (length_map (fun it => (default 0 (get fs it.1), it.2)) its).
    rewrite (walk_dict_wire _ _ _ _ Hl _ _ _ _ Hi Hc). cbn [res_bind].
    replace (_ =? len b) with true by lia. cbn [negb].
    rewrite app_nil_r in Hc. rewrite (sub_from_cursor _ _ _ Hc). cbn [res_bind].
    unfold no_flows. by rewrite drop_replicate.
Qed.

(* ------------------------------------------------------------------ *)
(** ** Lemmas: what the decoder accepted *)

(** A byte string of [n] items of length [il] each. *)
Lemma chunks_exist il n (w : bytes) : 0 <= il -> len w = Z.of_nat n * il ->
  exists ps, length ps = n /\ concat ps = w /\ existsb (fun p => negb (len p =? il)) ps = false.
Proof.
  intros Hil. revert w. induction n as [|n IH]; intros w Hw.
  - exists []. destruct w; [done | lens].
  - destruct (payload_inv w 0 il w (cursor_start w)) as (p & r & -> & Hp & _); [lia|lia|].
    destruct (IH r) as (ps & <- & <- & Hps); [lens|].
    exists (p :: ps). simpl. rewrite Hps. split_and!; [done..|]. by rewrite Hp, Z.eqb_refl.
Qed.

Lemma same_items_map il nfl fl fid its w : get fl 0 = Some fid ->
  items_wire il nfl fl TRAIN_FORM_SAME its w -> its = map (fun p => (fid, p)) (map snd its).
Proof.
  intros Hf. induction 1 as [|it its w ws Hi Hs IH]; [done|].
  inversion Hi; subst. simpl. rewrite <- IH. congruence.
Qed.

Lemma dict_items_map il fs fl its w :
  (forall i, 0 <= i < len fs -> get fl i = get fs i) -> len fs <= 64 ->
  items_wire il (len fs) fl TRAIN_FORM_DICT its w -> exists its',
  its = map (fun it => (default 0 (get fs it.1), it.2)) its' /\
  Forall (fun it => is_u8 it.1 /\ it.1 < len fs) its'.
Proof.
  intros Hf Hl. induction 1 as [|it its w ws Hi Hs (its' & -> & Hu)]; [by exists []|].
  inversion Hi as [| |fid p e i Hr Hg He]; subst. exists ((i, p) :: its').
  rewrite Hf in Hg by done. simpl. rewrite Hg. split; [done|].
  constructor; [simpl; ulia | done].
Qed.

(** The single-flow header of an accepted frame. *)
Lemma decode_single_inv b form d r : bytes_ok b -> cursor b 1 r ->
  decode_train_single b form = Ok d -> exists fid count rest,
    r = le16 fid ++ count :: rest /\ is_u16 fid /\ valid_fid fid = true /\
    1 <= count <= 64 /\ cursor b 4 rest.
Proof.
  intros Hb Hc Hd. unfold decode_train_single in Hd. apply res_bind_ok in Hd as ([fid o] & Hg & Hd).
  destruct (get_u16_inv _ _ _ _ _ Hb Hc Hg) as (r1 & -> & -> & Hc1 & Hf).
  apply guard_ok in Hd as [Hv Hd]. apply res_bind_ok in Hd as (count & Hn & Hd).
  apply (proj1 (ok_or_ok _ _ _)) in Hn.
  destruct (cursor_get_inv _ _ _ _ _ Hc1 Hn eq_refl) as (r2 & -> & Hc2).
  apply res_bind_ok in Hd as (u & Hu & Hd).
  apply (proj1 (ok_or_ok _ _ _)), valid_train_count_ok in Hu.
  exists fid, count, r2. bools. split_and!; done.
Qed.

(** Byte 0 of an accepted train is its class and its form. *)
Definition train_byte_check (b0 : Z) : bool :=
  negb ((Z.land b0 CLASS_MASK =? CLASS_TRAIN) && (Z.land b0 TRAIN_RESERVED_MASK =? 0))
  || (b0 =? Z.lor CLASS_TRAIN
        (Z.shiftl (Z.shiftr (Z.land b0 TRAIN_FORM_MASK) TRAIN_FORM_SHIFT) TRAIN_FORM_SHIFT)).

Lemma train_byte b0 : is_u8 b0 -> train_byte_check b0 = true.
Proof. apply u8_exhaust. vm_compute. reflexivity. Qed.

(** Three lemmas: an accepted body of each form. *)
Lemma decode_same_inv b fid count rest d : bytes_ok b -> len b <= usize_max ->
  is_u16 fid -> valid_fid fid = true -> 1 <= count <= 64 ->
  cursor b 1 (le16 fid ++ count :: rest) ->
  decode_train_single b TRAIN_FORM_SAME = Ok d ->
  exists ps, len ps = count /\ train_wire (TSame fid ps) [] rest /\ d = train_frame (TSame fid ps) rest.
Proof.
  intros Hb Hl Hf Hv Hn Hc Hd.
  assert (Hcount : valid_train_count count = Some tt) by by apply valid_train_count_ok.
  destruct (decode_single_step _ TRAIN_FORM_SAME _ _ _ Hf Hv Hcount Hl Hc) as [Hc4 Hs].
  rewrite Hs in Hd. clear Hs. cbn [Z.eqb TRAIN_FORM_SAME TRAIN_FORM_SAME_EQUAL] in Hd. res_inv.
  injection H as <- <-. rewrite (cursor_slice_from _ _ _ Hc4) in H2. injection H2 as <-.
  destruct (walk_same_inv b 0 1 ([fid] ++ replicate 63 0) Hb _ _ _ _ fid eq_refl Hc4 H0)
    as (its & w & rest' & -> & Hw & Hlen & ->).
  pose proof (cursor_bounds _ _ _ Hc4). destruct rest'; [|exfalso; bools; lens].
  rewrite app_nil_r in *. pose proof (same_items_map _ _ ([fid] ++ replicate 63 0) fid _ _ eq_refl Hw) as Em.
  assert (Hps : len (map snd its) = count) by (unfold len; rewrite length_map; lia).
  exists (map snd its). split; [done|]. unfold train_frame, train_wire.
  cbn [train_items train_flows train_form train_item_len]. rewrite <- Em.
  unfold MAX_TRAIN_ITEMS. rewrite len_map in Hps. rewrite Hps.
  split; [|by symmetry]. split_and!; try done; [lens..| |by constructor]. simpl. by rewrite Hv.
Qed.

Lemma decode_equal_inv b fid count rest d : bytes_ok b -> len b <= usize_max ->
  is_u16 fid -> valid_fid fid = true -> 1 <= count <= 64 ->
  cursor b 1 (le16 fid ++ count :: rest) ->
  decode_train_single b TRAIN_FORM_SAME_EQUAL = Ok d ->
  exists ps e w, len ps = count /\ rest = e ++ w /\
    train_wire (TSameEqual fid ps) e w /\ d = train_frame (TSameEqual fid ps) w.
Proof.
  intros Hb Hl Hf Hv Hn Hc Hd.
  assert (Hcount : valid_train_count count = Some tt) by by apply valid_train_count_ok.
  destruct (decode_single_step _ TRAIN_FORM_SAME_EQUAL _ _ _ Hf Hv Hcount Hl Hc) as [Hc4 Hs].
  rewrite Hs in Hd. clear Hs. change (TRAIN_FORM_SAME_EQUAL =? TRAIN_FORM_SAME_EQUAL) with true in Hd.
  cbv iota in Hd. res_inv. injection H as <- <-. opt_inv.
  destruct (get_item_len_inv _ _ _ _ _ Hb Hc4 H0) as (e & w & -> & He & -> & Hc5).
  rewrite (cursor_slice_from _ _ _ Hc5) in H5. injection H5 as <-.
  pose proof (cursor_bounds _ _ _ Hc5). bools. zbool. apply item_len_enc_bound in He as Hil.
  destruct (chunks_exist z (Z.to_nat count) w) as (ps & Hlen & Hcat & Heq); [ulia|lia|].
  exists ps, e, w. assert (Hps : len ps = count) by (unfold len; lia).
  unfold train_frame, train_wire. cbn [train_items train_flows train_form]. rewrite len_map, Hps.
  assert (Hti : train_item_len (TSameEqual fid ps) = z)
    by (destruct ps; simpl in *; [lens | lia]).
  rewrite Hti. unfold MAX_TRAIN_ITEMS. do 2 (split; [done|]). split; [|by symmetry].
  split_and!; try done; [lens..|by simpl; rewrite Hv|by constructor|].
  rewrite <- Hcat. by apply equal_wire.
Qed.

Lemma decode_dict_inv b r d : bytes_ok b -> len b <= usize_max -> cursor b 1 r ->
  decode_train_dict b TRAIN_FORM_DICT = Ok d ->
  exists fs its w, r = len fs :: len its :: fids_wire fs ++ w /\ train_wf (TDict fs its) /\
    train_wire (TDict fs its) [] w /\ d = train_frame (TDict fs its) w.
Proof.
  intros Hb Hl Hc Hd. unfold decode_train_dict in Hd. res_inv. opt_inv.
  destruct (cursor_get_inv _ _ _ _ _ Hc H eq_refl) as (r1 & -> & Hc1).
  destruct (cursor_get_inv _ _ _ _ _ Hc1 H0 eq_refl) as (r2 & -> & Hc2).
  unfold MAX_TRAIN_ITEMS in *.
  assert (Hnf : 1 <= v <= v0) by (pose proof (cursor_bytes_ok _ _ _ Hb Hc) as [? _]%bytes_ok_cons;
    bools; ulia).
  destruct (read_dict_inv b (Z.to_nat v) [] no_flows 3 r2 l z Hb) as
    (fs & r3 & -> & Hlen & Hu & Hd1 & -> & -> & Hc3);
    [change (length no_flows) with 64%nat; lia | done.. |].
  rewrite (cursor_slice_from _ _ _ Hc3) in H6. injection H6 as <-.
  assert (Hfs : len fs = v) by (unfold len; lia). cbn [app] in *.
  assert (Hfl : fs ++ drop (Z.to_nat v) no_flows = fs ++ replicate (64 - length fs) 0)
    by (unfold no_flows; rewrite drop_replicate, Hlen; done).
  rewrite Hfl in *. subst v.
  assert (Hsome : forall i, 0 <= i < len fs -> is_Some (get (fs ++ replicate (64 - length fs) 0) i)).
  { intros i Hi. rewrite get_padded by done. apply lookup_lt_is_Some_2. unfold len in *. lia. }
  destruct (walk_dict_inv b 0 _ _ Hb _ _ _ _ Hsome Hc3 H4) as (its & w & r4 & -> & Hw & Hni & ->).
  pose proof (cursor_bounds _ _ _ Hc3). destruct r4; [|exfalso; bools; lens].
  rewrite app_nil_r in *.
  destruct (dict_items_map _ _ _ _ _ (get_padded fs _) ltac:(lia) Hw) as (its' & -> & Hits).
  assert (Hn : len its' = v0) by (rewrite length_map in Hni; unfold len; lia).
  exists fs, its', w. unfold train_frame, train_wire. cbn [train_items train_flows train_form train_wf].
  rewrite len_map, Hn. unfold MAX_TRAIN_ITEMS. split; [done|]. split; [split; [done|]|].
  { eapply Forall_impl; [|exact Hits]. naive_solver. }
  split; [|done]. split_and!; try done; lia.
Qed.

(** Every accepted frame is the header and the items of a train. *)
Lemma decode_train_inv b d : bytes_ok b -> len b <= usize_max -> decode_train b = Ok d ->
  exists t e w, b = train_header t e ++ w /\ train_wf t /\ train_wire t e w /\ d = train_frame t w.
Proof.
  intros Hb Hl Hd. unfold decode_train in Hd. apply res_bind_ok in Hd as (b0 & Hb0 & Hd).
  apply ok_or_ok, first_cursor in Hb0 as (r & Er0 & Hc).
  assert (Hu : is_u8 b0) by (subst b; by apply bytes_ok_cons in Hb as [? _]).
  apply guard_ok in Hd as [Hk Hd]. apply guard_ok in Hd as [Hr Hd]. bools.
  pose proof (train_byte b0 Hu) as Ht. unfold train_byte_check in Ht. rewrite Hk, Hr in Ht.
  cbn [andb negb orb] in Ht. apply Z.eqb_eq in Ht.
  remember (Z.shiftr (Z.land b0 TRAIN_FORM_MASK) TRAIN_FORM_SHIFT) as form eqn:Ef. clear Ef Hk Hr.
  revert Hd. case_match eqn:Es; [|case_match eqn:Ed; [|done]]; intros Hd.
  - destruct (decode_single_inv _ _ _ _ Hb Hc Hd) as (fid & count & rest & -> & Hf & Hv & Hn & _).
    apply orb_true_iff in Es as [->%Z.eqb_eq | ->%Z.eqb_eq].
    + destruct (decode_same_inv _ _ _ _ _ Hb Hl Hf Hv Hn Hc Hd) as (ps & <- & Hw & ->).
      exists (TSame fid ps), [], rest. by rewrite Er0, Ht.
    + destruct (decode_equal_inv _ _ _ _ _ Hb Hl Hf Hv Hn Hc Hd) as (ps & e & w & <- & -> & Hw & ->).
      exists (TSameEqual fid ps), e, w. by rewrite Er0, Ht.
  - apply Z.eqb_eq in Ed as ->.
    destruct (decode_dict_inv _ _ _ Hb Hl Hc Hd) as (fs & its & w & -> & Hwf & Hw & ->).
    exists (TDict fs its), [], w. rewrite Er0, Ht. done.
Qed.

(* ------------------------------------------------------------------ *)
(** ** Lemmas: no panic *)

Lemma get_item_len_bound b off n off' : bytes_ok b -> 0 <= off -> get_item_len b off = Ok (n, off') ->
  0 <= n /\ off < off' <= len b.
Proof.
  intros Hb Ho H. assert (Hl : off <= len b).
  { unfold get_item_len in H. res_inv. apply get_bound in H0; lia. }
  destruct (get_item_len_inv _ _ _ _ _ Hb (cursor_exists b off ltac:(lia)) H)
    as (e & r & _ & He & -> & Hc).
  apply item_len_enc_bound in He as [? ?]. pose proof (cursor_bounds _ _ _ Hc). split; [ulia | lens].
Qed.

Lemma walk_same_no_panic b n p : bytes_ok b -> 0 <= p -> walk_same b n p <> Panic.
Proof.
  intros Hb. revert p. induction n as [|n IH]; intros p Hp; simpl; [done|].
  apply res_bind_no_panic; [by apply get_item_len_no_panic|]. intros [l q] Hg.
  apply get_item_len_bound in Hg as [? ?]; [|done..]. repeat np_step.
  opt_inv. apply IH. lia.
Qed.

Lemma walk_dict_no_panic b nfl n p : bytes_ok b -> 0 <= p -> walk_dict b nfl n p <> Panic.
Proof.
  intros Hb. revert p. induction n as [|n IH]; intros p Hp; simpl; [done|].
  repeat np_step; [apply get_item_len_no_panic; lia|].
  apply get_item_len_bound in H1 as [? ?]; [|done|lia]. repeat np_step.
  opt_inv. apply IH. lia.
Qed.

Lemma read_dict_no_panic b n pre z off : (n <= length z)%nat -> 0 <= off ->
  read_dict b n (len pre) (pre ++ z) off <> Panic.
Proof.
  revert pre z off. induction n as [|n IH]; intros pre z off Hz Ho; simpl; [done|].
  destruct z as [|x z]; [simpl in Hz; lia|].
  apply res_bind_no_panic; [by apply get_u16_no_panic|]. intros [f o] Hg.
  apply get_u16_bound in Hg; [|done]. rewrite sub_prefix. cbn [res_bind].
  apply guard_no_panic. intros _. rewrite write_at_next. cbn [res_bind].
  replace (len pre + 1) with (len (pre ++ [f])) by lens. apply IH; [simpl in Hz; lia | lia].
Qed.

Lemma decode_train_single_no_panic b form : bytes_ok b -> decode_train_single b form <> Panic.
Proof.
  intros Hb. unfold decode_train_single. repeat np_step.
  all: try (apply get_item_len_no_panic; lia).
  all: try (apply walk_same_no_panic; [done | lia]).
  repeat case_match; res_inv; simplify_eq; repeat np_learn; np_step || apply sub_from_no_panic.
  match goal with H : get_item_len _ _ = Ok _ |- _ =>
    apply get_item_len_bound in H; [lia | done | lia] end.
Qed.

Lemma read_dict_bound b n pre z off fl off' : (n <= length z)%nat -> 0 <= off <= len b ->
  bytes_ok b -> read_dict b n (len pre) (pre ++ z) off = Ok (fl, off') -> 0 <= off' <= len b.
Proof.
  intros Hn Ho Hb H.
  destruct (read_dict_inv b n pre z off _ fl off' Hb Hn (cursor_exists b off Ho) H)
    as (fs & r & _ & _ & _ & _ & _ & _ & Hc%cursor_bounds). lens.
Qed.

Lemma decode_train_dict_no_panic b form : bytes_ok b -> decode_train_dict b form <> Panic.
Proof.
  intros Hb. unfold decode_train_dict. repeat np_step.
  all: apply valid_train_count_ok in H1; unfold MAX_TRAIN_ITEMS in H1.
  all: assert (Hz : (Z.to_nat a <= length no_flows)%nat)
    by (change (length no_flows) with 64%nat; lia).
  - by apply (read_dict_no_panic b _ [] no_flows).
  - apply (read_dict_bound b _ [] no_flows) in H3; [|done|lia|done].
    apply walk_dict_no_panic; [done | lia].
  - apply (read_dict_bound b _ [] no_flows) in H3; [|done|lia|done].
    apply sub_from_no_panic. lia.
Qed.

Lemma decode_train_no_panic b : bytes_ok b -> decode_train b <> Panic.
Proof.
  intros Hb. unfold decode_train. repeat np_step.
  all: eauto using decode_train_single_no_panic, decode_train_dict_no_panic.
Qed.

(** Draining a decoded train. *)
Lemma collect_train t e w : train_wire t e w -> len w <= usize_max ->
  collect (train_frame t w) = Ok (train_items t, with_items (items (train_frame t w)) 0 []) /\
  flows (train_frame t w) = Ok (train_flows t).
Proof.
  intros Ht Hl. split; [|apply sub_prefix]. apply (drain_wire _ _ w); try done.
  - by destruct Ht as (_ & _ & _ & _ & _ & Hi).
  - simpl. rewrite len_to_nat. lia.
Qed.

Lemma train_item_flow t e w it : train_wf t -> train_wire t e w -> it ∈ train_items t ->
  it.1 ∈ train_flows t.
Proof.
  intros Hwf Ht Hin. destruct t as [fid ps|fid ps|fs its]; simpl in *.
  1,2: apply list_elem_of_In, in_map_iff in Hin as (p & <- & _); simpl; set_solver.
  destruct Ht as (_ & _ & _ & _ & _ & Hi). simpl in Hi.
  remember (map _ its) as its0. clear Heqits0 Hwf.
  induction Hi as [|it' its' w ws Hw Hi IH]; [set_solver|].
  apply elem_of_cons in Hin as [->|Hin]; [|auto].
  inversion Hw as [| |fid p e' i Hr Hg He]; subst. simpl. rewrite get_padded in Hg by done.
  by eapply list_elem_of_lookup_2.
Qed.

(* ------------------------------------------------------------------ *)
(** ** Claims *)

(** C25: a train that an encoder produced ([SAME], [SAME_EQUAL] or [DICT]) fits
    its limit, is accepted by the decoder, and the iterator yields exactly the
    packets that went in, in order and with their flows, and then stops with
    nothing left over. *)
Theorem r3_train_roundtrip t limit b :
  train_wf t -> limit <= isize_max -> train_encode t limit = Ok b ->
  len b <= limit /\ exists fr s, decode_train b = Ok fr /\
    collect fr = Ok (train_items t, s) /\ flows fr = Ok (train_flows t) /\
    tf_count fr = len (train_items t) /\ ti_items s = [] /\ next s = Ok (None, s).
Proof.
  intros Hwf Hl (e & w & -> & Ht & Hb)%train_encode_wire; [|done].
  assert (Hu : len (train_header t e ++ w) <= usize_max) by ulia.
  split; [done|]. rewrite (decode_train_wire _ _ _ Ht Hu).
  destruct (collect_train _ _ _ Ht) as [Hc Hf]; [lens|].
  eexists _, _. eauto 10.
Qed.

Lemma r3_train_roundtrip_witness :
  let b := [0xA0; 2; 3; 5; 0; 1; 0x20; 0; 2; 7; 8; 1; 0; 0; 1; 9] in
  len b <= 1200 /\ exists fr s, decode_train b = Ok fr /\
    collect fr = Ok ([(5, [7; 8]); (0x2001, []); (5, [9])], s) /\ flows fr = Ok [5; 0x2001] /\
    tf_count fr = 3 /\ ti_items s = [] /\ next s = Ok (None, s).
Proof.
  apply (r3_train_roundtrip (TDict [5; 0x2001] [(0, [7; 8]); (1, []); (0, [9])]) 1200).
  - split; repeat constructor; concrete.
  - concrete.
  - reflexivity.
Defined.

(** The train decoder is safe on every byte string.  It does not panic;
    and if it accepts, the iterator (which does not check again) does not
    panic either, yields exactly the announced number of packets, between 1
    and 64, each for a flow of the frame's dictionary of distinct valid ids,
    and uses up every byte. *)
Theorem r3_train_decode_safe b :
  bytes_ok b -> len b <= isize_max ->
  decode_train b <> Panic /\
  forall fr, decode_train b = Ok fr -> exists its s fs,
    collect fr = Ok (its, s) /\ len its = tf_count fr /\ 1 <= len its <= MAX_TRAIN_ITEMS /\
    ti_items s = [] /\ flows fr = Ok fs /\ NoDup fs /\ Forall (fun f => valid_fid f = true) fs /\
    Forall (fun it => it.1 ∈ fs) its.
Proof.
  intros Hb Hl. split; [by apply decode_train_no_panic|]. intros fr Hd.
  destruct (decode_train_inv b fr Hb ltac:(ulia) Hd) as (t & e & w & -> & Hwf & Ht & ->).
  destruct (collect_train _ _ _ Ht) as [Hc Hf]; [lens|].
  pose proof Ht as (Hn & _ & (Hv & Hnd & _)%distinct_fids_spec & _).
  eexists _, _, (train_flows t). split_and!; [eauto | done | lia | lia | done..|].
  apply Forall_forall. intros it Hin%list_elem_of_In. by eapply train_item_flow.
Qed.

Lemma r3_train_decode_safe_witness :
  let b := [0x90; 5; 0; 2; 0xFF; 1; 0; 7; 8] in
  decode_train b <> Panic /\
  forall fr, decode_train b = Ok fr -> exists its s fs,
    collect fr = Ok (its, s) /\ len its = tf_count fr /\ 1 <= len its <= MAX_TRAIN_ITEMS /\
    ti_items s = [] /\ flows fr = Ok fs /\ NoDup fs /\ Forall (fun f => valid_fid f = true) fs /\
    Forall (fun it => it.1 ∈ fs) its.
Proof. apply (r3_train_decode_safe [0x90; 5; 0; 2; 0xFF; 1; 0; 7; 8]); concrete. Defined.
