(* ===== verification/R3Ctl.v ===== *)
(** The rev3 control plane: the control messages of [src/mqp/r3.rs] and the
    reliable control stream of [src/mqp/ctl_stream.rs] that carries them (its
    classification by the first byte, the incremental framing, the receiver
    loop and the receiver-side rate budget).  The QUIC stream itself is a
    parameter, the class [RecvStream]. *)
From Stdlib Require Import Sorting.Sorted.
From S2P Require Import Prelude Addr Codec R3.

(* ------------------------------------------------------------------ *)
(** ** Messages *)

Definition CTL_STREAM_MARKER : Z := 0xFF.
Definition CTL_ASSOC_CLOSE : Z := 0x01.
Definition CTL_FLOW_CLOSE : Z := 0x02.
Definition CTL_REJECT : Z := 0x81.
Definition CTL_NEED_CONTEXT : Z := 0x82.
Definition CTL_SESS_CLOSE : Z := 0x83.
Definition CTL_GOAWAY : Z := 0x84.
Definition MAX_CTL_BODY : Z := 64.

Inductive CtlMessage : Type :=
| AssocClose (sess reason : Z)
| FlowClose (fid reason : Z)
| Reject (fid reason : Z)
| NeedContext (fid : Z)
| SessClose (sess reason : Z)
| Goaway.

#[export] Instance CtlMessage_eq_dec : EqDecision CtlMessage.
Proof. solve_decision. Defined.

Definition msg_type (m : CtlMessage) : Z :=
  match m with
  | AssocClose _ _ => CTL_ASSOC_CLOSE
  | FlowClose _ _ => CTL_FLOW_CLOSE
  | Reject _ _ => CTL_REJECT
  | NeedContext _ => CTL_NEED_CONTEXT
  | SessClose _ _ => CTL_SESS_CLOSE
  | Goaway => CTL_GOAWAY
  end.

Definition body_len (m : CtlMessage) : Z :=
  match m with
  | AssocClose _ _ | SessClose _ _ => 5
  | FlowClose _ _ | Reject _ _ => 3
  | NeedContext _ => 2
  | Goaway => 0
  end.

Definition msg_len (m : CtlMessage) : Z := 3 + body_len m.

Definition encode_ctl_message (m : CtlMessage) : option bytes :=
  let fid_in_range := match m with
    | FlowClose fid _ | Reject fid _ | NeedContext fid => valid_fid fid
    | _ => true
    end in
  if negb fid_in_range then None else
  let v := [] ++ [msg_type m] in
  let v := put_u16 v (as_u16 (body_len m)) in
  Some match m with
       | AssocClose sess reason | SessClose sess reason => put_u32 v sess ++ [reason]
       | FlowClose fid reason | Reject fid reason => put_u16 v fid ++ [reason]
       | NeedContext fid => put_u16 v fid
       | Goaway => v
       end.

Definition ctl_sess_reason (body : bytes) : res MqpError (Z * Z) :=
  guard! negb (negb (len body =? 5)) else Malformed "bad r3 ctl body len" in
  let! b0 := idx body 0 in let! b1 := idx body 1 in
  let! b2 := idx body 2 in let! b3 := idx body 3 in
  let! b4 := idx body 4 in
  Ok (of_le32 b0 b1 b2 b3, b4).

Definition ctl_fid_reason (body : bytes) : res MqpError (Z * Z) :=
  guard! negb (negb (len body =? 3)) else Malformed "bad r3 ctl body len" in
  let! b0 := idx body 0 in let! b1 := idx body 1 in
  let fid := of_le16 b0 b1 in
  guard! negb (negb (valid_fid fid)) else Malformed "bad r3 ctl fid" in
  let! b2 := idx body 2 in
  Ok (fid, b2).

(** The message of type [ty] whose body is [body]. *)
Definition decode_ctl_body (ty : Z) (body : bytes) : res MqpError CtlMessage :=
  if ty =? CTL_ASSOC_CLOSE then
    let! '(sess, reason) := ctl_sess_reason body in Ok (AssocClose sess reason)
  else if ty =? CTL_FLOW_CLOSE then
    let! '(fid, reason) := ctl_fid_reason body in Ok (FlowClose fid reason)
  else if ty =? CTL_REJECT then
    let! '(fid, reason) := ctl_fid_reason body in Ok (Reject fid reason)
  else if ty =? CTL_NEED_CONTEXT then
    guard! negb (negb (len body =? 2)) else Malformed "bad r3 ctl body len" in
    let! b0 := idx body 0 in let! b1 := idx body 1 in
    let fid := of_le16 b0 b1 in
    guard! negb (negb (valid_fid fid)) else Malformed "bad r3 ctl fid" in
    Ok (NeedContext fid)
  else if ty =? CTL_SESS_CLOSE then
    let! '(sess, reason) := ctl_sess_reason body in Ok (SessClose sess reason)
  else if ty =? CTL_GOAWAY then
    guard! negb (negb (len body =? 0)) else Malformed "bad r3 ctl body len" in
    Ok Goaway
  else Err (Malformed "bad r3 ctl type").

Definition decode_ctl_message (b : bytes) : res MqpError (CtlMessage * Z) :=
  guard! negb (len b <? 3) else Malformed "short r3 ctl message" in
  let! ty := idx b 0 in
  let! b1 := idx b 1 in let! b2 := idx b 2 in
  let l := of_le16 b1 b2 in
  guard! negb (l >? MAX_CTL_BODY) else Malformed "r3 ctl body too long" in
  let end_ := 3 + l in
  guard! negb (len b <? end_) else Malformed "truncated r3 ctl body" in
  let! body := sub b 3 end_ in
  let! msg := decode_ctl_body ty body in
  Ok (msg, end_).

(* ------------------------------------------------------------------ *)
(** ** The control stream *)

Definition MARKER : Z := CTL_STREAM_MARKER.
Definition MAX_CTL_MESSAGE : Z := MAX_CTL_BODY.
Definition MAX_CTL_FRAME_OVERHEAD : Z := 3.

Inductive StreamClass : Type :=
| Control
| Tcp (atyp : Z).

Definition classify_first_byte (first : Z) : option StreamClass :=
  if first =? MARKER then Some Control
  else if (first =? 0x01) || (first =? 0x03) || (first =? 0x04) then Some (Tcp first)
  else None.

Definition encode_message (m : CtlMessage) : option bytes := encode_ctl_message m.

Definition decode_message (buf : bytes) : res MqpError (option (CtlMessage * Z)) :=
  if len buf <? MAX_CTL_FRAME_OVERHEAD then Ok None else
  let! b1 := idx buf 1 in let! b2 := idx buf 2 in
  let bl := of_le16 b1 b2 in
  guard! negb (bl >? MAX_CTL_MESSAGE) else Malformed "r3 ctl message body too long" in
  let total := MAX_CTL_FRAME_OVERHEAD + bl in
  if len buf <? total then Ok None else
  let! fr := sub buf 0 total in
  let! '(msg, consumed) := decode_ctl_message fr in
  guard! negb (negb (consumed =? total)) else Malformed "r3 ctl message length mismatch" in
  Ok (Some (msg, total)).

(** The receive half of a QUIC stream: [read_exact n] gives the next [n]
    bytes, or fails after [FinishedEarly k] bytes when the peer finished the
    stream before. *)
Inductive ReadExactError : Type :=
| FinishedEarly (k : Z)
| ReadError.

Class RecvStream (St : Type) : Type := {
  read_exact : St -> Z -> (bytes + ReadExactError) * St;
  (** The bytes the peer will have sent when it finished the stream. *)
  to_come : St -> bytes;
  read_exact_ok s n : 0 <= n <= len (to_come s) ->
    exists s', read_exact s n = (inl (take (Z.to_nat n) (to_come s)), s') /\
      to_come s' = drop (Z.to_nat n) (to_come s);
  read_exact_early s n : len (to_come s) < n ->
    exists s', read_exact s n = (inr (FinishedEarly (len (to_come s))), s')
}.

(** Why a receive failed. *)
Inductive RecvError : Type :=
| RecvStreamError (e : ReadExactError)
| RecvBail (why : string)
| RecvMalformed (e : MqpError).

Section Receiver.
Context {St : Type} `{RecvStream St}.

(** [CtlReceiver::recv]; [None] is a clean end of the stream.  The scratch
    buffer is cleared on every call, so it carries no state. *)
Definition recv (s : St) : res RecvError (option CtlMessage) * St :=
  match read_exact s MAX_CTL_FRAME_OVERHEAD with
  | (inr (FinishedEarly 0), s) => (Ok None, s)
  | (inr e, s) => (Err (RecvStreamError e), s)
  | (inl ((_ :: h1 :: h2 :: _) as head), s) =>
      let bl := of_le16 h1 h2 in
      if bl >? MAX_CTL_MESSAGE then (Err (RecvBail "r3 ctl message body too long"), s) else
      let '(body, s) := if bl >? 0 then read_exact s bl else (inl [], s) in
      match body with
      | inr e => (Err (RecvStreamError e), s)
      | inl body =>
          let buf := head ++ body in
          (match decode_ctl_message buf with
           | Ok (msg, consumed) =>
               if negb (consumed =? len buf) then Err (RecvBail "r3 ctl message length mismatch")
               else Ok (Some msg)
           | Err e => Err (RecvMalformed e)
           | Panic => Panic
           end, s)
      end
  | (inl _, s) => (Panic, s)
  end.

(** The receiver task: messages until the stream ends or fails; [None] when
    [fuel] calls were not enough to see the end. *)
Fixpoint recv_all (fuel : nat) (s : St) : option (list CtlMessage * res RecvError unit) :=
  match fuel with
  | O => None
  | S fuel =>
      match recv s with
      | (Ok (Some m), s) => '(ms, r) ← recv_all fuel s; Some (m :: ms, r)
      | (Ok None, _) => Some ([], Ok tt)
      | (Err e, _) => Some ([], Err e)
      | (Panic, _) => Some ([], Panic)
      end
  end.
End Receiver.

(* ------------------------------------------------------------------ *)
(** ** The receiver's rate budget *)

Record CtlRate : Type := mkCtlRate {
  window_ms : Z;
  max_per_sec : Z;
  count : Z
}.

Definition CtlRate_new (max_per_sec : Z) : CtlRate := mkCtlRate 0 max_per_sec max_per_sec.
Definition default_budget : CtlRate := CtlRate_new 4096.

Definition allow (now_ms : Z) (r : CtlRate) : bool * CtlRate :=
  let r := if saturating_sub now_ms (window_ms r) >=? 1000
           then mkCtlRate now_ms (max_per_sec r) (max_per_sec r) else r in
  if count r =? 0 then (false, r)
  else (true, mkCtlRate (window_ms r) (max_per_sec r) (count r - 1)).

(** The number of messages let through at the times [ts]. *)
Fixpoint allowed (ts : list Z) (r : CtlRate) : Z :=
  match ts with
  | [] => 0
  | t :: ts => let '(ok, r) := allow t r in (if ok then 1 else 0) + allowed ts r
  end.

(* ------------------------------------------------------------------ *)
(** ** Lemmas *)

(** The field types of a message. *)
Definition msg_wf (m : CtlMessage) : Prop :=
  match m with
  | AssocClose sess reason | SessClose sess reason => is_u32 sess /\ is_u8 reason
  | FlowClose fid reason | Reject fid reason => is_u16 fid /\ is_u8 reason
  | NeedContext fid => is_u16 fid
  | Goaway => True
  end.

(** The body of a message. *)
Definition msg_body (m : CtlMessage) : bytes :=
  match m with
  | AssocClose sess reason | SessClose sess reason => le32 sess ++ [reason]
  | FlowClose fid reason | Reject fid reason => le16 fid ++ [reason]
  | NeedContext fid => le16 fid
  | Goaway => []
  end.

Definition msg_fid_ok (m : CtlMessage) : bool :=
  match m with
  | FlowClose fid _ | Reject fid _ | NeedContext fid => valid_fid fid
  | _ => true
  end.

Lemma len_msg_body m : len (msg_body m) = body_len m.
Proof. by destruct m. Qed.

Lemma body_len_bound m : 0 <= body_len m <= 5.
Proof. destruct m; simpl; lia. Qed.

Lemma encode_ctl_message_spec m e : encode_ctl_message m = Some e <->
  msg_fid_ok m = true /\ e = msg_type m :: body_len m :: 0 :: msg_body m.
Proof.
  unfold encode_ctl_message. fold (msg_fid_ok m). destruct (msg_fid_ok m); simpl; [|naive_solver].
  destruct m; simpl; naive_solver.
Qed.

Lemma encode_ctl_message_len m e : encode_ctl_message m = Some e -> len e = msg_len m.
Proof. intros [_ ->]%encode_ctl_message_spec. unfold msg_len. rewrite <- len_msg_body. lens. Qed.

Lemma ctl_sess_reason_ok sess reason : is_u32 sess ->
  ctl_sess_reason (le32 sess ++ [reason]) = Ok (sess, reason).
Proof.
  intros H. rewrite <- (of_le32_le32 sess H) at 2. reflexivity.
Qed.

Lemma of_le16_bytes_valid fid : is_u16 fid ->
  forall {A} (k : Z -> A), k (of_le16 (fid mod 2 ^ 8) (fid / 2 ^ 8 mod 2 ^ 8)) = k fid.
Proof. intros H A k. by rewrite of_le16_le16. Qed.

Lemma ctl_fid_reason_ok fid reason : is_u16 fid -> valid_fid fid = true ->
  ctl_fid_reason (le16 fid ++ [reason]) = Ok (fid, reason).
Proof.
  intros H Hf. etransitivity; [exact (of_le16_bytes_valid fid H (fun f =>
    guard! negb (negb (valid_fid f)) else Malformed "bad r3 ctl fid" in Ok (f, reason)))|].
  cbv beta. by rewrite Hf.
Qed.

Lemma decode_ctl_body_msg m : msg_wf m -> msg_fid_ok m = true ->
  decode_ctl_body (msg_type m) (msg_body m) = Ok m.
Proof.
  intros Hwf Hf.
  destruct m; cbn [msg_wf msg_fid_ok msg_type msg_body] in *; destruct_and?; unfold decode_ctl_body;
    cbn [Z.eqb Pos.eqb CTL_ASSOC_CLOSE CTL_FLOW_CLOSE CTL_REJECT CTL_NEED_CONTEXT CTL_SESS_CLOSE
         CTL_GOAWAY]; rewrite ?ctl_sess_reason_ok, ?ctl_fid_reason_ok by done; try done.
  etransitivity; [exact (of_le16_bytes_valid fid Hwf (fun f =>
    guard! negb (negb (valid_fid f)) else Malformed "bad r3 ctl fid" in Ok (NeedContext f)))|].
  cbv beta. by rewrite Hf.
Qed.

Lemma decode_ctl_body_inv ty body m : bytes_ok body -> decode_ctl_body ty body = Ok m ->
  ty = msg_type m /\ body = msg_body m /\ msg_wf m /\ msg_fid_ok m = true.
Proof.
  intros Hb H. unfold decode_ctl_body, ctl_sess_reason, ctl_fid_reason in H.
  repeat match type of H with (if ?c then _ else _) = _ => destruct c eqn:?E end; try done;
    res_inv; bools; zbool; subst;
    destruct body as [|? [|? [|? [|? [|? [|]]]]]]; try (exfalso; lens);
    repeat match goal with H : get _ _ = Some _ |- _ => injection H as <- end;
    rewrite ?bytes_ok_cons in Hb; destruct_and?; simplify_eq;
    cbn [msg_type msg_body msg_wf msg_fid_ok];
    rewrite ?le16_of_le16, ?le32_of_le32 by done; split_and!; eauto with mq.
Qed.

Lemma sub_0_app {E A} (x y : list A) n : n = len x -> @sub E A (x ++ y) 0 n = Ok x.
Proof.
  intros ->. unfold sub.
  by rewrite (cursor_slice _ 0 x y (len x) (cursor_start _) eq_refl : slice _ 0 (len x) = _).
Qed.

Lemma decode_ctl_message_encoded m e rest : msg_wf m -> encode_ctl_message m = Some e ->
  decode_ctl_message (e ++ rest) = Ok (m, len e).
Proof.
  intros Hwf He. pose proof (encode_ctl_message_len m e He) as Hl. rewrite Hl.
  apply encode_ctl_message_spec in He as [Hf ->]. pose proof (body_len_bound m).
  unfold decode_ctl_message, msg_len in *. pass_guard. cbn [idx get app].
  change (idx (msg_type m :: body_len m :: 0 :: msg_body m ++ rest) 0) with (@Ok MqpError _ (msg_type m)).
  change (idx (msg_type m :: body_len m :: 0 :: msg_body m ++ rest) 1) with (@Ok MqpError _ (body_len m)).
  change (idx (msg_type m :: body_len m :: 0 :: msg_body m ++ rest) 2) with (@Ok MqpError _ 0).
  cbn [res_bind]. replace (of_le16 (body_len m) 0) with (body_len m) by (unfold of_le16; lia).
  unfold MAX_CTL_BODY. pass_guard. pass_guard.
  unfold sub. rewrite (cursor_slice _ 3 (msg_body m) rest (body_len m));
    [|by exists [msg_type m; body_len m; 0] | by rewrite len_msg_body].
  cbn [or_panic res_bind]. by rewrite (decode_ctl_body_msg m Hwf Hf).
Qed.

Lemma decode_ctl_message_inv b m n : bytes_ok b -> decode_ctl_message b = Ok (m, n) ->
  exists e rest, b = e ++ rest /\ encode_ctl_message m = Some e /\ n = len e /\ msg_wf m.
Proof.
  intros Hb H. unfold decode_ctl_message in H. res_inv. subst.
  destruct b as [|x0 [|x1 [|x2 b]]]; try (exfalso; bools; zbool; lens).
  injection H1 as ->. injection H2 as ->. injection H3 as ->.
  rewrite !bytes_ok_cons in Hb. destruct Hb as (? & ? & ? & Hb).
  apply slice_cursor in H6 as (rest & Hc & Hl); [|lia].
  destruct Hc as (pre & Eb & Hpre). destruct pre as [|? [|? [|? [|]]]]; try (exfalso; lens).
  injection Eb as <- <- <- ->. apply bytes_ok_app in Hb as [Hb _].
  apply decode_ctl_body_inv in H7 as (-> & -> & Hwf & Hf); [|done].
  exists (msg_type m :: v0 :: v1 :: msg_body m), rest. split; [done|].
  rewrite len_msg_body in Hl. pose proof (body_len_bound m).
  assert (v0 = body_len m /\ v1 = 0) as [-> ->] by umod.
  split_and!; [by apply encode_ctl_message_spec | rewrite !len_cons, len_msg_body; lia | done].
Qed.

Lemma decode_ctl_body_no_panic ty body : decode_ctl_body ty body <> Panic.
Proof. unfold decode_ctl_body, ctl_sess_reason, ctl_fid_reason. repeat np_step. Qed.

(** The bytes of a buffer are bytes. *)
Lemma idx_u8 {E} b i x : bytes_ok b -> @idx E Z b i = Ok x -> is_u8 x.
Proof.
  intros Hb H%or_panic_ok. unfold get in H. unfold bytes_ok in Hb. rewrite Forall_forall in Hb.
  apply Hb, list_elem_of_In. by eapply list_elem_of_lookup_2.
Qed.

Lemma of_le16_idx_nonneg {E} b i j x y : bytes_ok b ->
  @idx E Z b i = Ok x -> @idx E Z b j = Ok y -> 0 <= of_le16 x y.
Proof. intros Hb H1%idx_u8 H2%idx_u8; [umod | done..]. Qed.

Lemma decode_ctl_message_no_panic b : bytes_ok b -> decode_ctl_message b <> Panic.
Proof.
  intros Hb. unfold decode_ctl_message. repeat np_step; [|apply decode_ctl_body_no_panic].
  apply sub_no_panic. pose proof (of_le16_idx_nonneg b 1 2 _ _ Hb H1 H2). lens.
Qed.

(** Framing: a complete frame at the front of the buffer. *)
Lemma decode_message_encoded m e rest : msg_wf m -> encode_message m = Some e ->
  decode_message (e ++ rest) = Ok (Some (m, len e)).
Proof.
  intros Hwf He. pose proof (encode_ctl_message_len m e He) as Hl.
  pose proof (decode_ctl_message_encoded m e [] Hwf He) as Hd. rewrite app_nil_r in Hd.
  pose proof (body_len_bound m). unfold msg_len in *.
  assert (Hidx : @idx MqpError Z (e ++ rest) 1 = Ok (body_len m) /\ @idx MqpError Z (e ++ rest) 2 = Ok 0)
    by (apply encode_ctl_message_spec in He as [_ ->]; done).
  destruct Hidx as [Hi1 Hi2]. unfold decode_message, MAX_CTL_FRAME_OVERHEAD, MAX_CTL_MESSAGE, MAX_CTL_BODY.
  replace (len (e ++ rest) <? 3) with false by (symmetry; lens).
  rewrite Hi1, Hi2. cbn [res_bind].
  replace (of_le16 (body_len m) 0) with (body_len m) by (unfold of_le16; lia).
  pass_guard. replace (len (e ++ rest) <? _) with false by (symmetry; lens).
  rewrite sub_0_app by lia. cbn [res_bind]. rewrite Hd. cbn [res_bind].
  replace (len e =? _) with true by lia. by rewrite Hl.
Qed.

(** A proper prefix of a frame waits for more bytes. *)
Lemma decode_message_prefix m p q : encode_message m = Some (p ++ q) -> q <> [] ->
  decode_message p = Ok None.
Proof.
  intros He Hq. pose proof (encode_ctl_message_len _ _ He) as Hl. unfold msg_len in Hl.
  assert (1 <= len q) by (destruct q; [done | lens]). pose proof (body_len_bound m).
  unfold decode_message, MAX_CTL_FRAME_OVERHEAD, MAX_CTL_MESSAGE, MAX_CTL_BODY.
  destruct (Z.ltb_spec (len p) 3); [done|].
  apply encode_ctl_message_spec in He as [_ He].
  destruct p as [|x0 [|x1 [|x2 p]]]; try (exfalso; lens). injection He as -> -> -> He.
  change (idx (msg_type m :: body_len m :: 0 :: p) 1) with (@Ok MqpError _ (body_len m)).
  change (idx (msg_type m :: body_len m :: 0 :: p) 2) with (@Ok MqpError _ 0).
  cbn [res_bind]. replace (of_le16 (body_len m) 0) with (body_len m) by (unfold of_le16; lia).
  pass_guard. replace (_ <? _) with true; [done | symmetry; lens].
Qed.

Lemma decode_message_inv b m n : bytes_ok b -> decode_message b = Ok (Some (m, n)) ->
  exists e rest, b = e ++ rest /\ encode_message m = Some e /\ n = len e /\ msg_wf m.
Proof.
  intros Hb H. unfold decode_message in H. case_match; [done|]. res_inv. case_match; [done|]. res_inv.
  simplify_eq. apply slice_cursor in H5 as (rest & (pre & -> & Hp) & Hl); [|lia].
  destruct pre; [|lens]. cbn [app] in *. apply bytes_ok_app in Hb as [Hb _].
  apply decode_ctl_message_inv in H6 as (e & r & -> & He & -> & Hwf); [|done].
  destruct r; [|exfalso; bools; zbool; lens]. rewrite app_nil_r in *. exists e, rest. bools. zbool.
  split_and!; [done..| lia | done].
Qed.

Lemma decode_message_no_panic b : bytes_ok b -> decode_message b <> Panic.
Proof.
  intros Hb. unfold decode_message, MAX_CTL_FRAME_OVERHEAD. repeat np_step.
  - apply sub_no_panic. pose proof (of_le16_idx_nonneg b 1 2 _ _ Hb H H0). lens.
  - apply decode_ctl_message_no_panic. res_inv.
    match goal with H : slice _ _ _ = Some _ |- _ => rename H into Hs end.
    apply slice_cursor in Hs as (rest & (pre & -> & _) & _); [|lia].
    rewrite !bytes_ok_app in Hb. naive_solver.
Qed.

Section ReceiverLemmas.
Context {St : Type} `{!RecvStream St}.

Lemma read_exact_app (s : St) x rest n : to_come s = x ++ rest -> n = len x ->
  exists s', read_exact s n = (inl x, s') /\ to_come s' = rest.
Proof.
  intros Hs ->. destruct (read_exact_ok s (len x)) as (s' & Hr & Ht); [rewrite Hs; lens|].
  rewrite Hs, len_to_nat, take_app_length in Hr. rewrite Hs, len_to_nat, drop_app_length in Ht. eauto.
Qed.

Lemma recv_message (s : St) m e rest : msg_wf m -> encode_message m = Some e ->
  to_come s = e ++ rest -> exists s', recv s = (Ok (Some m), s') /\ to_come s' = rest.
Proof.
  intros Hwf He Hs. pose proof (encode_ctl_message_len _ _ He) as Hl.
  pose proof (decode_ctl_message_encoded m e [] Hwf He) as Hd. rewrite app_nil_r in Hd.
  apply encode_ctl_message_spec in He as [_ He]. pose proof (body_len_bound m).
  subst e. remember (msg_body m) as body eqn:Eb. pose proof (len_msg_body m) as Hb. rewrite <- Eb in Hb.
  destruct (read_exact_app s [msg_type m; body_len m; 0] (body ++ rest) 3) as (s1 & Hr & Hs1); [done..|].
  unfold recv, MAX_CTL_FRAME_OVERHEAD, MAX_CTL_MESSAGE, MAX_CTL_BODY. rewrite Hr.
  replace (of_le16 (body_len m) 0) with (body_len m) by (unfold of_le16; lia).
  replace (body_len m >? 64) with false by lia.
  assert (exists s2, (if body_len m >? 0 then read_exact s1 (body_len m) else (inl [], s1)) =
    (inl body, s2) /\ to_come s2 = rest) as (s2 & -> & Hs2).
  { destruct (Z.gtb_spec (body_len m) 0); [by apply read_exact_app|].
    destruct body; [eauto | exfalso; lens]. }
  exists s2. split; [|done]. cbn [app]. rewrite Hd. by rewrite Z.eqb_refl.
Qed.

Lemma recv_end (s : St) : to_come s = [] -> exists s', recv s = (Ok None, s').
Proof.
  intros Hs. destruct (read_exact_early s 3) as (s' & Hr); [rewrite Hs; lens|].
  unfold recv, MAX_CTL_FRAME_OVERHEAD. rewrite Hr, Hs. eauto.
Qed.

Lemma recv_all_some fuel (s s' : St) m ms r : recv s = (Ok (Some m), s') ->
  recv_all fuel s' = Some (ms, r) -> recv_all (S fuel) s = Some (m :: ms, r).
Proof. intros Hr Ha. simpl. by rewrite Hr, Ha. Qed.

Lemma recv_all_messages ms frames (s : St) :
  Forall msg_wf ms -> mapM encode_message ms = Some frames -> to_come s = concat frames ->
  recv_all (S (length ms)) s = Some (ms, Ok tt).
Proof.
  intros Hwf Hm Hs. apply mapM_Some in Hm.
  revert s Hs. induction Hm as [|m e ms frames He Hm IH]; intros s Hs.
  - destruct (recv_end s Hs) as [s' Hr]. simpl. by rewrite Hr.
  - apply Forall_cons_iff in Hwf as [Hm0 Hwf].
    destruct (recv_message s m e _ Hm0 He Hs) as (s' & Hr & Hs').
    eapply recv_all_some; eauto.
Qed.
End ReceiverLemmas.

(** A stream whose content is all there. *)
Definition buffered_read (s : bytes) (n : Z) : (bytes + ReadExactError) * bytes :=
  if n <=? len s then (inl (take (Z.to_nat n) s), drop (Z.to_nat n) s)
  else (inr (FinishedEarly (len s)), []).

#[export] Instance buffered_stream : RecvStream bytes.
Proof.
  refine {| read_exact := buffered_read; to_come := fun s => s |}; unfold buffered_read.
  - intros s n Hn. rewrite (proj2 (Z.leb_le _ _)) by lia. eauto.
  - intros s n Hn. rewrite (proj2 (Z.leb_gt _ _)) by lia. eauto.
Defined.

(** One call of the budget: what it lets through is taken from the window. *)
Lemma allow_step now r : 0 <= count r <= max_per_sec r ->
  let '(ok, r') := allow now r in
  0 <= count r' <= max_per_sec r' /\ max_per_sec r' = max_per_sec r /\
  ((if ok then 1 else 0) + count r' = count r /\ window_ms r' = window_ms r \/
   now - window_ms r >= 1000 /\ window_ms r' = now /\
   (if ok then 1 else 0) + count r' = max_per_sec r).
Proof.
  intros Hc. unfold allow, saturating_sub.
  destruct (_ >=? 1000) eqn:E; cbn [count max_per_sec window_ms];
    match goal with |- context [?c =? 0] => destruct (c =? 0) eqn:E2 end;
    zbool; cbn [count max_per_sec window_ms]; lia.
Qed.

(** Ascending times: every window opens at least a second after the last. *)
Lemma allowed_bound ts r last : 0 <= count r <= max_per_sec r ->
  StronglySorted Z.le ts -> Forall (fun t => t <= last) ts -> window_ms r <= last ->
  allowed ts r <= count r + max_per_sec r * ((last - window_ms r) / 1000).
Proof.
  revert r. induction ts as [|t ts IH]; intros r Hc Hs Hl Hw; simpl.
  - assert (0 <= (last - window_ms r) / 1000) by (apply Z.div_pos; lia). nia.
  - pose proof (allow_step t r Hc) as Ha. destruct (allow t r) as [ok r'].
    apply Forall_cons_iff in Hl as [Ht Hl]. apply StronglySorted_inv in Hs as [Hs _].
    destruct Ha as (Hc' & Hm & [[Hn Hw'] | (Hd & Hw' & Hn)]).
    + specialize (IH r' Hc' Hs Hl ltac:(lia)). rewrite Hm, Hw' in IH. lia.
    + specialize (IH r' Hc' Hs Hl ltac:(lia)). rewrite Hm, Hw' in IH.
      assert ((last - t) / 1000 + 1 <= (last - window_ms r) / 1000).
      { rewrite <- Z.div_add by lia. apply Z.div_le_mono; lia. }
      nia.
Qed.

(** The same over a span, whatever the age of the current window. *)
Lemma allowed_span ts r t0 d : 0 <= count r <= max_per_sec r -> 0 <= d ->
  StronglySorted Z.le ts -> Forall (fun t => t0 <= t <= t0 + d) ts ->
  allowed ts r <= count r + max_per_sec r * (1 + d / 1000).
Proof.
  intros Hc Hd. assert (Hq : 0 <= d / 1000) by (apply Z.div_pos; lia).
  revert r Hc. induction ts as [|t ts IH]; intros r Hc Hs Hl; simpl; [nia|].
  pose proof (allow_step t r Hc) as Ha. destruct (allow t r) as [ok r'].
  apply Forall_cons_iff in Hl as [Ht Hl]. apply StronglySorted_inv in Hs as [Hs _].
  destruct Ha as (Hc' & Hm & [[Hn Hw'] | (Hd' & Hw' & Hn)]).
  - specialize (IH r' Hc' Hs Hl). rewrite Hm in IH. lia.
  - assert (Hb : allowed ts r' <= count r' + max_per_sec r' * ((t0 + d - window_ms r') / 1000)).
    { apply allowed_bound; [done..| |lia]. eapply Forall_impl; [|exact Hl]. simpl. lia. }
    rewrite Hm, Hw' in Hb.
    assert ((t0 + d - t) / 1000 <= d / 1000) by (apply Z.div_le_mono; lia). nia.
Qed.

(* ------------------------------------------------------------------ *)
(** ** Claims *)

(** Framing on the control stream.  A buffer that starts with a complete
    frame gives its message and consumes exactly that frame, whatever follows;
    a proper prefix of a frame asks for more bytes; and a message is only
    reported for the bytes that encode it, so framing cannot lose step.  No
    buffer makes the decoder panic. *)
Theorem ctl_framing_exact m e b :
  msg_wf m -> encode_message m = Some e -> bytes_ok b ->
  (forall rest, decode_message (e ++ rest) = Ok (Some (m, len e))) /\
  (forall p q, e = p ++ q -> q <> [] -> decode_message p = Ok None) /\
  (forall m' n, decode_message b = Ok (Some (m', n)) ->
     exists e' rest, b = e' ++ rest /\ encode_message m' = Some e' /\ n = len e') /\
  decode_message b <> Panic.
Proof.
  intros Hwf He Hb. split_and!.
  - intros rest. by apply decode_message_encoded.
  - intros p q -> Hq. by eapply decode_message_prefix.
  - intros m' n (e' & rest & ? & ? & ? & _)%decode_message_inv; eauto.
  - by apply decode_message_no_panic.
Qed.

Lemma ctl_framing_exact_witness :
  (forall rest, decode_message ([0x81; 3; 0; 5; 0x20; 7] ++ rest) = Ok (Some (Reject 0x2005 7, 6))) /\
  (forall p q, [0x81; 3; 0; 5; 0x20; 7] = p ++ q -> q <> [] -> decode_message p = Ok None) /\
  (forall m' n, decode_message [0x84; 0; 0; 1] = Ok (Some (m', n)) ->
     exists e' rest, [0x84; 0; 0; 1] = e' ++ rest /\ encode_message m' = Some e' /\ n = len e') /\
  decode_message [0x84; 0; 0; 1] <> Panic.
Proof.
  apply (ctl_framing_exact (Reject 0x2005 7) [0x81; 3; 0; 5; 0x20; 7] [0x84; 0; 0; 1]).
  - split; concrete.
  - reflexivity.
  - concrete.
Defined.

(** C37: a control stream delivers what was sent.  The stream a client opens
    starts with the marker, which the accept loop never takes for a TCP relay
    stream; reading it to the end then yields the client's messages, each once
    and in order, and a clean end, on any stream that delivers its bytes in
    order. *)
Theorem ctl_stream_delivers {St} `{!RecvStream St} ms frames (s : St) :
  Forall msg_wf ms -> mapM encode_message ms = Some frames ->
  to_come s = MARKER :: concat frames ->
  (exists s', read_exact s 1 = (inl [MARKER], s') /\
     recv_all (S (length ms)) s' = Some (ms, Ok tt)) /\
  classify_first_byte MARKER = Some Control /\
  (forall a e r, addr_wf a -> encode a [] = Ok e -> first e = Some r ->
     classify_first_byte r = Some (Tcp r)).
Proof.
  intros Hwf Hm Hs. split_and!; [|done|].
  - destruct (read_exact_app s [MARKER] (concat frames) 1) as (s' & Hr & Hs'); [done..|].
    exists s'. split; [done|]. by eapply recv_all_messages.
  - intros a e r _ He Hr. destruct a as [[ip p|ip p fl sc]|d p]; simpl in He; res_inv; subst e;
      injection Hr as <-; done.
Qed.

Lemma ctl_stream_delivers_witness :
  let s := [0xFF; 0x82; 2; 0; 9; 0; 0x01; 5; 0; 7; 0; 0; 0; 1] in
  (exists s', read_exact s 1 = (inl [MARKER], s') /\
     recv_all 3 s' = Some ([NeedContext 9; AssocClose 7 1], Ok tt)) /\
  classify_first_byte MARKER = Some Control /\
  (forall a e r, addr_wf a -> encode a [] = Ok e -> first e = Some r ->
     classify_first_byte r = Some (Tcp r)).
Proof.
  apply (ctl_stream_delivers (St := bytes) [NeedContext 9; AssocClose 7 1]
           [[0x82; 2; 0; 9; 0]; [0x01; 5; 0; 7; 0; 0; 0; 1]]).
  - repeat constructor; concrete.
  - reflexivity.
  - reflexivity.
Defined.

(** The receiver's budget holds.  Over any run of calls at ascending
    times within a span of [d] milliseconds, at most [2 + d / 1000] windows of
    [max_per_sec] messages are let through; and while the window has room
    nothing is refused. *)
Theorem ctl_rate_bound t0 d ts r :
  0 <= count r <= max_per_sec r -> 0 <= d -> StronglySorted Z.le ts ->
  Forall (fun t => t0 <= t <= t0 + d) ts ->
  allowed ts r <= max_per_sec r * (2 + d / 1000) /\
  (forall now, 0 < count r -> (allow now r).1 = true).
Proof.
  intros Hc Hd Hs Hl. split.
  - pose proof (allowed_span ts r t0 d Hc Hd Hs Hl). nia.
  - intros now Hp. unfold allow.
    destruct (_ >=? 1000); cbn [count]; by replace (_ =? 0) with false by lia.
Qed.

Lemma ctl_rate_bound_witness :
  allowed [5; 6; 7; 1400; 1401] (CtlRate_new 2) <= 2 * (2 + 1396 / 1000) /\
  (forall now, 0 < 2 -> (allow now (CtlRate_new 2)).1 = true).
Proof.
  apply (ctl_rate_bound 5 1396 [5; 6; 7; 1400; 1401] (CtlRate_new 2)).
  - simpl. lia.
  - lia.
  - repeat constructor; lia.
  - repeat constructor; lia.
Defined.
