(* ===== verification/R2.v ===== *)
(** The MQP-3 rev2 wire codec of [src/mqp/r2.rs]: first-byte kinds, wire ids
    with their owner bit, LEB128 varints, and the [DATA], [FRAG] and [CTL]
    frames.  [TRAIN] frames are in [R2Train]. *)
From S2P Require Import Prelude Addr Codec.

(* ------------------------------------------------------------------ *)
(** ** Kinds, flags and bounds *)

Definition R2_WIRE_VER : Z := 2.
Definition R2_MAGIC : bytes := [0x4D; 0x33].

Definition R2_DATA : Z := 0x00.
Definition R2_DATA_EXT : Z := 0x01.
Definition R2_TRAIN : Z := 0x04.
Definition R2_FRAG : Z := 0x08.
Definition R2_FRAG_EXT : Z := 0x09.
Definition R2_CTL : Z := 0x0C.

Definition R2_FLAG_OPEN : Z := 0x01.
Definition R2_FLAG_INLINE : Z := 0x02.
Definition R2_FLAG_SRC : Z := 0x04.
Definition R2_EXT_FLAGS_MASK : Z := Z.lor (Z.lor R2_FLAG_OPEN R2_FLAG_INLINE) R2_FLAG_SRC.

Definition R2_CTL_HELLO : Z := 0x01.
Definition R2_CTL_CAPS : Z := 0x02.
Definition R2_CTL_FLOW_ACK : Z := 0x10.
Definition R2_CTL_FLOW_REJECT : Z := 0x11.
Definition R2_CTL_FLOW_CLOSE : Z := 0x12.
Definition R2_CTL_SESS_CLOSE : Z := 0x20.

Definition R2_MAX_TRAIN_ITEMS : Z := 64.
Definition R2_MAX_FRAG_TOTAL : Z := 64.
Definition R2_DEFAULT_MAX_CONN_FLOWS : Z := 4096.
Definition R2_DEFAULT_MAX_FLOWS_SESS : Z := 64.
Definition R2_DEFAULT_MAX_TRAIN_ITEMS : Z := R2_MAX_TRAIN_ITEMS.
Definition R2_DEFAULT_MAX_FRAME_BYTES : Z := 1472.
Definition R2_DEFAULT_MAX_REASSEMBLY : Z := 8192.

Inductive R2Kind : Type := Data | Train | Frag | Ctl_.

#[export] Instance R2Kind_eq_dec : EqDecision R2Kind.
Proof. solve_decision. Defined.

Definition kind (b : bytes) : option R2Kind :=
  b0 ← first b;
  if (b0 =? R2_DATA) || (b0 =? R2_DATA_EXT) then Some Data
  else if b0 =? R2_TRAIN then Some Train
  else if (b0 =? R2_FRAG) || (b0 =? R2_FRAG_EXT) then Some Frag
  else if b0 =? R2_CTL then Some Ctl_
  else None.

Definition is_r2 (b : bytes) : bool := bool_decide (is_Some (kind b)).

(* ------------------------------------------------------------------ *)
(** ** Wire ids: the sender-local id and, in the low bit, its owner *)

Definition make_wire_id (local_id : Z) (server_owned : bool) : option Z :=
  if (local_id =? 0) || (local_id >? Z.shiftr (2 ^ 32 - 1) 1) then None
  else Some (Z.lor (as_u32 (Z.shiftl local_id 1)) (Z.b2z server_owned)).

Definition wire_id_local (id : Z) : Z := Z.shiftr id 1.
Definition wire_id_server_owned (id : Z) : bool := negb (Z.land id 1 =? 0).
Definition valid_wire_id (id : Z) : bool := negb (id =? 0).

(* ------------------------------------------------------------------ *)
(** ** Varints

    The [while n >= 0x80] loops shift a [u32] by seven bits per turn, so five
    turns reach the end; [varint_len_loop] and [put_varint_loop] below are the
    loops' own equations. *)

Fixpoint varint_len_go (fuel : nat) (n l : Z) : Z :=
  match fuel with
  | O => l
  | S fuel => if n >=? 0x80 then varint_len_go fuel (Z.shiftr n 7) (l + 1) else l
  end.

Definition varint_len (n : Z) : Z := varint_len_go 5 n 1.

Fixpoint put_varint_go (fuel : nat) (out : bytes) (n : Z) : bytes :=
  match fuel with
  | O => out
  | S fuel => if n >=? 0x80
              then put_varint_go fuel (out ++ [Z.lor (as_u8 n) 0x80]) (Z.shiftr n 7)
              else out ++ [as_u8 n]
  end.

Definition put_varint (out : bytes) (n : Z) : bytes := put_varint_go 5 out n.

(** [for i in 0..5], [turns] of them left. *)
Fixpoint get_varint_go (turns : nat) (i value : Z) (b : bytes) (off : Z)
    : res MqpError (Z * Z) :=
  match turns with
  | O => Err (Malformed "r2 varint too long")
  | S turns =>
      let! byte := ok_or (get b off) (Malformed "truncated r2 varint") in
      let off := off + 1 in
      if i =? 4 then
        guard! negb (negb (Z.land byte 0xF0 =? 0)) else Malformed "r2 varint overflow" in
        Ok (Z.lor value (as_u32 (Z.shiftl byte 28)), off)
      else
        let value := Z.lor value (as_u32 (Z.shiftl (Z.land byte 0x7F) (7 * i))) in
        if Z.land byte 0x80 =? 0 then Ok (value, off)
        else get_varint_go turns (i + 1) value b off
  end.

Definition get_varint (b : bytes) (off : Z) : res MqpError (Z * Z) := get_varint_go 5 0 0 b off.

Definition get_u32 (b : bytes) (off : Z) : res MqpError (Z * Z) :=
  get_le32 "r2 u32 offset overflow" "truncated r2 u32" b off.

Definition push_u32 (out : bytes) (n : Z) : bytes := out ++ le32 n.

(* ------------------------------------------------------------------ *)
(** ** DATA *)

Record DataRef : Type := mkDataRef {
  d_id : option Z;
  d_sess : option Z;
  d_addr : option TargetAddr;
  d_src : bool;
  d_payload : bytes
}.

Definition data_steady_len (id payload_len : Z) : Z := 1 + varint_len id + payload_len.
Definition data_open_len (id addr_len payload_len : Z) : Z :=
  2 + varint_len id + 4 + addr_len + payload_len.
Definition data_inline_len (addr_len payload_len : Z) : Z := 2 + 4 + addr_len + payload_len.

Definition encode_data_steady (id : Z) (payload : bytes) (limit : Z) : res unit bytes :=
  guard! negb (negb (valid_wire_id id)) else tt in
  let total := data_steady_len id (len payload) in
  guard! negb (total >? limit) else tt in
  let v := [] ++ [R2_DATA] in
  let v := put_varint v id in
  let v := v ++ payload in
  Ok v.

Definition encode_data_open (id sess : Z) (addr : TargetAddr) (src : bool)
    (payload : bytes) (limit : Z) : res unit bytes :=
  guard! negb (negb (valid_wire_id id)) else tt in
  let! h := res_ok (header addr) in
  let total := data_open_len id (ah_len h) (len payload) in
  guard! negb (total >? limit) else tt in
  let v := [] ++ [R2_DATA_EXT] in
  let v := v ++ [Z.lor R2_FLAG_OPEN (if src then R2_FLAG_SRC else 0)] in
  let v := put_varint v id in
  let v := push_u32 v sess in
  let! v := put_addr v h in
  let v := v ++ payload in
  Ok v.

Definition encode_data_inline (sess : Z) (addr : TargetAddr) (src : bool)
    (payload : bytes) (limit : Z) : res unit bytes :=
  let! h := res_ok (header addr) in
  let total := data_inline_len (ah_len h) (len payload) in
  guard! negb (total >? limit) else tt in
  let v := [] ++ [R2_DATA_EXT] in
  let v := v ++ [Z.lor R2_FLAG_INLINE (if src then R2_FLAG_SRC else 0)] in
  let v := push_u32 v sess in
  let! v := put_addr v h in
  let v := v ++ payload in
  Ok v.

(** [flags & !R2_EXT_FLAGS_MASK != 0]. *)
Definition unknown_flags (flags : Z) : bool := negb (Z.ldiff flags R2_EXT_FLAGS_MASK =? 0).

Definition decode_data (b : bytes) : res MqpError DataRef :=
  let! b0 := ok_or (first b) (Malformed "empty r2 frame") in
  if b0 =? R2_DATA then
    let! '(id, off) := get_varint b 1 in
    guard! negb (negb (valid_wire_id id)) else Malformed "r2 data id 0" in
    let! payload := sub_from b off in
    Ok (mkDataRef (Some id) None None false payload)
  else if b0 =? R2_DATA_EXT then
    let! flags := ok_or (get b 1) (Malformed "truncated r2 data flags") in
    guard! negb (unknown_flags flags) else Malformed "bad r2 data flags" in
    let inline := negb (Z.land flags R2_FLAG_INLINE =? 0) in
    let open := negb (Z.land flags R2_FLAG_OPEN =? 0) in
    guard! negb (inline && open) else Malformed "r2 data open+inline" in
    guard! negb (negb inline && negb open) else Malformed "r2 data ext without open/inline" in
    let src := negb (Z.land flags R2_FLAG_SRC =? 0) in
    let off := 2 in
    if inline then
      let! '(sess, off) := get_u32 b off in
      let! rest := sub_from b off in
      let! '(addr, n) := decode rest in
      let off := off + n in
      let! payload := sub_from b off in
      Ok (mkDataRef None (Some sess) (Some addr) src payload)
    else
      let! '(id, off) := get_varint b off in
      guard! negb (negb (valid_wire_id id)) else Malformed "r2 data id 0" in
      let! '(sess, addr, off) :=
        if open then
          let! '(sess, off) := get_u32 b off in
          let! rest := sub_from b off in
          let! '(addr, n) := decode rest in
          Ok (Some sess, Some addr, off + n)
        else Ok (None, None, off) in
      let! payload := sub_from b off in
      Ok (mkDataRef (Some id) sess addr src payload)
  else Err (Malformed "bad r2 data kind").

(* ------------------------------------------------------------------ *)
(** ** FRAG *)

Record FragRef : Type := mkFragRef {
  f_id : option Z;
  f_sess : option Z;
  f_addr : option TargetAddr;
  f_src : bool;
  f_frag_id : Z;
  f_idx : Z;
  f_total : Z;
  f_chunk_off : Z;
  f_chunk : bytes
}.

Definition frag_steady_len (id chunk_len : Z) : Z := 1 + varint_len id + 4 + 1 + 1 + chunk_len.
Definition frag_open_len (id addr_len chunk_len : Z) : Z :=
  2 + varint_len id + 4 + 1 + 1 + 4 + addr_len + chunk_len.
Definition frag_inline_len (addr_len chunk_len : Z) : Z :=
  2 + 4 + 1 + 1 + 4 + addr_len + chunk_len.

Definition frag_meta_ok (idx total : Z) (chunk : bytes) : bool :=
  ((1 <=? total) && (total <=? R2_MAX_FRAG_TOTAL)) && (idx <? total) && negb (len chunk =? 0).

Definition encode_frag_steady (id frag_id idx total : Z) (chunk : bytes) (limit : Z)
    : res unit bytes :=
  guard! negb (negb (valid_wire_id id) || negb (frag_meta_ok idx total chunk)) else tt in
  let total_len := frag_steady_len id (len chunk) in
  guard! negb (total_len >? limit) else tt in
  let v := [] ++ [R2_FRAG] in
  let v := put_varint v id in
  let v := push_u32 v frag_id in
  let v := v ++ [idx] in
  let v := v ++ [total] in
  let v := v ++ chunk in
  Ok v.

Definition encode_frag_open (id sess : Z) (addr : TargetAddr) (src : bool)
    (frag_id idx total : Z) (chunk : bytes) (limit : Z) : res unit bytes :=
  guard! negb (negb (valid_wire_id id) || negb (frag_meta_ok idx total chunk)) else tt in
  let! h := res_ok (header addr) in
  let total_len := frag_open_len id (ah_len h) (len chunk) in
  guard! negb (total_len >? limit) else tt in
  let v := [] ++ [R2_FRAG_EXT] in
  let v := v ++ [Z.lor R2_FLAG_OPEN (if src then R2_FLAG_SRC else 0)] in
  let v := put_varint v id in
  let v := push_u32 v frag_id in
  let v := v ++ [idx] in
  let v := v ++ [total] in
  let v := push_u32 v sess in
  let! v := put_addr v h in
  let v := v ++ chunk in
  Ok v.

Definition encode_frag_inline (sess : Z) (addr : TargetAddr) (src : bool)
    (frag_id idx total : Z) (chunk : bytes) (limit : Z) : res unit bytes :=
  guard! negb (negb (frag_meta_ok idx total chunk)) else tt in
  let! h := res_ok (header addr) in
  let total_len := frag_inline_len (ah_len h) (len chunk) in
  guard! negb (total_len >? limit) else tt in
  let v := [] ++ [R2_FRAG_EXT] in
  let v := v ++ [Z.lor R2_FLAG_INLINE (if src then R2_FLAG_SRC else 0)] in
  let v := push_u32 v frag_id in
  let v := v ++ [idx] in
  let v := v ++ [total] in
  let v := push_u32 v sess in
  let! v := put_addr v h in
  let v := v ++ chunk in
  Ok v.

(** The offset after the kind and the flags, and the form they select. *)
Definition decode_frag_form (b : bytes) : res MqpError (Z * bool * bool * bool) :=
  let! b0 := ok_or (first b) (Malformed "empty r2 frame") in
  if b0 =? R2_FRAG then Ok (1, false, false, false)
  else if b0 =? R2_FRAG_EXT then
    let! flags := ok_or (get b 1) (Malformed "truncated r2 frag flags") in
    guard! negb (unknown_flags flags) else Malformed "bad r2 frag flags" in
    let inline := negb (Z.land flags R2_FLAG_INLINE =? 0) in
    let open := negb (Z.land flags R2_FLAG_OPEN =? 0) in
    guard! negb (inline && open) else Malformed "r2 frag open+inline" in
    guard! negb (negb inline && negb open) else Malformed "r2 frag ext without open/inline" in
    Ok (2, inline, negb (Z.land flags R2_FLAG_SRC =? 0), open)
  else Err (Malformed "bad r2 frag kind").

(** The wire id, absent from an [INLINE] frame. *)
Definition decode_frag_id (b : bytes) (inline : bool) (off : Z) : res MqpError (option Z * Z) :=
  if inline then Ok (None, off)
  else
    let! '(id, off) := get_varint b off in
    guard! negb (negb (valid_wire_id id)) else Malformed "r2 frag id 0" in
    Ok (Some id, off).

(** The binding context of an extended frame: session and address. *)
Definition decode_frag_ctx (b : bytes) (ext : bool) (off : Z)
    : res MqpError (option Z * option TargetAddr * Z) :=
  if ext then
    let! '(s, off) := get_u32 b off in
    let! rest := sub_from b off in
    let! '(a, n) := decode rest in
    Ok (Some s, Some a, off + n)
  else Ok (None, None, off).

Definition decode_frag (b : bytes) : res MqpError FragRef :=
  let! '(off, inline, src, open) := decode_frag_form b in
  let! '(id, off) := decode_frag_id b inline off in
  let! '(frag_id, off) := get_u32 b off in
  let! idx := ok_or (get b off) (Malformed "short r2 frag idx") in
  let! total := ok_or (get b (off + 1)) (Malformed "short r2 frag total") in
  let off := off + 2 in
  let! '(sess, addr, off) := decode_frag_ctx b (inline || open) off in
  let! chunk := sub_from b off in
  guard! negb (negb (frag_meta_ok idx total chunk)) else Malformed "bad r2 frag meta" in
  Ok (mkFragRef id sess addr src frag_id idx total off chunk).

(* ------------------------------------------------------------------ *)
(** ** CTL *)

Record Caps : Type := mkCaps {
  wire_ver : Z;
  caps_flags : Z;
  max_conn_flows : Z;
  max_flows_sess : Z;
  max_train_items : Z;
  max_frame_bytes : Z;
  max_reassembly : Z
}.

Definition Caps_default : Caps :=
  mkCaps R2_WIRE_VER 0 R2_DEFAULT_MAX_CONN_FLOWS R2_DEFAULT_MAX_FLOWS_SESS
    R2_DEFAULT_MAX_TRAIN_ITEMS R2_DEFAULT_MAX_FRAME_BYTES R2_DEFAULT_MAX_REASSEMBLY.

Inductive Ctl : Type :=
| Hello (wire_ver flags : Z)
| CapsMsg (c : Caps)
| FlowAck (id status : Z)
| FlowReject (id reason : Z)
| FlowClose (id : Z)
| SessClose (sess reason : Z).

Definition ctl_len (c : Ctl) : Z :=
  match c with
  | Hello _ _ => 8
  | CapsMsg _ => 17
  | FlowAck id _ | FlowReject id _ => 3 + varint_len id
  | FlowClose id => 2 + varint_len id
  | SessClose _ _ => 7
  end.

Definition encode_ctl (c : Ctl) : bytes :=
  let v := [] ++ [R2_CTL] in
  match c with
  | Hello ver flags =>
      let v := v ++ [R2_CTL_HELLO] in
      let v := v ++ R2_MAGIC in
      let v := v ++ le16 ver in
      v ++ le16 flags
  | CapsMsg c =>
      let v := v ++ [R2_CTL_CAPS] in
      let v := v ++ R2_MAGIC in
      let v := v ++ le16 (wire_ver c) in
      let v := v ++ le16 (caps_flags c) in
      let v := v ++ le16 (max_conn_flows c) in
      let v := v ++ le16 (max_flows_sess c) in
      let v := v ++ [max_train_items c] in
      let v := v ++ le16 (max_frame_bytes c) in
      v ++ le16 (max_reassembly c)
  | FlowAck id status =>
      let v := v ++ [R2_CTL_FLOW_ACK] in
      let v := put_varint v id in
      v ++ [status]
  | FlowReject id reason =>
      let v := v ++ [R2_CTL_FLOW_REJECT] in
      let v := put_varint v id in
      v ++ [reason]
  | FlowClose id =>
      let v := v ++ [R2_CTL_FLOW_CLOSE] in
      put_varint v id
  | SessClose sess reason =>
      let v := v ++ [R2_CTL_SESS_CLOSE] in
      let v := push_u32 v sess in
      v ++ [reason]
  end.

(** [u16::from_le_bytes([b[i], b[i + 1]])]. *)
Definition u16_at (b : bytes) (i : Z) : res MqpError Z :=
  let! x := idx b i in let! y := idx b (i + 1) in Ok (of_le16 x y).

(** [b.len() != n || b[2..4] != R2_MAGIC]; the slice is only taken when the
    length is right. *)
Definition bad_magic (b : bytes) (n : Z) : res MqpError bool :=
  if negb (len b =? n) then Ok true
  else let! m := sub b 2 4 in Ok (negb (bool_decide (m = R2_MAGIC))).

Definition decode_ctl (b : bytes) : res MqpError Ctl :=
  guard! bool_decide (first b = Some R2_CTL) else Malformed "bad r2 ctl kind" in
  let! opcode := ok_or (get b 1) (Malformed "short r2 ctl") in
  if opcode =? R2_CTL_HELLO then
    let! bad := bad_magic b 8 in
    guard! negb bad else Malformed "bad r2 hello" in
    let! ver := u16_at b 4 in
    let! flags := u16_at b 6 in
    Ok (Hello ver flags)
  else if opcode =? R2_CTL_CAPS then
    let! bad := bad_magic b 17 in
    guard! negb bad else Malformed "bad r2 caps" in
    let! ver := u16_at b 4 in
    let! flags := u16_at b 6 in
    let! mcf := u16_at b 8 in
    let! mfs := u16_at b 10 in
    let! mti := idx b 12 in
    let! mfb := u16_at b 13 in
    let! mr := u16_at b 15 in
    Ok (CapsMsg (mkCaps ver flags mcf mfs mti mfb mr))
  else if opcode =? R2_CTL_FLOW_ACK then
    let! '(id, off) := get_varint b 2 in
    guard! negb (negb (valid_wire_id id)) else Malformed "r2 ack id 0" in
    let! status := ok_or (get b off) (Malformed "short r2 ack") in
    guard! negb (negb (off + 1 =? len b)) else Malformed "r2 ack trailing bytes" in
    Ok (FlowAck id status)
  else if opcode =? R2_CTL_FLOW_REJECT then
    let! '(id, off) := get_varint b 2 in
    guard! negb (negb (valid_wire_id id)) else Malformed "r2 reject id 0" in
    let! reason := ok_or (get b off) (Malformed "short r2 reject") in
    guard! negb (negb (off + 1 =? len b)) else Malformed "r2 reject trailing bytes" in
    Ok (FlowReject id reason)
  else if opcode =? R2_CTL_FLOW_CLOSE then
    let! '(id, off) := get_varint b 2 in
    guard! negb (negb (valid_wire_id id)) else Malformed "r2 close id 0" in
    guard! negb (negb (off =? len b)) else Malformed "r2 close trailing bytes" in
    Ok (FlowClose id)
  else if opcode =? R2_CTL_SESS_CLOSE then
    guard! negb (negb (len b =? 7)) else Malformed "bad r2 sess close" in
    let! b2 := idx b 2 in let! b3 := idx b 3 in
    let! b4 := idx b 4 in let! b5 := idx b 5 in
    let! b6 := idx b 6 in
    Ok (SessClose (of_le32 b2 b3 b4 b5) b6)
  else Err (Malformed "bad r2 ctl opcode").

(* ------------------------------------------------------------------ *)
(** ** Lemmas: varints *)

(** The byte strings the reader takes for [n], from turn [i] on with [v]
    collected so far. *)
Inductive varint_from : Z -> Z -> bytes -> Z -> Prop :=
| vf_last i v x : 0 <= i < 4 -> 0 <= x < 128 -> varint_from i v [x] (v + x * 2 ^ (7 * i))
| vf_top v x : 0 <= x < 16 -> varint_from 4 v [x] (v + x * 2 ^ 28)
| vf_more i v x e n : 0 <= i < 4 -> 0 <= x < 128 ->
    varint_from (i + 1) (v + x * 2 ^ (7 * i)) e n -> varint_from i v (128 + x :: e) n.

Definition varint_enc (n : Z) (e : bytes) : Prop := varint_from 0 0 e n.

Definition byte_split_check (x : Z) : bool :=
  (Z.land x 0x7F =? x mod 128) && Bool.eqb (Z.land x 0x80 =? 0) (x <? 128) &&
  Bool.eqb (Z.land x 0xF0 =? 0) (x <? 16) && (Z.lor x 0x80 =? 128 + x mod 128).

Lemma byte_split x : is_u8 x -> Z.land x 0x7F = x mod 128 /\ (Z.land x 0x80 =? 0) = (x <? 128) /\
  (Z.land x 0xF0 =? 0) = (x <? 16) /\ Z.lor x 0x80 = 128 + x mod 128.
Proof.
  intros Hx. assert (H : byte_split_check x = true) by (apply u8_exhaust; [vm_compute; done | done]).
  unfold byte_split_check in H. rewrite !andb_true_iff in H. destruct_and!. zbool.
  split_and!; try done; by apply Bool.eqb_prop.
Qed.

Lemma pow7 i : 0 <= i < 4 -> 2 ^ (7 * (i + 1)) = 128 * 2 ^ (7 * i) /\ 1 <= 2 ^ (7 * i) <= 2 ^ 21.
Proof.
  intros Hi. assert (i = 0 \/ i = 1 \/ i = 2 \/ i = 3) as [->|[->|[->| ->]]] by lia; split; simpl; lia.
Qed.

Lemma varint_from_nonempty i v e n : varint_from i v e n -> 1 <= len e.
Proof. destruct 1; lens. Qed.

Lemma varint_from_bound i v e n : varint_from i v e n -> 0 <= i <= 4 -> 0 <= v < 2 ^ (7 * i) ->
  is_u32 n /\ 1 <= len e <= 5 - i.
Proof.
  induction 1 as [i v x Hi Hx|v x Hx|i v x e n Hi Hx H IH]; intros Hi' Hv.
  - destruct (pow7 i Hi). split; [unfold is_u32; nia | lens].
  - split; [ulia | lens].
  - destruct (pow7 i Hi). destruct IH as [? ?]; [lia | nia|]. split; [done | lens].
Qed.

Lemma as_u32_shift x k : 0 <= k -> 0 <= x * 2 ^ k < 2 ^ 32 ->
  as_u32 (Z.shiftl x k) = Z.shiftl x k.
Proof. intros Hk Hx. unfold as_u32. by rewrite Z.shiftl_mul_pow2, Z.mod_small. Qed.

(** The collected value after one more group. *)
Lemma varint_group i v x : 0 <= i < 4 -> 0 <= x < 128 -> 0 <= v < 2 ^ (7 * i) ->
  Z.lor v (as_u32 (Z.shiftl x (7 * i))) = v + x * 2 ^ (7 * i) /\
  0 <= v + x * 2 ^ (7 * i) < 2 ^ (7 * (i + 1)).
Proof.
  intros Hi Hx Hv. destruct (pow7 i Hi).
  rewrite as_u32_shift by nia. rewrite lor_shift by lia. split; [done | nia].
Qed.

Lemma get_varint_go_enc turns i v e n b off rest : i + Z.of_nat turns = 5 ->
  varint_from i v e n -> 0 <= v < 2 ^ (7 * i) -> cursor b off (e ++ rest) ->
  get_varint_go turns i v b off = Ok (n, off + len e).
Proof.
  intros Ht He. revert turns off Ht. induction He as [i v x Hi Hx|v x Hx|i v x e n Hi Hx He IH];
    intros turns off Ht Hv Hc; (destruct turns as [|turns]; [lia|]); cbn [get_varint_go].
  - rewrite (cursor_get _ _ _ _ Hc). cbn [ok_or res_bind].
    destruct (byte_split x) as (-> & -> & _); [ulia|].
    replace (i =? 4) with false by lia. replace (x <? 128) with true by lia.
    rewrite (Z.mod_small x) by lia. destruct (varint_group i v x Hi Hx Hv) as [-> _]. done.
  - rewrite (cursor_get _ _ _ _ Hc). cbn [ok_or res_bind]. destruct (byte_split x) as (_ & _ & -> & _); [ulia|].
    replace (x <? 16) with true by lia. change (4 =? 4) with true. cbn [negb].
    rewrite as_u32_shift, lor_shift by lia. done.
  - cbn [app] in Hc. rewrite (cursor_get _ _ _ _ Hc). cbn [ok_or res_bind].
    destruct (byte_split (128 + x)) as (-> & -> & _); [ulia|].
    replace (i =? 4) with false by lia. replace (128 + x <? 128) with false by lia.
    replace ((128 + x) mod 128) with x by umod.
    destruct (varint_group i v x Hi Hx Hv) as [-> Hv']. apply cursor_cons in Hc.
    rewrite (IH turns (off + 1)) by (done || lia). do 2 f_equal. lens.
Qed.

Lemma get_varint_go_inv turns i v b off r n off' : i + Z.of_nat turns = 5 -> 0 <= i ->
  bytes_ok b -> 0 <= v < 2 ^ (7 * i) -> cursor b off r ->
  get_varint_go turns i v b off = Ok (n, off') ->
  exists e rest, r = e ++ rest /\ varint_from i v e n /\ off' = off + len e /\ cursor b off' rest.
Proof.
  intros Ht Hi Hb. revert i v off r Ht Hi. induction turns as [|turns IH];
    intros i v off r Ht Hi Hv Hc H; cbn [get_varint_go] in H; [done|].
  apply res_bind_ok in H as (x & Hx & H). apply (proj1 (ok_or_ok _ _ _)) in Hx.
  destruct (cursor_get_inv _ _ _ _ _ Hc Hx eq_refl) as (r1 & -> & Hc1).
  pose proof (cursor_bytes_ok _ _ _ Hb Hc) as [Hu _]%bytes_ok_cons.
  destruct (byte_split x Hu) as (E1 & E2 & E3 & _). rewrite E1, E2, E3 in H.
  destruct (Z.eqb_spec i 4) as [->|Hne].
  - apply guard_ok in H as [Hg H]. rewrite negb_involutive in Hg. zbool. injection H as <- <-.
    rewrite as_u32_shift, lor_shift by ulia.
    exists [x], r1. split_and!; [done | constructor; ulia | done | done].
  - assert (Hx' : 0 <= x mod 128 < 128) by (apply Z.mod_pos_bound; lia).
    destruct (varint_group i v (x mod 128) ltac:(lia) Hx' Hv) as [E4 Hv']. rewrite E4 in H.
    destruct (Z.ltb_spec x 128) as [Hs|Hs].
    + injection H as <- <-. rewrite (Z.mod_small x) in * by ulia.
      exists [x], r1. split_and!; [done | constructor; ulia | done | done].
    + destruct (IH (i + 1) _ (off + 1) r1 ltac:(lia) ltac:(lia) Hv' Hc1 H) as (e & rest & -> & He & -> & Hr).
      exists (x :: e), rest. split_and!; [done| |lens|].
      * replace x with (128 + x mod 128) at 1 by umod. constructor; [lia | done | done].
      * done.
Qed.

Lemma get_varint_step b off n e rest : varint_enc n e -> cursor b off (e ++ rest) ->
  get_varint b off = Ok (n, off + len e) /\ cursor b (off + len e) rest.
Proof.
  intros He Hc. split; [|by apply cursor_app].
  eapply get_varint_go_enc; [done | exact He | simpl; lia | exact Hc].
Qed.

Lemma get_varint_inv b off r n off' : bytes_ok b -> cursor b off r ->
  get_varint b off = Ok (n, off') ->
  exists e rest, r = e ++ rest /\ varint_enc n e /\ off' = off + len e /\ cursor b off' rest.
Proof. intros Hb Hc H. eapply get_varint_go_inv; eauto; simpl; lia. Qed.

Lemma varint_enc_bound n e : varint_enc n e -> is_u32 n /\ 1 <= len e <= 5.
Proof. intros H. apply (varint_from_bound 0 0) in H; [done | lia | simpl; lia]. Qed.

Lemma put_varint_go_spec fuel i v m : i + Z.of_nat fuel = 5 -> 0 <= i <= 4 ->
  0 <= m < 2 ^ (32 - 7 * i) -> exists e,
  varint_from i v e (v + m * 2 ^ (7 * i)) /\ bytes_ok e /\
  (forall out, put_varint_go fuel out m = out ++ e) /\
  (forall l, varint_len_go fuel m l = l + len e - 1) /\
  (len e = 1 \/ 2 ^ (7 * (len e - 1)) <= m).
Proof.
  revert i v m. induction fuel as [|fuel IH]; intros i v m Hf Hi Hm; [lia|].
  cbn [put_varint_go varint_len_go]. rewrite Z.geb_leb. destruct (Z.leb_spec 128 m) as [Hg|Hg].
  - assert (Hi4 : i < 4) by (destruct (Z.eq_dec i 4) as [->|]; [change (2 ^ (32 - 7 * 4)) with 16 in Hm; lia | lia]).
    destruct (pow7 i ltac:(lia)) as [Hp _]. rewrite Z.shiftr_div_pow2 by lia. change (2 ^ 7) with 128.
    assert (Hq : 2 ^ (32 - 7 * i) = 128 * 2 ^ (32 - 7 * (i + 1))).
    { replace (32 - 7 * i) with (7 + (32 - 7 * (i + 1))) by lia. rewrite Z.pow_add_r by lia. done. }
    destruct (IH (i + 1) (v + m mod 128 * 2 ^ (7 * i)) (m / 128)) as (e & He & Hb & Hput & Hlen & Hmin);
      [lia | lia | Z.div_mod_to_equations; nia|].
    assert (Hx : 0 <= m mod 128 < 128) by (apply Z.mod_pos_bound; lia).
    exists (128 + m mod 128 :: e). split_and!.
    + constructor; [lia | done |]. replace (v + m * 2 ^ (7 * i)) with
        (v + m mod 128 * 2 ^ (7 * i) + m / 128 * 2 ^ (7 * (i + 1))); [done|].
      rewrite Hp. rewrite (Z.div_mod m 128) at 3 by lia. ring.
    + constructor; [ulia | done].
    + intros out. rewrite Hput, <- app_assoc.
      destruct (byte_split (as_u8 m) (as_u8_u8 m)) as (_ & _ & _ & ->).
      by replace (as_u8 m mod 128) with (m mod 128) by umod.
    + intros l. rewrite Hlen. lens.
    + right. rewrite len_cons. pose proof (len_nonneg e). destruct Hmin as [E|E].
      * rewrite E. simpl. lia.
      * replace (7 * (1 + len e - 1)) with (7 + 7 * (len e - 1)) by lia.
        apply varint_from_nonempty in He.
        rewrite Z.pow_add_r by lia. Z.div_mod_to_equations; nia.
  - exists [m]. split_and!; [| constructor; [ulia | constructor] | | | by left].
    + destruct (Z.eq_dec i 4) as [->|]; [|constructor; lia].
      change (2 ^ (32 - 7 * 4)) with 16 in Hm. apply (vf_top v m). lia.
    + intros out. rewrite as_u8_small by ulia. done.
    + intros l. lens.
Qed.

(** The writer's encoding of a [u32]: the shortest one the reader accepts. *)
Lemma put_varint_spec n : is_u32 n -> exists e, varint_enc n e /\ bytes_ok e /\
  len e = varint_len n /\ (forall out, put_varint out n = out ++ e) /\
  (len e = 1 \/ 2 ^ (7 * (len e - 1)) <= n).
Proof.
  intros Hn. destruct (put_varint_go_spec 5 0 0 n) as (e & He & Hb & Hput & Hlen & Hmin);
    [done | lia | ulia|]. exists e. simpl in He. rewrite Z.mul_1_r in He.
  unfold varint_len. rewrite Hlen. split_and!; try done; lia.
Qed.

Lemma varint_from_size i v e n : varint_from i v e n -> 0 <= i <= 4 -> 0 <= v < 2 ^ (7 * i) ->
  n < 2 ^ (7 * (i + len e)).
Proof.
  induction 1 as [i v x Hi Hx|v x Hx|i v x e n Hi Hx H IH]; intros Hi' Hv.
  - change (len [x]) with 1. destruct (pow7 i Hi). nia.
  - change (len [x]) with 1. simpl in *. lia.
  - destruct (pow7 i Hi) as [Hp Hp']. rewrite len_cons, Z.add_assoc. apply IH; [lia | nia].
Qed.

Lemma put_varint_minimal n (e e' : bytes) : (len e = 1 \/ 2 ^ (7 * (len e - 1)) <= n) ->
  varint_enc n e' -> len e <= len e'.
Proof.
  intros Hmin He. apply varint_from_nonempty in He as Hne.
  apply varint_from_size in He; [|lia|simpl; lia]. rewrite Z.add_0_l in He.
  destruct Hmin as [->|Hmin]; [lia|]. destruct (Z.le_gt_cases (len e) (len e')); [done|].
  assert (2 ^ (7 * len e') <= 2 ^ (7 * (len e - 1))) by (apply Z.pow_le_mono_r; lia). lia.
Qed.

(** The loops' own equations: the fuel is never what stops them. *)
Lemma put_varint_loop out n : is_u32 n ->
  put_varint out n = if n >=? 0x80
    then put_varint (out ++ [Z.lor (as_u8 n) 0x80]) (Z.shiftr n 7) else out ++ [as_u8 n].
Proof.
  intros Hn. unfold put_varint. cbn [put_varint_go]. destruct (n >=? 128) eqn:E; [|done].
  do 4 (case_match; [|done]). exfalso. zbool. rewrite !Z.shiftr_shiftr, Z.shiftr_div_pow2 in * by lia.
  simpl in *. umod.
Qed.

Lemma varint_len_loop n : is_u32 n ->
  varint_len n = if n >=? 0x80 then 1 + varint_len (Z.shiftr n 7) else 1.
Proof.
  intros Hn. unfold varint_len. cbn [varint_len_go]. destruct (n >=? 128) eqn:E; [|done].
  do 4 (case_match; [|done]). exfalso. zbool. rewrite !Z.shiftr_shiftr, Z.shiftr_div_pow2 in * by lia.
  simpl in *. umod.
Qed.

Lemma get_varint_bound b off n off' : bytes_ok b -> 0 <= off -> get_varint b off = Ok (n, off') ->
  off < off' <= len b.
Proof.
  intros Hb Ho H. assert (Hl : off <= len b).
  { unfold get_varint in H. cbn [get_varint_go] in H. apply res_bind_ok in H as (x & Hx & _).
    apply (proj1 (ok_or_ok _ _ _)), get_bound in Hx; lia. }
  destruct (get_varint_inv _ _ _ _ _ Hb (cursor_exists b off ltac:(lia)) H)
    as (e & r & _ & He & -> & Hc). apply varint_enc_bound in He. pose proof (cursor_bounds _ _ _ Hc). lens.
Qed.

Lemma get_varint_go_no_panic turns i v b off : get_varint_go turns i v b off <> Panic.
Proof.
  revert i v off. induction turns as [|t IH]; intros i v off; cbn [get_varint_go]; [done|].
  repeat np_step.
Qed.

Lemma get_varint_no_panic b off : get_varint b off <> Panic.
Proof. apply get_varint_go_no_panic. Qed.

Lemma r2_get_u32_step b off n rest : is_u32 n -> len b <= usize_max ->
  cursor b off (le32 n ++ rest) -> get_u32 b off = Ok (n, off + 4) /\ cursor b (off + 4) rest.
Proof. apply get_le32_step. Qed.

Lemma r2_get_u32_inv b off r n off' :
  bytes_ok b -> cursor b off r -> get_u32 b off = Ok (n, off') ->
  exists r', r = le32 n ++ r' /\ off' = off + 4 /\ cursor b off' r' /\ is_u32 n.
Proof. apply get_le32_inv. Qed.

Lemma r2_get_u32_no_panic b off : 0 <= off -> get_u32 b off <> Panic.
Proof. apply get_le32_no_panic. Qed.

Lemma r2_get_u32_bound b off n off' : 0 <= off -> get_u32 b off = Ok (n, off') ->
  off' <= len b /\ off' = off + 4.
Proof. apply get_le32_bound. Qed.

#[export] Hint Resolve get_varint_no_panic r2_get_u32_no_panic : nopanic.

Ltac np_learn ::=
  first
  [ np_learn_base
  | match goal with
    | H : get_u32 ?b ?o = Ok (_, ?o') |- _ =>
        lazymatch goal with _ : o' <= len b |- _ => fail | _ => idtac end;
        destruct (r2_get_u32_bound b o _ o' ltac:(lens) H)
    | Hb : bytes_ok ?b, H : get_varint ?b ?o = Ok (_, ?o') |- _ =>
        lazymatch goal with _ : o < o' <= len b |- _ => fail | _ => idtac end;
        pose proof (get_varint_bound b o _ o' Hb ltac:(lens) H)
    | Hb : bytes_ok ?r, H : decode ?r = Ok (_, ?n) |- _ =>
        lazymatch goal with _ : 0 <= n <= len r |- _ => fail | _ => idtac end;
        pose proof (decode_bound r _ n Hb H)
    end ].

(** Step past a varint or a [u32] under the cursor [Hc]; invert one. *)
Ltac step_varint Hc :=
  let Hg := fresh in
  eapply get_varint_step in Hc as [Hg Hc]; [rewrite Hg; clear Hg; cbn [res_bind] | done].
Ltac step_u32 Hc :=
  let Hg := fresh in
  eapply r2_get_u32_step in Hc as [Hg Hc];
  [rewrite Hg; clear Hg; cbn [res_bind] | done | done].
Ltac inv_varint Hb Hc :=
  match goal with
  | H : get_varint ?b ?o = Ok (?n, ?o') |- _ =>
      let e := fresh "ve" in let r' := fresh "r" in let Er := fresh "Er" in
      let Hc' := fresh in let Eo := fresh in
      destruct (get_varint_inv _ _ _ _ _ Hb Hc H) as (e & r' & Er & ? & Eo & Hc');
      clear Hc H; rename Hc' into Hc; try subst o'
  end.
Ltac inv_u32 Hb Hc :=
  match goal with
  | H : get_u32 ?b ?o = Ok (?n, ?o') |- _ =>
      let r' := fresh "r" in let Er := fresh "Er" in let Hc' := fresh in let Eo := fresh in
      destruct (r2_get_u32_inv _ _ _ _ _ Hb Hc H) as (r' & Er & Eo & Hc' & ?);
      clear Hc H; rename Hc' into Hc; try subst o'
  end.

Lemma r2_decode_data_no_panic b : bytes_ok b -> decode_data b <> Panic.
Proof.
  intros Hb. unfold decode_data. repeat np_step.
  all: repeat case_match; res_inv; simplify_eq; repeat np_learn; apply sub_from_no_panic; lens.
Qed.

Lemma decode_frag_form_bound b off i s o : decode_frag_form b = Ok (off, i, s, o) -> 1 <= off.
Proof. unfold decode_frag_form. intros H. res_inv. repeat case_match; res_inv; simplify_eq; lia. Qed.

Lemma decode_frag_form_no_panic b : decode_frag_form b <> Panic.
Proof. unfold decode_frag_form. repeat np_step. Qed.

Lemma decode_frag_id_bound b i off o off' : bytes_ok b -> 0 <= off ->
  decode_frag_id b i off = Ok (o, off') -> off <= off'.
Proof.
  intros Hb Ho H. unfold decode_frag_id in H.
  destruct i; res_inv; simplify_eq; repeat np_learn; lia.
Qed.

Lemma decode_frag_id_no_panic b i off : decode_frag_id b i off <> Panic.
Proof. unfold decode_frag_id. repeat np_step. Qed.

Lemma r2_decode_frag_ctx_bound b x off s a off' : bytes_ok b -> 0 <= off <= len b ->
  decode_frag_ctx b x off = Ok (s, a, off') -> off <= off' <= len b.
Proof.
  intros Hb Ho H. unfold decode_frag_ctx in H.
  destruct x; res_inv; simplify_eq; repeat np_learn; lia.
Qed.

Lemma r2_decode_frag_ctx_no_panic b x off : bytes_ok b -> 0 <= off <= len b ->
  decode_frag_ctx b x off <> Panic.
Proof. intros Hb Ho. unfold decode_frag_ctx. repeat np_step. Qed.

#[export] Hint Resolve decode_frag_form_no_panic decode_frag_id_no_panic
  r2_decode_frag_ctx_no_panic : nopanic.

Lemma r2_decode_frag_no_panic b : bytes_ok b -> decode_frag b <> Panic.
Proof.
  intros Hb. unfold decode_frag. repeat np_step.
  all: apply decode_frag_form_bound in H; apply decode_frag_id_bound in H0; [|done|lia];
    repeat np_step.
  match goal with H : decode_frag_ctx _ _ _ = Ok _ |- _ =>
    apply r2_decode_frag_ctx_bound in H; [|done|lens] end. np_step.
Qed.

Lemma u16_at_no_panic b i : 0 <= i -> i + 1 < len b -> u16_at b i <> Panic.
Proof. intros. unfold u16_at. repeat np_step. Qed.

Lemma bad_magic_no_panic b n : 4 <= n -> bad_magic b n <> Panic.
Proof. intros. unfold bad_magic. repeat np_step. Qed.

Lemma bad_magic_ok b n : bad_magic b n = Ok false -> len b = n /\ slice b 2 4 = Some R2_MAGIC.
Proof.
  unfold bad_magic. destruct (Z.eqb_spec (len b) n); cbn [negb]; intros H; [|done]. res_inv.
  split; [done|]. rewrite negb_false_iff, bool_decide_eq_true in H. by subst.
Qed.

Lemma decode_ctl_no_panic b : bytes_ok b -> decode_ctl b <> Panic.
Proof.
  intros Hb. unfold decode_ctl. repeat np_step.
  all: try (apply bad_magic_no_panic; lia).
  all: try match goal with H : bad_magic _ _ = Ok ?x, Hn : negb ?x = true |- _ =>
    destruct x; [done|]; apply bad_magic_ok in H as [? _] end.
  all: try (apply u16_at_no_panic; lia). all: try np_step.
Qed.

(* ------------------------------------------------------------------ *)
(** ** DATA frames as one specification *)

Inductive DataForm : Type :=
| DSteady (id : Z)
| DOpen (id sess : Z) (addr : TargetAddr) (src : bool)
| DInline (sess : Z) (addr : TargetAddr) (src : bool).

Definition data_encode (f : DataForm) (payload : bytes) (limit : Z) : res unit bytes :=
  match f with
  | DSteady id => encode_data_steady id payload limit
  | DOpen id sess addr src => encode_data_open id sess addr src payload limit
  | DInline sess addr src => encode_data_inline sess addr src payload limit
  end.

Definition data_view (f : DataForm) (payload : bytes) : DataRef :=
  match f with
  | DSteady id => mkDataRef (Some id) None None false payload
  | DOpen id sess addr src => mkDataRef (Some id) (Some sess) (Some (wire_addr addr)) src payload
  | DInline sess addr src => mkDataRef None (Some sess) (Some (wire_addr addr)) src payload
  end.

Definition data_form_wf (f : DataForm) : Prop :=
  match f with
  | DSteady id => is_u32 id
  | DOpen id sess addr _ => is_u32 id /\ is_u32 sess /\ addr_wf addr
  | DInline sess addr _ => is_u32 sess /\ addr_wf addr
  end.

(** The id and the address of the form, as they are encoded. *)
Definition data_enc (f : DataForm) (ve e : bytes) : Prop :=
  match f with
  | DSteady id => varint_enc id ve /\ e = []
  | DOpen id _ addr _ => varint_enc id ve /\ encode addr [] = Ok e
  | DInline _ addr _ => ve = [] /\ encode addr [] = Ok e
  end.

Definition data_id_ok (f : DataForm) : bool :=
  match f with DSteady id | DOpen id _ _ _ => valid_wire_id id | DInline _ _ _ => true end.

Definition src_flag (src : bool) : Z := if src then R2_FLAG_SRC else 0.

Definition data_header (f : DataForm) (ve e : bytes) : bytes :=
  match f with
  | DSteady _ => [R2_DATA] ++ ve
  | DOpen _ sess _ src => [R2_DATA_EXT; R2_FLAG_OPEN + src_flag src] ++ ve ++ le32 sess ++ e
  | DInline sess _ src => [R2_DATA_EXT; R2_FLAG_INLINE + src_flag src] ++ le32 sess ++ e
  end.

(** The length of an id's own encoding. *)
Definition id_enc_len (ve : bytes) (id : option Z) : Prop :=
  match id with Some id => len ve = varint_len id | None => True end.

Definition data_id (f : DataForm) : option Z :=
  match f with DSteady id | DOpen id _ _ _ => Some id | DInline _ _ _ => None end.

(** Give the writer's encoding of an id and what its length is. *)
Ltac wvarint :=
  match goal with
  | Hu : is_u32 ?n |- context [put_varint _ ?n] => wvarint_at Hu
  | Hu : is_u32 ?n, _ : context [put_varint _ ?n] |- _ => wvarint_at Hu
  end
with wvarint_at Hu :=
  let ve := fresh "ve" in let Hv := fresh "Hv" in let Hl := fresh "Hl" in let Hput := fresh "Hput" in
  destruct (put_varint_spec _ Hu) as (ve & Hv & _ & Hl & Hput & _); rewrite ?Hput in *.

(** The frame an encoder writes. *)
Lemma data_encode_ok f payload limit w : data_form_wf f -> data_encode f payload limit = Ok w ->
  exists e ve, data_enc f ve e /\ id_enc_len ve (data_id f) /\ data_id_ok f = true /\
    w = data_header f ve e ++ payload /\ len w <= limit.
Proof.
  destruct f as [id|id sess addr src|sess addr src]; cbn [data_form_wf data_encode]; intros Hwf;
    destruct_and?; cbn [data_enc data_id data_id_ok data_header id_enc_len].
  - unfold encode_data_steady, data_steady_len. wvarint. intros H. res_inv. exists [], ve.
    subst w. bools. split_and!; try done; simpl in *; lens.
  - unfold encode_data_open, data_open_len. wvarint. enc_fwd. exists ve. bools. 
    split_and!; try done; [destruct src; simpl; by rewrite <- ?app_assoc | simpl in *; lens].
  - unfold encode_data_inline, data_inline_len. enc_fwd. exists []. bools.
    split_and!; try done; [destruct src; simpl; by rewrite <- ?app_assoc | simpl in *; lens].
Qed.

(** An encoder succeeds whenever some spelling of the id would fit; its own is
    the shortest. *)
Lemma data_encode_some f ve e payload limit : data_form_wf f -> data_enc f ve e ->
  data_id_ok f = true -> len (data_header f ve e ++ payload) <= limit ->
  exists ve', data_enc f ve' e /\ len ve' <= len ve /\
    data_encode f payload limit = Ok (data_header f ve' e ++ payload).
Proof.
  destruct f as [id|id sess addr src|sess addr src];
    cbn [data_form_wf data_enc data_id_ok data_encode data_header]; intros Hwf He Hf Hl; destruct_and?.
  1,2: match goal with Hu : is_u32 ?n, Hv : varint_enc ?n _ |- _ =>
         destruct (put_varint_spec n Hu) as (ve' & Hv' & _ & Hlen & Hput & Hmin);
         pose proof (put_varint_minimal n ve' ve Hmin Hv) end;
       exists ve'; split; [done|]; split; [done|]; clear Hmin.
  - unfold encode_data_steady, data_steady_len. rewrite Hf, Hput. cbn [negb]. pass_guard. done.
  - unfold encode_data_open, data_open_len. rewrite Hf, Hput. cbn [negb]. subst.
    enc_bwd. destruct src; simpl; by rewrite <- ?app_assoc.
  - exists ve. split; [done|]. split; [lia|]. unfold encode_data_inline, data_inline_len.
    enc_bwd. destruct src; simpl; by rewrite <- ?app_assoc.
Qed.

Lemma flags_ok (src : bool) :
  unknown_flags (R2_FLAG_OPEN + src_flag src) = false /\
  unknown_flags (R2_FLAG_INLINE + src_flag src) = false /\
  Z.land (R2_FLAG_OPEN + src_flag src) R2_FLAG_INLINE = 0 /\
  Z.land (R2_FLAG_OPEN + src_flag src) R2_FLAG_OPEN = R2_FLAG_OPEN /\
  Z.land (R2_FLAG_INLINE + src_flag src) R2_FLAG_INLINE = R2_FLAG_INLINE /\
  Z.land (R2_FLAG_INLINE + src_flag src) R2_FLAG_OPEN = 0 /\
  negb (Z.land (R2_FLAG_OPEN + src_flag src) R2_FLAG_SRC =? 0) = src /\
  negb (Z.land (R2_FLAG_INLINE + src_flag src) R2_FLAG_SRC =? 0) = src.
Proof. by destruct src. Qed.

Lemma r2_decode_data_encoded f e ve payload :
  data_form_wf f -> data_enc f ve e -> data_id_ok f = true ->
  len (data_header f ve e ++ payload) <= usize_max ->
  decode_data (data_header f ve e ++ payload) = Ok (data_view f payload).
Proof.
  intros Hwf Ha Hf Hl. remember (data_header f ve e ++ payload) as b eqn:Eb.
  pose proof (cursor_start b) as Hc. rewrite Eb in Hc at 2.
  assert (Hb0 : exists r, b = (match data_header f ve e with b0 :: _ => b0 | [] => 0 end) :: r)
    by (destruct f; subst b; simpl; eauto).
  destruct Hb0 as [r Er]. unfold decode_data. rewrite Er at 1. cbn [first head ok_or res_bind].
  destruct f as [id|id sess addr src|sess addr src];
    cbn [data_form_wf data_enc data_id_ok data_header data_view] in *; destruct_and?.
  - cbn [app Z.eqb R2_DATA]. rewrite <- app_assoc in Hc. next Hc. step_varint Hc.
    rewrite Hf. cbn [negb]. by rewrite (sub_from_cursor _ _ _ Hc).
  - cbn [app Z.eqb R2_DATA R2_DATA_EXT Pos.eqb]. rewrite <- !app_assoc in Hc. next Hc.
    rewrite (cursor_get _ _ _ _ Hc). cbn [ok_or res_bind].
    destruct (flags_ok src) as (-> & _ & -> & -> & _ & _ & -> & _). cbn -[get_varint].
    next Hc. step_varint Hc. rewrite Hf. cbn [negb]. step_u32 Hc. step_addr Hc.
    by rewrite (sub_from_cursor _ _ _ Hc).
  - cbn [app Z.eqb R2_DATA R2_DATA_EXT Pos.eqb]. rewrite <- !app_assoc in Hc. next Hc.
    rewrite (cursor_get _ _ _ _ Hc). cbn [ok_or res_bind].
    destruct (flags_ok src) as (_ & -> & _ & _ & -> & -> & _ & ->). cbn -[get_u32].
    next Hc. step_u32 Hc. step_addr Hc. by rewrite (sub_from_cursor _ _ _ Hc).
Qed.

(** The flag bytes the decoders accept. *)
Definition flags_cases_check (x : Z) : bool :=
  implb (negb (unknown_flags x) &&
         xorb (negb (Z.land x R2_FLAG_INLINE =? 0)) (negb (Z.land x R2_FLAG_OPEN =? 0)))
    (if negb (Z.land x R2_FLAG_INLINE =? 0)
     then x =? R2_FLAG_INLINE + src_flag (negb (Z.land x R2_FLAG_SRC =? 0))
     else x =? R2_FLAG_OPEN + src_flag (negb (Z.land x R2_FLAG_SRC =? 0))).

Lemma flags_cases x : is_u8 x -> unknown_flags x = false ->
  negb (negb (Z.land x R2_FLAG_INLINE =? 0) && negb (Z.land x R2_FLAG_OPEN =? 0)) = true ->
  negb (negb (negb (Z.land x R2_FLAG_INLINE =? 0)) && negb (negb (Z.land x R2_FLAG_OPEN =? 0))) = true ->
  let inline := negb (Z.land x R2_FLAG_INLINE =? 0) in
  negb (Z.land x R2_FLAG_OPEN =? 0) = negb inline /\
  x = (if inline then R2_FLAG_INLINE else R2_FLAG_OPEN) + src_flag (negb (Z.land x R2_FLAG_SRC =? 0)).
Proof.
  intros Hx Hu H1 H2. assert (Hc : flags_cases_check x = true)
    by (apply u8_exhaust; [vm_compute; done | done]).
  unfold flags_cases_check in Hc. rewrite Hu in Hc.
  destruct (Z.land x R2_FLAG_INLINE =? 0), (Z.land x R2_FLAG_OPEN =? 0); cbn in *; try done; zbool; done.
Qed.

Lemma r2_decode_data_inv b d : bytes_ok b -> decode_data b = Ok d ->
  exists f ve e payload, data_form_wf f /\ data_enc f ve e /\ data_id_ok f = true /\
    b = data_header f ve e ++ payload /\ d = data_view f payload.
Proof.
  intros Hb Hd. unfold decode_data in Hd. apply res_bind_ok in Hd as (b0 & Hb0 & Hd).
  apply ok_or_ok, first_cursor in Hb0 as (r & Er0 & Hc). revert Hd.
  case_match eqn:E0; [|case_match eqn:E1; [|done]]; zbool; subst b0; intros Hd.
  - res_inv. inv_varint Hb Hc. inv_rest Hc. bools.
    match goal with H : varint_enc _ _ |- _ => apply varint_enc_bound in H as Hu end.
    eexists (DSteady _), ve, [], _. cbn [data_form_wf data_enc data_id_ok data_header data_view].
    split_and!; [by destruct Hu | done..| |by symmetry]; [by rewrite Er0, Er].
  - apply res_bind_ok in Hd as (x & Hx & Hd). apply (proj1 (ok_or_ok _ _ _)) in Hx.
    destruct (cursor_get_inv _ _ _ _ _ Hc Hx eq_refl) as (r1 & -> & Hc1).
    pose proof (cursor_bytes_ok _ _ _ Hb Hc) as [Hu _]%bytes_ok_cons.
    do 3 (apply guard_ok in Hd as [? Hd]). rewrite negb_true_iff in H.
    destruct (flags_cases x Hu H H0 H1) as [Ho Ex]. rewrite Ho in Hd. clear H H0 H1 Ho Hc Hx.
    change (1 + 1) with 2 in Hc1.
    remember (negb (Z.land x R2_FLAG_SRC =? 0)) as src eqn:Es. clear Es.
    destruct (negb (Z.land x R2_FLAG_INLINE =? 0)); cbn [negb] in Hd; res_inv.
    + inv_u32 Hb Hc1. inv_addr Hb Hc1. inv_rest Hc1.
      match type of Hc1 with cursor _ _ ?p => eexists (DInline _ _ src), [], _, p end. cbn [data_form_wf data_enc data_id_ok data_header data_view].
      split_and!; try done; [|congruence]. rewrite Er0, Ex, Er, Er1. simpl. by rewrite <- ?app_assoc.
    + simplify_eq. inv_varint Hb Hc1. inv_u32 Hb Hc1. inv_addr Hb Hc1. inv_rest Hc1. bools.
      match goal with H : varint_enc _ _ |- _ => pose proof (varint_enc_bound _ _ H) as [? _] end.
      match goal with |- context [mkDataRef (Some ?i) (Some ?s) (Some ?a) _ ?p] =>
        eexists (DOpen i s a src), ve, _, p end.
      cbn [data_form_wf data_enc data_id_ok data_header data_view].
      split_and!; try done; [|congruence]. 
      rewrite Er, Er0, Er1. simpl. by rewrite <- ?app_assoc.
Qed.

(* ------------------------------------------------------------------ *)
(** ** FRAG frames as one specification

    A fragment carries the same three forms of context as a [DATA] frame. *)

Definition frag_encode (f : DataForm) (frag_id idx total : Z) (chunk : bytes) (limit : Z)
    : res unit bytes :=
  match f with
  | DSteady id => encode_frag_steady id frag_id idx total chunk limit
  | DOpen id sess addr src => encode_frag_open id sess addr src frag_id idx total chunk limit
  | DInline sess addr src => encode_frag_inline sess addr src frag_id idx total chunk limit
  end.

Definition frag_meta (frag_id idx total : Z) : bytes := le32 frag_id ++ [idx; total].

Definition frag_header (f : DataForm) (ve : bytes) (frag_id idx total : Z) (e : bytes) : bytes :=
  match f with
  | DSteady _ => [R2_FRAG] ++ ve ++ frag_meta frag_id idx total
  | DOpen _ sess _ src =>
      [R2_FRAG_EXT; R2_FLAG_OPEN + src_flag src] ++ ve ++ frag_meta frag_id idx total ++ le32 sess ++ e
  | DInline sess _ src =>
      [R2_FRAG_EXT; R2_FLAG_INLINE + src_flag src] ++ frag_meta frag_id idx total ++ le32 sess ++ e
  end.

Definition frag_view (f : DataForm) (ve : bytes) (frag_id idx total : Z) (e chunk : bytes) : FragRef :=
  let off := len (frag_header f ve frag_id idx total e) in
  match f with
  | DSteady id => mkFragRef (Some id) None None false frag_id idx total off chunk
  | DOpen id sess addr src =>
      mkFragRef (Some id) (Some sess) (Some (wire_addr addr)) src frag_id idx total off chunk
  | DInline sess addr src =>
      mkFragRef None (Some sess) (Some (wire_addr addr)) src frag_id idx total off chunk
  end.

(** The encoding of a form's address, and the header length it gives. *)
Definition data_addr_enc (f : DataForm) (e : bytes) : Prop :=
  match f with
  | DSteady _ => e = []
  | DOpen _ _ addr _ | DInline _ addr _ => encode addr [] = Ok e
  end.

Definition frag_hdr_len (f : DataForm) (addr_len : Z) : Z :=
  match f with
  | DSteady id => frag_steady_len id 0
  | DOpen id _ _ _ => frag_open_len id addr_len 0
  | DInline _ _ _ => frag_inline_len addr_len 0
  end.

Lemma len_frag_meta frag_id idx total : len (frag_meta frag_id idx total) = 6.
Proof. done. Qed.

#[export] Hint Rewrite len_frag_meta : len.

Lemma frag_encode_ok f frag_id idx total chunk limit w : data_form_wf f ->
  frag_encode f frag_id idx total chunk limit = Ok w ->
  exists e ve, data_enc f ve e /\ id_enc_len ve (data_id f) /\ data_id_ok f = true /\
    frag_meta_ok idx total chunk = true /\
    w = frag_header f ve frag_id idx total e ++ chunk /\ len w <= limit.
Proof.
  destruct f as [id|id sess addr src|sess addr src]; cbn [data_form_wf frag_encode]; intros Hwf;
    destruct_and?; cbn [data_enc data_id data_id_ok frag_header id_enc_len].
  - unfold encode_frag_steady, frag_steady_len. wvarint. intros H. res_inv. exists [], ve.
    subst w. bools. split_and!; try done; [simpl; by rewrite <- ?app_assoc | simpl in *; lens].
  - unfold encode_frag_open, frag_open_len. wvarint. enc_fwd. exists ve. bools.
    split_and!; try done; [destruct src; simpl; by rewrite <- ?app_assoc | simpl in *; lens].
  - unfold encode_frag_inline, frag_inline_len. enc_fwd. exists []. bools.
    split_and!; try done; [destruct src; simpl; by rewrite <- ?app_assoc | simpl in *; lens].
Qed.

(** A fragment encoder succeeds on every fragment that fits. *)
Lemma frag_encode_some f e frag_id idx total chunk limit : data_form_wf f ->
  data_addr_enc f e -> data_id_ok f = true -> frag_meta_ok idx total chunk = true ->
  frag_hdr_len f (len e) + len chunk <= limit ->
  exists w, frag_encode f frag_id idx total chunk limit = Ok w.
Proof.
  destruct f as [id|id sess addr src|sess addr src];
    cbn [data_form_wf data_addr_enc data_id_ok frag_hdr_len frag_encode]; intros Hwf He Hf Hm Hl; destruct_and?.
  - unfold encode_frag_steady, frag_steady_len in *. rewrite Hf, Hm. cbn [negb orb]. eexists. pass_guard. done.
  - unfold encode_frag_open, frag_open_len in *. rewrite Hf, Hm. cbn [negb orb]. eexists. enc_bwd. done.
  - unfold encode_frag_inline, frag_inline_len in *. rewrite Hm. cbn [negb]. eexists. enc_bwd. done.
Qed.

Lemma frag_encode_len f e frag_id idx total chunk limit w : data_form_wf f ->
  data_addr_enc f e -> frag_encode f frag_id idx total chunk limit = Ok w ->
  len w = frag_hdr_len f (len e) + len chunk.
Proof.
  intros Hwf He (e' & ve & Hen & Hid & _ & _ & -> & _)%frag_encode_ok; [|done].
  assert (e' = e) as -> by (destruct f; cbn in *; destruct_and?; congruence).
  destruct f; cbn [frag_header frag_hdr_len data_id id_enc_len] in *;
    unfold frag_steady_len, frag_open_len, frag_inline_len; lens.
Qed.

(** The fragment fields under the cursor. *)
Lemma r2_frag_meta_step b off frag_id idx total rest : is_u32 frag_id -> len b <= usize_max ->
  cursor b off (frag_meta frag_id idx total ++ rest) ->
  get_u32 b off = Ok (frag_id, off + 4) /\ get b (off + 4) = Some idx /\
  get b (off + 4 + 1) = Some total /\ cursor b (off + 4 + 2) rest.
Proof.
  unfold frag_meta. intros Hi Hb Hc. rewrite <- app_assoc in Hc.
  eapply r2_get_u32_step in Hc as [? Hc]; [|done..]. split; [done|].
  split; [by eapply cursor_get|]. apply cursor_cons in Hc.
  split; [by eapply cursor_get|]. apply cursor_cons in Hc.
  by replace (off + 4 + 2) with (off + 4 + 1 + 1) by lia.
Qed.

Ltac step_frag_meta Hc :=
  let H1 := fresh in let H2 := fresh in let H3 := fresh in
  eapply r2_frag_meta_step in Hc as (H1 & H2 & H3 & Hc); [|done|done];
  rewrite H1; cbn [res_bind]; rewrite H2; cbn [ok_or res_bind]; rewrite H3;
  cbn [ok_or res_bind]; clear H1 H2 H3.

Lemma r2_decode_frag_encoded f ve frag_id idx total e chunk :
  data_form_wf f -> data_enc f ve e -> data_id_ok f = true -> is_u32 frag_id ->
  frag_meta_ok idx total chunk = true ->
  len (frag_header f ve frag_id idx total e ++ chunk) <= usize_max ->
  decode_frag (frag_header f ve frag_id idx total e ++ chunk)
    = Ok (frag_view f ve frag_id idx total e chunk).
Proof.
  intros Hwf Ha Hf Hi Hm Hl.
  remember (frag_header f ve frag_id idx total e ++ chunk) as b eqn:Eb.
  pose proof (cursor_start b) as Hc. rewrite Eb in Hc at 2.
  assert (Hb0 : exists r, b = (match frag_header f ve frag_id idx total e with b0 :: _ => b0 | [] => 0 end) :: r)
    by (destruct f; subst b; simpl; eauto).
  destruct Hb0 as [r Er]. unfold decode_frag, decode_frag_form. rewrite Er at 1.
  cbn [first head ok_or res_bind]. clear Er. unfold frag_view.
  destruct f as [id|id sess addr src|sess addr src];
    cbn [data_form_wf data_enc data_id_ok frag_header app] in *; destruct_and?.
  - cbn [Z.eqb Pos.eqb R2_FRAG res_bind decode_frag_id decode_frag_ctx orb].
    change (8 =? 8) with true. cbn [res_bind]. unfold decode_frag_id.
    rewrite <- !app_assoc in Hc. next Hc. step_varint Hc. rewrite Hf. cbn [negb res_bind].
    step_frag_meta Hc. unfold decode_frag_ctx. cbn [orb res_bind].
    rewrite (sub_from_cursor _ _ _ Hc). cbn [res_bind]. rewrite Hm. cbn [negb]. do 2 f_equal. lens.
  - next Hc. rewrite (cursor_get _ _ _ _ Hc). change (R2_FRAG_EXT =? R2_FRAG) with false.
    change (R2_FRAG_EXT =? R2_FRAG_EXT) with true. cbn [ok_or res_bind].
    destruct (flags_ok src) as (-> & _ & -> & -> & _ & _ & -> & _).
    cbn [Z.eqb negb andb res_bind R2_FLAG_OPEN]. unfold decode_frag_id.
    rewrite <- !app_assoc in Hc. next Hc. step_varint Hc. rewrite Hf. cbn [negb res_bind].
    step_frag_meta Hc. unfold decode_frag_ctx. cbn [orb res_bind].
    step_u32 Hc. step_addr Hc.
    rewrite (sub_from_cursor _ _ _ Hc). cbn [res_bind]. rewrite Hm. cbn [negb]. do 2 f_equal. lens.
  - next Hc. rewrite (cursor_get _ _ _ _ Hc). change (R2_FRAG_EXT =? R2_FRAG) with false.
    change (R2_FRAG_EXT =? R2_FRAG_EXT) with true. cbn [ok_or res_bind].
    destruct (flags_ok src) as (_ & -> & _ & _ & -> & -> & _ & ->).
    cbn [Z.eqb negb andb res_bind R2_FLAG_INLINE]. unfold decode_frag_id. cbn [res_bind].
    rewrite <- !app_assoc in Hc. next Hc.
    step_frag_meta Hc. unfold decode_frag_ctx. cbn [orb res_bind].
    step_u32 Hc. step_addr Hc.
    rewrite (sub_from_cursor _ _ _ Hc). cbn [res_bind]. rewrite Hm. cbn [negb]. do 2 f_equal. lens.
Qed.

(* ------------------------------------------------------------------ *)
(** ** Control frames *)

Definition ctl_wf (c : Ctl) : Prop :=
  match c with
  | Hello ver flags => is_u16 ver /\ is_u16 flags
  | CapsMsg c => is_u16 (wire_ver c) /\ is_u16 (caps_flags c) /\ is_u16 (max_conn_flows c) /\
      is_u16 (max_flows_sess c) /\ is_u8 (max_train_items c) /\ is_u16 (max_frame_bytes c) /\
      is_u16 (max_reassembly c)
  | FlowAck id s | FlowReject id s => is_u32 id /\ valid_wire_id id = true /\ is_u8 s
  | FlowClose id => is_u32 id /\ valid_wire_id id = true
  | SessClose sess reason => is_u32 sess /\ is_u8 reason
  end.

Lemma u16_at_cursor b i n rest : is_u16 n -> cursor b i (le16 n ++ rest) ->
  u16_at b i = Ok n /\ cursor b (i + 2) rest.
Proof.
  intros Hn Hc. unfold u16_at, idx. unfold le16 in Hc. cbn [app] in Hc.
  rewrite (cursor_get _ _ _ _ Hc). apply cursor_cons in Hc.
  rewrite (cursor_get _ _ _ _ Hc). apply cursor_cons in Hc. cbn [or_panic res_bind].
  rewrite of_le16_le16 by done. split; [done|]. by replace (i + 2) with (i + 1 + 1) by lia.
Qed.

Ltac step_u16_at Hc :=
  let Hg := fresh in
  eapply u16_at_cursor in Hc as [Hg Hc]; [|done]; norm_cursor Hc;
  rewrite Hg; clear Hg; cbn [res_bind].

(** The bytes of a control frame whose id is encoded as [ve]. *)
Definition ctl_wire (c : Ctl) (ve : bytes) : bytes :=
  match c with
  | Hello ver flags => [R2_CTL; R2_CTL_HELLO] ++ R2_MAGIC ++ le16 ver ++ le16 flags
  | CapsMsg c => [R2_CTL; R2_CTL_CAPS] ++ R2_MAGIC ++ le16 (wire_ver c) ++ le16 (caps_flags c) ++
      le16 (max_conn_flows c) ++ le16 (max_flows_sess c) ++ [max_train_items c] ++
      le16 (max_frame_bytes c) ++ le16 (max_reassembly c)
  | FlowAck _ st => [R2_CTL; R2_CTL_FLOW_ACK] ++ ve ++ [st]
  | FlowReject _ rs => [R2_CTL; R2_CTL_FLOW_REJECT] ++ ve ++ [rs]
  | FlowClose _ => [R2_CTL; R2_CTL_FLOW_CLOSE] ++ ve
  | SessClose sess rs => [R2_CTL; R2_CTL_SESS_CLOSE] ++ le32 sess ++ [rs]
  end.

Definition ctl_enc (c : Ctl) (ve : bytes) : Prop :=
  match c with
  | FlowAck id _ | FlowReject id _ | FlowClose id => varint_enc id ve
  | _ => ve = []
  end.

Lemma encode_ctl_wire c : ctl_wf c -> exists ve,
  ctl_enc c ve /\ encode_ctl c = ctl_wire c ve /\ len (encode_ctl c) = ctl_len c.
Proof.
  intros Hwf. destruct c as [ver flags|cp|id st|id rs|id|sess rs];
    cbn [ctl_wf encode_ctl ctl_len ctl_enc ctl_wire] in *; destruct_and?.
  1,2,6: by exists [].
  all: wvarint; exists ve; rewrite <- ?app_assoc; split_and!; [done..|]; lens.
Qed.

Ltac ctl_opcode Hc :=
  next Hc; rewrite (cursor_get _ _ _ _ Hc);
  cbn [ok_or res_bind Z.eqb Pos.eqb R2_CTL_HELLO R2_CTL_CAPS R2_CTL_FLOW_ACK R2_CTL_FLOW_REJECT
    R2_CTL_FLOW_CLOSE R2_CTL_SESS_CLOSE]; next Hc.

Lemma decode_ctl_wire c ve : ctl_wf c -> ctl_enc c ve -> decode_ctl (ctl_wire c ve) = Ok c.
Proof.
  intros Hwf He. remember (ctl_wire c ve) as b eqn:Eb. pose proof (cursor_start b) as Hc.
  rewrite Eb in Hc at 2. unfold decode_ctl.
  rewrite (bool_decide_eq_true_2 (first b = _)) by (subst b; by destruct c).
  destruct c as [ver flags|cp|id st|id rs|id|sess rs];
    cbn [ctl_wf ctl_enc ctl_wire] in *; destruct_and?; cbn [app] in Hc; ctl_opcode Hc.
  - assert (Hm : bad_magic b 8 = Ok false) by by subst b. rewrite Hm. cbn [res_bind negb].
    unfold R2_MAGIC in Hc. cbn [app] in Hc. do 2 next Hc. step_u16_at Hc.
    rewrite <- (app_nil_r (le16 flags)) in Hc. step_u16_at Hc. done.
  - assert (Hm : bad_magic b 17 = Ok false) by by subst b. rewrite Hm. cbn [res_bind negb].
    unfold R2_MAGIC in Hc. cbn [app] in Hc. do 2 next Hc. do 4 step_u16_at Hc.
    unfold idx at 1. rewrite (cursor_get _ _ _ _ Hc). cbn [or_panic res_bind]. next Hc.
    step_u16_at Hc. rewrite <- (app_nil_r (le16 (max_reassembly cp))) in Hc. step_u16_at Hc.
    by destruct cp.
  - step_varint Hc. rewrite H1. cbn [negb]. rewrite (cursor_get _ _ _ _ Hc). cbn [ok_or res_bind].
    pose proof (cursor_bounds _ _ _ Hc). by replace (_ =? len b) with true by (symmetry; lens).
  - step_varint Hc. rewrite H1. cbn [negb]. rewrite (cursor_get _ _ _ _ Hc). cbn [ok_or res_bind].
    pose proof (cursor_bounds _ _ _ Hc). by replace (_ =? len b) with true by (symmetry; lens).
  - rewrite <- (app_nil_r ve) in Hc. step_varint Hc. rewrite H0. cbn [negb].
    pose proof (cursor_bounds _ _ _ Hc). by replace (_ =? len b) with true by (symmetry; lens).
  - assert (Hl : len b = 7) by by subst b. rewrite Hl. change (7 =? 7) with true. cbn [negb].
    unfold le32, idx in *. cbn [app] in Hc.
    do 4 (rewrite (cursor_get _ _ _ _ Hc); cbn [or_panic res_bind]; next Hc).
    rewrite (cursor_get _ _ _ _ Hc). cbn [or_panic res_bind]. by rewrite of_le32_le32.
Qed.

(* ------------------------------------------------------------------ *)
(** ** Claims *)

(** The varints of the rev2 wire.  What the writer appends for a [u32] is
    read back as that number from any position, is [varint_len] bytes long,
    and is the shortest byte string the reader takes for it; and the loops
    stop by their own condition within five turns. *)
Theorem r2_varint_roundtrip n out rest :
  is_u32 n ->
  get_varint (put_varint out n ++ rest) (len out) = Ok (n, len out + varint_len n) /\
  len (put_varint out n) = len out + varint_len n /\ 1 <= varint_len n <= 5 /\
  (forall e, bytes_ok e -> get_varint e 0 = Ok (n, len e) -> varint_len n <= len e) /\
  put_varint out n = (if n >=? 0x80
    then put_varint (out ++ [Z.lor (as_u8 n) 0x80]) (Z.shiftr n 7) else out ++ [as_u8 n]) /\
  varint_len n = (if n >=? 0x80 then 1 + varint_len (Z.shiftr n 7) else 1).
Proof.
  intros Hn. destruct (put_varint_spec n Hn) as (e & He & Hb & Hl & Hput & Hmin).
  pose proof (varint_enc_bound n e He) as [_ Hlen].
  split_and!; [| rewrite Hput; lens | lia.. | | by apply put_varint_loop | by apply varint_len_loop].
  - rewrite Hput, <- app_assoc, <- Hl. apply (get_varint_step _ _ _ e rest); [done|].
    by exists out.
  - intros e' Hb' H. destruct (get_varint_inv e' 0 e' n (len e') Hb' (cursor_start e') H)
      as (e1 & r & -> & He1 & El & _). pose proof (put_varint_minimal n e e1 Hmin He1). lens.
Qed.

Lemma r2_varint_roundtrip_witness :
  get_varint (put_varint [9] 300 ++ [7]) 1 = Ok (300, 1 + 2) /\
  len (put_varint [9] 300) = 1 + 2 /\ 1 <= varint_len 300 <= 5 /\
  (forall e, bytes_ok e -> get_varint e 0 = Ok (300, len e) -> varint_len 300 <= len e) /\
  put_varint [9] 300 = put_varint [9; 172] 2 /\ varint_len 300 = 1 + varint_len 2.
Proof. apply (r2_varint_roundtrip 300 [9] [7]). concrete. Defined.

(** Every rev2 [DATA] frame an encoder produces (steady, [OPEN] or
    [INLINE], with or without [SRC]) fits its limit, is classified as data and
    is decoded back to the fields and the payload it was built from. *)
Theorem r2_data_roundtrip f payload limit w :
  data_form_wf f -> limit <= isize_max -> data_encode f payload limit = Ok w ->
  decode_data w = Ok (data_view f payload) /\ kind w = Some Data /\ len w <= limit.
Proof.
  intros Hwf Hl (e & ve & He & _ & Hf & -> & Hw)%data_encode_ok; [|done].
  split_and!; [apply r2_decode_data_encoded; auto; ulia | by destruct f | done].
Qed.

Lemma r2_data_roundtrip_witness :
  let w := [1; 5; 0xAC; 2; 9; 0; 0; 0; 1; 1; 2; 3; 4; 0; 53; 7] in
  decode_data w = Ok (data_view (DOpen 300 9 (AddrIp (SockV4 [1; 2; 3; 4] 53)) true) [7]) /\
  kind w = Some Data /\ len w <= 1200.
Proof.
  apply (r2_data_roundtrip (DOpen 300 9 (AddrIp (SockV4 [1; 2; 3; 4] 53)) true) [7] 1200).
  - cbn. split_and!; concrete.
  - concrete.
  - reflexivity.
Defined.

(** The [DATA] decoder accepts only what the protocol can say.  It never
    panics; a frame it accepts denotes a form with a nonzero id, and encoding
    that form again succeeds, gives a frame that is no longer, and decodes to
    the same view (longer spellings of an id are accepted and normalised). *)
Theorem r2_data_normalises b :
  bytes_ok b -> len b <= isize_max ->
  decode_data b <> Panic /\
  forall d, decode_data b = Ok d -> exists f w, data_form_wf f /\ data_id_ok f = true /\
    d = data_view f (d_payload d) /\ data_encode f (d_payload d) (len b) = Ok w /\
    len w <= len b /\ decode_data w = Ok d.
Proof.
  intros Hb Hl. split; [by apply r2_decode_data_no_panic|]. intros d Hd.
  destruct (r2_decode_data_inv b d Hb Hd) as (f & ve & e & p & Hwf & He & Hf & Eb & ->).
  destruct (data_encode_some f ve e p (len b) Hwf He Hf) as (ve' & He' & Hle & Hw); [subst b; lia|].
  replace (d_payload (data_view f p)) with p by by destruct f.
  assert (Hlw : len (data_header f ve' e ++ p) <= len b) by (subst b; destruct f; simpl in *; lens).
  eexists f, _. split_and!; [done..|]. apply r2_decode_data_encoded; auto; ulia.
Qed.

Lemma r2_data_normalises_witness :
  let b := [0; 0x85; 0x80; 0; 7] in
  decode_data b <> Panic /\
  forall d, decode_data b = Ok d -> exists f w, data_form_wf f /\ data_id_ok f = true /\
    d = data_view f (d_payload d) /\ data_encode f (d_payload d) (len b) = Ok w /\
    len w <= len b /\ decode_data w = Ok d.
Proof. apply (r2_data_normalises [0; 0x85; 0x80; 0; 7]); concrete. Defined.

(** Every rev2 [FRAG] frame an encoder produces is classified as a
    fragment and decoded back to its context, position and chunk; the reported
    chunk offset is where the chunk starts.  No byte string makes the decoder
    panic. *)
Theorem r2_frag_roundtrip f frag_id i total chunk limit w b :
  data_form_wf f -> is_u32 frag_id -> limit <= isize_max ->
  frag_encode f frag_id i total chunk limit = Ok w -> bytes_ok b ->
  kind w = Some Frag /\ len w <= limit /\ decode_frag b <> Panic /\
  exists ve e, data_enc f ve e /\ decode_frag w = Ok (frag_view f ve frag_id i total e chunk) /\
    slice_from w (f_chunk_off (frag_view f ve frag_id i total e chunk)) = Some chunk.
Proof.
  intros Hwf Hi Hl (e & ve & He & _ & Hf & Hm & -> & Hw)%frag_encode_ok Hb; [|done].
  split_and!; [by destruct f | done | by apply r2_decode_frag_no_panic|].
  exists ve, e. split_and!; [done | |].
  - apply r2_decode_frag_encoded; auto; ulia.
  - replace (f_chunk_off _) with (len (frag_header f ve frag_id i total e)) by by destruct f.
    apply cursor_slice_from. eexists; eauto.
Qed.

Lemma r2_frag_roundtrip_witness :
  let w := [8; 5; 7; 0; 0; 0; 1; 2; 42] in
  kind w = Some Frag /\ len w <= 1200 /\ decode_frag [9; 1; 0] <> Panic /\
  exists ve e, data_enc (DSteady 5) ve e /\
    decode_frag w = Ok (frag_view (DSteady 5) ve 7 1 2 e [42]) /\
    slice_from w (f_chunk_off (frag_view (DSteady 5) ve 7 1 2 e [42])) = Some [42].
Proof. apply (r2_frag_roundtrip (DSteady 5) 7 1 2 [42] 1200); concrete. Defined.

(** Every rev2 control frame is [ctl_len] bytes long, is classified as
    control and is decoded back to the message; no byte string makes the
    decoder panic. *)
Theorem r2_ctl_roundtrip c b :
  ctl_wf c -> bytes_ok b ->
  decode_ctl (encode_ctl c) = Ok c /\ len (encode_ctl c) = ctl_len c /\
  kind (encode_ctl c) = Some Ctl_ /\ decode_ctl b <> Panic.
Proof.
  intros Hwf Hb. destruct (encode_ctl_wire c Hwf) as (ve & He & -> & Hl).
  split_and!; [by apply decode_ctl_wire | done | by destruct c | by apply decode_ctl_no_panic].
Qed.

Lemma r2_ctl_roundtrip_witness :
  let c := CapsMsg Caps_default in
  decode_ctl (encode_ctl c) = Ok c /\ len (encode_ctl c) = ctl_len c /\
  kind (encode_ctl c) = Some Ctl_ /\ decode_ctl [12; 1; 2] <> Panic.
Proof. apply (r2_ctl_roundtrip (CapsMsg Caps_default) [12; 1; 2]); [cbn; split_and!; concrete | concrete]. Defined.
