(* ===== verification/R2Train.v ===== *)
(** The rev2 [TRAIN] frames of [src/mqp/r2.rs]: many packets of one flow, or of
    a dictionary of flows, in one DATAGRAM. *)
From S2P Require Import Prelude Addr Codec R2.

Definition R2_TRAIN_FORM_SAME : Z := 0.
Definition R2_TRAIN_FORM_DICT : Z := 1.

Definition valid_train_count (n : Z) : option unit :=
  if (n =? 0) || (n >? R2_MAX_TRAIN_ITEMS) then None else Some tt.

(** Every dictionary entry is a valid id not seen before it. *)
Fixpoint distinct_ids (seen flows : list Z) : bool :=
  match flows with
  | [] => true
  | f :: fs => if negb (valid_wire_id f) || existsb (Z.eqb f) seen then false
               else distinct_ids (seen ++ [f]) fs
  end.

Definition valid_train_flows (flows : list Z) (items : list (Z * bytes)) : option unit :=
  if (len flows =? 0) || (len flows >? 255) || (len flows >? R2_MAX_TRAIN_ITEMS) then None
  else if len flows >? len items then None
  else if negb (distinct_ids [] flows) then None
  else if existsb (fun it => it.1 >=? len flows) items then None
  else Some tt.

(** The allocation-free varint reader of the item iterator. *)
Fixpoint varint_at_go (turns : nat) (i value : Z) (b : bytes) (off : Z) : res unit (Z * Z) :=
  match turns with
  | O => Nope
  | S turns =>
      let! byte := of_option (get b off) in
      let off := off + 1 in
      if i =? 4 then
        guard! negb (negb (Z.land byte 0xF0 =? 0)) else tt in
        Ok (Z.lor value (as_u32 (Z.shiftl byte 28)), off)
      else
        let value := Z.lor value (as_u32 (Z.shiftl (Z.land byte 0x7F) (7 * i))) in
        if Z.land byte 0x80 =? 0 then Ok (value, off)
        else varint_at_go turns (i + 1) value b off
  end.

Definition varint_at (b : bytes) (off : Z) : res unit (Z * Z) := varint_at_go 5 0 0 b off.

(* ------------------------------------------------------------------ *)
(** ** Encoders.  A length is written as [p.len() as u32]. *)

Fixpoint same_total (total : Z) (payloads : list bytes) : option Z :=
  match payloads with
  | [] => Some total
  | p :: ps => total ← checked_add total (varint_len (as_u32 (len p)) + len p); same_total total ps
  end.

Definition train_same_len (id : Z) (payloads : list bytes) : option Z :=
  _ ← valid_train_count (len payloads);
  if negb (valid_wire_id id) then None else same_total (3 + varint_len id) payloads.

Fixpoint dict_flows_total (total : Z) (flows : list Z) : option Z :=
  match flows with
  | [] => Some total
  | f :: fs => total ← checked_add total (varint_len f); dict_flows_total total fs
  end.

Fixpoint dict_items_total (total : Z) (items : list (Z * bytes)) : option Z :=
  match items with
  | [] => Some total
  | (_, p) :: its =>
      total ← checked_add total (1 + varint_len (as_u32 (len p)) + len p);
      dict_items_total total its
  end.

Definition train_dict_len (flows : list Z) (items : list (Z * bytes)) : option Z :=
  _ ← valid_train_count (len items);
  _ ← valid_train_flows flows items;
  total ← dict_flows_total 4 flows;
  dict_items_total total items.

Definition encode_train_same (id : Z) (payloads : list bytes) (limit : Z) : res unit bytes :=
  let! total := of_option (train_same_len id payloads) in
  guard! negb (total >? limit) else tt in
  let v := [] ++ [R2_TRAIN] in
  let v := v ++ [R2_TRAIN_FORM_SAME] in
  let v := v ++ [as_u8 (len payloads)] in
  let v := put_varint v id in
  let v := fold_left (fun v p => put_varint v (as_u32 (len p)) ++ p) payloads v in
  Ok v.

Definition encode_train_dict (flows : list Z) (items : list (Z * bytes)) (limit : Z)
    : res unit bytes :=
  let! total := of_option (train_dict_len flows items) in
  guard! negb (total >? limit) else tt in
  let v := [] ++ [R2_TRAIN] in
  let v := v ++ [R2_TRAIN_FORM_DICT] in
  let v := v ++ [as_u8 (len items)] in
  let v := v ++ [as_u8 (len flows)] in
  let v := fold_left put_varint flows v in
  let v := fold_left (fun v it => put_varint (v ++ [it.1]) (as_u32 (len it.2)) ++ it.2) items v in
  Ok v.

(* ------------------------------------------------------------------ *)
(** ** Decoder and item iterator *)

Record TrainFrame : Type := mkTrainFrame {
  tf_form : Z;
  tf_count : Z;
  tf_nfl : Z;
  tf_flows : list Z;
  tf_items : bytes
}.

Definition no_flows : list Z := replicate (Z.to_nat R2_MAX_TRAIN_ITEMS) 0.

Fixpoint read_dict (b : bytes) (n : nat) (i : Z) (flows : list Z) (off : Z)
    : res MqpError (list Z * Z) :=
  match n with
  | O => Ok (flows, off)
  | S n =>
      let! '(id, off) := get_varint b off in
      let! seen := sub flows 0 i in
      guard! negb (negb (valid_wire_id id) || existsb (Z.eqb id) seen)
        else Malformed "bad r2 train flow id" in
      let! flows := write_at flows i [id] in
      read_dict b n (i + 1) flows off
  end.

(** The dictionary: the flows, their number and the offset after them. *)
Definition decode_train_flows (b : bytes) (form count off : Z)
    : res MqpError (list Z * Z * Z) :=
  if form =? R2_TRAIN_FORM_SAME then
    let! '(id, off) := get_varint b off in
    guard! negb (negb (valid_wire_id id)) else Malformed "r2 train id 0" in
    let! flows := write_at no_flows 0 [id] in
    Ok (flows, 1, off)
  else if form =? R2_TRAIN_FORM_DICT then
    let! nfl := ok_or (get b off) (Malformed "short r2 train dict") in
    let off := off + 1 in
    guard! negb ((nfl =? 0) || (nfl >? count) || (nfl >? R2_MAX_TRAIN_ITEMS))
      else Malformed "bad r2 train dict" in
    let! '(flows, off) := read_dict b (Z.to_nat nfl) 0 no_flows off in
    Ok (flows, nfl, off)
  else Err (Malformed "bad r2 train form").

(** The validation of the items: the offset after [n] of them. *)
Fixpoint walk_items (b : bytes) (form nfl : Z) (n : nat) (p : Z) : res MqpError Z :=
  match n with
  | O => Ok p
  | S n =>
      let! p :=
        if form =? R2_TRAIN_FORM_DICT then
          let! i := ok_or (get b p) (Malformed "short r2 train item") in
          guard! negb (i >=? nfl) else Malformed "bad r2 train item flow" in
          Ok (p + 1)
        else Ok p in
      let! '(l, p) := get_varint b p in
      let! end_ := ok_or (checked_add p l) (Malformed "r2 train item overflow") in
      guard! negb (end_ >? len b) else Malformed "bad r2 train item length" in
      walk_items b form nfl n end_
  end.

Definition decode_train (b : bytes) : res MqpError TrainFrame :=
  guard! bool_decide (first b = Some R2_TRAIN) else Malformed "bad r2 train kind" in
  let! form := ok_or (get b 1) (Malformed "short r2 train") in
  let! count := ok_or (get b 2) (Malformed "short r2 train count") in
  let! _ := ok_or (valid_train_count count) (Malformed "bad r2 train count") in
  let off := 3 in
  let! '(flows, nfl, off) := decode_train_flows b form count off in
  let! p := walk_items b form nfl (Z.to_nat count) off in
  guard! negb (negb (p =? len b)) else Malformed "r2 train trailing bytes" in
  let! items := sub_from b off in
  Ok (mkTrainFrame form count (as_u8 nfl) flows items).

Record TrainItems : Type := mkTrainItems {
  ti_form : Z;
  ti_nfl : Z;
  ti_flows : list Z;
  ti_items : bytes
}.

Definition items (t : TrainFrame) : TrainItems :=
  mkTrainItems (tf_form t) (tf_nfl t) (tf_flows t) (tf_items t).

Definition with_items (s : TrainItems) (b : bytes) : TrainItems :=
  mkTrainItems (ti_form s) (ti_nfl s) (ti_flows s) b.

(** The length and the payload at [off], and the bytes after them. *)
Definition read_item (its : bytes) (off : Z) : res unit (bytes * bytes) :=
  let! '(l, off) := varint_at its off in
  let! end_ := of_option (checked_add off l) in
  let! payload := of_option (slice its off end_) in
  let! rest := sub_from its end_ in
  Ok (payload, rest).

Definition next_item (s : TrainItems) : res unit ((Z * bytes) * bytes) :=
  let its := ti_items s in
  guard! negb (len its =? 0) else tt in
  let! '(flow, off) :=
    if ti_form s =? R2_TRAIN_FORM_DICT then
      let! i := of_option (first its) in
      guard! negb (i >=? ti_nfl s) else tt in
      let! f := idx (ti_flows s) i in
      Ok (f, 1)
    else if ti_form s =? R2_TRAIN_FORM_SAME then
      let! f := idx (ti_flows s) 0 in
      Ok (f, 0)
    else Nope in
  let! '(payload, rest) := read_item its off in
  Ok ((flow, payload), rest).

(** [TrainItems::next]: the item, if any, and the iterator after the call. *)
Definition next (s : TrainItems) : res unit (option (Z * bytes) * TrainItems) :=
  match next_item s with
  | Ok (it, rest) => Ok (Some it, with_items s rest)
  | Err _ => Ok (None, s)
  | Panic => Panic
  end.

(** [for it in train.items()]: every item uses up bytes, so the length of the
    items bounds the calls. *)
Fixpoint drain (fuel : nat) (s : TrainItems) : res unit (list (Z * bytes) * TrainItems) :=
  match fuel with
  | O => Ok ([], s)
  | S fuel =>
      let! '(o, s) := next s in
      match o with
      | None => Ok ([], s)
      | Some it => let! '(its, s) := drain fuel s in Ok (it :: its, s)
      end
  end.

Definition collect (t : TrainFrame) : res unit (list (Z * bytes) * TrainItems) :=
  drain (S (length (tf_items t))) (items t).

(* ------------------------------------------------------------------ *)
(** ** Lemmas: items on the wire *)

Lemma varint_at_go_get turns i v b off :
  varint_at_go turns i v b off = res_ok (get_varint_go turns i v b off).
Proof.
  revert i v off. induction turns as [|t IH]; intros i v off; [done|].
  cbn [varint_at_go get_varint_go]. unfold of_option.
  destruct (get b off); cbn [ok_or res_bind res_ok]; [|done].
  repeat case_match; try done; apply IH.
Qed.

Lemma varint_at_get b off : varint_at b off = res_ok (get_varint b off).
Proof. apply varint_at_go_get. Qed.

(** [item_wire nfl flows form it w]: the bytes [w] encode the item [it]. *)
Inductive item_wire (nfl : Z) (fl : list Z) : Z -> Z * bytes -> bytes -> Prop :=
| iw_same id p e : get fl 0 = Some id -> varint_enc (len p) e ->
    item_wire nfl fl R2_TRAIN_FORM_SAME (id, p) (e ++ p)
| iw_dict id p e i : 0 <= i < nfl -> get fl i = Some id -> varint_enc (len p) e ->
    item_wire nfl fl R2_TRAIN_FORM_DICT (id, p) (i :: e ++ p).

Inductive items_wire (nfl : Z) (fl : list Z) (form : Z) : list (Z * bytes) -> bytes -> Prop :=
| isw_nil : items_wire nfl fl form [] []
| isw_cons it its w ws : item_wire nfl fl form it w -> items_wire nfl fl form its ws ->
    items_wire nfl fl form (it :: its) (w ++ ws).

#[export] Hint Constructors item_wire items_wire : mq.

Lemma item_wire_nonempty nfl fl form it w : item_wire nfl fl form it w -> 1 <= len w.
Proof. destruct 1 as [? ? ? _ He|]; [apply varint_enc_bound in He|]; lens. Qed.

Lemma items_wire_count nfl fl form its w : items_wire nfl fl form its w -> len its <= len w.
Proof. induction 1 as [|? ? ? ? Hi%item_wire_nonempty]; lens. Qed.

Lemma read_item_step (its : bytes) off p e rest : len its <= usize_max -> varint_enc (len p) e ->
  cursor its off (e ++ p ++ rest) -> read_item its off = Ok (p, rest).
Proof.
  intros Hl He Hc. unfold read_item. rewrite varint_at_get.
  destruct (get_varint_step _ _ _ _ _ He Hc) as [-> Hc1]. cbn [res_ok res_bind].
  pose proof (cursor_bounds _ _ _ Hc1). rewrite checked_add_small by lens. cbn [of_option ok_or res_bind].
  rewrite (cursor_slice _ _ _ _ (len p) Hc1) by done. cbn [of_option ok_or res_bind].
  apply cursor_app in Hc1. by rewrite (sub_from_cursor _ _ _ Hc1).
Qed.

Lemma r2_next_item_wire s it w rest :
  item_wire (ti_nfl s) (ti_flows s) (ti_form s) it w ->
  ti_items s = w ++ rest -> len (w ++ rest) <= usize_max -> next_item s = Ok (it, rest).
Proof.
  intros Hw Hs Hl. pose proof (item_wire_nonempty _ _ _ _ _ Hw) as Hne. unfold next_item. rewrite Hs.
  replace (len (w ++ rest) =? 0) with false by (symmetry; lens). cbn [negb].
  pose proof (cursor_start (w ++ rest)) as Hc.
  inversion Hw as [id p e Hf He Ef|id p e i Hi Hf He Ef]; subst.
  - change (R2_TRAIN_FORM_SAME =? R2_TRAIN_FORM_DICT) with false. rewrite Z.eqb_refl.
    unfold idx. rewrite Hf. cbn [or_panic res_bind]. rewrite <- app_assoc in Hc at 2.
    by rewrite (read_item_step _ _ _ _ _ Hl He Hc).
  - rewrite Z.eqb_refl. cbn [app first head of_option ok_or res_bind].
    replace (i >=? ti_nfl s) with false by lia. cbn [negb].
    unfold idx. rewrite Hf. cbn [or_panic res_bind]. cbn [app] in Hc, Hl.
    rewrite <- app_assoc in Hc at 2. next Hc. by rewrite (read_item_step _ _ _ _ _ Hl He Hc).
Qed.

Lemma r2_drain_wire s its w fuel :
  items_wire (ti_nfl s) (ti_flows s) (ti_form s) its w ->
  ti_items s = w -> len w <= usize_max -> (length its < fuel)%nat ->
  drain fuel s = Ok (its, with_items s []).
Proof.
  intros Hw. revert s fuel Hw. revert w. induction its as [|it its IH];
    intros w s fuel Hw Hi Hl Hf; (destruct fuel as [|fuel]; [lia|]); cbn [drain].
  - inversion Hw as [E|]. assert (E' : ti_items s = []) by congruence.
    unfold next, next_item. rewrite E'. simpl. unfold with_items. rewrite <- E'. by destruct s.
  - inversion Hw as [|? ? w0 ws Hw0 Hws E1 E2]. rewrite <- E2 in Hi, Hl. clear E1 E2 w Hw. unfold next.
    rewrite (r2_next_item_wire s it w0 ws) by done. cbn [res_bind].
    rewrite (IH ws) by (simpl; try done; simpl in *; lens). done.
Qed.

(* ------------------------------------------------------------------ *)
(** ** Lemmas: the validating walk *)

Section Walk.
Context (b : bytes) (nfl : Z) (fl : list Z).

Lemma walk_items_wire form its w off rest : len b <= usize_max ->
  items_wire nfl fl form its w -> cursor b off (w ++ rest) ->
  walk_items b form nfl (length its) off = Ok (off + len w).
Proof.
  intros Hlen Hw. revert off. induction Hw as [|it its w ws Hit Hws IH]; intros off Hc; cbn [length walk_items].
  - f_equal. lens.
  - assert (exists p e pre, it.2 = p /\ w = pre ++ e ++ p /\ varint_enc (len p) e /\
      (if form =? R2_TRAIN_FORM_DICT then
         let! i := ok_or (get b off) (Malformed "short r2 train item") in
         guard! negb (i >=? nfl) else Malformed "bad r2 train item flow" in Ok (off + 1)
       else Ok off) = Ok (off + len pre)) as (p & e & pre & _ & -> & He & ->).
    { inversion Hit as [id p e Hf He|id p e i Hi Hf He]; subst.
      - exists p, e, []. split_and!; try done. cbn. by rewrite Z.add_0_r.
      - exists p, e, [i]. split_and!; try done. rewrite Z.eqb_refl.
        cbn [app] in Hc. rewrite (cursor_get _ _ _ _ Hc). cbn [ok_or res_bind].
        by replace (i >=? nfl) with false by lia. }
    cbn [res_bind]. rewrite <- !app_assoc in Hc. apply cursor_app in Hc.
    destruct (get_varint_step _ _ _ _ _ He Hc) as [-> Hc1]. cbn [res_bind].
    pose proof (cursor_bounds _ _ _ Hc1). rewrite checked_add_small by lens. cbn [ok_or res_bind].
    pass_guard. apply cursor_app in Hc1. rewrite IH by done. f_equal. lens.
Qed.

Lemma walk_items_inv form n off off' r : bytes_ok b ->
  form = R2_TRAIN_FORM_SAME /\ is_Some (get fl 0) \/
    form = R2_TRAIN_FORM_DICT /\ (forall i, 0 <= i < nfl -> is_Some (get fl i)) ->
  cursor b off r -> walk_items b form nfl n off = Ok off' ->
  exists its w rest, r = w ++ rest /\ items_wire nfl fl form its w /\
    length its = n /\ off' = off + len w.
Proof.
  intros Hb Hf. revert off r. induction n as [|n IH]; intros off r Hc H; cbn [walk_items] in H.
  - injection H as <-. exists [], [], r. split_and!; [done | constructor | done | lens].
  - apply res_bind_ok in H as (p0 & Hp0 & H).
    assert (exists pre r1, r = pre ++ r1 /\ p0 = off + len pre /\ forall p e, varint_enc (len p) e ->
      exists id, item_wire nfl fl form (id, p) (pre ++ e ++ p)) as (pre & r1 & -> & -> & Hit).
    { destruct Hf as [[-> [id Hf]]|[-> Hf]].
      - injection Hp0 as <-. exists [], r. split_and!; [done | lens |]. intros p e He.
        exists id. by apply (iw_same nfl fl id p e).
      - rewrite Z.eqb_refl in Hp0. res_inv.
        destruct (cursor_get_inv _ _ _ _ _ Hc H0 eq_refl) as (r1 & -> & _).
        pose proof (cursor_bytes_ok _ _ _ Hb Hc) as [Hv _]%bytes_ok_cons.
        destruct (Hf v) as [id Hid]; [ulia|].
        exists [v], r1. split_and!; [done | subst; done |]. intros p e He. exists id.
        apply (iw_dict nfl fl id p e v); [ulia | done..]. }
    clear Hp0. apply cursor_app in Hc. apply res_bind_ok in H as ([l q] & Hg & H).
    destruct (get_varint_inv _ _ _ _ _ Hb Hc Hg) as (e & r2 & -> & He & -> & Hc1).
    res_inv. opt_inv. apply varint_enc_bound in He as Hn.
    destruct (payload_inv _ _ l _ Hc1) as (p & r3 & -> & Hp & Hc2); [ulia | lia|].
    destruct (IH _ _ Hc2 H) as (its & w & rest & -> & Hw & <- & ->). subst l.
    destruct (Hit p e He) as [id Hid].
    exists ((id, p) :: its), ((pre ++ e ++ p) ++ w), rest.
    split_and!; [by rewrite <- !app_assoc | by constructor | done | lens].
Qed.

Lemma walk_items_no_panic form n p : bytes_ok b -> 0 <= p -> walk_items b form nfl n p <> Panic.
Proof.
  intros Hb. revert p. induction n as [|n IH]; intros p Hp; cbn [walk_items]; [done|].
  repeat np_step. opt_inv. apply IH.
  assert (p <= a) by (repeat case_match; res_inv; simplify_eq; lia).
  repeat np_learn.
  match goal with H : get_varint _ _ = Ok _ |- _ =>
    destruct (get_varint_inv b _ _ _ _ Hb (cursor_exists b a ltac:(lia)) H) as (e & r & _ & He & _ & _);
    apply varint_enc_bound in He end. ulia.
Qed.
End Walk.

(* ------------------------------------------------------------------ *)
(** ** Lemmas: the flow dictionary *)

Inductive ids_wire : list Z -> bytes -> Prop :=
| idw_nil : ids_wire [] []
| idw_cons f fs e w : varint_enc f e -> ids_wire fs w -> ids_wire (f :: fs) (e ++ w).

Lemma distinct_ids_spec seen fs :
  distinct_ids seen fs = true <->
  Forall (fun f => valid_wire_id f = true) fs /\ NoDup fs /\ (forall f, f ∈ fs -> f ∉ seen).
Proof.
  revert seen. induction fs as [|f fs IH]; intros seen; simpl.
  - split; [intros _; split_and!; [constructor..|set_solver] | done].
  - rewrite existsb_eqb, Forall_cons_iff, list.NoDup_cons. destruct (valid_wire_id f) eqn:Ev; simpl.
    2: { split; [done | naive_solver]. }
    case_bool_decide as Hs; [split; [done | set_solver]|]. rewrite IH. set_solver.
Qed.

Section Dict.
Context (b : bytes).

Lemma r2_read_dict_wire fs w pre z off rest :
  ids_wire fs w -> distinct_ids pre fs = true -> (length fs <= length z)%nat ->
  cursor b off (w ++ rest) ->
  read_dict b (length fs) (len pre) (pre ++ z) off
    = Ok (pre ++ fs ++ drop (length fs) z, off + len w).
Proof.
  intros Hw. revert pre z off. induction Hw as [|f fs e w He Hw IH]; intros pre z off Hd Hz Hc; simpl.
  - do 2 f_equal. lens.
  - destruct z as [|x z]; [simpl in Hz; lia|]. rewrite <- app_assoc in Hc.
    destruct (get_varint_step _ _ _ _ _ He Hc) as [-> Hc']. cbn [res_bind].
    rewrite sub_prefix. cbn [res_bind]. simpl in Hd.
    case_match eqn:Eg; [done|]. cbn [negb]. rewrite write_at_next. cbn [res_bind].
    replace (len pre + 1) with (len (pre ++ [f])) by lens.
    rewrite IH; [|done|simpl in Hz; lia|done]. rewrite <- app_assoc. do 2 f_equal. lens.
Qed.

Lemma r2_read_dict_inv n pre z off r fl off' : bytes_ok b -> (n <= length z)%nat ->
  cursor b off r -> read_dict b n (len pre) (pre ++ z) off = Ok (fl, off') ->
  exists fs w rest, r = w ++ rest /\ ids_wire fs w /\ length fs = n /\
    distinct_ids pre fs = true /\ fl = pre ++ fs ++ drop n z /\
    off' = off + len w /\ cursor b off' rest.
Proof.
  intros Hb. revert pre z off r. induction n as [|n IH]; intros pre z off r Hz Hc H; simpl in H.
  - injection H as <- <-. exists [], [], r.
    split_and!; [done | constructor | done | done | done | lens | done].
  - destruct z as [|x z]; [simpl in Hz; lia|]. apply res_bind_ok in H as ([f o] & Hg & H).
    destruct (get_varint_inv _ _ _ _ _ Hb Hc Hg) as (e & r' & -> & He & -> & Hc').
    rewrite sub_prefix in H. cbn [res_bind] in H. apply guard_ok in H as [Hd H].
    rewrite write_at_next in H. cbn [res_bind] in H.
    replace (len pre + 1) with (len (pre ++ [f])) in H by lens.
    apply (IH _ _ _ r') in H as (fs & w & rest & -> & Hw & <- & Hds & -> & -> & Hr);
      [|simpl in Hz; lia|done].
    exists (f :: fs), (e ++ w), rest. rewrite <- !app_assoc.
    split_and!; [done|by constructor|done| |done|lens|].
    + simpl. by case_match.
    + by replace (off + len (e ++ w)) with (off + len e + len w) by lens.
Qed.

Lemma r2_read_dict_no_panic n pre z off : (n <= length z)%nat ->
  read_dict b n (len pre) (pre ++ z) off <> Panic.
Proof.
  revert pre z off. induction n as [|n IH]; intros pre z off Hz; simpl; [done|].
  destruct z as [|x z]; [simpl in Hz; lia|].
  apply res_bind_no_panic; [by apply get_varint_no_panic|]. intros [f o] Hg.
  rewrite sub_prefix. cbn [res_bind].
  apply guard_no_panic. intros _. rewrite write_at_next. cbn [res_bind].
  replace (len pre + 1) with (len (pre ++ [f])) by lens. apply IH. simpl in Hz; lia.
Qed.
End Dict.

(* ------------------------------------------------------------------ *)
(** ** Trains as one specification *)

Inductive Train : Type :=
| TSame (id : Z) (payloads : list bytes)
| TDict (flows : list Z) (its : list (Z * bytes)).

Definition train_encode (t : Train) (limit : Z) : res unit bytes :=
  match t with
  | TSame id ps => encode_train_same id ps limit
  | TDict fs its => encode_train_dict fs its limit
  end.

Definition train_wf (t : Train) : Prop :=
  match t with
  | TSame id _ => is_u32 id
  | TDict fs its => Forall is_u32 fs /\ Forall (fun it => is_u8 it.1) its
  end.

Definition train_items (t : Train) : list (Z * bytes) :=
  match t with
  | TSame id ps => map (fun p => (id, p)) ps
  | TDict fs its => map (fun it => (default 0 (get fs it.1), it.2)) its
  end.

Definition train_flows (t : Train) : list Z :=
  match t with TSame id _ => [id] | TDict fs _ => fs end.

Definition train_form (t : Train) : Z :=
  match t with TSame _ _ => R2_TRAIN_FORM_SAME | TDict _ _ => R2_TRAIN_FORM_DICT end.

Definition train_header (t : Train) (fw : bytes) : bytes :=
  match t with
  | TSame id ps => [R2_TRAIN; R2_TRAIN_FORM_SAME; len ps] ++ fw
  | TDict fs its => [R2_TRAIN; R2_TRAIN_FORM_DICT; len its; len fs] ++ fw
  end.

Definition padded (fs : list Z) : list Z := fs ++ replicate (64 - length fs) 0.

Definition train_frame (t : Train) (w : bytes) : TrainFrame :=
  mkTrainFrame (train_form t) (len (train_items t)) (len (train_flows t)) (padded (train_flows t)) w.

(** [fw] holds the dictionary and [w] the items of [t]. *)
Definition train_wire (t : Train) (fw w : bytes) : Prop :=
  1 <= len (train_items t) <= R2_MAX_TRAIN_ITEMS /\
  1 <= len (train_flows t) <= len (train_items t) /\
  distinct_ids [] (train_flows t) = true /\ ids_wire (train_flows t) fw /\
  items_wire (len (train_flows t)) (padded (train_flows t)) (train_form t) (train_items t) w.

Lemma r2_valid_train_count_ok n u : 0 <= n -> valid_train_count n = Some u <-> 1 <= n <= R2_MAX_TRAIN_ITEMS.
Proof. unfold valid_train_count. destruct u. case_match; naive_solver lia. Qed.

(** The totals bound the payloads they count. *)
Lemma same_total_bound total ps total' : 0 <= total -> same_total total ps = Some total' ->
  total <= total' /\ Forall (fun p : bytes => len p <= total') ps.
Proof.
  revert total. induction ps as [|p ps IH]; intros total Ht H; simpl in H.
  - injection H as <-. split; [lia | constructor].
  - opt_inv. assert (Hv : 1 <= varint_len (as_u32 (len p))).
    { destruct (put_varint_spec (as_u32 (len p))) as (e & He%varint_enc_bound & _ & <- & _); [umod | lia]. }
    pose proof (len_nonneg p). apply IH in H as [? ?]; [|lia]. split; [lia | constructor; [lia | done]].
Qed.

Lemma dict_total_bound total its total' : 0 <= total -> dict_items_total total its = Some total' ->
  total <= total' /\ Forall (fun it : Z * bytes => len it.2 <= total') its.
Proof.
  revert total. induction its as [|[i p] its IH]; intros total Ht H; simpl in H.
  - injection H as <-. split; [lia | constructor].
  - opt_inv. assert (Hv : 1 <= varint_len (as_u32 (len p))).
    { destruct (put_varint_spec (as_u32 (len p))) as (e & He%varint_enc_bound & _ & <- & _); [umod | lia]. }
    pose proof (len_nonneg p). apply IH in H as [? ?]; [|lia]. split; [lia | constructor; [simpl; lia | done]].
Qed.

Lemma flows_total fs total total' : Forall is_u32 fs -> dict_flows_total total fs = Some total' ->
  exists w, ids_wire fs w /\ total' = total + len w /\ (forall v, fold_left put_varint fs v = v ++ w).
Proof.
  intros Hu. revert total. induction Hu as [|f fs Hf Hu IH]; intros total H; simpl in H.
  - injection H as <-. exists []. split_and!; [constructor | lens | intros; simpl; by rewrite app_nil_r].
  - opt_inv. destruct (put_varint_spec f Hf) as (e & He & _ & Hl & Hput & _).
    apply IH in H as (w & Hw & -> & Hv). exists (e ++ w). split_and!; [by constructor | lens|].
    intros v. simpl. by rewrite Hput, Hv, app_assoc.
Qed.

Lemma r2_put_same_wire nfl fl id ps total total' : get fl 0 = Some id -> 0 <= total ->
  same_total total ps = Some total' -> total' < 2 ^ 32 -> exists w, total' = total + len w /\
    (forall v, fold_left (fun v p => put_varint v (as_u32 (len p)) ++ p) ps v = v ++ w) /\
    items_wire nfl fl R2_TRAIN_FORM_SAME (map (fun p => (id, p)) ps) w.
Proof.
  intros Hf. revert total. induction ps as [|p ps IH]; intros total Ht H Hl; simpl in *.
  - injection H as <-. exists []. split_and!; [lens | intros; by rewrite app_nil_r | constructor].
  - opt_inv. pose proof (len_nonneg p).
    destruct (put_varint_spec (as_u32 (len p))) as (e & He & _ & Hlen & Hput & _); [umod|].
    pose proof (varint_enc_bound _ _ He) as [_ Hb].
    rewrite <- Hlen in *. apply same_total_bound in H as Hle; [|lia]. destruct Hle as [Hle _].
    assert (Eu : as_u32 (len p) = len p) by (unfold as_u32; apply Z.mod_small; lia).
    rewrite Eu in He. edestruct IH as (w & -> & Hv & Hw); [|exact H|exact Hl|]; [lia|].
    exists ((e ++ p) ++ w). split_and!; [lens | | by constructor; [constructor|]].
    intros v. rewrite Hput, Hv. by rewrite <- !app_assoc.
Qed.

Lemma r2_put_dict_wire fl fs its total total' :
  (forall i, 0 <= i < len fs -> get fl i = get fs i) -> 0 <= total ->
  Forall (fun it => is_u8 it.1) its -> existsb (fun it => it.1 >=? len fs) its = false ->
  dict_items_total total its = Some total' -> total' < 2 ^ 32 -> exists w, total' = total + len w /\
    (forall v, fold_left (fun v it => put_varint (v ++ [it.1]) (as_u32 (len it.2)) ++ it.2) its v = v ++ w) /\
    items_wire (len fs) fl R2_TRAIN_FORM_DICT
      (map (fun it => (default 0 (get fs it.1), it.2)) its) w.
Proof.
  intros Hf Ht Hu. revert total Ht. induction Hu as [|[i p] its Hi Hu IH]; intros total Ht Hx H Hl; simpl in *.
  - injection H as <-. exists []. split_and!; [lens | intros; by rewrite app_nil_r | constructor].
  - apply orb_false_iff in Hx as [Hx Hx']. opt_inv. pose proof (len_nonneg p).
    destruct (put_varint_spec (as_u32 (len p))) as (e & He & _ & Hlen & Hput & _); [umod|].
    pose proof (varint_enc_bound _ _ He) as [_ Hb].
    rewrite <- Hlen in *. apply dict_total_bound in H as Hle; [|lia]. destruct Hle as [Hle _].
    assert (Eu : as_u32 (len p) = len p) by (unfold as_u32; apply Z.mod_small; lia).
    rewrite Eu in He. edestruct IH as (w & -> & Hv & Hw); [|exact Hx'|exact H|exact Hl|]; [lia|].
    exists ((i :: e ++ p) ++ w). split_and!; [lens | |].
    + intros v. rewrite Hput, Hv. cbn [app]. by rewrite <- !app_assoc.
    + constructor; [|done]. constructor; [ulia| |done].
      rewrite Hf by ulia. destruct (get fs i) eqn:Eg; [done|].
      apply lookup_ge_None in Eg. exfalso. unfold len in *. ulia.
Qed.

(** What an encoder writes is the header and the items of its train. *)
Lemma r2_train_encode_wire t limit b : train_wf t -> limit < 2 ^ 32 -> train_encode t limit = Ok b ->
  exists fw w, b = train_header t fw ++ w /\ train_wire t fw w /\ len b <= limit.
Proof.
  unfold train_wire, padded. destruct t as [id ps|fs its];
    cbn [train_encode train_wf train_header train_items train_flows train_form];
    intros Hwf Hlim H.
  - unfold encode_train_same in H. res_inv. unfold train_same_len in H0. opt_inv. bools.
    apply r2_valid_train_count_ok in E; [|lens]. zbool. rewrite negb_true_iff, negb_false_iff in *. zbool.
    destruct (put_varint_spec id Hwf) as (ve & Hv & _ & Hl & Hput & _).
    pose proof (varint_enc_bound _ _ Hv) as [_ Hvl].
    destruct (r2_put_same_wire 1 ([id] ++ replicate 63 0) id ps _ v eq_refl (ltac:(lia) : 0 <= 3 + varint_len id)
      H0) as (w & Et & Hw & Hi); [lia|].
    rewrite Hput, Hw in H. subst b. exists ve, w. unfold R2_MAX_TRAIN_ITEMS in *. rewrite len_map.
    rewrite as_u8_small in * by lens. split; [simpl; by rewrite <- ?app_assoc|]. split; [|lens].
    split_and!; try done; [lens..|by simpl; rewrite E0|].
    rewrite <- (app_nil_r ve). constructor; [done | constructor].
  - unfold encode_train_dict in H. res_inv. unfold train_dict_len in H0. opt_inv. bools.
    apply r2_valid_train_count_ok in E; [|lens]. unfold valid_train_flows in E0. opt_inv.
    rewrite negb_true_iff, negb_false_iff, !orb_false_iff in *. destruct_and?. zbool.
    destruct (flows_total fs _ _ ltac:(done) E1) as (fw & Hfw & -> & Hfold).
    destruct (r2_put_dict_wire (fs ++ replicate (64 - length fs) 0) fs its (4 + len fw) v)
      as (w & Et & Hw & Hi); try done; [by intros; apply get_padded | lens | lia|].
    rewrite Hfold, Hw in H. subst b. exists fw, w. unfold R2_MAX_TRAIN_ITEMS in *. rewrite len_map.
    rewrite !as_u8_small in * by lens. split; [simpl; by rewrite <- ?app_assoc|].
    split; [|lens]. split_and!; auto; lens.
Qed.

Lemma r2_decode_train_wire t fw w : train_wire t fw w ->
  len (train_header t fw ++ w) <= usize_max ->
  decode_train (train_header t fw ++ w) = Ok (train_frame t w).
Proof.
  intros (Hn & Hnf & Hd & Hfw & Hi) Hl. unfold R2_MAX_TRAIN_ITEMS in Hn.
  remember (train_header t fw ++ w) as b eqn:Eb. pose proof (cursor_start b) as Hc. rewrite Eb in Hc at 2.
  assert (Hcount : valid_train_count (len (train_items t)) = Some tt)
    by (apply r2_valid_train_count_ok; [lens | done]).
  unfold decode_train. rewrite (bool_decide_eq_true_2 (first b = _)) by (subst b; by destruct t).
  unfold train_frame. clear Eb.
  destruct t as [id ps|fs its]; cbn [train_form train_items train_flows train_header app] in *;
    rewrite ?len_map in *; next Hc; rewrite (cursor_get _ _ _ _ Hc); cbn [ok_or res_bind]; next Hc;
    rewrite (cursor_get _ _ _ _ Hc); cbn [ok_or res_bind]; rewrite Hcount; cbn [ok_or res_bind]; next Hc;
    unfold decode_train_flows.
  - inversion Hfw as [|? ? e w' He Hnil]; subst. inversion Hnil; subst. rewrite app_nil_r in Hc.
    cbn [Z.eqb R2_TRAIN_FORM_SAME]. step_varint Hc. apply distinct_ids_spec in Hd as [Hv _].
    apply Forall_cons_iff in Hv as [-> _]. cbn [negb].
    change (write_at no_flows 0 [id]) with (@Ok MqpError _ (padded [id])). cbn [res_bind].
    pose proof (cursor_bounds _ _ _ Hc). rewrite <- (app_nil_r w) in Hc.
    change (len [id]) with 1 in *. rewrite len_to_nat, <- (length_map (fun p => (id, p)) ps).
    rewrite (walk_items_wire _ _ _ _ _ _ _ _ Hl Hi Hc). cbn [res_bind].
    replace (_ =? len b) with true by lia. cbn [negb].
    rewrite app_nil_r in Hc. by rewrite (sub_from_cursor _ _ _ Hc).
  - change (R2_TRAIN_FORM_DICT =? R2_TRAIN_FORM_SAME) with false.
    change (R2_TRAIN_FORM_DICT =? R2_TRAIN_FORM_DICT) with true. cbv iota.
    rewrite (cursor_get _ _ _ _ Hc). cbn [ok_or res_bind]. next Hc.
    unfold R2_MAX_TRAIN_ITEMS. replace (negb _) with true by (symmetry; lens).
    rewrite len_to_nat. change (3 + 1) with 4.
    assert (Hz : (length fs <= length no_flows)%nat)
      by (change (length no_flows) with 64%nat; unfold len in *; lia).
    rewrite (r2_read_dict_wire b fs fw [] no_flows 4 w Hfw Hd Hz Hc : read_dict _ _ 0 no_flows 4 = _).
    cbn [res_bind app]. apply cursor_app in Hc.
    replace (fs ++ drop (length fs) no_flows) with (padded fs)
      by (unfold padded, no_flows; by rewrite drop_replicate).
    pose proof (cursor_bounds _ _ _ Hc). rewrite <- (app_nil_r w) in Hc.
    rewrite len_to_nat, <- (length_map (fun it => (default 0 (get fs it.1), it.2)) its).
    rewrite (walk_items_wire _ _ _ _ _ _ _ _ Hl Hi Hc). cbn [res_bind].
    replace (_ =? len b) with true by lia. cbn [negb].
    rewrite app_nil_r in Hc. rewrite (sub_from_cursor _ _ _ Hc). cbn [res_bind].
    by rewrite as_u8_small by ulia.
Qed.

(** An accepted frame: its items are well formed over its dictionary. *)
Lemma r2_decode_train_inv b d : bytes_ok b -> decode_train b = Ok d -> exists fs its w,
  d = mkTrainFrame (tf_form d) (len its) (len fs) (padded fs) w /\
  1 <= len its <= R2_MAX_TRAIN_ITEMS /\ 1 <= len fs /\ distinct_ids [] fs = true /\
  items_wire (len fs) (padded fs) (tf_form d) its w /\ len w <= len b.
Proof.
  intros Hb Hd. unfold decode_train in Hd. apply guard_ok in Hd as [Hk Hd].
  apply bool_decide_eq_true in Hk. apply first_cursor in Hk as (r & _ & Hc).
  apply res_bind_ok in Hd as (form & Hf & Hd). apply (proj1 (ok_or_ok _ _ _)) in Hf.
  destruct (cursor_get_inv _ _ _ _ _ Hc Hf eq_refl) as (r1 & -> & Hc1).
  apply res_bind_ok in Hd as (count & Hn & Hd). apply (proj1 (ok_or_ok _ _ _)) in Hn.
  destruct (cursor_get_inv _ _ _ _ _ Hc1 Hn eq_refl) as (r2 & -> & Hc2).
  pose proof (cursor_bytes_ok _ _ _ Hb Hc1) as [Hcu _]%bytes_ok_cons.
  apply res_bind_ok in Hd as (u & Hu & Hd). apply (proj1 (ok_or_ok _ _ _)) in Hu.
  apply r2_valid_train_count_ok in Hu; [|ulia]. change (1 + 1 + 1) with 3 in Hc2. clear Hf Hn Hc Hc1.
  apply res_bind_ok in Hd as ([[fl nfl] off] & Hfl & Hd).
  assert (exists fs rest, fl = padded fs /\ nfl = len fs /\ 1 <= len fs <= 64 /\ distinct_ids [] fs = true /\
    cursor b off rest /\ (form = R2_TRAIN_FORM_SAME \/ form = R2_TRAIN_FORM_DICT))
    as (fs & rest & -> & -> & Hnf & Hdi & Hcr & Hform).
  { unfold decode_train_flows in Hfl. revert Hfl.
    case_match eqn:Es; [|case_match eqn:Ed; [|done]]; zbool; intros Hfl; clear Hd; res_inv; simplify_eq.
    - match goal with H : write_at no_flows 0 [?z] = Ok _ |- _ =>
        change (write_at no_flows 0 [z]) with (@Ok MqpError _ (padded [z])) in H; injection H as <- end.
      inv_varint Hb Hc2. exists [z]. eexists. split_and!; [done..| | |exact Hc2|by left].
      + change (len [z]) with 1. lia.
      + bools. simpl. by rewrite H0.
    - destruct (cursor_get_inv _ _ _ _ _ Hc2 H eq_refl) as (r3 & -> & Hc3).
      pose proof (cursor_bytes_ok _ _ _ Hb Hc2) as [? _]%bytes_ok_cons.
      unfold R2_MAX_TRAIN_ITEMS in *. assert (Hvv : 1 <= nfl <= 64) by ulia.
      destruct (r2_read_dict_inv b (Z.to_nat nfl) [] no_flows 4 r3 fl off Hb) as
        (fs & fw & r4 & -> & Hfw & Hlen & Hd1 & -> & -> & Hc4);
        [change (length no_flows) with 64%nat; lia | done.. |].
      exists fs, r4. assert (Hl : len fs = nfl) by (unfold len; lia).
      split_and!; [| lia.. | done | done | by right].
      unfold padded, no_flows. rewrite drop_replicate, Hlen. done. }
  clear Hfl. res_inv. simplify_eq. rewrite (cursor_slice_from _ _ _ Hcr) in H1. injection H1 as <-.
  assert (Hget : forall i, 0 <= i < len fs -> is_Some (get (padded fs) i)).
  { intros i Hi. unfold padded. rewrite get_padded by done. apply lookup_lt_is_Some_2. unfold len in *. lia. }
  destruct (walk_items_inv b (len fs) (padded fs) form (Z.to_nat count) off v rest Hb) as
    (its & w & r5 & -> & Hw & Hlen & ->); [|done..|].
  { destruct Hform as [->| ->]; [left; split; [done | apply Hget; lia] | right; done]. }
  pose proof (cursor_bounds _ _ _ Hcr). destruct r5; [|exfalso; bools; zbool; lens].
  rewrite app_nil_r in *. exists fs, its, w. cbn [tf_form].
  assert (Hits : len its = count) by (unfold len; lia).
  split_and!; [| lia.. | done | done | lia]. rewrite as_u8_small by ulia. by rewrite Hits.
Qed.

Lemma decode_train_flows_no_panic b form count off : bytes_ok b -> 0 <= off ->
  decode_train_flows b form count off <> Panic.
Proof.
  intros Hb Ho. unfold decode_train_flows. repeat np_step.
  apply (r2_read_dict_no_panic b _ [] no_flows).
  change (length no_flows) with 64%nat. unfold R2_MAX_TRAIN_ITEMS in *. lia.
Qed.

Lemma decode_train_flows_bound b form count off fl nfl off' : bytes_ok b -> 0 <= off <= len b ->
  decode_train_flows b form count off = Ok (fl, nfl, off') -> 0 <= off' <= len b.
Proof.
  intros Hb Ho H. unfold decode_train_flows in H. repeat case_match; res_inv; simplify_eq.
  - repeat np_learn. lia.
  - repeat np_learn. unfold R2_MAX_TRAIN_ITEMS in *.
    assert (Hz : (Z.to_nat nfl <= length no_flows)%nat) by (change (length no_flows) with 64%nat; lia).
    match goal with H : read_dict _ _ _ _ _ = Ok _ |- _ =>
      destruct (r2_read_dict_inv b _ [] no_flows (off + 1) _ _ _ Hb Hz (cursor_exists b (off + 1) ltac:(lia)) H)
        as (fs & w & r & _ & _ & _ & _ & _ & _ & Hc%cursor_bounds) end. lens.
Qed.

Lemma r2_decode_train_no_panic b : bytes_ok b -> decode_train b <> Panic.
Proof.
  intros Hb. unfold decode_train. repeat np_step.
  - by apply decode_train_flows_no_panic.
  - apply decode_train_flows_bound in H3; [|done|lia]. apply walk_items_no_panic; [done | lia].
  - apply decode_train_flows_bound in H3; [|done|lia]. apply sub_from_no_panic. lia.
Qed.

Lemma collect_wire fs its w form count : items_wire (len fs) (padded fs) form its w -> len w <= usize_max ->
  let t := mkTrainFrame form count (len fs) (padded fs) w in
  collect t = Ok (its, with_items (items t) []).
Proof.
  intros Hw Hl. simpl. apply (r2_drain_wire _ _ w); try done.
  apply items_wire_count in Hw. simpl. unfold len in *. lia.
Qed.

Lemma item_wire_flow fs form its w : items_wire (len fs) (padded fs) form its w -> 1 <= len fs ->
  Forall (fun it => it.1 ∈ fs) its.
Proof.
  intros Hw Hn. induction Hw as [|it its w ws Hit Hw IH]; constructor; [|done].
  inversion Hit as [id p e Hf He|id p e i Hi Hf He]; subst; simpl;
    unfold padded in Hf; rewrite get_padded in Hf by lia; by eapply list_elem_of_lookup_2.
Qed.

(* ------------------------------------------------------------------ *)
(** ** Claims *)

(** A rev2 train that an encoder produced ([SAME] or [DICT]) fits its
    limit, is accepted by the decoder, and the iterator yields exactly the
    packets that went in, in order and with their flows, and then stops.  The
    limit stands below 2^32, above which a packet length does not fit the
    [u32] it is written as. *)
Theorem r2_train_roundtrip t limit b :
  train_wf t -> limit < 2 ^ 32 -> train_encode t limit = Ok b ->
  len b <= limit /\ kind b = Some R2.Train /\ exists fr s, decode_train b = Ok fr /\
    collect fr = Ok (train_items t, s) /\ tf_count fr = len (train_items t) /\
    ti_items s = [] /\ next s = Ok (None, s).
Proof.
  intros Hwf Hl (fw & w & -> & Ht & Hb)%r2_train_encode_wire; [|done..].
  split; [done|]. split; [by destruct t|]. rewrite (r2_decode_train_wire _ _ _ Ht) by ulia.
  destruct Ht as (_ & _ & _ & _ & Hi). unfold train_frame.
  eexists _, _. split_and!; [done | apply collect_wire; [done | lens] | done..].
Qed.

Lemma r2_train_roundtrip_witness :
  let b := [4; 1; 3; 2; 5; 0xAC; 2; 0; 2; 7; 8; 1; 0; 0; 1; 9] in
  len b <= 1200 /\ kind b = Some R2.Train /\ exists fr s, decode_train b = Ok fr /\
    collect fr = Ok ([(5, [7; 8]); (300, []); (5, [9])], s) /\ tf_count fr = 3 /\
    ti_items s = [] /\ next s = Ok (None, s).
Proof.
  apply (r2_train_roundtrip (TDict [5; 300] [(0, [7; 8]); (1, []); (0, [9])]) 1200).
  - split; repeat constructor; concrete.
  - concrete.
  - reflexivity.
Defined.

(** The rev2 train decoder is safe on every byte string.  It does not
    panic; and if it accepts, the iterator does not panic either, yields
    exactly the announced number of packets, between 1 and 64, each for a
    nonzero id of the frame's dictionary, and uses up every byte. *)
Theorem r2_train_decode_safe b :
  bytes_ok b -> len b <= isize_max ->
  decode_train b <> Panic /\
  forall fr, decode_train b = Ok fr -> exists its s fs,
    collect fr = Ok (its, s) /\ len its = tf_count fr /\ 1 <= len its <= R2_MAX_TRAIN_ITEMS /\
    ti_items s = [] /\ NoDup fs /\ Forall (fun f => valid_wire_id f = true) fs /\
    Forall (fun it => it.1 ∈ fs) its.
Proof.
  intros Hb Hl. split; [by apply r2_decode_train_no_panic|]. intros fr Hd.
  destruct (r2_decode_train_inv b fr Hb Hd) as (fs & its & w & Efr & Hn & Hnf & Hdi & Hi & Hw).
  apply distinct_ids_spec in Hdi as (Hv & Hnd & _).
  assert (Hc := collect_wire fs its w (tf_form fr) (len its) Hi ltac:(ulia)). simpl in Hc.
  rewrite <- Efr in Hc. eexists its, _, fs. split_and!;
    [exact Hc | by rewrite Efr | lia | lia | done..|].
  by apply (item_wire_flow _ _ _ _ Hi).
Qed.

Lemma r2_train_decode_safe_witness :
  let b := [4; 0; 2; 5; 1; 7; 0x81; 0; 8] in
  decode_train b <> Panic /\
  forall fr, decode_train b = Ok fr -> exists its s fs,
    collect fr = Ok (its, s) /\ len its = tf_count fr /\ 1 <= len its <= R2_MAX_TRAIN_ITEMS /\
    ti_items s = [] /\ NoDup fs /\ Forall (fun f => valid_wire_id f = true) fs /\
    Forall (fun it => it.1 ∈ fs) its.
Proof. apply (r2_train_decode_safe [4; 0; 2; 5; 1; 7; 0x81; 0; 8]); concrete. Defined.
