(* ===== verification/Wire.v ===== *)
(** The revision adapter of [src/mqp/wire.rs]: one revision-neutral identity
    (the rev2-style wire id), the bijection between wire ids and rev3 flow ids,
    and the encode and decode wrappers that the endpoints call.  What the
    layers above rely on, whichever revision is configured, is the class
    [WireCodec]; both revisions are instances. *)
From S2P Require Import Prelude Addr Codec R3 R3Train R2 R2Train.

Definition DEFAULT_REV : Z := 3.

Inductive Wire : Type := Rev2 | Rev3.

#[export] Instance Wire_eq_dec : EqDecision Wire.
Proof. solve_decision. Defined.

Definition rev (w : Wire) : Z := match w with Rev2 => 2 | Rev3 => 3 end.

Definition from_rev (rev : Z) : option Wire :=
  if rev =? 2 then Some Rev2 else if rev =? 3 then Some Rev3 else None.

Definition caps (w : Wire) : R2.Caps :=
  let d := R2.Caps_default in
  R2.mkCaps (rev w) (R2.caps_flags d) (R2.max_conn_flows d) (R2.max_flows_sess d)
    (R2.max_train_items d) (R2.max_frame_bytes d) (R2.max_reassembly d).

(** [validate_config]: whether the configured revision exists. *)
Definition validate_config (r : option Z) : bool :=
  bool_decide (is_Some (from_rev (default DEFAULT_REV r))).

(* ------------------------------------------------------------------ *)
(** ** Wire ids and rev3 flow ids *)

Definition MAX_R3_LOCAL_ID : Z := R3.FIDS_PER_OWNER.

Definition fid_for (wire_id : Z) : option Z :=
  if wire_id =? 0 then None else
  let local := Z.shiftr wire_id 1 in
  if (local =? 0) || (local >? MAX_R3_LOCAL_ID) then None else
  let base := if Z.land wire_id 1 =? 0 then 0 else R3.SERVER_FID_BASE in
  Some (base + (as_u16 local - 1)).

Definition wire_id_for_fid (fid : Z) : option Z :=
  '(owner, local) ←
    (if fid <=? R3.CLIENT_FID_MAX then Some (0, fid + 1)
     else if (R3.SERVER_FID_BASE <=? fid) && (fid <=? R3.FID_MAX)
     then Some (1, fid - R3.SERVER_FID_BASE + 1)
     else None);
  Some (Z.lor (as_u32 (Z.shiftl local 1)) owner).

Definition wire_id_server_owned (wire_id : Z) : bool := negb (Z.land wire_id 1 =? 0).

(* ------------------------------------------------------------------ *)
(** ** Classification *)

Inductive FrameKind : Type := KData | KTrain | KFrag | KCtl.

#[export] Instance FrameKind_eq_dec : EqDecision FrameKind.
Proof. solve_decision. Defined.

Definition kind (w : Wire) (b : bytes) : option FrameKind :=
  match w with
  | Rev2 =>
      k ← R2.kind b;
      Some match k with
           | R2.Data => KData
           | R2.Train => KTrain
           | R2.Frag => KFrag
           | R2.Ctl_ => KCtl
           end
  | Rev3 =>
      k ← R3.kind b;
      Some match k with
           | R3.Data | R3.DataExt => KData
           | R3.Train => KTrain
           | R3.Frag => KFrag
           end
  end.

(* ------------------------------------------------------------------ *)
(** ** Encoders *)

Definition encode_data_steady (w : Wire) (wire_id : Z) (payload : bytes) (limit : Z)
    : res unit bytes :=
  match w with
  | Rev2 => R2.encode_data_steady wire_id payload limit
  | Rev3 => let! fid := of_option (fid_for wire_id) in R3.encode_data_steady fid payload limit
  end.

Definition encode_data_open (w : Wire) (wire_id sess : Z) (addr : TargetAddr) (src : bool)
    (payload : bytes) (limit : Z) : res unit bytes :=
  match w with
  | Rev2 => R2.encode_data_open wire_id sess addr src payload limit
  | Rev3 =>
      let! fid := of_option (fid_for wire_id) in
      if src && negb (wire_id_server_owned wire_id)
      then R3.encode_data_src fid addr payload limit
      else R3.encode_data_open fid sess addr src payload limit
  end.

Definition encode_data_inline (w : Wire) (sess : Z) (addr : TargetAddr) (src : bool)
    (payload : bytes) (limit : Z) : res unit bytes :=
  match w with
  | Rev2 => R2.encode_data_inline sess addr src payload limit
  | Rev3 => R3.encode_data_inline sess addr payload limit
  end.

Definition encode_train_same (w : Wire) (wire_id : Z) (payloads : list bytes) (limit : Z)
    : res unit bytes :=
  match w with
  | Rev2 => R2Train.encode_train_same wire_id payloads limit
  | Rev3 => let! fid := of_option (fid_for wire_id) in R3Train.encode_train_same fid payloads limit
  end.

Definition encode_train_same_equal (w : Wire) (wire_id : Z) (payloads : list bytes) (limit : Z)
    : res unit bytes :=
  match w with
  | Rev2 => R2Train.encode_train_same wire_id payloads limit
  | Rev3 =>
      let! fid := of_option (fid_for wire_id) in R3Train.encode_train_same_equal fid payloads limit
  end.

(** The rev3 dictionary maps every id, or gives up. *)
Definition encode_train_dict (w : Wire) (flows : list Z) (items : list (Z * bytes)) (limit : Z)
    : res unit bytes :=
  match w with
  | Rev2 => R2Train.encode_train_dict flows items limit
  | Rev3 =>
      guard! negb (len flows >? R3Train.MAX_TRAIN_ITEMS) else tt in
      let! fids := of_option (mapM fid_for flows) in
      R3Train.encode_train_dict fids items limit
  end.

Definition encode_frag_steady (w : Wire) (wire_id frag_id idx total : Z) (chunk : bytes)
    (limit : Z) : res unit bytes :=
  match w with
  | Rev2 => R2.encode_frag_steady wire_id frag_id idx total chunk limit
  | Rev3 =>
      let! fid := of_option (fid_for wire_id) in
      R3.encode_frag_steady fid frag_id idx total chunk limit
  end.

Definition encode_frag_open (w : Wire) (wire_id sess : Z) (addr : TargetAddr) (src : bool)
    (frag_id idx total : Z) (chunk : bytes) (limit : Z) : res unit bytes :=
  match w with
  | Rev2 => R2.encode_frag_open wire_id sess addr src frag_id idx total chunk limit
  | Rev3 =>
      let! fid := of_option (fid_for wire_id) in
      if src && negb (wire_id_server_owned wire_id)
      then R3.encode_frag_src fid addr frag_id idx total chunk limit
      else R3.encode_frag_open fid sess addr src frag_id idx total chunk limit
  end.

Definition encode_frag_inline (w : Wire) (sess : Z) (addr : TargetAddr) (src : bool)
    (frag_id idx total : Z) (chunk : bytes) (limit : Z) : res unit bytes :=
  match w with
  | Rev2 => R2.encode_frag_inline sess addr src frag_id idx total chunk limit
  | Rev3 => R3.encode_frag_inline sess addr frag_id idx total chunk limit
  end.

Definition encode_ctl_datagram (w : Wire) (c : R2.Ctl) : option bytes :=
  match w with
  | Rev2 => Some (R2.encode_ctl c)
  | Rev3 => None
  end.

(* ------------------------------------------------------------------ *)
(** ** Decoders *)

Record DataView : Type := mkDataView {
  dv_wire_id : option Z;
  dv_sess : option Z;
  dv_addr : option TargetAddr;
  dv_src : bool;
  dv_payload : bytes
}.

Definition DataView_from_rev2 (d : R2.DataRef) : DataView :=
  mkDataView (R2.d_id d) (R2.d_sess d) (R2.d_addr d) (R2.d_src d) (R2.d_payload d).

(** [Some(fid) => Some(wire_id_for_fid(fid).ok_or(..)?), None => None]. *)
Definition wire_id_of (fid : option Z) (bad : string) : res MqpError (option Z) :=
  match fid with
  | Some fid => let! id := ok_or (wire_id_for_fid fid) (Malformed bad) in Ok (Some id)
  | None => Ok None
  end.

Definition DataView_try_from_rev3 (d : R3.DataRef) : res MqpError DataView :=
  let! wire_id := wire_id_of (R3.d_fid d) "r3 data fid out of range" in
  Ok (mkDataView wire_id (R3.d_sess d) (R3.d_addr d) (R3.d_src d) (R3.d_payload d)).

Definition decode_data (w : Wire) (b : bytes) : res MqpError DataView :=
  match w with
  | Rev2 => let! d := R2.decode_data b in Ok (DataView_from_rev2 d)
  | Rev3 => let! d := R3.decode_data b in DataView_try_from_rev3 d
  end.

Inductive TrainView : Type :=
| TrainRev2 (t : R2Train.TrainFrame)
| TrainRev3 (t : R3Train.TrainFrame).

Inductive TrainItemIter : Type :=
| IterRev2 (it : R2Train.TrainItems)
| IterRev3 (it : R3Train.TrainItems).

Definition items (t : TrainView) : TrainItemIter :=
  match t with
  | TrainRev2 t => IterRev2 (R2Train.items t)
  | TrainRev3 t => IterRev3 (R3Train.items t)
  end.

Definition count (t : TrainView) : Z :=
  match t with TrainRev2 t => R2Train.tf_count t | TrainRev3 t => R3Train.tf_count t end.

(** [TrainItemIter::next]; a rev3 item whose id cannot be mapped ends the
    iteration. *)
Definition next (it : TrainItemIter) : res unit (option (Z * bytes) * TrainItemIter) :=
  match it with
  | IterRev2 it => let! '(o, it) := R2Train.next it in Ok (o, IterRev2 it)
  | IterRev3 it =>
      let! '(o, it) := R3Train.next it in
      Ok ('(fid, payload) ← o; id ← wire_id_for_fid fid; Some (id, payload), IterRev3 it)
  end.

Definition decode_train (w : Wire) (b : bytes) : res MqpError TrainView :=
  match w with
  | Rev2 => let! t := R2Train.decode_train b in Ok (TrainRev2 t)
  | Rev3 => let! t := R3Train.decode_train b in Ok (TrainRev3 t)
  end.

Record FragView : Type := mkFragView {
  fv_wire_id : option Z;
  fv_sess : option Z;
  fv_addr : option TargetAddr;
  fv_src : bool;
  fv_frag_id : Z;
  fv_idx : Z;
  fv_total : Z;
  fv_chunk_off : Z;
  fv_chunk : bytes
}.

Definition FragView_from_rev2 (f : R2.FragRef) : FragView :=
  mkFragView (R2.f_id f) (R2.f_sess f) (R2.f_addr f) (R2.f_src f) (R2.f_frag_id f)
    (R2.f_idx f) (R2.f_total f) (R2.f_chunk_off f) (R2.f_chunk f).

Definition FragView_try_from_rev3 (f : R3.FragRef) : res MqpError FragView :=
  let! wire_id := wire_id_of (R3.f_fid f) "r3 frag fid out of range" in
  Ok (mkFragView wire_id (R3.f_sess f) (R3.f_addr f) (R3.f_src f) (R3.f_frag_id f)
        (R3.f_idx f) (R3.f_total f) (R3.f_chunk_off f) (R3.f_chunk f)).

Definition decode_frag (w : Wire) (b : bytes) : res MqpError FragView :=
  match w with
  | Rev2 => let! f := R2.decode_frag b in Ok (FragView_from_rev2 f)
  | Rev3 => let! f := R3.decode_frag b in FragView_try_from_rev3 f
  end.

(* ------------------------------------------------------------------ *)
(** ** Lemmas: the id bijection *)

Lemma fid_for_spec id fid : is_u32 id -> fid_for id = Some fid <->
  2 <= id <= 16385 /\ fid = id mod 2 * 8192 + (id / 2 - 1).
Proof.
  intros Hu. unfold fid_for, MAX_R3_LOCAL_ID, R3.FIDS_PER_OWNER, R3.SERVER_FID_BASE.
  change (Z.land id 1) with (Z.land id (Z.ones 1)). rewrite Z.land_ones by lia.
  rewrite Z.shiftr_div_pow2 by lia. change (2 ^ 1) with 2.
  destruct (Z.eqb_spec id 0); [subst; split; [done|lia]|].
  case_match eqn:E1.
  { rewrite orb_true_iff in E1. zbool. split; [done|]. intros [? _]. exfalso.
    umod. }
  apply orb_false_iff in E1 as [E1 E2]. zbool.
  assert (Hl : as_u16 (id / 2) = id / 2) by umod. rewrite Hl. clear Hl.
  assert (2 <= id <= 16385) by (umod).
  destruct (Z.eqb_spec (id mod 2) 0); split.
  1,3: intros [= <-]; split; [done|]; umod.
  all: intros [_ ->]; f_equal; umod.
Qed.

Lemma wire_id_for_fid_spec fid id : 0 <= fid -> wire_id_for_fid fid = Some id <->
  fid < 16384 /\ id = 2 * (fid mod 8192 + 1) + fid / 8192.
Proof.
  intros Hf. unfold wire_id_for_fid, R3.CLIENT_FID_MAX, R3.SERVER_FID_BASE, R3.FID_MAX.
  assert (Hlor : forall l o, 0 <= l < 2 ^ 31 -> 0 <= o < 2 -> Z.lor (as_u32 (Z.shiftl l 1)) o = 2 * l + o).
  { intros l o Hl Ho. unfold as_u32. rewrite Z.shiftl_mul_pow2, Z.mod_small by lia.
    rewrite <- Z.shiftl_mul_pow2, Z.lor_comm, lor_shift by lia. lia. }
  destruct (Z.leb_spec fid 8191).
  - cbn [mbind option_bind]. rewrite Hlor by lia. split.
    + intros [= <-]. split; [lia|]. umod.
    + intros [_ ->]. f_equal. umod.
  - case_match eqn:E; zbool; rewrite ?andb_true_iff in E.
    + destruct E. zbool. cbn [mbind option_bind]. rewrite Hlor by lia. split.
      * intros [= <-]. split; [lia|]. umod.
      * intros [_ ->]. f_equal. umod.
    + cbn. split; [done|]. intros [? _]. exfalso. lia.
Qed.

Lemma fid_for_inv id fid : is_u32 id -> fid_for id = Some fid ->
  is_u16 fid /\ R3.valid_fid fid = true /\ wire_id_for_fid fid = Some id /\
  R3.is_server_fid fid = wire_id_server_owned id /\
  R3.is_client_fid fid = negb (wire_id_server_owned id).
Proof.
  intros Hu [Hr ->]%fid_for_spec; [|done].
  unfold R3.valid_fid, R3.is_server_fid, R3.is_client_fid, wire_id_server_owned,
    R3.FID_MAX, R3.SERVER_FID_BASE, R3.CLIENT_FID_MAX.
  change (Z.land id 1) with (Z.land id (Z.ones 1)). rewrite Z.land_ones by lia. change (2 ^ 1) with 2.
  assert (Hm : id mod 2 = 0 \/ id mod 2 = 1) by (umod).
  split_and!; [umod | umod | | |].
  - apply wire_id_for_fid_spec; umod.
  - destruct Hm as [E|E]; rewrite E; cbn [Z.eqb negb]; umod.
  - destruct Hm as [E|E]; rewrite E; cbn [Z.eqb negb]; umod.
Qed.

Lemma wire_id_for_fid_inv fid id : 0 <= fid -> wire_id_for_fid fid = Some id ->
  is_u32 id /\ fid_for id = Some fid.
Proof.
  intros Hf [Hr ->]%wire_id_for_fid_spec; [|done].
  assert (Hu : is_u32 (2 * (fid mod 8192 + 1) + fid / 8192)) by umod.
  split; [done|]. apply fid_for_spec; [done|]. umod.
Qed.

(* ------------------------------------------------------------------ *)
(** ** The codec as the layers above see it *)

(** How a frame names its flow: a bound id alone, an id with the binding
    context, or the context inline. *)
Inductive FlowCtx : Type :=
| CSteady (wire_id : Z)
| COpen (wire_id sess : Z) (addr : TargetAddr) (src : bool)
| CInline (sess : Z) (addr : TargetAddr) (src : bool).

Definition ctx_wf (c : FlowCtx) : Prop :=
  match c with
  | CSteady id => is_u32 id
  | COpen id sess addr _ => is_u32 id /\ is_u32 sess /\ addr_wf addr
  | CInline sess addr _ => is_u32 sess /\ addr_wf addr
  end.

Definition encode_data_ctx (w : Wire) (c : FlowCtx) (payload : bytes) (limit : Z) : res unit bytes :=
  match c with
  | CSteady id => encode_data_steady w id payload limit
  | COpen id sess addr src => encode_data_open w id sess addr src payload limit
  | CInline sess addr src => encode_data_inline w sess addr src payload limit
  end.

Definition encode_frag_ctx (w : Wire) (c : FlowCtx) (frag_id idx total : Z) (chunk : bytes)
    (limit : Z) : res unit bytes :=
  match c with
  | CSteady id => encode_frag_steady w id frag_id idx total chunk limit
  | COpen id sess addr src => encode_frag_open w id sess addr src frag_id idx total chunk limit
  | CInline sess addr src => encode_frag_inline w sess addr src frag_id idx total chunk limit
  end.

Definition seen_id (c : FlowCtx) : option Z :=
  match c with CSteady id | COpen id _ _ _ => Some id | CInline _ _ _ => None end.

(** A rev3 rebind of a client-owned flow carries no session. *)
Definition seen_sess (w : Wire) (c : FlowCtx) : option Z :=
  match c with
  | CSteady _ => None
  | COpen id sess _ src =>
      match w with
      | Rev2 => Some sess
      | Rev3 => if src && negb (wire_id_server_owned id) then None else Some sess
      end
  | CInline sess _ _ => Some sess
  end.

Definition seen_addr (c : FlowCtx) : option TargetAddr :=
  match c with CSteady _ => None | COpen _ _ addr _ | CInline _ addr _ => Some (wire_addr addr) end.

(** A rev3 inline frame has no source flag. *)
Definition seen_src (w : Wire) (c : FlowCtx) : bool :=
  match c with
  | CSteady _ => false
  | COpen _ _ _ src => src
  | CInline _ _ src => match w with Rev2 => src | Rev3 => false end
  end.

Class WireCodec (w : Wire) : Prop := {
  data_codec c payload limit b : ctx_wf c -> limit <= isize_max ->
    encode_data_ctx w c payload limit = Ok b ->
    len b <= limit /\ kind w b = Some KData /\
    decode_data w b = Ok (mkDataView (seen_id c) (seen_sess w c) (seen_addr c) (seen_src w c) payload);
  frag_codec c frag_id i total chunk limit b : ctx_wf c -> is_u32 frag_id -> limit <= isize_max ->
    encode_frag_ctx w c frag_id i total chunk limit = Ok b ->
    len b <= limit /\ kind w b = Some KFrag /\ exists off, 0 <= off /\
    decode_frag w b = Ok (mkFragView (seen_id c) (seen_sess w c) (seen_addr c) (seen_src w c)
                            frag_id i total off chunk) /\
    slice_from b off = Some chunk;
  data_codec_safe b : bytes_ok b -> decode_data w b <> Panic;
  frag_codec_safe b : bytes_ok b -> decode_frag w b <> Panic
}.

(** The rev2 form of a context, and the rev3 form when its id is in range. *)
Definition r2_form (c : FlowCtx) : R2.DataForm :=
  match c with
  | CSteady id => R2.DSteady id
  | COpen id sess addr src => R2.DOpen id sess addr src
  | CInline sess addr src => R2.DInline sess addr src
  end.

#[export] Instance rev2_codec : WireCodec Rev2.
Proof.
  split.
  - intros c payload limit b Hwf Hl H.
    assert (H' : R2.data_encode (r2_form c) payload limit = Ok b) by by destruct c.
    apply R2.data_encode_ok in H' as (e & ve & He & _ & Hf & -> & Hw); [|by destruct c].
    split_and!; [done | by destruct c|]. cbn [decode_data].
    rewrite R2.r2_decode_data_encoded by (auto; first [ulia | by destruct c]). by destruct c.
  - intros c frag_id i total chunk limit b Hwf Hi Hl H.
    assert (H' : R2.frag_encode (r2_form c) frag_id i total chunk limit = Ok b) by by destruct c.
    apply R2.frag_encode_ok in H' as (e & ve & He & _ & Hf & Hm & -> & Hw); [|by destruct c].
    split_and!; [done | by destruct c|].
    exists (len (R2.frag_header (r2_form c) ve frag_id i total e)). cbn [decode_frag].
    split; [apply len_nonneg|]. split.
    + rewrite R2.r2_decode_frag_encoded by (auto; first [ulia | by destruct c]). by destruct c.
    + apply cursor_slice_from. eexists; eauto.
  - intros b Hb. cbn [decode_data]. apply res_bind_no_panic; [by apply R2.r2_decode_data_no_panic | done].
  - intros b Hb. cbn [decode_frag]. apply res_bind_no_panic; [by apply R2.r2_decode_frag_no_panic | done].
Qed.

Ltac ctx_fid :=
  match goal with
  | Hu : is_u32 ?id, H : context [fid_for ?id] |- _ =>
      let fid := fresh "fid" in let E := fresh "Efid" in
      destruct (fid_for id) as [fid|] eqn:E; cbn [of_option ok_or res_bind mbind option_bind] in *; [|done];
      destruct (fid_for_inv id fid Hu E) as (? & ? & ? & ? & ?)
  end.

(** The wrapper calls the rev3 encoder of the form, and the adapter maps what
    is decoded back to the wire id. *)
Lemma r3_data_ctx c payload limit b : ctx_wf c ->
  encode_data_ctx Rev3 c payload limit = Ok b -> exists f,
    R3.data_form_wf f /\ R3.data_encode f payload limit = Ok b /\
    DataView_try_from_rev3 (R3.data_view f payload) =
      Ok (mkDataView (seen_id c) (seen_sess Rev3 c) (seen_addr c) (seen_src Rev3 c) payload).
Proof.
  intros Hwf H. destruct c as [id|id sess addr src|sess addr src];
    cbn [ctx_wf encode_data_ctx encode_data_steady encode_data_open encode_data_inline] in *; destruct_and?.
  - ctx_fid. exists (R3.DSteady fid). split_and!; [done..|].
    unfold DataView_try_from_rev3. cbn [R3.data_view R3.d_fid wire_id_of].
    match goal with H : wire_id_for_fid _ = _ |- _ => by rewrite H end.
  - ctx_fid.
    exists (if src && negb (wire_id_server_owned id) then R3.DSrc fid addr else R3.DOpen fid sess addr src).
    unfold DataView_try_from_rev3, seen_sess. destruct (src && _) eqn:Es; split_and!; try done.
    all: cbn [R3.data_view R3.d_fid wire_id_of];
      match goal with H : wire_id_for_fid _ = _ |- _ => rewrite H end; cbn; try done.
    apply andb_true_iff in Es as [-> _]. done.
  - by exists (R3.DInline sess addr).
Qed.

Lemma r3_frag_ctx c frag_id i total chunk limit b : ctx_wf c ->
  encode_frag_ctx Rev3 c frag_id i total chunk limit = Ok b -> exists f,
    R3.frag_form_wf f /\ R3.frag_encode f frag_id i total chunk limit = Ok b /\
    forall e, FragView_try_from_rev3 (R3.frag_view f frag_id i total e chunk) =
      Ok (mkFragView (seen_id c) (seen_sess Rev3 c) (seen_addr c) (seen_src Rev3 c)
            frag_id i total (len (R3.frag_header f frag_id i total e)) chunk).
Proof.
  intros Hwf H. destruct c as [id|id sess addr src|sess addr src];
    cbn [ctx_wf encode_frag_ctx encode_frag_steady encode_frag_open encode_frag_inline] in *; destruct_and?.
  - ctx_fid. exists (R3.FSteady fid). split_and!; [done..|]. intros e.
    unfold FragView_try_from_rev3. cbn [R3.frag_view R3.f_fid wire_id_of].
    match goal with H : wire_id_for_fid _ = _ |- _ => by rewrite H end.
  - ctx_fid.
    exists (if src && negb (wire_id_server_owned id) then R3.FSrc fid addr else R3.FOpen fid sess addr src).
    unfold FragView_try_from_rev3, seen_sess. destruct (src && _) eqn:Es; split_and!; try done; intros e.
    all: cbn [R3.frag_view R3.f_fid wire_id_of];
      match goal with H : wire_id_for_fid _ = _ |- _ => rewrite H end; cbn; try done.
    apply andb_true_iff in Es as [-> _]. done.
  - by exists (R3.FInline sess addr).
Qed.

Lemma wire_id_of_no_panic fid bad : wire_id_of fid bad <> Panic.
Proof. destruct fid; cbn; [repeat np_step | done]. Qed.

#[export] Instance rev3_codec : WireCodec Rev3.
Proof.
  split.
  - intros c payload limit b Hwf Hl H.
    destruct (r3_data_ctx c payload limit b Hwf H) as (f & Hfw & H' & Hv).
    apply R3.data_encode_spec in H' as (e & He & Hf & -> & Hw); [|done].
    split_and!; [done | |].
    + destruct f as [fid|fid sess addr []| |]; try done.
      cbn [R3.data_form_wf R3.data_fid_ok] in Hfw, Hf.
      destruct (R3.fid_high fid Hfw Hf) as [_ Hr].
      destruct (R3.small_first_byte (fid / 2 ^ 8) Hr) as [Hc _].
      cbn [kind R3.kind R3.data_header app first head]. rewrite Hc. done.
    + cbn [decode_data]. by rewrite R3.decode_data_encoded by (auto; ulia).
  - intros c frag_id i total chunk limit b Hwf Hi Hl H.
    destruct (r3_frag_ctx c frag_id i total chunk limit b Hwf H) as (f & Hfw & H' & Hv).
    apply R3.frag_encode_spec in H' as (e & He & Hf & Hm & -> & Hw); [|done].
    split_and!; [done | by destruct f as [|? ? ? []| |] |].
    exists (len (R3.frag_header f frag_id i total e)). cbn [decode_frag].
    split; [apply len_nonneg|]. split.
    + rewrite R3.decode_frag_encoded by (auto; ulia). cbn [res_bind]. apply Hv.
    + apply cursor_slice_from. eexists; eauto.
  - intros b Hb. cbn [decode_data]. apply res_bind_no_panic; [by apply R3.decode_data_no_panic|].
    intros d _. unfold DataView_try_from_rev3.
    apply res_bind_no_panic; [apply wire_id_of_no_panic | done].
  - intros b Hb. cbn [decode_frag]. apply res_bind_no_panic; [by apply R3.decode_frag_no_panic|].
    intros d _. unfold FragView_try_from_rev3.
    apply res_bind_no_panic; [apply wire_id_of_no_panic | done].
Qed.

(** Every configurable revision is a codec. *)
Lemma wire_codec w : WireCodec w.
Proof. destruct w; apply _. Qed.

(* ------------------------------------------------------------------ *)
(** ** Claims *)

(** The id adapter is a bijection.  The ids that rev3 can carry are the
    8192 first ids of each owner; on them [fid_for] and [wire_id_for_fid] are
    inverse, every 14-bit flow id is hit, and the owner bit of the wire id
    says which half of the flow-id space is used. *)
Theorem wire_id_fid_bijection id fid :
  is_u32 id -> is_u16 fid ->
  (fid_for id = Some fid <-> wire_id_for_fid fid = Some id) /\
  (is_Some (fid_for id) <-> 1 <= R2.wire_id_local id <= MAX_R3_LOCAL_ID) /\
  (is_Some (wire_id_for_fid fid) <-> R3.valid_fid fid = true) /\
  (fid_for id = Some fid -> R3.fid_owner fid =
     Some (if R2.wire_id_server_owned id then R3.Server else R3.Client)).
Proof.
  intros Hu Hf. split_and!.
  - split; intros H; [by apply fid_for_inv in H as (_ & _ & ? & _)|].
    apply wire_id_for_fid_inv in H as [_ ?]; [done | ulia].
  - unfold R2.wire_id_local, MAX_R3_LOCAL_ID, R3.FIDS_PER_OWNER. rewrite Z.shiftr_div_pow2 by lia.
    change (2 ^ 1) with 2. split.
    + intros [f [Hr _]%fid_for_spec]; [umod | done].
    + intros Hr. eexists. apply fid_for_spec; [done|]. split; [umod | reflexivity].
  - unfold R3.valid_fid, R3.FID_MAX. rewrite Z.leb_le. split.
    + intros [i [Hr _]%wire_id_for_fid_spec]; [lia | ulia].
    + intros Hr. eexists. apply wire_id_for_fid_spec; [ulia|]. split; [lia | reflexivity].
  - intros (_ & _ & _ & Hs & Hc)%fid_for_inv; [|done]. unfold R3.fid_owner. rewrite Hs, Hc.
    change (R2.wire_id_server_owned id) with (wire_id_server_owned id).
    by destruct (wire_id_server_owned id).
Qed.

Lemma wire_id_fid_bijection_witness :
  (fid_for 5 = Some 0x2001 <-> wire_id_for_fid 0x2001 = Some 5) /\
  (is_Some (fid_for 5) <-> 1 <= R2.wire_id_local 5 <= MAX_R3_LOCAL_ID) /\
  (is_Some (wire_id_for_fid 0x2001) <-> R3.valid_fid 0x2001 = true) /\
  (fid_for 5 = Some 0x2001 -> R3.fid_owner 0x2001 =
     Some (if R2.wire_id_server_owned 5 then R3.Server else R3.Client)).
Proof. apply (wire_id_fid_bijection 5 0x2001); concrete. Defined.

(** C36: the adapter keeps its contract under either revision.  Every data frame
    and every fragment frame it writes, each on its own, fits the limit, is
    classified for what it is, and is decoded back through it to the same wire
    id, session, address, source flag and payload.  What does not survive: under
    both revisions the flow label of an IPv6 address, which the wire does not
    carry; under rev3 the session of a rebind of a client-owned flow and the
    source flag of an inline frame.  No byte string makes either decoder panic. *)
Theorem wire_adapter_contract w :
  (forall c payload limit b, ctx_wf c -> limit <= isize_max -> encode_data_ctx w c payload limit = Ok b ->
     len b <= limit /\ kind w b = Some KData /\
     decode_data w b = Ok (mkDataView (seen_id c) (seen_sess w c) (seen_addr c) (seen_src w c) payload)) /\
  (forall c frag_id i total chunk limit b, ctx_wf c -> is_u32 frag_id -> limit <= isize_max ->
     encode_frag_ctx w c frag_id i total chunk limit = Ok b ->
     len b <= limit /\ kind w b = Some KFrag /\
     exists off, decode_frag w b = Ok (mkFragView (seen_id c) (seen_sess w c) (seen_addr c) (seen_src w c) frag_id i total off chunk) /\
       slice_from b off = Some chunk) /\
  (forall b, bytes_ok b -> decode_data w b <> Panic /\ decode_frag w b <> Panic).
Proof.
  pose proof (wire_codec w) as Hw. split_and!.
  - intros c payload limit b Hc Hl E. by apply data_codec in E.
  - intros c frag_id i total chunk limit b Hc Hi Hl E. apply frag_codec in E as (? & ? & off & _ & ? & ?); [|done..]. eauto.
  - eauto using data_codec_safe, frag_codec_safe.
Qed.

(** A rebind of a client-owned flow, as data and as a fragment. *)
Lemma wire_adapter_contract_witness :
  let c := COpen 5 9 example_v4 true in
  let b1 := [0x43; 0x01; 0x20; 9; 0; 0; 0; 1; 1; 2; 3; 4; 0; 53; 7] in
  let b2 := [0xC3; 0x01; 0x20; 8; 0; 0; 0; 0; 1; 9; 0; 0; 0; 1; 1; 2; 3; 4; 0; 53; 7] in
  decode_data Rev3 b1 = Ok (mkDataView (seen_id c) (seen_sess Rev3 c) (seen_addr c) (seen_src Rev3 c) [7]) /\
  (exists off, decode_frag Rev3 b2 = Ok (mkFragView (seen_id c) (seen_sess Rev3 c) (seen_addr c)
      (seen_src Rev3 c) 8 0 1 off [7]) /\ slice_from b2 off = Some [7]) /\
  decode_data Rev3 [1; 2] <> Panic.
Proof.
  destruct (wire_adapter_contract Rev3) as (Hd & Hf & Hn). intros c b1 b2.
  assert (Hwf : ctx_wf c) by (cbn; split_and!; concrete). split_and!.
  - apply (Hd c [7] 1200 b1); [exact Hwf | concrete | reflexivity].
  - apply (Hf c 8 0 1 [7] 1200 b2); [exact Hwf | concrete | concrete | reflexivity].
  - apply Hn. concrete.
Defined.
