(* ===== verification/Frag.v ===== *)
(** The sender side of fragmentation, [src/udp/r2_frag.rs]: the split plan, the
    per-revision header sizes and the send loop with its backpressure gate,
    over [try_send_datagram] of [src/udp/send.rs].  The QUIC connection is a
    parameter, the class [DatagramConn]. *)
From S2P Require Import Prelude Addr Codec R3 R2 Wire.

Definition MQP_FRAG_MAX_PAYLOAD : Z := 8192.
Definition MQP_FRAG_MAX_TOTAL : Z := 64.
Definition R2_FRAG_MAX_PAYLOAD : Z := MQP_FRAG_MAX_PAYLOAD.
Definition FRAME_BOOKKEEPING : Z := 48.

(* ------------------------------------------------------------------ *)
(** ** Sending one datagram *)

Inductive SendDatagramError : Type := TooLargeError | UnsupportedByPeer | ConnectionLostError | Disabled.

(** A QUIC connection's outgoing DATAGRAM queue: one poll of
    [send_datagram_wait] queues the datagram, reports an error, or ([None])
    would have to wait for buffer space. *)
Class DatagramConn (Conn : Type) : Type := {
  send_datagram_wait : Conn -> bytes -> option (SendDatagramError + unit) * Conn;
  datagram_send_buffer_space : Conn -> Z;
  (** The datagrams queued so far, oldest first. *)
  queued : Conn -> list bytes;
  send_datagram_queues c d :
    queued (send_datagram_wait c d).2 =
      queued c ++ match (send_datagram_wait c d).1 with Some (inr _) => [d] | _ => [] end
}.

Inductive DatagramSend : Type := Sent | Blocked | TooLarge | Unsupported | ConnectionLost.

#[export] Instance DatagramSend_eq_dec : EqDecision DatagramSend.
Proof. solve_decision. Defined.

Definition try_send_datagram {Conn} `{DatagramConn Conn} (conn : Conn) (d : bytes)
    : DatagramSend * Conn :=
  let '(r, conn) := send_datagram_wait conn d in
  (match r with
   | Some (inr _) => Sent
   | Some (inl TooLargeError) => TooLarge
   | Some (inl UnsupportedByPeer) => Unsupported
   | Some (inl ConnectionLostError) => ConnectionLost
   | Some (inl Disabled) => ConnectionLost
   | None => Blocked
   end, conn).

(** The drop counters and the delivery counters the send path books, with the
    part a thread has not yet published counted in. *)
Record SendStats : Type := mkSendStats {
  st_too_large : Z;
  st_buffer_full : Z;
  st_datagrams : Z;
  st_bytes : Z;
  st_fragmented : Z
}.

Definition note_too_large (s : SendStats) : SendStats :=
  mkSendStats (as_u64 (st_too_large s + 1)) (st_buffer_full s) (st_datagrams s) (st_bytes s)
    (st_fragmented s).
Definition note_send_buffer_full (s : SendStats) : SendStats :=
  mkSendStats (st_too_large s) (as_u64 (st_buffer_full s + 1)) (st_datagrams s) (st_bytes s)
    (st_fragmented s).
Definition stat_payload (n : Z) (s : SendStats) : SendStats :=
  mkSendStats (st_too_large s) (st_buffer_full s) (as_u64 (st_datagrams s + 1))
    (as_u64 (st_bytes s + n)) (st_fragmented s).
Definition stat_fragmented (frames : Z) (s : SendStats) : SendStats :=
  if frames >? 1
  then mkSendStats (st_too_large s) (st_buffer_full s) (st_datagrams s) (st_bytes s)
         (as_u64 (st_fragmented s + 1))
  else s.

(* ------------------------------------------------------------------ *)
(** ** The split plan *)

Record FragPlan : Type := mkFragPlan {
  p_total : Z;
  p_first_hdr : Z;
  p_rest_hdr : Z;
  p_first_chunk : Z;
  p_rest_chunk : Z
}.

(** [a.div_ceil(b)]. *)
Definition div_ceil (a b : Z) : Z := (a + b - 1) / b.

Definition FragPlan_new (limit first_hdr rest_hdr payload_len : Z) : option FragPlan :=
  if (payload_len =? 0) || (payload_len >? R2_FRAG_MAX_PAYLOAD) then None else
  first_chunk ← checked_sub limit first_hdr;
  rest_chunk ← checked_sub limit rest_hdr;
  if (first_chunk =? 0) || (rest_chunk =? 0) then None else
  let total := if payload_len <=? first_chunk then 1
               else 1 + div_ceil (payload_len - first_chunk) rest_chunk in
  if total >? MQP_FRAG_MAX_TOTAL then None else
  Some (mkFragPlan (as_u8 total) first_hdr rest_hdr first_chunk rest_chunk).

Definition footprint (p : FragPlan) (payload_len : Z) : Z :=
  saturating_add
    (saturating_add (saturating_add payload_len (p_first_hdr p))
       (saturating_mul (p_total p - 1) (p_rest_hdr p)))
    (saturating_mul (p_total p - 1) FRAME_BOOKKEEPING).

(* ------------------------------------------------------------------ *)
(** ** Headers per revision *)

Inductive R2FragFlow : Type :=
| Steady (wire_id : Z)
| Opening (wire_id sess : Z) (addr : TargetAddr) (src : bool)
| Inline (sess : Z) (addr : TargetAddr) (src : bool).

Record FragHeaders : Type := mkFragHeaders {
  h_wire_id : option Z;
  h_first_hdr : Z;
  h_rest_hdr : Z;
  h_ctx : option (Z * TargetAddr * bool)
}.

Definition headers (w : Wire) (flow : R2FragFlow) : res unit FragHeaders :=
  match w with
  | Rev2 =>
      match flow with
      | Steady wire_id =>
          let hdr := R2.frag_steady_len wire_id 0 in
          Ok (mkFragHeaders (Some wire_id) hdr hdr None)
      | Opening wire_id sess addr src =>
          let! h := res_ok (header addr) in
          Ok (mkFragHeaders (Some wire_id) (R2.frag_open_len wire_id (ah_len h) 0)
                (R2.frag_steady_len wire_id 0) (Some (sess, addr, src)))
      | Inline sess addr src =>
          let! h := res_ok (header addr) in
          let hdr := R2.frag_inline_len (ah_len h) 0 in
          Ok (mkFragHeaders None hdr hdr (Some (sess, addr, src)))
      end
  | Rev3 =>
      match flow with
      | Steady wire_id =>
          let! _ := of_option (fid_for wire_id) in
          let hdr := R3.frag_steady_len 0 in
          Ok (mkFragHeaders (Some wire_id) hdr hdr None)
      | Opening wire_id sess addr src =>
          let! fid := of_option (fid_for wire_id) in
          let! h := res_ok (header addr) in
          let server_owned := R3.SERVER_FID_BASE <=? fid in
          let first := if src && negb server_owned then R3.frag_src_len (ah_len h) 0
                       else R3.frag_open_len (ah_len h) 0 in
          Ok (mkFragHeaders (Some wire_id) first (R3.frag_steady_len 0) (Some (sess, addr, src)))
      | Inline sess addr src =>
          let! h := res_ok (header addr) in
          let hdr := R3.frag_inline_len (ah_len h) 0 in
          Ok (mkFragHeaders None hdr hdr (Some (sess, addr, src)))
      end
  end.

(* ------------------------------------------------------------------ *)
(** ** The fragmenter *)

Record R2Fragmenter : Type := mkR2Fragmenter {
  next_id : Z;
  last_blocked : bool;
  fr_wire : Wire
}.

Definition R2Fragmenter_new_with_wire (w : Wire) : R2Fragmenter := mkR2Fragmenter 0 false w.

Definition R2Fragmenter_new : R2Fragmenter := R2Fragmenter_new_with_wire Rev2.

Definition set_wire (w : Wire) (f : R2Fragmenter) : R2Fragmenter :=
  mkR2Fragmenter (next_id f) (last_blocked f) w.

Definition set_blocked (b : bool) (f : R2Fragmenter) : R2Fragmenter :=
  mkR2Fragmenter (next_id f) b (fr_wire f).

Record PayloadSend : Type := mkPayloadSend {
  ps_frames : Z;
  ps_failed : option DatagramSend
}.

(** The frame of fragment [idx]: the first one of a flow that is still being
    opened carries the context, the others are steady; without an id every
    fragment carries the context. *)
Definition encode_fragment (w : Wire) (wire_id : option Z) (ctx : option (Z * TargetAddr * bool))
    (frag_id idx total : Z) (chunk : bytes) (limit : Z) : res unit bytes :=
  match wire_id, ctx with
  | Some id, Some (sess, addr, src) =>
      if idx =? 0 then encode_frag_open w id sess addr src frag_id (as_u8 idx) total chunk limit
      else encode_frag_steady w id frag_id (as_u8 idx) total chunk limit
  | Some id, None => encode_frag_steady w id frag_id (as_u8 idx) total chunk limit
  | None, Some (sess, addr, src) =>
      encode_frag_inline w sess addr src frag_id (as_u8 idx) total chunk limit
  | None, None => Nope
  end.

Section Send.
Context {Conn : Type} `{DatagramConn Conn}.

(** What one call changes. *)
Record World : Type := mkWorld {
  w_frag : R2Fragmenter;
  w_conn : Conn;
  w_stats : SendStats
}.

Definition with_stats (f : SendStats -> SendStats) (s : World) : World :=
  mkWorld (w_frag s) (w_conn s) (f (w_stats s)).
Definition with_frag (f : R2Fragmenter -> R2Fragmenter) (s : World) : World :=
  mkWorld (f (w_frag s)) (w_conn s) (w_stats s).
Definition with_conn (c : Conn) (s : World) : World := mkWorld (w_frag s) c (w_stats s).

(** What a refused frame books: quinn's verdict decides the counter and
    whether the next payload has to pass the space gate. *)
Definition send_refused (other : DatagramSend) (s : World) : World :=
  let s := with_frag (set_blocked (bool_decide (other = Blocked))) s in
  match other with
  | Blocked => with_stats note_send_buffer_full s
  | TooLarge => with_stats note_too_large s
  | _ => s
  end.

(** [for idx in 0..total], [n] turns left. *)
Fixpoint send_frames (n : nat) (idx : Z) (h : FragHeaders) (p : FragPlan) (frag_id limit : Z)
    (payload : bytes) (frames offset : Z) (s : World) : res unit (PayloadSend * World) :=
  match n with
  | O =>
      let s := with_frag (set_blocked false) s in
      let s := with_stats (stat_payload (len payload)) s in
      let s := with_stats (stat_fragmented frames) s in
      Ok (mkPayloadSend frames None, s)
  | S n =>
      let! remaining := sub_from payload offset in
      let chunk_len := if idx =? 0 then Z.min (p_first_chunk p) (len remaining)
                       else Z.min (p_rest_chunk p) (len remaining) in
      let! chunk := sub remaining 0 chunk_len in
      match encode_fragment (fr_wire (w_frag s)) (h_wire_id h) (h_ctx h) frag_id idx (p_total p)
              chunk limit with
      | Panic => Panic
      | Err _ => Ok (mkPayloadSend frames (Some TooLarge), with_stats note_too_large s)
      | Ok body =>
          match try_send_datagram (w_conn s) body with
          | (Sent, conn) =>
              send_frames n (idx + 1) h p frag_id limit payload (frames + 1) (offset + chunk_len)
                (with_conn conn s)
          | (other, conn) =>
              Ok (mkPayloadSend frames (Some other), send_refused other (with_conn conn s))
          end
      end
  end.

Definition too_large (s : World) : PayloadSend * World :=
  (mkPayloadSend 0 (Some TooLarge), with_stats note_too_large s).

Definition send (limit : Z) (flow : R2FragFlow) (payload : bytes) (s : World)
    : res unit (PayloadSend * World) :=
  match headers (fr_wire (w_frag s)) flow with
  | Panic => Panic
  | Err _ => Ok (too_large s)
  | Ok h =>
      match FragPlan_new limit (h_first_hdr h) (h_rest_hdr h) (len payload) with
      | None => Ok (too_large s)
      | Some plan =>
          if last_blocked (w_frag s) &&
             (datagram_send_buffer_space (w_conn s) <? footprint plan (len payload))
          then Ok (mkPayloadSend 0 (Some Blocked), with_stats note_send_buffer_full s)
          else
            let frag_id := next_id (w_frag s) in
            let s := with_frag (fun f => mkR2Fragmenter (as_u32 (next_id f + 1)) false (fr_wire f)) s in
            send_frames (Z.to_nat (p_total plan)) 0 h plan frag_id limit payload 0 0 s
      end
  end.
End Send.
Arguments World Conn : clear implicits.

(* ------------------------------------------------------------------ *)
(** ** The chunks of a payload *)

Definition chunk_size (p : FragPlan) (idx : Z) : Z :=
  if idx =? 0 then p_first_chunk p else p_rest_chunk p.

Fixpoint split_from (n : nat) (idx : Z) (p : FragPlan) (b : bytes) : list bytes :=
  match n with
  | O => []
  | S n => let k := Z.to_nat (chunk_size p idx) in take k b :: split_from n (idx + 1) p (drop k b)
  end.

Definition frag_chunks (p : FragPlan) (payload : bytes) : list bytes :=
  split_from (Z.to_nat (p_total p)) 0 p payload.

(** What [n] fragments from index [idx] on can hold. *)
Fixpoint capacity (n : nat) (idx : Z) (p : FragPlan) : Z :=
  match n with O => 0 | S n => chunk_size p idx + capacity n (idx + 1) p end.

Definition plan_ok (p : FragPlan) : Prop := 0 < p_first_chunk p /\ 0 < p_rest_chunk p.

Lemma chunk_size_pos p idx : plan_ok p -> 0 < chunk_size p idx.
Proof. unfold plan_ok, chunk_size. case_match; lia. Qed.

Lemma capacity_rest n idx p : 0 < idx -> capacity n idx p = Z.of_nat n * p_rest_chunk p.
Proof.
  revert idx. induction n as [|n IH]; intros idx Hi; [done|]. cbn [capacity]. rewrite IH by lia.
  unfold chunk_size. rewrite (proj2 (Z.eqb_neq idx 0)) by lia. lia.
Qed.

Lemma capacity_start n p : capacity (S n) 0 p = p_first_chunk p + Z.of_nat n * p_rest_chunk p.
Proof. cbn [capacity]. rewrite capacity_rest by lia. done. Qed.

Lemma capacity_nonneg n idx p : plan_ok p -> 0 <= capacity n idx p.
Proof.
  intros Hp. revert idx. induction n as [|n IH]; intros idx; cbn [capacity]; [lia|].
  pose proof (chunk_size_pos p idx Hp). pose proof (IH (idx + 1)). lia.
Qed.

Lemma split_concat n idx p b : plan_ok p -> len b <= capacity n idx p ->
  concat (split_from n idx p b) = b.
Proof.
  intros Hp. revert idx b. induction n as [|n IH]; intros idx b Hl; cbn [split_from capacity concat] in *.
  - destruct b; [done | lens].
  - pose proof (chunk_size_pos p idx Hp). rewrite IH; [apply take_drop|].
    rewrite len_drop by lia. pose proof (capacity_nonneg n (idx + 1) p Hp). lia.
Qed.

Lemma split_length n idx p b : length (split_from n idx p b) = n.
Proof. revert idx b. induction n as [|n IH]; intros idx b; cbn; [done|]. by rewrite IH. Qed.

(** When the last fragment is needed, none is empty and all fit. *)
Lemma split_sizes n idx p b : plan_ok p -> capacity (n - 1) idx p < len b ->
  forall k c, split_from n idx p b !! k = Some c -> 1 <= len c <= chunk_size p (idx + Z.of_nat k).
Proof.
  intros Hp. revert idx b. induction n as [|n IH]; intros idx b Hl k c Hk; [done|].
  pose proof (chunk_size_pos p idx Hp) as Hpos. cbn [split_from] in Hk. destruct k as [|k].
  - injection Hk as <-. rewrite len_take, Z.add_0_r by lia. split; [|lia].
    replace (S n - 1)%nat with n in Hl by lia. pose proof (capacity_nonneg n idx p Hp). lia.
  - simpl in Hk. replace (idx + Z.of_nat (S k)) with (idx + 1 + Z.of_nat k) by lia.
    eapply IH; [|exact Hk]. rewrite len_drop by lia.
    replace (S n - 1)%nat with n in Hl by lia. destruct n as [|n]; [by destruct k|].
    cbn [capacity] in Hl. replace (S n - 1)%nat with n by lia. lia.
Qed.

(** The plan: how many fragments and what they hold. *)
Lemma plan_spec limit fh rh n p : 0 <= n -> FragPlan_new limit fh rh n = Some p ->
  plan_ok p /\ 1 <= p_total p <= MQP_FRAG_MAX_TOTAL /\ 1 <= n <= R2_FRAG_MAX_PAYLOAD /\
  p_first_hdr p = fh /\ p_rest_hdr p = rh /\
  p_first_chunk p = limit - fh /\ p_rest_chunk p = limit - rh /\
  capacity (Z.to_nat (p_total p) - 1) 0 p < n <= capacity (Z.to_nat (p_total p)) 0 p.
Proof.
  intros Hn H. unfold FragPlan_new, checked_sub, plan_ok, MQP_FRAG_MAX_TOTAL, R2_FRAG_MAX_PAYLOAD,
    MQP_FRAG_MAX_PAYLOAD in *.
  destruct (_ || _) eqn:E1 in H; [done|]. apply orb_false_iff in E1 as [E1 E1'].
  destruct (fh <=? limit) eqn:E2 in H; cbn [mbind option_bind] in H; [|done].
  destruct (rh <=? limit) eqn:E3 in H; cbn [mbind option_bind] in H; [|done].
  destruct (_ || _) eqn:E4 in H; [done|]. apply orb_false_iff in E4 as [E4 E4'].
  destruct (_ >? 64) eqn:E5 in H; [done|]. injection H as <-.
  cbn [p_total p_first_hdr p_rest_hdr p_first_chunk p_rest_chunk]. zbool.
  assert (HF : 0 < limit - fh) by lia. assert (HR : 0 < limit - rh) by lia.
  remember (limit - fh) as F eqn:EF. remember (limit - rh) as R eqn:ER.
  remember (if n <=? F then 1 else 1 + div_ceil (n - F) R) as t eqn:Et.
  assert (Ht : 1 <= t /\ (t = 1 /\ n <= F \/ 2 <= t /\ (t - 2) * R < n - F <= (t - 1) * R)).
  { subst t. unfold div_ceil. destruct (Z.leb_spec n F); [lia|].
    pose proof (Z.div_mod (n - F + R - 1) R ltac:(lia)).
    pose proof (Z.mod_pos_bound (n - F + R - 1) R ltac:(lia)). nia. }
  rewrite as_u8_small by ulia.
  split_and!; try lia.
  - destruct Ht as [Ht1 [[-> Hl]|[Ht2 Hl]]].
    + simpl. lia.
    + replace (Z.to_nat t - 1)%nat with (S (Z.to_nat (t - 2))) by lia.
      rewrite capacity_start, Z2Nat.id by lia. cbn [p_first_chunk p_rest_chunk]. lia.
  - destruct Ht as [Ht1 [[-> Hl]|[Ht2 Hl]]].
    + rewrite (capacity_start 0). cbn. lia.
    + replace (Z.to_nat t) with (S (Z.to_nat (t - 1))) by lia.
      rewrite capacity_start, Z2Nat.id by lia. cbn [p_first_chunk p_rest_chunk]. lia.
Qed.

Lemma plan_none limit fh rh (payload : bytes) : FragPlan_new limit fh rh (len payload) = None ->
  payload = [] \/ R2_FRAG_MAX_PAYLOAD < len payload \/ limit <= fh \/ limit <= rh \/
  limit - fh + (MQP_FRAG_MAX_TOTAL - 1) * (limit - rh) < len payload.
Proof.
  unfold FragPlan_new, checked_sub. intros H.
  destruct (_ || _) eqn:E1 in H.
  { destruct payload; [by left|]. apply orb_true_iff in E1. zbool. destruct E1; [lens | lia]. }
  do 2 right. destruct (fh <=? limit) eqn:E2 in H; cbn [mbind option_bind] in H; zbool; [|lia].
  destruct (rh <=? limit) eqn:E3 in H; cbn [mbind option_bind] in H; zbool; [|lia].
  destruct (_ || _) eqn:E4 in H; [apply orb_true_iff in E4; zbool; lia|].
  apply orb_false_iff in E4 as [E4 E4']. destruct (MQP_FRAG_MAX_TOTAL <? _) eqn:E5 in H; [|done].
  unfold MQP_FRAG_MAX_TOTAL, div_ceil in *. zbool. do 2 right.
  destruct (Z.leb_spec (len payload) (limit - fh)); [lia|].
  pose proof (Z.div_mod (len payload - (limit - fh) + (limit - rh) - 1) (limit - rh) ltac:(lia)).
  pose proof (Z.mod_pos_bound (len payload - (limit - fh) + (limit - rh) - 1) (limit - rh) ltac:(lia)).
  nia.
Qed.

Lemma plan_chunks limit fh rh payload p : FragPlan_new limit fh rh (len payload) = Some p ->
  concat (frag_chunks p payload) = payload /\ len (frag_chunks p payload) = p_total p /\
  forall k c, frag_chunks p payload !! k = Some c -> 1 <= len c <= chunk_size p (Z.of_nat k).
Proof.
  intros H. apply plan_spec in H as (Hp & Ht & Hn & _ & _ & _ & _ & Hc); [|lens].
  unfold frag_chunks. split_and!.
  - apply split_concat; [done | lia].
  - unfold len. rewrite split_length. lia.
  - intros k c Hk. eapply (split_sizes _ 0); [done | apply Hc | done].
Qed.

(* ------------------------------------------------------------------ *)
(** ** The frames of a payload *)

(** How fragment [idx] of a payload names its flow. *)
Definition frag_ctx (flow : R2FragFlow) (idx : Z) : FlowCtx :=
  match flow with
  | Steady id => CSteady id
  | Opening id sess addr src => if idx =? 0 then COpen id sess addr src else CSteady id
  | Inline sess addr src => CInline sess addr src
  end.

Definition flow_wf (flow : R2FragFlow) : Prop :=
  match flow with
  | Steady id => is_u32 id /\ id <> 0
  | Opening id sess addr _ => is_u32 id /\ id <> 0 /\ is_u32 sess /\ addr_wf addr
  | Inline sess addr _ => is_u32 sess /\ addr_wf addr
  end.

(** A server-owned flow is opened with the source it answers from. *)
Definition flow_owner_ok (flow : R2FragFlow) : Prop :=
  match flow with
  | Opening id _ _ src => wire_id_server_owned id = true -> src = true
  | _ => True
  end.

Lemma frag_ctx_wf flow idx : flow_wf flow -> ctx_wf (frag_ctx flow idx).
Proof. destruct flow; simpl; try case_match; simpl; naive_solver. Qed.

Lemma encode_fragment_ctx w flow h frag_id idx total chunk limit :
  headers w flow = Ok h -> 0 <= idx < 256 ->
  encode_fragment w (h_wire_id h) (h_ctx h) frag_id idx total chunk limit =
    encode_frag_ctx w (frag_ctx flow idx) frag_id idx total chunk limit.
Proof.
  intros Hh Hi. assert (Hu : as_u8 idx = idx) by (apply as_u8_small; ulia).
  unfold encode_fragment, headers in *.
  destruct w, flow; res_inv; subst h; cbn [h_wire_id h_ctx frag_ctx encode_frag_ctx];
    try case_match; cbn [encode_frag_ctx]; by rewrite Hu.
Qed.

Definition hdr_at (h : FragHeaders) (idx : Z) : Z := if idx =? 0 then h_first_hdr h else h_rest_hdr h.

(** The rev2 and the rev3 form of a fragment, with the header the plan
    reserved for it. *)
Lemma rev2_fragment_form flow h frag_id idx total chunk limit :
  flow_wf flow -> headers Rev2 flow = Ok h ->
  exists f e, encode_frag_ctx Rev2 (frag_ctx flow idx) frag_id idx total chunk limit =
    R2.frag_encode f frag_id idx total chunk limit /\ R2.data_form_wf f /\ R2.data_addr_enc f e /\
    R2.data_id_ok f = true /\ R2.frag_hdr_len f (len e) = hdr_at h idx.
Proof.
  intros Hwf Hh. unfold headers, hdr_at in *.
  destruct flow as [id|id sess addr src|sess addr src]; cbn [flow_wf frag_ctx] in *; destruct_and?;
    res_inv; subst h; cbn [h_first_hdr h_rest_hdr] in *.
  - exists (R2.DSteady id), []. split_and!; try done; [cbn; unfold R2.valid_wire_id; lia|].
    by destruct (idx =? 0).
  - destruct (header_ok addr v) as (e & He & ->); [done..|]. destruct (idx =? 0).
    + exists (R2.DOpen id sess addr src), e. split_and!; try done. cbn; unfold R2.valid_wire_id; lia.
    + exists (R2.DSteady id), []. split_and!; try done. cbn; unfold R2.valid_wire_id; lia.
  - destruct (header_ok addr v) as (e & He & ->); [done..|].
    exists (R2.DInline sess addr src), e. split_and!; try done. by destruct (idx =? 0).
Qed.

Lemma rev3_fragment_form flow h frag_id idx total chunk limit :
  flow_wf flow -> flow_owner_ok flow -> headers Rev3 flow = Ok h ->
  exists f e, encode_frag_ctx Rev3 (frag_ctx flow idx) frag_id idx total chunk limit =
    R3.frag_encode f frag_id idx total chunk limit /\ R3.frag_form_wf f /\ R3.frag_addr_enc f e /\
    R3.frag_fid_ok f = true /\ len (R3.frag_header f frag_id idx total e) = hdr_at h idx.
Proof.
  intros Hwf Ho Hh. unfold headers, hdr_at, R3.frag_steady_len, R3.frag_open_len, R3.frag_src_len,
    R3.frag_inline_len in *.
  destruct flow as [id|id sess addr src|sess addr src]; cbn [flow_wf flow_owner_ok frag_ctx] in *; destruct_and?;
    res_inv; subst h; cbn [h_first_hdr h_rest_hdr] in *.
  - destruct (fid_for_inv id v) as (? & ? & _); [done..|].
    exists (R3.FSteady v), []. cbn [encode_frag_ctx encode_frag_steady].
    match goal with H : fid_for id = _ |- _ => rewrite H end.
    split_and!; try done. by destruct (idx =? 0).
  - destruct (fid_for_inv id v) as (? & ? & _ & Hs & Hcl); [done..|].
    destruct (header_ok addr v0) as (e & He & ->); [done..|].
    assert (Hso : (R3.SERVER_FID_BASE <=? v) = wire_id_server_owned id).
    { unfold R3.is_server_fid, R3.valid_fid in *. rewrite <- Hs. lia. }
    rewrite Hso. destruct (idx =? 0); cbn [encode_frag_ctx encode_frag_open encode_frag_steady];
      match goal with H : fid_for id = _ |- _ => rewrite H end; cbn [of_option ok_or res_bind].
    + destruct (src && negb (wire_id_server_owned id)) eqn:Esrc.
      * exists (R3.FSrc v addr), e. split_and!; try done. simpl in *. lens.
      * exists (R3.FOpen v sess addr src), e. split_and!; try done.
        { cbn. unfold R3.owner_ok. rewrite Hs, Hcl.
          destruct src, (wire_id_server_owned id); try done. by specialize (Ho eq_refl). }
        simpl in *. lens.
    + by exists (R3.FSteady v), [].
  - destruct (header_ok addr v) as (e & He & ->); [done..|].
    exists (R3.FInline sess addr), e. split_and!; try done.
    destruct (idx =? 0); simpl in *; lens.
Qed.

(** The plan's header sizes are those of the encoders: a chunk that fits the
    plan is always encoded. *)
Lemma encode_fragment_some w flow h frag_id idx total chunk limit :
  flow_wf flow -> flow_owner_ok flow -> headers w flow = Ok h -> 0 <= idx < total -> total <= 64 ->
  1 <= len chunk <= 8192 -> hdr_at h idx + len chunk <= limit ->
  exists b, encode_fragment w (h_wire_id h) (h_ctx h) frag_id idx total chunk limit = Ok b.
Proof.
  intros Hwf Ho Hh Hi Ht Hc Hl. rewrite (encode_fragment_ctx w flow) by (done || lia). destruct w.
  - destruct (rev2_fragment_form flow h frag_id idx total chunk limit Hwf Hh)
      as (f & e & -> & ? & ? & ? & Hhl). rewrite <- Hhl in Hl.
    eapply R2.frag_encode_some; try done. unfold R2.frag_meta_ok, R2.R2_MAX_FRAG_TOTAL; lia.
  - destruct (rev3_fragment_form flow h frag_id idx total chunk limit Hwf Ho Hh)
      as (f & e & -> & ? & ? & ? & Hhl). rewrite <- Hhl in Hl.
    eexists. apply R3.frag_encode_spec; [done|]. exists e.
    split_and!; try done; [unfold R3.frag_meta_ok, R3.MAX_FRAG_TOTAL, R3.MAX_FRAG_BYTES; lia | lens].
Qed.

Lemma encode_fragment_len w flow h frag_id idx total chunk limit b :
  flow_wf flow -> flow_owner_ok flow -> headers w flow = Ok h -> 0 <= idx < 256 ->
  encode_fragment w (h_wire_id h) (h_ctx h) frag_id idx total chunk limit = Ok b ->
  len b = hdr_at h idx + len chunk.
Proof.
  intros Hwf Ho Hh Hi. rewrite (encode_fragment_ctx w flow) by done. destruct w.
  - destruct (rev2_fragment_form flow h frag_id idx total chunk limit Hwf Hh)
      as (f & e & -> & ? & ? & ? & <-). by apply R2.frag_encode_len.
  - destruct (rev3_fragment_form flow h frag_id idx total chunk limit Hwf Ho Hh)
      as (f & e & -> & ? & He & ? & <-).
    intros (e' & He' & _ & _ & -> & _)%R3.frag_encode_spec; [|done].
    assert (e' = e) as -> by (destruct f; cbn in *; congruence). lens.
Qed.

(** [fs] are the frames of the chunks [cs], numbered from [idx]. *)
Fixpoint frames_ok (w : Wire) (h : FragHeaders) (total frag_id limit idx : Z)
    (cs fs : list bytes) : Prop :=
  match cs, fs with
  | [], [] => True
  | c :: cs, f :: fs =>
      encode_fragment w (h_wire_id h) (h_ctx h) frag_id idx total c limit = Ok f /\
      frames_ok w h total frag_id limit (idx + 1) cs fs
  | _, _ => False
  end.

Lemma frames_ok_length w h total frag_id limit idx cs fs :
  frames_ok w h total frag_id limit idx cs fs -> length fs = length cs.
Proof.
  revert idx fs. induction cs as [|c cs IH]; intros idx [|f fs] H; try done.
  simpl in *. destruct H as [_ H]. by rewrite (IH _ _ H).
Qed.

Lemma frames_ok_lookup w h total frag_id limit idx cs fs k c :
  frames_ok w h total frag_id limit idx cs fs -> cs !! k = Some c -> exists f, fs !! k = Some f /\
  encode_fragment w (h_wire_id h) (h_ctx h) frag_id (idx + Z.of_nat k) total c limit = Ok f.
Proof.
  revert idx fs k. induction cs as [|c0 cs IH]; intros idx [|f fs] k H Hk; try done.
  destruct H as [Hf H]. destruct k as [|k].
  - injection Hk as <-. exists f. by rewrite Z.add_0_r.
  - replace (idx + Z.of_nat (S k)) with (idx + 1 + Z.of_nat k) by lia. simpl in *. eauto.
Qed.

Lemma frames_build w h total frag_id limit cs idx :
  (forall k c, cs !! k = Some c -> exists b,
     encode_fragment w (h_wire_id h) (h_ctx h) frag_id (idx + Z.of_nat k) total c limit = Ok b) ->
  exists fs, frames_ok w h total frag_id limit idx cs fs.
Proof.
  revert idx. induction cs as [|c cs IH]; intros idx Hk; [by exists []|].
  destruct (Hk 0%nat c eq_refl) as [b Hb]. rewrite Z.add_0_r in Hb.
  destruct (IH (idx + 1)) as [fs Hfs].
  { intros k c' Hc. destruct (Hk (S k) c' Hc) as [b' Hb']. exists b'.
    by replace (idx + 1 + Z.of_nat k) with (idx + Z.of_nat (S k)) by lia. }
  exists (b :: fs). done.
Qed.

Lemma len_concat_elem {A} (cs : list (list A)) k c : cs !! k = Some c -> len c <= len (concat cs).
Proof.
  revert k. induction cs as [|c0 cs IH]; intros k Hk; [done|]. cbn [concat]. destruct k as [|k].
  - injection Hk as <-. lens.
  - pose proof (IH k Hk). lens.
Qed.

(** Every fragment of a plan is encoded: the branch of [send] where the
    encoder and the plan disagree is never taken. *)
Lemma frames_exist w flow h limit frag_id payload p :
  flow_wf flow -> flow_owner_ok flow -> headers w flow = Ok h ->
  FragPlan_new limit (h_first_hdr h) (h_rest_hdr h) (len payload) = Some p ->
  exists fs, frames_ok w h (p_total p) frag_id limit 0 (frag_chunks p payload) fs.
Proof.
  intros Hwf Ho Hh Hp. pose proof (plan_chunks _ _ _ _ _ Hp) as (Hcat & Hlen & Hsz).
  apply plan_spec in Hp as (_ & Ht & Hn & _ & _ & Hfc & Hrc & _); [|lens].
  unfold MQP_FRAG_MAX_TOTAL, R2_FRAG_MAX_PAYLOAD, MQP_FRAG_MAX_PAYLOAD in *.
  apply frames_build. intros k c Hk. pose proof (Hsz k c Hk) as Hc.
  pose proof (len_concat_elem _ _ _ Hk) as Hc'. rewrite Hcat in Hc'.
  assert (Hki : Z.of_nat k < p_total p).
  { rewrite <- Hlen. unfold len. apply lookup_lt_Some in Hk. lia. }
  rewrite Z.add_0_l. eapply encode_fragment_some; try done; try lia.
  unfold chunk_size, hdr_at in *. destruct (Z.of_nat k =? 0); lia.
Qed.

(* ------------------------------------------------------------------ *)
(** ** The send loop *)

Section SendRef.
Context {Conn : Type} `{DatagramConn Conn}.

(** The loop without the plan: queue ready-made frames until one is
    refused. *)
Fixpoint send_all (payload : bytes) (fs : list bytes) (frames : Z) (s : World Conn)
    : PayloadSend * World Conn :=
  match fs with
  | [] =>
      (mkPayloadSend frames None,
       with_stats (stat_fragmented frames)
         (with_stats (stat_payload (len payload)) (with_frag (set_blocked false) s)))
  | f :: fs =>
      match try_send_datagram (w_conn s) f with
      | (Sent, conn) => send_all payload fs (frames + 1) (with_conn conn s)
      | (other, conn) => (mkPayloadSend frames (Some other), send_refused other (with_conn conn s))
      end
  end.

Lemma send_frames_all n idx h p frag_id limit payload offset rest frames s fs :
  plan_ok p -> cursor payload offset rest ->
  frames_ok (fr_wire (w_frag s)) h (p_total p) frag_id limit idx (split_from n idx p rest) fs ->
  send_frames n idx h p frag_id limit payload frames offset s = Ok (send_all payload fs frames s).
Proof.
  intros Hp. revert idx offset rest frames s fs. induction n as [|n IH];
    intros idx offset rest frames s fs Hcur Hfs; destruct fs as [|f fs]; try done.
  cbn [split_from frames_ok send_frames send_all] in *. destruct Hfs as [Hf Hfs].
  rewrite (sub_from_cursor _ _ _ Hcur). cbn [res_bind].
  pose proof (chunk_size_pos p idx Hp) as Hpos.
  set (k := if idx =? 0 then Z.min (p_first_chunk p) (len rest) else Z.min (p_rest_chunk p) (len rest)).
  assert (Hk : k = Z.min (chunk_size p idx) (len rest)) by (unfold k, chunk_size; by case_match).
  assert (Hc : take (Z.to_nat k) rest = take (Z.to_nat (chunk_size p idx)) rest).
  { rewrite Hk. destruct (Z.min_spec (chunk_size p idx) (len rest)) as [[_ ->]|[Hle ->]]; [done|].
    rewrite len_to_nat, (take_ge rest) by lia. rewrite take_ge; [done|]. unfold len in Hle. lia. }
  assert (Hd : drop (Z.to_nat k) rest = drop (Z.to_nat (chunk_size p idx)) rest).
  { rewrite Hk. destruct (Z.min_spec (chunk_size p idx) (len rest)) as [[_ ->]|[Hle ->]]; [done|].
    rewrite len_to_nat, (drop_ge rest) by lia. rewrite drop_ge; [done|]. unfold len in Hle. lia. }
  pose proof (len_nonneg rest).
  assert (Hsub : @sub unit _ rest 0 k = Ok (take (Z.to_nat k) rest)).
  { unfold sub, slice. rewrite (proj2 (Z.leb_le 0 k)), (proj2 (Z.leb_le k (len rest))) by lia.
    cbn. by rewrite Z.sub_0_r. }
  rewrite Hsub, Hc. cbn [res_bind]. rewrite Hf.
  destruct (try_send_datagram (w_conn s) f) as [[] conn]; try done.
  eapply IH; [|exact Hfs]. rewrite <- Hd.
  rewrite <- (take_drop (Z.to_nat k) rest) in Hcur. apply cursor_app in Hcur.
  rewrite len_take, Z.min_l in Hcur by lia. done.
Qed.

Lemma try_send_queues (c : Conn) d r c' : try_send_datagram c d = (r, c') ->
  queued c' = queued c ++ match r with Sent => [d] | _ => [] end.
Proof.
  unfold try_send_datagram. pose proof (send_datagram_queues c d) as Hq.
  destruct (send_datagram_wait c d) as [[[[]|]|] c1]; intros [= <- <-]; exact Hq.
Qed.

(** What reaches the connection is a prefix of the frames, the whole of it
    exactly when the send succeeds. *)
Lemma send_all_prefix payload fs frames s r s' : send_all payload fs frames s = (r, s') ->
  exists k, (k <= length fs)%nat /\ queued (w_conn s') = queued (w_conn s) ++ take k fs /\
  ps_frames r = frames + Z.of_nat k /\ (ps_failed r = None <-> k = length fs) /\
  (last_blocked (w_frag s') = true <-> ps_failed r = Some Blocked) /\ ps_failed r <> Some Sent /\
  fr_wire (w_frag s') = fr_wire (w_frag s) /\ next_id (w_frag s') = next_id (w_frag s).
Proof.
  revert frames s. induction fs as [|f fs IH]; intros frames s; cbn [send_all].
  - intros [= <- <-]. exists 0%nat. cbn. rewrite app_nil_r, Z.add_0_r. by split_and!.
  - destruct (try_send_datagram (w_conn s) f) as [v conn] eqn:E. apply try_send_queues in E.
    destruct v; [intros (k & ? & Hq & ? & ? & ? & ? & ? & ?)%IH; exists (S k) | ..].
    { rewrite Hq. cbn. rewrite E, <- app_assoc. cbn. split_and!; try done; try lia.
      rewrite Nat.succ_inj_wd. done. }
    all: intros [= <- <-]; exists 0%nat; cbn; rewrite E, app_nil_r, Z.add_0_r;
      split_and!; try done; lia.
Qed.

(** A turned-away payload leaves the connection and the ids alone. *)
Definition gate_shut (s : World Conn) (p : FragPlan) (n : Z) : bool :=
  last_blocked (w_frag s) && (datagram_send_buffer_space (w_conn s) <? footprint p n).

Lemma send_open limit flow payload s h p :
  flow_wf flow -> flow_owner_ok flow -> headers (fr_wire (w_frag s)) flow = Ok h ->
  FragPlan_new limit (h_first_hdr h) (h_rest_hdr h) (len payload) = Some p ->
  gate_shut s p (len payload) = false ->
  exists fs, frames_ok (fr_wire (w_frag s)) h (p_total p) (next_id (w_frag s)) limit 0
               (frag_chunks p payload) fs /\
  send limit flow payload s = Ok (send_all payload fs 0
    (with_frag (fun f => mkR2Fragmenter (as_u32 (next_id f + 1)) false (fr_wire f)) s)).
Proof.
  intros Hwf Ho Hh Hp Hg.
  destruct (frames_exist _ flow h limit (next_id (w_frag s)) payload p Hwf Ho Hh Hp) as [fs Hfs].
  exists fs. split; [done|]. unfold send. rewrite Hh, Hp. unfold gate_shut in Hg. rewrite Hg.
  apply send_frames_all with (rest := payload); [|apply cursor_start | exact Hfs].
  apply plan_spec in Hp as [? _]; [done | lens].
Qed.
End SendRef.

(* ------------------------------------------------------------------ *)
(** ** The aggregate gate *)

Fixpoint total_len (fs : list bytes) : Z :=
  match fs with [] => 0 | f :: fs => len f + total_len fs end.

Lemma frames_total_len w flow h p frag_id limit n idx b fs :
  flow_wf flow -> flow_owner_ok flow -> headers w flow = Ok h ->
  0 <= idx -> idx + Z.of_nat n <= 256 -> plan_ok p -> len b <= capacity n idx p ->
  frames_ok w h (p_total p) frag_id limit idx (split_from n idx p b) fs ->
  total_len fs = len b + Z.of_nat n * h_rest_hdr h +
    (if (idx =? 0) && (n =? 0)%nat then 0 else if idx =? 0 then h_first_hdr h - h_rest_hdr h else 0).
Proof.
  intros Hwf Ho Hh. revert idx b fs. induction n as [|n IH]; intros idx b fs Hi Hn Hp Hc Hfs;
    destruct fs as [|f fs]; try done.
  - destruct b; [|cbn in Hc; lens]. cbn. by destruct (idx =? 0).
  - cbn [split_from frames_ok capacity] in *. destruct Hfs as [Hf Hfs].
    pose proof (chunk_size_pos p idx Hp) as Hpos. pose proof (len_nonneg b).
    pose proof (capacity_nonneg n (idx + 1) p Hp).
    apply IH in Hfs; [|try lia; try done..]; [|rewrite len_drop; lia].
    apply (encode_fragment_len _ flow) in Hf; [|done || lia..].
    rewrite len_take in Hf by lia. rewrite len_drop in Hfs by lia.
    cbn [total_len]. rewrite Hf, Hfs. unfold hdr_at.
    rewrite (proj2 (Z.eqb_neq (idx + 1) 0)) by lia. rewrite andb_false_r. cbn [andb].
    destruct (idx =? 0); lia.
Qed.

(** [footprint] is what the frames will take: their bytes, and the
    bookkeeping of all but the first. *)
Lemma footprint_exact w flow h limit frag_id payload p fs :
  flow_wf flow -> flow_owner_ok flow -> headers w flow = Ok h -> is_u32 limit ->
  FragPlan_new limit (h_first_hdr h) (h_rest_hdr h) (len payload) = Some p ->
  0 <= h_first_hdr h -> 0 <= h_rest_hdr h ->
  frames_ok w h (p_total p) frag_id limit 0 (frag_chunks p payload) fs ->
  footprint p (len payload) = total_len fs + (len fs - 1) * FRAME_BOOKKEEPING.
Proof.
  intros Hwf Ho Hh Hlim Hp H1 H2 Hfs.
  pose proof (plan_chunks _ _ _ _ _ Hp) as (_ & Hlen & _).
  pose proof (frames_ok_length _ _ _ _ _ _ _ _ Hfs) as Hl.
  apply plan_spec in Hp as (Hok & Ht & Hn & Hfh & Hrh & Hf & Hr & Hc); [|lens].
  unfold MQP_FRAG_MAX_TOTAL, R2_FRAG_MAX_PAYLOAD, MQP_FRAG_MAX_PAYLOAD, plan_ok in *.
  apply (frames_total_len w flow) in Hfs as ->; [|try done; try lia..].
  assert (Hlf : len fs = p_total p) by (unfold len in *; lia).
  rewrite Hlf, Z2Nat.id by lia. replace ((Z.to_nat (p_total p) =? 0)%nat) with false
    by (symmetry; apply Nat.eqb_neq; lia).
  cbn [andb Z.eqb]. unfold footprint. rewrite Hfh, Hrh. unfold saturating_add, saturating_mul, FRAME_BOOKKEEPING.
  pose proof (len_nonneg payload). unfold is_u32, usize_max in *. nia.
Qed.

Lemma headers_nonneg w flow h : flow_wf flow -> flow_owner_ok flow -> headers w flow = Ok h ->
  0 <= h_first_hdr h /\ 0 <= h_rest_hdr h.
Proof.
  intros Hwf Ho Hh.
  assert (Hat : forall idx, 0 <= hdr_at h idx).
  { intros idx. destruct w.
    - destruct (rev2_fragment_form flow h 0 idx 0 [] 0 Hwf Hh) as (f & e & _ & Hf & _ & _ & <-).
      pose proof (len_nonneg e).
      destruct f; cbn [R2.frag_hdr_len R2.data_form_wf] in *; destruct_and?;
        unfold R2.frag_steady_len, R2.frag_open_len, R2.frag_inline_len; try lia.
      all: match goal with H : is_u32 ?n |- context [R2.varint_len ?n] => destruct (R2.put_varint_spec n H) as (ve & _ & _ & Hv & _) end.
      all: rewrite <- Hv; lens.
    - destruct (rev3_fragment_form flow h 0 idx 0 [] 0 Hwf Ho Hh) as (f & e & _ & _ & _ & _ & <-).
      apply len_nonneg. }
  split; [apply (Hat 0) | apply (Hat 1)].
Qed.

Section Room.
Context {Conn : Type} `{DatagramConn Conn}.

(** A datagram of at most the reported space is not turned away for lack of
    space, and queueing it takes its bytes and the control block. *)
Definition space_honest : Prop := forall (c : Conn) d,
  len d <= datagram_send_buffer_space c ->
  (send_datagram_wait c d).1 <> None /\
  datagram_send_buffer_space c - len d - FRAME_BOOKKEEPING <=
    datagram_send_buffer_space (send_datagram_wait c d).2.

Lemma send_all_room payload fs frames (s : World Conn) : space_honest ->
  total_len fs + (len fs - 1) * FRAME_BOOKKEEPING <= datagram_send_buffer_space (w_conn s) ->
  ps_failed (send_all payload fs frames s).1 <> Some Blocked.
Proof.
  intros Hsp. revert frames s. induction fs as [|f fs IH]; intros frames s; cbn [send_all]; [done|].
  cbn [total_len]. intros Hs. unfold try_send_datagram.
  assert (Hnn : 0 <= total_len fs) by (clear; induction fs; cbn [total_len]; [lia | lens]).
  assert (Hf : len f <= datagram_send_buffer_space (w_conn s))
    by (pose proof (len_nonneg fs); unfold FRAME_BOOKKEEPING in *; lens).
  destruct (Hsp (w_conn s) f Hf) as [Hnb Hleft].
  destruct (send_datagram_wait (w_conn s) f) as [[[[]|]|] c1]; try done.
  destruct fs as [|f' fs]; [done|]. apply IH. cbn [with_conn w_conn]. cbn [fst snd] in *.
  unfold FRAME_BOOKKEEPING in *. lens.
Qed.
End Room.

(* ------------------------------------------------------------------ *)
(** ** A bounded send buffer *)

(** A connection whose outgoing buffer holds [bc_cap] bytes, each queued
    datagram charged with its control block. *)
Record BufConn : Type := mkBufConn { bc_cap : Z; bc_queue : list bytes }.

Definition bc_space (c : BufConn) : Z :=
  saturating_sub (bc_cap c) (total_len (bc_queue c) + len (bc_queue c) * FRAME_BOOKKEEPING).

Definition bc_send (c : BufConn) (d : bytes) : option (SendDatagramError + unit) * BufConn :=
  if len d <=? bc_space c then (Some (inr tt), mkBufConn (bc_cap c) (bc_queue c ++ [d])) else (None, c).

#[export] Instance BufConn_datagram : DatagramConn BufConn.
Proof.
  refine {| send_datagram_wait := bc_send; datagram_send_buffer_space := bc_space; queued := bc_queue |}.
  intros c d. unfold bc_send. destruct (len d <=? bc_space c); [done|]. cbn. by rewrite app_nil_r.
Defined.

Lemma total_len_app a b : total_len (a ++ b) = total_len a + total_len b.
Proof. induction a as [|x a IH]; cbn [total_len app]; [done | lia]. Qed.

Lemma BufConn_space_honest : @space_honest BufConn _.
Proof.
  intros c d. cbn [send_datagram_wait datagram_send_buffer_space BufConn_datagram].
  intros Hd. unfold bc_send. rewrite (proj2 (Z.leb_le _ _) Hd). cbn [fst snd]. split; [done|].
  unfold bc_space, saturating_sub. cbn [bc_cap bc_queue]. rewrite total_len_app, len_app.
  cbn [total_len]. unfold FRAME_BOOKKEEPING. lens.
Qed.

(* ------------------------------------------------------------------ *)
(** ** Claims *)

(** The split plan.  When there is one, the chunks it cuts a payload into
    are at most 64, none is empty, each fits the budget with its header, put
    together in order they are the payload, and one fragment less could not
    hold it.  There is none exactly when the payload is empty or over 8 KiB, a
    header leaves no room, or 64 fragments cannot hold the payload. *)
Theorem frag_plan_partition limit first_hdr rest_hdr (payload : bytes) :
  match FragPlan_new limit first_hdr rest_hdr (len payload) with
  | Some p =>
      concat (frag_chunks p payload) = payload /\ len (frag_chunks p payload) = p_total p /\
      1 <= p_total p <= MQP_FRAG_MAX_TOTAL /\
      (forall k c, frag_chunks p payload !! k = Some c ->
         1 <= len c /\ (if (k =? 0)%nat then first_hdr else rest_hdr) + len c <= limit) /\
      capacity (Z.to_nat (p_total p) - 1) 0 p < len payload
  | None =>
      payload = [] \/ R2_FRAG_MAX_PAYLOAD < len payload \/ limit <= first_hdr \/ limit <= rest_hdr \/
      limit - first_hdr + (MQP_FRAG_MAX_TOTAL - 1) * (limit - rest_hdr) < len payload
  end.
Proof.
  destruct (FragPlan_new _ _ _ _) as [p|] eqn:Hp.
  - pose proof (plan_chunks _ _ _ _ _ Hp) as (Hcat & Hlen & Hsz).
    apply plan_spec in Hp as (Hok & Ht & Hn & Hfh & Hrh & Hf & Hr & Hc); [|lens].
    split_and!; try done; try lia. intros k c Hk. pose proof (Hsz k c Hk) as Hck.
    unfold chunk_size in Hck. destruct k; [change (Z.of_nat 0 =? 0) with true in Hck; cbn [Nat.eqb]; lia|].
    rewrite (proj2 (Z.eqb_neq _ 0)) in Hck by lia. cbn [Nat.eqb]. lia.
  - by apply plan_none.
Qed.


(** A send over a buffer of 4000 bytes: three frames of a rev2 opening flow. *)
Definition example_world : World BufConn :=
  mkWorld (mkR2Fragmenter 7 false Rev2) (mkBufConn 4000 []) (mkSendStats 0 0 0 0 0).


(** The gate makes a fragmented payload all-or-nothing.  After a frame was
    refused for lack of space, a payload is started only when the buffer can
    hold every frame of it with its bookkeeping ([footprint] is exactly that);
    otherwise nothing is queued, no fragment id is spent and one drop is
    booked.  Given a connection that honours the space it reports, a payload
    that reports [Blocked] has queued no frame at all. *)
Theorem frag_gate_all_or_nothing {Conn} `{DatagramConn Conn} limit flow payload (s : World Conn) h p :
  @space_honest Conn _ -> flow_wf flow -> flow_owner_ok flow -> is_u32 limit ->
  headers (fr_wire (w_frag s)) flow = Ok h ->
  FragPlan_new limit (h_first_hdr h) (h_rest_hdr h) (len payload) = Some p ->
  last_blocked (w_frag s) = true ->
  (gate_shut s p (len payload) = true ->
     send limit flow payload s =
       Ok (mkPayloadSend 0 (Some Blocked), with_stats note_send_buffer_full s)) /\
  (gate_shut s p (len payload) = false <-> exists fs,
     frames_ok (fr_wire (w_frag s)) h (p_total p) (next_id (w_frag s)) limit 0 (frag_chunks p payload) fs /\
     total_len fs + (len fs - 1) * FRAME_BOOKKEEPING <= datagram_send_buffer_space (w_conn s)) /\
  exists r s', send limit flow payload s = Ok (r, s') /\
    (ps_failed r = Some Blocked -> ps_frames r = 0 /\ queued (w_conn s') = queued (w_conn s)).
Proof.
  intros Hsp Hwf Ho Hlim Hh Hp Hb. destruct (headers_nonneg _ _ _ Hwf Ho Hh) as [Hn1 Hn2].
  assert (Hfp : forall fs, frames_ok (fr_wire (w_frag s)) h (p_total p) (next_id (w_frag s)) limit 0
    (frag_chunks p payload) fs -> footprint p (len payload) = total_len fs + (len fs - 1) * FRAME_BOOKKEEPING)
    by (intros fs Hfs; eauto using footprint_exact).
  assert (Hshut : gate_shut s p (len payload) = true -> send limit flow payload s =
       Ok (mkPayloadSend 0 (Some Blocked), with_stats note_send_buffer_full s)).
  { intros Hg. unfold gate_shut in Hg. unfold send. rewrite Hh, Hp. by rewrite Hg. }
  split_and!; [done | |].
  - unfold gate_shut. rewrite Hb. cbn [andb]. rewrite Z.ltb_ge. split.
    + intros Hle. destruct (frames_exist _ flow h limit (next_id (w_frag s)) payload p Hwf Ho Hh Hp) as [fs Hfs].
      exists fs. rewrite <- (Hfp fs Hfs). done.
    + intros (fs & Hfs & Hle). by rewrite (Hfp fs Hfs).
  - destruct (gate_shut s p (len payload)) eqn:Hg; [by eexists _, _; split; [auto|]|].
    destruct (send_open _ _ _ _ _ _ Hwf Ho Hh Hp Hg) as (fs & Hfs & ->).
    destruct (send_all _ _ _ _) as [r s'] eqn:E. exists r, s'. split; [done|].
    intros Hbl. exfalso. eapply (send_all_room payload fs 0); [exact Hsp | | by rewrite E].
    unfold gate_shut in Hg. rewrite Hb in Hg. cbn [andb] in Hg. apply Z.ltb_ge in Hg.
    by rewrite (Hfp fs Hfs) in Hg.
Qed.

(** A blocked rev3 fragmenter before a buffer with 100 free bytes. *)
Definition example_blocked : World BufConn :=
  mkWorld (mkR2Fragmenter 7 true Rev3) (mkBufConn 100 []) (mkSendStats 0 0 0 0 0).

Lemma frag_gate_all_or_nothing_witness :
  let s := example_blocked in
  let payload := repeat 1 50 in
  let p := mkFragPlan 3 9 9 21 21 in
  let h := mkFragHeaders (Some 5) 9 9 None in
  (gate_shut s p (len payload) = true ->
     send 30 (Steady 5) payload s =
       Ok (mkPayloadSend 0 (Some Blocked), with_stats note_send_buffer_full s)) /\
  (gate_shut s p (len payload) = false <-> exists fs,
     frames_ok (fr_wire (w_frag s)) h (p_total p) (next_id (w_frag s)) 30 0 (frag_chunks p payload) fs /\
     total_len fs + (len fs - 1) * FRAME_BOOKKEEPING <= datagram_send_buffer_space (w_conn s)) /\
  exists r s', send 30 (Steady 5) payload s = Ok (r, s') /\
    (ps_failed r = Some Blocked -> ps_frames r = 0 /\ queued (w_conn s') = queued (w_conn s)).
Proof.
  apply (frag_gate_all_or_nothing 30 (Steady 5) (repeat 1 50) example_blocked
    (mkFragHeaders (Some 5) 9 9 None) (mkFragPlan 3 9 9 21 21));
    [apply BufConn_space_honest | cbn; split; concrete | done | concrete | reflexivity..].
Defined.
