(* ===== verification/Partial.v ===== *)
(** One payload under reassembly, [Partial] of [src/udp/r2_reasm.rs]: the
    assembly buffer, the chunks that wait for their position and the retained
    footprint.  The lemmas show that it is the slot table it replaced: the
    buffer of a complete partial is the concatenation of the chunks accepted
    for its indices, in whatever order they came. *)
From S2P Require Import Prelude Addr Codec Frag.

(* ------------------------------------------------------------------ *)
(** ** Vectors with their capacity *)

Record Vec (A : Type) : Type := mkVec { v_data : list A; v_cap : Z }.
Arguments mkVec {A} v_data v_cap.
Arguments v_data {A} v.
Arguments v_cap {A} v.

Definition Vec_new {A} : Vec A := mkVec [] 0.

(** The amortised growth of the standard library: at least double, at least
    what is needed, at least [min] ([RawVec]'s [MIN_NON_ZERO_CAP]). *)
Definition vec_reserve {A} (min : Z) (v : Vec A) (additional : Z) : Vec A :=
  let need := len (v_data v) + additional in
  if v_cap v <? need then mkVec (v_data v) (Z.max min (Z.max (2 * v_cap v) need)) else v.

Definition vec_extend {A} (min : Z) (v : Vec A) (x : list A) : Vec A :=
  let v := vec_reserve min v (len x) in mkVec (v_data v ++ x) (v_cap v).

Definition vec_push {A} (min : Z) (v : Vec A) (x : A) : Vec A := vec_extend min v [x].

(** [swap_remove(i)]: the last element takes the place of the one removed. *)
Definition vec_swap_remove {A} (v : Vec A) (i : nat) : option (A * Vec A) :=
  match v_data v !! i, v_data v !! (length (v_data v) - 1)%nat with
  | Some x, Some z =>
      Some (x, mkVec (take (length (v_data v) - 1) (<[i := z]> (v_data v))) (v_cap v))
  | _, _ => None
  end.

Definition U8_MIN_CAP : Z := 8.
Definition CHUNK_MIN_CAP : Z := 4.

(** Sizes the compiler lays out: [size_of::<PendingChunk>()],
    [size_of::<Partial>()] and [size_of::<(FragKey, u64)>()]. *)
Class Layout : Type := {
  size_of_PendingChunk : Z;
  size_of_Partial : Z;
  ORDER_SLOT_BYTES : Z;
  size_of_PendingChunk_ok : 0 < size_of_PendingChunk <= 64;
  size_of_Partial_ok : 0 < size_of_Partial <= 1024;
  order_slot_ok : 0 < ORDER_SLOT_BYTES <= 64
}.

(** Sizes of a 64-bit build. *)
#[export] Instance layout_64 : Layout.
Proof. refine {| size_of_PendingChunk := 40; size_of_Partial := 208; ORDER_SLOT_BYTES := 24 |}; lia. Defined.

(* ------------------------------------------------------------------ *)
(** ** Fragments and partials *)

Record FragCtx : Type := mkFragCtx {
  c_sess : Z;
  c_addr : TargetAddr;
  c_src : bool
}.

#[export] Instance FragCtx_eq_dec : EqDecision FragCtx.
Proof. solve_decision. Defined.

Record PendingChunk : Type := mkPendingChunk { pc_idx : Z; pc_bytes : bytes }.

Definition PENDING_CHUNK_COST : Z := 48.

Record Partial : Type := mkPartial {
  pt_total : Z;
  pt_ctx : option FragCtx;
  pt_buf : Vec Z;
  pt_got : Z;
  pt_first_len : option Z;
  pt_unit : option Z;
  pt_pending : Vec PendingChunk;
  pt_bytes : Z;
  pt_retained : Z;
  pt_first_ms : Z
}.

Definition Partial_new (total : Z) (ctx : option FragCtx) (now_ms : Z) : Partial :=
  mkPartial total ctx Vec_new 0 None None Vec_new 0 0 now_ms.

Definition pos_of (first_len unit : option Z) (idx : Z) : option Z :=
  if idx =? 0 then Some 0 else
  head ← first_len;
  let steps := idx - 1 in
  unit ← (if steps =? 0 then Some 0 else unit);
  m ← checked_mul steps unit;
  checked_add head m.

Definition buf_write (buf : Vec Z) (pos : Z) (x : bytes) : res unit (bool * Vec Z) :=
  match checked_add pos (len x) with
  | None => Ok (false, buf)
  | Some e =>
      if e >? MQP_FRAG_MAX_PAYLOAD then Ok (false, buf) else
      if pos =? len (v_data buf) then Ok (true, vec_extend U8_MIN_CAP buf x) else
      let buf := if len (v_data buf) <? e
                 then vec_extend U8_MIN_CAP buf (repeat 0 (Z.to_nat (e - len (v_data buf))))
                 else buf in
      let! d := write_at (v_data buf) pos x in
      Ok (true, mkVec d (v_cap buf))
  end.

(** [debug_assert!(placed)] *)
Definition assert_placed (r : bool * Vec Z) : res unit (Vec Z) :=
  if r.1 then Ok r.2 else Panic.

(** The [while] loop from position [i]; each turn moves [i] on or removes a
    chunk, so as many turns as there are chunks reach the end. *)
Fixpoint drain_go (fuel : nat) (first_len width : option Z) (i : nat) (buf : Vec Z)
    (pending : Vec PendingChunk) : res unit (Vec Z * Vec PendingChunk) :=
  match fuel, v_data pending !! i with
  | S fuel, Some c =>
      match pos_of first_len width (pc_idx c) with
      | None => drain_go fuel first_len width (S i) buf pending
      | Some pos =>
          match checked_add pos (len (pc_bytes c)) with
          | Some e =>
              if e <=? MQP_FRAG_MAX_PAYLOAD then
                let! '(c, pending) := or_panic (vec_swap_remove pending i) in
                let! w := buf_write buf pos (pc_bytes c) in
                let! buf := assert_placed w in
                drain_go fuel first_len width i buf pending
              else drain_go fuel first_len width (S i) buf pending
          | None => drain_go fuel first_len width (S i) buf pending
          end
      end
  | _, _ => Ok (buf, pending)
  end.

Definition drain_pending (p : Partial) : res unit Partial :=
  let! '(buf, pending) :=
    drain_go (length (v_data (pt_pending p))) (pt_first_len p) (pt_unit p) 0 (pt_buf p) (pt_pending p) in
  Ok (mkPartial (pt_total p) (pt_ctx p) buf (pt_got p) (pt_first_len p) (pt_unit p) pending
        (pt_bytes p) (pt_retained p) (pt_first_ms p)).

Fixpoint pending_cost (l : list PendingChunk) : Z :=
  match l with [] => 0 | c :: l => len (pc_bytes c) + PENDING_CHUNK_COST + pending_cost l end.

Section Footprint.
Context {LO : Layout}.

Definition pending_charge (pending_len pending_cap n : Z) : Z :=
  let slots :=
    if pending_len <? pending_cap then 0
    else saturating_mul (if pending_cap =? 0 then 4 else saturating_mul pending_cap 2)
           size_of_PendingChunk in
  saturating_add (saturating_add n PENDING_CHUNK_COST) slots.

Definition recompute_retained (p : Partial) : Partial :=
  let pending := pending_cost (v_data (pt_pending p)) + v_cap (pt_pending p) * size_of_PendingChunk in
  mkPartial (pt_total p) (pt_ctx p) (pt_buf p) (pt_got p) (pt_first_len p) (pt_unit p) (pt_pending p)
    (pt_bytes p) (v_cap (pt_buf p) + pending + size_of_Partial) (pt_first_ms p).

(** [partial.ctx = incoming.clone()] when it has none. *)
Definition learn_ctx (incoming : option FragCtx) (p : Partial) : Partial :=
  mkPartial (pt_total p) (match pt_ctx p with None => incoming | Some c => Some c end) (pt_buf p)
    (pt_got p) (pt_first_len p) (pt_unit p) (pt_pending p) (pt_bytes p) (pt_retained p) (pt_first_ms p).

Definition is_middle (idx total : Z) : bool := (1 <=? idx) && negb (idx =? total - 1).

(** The determinators once fragment [idx] of [n] bytes has landed. *)
Definition first_after (p : Partial) (idx n : Z) : option Z :=
  if idx =? 0 then Some n else pt_first_len p.
Definition unit_after (p : Partial) (idx n : Z) : option Z :=
  match pt_unit p with
  | None => if is_middle idx (pt_total p) then Some n else None
  | Some w => Some w
  end.

(** Write the chunk at its position, or let it wait for one. *)
Definition store (pos : option Z) (idx : Z) (chunk : bytes) (p : Partial)
    : res unit (Vec Z * Vec PendingChunk) :=
  match pos with
  | Some pos =>
      let buf := if v_cap (pt_buf p) =? 0
                 then vec_reserve U8_MIN_CAP (pt_buf p)
                        (Z.min (pt_total p * len chunk) MQP_FRAG_MAX_PAYLOAD)
                 else pt_buf p in
      let! w := buf_write buf pos chunk in
      let! buf := assert_placed w in
      Ok (buf, pt_pending p)
  | None => Ok (pt_buf p, vec_push CHUNK_MIN_CAP (pt_pending p) (mkPendingChunk idx chunk))
  end.

(** What [push_frame] does to the partial of an accepted fragment: [false]
    when the position lies past the payload bound. *)
Definition place (idx : Z) (chunk : bytes) (p : Partial) : res unit (bool * Partial) :=
  let n := len chunk in
  let first := first_after p idx n in
  let width := unit_after p idx n in
  let pos := pos_of first width idx in
  if match pos with Some pos => saturating_add pos n >? MQP_FRAG_MAX_PAYLOAD | None => false end
  then Ok (false, p) else
  let got := Z.lor (pt_got p) (Z.shiftl 1 idx) in
  let! '(buf, pending) := store pos idx chunk p in
  let q := mkPartial (pt_total p) (pt_ctx p) buf got first width pending (pt_bytes p + n)
             (pt_retained p) (pt_first_ms p) in
  let! q := (if bool_decide (first <> pt_first_len p \/ width <> pt_unit p)
             then drain_pending q else Ok q) in
  Ok (true, recompute_retained q).

(** [got == want], the low [total] bits. *)
Definition complete (p : Partial) : bool :=
  pt_got p =? (if pt_total p <? 64 then Z.shiftl 1 (pt_total p) - 1 else 2 ^ 64 - 1).
End Footprint.

(* ------------------------------------------------------------------ *)
(** ** Lemmas: vectors and the assembly buffer *)

Lemma vec_extend_data {A} min (v : Vec A) x : v_data (vec_extend min v x) = v_data v ++ x.
Proof. unfold vec_extend, vec_reserve. by case_match. Qed.

Lemma vec_extend_cap {A} min (v : Vec A) x : 0 <= min -> len (v_data v) <= v_cap v ->
  v_cap v <= v_cap (vec_extend min v x) /\ len (v_data v) + len x <= v_cap (vec_extend min v x) /\
  v_cap (vec_extend min v x) <= Z.max (v_cap v) (Z.max min (2 * (len (v_data v) + len x))).
Proof.
  intros Hm Hl. pose proof (len_nonneg x). unfold vec_extend, vec_reserve.
  destruct (Z.ltb_spec (v_cap v) (len (v_data v) + len x)); cbn [v_cap]; lia.
Qed.

(** The chunk [c] lies in the buffer at [pos]. *)
Definition sits (buf : bytes) (pos : Z) (c : bytes) : Prop :=
  forall k, (k < length c)%nat -> buf !! (Z.to_nat pos + k)%nat = c !! k.

(** [buf'] is [buf] with [x] written at [pos]. *)
Definition written (buf buf' : Vec Z) (pos : Z) (x : bytes) : Prop :=
  sits (v_data buf') pos x /\
  (forall k, (Z.of_nat k < pos \/ pos + len x <= Z.of_nat k) -> (k < length (v_data buf))%nat ->
     v_data buf' !! k = v_data buf !! k) /\
  len (v_data buf') = Z.max (len (v_data buf)) (pos + len x) /\
  (len (v_data buf) <= v_cap buf -> len (v_data buf') <= v_cap buf' /\ v_cap buf <= v_cap buf' /\
     v_cap buf' <= Z.max (v_cap buf) (2 * MQP_FRAG_MAX_PAYLOAD)).

Lemma write_at_written (d x : bytes) pos : 0 <= pos -> pos + len x <= len d ->
  exists d', @write_at unit Z d pos x = Ok d' /\ len d' = len d /\ sits d' pos x /\
  forall k, (Z.of_nat k < pos \/ pos + len x <= Z.of_nat k) -> d' !! k = d !! k.
Proof.
  intros Hp Hl. unfold write_at. rewrite (proj2 (Z.leb_le _ _) Hl). eexists. split; [done|].
  assert (Hx : Z.to_nat (pos + len x) = (Z.to_nat pos + length x)%nat) by (unfold len; lia).
  assert (Ht : length (take (Z.to_nat pos) d) = Z.to_nat pos)
    by (rewrite length_take; unfold len in *; lia).
  rewrite Hx. split_and!.
  - unfold len in *. rewrite !length_app, length_take, length_drop. lia.
  - intros k Hk. rewrite lookup_app_r by lia.
    rewrite Ht, lookup_app_l by lia. f_equal. lia.
  - intros k [Hk|Hk].
    + rewrite lookup_app_l by lia. apply lookup_take_lt. lia.
    + unfold len in Hk. rewrite lookup_app_r by lia. rewrite Ht, lookup_app_r by lia.
      rewrite lookup_drop. f_equal. lia.
Qed.

Lemma buf_write_spec buf pos x : 0 <= pos -> 1 <= len x -> pos + len x <= MQP_FRAG_MAX_PAYLOAD ->
  len (v_data buf) <= MQP_FRAG_MAX_PAYLOAD ->
  exists buf', buf_write buf pos x = Ok (true, buf') /\ written buf buf' pos x.
Proof.
  intros Hp Hx He Hb. unfold buf_write, MQP_FRAG_MAX_PAYLOAD in *.
  rewrite checked_add_small by ulia. rewrite Z.gtb_ltb, (proj2 (Z.ltb_ge _ _) He).
  destruct (Z.eqb_spec pos (len (v_data buf))) as [->|Hne].
  - eexists. split; [done|]. unfold written. rewrite vec_extend_data. split_and!.
    + intros k Hk. rewrite len_to_nat, lookup_app_r by lia. f_equal. lia.
    + intros k _ Hk. by apply lookup_app_l.
    + lens.
    + intros Hc. pose proof (vec_extend_cap U8_MIN_CAP buf x ltac:(done) Hc) as (? & ? & ?).
      unfold U8_MIN_CAP, MQP_FRAG_MAX_PAYLOAD in *. lens.
  - set (b1 := if len (v_data buf) <? pos + len x then _ else buf).
    assert (Hb1 : pos + len x <= len (v_data b1) /\
      len (v_data b1) = Z.max (len (v_data buf)) (pos + len x) /\
      (forall k, (k < length (v_data buf))%nat -> v_data b1 !! k = v_data buf !! k) /\
      (len (v_data buf) <= v_cap buf -> len (v_data b1) <= v_cap b1 /\ v_cap buf <= v_cap b1 /\
         v_cap b1 <= Z.max (v_cap buf) (2 * 8192))).
    { unfold b1. destruct (Z.ltb_spec (len (v_data buf)) (pos + len x)) as [Hlt|Hge].
      - set (z := repeat 0 _). assert (Hz : len z = pos + len x - len (v_data buf)).
        { unfold z, len. rewrite repeat_length. unfold len in *. lia. }
        rewrite vec_extend_data, len_app. split_and!; try lia.
        + intros k Hk. by apply lookup_app_l.
        + intros Hc. pose proof (vec_extend_cap U8_MIN_CAP buf z ltac:(done) Hc) as (? & ? & ?).
          unfold U8_MIN_CAP in *. lia.
      - split_and!; try lia. done. }
    destruct Hb1 as (H1 & H2 & H3 & H4).
    destruct (write_at_written (v_data b1) x pos Hp H1) as (d' & -> & Hl & Hs & Hk).
    eexists. split; [done|]. split_and!; cbn [v_data v_cap]; try done.
    + intros k Hr Hkl. by rewrite Hk, H3.
    + lia.
    + intros Hc. destruct (H4 Hc) as (? & ? & ?). unfold MQP_FRAG_MAX_PAYLOAD. lia.
Qed.

(** A chunk elsewhere in the buffer stays where it was. *)
Lemma sits_written buf buf' pos x q c : written buf buf' pos x -> 0 <= pos -> 0 <= q ->
  sits (v_data buf) q c -> q + len c <= len (v_data buf) -> (q + len c <= pos \/ pos + len x <= q) ->
  sits (v_data buf') q c.
Proof.
  intros (_ & Hk & _) Hp Hq Hs Hl Hd k Hkc. rewrite Hk; [by apply Hs | |]; unfold len in *; lia.
Qed.

(* ------------------------------------------------------------------ *)
(** ** The slot table *)

(** The chunks of a payload by index, as far as they have landed. *)
Abbreviation slots := (list (option bytes)).

Definition chunks (sl : slots) : list bytes := default [] <$> sl.

Definition landed (sl : slots) (i : nat) (c : bytes) : Prop := sl !! i = Some (Some c).

(** The determinators are those of the chunks that landed: the length of the
    first one and the common length of those between the first and the last. *)
Record shape (first width : option Z) (sl : slots) : Prop := mkShape {
  sh_total : (2 <= length sl <= 64)%nat;
  sh_nonempty i c : landed sl i c -> 1 <= len c;
  sh_first w : first = Some w <-> exists c, landed sl 0 c /\ len c = w;
  sh_width i c : landed sl i c -> (1 <= i)%nat -> (S i < length sl)%nat -> width = Some (len c);
  sh_width_ex w : width = Some w -> exists i c, landed sl i c /\ (1 <= i)%nat /\
    (S i < length sl)%nat /\ len c = w;
  sh_bytes : len (concat (chunks sl)) <= MQP_FRAG_MAX_PAYLOAD
}.

Lemma landed_chunks sl i c : landed sl i c -> chunks sl !! i = Some c.
Proof. unfold landed, chunks. intros H. rewrite list_lookup_fmap, H. done. Qed.

Lemma landed_bound sl i c : landed sl i c -> len c <= len (concat (chunks sl)).
Proof. intros H%landed_chunks. by eapply len_concat_elem. Qed.

Lemma shape_first_bound first width sl w : shape first width sl -> first = Some w ->
  1 <= w <= MQP_FRAG_MAX_PAYLOAD.
Proof.
  intros H (c & Hc & <-)%(sh_first _ _ _ H). pose proof (sh_nonempty _ _ _ H _ _ Hc).
  pose proof (landed_bound _ _ _ Hc). pose proof (sh_bytes _ _ _ H). lia.
Qed.

Lemma shape_width_bound first width sl w : shape first width sl -> width = Some w ->
  1 <= w <= MQP_FRAG_MAX_PAYLOAD.
Proof.
  intros H (i & c & Hc & _ & _ & <-)%(sh_width_ex _ _ _ H). pose proof (sh_nonempty _ _ _ H _ _ Hc).
  pose proof (landed_bound _ _ _ Hc). pose proof (sh_bytes _ _ _ H). lia.
Qed.

(** Positions are computed without overflow. *)
Lemma pos_of_shape first width sl i : shape first width sl -> (i < length sl)%nat ->
  pos_of first width (Z.of_nat i) =
    match i with
    | O => Some 0
    | 1%nat => first
    | S k => h ← first; w ← width; Some (h + Z.of_nat k * w)
    end.
Proof.
  intros H Hi. pose proof (sh_total _ _ _ H). unfold pos_of. destruct i as [|[|k]]; [done| |].
  - change (Z.of_nat 1 =? 0) with false. change (Z.of_nat 1 - 1 =? 0) with true. cbn [mbind option_bind].
    destruct first as [h|] eqn:E; [|done]. cbn [mbind option_bind].
    pose proof (shape_first_bound _ _ _ _ H eq_refl). unfold MQP_FRAG_MAX_PAYLOAD in *.
    rewrite checked_mul_small by ulia. cbn [mbind option_bind]. rewrite checked_add_small by ulia.
    f_equal. lia.
  - rewrite (proj2 (Z.eqb_neq _ 0)) by lia. destruct first as [h|] eqn:E; [|done]. cbn [mbind option_bind].
    rewrite (proj2 (Z.eqb_neq (_ - 1) 0)) by lia. destruct width as [w|] eqn:E'; [|done].
    cbn [mbind option_bind].
    pose proof (shape_first_bound _ _ _ _ H eq_refl). pose proof (shape_width_bound _ _ _ _ H eq_refl).
    unfold MQP_FRAG_MAX_PAYLOAD in *. replace (Z.of_nat (S (S k)) - 1) with (Z.of_nat (S k)) by lia.
    rewrite checked_mul_small by (unfold usize_max; nia). cbn [mbind option_bind].
    rewrite checked_add_small by (unfold usize_max; nia). done.
Qed.

Lemma pos_of_bound first width sl i a : shape first width sl -> (i < length sl)%nat ->
  pos_of first width (Z.of_nat i) = Some a -> 0 <= a <= 64 * MQP_FRAG_MAX_PAYLOAD.
Proof.
  intros H Hi Ha. rewrite (pos_of_shape _ _ _ _ H Hi) in Ha. pose proof (sh_total _ _ _ H).
  destruct i as [|[|k]].
  - injection Ha as <-. unfold MQP_FRAG_MAX_PAYLOAD. lia.
  - pose proof (shape_first_bound _ _ _ _ H Ha). lia.
  - destruct first as [h|] eqn:E; [|done]. destruct width as [w|] eqn:E'; [|done].
    cbn [mbind option_bind] in Ha. injection Ha as <-.
    pose proof (shape_first_bound _ _ _ _ H eq_refl). pose proof (shape_width_bound _ _ _ _ H eq_refl).
    unfold MQP_FRAG_MAX_PAYLOAD in *. nia.
Qed.

(** Chunks lie in the order of their indices, without overlap. *)
Lemma pos_of_order first width sl i j c a b : shape first width sl ->
  landed sl i c -> (i < j < length sl)%nat ->
  pos_of first width (Z.of_nat i) = Some a -> pos_of first width (Z.of_nat j) = Some b -> a + len c <= b.
Proof.
  intros H Hc Hij Ha Hb. rewrite (pos_of_shape _ _ _ i H) in Ha by lia. rewrite (pos_of_shape _ _ _ j H) in Hb by lia.
  destruct i as [|i].
  - assert (Hf : first = Some (len c)) by (apply (sh_first _ _ _ H); eauto). injection Ha as <-.
    destruct j as [|[|k]]; [lia | rewrite Hf in Hb; injection Hb as <-; lia|].
    rewrite Hf in Hb. destruct width as [w|] eqn:E; [|done]. cbn [mbind option_bind] in Hb.
    injection Hb as <-. pose proof (shape_width_bound _ _ _ _ H eq_refl). nia.
  - assert (Hw : width = Some (len c)) by (apply (sh_width _ _ _ H (S i)); [done | lia..]).
    destruct j as [|[|k]]; [lia | lia|]. rewrite Hw in Ha, Hb. destruct first as [h|]; [|by destruct i].
    cbn [mbind option_bind] in *. injection Hb as <-. pose proof (sh_nonempty _ _ _ H _ _ Hc).
    destruct i as [|i]; injection Ha as <-; nia.
Qed.

(* ------------------------------------------------------------------ *)
(** ** What a partial holds *)

Definition placed (first width : option Z) (buf : Vec Z) (i : nat) (c : bytes) : Prop :=
  exists pos, pos_of first width (Z.of_nat i) = Some pos /\ pos + len c <= MQP_FRAG_MAX_PAYLOAD /\
    pos + len c <= len (v_data buf) /\ sits (v_data buf) pos c.

(** A chunk with no position yet, or with one past the payload bound. *)
Definition stuck (first width : option Z) (x : PendingChunk) : Prop :=
  match pos_of first width (pc_idx x) with
  | Some pos => MQP_FRAG_MAX_PAYLOAD < pos + len (pc_bytes x)
  | None => True
  end.

(** Every chunk that landed is in the buffer or waits, and nothing else is
    there. *)
Record holds (first width : option Z) (sl : slots) (buf : Vec Z) (pend : list PendingChunk) : Prop :=
mkHolds {
  ho_slot i c : landed sl i c -> placed first width buf i c \/ mkPendingChunk (Z.of_nat i) c ∈ pend;
  ho_pend x : x ∈ pend -> exists i, pc_idx x = Z.of_nat i /\ landed sl i (pc_bytes x);
  ho_nodup : NoDup (pc_idx <$> pend);
  ho_end : len (v_data buf) = 0 \/ exists i c pos, landed sl i c /\
    pos_of first width (Z.of_nat i) = Some pos /\ pos + len c = len (v_data buf);
  ho_len : len (v_data buf) <= MQP_FRAG_MAX_PAYLOAD
}.

Lemma landed_lt sl i c : landed sl i c -> (i < length sl)%nat.
Proof. apply lookup_lt_Some. Qed.

(** Writing a chunk at its position. *)
Lemma holds_write first width sl buf buf' (pend pend' : list PendingChunk) i c pos :
  shape first width sl -> landed sl i c ->
  (forall j d, landed sl j d -> j <> i ->
     placed first width buf j d \/ mkPendingChunk (Z.of_nat j) d ∈ pend') ->
  (forall x, x ∈ pend' -> x ∈ pend /\ pc_idx x <> Z.of_nat i) -> NoDup (pc_idx <$> pend') ->
  (forall x, x ∈ pend -> exists i, pc_idx x = Z.of_nat i /\ landed sl i (pc_bytes x)) ->
  (len (v_data buf) = 0 \/ exists i c pos, landed sl i c /\
     pos_of first width (Z.of_nat i) = Some pos /\ pos + len c = len (v_data buf)) ->
  len (v_data buf) <= MQP_FRAG_MAX_PAYLOAD ->
  pos_of first width (Z.of_nat i) = Some pos -> pos + len c <= MQP_FRAG_MAX_PAYLOAD ->
  written buf buf' pos c ->
  holds first width sl buf' pend'.
Proof.
  intros Hsh Hi Hothers Hp' Hnd Hp Hend Hlen Hpos Hb Hw.
  assert (Hp0 : 0 <= pos) by (eapply pos_of_bound; [done | by eapply landed_lt | done]).
  destruct Hw as (Hs & Hk & Hl & Hc).
  split.
  - intros j d Hj. destruct (decide (j = i)) as [->|Hne].
    + unfold landed in *. rewrite Hi in Hj. injection Hj as <-. left. exists pos. split_and!; try done; lia.
    + destruct (Hothers j d Hj Hne) as [(q & Hq & Hqb & Hql & Hqs)|]; [left|by right].
      assert (Hq0 : 0 <= q) by (eapply pos_of_bound; [done | by eapply landed_lt | done]).
      exists q. split_and!; try done; [lia|].
      apply (sits_written buf buf' pos c); try done.
      pose proof (landed_lt _ _ _ Hi). pose proof (landed_lt _ _ _ Hj).
      destruct (Nat.lt_gt_cases j i) as [[Hlt|Hlt] _]; [done | left | right].
      * by apply (pos_of_order first width sl j i d q pos).
      * by apply (pos_of_order first width sl i j c pos q).
  - intros x Hx. by apply Hp, Hp'.
  - done.
  - rewrite Hl. destruct (Z.max_spec (len (v_data buf)) (pos + len c)) as [[? ->]|[? ->]].
    + right. by exists i, c, pos.
    + destruct Hend as [?|?]; [|by right]. left. lia.
  - lia.
Qed.

Lemma vec_swap_remove_spec {A} (v : Vec A) i x : v_data v !! i = Some x ->
  exists v', vec_swap_remove v i = Some (x, v') /\ v_data v ≡ₚ x :: v_data v' /\
    (forall k, (k < i)%nat -> v_data v' !! k = v_data v !! k) /\ v_cap v' = v_cap v.
Proof.
  intros Hx. unfold vec_swap_remove. rewrite Hx. destruct v as [d cap]. cbn [v_data v_cap] in *.
  destruct (nil_or_length_pos d) as [->|Hn]; [done|].
  destruct (lookup_lt_is_Some_2 d (length d - 1)) as [z Hz]; [lia|]. rewrite Hz.
  eexists. split; [done|]. cbn [v_data v_cap].
  pose proof (lookup_lt_Some _ _ _ Hx) as Hi.
  assert (Hk : forall k, (k < i)%nat -> take (length d - 1) (<[i:=z]> d) !! k = d !! k).
  { intros k Hk. rewrite lookup_take_lt by lia. by apply list_lookup_insert_ne; lia. }
  split_and!; [|done..].
  apply list_elem_of_split_length in Hx as (a & b & -> & Ha).
  rewrite insert_app_r_alt by lia. rewrite Ha, Nat.sub_diag. cbn [list_insert insert].
  rewrite length_app in *. cbn [length] in *.
  destruct b as [|y b] using rev_ind; [|clear IHb].
  - cbn [length]; replace (length a + 1 - 1)%nat with (length a) by lia. rewrite take_app_length.
    by rewrite Permutation_app_comm.
  - rewrite !length_app in *. cbn [length] in *.
    replace (length a + S (length b + 1) - 1)%nat with (length a + S (length b))%nat in * by lia.
    rewrite lookup_app_r in Hz by lia. replace (length a + S (length b) - length a)%nat with (S (length b)) in Hz by lia.
    change ((b ++ [y]) !! length b = Some z) in Hz. rewrite lookup_app_r, Nat.sub_diag in Hz by lia.
    injection Hz as ->.
    rewrite take_app_add. cbn [take]. rewrite take_app_length.
    rewrite <- (Permutation_middle a). constructor. rewrite <- (Permutation_middle a).
    rewrite app_assoc, Permutation_app_comm. done.
Qed.

Definition cap_ok (buf : Vec Z) : Prop :=
  len (v_data buf) <= v_cap buf <= 2 * MQP_FRAG_MAX_PAYLOAD.

Lemma written_cap_ok buf buf' pos x : written buf buf' pos x -> cap_ok buf -> cap_ok buf'.
Proof. intros (_ & _ & _ & Hc) [H1 H2]. destruct (Hc H1) as (? & ? & ?). unfold cap_ok. lia. Qed.

Lemma pending_cost_perm l l' : l ≡ₚ l' -> pending_cost l = pending_cost l'.
Proof. induction 1; cbn [pending_cost]; lia. Qed.

(** The drain moves every chunk that has a position into the buffer. *)
Lemma drain_go_spec first width sl fuel i buf pending :
  shape first width sl -> holds first width sl buf (v_data pending) -> cap_ok buf ->
  (forall k x, (k < i)%nat -> v_data pending !! k = Some x -> stuck first width x) ->
  (length (v_data pending) <= i + fuel)%nat ->
  exists buf' pending', drain_go fuel first width i buf pending = Ok (buf', pending') /\
    holds first width sl buf' (v_data pending') /\ cap_ok buf' /\
    Forall (stuck first width) (v_data pending') /\ v_cap pending' = v_cap pending /\
    (length (v_data pending') <= length (v_data pending))%nat /\
    pending_cost (v_data pending') <= pending_cost (v_data pending).
Proof.
  intros Hsh. revert i buf pending. induction fuel as [|fuel IH]; intros i buf pending Hh Hc Hst Hf.
  { exists buf, pending. split; [done|]. split_and!; try done. apply list.Forall_forall.
    intros x (k & Hk)%list_elem_of_lookup. apply (Hst k); [|done]. apply lookup_lt_Some in Hk. lia. }
  cbn [drain_go]. destruct (v_data pending !! i) as [x|] eqn:Ex.
  2: { exists buf, pending. split; [done|]. split_and!; try done. apply list.Forall_forall.
       intros x (k & Hk)%list_elem_of_lookup. apply (Hst k); [|done].
       apply lookup_lt_Some in Hk. apply lookup_ge_None in Ex. lia. }
  assert (Hskip : stuck first width x -> exists buf' pending',
      drain_go fuel first width (S i) buf pending = Ok (buf', pending') /\
      holds first width sl buf' (v_data pending') /\ cap_ok buf' /\
      Forall (stuck first width) (v_data pending') /\ v_cap pending' = v_cap pending /\
      (length (v_data pending') <= length (v_data pending))%nat /\
      pending_cost (v_data pending') <= pending_cost (v_data pending)).
  { intros Hx. apply IH; try done; [|lia]. intros k y Hk Hy.
    destruct (decide (k = i)) as [->|]; [by simplify_eq|]. apply (Hst k); [lia | done]. }
  destruct (ho_pend _ _ _ _ _ Hh x) as (j & Hj & Hxl); [by eapply list_elem_of_lookup_2|].
  unfold stuck in Hskip. destruct (pos_of first width (pc_idx x)) as [pos|] eqn:Epos; [|by apply Hskip].
  rewrite Hj in Epos.
  pose proof (pos_of_bound _ _ _ _ _ Hsh (landed_lt _ _ _ Hxl) Epos) as Hp.
  pose proof (landed_bound _ _ _ Hxl) as Hlb. pose proof (sh_bytes _ _ _ Hsh) as Hsb.
  pose proof (sh_nonempty _ _ _ Hsh _ _ Hxl) as Hne. unfold MQP_FRAG_MAX_PAYLOAD in *.
  rewrite checked_add_small by ulia.
  destruct (Z.leb_spec (pos + len (pc_bytes x)) 8192) as [Hle|Hgt]; [|by apply Hskip].
  destruct (vec_swap_remove_spec pending i x Ex) as (pend' & -> & Hperm & Hpre & Hcap).
  cbn [or_panic res_bind].
  destruct (buf_write_spec buf pos (pc_bytes x)) as (buf' & -> & Hw);
    [lia | done | done | apply Hh |]. cbn [res_bind assert_placed fst snd].
  assert (Hnd : NoDup (pc_idx <$> x :: v_data pend')) by (rewrite <- Hperm; apply Hh).
  apply list.NoDup_cons in Hnd as [Hnin Hnd'].
  assert (Hlen : length (v_data pending) = S (length (v_data pend'))) by (by rewrite Hperm).
  destruct (IH i buf' pend') as (b2 & p2 & -> & ? & ? & ? & ? & ? & Hcost);
    [| | | |exists b2, p2; split_and!; try done; [congruence | lia |]].
  - eapply (holds_write first width sl buf buf' (v_data pending)); try done; try apply Hh.
    + intros k d Hk Hkj. destruct (ho_slot _ _ _ _ _ Hh k d Hk) as [|Hin]; [by left|right].
      rewrite Hperm, elem_of_cons in Hin. destruct Hin as [<-|]; [|done]. cbn in Hj. lia.
    + intros y Hy. split; [rewrite Hperm; by right|]. intros Heq. apply Hnin.
      cbn. rewrite Hj, <- Heq. by apply list_elem_of_fmap_2.
  - by eapply written_cap_ok.
  - intros k y Hk Hy. rewrite Hpre in Hy by done. by apply (Hst k).
  - lia.
  - rewrite (pending_cost_perm _ _ Hperm). cbn [pending_cost]. unfold PENDING_CHUNK_COST. lens.
Qed.

(* ------------------------------------------------------------------ *)
(** ** One fragment lands *)

Lemma landed_insert sl i c j d : sl !! i = Some None ->
  landed (<[i := Some c]> sl) j d <-> (j = i /\ d = c) \/ (j <> i /\ landed sl j d).
Proof.
  intros Hi. unfold landed. pose proof (lookup_lt_Some _ _ _ Hi).
  destruct (decide (j = i)) as [->|Hne].
  - rewrite list_lookup_insert_eq by done. naive_solver.
  - rewrite list_lookup_insert_ne by done. naive_solver.
Qed.

Lemma landed_grows sl i c j d : sl !! i = Some None -> landed sl j d -> landed (<[i := Some c]> sl) j d.
Proof.
  intros Hi Hj. apply landed_insert; [done|]. right. split; [|done]. intros ->. unfold landed in Hj. congruence.
Qed.

Lemma chunks_insert_len sl i c : sl !! i = Some None ->
  len (concat (chunks (<[i := Some c]> sl))) = len (concat (chunks sl)) + len c.
Proof.
  revert i. induction sl as [|o sl IH]; intros i Hi; [done|]. destruct i as [|i].
  - injection Hi as ->. cbn. lens.
  - specialize (IH i Hi). unfold chunks in *.
    change (<[S i := Some c]> (o :: sl)) with (o :: <[i := Some c]> sl).
    rewrite !fmap_cons. cbn [concat]. rewrite !len_app. lia.
Qed.

Definition middle_nat (i : nat) (sl : slots) : Prop := (1 <= i)%nat /\ (S i < length sl)%nat.

Lemma is_middle_nat i (sl : slots) : (i < length sl)%nat ->
  is_middle (Z.of_nat i) (len sl) = true <-> middle_nat i sl.
Proof.
  intros Hi. unfold is_middle, middle_nat, len.
  rewrite andb_true_iff, negb_true_iff, Z.leb_le, Z.eqb_neq. lia.
Qed.

Lemma shape_insert first width sl i c : shape first width sl -> sl !! i = Some None -> 1 <= len c ->
  len (concat (chunks sl)) + len c <= MQP_FRAG_MAX_PAYLOAD ->
  (middle_nat i sl -> width = None \/ width = Some (len c)) ->
  shape (if Z.of_nat i =? 0 then Some (len c) else first)
    (match width with None => if is_middle (Z.of_nat i) (len sl) then Some (len c) else None
                    | Some w => Some w end)
    (<[i := Some c]> sl).
Proof.
  intros H Hi Hc Hb Hm. pose proof (lookup_lt_Some _ _ _ Hi) as Hl.
  split.
  - rewrite length_insert. apply H.
  - intros j d [[_ ->]|[_ Hd]]%landed_insert; [done | | done]. by apply (sh_nonempty _ _ _ H j).
  - intros w. destruct (Z.eqb_spec (Z.of_nat i) 0) as [E|E].
    + assert (i = 0%nat) as -> by lia. split.
      * intros [= <-]. exists c. split; [|done]. apply landed_insert; [done|]. by left.
      * intros (d & Hd & <-). apply landed_insert in Hd; [|done]. naive_solver.
    + rewrite (sh_first _ _ _ H). split; intros (d & Hd & <-); exists d; (split; [|done]).
      * by apply landed_grows.
      * apply landed_insert in Hd as [[? _]|[_ ?]]; [lia | done | done].
  - intros j d Hd Hj1 Hj2. rewrite length_insert in Hj2.
    apply landed_insert in Hd as [[-> ->]|[_ Hd]]; [| |done].
    + destruct Hm as [-> | ->]; [done | | done].
      rewrite (proj2 (is_middle_nat i sl Hl)) by done. done.
    + by rewrite (sh_width _ _ _ H j d Hd Hj1 Hj2).
  - intros w. rewrite length_insert. destruct width as [w'|] eqn:E.
    + intros [= ->]. destruct (sh_width_ex _ _ _ H w eq_refl) as (j & d & Hd & ? & ? & ?).
      exists j, d. split_and!; try done. by apply landed_grows.
    + destruct (is_middle _ _) eqn:Em; [|done]. intros [= <-].
      apply (is_middle_nat i sl Hl) in Em as [? ?].
      exists i, c. split_and!; try done. apply landed_insert; [done|]. by left.
  - rewrite chunks_insert_len by done. done.
Qed.

(** A determinator that arrives leaves the positions known so far. *)
Definition extends (o o' : option Z) : Prop := forall w, o = Some w -> o' = Some w.

Lemma pos_of_extends first width first' width' i a : extends first first' -> extends width width' ->
  pos_of first width i = Some a -> pos_of first' width' i = Some a.
Proof.
  intros Hf Hw. unfold pos_of. destruct (i =? 0); [done|].
  destruct first as [h|]; [|done]. rewrite (Hf h eq_refl). cbn [mbind option_bind].
  destruct (i - 1 =? 0); [done|]. destruct width as [w|]; [|done]. by rewrite (Hw w eq_refl).
Qed.

Lemma placed_extends first width first' width' buf i c : extends first first' -> extends width width' ->
  placed first width buf i c -> placed first' width' buf i c.
Proof. intros ? ? (pos & ? & ? & ? & ?). exists pos. split_and!; eauto using pos_of_extends. Qed.

Definition pend_cap_ok (v : Vec PendingChunk) : Prop :=
  len (v_data v) <= v_cap v <= 128 /\ (v_cap v = 0 \/ CHUNK_MIN_CAP <= v_cap v).

Record partial_inv (p : Partial) (sl : slots) : Prop := mkPartialInv {
  pi_total : pt_total p = len sl;
  pi_shape : shape (pt_first_len p) (pt_unit p) sl;
  pi_got : 0 <= pt_got p;
  pi_bits i : Z.testbit (pt_got p) (Z.of_nat i) = true <-> exists c, landed sl i c;
  pi_bytes : pt_bytes p = len (concat (chunks sl));
  pi_holds : holds (pt_first_len p) (pt_unit p) sl (pt_buf p) (v_data (pt_pending p));
  pi_stuck : Forall (stuck (pt_first_len p) (pt_unit p)) (v_data (pt_pending p));
  pi_cap : cap_ok (pt_buf p);
  pi_pcap : pend_cap_ok (pt_pending p)
}.

Lemma first_after_extends p sl i n : partial_inv p sl -> sl !! i = Some None ->
  extends (pt_first_len p) (first_after p (Z.of_nat i) n).
Proof.
  intros H Hi w Hw. unfold first_after. destruct (Z.eqb_spec (Z.of_nat i) 0); [|done].
  assert (i = 0%nat) as -> by lia.
  apply (sh_first _ _ _ (pi_shape _ _ H)) in Hw as (c & Hc & _). unfold landed in Hc. congruence.
Qed.

Lemma unit_after_extends p i n : extends (pt_unit p) (unit_after p i n).
Proof. intros w Hw. unfold unit_after. by rewrite Hw. Qed.

(** The chunk of a fragment that has no position yet joins the ones that wait. *)
Lemma holds_wait first width first' width' sl buf pend i c :
  holds first width sl buf pend -> extends first first' -> extends width width' ->
  sl !! i = Some None ->
  holds first' width' (<[i := Some c]> sl) buf (pend ++ [mkPendingChunk (Z.of_nat i) c]).
Proof.
  intros H Hf Hw Hi. split.
  - intros j d [[-> ->]|[_ Hd]]%landed_insert; [| |done].
    + right. set_solver.
    + destruct (ho_slot _ _ _ _ _ H j d Hd) as [?|?]; [left; eauto using placed_extends | right; set_solver].
  - intros x [Hx| ->%list_elem_of_singleton]%elem_of_app.
    + destruct (ho_pend _ _ _ _ _ H x Hx) as (j & ? & ?). exists j. eauto using landed_grows.
    + exists i. split; [done|]. apply landed_insert; [done|]. by left.
  - rewrite fmap_app. apply list.NoDup_app. split_and!; [apply H | | apply NoDup_singleton].
    intros j Hj Hj'. apply list_elem_of_singleton in Hj' as ->.
    apply list_elem_of_fmap in Hj as (x & Hx & Hin).
    destruct (ho_pend _ _ _ _ _ H x Hin) as (k & Hk & Hl). cbn in Hx.
    assert (k = i) as -> by lia. unfold landed in Hl. congruence.
  - destruct (ho_end _ _ _ _ _ H) as [?|(j & d & pos & ? & ? & ?)]; [by left|right].
    exists j, d, pos. split_and!; eauto using landed_grows, pos_of_extends.
  - apply H.
Qed.

(** The chunk of a fragment that has one is written there. *)
Lemma holds_place first width first' width' sl buf buf' pend i c pos :
  holds first width sl buf pend -> extends first first' -> extends width width' ->
  sl !! i = Some None -> shape first' width' (<[i := Some c]> sl) ->
  pos_of first' width' (Z.of_nat i) = Some pos -> pos + len c <= MQP_FRAG_MAX_PAYLOAD ->
  written buf buf' pos c ->
  holds first' width' (<[i := Some c]> sl) buf' pend.
Proof.
  intros H Hf Hw Hi Hsh Hpos Hle Hwr.
  assert (Hp : forall x, x ∈ pend -> exists j, pc_idx x = Z.of_nat j /\ j <> i /\ landed sl j (pc_bytes x)).
  { intros x Hx. destruct (ho_pend _ _ _ _ _ H x Hx) as (j & ? & Hl). exists j. split_and!; try done.
    intros ->. unfold landed in Hl. congruence. }
  eapply (holds_write first' width' _ buf buf' pend pend i c pos); try done.
  - apply landed_insert; [done|]. by left.
  - intros j d [[? _]|[_ Hd]]%landed_insert Hj; [done | | done].
    destruct (ho_slot _ _ _ _ _ H j d Hd); [left; eauto using placed_extends | by right].
  - intros x Hx. destruct (Hp x Hx) as (j & ? & ? & _). split; [done | lia].
  - apply H.
  - intros x Hx. destruct (Hp x Hx) as (j & ? & _ & ?). eauto using landed_grows.
  - destruct (ho_end _ _ _ _ _ H) as [?|(j & d & q & ? & ? & ?)]; [by left|right].
    exists j, d, q. split_and!; eauto using landed_grows, pos_of_extends.
  - apply H.
Qed.

Lemma got_bits p sl i c : partial_inv p sl -> sl !! i = Some None ->
  0 <= Z.lor (pt_got p) (Z.shiftl 1 (Z.of_nat i)) /\
  forall j, Z.testbit (Z.lor (pt_got p) (Z.shiftl 1 (Z.of_nat i))) (Z.of_nat j) = true <->
    exists d, landed (<[i := Some c]> sl) j d.
Proof.
  intros H Hi. split.
  - apply Z.lor_nonneg. split; [apply H | apply Z.shiftl_nonneg; lia].
  - intros j. rewrite Z.lor_spec, orb_true_iff, (pi_bits _ _ H), Z.shiftl_1_l, Z.pow2_bits_eqb, Z.eqb_eq by lia.
    split.
    + intros [[d Hd]|Heq]; [exists d; by apply landed_grows|].
      assert (j = i) as -> by lia. exists c. apply landed_insert; [done|]. by left.
    + intros [d [[-> _]|[_ Hd]]%landed_insert]; [by right | left; by exists d | done].
Qed.

(** Distinct indices: at most one waiting chunk per slot. *)
Lemma pend_length first width sl buf pend : holds first width sl buf pend -> (length pend <= length sl)%nat.
Proof.
  intros H. rewrite <- (length_fmap pc_idx pend).
  transitivity (length (Z.of_nat <$> seq 0 (length sl))).
  - apply submseteq_length, NoDup_submseteq; [apply H|]. intros j (x & -> & Hx)%list_elem_of_fmap.
    destruct (ho_pend _ _ _ _ _ H x Hx) as (k & -> & Hk). apply list_elem_of_fmap_2, elem_of_seq.
    apply landed_lt in Hk. lia.
  - by rewrite length_fmap, length_seq.
Qed.

Lemma pending_cap_bound first width sl buf (v : Vec PendingChunk) x :
  shape first width sl -> holds first width sl buf (v_data v ++ [x]) ->
  pend_cap_ok v -> pend_cap_ok (vec_extend CHUNK_MIN_CAP v [x]).
Proof.
  unfold pend_cap_ok. intros Hsh Hh Hc. rewrite vec_extend_data. apply pend_length in Hh. rewrite length_app in Hh. cbn in Hh.
  pose proof (sh_total _ _ _ Hsh). unfold vec_extend, vec_reserve, CHUNK_MIN_CAP in *.
  rewrite len_app. change (len [x]) with 1.
  destruct (Z.ltb_spec (v_cap v) (len (v_data v) + 1)); cbn [v_cap]; [|lia]. unfold len in *. lia.
Qed.

Section Place.
Context {LO : Layout}.

Definition footprint_of (p : Partial) : Z :=
  v_cap (pt_buf p) + (pending_cost (v_data (pt_pending p)) + v_cap (pt_pending p) * size_of_PendingChunk) +
  size_of_Partial.

(** What the chunks that wait cost, and what [pending_charge] reserves for one
    more. *)
Definition waiting_cost (v : Vec PendingChunk) : Z :=
  pending_cost (v_data v) + v_cap v * size_of_PendingChunk.

Definition wait_charge (p : Partial) (i : nat) (c : bytes) : Z :=
  match pos_of (first_after p (Z.of_nat i) (len c)) (unit_after p (Z.of_nat i) (len c)) (Z.of_nat i) with
  | Some _ => 0
  | None => pending_charge (len (v_data (pt_pending p))) (v_cap (pt_pending p)) (len c)
  end.

Lemma pending_cost_app l l' : pending_cost (l ++ l') = pending_cost l + pending_cost l'.
Proof. induction l as [|x l IH]; cbn [pending_cost app]; lia. Qed.

Lemma push_cost (v : Vec PendingChunk) i c : pend_cap_ok v -> len c <= MQP_FRAG_MAX_PAYLOAD ->
  waiting_cost (vec_extend CHUNK_MIN_CAP v [mkPendingChunk i c]) <=
    waiting_cost v + pending_charge (len (v_data v)) (v_cap v) (len c).
Proof.
  unfold pend_cap_ok. intros Hv Hc. pose proof size_of_PendingChunk_ok. pose proof (len_nonneg c).
  pose proof (len_nonneg (v_data v)).
  unfold waiting_cost. rewrite vec_extend_data, pending_cost_app.
  unfold vec_extend, vec_reserve, pending_charge, CHUNK_MIN_CAP, MQP_FRAG_MAX_PAYLOAD in *.
  cbn [pending_cost pc_bytes]. change (len [mkPendingChunk i c]) with 1.
  unfold saturating_add, saturating_mul, PENDING_CHUNK_COST.
  destruct (Z.ltb_spec (v_cap v) (len (v_data v) + 1)), (Z.ltb_spec (len (v_data v)) (v_cap v));
    cbn [v_cap]; try lia; [|unfold usize_max; lia].
  set (sz := size_of_PendingChunk) in *. unfold usize_max.
  destruct (Z.eqb_spec (v_cap v) 0) as [E|E].
  - rewrite E in *. rewrite !Z.min_l by lia. lia.
  - assert (len (v_data v) = v_cap v) by lia. rewrite (Z.min_l (v_cap v * 2)) by lia.
    rewrite (Z.min_l (v_cap v * 2 * sz)) by nia. rewrite (Z.min_l (len c + 48)) by lia.
    rewrite Z.min_l by nia. nia.
Qed.

(** What stays when a chunk lands, and what the new footprint is. *)
Definition landed_as (p q : Partial) : Prop :=
  pt_ctx q = pt_ctx p /\ pt_first_ms q = pt_first_ms p /\ pt_total q = pt_total p /\
  pt_retained q = footprint_of q.

(** How much the footprint can grow: the buffer at most doubles past the
    payload bound, and the chunk may wait. *)
Definition grows (p q : Partial) (i : nat) (c : bytes) : Prop :=
  footprint_of q <= footprint_of p + 2 * MQP_FRAG_MAX_PAYLOAD + wait_charge p i c.

(** The state before the drain, once the chunk is written or queued. *)
Lemma land_chunk p sl i c :
  partial_inv p sl -> sl !! i = Some None -> 1 <= len c ->
  shape (first_after p (Z.of_nat i) (len c)) (unit_after p (Z.of_nat i) (len c)) (<[i := Some c]> sl) ->
  (forall pos, pos_of (first_after p (Z.of_nat i) (len c)) (unit_after p (Z.of_nat i) (len c)) (Z.of_nat i)
     = Some pos -> pos + len c <= MQP_FRAG_MAX_PAYLOAD) ->
  exists buf pending,
    store (pos_of (first_after p (Z.of_nat i) (len c)) (unit_after p (Z.of_nat i) (len c)) (Z.of_nat i))
      (Z.of_nat i) c p = Ok (buf, pending) /\
    holds (first_after p (Z.of_nat i) (len c)) (unit_after p (Z.of_nat i) (len c)) (<[i := Some c]> sl)
      buf (v_data pending) /\ cap_ok buf /\ pend_cap_ok pending /\
    (forall x, x ∈ v_data pending -> x ∈ v_data (pt_pending p) \/
       stuck (first_after p (Z.of_nat i) (len c)) (unit_after p (Z.of_nat i) (len c)) x) /\
    waiting_cost pending <= waiting_cost (pt_pending p) + wait_charge p i c.
Proof.
  intros H Hi Hc Hsh Hpos. pose proof (first_after_extends p sl i (len c) H Hi) as Hf.
  pose proof (unit_after_extends p (Z.of_nat i) (len c)) as Hw.
  pose proof (pi_cap _ _ H) as [Hc1 Hc2]. pose proof (pi_pcap _ _ H) as Hpc.
  pose proof (pi_shape _ _ H) as Hs0. pose proof (ho_len _ _ _ _ _ (pi_holds _ _ H)) as Hbl.
  set (first := first_after _ _ _) in *. set (width := unit_after _ _ _) in *.
  destruct (pos_of first width (Z.of_nat i)) as [pos|] eqn:Epos.
  - specialize (Hpos pos eq_refl). unfold store.
    set (b0 := if v_cap (pt_buf p) =? 0 then _ else _).
    assert (Hb0 : v_data b0 = v_data (pt_buf p) /\ cap_ok b0).
    { unfold b0. destruct (Z.eqb_spec (v_cap (pt_buf p)) 0); [|done]. unfold vec_reserve.
      case_match; cbn [v_data v_cap]; (split; [done|]); [|done].
      unfold cap_ok, MQP_FRAG_MAX_PAYLOAD, U8_MIN_CAP in *. cbn [v_data v_cap]. lens. }
    destruct Hb0 as [Hd0 Hcap0].
    assert (Hp0 : 0 <= pos).
    { eapply (pos_of_bound _ _ _ i); [exact Hsh | | exact Epos].
      rewrite length_insert. by apply lookup_lt_Some in Hi. }
    destruct (buf_write_spec b0 pos c) as (buf' & -> & Hwr); [done | done | done | by rewrite Hd0|].
    cbn [res_bind assert_placed fst snd]. exists buf', (pt_pending p). split_and!; try done.
    + eapply holds_place; try done. destruct (pi_holds _ _ H) as [? ? ? ? ?]. split; rewrite ?Hd0; try done.
      intros j d Hj. destruct (ho_slot0 j d Hj) as [(q & ? & ? & ? & ?)|]; [left | by right].
      exists q. by rewrite Hd0.
    + by eapply written_cap_ok.
    + intros x Hx. by left.
    + unfold wait_charge. fold first width. rewrite Epos. lia.
  - eexists _, _. split; [done|]. unfold vec_push. rewrite vec_extend_data. split_and!; try done.
    + eapply holds_wait; try done. apply H.
    + apply (pending_cap_bound first width (<[i := Some c]> sl) (pt_buf p)); try done.
      eapply holds_wait; try done. apply H.
    + intros x [Hx| ->%list_elem_of_singleton]%elem_of_app; [by left | right].
      unfold stuck. cbn [pc_idx]. by rewrite Epos.
    + unfold wait_charge. fold first width. rewrite Epos. apply push_cost; [done|].
      pose proof (landed_bound (<[i := Some c]> sl) i c ltac:(apply landed_insert; [done | by left])).
      pose proof (sh_bytes _ _ _ Hsh). lia.
Qed.
Lemma place_spec p sl i c :
  partial_inv p sl -> sl !! i = Some None -> 1 <= len c ->
  pt_bytes p + len c <= MQP_FRAG_MAX_PAYLOAD ->
  (middle_nat i sl -> pt_unit p = None \/ pt_unit p = Some (len c)) ->
  (exists pos, pos_of (first_after p (Z.of_nat i) (len c)) (unit_after p (Z.of_nat i) (len c)) (Z.of_nat i)
     = Some pos /\ MQP_FRAG_MAX_PAYLOAD < pos + len c /\ place (Z.of_nat i) c p = Ok (false, p)) \/
  (exists q, place (Z.of_nat i) c p = Ok (true, q) /\ partial_inv q (<[i := Some c]> sl) /\ landed_as p q /\
     grows p q i c).
Proof.
  intros H Hi Hc Hb Hm. pose proof (pi_shape _ _ H) as Hsh0.
  assert (Hsh : shape (first_after p (Z.of_nat i) (len c)) (unit_after p (Z.of_nat i) (len c))
                  (<[i := Some c]> sl)).
  { unfold first_after, unit_after. rewrite (pi_total _ _ H). apply shape_insert; try done.
    by rewrite <- (pi_bytes _ _ H). }
  assert (Hil : (i < length (<[i := Some c]> sl))%nat)
    by (rewrite length_insert; by apply lookup_lt_Some in Hi).
  unfold place. cbv zeta.
  destruct (match pos_of _ _ _ with Some _ => _ | None => _ end) eqn:Ebig.
  { left. destruct (pos_of _ _ _) as [pos|] eqn:Epos; [|done]. exists pos. split_and!; try done.
    pose proof (pos_of_bound _ _ _ _ _ Hsh Hil Epos). unfold saturating_add in Ebig.
    zbool. unfold MQP_FRAG_MAX_PAYLOAD in *. ulia. }
  right. destruct (land_chunk p sl i c H Hi Hc Hsh) as (buf & pending & -> & Hh & Hcap & Hpc & Hst & Hcost).
  { intros pos Epos. rewrite Epos in Ebig. pose proof (pos_of_bound _ _ _ _ _ Hsh Hil Epos).
    unfold saturating_add in Ebig. zbool. unfold MQP_FRAG_MAX_PAYLOAD in *. ulia. }
  cbn [res_bind]. destruct (got_bits p sl i c H Hi) as [Hg0 Hg].
  set (first := first_after _ _ _) in *. set (width := unit_after _ _ _) in *.
  set (fin := fun b pd => mkPartial (pt_total p) (pt_ctx p) b (Z.lor (pt_got p) (Z.shiftl 1 (Z.of_nat i)))
    first width pd (pt_bytes p + len c) (pt_retained p) (pt_first_ms p)).
  assert (Hfin : forall b pd, holds first width (<[i := Some c]> sl) b (v_data pd) -> cap_ok b ->
    Forall (stuck first width) (v_data pd) -> pend_cap_ok pd ->
    waiting_cost pd <= waiting_cost pending ->
    partial_inv (recompute_retained (fin b pd)) (<[i := Some c]> sl) /\
    landed_as p (recompute_retained (fin b pd)) /\ grows p (recompute_retained (fin b pd)) i c).
  { intros b pd Hh' Hc' Hs' Hp' Hw'. split; [split|split; [by split_and!|]]; try done; cbn.
    - rewrite (pi_total _ _ H). unfold len. by rewrite length_insert.
    - by rewrite chunks_insert_len, (pi_bytes _ _ H).
    - unfold grows, footprint_of. cbn. destruct Hc' as [_ Hc']. pose proof (pi_cap _ _ H) as [Hc0 _].
      pose proof (len_nonneg (v_data (pt_buf p))). unfold waiting_cost in *. lia. }
  case_bool_decide as Hch.
  - unfold drain_pending. cbn [pt_pending pt_first_len pt_unit pt_buf].
    destruct (drain_go_spec first width _ (length (v_data pending)) 0 buf pending Hsh Hh Hcap)
      as (b2 & p2 & -> & Hh2 & Hc2 & Hs2 & Hcp2 & Hl2 & Hk2); [intros ? ? ?; lia | lia|].
    cbn [res_bind]. eexists. split; [reflexivity|]. apply (Hfin b2 p2); try done.
    + unfold pend_cap_ok in *. rewrite Hcp2. unfold len in *. lia.
    + unfold waiting_cost. rewrite Hcp2. lia.
  - cbn [res_bind]. eexists. split; [reflexivity|]. apply (Hfin buf pending); try done.
    apply list.Forall_forall. intros x Hx. destruct (Hst x Hx) as [Hx'|]; [|done].
    assert (first = pt_first_len p) as -> by (destruct (decide (first = pt_first_len p)); tauto).
    assert (width = pt_unit p) as -> by (destruct (decide (width = pt_unit p)); tauto).
    pose proof (pi_stuck _ _ H) as Hf. rewrite list.Forall_forall in Hf. by apply Hf.
Qed.
End Place.

(* ------------------------------------------------------------------ *)
(** ** Completion *)

Lemma Partial_new_inv total ctx now : 2 <= total <= 64 ->
  partial_inv (Partial_new total ctx now) (repeat None (Z.to_nat total)).
Proof.
  intros Ht. assert (Hno : forall i c, ~ landed (repeat None (Z.to_nat total)) i c).
  { intros i c Hl. unfold landed in Hl. apply list_elem_of_lookup_2 in Hl.
    apply list_elem_of_In, repeat_spec in Hl. done. }
  assert (Hch : concat (chunks (repeat None (Z.to_nat total))) = []).
  { generalize (Z.to_nat total). intros n. induction n; [done|]. by cbn. }
  split; cbn.
  - unfold len. rewrite repeat_length. lia.
  - split; try naive_solver.
    + rewrite repeat_length. lia.
    + rewrite Hch. done.
  - done.
  - intros i. rewrite Z.bits_0. naive_solver.
  - by rewrite Hch.
  - split.
    + intros i c Hl. by destruct (Hno i c).
    + intros x Hx. by apply not_elem_of_nil in Hx.
    + constructor.
    + by left.
    + done.
  - constructor.
  - done.
  - split; [done | by left].
Qed.

(** Every bit below [total] is set exactly when every slot is taken. *)
Lemma complete_landed p sl : partial_inv p sl ->
  complete p = true <-> forall i, (i < length sl)%nat -> exists c, landed sl i c.
Proof.
  intros H. unfold complete. pose proof (sh_total _ _ _ (pi_shape _ _ H)) as Ht.
  assert (Hw : (if pt_total p <? 64 then Z.shiftl 1 (pt_total p) - 1 else 2 ^ 64 - 1) = Z.ones (Z.of_nat (length sl))).
  { rewrite Z.ones_equiv, (pi_total _ _ H). unfold len.
    destruct (Z.ltb_spec (Z.of_nat (length sl)) 64).
    - rewrite Z.shiftl_1_l. lia.
    - replace (length sl) with 64%nat by lia. done. }
  rewrite Hw, Z.eqb_eq. split.
  - intros Hg i Hi. apply (pi_bits _ _ H). rewrite Hg. apply Z.ones_spec_low. lia.
  - intros Hall. apply Z.bits_inj'. intros n Hn. rewrite <- (Z2Nat.id n) by lia.
    rewrite Z.testbit_ones_nonneg by lia. apply eq_bool_prop_intro. rewrite !Is_true_true, (pi_bits _ _ H).
    rewrite Z.ltb_lt. split.
    + intros [c Hc%landed_lt]. lia.
    + intros Hl. apply Hall. lia.
Qed.

Lemma sits_concat (cs : list bytes) (buf : bytes) : length buf = length (concat cs) ->
  (forall i c, cs !! i = Some c -> sits buf (len (concat (take i cs))) c) -> buf = concat cs.
Proof.
  revert buf. induction cs as [|c cs IH]; intros buf Hl Hs; [by apply nil_length_inv|].
  cbn [concat] in *. rewrite length_app in Hl.
  rewrite <- (take_drop (length c) buf). f_equal.
  - apply list_eq. intros k. destruct (decide (k < length c)%nat) as [Hk|Hk].
    + rewrite lookup_take_lt by done. apply (Hs 0%nat c eq_refl k Hk).
    + rewrite !lookup_ge_None_2; [done | lia | rewrite length_take; lia].
  - apply IH; [rewrite length_drop; lia|]. intros i d Hd k Hk. rewrite lookup_drop.
    specialize (Hs (S i) d Hd k Hk). cbn [take concat] in Hs. rewrite <- Hs. f_equal.
    unfold len. rewrite length_app. lia.
Qed.

Section Complete.
Variables (first width : option Z) (sl : slots).
Hypothesis Hsh : shape first width sl.
Hypothesis Hall : forall i, (i < length sl)%nat -> exists c, landed sl i c.

Lemma len_concat_take_S i c : landed sl i c ->
  len (concat (take (S i) (chunks sl))) = len (concat (take i (chunks sl))) + len c.
Proof.
  intros Hc%landed_chunks. rewrite (take_S_r _ _ _ Hc), concat_app, len_app. cbn. by rewrite app_nil_r.
Qed.

(** With every chunk there, positions are the lengths of what comes before. *)
Lemma complete_pos i : (i < length sl)%nat ->
  pos_of first width (Z.of_nat i) = Some (len (concat (take i (chunks sl)))).
Proof.
  induction i as [|i IH]; intros Hi; [done|].
  destruct (Hall i ltac:(lia)) as [c Hc]. specialize (IH ltac:(lia)).
  rewrite (len_concat_take_S i c Hc). rewrite (pos_of_shape _ _ _ i Hsh) in IH by lia.
  rewrite (pos_of_shape _ _ _ (S i) Hsh) by lia. destruct i as [|i].
  - apply (sh_first _ _ _ Hsh). eauto.
  - assert (Hw : width = Some (len c)) by (apply (sh_width _ _ _ Hsh (S i)); [done | lia..]).
    rewrite Hw in *. destruct first as [h|]; [|by destruct i]. cbn [mbind option_bind] in *.
    destruct i as [|i]; injection IH as IH; f_equal; lia.
Qed.

Lemma complete_end i c : landed sl i c ->
  len (concat (take i (chunks sl))) + len c <= len (concat (chunks sl)).
Proof.
  intros Hc. rewrite <- (len_concat_take_S i c Hc).
  rewrite <- (take_drop (S i) (chunks sl)) at 2. rewrite concat_app, len_app.
  pose proof (len_nonneg (concat (drop (S i) (chunks sl)))). lia.
Qed.

Lemma complete_buf buf pend : holds first width sl buf pend -> Forall (stuck first width) pend ->
  pend = [] /\ v_data buf = concat (chunks sl).
Proof.
  intros Hh Hst. pose proof (sh_bytes _ _ _ Hsh) as Hb.
  assert (Hnil : pend = []).
  { destruct pend as [|x pend]; [done|]. exfalso. apply list.Forall_cons in Hst as [Hx _].
    destruct (ho_pend _ _ _ _ _ Hh x) as (i & Hi & Hl); [by left|]. unfold stuck in Hx. rewrite Hi in Hx.
    rewrite complete_pos in Hx by by eapply landed_lt. pose proof (complete_end _ _ Hl). lia. }
  split; [done|]. subst pend.
  assert (Hpl : forall i c, landed sl i c -> sits (v_data buf) (len (concat (take i (chunks sl)))) c /\
    len (concat (take i (chunks sl))) + len c <= len (v_data buf)).
  { intros i c Hc. destruct (ho_slot _ _ _ _ _ Hh i c Hc) as [(pos & Hp & _ & ? & ?)|Hin];
      [|by apply not_elem_of_nil in Hin].
    rewrite complete_pos in Hp by by eapply landed_lt. injection Hp as <-. done. }
  apply sits_concat.
  - pose proof (sh_total _ _ _ Hsh) as Ht. destruct (Hall (length sl - 1)) as [c Hc]; [lia|].
    destruct (Hpl _ _ Hc) as [_ Hle]. rewrite <- (len_concat_take_S _ _ Hc) in Hle.
    replace (S (length sl - 1)) with (length (chunks sl)) in Hle by (unfold chunks; rewrite length_fmap; lia).
    rewrite firstn_all in Hle. pose proof (sh_nonempty _ _ _ Hsh _ _ Hc).
    destruct (ho_end _ _ _ _ _ Hh) as [H0|(i & d & pos & Hd & Hp & He)].
    + pose proof (landed_bound _ _ _ Hc). lia.
    + rewrite complete_pos in Hp by by eapply landed_lt. injection Hp as <-.
      pose proof (complete_end _ _ Hd). unfold len in *. lia.
  - intros i c Hc. destruct (Hall i) as [d Hd].
    { apply lookup_lt_Some in Hc. unfold chunks in Hc. by rewrite length_fmap in Hc. }
    pose proof (landed_chunks _ _ _ Hd) as Hd'. assert (c = d) as -> by congruence. by apply Hpl.
Qed.
End Complete.

Lemma complete_payload p sl : partial_inv p sl -> complete p = true ->
  v_data (pt_buf p) = concat (chunks sl) /\ v_data (pt_pending p) = [].
Proof.
  intros H Hc. pose proof (proj1 (complete_landed _ _ H) Hc) as Hall.
  destruct (complete_buf _ _ _ (pi_shape _ _ H) Hall _ _ (pi_holds _ _ H) (pi_stuck _ _ H)). done.
Qed.

(* ------------------------------------------------------------------ *)
(** ** The footprint of a partial *)

Fixpoint pending_bytes (l : list PendingChunk) : Z :=
  match l with [] => 0 | c :: l => len (pc_bytes c) + pending_bytes l end.

Lemma pending_cost_bytes l : pending_cost l = pending_bytes l + PENDING_CHUNK_COST * len l.
Proof. induction l as [|c l IH]; cbn [pending_cost pending_bytes]; [done|]. rewrite IH. lens. Qed.

(** Distinct chunks that landed weigh no more than all that landed. *)
Lemma pending_bytes_bound (pend : list PendingChunk) sl :
  (forall x, x ∈ pend -> exists i, pc_idx x = Z.of_nat i /\ landed sl i (pc_bytes x)) ->
  NoDup (pc_idx <$> pend) -> pending_bytes pend <= len (concat (chunks sl)).
Proof.
  revert sl. induction pend as [|x pend IH]; intros sl Hp Hnd; cbn [pending_bytes]; [apply len_nonneg|].
  rewrite fmap_cons in Hnd. apply list.NoDup_cons in Hnd as [Hnin Hnd].
  destruct (Hp x ltac:(by left)) as (i & Hi & Hl). pose proof (landed_lt _ _ _ Hl) as Hlt.
  set (sl0 := <[i := None]> sl).
  assert (H0 : sl0 !! i = Some None) by (by apply list_lookup_insert_eq).
  assert (Hsl : sl = <[i := Some (pc_bytes x)]> sl0).
  { unfold sl0. rewrite list_insert_insert_eq. by rewrite list_insert_id. }
  rewrite Hsl, chunks_insert_len by done. rewrite Z.add_comm. apply Z.add_le_mono_r, IH; [|done].
  intros y Hy. destruct (Hp y ltac:(by right)) as (j & Hj & Hyl). exists j. split; [done|].
  rewrite Hsl in Hyl. apply landed_insert in Hyl as [[-> _]|[_ ?]]; [|done..].
  exfalso. apply Hnin. rewrite Hi, <- Hj. by apply list_elem_of_fmap_2.
Qed.

Section FootprintBound.
Context {LO : Layout}.

Definition PARTIAL_MAX : Z := 36864.

Lemma footprint_bound p sl : partial_inv p sl ->
  size_of_Partial <= footprint_of p <= PARTIAL_MAX.
Proof.
  intros H. unfold footprint_of, PARTIAL_MAX. rewrite pending_cost_bytes.
  pose proof (pending_bytes_bound _ _ (ho_pend _ _ _ _ _ (pi_holds _ _ H)) (ho_nodup _ _ _ _ _ (pi_holds _ _ H))).
  pose proof (pend_length _ _ _ _ _ (pi_holds _ _ H)). pose proof (sh_total _ _ _ (pi_shape _ _ H)).
  pose proof (sh_bytes _ _ _ (pi_shape _ _ H)). pose proof (pi_cap _ _ H) as [? ?].
  pose proof (pi_pcap _ _ H) as [? _]. pose proof size_of_PendingChunk_ok. pose proof size_of_Partial_ok.
  assert (0 <= pending_bytes (v_data (pt_pending p))).
  { generalize (v_data (pt_pending p)). intros l. induction l; cbn [pending_bytes]; [lia | lens]. }
  unfold MQP_FRAG_MAX_PAYLOAD, PENDING_CHUNK_COST in *.
  assert (len (v_data (pt_pending p)) <= 64) by (unfold len; lia).
  pose proof (len_nonneg (v_data (pt_pending p))). pose proof (len_nonneg (v_data (pt_buf p))). nia.
Qed.
End FootprintBound.
