(* ===== verification/Reasm.v ===== *)
(** The reassembler of [src/udp/r2_reasm.rs]: the table of partials under its
    bounds, the order queue with its stale slots, admission, eviction, expiry
    and the teardown of a session or a flow. *)
From stdpp Require Import sorting.
From S2P Require Import Prelude Addr Codec R3 R2 Wire Frag Partial.

Definition FRAG_TIMEOUT_MS : Z := 2000.
Definition FRAG_MAX_HELD_BYTES : Z := 256 * 1024.
Definition FRAG_MAX_PARTIALS : Z := 256.
Definition ORDER_SLOT_LIMIT : Z := 64.

Record FragKey : Type := mkFragKey { k_inline : bool; k_id : Z; k_frag_id : Z }.

#[export] Instance FragKey_eq_dec : EqDecision FragKey.
Proof. solve_decision. Defined.
#[export] Instance FragKey_countable : Countable FragKey.
Proof.
  refine (inj_countable' (fun k => (k_inline k, k_id k, k_frag_id k))
            (fun t => mkFragKey t.1.1 t.1.2 t.2) _).
  by intros [].
Defined.

Record R2Assembled : Type := mkR2Assembled {
  a_wire_id : option Z;
  a_sess : option Z;
  a_addr : option TargetAddr;
  a_src : bool;
  a_payload : bytes
}.

(** The drop counters a reassembler books. *)
Record Drops : Type := mkDrops { d_refused : Z; d_too_large : Z; d_buffer_full : Z }.

Record R2Reassembler : Type := mkR2Reassembler {
  r_wire : Wire;
  parts : gmap FragKey Partial;
  order : list (FragKey * Z);
  held : Z;
  order_bytes : Z;
  drops : Drops
}.

Definition R2Reassembler_new_with_wire (w : Wire) (d : Drops) : R2Reassembler :=
  mkR2Reassembler w ∅ [] 0 0 d.
Definition R2Reassembler_new (d : Drops) : R2Reassembler := R2Reassembler_new_with_wire Rev2 d.

Definition R2Reassembler_set_wire (w : Wire) (r : R2Reassembler) : R2Reassembler :=
  mkR2Reassembler w (parts r) (order r) (held r) (order_bytes r) (drops r).

(** [book_drop] of each counter. *)
Definition book (f : Drops -> Drops) (r : R2Reassembler) : R2Reassembler :=
  mkR2Reassembler (r_wire r) (parts r) (order r) (held r) (order_bytes r) (f (drops r)).
Definition book_refused : R2Reassembler -> R2Reassembler :=
  book (fun d => mkDrops (as_u64 (d_refused d + 1)) (d_too_large d) (d_buffer_full d)).
Definition book_too_large : R2Reassembler -> R2Reassembler :=
  book (fun d => mkDrops (d_refused d) (as_u64 (d_too_large d + 1)) (d_buffer_full d)).
Definition book_buffer_full : R2Reassembler -> R2Reassembler :=
  book (fun d => mkDrops (d_refused d) (d_too_large d) (as_u64 (d_buffer_full d + 1))).

(** One decoded fragment of either revision. *)
Record FragIn : Type := mkFragIn {
  fi_wire_id : option Z;
  fi_sess : option Z;
  fi_addr : option TargetAddr;
  fi_src : bool;
  fi_frag_id : Z;
  fi_idx : Z;
  fi_total : Z;
  fi_chunk_off : Z;
  fi_chunk : bytes
}.

Definition FragIn_from_rev2 (f : R2.FragRef) : FragIn :=
  mkFragIn (R2.f_id f) (R2.f_sess f) (R2.f_addr f) (R2.f_src f) (R2.f_frag_id f)
    (R2.f_idx f) (R2.f_total f) (R2.f_chunk_off f) (R2.f_chunk f).

Definition FragIn_from_view (f : FragView) : FragIn :=
  mkFragIn (fv_wire_id f) (fv_sess f) (fv_addr f) (fv_src f) (fv_frag_id f)
    (fv_idx f) (fv_total f) (fv_chunk_off f) (fv_chunk f).

Definition frag_key (f : FragIn) : option FragKey :=
  match fi_wire_id f, fi_sess f with
  | Some id, _ => if id =? 0 then None else Some (mkFragKey false id (fi_frag_id f))
  | None, Some sess => Some (mkFragKey true sess (fi_frag_id f))
  | None, None => None
  end.

(** The context a fragment carries; the outer [None] refuses a half of one. *)
Definition frag_incoming (f : FragIn) : option (option FragCtx) :=
  match fi_sess f, fi_addr f with
  | Some sess, Some addr => Some (Some (mkFragCtx sess addr (fi_src f)))
  | None, None => Some None
  | _, _ => None
  end.

(** Oldest first, ties broken by the key. *)
Definition slot_key (s : FragKey * Z) : list Z :=
  [s.2; if k_inline s.1 then 1 else 0; k_id s.1; k_frag_id s.1].

Fixpoint lex_le (a b : list Z) : bool :=
  match a, b with
  | [], _ => true
  | _ :: _, [] => false
  | x :: a, y :: b => (x <? y) || ((x =? y) && lex_le a b)
  end.

Definition slot_le (a b : FragKey * Z) : Prop := lex_le (slot_key a) (slot_key b) = true.
#[export] Instance slot_le_dec a b : Decision (slot_le a b).
Proof. unfold slot_le. apply _. Defined.

Section Reasm.
Context {LO : Layout}.

Definition held_bytes (r : R2Reassembler) : Z := held r + order_bytes r.
Definition inflight (r : R2Reassembler) : Z := Z.of_nat (size (parts r)).

Definition prune_orders (r : R2Reassembler) : R2Reassembler :=
  let limit := saturating_add (saturating_mul (inflight r) 2) ORDER_SLOT_LIMIT in
  if len (order r) <=? limit then r else
  let live := merge_sort slot_le ((fun kp => (kp.1, pt_first_ms kp.2)) <$> map_to_list (parts r)) in
  mkR2Reassembler (r_wire r) (parts r) live (held r)
    (saturating_mul (len live) ORDER_SLOT_BYTES) (drops r).

(** [self.parts.remove(&key)] of a partial whose bytes are given back. *)
Definition remove_part (key : FragKey) (p : Partial) (r : R2Reassembler) : R2Reassembler :=
  mkR2Reassembler (r_wire r) (delete key (parts r)) (order r)
    (saturating_sub (held r) (pt_retained p)) (order_bytes r) (drops r).

Definition with_order (o : list (FragKey * Z)) (ob : Z) (r : R2Reassembler) : R2Reassembler :=
  mkR2Reassembler (r_wire r) (parts r) o (held r) ob (drops r).

(** The live partial a queue slot stands for. *)
Definition slot_live (s : FragKey * Z) (r : R2Reassembler) : option Partial :=
  match parts r !! s.1 with
  | Some p => if pt_first_ms p =? s.2 then Some p else None
  | None => None
  end.

(** [evict_oldest], over the slots [o] still queued. *)
Fixpoint evict_go (o : list (FragKey * Z)) (r : R2Reassembler) : bool * R2Reassembler :=
  match o with
  | s :: o =>
      let r := with_order o (saturating_sub (order_bytes r) ORDER_SLOT_BYTES) r in
      match slot_live s r with
      | Some p => (true, book_buffer_full (remove_part s.1 p r))
      | None => evict_go o r
      end
  | [] =>
      match map_to_list (parts r) with
      | (key, p) :: _ => (true, book_buffer_full (remove_part key p r))
      | [] => (false, r)
      end
  end.

Definition evict_oldest (r : R2Reassembler) : bool * R2Reassembler := evict_go (order r) r.

(** The loop that makes room for a new partial of [est] bytes; each turn
    removes a partial. *)
Fixpoint make_room (fuel : nat) (est : Z) (r : R2Reassembler) : bool * R2Reassembler :=
  if (FRAG_MAX_PARTIALS <=? inflight r) || (saturating_add (held_bytes r) est >? FRAG_MAX_HELD_BYTES) then
    match fuel with
    | O => (false, r)
    | S fuel =>
        match evict_oldest r with
        | (true, r) => make_room fuel est r
        | (false, r) => (false, book_buffer_full r)
        end
    end
  else (true, r).

(** The checks on a fragment of a live partial: what is booked when it is
    refused, or [None] when it may land. *)
Definition check_live (f : FragIn) (incoming : option FragCtx) (p : Partial) (r : R2Reassembler)
    : option R2Reassembler :=
  let n := len (fi_chunk f) in
  let idx := fi_idx f in
  if negb (pt_total p =? fi_total f) then Some (book_refused r) else
  if match pt_ctx p, incoming with Some old, Some new => negb (bool_decide (old = new)) | _, _ => false end
  then Some (book_refused r) else
  if negb (Z.land (pt_got p) (Z.shiftl 1 idx) =? 0) then Some r else
  if is_middle idx (fi_total f) && match pt_unit p with Some w => negb (w =? n) | None => false end
  then Some (book_refused r) else
  if saturating_add (pt_bytes p) n >? MQP_FRAG_MAX_PAYLOAD then Some (book_buffer_full r) else
  let charge :=
    match pos_of (pt_first_len p) (pt_unit p) idx with
    | Some _ =>
        let reserve := if v_cap (pt_buf p) =? 0
                       then Z.min (fi_total f * n) MQP_FRAG_MAX_PAYLOAD else 0 in
        Z.max n reserve
    | None => pending_charge (len (v_data (pt_pending p))) (v_cap (pt_pending p)) n
    end in
  if saturating_add (held_bytes r) charge >? FRAG_MAX_HELD_BYTES then Some (book_buffer_full r) else
  None.

(** What a new partial is charged on admission. *)
Definition new_estimate (f : FragIn) : Z :=
  (if fi_idx f =? 0 then Z.min (fi_total f * len (fi_chunk f)) MQP_FRAG_MAX_PAYLOAD
   else pending_charge 0 0 (len (fi_chunk f))) + size_of_Partial + ORDER_SLOT_BYTES.

(** May the fragment land?  With the room made for it, and whether its partial
    is new. *)
Definition make_entry (key : FragKey) (f : FragIn) (incoming : option FragCtx) (r : R2Reassembler)
    : (bool * R2Reassembler) + R2Reassembler :=
  match parts r !! key with
  | Some p =>
      match check_live f incoming p r with
      | Some r => inr r
      | None => inl (false, r)
      end
  | None =>
      match make_room (S (size (parts r))) (new_estimate f) r with
      | (true, r) => inl (true, r)
      | (false, r) => inr r
      end
  end.

(** The landed partial is complete: it leaves the table as a payload. *)
Definition deliver (key : FragKey) (f : FragIn) (r : R2Reassembler)
    : option R2Assembled * R2Reassembler :=
  match parts r !! key with
  | None => (None, r)
  | Some p =>
      (Some (mkR2Assembled (if k_inline key then None else Some (k_id key))
               (c_sess <$> pt_ctx p) (c_addr <$> pt_ctx p)
               (match pt_ctx p with Some c => c_src c | None => fi_src f end)
               (v_data (pt_buf p))),
       remove_part key p r)
  end.

(** The fragment lands in its partial. *)
Definition land (key : FragKey) (f : FragIn) (incoming : option FragCtx) (is_new : bool) (now_ms : Z)
    (r : R2Reassembler) : res unit (option R2Assembled * R2Reassembler) :=
  let p := learn_ctx incoming
             (default (Partial_new (fi_total f) incoming now_ms) (parts r !! key)) in
  let! '(ok, q) := place (fi_idx f) (fi_chunk f) p in
  if negb ok then
    let r := mkR2Reassembler (r_wire r)
               (if pt_got q =? 0 then delete key (parts r) else <[key := q]> (parts r))
               (order r) (held r) (order_bytes r) (drops r) in
    Ok (None, book_too_large r)
  else
    let h := saturating_add (saturating_sub (held r) (pt_retained p)) (pt_retained q) in
    let r := mkR2Reassembler (r_wire r) (<[key := q]> (parts r)) (order r) h (order_bytes r) (drops r) in
    let r := if is_new
             then with_order (order r ++ [(key, now_ms)])
                    (saturating_add (order_bytes r) ORDER_SLOT_BYTES) r
             else r in
    let r := prune_orders r in
    Ok (if complete q then deliver key f r else (None, r)).

Definition push_frame (d : bytes) (f : FragIn) (now_ms : Z) (r : R2Reassembler)
    : res unit (option R2Assembled * R2Reassembler) :=
  if (fi_total f <? 1) || (fi_total f >? MQP_FRAG_MAX_TOTAL) || (fi_idx f >=? fi_total f) ||
     bool_decide (fi_chunk f = [])
  then Ok (None, book_refused r) else
  if len (fi_chunk f) >? MQP_FRAG_MAX_PAYLOAD then Ok (None, book_too_large r) else
  if negb (bool_decide (checked_add (fi_chunk_off f) (len (fi_chunk f)) = Some (len d)))
  then Ok (None, book_refused r) else
  match frag_key f, frag_incoming f with
  | Some key, Some incoming =>
      if k_inline key && bool_decide (incoming = None) then Ok (None, book_refused r) else
      if fi_total f =? 1 then
        let! payload := sub_from d (fi_chunk_off f) in
        Ok (Some (mkR2Assembled (fi_wire_id f) (c_sess <$> incoming) (c_addr <$> incoming)
                    (fi_src f) payload), r)
      else
        match make_entry key f incoming r with
        | inr r => Ok (None, r)
        | inl (is_new, r) => land key f incoming is_new now_ms r
        end
  | _, _ => Ok (None, book_refused r)
  end.

Definition push (d : bytes) (f : R2.FragRef) (now_ms : Z) : R2Reassembler ->
    res unit (option R2Assembled * R2Reassembler) := push_frame d (FragIn_from_rev2 f) now_ms.
Definition push_view (d : bytes) (f : FragView) (now_ms : Z) : R2Reassembler ->
    res unit (option R2Assembled * R2Reassembler) := push_frame d (FragIn_from_view f) now_ms.

(** [retain] of the partials that do not match, with the bytes given back. *)
Definition drop_matching (m : FragKey -> Partial -> bool) (r : R2Reassembler) : Z * R2Reassembler :=
  let gone := filter (fun kp => m kp.1 kp.2 = true) (parts r) in
  let revoked := map_fold (fun _ p acc => saturating_add acc (pt_retained p)) 0 gone in
  (Z.of_nat (size gone),
   mkR2Reassembler (r_wire r) (filter (fun kp => m kp.1 kp.2 = false) (parts r)) (order r)
     (saturating_sub (held r) revoked) (order_bytes r) (drops r)).

Definition of_session (session : Z) (key : FragKey) (p : Partial) : bool :=
  match pt_ctx p with Some c => c_sess c =? session | None => false end ||
  (k_inline key && (k_id key =? session)).

Definition drop_session (session : Z) (r : R2Reassembler) : Z * R2Reassembler :=
  drop_matching (of_session session) r.

Definition drop_flow (wire_id : Z) (r : R2Reassembler) : Z * R2Reassembler :=
  if wire_id =? 0 then (0, r) else
  drop_matching (fun key _ => negb (k_inline key) && (k_id key =? wire_id)) r.

Fixpoint expire_go (o : list (FragKey * Z)) (now_ms : Z) (r : R2Reassembler) : R2Reassembler :=
  match o with
  | [] => r
  | s :: o =>
      let expired := match slot_live s r with
                     | Some _ => FRAG_TIMEOUT_MS <=? saturating_sub now_ms s.2
                     | None => true
                     end in
      if negb expired then r else
      let r := with_order o (saturating_sub (order_bytes r) ORDER_SLOT_BYTES) r in
      let r := match slot_live s r with
               | Some p => book_buffer_full (remove_part s.1 p r)
               | None => r
               end in
      expire_go o now_ms r
  end.

Definition expire (now_ms : Z) (r : R2Reassembler) : R2Reassembler :=
  prune_orders (expire_go (order r) now_ms r).
End Reasm.

(* ------------------------------------------------------------------ *)
(** ** The slot table the reassembler implements *)

(** The chunks and the context of one payload under reassembly. *)
Record Slot : Type := mkSlot { s_ctx : option FragCtx; s_slots : slots }.

Abbreviation Table := (gmap FragKey Slot).

Definition all_landed (sl : slots) : Prop := forall i, (i < length sl)%nat -> exists c, landed sl i c.

Definition merge_ctx (old new : option FragCtx) : option FragCtx :=
  match old with None => new | Some c => Some c end.

Definition ctx_agree (old new : option FragCtx) : Prop :=
  match old, new with Some a, Some b => a = b | _, _ => True end.

(** The slot of a fragment: the one of its key, or a fresh one. *)
Definition slot_for (t : Table) (key : FragKey) (f : FragIn) (incoming : option FragCtx) : Slot :=
  default (mkSlot incoming (repeat None (Z.to_nat (fi_total f)))) (t !! key).

Definition land_slot (s : Slot) (f : FragIn) (incoming : option FragCtx) : Slot :=
  mkSlot (merge_ctx (s_ctx s) incoming) (<[Z.to_nat (fi_idx f) := Some (fi_chunk f)]> (s_slots s)).

(** The fragment may land in the slot. *)
Definition may_land (s : Slot) (f : FragIn) (incoming : option FragCtx) : Prop :=
  len (s_slots s) = fi_total f /\ ctx_agree (s_ctx s) incoming /\
  s_slots s !! Z.to_nat (fi_idx f) = Some None.

(** The payload of a slot whose last fragment is [f]. *)
Definition assembled (key : FragKey) (f : FragIn) (s : Slot) : R2Assembled :=
  mkR2Assembled (if k_inline key then None else Some (k_id key))
    (c_sess <$> s_ctx s) (c_addr <$> s_ctx s)
    (match s_ctx s with Some c => c_src c | None => fi_src f end)
    (concat (chunks (s_slots s))).

(** One push as the table sees it.  A push may first lose partials (evictions);
    then the fragment is refused, is the whole payload, is refused after its
    context was learnt, lands, or lands as the last one. *)
Inductive push_step (t : Table) (f : FragIn) : option R2Assembled -> Table -> Prop :=
| step_refuse t' : t' ⊆ t -> push_step t f None t'
| step_whole key incoming : frag_key f = Some key -> frag_incoming f = Some incoming ->
    fi_total f = 1 -> fi_idx f = 0 ->
    push_step t f (Some (mkR2Assembled (fi_wire_id f) (c_sess <$> incoming) (c_addr <$> incoming)
                           (fi_src f) (fi_chunk f))) t
| step_past key incoming s : frag_key f = Some key -> frag_incoming f = Some incoming ->
    t !! key = Some s -> ctx_agree (s_ctx s) incoming ->
    push_step t f None (<[key := mkSlot (merge_ctx (s_ctx s) incoming) (s_slots s)]> t)
| step_land key incoming t' s : frag_key f = Some key -> frag_incoming f = Some incoming ->
    t' ⊆ t -> s = slot_for t key f incoming -> may_land s f incoming ->
    ~ all_landed (s_slots (land_slot s f incoming)) ->
    push_step t f None (<[key := land_slot s f incoming]> t')
| step_done key incoming t' s : frag_key f = Some key -> frag_incoming f = Some incoming ->
    t' ⊆ t -> s = slot_for t key f incoming -> may_land s f incoming ->
    all_landed (s_slots (land_slot s f incoming)) ->
    push_step t f (Some (assembled key f (land_slot s f incoming))) (delete key t').

(* ------------------------------------------------------------------ *)
(** ** The invariant *)

Definition held_sum (m : gmap FragKey Partial) : Z := map_fold (fun _ p acc => pt_retained p + acc) 0 m.

Lemma held_sum_insert m k p : m !! k = None -> held_sum (<[k := p]> m) = pt_retained p + held_sum m.
Proof. intros Hk. unfold held_sum. rewrite map_fold_insert_L; [done | intros; lia | done]. Qed.

Lemma held_sum_delete m k p : m !! k = Some p -> held_sum m = pt_retained p + held_sum (delete k m).
Proof.
  intros Hk. rewrite <- (insert_delete_id m k p Hk) at 1. apply held_sum_insert, lookup_delete_eq.
Qed.

Lemma held_sum_nonneg m : (forall k p, m !! k = Some p -> 0 <= pt_retained p) -> 0 <= held_sum m.
Proof.
  induction m as [|k p m Hk IH] using map_ind; intros Hm; [done|]. rewrite held_sum_insert by done.
  pose proof (Hm k p (lookup_insert_eq _ _ _)).
  assert (0 <= held_sum m); [|lia]. apply IH. intros k' p' Hk'. apply (Hm k').
  rewrite lookup_insert_ne; [done|]. congruence.
Qed.

Section Inv.
Context {LO : Layout}.

Definition part_ok (p : Partial) (s : Slot) : Prop :=
  partial_inv p (s_slots s) /\ pt_ctx p = s_ctx s /\ pt_retained p = footprint_of p /\
  exists i c, landed (s_slots s) i c.

Definition HELD_SLACK : Z := 2 * MQP_FRAG_MAX_PAYLOAD.
Definition ORDER_MAX : Z := 2 * FRAG_MAX_PARTIALS + ORDER_SLOT_LIMIT.

(** The accounting, and the queue slot of every live partial. *)
Record reasm_core (r : R2Reassembler) (t : Table) : Prop := mkReasmCore {
  rc_parts key : option_Forall2 part_ok (parts r !! key) (t !! key);
  rc_order key p : parts r !! key = Some p -> (key, pt_first_ms p) ∈ order r;
  rc_held : held r = held_sum (parts r);
  rc_bytes : order_bytes r = len (order r) * ORDER_SLOT_BYTES
}.

Record reasm_inv (r : R2Reassembler) (t : Table) : Prop := mkReasmInv {
  ri_core : reasm_core r t;
  ri_open key s : t !! key = Some s -> ~ all_landed (s_slots s);
  ri_size : inflight r <= FRAG_MAX_PARTIALS;
  ri_order : len (order r) <= ORDER_MAX;
  ri_held : held_bytes r <= FRAG_MAX_HELD_BYTES + HELD_SLACK
}.

Lemma part_ok_retained p s : part_ok p s -> 0 < pt_retained p <= PARTIAL_MAX.
Proof.
  intros (H & _ & -> & _). pose proof (footprint_bound _ _ H). pose proof size_of_Partial_ok. lia.
Qed.

Lemma core_part r t key p : reasm_core r t -> parts r !! key = Some p ->
  exists s, t !! key = Some s /\ part_ok p s.
Proof.
  intros H Hp. pose proof (rc_parts _ _ H key) as HF. rewrite Hp in HF. inversion HF; subst. eauto.
Qed.

Lemma core_none r t key : reasm_core r t -> parts r !! key = None <-> t !! key = None.
Proof. intros H. pose proof (rc_parts _ _ H key) as HF. inversion HF; naive_solver. Qed.

Lemma core_slot r t key s : reasm_core r t -> t !! key = Some s ->
  exists p, parts r !! key = Some p /\ part_ok p s.
Proof.
  intros H Hp. pose proof (rc_parts _ _ H key) as HF. rewrite Hp in HF. inversion HF; subst. eauto.
Qed.

Lemma core_held_nonneg r t : reasm_core r t -> 0 <= held_sum (parts r) /\ 0 <= order_bytes r.
Proof.
  intros H. split.
  - apply held_sum_nonneg. intros k p Hk. destruct (core_part _ _ _ _ H Hk) as (s & _ & Hs).
    pose proof (part_ok_retained _ _ Hs). lia.
  - rewrite (rc_bytes _ _ H). pose proof order_slot_ok. pose proof (len_nonneg (order r)). nia.
Qed.

Lemma core_held_part r t key p : reasm_core r t -> parts r !! key = Some p ->
  saturating_sub (held r) (pt_retained p) = held_sum (delete key (parts r)) /\
  0 <= held_sum (delete key (parts r)).
Proof.
  intros H Hp. pose proof (held_sum_delete _ _ _ Hp) as Hd.
  assert (0 <= held_sum (delete key (parts r))).
  { apply held_sum_nonneg. intros k q Hk. apply lookup_delete_Some in Hk as [_ Hk].
    destruct (core_part _ _ _ _ H Hk) as (s & _ & Hs). pose proof (part_ok_retained _ _ Hs). lia. }
  rewrite (rc_held _ _ H). unfold saturating_sub. lia.
Qed.

Lemma new_inv w d : reasm_inv (R2Reassembler_new_with_wire w d) ∅.
Proof.
  split; [split | ..]; try done.
  intros key. unfold R2Reassembler_new_with_wire. cbn [parts]. rewrite !lookup_empty. constructor.
Qed.

Lemma book_core g r t : reasm_core r t -> reasm_core (book g r) t.
Proof. by intros [? ? ? ?]. Qed.

Lemma book_inv g r t : reasm_inv r t -> reasm_inv (book g r) t.
Proof. intros [? ? ? ? ?]. split; try done. by apply book_core. Qed.

(** Removing a live partial gives its bytes back. *)
Lemma remove_part_core r t key p : reasm_core r t -> parts r !! key = Some p ->
  reasm_core (remove_part key p r) (delete key t).
Proof.
  intros H Hp. split; cbn.
  - intros k. destruct (decide (k = key)) as [->|Hne].
    + rewrite !lookup_delete_eq. constructor.
    + rewrite !lookup_delete_ne by done. apply H.
  - intros k q [_ Hk]%lookup_delete_Some. by apply (rc_order _ _ H).
  - by apply (core_held_part _ _ _ _ H).
  - apply H.
Qed.

Lemma remove_part_held r t key p : reasm_core r t -> parts r !! key = Some p ->
  held_bytes (remove_part key p r) <= held_bytes r /\
  size (parts (remove_part key p r)) = Nat.pred (size (parts r)) /\ (0 < size (parts r))%nat.
Proof.
  intros H Hp. split_and!.
  - unfold held_bytes. cbn. destruct (core_part _ _ _ _ H Hp) as (s & _ & Hs).
    pose proof (part_ok_retained _ _ Hs). destruct (core_held_nonneg _ _ H).
    rewrite (rc_held _ _ H). unfold saturating_sub.
    pose proof (core_held_part _ _ _ _ H Hp). pose proof (held_sum_delete _ _ _ Hp). lia.
  - cbn. rewrite map_size_delete, Hp. done.
  - assert (size (parts r) <> 0%nat); [|lia]. intros H0%map_size_empty_inv. by rewrite H0, lookup_empty in Hp.
Qed.

Lemma slot_live_Some s r p : slot_live s r = Some p -> parts r !! s.1 = Some p /\ pt_first_ms p = s.2.
Proof. unfold slot_live. repeat case_match; naive_solver lia. Qed.

Lemma slot_live_None s r p : slot_live s r = None -> parts r !! s.1 = Some p -> pt_first_ms p <> s.2.
Proof. unfold slot_live. intros Hs Hp. rewrite Hp in Hs. case_match; [done|]. by apply Z.eqb_neq. Qed.

(** Popping a slot that stands for no live partial. *)
Lemma pop_core r t s o : reasm_core r t -> order r = s :: o -> slot_live s r = None ->
  reasm_core (with_order o (saturating_sub (order_bytes r) ORDER_SLOT_BYTES) r) t.
Proof.
  intros H Ho Hl. split; cbn.
  - apply H.
  - intros k p Hp. pose proof (rc_order _ _ H k p Hp) as Hin. rewrite Ho in Hin.
    apply elem_of_cons in Hin as [Heq|]; [|done]. exfalso. destruct s as [k' ms].
    injection Heq as -> <-. by apply (slot_live_None _ _ _ Hl Hp).
  - apply H.
  - rewrite (rc_bytes _ _ H), Ho. unfold saturating_sub. pose proof order_slot_ok.
    pose proof (len_nonneg o). rewrite len_cons. nia.
Qed.

(** Popping a slot together with the partial it stands for. *)
Lemma pop_live_core r t s o p : reasm_core r t -> order r = s :: o -> slot_live s r = Some p ->
  reasm_core (remove_part s.1 p (with_order o (saturating_sub (order_bytes r) ORDER_SLOT_BYTES) r))
    (delete s.1 t).
Proof.
  intros H Ho [Hp Hms]%slot_live_Some. pose proof (remove_part_core _ _ _ _ H Hp) as [H1 H2 H3 _].
  split; cbn in *; try done.
  - intros k q Hk. pose proof Hk as [Hne _]%lookup_delete_Some. specialize (H2 k q Hk).
    rewrite Ho in H2. apply elem_of_cons in H2 as [Heq|]; [|done]. destruct s as [k' ms].
    by injection Heq as -> <-.
  - rewrite (rc_bytes _ _ H), Ho. unfold saturating_sub. pose proof order_slot_ok.
    pose proof (len_nonneg o). rewrite len_cons. nia.
Qed.
End Inv.

(* ------------------------------------------------------------------ *)
(** ** Eviction, pruning and expiry *)

Section Ops.
Context {LO : Layout}.

(** [r'] holds no more than [r]. *)
Definition shrinks (r r' : R2Reassembler) : Prop :=
  held_bytes r' <= held_bytes r /\ len (order r') <= len (order r) /\ inflight r' <= inflight r.

Lemma shrinks_refl r : shrinks r r.
Proof. unfold shrinks. lia. Qed.

Lemma shrinks_trans a b c : shrinks a b -> shrinks b c -> shrinks a c.
Proof. unfold shrinks. lia. Qed.

#[local] Instance shrinks_preorder : PreOrder shrinks.
Proof. split; [exact shrinks_refl | exact shrinks_trans]. Qed.

Lemma shrinks_inv r t r' t' : reasm_inv r t -> reasm_core r' t' -> t' ⊆ t -> shrinks r r' ->
  reasm_inv r' t'.
Proof.
  intros [? Ho ? ? ?] ? Hsub (? & ? & ?). split; [done | | lia..].
  intros key s Hs. apply (Ho key). by eapply lookup_weaken.
Qed.

Lemma pop_shrinks r s o : order r = s :: o -> 0 <= order_bytes r ->
  shrinks r (with_order o (saturating_sub (order_bytes r) ORDER_SLOT_BYTES) r).
Proof.
  intros Ho Hb. unfold shrinks, held_bytes, inflight, saturating_sub. cbn. rewrite Ho, len_cons.
  pose proof order_slot_ok. lia.
Qed.

Lemma remove_shrinks r t key p : reasm_core r t -> parts r !! key = Some p ->
  shrinks r (remove_part key p r).
Proof.
  intros H Hp. destruct (remove_part_held _ _ _ _ H Hp) as (? & Hs & ?).
  unfold shrinks. split_and!; [done | cbn; lia | unfold inflight; lia].
Qed.

Lemma pop_live_shrinks r t s o p : reasm_core r t -> order r = s :: o -> slot_live s r = Some p ->
  shrinks r (remove_part s.1 p (with_order o (saturating_sub (order_bytes r) ORDER_SLOT_BYTES) r)).
Proof.
  intros H Ho [Hp _]%slot_live_Some. transitivity (remove_part s.1 p r); [by eapply remove_shrinks|].
  pose proof (core_held_nonneg _ _ H) as [_ Hb].
  apply (pop_shrinks (remove_part s.1 p r) s o Ho Hb).
Qed.

(** An eviction removes one partial; it finds none only in an empty table. *)
Lemma evict_go_spec o r t : reasm_core r t -> order r = o ->
  match evict_go o r with
  | (true, r') => exists key, is_Some (t !! key) /\ reasm_core r' (delete key t) /\ shrinks r r' /\
      size (parts r') = Nat.pred (size (parts r)) /\ (0 < size (parts r))%nat
  | (false, r') => t = ∅ /\ reasm_core r' t /\ shrinks r r' /\ order r' = [] /\ parts r' = ∅
  end.
Proof.
  revert r. induction o as [|s o IH]; intros r H Ho; cbn [evict_go].
  - assert (He : parts r = ∅).
    { apply map_empty. intros k. destruct (parts r !! k) as [p|] eqn:E; [|done].
      pose proof (rc_order _ _ H k p E) as Hin. rewrite Ho in Hin. by apply not_elem_of_nil in Hin. }
    rewrite He, map_to_list_empty. split_and!; try done. apply map_empty. intros k.
    apply (core_none _ _ _ H). by rewrite He.
  - pose proof (core_held_nonneg _ _ H) as [_ Hb].
    change (slot_live s (with_order o _ r)) with (slot_live s r).
    destruct (slot_live s r) as [p|] eqn:El.
    + destruct (slot_live_Some _ _ _ El) as [Hp _]. destruct (core_part _ _ _ _ H Hp) as (sl & Hsl & _).
      exists s.1. split_and!; [by eexists | apply book_core; by apply pop_live_core
        | by eapply pop_live_shrinks | |].
      * cbn. by rewrite map_size_delete, Hp.
      * by apply (remove_part_held _ _ _ _ H Hp).
    + specialize (IH (with_order o (saturating_sub (order_bytes r) ORDER_SLOT_BYTES) r)
                    (pop_core _ _ _ _ H Ho El) eq_refl).
      pose proof (pop_shrinks r s o Ho Hb) as Hs.
      destruct (evict_go o _) as [[|] r'].
      * destruct IH as (key & ? & ? & ? & ? & ?). exists key. split_and!; try done. by etransitivity.
      * destruct IH as (? & ? & ? & ? & ?). split_and!; try done. by etransitivity.
Qed.

(** Evictions always make room for a new partial: what an empty table keeps
    in stale slots leaves more than one partial may ask for. *)
Lemma make_room_spec fuel est r t : reasm_core r t -> (size (parts r) < fuel)%nat -> 0 <= est <= 2 ^ 17 ->
  held_bytes r <= 2 ^ 32 -> len (order r) <= ORDER_MAX ->
  exists r' t', make_room fuel est r = (true, r') /\ t' ⊆ t /\ reasm_core r' t' /\ shrinks r r' /\
    inflight r' < FRAG_MAX_PARTIALS /\ held_bytes r' + est <= FRAG_MAX_HELD_BYTES.
Proof.
  intros H Hf He. revert r t H Hf. induction fuel as [|fuel IH]; intros r t H Hf Hb Ho; [lia|].
  cbn [make_room]. destruct (core_held_nonneg _ _ H) as [Hn1 Hn2]. pose proof (rc_held _ _ H) as Hh.
  assert (Hsat : saturating_add (held_bytes r) est = held_bytes r + est)
    by (unfold saturating_add, usize_max; lia).
  rewrite Hsat. destruct (_ || _) eqn:E.
  2: { apply orb_false_iff in E as [E1 E2]. zbool. exists r, t. split_and!; done. }
  unfold evict_oldest. pose proof (evict_go_spec (order r) r t H eq_refl) as Hev.
  destruct (evict_go (order r) r) as [[|] r'].
  - destruct Hev as (key & _ & H' & Hs & Hsz & Hp0). pose proof Hs as (Hs1 & Hs2 & Hs3).
    destruct (IH r' (delete key t) H') as (r'' & t' & -> & Hsub & ? & Hs' & ? & ?); [lia..|].
    exists r'', t'. split_and!; try done.
    + etransitivity; [exact Hsub | apply delete_subseteq].
    + transitivity r'; done.
  - exfalso. destruct Hev as (-> & H' & Hs & _ & Hpe).
    assert (Hpr : parts r = ∅).
    { apply map_empty. intros k. by apply (core_none _ _ _ H). }
    apply orb_true_iff in E. unfold held_bytes, inflight in *. rewrite Hh, Hpr in E.
    rewrite map_size_empty in E. change (held_sum ∅) with 0 in E. rewrite (rc_bytes _ _ H) in E.
    pose proof order_slot_ok. pose proof (len_nonneg (order r)).
    unfold ORDER_MAX, FRAG_MAX_PARTIALS, FRAG_MAX_HELD_BYTES, ORDER_SLOT_LIMIT in *.
    destruct E as [E|E]; zbool; [lia | nia].
Qed.

(** Rebuilding the queue keeps a slot for every live partial. *)
Lemma prune_orders_spec r t : reasm_core r t -> inflight r <= FRAG_MAX_PARTIALS ->
  reasm_core (prune_orders r) t /\ parts (prune_orders r) = parts r /\ shrinks r (prune_orders r) /\
  len (order (prune_orders r)) <= ORDER_MAX /\ held (prune_orders r) = held r.
Proof.
  intros H Hsz. unfold prune_orders, ORDER_MAX, ORDER_SLOT_LIMIT, FRAG_MAX_PARTIALS in *.
  assert (Hnn : 0 <= inflight r) by (unfold inflight; lia).
  assert (Hlim : saturating_add (saturating_mul (inflight r) 2) 64 = 2 * inflight r + 64)
    by (unfold saturating_add, saturating_mul, usize_max; lia).
  rewrite Hlim. destruct (Z.leb_spec (len (order r)) (2 * inflight r + 64)) as [Hle|Hgt].
  - split_and!; try done; lia.
  - set (live := merge_sort _ _).
    assert (Hperm : live ≡ₚ (fun kp => (kp.1, pt_first_ms kp.2)) <$> map_to_list (parts r))
      by apply merge_sort_Permutation.
    assert (Hlen : len live = inflight r).
    { unfold len, inflight. rewrite Hperm, length_fmap, length_map_to_list. done. }
    pose proof order_slot_ok.
    assert (Hob : saturating_mul (len live) ORDER_SLOT_BYTES = len live * ORDER_SLOT_BYTES)
      by (unfold saturating_mul, usize_max; nia).
    rewrite Hob. pose proof (rc_bytes _ _ H) as Hbytes. split_and!; cbn; try done.
    + split; cbn; try apply H; [|done].
      intros k p Hp. rewrite Hperm. apply list_elem_of_fmap. exists (k, p).
      split; [done|]. by apply elem_of_map_to_list.
    + unfold shrinks, held_bytes. cbn. rewrite Hbytes. unfold inflight in *. cbn. nia.
    + lia.
Qed.

(** Expiry keeps the invariant and only loses partials. *)
Lemma expire_go_spec o now r t : reasm_core r t -> order r = o ->
  exists t', t' ⊆ t /\ reasm_core (expire_go o now r) t' /\ shrinks r (expire_go o now r).
Proof.
  revert r t. induction o as [|s o IH]; intros r t H Ho; cbn [expire_go].
  { exists t. split_and!; done. }
  pose proof (core_held_nonneg _ _ H) as [_ Hb].
  change (slot_live s (with_order o _ r)) with (slot_live s r).
  destruct (slot_live s r) as [p|] eqn:El; cbn [negb].
  - destruct (negb _); [exists t; split_and!; try done; reflexivity|].
    destruct (IH _ _ (book_core (fun d => mkDrops (d_refused d) (d_too_large d) (as_u64 (d_buffer_full d + 1)))
      _ _ (pop_live_core _ _ _ _ _ H Ho El)) eq_refl) as (t' & Hsub & ? & Hs).
    exists t'. split_and!; try done.
    + etransitivity; [exact Hsub | apply delete_subseteq].
    + etransitivity; [by eapply pop_live_shrinks | exact Hs].
  - destruct (IH _ _ (pop_core _ _ _ _ H Ho El) eq_refl) as (t' & ? & ? & Hs).
    exists t'. split_and!; try done. etransitivity; [by apply (pop_shrinks r s o) | exact Hs].
Qed.

Lemma expire_spec now r t : reasm_inv r t ->
  exists t', t' ⊆ t /\ reasm_inv (expire now r) t'.
Proof.
  intros H. destruct (expire_go_spec (order r) now r t (ri_core _ _ H) eq_refl) as (t' & Hsub & Hc & Hs).
  pose proof (shrinks_inv _ _ _ _ H Hc Hsub Hs) as Hi.
  destruct (prune_orders_spec _ _ Hc (ri_size _ _ Hi)) as (Hc' & _ & Hs' & _).
  exists t'. split; [done|]. unfold expire. by eapply shrinks_inv.
Qed.
End Ops.

(* ------------------------------------------------------------------ *)
(** ** A fragment lands *)

Section Land.
Context {LO : Layout}.

Lemma learn_ctx_inv incoming p sl : partial_inv p sl -> partial_inv (learn_ctx incoming p) sl.
Proof. by intros [? ? ? ? ? ? ? ? ?]. Qed.

(** A partial takes its place in the table, in that of the one it was. *)
Lemma insert_core r t key q s old : reasm_core r t -> part_ok q s -> held r <= 2 ^ 32 ->
  old = default 0 (pt_retained <$> parts r !! key) ->
  (key, pt_first_ms q) ∈ order r ->
  reasm_core (mkR2Reassembler (r_wire r) (<[key := q]> (parts r)) (order r)
    (saturating_add (saturating_sub (held r) old) (pt_retained q)) (order_bytes r) (drops r))
    (<[key := s]> t) /\
  saturating_add (saturating_sub (held r) old) (pt_retained q) = held r - old + pt_retained q.
Proof.
  intros H Hq Hb -> Hin. destruct (core_held_nonneg _ _ H) as [Hn _].
  pose proof (part_ok_retained _ _ Hq) as Hr. unfold PARTIAL_MAX in Hr.
  assert (Hheld : saturating_sub (held r) (default 0 (pt_retained <$> parts r !! key)) =
    held_sum (delete key (parts r)) /\
    held r = default 0 (pt_retained <$> parts r !! key) + held_sum (delete key (parts r)) /\
    0 <= held_sum (delete key (parts r))).
  { destruct (parts r !! key) as [p|] eqn:E; cbn.
    - destruct (core_held_part _ _ _ _ H E) as [-> ?]. split_and!; try done.
      rewrite (rc_held _ _ H). by apply held_sum_delete.
    - rewrite delete_id by done. rewrite <- (rc_held _ _ H) in *. unfold saturating_sub. lia. }
  destruct Hheld as (-> & Hh & Hn').
  assert (Hex : 0 <= default 0 (pt_retained <$> parts r !! key)).
  { destruct (parts r !! key) as [p|] eqn:E; [|done]. cbn.
    destruct (core_part _ _ _ _ H E) as (s' & _ & Hs'). pose proof (part_ok_retained _ _ Hs'). lia. }
  assert (Hsat : saturating_add (held_sum (delete key (parts r))) (pt_retained q) =
    held_sum (delete key (parts r)) + pt_retained q) by (unfold saturating_add, usize_max; lia).
  rewrite Hsat. split; [|lia]. split; cbn.
  - intros k. destruct (decide (k = key)) as [->|Hne].
    + rewrite !lookup_insert_eq. by constructor.
    + rewrite !lookup_insert_ne by done. apply H.
  - intros k p. destruct (decide (k = key)) as [->|Hne].
    + rewrite lookup_insert_eq. by intros [= <-].
    + rewrite lookup_insert_ne by done. apply (rc_order _ _ H).
  - rewrite <- insert_delete_eq, held_sum_insert by apply lookup_delete_eq. lia.
  - apply H.
Qed.

Lemma push_order_core r t key ms : reasm_core r t -> len (order r) <= ORDER_MAX ->
  reasm_core (with_order (order r ++ [(key, ms)]) (saturating_add (order_bytes r) ORDER_SLOT_BYTES) r) t /\
  saturating_add (order_bytes r) ORDER_SLOT_BYTES = order_bytes r + ORDER_SLOT_BYTES.
Proof.
  intros H Ho. pose proof order_slot_ok. pose proof (rc_bytes _ _ H) as Hb. pose proof (len_nonneg (order r)).
  unfold ORDER_MAX, FRAG_MAX_PARTIALS, ORDER_SLOT_LIMIT in Ho.
  assert (Hs : saturating_add (order_bytes r) ORDER_SLOT_BYTES = order_bytes r + ORDER_SLOT_BYTES)
    by (unfold saturating_add, usize_max; nia).
  rewrite Hs. split; [|done]. split; cbn; try apply H.
  - intros k p Hp. apply elem_of_app. left. by apply (rc_order _ _ H).
  - rewrite Hb. rewrite len_app. change (len [(key, ms)]) with 1. lia.
Qed.

(** Completion takes the payload out of the table. *)
Lemma deliver_spec r t key f q s : reasm_core r t -> parts r !! key = Some q -> t !! key = Some s ->
  complete q = true ->
  deliver key f r =
    (Some (assembled key f s), remove_part key q r) /\
  reasm_core (remove_part key q r) (delete key t) /\ shrinks r (remove_part key q r).
Proof.
  intros H Hq Hs Hc. destruct (core_part _ _ _ _ H Hq) as (s' & Hs' & Hok).
  assert (s' = s) as -> by congruence. destruct Hok as (Hi & Hctx & _).
  unfold deliver, assembled. rewrite Hq, Hctx. destruct (complete_payload _ _ Hi Hc) as [-> _].
  split_and!; [done | by apply remove_part_core | by eapply remove_shrinks].
Qed.

(** The slot [s] of [key] is settled in the table: delivered when it is
    complete, and kept otherwise; nothing else changes. *)
Definition settled (is_new : bool) (r r' : R2Reassembler) (t : Table) (key : FragKey) (f : FragIn)
    (s : Slot) (out : option R2Assembled) : Prop :=
  ((all_landed (s_slots s) /\ out = Some (assembled key f s) /\ reasm_inv r' (delete key t)) \/
   (~ all_landed (s_slots s) /\ out = None /\ reasm_inv r' (<[key := s]> t))) /\
  delete key (parts r') = delete key (parts r) /\
  len (order r') <= len (order r) + (if is_new then 1 else 0).

(** From the partial a fragment lands in to the table after [push_frame]. *)
Lemma settle_spec r t key f q s is_new now old : reasm_core r t -> part_ok q s -> held r <= 2 ^ 32 ->
  len (order r) <= ORDER_MAX ->
  (forall k s, delete key t !! k = Some s -> ~ all_landed (s_slots s)) ->
  Z.of_nat (size (<[key := q]> (parts r))) <= FRAG_MAX_PARTIALS ->
  old = default 0 (pt_retained <$> parts r !! key) ->
  (if is_new : bool then pt_first_ms q = now else (key, pt_first_ms q) ∈ order r) ->
  held_bytes r - old + pt_retained q + (if is_new then ORDER_SLOT_BYTES else 0) <=
    FRAG_MAX_HELD_BYTES + HELD_SLACK ->
  let r1 := mkR2Reassembler (r_wire r) (<[key := q]> (parts r)) (order r)
    (saturating_add (saturating_sub (held r) old) (pt_retained q)) (order_bytes r) (drops r) in
  let r2 := prune_orders (if is_new then with_order (order r1 ++ [(key, now)])
                   (saturating_add (order_bytes r1) ORDER_SLOT_BYTES) r1 else r1) in
  exists out r', (if complete q then deliver key f r2 else (None, r2)) = (out, r') /\
    settled is_new r r' t key f s out.
Proof.
  intros H Hq Hb Hord Hopen Hsz Hold Hfirst Hheld r1 r2.
  set (rn := if is_new then with_order _ _ _ else _) in r2.
  assert (Hn : reasm_core rn (<[key := s]> t) /\ held_bytes rn <= FRAG_MAX_HELD_BYTES + HELD_SLACK /\
    parts rn = <[key := q]> (parts r) /\
    len (order rn) <= len (order r) + (if is_new then 1 else 0)).
  { unfold rn, r1. cbn [order order_bytes].
    destruct is_new.
    - destruct (push_order_core r t key now H Hord) as [H1 Hob].
      destruct (insert_core _ _ key q s old H1 Hq Hb Hold) as [H2 Hh].
      { cbn. subst now. apply elem_of_app. right. by apply list_elem_of_singleton. }
      split_and!; [exact H2 | | done |]; [unfold held_bytes in *; cbn in *; rewrite Hh, Hob; lia|].
      cbn. rewrite len_app. done.
    - destruct (insert_core _ _ key q s old H Hq Hb Hold Hfirst) as [H2 Hh].
      split_and!; [exact H2 | | done |]; [unfold held_bytes in *; cbn in *; rewrite Hh; lia | cbn; lia]. }
  destruct Hn as (Hc & Hhb & Hparts & Hol).
  destruct (prune_orders_spec rn _ Hc) as (Hc2 & Hp2 & (Hs1 & Hs2 & Hs3) & Ho2 & _).
  { unfold inflight. by rewrite Hparts. }
  fold r2 in Hc2, Hp2, Hs1, Hs2, Hs3, Ho2.
  assert (Hsz2 : inflight r2 <= FRAG_MAX_PARTIALS) by (unfold inflight; by rewrite Hp2, Hparts).
  assert (Hiff : complete q = true <-> all_landed (s_slots s)).
  { destruct Hq as (Hi & _). by apply complete_landed. }
  destruct (complete q) eqn:Ecq.
  - destruct (deliver_spec r2 (<[key := s]> t) key f q s Hc2) as (-> & Hc3 & Hsh); try done.
    { by rewrite Hp2, Hparts, lookup_insert_eq. }
    { by rewrite lookup_insert_eq. }
    rewrite delete_insert_eq in Hc3. eexists _, _. split; [done|]. destruct Hsh as (? & ? & ?).
    split_and!; [left | cbn; rewrite Hp2, Hparts, delete_insert_eq; apply delete_delete_eq | cbn in *; lia].
    split_and!; [by apply Hiff | done|]. split; [done | | lia..]. intros k s' Hk. by apply (Hopen k).
  - assert (Hno : ~ all_landed (s_slots s)) by (intros Ha%Hiff; done).
    eexists _, _. split; [done|].
    split_and!; [right | rewrite Hp2, Hparts; apply delete_insert_eq | lia].
    split_and!; [done | done|]. split; [done | | lia..].
    intros k s' Hk. destruct (decide (k = key)) as [->|Hne].
    + rewrite lookup_insert_eq in Hk. by injection Hk as <-.
    + rewrite lookup_insert_ne in Hk by done. apply (Hopen k s'). by rewrite lookup_delete_ne.
Qed.
End Land.

(* ------------------------------------------------------------------ *)
(** ** One push *)

Section Push.
Context {LO : Layout}.

(** A fragment decoded from the buffer [d]. *)
Definition frag_of (d : bytes) (f : FragIn) : Prop :=
  0 <= fi_idx f /\ 0 <= fi_chunk_off f /\ slice_from d (fi_chunk_off f) = Some (fi_chunk f).

Lemma repeat_lookup {A} (x : A) n i : (i < n)%nat -> repeat x n !! i = Some x.
Proof. revert i. induction n as [|n IH]; intros [|i] Hi; cbn; try lia; [done|]. apply IH. lia. Qed.

(** The admission checks of a live partial, as the table sees them. *)
Definition live_ok (f : FragIn) (incoming : option FragCtx) (p : Partial) (s : Slot)
    (r : R2Reassembler) : Prop :=
  may_land s f incoming /\
  (middle_nat (Z.to_nat (fi_idx f)) (s_slots s) ->
     pt_unit p = None \/ pt_unit p = Some (len (fi_chunk f))) /\
  pt_bytes p + len (fi_chunk f) <= MQP_FRAG_MAX_PAYLOAD /\
  held_bytes r + wait_charge p (Z.to_nat (fi_idx f)) (fi_chunk f) <= FRAG_MAX_HELD_BYTES.

Lemma check_live_refused f incoming p r r' : check_live f incoming p r = Some r' ->
  r' = r \/ exists g, r' = book g r.
Proof. unfold check_live. intros H. repeat case_match; simplify_eq; eauto. Qed.

Lemma bit_clear got i sl : Z.land got (Z.shiftl 1 (Z.of_nat i)) = 0 -> (i < length sl)%nat ->
  (Z.testbit got (Z.of_nat i) = true <-> exists c, landed sl i c) -> sl !! i = Some None.
Proof.
  intros Hz Hi Hb. destruct (sl !! i) as [[c|]|] eqn:E; [| done | by apply lookup_ge_None in E; lia].
  exfalso. assert (Ht : Z.testbit got (Z.of_nat i) = true) by (apply Hb; eauto).
  assert (Hf : Z.testbit (Z.land got (Z.shiftl 1 (Z.of_nat i))) (Z.of_nat i) = true).
  { rewrite Z.land_spec, Ht, Z.shiftl_1_l, Z.pow2_bits_true by lia. done. }
  by rewrite Hz, Z.bits_0 in Hf.
Qed.

Lemma wait_charge_le p sl i c charge : partial_inv p sl -> sl !! i = Some None -> 0 <= len c ->
  charge = match pos_of (pt_first_len p) (pt_unit p) (Z.of_nat i) with
    | Some _ => Z.max (len c) (if v_cap (pt_buf p) =? 0 then Z.min (pt_total p * len c) MQP_FRAG_MAX_PAYLOAD else 0)
    | None => pending_charge (len (v_data (pt_pending p))) (v_cap (pt_pending p)) (len c)
    end ->
  0 <= wait_charge p i c <= charge.
Proof.
  intros H Hi Hc ->. unfold wait_charge.
  assert (Hnn : 0 <= pending_charge (len (v_data (pt_pending p))) (v_cap (pt_pending p)) (len c)).
  { pose proof (pi_pcap _ _ H) as [[? ?] _]. pose proof (len_nonneg (v_data (pt_pending p))).
    pose proof size_of_PendingChunk_ok.
    unfold pending_charge, saturating_add, saturating_mul, PENDING_CHUNK_COST, usize_max.
    repeat case_match; nia. }
  destruct (pos_of (pt_first_len p) _ _) as [a|] eqn:E.
  - rewrite (pos_of_extends _ _ _ _ _ a (first_after_extends p sl i (len c) H Hi)
      (unit_after_extends p (Z.of_nat i) (len c)) E). lia.
  - destruct (pos_of (first_after _ _ _) _ _); lia.
Qed.

Lemma check_live_ok f incoming p r s : part_ok p s -> 0 <= fi_idx f < fi_total f ->
  1 <= len (fi_chunk f) -> 0 <= held_bytes r <= 2 ^ 32 ->
  check_live f incoming p r = None -> live_ok f incoming p s r.
Proof.
  intros (Hi & Hctx & _ & _) Hx Hn Hb H. unfold check_live in H.
  destruct (negb _) eqn:E1 in H; [done|]. apply negb_false_iff, Z.eqb_eq in E1.
  destruct (match pt_ctx p with Some _ => _ | None => _ end) eqn:E2 in H; [done|].
  destruct (negb (Z.land _ _ =? 0)) eqn:E3 in H; [done|]. apply negb_false_iff, Z.eqb_eq in E3.
  destruct (is_middle _ _ && _) eqn:E4 in H; [done|].
  destruct (saturating_add (pt_bytes p) _ >? _) eqn:E5 in H; [done|].
  destruct (saturating_add (held_bytes r) _ >? _) eqn:E6 in H; [done|]. zbool. clear H.
  pose proof (pi_total _ _ Hi) as Ht. set (i := Z.to_nat (fi_idx f)).
  assert (Hidx : fi_idx f = Z.of_nat i) by lia.
  assert (Hil : (i < length (s_slots s))%nat) by (unfold len in Ht; lia).
  rewrite Hidx in E3, E6. pose proof (bit_clear _ _ _ E3 Hil (pi_bits _ _ Hi i)) as Hslot.
  assert (Hbb : 0 <= pt_bytes p <= MQP_FRAG_MAX_PAYLOAD).
  { rewrite (pi_bytes _ _ Hi). pose proof (sh_bytes _ _ _ (pi_shape _ _ Hi)). split; [apply len_nonneg | done]. }
  unfold MQP_FRAG_MAX_PAYLOAD in *.
  split_and!.
  - split_and!; [lia | | done]. unfold ctx_agree. rewrite <- Hctx.
    destruct (pt_ctx p) as [a|], incoming as [b|]; try done. by case_bool_decide.
  - intros Hm. fold i in Hm. apply is_middle_nat in Hm; [|done]. rewrite <- Hidx, <- Ht, E1 in Hm.
    rewrite Hm in E4. destruct (pt_unit p) as [w|]; [right | by left]. cbn in E4.
    apply negb_false_iff, Z.eqb_eq in E4. by rewrite E4.
  - unfold saturating_add, usize_max, MQP_FRAG_MAX_PAYLOAD in *. lia.
  - pose proof (wait_charge_le p (s_slots s) i (fi_chunk f) _ Hi Hslot ltac:(lia) eq_refl) as Hw.
    rewrite E1 in Hw. fold i. unfold saturating_add, usize_max, FRAG_MAX_HELD_BYTES, MQP_FRAG_MAX_PAYLOAD in *. lia.
Qed.

Lemma learn_ctx_part incoming p s : part_ok p s ->
  part_ok (learn_ctx incoming p) (mkSlot (merge_ctx (s_ctx s) incoming) (s_slots s)).
Proof.
  intros (Hi & Hctx & Hr & Hl). split_and!; [by apply learn_ctx_inv | | done | done].
  cbn. by rewrite Hctx.
Qed.

Lemma part_got p s : part_ok p s -> pt_got p <> 0.
Proof.
  intros (Hi & _ & _ & i & c & Hl) Hz. pose proof (pi_bits _ _ Hi i) as Hb. rewrite Hz, Z.bits_0 in Hb.
  by destruct Hb as [_ Hb]; discriminate Hb; eauto.
Qed.

(** The fragment of a live partial. *)
Lemma land_live key f incoming now r t p s : reasm_inv r t -> parts r !! key = Some p -> t !! key = Some s ->
  0 <= fi_idx f < fi_total f -> 1 <= len (fi_chunk f) -> live_ok f incoming p s r ->
  (exists r' pos, land key f incoming false now r = Ok (None, r') /\
     pos_of (first_after p (fi_idx f) (len (fi_chunk f))) (unit_after p (fi_idx f) (len (fi_chunk f)))
       (fi_idx f) = Some pos /\ MQP_FRAG_MAX_PAYLOAD < pos + len (fi_chunk f) /\
     reasm_inv r' (<[key := mkSlot (merge_ctx (s_ctx s) incoming) (s_slots s)]> t)) \/
  (exists out r', land key f incoming false now r = Ok (out, r') /\
     settled false r r' t key f (land_slot s f incoming) out).
Proof.
  intros HI Hp Hs Hx Hn ((Htot & Hagree & Hslot) & Hmid & Hby & Hch).
  pose proof (ri_core _ _ HI) as H. destruct (core_part _ _ _ _ H Hp) as (s' & Hs' & Hok).
  assert (s' = s) as -> by congruence. set (i := Z.to_nat (fi_idx f)) in *.
  assert (Hidx : fi_idx f = Z.of_nat i) by lia.
  pose proof (learn_ctx_part incoming p s Hok) as Hok1. set (s1 := mkSlot _ _) in Hok1.
  unfold land. rewrite Hp. cbn [from_option id]. rewrite Hidx.
  destruct (place_spec (learn_ctx incoming p) (s_slots s1) i (fi_chunk f)) as
    [(pos & Hpos & Hbig & ->)|(q & -> & Hq & (Hqc & Hqm & Hqt & Hqr) & Hg)];
    [apply Hok1 | done | done | done | done | |]; cbn [res_bind negb].
  - (* past the payload bound *)
    rewrite (proj2 (Z.eqb_neq _ _) (part_got _ _ Hok1)).
    left. eexists _, pos. split; [done|]. split; [exact Hpos|]. split; [exact Hbig|].
    apply book_inv. destruct HI as [_ Hopen Hsz Ho Hh]. split; cbn.
    + split; cbn; try apply H.
      * intros k. destruct (decide (k = key)) as [->|Hne].
        -- rewrite !lookup_insert_eq. by constructor.
        -- rewrite !lookup_insert_ne by done. apply H.
      * intros k p'. destruct (decide (k = key)) as [->|Hne].
        -- rewrite lookup_insert_eq. intros [= <-]. exact (rc_order _ _ H key p Hp).
        -- rewrite lookup_insert_ne by done. apply (rc_order _ _ H).
      * rewrite (rc_held _ _ H), (held_sum_delete _ _ _ Hp).
        rewrite <- insert_delete_eq, held_sum_insert by apply lookup_delete_eq. done.
    + intros k s'. destruct (decide (k = key)) as [->|Hne].
      * rewrite lookup_insert_eq. intros [= <-]. exact (Hopen key s Hs).
      * rewrite lookup_insert_ne by done. apply Hopen.
    + unfold inflight in *. cbn. by rewrite map_size_insert, Hp.
    + done.
    + done.
  - (* it lands *)
    assert (Hokq : part_ok q (land_slot s f incoming)).
    { split_and!; [exact Hq | rewrite Hqc; apply Hok1 | done |].
      exists i, (fi_chunk f). apply landed_insert; [done | by left]. }
    destruct HI as [_ Hopen Hsz Ho Hh]. destruct (core_held_nonneg _ _ H) as [Hn1 Hn2].
    pose proof (rc_held _ _ H) as Hheld.
    edestruct (settle_spec r t key f q (land_slot s f incoming) false now (pt_retained p) H Hokq)
      as (out & r' & Heq & Hout).
    + unfold held_bytes, FRAG_MAX_HELD_BYTES, HELD_SLACK, MQP_FRAG_MAX_PAYLOAD in Hh. lia.
    + done.
    + intros k s' [_ Hk]%lookup_delete_Some. by apply (Hopen k).
    + unfold inflight in Hsz. by rewrite map_size_insert, Hp.
    + by rewrite Hp.
    + rewrite Hqm. exact (rc_order _ _ H key p Hp).
    + rewrite Hqr. destruct Hok as (_ & _ & -> & _). unfold grows in Hg. unfold HELD_SLACK.
      change (footprint_of (learn_ctx incoming p)) with (footprint_of p) in Hg.
      change (wait_charge (learn_ctx incoming p)) with (wait_charge p) in Hg. lia.
    + change (pt_retained (learn_ctx incoming p)) with (pt_retained p).
      right. cbv zeta in Heq. rewrite Heq. eauto.
Qed.

(** The first fragment of a payload: its partial is new, and it always lands. *)
Lemma land_new key f incoming now r t : reasm_core r t -> t !! key = None ->
  (forall k s, t !! k = Some s -> ~ all_landed (s_slots s)) ->
  inflight r < FRAG_MAX_PARTIALS -> len (order r) <= ORDER_MAX ->
  held_bytes r + new_estimate f <= FRAG_MAX_HELD_BYTES ->
  0 <= fi_idx f < fi_total f -> 2 <= fi_total f <= 64 -> 1 <= len (fi_chunk f) <= MQP_FRAG_MAX_PAYLOAD ->
  exists out r', land key f incoming true now r = Ok (out, r') /\
    settled true r r' t key f (land_slot (slot_for t key f incoming) f incoming) out.
Proof.
  intros H Htk Hopen Hsz Ho Hest Hx Ht Hn. set (i := Z.to_nat (fi_idx f)) in *.
  assert (Hidx : fi_idx f = Z.of_nat i) by lia.
  assert (Hp : parts r !! key = None) by (by apply (core_none _ _ _ H)).
  set (s := mkSlot incoming (repeat None (Z.to_nat (fi_total f)))).
  assert (Hs : slot_for t key f incoming = s) by (unfold slot_for; by rewrite Htk).
  rewrite Hs.
  assert (Hslot : s_slots s !! i = Some None) by (cbn; apply repeat_lookup; lia).
  set (p := Partial_new (fi_total f) incoming now).
  pose proof (Partial_new_inv (fi_total f) incoming now Ht) as Hpi. fold p in Hpi.
  assert (Hlp : learn_ctx incoming p = p) by (unfold learn_ctx, p; cbn; by destruct incoming).
  unfold land. rewrite Hp. cbn [from_option id]. fold p. rewrite Hlp, Hidx.
  destruct (place_spec p (s_slots s) i (fi_chunk f)) as
    [(pos & Hpos & Hbig & _)|(q & -> & Hq & (Hqc & Hqm & Hqt & Hqr) & Hg)];
    [done | done | lia | cbn; lia | by left | |].
  - exfalso. cbn in Hpos. unfold first_after, unit_after, pos_of in Hpos. cbn in Hpos.
    destruct (Z.of_nat i =? 0); [injection Hpos as <-; lia | done].
  - cbn [res_bind negb].
    assert (Hokq : part_ok q (land_slot s f incoming)).
    { split_and!; [exact Hq | rewrite Hqc; cbn; by destruct incoming | done |].
      exists i, (fi_chunk f). apply landed_insert; [done | by left]. }
    destruct (core_held_nonneg _ _ H) as [Hn1 Hn2]. pose proof (rc_held _ _ H) as Hheld.
    pose proof order_slot_ok. pose proof size_of_Partial_ok.
    assert (Hgr : held_bytes r + pt_retained q + ORDER_SLOT_BYTES <= FRAG_MAX_HELD_BYTES + HELD_SLACK).
    { rewrite Hqr. unfold grows in Hg. change (footprint_of p) with (0 + (0 + 0 * size_of_PendingChunk) + size_of_Partial) in Hg.
      unfold HELD_SLACK, new_estimate in *. unfold wait_charge in Hg. rewrite Hidx in Hest.
      destruct (Z.eqb_spec (Z.of_nat i) 0) as [E0|E0].
      - rewrite E0 in Hg. cbn [pos_of Z.eqb] in Hg. unfold MQP_FRAG_MAX_PAYLOAD in *. nia.
      - assert (Hpn : pos_of (first_after p (Z.of_nat i) (len (fi_chunk f)))
                        (unit_after p (Z.of_nat i) (len (fi_chunk f))) (Z.of_nat i) = None).
        { unfold pos_of, first_after. rewrite (proj2 (Z.eqb_neq _ _) E0). done. }
        rewrite Hpn in Hg. cbn [p Partial_new pt_pending Vec_new v_data v_cap] in Hg.
        change (len (@nil PendingChunk)) with 0 in Hg. lia. }
    edestruct (settle_spec r t key f q (land_slot s f incoming) true now 0 H Hokq)
      as (out & r' & Heq & Hout).
    + unfold held_bytes, FRAG_MAX_HELD_BYTES, HELD_SLACK, MQP_FRAG_MAX_PAYLOAD in Hgr.
      pose proof (part_ok_retained _ _ Hokq). lia.
    + done.
    + intros k s' [_ Hk]%lookup_delete_Some. by apply (Hopen k).
    + unfold inflight in Hsz. rewrite map_size_insert, Hp. cbn. lia.
    + by rewrite Hp.
    + done.
    + lia.
    + change (pt_retained p) with 0. cbv zeta in Heq. rewrite Heq. eauto.
Qed.

(** A settled slot is a step of the table, after evictions [t'] of [t]. *)
Lemma settled_step n r r' t t' key f incoming out : settled n r r' t' key f
    (land_slot (slot_for t' key f incoming) f incoming) out ->
  t' ⊆ t -> t' !! key = t !! key -> frag_key f = Some key -> frag_incoming f = Some incoming ->
  may_land (slot_for t key f incoming) f incoming ->
  exists t'', reasm_inv r' t'' /\ push_step t f out t''.
Proof.
  intros [Hcase _] Hsub Hk Hkey Hin Hmay.
  assert (Hs : slot_for t' key f incoming = slot_for t key f incoming) by (unfold slot_for; by rewrite Hk).
  rewrite Hs in Hcase. destruct Hcase as [(Hall & -> & ?)|(Hn & -> & ?)]; eexists; (split; [done|]).
  - by eapply step_done.
  - by eapply step_land.
Qed.

Lemma new_estimate_bound f : 0 <= fi_idx f < fi_total f -> 1 <= len (fi_chunk f) <= MQP_FRAG_MAX_PAYLOAD ->
  0 <= new_estimate f <= 2 ^ 17.
Proof.
  intros Hx Hn. pose proof order_slot_ok. pose proof size_of_Partial_ok. pose proof size_of_PendingChunk_ok.
  unfold new_estimate, pending_charge, saturating_add, saturating_mul, PENDING_CHUNK_COST, usize_max,
    MQP_FRAG_MAX_PAYLOAD in *. cbn [Z.ltb Z.eqb Z.compare]. destruct (fi_idx f =? 0); nia.
Qed.

Lemma may_land_new t key f incoming : t !! key = None -> 0 <= fi_idx f < fi_total f ->
  may_land (slot_for t key f incoming) f incoming.
Proof.
  intros Hk Hx. unfold may_land, slot_for. rewrite Hk. cbn. split_and!.
  - unfold len. rewrite repeat_length. lia.
  - by destruct incoming.
  - apply repeat_lookup. lia.
Qed.

(** Every push keeps the invariant, does not panic and is one of the steps of
    the slot table. *)
Lemma push_frame_step d f now r t : reasm_inv r t -> frag_of d f ->
  exists out r' t', push_frame d f now r = Ok (out, r') /\ reasm_inv r' t' /\ push_step t f out t'.
Proof.
  intros HI (Hx0 & Hoff & Hd). unfold push_frame.
  assert (Href : forall g, exists out r' t', @Ok unit _ (@None R2Assembled, book g r) = Ok (out, r') /\
    reasm_inv r' t' /\ push_step t f out t').
  { intros g. eexists _, _, t. split; [done|]. split; [by apply book_inv | by apply step_refuse]. }
  destruct (_ || _) eqn:E1; [by apply Href|]. rewrite !orb_false_iff in E1.
  destruct E1 as [[[E1 E2] E3] E4]. apply bool_decide_eq_false in E4.
  destruct (len (fi_chunk f) >? MQP_FRAG_MAX_PAYLOAD) eqn:E5; [by apply Href|].
  destruct (negb _) eqn:E6; [by apply Href|]. unfold MQP_FRAG_MAX_TOTAL in *. zbool.
  assert (Hn : 1 <= len (fi_chunk f)) by (destruct (fi_chunk f); [done | lens]).
  destruct (frag_key f) as [key|] eqn:Ekey; [|by apply Href].
  destruct (frag_incoming f) as [incoming|] eqn:Einc; [|by apply Href].
  destruct (k_inline key && _) eqn:E7; [by apply Href|].
  destruct (Z.eqb_spec (fi_total f) 1) as [E8|E8].
  { unfold sub_from. rewrite Hd. cbn [or_panic res_bind]. eexists _, r, t. split; [done|]. split; [done|].
    eapply step_whole; try done. lia. }
  unfold make_entry. pose proof (ri_core _ _ HI) as H. pose proof (ri_held _ _ HI) as Hhb.
  destruct (core_held_nonneg _ _ H) as [Hn1 Hn2]. pose proof (rc_held _ _ H) as Hheld.
  assert (Hb32 : 0 <= held_bytes r <= 2 ^ 32).
  { unfold held_bytes, FRAG_MAX_HELD_BYTES, HELD_SLACK, MQP_FRAG_MAX_PAYLOAD in *. lia. }
  destruct (parts r !! key) as [p|] eqn:Ep.
  - destruct (core_part _ _ _ _ H Ep) as (s & Hs & Hok).
    destruct (check_live f incoming p r) as [r'|] eqn:Ec.
    + destruct (check_live_refused _ _ _ _ _ Ec) as [->|[g ->]]; [|by apply Href].
      eexists _, r, t. split; [done|]. split; [done | by apply step_refuse].
    + assert (Hlive : live_ok f incoming p s r) by (by eapply check_live_ok; try done; lia).
      assert (Hsf : slot_for t key f incoming = s) by (unfold slot_for; by rewrite Hs).
      destruct (land_live key f incoming now r t p s) as [(r' & pos & -> & _ & _ & Hinv)|(out & r' & -> & Hset)];
        try done.
      * eexists _, _, _. split; [done|]. split; [done|]. eapply step_past; try done. apply Hlive.
      * rewrite <- Hsf in Hset. destruct (settled_step _ _ _ t t _ _ _ _ Hset) as (t'' & ? & ?); try done.
        { rewrite Hsf. apply Hlive. }
        by exists out, r', t''.
  - pose proof (new_estimate_bound f ltac:(lia) ltac:(lia)) as Hest.
    destruct (make_room_spec (S (size (parts r))) (new_estimate f) r t H) as
      (r' & t' & -> & Hsub & H' & (Hs1 & Hs2 & Hs3) & Hfree & Hroom); [lia | done | lia | apply HI|].
    pose proof (ri_order _ _ HI) as Ho.
    assert (Htk : t !! key = None) by (by apply (core_none _ _ _ H)).
    assert (Htk' : t' !! key = None) by (by eapply lookup_weaken_None).
    destruct (land_new key f incoming now r' t') as (out & r'' & -> & Hset); try done; try lia.
    { intros k s Hk. apply (ri_open _ _ HI k). by eapply lookup_weaken. }
    destruct (settled_step _ _ _ t t' _ _ _ _ Hset) as (t'' & ? & ?); try done; [congruence | |].
    { by apply may_land_new; try lia. }
    by exists out, r'', t''.
Qed.
End Push.

(* ------------------------------------------------------------------ *)
(** ** Teardown of a session or a flow *)

Section Drop.
Context {LO : Layout}.

Lemma held_sum_split m (P : FragKey -> Partial -> bool) :
  held_sum m = held_sum (filter (fun kp => P kp.1 kp.2 = true) m) +
               held_sum (filter (fun kp => P kp.1 kp.2 = false) m).
Proof.
  induction m as [|k p m Hk IH] using map_ind; [by rewrite !map_filter_empty|].
  rewrite held_sum_insert by done. destruct (P k p) eqn:E.
  - rewrite (map_filter_insert_True _ m k p) by done.
    rewrite (map_filter_insert_False (fun kp => P kp.1 kp.2 = false) m k p) by (cbn; congruence).
    rewrite delete_id by done. rewrite held_sum_insert; [lia|].
    apply map_lookup_filter_None. left. done.
  - rewrite (map_filter_insert_True (fun kp => P kp.1 kp.2 = false) m k p) by done.
    rewrite (map_filter_insert_False (fun kp => P kp.1 kp.2 = true) m k p) by (cbn; congruence).
    rewrite delete_id by done. rewrite held_sum_insert; [lia|].
    apply map_lookup_filter_None. left. done.
Qed.

Lemma revoked_sum m : (forall k p, m !! k = Some p -> 0 <= pt_retained p) -> held_sum m <= usize_max ->
  map_fold (fun _ p acc => saturating_add acc (pt_retained p)) 0 m = held_sum m.
Proof.
  induction m as [|k p m Hk IH] using map_ind; intros Hp Hb; [done|].
  rewrite held_sum_insert in * by done.
  assert (Hm : forall k p, m !! k = Some p -> 0 <= pt_retained p).
  { intros k' p' Hk'. apply (Hp k'). rewrite lookup_insert_ne; [done | congruence]. }
  pose proof (held_sum_nonneg m Hm). pose proof (Hp k p (lookup_insert_eq _ _ _)).
  rewrite map_fold_insert_L; [| |done].
  - rewrite IH by (done || lia). unfold saturating_add. lia.
  - intros j1 j2 z1 z2 y _ H1 H2. pose proof (Hp _ _ H1). pose proof (Hp _ _ H2).
    unfold saturating_add. lia.
Qed.

(** The partials that match leave with their bytes; the others stay. *)
Lemma drop_matching_spec m r t : reasm_inv r t ->
  exists t', t' ⊆ t /\ reasm_inv (drop_matching m r).2 t' /\
    parts (drop_matching m r).2 = filter (fun kp => m kp.1 kp.2 = false) (parts r) /\
    (drop_matching m r).1 = inflight r - inflight (drop_matching m r).2.
Proof.
  intros HI. pose proof (ri_core _ _ HI) as H. pose proof (ri_held _ _ HI) as Hb.
  destruct (core_held_nonneg _ _ H) as [Hn1 Hn2]. pose proof (rc_held _ _ H) as Hh.
  assert (Hret : forall k p, parts r !! k = Some p -> 0 <= pt_retained p).
  { intros k p Hk. destruct (core_part _ _ _ _ H Hk) as (s & _ & Hs). pose proof (part_ok_retained _ _ Hs). lia. }
  set (keep := filter (fun kp => m kp.1 kp.2 = false) (parts r)).
  set (gone := filter (fun kp => m kp.1 kp.2 = true) (parts r)).
  assert (Hkn : 0 <= held_sum keep).
  { apply held_sum_nonneg. intros k p [Hk _]%map_lookup_filter_Some. by apply (Hret k). }
  pose proof (held_sum_split (parts r) m) as Hsplit. fold gone keep in Hsplit.
  assert (Hrev : map_fold (fun _ p acc => saturating_add acc (pt_retained p)) 0 gone = held_sum gone).
  { apply revoked_sum; [intros k p [Hk _]%map_lookup_filter_Some; by apply (Hret k)|].
    unfold held_bytes, FRAG_MAX_HELD_BYTES, HELD_SLACK, MQP_FRAG_MAX_PAYLOAD, usize_max in *. lia. }
  assert (Hgn : 0 <= held_sum gone).
  { apply held_sum_nonneg. intros k p [Hk _]%map_lookup_filter_Some. by apply (Hret k). }
  assert (Hsz : size (parts r) = (size gone + size keep)%nat).
  { assert (Hk : keep = filter (fun kp => ~ m kp.1 kp.2 = true) (parts r)).
    { apply map_filter_ext. intros k p _. cbn. by rewrite not_true_iff_false. }
    rewrite Hk. unfold gone. rewrite <- map_size_disj_union by apply map_disjoint_filter_complement.
    by rewrite map_filter_union_complement. }
  exists (filter (fun kp => is_Some (keep !! kp.1)) t). unfold drop_matching. fold keep gone. rewrite Hrev.
  cbn [fst snd]. split_and!; [apply map_filter_subseteq | | done | unfold inflight; cbn; fold keep; lia].
  split; cbn.
  - split; cbn.
    + intros k. pose proof (rc_parts _ _ H k) as HF. destruct (keep !! k) as [p|] eqn:E.
      * pose proof E as [Ep _]%map_lookup_filter_Some. destruct (core_part _ _ _ _ H Ep) as (s & Hs & Hok).
        rewrite (map_lookup_filter_Some_2 _ t k s Hs); [by constructor | by eexists].
      * rewrite (proj2 (map_lookup_filter_None _ _ _)); [constructor|]. right. intros s _. cbn.
        rewrite E. by intros [? ?].
    + intros k p [Hk _]%map_lookup_filter_Some. by apply (rc_order _ _ H).
    + unfold saturating_sub. lia.
    + apply H.
  - intros k s [Hs _]%map_lookup_filter_Some. by apply (ri_open _ _ HI k).
  - pose proof (ri_size _ _ HI). unfold inflight in *. cbn. fold keep. lia.
  - apply HI.
  - unfold held_bytes, saturating_sub in *. cbn. lia.
Qed.
End Drop.
