(* ===== verification/ReasmTrace.v ===== *)
(** What a reassembler delivers over its life: any sequence of pushes, expiry
    ticks and teardowns keeps its bounds and never panics, and every payload it
    hands out is made of fragments that were pushed, all of one key. *)
From stdpp Require Import sorting.
From S2P Require Import Prelude Addr Codec R3 R2 Wire Frag Partial Reasm.

Inductive Op : Type :=
| OpPush (d : bytes) (f : FragIn) (now_ms : Z)
| OpExpire (now_ms : Z)
| OpDropSession (session : Z)
| OpDropFlow (wire_id : Z).

Section Run.
Context {LO : Layout}.

Definition do_op (op : Op) (r : R2Reassembler) : res unit (option R2Assembled * R2Reassembler) :=
  match op with
  | OpPush d f now_ms => push_frame d f now_ms r
  | OpExpire now_ms => Ok (None, expire now_ms r)
  | OpDropSession session => Ok (None, (drop_session session r).2)
  | OpDropFlow wire_id => Ok (None, (drop_flow wire_id r).2)
  end.

(** The payloads delivered, in order. *)
Fixpoint run (ops : list Op) (r : R2Reassembler) : res unit (list R2Assembled * R2Reassembler) :=
  match ops with
  | [] => Ok ([], r)
  | op :: ops =>
      let! '(out, r) := do_op op r in
      let! '(outs, r) := run ops r in
      Ok (option_list out ++ outs, r)
  end.
End Run.

Fixpoint pushed (ops : list Op) : list FragIn :=
  match ops with
  | [] => []
  | OpPush _ f _ :: ops => f :: pushed ops
  | _ :: ops => pushed ops
  end.

Definition op_wf (op : Op) : Prop :=
  match op with OpPush d f _ => frag_of d f | _ => True end.

(** Fragment [f] belongs at index [i] of the payload of [key]. *)
Definition frag_part (key : FragKey) (ctx : option FragCtx) (total : Z) (i : nat) (f : FragIn) : Prop :=
  frag_key f = Some key /\ fi_idx f = Z.of_nat i /\ fi_total f = total /\
  exists inc, frag_incoming f = Some inc /\ (inc = None \/ inc = ctx).

(** Every chunk of the table came with a fragment of [log]. *)
Definition origin (log : list FragIn) (t : Table) : Prop :=
  forall key s i c, t !! key = Some s -> landed (s_slots s) i c ->
    exists f, f ∈ log /\ frag_part key (s_ctx s) (len (s_slots s)) i f /\ fi_chunk f = c.

(** The payload is the concatenation of fragments of [log], one for each
    index, all of one key and with no context but the one it carries. *)
Definition made_of (log : list FragIn) (a : R2Assembled) : Prop :=
  exists key ctx fs, (1 <= length fs)%nat /\
    (forall i f, fs !! i = Some f -> f ∈ log /\ frag_part key ctx (len fs) i f) /\
    a_payload a = concat (fi_chunk <$> fs) /\
    a_wire_id a = (if k_inline key then None else Some (k_id key)) /\
    a_sess a = c_sess <$> ctx /\ a_addr a = c_addr <$> ctx.

Lemma finite_choice {A} (P : nat -> A -> Prop) n : (forall i, (i < n)%nat -> exists x, P i x) ->
  exists l, length l = n /\ forall i x, l !! i = Some x -> P i x.
Proof.
  induction n as [|n IH]; intros H; [by exists []|]. destruct IH as (l & Hl & Hp); [auto with lia|].
  destruct (H n ltac:(lia)) as [x Hx]. exists (l ++ [x]). split; [rewrite length_app; cbn; lia|].
  intros i y Hy. apply lookup_app_Some in Hy as [Hy|[Hi Hy]]; [by apply Hp|].
  destruct (i - length l)%nat eqn:E; [|done]. injection Hy as <-. by replace i with n by lia.
Qed.

Lemma origin_sub log t t' : origin log t -> t' ⊆ t -> origin log t'.
Proof. intros H Hs key s i c Hk. eapply H. by eapply lookup_weaken. Qed.

Lemma frag_part_merge key old new total i f : ctx_agree old new -> frag_part key old total i f ->
  frag_part key (merge_ctx old new) total i f.
Proof.
  intros Ha (? & ? & ? & inc & ? & [-> | ->]); split_and!; try done; eexists; (split; [done|]); [by left|].
  destruct old; [by right | by left].
Qed.

(** The slot a fragment lands in. *)
Lemma land_slot_origin log t key f incoming : origin log t -> frag_key f = Some key ->
  frag_incoming f = Some incoming -> 0 <= fi_idx f ->
  may_land (slot_for t key f incoming) f incoming ->
  forall i c, landed (s_slots (land_slot (slot_for t key f incoming) f incoming)) i c ->
    exists g, g ∈ log ++ [f] /\
      frag_part key (s_ctx (land_slot (slot_for t key f incoming) f incoming))
        (len (s_slots (land_slot (slot_for t key f incoming) f incoming))) i g /\ fi_chunk g = c.
Proof.
  intros Ho Hk Hin Hx (Htot & Hag & Hslot) i c Hl. cbn [land_slot s_slots s_ctx] in *.
  set (s := slot_for t key f incoming) in *.
  assert (Hlen : len (<[Z.to_nat (fi_idx f) := Some (fi_chunk f)]> (s_slots s)) = len (s_slots s))
    by (unfold len; by rewrite length_insert).
  rewrite Hlen. apply landed_insert in Hl as [[-> ->]|[Hne Hl]]; [| |done].
  - exists f. split; [set_solver|]. split; [|done]. split_and!; try done; [lia|].
    exists incoming. split; [done|]. destruct (s_ctx s) as [a|]; [|by right].
    destruct incoming as [b|]; [|by left]. right. cbn in Hag. by subst.
  - destruct (t !! key) as [s0|] eqn:E.
    + assert (s = s0) as -> by (unfold s, slot_for; by rewrite E).
      destruct (Ho key s0 i c E Hl) as (g & Hg & Hp & Hc). exists g. split_and!; [set_solver | | done].
      by apply frag_part_merge.
    + exfalso. unfold s, slot_for, landed in Hl. rewrite E in Hl. cbn in Hl.
      apply list_elem_of_lookup_2, list_elem_of_In, repeat_spec in Hl. done.
Qed.

Lemma complete_made_of log key ctx sl a : (1 <= length sl)%nat -> all_landed sl ->
  (forall i c, landed sl i c -> exists g, g ∈ log /\ frag_part key ctx (len sl) i g /\ fi_chunk g = c) ->
  a_payload a = concat (chunks sl) -> a_wire_id a = (if k_inline key then None else Some (k_id key)) ->
  a_sess a = c_sess <$> ctx -> a_addr a = c_addr <$> ctx -> made_of log a.
Proof.
  intros Hn Hall Hor Hp Hw Hs Ha.
  destruct (finite_choice (fun i f => f ∈ log /\ frag_part key ctx (len sl) i f /\ landed sl i (fi_chunk f))
              (length sl)) as (fs & Hl & Hfs).
  { intros i Hi. destruct (Hall i Hi) as [c Hc]. destruct (Hor i c Hc) as (g & ? & ? & <-). eauto. }
  exists key, ctx, fs. split_and!; try done; [lia | |].
  - intros i f Hf. destruct (Hfs i f Hf) as (? & ? & _). split; [done|]. unfold len. rewrite Hl. done.
  - rewrite Hp. f_equal. apply list_eq. intros i. rewrite list_lookup_fmap.
    destruct (fs !! i) as [f|] eqn:E.
    + destruct (Hfs i f E) as (_ & _ & Hld). by rewrite (landed_chunks _ _ _ Hld).
    + cbn. apply lookup_ge_None. apply lookup_ge_None in E. unfold chunks. rewrite length_fmap. lia.
Qed.

Lemma push_step_origin log t f out t' : origin log t -> 0 <= fi_idx f -> push_step t f out t' ->
  origin (log ++ [f]) t' /\ forall a, out = Some a -> made_of (log ++ [f]) a.
Proof.
  intros Ho Hx Hstep.
  assert (Hmono : forall t, origin log t -> origin (log ++ [f]) t).
  { intros u Hu key s i c Hk Hl. destruct (Hu key s i c Hk Hl) as (g & ? & ? & ?). exists g. set_solver. }
  destruct Hstep as [t' Hsub|key incoming Hk Hin Ht Hi|key incoming s Hk Hin Hs Hag
    |key incoming t' s Hk Hin Hsub -> Hm Hn|key incoming t' s Hk Hin Hsub -> Hm Hall].
  - split; [|done]. apply Hmono. by eapply origin_sub.
  - split; [by apply Hmono|]. intros a [= <-]. exists key, incoming, [f]. split_and!; try done.
    + intros i g Hg. apply list_lookup_singleton_Some in Hg as [-> <-]. split; [set_solver|].
      split_and!; try done. exists incoming. split; [done | by right].
    + cbn. by rewrite app_nil_r.
    + unfold frag_key in Hk. cbn. repeat case_match; simplify_eq; done.
  - split; [|done]. intros k s' i c. destruct (decide (k = key)) as [->|Hne].
    + rewrite lookup_insert_eq. intros [= <-] Hl. cbn in *. destruct (Ho key s i c Hs Hl) as (g & ? & ? & ?).
      exists g. split_and!; [set_solver | by apply frag_part_merge | done].
    + rewrite lookup_insert_ne by done. apply (Hmono _ Ho).
  - split; [|done]. intros k s' i c. destruct (decide (k = key)) as [->|Hne].
    + rewrite lookup_insert_eq. intros [= <-]. by apply land_slot_origin.
    + rewrite lookup_insert_ne by done. apply Hmono. by eapply origin_sub.
  - split; [apply Hmono; eapply origin_sub; [done|]; etransitivity; [apply delete_subseteq | done]|].
    intros a [= <-].
    eapply (complete_made_of _ key (s_ctx (land_slot (slot_for t key f incoming) f incoming))); try done.
    + cbn. rewrite length_insert. destruct Hm as (_ & _ & Hs%lookup_lt_Some). lia.
    + by apply land_slot_origin.
Qed.

Section RunSpec.
Context {LO : Layout}.

Lemma drop_flow_spec id r t : reasm_inv r t -> exists t', t' ⊆ t /\ reasm_inv (drop_flow id r).2 t'.
Proof.
  intros H. unfold drop_flow. destruct (id =? 0); [by exists t|].
  destruct (drop_matching_spec (fun key _ => negb (k_inline key) && (k_id key =? id)) r t H) as (t' & ? & ? & _).
  by exists t'.
Qed.

Lemma do_op_spec op r t log : reasm_inv r t -> origin log t -> op_wf op ->
  exists out r' t', do_op op r = Ok (out, r') /\ reasm_inv r' t' /\ origin (log ++ pushed [op]) t' /\
    forall a, out = Some a -> made_of (log ++ pushed [op]) a.
Proof.
  intros H Ho Hwf.
  assert (Hshrink : forall r' : R2Reassembler, (exists t', t' ⊆ t /\ reasm_inv r' t') ->
    exists out r'' t', @Ok unit _ (@None R2Assembled, r') = Ok (out, r'') /\ reasm_inv r'' t' /\
      origin (log ++ []) t' /\ forall a, out = Some a -> made_of (log ++ []) a).
  { intros r' (t' & Hsub & Hi). exists None, r', t'. rewrite app_nil_r. split_and!; try done.
    by eapply origin_sub. }
  destruct op as [d f now|now|session|id]; cbn [do_op pushed].
  - destruct (push_frame_step d f now r t H Hwf) as (out & r' & t' & -> & Hi & Hst).
    exists out, r', t'. split_and!; try done; apply (push_step_origin log t f out t'); try done; apply Hwf.
  - apply Hshrink. by apply expire_spec.
  - apply Hshrink. destruct (drop_matching_spec (of_session session) r t H) as (t' & ? & ? & _). eauto.
  - apply Hshrink. by apply drop_flow_spec.
Qed.

Lemma made_of_mono log log' a : made_of log a -> (forall f, f ∈ log -> f ∈ log') -> made_of log' a.
Proof.
  intros (key & ctx & fs & Hn & Hfs & ?) Hsub. exists key, ctx, fs. split_and!; try done; try naive_solver.
  intros i f Hf. destruct (Hfs i f Hf). split; [by apply Hsub | done].
Qed.

Lemma pushed_app a b : pushed (a ++ b) = pushed a ++ pushed b.
Proof. induction a as [|[] a IH]; cbn; [done | by rewrite IH | done..]. Qed.

Lemma run_spec ops r t log : reasm_inv r t -> origin log t -> Forall op_wf ops ->
  exists outs r' t', run ops r = Ok (outs, r') /\ reasm_inv r' t' /\
    Forall (made_of (log ++ pushed ops)) outs.
Proof.
  revert r t log. induction ops as [|op ops IH]; intros r t log H Ho Hwf.
  { exists [], r, t. by split_and!. }
  apply Forall_cons_iff in Hwf as [Hwf1 Hwf2].
  destruct (do_op_spec op r t log H Ho Hwf1) as (out & r1 & t1 & E & H1 & Ho1 & Hout).
  destruct (IH r1 t1 _ H1 Ho1 Hwf2) as (outs & r2 & t2 & E2 & H2 & Houts).
  assert (Hp : (log ++ pushed [op]) ++ pushed ops = log ++ pushed (op :: ops)).
  { rewrite <- app_assoc. f_equal. symmetry. apply (pushed_app [op] ops). }
  rewrite Hp in Houts. cbn [run]. rewrite E. cbn [res_bind]. rewrite E2. cbn [res_bind].
  exists (option_list out ++ outs), r2, t2. split_and!; try done. apply Forall_app. split; [|done].
  destruct out as [a|]; cbn [option_list]; constructor; [|done]. eapply made_of_mono; [by apply Hout|].
  intros f Hf. rewrite <- Hp. set_solver.
Qed.
End RunSpec.

(* ------------------------------------------------------------------ *)
(** ** The clock *)

Section Clock.
Context {LO : Layout}.

Definition slot_before (a b : FragKey * Z) : Prop := a.2 <= b.2.

(** Queue slots are oldest first, and nothing is from the future. *)
Record timed (r : R2Reassembler) (now : Z) : Prop := mkTimed {
  ti_sorted : StronglySorted slot_before (order r);
  ti_order : Forall (fun s => s.2 <= now) (order r);
  ti_parts k p : parts r !! k = Some p -> pt_first_ms p <= now
}.

Lemma timed_later r a b : timed r a -> a <= b -> timed r b.
Proof.
  intros [H1 H2 H3] Hab. split; [done | | intros k p Hk; pose proof (H3 k p Hk); lia].
  eapply list.Forall_impl; [exact H2|]. cbn. lia.
Qed.

(** The queue is an end of the one before, and no partial is new. *)
Definition sheds (r r' : R2Reassembler) : Prop := (exists pre, order r = pre ++ order r') /\ parts r' ⊆ parts r.

Lemma sheds_refl r : sheds r r.
Proof. split; [by exists [] | done]. Qed.

Lemma sheds_trans a b c : sheds a b -> sheds b c -> sheds a c.
Proof.
  intros [[p1 H1] Hs1] [[p2 H2] Hs2]. split; [|by etransitivity].
  exists (p1 ++ p2). by rewrite <- app_assoc, <- H2.
Qed.

Lemma timed_sheds r r' now : timed r now -> sheds r r' -> timed r' now.
Proof.
  intros [H1 H2 H3] [[pre Ho] Hs]. rewrite Ho in H1, H2. split.
  - clear -H1. induction pre as [|x pre IH]; [done|]. apply IH. by apply StronglySorted_inv in H1 as [? _].
  - by apply Forall_app in H2 as [_ ?].
  - intros k p Hk. apply (H3 k). by eapply lookup_weaken.
Qed.

Lemma pop_sheds r s o b : order r = s :: o -> sheds r (with_order o b r).
Proof. intros Ho. split; [by exists [s] | done]. Qed.

Lemma remove_sheds r k p g : sheds r (book g (remove_part k p r)).
Proof. split; [by exists [] | apply delete_subseteq]. Qed.

Lemma evict_go_sheds o r : order r = o -> sheds r (evict_go o r).2.
Proof.
  revert r. induction o as [|s o IH]; intros r Ho; cbn [evict_go].
  - destruct (map_to_list (parts r)) as [|[k p] l]; [apply sheds_refl | apply remove_sheds].
  - eapply sheds_trans; [apply (pop_sheds r s o (saturating_sub (order_bytes r) ORDER_SLOT_BYTES) Ho)|].
    case_match; [apply remove_sheds | by apply IH].
Qed.

Lemma make_room_sheds fuel est r : sheds r (make_room fuel est r).2.
Proof.
  revert r. induction fuel as [|fuel IH]; intros r; cbn [make_room]; (destruct (_ || _); [|apply sheds_refl]);
    [apply sheds_refl|].
  pose proof (evict_go_sheds (order r) r eq_refl) as He. unfold evict_oldest.
  destruct (evict_go (order r) r) as [[|] r']; [eapply sheds_trans; [exact He | apply IH] | exact He].
Qed.

Lemma slot_le_before a b : slot_le a b -> slot_before a b.
Proof.
  unfold slot_le, slot_before. cbn. intros H. apply orb_true_iff in H as [H|[H _]%andb_true_iff]; zbool; lia.
Qed.

Lemma sorted_before l : StronglySorted slot_le l -> StronglySorted slot_before l.
Proof.
  induction 1 as [|x l Hl IH Hx]; constructor; [done|]. eapply list.Forall_impl; [exact Hx | apply slot_le_before].
Qed.

Lemma lex_le_trans a b c : lex_le a b = true -> lex_le b c = true -> lex_le a c = true.
Proof.
  revert b c. induction a as [|x a IH]; intros [|y b] [|z c]; cbn; try done.
  rewrite !orb_true_iff, !andb_true_iff, !Z.ltb_lt, !Z.eqb_eq. intros [?|[-> H1]] [?|[-> H2]]; [left; lia..|].
  right. eauto.
Qed.

Lemma lex_le_total a b : lex_le a b = true \/ lex_le b a = true.
Proof.
  revert b. induction a as [|x a IH]; intros [|y b]; cbn; auto.
  rewrite !orb_true_iff, !andb_true_iff, !Z.ltb_lt, !Z.eqb_eq.
  destruct (Z.lt_trichotomy x y) as [|[->|]]; [auto | | auto]. destruct (IH b); auto.
Qed.

#[local] Instance slot_le_trans : Transitive slot_le.
Proof. intros a b c. apply lex_le_trans. Qed.
#[local] Instance slot_le_total : Total slot_le.
Proof. intros a b. apply lex_le_total. Qed.

Lemma prune_timed r now : timed r now -> timed (prune_orders r) now.
Proof.
  intros H. unfold prune_orders. case_match; [done|]. destruct H as [H1 H2 H3]. split; cbn; [| |done].
  - apply sorted_before. apply StronglySorted_merge_sort; apply _.
  - rewrite merge_sort_Permutation. apply list.Forall_forall. intros s (kp & -> & Hin)%list_elem_of_fmap.
    destruct kp as [k p]. apply elem_of_map_to_list in Hin. by apply (H3 k).
Qed.

Lemma drain_first_ms p q : drain_pending p = Ok q -> pt_first_ms q = pt_first_ms p.
Proof. unfold drain_pending. intros H. res_inv. by subst q. Qed.

Lemma place_first_ms i c p b q : place i c p = Ok (b, q) -> pt_first_ms q = pt_first_ms p.
Proof.
  unfold place. case_match; [by intros [= _ <-]|]. intros H'. res_inv. simplify_eq. cbn.
  match goal with H : (if ?c then _ else _) = Ok _ |- _ => destruct c end; [|by simplify_eq].
  match goal with H : drain_pending _ = Ok _ |- _ => exact (drain_first_ms _ _ H) end.
Qed.

Lemma deliver_sheds key f r out r' : deliver key f r = (out, r') -> sheds r r'.
Proof.
  unfold deliver. case_match; intros [= _ <-]; [|apply sheds_refl].
  split; [by exists [] | apply delete_subseteq].
Qed.

Lemma push_timed r key now b : timed r now -> timed (with_order (order r ++ [(key, now)]) b r) now.
Proof.
  intros [H1 H2 H3]. split; cbn; [| |done].
  - apply StronglySorted_app_2; [|done|repeat constructor]. intros x y Hx Hy.
    apply list_elem_of_singleton in Hy as ->. rewrite list.Forall_forall in H2. by apply H2.
  - apply Forall_app. split; [done|]. constructor; [cbn; lia | constructor].
Qed.

Lemma land_timed key f incoming is_new now r out r' : timed r now ->
  land key f incoming is_new now r = Ok (out, r') -> timed r' now.
Proof.
  intros H. unfold land. intros Hl. apply res_bind_ok in Hl as ([ok q] & Hpl & Hl).
  apply place_first_ms in Hpl. cbn [learn_ctx pt_first_ms] in Hpl.
  assert (Hq : pt_first_ms q <= now).
  { rewrite Hpl. destruct (parts r !! key) as [p|] eqn:E; cbn; [|lia]. by apply (ti_parts _ _ H key). }
  assert (Hins : forall k p, <[key := q]> (parts r) !! k = Some p -> pt_first_ms p <= now).
  { intros k p [[_ <-]|[_ Hk]]%lookup_insert_Some; [done|]. by apply (ti_parts _ _ H k). }
  destruct (negb ok).
  - injection Hl as <- <-. destruct H as [H1 H2 H3]. split; cbn; try done. intros k p.
    case_match; [|apply Hins]. intros [_ Hk]%lookup_delete_Some. by apply (H3 k).
  - injection Hl as Hl. set (r1 := mkR2Reassembler _ _ _ _ _ _) in Hl.
    assert (H1 : timed r1 now) by (destruct H; by split).
    set (r2 := prune_orders _) in Hl.
    assert (H2 : timed r2 now) by (apply prune_timed; destruct is_new; [exact (push_timed r1 key now _ H1) | done]).
    destruct (complete q); [eapply timed_sheds; [exact H2 | by eapply deliver_sheds] | by injection Hl as _ <-].
Qed.

Lemma book_timed g r now : timed r now -> timed (book g r) now.
Proof. by intros [? ? ?]. Qed.

Lemma push_frame_timed d f now r out r' : timed r now -> push_frame d f now r = Ok (out, r') -> timed r' now.
Proof.
  intros H. unfold push_frame.
  repeat (match goal with |- (if ?c then Ok _ else _) = _ -> _ =>
            destruct c; [intros [= _ <-]; by apply book_timed|] end).
  destruct (frag_key f) as [key|]; [|intros [= _ <-]; by apply book_timed].
  destruct (frag_incoming f) as [inc|]; [|intros [= _ <-]; by apply book_timed].
  destruct (_ && _); [intros [= _ <-]; by apply book_timed|].
  destruct (fi_total f =? 1); [intros Hs; by res_inv; simplify_eq|].
  unfold make_entry. destruct (parts r !! key) as [p|].
  - destruct (check_live f inc p r) as [r1|] eqn:E; [|by apply land_timed].
    intros [= _ <-]. destruct (check_live_refused _ _ _ _ _ E) as [->|[g ->]]; [done | by apply book_timed].
  - pose proof (make_room_sheds (S (size (parts r))) (new_estimate f) r) as Hm.
    pose proof (timed_sheds _ _ _ H Hm) as H'.
    destruct (make_room _ _ r) as [[|] r1]; [by apply land_timed | by intros [= _ <-]].
Qed.

Lemma expire_go_sheds o now r : order r = o -> sheds r (expire_go o now r).
Proof.
  revert r. induction o as [|s o IH]; intros r Ho; cbn [expire_go]; [apply sheds_refl|].
  destruct (negb _); [apply sheds_refl|].
  eapply sheds_trans; [apply (pop_sheds r s o (saturating_sub (order_bytes r) ORDER_SLOT_BYTES) Ho)|].
  case_match.
  - eapply sheds_trans; [apply remove_sheds | by apply IH].
  - by apply IH.
Qed.

Lemma do_op_timed op r now out r' : timed r now ->
  match op with OpPush _ _ t | OpExpire t => now = t | _ => True end ->
  do_op op r = Ok (out, r') -> timed r' now.
Proof.
  intros H Hn. destruct op as [d f t|t|session|id]; cbn [do_op].
  - subst t. by apply push_frame_timed.
  - intros [= _ <-]. unfold expire. apply prune_timed. eapply timed_sheds; [exact H | by apply expire_go_sheds].
  - intros [= _ <-]. eapply timed_sheds; [exact H|]. split; [by exists [] | apply map_filter_subseteq].
  - intros [= _ <-]. eapply timed_sheds; [exact H|]. unfold drop_flow. destruct (id =? 0); [apply sheds_refl|].
    split; [by exists [] | apply map_filter_subseteq].
Qed.

(** The sweep stops at a slot that is alive and young, so every slot behind it
    is young too. *)
Lemma expire_go_young o now r t : reasm_core r t -> StronglySorted slot_before (order r) -> order r = o ->
  forall k p, parts (expire_go o now r) !! k = Some p -> now - pt_first_ms p < FRAG_TIMEOUT_MS.
Proof.
  revert r t. induction o as [|s o IH]; intros r t H Hs Ho k p; cbn [expire_go].
  - intros Hp. pose proof (rc_order _ _ H k p Hp) as Hin. rewrite Ho in Hin. by apply not_elem_of_nil in Hin.
  - change (slot_live s (with_order o _ r)) with (slot_live s r).
    assert (Hso : StronglySorted slot_before o) by (rewrite Ho in Hs; by apply StronglySorted_cons in Hs as [_ ?]).
    destruct (slot_live s r) as [q|] eqn:El; cbn [negb].
    + destruct (negb _) eqn:Eage.
      * intros Hp. pose proof (rc_order _ _ H k p Hp) as Hin. rewrite Ho in Hin, Hs.
        apply StronglySorted_cons in Hs as [Hb _]. apply negb_true_iff, Z.leb_gt in Eage.
        unfold saturating_sub in Eage. apply elem_of_cons in Hin as [<-|Hin]; [cbn in Eage; lia|].
        rewrite list.Forall_forall in Hb. specialize (Hb _ Hin). unfold slot_before in Hb. cbn in Hb. lia.
      * eapply (IH (book_buffer_full (remove_part s.1 q (with_order o _ r)))); [|done|done].
        apply book_core. by apply (pop_live_core _ _ _ _ _ H Ho El).
    + eapply (IH (with_order o _ r)); [by apply (pop_core _ _ _ _ H Ho El) | done | done].
Qed.

Lemma expire_young now r t : reasm_inv r t -> timed r now ->
  forall k p, parts (expire now r) !! k = Some p -> now - pt_first_ms p < FRAG_TIMEOUT_MS.
Proof.
  intros H [Hs _ _] k p. unfold expire.
  assert (Hp : forall r, parts (prune_orders r) = parts r) by (intros x; unfold prune_orders; by case_match).
  rewrite Hp. by eapply expire_go_young; [apply (ri_core _ _ H) | |].
Qed.

(** The clock of the operations does not run backwards from [now]. *)
Fixpoint clocked (now : Z) (ops : list Op) : Prop :=
  match ops with
  | [] => True
  | (OpPush _ _ t | OpExpire t) :: ops => now <= t /\ clocked t ops
  | _ :: ops => clocked now ops
  end.

Fixpoint last_time (now : Z) (ops : list Op) : Z :=
  match ops with
  | [] => now
  | (OpPush _ _ t | OpExpire t) :: ops => last_time t ops
  | _ :: ops => last_time now ops
  end.

Lemma clocked_app now a b : clocked now (a ++ b) -> clocked now a /\ clocked (last_time now a) b.
Proof. revert now. induction a as [|[] a IH]; intros now; cbn; [done | naive_solver..]. Qed.

Lemma run_app a b r : run (a ++ b) r =
  let! '(o1, r1) := run a r in let! '(o2, r2) := run b r1 in Ok (o1 ++ o2, r2).
Proof.
  revert r. induction a as [|op a IH]; intros r; cbn [run app res_bind].
  - destruct (run b r) as [[]| |]; done.
  - destruct (do_op op r) as [[o r1]| |]; cbn [res_bind]; [|done..]. rewrite IH.
    destruct (run a r1) as [[o1 r2]| |]; cbn [res_bind]; [|done..].
    destruct (run b r2) as [[o2 r3]| |]; cbn [res_bind]; [|done..]. by rewrite app_assoc.
Qed.

Lemma run_timed ops now r t log outs r' : reasm_inv r t -> origin log t -> timed r now -> Forall op_wf ops ->
  clocked now ops -> run ops r = Ok (outs, r') -> timed r' (last_time now ops).
Proof.
  revert now r t log outs. induction ops as [|op ops IH]; intros now r t log outs H Ho Ht Hwf Hc Hr.
  { cbn in Hr. injection Hr as _ <-. done. }
  apply Forall_cons_iff in Hwf as [Hwf1 Hwf2].
  destruct (do_op_spec op r t log H Ho Hwf1) as (out & r1 & t1 & E & H1 & Ho1 & _).
  cbn [run] in Hr. rewrite E in Hr. cbn [res_bind] in Hr. apply res_bind_ok in Hr as ([outs1 r2] & Hr & Heq).
  injection Heq as _ <-.
  destruct op as [d f ti|ti|session|id]; cbn [clocked last_time] in *.
  1,2: destruct Hc as [Hle Hc]; eapply IH; try done; (eapply do_op_timed; [| | exact E]; [|done]);
    by eapply timed_later.
  1,2: eapply IH; try done; by eapply do_op_timed; [exact Ht | | exact E].
Qed.
End Clock.

(* ------------------------------------------------------------------ *)
(** ** Claims *)

Definition example_frag : FragIn := mkFragIn (Some 4) None None false 7 1 2 3 [8; 9].
Definition example_ops : list Op :=
  [OpPush [0; 0; 0; 8; 9] example_frag 5; OpDropFlow 6; OpPush [0; 0; 0; 8; 9] example_frag 6].

Lemma example_frag_of : frag_of [0; 0; 0; 8; 9] example_frag.
Proof. split_and!; concrete. Qed.

(** C2: the reassembler implements the slot table.  A push of any decoded
    fragment, from any state that satisfies the invariant, does not panic and
    keeps the invariant; and it is one of the steps of the table that keeps
    each payload's chunks by index: refused, delivered at once, or put into
    the empty slot of its index under one key, one total and one context, the
    payload handed out being the concatenation of the slots once all are
    taken.  So the single assembly buffer with its computed positions is the
    slot table it replaced. *)
Theorem reasm_push_refines {LO : Layout} d f now r t : reasm_inv r t -> frag_of d f ->
  exists out r' t', push_frame d f now r = Ok (out, r') /\ reasm_inv r' t' /\ push_step t f out t'.
Proof. apply push_frame_step. Qed.

Lemma reasm_push_refines_witness :
  exists out r' t', push_frame [0; 0; 0; 8; 9] example_frag 5 (R2Reassembler_new (mkDrops 0 0 0)) = Ok (out, r') /\
    reasm_inv r' t' /\ push_step ∅ example_frag out t'.
Proof.
  apply (reasm_push_refines [0; 0; 0; 8; 9] example_frag 5 (R2Reassembler_new (mkDrops 0 0 0)) ∅);
    [apply new_inv | apply example_frag_of].
Defined.

(** C4: the bounds of a reassembler's life.  Whatever sequence of pushes,
    expiry ticks and teardowns it sees, it never panics, never holds more than
    256 partials, keeps its order queue to 576 slots, accounts exactly for what
    its partials retain, and retains at most 16 KiB over its 256 KiB budget. *)
Theorem reasm_bounds {LO : Layout} w d ops : Forall op_wf ops ->
  exists outs r, run ops (R2Reassembler_new_with_wire w d) = Ok (outs, r) /\
    inflight r <= FRAG_MAX_PARTIALS /\ len (order r) <= 2 * FRAG_MAX_PARTIALS + ORDER_SLOT_LIMIT /\
    held r = held_sum (parts r) /\ order_bytes r = len (order r) * ORDER_SLOT_BYTES /\
    held_bytes r <= FRAG_MAX_HELD_BYTES + 2 * MQP_FRAG_MAX_PAYLOAD /\
    (forall key p, parts r !! key = Some p -> pt_retained p = footprint_of p /\ complete p = false).
Proof.
  intros Hwf. destruct (run_spec ops _ ∅ [] (new_inv w d)) as (outs & r & t & Hr & Hi & _); [|done|].
  { intros key s i c Hk. by rewrite lookup_empty in Hk. }
  exists outs, r. destruct Hi as [Hc Hopen Hsz Ho Hh].
  split_and!; try done; try apply Hc. intros key p Hp.
  destruct (core_part _ _ _ _ Hc Hp) as (s & Hs & (Hpi & _ & Hret & _)). split; [done|].
  apply not_true_iff_false. intros Hcm. apply (Hopen key s Hs). exact (proj1 (complete_landed _ _ Hpi) Hcm).
Qed.

Lemma reasm_bounds_witness :
  exists outs r, run example_ops (R2Reassembler_new_with_wire Rev2 (mkDrops 0 0 0)) = Ok (outs, r) /\
    inflight r <= FRAG_MAX_PARTIALS /\ len (order r) <= 2 * FRAG_MAX_PARTIALS + ORDER_SLOT_LIMIT /\
    held r = held_sum (parts r) /\ order_bytes r = len (order r) * ORDER_SLOT_BYTES /\
    held_bytes r <= FRAG_MAX_HELD_BYTES + 2 * MQP_FRAG_MAX_PAYLOAD /\
    (forall key p, parts r !! key = Some p -> pt_retained p = footprint_of p /\ complete p = false).
Proof.
  apply (reasm_bounds Rev2 (mkDrops 0 0 0) example_ops).
  repeat constructor; apply example_frag_of.
Defined.

(** C3: no splicing.  Every payload a reassembler hands out over its life is
    the concatenation of pushed fragments, one for each index below the total
    they all announce, all of the same flow (or inline session) and fragment
    id, and none of them carries a session or an address other than the one
    the payload is delivered with. *)
Theorem reasm_no_splice {LO : Layout} w d ops outs r : Forall op_wf ops ->
  run ops (R2Reassembler_new_with_wire w d) = Ok (outs, r) -> Forall (made_of (pushed ops)) outs.
Proof.
  intros Hwf Hr. destruct (run_spec ops _ ∅ [] (new_inv w d)) as (outs' & r' & t & Hr' & _ & Hm); [|done|].
  { intros key s i c Hk. by rewrite lookup_empty in Hk. }
  rewrite Hr in Hr'. by injection Hr' as -> _.
Qed.

(** Two fragments of flow 4, the second one first. *)
Definition example_pair : list Op :=
  [OpPush [0; 0; 0; 8; 9] example_frag 5;
   OpPush [0; 7] (mkFragIn (Some 4) (Some 2) (Some example_v4) true 7 0 2 1 [7]) 6].

Definition example_payload : R2Assembled := mkR2Assembled (Some 4) (Some 2) (Some example_v4) true [7; 8; 9].

Definition example_after : R2Reassembler :=
  match run example_pair (R2Reassembler_new_with_wire Rev2 (mkDrops 0 0 0)) with
  | Ok (_, r) => r
  | _ => R2Reassembler_new (mkDrops 0 0 0)
  end.

Lemma reasm_no_splice_witness : Forall (made_of (pushed example_pair)) [example_payload].
Proof.
  apply (reasm_no_splice Rev2 (mkDrops 0 0 0) example_pair [example_payload] example_after).
  - unfold example_pair. rewrite !list.Forall_cons. split_and!; try constructor; concrete.
  - vm_compute. reflexivity.
Defined.

(** nothing outlives the timeout.  As long as the clock of the operations
    does not run backwards, after an expiry tick every partial that is left is
    younger than two seconds, although the sweep looks only at the front of
    the queue and the queue may hold stale slots. *)
Theorem reasm_expiry {LO : Layout} w d ops now : Forall op_wf ops -> clocked 0 (ops ++ [OpExpire now]) ->
  exists outs r, run (ops ++ [OpExpire now]) (R2Reassembler_new_with_wire w d) = Ok (outs, r) /\
    forall key p, parts r !! key = Some p -> now - pt_first_ms p < FRAG_TIMEOUT_MS.
Proof.
  intros Hwf Hc. assert (Hor : origin [] ∅) by (intros key s i c Hk; by rewrite lookup_empty in Hk).
  destruct (run_spec ops _ ∅ [] (new_inv w d) Hor Hwf) as (outs & r & t & Hr & Hi & _).
  destruct (clocked_app 0 ops [OpExpire now] Hc) as [Hc1 [Hle _]].
  assert (Ht : timed r (last_time 0 ops)).
  { eapply run_timed; [apply new_inv | exact Hor | | done | done | exact Hr]. split; [constructor | constructor |].
    intros k p Hk. cbn in Hk. by rewrite lookup_empty in Hk. }
  exists outs, (expire now r). rewrite (run_app ops), Hr. cbn. rewrite app_nil_r. split; [done|].
  eapply expire_young; [done | by eapply timed_later].
Qed.

Lemma reasm_expiry_witness :
  exists outs r, run (example_ops ++ [OpExpire 3000]) (R2Reassembler_new_with_wire Rev2 (mkDrops 0 0 0)) = Ok (outs, r) /\
    forall key p, parts r !! key = Some p -> 3000 - pt_first_ms p < FRAG_TIMEOUT_MS.
Proof.
  apply (reasm_expiry Rev2 (mkDrops 0 0 0) example_ops 3000).
  - repeat constructor; apply example_frag_of.
  - cbn. lia.
Defined.

(** Teardown is exact.  [drop_session] and [drop_flow] remove precisely the
    partials of that session (by the context they learnt, or inline) and of
    that flow, return how many there were, give their bytes back and keep the
    invariant; id 0 names no flow. *)
Theorem reasm_teardown {LO : Layout} r t id : reasm_inv r t ->
  (exists t', t' ⊆ t /\ reasm_inv (drop_session id r).2 t') /\
  (exists t', t' ⊆ t /\ reasm_inv (drop_flow id r).2 t') /\
  (forall key p, parts (drop_session id r).2 !! key = Some p <->
     parts r !! key = Some p /\ (c_sess <$> pt_ctx p) <> Some id /\ ~ (k_inline key = true /\ k_id key = id)) /\
  (forall key p, parts (drop_flow id r).2 !! key = Some p <->
     parts r !! key = Some p /\ (id <> 0 -> ~ (k_inline key = false /\ k_id key = id))) /\
  (drop_session id r).1 = inflight r - inflight (drop_session id r).2 /\
  (drop_flow id r).1 = inflight r - inflight (drop_flow id r).2.
Proof.
  intros H. destruct (drop_matching_spec (of_session id) r t H) as (t1 & Hs1 & Hi1 & Hp1 & Hn1).
  destruct (drop_matching_spec (fun key _ => negb (k_inline key) && (k_id key =? id)) r t H)
    as (t2 & Hs2 & Hi2 & Hp2 & Hn2).
  split_and!; [by exists t1 | by apply drop_flow_spec | | | done |].
  - intros key p. unfold drop_session. rewrite Hp1, map_lookup_filter_Some. cbn. unfold of_session.
    rewrite orb_false_iff, andb_false_iff, Z.eqb_neq.
    destruct (pt_ctx p) as [c|], (k_inline key); cbn; rewrite ?Z.eqb_neq; naive_solver.
  - intros key p. unfold drop_flow. destruct (Z.eqb_spec id 0) as [->|Hne]; [naive_solver|].
    rewrite Hp2, map_lookup_filter_Some. cbn. rewrite andb_false_iff, negb_false_iff, Z.eqb_neq.
    destruct (k_inline key); naive_solver.
  - unfold drop_flow. destruct (id =? 0); [cbn; lia | done].
Qed.

Lemma reasm_teardown_witness :
  let r := R2Reassembler_new (mkDrops 0 0 0) in
  (exists t', t' ⊆ (∅ : Table) /\ reasm_inv (drop_session 3 r).2 t') /\
  (exists t', t' ⊆ (∅ : Table) /\ reasm_inv (drop_flow 3 r).2 t') /\
  (forall key p, parts (drop_session 3 r).2 !! key = Some p <->
     parts r !! key = Some p /\ (c_sess <$> pt_ctx p) <> Some 3 /\ ~ (k_inline key = true /\ k_id key = 3)) /\
  (forall key p, parts (drop_flow 3 r).2 !! key = Some p <->
     parts r !! key = Some p /\ (3 <> 0 -> ~ (k_inline key = false /\ k_id key = 3))) /\
  (drop_session 3 r).1 = inflight r - inflight (drop_session 3 r).2 /\
  (drop_flow 3 r).1 = inflight r - inflight (drop_flow 3 r).2.
Proof. apply (reasm_teardown (R2Reassembler_new (mkDrops 0 0 0)) ∅ 3). apply new_inv. Defined.

(** Thirty-one half-filled payloads, one small one, and the first of three
    fragments of another. *)
Definition filler (id n : Z) : Op :=
  let c := repeat 0 (Z.to_nat n) in OpPush c (mkFragIn (Some id) None None false 0 0 2 0 c) 0.
Definition overshoot_ops : list Op :=
  ((fun k => filler (Z.of_nat k) 4000) <$> seq 2 31) ++ [filler 100 400] ++
  [OpPush (repeat 0 1000) (mkFragIn (Some 200) None None false 0 0 3 0 (repeat 0 1000)) 0;
   OpPush (repeat 0 2500) (mkFragIn (Some 200) None None false 0 1 3 0 (repeat 0 2500)) 0].

Lemma whole_frag id i total c : 0 <= i -> frag_of c (mkFragIn id None None false 0 i total 0 c).
Proof. intros Hi. split_and!; [done | done|]. apply cursor_slice_from, cursor_start. Qed.

(** The retained-bytes budget can be overshot.  Admission charges a
    fragment that has a position only with its own length once the buffer
    exists, but the write doubles the buffer's capacity; a sequence of valid
    fragments takes [held_bytes] over 256 KiB. *)
Theorem reasm_budget_overshoot :
  Forall op_wf overshoot_ops /\
  match run overshoot_ops (R2Reassembler_new_with_wire Rev2 (mkDrops 0 0 0)) with
  | Ok (_, r) => FRAG_MAX_HELD_BYTES <? held_bytes r
  | _ => false
  end = true.
Proof.
  split; [|vm_compute; reflexivity].
  unfold overshoot_ops. apply Forall_app. split.
  - apply list.Forall_fmap, list.Forall_forall. intros k _. by apply whole_frag.
  - rewrite Forall_app, !list.Forall_cons. split_and!; try constructor; by apply whole_frag.
Qed.
