(* ===== verification/Roundtrip.v ===== *)
(** Fragmenter and reassembler together: the fragments of a payload, delivered
    in any order, are put back together to exactly that payload. *)
From S2P Require Import Prelude Addr Codec R3 R2 Wire Frag Partial Reasm ReasmTrace.

(* ------------------------------------------------------------------ *)
(** ** A payload cut into chunks *)

(** A split as [FragPlan] makes it: no chunk is empty, those between the first
    and the last have one length, and together they fit a payload. *)
Record split_ok (cs : list bytes) (w : Z) : Prop := mkSplitOk {
  so_total : (2 <= length cs <= 64)%nat;
  so_nonempty i c : cs !! i = Some c -> 1 <= len c;
  so_width i c : cs !! i = Some c -> (1 <= i)%nat -> (S i < length cs)%nat -> len c = w;
  so_bytes : len (concat cs) <= MQP_FRAG_MAX_PAYLOAD
}.

(** The chunks that landed are chunks of the split. *)
Definition part_of (sl : slots) (cs : list bytes) : Prop :=
  length sl = length cs /\ forall i c, landed sl i c -> cs !! i = Some c.

Lemma part_of_insert sl cs i c : part_of sl cs -> sl !! i = Some None -> cs !! i = Some c ->
  part_of (<[i := Some c]> sl) cs.
Proof.
  intros [Hl Hp] Hi Hc. split; [by rewrite length_insert|].
  intros j d [[-> ->]|[_ Hd]]%landed_insert; [done | by apply Hp | done].
Qed.

Lemma part_of_len sl cs : part_of sl cs -> len (concat (chunks sl)) <= len (concat cs).
Proof.
  revert cs. induction sl as [|o sl IH]; intros cs [Hl Hp]; destruct cs as [|c cs]; try done.
  cbn [chunks fmap list_fmap concat]. rewrite !len_app.
  assert (Hrest : part_of sl cs).
  { split; [cbn in Hl; lia|]. intros i d Hd. exact (Hp (S i) d Hd). }
  specialize (IH cs Hrest). unfold chunks in IH.
  destruct o as [d|]; cbn [from_option id].
  - assert (Hd : Some c = Some d) by exact (Hp 0%nat d eq_refl). injection Hd as ->. lia.
  - pose proof (len_nonneg c). change (len []) with 0. lia.
Qed.

Lemma part_of_full sl cs : part_of sl cs -> all_landed sl -> chunks sl = cs.
Proof.
  intros [Hl Hp] Hall. apply list_eq. intros i. destruct (decide (i < length sl)%nat) as [Hi|Hi].
  - destruct (Hall i Hi) as [c Hc]. by rewrite (landed_chunks _ _ _ Hc), (Hp _ _ Hc).
  - rewrite !lookup_ge_None_2; [done | lia | unfold chunks; rewrite length_fmap; lia].
Qed.

Section Positions.
Variables (cs : list bytes) (w : Z).
Hypothesis Hcs : split_ok cs w.

Lemma len_take_S i c : cs !! i = Some c -> len (concat (take (S i) cs)) = len (concat (take i cs)) + len c.
Proof. intros Hc. rewrite (take_S_r _ _ _ Hc), concat_app, len_app. cbn. by rewrite app_nil_r. Qed.

Lemma split_prefix c0 k : cs !! 0%nat = Some c0 -> (S k < length cs)%nat ->
  len (concat (take (S k) cs)) = len c0 + Z.of_nat k * w.
Proof.
  intros H0. induction k as [|k IH]; intros Hk.
  - rewrite (len_take_S 0 c0 H0), take_0. cbn [concat]. rewrite len_nil. lia.
  - destruct (lookup_lt_is_Some_2 cs (S k)) as [c Hc]; [lia|]. rewrite (len_take_S (S k) c Hc), IH by lia.
    rewrite (so_width _ _ Hcs (S k) c Hc) by lia. lia.
Qed.

Lemma split_end i c : cs !! i = Some c -> len (concat (take i cs)) + len c <= MQP_FRAG_MAX_PAYLOAD.
Proof.
  intros Hc. rewrite <- (len_take_S i c Hc). pose proof (so_bytes _ _ Hcs) as Hb.
  rewrite <- (take_drop (S i) cs), concat_app, len_app in Hb.
  pose proof (len_nonneg (concat (drop (S i) cs))). lia.
Qed.

(** The position of a chunk, once it is known, is where the split has it. *)
Lemma part_of_pos first width sl i c a : shape first width sl -> part_of sl cs -> cs !! i = Some c ->
  pos_of first width (Z.of_nat i) = Some a -> a = len (concat (take i cs)).
Proof.
  intros Hsh [Hl Hp] Hc Ha. pose proof (lookup_lt_Some _ _ _ Hc) as Hi.
  rewrite (pos_of_shape _ _ _ i Hsh) in Ha by lia. destruct i as [|k]; [by injection Ha as <-|].
  assert (Hf : exists h, first = Some h) by (destruct k; [eauto | destruct first; [eauto | done]]).
  destruct Hf as [h Hf]. pose proof (proj1 (sh_first _ _ _ Hsh h) Hf) as (c0 & Hc0 & Hh).
  apply Hp in Hc0. rewrite (split_prefix c0 k Hc0 Hi). destruct k as [|k].
  - rewrite Hf in Ha. injection Ha as <-. lia.
  - rewrite Hf in Ha. cbn [mbind option_bind] in Ha. destruct width as [w'|] eqn:Ew; [|done].
    cbn [mbind option_bind] in Ha. injection Ha as <-.
    destruct (sh_width_ex _ _ _ Hsh w' eq_refl) as (j & d & Hd & Hj1 & Hj2 & <-).
    rewrite (so_width _ _ Hcs j d (Hp _ _ Hd)) by lia. lia.
Qed.
End Positions.

(* ------------------------------------------------------------------ *)
(** ** Receiving the fragments *)

(** A received fragment: the datagram, the decoded view and the time. *)
Abbreviation Arrival := (bytes * FragIn * Z)%type.

Definition arrival_op (x : Arrival) : Op := OpPush x.1.1 x.1.2 x.2.
Definition arrival_idx (x : Arrival) : nat := Z.to_nat (fi_idx x.1.2).

Section Receive.
Context {LO : Layout}.
Variables (cs : list bytes) (w : Z) (key : FragKey) (ctx : option FragCtx).
Hypothesis Hcs : split_ok cs w.

(** [x] carries chunk [i] of the payload [cs] of [key]. *)
Definition arrives (x : Arrival) : Prop :=
  frag_of x.1.1 x.1.2 /\ fi_total x.1.2 = len cs /\ cs !! arrival_idx x = Some (fi_chunk x.1.2) /\
  frag_key x.1.2 = Some key /\ len x.1.1 <= usize_max /\
  exists inc, frag_incoming x.1.2 = Some inc /\ (inc = None \/ inc = ctx) /\
    (k_inline key = true -> inc <> None).

Definition carries (x : Arrival) : Prop := frag_incoming x.1.2 = Some ctx.

(** Room for the payload beside what [r0] holds. *)
Definition ROOM : Z := 72 * 1024.

(** The reassembler [r] is [r0] with the slot [s] of the payload. *)
Definition receiving (r0 r : R2Reassembler) (t0 : Table) (s : Slot) : Prop :=
  reasm_inv r (<[key := s]> t0) /\ part_of (s_slots s) cs /\ delete key (parts r) = parts r0 /\
  len (order r) <= len (order r0) + 1 /\ (s_ctx s = None \/ s_ctx s = ctx).

Definition roomy (r0 : R2Reassembler) (t0 : Table) : Prop :=
  reasm_inv r0 t0 /\ t0 !! key = None /\ held_bytes r0 + ROOM <= FRAG_MAX_HELD_BYTES /\
  inflight r0 < FRAG_MAX_PARTIALS.

Lemma arrives_shape x : arrives x ->
  fi_idx x.1.2 = Z.of_nat (arrival_idx x) /\ 0 <= fi_idx x.1.2 < len cs /\ 1 <= len (fi_chunk x.1.2) /\
  len (fi_chunk x.1.2) <= MQP_FRAG_MAX_PAYLOAD /\ 2 <= len cs <= 64.
Proof.
  intros ((Hx & _) & Ht & Hc & _). pose proof (lookup_lt_Some _ _ _ Hc). pose proof (so_total _ _ Hcs).
  pose proof (so_nonempty _ _ Hcs _ _ Hc). pose proof (split_end _ _ Hcs _ _ Hc) as He.
  pose proof (len_nonneg (concat (take (arrival_idx x) cs))). unfold arrival_idx, len in *. lia.
Qed.

(** A fragment of the split passes the shape checks of [push_frame]. *)
Lemma push_frame_arrives x r inc : arrives x -> frag_incoming x.1.2 = Some inc ->
  push_frame x.1.1 x.1.2 x.2 r =
    match make_entry key x.1.2 inc r with
    | inr r => Ok (None, r)
    | inl (is_new, r) => land key x.1.2 inc is_new x.2 r
    end.
Proof.
  intros Hx Hinc. destruct (arrives_shape x Hx) as (Hidx & Hi & Hn & Hm & Ht).
  destruct Hx as ((_ & Hoff & Hd) & Htot & _ & Hk & Hfit & inc' & Hinc' & _ & Hinl).
  assert (inc' = inc) as -> by congruence. unfold push_frame. rewrite Hk, Hinc.
  assert (Hlen : fi_chunk_off x.1.2 + len (fi_chunk x.1.2) = len x.1.1).
  { apply slice_from_cursor in Hd; [|done]. apply cursor_bounds in Hd. lia. }
  assert (E1 : (fi_total x.1.2 <? 1) || (fi_total x.1.2 >? MQP_FRAG_MAX_TOTAL) ||
    (fi_idx x.1.2 >=? fi_total x.1.2) || bool_decide (fi_chunk x.1.2 = []) = false).
  { rewrite !orb_false_iff, Htot. unfold MQP_FRAG_MAX_TOTAL. split_and!; [zbool; lia..|].
    apply bool_decide_eq_false. intros E. rewrite E in Hn. done. }
  rewrite E1. clear E1. replace (len (fi_chunk x.1.2) >? MQP_FRAG_MAX_PAYLOAD) with false by (symmetry; zbool; lia).
  rewrite bool_decide_eq_true_2 by (rewrite checked_add_small; [by rewrite Hlen | lia]). cbn [negb].
  replace (k_inline key && bool_decide (inc = None)) with false.
  2: { symmetry. apply andb_false_iff. destruct (k_inline key); [right | by left].
       apply bool_decide_eq_false. by apply Hinl. }
  replace (fi_total x.1.2 =? 1) with false by (symmetry; apply Z.eqb_neq; lia). done.
Qed.

Lemma land_slot_part_of s x inc : part_of (s_slots s) cs -> arrives x ->
  s_slots s !! arrival_idx x = Some None -> part_of (s_slots (land_slot s x.1.2 inc)) cs.
Proof. intros Hp (_ & _ & Hc & _) Hs. by apply part_of_insert. Qed.

Lemma merge_ctx_known (old inc : option FragCtx) : (old = None \/ old = ctx) -> (inc = None \/ inc = ctx) ->
  ctx_agree old inc /\ (merge_ctx old inc = None \/ merge_ctx old inc = ctx).
Proof. intros [-> | ->] [-> | ->]; destruct ctx; cbn; auto. Qed.

(** A fresh slot of the payload. *)
Definition fresh_slot (inc : option FragCtx) : Slot := mkSlot inc (repeat None (length cs)).

Lemma fresh_part_of inc : part_of (s_slots (fresh_slot inc)) cs.
Proof.
  split; [apply repeat_length|]. intros i c Hl. unfold landed in Hl. cbn in Hl.
  apply list_elem_of_lookup_2, list_elem_of_In, repeat_spec in Hl. done.
Qed.

Lemma first_push r0 t0 x : roomy r0 t0 -> arrives x -> exists r inc,
  do_op (arrival_op x) r0 = Ok (None, r) /\ frag_incoming x.1.2 = Some inc /\
  receiving r0 r t0 (land_slot (fresh_slot inc) x.1.2 inc).
Proof.
  intros (H0 & Hk & Hroom & Hsz) Hx. destruct (arrives_shape x Hx) as (Hidx & Hi & Hn & Hm & Ht).
  pose proof Hx as (_ & Htot & Hc & _ & _ & inc & Hinc & Hctx & _).
  pose proof (ri_core _ _ H0) as Hcore. destruct (core_held_nonneg _ _ Hcore) as [Hn1 Hn2].
  pose proof (rc_held _ _ Hcore) as Hheld.
  cbn [do_op arrival_op]. rewrite (push_frame_arrives x r0 inc Hx Hinc). unfold make_entry.
  assert (Hp : parts r0 !! key = None) by (by apply (core_none _ _ _ Hcore)). rewrite Hp.
  pose proof (new_estimate_bound x.1.2 ltac:(lia) ltac:(lia)) as Hest.
  assert (Hest2 : new_estimate x.1.2 <= ROOM).
  { unfold new_estimate, pending_charge, saturating_add, saturating_mul, PENDING_CHUNK_COST, usize_max, ROOM,
      MQP_FRAG_MAX_PAYLOAD in *. pose proof order_slot_ok. pose proof size_of_Partial_ok.
    pose proof size_of_PendingChunk_ok. cbn [Z.ltb Z.eqb Z.compare]. case_match; nia. }
  assert (Hroom' : make_room (S (size (parts r0))) (new_estimate x.1.2) r0 = (true, r0)).
  { cbn [make_room]. unfold held_bytes, saturating_add, FRAG_MAX_HELD_BYTES, ROOM, usize_max in *.
    destruct (_ || _) eqn:E; [|done]. apply orb_true_iff in E. zbool. lia. }
  rewrite Hroom'.
  destruct (land_new key x.1.2 inc x.2 r0 t0) as (out & r & Heq & Hset); try done; try lia; try apply H0.
  assert (Hsf : slot_for t0 key x.1.2 inc = fresh_slot inc).
  { unfold slot_for, fresh_slot. rewrite Hk, Htot. unfold len. by rewrite Nat2Z.id. }
  rewrite Hsf in Hset. destruct Hset as [Hcase [Hparts Hord]].
  assert (Hpo : part_of (s_slots (land_slot (fresh_slot inc) x.1.2 inc)) cs).
  { apply land_slot_part_of; [apply fresh_part_of | done|]. cbn. apply repeat_lookup.
    by apply lookup_lt_Some in Hc. }
  exists r, inc. rewrite Heq. destruct Hcase as [(Hall & _)|(_ & -> & Hinv)].
  - exfalso. pose proof (so_total _ _ Hcs) as Hl2. pose proof (lookup_lt_Some _ _ _ Hc) as Hlt.
    (* two slots at least, one chunk landed *)
    set (j := if decide (arrival_idx x = 0%nat) then 1%nat else 0%nat).
    assert (Hj : j <> arrival_idx x /\ (j < length cs)%nat) by (unfold j; case_decide; lia).
    destruct (Hall j) as [d Hd]; [cbn; rewrite length_insert, repeat_length; lia|].
    apply landed_insert in Hd as [[? _]|[_ Hd]]; [by destruct Hj | |].
    + apply (proj2 (fresh_part_of inc)) in Hd as Hd'. unfold landed in Hd. cbn in Hd.
      apply list_elem_of_lookup_2, list_elem_of_In, repeat_spec in Hd. done.
    + cbn. by apply repeat_lookup.
  - split_and!; try done. unfold receiving. split_and!; try done.
    + rewrite Hparts. by rewrite delete_id.
    + cbn. destruct inc; naive_solver.
Qed.

(** What the reassembler holds while it receives one payload more. *)
Lemma receiving_budget r0 r t0 p : parts r !! key = Some p -> pt_retained p = footprint_of p ->
  (exists sl, partial_inv p sl) -> reasm_inv r0 t0 -> (exists t, reasm_core r t) ->
  delete key (parts r) = parts r0 -> len (order r) <= len (order r0) + 1 ->
  held_bytes r <= held_bytes r0 + PARTIAL_MAX + 64.
Proof.
  intros Hp Hret [sl Hpi] H0 [t Hc] Hparts Hord. pose proof (ri_core _ _ H0) as Hc0.
  unfold held_bytes. rewrite (rc_held _ _ Hc), (rc_held _ _ Hc0), (rc_bytes _ _ Hc), (rc_bytes _ _ Hc0).
  rewrite (held_sum_delete _ _ _ Hp), Hparts, Hret. pose proof (footprint_bound _ _ Hpi).
  pose proof order_slot_ok. nia.
Qed.

Lemma pending_charge_bound l cap n : 0 <= cap <= 128 -> 0 <= n <= MQP_FRAG_MAX_PAYLOAD ->
  pending_charge l cap n <= 2 ^ 15 - 2 ^ 12.
Proof.
  intros Hc Hn. pose proof size_of_PendingChunk_ok.
  unfold pending_charge, saturating_add, saturating_mul, PENDING_CHUNK_COST, MQP_FRAG_MAX_PAYLOAD in *.
  set (sz := size_of_PendingChunk) in *.
  assert (Hs : Z.min ((if cap =? 0 then 4 else Z.min (cap * 2) usize_max) * sz) usize_max <= 2 ^ 14).
  { etransitivity; [apply Z.le_min_l|]. destruct (cap =? 0); [lia|].
    assert (Z.min (cap * 2) usize_max <= 256) by lia. nia. }
  destruct (l <? cap); lia.
Qed.

(** A fragment of the split passes the checks of its live partial. *)
Lemma check_live_passes r0 r t0 s x inc p : roomy r0 t0 -> receiving r0 r t0 s -> arrives x ->
  frag_incoming x.1.2 = Some inc -> (inc = None \/ inc = ctx) ->
  s_slots s !! arrival_idx x = Some None -> parts r !! key = Some p -> part_ok p s ->
  check_live x.1.2 inc p r = None.
Proof.
  intros (H0 & Hk & Hroom & Hsz) (Hinv & Hpo & Hparts & Hord & Hsc) Hx Hinc Hic Hslot Hp Hok.
  destruct (arrives_shape x Hx) as (Hidx & Hi & Hn & Hm & Ht).
  pose proof Hx as (_ & Htot & Hc & _). pose proof Hok as (Hpi & Hctx & Hret & _).
  unfold check_live. rewrite (pi_total _ _ Hpi), Htot. destruct Hpo as [Hl Hld].
  replace (len (s_slots s) =? len cs) with true by (symmetry; apply Z.eqb_eq; unfold len; lia). cbn [negb].
  destruct (merge_ctx_known _ _ Hsc Hic) as [Hag _].
  replace (match pt_ctx p with Some _ => _ | None => _ end) with false.
  2: { symmetry. rewrite Hctx. destruct (s_ctx s) as [a|], inc as [b|]; try done. cbn in Hag. subst.
       by rewrite bool_decide_eq_true_2. }
  replace (Z.land (pt_got p) (Z.shiftl 1 (fi_idx x.1.2)) =? 0) with true.
  2: { symmetry. apply Z.eqb_eq. rewrite Hidx. apply Z.bits_inj'. intros n Hn0.
       rewrite Z.land_spec, Z.bits_0, Z.shiftl_1_l, Z.pow2_bits_eqb by lia.
       destruct (Z.eqb_spec (Z.of_nat (arrival_idx x)) n) as [<-|]; [|by rewrite andb_false_r].
       rewrite andb_true_r. apply not_true_iff_false. rewrite (pi_bits _ _ Hpi).
       intros [c' Hc']. unfold landed in Hc'. congruence. }
  cbn [negb]. replace (is_middle _ _ && _) with false.
  2: { symmetry. apply andb_false_iff. destruct (is_middle _ _) eqn:Em; [right | by left].
       destruct (pt_unit p) as [w'|] eqn:Eu; [|done]. apply negb_false_iff, Z.eqb_eq.
       destruct (sh_width_ex _ _ _ (pi_shape _ _ Hpi) w' Eu) as (j & d & Hd & ? & ? & <-).
       rewrite (so_width _ _ Hcs j d (Hld _ _ Hd)) by lia.
       unfold is_middle in Em. apply andb_true_iff in Em as [Em1 Em2].
       apply negb_true_iff in Em2. zbool. symmetry. eapply (so_width _ _ Hcs); [exact Hc | |]; unfold len in *; lia. }
  pose proof (part_of_len _ _ (part_of_insert _ _ _ _ (conj Hl Hld) Hslot Hc)) as Hby.
  rewrite chunks_insert_len, <- (pi_bytes _ _ Hpi) in Hby by done. pose proof (so_bytes _ _ Hcs) as Hmax.
  pose proof (len_nonneg (concat (chunks (s_slots s)))) as Hb0. rewrite <- (pi_bytes _ _ Hpi) in Hb0.
  replace (saturating_add (pt_bytes p) _ >? _) with false
    by (symmetry; zbool; unfold saturating_add, usize_max, MQP_FRAG_MAX_PAYLOAD in *; lia).
  pose proof (receiving_budget r0 r t0 p Hp Hret (ex_intro _ _ Hpi) H0
    (ex_intro _ _ (ri_core _ _ Hinv)) Hparts Hord) as Hbud.
  destruct (_ >? FRAG_MAX_HELD_BYTES) eqn:E; [|done]. exfalso. zbool.
  match type of E with _ < saturating_add _ ?ch => assert (Hch : ch <= 2 ^ 15 - 2 ^ 12) end.
  { pose proof (pi_pcap _ _ Hpi) as [[? ?] _]. pose proof (len_nonneg (v_data (pt_pending p))).
    pose proof (pending_charge_bound (len (v_data (pt_pending p))) (v_cap (pt_pending p))
      (len (fi_chunk x.1.2)) ltac:(lia) ltac:(lia)).
    unfold MQP_FRAG_MAX_PAYLOAD in *. repeat case_match; lia. }
  unfold saturating_add, ROOM, PARTIAL_MAX in *. lia.
Qed.
Lemma next_push r0 r t0 s x : roomy r0 t0 -> receiving r0 r t0 s -> arrives x ->
  s_slots s !! arrival_idx x = Some None -> exists out r' inc,
  do_op (arrival_op x) r = Ok (out, r') /\ frag_incoming x.1.2 = Some inc /\
  let s' := land_slot s x.1.2 inc in
  (all_landed (s_slots s') /\ out = Some (assembled key x.1.2 s') /\ reasm_inv r' t0 /\
   delete key (parts r') = parts r0) \/
  (~ all_landed (s_slots s') /\ out = None /\ receiving r0 r' t0 s').
Proof.
  intros Hr0 Hrec Hx Hslot. destruct (arrives_shape x Hx) as (Hidx & Hi & Hn & Hm & Ht).
  pose proof Hx as (_ & Htot & Hc & _ & _ & inc & Hinc & Hctx & _).
  pose proof Hrec as (Hinv & Hpo & Hparts & Hord & Hsc). pose proof (ri_core _ _ Hinv) as Hcore.
  destruct (core_slot r _ key s Hcore (lookup_insert_eq _ _ _)) as (p & Hp & Hok).
  pose proof (check_live_passes r0 r t0 s x inc p Hr0 Hrec Hx Hinc Hctx Hslot Hp Hok) as Hcl.
  cbn [do_op arrival_op]. rewrite (push_frame_arrives x r inc Hx Hinc). unfold make_entry. rewrite Hp, Hcl.
  destruct (core_held_nonneg _ _ Hcore) as [Hn1 Hn2]. pose proof (rc_held _ _ Hcore) as Hheld.
  pose proof (ri_held _ _ Hinv) as Hhb.
  assert (Hlive : live_ok x.1.2 inc p s r).
  { eapply check_live_ok; try done; [rewrite Htot; lia|].
    unfold held_bytes, FRAG_MAX_HELD_BYTES, HELD_SLACK, MQP_FRAG_MAX_PAYLOAD in *. lia. }
  pose proof Hlive as (_ & Hmid & Hby & _). pose proof Hok as (Hpi & _).
  destruct (land_live key x.1.2 inc x.2 r _ p s Hinv Hp (lookup_insert_eq _ _ _)) as
    [(r' & pos & _ & Hpos & Hbig & _)|(out & r' & -> & Hcase & Hdel & Hord')];
    [rewrite Htot; lia | done | done | |].
  - (* never past the payload bound *)
    exfalso. rewrite Hidx in Hpos.
    assert (Hsh : shape (first_after p (Z.of_nat (arrival_idx x)) (len (fi_chunk x.1.2)))
      (unit_after p (Z.of_nat (arrival_idx x)) (len (fi_chunk x.1.2)))
      (<[arrival_idx x := Some (fi_chunk x.1.2)]> (s_slots s))).
    { unfold first_after, unit_after. rewrite (pi_total _ _ Hpi). apply shape_insert; try done; [apply Hpi|].
      by rewrite <- (pi_bytes _ _ Hpi). }
    assert (Hpo' : part_of (<[arrival_idx x := Some (fi_chunk x.1.2)]> (s_slots s)) cs)
      by (by apply part_of_insert).
    rewrite (part_of_pos _ _ Hcs _ _ _ _ _ _ Hsh Hpo' Hc Hpos) in Hbig.
    pose proof (split_end _ _ Hcs _ _ Hc). lia.
  - exists out, r', inc. split_and!; try done. cbv zeta.
    pose proof Hr0 as (_ & Hk0 & _).
    assert (Hd : delete key (parts r') = parts r0) by (by rewrite Hdel).
    destruct Hcase as [(Hall & -> & Hi')|(Hno & -> & Hi')]; [left | right].
    + split_and!; try done. by rewrite delete_insert_id in Hi'.
    + split_and!; try done. rewrite insert_insert_eq in Hi'.
      split_and!; try done.
      * by apply land_slot_part_of.
      * lia.
      * cbn. by destruct (merge_ctx_known _ _ Hsc Hctx).
Qed.

Definition ctx_known (s : Slot) (arr : list Arrival) : Prop :=
  s_ctx s = ctx \/ exists x, x ∈ arr /\ carries x.

Lemma ctx_known_land s x arr inc : ctx_known s (x :: arr) -> (s_ctx s = None \/ s_ctx s = ctx) ->
  frag_incoming x.1.2 = Some inc -> (inc = None \/ inc = ctx) -> ctx_known (land_slot s x.1.2 inc) arr.
Proof.
  intros Hk Hs Hinc Hic. unfold ctx_known in *. cbn. destruct Hk as [Hc|(y & Hy & Hcy)].
  - left. rewrite Hc. destruct ctx; [done|]. by destruct Hic as [-> | ->].
  - apply elem_of_cons in Hy as [->|Hy]; [|right; eauto]. left.
    unfold carries in Hcy. assert (inc = ctx) as -> by congruence. by destruct Hs as [-> | ->]; destruct ctx.
Qed.

Lemma all_landed_rest s x arr inc : part_of (s_slots s) cs ->
  (forall i, (i < length cs)%nat -> s_slots s !! i = Some None <-> i ∈ arrival_idx <$> x :: arr) ->
  s_slots s !! arrival_idx x = Some None -> NoDup (arrival_idx <$> x :: arr) ->
  forall i, (i < length cs)%nat ->
    s_slots (land_slot s x.1.2 inc) !! i = Some None <-> i ∈ arrival_idx <$> arr.
Proof.
  intros [Hl _] Hiff Hslot [Hnin _]%list.NoDup_cons i Hi. cbn [land_slot s_slots].
  change (Z.to_nat (fi_idx x.1.2)) with (arrival_idx x). specialize (Hiff i Hi).
  rewrite fmap_cons, elem_of_cons in Hiff. destruct (decide (i = arrival_idx x)) as [->|Hne].
  - rewrite list_lookup_insert_eq by lia. naive_solver.
  - rewrite list_lookup_insert_ne by done. naive_solver.
Qed.

Lemma slots_full (sl : slots) : (forall i, (i < length sl)%nat -> sl !! i <> Some None) -> all_landed sl.
Proof.
  intros H i Hi. destruct (lookup_lt_is_Some_2 sl i Hi) as [[c|] Hc]; [by exists c | by destruct (H i Hi)].
Qed.

Lemma receive_rest r0 t0 arr r s : roomy r0 t0 -> receiving r0 r t0 s -> Forall arrives arr -> arr <> [] ->
  NoDup (arrival_idx <$> arr) -> ctx_known s arr ->
  (forall i, (i < length cs)%nat -> s_slots s !! i = Some None <-> i ∈ arrival_idx <$> arr) ->
  exists a r', run (arrival_op <$> arr) r = Ok ([a], r') /\ reasm_inv r' t0 /\ parts r' = parts r0 /\
    a_payload a = concat cs /\ a_wire_id a = (if k_inline key then None else Some (k_id key)) /\
    a_sess a = c_sess <$> ctx /\ a_addr a = c_addr <$> ctx.
Proof.
  intros Hr0. revert r s. induction arr as [|x arr IH]; intros r s Hrec Harr Hne Hnd Hck Hiff; [done|].
  apply Forall_cons_iff in Harr as [Hx Harr]. pose proof Hx as (_ & _ & Hc & _).
  pose proof Hrec as (_ & Hpo & _ & _ & Hsc). pose proof (lookup_lt_Some _ _ _ Hc) as Hlt.
  assert (Hslot : s_slots s !! arrival_idx x = Some None) by (apply Hiff; [done | by left]).
  destruct (next_push r0 r t0 s x Hr0 Hrec Hx Hslot) as (out & r1 & inc & Hop & Hinc & Hcase).
  cbv zeta in Hcase. pose proof Hx as (_ & _ & _ & _ & _ & inc' & Hinc' & Hic & _).
  assert (inc' = inc) as -> by congruence.
  pose proof (ctx_known_land s x arr inc Hck Hsc Hinc Hic) as Hck'.
  pose proof (all_landed_rest s x arr inc Hpo Hiff Hslot Hnd) as Hiff'.
  pose proof (land_slot_part_of s x inc Hpo Hx Hslot) as Hpo'.
  cbn [fmap list_fmap run]. rewrite Hop. cbn [res_bind].
  destruct Hcase as [(Hall & -> & Hi1 & Hd)|(Hno & -> & Hrec')].
  - destruct arr as [|y arr].
    2: { exfalso. apply Forall_cons_iff in Harr as [Hy _]. pose proof Hy as (_ & _ & Hcy%lookup_lt_Some & _).
         destruct (Hall (arrival_idx y)) as [c' Hc']; [destruct Hpo'; lia|].
         unfold landed in Hc'. rewrite (proj2 (Hiff' _ Hcy)) in Hc' by by left. done. }
    cbn. eexists _, r1. split; [done|]. destruct Hck' as [Hck'|(? & Hin & _)]; [|by apply not_elem_of_nil in Hin].
    unfold assembled. cbn [a_payload a_wire_id a_sess a_addr]. rewrite Hck', (part_of_full _ _ Hpo' Hall).
    split_and!; try done. destruct Hr0 as (_ & Hk0 & _).
    rewrite <- Hd. symmetry. apply delete_id. by apply (core_none _ _ _ (ri_core _ _ Hi1)).
  - destruct arr as [|y arr].
    { exfalso. apply Hno, slots_full. intros i Hi Hn. destruct Hpo' as [Hl' _].
      apply Hiff' in Hn; [by apply not_elem_of_nil in Hn | lia]. }
    apply list.NoDup_cons in Hnd as [_ Hnd].
    destruct (IH r1 _ Hrec' Harr ltac:(done) Hnd Hck' Hiff') as (a & r' & -> & ?). cbn. by exists a, r'.
Qed.

(** The fragments of a payload in any order. *)
Lemma receive_all r0 t0 arr : roomy r0 t0 -> Forall arrives arr ->
  arrival_idx <$> arr ≡ₚ seq 0 (length cs) -> (ctx = None \/ exists x, x ∈ arr /\ carries x) ->
  exists a r', run (arrival_op <$> arr) r0 = Ok ([a], r') /\ reasm_inv r' t0 /\ parts r' = parts r0 /\
    a_payload a = concat cs /\ a_wire_id a = (if k_inline key then None else Some (k_id key)) /\
    a_sess a = c_sess <$> ctx /\ a_addr a = c_addr <$> ctx.
Proof.
  intros Hr0 Harr Hperm Hctx. pose proof (so_total _ _ Hcs) as Htot.
  assert (Hlen : length arr = length cs) by (rewrite <- (length_fmap arrival_idx), Hperm, length_seq; done).
  assert (Hnd : NoDup (arrival_idx <$> arr)) by (rewrite Hperm; apply NoDup_seq).
  destruct arr as [|x arr]; [cbn in Hlen; lia|]. apply Forall_cons_iff in Harr as [Hx Harr].
  destruct (first_push r0 t0 x Hr0 Hx) as (r & inc & Hop & Hinc & Hrec).
  pose proof Hx as (_ & _ & Hc & _ & _ & inc' & Hinc' & Hic & _). assert (inc' = inc) as -> by congruence.
  assert (Hiff : forall i, (i < length cs)%nat ->
    s_slots (fresh_slot inc) !! i = Some None <-> i ∈ arrival_idx <$> x :: arr).
  { intros i Hi. rewrite Hperm, elem_of_seq. cbn. rewrite repeat_lookup by done. split; [lia | done]. }
  assert (Hslot : s_slots (fresh_slot inc) !! arrival_idx x = Some None)
    by (apply Hiff; [by apply lookup_lt_Some in Hc | by left]).
  cbn [fmap list_fmap run]. rewrite Hop. cbn [res_bind].
  destruct (receive_rest r0 t0 arr r _ Hr0 Hrec Harr) as (a & r' & -> & ?).
  - destruct arr; [cbn in Hlen; lia | done].
  - by apply list.NoDup_cons in Hnd as [_ ?].
  - assert (Hk : ctx_known (land_slot (fresh_slot inc) x.1.2 inc) arr).
    { apply ctx_known_land; try done. destruct Hctx as [Hcn|Hex]; [|by right]. left. cbn. destruct Hic; congruence. }
    exact Hk.
  - apply all_landed_rest; try done. apply fresh_part_of.
  - cbn. by exists a, r'.
Qed.
End Receive.

(* ------------------------------------------------------------------ *)
(** ** The fragments of a send *)

(** A chunk with another one behind it is full. *)
Lemma split_full n idx p b k c c' : plan_ok p -> split_from n idx p b !! k = Some c ->
  split_from n idx p b !! S k = Some c' -> 1 <= len c' -> len c = chunk_size p (idx + Z.of_nat k).
Proof.
  intros Hp. revert n idx b. induction k as [|k IH]; intros [|n] idx b Hc Hc' Hl; try done.
  - destruct n as [|n]; [done|]. cbn in Hc, Hc'. injection Hc as <-. injection Hc' as <-.
    pose proof (chunk_size_pos p idx Hp). pose proof (chunk_size_pos p (idx + 1) Hp).
    rewrite len_take, len_drop in Hl by lia. rewrite len_take, Z.add_0_r by lia. lia.
  - cbn [split_from] in Hc, Hc'. rewrite (IH n (idx + 1) (drop (Z.to_nat (chunk_size p idx)) b) Hc Hc' Hl).
    f_equal. lia.
Qed.

Lemma frag_chunks_split limit fh rh payload p : FragPlan_new limit fh rh (len payload) = Some p ->
  2 <= p_total p -> split_ok (frag_chunks p payload) (p_rest_chunk p).
Proof.
  intros Hp H2. pose proof (plan_chunks _ _ _ _ _ Hp) as (Hcat & Hlen & Hsz).
  apply plan_spec in Hp as (Hok & Ht & Hn & _); [|lens].
  unfold MQP_FRAG_MAX_TOTAL, R2_FRAG_MAX_PAYLOAD in *. split.
  - unfold len in Hlen. lia.
  - intros i c Hc. by apply (Hsz i).
  - intros i c Hc Hi1 Hi2. destruct (lookup_lt_is_Some_2 (frag_chunks p payload) (S i) Hi2) as [c' Hc'].
    unfold frag_chunks in *. rewrite (split_full _ _ _ _ _ _ _ Hok Hc Hc') by (by apply (Hsz (S i))).
    unfold chunk_size. rewrite (proj2 (Z.eqb_neq _ 0)) by lia. done.
  - rewrite Hcat. lia.
Qed.

Definition flow_key (flow : R2FragFlow) (frag_id : Z) : FragKey :=
  match flow with
  | Steady id | Opening id _ _ _ => mkFragKey false id frag_id
  | Inline sess _ _ => mkFragKey true sess frag_id
  end.

(** The context a payload is delivered with. *)
Definition flow_ctx (w : Wire) (flow : R2FragFlow) : option FragCtx :=
  match flow with
  | Steady _ => None
  | Opening _ sess addr src => Some (mkFragCtx sess (wire_addr addr) src)
  | Inline sess addr src =>
      Some (mkFragCtx sess (wire_addr addr) (match w with Rev2 => src | Rev3 => false end))
  end.

(** A rev3 rebind of a client-owned flow names no session. *)
Definition names_session (w : Wire) (flow : R2FragFlow) : Prop :=
  match w, flow with
  | Rev3, Opening id _ _ src => src = true -> wire_id_server_owned id = true
  | _, _ => True
  end.

(** The frame [x] received is frame [i] of the sent ones. *)
Definition received (w : Wire) (fs : list bytes) (x : Arrival) : Prop :=
  exists i v, fs !! i = Some x.1.1 /\ decode_frag w x.1.1 = Ok v /\ x.1.2 = FragIn_from_view v.

Section Sent.
Context {LO : Layout}.
Variables (w : Wire) (flow : R2FragFlow) (h : FragHeaders) (limit frag_id : Z) (payload : bytes)
  (p : FragPlan) (fs : list bytes).
Hypothesis Hwf : flow_wf flow.
Hypothesis Hns : names_session w flow.
Hypothesis Hlim : limit <= isize_max.
Hypothesis Hid : is_u32 frag_id.
Hypothesis Hh : headers w flow = Ok h.
Hypothesis Hp : FragPlan_new limit (h_first_hdr h) (h_rest_hdr h) (len payload) = Some p.
Hypothesis Hfs : frames_ok w h (p_total p) frag_id limit 0 (frag_chunks p payload) fs.

Lemma received_frame x : received w fs x -> exists i c off,
  frag_chunks p payload !! i = Some c /\ slice_from x.1.1 off = Some c /\ len x.1.1 <= limit /\
  (0 <= off)%Z /\ Z.of_nat i < p_total p /\
  x.1.2 = mkFragIn (seen_id (frag_ctx flow (Z.of_nat i))) (seen_sess w (frag_ctx flow (Z.of_nat i)))
            (seen_addr (frag_ctx flow (Z.of_nat i))) (seen_src w (frag_ctx flow (Z.of_nat i)))
            frag_id (Z.of_nat i) (p_total p) off c.
Proof.
  intros (i & v & Hi & Hv & Hx). pose proof (frames_ok_length _ _ _ _ _ _ _ _ Hfs) as Hl.
  pose proof (plan_chunks _ _ _ _ _ Hp) as (_ & Hlen & Hsz).
  destruct (plan_spec _ _ _ _ _ (len_nonneg _) Hp) as (_ & Ht & _). unfold MQP_FRAG_MAX_TOTAL in Ht.
  destruct (lookup_lt_is_Some_2 (frag_chunks p payload) i) as [c Hc].
  { apply lookup_lt_Some in Hi. lia. }
  assert (Hit : Z.of_nat i < p_total p) by (rewrite <- Hlen; apply lookup_lt_Some in Hc; unfold len; lia).
  destruct (frames_ok_lookup _ _ _ _ _ _ _ _ _ _ Hfs Hc) as (f & Hf & He). rewrite Z.add_0_l in He.
  assert (f = x.1.1) as -> by congruence. rewrite (encode_fragment_ctx _ flow) in He by (done || lia).
  pose proof (wire_codec w) as Hw.
  apply frag_codec in He as (Hll & _ & off & Hoff & Hd & Hs); [|auto using frag_ctx_wf..].
  assert (Hv' : v = mkFragView (seen_id (frag_ctx flow (Z.of_nat i))) (seen_sess w (frag_ctx flow (Z.of_nat i)))
    (seen_addr (frag_ctx flow (Z.of_nat i))) (seen_src w (frag_ctx flow (Z.of_nat i)))
    frag_id (Z.of_nat i) (p_total p) off c) by congruence.
  exists i, c, off. split_and!; try done. by rewrite Hx, Hv'.
Qed.

Lemma flow_key_of idx : frag_key (mkFragIn (seen_id (frag_ctx flow idx)) (seen_sess w (frag_ctx flow idx))
  (seen_addr (frag_ctx flow idx)) (seen_src w (frag_ctx flow idx)) frag_id idx (p_total p) 0 []) =
  Some (flow_key flow frag_id).
Proof.
  unfold frag_key. cbn [fi_wire_id fi_sess fi_frag_id].
  destruct flow as [id|id sess addr src|sess addr src]; cbn [frag_ctx flow_wf flow_key] in *; destruct_and?.
  - cbn [seen_id]. by rewrite (proj2 (Z.eqb_neq id 0)).
  - destruct (idx =? 0); cbn [seen_id]; by rewrite (proj2 (Z.eqb_neq id 0)).
  - done.
Qed.

Lemma flow_incoming idx : exists inc,
  frag_incoming (mkFragIn (seen_id (frag_ctx flow idx)) (seen_sess w (frag_ctx flow idx))
    (seen_addr (frag_ctx flow idx)) (seen_src w (frag_ctx flow idx)) frag_id idx (p_total p) 0 []) =
  Some inc /\ (inc = None \/ inc = flow_ctx w flow) /\
  (k_inline (flow_key flow frag_id) = true -> inc <> None) /\ (idx = 0 -> inc = flow_ctx w flow).
Proof.
  unfold frag_incoming. destruct flow as [id|id sess addr src|sess addr src]; cbn in *.
  - exists None. naive_solver.
  - destruct (Z.eqb_spec idx 0) as [->|Hne]; cbn; [|exists None; naive_solver].
    exists (flow_ctx w (Opening id sess addr src)). destruct w; [naive_solver|].
    destruct src; cbn; [|naive_solver]. rewrite Hns by done. naive_solver.
  - eexists. split; [done|]. destruct w; naive_solver.
Qed.

Lemma received_arrives x : received w fs x ->
  arrives (frag_chunks p payload) (flow_key flow frag_id) (flow_ctx w flow) x.
Proof.
  intros (i & c & off & Hc & Hs & Hll & Hoff & Hi & Hx)%received_frame.
  pose proof (plan_chunks _ _ _ _ _ Hp) as (_ & Hlen & _).
  destruct (flow_incoming (Z.of_nat i)) as (inc & Hinc & Hic & Hinl & _).
  unfold arrives, frag_of, arrival_idx. rewrite Hx. cbn [fi_idx fi_chunk_off fi_chunk fi_total].
  rewrite Nat2Z.id.
  split_and!; [lia | done | done | done | done | exact (flow_key_of (Z.of_nat i)) | unfold isize_max, usize_max in *; lia|].
  by exists inc.
Qed.

Lemma received_carries arr : Forall (received w fs) arr -> 2 <= p_total p ->
  arrival_idx <$> arr ≡ₚ seq 0 (length (frag_chunks p payload)) ->
  flow_ctx w flow = None \/ exists x, x ∈ arr /\ carries (flow_ctx w flow) x.
Proof.
  intros Harr H2 Hperm. right. pose proof (plan_chunks _ _ _ _ _ Hp) as (_ & Hlen & _).
  assert (H0 : 0%nat ∈ arrival_idx <$> arr) by (rewrite Hperm, elem_of_seq; unfold len in Hlen; lia).
  apply list_elem_of_fmap in H0 as (x & Hx0 & Hin). exists x. split; [done|].
  rewrite list.Forall_forall in Harr. destruct (received_frame x (Harr x Hin)) as (i & c & off & _ & _ & _ & _ & _ & Hx).
  destruct (flow_incoming (Z.of_nat i)) as (inc & Hinc & _ & _ & Hz).
  unfold carries. unfold arrival_idx in Hx0. rewrite Hx in Hx0 |- *. cbn in Hx0. rewrite <- Hz; [exact Hinc | lia].
Qed.
End Sent.

(* ------------------------------------------------------------------ *)
(** ** Claims *)

(** C1: fragmentation followed by reassembly is the identity, for every flow but
    two kinds.  When a payload that needs several fragments is sent and every
    frame is queued, the queue has grown by the frames of the payload; and
    whatever reassembler receives those frames, in any order and with other
    payloads under reassembly beside them, hands out exactly one payload, at the
    last of them: the one that was sent, under the flow's id and with the
    session and the address the flow was opened with (the address as the wire
    carries it, without an IPv6 flow label).  The other partials are left as they
    were.  The reassembler needs 72 KiB of its budget and one entry free.  The
    flows left out: a rev3 rebind of a client-owned flow, whose opening fragment
    names no session ([names_session]; its payload is always lost, which
    [rebind_frag_refused] shows), and an open of a server-owned id without its
    source flag, which no caller makes ([flow_owner_ok]). *)
Theorem frag_reasm_roundtrip {LO : Layout} {Conn} `{DatagramConn Conn} limit flow payload (s : World Conn) h p
    r s' r0 t0 :
  flow_wf flow -> flow_owner_ok flow -> limit <= isize_max -> is_u32 (next_id (w_frag s)) ->
  let w := fr_wire (w_frag s) in
  let key := flow_key flow (next_id (w_frag s)) in
  names_session w flow -> headers w flow = Ok h ->
  FragPlan_new limit (h_first_hdr h) (h_rest_hdr h) (len payload) = Some p -> 2 <= p_total p ->
  send limit flow payload s = Ok (r, s') -> ps_failed r = None ->
  roomy key r0 t0 ->
  exists fs, queued (w_conn s') = queued (w_conn s) ++ fs /\ len fs = p_total p /\
    forall arr, Forall (received w fs) arr -> arrival_idx <$> arr ≡ₚ seq 0 (length fs) ->
      exists a r', run (arrival_op <$> arr) r0 = Ok ([a], r') /\ parts r' = parts r0 /\
        a_payload a = payload /\ a_wire_id a = (if k_inline key then None else Some (k_id key)) /\
        a_sess a = c_sess <$> flow_ctx w flow /\ a_addr a = c_addr <$> flow_ctx w flow.
Proof.
  intros Hwf Ho Hlim Hid w key Hns Hh Hp H2 Hsend Hok Hroomy.
  destruct (gate_shut s p (len payload)) eqn:Hg.
  { exfalso. unfold send in Hsend. fold w in Hsend. rewrite Hh, Hp in Hsend. unfold gate_shut in Hg.
    rewrite Hg in Hsend. injection Hsend as <- <-. done. }
  destruct (send_open _ _ _ _ _ _ Hwf Ho Hh Hp Hg) as (fs & Hfs & Heq).
  rewrite Heq in Hsend. injection Hsend as Hall.
  apply send_all_prefix in Hall as (k & Hk & Hq & _ & Hn & _).
  apply Hn in Hok. subst k. rewrite firstn_all in Hq.
  pose proof (frames_ok_length _ _ _ _ _ _ _ _ Hfs) as Hl.
  pose proof (plan_chunks _ _ _ _ _ Hp) as (Hcat & Hlen & _).
  exists fs. split_and!; [exact Hq | unfold len in *; lia|]. intros arr Harr Hperm. rewrite Hl in Hperm.
  destruct (receive_all (frag_chunks p payload) (p_rest_chunk p) key (flow_ctx w flow)
    (frag_chunks_split _ _ _ _ _ Hp H2) r0 t0 arr Hroomy) as (a & r' & ? & _ & ? & Hpay & ? & ? & ?).
  - eapply list.Forall_impl; [exact Harr|]. intros x Hx. eapply received_arrives; eauto.
  - done.
  - eapply received_carries; eauto.
  - exists a, r'. rewrite Hcat in Hpay. by split_and!.
Qed.

(** Three frames of an opening flow, sent over an idle connection. *)
Definition example_sent : PayloadSend * World BufConn :=
  Eval vm_compute in
  match send 30 (Opening 4 9 example_v4 false) (repeat 1 50) example_world with
  | Ok x => x
  | _ => (mkPayloadSend 0 None, example_world)
  end.

Lemma frag_reasm_roundtrip_witness :
  let flow := Opening 4 9 example_v4 false in
  exists fs, queued (w_conn example_sent.2) = queued (w_conn example_world) ++ fs /\ len fs = 3 /\
    forall arr, Forall (received Rev2 fs) arr -> arrival_idx <$> arr ≡ₚ seq 0 (length fs) ->
      exists a r', run (arrival_op <$> arr) (R2Reassembler_new (mkDrops 0 0 0)) = Ok ([a], r') /\
        parts r' = ∅ /\ a_payload a = repeat 1 50 /\ a_wire_id a = Some 4 /\
        a_sess a = Some 9 /\ a_addr a = c_addr <$> flow_ctx Rev2 flow.
Proof.
  apply (frag_reasm_roundtrip 30 (Opening 4 9 example_v4 false) (repeat 1 50) example_world
           (mkFragHeaders (Some 4) 20 8 (Some (9, example_v4, false))) (mkFragPlan 3 20 8 10 22)
           example_sent.1 example_sent.2 (R2Reassembler_new (mkDrops 0 0 0)) ∅);
    try reflexivity; try concrete.
  - cbn. split_and!; concrete.
  - split_and!; [apply new_inv | reflexivity | concrete | reflexivity].
Defined.

(** Half a context is refused. *)
Lemma push_frame_half_ctx {LO : Layout} d f now r : frag_incoming f = None ->
  exists r', push_frame d f now r = Ok (None, r') /\ parts r' = parts r.
Proof.
  intros Hin. unfold push_frame. rewrite Hin.
  repeat match goal with |- context [if ?c then _ else _] => destruct c; [by eexists|] end.
  by destruct (frag_key f); eexists.
Qed.

(** C38: a rev3 rebind never survives fragmentation.  A fragment that rebinds a
    client-owned flow is written in the form without a session; it decodes to
    an address without a session, which every reassembler refuses, in every
    state: the payload it opens is lost. *)
Theorem rebind_frag_refused {LO : Layout} id sess addr frag_id i total chunk limit b now r :
  is_u32 id -> is_u32 sess -> addr_wf addr -> is_u32 frag_id -> limit <= isize_max ->
  wire_id_server_owned id = false ->
  encode_frag_open Rev3 id sess addr true frag_id i total chunk limit = Ok b ->
  exists v r', decode_frag Rev3 b = Ok v /\ fv_wire_id v = Some id /\ fv_sess v = None /\
    fv_addr v = Some (wire_addr addr) /\ fv_chunk v = chunk /\
    push_view b v now r = Ok (None, r') /\ parts r' = parts r.
Proof.
  intros Hid Hs Ha Hf Hl Hown He.
  apply (frag_codec (COpen id sess addr true)) in He as (_ & _ & off & _ & Hd & _); [|done..].
  cbn [seen_id seen_sess seen_addr seen_src] in Hd. rewrite Hown in Hd. cbn in Hd.
  exists (mkFragView (Some id) None (Some (wire_addr addr)) true frag_id i total off chunk).
  destruct (push_frame_half_ctx b (FragIn_from_view (mkFragView (Some id) None (Some (wire_addr addr)) true
    frag_id i total off chunk)) now r eq_refl) as (r' & Hp & Hparts).
  by exists r'.
Qed.

Lemma rebind_frag_refused_witness :
  exists v r', decode_frag Rev3 [0xC2; 0x01; 0x00; 8; 0; 0; 0; 0; 2; 1; 1; 2; 3; 4; 0; 53; 7] = Ok v /\
    fv_wire_id v = Some 4 /\ fv_sess v = None /\ fv_addr v = Some (wire_addr example_v4) /\ fv_chunk v = [7] /\
    push_view [0xC2; 0x01; 0x00; 8; 0; 0; 0; 0; 2; 1; 1; 2; 3; 4; 0; 53; 7] v 0
      (R2Reassembler_new (mkDrops 0 0 0)) = Ok (None, r') /\ parts r' = ∅.
Proof.
  apply (rebind_frag_refused 4 9 example_v4 8 0 2 [7] 1200); first [concrete | reflexivity | cbn; split_and!; concrete].
Defined.
