(* ===== verification/Binding.v ===== *)
(** One flow binding of [src/mqp/r2_flow.rs]: the record both endpoints share
    behind an [Arc], and its lock-free operations.

    The receive path, the sender and the control reader call these operations
    from different tasks, so each is a program over single atomic accesses
    ([prog]); running one alone gives its sequential meaning ([solo]), and
    [step] interleaves any number of calls one access at a time.  All accesses
    are [Relaxed]: the facts about interleavings are proved from the accesses
    to one location at a time, which coherence orders in any memory model. *)
From stdpp Require Import relations.
From S2P Require Import Prelude Addr.

Definition R3_CONTEXT_REPEATS : Z := 2.

Inductive FlowState : Type := Opening | Open | Closed.

#[export] Instance FlowState_eq_dec : EqDecision FlowState.
Proof. solve_decision. Defined.

(** [state as u8] and [FlowState::from_u8]. *)
Definition FlowState_as_u8 (s : FlowState) : Z :=
  match s with Opening => 0 | Open => 1 | Closed => 2 end.
Definition FlowState_from_u8 (v : Z) : FlowState :=
  if v =? 1 then Open else if v =? 2 then Closed else Opening.

Abbreviation OPENING := (FlowState_as_u8 Opening).
Abbreviation OPEN := (FlowState_as_u8 Open).
Abbreviation CLOSED := (FlowState_as_u8 Closed).

Record FlowBinding : Type := mkFlowBinding {
  fb_wire_id : Z;
  fb_session : Z;
  fb_target : TargetAddr;
  fb_state : Z;
  fb_context_left : Z;
  fb_reply_src : option SocketAddr;
  fb_reply_src_acked : bool;
  fb_resolved : list SocketAddr
}.

(** The binding inside the [Arc] of [new_shared]. *)
Definition FlowBinding_new (wire_id session : Z) (target : TargetAddr) : FlowBinding :=
  mkFlowBinding wire_id session target OPENING R3_CONTEXT_REPEATS None false [].

#[export] Instance FlowBinding_inhabited : Inhabited FlowBinding :=
  populate (FlowBinding_new 0 0 (AddrDomain [] 0)).

(* ------------------------------------------------------------------ *)
(** ** Atomic accesses *)

Inductive Cell : Type := Cstate | Ccontext_left.

#[export] Instance Cell_eq_dec : EqDecision Cell.
Proof. solve_decision. Defined.

Definition load (c : Cell) (b : FlowBinding) : Z :=
  match c with Cstate => fb_state b | Ccontext_left => fb_context_left b end.
Definition store (c : Cell) (v : Z) (b : FlowBinding) : FlowBinding :=
  match c with
  | Cstate => mkFlowBinding (fb_wire_id b) (fb_session b) (fb_target b) v (fb_context_left b)
                (fb_reply_src b) (fb_reply_src_acked b) (fb_resolved b)
  | Ccontext_left => mkFlowBinding (fb_wire_id b) (fb_session b) (fb_target b) (fb_state b) v
                (fb_reply_src b) (fb_reply_src_acked b) (fb_resolved b)
  end.

(** A call between two of its atomic accesses.  [Again] is the [continue] (or
    the end of the body) of a [loop]. *)
Inductive prog (A : Type) : Type :=
| Ret (a : A)
| Again
| Load (c : Cell) (k : Z -> prog A)
| Store (c : Cell) (v : Z) (k : prog A)
| Cas (c : Cell) (old new : Z) (k : bool -> prog A).
Arguments Ret {A} a.
Arguments Again {A}.
Arguments Load {A} c k.
Arguments Store {A} c v k.
Arguments Cas {A} c old new k.

(** [let x = cell.load(..)] *)
Notation "'let@' x ':=' c 'in' k" := (Load c (fun x => k))
  (at level 10, x binder, c at level 200, k at level 200) : mq_scope.

(** [FlowBinding::mark_open]. *)
Definition mark_open : prog unit :=
  let@ s := Cstate in
  if s =? OPENING then Cas Cstate OPENING OPEN (fun _ => Ret tt) else Ret tt.

(** [FlowBinding::mark_closed]. *)
Definition mark_closed : prog unit := Store Cstate CLOSED (Ret tt).

(** The body of the [loop] of [FlowBinding::take_context_slot]. *)
Definition take_context_slot : prog bool :=
  let@ s := Cstate in
  if negb (s =? OPENING) then Ret false else
  let@ left0 := Ccontext_left in
  if left0 <=? 1 then
    Cas Cstate OPENING OPEN (fun ok : bool =>
      if ok then Store Ccontext_left 0 (Ret true) else Again)
  else
    Cas Ccontext_left left0 (left0 - 1) (fun ok : bool => if ok then Ret true else Again).

(** [FlowBinding::rearm_context]. *)
Definition rearm_context : prog unit :=
  let@ s := Cstate in
  if s =? CLOSED then Ret tt else
  Store Ccontext_left R3_CONTEXT_REPEATS
    (Cas Cstate OPEN OPENING (fun _ => Ret tt)).

(** What a call does when no other call interferes: its value, or none when it
    reaches the end of its loop body. *)
Fixpoint solo {A} (p : prog A) (b : FlowBinding) : option A * FlowBinding :=
  match p with
  | Ret a => (Some a, b)
  | Again => (None, b)
  | Load c k => solo (k (load c b)) b
  | Store c v k => solo k (store c v b)
  | Cas c old new k => if load c b =? old then solo (k true) (store c new b) else solo (k false) b
  end.

(* ------------------------------------------------------------------ *)
(** ** The other operations

    Each is one access to its own location, or one snapshot swap. *)

Definition binding_state (b : FlowBinding) : FlowState := FlowState_from_u8 (fb_state b).
Definition is_open (b : FlowBinding) : bool := fb_state b =? OPEN.

Definition set_reply_src (src : SocketAddr) (b : FlowBinding) : FlowBinding :=
  mkFlowBinding (fb_wire_id b) (fb_session b) (fb_target b) (fb_state b) (fb_context_left b)
    (Some src) false (fb_resolved b).
Definition mark_reply_src_acked (b : FlowBinding) : FlowBinding :=
  mkFlowBinding (fb_wire_id b) (fb_session b) (fb_target b) (fb_state b) (fb_context_left b)
    (fb_reply_src b) true (fb_resolved b).
Definition target_ip (b : FlowBinding) : option SocketAddr := socket_addr (fb_target b).
Definition resolved_first (b : FlowBinding) : option SocketAddr := first (fb_resolved b).
Definition set_resolved (addrs : list SocketAddr) (b : FlowBinding) : FlowBinding :=
  mkFlowBinding (fb_wire_id b) (fb_session b) (fb_target b) (fb_state b) (fb_context_left b)
    (fb_reply_src b) (fb_reply_src_acked b) addrs.
Definition resolved_len (b : FlowBinding) : Z := len (fb_resolved b).
Definition resolved_contains (ip : bytes) (b : FlowBinding) : bool :=
  existsb (fun a => bool_decide (sock_ip a = ip)) (fb_resolved b).

(* ------------------------------------------------------------------ *)
(** ** Interleavings *)

Inductive Call : Type := MarkOpen | MarkClosed | TakeSlot | Rearm.

#[export] Instance Call_eq_dec : EqDecision Call.
Proof. solve_decision. Defined.

Fixpoint pmap {A B} (f : A -> B) (p : prog A) : prog B :=
  match p with
  | Ret a => Ret (f a)
  | Again => Again
  | Load c k => Load c (fun v => pmap f (k v))
  | Store c v k => Store c v (pmap f k)
  | Cas c old new k => Cas c old new (fun ok => pmap f (k ok))
  end.

(** The program of a call; only [TakeSlot] answers [true]. *)
Definition body (c : Call) : prog bool :=
  match c with
  | MarkOpen => pmap (fun _ => false) mark_open
  | MarkClosed => pmap (fun _ => false) mark_closed
  | TakeSlot => take_context_slot
  | Rearm => pmap (fun _ => false) rearm_context
  end.

Record Config : Type := mkConfig {
  g_mem : FlowBinding;
  g_run : list (Call * prog bool);   (** the calls in flight *)
  g_done : list (Call * bool)        (** the calls that returned, the last first *)
}.

(** One access, or one turn of the loop, of one call in flight. *)
Inductive act (c : Call) : prog bool -> FlowBinding -> prog bool -> FlowBinding -> Prop :=
| act_again b : act c Again b (body c) b
| act_load l k b : act c (Load l k) b (k (load l b)) b
| act_store l v k b : act c (Store l v k) b k (store l v b)
| act_cas_ok l old new k b : load l b = old -> act c (Cas l old new k) b (k true) (store l new b)
| act_cas_fail l old new k b : load l b <> old -> act c (Cas l old new k) b (k false) b.

Inductive run_step : Config -> Config -> Prop :=
| run_act b b' c p p' l1 l2 d : act c p b p' b' ->
    run_step (mkConfig b (l1 ++ (c, p) :: l2) d) (mkConfig b' (l1 ++ (c, p') :: l2) d)
| run_return b c v l1 l2 d :
    run_step (mkConfig b (l1 ++ (c, Ret v) :: l2) d) (mkConfig b (l1 ++ l2) ((c, v) :: d)).

(** Any task may start any call at any time; the rest is [run_step]. *)
Inductive step : Config -> Config -> Prop :=
| step_start c b l d : step (mkConfig b l d) (mkConfig b ((c, body c) :: l) d)
| step_run g g' : run_step g g' -> step g g'.

Definition is_call (c : Call) (x : Call) : bool := bool_decide (x = c).
(** How many calls of [c] were started: those in flight and those that returned. *)
Definition started (c : Call) (g : Config) : Z :=
  len (List.filter (fun t => is_call c t.1) (g_run g)) + len (List.filter (fun t => is_call c t.1) (g_done g)).
(** How many payloads were told to carry the binding. *)
Definition granted (g : Config) : Z := len (List.filter snd (g_done g)).

(* ------------------------------------------------------------------ *)
(** ** Loads and stores *)

Lemma load_store c v b c' : load c' (store c v b) = if decide (c' = c) then v else load c' b.
Proof. by destruct c, c'. Qed.

(** The value and the memory of a call do not depend on a turn it takes itself. *)
Lemma act_solo c p b p' b' : act c p b p' b' -> p <> Again -> solo p b = solo p' b'.
Proof. destruct 1; intros Hp; cbn [solo]; try done; [by rewrite (proj2 (Z.eqb_eq _ _)) | by rewrite (proj2 (Z.eqb_neq _ _))]. Qed.

(* ------------------------------------------------------------------ *)
(** ** Sequential meaning *)

Lemma mark_open_solo b : solo mark_open b =
  (Some tt, if fb_state b =? OPENING then store Cstate OPEN b else b).
Proof. cbn. by destruct (fb_state b =? 0) eqn:E; cbn; rewrite ?E. Qed.

Lemma mark_closed_solo b : solo mark_closed b = (Some tt, store Cstate CLOSED b).
Proof. done. Qed.

Lemma take_context_slot_solo b : solo take_context_slot b =
  if fb_state b =? OPENING then
    (Some true, if fb_context_left b <=? 1 then store Ccontext_left 0 (store Cstate OPEN b)
                else store Ccontext_left (fb_context_left b - 1) b)
  else (Some false, b).
Proof.
  cbn. destruct (fb_state b =? 0) eqn:E; cbn; [|done].
  destruct (fb_context_left b <=? 1) eqn:E2; cbn; [by rewrite E|]. by rewrite Z.eqb_refl.
Qed.

Lemma rearm_context_solo b : solo rearm_context b =
  (Some tt, if fb_state b =? CLOSED then b else
     let b := store Ccontext_left R3_CONTEXT_REPEATS b in
     if fb_state b =? OPEN then store Cstate OPENING b else b).
Proof.
  cbn. destruct (fb_state b =? 2) eqn:E; cbn; [done|]. by destruct (fb_state b =? 1) eqn:E2; cbn; rewrite ?E2.
Qed.

Lemma body_solo c b : (solo (body c) b).1 <> None.
Proof.
  destruct c; cbn [body].
  - cbn. by destruct (fb_state b =? 0) eqn:E; cbn; rewrite ?E.
  - done.
  - rewrite take_context_slot_solo. by destruct (fb_state b =? OPENING).
  - cbn. destruct (fb_state b =? 2) eqn:E; cbn; [done|]. by destruct (fb_state b =? 1) eqn:E2; cbn; rewrite ?E2.
Qed.

(* ------------------------------------------------------------------ *)
(** ** Invariants of interleavings

    A predicate on programs that every access respects is an invariant of the
    calls in flight; [run_inv] does the induction once for all of them. *)

Section RunInv.
Context (M : FlowBinding -> Prop) (P : Call -> prog bool -> Prop) (D : Call * bool -> Prop).
Hypothesis P_body : forall c, P c (body c).
Hypothesis P_act : forall c p b p' b', M b -> P c p -> act c p b p' b' -> M b' /\ P c p'.
Hypothesis P_ret : forall c v, P c (Ret v) -> D (c, v).

Definition run_ok (g : Config) : Prop :=
  M (g_mem g) /\ Forall (fun t => P t.1 t.2) (g_run g) /\ Forall D (g_done g).

Lemma step_run_ok g g' : step g g' -> run_ok g -> run_ok g'.
Proof.
  intros [c b l d|? ? [b b' c p p' l1 l2 d Ha|b c v l1 l2 d]] (Hm & Hr & Hd); cbn [g_mem g_run g_done] in *;
    split_and!; cbn [g_mem g_run g_done]; try done.
  - by constructor.
  - apply list.Forall_app in Hr as [? [? ?]%list.Forall_cons]. by eapply P_act.
  - apply list.Forall_app in Hr as [? [? ?]%list.Forall_cons]. apply list.Forall_app; split; [done|].
    constructor; [|done]. by eapply (P_act c p b p' b').
  - apply list.Forall_app in Hr as [? [? ?]%list.Forall_cons]. by apply list.Forall_app.
  - apply list.Forall_app in Hr as [? [? ?]%list.Forall_cons]. constructor; [by apply P_ret | done].
Qed.

Lemma run_inv g g' : rtc step g g' -> run_ok g -> run_ok g'.
Proof. induction 1 as [|g1 g2 g3 Hs _ IH]; [done|]. intros H. by apply IH, (step_run_ok g1). Qed.
End RunInv.

(** *** The cells stay in range and [Closed] is final *)

Definition in_range (b : FlowBinding) : Prop :=
  OPENING <= fb_state b <= CLOSED /\ 0 <= fb_context_left b <= R3_CONTEXT_REPEATS.

(** Writes to the state close it, or exchange the two live values. *)
Fixpoint tame (p : prog bool) : Prop :=
  match p with
  | Ret _ | Again => True
  | Load _ k => forall v, tame (k v)
  | Store Cstate v k => v = CLOSED /\ tame k
  | Store Ccontext_left v k => 0 <= v <= R3_CONTEXT_REPEATS /\ tame k
  | Cas Cstate old new k => old <> CLOSED /\ OPENING <= new <= OPEN /\ tame (k true) /\ tame (k false)
  | Cas Ccontext_left old new k => 0 <= new <= old /\ tame (k true) /\ tame (k false)
  end.

(** Walk through a call: every value a load may give, both ends of a [Cas]. *)
Ltac walk :=
  cbn; unfold R3_CONTEXT_REPEATS in *;
  repeat (intros; cbn;
    match goal with
    | |- _ /\ _ => split
    | |- exists m, _ = S m /\ _ => eexists; split; [reflexivity|]
    | |- context [if ?b then _ else _] => destruct b eqn:?
    | |- forall _, _ => intro
    end);
  zbool; try done; try lia.

Lemma tame_body c : tame (body c).
Proof. destruct c; walk. Qed.

Lemma tame_act c p b p' b' : tame p -> act c p b p' b' -> tame p' /\
  (in_range b -> in_range b') /\ (fb_state b = CLOSED -> fb_state b' = CLOSED).
Proof.
  intros Ht Ha. destruct Ha as [|l k b|[] v k b|[] old new k b E|[] old new k b E]; cbn in Ht |- *;
    unfold in_range; cbn; unfold R3_CONTEXT_REPEATS in *.
  all: try (split; [apply tame_body|]); try (split; [naive_solver|]); try tauto; try (split; intros; lia).
  all: cbn in E; split; intros; lia.
Qed.

(** *** Slots are paid for

    Each cell's value is worth the slots it can still grant; a call that
    re-arms the window brings two.  Every access keeps the sum of what the
    cells are worth, of what the calls hold and of the slots granted. *)

Definition worth (c : Cell) (v : Z) : Z :=
  match c with Cstate => if v =? OPENING then 1 else 0 | Ccontext_left => Z.max (v - 1) 0 end.
Definition pot (b : FlowBinding) : Z := worth Cstate (fb_state b) + worth Ccontext_left (fb_context_left b).

Definition brings (c : Call) : Z := match c with Rearm => 2 | _ => 0 end.

(** [n] credits pay for every slot that [p], a call of [c], can grant. *)
Fixpoint credit (c : Call) (n : Z) (p : prog bool) : Prop :=
  0 <= n /\
  match p with
  | Ret v => (if v then 1 else 0) <= n
  | Again => brings c <= n
  | Load _ k => forall v, credit c n (k v)
  | Store l v k => credit c (n - worth l v) k
  | Cas l old new k => credit c (n + worth l old - worth l new) (k true) /\ credit c n (k false)
  end.

Lemma worth_nonneg c v : 0 <= worth c v.
Proof. destruct c; cbn; [by case_match | lia]. Qed.

Lemma credit_nonneg c n p : credit c n p -> 0 <= n.
Proof. by destruct p; intros [? _]. Qed.

Lemma credit_mono c p : forall n m, credit c n p -> n <= m -> credit c m p.
Proof.
  induction p as [v| |l k IH|l v k IH|l old new k IH]; intros n m [H0 H] Hm; (split; [lia|]).
  - lia.
  - lia.
  - intros v. by eapply IH.
  - eapply IH; [exact H | lia].
  - destruct H as [H1 H2]. split; [eapply IH; [exact H1 | lia] | by eapply IH].
Qed.

Lemma credit_body c : credit c (brings c) (body c).
Proof. destruct c; walk. Qed.

Lemma credit_act c p b p' b' n : act c p b p' b' -> credit c n p ->
  exists n', credit c n' p' /\ n' + pot b' <= n + pot b.
Proof.
  intros Ha Hc. destruct Ha as [b|l k b|l v k b|l old new k b E|l old new k b E]; destruct Hc as [Hn Hc].
  - exists n. split; [by eapply credit_mono; [apply credit_body|] | lia].
  - exists n. split; [apply Hc | lia].
  - exists (n - worth l v). split; [done|]. pose proof (worth_nonneg l (load l b)). 
    destruct l; unfold pot; cbn [store fb_state fb_context_left load] in *; lia.
  - exists (n + worth l old - worth l new). split; [apply Hc|]. subst old.
    destruct l; unfold pot; cbn [store fb_state fb_context_left load]; lia.
  - exists n. split; [apply Hc | lia].
Qed.

Definition zsum (l : list Z) : Z := foldr Z.add 0 l.

Lemma zsum_cons x l : zsum (x :: l) = x + zsum l.
Proof. done. Qed.

Lemma zsum_app l k : zsum (l ++ k) = zsum l + zsum k.
Proof. unfold zsum. induction l as [|x l IH]; cbn in *; lia. Qed.

Lemma zsum_nonneg l : Forall (fun n => 0 <= n) l -> 0 <= zsum l.
Proof. unfold zsum. induction 1; cbn in *; lia. Qed.

(** Everything a binding will grant is covered. *)
Definition funded (g : Config) : Prop :=
  exists ns, Forall2 (fun t n => credit t.1 n t.2) (g_run g) ns /\
    zsum ns + pot (g_mem g) + granted g <= R3_CONTEXT_REPEATS + 2 * started Rearm g.

Lemma started_app c b l1 l2 d : started c (mkConfig b (l1 ++ l2) d) =
  started c (mkConfig b l1 []) + started c (mkConfig b l2 d).
Proof. unfold started. cbn [g_run g_done List.filter]. rewrite List.filter_app, len_app, len_nil. lia. Qed.

Lemma started_cons c x p b l d : started c (mkConfig b ((x, p) :: l) d) =
  (if is_call c x then 1 else 0) + started c (mkConfig b l d).
Proof. unfold started. cbn. destruct (is_call c x); rewrite ?len_cons; lia. Qed.

Lemma started_done c x v b l d : started c (mkConfig b l ((x, v) :: d)) =
  (if is_call c x then 1 else 0) + started c (mkConfig b l d).
Proof. unfold started. cbn. destruct (is_call c x); rewrite ?len_cons; lia. Qed.

Lemma started_mem c b b' l d : started c (mkConfig b l d) = started c (mkConfig b' l d).
Proof. done. Qed.

Lemma granted_done x v b b' l l' d : granted (mkConfig b l ((x, v) :: d)) =
  (if v then 1 else 0) + granted (mkConfig b' l' d).
Proof. unfold granted. cbn. destruct v; rewrite ?len_cons; lia. Qed.

Lemma brings_rearm c : brings c = 2 * (if is_call Rearm c then 1 else 0).
Proof. by destruct c. Qed.

Lemma step_funded g g' : step g g' -> funded g -> funded g'.
Proof.
  intros [c b l d|? ? [b b' c p p' l1 l2 d Ha|b c v l1 l2 d]] (ns & Hf & Hs); cbn [g_run g_mem] in *.
  - exists (brings c :: ns). split; [constructor; [apply credit_body | done]|]. rewrite started_cons.
    change (granted (mkConfig b ((c, body c) :: l) d)) with (granted (mkConfig b l d)). rewrite zsum_cons, brings_rearm. cbn [g_mem]. lia.
  - apply Forall2_app_inv_l in Hf as (n1 & nx & H1 & H2 & ->). apply Forall2_cons_inv_l in H2 as (n & n2 & Hn & H2 & ->).
    destruct (credit_act _ _ _ _ _ _ Ha Hn) as (n' & Hn' & Hle). exists (n1 ++ n' :: n2).
    split; [apply Forall2_app; [done | by constructor]|].
    rewrite !zsum_app, !zsum_cons, !started_app, !started_cons in *. unfold granted, started in *.
    cbn [g_run g_done g_mem] in *. lia.
  - apply Forall2_app_inv_l in Hf as (n1 & nx & H1 & H2 & ->). apply Forall2_cons_inv_l in H2 as (n & n2 & [Hn Hv] & H2 & ->).
    exists (n1 ++ n2). split; [by apply Forall2_app|].
    rewrite (granted_done _ _ b b _ (l1 ++ (c, Ret v) :: l2)), !zsum_app, !zsum_cons, started_done, !started_app, started_cons in *.
    cbn [g_mem] in *. lia.
Qed.

Lemma funded_granted g : funded g -> granted g <= R3_CONTEXT_REPEATS + 2 * started Rearm g.
Proof.
  intros (ns & Hf & Hs). assert (0 <= zsum ns).
  { apply zsum_nonneg. clear Hs. induction Hf; constructor; [by eapply credit_nonneg | done]. }
  unfold pot in Hs. pose proof (worth_nonneg Cstate (fb_state (g_mem g))).
  pose proof (worth_nonneg Ccontext_left (fb_context_left (g_mem g))). lia.
Qed.

(** *** A call that starts after the close grants nothing *)

Fixpoint late (p : prog bool) : Prop :=
  match p with
  | Ret v => v = false
  | Again => True
  | Load Cstate k => late (k CLOSED)
  | Load Ccontext_left k => forall v, late (k v)
  | Store _ _ k => late k
  | Cas Cstate old _ k => old <> CLOSED /\ late (k false)
  | Cas Ccontext_left _ _ k => late (k true) /\ late (k false)
  end.

Lemma late_body c : late (body c).
Proof. destruct c; walk. Qed.

Lemma late_act c p b p' b' : fb_state b = CLOSED -> late p -> act c p b p' b' -> late p'.
Proof.
  intros Hb Hl Ha. destruct Ha as [|[] k b|l v k b|[] old new k b E|[] old new k b E]; cbn in Hl, Hb |- *;
    rewrite ?Hb; try apply late_body; naive_solver.
Qed.

Definition late_ok : Config -> Prop :=
  run_ok (fun b => fb_state b = CLOSED) (fun _ p => tame p /\ late p) (fun _ => True).

Lemma step_late g g' : step g g' -> late_ok g -> late_ok g' /\ granted g' = granted g.
Proof.
  intros Hs Hl. split.
  - eapply step_run_ok; [| | done | exact Hs | exact Hl].
    + intros c. split; [apply tame_body | apply late_body].
    + intros c p b p' b' Hm [Ht Hp] Ha. destruct (tame_act _ _ _ _ _ Ht Ha) as (? & ? & ?).
      split; [auto|]. split; [done|]. by eapply late_act.
  - destruct Hl as (_ & Hl & _). destruct Hs as [|? ? [|b c v l1 l2 d]]; [done | done |].
    apply list.Forall_app in Hl as [_ [[_ Hv] _]%list.Forall_cons]. cbn in Hv. subst v.
    by rewrite (granted_done _ _ _ b _ (l1 ++ (c, Ret false) :: l2)).
Qed.

Lemma late_granted g g' : rtc step g g' -> late_ok g -> granted g' = granted g.
Proof.
  induction 1 as [|g1 g2 g3 Hs _ IH]; [done|]. intros H.
  destruct (step_late _ _ Hs H) as [H2 <-]. by apply IH.
Qed.

(* ------------------------------------------------------------------ *)
(** ** Every call returns

    A call repeats its loop only when another call wrote in between.  The
    measure is lexicographic: the writes all calls can still make, the calls
    whose next [Cas] is bound to fail, the accesses up to the next turn. *)

(** [p], a call of [c], makes at most [n] writes. *)
Fixpoint writes (c : Call) (n : nat) (p : prog bool) : Prop :=
  match p with
  | Ret _ => True
  | Again => (2 <= n)%nat
  | Load _ k => forall v, writes c n (k v)
  | Store _ _ k => exists m, n = S m /\ writes c m k
  | Cas _ _ _ k => (exists m, n = S m /\ writes c m (k true)) /\ writes c n (k false)
  end.

(** [p] returns or repeats after fewer than [d] accesses. *)
Fixpoint within (d : nat) (p : prog bool) : Prop :=
  match d, p with
  | O, _ => False
  | S _, (Ret _ | Again) => True
  | S d, Load _ k => forall v, within d (k v)
  | S d, Store _ _ k => within d k
  | S d, Cas _ _ _ k => within d (k true) /\ within d (k false)
  end.

Lemma writes_mono c p : forall n m, writes c n p -> (n <= m)%nat -> writes c m p.
Proof.
  induction p as [v| |l k IH|l v k IH|l old new k IH]; intros n m H Hm; cbn in *.
  - done.
  - lia.
  - intros v. by eapply IH.
  - destruct H as (i & -> & H). destruct m as [|m]; [lia|]. exists m. split; [done|]. eapply IH; [done | lia].
  - destruct H as [(i & -> & H) H2]. destruct m as [|m]; [lia|].
    split; [exists m; split; [done|]; eapply IH; [done | lia] | by eapply IH].
Qed.

Lemma writes_body c : writes c 2 (body c).
Proof. destruct c; walk. Qed.

Lemma within_body c : within 5 (body c).
Proof. destruct c; walk. Qed.

(** The call will repeat if it runs on alone. *)
Definition bound_to_retry (b : FlowBinding) (p : prog bool) : bool :=
  match (solo p b).1 with None => true | Some _ => false end.

Lemma body_no_retry b c : bound_to_retry b (body c) = false.
Proof. unfold bound_to_retry. pose proof (body_solo c b). by destruct (solo (body c) b) as [[]]. Qed.

(** One access of a call lowers its share of the measure. *)
Lemma act_measure c p b p' b' n d : act c p b p' b' -> writes c n p -> within d p ->
  (exists n', (n' < n)%nat /\ writes c n' p' /\ exists d', within d' p') \/
  (b' = b /\ writes c n p' /\ exists d', within d' p' /\
    ((bound_to_retry b p = true /\ bound_to_retry b p' = false) \/
     (bound_to_retry b p' = bound_to_retry b p /\ (d' < d)%nat))).
Proof.
  intros Ha Hw Hd. destruct d as [|d]; [by destruct p|].
  assert (Hs := act_solo _ _ _ _ _ Ha). unfold bound_to_retry.
  destruct Ha as [b|l k b|l v k b|l old new k b E|l old new k b E]; cbn [writes within] in Hw, Hd.
  - right. split; [done|]. split; [by eapply writes_mono; [apply writes_body|]|]. exists 5%nat.
    split; [apply within_body|]. left. split; [done|]. apply body_no_retry.
  - right. rewrite Hs by done. split; [done|]. split; [done|]. exists d. split; [done|]. right. auto with lia.
  - left. destruct Hw as (m & -> & Hw). exists m. eauto with lia.
  - left. destruct Hw as [(m & -> & Hw) _]. exists m. destruct Hd as [Hd _]. eauto with lia.
  - right. rewrite Hs by done. split; [done|]. split; [apply Hw|]. exists d. split; [apply Hd|]. right. auto with lia.
Qed.

(** The calls in flight and their shares. *)
Definition shares (run : list (Call * prog bool)) (ws ds : list nat) : Prop :=
  Forall2 (fun t w => writes t.1 w t.2) run ws /\ Forall2 (fun t d => within d t.2) run ds.

Definition stuck_calls (b : FlowBinding) (run : list (Call * prog bool)) : nat :=
  length (List.filter (fun t => bound_to_retry b t.2) run).

Lemma stuck_calls_app b l1 l2 : stuck_calls b (l1 ++ l2) = (stuck_calls b l1 + stuck_calls b l2)%nat.
Proof. unfold stuck_calls. by rewrite List.filter_app, length_app. Qed.

Lemma stuck_calls_cons b c p l : stuck_calls b ((c, p) :: l) =
  ((if bound_to_retry b p then 1 else 0) + stuck_calls b l)%nat.
Proof. unfold stuck_calls. cbn. by destruct (bound_to_retry b p). Qed.

Lemma shares_bodies calls : exists ws ds, shares ((fun c => (c, body c)) <$> calls) ws ds.
Proof.
  exists (replicate (length calls) 2%nat), (replicate (length calls) 5%nat).
  split; induction calls as [|c calls IH]; cbn [fmap list_fmap length replicate]; constructor; try done;
    [apply writes_body | apply within_body].
Qed.

Lemma run_step_measure b run d ws ds g : shares run ws ds -> run_step (mkConfig b run d) g ->
  exists ws' ds', shares (g_run g) ws' ds' /\
    ((sum_list ws' < sum_list ws)%nat \/
     (sum_list ws' <= sum_list ws)%nat /\
      ((stuck_calls (g_mem g) (g_run g) < stuck_calls b run)%nat \/
       (stuck_calls (g_mem g) (g_run g) <= stuck_calls b run)%nat /\ (sum_list ds' < sum_list ds)%nat)).
Proof.
  intros [Hw Hd] Hs. inversion Hs as [? b' c p p' l1 l2 ? Ha|? c v l1 l2 ?]; subst; cbn [g_run g_mem].
  all: apply Forall2_app_inv_l in Hw as (w1 & wx & Hw1 & Hw2 & ->);
    apply Forall2_cons_inv_l in Hw2 as (w & w2 & Hw & Hw2 & ->);
    apply Forall2_app_inv_l in Hd as (d1 & dx & Hd1 & Hd2 & ->);
    apply Forall2_cons_inv_l in Hd2 as (e & d2 & Hd & Hd2 & ->); cbn [fst snd] in Hw, Hd.
  - destruct (act_measure _ _ _ _ _ _ _ Ha Hw Hd) as [(w' & Hlt & Hw' & e' & He')|(-> & Hw' & e' & He' & Hc)].
    + exists (w1 ++ w' :: w2), (d1 ++ e' :: d2). split; [split; by apply Forall2_app; [|constructor]|].
      left. rewrite !sum_list_with_app; cbn. lia.
    + exists (w1 ++ w :: w2), (d1 ++ e' :: d2). split; [split; by apply Forall2_app; [|constructor]|].
      right. split; [lia|]. rewrite !stuck_calls_app, !stuck_calls_cons.
      destruct Hc as [[-> ->] | [-> Hlt]]; [left; lia|]. right. split; [lia|].
      rewrite !sum_list_with_app; cbn. lia.
  - exists (w1 ++ w2), (d1 ++ d2). split; [split; by apply Forall2_app|].
    right. rewrite !sum_list_with_app, !stuck_calls_app, !stuck_calls_cons; cbn. split; [lia|]. right.
    destruct e as [|e]; [done|]. lia.
Qed.

Lemma run_acc : forall W S D b run d ws ds, shares run ws ds -> (sum_list ws <= W)%nat ->
  (stuck_calls b run <= S)%nat -> (sum_list ds <= D)%nat -> Acc (flip run_step) (mkConfig b run d).
Proof.
  intros W. induction (lt_wf W) as [W _ IHW]. intros S. induction (lt_wf S) as [S _ IHS].
  intros D. induction (lt_wf D) as [D _ IHD]. intros b run d ws ds Hsh Hw Hs Hd. constructor.
  intros [b' run' d'] Hstep. destruct (run_step_measure _ _ _ _ _ _ Hsh Hstep) as (ws' & ds' & Hsh' & Hc).
  cbn [g_run g_mem] in *. destruct Hc as [Hc|[Hc [Hc2|[Hc2 Hc3]]]].
  - eapply (IHW (sum_list ws')); [lia | exact Hsh' | done | reflexivity | reflexivity].
  - eapply (IHS (stuck_calls b' run')); [lia | exact Hsh' | lia | done | reflexivity].
  - eapply (IHD (sum_list ds')); [lia | exact Hsh' | lia | lia | done].
Qed.

(** A call in flight can always take its next step. *)
Lemma run_progress b c p l d : exists g, run_step (mkConfig b ((c, p) :: l) d) g.
Proof.
  destruct p as [v| |l0 k|l0 v k|l0 old new k].
  - eexists. apply (run_return b c v []).
  - eexists. apply (run_act b b c Again (body c) []). constructor.
  - eexists. eapply (run_act b b c _ _ []). constructor.
  - eexists. eapply (run_act b _ c _ _ []). constructor.
  - destruct (decide (load l0 b = old)); eexists; eapply (run_act b _ c _ _ []); by constructor.
Qed.

Lemma run_done b run d g : rtc run_step (mkConfig b run d) g -> 
  (length (g_run g) + length (g_done g) = length run + length d)%nat.
Proof.
  remember (mkConfig b run d) as g0 eqn:E. replace (length run) with (length (g_run g0)) by by rewrite E.
  replace (length d) with (length (g_done g0)) by by rewrite E. clear E. induction 1 as [|g1 g2 g3 Hs _ IH]; [done|].
  rewrite IH. destruct Hs; cbn [g_run g_done length]; rewrite !length_app; cbn; lia.
Qed.

(* ------------------------------------------------------------------ *)
(** ** Properties *)

(** The answers of [n] payloads sent one after another. *)
Fixpoint take_slots (n : nat) (b : FlowBinding) : list (option bool) * FlowBinding :=
  match n with
  | O => ([], b)
  | S n => let '(r, b) := solo take_context_slot b in
           let '(rs, b) := take_slots n b in (r :: rs, b)
  end.

Lemma take_slots_not_opening n b : fb_state b <> OPENING -> take_slots n b = (replicate n (Some false), b).
Proof.
  intros Hb. induction n as [|n IH]; [done|]. cbn [take_slots]. rewrite take_context_slot_solo.
  rewrite (proj2 (Z.eqb_neq _ _)) by done. by rewrite IH.
Qed.

Lemma take_slots_window n b : fb_state b = OPENING -> fb_context_left b = R3_CONTEXT_REPEATS ->
  (take_slots n b).1 = Some <$> (replicate (min n 2) true ++ replicate (n - 2) false).
Proof.
  intros Hs Hl. destruct b; cbn [fb_state fb_context_left] in Hs, Hl. subst. unfold R3_CONTEXT_REPEATS.
  destruct n as [|[|n]]; [done | done |]. cbn. change (2 - 1) with 1. cbn. rewrite take_slots_not_opening by (cbn; lia). cbn.
  rewrite Nat.min_0_r, Nat.sub_0_r. cbn. by rewrite fmap_replicate.
Qed.

(** The rev3 context window.  On a fresh binding exactly the first two
    payloads carry the binding and every later one is steady; and after a
    repair hint on any binding that is not closed, again exactly the next two
    carry it.  On a closed binding no payload does, whatever hints arrive. *)
Theorem context_window n :
  (forall id sess target, (take_slots n (FlowBinding_new id sess target)).1 =
     Some <$> (replicate (min n 2) true ++ replicate (n - 2) false)) /\
  (forall b, in_range b -> fb_state b <> CLOSED ->
     (take_slots n (solo rearm_context b).2).1 = Some <$> (replicate (min n 2) true ++ replicate (n - 2) false)) /\
  (forall b, fb_state b = CLOSED ->
     take_slots n (solo rearm_context b).2 = (replicate n (Some false), b)).
Proof.
  split_and!; intros.
  - by apply take_slots_window.
  - destruct H as [Hs _]. rewrite rearm_context_solo. cbn [snd]. rewrite (proj2 (Z.eqb_neq _ _)) by done.
    destruct (fb_state b =? OPEN) eqn:E; cbn [store fb_state]; rewrite E; apply take_slots_window; try done.
    cbn in *. zbool. lia.
  - rewrite rearm_context_solo. cbn [snd]. rewrite (proj2 (Z.eqb_eq _ _)) by done.
    by apply take_slots_not_opening; rewrite H.
Qed.

(** The state machine under interleaving.  However the calls of any number
    of tasks interleave, one atomic access at a time: the cells stay in range;
    no more than two payloads are told to carry the binding, and two more for
    each repair hint; a closed binding is never reopened; and no call that
    starts after the close is told to carry the binding. *)
Theorem binding_interleavings id sess target g : rtc step (mkConfig (FlowBinding_new id sess target) [] []) g ->
  in_range (g_mem g) /\
  granted g <= R3_CONTEXT_REPEATS + 2 * started Rearm g /\
  (fb_state (g_mem g) = CLOSED ->
   forall g', rtc step g g' -> fb_state (g_mem g') = CLOSED) /\
  (fb_state (g_mem g) = CLOSED -> g_run g = [] ->
   forall g', rtc step g g' -> granted g' = granted g).
Proof.
  intros Hr. pose proof tame_body as Hb.
  assert (Hi : run_ok in_range (fun _ p => tame p) (fun _ => True) g).
  { eapply run_inv; [done | | done | exact Hr |].
    - intros c p b p' b' Hm Hp Ha. destruct (tame_act _ _ _ _ _ Hp Ha) as (? & ? & ?). auto.
    - split_and!; cbn; [|constructor..]. unfold in_range. cbn. unfold R3_CONTEXT_REPEATS. lia. }
  destruct Hi as (Hm & Hp & Hd). split_and!; [done | | |].
  - apply funded_granted. assert (Hf : funded (mkConfig (FlowBinding_new id sess target) [] [])).
    { exists []. split; [constructor|]. by vm_compute. }
    clear Hm Hp Hd. induction Hr as [|g1 g2 g3 Hs _ IH]; [done|]. by apply IH, (step_funded g1).
  - intros Hc g' Hr'. eapply (run_inv (fun b => fb_state b = CLOSED) (fun _ p => tame p) (fun _ => True));
      [done | | done | exact Hr' | by split_and!].
    intros c p b p' b' Hm' Hp' Ha. destruct (tame_act _ _ _ _ _ Hp' Ha) as (? & ? & ?). auto.
  - intros Hc Hn g' Hr'. destruct g as [b run d]. cbn in Hc, Hn. subst run.
    apply (late_granted _ _ Hr'). split_and!; [done | constructor | apply list.Forall_true; done].
Qed.

Lemma binding_interleavings_witness :
  let b := FlowBinding_new 2 7 (AddrDomain [] 0) in
  let g := mkConfig (store Cstate CLOSED b) [] [(MarkClosed, false)] in
  rtc step (mkConfig b [] []) g /\
  (forall g', rtc step g g' -> fb_state (g_mem g') = CLOSED /\ granted g' = 0).
Proof.
  intros b g. assert (Hr : rtc step (mkConfig b [] []) g).
  { eapply rtc_l; [apply (step_start MarkClosed)|].
    eapply rtc_l; [apply step_run; eapply (run_act b _ MarkClosed _ _ [] []); constructor|].
    eapply rtc_l; [apply step_run, (run_return _ MarkClosed false [] [])|]. apply rtc_refl. }
  split; [done|]. destruct (binding_interleavings 2 7 (AddrDomain [] 0) g Hr) as (_ & _ & Hc & Hg).
  intros g' Hr'. split; [by apply Hc | by rewrite (Hg eq_refl eq_refl g' Hr')].
Defined.

(** The lock-free operations terminate.  Whatever the scheduler does,
    finitely many concurrent calls on a binding make only finitely many steps,
    although [take_context_slot] repeats its loop when a [Cas] fails; a call
    in flight can always make its next step; and when no step is left every
    call has returned.  A call that no other interferes with never repeats
    its loop. *)
Theorem binding_calls_return b calls :
  Acc (flip run_step) (mkConfig b ((fun c => (c, body c)) <$> calls) []) /\
  (forall g, rtc run_step (mkConfig b ((fun c => (c, body c)) <$> calls) []) g -> (forall g', ~ run_step g g') ->
     g_run g = [] /\ length (g_done g) = length calls) /\
  (forall c, (solo (body c) b).1 <> None).
Proof.
  destruct (shares_bodies calls) as (ws & ds & Hsh). split_and!.
  - by eapply run_acc.
  - intros [b' run d] Hr Hn. destruct run as [|[c p] run]; [|by destruct (run_progress b' c p run d) as [g' ?%Hn]].
    split; [done|]. pose proof (run_done _ _ _ _ Hr) as Hl. rewrite length_fmap in Hl. cbn in *. lia.
  - intros c. apply body_solo.
Qed.

(** A repair hint that races with the payload that takes the last slot opens a
    window of one payload, not two: the payload's late store empties the
    counter the hint had just filled. *)
Lemma rearm_race :
  let b := (solo take_context_slot (FlowBinding_new 2 7 (AddrDomain [] 0))).2 in
  exists g, rtc step (mkConfig b [] []) g /\ g_done g = [(TakeSlot, true); (Rearm, false)] /\ g_run g = [] /\
    (take_slots 2 (g_mem g)).1 = [Some true; Some false].
Proof.
  intros b. eexists. split.
  { eapply rtc_l; [apply (step_start Rearm)|]. eapply rtc_l; [apply (step_start TakeSlot)|].
    (* the payload reads the cells and takes the state to open *)
    do 2 (eapply rtc_l; [apply step_run; eapply (run_act _ _ TakeSlot _ _ []); apply act_load|]).
    eapply rtc_l; [apply step_run; eapply (run_act _ _ TakeSlot _ _ []); by apply act_cas_ok|].
    (* the hint runs to its end *)
    eapply rtc_l; [apply step_run; eapply (run_act _ _ Rearm _ _ [_]); apply act_load|].
    eapply rtc_l; [apply step_run; eapply (run_act _ _ Rearm _ _ [_]); apply act_store|].
    eapply rtc_l; [apply step_run; eapply (run_act _ _ Rearm _ _ [_]); by apply act_cas_ok|].
    eapply rtc_l; [apply step_run; apply (run_return _ Rearm false [_] [])|].
    (* the payload empties the counter *)
    eapply rtc_l; [apply step_run; eapply (run_act _ _ TakeSlot _ _ []); apply act_store|].
    eapply rtc_l; [apply step_run; apply (run_return _ TakeSlot true [] [])|].
    apply rtc_refl. }
  done.
Qed.
