(* ===== verification/Flow.v ===== *)
(** The flow tables of [src/mqp/r2_flow.rs]: the id allocator, the per-session
    reverse table, the per-connection registry with its session index and its
    count of server-owned flows, and the handshake state.

    The tables share their bindings behind [Arc]s: closing a binding through
    the registry is seen by the sender's table.  The model keeps the shared
    bindings in a heap and the tables hold addresses into it. *)
From stdpp Require Import fin_maps.
From S2P Require Import Prelude Addr R2 Wire Binding.

Definition R2_MAX_FLOWS_PER_SESSION : Z := 64.
Definition R2_MAX_FLOWS_PER_CONN : Z := 4096.
Definition MAX_LOCAL_FLOW_ID : Z := Z.shiftr (2 ^ 32 - 1) 1.
Definition CTL_MAX_PER_SEC : Z := 8192.

(* ------------------------------------------------------------------ *)
(** ** Shared bindings *)

Abbreviation Arc := positive.
Abbreviation Heap := (gmap Arc FlowBinding).

(** [FlowBinding::new_shared]: [Arc::new] of an opening binding. *)
Definition new_shared (wire_id session : Z) (target : TargetAddr) (h : Heap) : Arc * Heap :=
  let l := fresh (dom h) in (l, <[l := FlowBinding_new wire_id session target]> h).

(** A call of a binding operation through an [Arc]. *)
Definition call (p : prog unit) (l : Arc) (h : Heap) : Heap :=
  alter (fun b => (solo p b).2) l h.

(* ------------------------------------------------------------------ *)
(** ** [FlowIds] *)

Record FlowIds : Type := mkFlowIds { fi_next : Z; fi_server_owned : bool }.

Definition FlowIds_new (server_owned : bool) : FlowIds := mkFlowIds 0 server_owned.

Definition FlowIds_alloc (ids : FlowIds) : option Z * FlowIds :=
  if fi_next ids >=? MAX_LOCAL_FLOW_ID then (None, ids) else
  (make_wire_id (fi_next ids + 1) (fi_server_owned ids), mkFlowIds (fi_next ids + 1) (fi_server_owned ids)).

Definition FlowIds_allocated (ids : FlowIds) : Z := fi_next ids.

(** [wire::alloc_wire_id]. *)
Definition alloc_wire_id (ids : FlowIds) (w : Wire) : option Z * FlowIds :=
  let '(id, ids) := FlowIds_alloc ids in
  (match id with
   | None => None
   | Some id =>
       match w with
       | Rev2 => Some id
       | Rev3 => (fun _ => id) <$> fid_for id
       end
   end, ids).

(* ------------------------------------------------------------------ *)
(** ** [SessionFlows] *)

Record SessionFlows : Type := mkSessionFlows { entries : list (option Arc) }.

Definition SessionFlows_new : SessionFlows :=
  mkSessionFlows (replicate (Z.to_nat R2_MAX_FLOWS_PER_SESSION) None).

Inductive SourceMatch : Type :=
| Exact (b : Arc)
| Rebind (b : Arc).

Section Session.
Context (h : Heap).

(** [self.entries.iter().flatten()]. *)
Definition flows_iter (t : SessionFlows) : list Arc := omap id (entries t).

Definition SessionFlows_len (t : SessionFlows) : Z := len (flows_iter t).
Definition SessionFlows_is_empty (t : SessionFlows) : bool :=
  forallb (fun e => match e with None => true | Some _ => false end) (entries t).

(** An empty slot, or one whose binding is closed. *)
Definition reclaimable (e : option Arc) : bool :=
  match e with
  | None => true
  | Some l => bool_decide (binding_state (h !!! l) = Closed)
  end.

Definition is_full (t : SessionFlows) : bool := negb (existsb reclaimable (entries t)).

Definition find (addr : TargetAddr) (t : SessionFlows) : option Arc :=
  List.find (fun l => bool_decide (fb_target (h !!! l) = addr)) (flows_iter t).

Definition find_id (wire_id : Z) (t : SessionFlows) : option Arc :=
  List.find (fun l => fb_wire_id (h !!! l) =? wire_id) (flows_iter t).

(** [matches!(&b.target, TargetAddr::Ip(a) if *a == src)]. *)
Definition target_is (src : SocketAddr) (b : FlowBinding) : bool :=
  match fb_target b with AddrIp a => bool_decide (a = src) | AddrDomain _ _ => false end.

(** The weak match: the target's IP, or one the domain resolved to. *)
Definition target_hit (src : SocketAddr) (b : FlowBinding) : bool :=
  match fb_target b with
  | AddrIp a => bool_decide (sock_ip a = sock_ip src)
  | AddrDomain _ _ => resolved_contains (sock_ip src) b
  end.

(** The loop of [match_source], with its two remembered candidates. *)
Fixpoint match_source_go (src : SocketAddr) (bs : list Arc) (exact rebind : option Arc) : option SourceMatch :=
  match bs with
  | [] => match exact with Some l => Some (Exact l) | None => Rebind <$> rebind end
  | l :: bs =>
      let b := h !!! l in
      if bool_decide (fb_reply_src b = Some src) then
        if fb_reply_src_acked b || target_is src b then Some (Exact l) else
        match_source_go src bs exact (match rebind with None => Some l | Some _ => rebind end)
      else
        let exact := match exact with
                     | None => if target_is src b then Some l else None
                     | Some _ => exact
                     end in
        let rebind := match rebind with
                      | None => if target_hit src b then Some l else None
                      | Some _ => rebind
                      end in
        match_source_go src bs exact rebind
  end.

Definition match_source (src : SocketAddr) (t : SessionFlows) : option SourceMatch :=
  match_source_go src (flows_iter t) None None.

Definition SessionFlows_insert (binding : Arc) (t : SessionFlows) : bool * SessionFlows :=
  match find_id (fb_wire_id (h !!! binding)) t with
  | Some _ => (true, t)
  | None =>
      match list_find (fun e => reclaimable e = true) (entries t) with
      | None => (false, t)
      | Some (i, _) => (true, mkSessionFlows (<[i := Some binding]> (entries t)))
      end
  end.

(** [e.as_ref().is_some_and(|b| b.wire_id == wire_id)]. *)
Definition holds_id (wire_id : Z) (e : option Arc) : bool :=
  match e with Some l => fb_wire_id (h !!! l) =? wire_id | None => false end.

Definition SessionFlows_remove (wire_id : Z) (t : SessionFlows) : option Arc * SessionFlows :=
  match list_find (fun e => holds_id wire_id e = true) (entries t) with
  | None => (None, t)
  | Some (i, e) => (e, mkSessionFlows (<[i := None]> (entries t)))
  end.
End Session.

(* ------------------------------------------------------------------ *)
(** ** [FlowRegistry] *)

Inductive RegistryError : Type := Full | Conflict.

Record FlowRegistry : Type := mkFlowRegistry {
  r_cap : Z;
  r_map : gmap Z Arc;
  r_by_session : gmap Z (list Z);
  r_server_flow_count : Z
}.

Definition FlowRegistry_new (cap : Z) : FlowRegistry := mkFlowRegistry cap ∅ ∅ 0.

(** [HashMap::len]. *)
Definition map_len {A} (m : gmap Z A) : Z := Z.of_nat (size m).

(** [Vec::swap_remove]. *)
Definition swap_remove {A} (l : list A) (i : nat) : list A :=
  match list.last l with
  | Some x => take (length l - 1) (<[i := x]> l)
  | None => l
  end.

(** [fetch_add] and [fetch_sub] of the counter, when the binding is server-owned. *)
Definition count_add (wire_id n : Z) : Z :=
  if wire_id_server_owned wire_id then as_u64 (n + 1) else n.
Definition count_sub (wire_id n : Z) : Z :=
  if wire_id_server_owned wire_id then as_u64 (n - 1) else n.

Definition index_binding (b : FlowBinding) (r : FlowRegistry) : FlowRegistry :=
  mkFlowRegistry (r_cap r) (r_map r)
    (<[fb_session b := default [] (r_by_session r !! fb_session b) ++ [fb_wire_id b]]> (r_by_session r))
    (count_add (fb_wire_id b) (r_server_flow_count r)).

Definition drop_id (wire_id : Z) (ids : list Z) : list Z :=
  match list_find (fun id => id = wire_id) ids with
  | Some (pos, _) => swap_remove ids pos
  | None => ids
  end.

Definition unindex_binding (b : FlowBinding) (r : FlowRegistry) : FlowRegistry :=
  let by_session := r_by_session r in
  let by_session :=
    match by_session !! fb_session b with
    | None => by_session
    | Some ids =>
        let ids := drop_id (fb_wire_id b) ids in
        if bool_decide (ids = []) then delete (fb_session b) by_session
        else <[fb_session b := ids]> by_session
    end in
  mkFlowRegistry (r_cap r) (r_map r) by_session (count_sub (fb_wire_id b) (r_server_flow_count r)).

Definition registry_len (r : FlowRegistry) : Z := map_len (r_map r).
Definition registry_is_empty (r : FlowRegistry) : bool := bool_decide (r_map r = ∅).
Definition has_capacity (r : FlowRegistry) : bool := map_len (r_map r) <? r_cap r.

(** [map.insert(id, binding)] followed by [index_binding]. *)
Definition install (l : Arc) (b : FlowBinding) (r : FlowRegistry) : FlowRegistry :=
  index_binding b
    (mkFlowRegistry (r_cap r) (<[fb_wire_id b := l]> (r_map r)) (r_by_session r) (r_server_flow_count r)).

(** The same flow: the duplicate of an open. *)
Definition same_flow (a b : FlowBinding) : bool :=
  (fb_session a =? fb_session b) && bool_decide (fb_target a = fb_target b).

Definition registry_insert (h : Heap) (l : Arc) (r : FlowRegistry) : res RegistryError Arc * FlowRegistry :=
  let b := h !!! l in
  match r_map r !! fb_wire_id b with
  | Some existing => if same_flow (h !!! existing) b then (Ok existing, r) else (Err Conflict, r)
  | None =>
      if map_len (r_map r) >=? r_cap r then (Err Full, r) else (Ok l, install l b r)
  end.

(** What the registry, its allocator and the heap of bindings become. *)
Record World : Type := mkWorld { w_heap : Heap; w_ids : FlowIds; w_reg : FlowRegistry }.

Definition insert_new_for (w : Wire) (session : Z) (target : TargetAddr) (s : World) :
    res RegistryError Arc * World :=
  let 'mkWorld h ids r := s in
  if map_len (r_map r) >=? r_cap r then (Err Full, s) else
  if match w with Rev3 => FlowIds_allocated ids >=? MAX_R3_LOCAL_ID | Rev2 => false end then (Err Full, s) else
  let '(id, ids) := alloc_wire_id ids w in
  match id with
  | None => (Err Full, mkWorld h ids r)
  | Some wire_id =>
      let '(l, h) := new_shared wire_id session target h in
      match r_map r !! wire_id with
      | Some existing =>
          (if same_flow (h !!! existing) (h !!! l) then Ok existing else Err Conflict, mkWorld h ids r)
      | None => (Ok l, mkWorld h ids (install l (h !!! l) r))
      end
  end.

Definition insert_new (session : Z) (target : TargetAddr) (s : World) : res RegistryError Arc * World :=
  insert_new_for Rev2 session target s.

Definition registry_get (wire_id : Z) (r : FlowRegistry) : option Arc := r_map r !! wire_id.

Definition get_batch (ids : list (Z * option Arc)) (r : FlowRegistry) : list (Z * option Arc) :=
  (fun p => (p.1, r_map r !! p.1)) <$> ids.

(** The values are met in the order of the map; at most one binding matches
    in the tables the endpoints build, and the theorems do not use the order. *)
Definition find_server_flow (h : Heap) (session : Z) (addr : TargetAddr) (r : FlowRegistry) : option Arc :=
  if r_server_flow_count r =? 0 then None else
  List.find (fun l => let b := h !!! l in
               wire_id_server_owned (fb_wire_id b) && (fb_session b =? session) &&
               bool_decide (fb_target b = addr)) ((map_to_list (r_map r)).*2).

Definition with_map (m : gmap Z Arc) (r : FlowRegistry) : FlowRegistry :=
  mkFlowRegistry (r_cap r) m (r_by_session r) (r_server_flow_count r).

Definition registry_remove (h : Heap) (wire_id : Z) (r : FlowRegistry) : option Arc * FlowRegistry :=
  match r_map r !! wire_id with
  | None => (None, r)
  | Some l => (Some l, unindex_binding (h !!! l) (with_map (delete wire_id (r_map r)) r))
  end.

(** [self.by_session.write().remove(&session)]. *)
Definition take_index (session : Z) (r : FlowRegistry) : option (list Z) * FlowRegistry :=
  (r_by_session r !! session,
   mkFlowRegistry (r_cap r) (r_map r) (delete session (r_by_session r)) (r_server_flow_count r)).

(** The loop over the ids taken from the index, under the map's lock. *)
Fixpoint purge (ids : list Z) (removed : Z) (h : Heap) (r : FlowRegistry) : Z * Heap * FlowRegistry :=
  match ids with
  | [] => (removed, h, r)
  | wire_id :: ids =>
      match r_map r !! wire_id with
      | None => purge ids removed h r
      | Some l =>
          purge ids (removed + 1) (call mark_closed l h)
            (mkFlowRegistry (r_cap r) (delete wire_id (r_map r)) (r_by_session r)
               (count_sub (fb_wire_id (h !!! l)) (r_server_flow_count r)))
      end
  end.

Definition remove_session (session : Z) (h : Heap) (r : FlowRegistry) : Z * Heap * FlowRegistry :=
  let '(indexed, r) := take_index session r in
  match indexed with
  | None => (0, h, r)
  | Some ids => purge ids 0 h r
  end.

(** [sessions.iter().filter_map(|s| by_session.remove(s)).collect()]. *)
Fixpoint take_indexes (sessions : list Z) (r : FlowRegistry) : list (list Z) * FlowRegistry :=
  match sessions with
  | [] => ([], r)
  | s :: sessions =>
      let '(ids, r) := take_index s r in
      let '(rest, r) := take_indexes sessions r in
      (option_list ids ++ rest, r)
  end.

(** The nested loops over the collected id lists. *)
Fixpoint purge_all (indexed : list (list Z)) (removed : Z) (h : Heap) (r : FlowRegistry) :
    Z * Heap * FlowRegistry :=
  match indexed with
  | [] => (removed, h, r)
  | ids :: indexed => let '(removed, h, r) := purge ids removed h r in purge_all indexed removed h r
  end.

Definition remove_sessions (sessions : list Z) (h : Heap) (r : FlowRegistry) : Z * Heap * FlowRegistry :=
  if bool_decide (sessions = []) then (0, h, r) else
  let '(indexed, r) := take_indexes sessions r in
  purge_all indexed 0 h r.

Definition registry_clear (r : FlowRegistry) : Z * FlowRegistry :=
  (map_len (r_map r), mkFlowRegistry (r_cap r) ∅ ∅ 0).

(* ------------------------------------------------------------------ *)
(** ** [CtlState] *)

Record CtlRate : Type := mkCtlRate { cr_window_ms : Z; cr_count : Z }.

Record CtlState : Type := mkCtlState {
  cs_caps : option Caps;
  cs_hello_seen : bool;
  cs_ctl_rate : CtlRate
}.

Definition CtlState_new : CtlState := mkCtlState None false (mkCtlRate 0 0).
Definition set_caps (c : Caps) (s : CtlState) : CtlState := mkCtlState (Some c) (cs_hello_seen s) (cs_ctl_rate s).
Definition mark_hello (s : CtlState) : CtlState := mkCtlState (cs_caps s) true (cs_ctl_rate s).

Definition ctl_allowed (now_ms : Z) (s : CtlState) : bool * CtlState :=
  let rate := cs_ctl_rate s in
  let rate := if saturating_sub now_ms (cr_window_ms rate) >=? 1000 then mkCtlRate now_ms 0 else rate in
  let with_rate r := mkCtlState (cs_caps s) (cs_hello_seen s) r in
  if cr_count rate >=? CTL_MAX_PER_SEC then (false, with_rate rate) else
  (true, with_rate (mkCtlRate (cr_window_ms rate) (cr_count rate + 1))).

(* ------------------------------------------------------------------ *)
(** ** Lists of ids *)

Lemma swap_remove_perm {A} (l : list A) i x : l !! i = Some x -> l ≡ₚ x :: swap_remove l i.
Proof.
  intros Hi. destruct (exists_last (l := l)) as (l' & y & ->); [by destruct l|].
  unfold swap_remove. rewrite last_snoc, length_app; cbn [length].
  replace (length l' + 1 - 1)%nat with (length l') by lia.
  apply lookup_app_Some in Hi as [Hi|[Hle Hi]].
  - rewrite insert_app_l by by eapply lookup_lt_Some. rewrite <- (length_insert l' i y), take_app_length.
    apply list_elem_of_split_length in Hi as (l1 & l2 & -> & ->).
    rewrite insert_app_r_alt, Nat.sub_diag by lia; cbn. rewrite <- !Permutation_middle, Permutation_app_comm.
    apply perm_swap.
  - destruct (i - length l')%nat eqn:E; [|done]. injection Hi as <-. replace i with (length l' + 0)%nat by lia.
    rewrite insert_app_r; cbn. rewrite take_app_length. by rewrite Permutation_app_comm.
Qed.

Lemma drop_id_perm id ids : id ∈ ids -> ids ≡ₚ id :: drop_id id ids.
Proof.
  intros Hin. unfold drop_id. destruct (list_find (fun i => i = id) ids) as [[pos y]|] eqn:E.
  - apply list_find_Some in E as (Hy & -> & _). by apply swap_remove_perm.
  - apply list_find_None in E. rewrite list.Forall_forall in E. by destruct (E id Hin).
Qed.

Lemma drop_id_none id ids : id ∉ ids -> drop_id id ids = ids.
Proof.
  intros Hin. unfold drop_id. destruct (list_find (fun i => i = id) ids) as [[pos y]|] eqn:E; [|done].
  apply list_find_Some in E as (Hy & -> & _). by apply list_elem_of_lookup_2 in Hy.
Qed.

Lemma drop_id_elem id ids x : x ∈ drop_id id ids -> x ∈ ids.
Proof.
  destruct (decide (id ∈ ids)) as [Hin|Hin]; [|by rewrite drop_id_none].
  intros Hx. rewrite (drop_id_perm id ids Hin). set_solver.
Qed.

Lemma drop_id_other id ids x : x ∈ ids -> x <> id -> x ∈ drop_id id ids.
Proof.
  destruct (decide (id ∈ ids)) as [Hin|Hin]; [|by rewrite drop_id_none].
  rewrite (drop_id_perm id ids Hin) at 1. set_solver.
Qed.

Lemma drop_id_nodup id ids : NoDup ids -> NoDup (drop_id id ids) /\ id ∉ drop_id id ids.
Proof.
  destruct (decide (id ∈ ids)) as [Hin|Hin]; [|by rewrite drop_id_none].
  rewrite (drop_id_perm id ids Hin) at 1. rewrite list.NoDup_cons. tauto.
Qed.

(* ------------------------------------------------------------------ *)
(** ** The heap *)

(** Bindings are never freed while a table refers to them, keep their identity
    and stay closed once closed: what any use of a binding respects. *)
Definition heap_le (h h' : Heap) : Prop :=
  forall l b, h !! l = Some b -> exists b', h' !! l = Some b' /\
    fb_wire_id b' = fb_wire_id b /\ fb_session b' = fb_session b /\ fb_target b' = fb_target b /\
    (fb_state b = CLOSED -> fb_state b' = CLOSED).

#[export] Instance heap_le_preorder : PreOrder heap_le.
Proof.
  split.
  - intros h l b Hl. naive_solver.
  - intros h1 h2 h3 H1 H2 l b (b2 & Hl2 & ? & ? & ? & ?)%H1. apply H2 in Hl2 as (b3 & ? & ? & ? & ? & ?).
    exists b3. split_and!; auto; congruence.
Qed.

Lemma call_le p l h : (forall b, fb_wire_id (solo p b).2 = fb_wire_id b /\ fb_session (solo p b).2 = fb_session b /\
    fb_target (solo p b).2 = fb_target b /\ (fb_state b = CLOSED -> fb_state (solo p b).2 = CLOSED)) ->
  heap_le h (call p l h).
Proof.
  intros Hp l' b Hl. unfold call. destruct (decide (l' = l)) as [-> | Hne].
  - exists (solo p b).2. rewrite lookup_alter_eq, Hl. split; [done|]. apply Hp.
  - exists b. by rewrite lookup_alter_ne.
Qed.

Lemma close_le l h : heap_le h (call mark_closed l h).
Proof. apply call_le. naive_solver. Qed.

Lemma mark_open_le l h : heap_le h (call mark_open l h).
Proof.
  apply call_le. intros b. rewrite mark_open_solo. cbn [snd]. destruct (fb_state b =? OPENING) eqn:E; [|done].
  cbn. split_and!; try done. zbool. intros Hc. rewrite Hc in E. done.
Qed.

Lemma new_shared_fresh id sess target h l h' : new_shared id sess target h = (l, h') ->
  h !! l = None /\ h' = <[l := FlowBinding_new id sess target]> h.
Proof.
  intros [= <- <-]. split; [|done]. apply not_elem_of_dom, is_fresh.
Qed.

Lemma heap_le_insert h l b : h !! l = None -> heap_le h (<[l := b]> h).
Proof. intros Hl l' b' Hb'. exists b'. rewrite lookup_insert_ne by congruence. naive_solver. Qed.

Lemma lookup_total_some (h : Heap) l b : h !! l = Some b -> h !!! l = b.
Proof. apply lookup_total_correct. Qed.

(* ------------------------------------------------------------------ *)
(** ** The registry's invariant *)

Definition server_count (m : gmap Z Arc) : Z :=
  Z.of_nat (size (filter (fun p => wire_id_server_owned p.1 = true) m)).

Lemma server_count_insert m id l : m !! id = None ->
  server_count (<[id := l]> m) = server_count m + (if wire_id_server_owned id then 1 else 0).
Proof.
  intros Hm. unfold server_count. destruct (wire_id_server_owned id) eqn:E.
  - rewrite map_filter_insert_True by done. rewrite map_size_insert_None; [lia|].
    apply map_lookup_filter_None. by left.
  - rewrite map_filter_insert_not' by (cbn; congruence). lia.
Qed.

Lemma server_count_delete m id l : m !! id = Some l ->
  server_count m = server_count (delete id m) + (if wire_id_server_owned id then 1 else 0).
Proof.
  intros Hm. rewrite <- (insert_delete_id m id l Hm) at 1. apply server_count_insert. apply lookup_delete_eq.
Qed.

Lemma server_count_bounds m : 0 <= server_count m <= map_len m.
Proof.
  unfold server_count, map_len. split; [lia|]. apply Nat2Z.inj_le, map_subseteq_size, map_filter_subseteq.
Qed.

(** What holds at every moment, also between the critical sections of a
    session purge. *)
Record reg_core (h : Heap) (r : FlowRegistry) : Prop := mkRegCore {
  rc_live : forall id l, r_map r !! id = Some l -> exists b, h !! l = Some b /\ fb_wire_id b = id;
  rc_cap : map_len (r_map r) <= r_cap r <= usize_max;
  rc_count : r_server_flow_count r = server_count (r_map r)
}.

Definition indexed (r : FlowRegistry) (s id : Z) : Prop := exists ids, r_by_session r !! s = Some ids /\ id ∈ ids.

(** Some live binding of session [s] has the id. *)
Definition registered (h : Heap) (r : FlowRegistry) (s id : Z) : Prop :=
  exists l b, r_map r !! id = Some l /\ h !! l = Some b /\ fb_session b = s.

(** Every live binding is in the index of its session, or among the ids a
    purge has already taken. *)
Definition covers (pend : list Z) (h : Heap) (r : FlowRegistry) : Prop :=
  forall s id, registered h r s id -> indexed r s id \/ id ∈ pend.

(** The index is exact. *)
Record reg_inv (h : Heap) (r : FlowRegistry) : Prop := mkRegInv {
  ri_core : reg_core h r;
  ri_lists : forall s ids, r_by_session r !! s = Some ids -> ids <> [] /\ NoDup ids;
  ri_index : forall s id, indexed r s id <-> registered h r s id
}.

Lemma new_reg_inv cap : 0 <= cap <= usize_max -> reg_inv ∅ (FlowRegistry_new cap).
Proof.
  intros Hc. split.
  - split; cbn; [intros id l; by rewrite lookup_empty | | done]. unfold map_len. rewrite map_size_empty. lia.
  - intros s ids. cbn. by rewrite lookup_empty.
  - intros s id. unfold indexed, registered. cbn. setoid_rewrite lookup_empty. naive_solver.
Qed.

Lemma registered_le h h' r s id : reg_core h r -> heap_le h h' -> registered h r s id <-> registered h' r s id.
Proof.
  intros Hc Hle. unfold registered. split; intros (l & b & Hm & Hl & Hs).
  - apply Hle in Hl as (b' & ? & ? & ? & ? & ?). exists l, b'. split_and!; congruence.
  - destruct (rc_live _ _ Hc _ _ Hm) as (b0 & Hb0 & _). destruct (Hle _ _ Hb0) as (b' & Hb' & ? & ? & ? & ?).
    exists l, b0. split_and!; congruence.
Qed.

Lemma reg_core_le h h' r : reg_core h r -> heap_le h h' -> reg_core h' r.
Proof.
  intros [Hl Hc Hn] Hle. split; [|done..]. intros id l (b & Hb & Hid)%Hl.
  apply Hle in Hb as (b' & ? & ? & _). exists b'. split; congruence.
Qed.

Lemma reg_inv_le h h' r : reg_inv h r -> heap_le h h' -> reg_inv h' r.
Proof.
  intros [Hc Hl Hi] Hle. split; [by eapply reg_core_le | done |].
  intros s id. rewrite Hi. by apply registered_le.
Qed.

Lemma covers_le pend h h' r : reg_core h r -> covers pend h r -> heap_le h h' -> covers pend h' r.
Proof. intros Hc Hv Hle s id Hr. apply Hv. by eapply registered_le. Qed.

Lemma covers_mono pend pend' h r : covers pend h r -> pend ⊆ pend' -> covers pend' h r.
Proof. intros Hv Hs s id Hr. destruct (Hv _ _ Hr); auto. Qed.

(* ------------------------------------------------------------------ *)
(** ** The operations on the registry *)

Lemma map_len_insert (m : gmap Z Arc) id l : m !! id = None -> map_len (<[id := l]> m) = map_len m + 1.
Proof. intros H. unfold map_len. rewrite map_size_insert_None by done. lia. Qed.

Lemma map_len_delete (m : gmap Z Arc) id l : m !! id = Some l -> map_len m = map_len (delete id m) + 1.
Proof. intros H. rewrite <- (insert_delete_id m id l H) at 1. apply map_len_insert, lookup_delete_eq. Qed.

Section Install.
Context (h : Heap) (r : FlowRegistry) (l : Arc) (b : FlowBinding).
Hypothesis Hcore : reg_core h r.
Hypothesis Hnew : r_map r !! fb_wire_id b = None.
Hypothesis Hroom : map_len (r_map r) < r_cap r.
Hypothesis Hl : h !! l = Some b.

Lemma install_core : reg_core h (install l b r).
Proof.
  destruct Hcore as [Hlive Hcap Hcnt]. split; cbn.
  - intros id l0 [[<- <-]|[Hne Hm]]%lookup_insert_Some; [eauto | by apply Hlive].
  - rewrite map_len_insert by done. lia.
  - rewrite server_count_insert, Hcnt by done. unfold count_add. pose proof (server_count_bounds (r_map r)).
    case_match; [|lia]. apply as_u64_small. lia.
Qed.

Lemma install_registered s id : registered h (install l b r) s id <->
  registered h r s id \/ (s = fb_session b /\ id = fb_wire_id b).
Proof.
  unfold registered. cbn. split.
  - intros (l0 & b0 & [[<- <-]|[Hne Hm]]%lookup_insert_Some & Hb0 & <-); [right; by simplify_eq | left; eauto].
  - intros [(l0 & b0 & Hm & Hb0 & Hs)|[-> ->]].
    + exists l0, b0. rewrite lookup_insert_ne by congruence. done.
    + exists l, b. by rewrite lookup_insert_eq.
Qed.

Lemma install_indexed s id : indexed (install l b r) s id <->
  indexed r s id \/ (s = fb_session b /\ id = fb_wire_id b).
Proof.
  unfold indexed. cbn. split.
  - intros (ids & [[<- <-]|[Hne Hm]]%lookup_insert_Some & Hin); [|left; eauto].
    apply elem_of_app in Hin as [Hin|Hin%list_elem_of_singleton]; [left | by right].
    destruct (r_by_session r !! fb_session b) as [ids|] eqn:E; [eauto | by apply not_elem_of_nil in Hin].
  - intros [(ids & Hm & Hin)|[-> ->]].
    + destruct (decide (s = fb_session b)) as [-> | Hne].
      * rewrite lookup_insert_eq, Hm. eexists. split; [done|]. set_solver.
      * rewrite lookup_insert_ne by done. eauto.
    + rewrite lookup_insert_eq. eexists. split; [done|]. set_solver.
Qed.

Lemma install_inv : reg_inv h r -> reg_inv h (install l b r).
Proof.
  intros [_ Hlists Hidx]. split; [apply install_core | |].
  - cbn. intros s ids [[<- <-]|[Hne Hm]]%lookup_insert_Some; [|by eapply Hlists].
    split; [intros []%app_eq_nil; done|].
    assert (Hni : ~ indexed r (fb_session b) (fb_wire_id b)).
    { rewrite Hidx. intros (l0 & b0 & Hm & _). congruence. }
    destruct (r_by_session r !! fb_session b) as [ids|] eqn:E; cbn; [|apply NoDup_singleton].
    apply list.NoDup_app. split_and!; [by eapply Hlists | | apply NoDup_singleton].
    intros x Hx ->%list_elem_of_singleton. apply Hni. by exists ids.
  - intros s id. by rewrite install_indexed, install_registered, Hidx.
Qed.

Lemma install_covers pend : covers pend h r -> covers pend h (install l b r).
Proof. intros Hv s id [?%Hv|?]%install_registered; rewrite install_indexed; tauto. Qed.
End Install.

Section Remove.
Context (h : Heap) (r : FlowRegistry) (id : Z) (l : Arc) (b : FlowBinding).
Hypothesis Hcore : reg_core h r.
Hypothesis Hm : r_map r !! id = Some l.
Hypothesis Hl : h !! l = Some b.

Let r' := unindex_binding b (with_map (delete id (r_map r)) r).

Lemma remove_id : fb_wire_id b = id.
Proof. destruct (rc_live _ _ Hcore _ _ Hm) as (b0 & ? & <-). congruence. Qed.

Lemma remove_core : reg_core h r'.
Proof.
  pose proof remove_id as Hid. destruct Hcore as [Hlive Hcap Hcnt]. split; cbn.
  - intros id' l' [_ Hm']%lookup_delete_Some. by apply Hlive.
  - rewrite (map_len_delete _ _ _ Hm) in Hcap. lia.
  - rewrite Hcnt, (server_count_delete _ _ _ Hm), Hid. unfold count_sub.
    pose proof (server_count_bounds (delete id (r_map r))). rewrite (map_len_delete _ _ _ Hm) in Hcap.
    case_match; [|lia]. rewrite as_u64_small; lia.
Qed.

Lemma remove_registered s id' : registered h r' s id' <-> registered h r s id' /\ id' <> id.
Proof.
  unfold registered. cbn. split.
  - intros (l0 & b0 & [Hne H0]%lookup_delete_Some & ? & ?). eauto 10.
  - intros ((l0 & b0 & H0 & ? & ?) & Hne). exists l0, b0. by rewrite lookup_delete_ne.
Qed.

Lemma remove_indexed s id' : indexed r s id' -> id' <> id -> indexed r' s id'.
Proof.
  pose proof remove_id as Hid. intros (ids & Hs & Hin) Hne. unfold indexed. cbn. rewrite Hid.
  destruct (r_by_session r !! fb_session b) as [ids0|] eqn:E; [|eauto].
  destruct (decide (s = fb_session b)) as [-> | Hsne].
  - simplify_eq. pose proof (drop_id_other _ _ _ Hin Hne) as Hin'. case_bool_decide as Hnil.
    + rewrite Hnil in Hin'. by apply not_elem_of_nil in Hin'.
    + rewrite lookup_insert_eq. eauto.
  - case_bool_decide; rewrite ?lookup_delete_ne, ?lookup_insert_ne by done; eauto.
Qed.

Lemma remove_inv : reg_inv h r -> reg_inv h r'.
Proof.
  pose proof remove_id as Hid. intros [_ Hlists Hidx].
  assert (Hb : indexed r (fb_session b) id) by (apply Hidx; by exists l, b).
  destruct Hb as (ids0 & Hids0 & Hin0). destruct (Hlists _ _ Hids0) as [_ Hnd].
  destruct (drop_id_nodup id ids0 Hnd) as [Hnd' Hni]. split; [apply remove_core | |].
  - unfold r'. cbn. rewrite Hids0, Hid. intros s ids. case_bool_decide as Hnil.
    + intros [_ ?]%lookup_delete_Some. by eapply Hlists.
    + intros [[<- <-]|[_ ?]]%lookup_insert_Some; [done | by eapply Hlists].
  - intros s id'. rewrite remove_registered, <- Hidx. split; [|intros []; by apply remove_indexed].
    unfold indexed, r'. cbn. rewrite Hids0, Hid. case_bool_decide as Hnil.
    + intros (ids & [Hne Hs]%lookup_delete_Some & Hin). split; [eauto|]. intros ->.
      assert (Hx : indexed r s id) by by exists ids. apply Hidx in Hx as (l1 & b1 & ? & ? & ?). congruence.
    + intros (ids & [[<- <-]|[Hne Hs]]%lookup_insert_Some & Hin).
      * split; [eauto using drop_id_elem | by intros ->].
      * split; [eauto|]. intros ->.
        assert (Hx : indexed r s id) by by exists ids. apply Hidx in Hx as (l1 & b1 & ? & ? & ?). congruence.
Qed.

Lemma remove_covers pend : covers pend h r -> covers pend h r'.
Proof.
  intros Hv s id' [Hr Hne]%remove_registered. destruct (Hv _ _ Hr); [|by right].
  left. by apply remove_indexed.
Qed.
End Remove.

(** What a purge of [ids] does: their bindings are closed and gone from the
    map, all else is as before. *)
Record purged (ids : list Z) (h : Heap) (r : FlowRegistry) (n : Z) (h' : Heap) (r' : FlowRegistry) : Prop := mkPurged {
  pg_core : reg_core h' r';
  pg_heap : heap_le h h';
  pg_index : r_by_session r' = r_by_session r;
  pg_cap : r_cap r' = r_cap r;
  pg_map : forall id, r_map r' !! id = if decide (id ∈ ids) then None else r_map r !! id;
  pg_closed : forall id l, id ∈ ids -> r_map r !! id = Some l -> fb_state (h' !!! l) = CLOSED;
  pg_kept : forall l, (forall id, id ∈ ids -> r_map r !! id <> Some l) -> h' !! l = h !! l;
  pg_removed : n = map_len (r_map r) - map_len (r_map r')
}.

(** The state of a purge after its first id. *)
Lemma purge_one_core h r id l : reg_core h r -> r_map r !! id = Some l ->
  reg_core (call mark_closed l h)
    (mkFlowRegistry (r_cap r) (delete id (r_map r)) (r_by_session r)
       (count_sub (fb_wire_id (h !!! l)) (r_server_flow_count r))).
Proof.
  intros Hc Hm. destruct (rc_live _ _ Hc _ _ Hm) as (b & Hb & Hid). rewrite (lookup_total_some _ _ _ Hb).
  eapply reg_core_le; [|apply close_le]. pose proof (remove_core h r id l b Hc Hm Hb) as [H1 H2 H3].
  by split.
Qed.

Lemma closed_le h h' l b : heap_le h h' -> h !! l = Some b -> fb_state b = CLOSED -> fb_state (h' !!! l) = CLOSED.
Proof. intros Hle Hb Hs. destruct (Hle _ _ Hb) as (b' & Hb' & _ & _ & _ & H). rewrite (lookup_total_some _ _ _ Hb'). auto. Qed.

Lemma purge_spec ids : forall k h r, reg_core h r -> exists n h' r',
  purge ids k h r = (k + n, h', r') /\ purged ids h r n h' r'.
Proof.
  induction ids as [|id ids IH]; intros k h r Hc; cbn [purge].
  - exists 0, h, r. rewrite Z.add_0_r. split; [done|]. split; try done; [|lia].
    by intros id l ?%not_elem_of_nil.
  - destruct (r_map r !! id) as [l|] eqn:Hm.
    + pose proof (purge_one_core h r id l Hc Hm) as Hc1. destruct (rc_live _ _ Hc _ _ Hm) as (b & Hb & Hid).
      edestruct (IH (k + 1) _ _ Hc1) as (n & h' & r' & -> & [P1 P2 P3 P4 P5 P6 P7 P8]).
      exists (n + 1), h', r'. split; [f_equal; f_equal; lia|]. cbn [r_map r_by_session r_cap] in *.
      assert (Hcl : fb_state (h' !!! l) = CLOSED).
      { eapply (closed_le _ _ _ (store Cstate CLOSED b) P2); [|done]. unfold call. by rewrite lookup_alter_eq, Hb. }
      split; try done.
      * etrans; [apply close_le | exact P2].
      * intros id'. rewrite P5. destruct (decide (id' = id)) as [-> | Hne].
        -- rewrite lookup_delete_eq. repeat case_decide; done || set_solver.
        -- rewrite lookup_delete_ne by done. repeat case_decide; done || set_solver.
      * intros id' l' Hin Hm'. destruct (decide (id' = id)) as [-> | Hne]; [by simplify_eq|].
        apply (P6 id'); [set_solver | by rewrite lookup_delete_ne].
      * intros l' Hl'. rewrite P7.
        -- unfold call. rewrite lookup_alter_ne; [done|]. intros ->. by eapply (Hl' id); [apply list_elem_of_here|].
        -- intros id' Hin [_ ?]%lookup_delete_Some. by eapply (Hl' id'); [set_solver|].
      * rewrite P8, (map_len_delete _ _ _ Hm). lia.
    + destruct (IH k h r Hc) as (n & h' & r' & -> & [P1 P2 P3 P4 P5 P6 P7 P8]).
      exists n, h', r'. split; [done|]. split; try done.
      * intros id'. rewrite P5. destruct (decide (id' = id)) as [-> | Hne].
        -- repeat case_decide; done || set_solver.
        -- repeat case_decide; done || set_solver.
      * intros id' l' [-> | Hin]%elem_of_cons Hm'; [congruence | by eapply P6].
      * intros l' Hl'. apply P7. intros id' Hin. apply Hl'. set_solver.
Qed.

Lemma purged_registered ids h r n h' r' s id : reg_core h r -> purged ids h r n h' r' ->
  registered h' r' s id <-> registered h r s id /\ id ∉ ids.
Proof.
  intros Hc P. transitivity (registered h r' s id).
  - symmetry. apply registered_le; [|apply P]. split; [|rewrite (pg_cap _ _ _ _ _ _ P); pose proof (rc_cap _ _ (pg_core _ _ _ _ _ _ P)); rewrite <- (pg_cap _ _ _ _ _ _ P); done | apply P].
    intros id' l. rewrite (pg_map _ _ _ _ _ _ P). case_decide; [done|]. apply Hc.
  - unfold registered. setoid_rewrite (pg_map _ _ _ _ _ _ P). case_decide; naive_solver.
Qed.

Lemma take_index_core s h r ids r' : reg_core h r -> take_index s r = (ids, r') -> reg_core h r'.
Proof. intros [? ? ?] [= <- <-]. by split. Qed.

Lemma remove_session_spec s h r : reg_inv h r -> exists n h' r' ids,
  remove_session s h r = (n, h', r') /\ reg_inv h' r' /\ heap_le h h' /\
  purged ids h (take_index s r).2 n h' r' /\ (forall id, id ∈ ids <-> registered h r s id).
Proof.
  intros [Hc Hl Hi]. pose proof (take_index_core s h r _ _ Hc eq_refl) as Hc1. unfold remove_session, take_index in *.
  cbn [fst snd] in *. set (r1 := mkFlowRegistry _ _ _ _) in *.
  assert (Hids : exists ids, (forall id, id ∈ ids <-> registered h r s id) /\
     exists n h' r', match r_by_session r !! s with None => (0, h, r1) | Some ids => purge ids 0 h r1 end = (n, h', r') /\
     purged ids h r1 n h' r').
  { destruct (r_by_session r !! s) as [ids|] eqn:E.
    - exists ids. split; [|destruct (purge_spec ids 0 h r1 Hc1) as (n & h' & r' & -> & P); by exists n, h', r'].
      intros id. rewrite <- Hi. unfold indexed. rewrite E. naive_solver.
    - exists []. split; [|exists 0, h, r1; split; [done|]; by destruct (purge_spec [] 0 h r1 Hc1) as (n & h' & r' & [= -> -> ->] & P)].
      intros id. rewrite <- Hi. unfold indexed. rewrite E. split; [by intros ?%not_elem_of_nil | naive_solver]. }
  destruct Hids as (ids & Hids & n & h' & r' & -> & P). exists n, h', r', ids. split_and!; try done; [|apply P].
  split; [apply P | rewrite (pg_index _ _ _ _ _ _ P); cbn; intros s' l' [_ ?]%lookup_delete_Some; by eapply Hl|].
  intros s' id. rewrite (purged_registered _ _ _ _ _ _ s' id Hc1 P), Hids. unfold indexed. rewrite (pg_index _ _ _ _ _ _ P).
  cbn. change (registered h r1 s' id) with (registered h r s' id). rewrite <- !Hi. unfold indexed. split.
  - intros (l' & [Hne Hs]%lookup_delete_Some & Hin). split; [eauto|]. intros Hsx.
    assert (H1 : indexed r s' id) by by exists l'. assert (H2 : indexed r s id) by done.
    apply Hi in H1 as (? & ? & ? & ? & ?), H2 as (? & ? & ? & ? & ?). congruence.
  - intros [(l' & Hs & Hin) Hni]. exists l'. split; [|done]. apply lookup_delete_Some. split; [|done].
    intros <-. apply Hni. eauto.
Qed.

(** The lookup behind the counter finds a server-owned flow exactly when there is one. *)
Lemma server_count_zero m id l : server_count m = 0 -> m !! id = Some l -> wire_id_server_owned id = false.
Proof.
  intros Hz Hm. rewrite (server_count_delete _ _ _ Hm) in Hz. pose proof (server_count_bounds (delete id m)).
  by destruct (wire_id_server_owned id); [lia|].
Qed.

Lemma find_server_flow_spec h sess addr r : reg_core h r ->
  is_Some (find_server_flow h sess addr r) <->
  exists id l, registry_get id r = Some l /\ wire_id_server_owned id = true /\
    fb_session (h !!! l) = sess /\ fb_target (h !!! l) = addr.
Proof.
  intros Hc. unfold find_server_flow, registry_get. destruct (r_server_flow_count r =? 0) eqn:E.
  - zbool. rewrite (rc_count _ _ Hc) in E. split; [by intros [? ?]|].
    intros (id & l & Hm & Ho & _). by rewrite (server_count_zero _ _ _ E Hm) in Ho.
  - set (f := fun l => _). split.
    + intros [l Hl]. apply List.find_some in Hl as [Hin Hf]. apply list_elem_of_In, list_elem_of_fmap in Hin as ([id l0] & -> & Hin).
      apply elem_of_map_to_list in Hin. destruct (rc_live _ _ Hc _ _ Hin) as (b & Hb & Hid). cbn in Hf. unfold f in Hf.
      rewrite (lookup_total_some _ _ _ Hb), Hid in Hf. apply andb_true_iff in Hf as [[Ho Hs]%andb_true_iff Ht].
      exists id, l0. cbn. rewrite (lookup_total_some _ _ _ Hb). split_and!; try done; [by zbool | by case_bool_decide].
    + intros (id & l & Hm & Ho & Hs & Ht). destruct (List.find f _) as [x|] eqn:Ef; [done|].
      destruct (rc_live _ _ Hc _ _ Hm) as (b & Hb & Hid).
      assert (Hf : f l = false).
      { eapply List.find_none; [exact Ef|]. apply list_elem_of_In, list_elem_of_fmap. exists (id, l).
        split; [done|]. by apply elem_of_map_to_list. }
      unfold f in Hf. rewrite Hs, Ht in Hf. rewrite (lookup_total_some _ _ _ Hb), Hid, Ho, Z.eqb_refl in Hf.
      by rewrite bool_decide_eq_true_2 in Hf.
Qed.

(* ------------------------------------------------------------------ *)
(** ** The batch purge is the sequence of single ones *)

(** One [remove_session] after another. *)
Fixpoint remove_each (sessions : list Z) (h : Heap) (r : FlowRegistry) : Z * Heap * FlowRegistry :=
  match sessions with
  | [] => (0, h, r)
  | s :: sessions =>
      let '(n, h, r) := remove_session s h r in
      let '(m, h, r) := remove_each sessions h r in (n + m, h, r)
  end.

Definition set_index (m : gmap Z (list Z)) (r : FlowRegistry) : FlowRegistry :=
  mkFlowRegistry (r_cap r) (r_map r) m (r_server_flow_count r).

Lemma purge_index m ids : forall k h r, purge ids k h (set_index m r) =
  let '(n, h', r') := purge ids k h r in (n, h', set_index m r').
Proof.
  induction ids as [|id ids IH]; intros k h r; cbn [purge set_index r_map]; [done|].
  destruct (r_map r !! id) as [l|]; [|apply IH]. by rewrite <- IH.
Qed.

Lemma purge_keeps_index ids : forall k h r, r_by_session (purge ids k h r).2 = r_by_session r.
Proof. induction ids as [|id ids IH]; intros k h r; cbn [purge]; [done|]. by case_match; rewrite IH. Qed.

Lemma purge_acc ids : forall k h r, purge ids k h r = let '(n, h', r') := purge ids 0 h r in (k + n, h', r').
Proof.
  induction ids as [|id ids IH]; intros k h r; cbn [purge]; [by rewrite Z.add_0_r|].
  case_match; [|apply IH]. rewrite IH, (IH (0 + 1)).
  destruct (purge ids 0 _ _) as [[n h'] r']. do 2 f_equal. lia.
Qed.

Lemma purge_all_acc ixs : forall k h r, purge_all ixs k h r = let '(n, h', r') := purge_all ixs 0 h r in (k + n, h', r').
Proof.
  induction ixs as [|ids ixs IH]; intros k h r; cbn [purge_all]; [by rewrite Z.add_0_r|].
  rewrite (purge_acc ids k). destruct (purge ids 0 h r) as [[n h1] r1]. rewrite IH, (IH n).
  destruct (purge_all ixs 0 h1 r1) as [[m h2] r2]. do 2 f_equal. lia.
Qed.

Lemma take_indexes_index ss : forall r m, r_by_session r = m ->
  exists ixs m', (forall r', r_by_session r' = m -> take_indexes ss r' = (ixs, set_index m' r')).
Proof.
  induction ss as [|s ss IH]; intros r m Hm.
  - exists [], m. intros [] <-. done.
  - destruct (IH (take_index s r).2 (delete s m)) as (ixs & m' & H); [by cbn; rewrite Hm|].
    exists (option_list (m !! s) ++ ixs), m'. intros r' Hr'. cbn [take_indexes take_index].
    rewrite H by (cbn; by rewrite Hr'). by rewrite Hr'.
Qed.

Lemma remove_sessions_each ss : forall h r,
  (let '(ixs, r) := take_indexes ss r in purge_all ixs 0 h r) = remove_each ss h r.
Proof.
  induction ss as [|s ss IH]; intros h r; cbn [remove_each take_indexes]; [done|].
  unfold remove_session. cbn [take_index]. set (r1 := mkFlowRegistry _ _ _ _).
  destruct (r_by_session r !! s) as [ids|].
  - destruct (take_indexes_index ss r1 _ eq_refl) as (ixs & m' & H). rewrite H by done. change (option_list (Some ids) ++ ixs) with (ids :: ixs). cbn [purge_all].
    rewrite purge_index. pose proof (purge_keeps_index ids 0 h r1) as Hk.
    destruct (purge ids 0 h r1) as [[n h2] r2]. cbn [snd] in Hk. rewrite <- IH, (H r2) by done.
    rewrite purge_all_acc. done.
  - rewrite <- IH. destruct (take_indexes ss r1) as [ixs r2]. change (option_list None ++ ixs) with ixs.
    by destruct (purge_all ixs 0 h r2) as [[n h3] r3].
Qed.

Lemma remove_sessions_each_eq ss h r : remove_sessions ss h r = remove_each ss h r.
Proof. unfold remove_sessions. case_bool_decide as Hs; [by subst|]. apply remove_sessions_each. Qed.

(** The batch teardown is equivalent to tearing the sessions down one by
    one, in their order, duplicates and unknown sessions included: the same
    bindings closed, the same tables, the same count, from any state. *)
Theorem remove_sessions_batch sessions h r : remove_sessions sessions h r = remove_each sessions h r.
Proof. apply remove_sessions_each_eq. Qed.

(* ------------------------------------------------------------------ *)
(** ** Matching a reply source *)

Section MatchSource.
Context (h : Heap) (src : SocketAddr).

(** A learned source; one the peer is known to know; the two weaker matches. *)
Definition learned (l : Arc) : bool := bool_decide (fb_reply_src (h !!! l) = Some src).
Definition confirmed (l : Arc) : bool := learned l && (fb_reply_src_acked (h !!! l) || target_is src (h !!! l)).
Definition targeted (l : Arc) : bool := negb (learned l) && target_is src (h !!! l).
Definition near (l : Arc) : bool := learned l || target_hit src (h !!! l).

(** Three passes, one for each class of match. *)
Definition match_source_ref (bs : list Arc) : option SourceMatch :=
  match List.find confirmed bs with
  | Some l => Some (Exact l)
  | None =>
      match List.find targeted bs with
      | Some l => Some (Exact l)
      | None => Rebind <$> List.find near bs
      end
  end.

Lemma match_source_go_ref bs : forall exact rebind, match_source_go h src bs exact rebind =
  match List.find confirmed bs with
  | Some l => Some (Exact l)
  | None =>
      match (match exact with Some _ => exact | None => List.find targeted bs end) with
      | Some l => Some (Exact l)
      | None => Rebind <$> (match rebind with Some _ => rebind | None => List.find near bs end)
      end
  end.
Proof.
  induction bs as [|l bs IH]; intros exact rebind; cbn [match_source_go List.find].
  - by destruct exact, rebind.
  - unfold confirmed at 1, targeted at 1, near at 1, learned.
    destruct (bool_decide (fb_reply_src (h !!! l) = Some src)); cbn [andb orb negb].
    + destruct (fb_reply_src_acked (h !!! l) || target_is src (h !!! l)); [done|]. rewrite IH. by destruct exact, rebind.
    + rewrite IH. destruct exact, rebind, (target_is src (h !!! l)), (target_hit src (h !!! l)); done.
Qed.
End MatchSource.

(** The single pass of [match_source] is the three-pass classification it
    replaced: the first binding whose learned source the peer is known to
    know; failing that, the first whose target is the source; failing that, a
    rebind of the first that learned the source without confirmation or whose
    address matches by IP or resolution. *)
Theorem match_source_three_passes h src t :
  match_source h src t = match_source_ref h src (flows_iter t).
Proof. unfold match_source. by rewrite match_source_go_ref. Qed.
