(* ===== verification/FlowRun.v ===== *)
(** The flow tables of [Flow] in use: allocation of new flows, teardown seen
    through the shared bindings, the registry over any sequence of operations,
    and the registry under interleaved critical sections. *)
From stdpp Require Import fin_maps relations.
From S2P Require Import Prelude Addr R2 Wire Binding Flow.

(* ------------------------------------------------------------------ *)
(** ** Allocation *)

(** The id the allocator hands out next. *)
Definition next_wire_id (ids : FlowIds) : Z := 2 * (fi_next ids + 1) + Z.b2z (fi_server_owned ids).

Definition ids_ok (ids : FlowIds) : Prop := 0 <= fi_next ids <= MAX_LOCAL_FLOW_ID.

Lemma MAX_LOCAL_FLOW_ID_eq : MAX_LOCAL_FLOW_ID = 2 ^ 31 - 1.
Proof. reflexivity. Qed.

Lemma next_wire_id_parts ids : ids_ok ids -> fi_next ids < MAX_LOCAL_FLOW_ID ->
  is_u32 (next_wire_id ids) /\ wire_id_local (next_wire_id ids) = fi_next ids + 1 /\
  wire_id_server_owned (next_wire_id ids) = fi_server_owned ids.
Proof.
  unfold ids_ok, next_wire_id, wire_id_local, wire_id_server_owned. rewrite MAX_LOCAL_FLOW_ID_eq. intros Hi Hn.
  assert (0 <= Z.b2z (fi_server_owned ids) < 2) by (destruct (fi_server_owned ids); cbn; lia).
  split_and!.
  - unfold is_u32. lia.
  - rewrite Z.shiftr_div_pow2 by lia. change (2 ^ 1) with 2. rewrite Z.mul_comm, Z.div_add_l, Z.div_small by lia. lia.
  - change 1 with (Z.ones 1) at 2. rewrite Z.land_ones by lia. change (2 ^ 1) with 2.
    rewrite Z.mul_comm, Z.add_comm, Z_mod_plus_full. rewrite Z.mod_small by lia. by destruct (fi_server_owned ids).
Qed.

Lemma alloc_spec ids : ids_ok ids -> fi_next ids < MAX_LOCAL_FLOW_ID ->
  FlowIds_alloc ids = (Some (next_wire_id ids), mkFlowIds (fi_next ids + 1) (fi_server_owned ids)).
Proof.
  unfold ids_ok, FlowIds_alloc, make_wire_id, next_wire_id. rewrite MAX_LOCAL_FLOW_ID_eq. intros Hi Hn.
  destruct (fi_next ids >=? 2 ^ 31 - 1) eqn:E; [zbool; lia|]. change (Z.shiftr (2 ^ 32 - 1) 1) with (2 ^ 31 - 1).
  destruct ((fi_next ids + 1 =? 0) || (fi_next ids + 1 >? 2 ^ 31 - 1)) eqn:E2; [zbool; lia|].
  rewrite Z.shiftl_mul_pow2 by lia. change (2 ^ 1) with 2. unfold as_u32. rewrite Z.mod_small by lia.
  do 2 f_equal. rewrite Z.mul_comm. destruct (fi_server_owned ids); cbn [Z.b2z]; [|by rewrite Z.lor_0_r, Z.add_0_r].
  assert (Hl : Z.land (2 * (fi_next ids + 1)) 1 = 0).
  { change 1 with (Z.ones 1) at 2. rewrite Z.land_ones by lia. change (2 ^ 1) with 2. by rewrite Z.mul_comm, Z_mod_mult. }
  by rewrite (Z.add_nocarry_lxor _ _ Hl), (Z.lxor_lor _ _ Hl).
Qed.

Lemma alloc_exhausted ids : fi_next ids >= MAX_LOCAL_FLOW_ID -> FlowIds_alloc ids = (None, ids).
Proof. intros H. unfold FlowIds_alloc. destruct (fi_next ids >=? MAX_LOCAL_FLOW_ID) eqn:E; [done|]. zbool. lia. Qed.

(** No live binding has an id this endpoint has yet to hand out. *)
Definition own_ids (ids : FlowIds) (r : FlowRegistry) : Prop :=
  forall id l, r_map r !! id = Some l -> wire_id_server_owned id = fi_server_owned ids ->
    wire_id_local id <= fi_next ids.

Definition world_ok (s : World) : Prop :=
  reg_inv (w_heap s) (w_reg s) /\ ids_ok (w_ids s) /\ own_ids (w_ids s) (w_reg s).

(** Why a new flow has to be refused. *)
Definition no_room (w : Wire) (s : World) : bool :=
  (map_len (r_map (w_reg s)) >=? r_cap (w_reg s)) ||
  (fi_next (w_ids s) >=? match w with Rev2 => MAX_LOCAL_FLOW_ID | Rev3 => MAX_R3_LOCAL_ID end).

Lemma fid_for_next ids : ids_ok ids -> fi_next ids < MAX_R3_LOCAL_ID -> is_Some (fid_for (next_wire_id ids)).
Proof.
  intros Hi Hn. assert (fi_next ids < MAX_LOCAL_FLOW_ID) as Hm.
  { rewrite MAX_LOCAL_FLOW_ID_eq. unfold MAX_R3_LOCAL_ID, R3.FIDS_PER_OWNER in Hn. lia. }
  destruct (next_wire_id_parts ids Hi Hm) as (Hu & _ & _). unfold ids_ok in Hi.
  eexists. apply fid_for_spec; [done|]. split; [|reflexivity].
  unfold next_wire_id, MAX_R3_LOCAL_ID, R3.FIDS_PER_OWNER in *. destruct (fi_server_owned ids); cbn [Z.b2z]; lia.
Qed.

Lemma own_ids_fresh ids r : ids_ok ids -> fi_next ids < MAX_LOCAL_FLOW_ID -> own_ids ids r ->
  r_map r !! next_wire_id ids = None.
Proof.
  intros Hi Hn Ho. destruct (next_wire_id_parts ids Hi Hn) as (_ & Hl & Hs).
  destruct (r_map r !! next_wire_id ids) as [l|] eqn:E; [|done]. pose proof (Ho _ _ E Hs). lia.
Qed.

Lemma alloc_limit ids w : fi_next ids < match w with Rev2 => MAX_LOCAL_FLOW_ID | Rev3 => MAX_R3_LOCAL_ID end ->
  fi_next ids < MAX_LOCAL_FLOW_ID.
Proof. rewrite MAX_LOCAL_FLOW_ID_eq. destruct w; [done|]. unfold MAX_R3_LOCAL_ID, R3.FIDS_PER_OWNER. lia. Qed.

Lemma alloc_wire_id_ok ids w : ids_ok ids ->
  fi_next ids < match w with Rev2 => MAX_LOCAL_FLOW_ID | Rev3 => MAX_R3_LOCAL_ID end ->
  alloc_wire_id ids w = (Some (next_wire_id ids), mkFlowIds (fi_next ids + 1) (fi_server_owned ids)).
Proof.
  intros Hi Hn. unfold alloc_wire_id. rewrite alloc_spec by eauto using alloc_limit. destruct w; [done|].
  by destruct (fid_for_next ids Hi Hn) as [fid ->].
Qed.

(** The world after a new flow of [session] to [target] was installed at [l]. *)
Definition opened (l : Arc) (session : Z) (target : TargetAddr) (s : World) : World :=
  let b := FlowBinding_new (next_wire_id (w_ids s)) session target in
  mkWorld (<[l := b]> (w_heap s)) (mkFlowIds (fi_next (w_ids s) + 1) (fi_server_owned (w_ids s)))
    (install l b (w_reg s)).

Lemma opened_ok l session target s : world_ok s -> w_heap s !! l = None ->
  fi_next (w_ids s) < MAX_LOCAL_FLOW_ID -> map_len (r_map (w_reg s)) < r_cap (w_reg s) ->
  world_ok (opened l session target s).
Proof.
  intros (Hinv & Hids & Hown) Hl Hn Hr. unfold world_ok, opened. cbn [w_heap w_ids w_reg].
  set (b := FlowBinding_new _ session target).
  assert (Hinv' : reg_inv (<[l:=b]> (w_heap s)) (w_reg s)) by (eapply reg_inv_le; [done | by apply heap_le_insert]).
  split_and!.
  - apply install_inv; try done; [apply Hinv' | by apply own_ids_fresh | apply lookup_insert_eq].
  - unfold ids_ok in *. cbn. lia.
  - intros id l' Hm Ho. cbn in *. apply lookup_insert_Some in Hm as [[<- <-]|[_ Hm]].
    + destruct (next_wire_id_parts (w_ids s) Hids Hn) as (_ & -> & _). lia.
    + pose proof (Hown _ _ Hm Ho). lia.
Qed.

Lemma insert_new_for_spec w session target s : world_ok s ->
  insert_new_for w session target s =
    if no_room w s then (Err Full, s) else
    let l := fresh (dom (w_heap s)) in (Ok l, opened l session target s).
Proof.
  intros (Hinv & Hids & Hown). destruct s as [h ids r]. unfold insert_new_for, no_room. cbn [w_heap w_ids w_reg] in *.
  destruct (map_len (r_map r) >=? r_cap r) eqn:Ecap; cbn [orb]; [done|].
  destruct (fi_next ids >=? match w with Rev2 => MAX_LOCAL_FLOW_ID | Rev3 => MAX_R3_LOCAL_ID end) eqn:E.
  - destruct w; [|by unfold FlowIds_allocated; rewrite E]. unfold alloc_wire_id. by rewrite alloc_exhausted by (zbool; lia).
  - replace (match w with Rev2 => false | Rev3 => _ end) with false by by destruct w.
    rewrite alloc_wire_id_ok by (done || zbool; lia). cbn. rewrite own_ids_fresh; try done; [by rewrite lookup_total_insert_eq|].
    apply (alloc_limit ids w). zbool. lia.
Qed.

(* ------------------------------------------------------------------ *)
(** ** Sequences of operations *)

Inductive RegOp : Type :=
| OpPeerOpen (wire_id session : Z) (target : TargetAddr)   (** the peer's OPEN: [new_shared], [insert] *)
| OpNew (session : Z) (target : TargetAddr)
| OpClose (wire_id : Z)
| OpSessClose (session : Z)
| OpReap (sessions : list Z)
| OpClear
| OpUse (p : Call) (l : Arc).                              (** an operation of a shared binding *)

Definition call_any (c : Call) (l : Arc) (h : Heap) : Heap := alter (fun b => (solo (body c) b).2) l h.

Definition do_reg_op (w : Wire) (op : RegOp) (s : World) : World :=
  let 'mkWorld h ids r := s in
  match op with
  | OpPeerOpen wire_id session target =>
      let '(l, h) := new_shared wire_id session target h in mkWorld h ids (registry_insert h l r).2
  | OpNew session target => (insert_new_for w session target s).2
  | OpClose wire_id => mkWorld h ids (registry_remove h wire_id r).2
  | OpSessClose session => let '(_, h, r) := remove_session session h r in mkWorld h ids r
  | OpReap sessions => let '(_, h, r) := remove_sessions sessions h r in mkWorld h ids r
  | OpClear => mkWorld h ids (registry_clear r).2
  | OpUse c l => mkWorld (call_any c l h) ids r
  end.

Definition run_reg (w : Wire) (ops : list RegOp) (s : World) : World := foldl (fun s op => do_reg_op w op s) s ops.

(** The peer opens only ids of its own side: both receivers check the owner
    before they install a binding (the client's [dispatcher.rs], the server's
    [accept.rs]). *)
Definition op_owner_ok (own : bool) (op : RegOp) : Prop :=
  match op with OpPeerOpen id _ _ => wire_id_server_owned id <> own | _ => True end.

(** A binding operation keeps the identity of the binding and its close. *)
Lemma call_any_le c l h : heap_le h (call_any c l h).
Proof.
  intros l' b Hb. unfold call_any. destruct (decide (l' = l)) as [-> | Hne].
  - exists (solo (body c) b).2. rewrite lookup_alter_eq, Hb. split; [done|].
    destruct c; cbn [body]; rewrite ?take_context_slot_solo; cbn; repeat (case_match; cbn); zbool; cbn in *; naive_solver lia.
  - exists b. by rewrite lookup_alter_ne.
Qed.

(** What a property of the registry needs so that every operation under the
    map's lock keeps it. *)
Class RegStable (J : Heap -> FlowRegistry -> Prop) : Prop := {
  rs_core : forall h r, J h r -> reg_core h r;
  rs_le : forall h h' r, J h r -> heap_le h h' -> J h' r;
  rs_install : forall h r l b, J h r -> r_map r !! fb_wire_id b = None -> map_len (r_map r) < r_cap r ->
    h !! l = Some b -> J h (install l b r);
  rs_remove : forall h r id l b, J h r -> r_map r !! id = Some l -> h !! l = Some b ->
    J h (unindex_binding b (with_map (delete id (r_map r)) r));
  rs_clear : forall h r, J h r -> J h (registry_clear r).2
}.

Lemma registry_clear_core h r : reg_core h r -> reg_core h (registry_clear r).2.
Proof.
  intros Hc. pose proof (rc_cap _ _ Hc). split; cbn; [intros id l; by rewrite lookup_empty | | done].
  unfold map_len in *. rewrite map_size_empty. lia.
Qed.

Lemma registry_clear_registered h r s id : ~ registered h (registry_clear r).2 s id.
Proof. intros (l & b & Hm & _). cbn in Hm. by rewrite lookup_empty in Hm. Qed.

#[export] Instance reg_inv_stable : RegStable reg_inv.
Proof.
  split.
  - intros h r Hi. apply Hi.
  - apply reg_inv_le.
  - intros h r l b Hi Hm Hr Hl. apply install_inv; try done. apply Hi.
  - intros h r id l b Hi Hm Hl. by eapply remove_inv; [apply Hi|..].
  - intros h r Hi. split; [apply registry_clear_core, Hi | |].
    + intros s ids. cbn. by rewrite lookup_empty.
    + intros s id. split; [|by intros ?%registry_clear_registered]. intros (ids & Hs & _). cbn in Hs. by rewrite lookup_empty in Hs.
Qed.

#[export] Instance covers_stable pend : RegStable (fun h r => reg_core h r /\ covers pend h r).
Proof.
  split.
  - by intros h r [? _].
  - intros h h' r [Hc Hv] Hle. split; [by eapply reg_core_le | by eapply covers_le].
  - intros h r l b [Hc Hv] Hm Hr Hl. split; [by apply install_core | by apply install_covers].
  - intros h r id l b [Hc Hv] Hm Hl. split; [by eapply remove_core | by eapply remove_covers].
  - intros h r [Hc _]. split; [by apply registry_clear_core | by intros s id ?%registry_clear_registered].
Qed.

Section Stable.
Context (J : Heap -> FlowRegistry -> Prop) {RS : RegStable J}.

Lemma registry_insert_stable h l b r : J h r -> h !! l = Some b -> J h (registry_insert h l r).2.
Proof.
  intros Hi Hb. unfold registry_insert. rewrite (lookup_total_some _ _ _ Hb).
  destruct (r_map r !! fb_wire_id b) as [l0|] eqn:Hm; [by case_match|].
  destruct (map_len (r_map r) >=? r_cap r) eqn:E; [done|]. apply rs_install; try done. zbool. lia.
Qed.

Lemma registry_remove_stable h id r : J h r -> J h (registry_remove h id r).2.
Proof.
  intros Hi. unfold registry_remove. destruct (r_map r !! id) as [l|] eqn:Hm; [|done].
  destruct (rc_live _ _ (rs_core _ _ Hi) _ _ Hm) as (b & Hb & _). rewrite (lookup_total_some _ _ _ Hb).
  by eapply rs_remove.
Qed.

Lemma insert_new_for_stable w session target s : J (w_heap s) (w_reg s) ->
  let s' := (insert_new_for w session target s).2 in J (w_heap s') (w_reg s').
Proof.
  destruct s as [h ids r]. cbn [w_heap w_reg]. intros Hi. unfold insert_new_for.
  destruct (map_len (r_map r) >=? r_cap r) eqn:E; [done|]. case_match; [done|].
  destruct (alloc_wire_id ids w) as [[id|] ids'] eqn:Ea; [|done].
  destruct (new_shared id session target h) as [l h'] eqn:En. apply new_shared_fresh in En as [Hl ->].
  assert (Hi' : J (<[l:=FlowBinding_new id session target]> h) r).
  { eapply rs_le; [done | by apply heap_le_insert]. }
  destruct (r_map r !! id) as [x|] eqn:Em; cbn [snd w_heap w_reg]; [done|]. rewrite lookup_total_insert_eq.
  apply rs_install; try done; [zbool; lia | apply lookup_insert_eq].
Qed.

(** The operations that run under the map's lock from end to end. *)
Definition one_section (op : RegOp) : bool := match op with OpSessClose _ | OpReap _ => false | _ => true end.

Lemma do_reg_op_stable w op s : one_section op = true -> J (w_heap s) (w_reg s) ->
  let s' := do_reg_op w op s in J (w_heap s') (w_reg s').
Proof.
  intros Hop Hi. destruct s as [h ids r]. cbn [w_heap w_reg] in *.
  destruct op as [id session target|session target|id|session|sessions| |c l]; cbn [do_reg_op]; try done.
  - destruct (new_shared id session target h) as [l h'] eqn:E. apply new_shared_fresh in E as [Hl ->].
    eapply registry_insert_stable; [eapply rs_le; [done | by apply heap_le_insert] | apply lookup_insert_eq].
  - by apply insert_new_for_stable.
  - by apply registry_remove_stable.
  - by apply rs_clear.
  - eapply rs_le; [done | apply call_any_le].
Qed.
End Stable.

Lemma remove_each_inv ss : forall h r n h' r', reg_inv h r -> remove_each ss h r = (n, h', r') ->
  reg_inv h' r' /\ r_map r' ⊆ r_map r.
Proof.
  induction ss as [|s ss IH]; intros h r n h' r' Hi He; cbn [remove_each] in He; [by simplify_eq|].
  destruct (remove_session_spec s h r Hi) as (n1 & h1 & r1 & ids & Hrs & Hi1 & _ & P & _). rewrite Hrs in He.
  destruct (remove_each ss h1 r1) as [[m h2] r2] eqn:E. simplify_eq. destruct (IH _ _ _ _ _ Hi1 E) as [Hi2 Hs2].
  split; [done|]. etrans; [exact Hs2|]. apply map_subseteq_spec. intros id l.
  rewrite (pg_map _ _ _ _ _ _ P). by case_decide.
Qed.

Lemma own_ids_sub ids r r' : own_ids ids r -> r_map r' ⊆ r_map r -> own_ids ids r'.
Proof. intros Ho Hs id l Hm. eapply Ho. by eapply lookup_weaken. Qed.

Lemma registry_insert_map h l r id l' : r_map (registry_insert h l r).2 !! id = Some l' ->
  r_map r !! id = Some l' \/ id = fb_wire_id (h !!! l).
Proof.
  unfold registry_insert. repeat case_match; cbn; try (by left).
  intros [[<- _]|[_ ?]]%lookup_insert_Some; [by right | by left].
Qed.

Lemma registry_remove_map h id r : r_map (registry_remove h id r).2 ⊆ r_map r.
Proof. unfold registry_remove. case_match; cbn; [apply delete_subseteq | done]. Qed.

Lemma insert_new_for_ok w session target s : world_ok s -> world_ok (insert_new_for w session target s).2.
Proof.
  intros Hok. rewrite insert_new_for_spec by done. destruct (no_room w s) eqn:E; [done|].
  unfold no_room in E. apply orb_false_iff in E as [E1 E2]. zbool.
  apply opened_ok; [done | apply not_elem_of_dom, is_fresh | | lia]. apply (alloc_limit _ w). lia.
Qed.

Lemma do_reg_op_inv w op s : reg_inv (w_heap s) (w_reg s) ->
  let s' := do_reg_op w op s in reg_inv (w_heap s') (w_reg s').
Proof.
  intros Hi. destruct (one_section op) eqn:Hop; [by apply (do_reg_op_stable reg_inv)|].
  destruct s as [h ids r]. cbn [w_heap w_reg] in *. destruct op as [| | |session|sessions| |]; try done; cbn [do_reg_op].
  - by destruct (remove_session_spec session h r Hi) as (n & h' & r' & xs & -> & Hi' & _).
  - rewrite remove_sessions_each_eq. destruct (remove_each sessions h r) as [[n h'] r'] eqn:E.
    by destruct (remove_each_inv _ _ _ _ _ _ Hi E).
Qed.

Lemma do_reg_op_own w op s : world_ok s -> op_owner_ok (fi_server_owned (w_ids s)) op -> world_ok (do_reg_op w op s).
Proof.
  intros Hok Hop. pose proof Hok as (Hi & Hids & Ho). pose proof (do_reg_op_inv w op s Hi) as Hi'.
  destruct s as [h ids r]. cbn [w_heap w_ids w_reg] in *.
  destruct op as [id session target|session target|id|session|sessions| |c l]; cbn [do_reg_op op_owner_ok] in *;
    [|by apply insert_new_for_ok|..].
  - destruct (new_shared id session target h) as [l h'] eqn:E. apply new_shared_fresh in E as [Hl ->].
    split_and!; [done..|]. intros id' l' [Hm| ->]%registry_insert_map Hown; [by eapply Ho|].
    by rewrite lookup_total_insert_eq in Hown.
  - split_and!; [done..|]. by eapply own_ids_sub, registry_remove_map.
  - destruct (remove_session_spec session h r Hi) as (n & h' & r' & xs & E & _ & _ & P & _). rewrite E in *.
    split_and!; [done..|]. eapply own_ids_sub; [done|].
    apply map_subseteq_spec. intros id l. cbn. rewrite (pg_map _ _ _ _ _ _ P). by case_decide.
  - rewrite remove_sessions_each_eq in *. destruct (remove_each sessions h r) as [[n h'] r'] eqn:E.
    destruct (remove_each_inv _ _ _ _ _ _ Hi E) as [_ Hs]. split_and!; [done..|]. by eapply own_ids_sub.
  - split_and!; [done..|]. intros id l. cbn. by rewrite lookup_empty.
  - by split_and!.
Qed.

Lemma do_reg_op_owner w op s : fi_server_owned (w_ids (do_reg_op w op s)) = fi_server_owned (w_ids s).
Proof.
  destruct s as [h ids r]. destruct op; cbn [do_reg_op w_ids]; try done.
  - unfold insert_new_for, alloc_wire_id, FlowIds_alloc. by repeat case_match; simplify_eq.
  - by repeat case_match.
  - by repeat case_match.
Qed.

Lemma run_reg_ok w ops : forall s, world_ok s -> Forall (op_owner_ok (fi_server_owned (w_ids s))) ops ->
  world_ok (run_reg w ops s).
Proof.
  induction ops as [|op ops IH]; intros s Hok Hops; [done|]. apply list.Forall_cons in Hops as [Hop Hops].
  cbn. apply IH; [by apply do_reg_op_own|]. by rewrite do_reg_op_owner.
Qed.

Lemma new_world_ok cap own : 0 <= cap <= usize_max ->
  world_ok (mkWorld ∅ (FlowIds_new own) (FlowRegistry_new cap)).
Proof.
  intros Hc. split_and!; cbn [w_heap w_ids w_reg].
  - by apply new_reg_inv.
  - unfold ids_ok. rewrite MAX_LOCAL_FLOW_ID_eq. cbn. lia.
  - intros id l. cbn. by rewrite lookup_empty.
Qed.

Lemma run_reg_inv w ops : forall s, reg_inv (w_heap s) (w_reg s) ->
  reg_inv (w_heap (run_reg w ops s)) (w_reg (run_reg w ops s)).
Proof. induction ops as [|op ops IH]; intros s Hi; [done|]. by apply IH, do_reg_op_inv. Qed.

(** the registry's indexes never drift.  After any sequence of opens by
    the peer, new flows, closes, session teardowns, batch reaps, clears and
    uses of shared bindings: the map is within its cap and every entry is a
    binding with that very id; the index of a session lists, without
    duplicates, exactly the live bindings of that session and no session has
    an empty list; and the counter is the number of live server-owned
    bindings, so that the lookup of a server flow finds one exactly when there
    is one. *)
Theorem registry_indexes_exact w cap own ops : 0 <= cap <= usize_max ->
  let s := run_reg w ops (mkWorld ∅ (FlowIds_new own) (FlowRegistry_new cap)) in
  let h := w_heap s in let r := w_reg s in
  registry_len r <= r_cap r /\
  (forall id l, registry_get id r = Some l -> exists b, h !! l = Some b /\ fb_wire_id b = id) /\
  (forall sess ids, r_by_session r !! sess = Some ids -> ids <> [] /\ NoDup ids /\
     forall id, id ∈ ids <-> registered h r sess id) /\
  (forall sess id, registered h r sess id -> exists ids, r_by_session r !! sess = Some ids /\ id ∈ ids) /\
  r_server_flow_count r = server_count (r_map r) /\
  (forall sess addr, is_Some (find_server_flow h sess addr r) <->
     exists id l, registry_get id r = Some l /\ wire_id_server_owned id = true /\
       fb_session (h !!! l) = sess /\ fb_target (h !!! l) = addr).
Proof.
  intros Hcap s h r.
  assert (Hi : reg_inv h r) by apply run_reg_inv, new_reg_inv, Hcap. pose proof (ri_core _ _ Hi) as Hc. split_and!.
  - apply Hc.
  - apply Hc.
  - intros sess ids Hs. destruct (ri_lists _ _ Hi _ _ Hs). split_and!; try done.
    intros id. rewrite <- (ri_index _ _ Hi). unfold indexed. naive_solver.
  - intros sess id Hr. by apply (ri_index _ _ Hi).
  - apply Hc.
  - intros sess addr. by apply find_server_flow_spec.
Qed.

Definition demo_ops : list RegOp :=
  [OpPeerOpen 2 7 (AddrDomain [] 53); OpNew 9 (AddrDomain [] 80); OpNew 7 (AddrDomain [] 81); OpUse MarkOpen 1%positive;
   OpSessClose 7; OpPeerOpen 4 9 (AddrDomain [] 54)].

Lemma registry_indexes_exact_witness :
  let s := run_reg Rev3 demo_ops (mkWorld ∅ (FlowIds_new true) (FlowRegistry_new 4096)) in
  registry_len (w_reg s) <= r_cap (w_reg s) /\ r_by_session (w_reg s) !! 9 = Some [3; 4] /\
  r_server_flow_count (w_reg s) = 1.
Proof.
  split; [|by vm_compute]. apply (registry_indexes_exact Rev3 4096 true demo_ops). unfold usize_max. lia.
Defined.

(** A new flow takes an id only when it is installed.  In every state the
    connection can reach, opening a flow is refused exactly when the table is
    full or the id space (on rev3, the flow-id space) is used up, and then
    nothing changes, no id is consumed; otherwise it succeeds with the next
    id of its own side, which no live binding has and which is not handed out
    again, as a fresh opening binding that the registry finds under that id;
    on rev3 the id has a flow id on the wire. *)
Theorem registry_new_flow w cap own ops sess target : 0 <= cap <= usize_max -> Forall (op_owner_ok own) ops ->
  let s := run_reg w ops (mkWorld ∅ (FlowIds_new own) (FlowRegistry_new cap)) in
  let id := next_wire_id (w_ids s) in
  if no_room w s then insert_new_for w sess target s = (Err Full, s) else
  exists l s', insert_new_for w sess target s = (Ok l, s') /\
    w_heap s !! l = None /\ registry_get id (w_reg s) = None /\
    w_heap s' = <[l := FlowBinding_new id sess target]> (w_heap s) /\
    (forall id', registry_get id' (w_reg s') = if decide (id' = id) then Some l else registry_get id' (w_reg s)) /\
    id < next_wire_id (w_ids s') /\ wire_id_server_owned id = fi_server_owned (w_ids s) /\
    (w = Rev3 -> is_Some (fid_for id)).
Proof.
  intros Hcap Hops s id. assert (Hok : world_ok s) by (apply run_reg_ok; [by apply new_world_ok | done]).
  rewrite insert_new_for_spec by done. destruct (no_room w s) eqn:E; [done|].
  unfold no_room in E. apply orb_false_iff in E as [E1 E2]. zbool.
  assert (Hn : fi_next (w_ids s) < MAX_LOCAL_FLOW_ID) by (apply (alloc_limit _ w); lia).
  destruct Hok as (Hi & Hids & Ho). destruct (next_wire_id_parts _ Hids Hn) as (_ & _ & Hown).
  eexists _, _. split; [reflexivity|]. split_and!.
  - apply not_elem_of_dom, is_fresh.
  - by apply own_ids_fresh.
  - done.
  - intros id'. unfold registry_get. cbn. case_decide as Hd; [by rewrite Hd, lookup_insert_eq | by rewrite lookup_insert_ne].
  - unfold id, next_wire_id. cbn. lia.
  - done.
  - intros ->. apply fid_for_next; [done | lia].
Qed.

Lemma registry_new_flow_witness :
  let s := run_reg Rev3 demo_ops (mkWorld ∅ (FlowIds_new true) (FlowRegistry_new 4096)) in
  no_room Rev3 s = false /\
  exists l s', insert_new_for Rev3 9 (AddrDomain [] 90) s = (Ok l, s') /\ registry_get 7 (w_reg s') = Some l.
Proof.
  split; [by vm_compute|].
  pose proof (registry_new_flow Rev3 4096 true demo_ops 9 (AddrDomain [] 90)) as H. cbv zeta in H.
  replace (no_room Rev3 _) with false in H by by vm_compute.
  destruct H as (l & s' & H1 & _ & _ & _ & H2 & _).
  - unfold usize_max. lia.
  - repeat constructor; by vm_compute.
  - exists l, s'. split; [exact H1|]. rewrite H2. by replace (next_wire_id _) with 7 by by vm_compute.
Defined.

(* ------------------------------------------------------------------ *)
(** ** Teardown through the shared bindings *)

Lemma binding_state_closed b : fb_state b = CLOSED -> binding_state b = Closed.
Proof. unfold binding_state. by intros ->. Qed.

Lemma reclaimable_room h t e : e ∈ entries t -> reclaimable h e = true ->
  is_full h t = false /\ forall l, (SessionFlows_insert h l t).1 = true.
Proof.
  intros Hin Hr. split.
  - unfold is_full. apply negb_false_iff, existsb_exists. exists e. by rewrite <- list_elem_of_In.
  - intros l. unfold SessionFlows_insert. case_match; [done|].
    destruct (list_find (fun e => reclaimable h e = true) (entries t)) as [[i x]|] eqn:E; [done|].
    apply list_find_None in E. rewrite list.Forall_forall in E. by destruct (E e Hin).
Qed.

(** A session teardown is seen by the sender's tables.  Tearing a session
    down removes from the registry exactly the bindings of that session and
    returns their number; every one of them is closed and no other binding is
    touched; so in any table of the sender that still holds one of them the
    slot counts as free again, the table is not full and takes a new flow. *)
Theorem session_teardown h r sess t : reg_inv h r -> exists n h' r',
  remove_session sess h r = (n, h', r') /\ reg_inv h' r' /\
  (forall id l, registry_get id r' = Some l <-> registry_get id r = Some l /\ fb_session (h !!! l) <> sess) /\
  n = registry_len r - registry_len r' /\
  (forall id l, registry_get id r = Some l ->
     if decide (fb_session (h !!! l) = sess) then fb_state (h' !!! l) = CLOSED else h' !! l = h !! l) /\
  (forall id l, registry_get id r = Some l -> fb_session (h !!! l) = sess -> Some l ∈ entries t ->
     is_full h' t = false /\ forall l', (SessionFlows_insert h' l' t).1 = true).
Proof.
  intros Hi. destruct (remove_session_spec sess h r Hi) as (n & h' & r' & ids & E & Hi' & Hle & P & Hids).
  assert (Hin : forall id l, r_map r !! id = Some l -> (id ∈ ids <-> fb_session (h !!! l) = sess)).
  { intros id l Hm. rewrite Hids. destruct (rc_live _ _ (ri_core _ _ Hi) _ _ Hm) as (b & Hb & _).
    rewrite (lookup_total_some _ _ _ Hb). unfold registered. naive_solver. }
  assert (Hcl : forall id l, r_map r !! id = Some l -> fb_session (h !!! l) = sess -> fb_state (h' !!! l) = CLOSED).
  { intros id l Hm Hs. apply (pg_closed _ _ _ _ _ _ P id l); [by eapply Hin | done]. }
  exists n, h', r'. unfold registry_get, registry_len. split_and!; try done.
  - intros id l. rewrite (pg_map _ _ _ _ _ _ P). cbn. case_decide as Hd; split; intros H; try done.
    + destruct H as [Hm Hs]. by apply (Hin _ _ Hm) in Hd.
    + split; [done|]. by rewrite <- (Hin _ _ H).
    + by destruct H.
  - by rewrite (pg_removed _ _ _ _ _ _ P).
  - intros id l Hm. case_decide as Hd; [by eapply Hcl|]. apply (pg_kept _ _ _ _ _ _ P). cbn.
    intros id' Hid' Hm'. by apply (Hin _ _ Hm') in Hid'.
  - intros id l Hm Hs He. apply (reclaimable_room h' t (Some l) He). cbn. apply bool_decide_eq_true_2, binding_state_closed.
    by eapply Hcl.
Qed.

Lemma session_teardown_witness :
  let s := run_reg Rev3 [OpNew 7 (AddrDomain [] 80)] (mkWorld ∅ (FlowIds_new false) (FlowRegistry_new 4096)) in
  let t := mkSessionFlows (replicate 64 (Some 1%positive)) in
  is_full (w_heap s) t = true /\
  exists n h' r', remove_session 7 (w_heap s) (w_reg s) = (n, h', r') /\ is_full h' t = false.
Proof.
  intros s t. split; [by vm_compute|]. assert (Hi : reg_inv (w_heap s) (w_reg s)).
  { apply run_reg_inv, new_reg_inv. unfold usize_max. lia. }
  destruct (session_teardown (w_heap s) (w_reg s) 7 t Hi) as (n & h' & r' & H1 & _ & _ & _ & _ & H2).
  exists n, h', r'. split; [done|]. apply (H2 2 1%positive); [by vm_compute.. |]. apply list_elem_of_here.
Defined.

(* ------------------------------------------------------------------ *)
(** ** Interleaved critical sections

    The map and the index have locks of their own.  [insert], [insert_new_for],
    [remove] and [clear] hold the map's lock throughout and take the index's
    inside it; a session purge first takes the ids out of the index, releases
    that lock, and only then locks the map.  Between the two anything else may
    run. *)

Record Sys : Type := mkSys { y_world : World; y_purges : list (list Z) }.

Inductive sys_step (w : Wire) : Sys -> Sys -> Prop :=
| sys_op op s ps : one_section op = true ->
    sys_step w (mkSys s ps) (mkSys (do_reg_op w op s) ps)
| sys_purge_begin sessions ixs h ids r r' ps : take_indexes sessions r = (ixs, r') ->
    sys_step w (mkSys (mkWorld h ids r) ps) (mkSys (mkWorld h ids r') (concat ixs :: ps))
| sys_purge_end xs n h h' ids r r' p1 p2 : purge xs 0 h r = (n, h', r') ->
    sys_step w (mkSys (mkWorld h ids r) (p1 ++ xs :: p2)) (mkSys (mkWorld h' ids r') (p1 ++ p2)).

(** The loops of a batch are the loop over all its ids. *)
Lemma purge_app xs ys : forall k h r,
  purge (xs ++ ys) k h r = let '(n, h, r) := purge xs k h r in purge ys n h r.
Proof. induction xs as [|x xs IH]; intros k h r; cbn [app purge]; [done|]. by case_match. Qed.

Lemma purge_all_concat ixs : forall k h r, purge_all ixs k h r = purge (concat ixs) k h r.
Proof.
  induction ixs as [|ids ixs IH]; intros k h r; cbn [purge_all concat]; [done|].
  rewrite purge_app. destruct (purge ids k h r) as [[n h1] r1]. apply IH.
Qed.

Definition sys_ok (y : Sys) : Prop :=
  reg_core (w_heap (y_world y)) (w_reg (y_world y)) /\
  covers (concat (y_purges y)) (w_heap (y_world y)) (w_reg (y_world y)).

Lemma take_index_covers s h r pend : covers pend h r ->
  covers (default [] (r_by_session r !! s) ++ pend) h (take_index s r).2.
Proof.
  intros Hv s' id Hr. destruct (Hv s' id) as [(ids & Hs & Hin)|Hin]; [done | |right; set_solver].
  destruct (decide (s' = s)) as [-> | Hne].
  - right. rewrite Hs. cbn. set_solver.
  - left. exists ids. cbn. by rewrite lookup_delete_ne.
Qed.

Lemma take_indexes_covers ss : forall h r ixs r' pend, take_indexes ss r = (ixs, r') ->
  reg_core h r -> covers pend h r -> reg_core h r' /\ covers (concat ixs ++ pend) h r'.
Proof.
  induction ss as [|s ss IH]; intros h r ixs r' pend E Hc Hv; cbn [take_indexes] in E; [by simplify_eq|].
  destruct (take_index s r) as [ids r1] eqn:E1. destruct (take_indexes ss r1) as [rest r2] eqn:E2. injection E as <- <-.
  pose proof (take_index_covers s h r pend Hv) as Hv1. rewrite E1 in Hv1. injection E1 as <- <-.
  destruct (IH _ _ _ _ _ E2 (take_index_core s h r _ _ Hc eq_refl) Hv1) as [Hc2 Hv2]. split; [done|].
  eapply covers_mono; [exact Hv2|]. destruct (r_by_session r !! s); cbn; set_solver.
Qed.

Lemma purged_covers xs n h r h' r' pend pend' : reg_core h r -> purged xs h r n h' r' ->
  covers pend h r -> pend ⊆ xs ++ pend' -> covers pend' h' r'.
Proof.
  intros Hc P Hv Hs s id [Hr Hni]%(purged_registered _ _ _ _ _ _ s id Hc P).
  destruct (Hv _ _ Hr) as [(ids & Hi & Hin)|Hin].
  - left. exists ids. by rewrite (pg_index _ _ _ _ _ _ P).
  - right. apply Hs in Hin. set_solver.
Qed.

Lemma sys_step_ok w y y' : sys_step w y y' -> sys_ok y -> sys_ok y'.
Proof.
  intros [op s ps Hop|ss ixs h ids r r' ps E|xs n h h' ids r r' p1 p2 E] [Hc Hv]; cbn [y_world y_purges w_heap w_reg] in *.
  - by apply (do_reg_op_stable (fun h r => reg_core h r /\ covers (concat ps) h r)).
  - destruct (take_indexes_covers _ _ _ _ _ _ E Hc Hv). by split.
  - destruct (purge_spec xs 0 h r Hc) as (n' & h1 & r1 & E' & P). rewrite E in E'. injection E' as -> -> ->.
    split; [apply P|]. eapply purged_covers; [done | done | exact Hv |]. rewrite !concat_app. cbn. set_solver.
Qed.

Lemma sys_run_ok w y y' : rtc (sys_step w) y y' -> sys_ok y -> sys_ok y'.
Proof. induction 1 as [|y1 y2 y3 Hs _ IH]; [done|]. intros H. by apply IH, (sys_step_ok w y1). Qed.

(** C35: races with a session purge lose no binding.  However the critical
    sections of opens, closes, clears and purges of several tasks interleave,
    the map stays within its cap, every entry is a binding with that id and
    the counter of server-owned bindings is exact; and every live binding is
    listed under its session or held by a purge that will remove it.  So once
    the purges in flight are done, one more purge of a session leaves no
    binding of it. *)
Theorem registry_races w cap own y : 0 <= cap <= usize_max ->
  rtc (sys_step w) (mkSys (mkWorld ∅ (FlowIds_new own) (FlowRegistry_new cap)) []) y ->
  let h := w_heap (y_world y) in let r := w_reg (y_world y) in
  reg_core h r /\
  (forall s id, registered h r s id -> indexed r s id \/ exists xs, xs ∈ y_purges y /\ id ∈ xs) /\
  (y_purges y = [] -> forall s n h' r', remove_session s h r = (n, h', r') ->
     forall id, ~ registered h' r' s id).
Proof.
  intros Hcap Hr h r. assert (Hok : sys_ok y).
  { eapply sys_run_ok; [exact Hr|]. pose proof (new_reg_inv cap Hcap) as Hi. split; [apply Hi|].
    intros s id Hx. left. by apply (ri_index _ _ Hi). }
  destruct Hok as [Hc Hv]. split_and!; [done | |].
  - intros s id Hx. destruct (Hv s id Hx) as [|Hin]; [by left|]. right.
    rewrite list_elem_of_In in Hin. apply in_concat in Hin as (xs & ? & ?). exists xs. by rewrite !list_elem_of_In.
  - intros Hp s n h' r' E id. rewrite Hp in Hv. fold h r in Hc, Hv.
    pose proof (take_index_core s h r _ _ Hc eq_refl) as Hc1. pose proof (take_index_covers s h r [] Hv) as Hv1.
    unfold remove_session in E. cbn [take_index fst snd] in *. set (r1 := mkFlowRegistry _ _ _ _) in *. rewrite app_nil_r in Hv1.
    assert (Hidx : ~ indexed r1 s id) by (intros (ids & Hs & _); cbn in Hs; by rewrite lookup_delete_eq in Hs).
    destruct (r_by_session r !! s) as [ids|] eqn:Es.
    + destruct (purge_spec ids 0 h r1 Hc1) as (n' & h1 & r2 & E' & P). rewrite E in E'. injection E' as -> -> ->.
      intros [Hx Hni]%(purged_registered _ _ _ _ _ _ s id Hc1 P). by destruct (Hv1 s id Hx).
    + injection E as <- <- <-. intros Hx. destruct (Hv1 s id Hx) as [|Hin]; [done|]. by apply not_elem_of_nil in Hin.
Qed.

(** An open that slips between the two sections of a purge survives it and is
    still listed. *)
Lemma registry_races_witness : exists y,
  rtc (sys_step Rev2) (mkSys (mkWorld ∅ (FlowIds_new true) (FlowRegistry_new 4096)) []) y /\
  y_purges y = [] /\ registry_get 2 (w_reg (y_world y)) = None /\
  is_Some (registry_get 4 (w_reg (y_world y))) /\
  forall n h' r', remove_session 7 (w_heap (y_world y)) (w_reg (y_world y)) = (n, h', r') ->
    ~ registered h' r' 7 4.
Proof.
  assert (Hr : exists y, rtc (sys_step Rev2) (mkSys (mkWorld ∅ (FlowIds_new true) (FlowRegistry_new 4096)) []) y /\
    y_purges y = [] /\ registry_get 2 (w_reg (y_world y)) = None /\ is_Some (registry_get 4 (w_reg (y_world y)))).
  { eexists. split.
    - eapply rtc_l; [by apply (sys_op Rev2 (OpPeerOpen 2 7 (AddrDomain [] 53)))|].
      eapply rtc_l; [by eapply (sys_purge_begin Rev2 [7])|].
      eapply rtc_l; [by apply (sys_op Rev2 (OpPeerOpen 4 7 (AddrDomain [] 54)))|].
      eapply rtc_l; [by eapply (sys_purge_end Rev2 _ _ _ _ _ _ _ [] [])|]. apply rtc_refl.
    - split; [done|]. split; [by vm_compute|]. vm_compute. by eexists. }
  destruct Hr as (y & Hr & Hp & H2 & H4). exists y. split_and!; try done.
  destruct (registry_races Rev2 4096 true y ltac:(unfold usize_max; lia) Hr) as (_ & _ & Hpurge).
  intros n h' r' E. by apply (Hpurge Hp 7 n h' r' E).
Defined.
