(* ===== verification/Stage.v ===== *)
(** The queue of the egress stager, [src/udp/r2_stage.rs]: the per-session
    FIFOs, the two round-robin cursors, the bounds, the teardown paths and the
    claim of the items of the next frames.

    The scratch vectors are cleared before each use and the drain gate is a
    lock; neither is part of the state.  A loop takes its number of turns as an
    argument and gives [Panic] when they run out, which the theorems exclude. *)
From stdpp Require Import fin_maps.
From S2P Require Import Prelude Addr R3 R2 Wire.

Definition R2_STAGE_MAX_ITEMS : Z := 1024.
Definition R2_STAGE_MAX_BYTES : Z := 256 * 1024.
Definition R2_PACK_BATCH_FRAMES : Z := 4.
Definition R2_PACK_BATCH_ITEMS : Z := 64.

Inductive R2StageKind : Type :=
| KSteady (wire_id : Z)
| KOpen (wire_id sess : Z) (addr : TargetAddr) (src : bool)
| KInline (sess : Z) (addr : TargetAddr) (src : bool).

#[export] Instance R2StageKind_eq_dec : EqDecision R2StageKind.
Proof. solve_decision. Defined.

Record R2StageItem : Type := mkR2StageItem {
  si_session : Z;
  si_kind : R2StageKind;
  si_payload : bytes
}.

#[export] Instance R2StageItem_eq_dec : EqDecision R2StageItem.
Proof. solve_decision. Defined.

(** [matches!(item.kind, R2StageKind::Steady { .. })]. *)
Definition is_steady (i : R2StageItem) : bool :=
  match si_kind i with KSteady _ => true | _ => false end.

Definition kind_flow (k : R2StageKind) : option Z :=
  match k with
  | KSteady wire_id | KOpen wire_id _ _ _ => Some wire_id
  | KInline _ _ _ => None
  end.

Definition item_ids (i : R2StageItem) : Z * option Z := (si_session i, kind_flow (si_kind i)).

Record R2Stager : Type := mkR2Stager {
  sg_wire : Wire;
  sg_sessions : gmap Z (list R2StageItem);
  sg_order : list Z;
  sg_steady_order : list Z;
  sg_steady_mark : gset Z;
  sg_queued_items : Z;
  sg_queued_bytes : Z;
  sg_max_items : Z;
  sg_max_bytes : Z;
  sg_max_train_items : Z
}.

(** The counters of [dgram_drops] that the stager books. *)
Record Drops : Type := mkDrops { dr_egress_dead : Z; dr_too_large : Z; dr_buffer_full : Z }.

Definition book_egress_dead (n : Z) (d : Drops) : Drops :=
  mkDrops (as_u64 (dr_egress_dead d + n)) (dr_too_large d) (dr_buffer_full d).
Definition book_too_large (n : Z) (d : Drops) : Drops :=
  mkDrops (dr_egress_dead d) (as_u64 (dr_too_large d + n)) (dr_buffer_full d).
Definition book_buffer_full (n : Z) (d : Drops) : Drops :=
  mkDrops (dr_egress_dead d) (dr_too_large d) (as_u64 (dr_buffer_full d + n)).

Definition with_capacity_wire (max_items max_bytes : Z) (w : Wire) : R2Stager :=
  mkR2Stager w ∅ [] [] ∅ 0 0 max_items max_bytes R2_MAX_TRAIN_ITEMS.
Definition R2Stager_new_with_wire (w : Wire) : R2Stager :=
  with_capacity_wire R2_STAGE_MAX_ITEMS R2_STAGE_MAX_BYTES w.
Definition R2Stager_new : R2Stager := R2Stager_new_with_wire Rev2.
Definition with_capacity (max_items max_bytes : Z) : R2Stager := with_capacity_wire max_items max_bytes Rev2.

Definition stager_len (st : R2Stager) : Z := sg_queued_items st.
Definition stager_is_empty (st : R2Stager) : bool := sg_queued_items st =? 0.
Definition has_session (session : Z) (st : R2Stager) : bool :=
  match sg_sessions st !! session with Some q => negb (bool_decide (q = [])) | None => false end.
Definition accepts (n : Z) (st : R2Stager) : bool :=
  (sg_queued_items st <? sg_max_items st) && (saturating_add (sg_queued_bytes st) n <=? sg_max_bytes st).

Definition stager_set_wire (w : Wire) (st : R2Stager) : R2Stager :=
  mkR2Stager w (sg_sessions st) (sg_order st) (sg_steady_order st) (sg_steady_mark st) (sg_queued_items st)
    (sg_queued_bytes st) (sg_max_items st) (sg_max_bytes st) (sg_max_train_items st).
Definition set_max_train_items (n : Z) (st : R2Stager) : R2Stager :=
  if 0 <? n then
    mkR2Stager (sg_wire st) (sg_sessions st) (sg_order st) (sg_steady_order st) (sg_steady_mark st)
      (sg_queued_items st) (sg_queued_bytes st) (sg_max_items st) (sg_max_bytes st) (Z.min n R2_MAX_TRAIN_ITEMS)
  else st.

(* ------------------------------------------------------------------ *)
(** ** Updates of one field *)

Definition with_sessions (m : gmap Z (list R2StageItem)) (st : R2Stager) : R2Stager :=
  mkR2Stager (sg_wire st) m (sg_order st) (sg_steady_order st) (sg_steady_mark st) (sg_queued_items st)
    (sg_queued_bytes st) (sg_max_items st) (sg_max_bytes st) (sg_max_train_items st).
Definition with_order (o : list Z) (st : R2Stager) : R2Stager :=
  mkR2Stager (sg_wire st) (sg_sessions st) o (sg_steady_order st) (sg_steady_mark st) (sg_queued_items st)
    (sg_queued_bytes st) (sg_max_items st) (sg_max_bytes st) (sg_max_train_items st).
Definition with_steady (o : list Z) (m : gset Z) (st : R2Stager) : R2Stager :=
  mkR2Stager (sg_wire st) (sg_sessions st) (sg_order st) o m (sg_queued_items st)
    (sg_queued_bytes st) (sg_max_items st) (sg_max_bytes st) (sg_max_train_items st).
Definition with_counts (n b : Z) (st : R2Stager) : R2Stager :=
  mkR2Stager (sg_wire st) (sg_sessions st) (sg_order st) (sg_steady_order st) (sg_steady_mark st) n b
    (sg_max_items st) (sg_max_bytes st) (sg_max_train_items st).

(* ------------------------------------------------------------------ *)
(** ** The steady cursor *)

(** [sessions.get(&session).and_then(|q| q.front())]. *)
Definition front (session : Z) (st : R2Stager) : option R2StageItem :=
  match sg_sessions st !! session with Some (i :: _) => Some i | _ => None end.

(** Whether the head of the session's queue is a steady item. *)
Definition steady_head (session : Z) (st : R2Stager) : bool :=
  match front session st with Some i => is_steady i | None => false end.

Definition add_steady_head (session : Z) (st : R2Stager) : R2Stager :=
  if steady_head session st && negb (bool_decide (session ∈ sg_steady_mark st))
  then with_steady (sg_steady_order st ++ [session]) ({[session]} ∪ sg_steady_mark st) st
  else st.

(** [v.retain(|s| *s != session)]. *)
Definition retain_not (session : Z) (l : list Z) : list Z := List.filter (fun s => negb (s =? session)) l.

Definition forget_steady (session : Z) (st : R2Stager) : R2Stager :=
  if bool_decide (session ∈ sg_steady_mark st)
  then with_steady (retain_not session (sg_steady_order st)) (sg_steady_mark st ∖ {[session]}) st
  else st.

Definition rotate_steady_past (session : Z) (st : R2Stager) : R2Stager :=
  if bool_decide (list.last (sg_steady_order st) = Some session) then st else
  match list_find (fun s => s = session) (sg_steady_order st) with
  | None => st
  | Some (pos, _) =>
      with_steady (drop (S pos) (sg_steady_order st) ++ take (S pos) (sg_steady_order st)) (sg_steady_mark st) st
  end.

(** The loop of [next_steady_session] over the cursor's entries. *)
Fixpoint next_steady_go (o : list Z) (st : R2Stager) : option Z * R2Stager :=
  match o with
  | [] => (None, with_steady [] (sg_steady_mark st) st)
  | session :: o =>
      if steady_head session st then (Some session, with_steady (o ++ [session]) (sg_steady_mark st) st)
      else next_steady_go o (with_steady o (sg_steady_mark st ∖ {[session]}) st)
  end.

Definition next_steady_session (st : R2Stager) : option Z * R2Stager := next_steady_go (sg_steady_order st) st.

(** The loop of [next_session]; [n] turns left. *)
Fixpoint next_session_go (n : nat) (st : R2Stager) : option Z * R2Stager :=
  match n, sg_order st with
  | O, _ => (None, st)
  | S _, [] => (None, st)
  | S n, session :: o =>
      if has_session session st then (Some session, with_order (o ++ [session]) st)
      else next_session_go n (with_order o st)
  end.

Definition next_session (st : R2Stager) : option Z * R2Stager := next_session_go (length (sg_order st)) st.

(* ------------------------------------------------------------------ *)
(** ** Queueing *)

(** The bound both pushes check. *)
Definition no_space (item : R2StageItem) (st : R2Stager) : bool :=
  (sg_queued_items st >=? sg_max_items st) ||
  (saturating_add (sg_queued_bytes st) (len (si_payload item)) >? sg_max_bytes st).

(** [self.sessions.entry(session).or_default()]. *)
Definition queue_of (session : Z) (st : R2Stager) : list R2StageItem := default [] (sg_sessions st !! session).

Definition add_counts (item : R2StageItem) (st : R2Stager) : R2Stager :=
  with_counts (sg_queued_items st + 1) (sg_queued_bytes st + len (si_payload item)) st.

Definition push (item : R2StageItem) (st : R2Stager) : res R2StageItem Z * R2Stager :=
  if no_space item st then (Err item, st) else
  let session := si_session item in
  let queue := queue_of session st in
  let was_empty := bool_decide (queue = []) in
  let st := if was_empty then with_order (sg_order st ++ [session]) st else st in
  let st := with_sessions (<[session := queue ++ [item]]> (sg_sessions st)) st in
  let st := add_counts item st in
  let st := if was_empty then add_steady_head session st else st in
  (Ok (sg_queued_items st), st).

Definition push_front (item : R2StageItem) (st : R2Stager) : res R2StageItem Z * R2Stager :=
  if no_space item st then (Err item, st) else
  let session := si_session item in
  let queue := queue_of session st in
  let was_empty := bool_decide (queue = []) in
  let st := with_sessions (<[session := item :: queue]> (sg_sessions st)) st in
  let st := if was_empty then with_order (session :: sg_order st) st else st in
  let st := add_counts item st in
  let st := if steady_head session st then add_steady_head session st else forget_steady session st in
  (Ok (sg_queued_items st), st).

(** The first pass of [push_batch]: how many items fit. *)
Fixpoint batch_accepted (items : list R2StageItem) (accepted bytes : Z) (st : R2Stager) : Z :=
  match items with
  | [] => accepted
  | item :: items =>
      if (sg_queued_items st + accepted >=? sg_max_items st) ||
         (saturating_add bytes (len (si_payload item)) >? sg_max_bytes st)
      then accepted
      else batch_accepted items (accepted + 1) (bytes + len (si_payload item)) st
  end.

(** The second pass; its [debug_assert] is the [Panic]. *)
Fixpoint push_all (items : list R2StageItem) (st : R2Stager) : res unit R2Stager :=
  match items with
  | [] => Ok st
  | item :: items =>
      match push item st with
      | (Ok _, st) => push_all items st
      | _ => Panic
      end
  end.

(** [push_batch]: its result, the items left in the vector, the stager. *)
Definition push_batch (items : list R2StageItem) (st : R2Stager) :
    res unit (res Z Z * list R2StageItem * R2Stager) :=
  if bool_decide (items = []) then Ok (Ok (sg_queued_items st), items, st) else
  let total := len items in
  let accepted := batch_accepted items 0 (sg_queued_bytes st) st in
  let! st := push_all (take (Z.to_nat accepted) items) st in
  Ok (if accepted =? total then Ok (sg_queued_items st) else Err accepted, drop (Z.to_nat accepted) items, st).

Definition pop_one (session : Z) (st : R2Stager) : option (R2StageItem * R2Stager) :=
  match sg_sessions st !! session with
  | Some (item :: queue) =>
      let st :=
        if bool_decide (queue = []) then with_sessions (delete session (sg_sessions st)) st
        else add_steady_head session (with_sessions (<[session := queue]> (sg_sessions st)) st) in
      Some (item, with_counts (saturating_sub (sg_queued_items st) 1)
                    (saturating_sub (sg_queued_bytes st) (len (si_payload item))) st)
  | _ => None
  end.

Definition stager_clear (st : R2Stager) : Z * R2Stager :=
  (sg_queued_items st,
   mkR2Stager (sg_wire st) ∅ [] [] ∅ 0 0 (sg_max_items st) (sg_max_bytes st) (sg_max_train_items st)).

(* ------------------------------------------------------------------ *)
(** ** Teardown *)

Fixpoint drop_counts (queue : list R2StageItem) (st : R2Stager) : R2Stager :=
  match queue with
  | [] => st
  | item :: queue =>
      drop_counts queue (with_counts (saturating_sub (sg_queued_items st) 1)
        (saturating_sub (sg_queued_bytes st) (len (si_payload item))) st)
  end.

Definition drop_session (session : Z) (st : R2Stager) (d : Drops) : Z * R2Stager * Drops :=
  match sg_sessions st !! session with
  | None => (0, st, d)
  | Some queue =>
      let st := drop_counts queue (with_sessions (delete session (sg_sessions st)) st) in
      let removed := len queue in
      (removed, forget_steady session st, book_egress_dead removed d)
  end.

(** The item does not belong to the flow. *)
Definition other_flow (wire_id : Z) (i : R2StageItem) : bool :=
  match kind_flow (si_kind i) with Some id => negb (id =? wire_id) | None => true end.

Definition items_sum (m : gmap Z (list R2StageItem)) : Z :=
  map_fold (fun _ q acc => len q + acc) 0 m.
Definition payload_sum (q : list R2StageItem) : Z := foldr (fun i acc => len (si_payload i) + acc) 0 q.
Definition bytes_sum (m : gmap Z (list R2StageItem)) : Z :=
  map_fold (fun _ q acc => payload_sum q + acc) 0 m.

Fixpoint insert_sorted (x : Z) (l : list Z) : list Z :=
  match l with [] => [x] | y :: l' => if x <=? y then x :: l else y :: insert_sorted x l' end.
(** [sort_unstable] of distinct ids. *)
Definition sort_ids (l : list Z) : list Z := foldr insert_sorted [] l.

Definition drop_flow (wire_id : Z) (st : R2Stager) (d : Drops) : Z * R2Stager * Drops :=
  let kept := List.filter (other_flow wire_id) <$> sg_sessions st in
  let removed := items_sum (sg_sessions st) - items_sum kept in
  let touched := (map_to_list (filter (fun p => negb (forallb (other_flow wire_id) p.2) = true)
                                 (sg_sessions st))).*1 in
  let st := with_sessions kept st in
  if removed =? 0 then (0, st, d) else
  let st := with_counts (items_sum kept) (bytes_sum kept) st in
  let o := List.filter (fun s => steady_head s st) (sg_steady_order st) in
  let st := with_steady o (list_to_set o) st in
  let st := foldl (fun st s => add_steady_head s st) st (sort_ids touched) in
  (removed, st, book_egress_dead removed d).

Definition drop_flow_scoped (session wire_id : Z) (st : R2Stager) (d : Drops) : Z * R2Stager * Drops :=
  match sg_sessions st !! session with
  | None => (0, st, d)
  | Some queue =>
      let kept := List.filter (other_flow wire_id) queue in
      let freed := payload_sum (List.filter (fun i => negb (other_flow wire_id i)) queue) in
      let removed := len queue - len kept in
      let st := with_sessions (<[session := kept]> (sg_sessions st)) st in
      if removed =? 0 then (0, st, d) else
      let st := with_counts (saturating_sub (sg_queued_items st) removed)
                  (saturating_sub (sg_queued_bytes st) freed) st in
      let st := if steady_head session st then add_steady_head session st else forget_steady session st in
      (removed, st, book_egress_dead removed d)
  end.

(* ------------------------------------------------------------------ *)
(** ** Claiming frames *)

Inductive FrameShape : Type := Standalone | SteadyRun.

Record PackedFrame : Type := mkPackedFrame {
  pf_body : option bytes;
  pf_shape : FrameShape;
  pf_item_off : Z;
  pf_item_len : Z
}.

Record PackedFrames : Type := mkPackedFrames {
  pk_frames : list PackedFrame;
  pk_items : list R2StageItem;
  pk_wire : Wire
}.

Definition PackedFrames_default : PackedFrames := mkPackedFrames [] [] Rev2.
Definition PackedFrames_clear (q : PackedFrames) : PackedFrames := mkPackedFrames [] [] (pk_wire q).

(** Whether the build has debug assertions.  The ones of this component that can
    never fail are modelled as [Panic] in every build; the one of
    [r3_item_len_len] depends on the payloads its callers stage. *)
Class Build : Type := { debug_assertions : bool }.
Definition debug_build : Build := {| debug_assertions := true |}.
Definition release_build : Build := {| debug_assertions := false |}.

(** What the staging contract allows, where it is asserted. *)
Definition stageable `{Build} (n : Z) : Prop := debug_assertions = true -> n <= 2 ^ 16 - 1.

(** The escape form of an item length. *)
Definition len_field (n : Z) : Z := if n <? 0xFF then 1 else 3.

Section Claiming.
Context {BU : Build}.

Definition r3_item_len_len (n : Z) : res unit Z :=
  if debug_assertions && negb (n <=? 2 ^ 16 - 1) then Panic else Ok (len_field n).

(** [for item in run { total += .. }] with a length that may panic. *)
Fixpoint add_each {A} (f : A -> res unit Z) (l : list A) (total : Z) : res unit Z :=
  match l with
  | [] => Ok total
  | x :: l => let! n := f x in add_each f l (total + n)
  end.

(** The wire id of a steady item; [unreachable!] for the others. *)
Definition steady_id {E} (i : R2StageItem) : res E Z :=
  match si_kind i with KSteady wire_id => Ok wire_id | _ => Panic end.

Definition plen (i : R2StageItem) : Z := len (si_payload i).

Definition packed_steady_len (w : Wire) (run : list R2StageItem) (candidate : R2StageItem) (flows : list Z)
    (new_flow : bool) : res unit Z :=
  let! wire_id := steady_id candidate in
  let cand_len := plen candidate in
  match run with
  | [] => Ok (match w with Rev2 => 1 + varint_len wire_id + cand_len | Rev3 => R3.data_steady_len cand_len end)
  | i0 :: _ =>
      let nfl := len flows + (if new_flow then 1 else 0) in
      if bool_decide (w = Rev3) && (nfl =? 1) then
        let item_len := plen i0 in
        if (cand_len =? item_len) && forallb (fun i => plen i =? item_len) run
        then let! l := r3_item_len_len item_len in Ok (4 + l + (len run + 1) * item_len)
        else
          let! l := r3_item_len_len cand_len in
          add_each (fun i => let! l := r3_item_len_len (plen i) in Ok (l + plen i)) run (4 + l + cand_len)
      else
        let flow_len id := match w with Rev2 => varint_len id | Rev3 => 2 end in
        let total := match w with Rev2 => 4 | Rev3 => 3 end in
        let total := fold_left (fun total f => total + flow_len f) flows total in
        let total := if new_flow then total + flow_len wire_id else total in
        add_each (fun i =>
            let! l := match w with Rev2 => Ok (varint_len (as_u32 (plen i))) | Rev3 => r3_item_len_len (plen i) end in
            Ok (1 + plen i + l)) (run ++ [candidate]) total
  end.

(** A run being packed: its items, its distinct flows, the queue behind it. *)
Record Run : Type := mkRun { rn_items : list R2StageItem; rn_unique : list Z; rn_stage : R2Stager }.

Definition take_steady_head (session limit : Z) (r : Run) : res unit (bool * Run) :=
  let 'mkRun run unique st := r in
  match front session st with
  | None => Ok (false, r)
  | Some head =>
      match si_kind head with
      | KSteady wire_id =>
          if len run >=? sg_max_train_items st then Ok (false, r) else
          let new_flow := negb (bool_decide (wire_id ∈ unique)) in
          if new_flow && (len unique >=? 255) then Ok (false, r) else
          let! cost := packed_steady_len (sg_wire st) run head unique new_flow in
          if cost >? limit then Ok (false, r) else
          match pop_one session st with
          | None => Panic
          | Some (item, st) =>
              let! wire_id := steady_id item in
              let st := rotate_steady_past session st in
              Ok (true, mkRun (run ++ [item]) (if new_flow then unique ++ [wire_id] else unique) st)
          end
      | _ => Ok (false, r)
      end
  end.

(** [while took_any && let Some(next) = self.next_steady_session()]. *)
Fixpoint steady_run (turns : nat) (limit : Z) (took_any : bool) (r : Run) : res unit Run :=
  if negb took_any then Ok r else
  match next_steady_session (rn_stage r) with
  | (None, st) => Ok (mkRun (rn_items r) (rn_unique r) st)
  | (Some next, st) =>
      match turns with
      | O => Panic
      | S turns =>
          let! '(took_any, r) := take_steady_head next limit (mkRun (rn_items r) (rn_unique r) st) in
          steady_run turns limit took_any r
      end
  end.

(** The stager, the batch being built and the counters. *)
Record Claim : Type := mkClaim { cl_stage : R2Stager; cl_packed : PackedFrames; cl_drops : Drops }.

Definition push_frame (shape : FrameShape) (run : list R2StageItem) (q : PackedFrames) : PackedFrames :=
  mkPackedFrames (pk_frames q ++ [mkPackedFrame None shape (as_u32 (len (pk_items q))) (as_u32 (len run))])
    (pk_items q ++ run) (pk_wire q).

Definition claim_one_frame (limit : Z) (c : Claim) : res unit (bool * Claim) :=
  let 'mkClaim st q d := c in
  let q := mkPackedFrames (pk_frames q) (pk_items q) (sg_wire st) in
  match next_session st with
  | (None, st) => Ok (false, mkClaim st q d)
  | (Some session, st) =>
      let head_is_standalone :=
        match front session st with Some i => negb (is_steady i) | None => false end in
      if head_is_standalone then
        match pop_one session st with
        | None => Ok (true, mkClaim st q d)
        | Some (item, st) => Ok (true, mkClaim st (push_frame Standalone [item] q) d)
        end
      else
        let! '(took_any, r) := take_steady_head session limit (mkRun [] [] st) in
        let! r := steady_run (Z.to_nat (sg_max_train_items st)) limit took_any r in
        let st := rn_stage r in
        match rn_items r with
        | [] =>
            if steady_head session st then
              let st := match pop_one session st with Some (_, st) => st | None => st end in
              Ok (true, mkClaim st q (book_too_large 1 d))
            else Ok (true, mkClaim st q d)
        | _ :: _ => Ok (true, mkClaim st (push_frame SteadyRun (rn_items r) q) d)
        end
  end.

Fixpoint claim_go (turns : nat) (limit max_frames max_items start_frames start_items : Z) (c : Claim) :
    res unit Claim :=
  let q := cl_packed c in
  if (len (pk_frames q) - start_frames <? max_frames) && (len (pk_items q) - start_items <? max_items) then
    match turns with
    | O => Panic
    | S turns =>
        let! '(more, c) := claim_one_frame limit c in
        if more then claim_go turns limit max_frames max_items start_frames start_items c else Ok c
    end
  else Ok c.

(** Each turn but the last takes an item from the queue. *)
Definition claim_batch (limit max_frames max_items : Z) (c : Claim) : res unit (bool * Claim) :=
  let 'mkClaim st q d := c in
  let q := mkPackedFrames (pk_frames q) (pk_items q) (sg_wire st) in
  let! c := claim_go (S (Z.to_nat (sg_queued_items st))) limit max_frames max_items
              (len (pk_frames q)) (len (pk_items q)) (mkClaim st q d) in
  Ok (negb (stager_is_empty (cl_stage c)), c).

(* ------------------------------------------------------------------ *)
(** ** Sums over the queues *)

Definition msum (f : list R2StageItem -> Z) (m : gmap Z (list R2StageItem)) : Z := gsum f m.

Lemma items_sum_msum m : items_sum m = msum len m.
Proof. done. Qed.
Lemma bytes_sum_msum m : bytes_sum m = msum payload_sum m.
Proof. done. Qed.

Section Msum.
Context (f : list R2StageItem -> Z).
Hypothesis f_nil : f [] = 0.
Hypothesis f_nonneg : forall q, 0 <= f q.

Lemma msum_empty : msum f ∅ = 0.
Proof. apply map_fold_empty. Qed.

Lemma msum_insert_new m s q : m !! s = None -> msum f (<[s := q]> m) = f q + msum f m.
Proof. apply gsum_insert. Qed.

Lemma msum_delete m s : msum f m = f (default [] (m !! s)) + msum f (delete s m).
Proof.
  destruct (m !! s) as [q|] eqn:E; cbn.
  - rewrite <- (insert_delete_id m s q E) at 1. apply msum_insert_new, lookup_delete_eq.
  - by rewrite f_nil, delete_id.
Qed.

Lemma msum_insert m s q : msum f (<[s := q]> m) = f q + msum f m - f (default [] (m !! s)).
Proof.
  rewrite (msum_delete m s), <- (insert_delete_eq m s q), msum_insert_new by apply lookup_delete_eq. lia.
Qed.

Lemma msum_nonneg m : 0 <= msum f m.
Proof. by apply gsum_nonneg. Qed.

Lemma msum_part m s : f (default [] (m !! s)) <= msum f m.
Proof. rewrite (msum_delete m s). pose proof (msum_nonneg (delete s m)). lia. Qed.
End Msum.

Lemma payload_sum_cons i q : payload_sum (i :: q) = len (si_payload i) + payload_sum q.
Proof. done. Qed.

Lemma payload_sum_nonneg q : 0 <= payload_sum q.
Proof. induction q as [|i q IH]; [done|]. rewrite payload_sum_cons. pose proof (len_nonneg (si_payload i)). lia. Qed.

Lemma payload_sum_app q1 q2 : payload_sum (q1 ++ q2) = payload_sum q1 + payload_sum q2.
Proof. induction q1 as [|i q1 IH]; [done|]. cbn [app]. rewrite !payload_sum_cons. lia. Qed.

Lemma len_list_nonneg (q : list R2StageItem) : 0 <= len q.
Proof. apply len_nonneg. Qed.

Lemma msum_zero m : msum len m = 0 -> forall s, default [] (m !! s) = [].
Proof.
  intros H s. pose proof (msum_part len eq_refl len_list_nonneg m s). rewrite H in *.
  pose proof (len_nonneg (default [] (m !! s))). destruct (default [] (m !! s)); [done|]. rewrite len_cons in *.
  pose proof (len_nonneg l). lia.
Qed.

(* ------------------------------------------------------------------ *)
(** ** The stager's invariant *)

(** Everything but the steady cursor's entry of the sessions in [X]. *)
Record stage_inv_but (X : gset Z) (st : R2Stager) : Prop := mkStageInv {
  sv_items : sg_queued_items st = items_sum (sg_sessions st);
  sv_bytes : sg_queued_bytes st = bytes_sum (sg_sessions st);
  sv_max_items : sg_queued_items st <= sg_max_items st;
  sv_max_bytes : sg_queued_bytes st <= sg_max_bytes st <= usize_max - 1;
  sv_own : forall s q, sg_sessions st !! s = Some q -> Forall (fun i => si_session i = s /\ stageable (plen i)) q;
  sv_order : forall s, queue_of s st <> [] -> s ∈ sg_order st;
  sv_mark : forall s, s ∈ sg_steady_mark st <-> s ∈ sg_steady_order st;
  sv_nodup : NoDup (sg_steady_order st);
  sv_steady : forall s, s ∉ X -> steady_head s st = true -> s ∈ sg_steady_order st;
  sv_train : 1 <= sg_max_train_items st <= R2_MAX_TRAIN_ITEMS
}.

Abbreviation stage_inv := (stage_inv_but ∅).

(** The parts no operation of the queue changes. *)
Definition same_conf (st st' : R2Stager) : Prop :=
  sg_wire st' = sg_wire st /\ sg_max_items st' = sg_max_items st /\ sg_max_bytes st' = sg_max_bytes st /\
  sg_max_train_items st' = sg_max_train_items st.

#[export] Instance same_conf_preorder : PreOrder same_conf.
Proof. split; [by intros st | intros ? ? ? (? & ? & ? & ?) (? & ? & ? & ?); split_and!; congruence]. Qed.

Lemma new_stage_inv mi mb w : 0 <= mi -> 0 <= mb <= usize_max - 1 -> stage_inv (with_capacity_wire mi mb w).
Proof.
  intros Hi Hb. split; cbn; try (done || lia); [set_solver | constructor].
Qed.

Lemma steady_head_sessions st st' s : sg_sessions st' !! s = sg_sessions st !! s -> steady_head s st' = steady_head s st.
Proof. unfold steady_head, front. by intros ->. Qed.

Lemma add_steady_head_inv X s st : stage_inv_but ({[s]} ∪ X) st -> stage_inv_but X (add_steady_head s st).
Proof.
  intros [H1 H2 H3 H4 H5 H6 H7 H8 H9 H10]. unfold add_steady_head.
  destruct (steady_head s st) eqn:Es; cbn [andb].
  - case_bool_decide as Em; cbn [negb].
    + split; try done. intros s' Hx Hs'. destruct (decide (s' = s)) as [-> | Hne]; [by apply H7 | apply H9; set_solver].
    + split; try done; cbn.
      * intros s'. rewrite elem_of_union, H7, elem_of_app. set_solver.
      * rewrite H7 in Em. apply list.NoDup_app. split_and!; [done | set_solver | apply NoDup_singleton].
      * intros s' Hx Hs'. rewrite elem_of_app. destruct (decide (s' = s)) as [-> | Hne]; [right; set_solver | left].
        apply H9; [set_solver | done].
  - split; try done. intros s' Hx Hs'. apply H9; [|done]. intros [->%elem_of_singleton|?]%elem_of_union; [congruence | done].
Qed.

Lemma retain_not_elem s l x : x ∈ retain_not s l <-> x ∈ l /\ x <> s.
Proof.
  unfold retain_not. rewrite !list_elem_of_In, filter_In.
  destruct (Z.eqb_spec x s); cbn; naive_solver.
Qed.

Lemma filter_nodup {A} (f : A -> bool) l : NoDup l -> NoDup (List.filter f l).
Proof.
  induction 1 as [|x l Hx _ IH]; cbn; [constructor|]. destruct (f x); [|done]. constructor; [|done].
  rewrite list_elem_of_In, filter_In, <- list_elem_of_In. tauto.
Qed.

Lemma forget_steady_inv X s st : stage_inv_but ({[s]} ∪ X) st -> steady_head s st = false ->
  stage_inv_but X (forget_steady s st).
Proof.
  intros [H1 H2 H3 H4 H5 H6 H7 H8 H9 H10] Hs. unfold forget_steady. case_bool_decide as Em.
  - split; try done; cbn.
    + intros s'. rewrite elem_of_difference, retain_not_elem, H7. set_solver.
    + by apply filter_nodup.
    + intros s' Hx Hs'. change (steady_head s' st = true) in Hs'. apply retain_not_elem.
      destruct (decide (s' = s)) as [-> | Hne]; [congruence|]. split; [|done]. apply H9; [set_solver | done].
  - split; try done. intros s' Hx Hs'. apply H9; [|done]. intros [->%elem_of_singleton|?]%elem_of_union; [congruence | done].
Qed.

(** The repair after the queue of one session changed. *)
Lemma reseat_inv X s st : stage_inv_but ({[s]} ∪ X) st ->
  stage_inv_but X (if steady_head s st then add_steady_head s st else forget_steady s st).
Proof. intros H. destruct (steady_head s st) eqn:E; [by apply add_steady_head_inv | by apply forget_steady_inv]. Qed.

Lemma queue_lookup st s q : sg_sessions st !! s = Some q -> queue_of s st = q.
Proof. unfold queue_of. by intros ->. Qed.

Lemma queue_items X s st : stage_inv_but X st -> Forall (fun i => si_session i = s /\ stageable (plen i)) (queue_of s st).
Proof.
  intros Hi. unfold queue_of. destruct (sg_sessions st !! s) as [q|] eqn:E; [by eapply sv_own | constructor].
Qed.
Lemma queue_own X s st : stage_inv_but X st -> Forall (fun i => si_session i = s) (queue_of s st).
Proof. intros Hi. eapply list.Forall_impl; [by eapply queue_items | by intros i []]. Qed.

(** [st'] is [st] with the queue of [s] replaced by [q]. *)
Record queue_set (s : Z) (q : list R2StageItem) (st st' : R2Stager) : Prop := mkQueueSet {
  qs_conf : same_conf st st';
  qs_queue : queue_of s st' = q;
  qs_other : forall s', s' <> s -> sg_sessions st' !! s' = sg_sessions st !! s';
  qs_items : sg_queued_items st' = sg_queued_items st + len q - len (queue_of s st);
  qs_bytes : sg_queued_bytes st' = sg_queued_bytes st + payload_sum q - payload_sum (queue_of s st);
  qs_order : forall x, x ∈ sg_order st -> x ∈ sg_order st';
  qs_in : q <> [] -> s ∈ sg_order st';
  qs_steady : sg_steady_order st' = sg_steady_order st /\ sg_steady_mark st' = sg_steady_mark st
}.

(** Either map that holds [q] for [s] has the same sums. *)
Lemma queue_set_sum f s q st st' : f [] = 0 -> queue_of s st' = q ->
  (forall s', s' <> s -> sg_sessions st' !! s' = sg_sessions st !! s') ->
  msum f (sg_sessions st') = msum f (sg_sessions st) + f q - f (queue_of s st).
Proof.
  intros H0 Hq Ho. rewrite (msum_delete f H0 (sg_sessions st') s), (msum_delete f H0 (sg_sessions st) s).
  replace (delete s (sg_sessions st')) with (delete s (sg_sessions st)).
  - unfold queue_of in *. rewrite Hq. lia.
  - apply map_eq. intros s'. destruct (decide (s' = s)) as [-> | Hne]; [by rewrite !lookup_delete_eq|].
    by rewrite !lookup_delete_ne, Ho.
Qed.

Lemma queue_set_inv X s q st st' : stage_inv_but X st -> queue_set s q st st' ->
  Forall (fun i => si_session i = s /\ stageable (plen i)) q ->
  sg_queued_items st + len q - len (queue_of s st) <= sg_max_items st ->
  sg_queued_bytes st + payload_sum q - payload_sum (queue_of s st) <= sg_max_bytes st ->
  stage_inv_but ({[s]} ∪ X) st'.
Proof.
  intros [H1 H2 H3 H4 H5 H6 H7 H8 H9 H10] [(C1 & C2 & C3 & C4) Hq Ho Hi Hb Hord Hin [Hs1 Hs2]] Hown Hmi Hmb.
  split.
  - rewrite Hi, H1. symmetry. by apply (queue_set_sum len).
  - rewrite Hb, H2. symmetry. by apply (queue_set_sum payload_sum).
  - rewrite Hi, C2. lia.
  - rewrite Hb, C3. lia.
  - intros s' q' Hl. destruct (decide (s' = s)) as [-> | Hne]; [|apply (H5 s'); by rewrite <- Ho].
    by rewrite <- (queue_lookup st' s q' Hl), Hq.
  - intros s' Hne. destruct (decide (s' = s)) as [-> | Hd]; [apply Hin; congruence|]. apply Hord, H6.
    unfold queue_of in *. by rewrite <- Ho.
  - intros s'. by rewrite Hs1, Hs2.
  - by rewrite Hs1.
  - intros s' Hx Hst. rewrite Hs1. apply H9; [set_solver|]. rewrite <- Hst. symmetry. apply steady_head_sessions, Ho. set_solver.
  - by rewrite C4.
Qed.

(** The count of a queued session's head. *)
Lemma queue_counts X s st : stage_inv_but X st ->
  len (queue_of s st) <= sg_queued_items st /\ payload_sum (queue_of s st) <= sg_queued_bytes st.
Proof.
  intros H. rewrite (sv_items _ _ H), (sv_bytes _ _ H), items_sum_msum, bytes_sum_msum. unfold queue_of.
  split; [apply (msum_part len) | apply (msum_part payload_sum)]; auto using len_list_nonneg, payload_sum_nonneg.
Qed.

Lemma saturating_sub_le a b : b <= a -> saturating_sub a b = a - b.
Proof. unfold saturating_sub. lia. Qed.

Lemma no_space_false item st : no_space item st = false -> sg_max_bytes st <= usize_max - 1 ->
  sg_queued_items st < sg_max_items st /\ sg_queued_bytes st + len (si_payload item) <= sg_max_bytes st.
Proof.
  unfold no_space, saturating_add. intros H Hm. apply orb_false_iff in H as [H1 H2]. zbool. lia.
Qed.

Lemma len_nonempty {A} (q : list A) : q <> [] -> 1 <= len q.
Proof. destruct q; [done|]. rewrite len_cons. pose proof (len_nonneg q). lia. Qed.

(** Only the steady cursor differs. *)
Definition cursor_only (st st' : R2Stager) : Prop := exists o m, st' = with_steady o m st.

Lemma add_steady_head_cursor s st : cursor_only st (add_steady_head s st).
Proof. unfold add_steady_head. case_match; [by eexists _, _|]. exists (sg_steady_order st), (sg_steady_mark st). by destruct st. Qed.
Lemma forget_steady_cursor s st : cursor_only st (forget_steady s st).
Proof. unfold forget_steady. case_match; [by eexists _, _|]. exists (sg_steady_order st), (sg_steady_mark st). by destruct st. Qed.
Lemma reseat_cursor s st : cursor_only st (if steady_head s st then add_steady_head s st else forget_steady s st).
Proof. case_match; [apply add_steady_head_cursor | apply forget_steady_cursor]. Qed.

Lemma cursor_only_queue st st' s : cursor_only st st' -> queue_of s st' = queue_of s st.
Proof. by intros (o & m & ->). Qed.
Lemma cursor_only_conf st st' : cursor_only st st' -> same_conf st st'.
Proof. by intros (o & m & ->). Qed.
Lemma cursor_only_items st st' : cursor_only st st' -> sg_queued_items st' = sg_queued_items st.
Proof. by intros (o & m & ->). Qed.

(** What an operation on the queue of one session does to all of them. *)
Definition queues_become (s : Z) (q : list R2StageItem) (st st' : R2Stager) : Prop :=
  same_conf st st' /\ forall s', queue_of s' st' = if decide (s' = s) then q else queue_of s' st.

Lemma queue_set_become s q st st1 st2 : queue_set s q st st1 -> cursor_only st1 st2 -> queues_become s q st st2.
Proof.
  intros Q Hc. split; [etrans; [apply Q | by apply cursor_only_conf]|]. intros s'.
  rewrite (cursor_only_queue _ _ _ Hc). case_decide as Hd; [subst; apply Q|]. unfold queue_of. by rewrite (qs_other _ _ _ _ Q).
Qed.

Lemma with_nothing X s st : stage_inv_but X st -> stage_inv_but ({[s]} ∪ X) st.
Proof. intros [H1 H2 H3 H4 H5 H6 H7 H8 H9 H10]. split; try done. intros s' Hx. apply H9. set_solver. Qed.

Lemma push_spec item st r st' : stage_inv st -> stageable (plen item) -> push item st = (r, st') ->
  (r = Err item /\ st' = st /\ no_space item st = true) \/
  (no_space item st = false /\ r = Ok (sg_queued_items st') /\ stage_inv st' /\
   queues_become (si_session item) (queue_of (si_session item) st ++ [item]) st st' /\
   sg_queued_items st' = sg_queued_items st + 1).
Proof.
  intros Hi Hsm Hp. unfold push in Hp. destruct (no_space item st) eqn:En; [left; by simplify_eq|]. right.
  set (s := si_session item) in *. set (q := queue_of s st) in *.
  destruct (no_space_false _ _ En) as [Hn Hb]; [apply (sv_max_bytes _ _ Hi)|].
  set (st0 := if bool_decide (q = []) then with_order (sg_order st ++ [s]) st else st) in *.
  set (st1 := add_counts item (with_sessions (<[s:=q ++ [item]]> (sg_sessions st0)) st0)) in *.
  assert (Q : queue_set s (q ++ [item]) st st1).
  { unfold st1, st0. split.
    - by case_match.
    - unfold queue_of. cbn. by rewrite lookup_insert_eq.
    - intros s' Hne. cbn. rewrite lookup_insert_ne by done. by case_match.
    - cbn. rewrite len_app. fold q. case_match; cbn; unfold len; cbn; lia.
    - cbn. rewrite payload_sum_app. fold q. case_match; cbn; lia.
    - intros x Hx. cbn. case_match; cbn; [set_solver | done].
    - intros _. cbn. case_bool_decide as Hq; cbn; [set_solver|]. by apply (sv_order _ _ Hi).
    - by case_match. }
  assert (Hi1 : stage_inv_but ({[s]} ∪ ∅) st1).
  { eapply queue_set_inv; [exact Hi | exact Q | | |].
    - apply Forall_app. split; [by eapply queue_items | by constructor].
    - fold q. rewrite len_app. unfold len at 2. cbn. lia.
    - fold q. rewrite payload_sum_app. cbn. lia. }
  assert (Hst' : st' = (if bool_decide (q = []) then add_steady_head s st1 else st1)) by (by simplify_eq).
  assert (Hcur : cursor_only st1 st').
  { rewrite Hst'. case_match; [apply add_steady_head_cursor|]. exists (sg_steady_order st1), (sg_steady_mark st1). by destruct st1. }
  split_and!; [done | by simplify_eq | | by eapply queue_set_become |].
  - rewrite Hst'. case_bool_decide as Hq; [by apply add_steady_head_inv|].
    destruct Hi1 as [I1 I2 I3 I4 I5 I6 I7 I8 I9 I10]. split; try done. intros s' _ Hs'.
    destruct (decide (s' = s)) as [-> | Hne]; [|apply I9; [set_solver | done]].
    rewrite (proj1 (qs_steady _ _ _ _ Q)). apply (sv_steady _ _ Hi); [set_solver|].
    rewrite <- Hs'. unfold steady_head, front. unfold st1, st0. cbn. rewrite lookup_insert_eq.
    unfold q, queue_of in *. destruct (sg_sessions st !! s) as [[|x q']|]; done.
  - rewrite (cursor_only_items _ _ Hcur), (qs_items _ _ _ _ Q). fold q. rewrite len_app. unfold len at 2. cbn. lia.
Qed.

Lemma push_front_spec item st r st' : stage_inv st -> stageable (plen item) -> push_front item st = (r, st') ->
  (r = Err item /\ st' = st /\ no_space item st = true) \/
  (no_space item st = false /\ r = Ok (sg_queued_items st') /\ stage_inv st' /\
   queues_become (si_session item) (item :: queue_of (si_session item) st) st st' /\
   sg_queued_items st' = sg_queued_items st + 1).
Proof.
  intros Hi Hsm Hp. unfold push_front in Hp. destruct (no_space item st) eqn:En; [left; by simplify_eq|]. right.
  set (s := si_session item) in *. set (q := queue_of s st) in *.
  destruct (no_space_false _ _ En) as [Hn Hb]; [apply (sv_max_bytes _ _ Hi)|].
  set (st0 := with_sessions (<[s:=item :: q]> (sg_sessions st)) st) in *.
  set (st1 := add_counts item (if bool_decide (q = []) then with_order (s :: sg_order st0) st0 else st0)) in *.
  assert (Q : queue_set s (item :: q) st st1).
  { unfold st1, st0. split.
    - by destruct (bool_decide (q = [])).
    - unfold queue_of. destruct (bool_decide (q = [])); cbn; by rewrite lookup_insert_eq.
    - intros s' Hne. destruct (bool_decide (q = [])); cbn; by rewrite lookup_insert_ne.
    - fold q. rewrite len_cons. destruct (bool_decide (q = [])); cbn; lia.
    - fold q. rewrite payload_sum_cons. destruct (bool_decide (q = [])); cbn; lia.
    - intros x Hx. destruct (bool_decide (q = [])); cbn; [set_solver | done].
    - intros _. case_bool_decide as Hq; cbn; [set_solver|]. by apply (sv_order _ _ Hi).
    - by destruct (bool_decide (q = [])). }
  assert (Hi1 : stage_inv_but ({[s]} ∪ ∅) st1).
  { eapply queue_set_inv; [exact Hi | exact Q | | |].
    - constructor; [done | by eapply queue_items].
    - fold q. rewrite len_cons. lia.
    - fold q. rewrite payload_sum_cons. lia. }
  injection Hp as Hr Hst'. pose proof (reseat_cursor s st1) as Hcur. rewrite Hst' in Hcur.
  split_and!; [done | by rewrite <- Hr, Hst' | | by eapply queue_set_become |].
  - rewrite <- Hst'. by apply reseat_inv.
  - rewrite (cursor_only_items _ _ Hcur), (qs_items _ _ _ _ Q). fold q. rewrite len_cons. lia.
Qed.

Lemma add_steady_head_counts s a b st : add_steady_head s (with_counts a b st) = with_counts a b (add_steady_head s st).
Proof. unfold add_steady_head. change (steady_head s (with_counts a b st)) with (steady_head s st). cbn. by case_match. Qed.

(** [pop_one] on a queue that has a head: the queue set to its tail. *)
Definition popped_raw (s : Z) (i : R2StageItem) (q : list R2StageItem) (st : R2Stager) : R2Stager :=
  with_counts (sg_queued_items st - 1) (sg_queued_bytes st - len (si_payload i))
    (with_sessions (if bool_decide (q = []) then delete s (sg_sessions st) else <[s:=q]> (sg_sessions st)) st).

Lemma pop_one_eq s st i q : stage_inv st -> queue_of s st = i :: q ->
  pop_one s st = Some (i, if bool_decide (q = []) then popped_raw s i q st else add_steady_head s (popped_raw s i q st)).
Proof.
  intros Hi Hq. assert (Hm : sg_sessions st !! s = Some (i :: q)).
  { unfold queue_of in Hq. destruct (sg_sessions st !! s) as [q'|]; [by cbn in Hq; subst | done]. }
  destruct (queue_counts _ s st Hi) as [Hc1 Hc2]. rewrite Hq in Hc1, Hc2. rewrite len_cons in Hc1. rewrite payload_sum_cons in Hc2.
  pose proof (len_nonneg q). pose proof (payload_sum_nonneg q).
  unfold pop_one, popped_raw. rewrite Hm. destruct (bool_decide (q = [])).
  - cbn [sg_queued_items sg_queued_bytes with_sessions]. by rewrite !saturating_sub_le by lia.
  - destruct (add_steady_head_cursor s (with_sessions (<[s:=q]> (sg_sessions st)) st)) as (o & m & Ho).
    rewrite add_steady_head_counts, Ho. cbn [sg_queued_items sg_queued_bytes with_sessions with_steady].
    by rewrite !saturating_sub_le by lia.
Qed.

Lemma popped_raw_set s st i q : stage_inv st -> queue_of s st = i :: q -> queue_set s q st (popped_raw s i q st).
Proof.
  intros Hi Hq. unfold popped_raw. split; cbn; try done.
  - unfold queue_of. cbn. case_bool_decide as Hn; [by rewrite Hn, lookup_delete_eq | by rewrite lookup_insert_eq].
  - intros s' Hne. destruct (bool_decide (q = [])); [by rewrite lookup_delete_ne | by rewrite lookup_insert_ne].
  - rewrite Hq, len_cons. lia.
  - rewrite Hq, payload_sum_cons. lia.
  - intros _. apply (sv_order _ _ Hi). by rewrite Hq.
Qed.

Lemma inv_unheaded X s st : stage_inv_but ({[s]} ∪ X) st -> steady_head s st = false -> stage_inv_but X st.
Proof.
  intros [H1 H2 H3 H4 H5 H6 H7 H8 H9 H10] Hh. split; try done. intros s' Hx Hs'. apply H9; [|done].
  intros [->%elem_of_singleton|?]%elem_of_union; [congruence | done].
Qed.

Lemma steady_head_queue s st : steady_head s st = match queue_of s st with i :: _ => is_steady i | [] => false end.
Proof. unfold steady_head, front, queue_of. by destruct (sg_sessions st !! s) as [[|]|]. Qed.

Lemma pop_one_spec s st i q : stage_inv st -> queue_of s st = i :: q -> exists st',
  pop_one s st = Some (i, st') /\ stage_inv st' /\ queues_become s q st st' /\
  sg_queued_items st' = sg_queued_items st - 1.
Proof.
  intros Hi Hq. pose proof (popped_raw_set s st i q Hi Hq) as Q.
  pose proof (queue_items _ s st Hi) as Hown. rewrite Hq in Hown. apply list.Forall_cons in Hown as [_ Hown].
  assert (Hi1 : stage_inv_but ({[s]} ∪ ∅) (popped_raw s i q st)).
  { eapply queue_set_inv; [exact Hi | exact Q | done | |].
    - rewrite Hq, len_cons. pose proof (sv_max_items _ _ Hi). lia.
    - rewrite Hq, payload_sum_cons. pose proof (sv_max_bytes _ _ Hi). pose proof (len_nonneg (si_payload i)). lia. }
  rewrite (pop_one_eq s st i q Hi Hq). eexists. split; [reflexivity|]. case_bool_decide as Hn.
  - split_and!; [eapply inv_unheaded; [exact Hi1|] | eapply queue_set_become; [exact Q|] | done].
    + by rewrite steady_head_queue, (qs_queue _ _ _ _ Q), Hn.
    + exists (sg_steady_order st), (sg_steady_mark st). done.
  - split_and!; [by apply add_steady_head_inv | eapply queue_set_become; [exact Q | apply add_steady_head_cursor] |].
    by rewrite (cursor_only_items _ _ (add_steady_head_cursor s _)).
Qed.

(* ------------------------------------------------------------------ *)
(** ** The cursors *)

Lemma has_session_queue s st : has_session s st = negb (bool_decide (queue_of s st = [])).
Proof. unfold has_session, queue_of. by destruct (sg_sessions st !! s). Qed.

(** A new order that still lists every queued session. *)
Lemma with_order_inv X o st : stage_inv_but X st -> (forall s, queue_of s st <> [] -> s ∈ o) ->
  stage_inv_but X (with_order o st).
Proof. intros [H1 H2 H3 H4 H5 H6 H7 H8 H9 H10] Ho. by split. Qed.

Lemma next_session_go_spec n : forall st, stage_inv st -> n = length (sg_order st) ->
  exists o', match next_session_go n st with
  | (Some s, st') => st' = with_order o' st /\ queue_of s st <> []
  | (None, st') => st' = with_order [] st /\ forall s, queue_of s st = []
  end /\ stage_inv (next_session_go n st).2.
Proof.
  induction n as [|n IH]; intros st Hi Hn; cbn [next_session_go].
  - destruct (sg_order st) eqn:Eo; [|done]. exists []. split_and!; [by destruct st; cbn in *; subst | | done].
    intros s. destruct (decide (queue_of s st = [])) as [|Hq]; [done|]. apply (sv_order _ _ Hi) in Hq. rewrite Eo in Hq.
    by apply not_elem_of_nil in Hq.
  - destruct (sg_order st) as [|s o] eqn:Eo; [done|]. destruct (has_session s st) eqn:Eh.
    + exists (o ++ [s]). cbn. rewrite has_session_queue in Eh. apply negb_true_iff, bool_decide_eq_false_1 in Eh.
      split; [done|]. apply with_order_inv; [done|]. intros x Hx. apply (sv_order _ _ Hi) in Hx. rewrite Eo in Hx. set_solver.
    + rewrite has_session_queue in Eh. apply negb_false_iff, bool_decide_eq_true_1 in Eh.
      assert (Hi' : stage_inv (with_order o st)).
      { apply with_order_inv; [done|]. intros x Hx. pose proof (sv_order _ _ Hi x Hx) as Hin. rewrite Eo in Hin.
        apply elem_of_cons in Hin as [-> | ?]; [congruence | done]. }
      cbn in Hn. destruct (IH (with_order o st) Hi') as (o' & Ho & Hi2); [by injection Hn|]. exists o'. split; [|done].
      destruct (next_session_go n (with_order o st)) as [[x|] st2]; by destruct Ho as [-> Ho].
Qed.

Lemma next_session_spec st : stage_inv st ->
  match next_session st with
  | (Some s, st') => (exists o', st' = with_order o' st) /\ queue_of s st <> [] /\ stage_inv st'
  | (None, st') => st' = with_order [] st /\ (forall s, queue_of s st = []) /\ stage_inv st'
  end.
Proof.
  intros Hi. destruct (next_session_go_spec _ st Hi eq_refl) as (o' & Ho & Hi'). unfold next_session.
  destruct (next_session_go (length (sg_order st)) st) as [[s|] st']; cbn in Hi'; naive_solver.
Qed.

Lemma with_steady_inv X o m st : stage_inv_but X st -> (forall s, s ∈ m <-> s ∈ o) -> NoDup o ->
  (forall s, s ∉ X -> steady_head s st = true -> s ∈ o) -> stage_inv_but X (with_steady o m st).
Proof. intros [H1 H2 H3 H4 H5 H6 H7 H8 H9 H10] Hm Hn Ho. by split. Qed.

Lemma next_steady_go_spec o : forall st, stage_inv st -> o = sg_steady_order st ->
  match next_steady_go o st with
  | (Some s, st') => steady_head s st = true /\ cursor_only st st' /\ stage_inv st'
  | (None, st') => cursor_only st st' /\ stage_inv st' /\ forall s, steady_head s st = false
  end.
Proof.
  induction o as [|s o IH]; intros st Hi Ho; cbn [next_steady_go].
  - split_and!; [by eexists _, _ | |].
    + replace (with_steady [] (sg_steady_mark st) st) with st; [done|]. destruct st. cbn in *. by subst.
    + intros s. destruct (steady_head s st) eqn:E; [|done]. apply (sv_steady _ _ Hi) in E; [|set_solver].
      rewrite <- Ho in E. by apply not_elem_of_nil in E.
  - pose proof (sv_nodup _ _ Hi) as Hnd. pose proof (sv_mark _ _ Hi) as Hm. pose proof (sv_steady _ _ Hi) as Hs.
    rewrite <- Ho in Hnd, Hm, Hs. apply list.NoDup_cons in Hnd as [Hni Hnd]. destruct (steady_head s st) eqn:E.
    + split_and!; [done | by eexists _, _|]. apply with_steady_inv; [done | | |].
      * intros x. rewrite Hm. set_solver.
      * apply list.NoDup_app. split_and!; [done | set_solver | apply NoDup_singleton].
      * intros x Hx Hx2. specialize (Hs x Hx Hx2). set_solver.
    + assert (Hi' : stage_inv (with_steady o (sg_steady_mark st ∖ {[s]}) st)).
      { apply with_steady_inv; [done | | done |].
        - intros x. rewrite elem_of_difference, Hm, elem_of_cons, not_elem_of_singleton. split; [naive_solver|].
          intros Hx. split; [by right|]. by intros ->.
        - intros x Hx Hx2. specialize (Hs x Hx Hx2). apply elem_of_cons in Hs as [-> | ?]; [congruence | done]. }
      specialize (IH _ Hi' eq_refl). set (st1 := with_steady o _ st) in *.
      destruct (next_steady_go o st1) as [[x|] st2].
      * destruct IH as (? & (o2 & m2 & ->) & ?). split_and!; [done | by eexists _, _ | done].
      * destruct IH as ((o2 & m2 & ->) & ? & ?). split_and!; [by eexists _, _ | done | done].
Qed.

Lemma rotate_spec s st : stage_inv st -> stage_inv (rotate_steady_past s st) /\ cursor_only st (rotate_steady_past s st).
Proof.
  intros Hi. assert (Hid : cursor_only st st) by (exists (sg_steady_order st), (sg_steady_mark st); by destruct st).
  unfold rotate_steady_past. case_bool_decide; [done|].
  destruct (list_find (fun x => x = s) (sg_steady_order st)) as [[pos x]|]; [|done].
  split; [|by eexists _, _].
  assert (Hp : drop (S pos) (sg_steady_order st) ++ take (S pos) (sg_steady_order st) ≡ₚ sg_steady_order st).
  { rewrite Permutation_app_comm. by rewrite take_drop. }
  apply with_steady_inv; [done | | |].
  - intros y. rewrite Hp. apply (sv_mark _ _ Hi).
  - rewrite Hp. apply (sv_nodup _ _ Hi).
  - intros y Hy Hy2. rewrite Hp. by apply (sv_steady _ _ Hi).
Qed.

(* ------------------------------------------------------------------ *)
(** ** First in, first out *)

(** The items of [l] that belong to session [s], in their order. *)
Definition of_session (s : Z) (l : list R2StageItem) : list R2StageItem :=
  List.filter (fun i => si_session i =? s) l.

(** [st'] is [st] after the items of [popped] left, in this order, each from the
    head of its session's queue. *)
Record claimed (popped : list R2StageItem) (st st' : R2Stager) : Prop := mkClaimed {
  cd_conf : same_conf st st';
  cd_queue : forall s, queue_of s st = of_session s popped ++ queue_of s st';
  cd_items : sg_queued_items st = len popped + sg_queued_items st'
}.

Lemma claimed_nil st st' : same_conf st st' -> (forall s, queue_of s st' = queue_of s st) ->
  sg_queued_items st' = sg_queued_items st -> claimed [] st st'.
Proof. intros Hc Hq Hi. split; [done | by intros s; rewrite Hq | by rewrite Hi]. Qed.

Lemma claimed_cursor st st' : cursor_only st st' -> claimed [] st st'.
Proof.
  intros Hc. apply claimed_nil; [by apply cursor_only_conf | | by apply cursor_only_items].
  intros s. by apply cursor_only_queue.
Qed.

Lemma claimed_order o st : claimed [] st (with_order o st).
Proof. by apply claimed_nil. Qed.

Lemma claimed_trans p1 p2 st1 st2 st3 : claimed p1 st1 st2 -> claimed p2 st2 st3 -> claimed (p1 ++ p2) st1 st3.
Proof.
  intros [C1 Q1 I1] [C2 Q2 I2]. split; [by etrans | | rewrite len_app; lia].
  intros s. unfold of_session in *. by rewrite List.filter_app, <- app_assoc, <- Q2.
Qed.

Lemma claimed_pop s st i q st' : stage_inv st -> queue_of s st = i :: q -> queues_become s q st st' ->
  sg_queued_items st' = sg_queued_items st - 1 -> claimed [i] st st'.
Proof.
  intros Hi Hq [Hc Hb] Hn. split; [done | | rewrite len_cons, len_nil; lia].
  pose proof (queue_own _ s st Hi) as Hown. rewrite Hq in Hown. apply list.Forall_cons in Hown as [Hs _].
  intros s'. rewrite Hb. unfold of_session. cbn. rewrite Hs. case_decide as Hd.
  - subst s'. by rewrite Z.eqb_refl, Hq.
  - by rewrite (proj2 (Z.eqb_neq _ _)).
Qed.

(* ------------------------------------------------------------------ *)
(** ** The cost of a run *)

Definition lsum {A} (f : A -> Z) (l : list A) : Z := foldr (fun x acc => f x + acc) 0 l.

Lemma lsum_cons {A} (f : A -> Z) x l : lsum f (x :: l) = f x + lsum f l.
Proof. done. Qed.

Lemma lsum_one {A} (f : A -> Z) x : lsum f [x] = f x.
Proof. unfold lsum. cbn. lia. Qed.

Lemma lsum_app {A} (f : A -> Z) l k : lsum f (l ++ k) = lsum f l + lsum f k.
Proof. induction l as [|x l IH]; [done|]. cbn [app]. rewrite !lsum_cons. lia. Qed.

Lemma fold_left_lsum {A} (f : A -> Z) (g : Z -> A -> Z) l a : (forall t x, g t x = t + f x) ->
  fold_left g l a = a + lsum f l.
Proof.
  intros Hg. revert a. induction l as [|x l IH]; intros a; cbn [fold_left]; [unfold lsum; cbn; lia|].
  rewrite IH, Hg, lsum_cons. lia.
Qed.

(** The distinct ids of a run, in the order they first occur. *)
Definition add_id (u : list Z) (id : Z) : list Z := if bool_decide (id ∈ u) then u else u ++ [id].
Definition uniq (ids : list Z) : list Z := fold_left add_id ids [].

Definition id_of (i : R2StageItem) : Z := match si_kind i with KSteady id => id | _ => 0 end.
Definition run_flows (run : list R2StageItem) : list Z := uniq (id_of <$> run).

Lemma run_flows_snoc run i : run_flows (run ++ [i]) = add_id (run_flows run) (id_of i).
Proof. unfold run_flows, uniq. by rewrite fmap_app, fold_left_app. Qed.

Definition flow_len (w : Wire) (id : Z) : Z := match w with Rev2 => varint_len id | Rev3 => 2 end.
Definition item_len_len (w : Wire) (n : Z) : Z :=
  match w with Rev2 => varint_len (as_u32 n) | Rev3 => len_field n end.

Definition equal_lengths (run : list R2StageItem) : bool :=
  match run with [] => true | i0 :: _ => forallb (fun i => plen i =? plen i0) run end.

(** The length of the frame that carries a run of steady items: a steady
    frame, a rev3 single-flow train in one of its two forms, a dictionary. *)
Definition run_cost (w : Wire) (run : list R2StageItem) : Z :=
  match run with
  | [] => 0
  | [i] => match w with Rev2 => 1 + varint_len (id_of i) + plen i | Rev3 => R3.data_steady_len (plen i) end
  | i0 :: _ =>
      if bool_decide (w = Rev3) && (len (run_flows run) =? 1) then
        if equal_lengths run then 4 + len_field (plen i0) + len run * plen i0
        else 4 + lsum (fun i => len_field (plen i) + plen i) run
      else
        match w with Rev2 => 4 | Rev3 => 3 end + lsum (flow_len w) (run_flows run) +
        lsum (fun i => 1 + plen i + item_len_len w (plen i)) run
  end.

Lemma steady_id_of {E} i : is_steady i = true -> @steady_id E i = Ok (id_of i).
Proof. unfold is_steady, steady_id, id_of. by destruct (si_kind i). Qed.

Lemma len_add_id u id : len (add_id u id) = len u + (if negb (bool_decide (id ∈ u)) then 1 else 0).
Proof. unfold add_id. destruct (bool_decide (id ∈ u)); cbn [negb]; rewrite ?len_app, ?len_cons, ?len_nil; lia. Qed.

Lemma lsum_add_id f u id : lsum f (add_id u id) = lsum f u + (if negb (bool_decide (id ∈ u)) then f id else 0).
Proof.
  unfold add_id. destruct (bool_decide (id ∈ u)); cbn [negb]; [lia|]. rewrite lsum_app, lsum_one. lia.
Qed.

Lemma r3_item_len_len_ok n : stageable n -> r3_item_len_len n = Ok (len_field n).
Proof. intros Hn. unfold r3_item_len_len. destruct debug_assertions eqn:E; [|done]. by rewrite (proj2 (Z.leb_le _ _) (Hn E)). Qed.

Lemma add_each_lsum {A} (f : A -> res unit Z) (g : A -> Z) l : Forall (fun x => f x = Ok (g x)) l -> forall a, add_each f l a = Ok (a + lsum g l).
Proof.
  induction 1 as [|x l Hx _ IH]; intros a; cbn [add_each]; [f_equal; unfold lsum; cbn; lia|]. rewrite Hx. cbn [res_bind]. rewrite IH, lsum_cons. f_equal. lia.
Qed.

(** The cost model adds up to the cost of the longer run. *)
Lemma packed_steady_len_cost w run c : is_steady c = true -> Forall (fun i => stageable (plen i)) (run ++ [c]) ->
  packed_steady_len w run c (run_flows run) (negb (bool_decide (id_of c ∈ run_flows run))) = Ok (run_cost w (run ++ [c])).
Proof.
  intros Hc Hsm. unfold packed_steady_len. rewrite steady_id_of by done. cbn [res_bind].
  destruct run as [|i0 run]; [done|]. unfold run_cost.
  replace ((i0 :: run) ++ [c]) with (i0 :: (run ++ [c])) by done.
  destruct (run ++ [c]) as [|i1 rest] eqn:Er; [by destruct run|]. rewrite <- Er. clear i1 rest Er.
  change (i0 :: run ++ [c]) with ((i0 :: run) ++ [c]). rewrite run_flows_snoc, len_add_id.
  destruct (bool_decide (w = Rev3) && _) eqn:E.
  - assert (He : equal_lengths ((i0 :: run) ++ [c]) = (plen c =? plen i0) && forallb (fun i => plen i =? plen i0) (i0 :: run)).
    { cbn [equal_lengths app]. change (i0 :: run ++ [c]) with ((i0 :: run) ++ [c]). rewrite forallb_app. cbn [forallb].
      rewrite andb_true_r. apply andb_comm. }
    pose proof Hsm as Hsm'. apply list.Forall_app in Hsm' as [Hrun Hcand]. rewrite He. destruct (_ && forallb _ _).
    + apply list.Forall_cons in Hrun as [Hi0 _]. rewrite r3_item_len_len_ok by done. cbn [res_bind]. f_equal. rewrite len_app. change (len [c]) with 1. lia.
    + apply list.Forall_cons in Hcand as [Hcand _]. rewrite r3_item_len_len_ok by done. cbn [res_bind].
      rewrite (add_each_lsum _ (fun i => len_field (plen i) + plen i)); [f_equal; rewrite lsum_app, lsum_one; lia|].
      eapply list.Forall_impl; [exact Hrun|]. cbv beta. intros i Hi. by rewrite r3_item_len_len_ok.
  - rewrite (add_each_lsum _ (fun i => 1 + plen i + item_len_len w (plen i))).
    2:{ eapply list.Forall_impl; [exact Hsm|]. cbv beta. intros i Hi. unfold item_len_len. destruct w; [done|]. by rewrite r3_item_len_len_ok. }
    f_equal. rewrite (fold_left_lsum (flow_len w)) by (by destruct w). rewrite lsum_add_id.
    fold (flow_len w (id_of c)). destruct (negb _); lia.
Qed.

(* ------------------------------------------------------------------ *)
(** ** Packing a run *)

Record run_ok (limit : Z) (r : Run) : Prop := mkRunOk {
  ro_stage : stage_inv (rn_stage r);
  ro_steady : Forall (fun i => is_steady i = true) (rn_items r);
  ro_small : Forall (fun i => stageable (plen i)) (rn_items r);
  ro_unique : rn_unique r = run_flows (rn_items r);
  ro_len : len (rn_items r) <= sg_max_train_items (rn_stage r);
  ro_fits : rn_items r <> [] -> run_cost (sg_wire (rn_stage r)) (rn_items r) <= limit
}.

Lemma uniq_len ids : len (uniq ids) <= len ids.
Proof.
  induction ids as [|x ids IH] using rev_ind; [done|]. unfold uniq in *. rewrite fold_left_app. cbn [fold_left].
  rewrite len_add_id, len_app. change (len [x]) with 1. destruct (negb _); lia.
Qed.

Lemma run_flows_len run : len (run_flows run) <= len run.
Proof. unfold run_flows. etrans; [apply uniq_len|]. unfold len. rewrite length_fmap. lia. Qed.

Lemma front_queue s st : front s st = head (queue_of s st).
Proof. unfold front, queue_of. by destruct (sg_sessions st !! s) as [[|]|]. Qed.

Lemma take_steady_head_spec s limit r : run_ok limit r -> exists took r' popped,
  take_steady_head s limit r = Ok (took, r') /\ run_ok limit r' /\
  rn_items r' = rn_items r ++ popped /\ claimed popped (rn_stage r) (rn_stage r') /\
  (took = false -> r' = r) /\ (took = true -> len popped = 1) /\
  (took = false -> rn_items r = [] -> forall i q, queue_of s (rn_stage r) = i :: q ->
     is_steady i = true -> limit < run_cost (sg_wire (rn_stage r)) [i]).
Proof.
  intros Hok. destruct r as [run unique st]. pose proof Hok as [Hi Hst Hsm Hu Hl Hf]. cbn [rn_items rn_unique rn_stage] in *.
  subst unique.
  assert (Hno : forall P : Prop, P -> exists took r' popped,
    Ok (false, mkRun run (run_flows run) st) = @Ok unit _ (took, r') /\ run_ok limit r' /\ rn_items r' = run ++ popped /\
    claimed popped st (rn_stage r') /\ (took = false -> r' = mkRun run (run_flows run) st) /\ (took = true -> len popped = 1) /\ (took = false -> P)).
  { intros P HP. exists false, (mkRun run (run_flows run) st), []. split_and!; try done; by rewrite app_nil_r. }
  unfold take_steady_head. rewrite front_queue. destruct (queue_of s st) as [|i q] eqn:Eq; cbn [head].
  { apply Hno. intros ->. done. }
  destruct (si_kind i) as [id| |] eqn:Ek; [|apply Hno; intros _ i' q' [= <- <-] Hs; unfold is_steady in Hs; by rewrite Ek in Hs..].
  assert (Hsi : is_steady i = true) by (unfold is_steady; by rewrite Ek).
  assert (Hid : id_of i = id) by (unfold id_of; by rewrite Ek).
  pose proof (sv_train _ _ Hi) as Ht. unfold R2_MAX_TRAIN_ITEMS in Ht.
  destruct (len run >=? sg_max_train_items st) eqn:E1.
  { apply Hno. intros ->. zbool. rewrite len_nil in E1. lia. }
  pose proof (run_flows_len run) as Hrl.
  replace (_ && (len (run_flows run) >=? 255)) with false.
  2:{ symmetry. apply andb_false_iff. right. apply not_true_iff_false. intros ?. zbool. lia. }
  assert (Hsi' : stageable (plen i)) by (pose proof (queue_items _ s st Hi) as Hq; rewrite Eq in Hq; by apply list.Forall_cons in Hq as [[_ ?] _]).
  assert (Hsm' : Forall (fun i => stageable (plen i)) (run ++ [i])) by (apply list.Forall_app; split; [done | by constructor]).
  rewrite <- Hid, packed_steady_len_cost by done. cbn [res_bind].
  destruct (run_cost (sg_wire st) (run ++ [i]) >? limit) eqn:E2.
  { apply Hno. intros -> i' q' [= <- <-] _. zbool. cbn [app] in E2. lia. }
  destruct (pop_one_spec s st i q Hi Eq) as (st1 & -> & Hi1 & Hb & Hn). rewrite steady_id_of by done. cbn [res_bind].
  destruct (rotate_spec s st1 Hi1) as [Hi2 Hcur].
  assert (Hcl : claimed [i] st (rotate_steady_past s st1)).
  { change [i] with ([i] ++ []). eapply claimed_trans; [by eapply claimed_pop | by apply claimed_cursor]. }
  pose proof (cd_conf _ _ _ Hcl) as (Hw & _ & _ & Hmt).
  eexists true, _, [i]. split; [reflexivity|]. cbn [rn_items rn_stage]. split_and!; try done.
  - split; cbn [rn_items rn_unique rn_stage]; [done | | done | | |].
    + apply Forall_app. split; [done | by constructor].
    + rewrite run_flows_snoc. unfold add_id. by destruct (bool_decide (id_of i ∈ run_flows run)).
    + rewrite len_app, len_cons, len_nil, Hmt. zbool. lia.
    + intros _. rewrite Hw. zbool. lia.
Qed.

Lemma run_ok_cursor limit r st : run_ok limit r -> stage_inv st -> cursor_only (rn_stage r) st ->
  run_ok limit (mkRun (rn_items r) (rn_unique r) st).
Proof.
  intros [H1 H2 H2' H3 H4 H5] Hi Hc. destruct (cursor_only_conf _ _ Hc) as (Hw & _ & _ & Hm).
  split; cbn [rn_items rn_unique rn_stage]; rewrite ?Hw, ?Hm; done.
Qed.

Lemma steady_run_spec limit turns : forall took r, run_ok limit r ->
  (took = true -> sg_max_train_items (rn_stage r) - len (rn_items r) < Z.of_nat turns) ->
  exists r' popped, steady_run turns limit took r = Ok r' /\ run_ok limit r' /\
    rn_items r' = rn_items r ++ popped /\ claimed popped (rn_stage r) (rn_stage r') /\ (took = false -> r' = r).
Proof.
  induction turns as [|turns IH]; intros took r Hr Ht; (destruct took;
    [|exists r, []; cbn; rewrite app_nil_r; split_and!; try done; by apply claimed_nil]); specialize (Ht eq_refl).
  { pose proof (ro_len _ _ Hr). lia. }
  cbn [steady_run negb]. pose proof (next_steady_go_spec _ _ (ro_stage _ _ Hr) eq_refl) as Hn.
  fold (next_steady_session (rn_stage r)) in Hn. destruct (next_steady_session (rn_stage r)) as [[s|] st].
  - destruct Hn as (_ & Hc & Hi). pose proof (run_ok_cursor _ _ _ Hr Hi Hc) as Hr1.
    destruct (take_steady_head_spec s limit _ Hr1) as (took & r2 & p1 & -> & Hr2 & Hp1 & Hcl1 & _ & Hlen & _).
    cbn [res_bind rn_items rn_stage] in *. destruct (IH took r2 Hr2) as (r3 & p2 & -> & Hr3 & Hp2 & Hcl2 & _).
    { intros ->. pose proof (cd_conf _ _ _ Hcl1) as (_ & _ & _ & ->). rewrite Hp1, len_app, Hlen by done.
      rewrite (proj2 (proj2 (proj2 (cursor_only_conf _ _ Hc)))). lia. }
    exists r3, (p1 ++ p2). split_and!; try done; [by rewrite Hp2, Hp1, app_assoc|].
    change (p1 ++ p2) with ([] ++ (p1 ++ p2)). eapply claimed_trans; [by apply claimed_cursor | by eapply claimed_trans].
  - destruct Hn as (Hc & Hi & _). exists (mkRun (rn_items r) (rn_unique r) st), [].
    split_and!; [done | by apply run_ok_cursor | by rewrite app_nil_r | by apply claimed_cursor | done].
Qed.

(* ------------------------------------------------------------------ *)
(** ** Claiming *)

(** What a frame may hold: one self-describing item, or a run of steady items
    whose frame fits the limit. *)
Definition frame_of (w : Wire) (limit : Z) (shape : FrameShape) (run : list R2StageItem) : Prop :=
  match shape with
  | Standalone => exists i, run = [i] /\ is_steady i = false
  | SteadyRun => run <> [] /\ len run <= R2_MAX_TRAIN_ITEMS /\ Forall (fun i => is_steady i = true) run /\
      run_cost w run <= limit
  end.

(** One turn: nothing is queued; or a frame takes the items that left; or one
    steady item leaves because no frame can carry it. *)
Inductive claim_step (limit : Z) : bool -> list R2StageItem -> Claim -> Claim -> Prop :=
| claim_none st q d : (forall s, queue_of s st = []) ->
    claim_step limit false [] (mkClaim st q d)
      (mkClaim (with_order [] st) (mkPackedFrames (pk_frames q) (pk_items q) (sg_wire st)) d)
| claim_frame st st' q d shape popped : frame_of (sg_wire st) limit shape popped -> claimed popped st st' ->
    claim_step limit true popped (mkClaim st q d)
      (mkClaim st' (push_frame shape popped (mkPackedFrames (pk_frames q) (pk_items q) (sg_wire st))) d)
| claim_too_large st st' q d i : is_steady i = true -> limit < run_cost (sg_wire st) [i] -> claimed [i] st st' ->
    claim_step limit true [i] (mkClaim st q d)
      (mkClaim st' (mkPackedFrames (pk_frames q) (pk_items q) (sg_wire st)) (book_too_large 1 d)).

Lemma claim_one_frame_spec limit c : stage_inv (cl_stage c) -> exists more popped c',
  claim_one_frame limit c = Ok (more, c') /\ claim_step limit more popped c c' /\ stage_inv (cl_stage c').
Proof.
  destruct c as [st q d]. cbn [cl_stage]. intros Hi. unfold claim_one_frame.
  pose proof (next_session_spec st Hi) as Hn. destruct (next_session st) as [[s|] st1].
  2:{ destruct Hn as (-> & Hq & Hi1). eexists false, [], _. split_and!; [done | by constructor | done]. }
  destruct Hn as ((o' & ->) & Hq & Hi1). set (st1 := with_order o' st) in *.
  pose proof (claimed_order o' st) as Hc0. fold st1 in Hc0. change (sg_wire st) with (sg_wire st1).
  change (queue_of s st) with (queue_of s st1) in Hq. destruct (queue_of s st1) as [|i qs] eqn:Eq; [done|].
  rewrite front_queue, Eq. cbn [head]. destruct (is_steady i) eqn:Es; cbn [negb].
  - assert (Hr0 : run_ok limit (mkRun [] [] st1)).
    { split; cbn [rn_items rn_unique rn_stage]; try done. pose proof (sv_train _ _ Hi1). rewrite len_nil. lia. }
    destruct (take_steady_head_spec s limit _ Hr0) as (took & r & p1 & -> & Hr & Hp1 & Hcl1 & Hno & Hlen & Hbig).
    cbn [res_bind rn_items rn_stage app] in *.
    destruct (steady_run_spec limit (Z.to_nat (sg_max_train_items st1)) took r Hr) as (r2 & p2 & -> & Hr2 & Hp2 & Hcl2 & Hno2).
    { intros ->. rewrite Hp1, Hlen by done. rewrite (proj2 (proj2 (proj2 (cd_conf _ _ _ Hcl1)))).
      pose proof (sv_train _ _ Hi1). lia. }
    cbn [res_bind]. pose proof (claimed_trans _ _ _ _ _ Hcl1 Hcl2) as Hcl. rewrite Hp1 in Hp2.
    destruct (rn_items r2) as [|i0 run] eqn:Er.
    + destruct took; [specialize (Hlen eq_refl); destruct p1; [done | by destruct p2]|].
      rewrite (Hno eq_refl) in *. rewrite (Hno2 eq_refl) in *. cbn [rn_stage].
      rewrite steady_head_queue, Eq, Es. destruct (pop_one_spec s st1 i qs Hi1 Eq) as (st2 & -> & Hi2 & Hb & Hcnt).
      eexists true, [i], _. split_and!; [done | | done].
      apply (claim_too_large limit st st2 q d i Es); [by eapply Hbig|]. change [i] with ([] ++ [i]).
      eapply claimed_trans; [exact Hc0 | by eapply claimed_pop].
    + eexists true, (i0 :: run), _. split_and!; [done | | apply Hr2].
      rewrite Hp2. apply (claim_frame limit st _ q d SteadyRun).
      * rewrite <- Hp2, <- Er. pose proof (cd_conf _ _ _ Hcl) as (Hw & _ & _ & Hm).
        split_and!; [by rewrite Er | | apply Hr2 |].
        -- pose proof (ro_len _ _ Hr2). pose proof (sv_train _ _ Hi1). lia.
        -- change (sg_wire st) with (sg_wire st1). rewrite <- Hw. apply Hr2. by rewrite Er.
      * change (p1 ++ p2) with ([] ++ (p1 ++ p2)). by eapply claimed_trans.
  - destruct (pop_one_spec s st1 i qs Hi1 Eq) as (st2 & -> & Hi2 & Hb & Hcnt).
    eexists true, [i], _. split_and!; [done | | done]. apply (claim_frame limit st st2 q d Standalone); [by exists i|].
    change [i] with ([] ++ [i]). eapply claimed_trans; [exact Hc0 | by eapply claimed_pop].
Qed.

(** What one turn took from the queue: a frame's items, or one item dropped. *)
Inductive Piece : Type :=
| PFrame (shape : FrameShape) (run : list R2StageItem)
| PDrop (i : R2StageItem).

Definition piece_items (p : Piece) : list R2StageItem :=
  match p with PFrame _ run => run | PDrop i => [i] end.
Definition piece_ok (w : Wire) (limit : Z) (p : Piece) : Prop :=
  match p with
  | PFrame shape run => frame_of w limit shape run
  | PDrop i => is_steady i = true /\ limit < run_cost w [i]
  end.
Definition put_piece (q : PackedFrames) (p : Piece) : PackedFrames :=
  match p with PFrame shape run => push_frame shape run q | PDrop _ => q end.
Definition piece_drops (p : Piece) : Z := match p with PFrame _ _ => 0 | PDrop _ => 1 end.

Definition retag (w : Wire) (q : PackedFrames) : PackedFrames := mkPackedFrames (pk_frames q) (pk_items q) w.

Lemma book_too_large_0 d : is_u64 (dr_too_large d) -> book_too_large 0 d = d.
Proof. intros H. destruct d. unfold book_too_large. cbn in *. f_equal. unfold as_u64, is_u64 in *. rewrite Z.mod_small; lia. Qed.

Lemma book_too_large_add n m d : book_too_large m (book_too_large n d) = book_too_large (n + m) d.
Proof. unfold book_too_large. cbn. f_equal. unfold as_u64. rewrite Z.add_mod_idemp_l by done. f_equal. lia. Qed.

Lemma book_too_large_u64 n d : is_u64 (dr_too_large (book_too_large n d)).
Proof. cbn. unfold as_u64, is_u64. apply Z.mod_pos_bound. lia. Qed.

Lemma retag_pieces w l q : retag w (fold_left put_piece l (retag w q)) = fold_left put_piece l (retag w q).
Proof.
  assert (Hw : forall q, pk_wire (fold_left put_piece l q) = pk_wire q).
  { induction l as [|p l IH]; intros q'; cbn; [done|]. rewrite IH. by destruct p. }
  specialize (Hw (retag w q)). destruct (fold_left put_piece l (retag w q)). unfold retag. cbn in *. by subst.
Qed.

(** A batch: the pieces it consists of, in order. *)
Record batch (limit : Z) (pieces : list Piece) (c c' : Claim) : Prop := mkBatch {
  bt_ok : Forall (piece_ok (sg_wire (cl_stage c)) limit) pieces;
  bt_claimed : claimed (concat (piece_items <$> pieces)) (cl_stage c) (cl_stage c');
  bt_packed : cl_packed c' = fold_left put_piece pieces (retag (sg_wire (cl_stage c)) (cl_packed c));
  bt_drops : cl_drops c' = book_too_large (lsum piece_drops pieces) (cl_drops c)
}.

Lemma piece_nonempty w limit p : piece_ok w limit p -> 1 <= len (piece_items p).
Proof.
  destruct p as [[] run|i]; cbn.
  - by intros (i & -> & _).
  - intros [Hr _]. by apply len_nonempty.
  - done.
Qed.

Lemma claim_step_batch limit popped c c' : is_u64 (dr_too_large (cl_drops c)) ->
  claim_step limit true popped c c' -> exists p, piece_ok (sg_wire (cl_stage c)) limit p /\ popped = piece_items p /\
    batch limit [p] c c'.
Proof.
  intros Hd Hs. inversion Hs as [|st st' q d shape run Hf Hc|st st' q d i Hst Hbig Hc]; subst; cbn [cl_stage cl_drops] in *.
  - exists (PFrame shape popped). split_and!; [done | done|]. split; cbn.
    + by constructor.
    + by rewrite app_nil_r.
    + done.
    + by rewrite book_too_large_0.
  - exists (PDrop i). split_and!; [done | done|]. split; cbn; try done. by constructor.
Qed.

Lemma batch_nil limit c : is_u64 (dr_too_large (cl_drops c)) -> pk_wire (cl_packed c) = sg_wire (cl_stage c) ->
  batch limit [] c c.
Proof.
  intros Hd Hw. split; cbn; [constructor | by apply claimed_nil | | by rewrite book_too_large_0].
  unfold retag. rewrite <- Hw. by destruct (cl_packed c).
Qed.

Lemma batch_app limit p1 p2 c1 c2 c3 : batch limit p1 c1 c2 -> batch limit p2 c2 c3 -> batch limit (p1 ++ p2) c1 c3.
Proof.
  intros [O1 C1 P1 D1] [O2 C2 P2 D2]. pose proof (cd_conf _ _ _ C1) as (Hw & _). rewrite Hw in O2, P2. split.
  - by apply Forall_app.
  - rewrite fmap_app, concat_app. by eapply claimed_trans.
  - by rewrite P2, P1, fold_left_app, retag_pieces.
  - rewrite D2, D1, book_too_large_add, lsum_app. done.
Qed.

Lemma batch_u64 limit p c c' : batch limit p c c' -> is_u64 (dr_too_large (cl_drops c')).
Proof. intros B. rewrite (bt_drops _ _ _ _ B). apply book_too_large_u64. Qed.

Lemma claimed_all_empty st : stage_inv st -> (forall s, queue_of s st = []) <-> sg_queued_items st = 0.
Proof.
  intros Hi. rewrite (sv_items _ _ Hi). split; [|apply msum_zero].
  intros Hq. unfold items_sum. change (msum len (sg_sessions st) = 0). unfold queue_of in Hq.
  revert Hq. generalize (sg_sessions st). intros m. induction m as [|s q m Hm IH] using map_ind; intros Hq; [done|].
  rewrite msum_insert_new by done. pose proof (Hq s) as Hs. rewrite lookup_insert_eq in Hs. cbn in Hs. subst q. rewrite IH; [done|].
  intros s'. destruct (decide (s' = s)) as [-> | Hne]; [by rewrite Hm|]. specialize (Hq s'). by rewrite lookup_insert_ne in Hq.
Qed.

(** The order the last turn leaves behind does not matter. *)
Lemma batch_order limit p c c' : batch limit p c c' ->
  batch limit p c (mkClaim (with_order [] (cl_stage c')) (retag (sg_wire (cl_stage c)) (cl_packed c')) (cl_drops c')).
Proof.
  intros [O C P D]. split; cbn [cl_stage cl_packed cl_drops]; try done.
  - rewrite <- (app_nil_r (concat _)). eapply claimed_trans; [exact C | apply claimed_order].
  - by rewrite P, retag_pieces.
Qed.

Lemma claim_go_spec limit mf mi sf si : forall turns c, stage_inv (cl_stage c) ->
  is_u64 (dr_too_large (cl_drops c)) -> pk_wire (cl_packed c) = sg_wire (cl_stage c) ->
  sg_queued_items (cl_stage c) < Z.of_nat turns -> exists pieces c',
  claim_go turns limit mf mi sf si c = Ok c' /\ stage_inv (cl_stage c') /\ batch limit pieces c c' /\
  (len (pk_frames (cl_packed c)) - sf < mf -> len (pk_items (cl_packed c)) - si < mi ->
   0 < sg_queued_items (cl_stage c) -> pieces <> []).
Proof.
  induction turns as [|turns IH]; intros c Hi Hd Hw Ht.
  { pose proof (sv_items _ _ Hi) as Hn. pose proof (msum_nonneg len len_list_nonneg (sg_sessions (cl_stage c))) as Hp.
    change (items_sum _) with (msum len (sg_sessions (cl_stage c))) in Hn. lia. }
  cbn [claim_go]. destruct (_ && _) eqn:Eb.
  2:{ exists [], c. split_and!; [done | done | by apply batch_nil|]. intros H1 H2 _. apply andb_false_iff in Eb as [Eb|Eb]; zbool; lia. }
  destruct (claim_one_frame_spec limit c Hi) as (more & popped & c1 & -> & Hs & Hi1). cbn [res_bind]. destruct more.
  - destruct (claim_step_batch _ _ _ _ Hd Hs) as (p & Hp & -> & Hb). pose proof (piece_nonempty _ _ _ Hp) as Hne.
    pose proof (cd_items _ _ _ (bt_claimed _ _ _ _ Hb)) as Hcnt. cbn in Hcnt. rewrite app_nil_r in Hcnt.
    assert (Hw1 : pk_wire (cl_packed c1) = sg_wire (cl_stage c1)).
    { rewrite (bt_packed _ _ _ _ Hb), (proj1 (cd_conf _ _ _ (bt_claimed _ _ _ _ Hb))). by destruct p. }
    destruct (IH c1 Hi1 (batch_u64 _ _ _ _ Hb) Hw1 ltac:(lia)) as (ps & c2 & -> & Hi2 & Hb2 & _).
    exists ([p] ++ ps), c2. split_and!; [done | done | by eapply batch_app | done].
  - inversion Hs as [st q d Hq| |]; subst; cbn [cl_stage cl_packed cl_drops] in *. exists [], (mkClaim (with_order [] st) (retag (sg_wire st) q) d).
    split_and!; [done | done | |].
    + apply (batch_order limit [] (mkClaim st q d) (mkClaim st q d)). by apply batch_nil.
    + intros _ _ Hpos. apply (claimed_all_empty st Hi) in Hq. lia.
Qed.

(** One batch: it never runs out of turns, takes at least one item from a
    non-empty queue, and what it takes leaves each session's queue in order. *)
Lemma claim_batch_spec limit mf mi c : stage_inv (cl_stage c) -> is_u64 (dr_too_large (cl_drops c)) ->
  0 < mf -> 0 < mi -> exists pieces c',
  claim_batch limit mf mi c = Ok (negb (stager_is_empty (cl_stage c')), c') /\ stage_inv (cl_stage c') /\
  batch limit pieces c c' /\ (0 < sg_queued_items (cl_stage c) -> pieces <> []).
Proof.
  destruct c as [st q d]. cbn [cl_stage cl_drops]. intros Hi Hd Hf Hm. unfold claim_batch.
  set (c0 := mkClaim st (mkPackedFrames (pk_frames q) (pk_items q) (sg_wire st)) d).
  destruct (claim_go_spec limit mf mi (len (pk_frames q)) (len (pk_items q)) (S (Z.to_nat (sg_queued_items st))) c0)
    as (pieces & c' & E & Hi' & Hb & Hne); try done; [cbn; lia|].
  cbn [pk_frames pk_items c0] in E |- *. rewrite E. exists pieces, c'. split_and!; [done | done | |].
  - destruct Hb as [O C P D]. by split.
  - intros Hp. apply Hne; cbn; lia.
Qed.

End Claiming.

Abbreviation stage_inv := (stage_inv_but ∅).
