(* ===== verification/StageRun.v ===== *)
(** The egress stager in use: batch pushes, the teardown paths, any sequence of
    operations on the queue, and the order in which items leave it. *)
From stdpp Require Import fin_maps.
From S2P Require Import Prelude Addr R3 R2 Wire Stage.

Section Run.
Context {BU : Build}.

(* ------------------------------------------------------------------ *)
(** ** Batches of pushes *)

(** One [push] after another, up to the first that does not fit. *)
Fixpoint push_each (items : list R2StageItem) (st : R2Stager) : list R2StageItem * R2Stager :=
  match items with
  | [] => ([], st)
  | item :: items' =>
      match push item st with
      | (Ok _, st) => push_each items' st
      | (_, st) => (items, st)
      end
  end.

Lemma push_shape item st : no_space item st = false -> exists st', push item st = (Ok (sg_queued_items st'), st') /\
  sg_queued_items st' = sg_queued_items st + 1 /\ sg_queued_bytes st' = sg_queued_bytes st + len (si_payload item) /\
  sg_max_items st' = sg_max_items st /\ sg_max_bytes st' = sg_max_bytes st.
Proof.
  intros E. unfold push. rewrite E. eexists. split; [reflexivity|].
  set (st0 := if bool_decide _ then with_order _ st else st).
  assert (H0 : sg_queued_items st0 = sg_queued_items st /\ sg_queued_bytes st0 = sg_queued_bytes st /\
    sg_max_items st0 = sg_max_items st /\ sg_max_bytes st0 = sg_max_bytes st) by (unfold st0; by case_match).
  destruct (bool_decide _); [|done].
  set (st1 := add_counts item _).
  destruct (add_steady_head_cursor (si_session item) st1) as (o & m & ->). done.
Qed.

Lemma push_full item st : no_space item st = true -> push item st = (Err item, st).
Proof. intros E. unfold push. by rewrite E. Qed.

Lemma batch_accepted_bound items : forall k b st, k <= batch_accepted items k b st <= k + len items.
Proof.
  induction items as [|i items IH]; intros k b st; cbn [batch_accepted]; [rewrite len_nil; lia|].
  rewrite len_cons. pose proof (len_nonneg items). case_match; [lia|]. specialize (IH (k + 1) (b + len (si_payload i)) st). lia.
Qed.

(** The count of the first pass does not depend on where it starts. *)
Lemma batch_accepted_shift items : forall k b st st', sg_queued_items st' = sg_queued_items st + 1 ->
  sg_max_items st' = sg_max_items st -> sg_max_bytes st' = sg_max_bytes st ->
  batch_accepted items (k + 1) b st = batch_accepted items k b st' + 1.
Proof.
  induction items as [|i items IH]; intros k b st st' Hn Hi Hb; cbn [batch_accepted]; [done|].
  rewrite Hn, Hi, Hb. replace (sg_queued_items st + 1 + k) with (sg_queued_items st + (k + 1)) by lia.
  case_match; [done|]. by apply IH.
Qed.

Lemma push_all_each items : forall st,
  let n := Z.to_nat (batch_accepted items 0 (sg_queued_bytes st) st) in
  push_all (take n items) st = Ok (push_each items st).2 /\ drop n items = (push_each items st).1.
Proof.
  induction items as [|i items IH]; intros st; cbn [batch_accepted push_each]; [done|].
  fold (no_space i st). replace (_ || _) with (no_space i st) by (unfold no_space; by rewrite Z.add_0_r).
  destruct (no_space i st) eqn:E; [by rewrite push_full|].
  destruct (push_shape i st E) as (st' & Hp & Hn & Hb & Hi & Hm). rewrite (batch_accepted_shift _ _ _ st st') by done.
  rewrite <- Hb, Hp. pose proof (batch_accepted_bound items 0 (sg_queued_bytes st') st').
  replace (Z.to_nat (batch_accepted items 0 (sg_queued_bytes st') st' + 1)) with
    (S (Z.to_nat (batch_accepted items 0 (sg_queued_bytes st') st'))) by lia.
  cbn [take drop push_all]. rewrite Hp. apply IH.
Qed.

Lemma push_batch_eq items st :
  exists r, push_batch items st = Ok (r, (push_each items st).1, (push_each items st).2) /\
    r = if bool_decide ((push_each items st).1 = []) then Ok (sg_queued_items (push_each items st).2)
        else Err (len items - len (push_each items st).1).
Proof.
  unfold push_batch. case_bool_decide as Hn; [subst; by eexists|].
  destruct (push_all_each items st) as [-> Hd]. cbn [res_bind]. rewrite Hd. eexists. split; [reflexivity|].
  set (n := batch_accepted items 0 (sg_queued_bytes st) st) in *.
  pose proof (batch_accepted_bound items 0 (sg_queued_bytes st) st) as Hb. fold n in Hb.
  assert (Hl : len (push_each items st).1 = len items - n).
  { rewrite <- Hd. unfold len in *. rewrite length_drop. lia. }
  destruct (n =? len items) eqn:E; zbool.
  - rewrite bool_decide_eq_true_2; [done|]. destruct (push_each items st).1; [done|]. rewrite len_cons in Hl.
    pose proof (len_nonneg l). lia.
  - rewrite bool_decide_eq_false_2; [f_equal; lia|]. intros H0. rewrite H0, len_nil in Hl. lia.
Qed.

Lemma push_each_inv items : Forall (fun i => stageable (plen i)) items -> forall st, stage_inv st -> stage_inv (push_each items st).2 /\ same_conf st (push_each items st).2.
Proof.
  induction 1 as [|i items Hsm _ IH]; intros st Hi; cbn [push_each]; [done|].
  destruct (push i st) as [r st'] eqn:E. destruct (push_spec i st r st' Hi Hsm E) as [(-> & -> & _)|(_ & -> & Hi' & [Hc _] & _)]; [done|].
  destruct (IH st' Hi') as [? ?]. split; [done | by etrans].
Qed.

(** What no operation changes. *)
Definition same_limits (st st' : R2Stager) : Prop := sg_wire st' = sg_wire st /\ sg_max_items st' = sg_max_items st.

#[export] Instance same_limits_preorder : PreOrder same_limits.
Proof. split; [by intros st | intros ? ? ? (? & ?) (? & ?); split; congruence]. Qed.

Lemma same_conf_limits st st' : same_conf st st' -> same_limits st st'.
Proof. by intros (? & ? & _). Qed.

(* ------------------------------------------------------------------ *)
(** ** Teardown *)

Lemma drop_counts_eq q : forall st, len q <= sg_queued_items st -> payload_sum q <= sg_queued_bytes st ->
  drop_counts q st = with_counts (sg_queued_items st - len q) (sg_queued_bytes st - payload_sum q) st.
Proof.
  induction q as [|i q IH]; intros st Hn Hb; cbn [drop_counts].
  - rewrite len_nil. change (payload_sum []) with 0. rewrite !Z.sub_0_r. by destruct st.
  - rewrite len_cons in *. rewrite payload_sum_cons in *. pose proof (len_nonneg q). pose proof (payload_sum_nonneg q).
    rewrite !saturating_sub_le by lia. rewrite IH; cbn [sg_queued_items sg_queued_bytes with_counts]; [|lia..].
    unfold with_counts. cbn. f_equal; lia.
Qed.

(** What a teardown leaves: the items of [keep], in their order. *)
Record purged (keep : R2StageItem -> bool) (n : Z) (st st' : R2Stager) : Prop := mkPurged {
  pu_inv : stage_inv st';
  pu_conf : same_conf st st';
  pu_queue : forall s, queue_of s st' = List.filter keep (queue_of s st);
  pu_count : n = sg_queued_items st - sg_queued_items st'
}.

Lemma filter_all {A} (f : A -> bool) l : Forall (fun x => f x = true) l -> List.filter f l = l.
Proof. induction 1 as [|x l Hx _ IH]; cbn; [done|]. by rewrite Hx, IH. Qed.

Lemma filter_none {A} (f : A -> bool) l : Forall (fun x => f x = false) l -> List.filter f l = [].
Proof. induction 1 as [|x l Hx _ IH]; cbn; [done|]. by rewrite Hx. Qed.

Lemma drop_session_spec s st d n st' d' : stage_inv st -> drop_session s st d = (n, st', d') ->
  purged (fun i => negb (si_session i =? s)) n st st' /\ (d' = book_egress_dead n d \/ n = 0).
Proof.
  intros Hi Hd. unfold drop_session in Hd.
  assert (Hothers : forall s', s' <> s -> List.filter (fun i => negb (si_session i =? s)) (queue_of s' st) = queue_of s' st).
  { intros s' Hne. apply filter_all. eapply list.Forall_impl; [by eapply (queue_own _ s')|].
    cbn. intros i <-. by rewrite (proj2 (Z.eqb_neq _ _)). }
  assert (Hown : List.filter (fun i => negb (si_session i =? s)) (queue_of s st) = []).
  { apply filter_none. eapply list.Forall_impl; [by eapply (queue_own _ s)|]. cbn. intros i ->. by rewrite Z.eqb_refl. }
  destruct (sg_sessions st !! s) as [q|] eqn:Em.
  - pose proof (queue_lookup _ _ _ Em) as Hq. destruct (queue_counts _ s st Hi) as [Hc1 Hc2]. rewrite Hq in *.
    rewrite drop_counts_eq in Hd by done. cbn [sg_queued_items sg_queued_bytes with_sessions] in Hd.
    set (st1 := with_counts _ _ _) in Hd. injection Hd as <- <- <-.
    assert (Q : queue_set s [] st st1).
    { unfold st1. split; try done.
      - unfold queue_of. cbn. by rewrite lookup_delete_eq.
      - intros s' Hne. cbn. by rewrite lookup_delete_ne.
      - rewrite Hq, len_nil. cbn. lia.
      - rewrite Hq. cbn. lia. }
    assert (Hi1 : stage_inv_but ({[s]} ∪ ∅) st1).
    { eapply queue_set_inv; [exact Hi | exact Q | constructor | |].
      - rewrite Hq, len_nil. pose proof (sv_max_items _ _ Hi). pose proof (len_nonneg q). lia.
      - rewrite Hq. cbn. pose proof (sv_max_bytes _ _ Hi). pose proof (payload_sum_nonneg q). lia. }
    pose proof (forget_steady_cursor s st1) as Hcur. destruct (queue_set_become _ _ _ _ _ Q Hcur) as [Hconf Hbec].
    split; [|by left]. split; [apply forget_steady_inv; [done|]; by rewrite steady_head_queue, (qs_queue _ _ _ _ Q) | done | |].
    + intros s'. rewrite Hbec. case_decide as Hd; [by rewrite Hd, Hq, Hown | by rewrite Hothers].
    + rewrite (cursor_only_items _ _ Hcur). cbn. lia.
  - injection Hd as <- <- <-. split; [|by right]. split; [done | done | | lia].
    intros s'. destruct (decide (s' = s)) as [-> | Hne]; [|by rewrite Hothers]. unfold queue_of. by rewrite Em.
Qed.

Lemma filter_len_le {A} (f : A -> bool) (l : list A) : len (List.filter f l) <= len l.
Proof. unfold len. pose proof (filter_length_le f l). lia. Qed.

Lemma payload_sum_filter f q : payload_sum q = payload_sum (List.filter f q) + payload_sum (List.filter (fun i => negb (f i)) q).
Proof.
  induction q as [|i q IH]; [done|]. cbn [List.filter]. rewrite payload_sum_cons, IH.
  destruct (f i); cbn [negb]; rewrite payload_sum_cons; lia.
Qed.

Lemma filter_len_eq {A} (f : A -> bool) (l : list A) : len (List.filter f l) = len l -> List.filter f l = l.
Proof.
  induction l as [|x l IH]; [done|]. cbn [List.filter]. destruct (f x).
  - rewrite !len_cons. intros H. f_equal. apply IH. lia.
  - rewrite len_cons. pose proof (filter_len_le f l). lia.
Qed.

Lemma filter_own (P : R2StageItem -> Prop) f q : Forall P q -> Forall P (List.filter f q).
Proof. induction 1 as [|x l Hx _ IH]; cbn; [constructor|]. destruct (f x); [by constructor | done]. Qed.

(** Only the queue of one session is filtered. *)
Definition keep_in (s : Z) (f : R2StageItem -> bool) (i : R2StageItem) : bool := negb (si_session i =? s) || f i.

Lemma keep_in_same X s f st : stage_inv_but X st -> List.filter (keep_in s f) (queue_of s st) = List.filter f (queue_of s st).
Proof.
  intros Hi. pose proof (queue_own X s st Hi) as Ho. induction Ho as [|i q Hs _ IH]; [done|]. cbn.
  unfold keep_in at 1. rewrite Hs, Z.eqb_refl. cbn. by rewrite IH.
Qed.

Lemma keep_in_other X s s' f st : stage_inv_but X st -> s' <> s -> List.filter (keep_in s f) (queue_of s' st) = queue_of s' st.
Proof.
  intros Hi Hne. apply filter_all. eapply list.Forall_impl; [by eapply (queue_own X s')|].
  cbn. intros i <-. unfold keep_in. by rewrite (proj2 (Z.eqb_neq _ _)).
Qed.

Lemma drop_flow_scoped_spec s id st d n st' d' : stage_inv st -> drop_flow_scoped s id st d = (n, st', d') ->
  purged (keep_in s (other_flow id)) n st st' /\ (d' = book_egress_dead n d \/ n = 0).
Proof.
  intros Hi Hd. unfold drop_flow_scoped in Hd. destruct (sg_sessions st !! s) as [q|] eqn:Em.
  2:{ injection Hd as <- <- <-. split; [|by right]. split; [done | done | | lia]. intros s'.
      destruct (decide (s' = s)) as [-> | Hne]; [|by erewrite keep_in_other]. unfold queue_of. by rewrite Em. }
  pose proof (queue_lookup _ _ _ Em) as Hq. destruct (queue_counts _ s st Hi) as [Hc1 Hc2]. rewrite Hq in Hc1, Hc2.
  set (kept := List.filter (other_flow id) q) in *. pose proof (filter_len_le (other_flow id) q) as Hle. fold kept in Hle.
  pose proof (payload_sum_filter (other_flow id) q) as Hps. fold kept in Hps.
  pose proof (payload_sum_nonneg kept) as Hpk. pose proof (len_nonneg kept) as Hlk.
  set (freed := payload_sum (List.filter _ q)) in *. pose proof (payload_sum_nonneg (List.filter (fun i => negb (other_flow id i)) q)) as Hpf.
  fold freed in Hpf. destruct (len q - len kept =? 0) eqn:E0; zbool.
  - injection Hd as <- <- <-. assert (Hk : kept = q) by (apply filter_len_eq; fold kept; lia). rewrite Hk, insert_id by done.
    split; [|by right]. split; [by destruct Hi; split | done | | cbn; lia]. intros s'.
    change (queue_of s' (with_sessions (sg_sessions st) st)) with (queue_of s' st).
    destruct (decide (s' = s)) as [-> | Hne]; [|by erewrite keep_in_other]. erewrite keep_in_same by done. rewrite Hq. by fold kept.
  - cbn [sg_queued_items sg_queued_bytes with_sessions] in Hd. rewrite !saturating_sub_le in Hd by lia.
    set (st1 := with_counts _ _ _) in Hd. injection Hd as <- <- <-.
    assert (Q : queue_set s kept st st1).
    { unfold st1. split; try done.
      - unfold queue_of. cbn. by rewrite lookup_insert_eq.
      - intros s' Hne. cbn. by rewrite lookup_insert_ne.
      - rewrite Hq. cbn. lia.
      - rewrite Hq. cbn. lia.
      - intros Hne. cbn. apply (sv_order _ _ Hi). rewrite Hq. intros ->. done. }
    assert (Hi1 : stage_inv_but ({[s]} ∪ ∅) st1).
    { eapply queue_set_inv; [exact Hi | exact Q | | |].
      - apply filter_own. rewrite <- Hq. by eapply queue_items.
      - rewrite Hq. pose proof (sv_max_items _ _ Hi). lia.
      - rewrite Hq. pose proof (sv_max_bytes _ _ Hi). lia. }
    pose proof (reseat_cursor s st1) as Hcur. destruct (queue_set_become _ _ _ _ _ Q Hcur) as [Hconf Hbec].
    split; [|by left]. split; [by apply reseat_inv | done | |].
    + intros s'. rewrite Hbec. case_decide as Hd; [|by erewrite keep_in_other]. subst s'. erewrite keep_in_same by done. by rewrite Hq.
    + rewrite (cursor_only_items _ _ Hcur). cbn. lia.
Qed.

(** *** All queues at once *)

Section FilterAll.
Context (f : R2StageItem -> bool).

Lemma msum_filter_le g m : (forall q, g (List.filter f q) <= g q) -> msum g (List.filter f <$> m) <= msum g m.
Proof.
  intros Hg. induction m as [|s q m Hm IH] using map_ind; [by rewrite fmap_empty|].
  rewrite fmap_insert, !msum_insert_new by (rewrite ?lookup_fmap, ?Hm; done). specialize (Hg q). lia.
Qed.

Lemma msum_filter_eq m : msum len (List.filter f <$> m) = msum len m -> List.filter f <$> m = m.
Proof.
  induction m as [|s q m Hm IH] using map_ind; [by rewrite fmap_empty|].
  rewrite fmap_insert, !msum_insert_new by (rewrite ?lookup_fmap, ?Hm; done). intros He.
  pose proof (filter_len_le f q). pose proof (msum_filter_le len m (filter_len_le f)).
  rewrite IH by lia. rewrite filter_len_eq by lia. done.
Qed.
End FilterAll.

Lemma queue_of_filter f s st : queue_of s (with_sessions (List.filter f <$> sg_sessions st) st) = List.filter f (queue_of s st).
Proof. unfold queue_of. cbn. rewrite lookup_fmap. by destruct (sg_sessions st !! s). Qed.

Lemma insert_sorted_elem x l y : y ∈ insert_sorted x l <-> y = x \/ y ∈ l.
Proof. induction l as [|z l IH]; cbn; [set_solver|]. case_match; set_solver. Qed.

Lemma sort_ids_elem l y : y ∈ sort_ids l <-> y ∈ l.
Proof. induction l as [|x l IH]; cbn; [done|]. rewrite insert_sorted_elem, IH. set_solver. Qed.

Lemma fold_add_steady l : forall X st, stage_inv_but (list_to_set l ∪ X) st ->
  stage_inv_but X (foldl (fun st s => add_steady_head s st) st l) /\
  cursor_only st (foldl (fun st s => add_steady_head s st) st l).
Proof.
  induction l as [|s l IH]; intros X st Hi; cbn [foldl].
  - split; [by replace X with (list_to_set [] ∪ X) by set_solver|]. exists (sg_steady_order st), (sg_steady_mark st). by destruct st.
  - destruct (IH X (add_steady_head s st)) as [H1 (o & m & H2)].
    { apply add_steady_head_inv. by replace ({[s]} ∪ (list_to_set l ∪ X)) with (list_to_set (s :: l) ∪ X) by set_solver. }
    split; [done|]. destruct (add_steady_head_cursor s st) as (o1 & m1 & H3). rewrite H2, H3. by exists o, m.
Qed.

Lemma stage_drop_flow_spec id st d n st' d' : stage_inv st -> drop_flow id st d = (n, st', d') ->
  purged (other_flow id) n st st' /\ (d' = book_egress_dead n d \/ n = 0).
Proof.
  intros Hi Hd. unfold drop_flow in Hd. set (f := other_flow id) in *. set (kept := List.filter f <$> sg_sessions st) in *.
  pose proof (msum_filter_le f len (sg_sessions st) (filter_len_le f)) as Hli. fold kept in Hli.
  assert (Hlb : msum payload_sum kept <= msum payload_sum (sg_sessions st)).
  { apply msum_filter_le. intros q. rewrite (payload_sum_filter f q).
    pose proof (payload_sum_nonneg (List.filter (fun i => negb (f i)) q)). lia. }
  change (msum len kept) with (items_sum kept) in Hli. change (msum len (sg_sessions st)) with (items_sum (sg_sessions st)) in Hli.
  change (msum payload_sum kept) with (bytes_sum kept) in Hlb. change (msum payload_sum (sg_sessions st)) with (bytes_sum (sg_sessions st)) in Hlb.
  pose proof (sv_items _ _ Hi) as Hn. pose proof (sv_bytes _ _ Hi) as Hb.
  pose proof (sv_max_items _ _ Hi) as Hmi. pose proof (sv_max_bytes _ _ Hi) as Hmb.
  destruct (items_sum (sg_sessions st) - items_sum kept =? 0) eqn:E0; zbool.
  - injection Hd as <- <- <-. assert (Hk : kept = sg_sessions st) by (apply msum_filter_eq; change (items_sum kept = items_sum (sg_sessions st)); lia).
    split; [|by right]. split; [rewrite Hk; by destruct Hi; split | done | | cbn; lia]. intros s. apply queue_of_filter.
  - set (touched := sort_ids _) in Hd. set (st1 := with_counts _ _ _) in Hd.
    set (o := List.filter (fun s => steady_head s st1) (sg_steady_order st1)) in Hd. set (st2 := with_steady _ _ st1) in Hd. injection Hd as <- <- <-.
    assert (Hq1 : forall s, queue_of s st2 = List.filter f (queue_of s st)) by (intros s; apply (queue_of_filter f s st)).
    assert (Hi2 : stage_inv_but (list_to_set touched ∪ ∅) st2).
    { destruct Hi as [I1 I2 I3 I4 I5 I6 I7 I8 I9 I10]. split; cbn; try done; try lia.
      - intros s q. unfold kept. rewrite lookup_fmap. destruct (sg_sessions st !! s) as [q0|] eqn:Eq; [|done].
        intros [= <-]. apply filter_own. by eapply I5.
      - intros s Hs. change (queue_of s st2 <> []) in Hs. rewrite Hq1 in Hs. apply I6. intros H0. by rewrite H0 in Hs.
      - intros s. by rewrite elem_of_list_to_set.
      - by apply filter_nodup.
      - intros s Hx Hs. unfold o. rewrite list_elem_of_In, filter_In, <- list_elem_of_In.
        change (steady_head s st2 = true) in Hs. change (steady_head s st1) with (steady_head s st2). split; [|done].
        apply I9; [set_solver|]. rewrite <- Hs, !steady_head_queue, Hq1. rewrite filter_all; [done|].
        unfold queue_of. destruct (sg_sessions st !! s) as [q|] eqn:Eq; [|constructor]. cbn.
        apply list.Forall_forall. intros i Hin. destruct (f i) eqn:Ef; [done|]. destruct Hx. apply elem_of_union_l, elem_of_list_to_set, sort_ids_elem.
        apply list_elem_of_fmap. exists (s, q). split; [done|]. apply elem_of_map_to_list, map_lookup_filter_Some. split; [done|]. cbn.
        apply negb_true_iff, not_true_iff_false. rewrite forallb_forall. intros Hall. apply list_elem_of_In in Hin. rewrite (Hall i Hin) in Ef. done. }
    destruct (fold_add_steady touched ∅ st2 Hi2) as [Hi3 Hcur]. split; [|by left].
    split; [done | etrans; [|by apply cursor_only_conf]; done | |].
    + intros s. by rewrite (cursor_only_queue _ _ s Hcur), Hq1.
    + rewrite (cursor_only_items _ _ Hcur). cbn. lia.
Qed.

(* ------------------------------------------------------------------ *)
(** ** Sequences of operations *)

Inductive StageOp : Type :=
| SPush (item : R2StageItem)
| SPushBatch (items : list R2StageItem)
| SRequeue (item : R2StageItem)                        (** [push_front] of an unsent item *)
| SClaim (limit max_frames max_items : Z)
| SDropSession (session : Z)
| SDropFlow (wire_id : Z)
| SDropFlowScoped (session wire_id : Z)
| SClear
| SMaxTrain (n : Z).

Definition do_stage_op (op : StageOp) (st : R2Stager) (d : Drops) : res unit (R2Stager * Drops) :=
  match op with
  | SPush item => Ok ((push item st).2, d)
  | SPushBatch items => let! '(_, _, st) := push_batch items st in Ok (st, d)
  | SRequeue item => Ok ((push_front item st).2, d)
  | SClaim limit mf mi =>
      let! '(_, c) := claim_batch limit mf mi (mkClaim st PackedFrames_default d) in Ok (cl_stage c, cl_drops c)
  | SDropSession s => let '(_, st, d) := drop_session s st d in Ok (st, d)
  | SDropFlow id => let '(_, st, d) := drop_flow id st d in Ok (st, d)
  | SDropFlowScoped s id => let '(_, st, d) := drop_flow_scoped s id st d in Ok (st, d)
  | SClear => Ok ((stager_clear st).2, d)
  | SMaxTrain n => Ok (set_max_train_items n st, d)
  end.

Fixpoint run_stage (ops : list StageOp) (st : R2Stager) (d : Drops) : res unit (R2Stager * Drops) :=
  match ops with
  | [] => Ok (st, d)
  | op :: ops => let! '(st, d) := do_stage_op op st d in run_stage ops st d
  end.

(** What the callers owe: payloads inside the staging contract, where the build
    asserts it, and batches that may take something. *)
Definition stage_op_wf (op : StageOp) : Prop :=
  match op with
  | SPush i | SRequeue i => stageable (plen i)
  | SPushBatch l => Forall (fun i => stageable (plen i)) l
  | SClaim _ mf mi => 0 < mf /\ 0 < mi
  | _ => True
  end.

Definition drops_u64 (d : Drops) : Prop := is_u64 (dr_too_large d).

Lemma clear_inv st : stage_inv st -> stage_inv (stager_clear st).2.
Proof.
  intros Hi. pose proof (sv_max_items _ _ Hi). pose proof (sv_max_bytes _ _ Hi).
  pose proof (msum_nonneg len len_list_nonneg (sg_sessions st)). pose proof (msum_nonneg payload_sum payload_sum_nonneg (sg_sessions st)).
  pose proof (sv_items _ _ Hi) as Hn. pose proof (sv_bytes _ _ Hi) as Hb. unfold items_sum in Hn. unfold bytes_sum in Hb. unfold msum, gsum in *.
  split; cbn; try done; try lia; [set_solver | constructor | apply (sv_train _ _ Hi)].
Qed.

Lemma set_max_train_inv n st : stage_inv st -> stage_inv (set_max_train_items n st).
Proof.
  intros Hi. unfold set_max_train_items. destruct (0 <? n) eqn:E; [|done]. zbool.
  destruct Hi as [H1 H2 H3 H4 H5 H6 H7 H8 H9 H10]. split; try done. cbn. unfold R2_MAX_TRAIN_ITEMS. lia.
Qed.

Lemma do_stage_op_inv op st d : stage_inv st -> drops_u64 d -> stage_op_wf op ->
  exists st' d', do_stage_op op st d = Ok (st', d') /\ stage_inv st' /\ drops_u64 d' /\ same_limits st st'.
Proof.
  intros Hi Hd Hwf. destruct op as [item|items|item|limit mf mi|s|id|s id| |n]; cbn [do_stage_op].
  - destruct (push item st) as [r st'] eqn:E. exists st', d. split; [done|].
    destruct (push_spec _ _ _ _ Hi Hwf E) as [(_ & -> & _)|(_ & _ & ? & [? _] & _)]; by eauto using same_conf_limits.
  - destruct (push_batch_eq items st) as (r & -> & _). destruct (push_each_inv items Hwf st Hi).
    eexists _, _. split; [done|]. eauto using same_conf_limits.
  - destruct (push_front item st) as [r st'] eqn:E. exists st', d. split; [done|].
    destruct (push_front_spec _ _ _ _ Hi Hwf E) as [(_ & -> & _)|(_ & _ & ? & [? _] & _)]; by eauto using same_conf_limits.
  - destruct Hwf as [Hf Hm]. destruct (claim_batch_spec limit mf mi (mkClaim st PackedFrames_default d) Hi Hd Hf Hm)
      as (ps & c' & -> & Hi' & Hb & _). eexists _, _. split; [done|].
    split_and!; [done | by eapply batch_u64 | apply same_conf_limits, (cd_conf _ _ _ (bt_claimed _ _ _ _ Hb))..].
  - destruct (drop_session s st d) as [[n st'] d'] eqn:E. exists st', d'. split; [done|].
    destruct (drop_session_spec _ _ _ _ _ _ Hi E) as [P _]. split; [apply P|]. split; [|apply same_conf_limits, P].
    unfold drop_session in E. by case_match; simplify_eq.
  - destruct (drop_flow id st d) as [[n st'] d'] eqn:E. exists st', d'. split; [done|].
    destruct (stage_drop_flow_spec _ _ _ _ _ _ Hi E) as [P _]. split; [apply P|]. split; [|apply same_conf_limits, P].
    unfold drop_flow in E. by case_match; simplify_eq.
  - destruct (drop_flow_scoped s id st d) as [[n st'] d'] eqn:E. exists st', d'. split; [done|].
    destruct (drop_flow_scoped_spec _ _ _ _ _ _ _ Hi E) as [P _]. split; [apply P|]. split; [|apply same_conf_limits, P].
    unfold drop_flow_scoped in E. by repeat case_match; simplify_eq.
  - eexists _, _. split; [done|]. split; [by apply clear_inv | done].
  - eexists _, _. split; [done|]. split; [by apply set_max_train_inv|]. split; [done|].
    unfold set_max_train_items. by case_match.
Qed.

Lemma run_stage_inv ops : forall st d, stage_inv st -> drops_u64 d -> Forall stage_op_wf ops ->
  exists st' d', run_stage ops st d = Ok (st', d') /\ stage_inv st' /\ drops_u64 d' /\ same_limits st st'.
Proof.
  induction ops as [|op ops IH]; intros st d Hi Hd Hwf; cbn [run_stage]; [by exists st, d|].
  apply list.Forall_cons in Hwf as [Hop Hwf]. destruct (do_stage_op_inv op st d Hi Hd Hop) as (st1 & d1 & -> & Hi1 & Hd1 & Hl1).
  cbn [res_bind]. destruct (IH st1 d1 Hi1 Hd1 Hwf) as (st2 & d2 & ? & ? & ? & ?). exists st2, d2. split_and!; try done; by etrans.
Qed.

(** The batch push is the sequence of single pushes.  From any state it
    never trips its assertion: it accepts exactly the items that single pushes
    would accept up to the first refusal, leaves the rest to the caller in
    order, and reports the queue length or the number accepted. *)
Theorem push_batch_each items st :
  exists r, push_batch items st = Ok (r, (push_each items st).1, (push_each items st).2) /\
    r = if bool_decide ((push_each items st).1 = []) then Ok (sg_queued_items (push_each items st).2)
        else Err (len items - len (push_each items st).1).
Proof. apply push_batch_eq. Qed.

(** the stager's bookkeeping is exact.  After any sequence of pushes, batch
    pushes, requeues, claims and teardowns, none of which can panic or run
    forever: the counts are the items and bytes actually queued and within the
    bounds; every queue holds only items of its session; every session with
    items is reachable by the round-robin cursor; and the steady cursor lists
    no session twice, agrees with its membership set, and lists every session
    whose next item is steady, so no flow is left out of the trains. *)
Theorem stage_bookkeeping mi mb w d ops : 0 <= mi -> 0 <= mb <= usize_max - 1 -> drops_u64 d -> Forall stage_op_wf ops ->
  exists st d', run_stage ops (with_capacity_wire mi mb w) d = Ok (st, d') /\
    stager_len st = items_sum (sg_sessions st) /\ sg_queued_bytes st = bytes_sum (sg_sessions st) /\
    stager_len st <= sg_max_items st /\ sg_queued_bytes st <= sg_max_bytes st /\
    (forall s, Forall (fun i => si_session i = s) (queue_of s st)) /\
    (forall s, has_session s st = true -> s ∈ sg_order st) /\
    NoDup (sg_steady_order st) /\ (forall s, s ∈ sg_steady_mark st <-> s ∈ sg_steady_order st) /\
    (forall s, steady_head s st = true -> s ∈ sg_steady_order st).
Proof.
  intros Hmi Hmb Hd Hwf. destruct (run_stage_inv ops _ d (new_stage_inv mi mb w Hmi Hmb) Hd Hwf) as (st & d' & E & Hi & _).
  exists st, d'. split; [done|]. split_and!; try apply Hi.
  - intros s. by eapply queue_own.
  - intros s Hs. apply (sv_order _ _ Hi). rewrite has_session_queue in Hs. apply negb_true_iff in Hs. by case_bool_decide.
  - intros s Hs. apply (sv_steady _ _ Hi); [set_solver | done].
Qed.

End Run.

Definition demo_item (s : Z) (k : R2StageKind) (n : nat) : R2StageItem := mkR2StageItem s k (replicate n 7).
Definition demo_stage_ops : list StageOp :=
  [SPush (demo_item 1 (KSteady 2) 10); SPush (demo_item 2 (KOpen 4 2 (AddrDomain [] 53) false) 5);
   SPushBatch [demo_item 1 (KSteady 2) 10; demo_item 2 (KSteady 4) 3; demo_item 3 (KSteady 6) 2000];
   SClaim 1200 1 64; SRequeue (demo_item 1 (KSteady 2) 9); SDropFlow 2; SDropSession 2; SClaim 1200 4 64].

#[local] Existing Instance debug_build.

Lemma stage_bookkeeping_witness : exists st d',
  run_stage demo_stage_ops (with_capacity_wire 1024 262144 Rev3) (mkDrops 0 0 0) = Ok (st, d') /\
  stager_len st = items_sum (sg_sessions st).
Proof.
  destruct (stage_bookkeeping 1024 262144 Rev3 (mkDrops 0 0 0) demo_stage_ops) as (st & d' & H1 & H2 & _).
  - lia.
  - unfold usize_max. lia.
  - unfold drops_u64, is_u64. cbn. lia.
  - unfold demo_stage_ops. repeat constructor; vm_compute; congruence.
  - exists st, d'. split; [exact H1 | exact H2].
Defined.

(** C29: items leave in order and none is lost or duplicated.  A claim on any
    reachable queue ends, and takes the items it takes from the heads of the
    sessions' queues: each session's queue is what was taken of it, in order,
    followed by what is left.  The items taken are, in order, those of the
    frames claimed and the steady items dropped because even a frame of their
    own exceeds the limit, which the size-drop counter counts.  Every frame is
    a single self-describing item or a run of at most 64 steady items whose
    encoding fits the limit, and from a non-empty queue at least one item is
    taken.  It holds in every build; where debug assertions are on, a reachable
    queue is one that was given no payload above 65535 bytes, the bound the cost
    model asserts. *)
Theorem stage_fifo {BU : Build} limit mf mi st d : stage_inv st -> drops_u64 d -> 0 < mf -> 0 < mi -> exists pieces st' q d',
  claim_batch limit mf mi (mkClaim st PackedFrames_default d) = Ok (negb (stager_is_empty st'), mkClaim st' q d') /\
  stage_inv st' /\
  (forall s, queue_of s st = of_session s (concat (piece_items <$> pieces)) ++ queue_of s st') /\
  stager_len st = len (concat (piece_items <$> pieces)) + stager_len st' /\
  Forall (piece_ok (sg_wire st) limit) pieces /\
  q = fold_left put_piece pieces (mkPackedFrames [] [] (sg_wire st)) /\
  d' = book_too_large (lsum piece_drops pieces) d /\
  (0 < stager_len st -> pieces <> []).
Proof.
  intros Hi Hd Hf Hm.
  destruct (claim_batch_spec limit mf mi (mkClaim st PackedFrames_default d) Hi Hd Hf Hm) as (ps & [st' q d'] & E & Hi' & [O C P D] & Hne).
  exists ps, st', q, d'. split_and!; try done; apply C.
Qed.

Lemma stage_fifo_witness :
  let st := (push_each [demo_item 1 (KSteady 2) 10; demo_item 2 (KSteady 4) 5; demo_item 1 (KInline 1 (AddrDomain [] 53) false) 3]
               (R2Stager_new_with_wire Rev3)).2 in
  stager_len st = 3 /\ exists pieces st', pieces <> [] /\
    queue_of 1 st = of_session 1 (concat (piece_items <$> pieces)) ++ queue_of 1 st'.
Proof.
  intros st. split; [by vm_compute|]. assert (Hi : stage_inv st).
  { apply push_each_inv; [repeat constructor; vm_compute; congruence|]. apply new_stage_inv; unfold R2_STAGE_MAX_ITEMS, R2_STAGE_MAX_BYTES, usize_max; lia. }
  destruct (stage_fifo 1200 4 64 st (mkDrops 0 0 0) Hi) as (ps & st' & q & d' & _ & _ & H & _ & _ & _ & _ & Hne).
  - unfold drops_u64, is_u64. cbn. lia.
  - lia.
  - lia.
  - exists ps, st'. split; [apply Hne; by vm_compute | apply H].
Defined.

(* ------------------------------------------------------------------ *)
(** ** The round-robin cursor keeps slots of drained sessions

    A slot is dropped only when the cursor meets it, and a claim that stops at
    its frame bound with the queue empty does not look further: the sessions
    it drained keep their slots, and each gets another one at its next push. *)

Definition four_opens : list R2StageItem :=
  (fun s => demo_item s (KOpen (2 * s) s (AddrDomain [] 53) false) 1) <$> [1; 2; 3; 4].

(** Four associations open a flow each, and the queue is drained in one batch. *)
Definition open_and_drain : list StageOp := [SPushBatch four_opens; SClaim 1200 R2_PACK_BATCH_FRAMES R2_PACK_BATCH_ITEMS].

Fixpoint repeat_ops (n : nat) (ops : list StageOp) : list StageOp :=
  match n with O => [] | S n => ops ++ repeat_ops n ops end.

Lemma order_grows :
  match run_stage (repeat_ops 100 open_and_drain) (R2Stager_new_with_wire Rev3) (mkDrops 0 0 0) with
  | Ok (st, _) => stager_is_empty st && (len (sg_order st) =? 400)
  | _ => false
  end = true.
Proof. vm_compute. reflexivity. Qed.

(* ------------------------------------------------------------------ *)
(** ** A payload above the staging contract

    [push] checks the count and the bytes of the queue, not the length of the
    payload, so the queue takes one of 65536 bytes; the cost model then meets it
    next to another payload of its flow. *)
Definition big_pair : R2Stager := (push_each [demo_item 1 (KSteady 2) 1; demo_item 1 (KSteady 2) 65536] (R2Stager_new_with_wire Rev3)).2.

Lemma big_payload_panics :
  let batch b := @claim_batch b 1200 1 64 (mkClaim big_pair PackedFrames_default (mkDrops 0 0 0)) in
  stager_len big_pair = 2 /\ match batch debug_build with Panic => true | _ => false end = true /\
  match batch release_build with Ok (more, _) => more | _ => false end = true.
Proof. vm_compute. done. Qed.
