(* ===== verification/Pack.v ===== *)
(** Encoding the frames the stager claimed ([src/udp/r2_stage.rs]): standalone
    items, steady frames and trains, and the proof that the stager's cost
    model is the encoders' length. *)
From stdpp Require Import fin_maps.
From S2P Require Import Prelude Addr Codec R3 R3Train R2 R2Train Wire Stage.

(* ------------------------------------------------------------------ *)
(** ** Encoders *)

Definition encode_standalone_item_for (w : Wire) (item : R2StageItem) (limit : Z) : res unit bytes :=
  match si_kind item with
  | KOpen wire_id sess addr src => encode_data_open w wire_id sess addr src (si_payload item) limit
  | KInline sess addr src => encode_data_inline w sess addr src (si_payload item) limit
  | KSteady wire_id => encode_data_steady w wire_id (si_payload item) limit
  end.

Definition encode_standalone_item (item : R2StageItem) (limit : Z) : res unit bytes :=
  encode_standalone_item_for Rev2 item limit.

(** The loop that gives each item the index of its flow. *)
Fixpoint index_items (run : list R2StageItem) (flow_idx : gmap Z Z) (flows : list Z) :
    res unit (list Z * list (Z * bytes)) :=
  match run with
  | [] => Ok (flows, [])
  | item :: run =>
      let! wire_id := steady_id item in
      match flow_idx !! wire_id with
      | Some i =>
          let! '(flows, views) := index_items run flow_idx flows in
          Ok (flows, (i, si_payload item) :: views)
      | None =>
          let i := as_u8 (len flows) in
          if len flows >=? R2_MAX_TRAIN_ITEMS then Nope else
          let! '(flows, views) := index_items run (<[wire_id := i]> flow_idx) (flows ++ [wire_id]) in
          Ok (flows, (i, si_payload item) :: views)
      end
  end.

(** [a.or_else(|| b)]. *)
Definition or_else {A} (a b : res unit A) : res unit A := match a with Err _ => b | _ => a end.

Definition encode_train_run (w : Wire) (run : list R2StageItem) (limit : Z) : res unit bytes :=
  if (len run >? R2_MAX_TRAIN_ITEMS) || (len run =? 0) then Panic else
  let! '(flows, views) := index_items run ∅ [] in
  let refs := si_payload <$> run in
  let single :=
    match w, flows with
    | Rev3, [wire_id] =>
        match run with
        | i0 :: _ =>
            if forallb (fun i => plen i =? plen i0) run
            then or_else (encode_train_same_equal w wire_id refs limit) (encode_train_same w wire_id refs limit)
            else encode_train_same w wire_id refs limit
        | [] => Nope
        end
    | _, _ => Nope
    end in
  or_else single (encode_train_dict w flows views limit).

(** The body of one claimed frame. *)
Definition encode_frame (w : Wire) (shape : FrameShape) (run : list R2StageItem) (limit : Z) : res unit bytes :=
  match shape, run with
  | Standalone, item :: _ => encode_standalone_item_for w item limit
  | Standalone, [] => Panic
  | SteadyRun, [item] =>
      let! wire_id := steady_id item in encode_data_steady w wire_id (si_payload item) limit
  | SteadyRun, _ => encode_train_run w run limit
  end.

(* ------------------------------------------------------------------ *)
(** ** Indexing *)

Lemma uniq_nodup_step u id : NoDup u -> NoDup (add_id u id).
Proof.
  intros Hu. unfold add_id. case_bool_decide as Hi; [done|]. apply list.NoDup_app.
  split_and!; [done | set_solver | apply NoDup_singleton].
Qed.

Lemma add_id_app u id : exists x, add_id u id = u ++ x.
Proof. unfold add_id. case_match; [exists []; by rewrite app_nil_r | by eexists]. Qed.

(** The map is the inverse of the list of flows. *)
Definition idx_ok (m : gmap Z Z) (flows : list Z) : Prop :=
  (forall id, is_Some (m !! id) <-> id ∈ flows) /\ forall id i, m !! id = Some i -> 0 <= i /\ get flows i = Some id.

Lemma index_items_spec run : forall m flows, idx_ok m flows -> Forall (fun i => is_steady i = true) run ->
  len flows + len run <= R2_MAX_TRAIN_ITEMS -> exists views,
  index_items run m flows = Ok (fold_left add_id (id_of <$> run) flows, views) /\
  Forall2 (fun i v => 0 <= v.1 /\ get (fold_left add_id (id_of <$> run) flows) v.1 = Some (id_of i) /\ v.2 = si_payload i) run views.
Proof.
  induction run as [|item run IH]; intros m flows Hm Hst Hl; cbn [index_items fmap list_fmap fold_left].
  { exists []. by split; [|constructor]. }
  apply list.Forall_cons in Hst as [Hs Hst]. rewrite steady_id_of by done. cbn [res_bind]. rewrite len_cons in Hl.
  pose proof (len_nonneg run). unfold R2_MAX_TRAIN_ITEMS in *.
  assert (Hprefix : forall l u i id, get u i = Some id -> get (fold_left add_id l u) i = Some id).
  { induction l as [|y l IHl]; intros u i id Hg; cbn; [done|]. apply IHl. destruct (add_id_app u y) as [x ->].
    unfold get in *. by apply lookup_app_l_Some. }
  destruct (m !! id_of item) as [i|] eqn:Em.
  - assert (Hin : id_of item ∈ flows) by (apply Hm; by rewrite Em).
    replace (add_id flows (id_of item)) with flows by (unfold add_id; by rewrite bool_decide_eq_true_2).
    destruct (IH m flows Hm Hst ltac:(lia)) as (views & -> & Hv). cbn [res_bind]. eexists. split; [reflexivity|].
    constructor; [|done]. destruct (proj2 Hm _ _ Em). cbn. split_and!; [done | by apply Hprefix | done].
  - assert (Hni : id_of item ∉ flows) by (intros Hin; apply Hm in Hin as [? ?]; congruence).
    replace (add_id flows (id_of item)) with (flows ++ [id_of item]) by (unfold add_id; by rewrite bool_decide_eq_false_2).
    destruct (len flows >=? 64) eqn:E; [zbool; lia|]. pose proof (len_nonneg flows). rewrite as_u8_small by (unfold is_u8; lia).
    assert (Hnew : get (flows ++ [id_of item]) (len flows) = Some (id_of item)).
    { unfold get. rewrite len_to_nat. apply list_lookup_middle. done. }
    assert (Hm' : idx_ok (<[id_of item:=len flows]> m) (flows ++ [id_of item])).
    { split.
      - intros id. rewrite lookup_insert_is_Some, elem_of_app, (proj1 Hm). destruct (decide (id = id_of item)); set_solver.
      - intros id i [[<- <-]|[Hne Hi]]%lookup_insert_Some; [done|]. destruct (proj2 Hm _ _ Hi). split; [done|].
        unfold get in *. by apply lookup_app_l_Some. }
    destruct (IH _ _ Hm' Hst) as (views & -> & Hv); [rewrite len_app, len_cons, len_nil; lia|].
    cbn [res_bind]. eexists. split; [reflexivity|]. constructor; [|done]. cbn. split_and!; [done | by apply Hprefix | done].
Qed.

Lemma run_flows_nodup run : NoDup (run_flows run).
Proof.
  unfold run_flows, uniq. generalize (id_of <$> run). intros l. assert (H : NoDup (@nil Z)) by constructor. revert H.
  generalize (@nil Z). induction l as [|x l IH]; intros u Hu; cbn; [done|]. by apply IH, uniq_nodup_step.
Qed.

Lemma run_flows_elem run id : id ∈ run_flows run <-> id ∈ id_of <$> run.
Proof.
  unfold run_flows, uniq. generalize (id_of <$> run). intros l.
  enough (H : forall u, id ∈ fold_left add_id l u <-> id ∈ u \/ id ∈ l) by (rewrite H; set_solver).
  induction l as [|x l IH]; intros u; cbn; [set_solver|]. rewrite IH. unfold add_id. case_bool_decide; set_solver.
Qed.

(* ------------------------------------------------------------------ *)
(** ** The length of what an encoder writes *)

Lemma lsum_nonneg {A} (f : A -> Z) l : (forall x, 0 <= f x) -> 0 <= lsum f l.
Proof. intros Hf. induction l as [|x l IH]; [done|]. rewrite lsum_cons. specialize (Hf x). lia. Qed.

Lemma lsum_elem {A} (f : A -> Z) l x : (forall x, 0 <= f x) -> x ∈ l -> f x <= lsum f l.
Proof.
  intros Hf. induction l as [|y l IH]; [by intros ?%not_elem_of_nil|]. rewrite lsum_cons.
  intros [->|Hin]%elem_of_cons; [pose proof (lsum_nonneg f l Hf) | specialize (IH Hin); specialize (Hf y)]; lia.
Qed.

Lemma lsum_fmap {A B} (f : B -> Z) (g : A -> B) l : lsum f (g <$> l) = lsum (fun x => f (g x)) l.
Proof. induction l as [|x l IH]; [done|]. cbn [fmap list_fmap]. rewrite !lsum_cons. f_equal. exact IH. Qed.

Lemma lsum_Forall2 {A B} (f : A -> Z) (g : B -> Z) l k : Forall2 (fun x y => f x = g y) l k -> lsum f l = lsum g k.
Proof. induction 1 as [|x y l k E _ IH]; [done|]. by rewrite !lsum_cons, E, IH. Qed.

Lemma len_field_spec n : n <= 2 ^ 16 - 1 -> R3Train.item_len_len n = Some (len_field n).
Proof. intros Hn. unfold R3Train.item_len_len, len_field. destruct (n <? 255); [done|]. by rewrite (proj2 (Z.leb_le _ _) Hn). Qed.

Lemma len_field_pos n : 1 <= len_field n.
Proof. unfold len_field. case_match; lia. Qed.

Lemma len_put_item_len out n : 0 <= n <= 2 ^ 16 - 1 -> len (put_item_len out n).1 = len out + len_field n.
Proof.
  intros Hn. destruct (put_item_len_enc n Hn) as (e & _ & He & ->). rewrite len_field_spec in He by lia.
  cbn [fst]. rewrite len_app. by injection He as <-.
Qed.

Lemma len_concat (ps : list bytes) : len (concat ps) = lsum len ps.
Proof. induction ps as [|p ps IH]; [done|]. cbn [concat]. by rewrite len_app, lsum_cons, IH. Qed.

Lemma varint_len_pos n : is_u32 n -> 1 <= varint_len n.
Proof. intros Hn. destruct (put_varint_spec n Hn) as (e & He%varint_enc_bound & _ & <- & _). lia. Qed.

Lemma len_put_varint out n : is_u32 n -> len (put_varint out n) = len out + varint_len n.
Proof. intros Hn. destruct (put_varint_spec n Hn) as (e & _ & _ & Hl & -> & _). rewrite len_app. lia. Qed.

Lemma as_u32_is n : is_u32 (as_u32 n).
Proof. umod. Qed.

Definition small (p : bytes) : Prop := len p <= 2 ^ 16 - 1.
Definition same_cost (p : bytes) : Z := len_field (len p) + len p.
Definition dict_cost (w : Wire) (it : Z * bytes) : Z := 1 + len it.2 + item_len_len w (len it.2).

Lemma same_cost_nonneg p : 0 <= same_cost p.
Proof. unfold same_cost. pose proof (len_field_pos (len p)). pose proof (len_nonneg p). lia. Qed.
Lemma dict_cost_nonneg w it : 0 <= dict_cost w it.
Proof.
  unfold dict_cost, item_len_len. pose proof (len_nonneg it.2).
  destruct w; [pose proof (varint_len_pos _ (as_u32_is (len it.2))) | pose proof (len_field_pos (len it.2))]; lia.
Qed.

Lemma r3_same_total ps : forall t, Forall small ps -> t + lsum same_cost ps <= usize_max ->
  R3Train.same_total t ps = Some (t + lsum same_cost ps).
Proof.
  induction ps as [|p ps IH]; intros t Hs Hl; cbn [R3Train.same_total].
  { f_equal. unfold lsum. cbn. lia. }
  apply list.Forall_cons in Hs as [Hp Hs]. rewrite lsum_cons in *. unfold small in Hp. rewrite len_field_spec by done.
  pose proof (lsum_nonneg same_cost ps same_cost_nonneg). pose proof (len_nonneg p).
  assert (E : same_cost p = len_field (len p) + len p) by done. cbn [mbind option_bind].
  rewrite checked_add_small by lia. cbn [mbind option_bind]. rewrite checked_add_small by lia. cbn [mbind option_bind].
  rewrite IH; [f_equal; lia | done | lia].
Qed.

Lemma len_put_same ps : forall v, Forall small ps -> len (put_same v ps) = len v + lsum same_cost ps.
Proof.
  induction ps as [|p ps IH]; intros v Hs; cbn [put_same]; [unfold lsum; cbn; lia|].
  apply list.Forall_cons in Hs as [Hp Hs]. rewrite IH by done. pose proof (len_nonneg p).
  rewrite len_app, len_put_item_len, lsum_cons by (unfold small in Hp; lia). unfold same_cost. lia.
Qed.

Lemma r3_dict_items_total its : forall t, Forall (fun it => small it.2) its -> t + lsum (dict_cost Rev3) its <= usize_max ->
  R3Train.dict_items_total t its = Some (t + lsum (dict_cost Rev3) its).
Proof.
  induction its as [|[i p] its IH]; intros t Hs Hl; cbn [R3Train.dict_items_total].
  { f_equal. unfold lsum. cbn. lia. }
  apply list.Forall_cons in Hs as [Hp Hs]. rewrite lsum_cons in *. unfold small in Hp. cbn [snd] in Hp.
  pose proof (lsum_nonneg (dict_cost Rev3) its (dict_cost_nonneg Rev3)). pose proof (len_nonneg p).
  pose proof (len_field_pos (len p)).
  assert (E : dict_cost Rev3 (i, p) = 1 + len p + len_field (len p)) by done.
  rewrite checked_add_small by lia. cbn [mbind option_bind]. rewrite len_field_spec by done. cbn [mbind option_bind].
  rewrite checked_add_small by lia. cbn [mbind option_bind]. rewrite checked_add_small by lia. cbn [mbind option_bind].
  rewrite IH; [f_equal; lia | done | lia].
Qed.

Lemma len_put_dict its : forall v, Forall (fun it => small it.2) its -> len (put_dict v its) = len v + lsum (dict_cost Rev3) its.
Proof.
  induction its as [|[i p] its IH]; intros v Hs; cbn [put_dict]; [unfold lsum; cbn; lia|].
  apply list.Forall_cons in Hs as [Hp Hs]. rewrite IH by done. pose proof (len_nonneg p).
  rewrite len_app, len_put_item_len, lsum_cons, len_app by (unfold small in Hp; cbn in Hp; lia).
  change (len [i]) with 1. unfold dict_cost. cbn. lia.
Qed.

Lemma r3_dict_flows_total fs : forall t, t + 2 * len fs <= usize_max -> R3Train.dict_flows_total t fs = Some (t + 2 * len fs).
Proof.
  induction fs as [|f fs IH]; intros t Hl; cbn [R3Train.dict_flows_total]; [f_equal; lens|].
  rewrite len_cons in *. pose proof (len_nonneg fs). rewrite checked_add_small by lia. cbn [mbind option_bind].
  rewrite IH; [f_equal; lia | lia].
Qed.

Lemma r2_dict_items_total its : forall t, t + lsum (dict_cost Rev2) its <= usize_max ->
  R2Train.dict_items_total t its = Some (t + lsum (dict_cost Rev2) its).
Proof.
  induction its as [|[i p] its IH]; intros t Hl; cbn [R2Train.dict_items_total].
  { f_equal. unfold lsum. cbn. lia. }
  rewrite lsum_cons in *. pose proof (lsum_nonneg (dict_cost Rev2) its (dict_cost_nonneg Rev2)).
  assert (E : dict_cost Rev2 (i, p) = 1 + len p + varint_len (as_u32 (len p))) by done.
  rewrite checked_add_small by lia. cbn [mbind option_bind]. rewrite IH; [f_equal; lia | lia].
Qed.

Lemma len_r2_put_dict its : forall v,
  len (fold_left (fun v it => put_varint (v ++ [it.1]) (as_u32 (len it.2)) ++ it.2) its v) =
  len v + lsum (dict_cost Rev2) its.
Proof.
  induction its as [|[i p] its IH]; intros v; cbn [fold_left]; [unfold lsum; cbn; lia|].
  rewrite IH, len_app, len_put_varint, len_app, lsum_cons by apply as_u32_is. change (len [(i, p).1]) with 1.
  unfold dict_cost. cbn. lia.
Qed.

Lemma r2_dict_flows_total fs : forall t, Forall is_u32 fs -> t + lsum varint_len fs <= usize_max ->
  R2Train.dict_flows_total t fs = Some (t + lsum varint_len fs).
Proof.
  induction fs as [|f fs IH]; intros t Hu Hl; cbn [R2Train.dict_flows_total]; [f_equal; unfold lsum; cbn; lia|].
  apply list.Forall_cons in Hu as [Hf Hu]. rewrite lsum_cons in *. assert (Hnn : 0 <= lsum varint_len fs).
  { clear -Hu. induction Hu as [|f fs Hf Hu IH]; [done|]. rewrite lsum_cons. pose proof (varint_len_pos f Hf). lia. }
  rewrite checked_add_small by lia. cbn [mbind option_bind]. rewrite IH; [f_equal; lia | done | lia].
Qed.

Lemma len_fold_put_varint fs : forall v, Forall is_u32 fs -> len (fold_left put_varint fs v) = len v + lsum varint_len fs.
Proof.
  induction fs as [|f fs IH]; intros v Hu; cbn [fold_left]; [unfold lsum; cbn; lia|].
  apply list.Forall_cons in Hu as [Hf Hu]. rewrite IH, len_put_varint, lsum_cons by done. lia.
Qed.

(** The encoders succeed on a run within their bounds, with this length. *)
Lemma r3_same_ok fid ps limit : valid_fid fid = true -> 1 <= len ps <= 64 -> Forall small ps ->
  4 + lsum same_cost ps <= limit -> limit <= usize_max ->
  exists b, R3Train.encode_train_same fid ps limit = Ok b /\ len b = 4 + lsum same_cost ps.
Proof.
  intros Hf Hn Hs Hc Hl. unfold R3Train.encode_train_same, R3Train.train_same_len, R3Train.valid_train_count, MAX_TRAIN_ITEMS.
  replace ((1 <=? len ps) && (len ps <=? 64)) with true by lia. cbn [mbind option_bind]. rewrite Hf. cbn [negb].
  rewrite r3_same_total by (done || lia). cbn [of_option ok_or res_bind].
  replace (4 + lsum same_cost ps >? limit) with false by lia. cbn [negb].
  assert (E : forall v, len (put_same ((put_u16 ([] ++ [v]) fid) ++ [as_u8 (len ps)]) ps) = 4 + lsum same_cost ps).
  { intros v. rewrite len_put_same by done. unfold put_u16. rewrite !len_app. reflexivity. }
  rewrite E, Z.eqb_refl. cbn [negb]. eexists. split; [reflexivity | apply E].
Qed.

Lemma r3_equal_ok fid p0 ps limit : let all := p0 :: ps in valid_fid fid = true -> len all <= 64 ->
  Forall (fun p => len p = len p0) ps -> small p0 ->
  4 + len_field (len p0) + len all * len p0 <= limit -> limit <= usize_max ->
  exists b, R3Train.encode_train_same_equal fid all limit = Ok b /\
    len b = 4 + len_field (len p0) + len all * len p0.
Proof.
  intros all Hf Hn He Hs Hc Hl. pose proof (len_nonneg ps). pose proof (len_nonneg p0).
  assert (Ha : len all = 1 + len ps) by (unfold all; rewrite len_cons; lia).
  unfold R3Train.encode_train_same_equal, R3Train.train_same_equal_len, R3Train.valid_train_count, MAX_TRAIN_ITEMS.
  replace ((1 <=? len all) && (len all <=? 64)) with true by lia. cbn [mbind option_bind]. rewrite Hf. cbn [negb].
  change (first all) with (Some p0). cbn [mbind option_bind].
  assert (Ex : existsb (fun p => negb (len p =? len p0)) all = false).
  { unfold all. cbn [existsb]. rewrite Z.eqb_refl. cbn [negb orb]. clear -He. induction He as [|p ps E _ IH]; [done|].
    cbn [existsb]. rewrite E, Z.eqb_refl. exact IH. }
  rewrite Ex. unfold small in Hs. rewrite len_field_spec by done. cbn [mbind option_bind].
  pose proof (len_field_pos (len p0)). rewrite checked_add_small by nia. cbn [mbind option_bind].
  assert (Hm : checked_mul (len p0) (len all) = Some (len p0 * len all)).
  { unfold checked_mul. by replace (len p0 * len all <=? usize_max) with true by nia. }
  rewrite Hm. cbn [mbind option_bind]. rewrite checked_add_small by nia. cbn [of_option ok_or res_bind].
  replace (4 + len_field (len p0) + len p0 * len all >? limit) with false by nia. cbn [negb].
  assert (E : forall v, len (fold_left (fun v p => v ++ p) all
      (put_item_len (put_u16 ([] ++ [v]) fid ++ [as_u8 (len all)]) (len p0)).1) =
      4 + len_field (len p0) + len p0 * len all).
  { intros v. rewrite fold_app_concat, len_app, len_put_item_len by lia. rewrite len_concat. unfold put_u16.
    rewrite !len_app. assert (Hsum : lsum len all = len all * len p0).
    { unfold all. rewrite lsum_cons, len_cons. clear -He. induction He as [|p ps E _ IH]; [unfold lsum; cbn; lens|].
      rewrite lsum_cons, len_cons, E. lia. }
    rewrite Hsum. change (len (le16 fid)) with 2. change (len [v]) with 1. change (len [as_u8 (len all)]) with 1.
    change (len (@nil Z)) with 0. lia. }
  rewrite E, Z.eqb_refl. cbn [negb]. eexists. split; [reflexivity | rewrite E; lia].
Qed.

(** What a dictionary must satisfy. *)
Record dict_ok (flows : list Z) (its : list (Z * bytes)) : Prop := mkDictOk {
  do_items : 1 <= len its <= 64;
  do_flows : 1 <= len flows <= len its;
  do_idx : Forall (fun it => 0 <= it.1 < len flows) its;
  do_small : Forall (fun it => small it.2) its
}.

Lemma dict_idx flows its : dict_ok flows its -> existsb (fun it => it.1 >=? len flows) its = false.
Proof.
  intros [_ _ Hi _]. induction Hi as [|it its Hit _ IH]; [done|]. cbn [existsb].
  replace (it.1 >=? len flows) with false by lia. exact IH.
Qed.

Lemma r3_dict_ok flows its limit : dict_ok flows its -> distinct_fids [] flows = true ->
  3 + 2 * len flows + lsum (dict_cost Rev3) its <= limit -> limit <= usize_max ->
  exists b, R3Train.encode_train_dict flows its limit = Ok b /\
    len b = 3 + 2 * len flows + lsum (dict_cost Rev3) its.
Proof.
  intros Hd Hf Hc Hl. pose proof (dict_idx _ _ Hd) as Hx. destruct Hd as [Hn Hfl Hi Hs].
  unfold R3Train.encode_train_dict, R3Train.train_dict_len, R3Train.valid_train_count, R3Train.valid_train_flows, MAX_TRAIN_ITEMS.
  replace ((1 <=? len its) && (len its <=? 64)) with true by lia. cbn [mbind option_bind].
  replace ((len flows =? 0) || (len flows >? 64) || (len flows >? len its)) with false by lia.
  rewrite Hf, Hx. cbn [negb mbind option_bind]. pose proof (lsum_nonneg (dict_cost Rev3) its (dict_cost_nonneg Rev3)).
  rewrite r3_dict_flows_total by lia. cbn [mbind option_bind]. rewrite r3_dict_items_total by (done || lia).
  cbn [of_option ok_or res_bind]. replace (_ >? limit) with false by lia. cbn [negb].
  assert (E : forall v a b, len (put_dict (fold_left put_u16 flows ((([] ++ [v]) ++ [a]) ++ [b])) its) =
      3 + 2 * len flows + lsum (dict_cost Rev3) its).
  { intros v a b. rewrite len_put_dict, fold_put_u16, len_app, len_fids_wire by done. reflexivity. }
  rewrite E, Z.eqb_refl. cbn [negb]. eexists. split; [reflexivity | apply E].
Qed.

Lemma r2_dict_ok flows its limit : dict_ok flows its -> distinct_ids [] flows = true -> Forall is_u32 flows ->
  4 + lsum varint_len flows + lsum (dict_cost Rev2) its <= limit -> limit <= usize_max ->
  exists b, R2Train.encode_train_dict flows its limit = Ok b /\
    len b = 4 + lsum varint_len flows + lsum (dict_cost Rev2) its.
Proof.
  intros Hd Hf Hu Hc Hl. pose proof (dict_idx _ _ Hd) as Hx. destruct Hd as [Hn Hfl Hi Hs].
  unfold R2Train.encode_train_dict, R2Train.train_dict_len, R2Train.valid_train_count, R2Train.valid_train_flows, R2_MAX_TRAIN_ITEMS.
  replace ((len its =? 0) || (len its >? 64)) with false by lia. cbn [mbind option_bind].
  replace ((len flows =? 0) || (len flows >? 255) || (len flows >? 64)) with false by lia.
  replace (len flows >? len its) with false by lia.
  rewrite Hf, Hx. cbn [negb mbind option_bind]. pose proof (lsum_nonneg (dict_cost Rev2) its (dict_cost_nonneg Rev2)).
  rewrite r2_dict_flows_total by (done || lia). cbn [mbind option_bind]. rewrite r2_dict_items_total by lia.
  cbn [of_option ok_or res_bind]. replace (_ >? limit) with false by lia. cbn [negb].
  eexists. split; [reflexivity|]. rewrite len_r2_put_dict, len_fold_put_varint by done. reflexivity.
Qed.

(* ------------------------------------------------------------------ *)
(** ** What the receiver reads *)

(** [for (id, payload) in view.items()]; [n] calls at most. *)
Fixpoint iterate (n : nat) (it : TrainItemIter) : res MqpError (list (Z * bytes)) :=
  match n with
  | O => Panic
  | S n =>
      match next it with
      | Ok (Some x, it) => let! l := iterate n it in Ok (x :: l)
      | Ok (None, _) => Ok []
      | _ => Panic
      end
  end.

(** The payloads of a frame without context, with the flow of each. *)
Definition read_steady (w : Wire) (b : bytes) : res MqpError (list (Z * bytes)) :=
  match kind w b with
  | Some KData =>
      let! d := decode_data w b in
      match dv_wire_id d, dv_sess d with
      | Some id, None => Ok [(id, dv_payload d)]
      | _, _ => Panic
      end
  | Some KTrain =>
      let! t := decode_train w b in
      iterate (S (Z.to_nat (count t))) (items t)
  | _ => Panic
  end.

Lemma iterate_S n it : iterate (S n) it =
  match next it with
  | Ok (Some x, it) => let! l := iterate n it in Ok (x :: l)
  | Ok (None, _) => Ok []
  | _ => Panic
  end.
Proof. done. Qed.

Lemma r2_iterate fuel : forall s its s', R2Train.drain fuel s = Ok (its, s') -> R2Train.next s' = Ok (None, s') ->
  iterate (S (length its)) (IterRev2 s) = Ok its.
Proof.
  induction fuel as [|fuel IH]; intros s its s' H Hn; cbn [R2Train.drain] in H.
  { injection H as <- <-. cbn [length iterate next]. by rewrite Hn. }
  destruct (R2Train.next s) as [[[it|] s1]| |] eqn:E; cbn [res_bind] in H; [|by injection H as <- <-; cbn; rewrite E|done..].
  destruct (R2Train.drain fuel s1) as [[its1 s2]| |] eqn:E1; cbn [res_bind] in H; [|done..]. injection H as <- <-.
  rewrite iterate_S. cbn [length next]. rewrite E. cbn [res_bind]. by rewrite (IH _ _ _ E1 Hn).
Qed.

Lemma r3_iterate fuel : forall s its its' s', R3Train.drain fuel s = Ok (its, s') -> R3Train.next s' = Ok (None, s') ->
  Forall2 (fun a b => wire_id_for_fid a.1 = Some b.1 /\ a.2 = b.2) its its' ->
  iterate (S (length its')) (IterRev3 s) = Ok its'.
Proof.
  induction fuel as [|fuel IH]; intros s its its' s' H Hn Hm; cbn [R3Train.drain] in H.
  { injection H as <- <-. inversion Hm; subst. cbn [length iterate next]. by rewrite Hn. }
  destruct (R3Train.next s) as [[[it|] s1]| |] eqn:E; cbn [res_bind] in H; [| |done..].
  2:{ injection H as <- <-. inversion Hm; subst. cbn. by rewrite E. }
  destruct (R3Train.drain fuel s1) as [[its1 s2]| |] eqn:E1; cbn [res_bind] in H; [|done..]. injection H as <- <-.
  inversion Hm as [|? [id p] ? its1' [Hid Hp] Hm']; subst. destruct it as [fid p']. cbn [fst snd] in *. subst p'.
  rewrite iterate_S. cbn [length next]. rewrite E. cbn [res_bind mbind option_bind]. rewrite Hid.
  cbn [mbind option_bind]. by rewrite (IH _ _ _ _ E1 Hn Hm').
Qed.

Lemma r2_read_train t limit b : R2Train.train_wf t -> limit <= 2 ^ 16 - 1 -> R2Train.train_encode t limit = Ok b ->
  read_steady Rev2 b = Ok (R2Train.train_items t).
Proof.
  intros Hwf Hl (fw & w & -> & Ht & Hb)%r2_train_encode_wire; [|done|lia].
  unfold read_steady. replace (kind Rev2 _) with (Some KTrain) by by destruct t. cbn [decode_train].
  rewrite (r2_decode_train_wire _ _ _ Ht) by ulia. cbn [res_bind]. destruct Ht as (_ & _ & _ & _ & Hi).
  cbn [items count]. unfold R2Train.train_frame in *. cbn [R2Train.tf_count]. rewrite len_to_nat.
  eapply r2_iterate; [apply collect_wire; [exact Hi | lens] | done].
Qed.

Lemma r3_read_train t limit b its : R3Train.train_wf t -> limit <= 2 ^ 16 - 1 -> R3Train.train_encode t limit = Ok b ->
  Forall2 (fun a b => wire_id_for_fid a.1 = Some b.1 /\ a.2 = b.2) (R3Train.train_items t) its ->
  read_steady Rev3 b = Ok its.
Proof.
  intros Hwf Hl (e & w & -> & Ht & Hb)%train_encode_wire Hm; [|done].
  assert (Hu : len (R3Train.train_header t e ++ w) <= usize_max) by ulia.
  unfold read_steady. replace (kind Rev3 _) with (Some KTrain) by by destruct t. cbn [decode_train].
  rewrite (decode_train_wire _ _ _ Ht Hu). cbn [res_bind items count]. 
  change (R3Train.tf_count (R3Train.train_frame t w)) with (len (R3Train.train_items t)). rewrite len_to_nat.
  rewrite (Forall2_length Hm). destruct (collect_train _ _ _ Ht) as [Hc _]; [lens|].
  eapply r3_iterate; [exact Hc | done | exact Hm].
Qed.

Lemma read_data w id payload limit b : is_u32 id -> limit <= 2 ^ 16 - 1 ->
  encode_data_steady w id payload limit = Ok b -> read_steady w b = Ok [(id, payload)].
Proof.
  intros Hu Hl H. pose proof (wire_codec w) as Hw. destruct (data_codec (CSteady id) payload limit b Hu) as (_ & Hk & Hd); [ulia | done|].
  unfold read_steady. by rewrite Hk, Hd.
Qed.

(* ------------------------------------------------------------------ *)
(** ** A claimed run is encoded *)

(** The flow has an id on the wire. *)
Definition sendable (w : Wire) (id : Z) : Prop :=
  is_u32 id /\ match w with Rev2 => id <> 0 | Rev3 => is_Some (fid_for id) end.

Definition flow_payload (i : R2StageItem) : Z * bytes := (id_of i, si_payload i).

Lemma run_cost_covers w limit run : Forall (fun i => is_steady i = true) run -> Forall (fun i => sendable w (id_of i)) run ->
  run_cost w run <= limit -> Forall (fun i => plen i <= limit) run.
Proof.
  intros Hst Hs Hc. apply list.Forall_forall. intros i Hin. destruct run as [|i0 [|i1 run]]; [by apply not_elem_of_nil in Hin| |].
  - apply list_elem_of_singleton in Hin as ->. apply Forall_inv in Hs as [Hu _]. pose proof (varint_len_pos _ Hu).
    pose proof (len_nonneg (si_payload i0)). unfold run_cost, R3.data_steady_len, plen in *. destruct w; lia.
  - unfold run_cost in Hc. set (all := i0 :: i1 :: run) in *. pose proof (len_nonneg (run_flows all)).
    assert (Hnn : forall i, 0 <= plen i) by (intros; apply len_nonneg).
    destruct (bool_decide (w = Rev3) && _) eqn:E.
    + destruct (equal_lengths all) eqn:Ee.
      * unfold equal_lengths, all in Ee. rewrite forallb_forall in Ee. specialize (Ee i (proj1 (list_elem_of_In _ _) Hin)).
        apply Z.eqb_eq in Ee. rewrite Ee. pose proof (len_field_pos (plen i0)). specialize (Hnn i0).
        assert (1 <= len all) by (unfold all; rewrite len_cons; pose proof (len_nonneg (i1 :: run)); lia). nia.
      * assert (Hp : forall i, 0 <= len_field (plen i) + plen i).
        { intros j. pose proof (len_field_pos (plen j)). specialize (Hnn j). lia. }
        pose proof (lsum_elem (fun i => len_field (plen i) + plen i) all i Hp Hin). pose proof (len_field_pos (plen i)).
        cbn beta in *. lia.
    + assert (Hp : forall i, 0 <= item_len_len w (plen i)).
      { intros j. unfold item_len_len. destruct w; [pose proof (varint_len_pos _ (as_u32_is (plen j))); lia|].
        pose proof (len_field_pos (plen j)). lia. }
      assert (Hp' : forall i, 0 <= 1 + plen i + item_len_len w (plen i)) by (intros j; specialize (Hp j); specialize (Hnn j); lia).
      pose proof (lsum_elem (fun i => 1 + plen i + item_len_len w (plen i)) all i Hp' Hin). specialize (Hp i).
      assert (Hf : 0 <= lsum (flow_len w) (run_flows all)).
      { assert (Hfl : Forall is_u32 (run_flows all)).
        { apply list.Forall_forall. intros id Hid%run_flows_elem. apply list_elem_of_fmap in Hid as (j & -> & Hj).
          rewrite list.Forall_forall in Hs. by apply Hs. }
        clear -Hfl. induction Hfl as [|f fs Hf _ IH]; [done|]. rewrite lsum_cons. unfold flow_len at 1.
        pose proof (varint_len_pos f Hf). destruct w; lia. }
      cbn beta in *. destruct w; lia.
Qed.

Lemma encode_steady_exact w id payload limit : sendable w id ->
  run_cost w [mkR2StageItem 0 (KSteady id) payload] <= limit ->
  exists b, encode_data_steady w id payload limit = Ok b /\ len b = run_cost w [mkR2StageItem 0 (KSteady id) payload].
Proof.
  intros [Hu Hs] Hc. unfold run_cost, plen, id_of in *. cbn [si_payload si_kind] in *.
  destruct w; cbn [encode_data_steady].
  - unfold R2.encode_data_steady, R2.data_steady_len. unfold valid_wire_id. rewrite (proj2 (Z.eqb_neq _ _) Hs). cbn [negb].
    replace (_ >? limit) with false by lia. cbn [negb]. eexists. split; [reflexivity|].
    rewrite len_app, len_put_varint by done. change (len ([] ++ [R2_DATA])) with 1. lia.
  - destruct Hs as [fid Hf]. rewrite Hf. destruct (fid_for_inv id fid Hu Hf) as (_ & Hv & _). cbn [of_option ok_or res_bind].
    unfold R3.encode_data_steady. rewrite Hv. cbn [negb]. replace (_ >? limit) with false by lia. cbn [negb].
    eexists. split; [reflexivity|]. unfold R3.data_steady_len. rewrite !len_app. 
    change (len [Z.land (as_u8 (Z.shiftr fid 8)) 0x3F]) with 1. change (len [as_u8 fid]) with 1. change (len (@nil Z)) with 0. lia.
Qed.

(** Each view names the flow of its item in the dictionary of the run. *)
Definition indexed (run : list R2StageItem) (views : list (Z * bytes)) : Prop :=
  Forall2 (fun i v => 0 <= v.1 /\ get (run_flows run) v.1 = Some (id_of i) /\ v.2 = si_payload i) run views.

Lemma index_run run : Forall (fun i => is_steady i = true) run -> len run <= R2_MAX_TRAIN_ITEMS ->
  exists views, index_items run ∅ [] = Ok (run_flows run, views) /\ indexed run views.
Proof.
  intros Hst Hl. destruct (index_items_spec run ∅ []) as (views & E & Hv); [|done|unfold len in *; cbn; lia|].
  { split; [|done]. intros id. rewrite lookup_empty. split; [by intros [? ?] | by intros ?%not_elem_of_nil]. }
  by exists views.
Qed.

Lemma len_run_flows run : run <> [] -> 1 <= len (run_flows run) <= len run.
Proof.
  intros Hne. split.
  - destruct run as [|i run]; [done|]. assert (H : id_of i ∈ run_flows (i :: run)) by (apply run_flows_elem; set_solver).
    destruct (run_flows (i :: run)) as [|x l]; [by apply not_elem_of_nil in H|]. rewrite len_cons. pose proof (len_nonneg l). lia.
  - clear Hne. induction run as [|i run IH] using rev_ind; [done|]. rewrite run_flows_snoc, len_add_id, len_app.
    change (len [i]) with 1. destruct (negb _); lia.
Qed.

Lemma get_lt {A} (l : list A) i x : 0 <= i -> get l i = Some x -> i < len l.
Proof. intros Hi H%lookup_lt_Some. unfold len. lia. Qed.

Lemma indexed_dict_ok run views limit : indexed run views -> run <> [] -> len run <= R2_MAX_TRAIN_ITEMS ->
  limit <= 2 ^ 16 - 1 -> Forall (fun i => plen i <= limit) run -> dict_ok (run_flows run) views.
Proof.
  intros Hx Hne Hl Hlim Hp. pose proof (len_run_flows run Hne). assert (El : len views = len run).
  { unfold len. by rewrite (Forall2_length Hx). }
  split; [unfold R2_MAX_TRAIN_ITEMS in *; lia | lia | |].
  - eapply Forall2_Forall_r; [exact Hx|]. apply list.Forall_true. intros i v (H1 & H2 & _). split; [done|]. by eapply get_lt.
  - eapply Forall2_Forall_r; [exact Hx|]. eapply list.Forall_impl; [exact Hp|].
    intros i Hi v (_ & _ & ->). unfold small, plen in *. lia.
Qed.

Lemma indexed_cost w run views : indexed run views ->
  lsum (dict_cost w) views = lsum (fun i => 1 + plen i + item_len_len w (plen i)) run.
Proof.
  intros Hx. symmetry. apply lsum_Forall2. eapply list.Forall2_impl; [exact Hx|]. intros i v (_ & _ & Hv).
  unfold dict_cost, plen. by rewrite Hv.
Qed.

Lemma indexed_items run views : indexed run views ->
  map (fun it => (default 0 (get (run_flows run) it.1), it.2)) views = flow_payload <$> run.
Proof.
  intros Hx. red in Hx. revert Hx. generalize (run_flows run) as fl. intros fl. 
  induction 1 as [|i v run views (_ & Hg & Hp) _ IH]; [done|]. cbn [map fmap list_fmap]. rewrite Hg, Hp. f_equal. exact IH.
Qed.

Lemma run_flows_all (P : Z -> Prop) run : Forall (fun i => P (id_of i)) run -> Forall P (run_flows run).
Proof.
  intros H. apply list.Forall_forall. intros id Hid%run_flows_elem. apply list_elem_of_fmap in Hid as (j & -> & Hj).
  rewrite list.Forall_forall in H. by apply H.
Qed.

Lemma r2_dict_run run views limit : indexed run views -> dict_ok (run_flows run) views ->
  Forall (fun i => sendable Rev2 (id_of i)) run -> limit <= 2 ^ 16 - 1 ->
  let cost := 4 + lsum (flow_len Rev2) (run_flows run) + lsum (fun i => 1 + plen i + item_len_len Rev2 (plen i)) run in
  cost <= limit -> exists b, encode_train_dict Rev2 (run_flows run) views limit = Ok b /\ len b = cost /\
    read_steady Rev2 b = Ok (flow_payload <$> run).
Proof.
  intros Hx Hd Hs Hl cost Hc. apply run_flows_all in Hs. cbn [encode_train_dict].
  destruct (r2_dict_ok (run_flows run) views limit Hd) as (b & Hb & Hlen).
  - apply distinct_ids_spec. split_and!; [|apply run_flows_nodup | set_solver]. eapply list.Forall_impl; [exact Hs|].
    intros id [_ Hne]. unfold valid_wire_id. by rewrite (proj2 (Z.eqb_neq _ _) Hne).
  - eapply list.Forall_impl; [exact Hs|]. by intros id [? _].
  - rewrite (indexed_cost Rev2 run views Hx). exact Hc.
  - ulia.
  - exists b. split_and!; [done | by rewrite Hlen, (indexed_cost Rev2 run views Hx)|].
    rewrite (r2_read_train (R2Train.TDict (run_flows run) views) limit b); [|split|done|done].
    + cbn [R2Train.train_items]. by rewrite (indexed_items run views Hx).
    + eapply list.Forall_impl; [exact Hs|]. by intros id [? _].
    + destruct Hd as [? ? Hi _]. eapply list.Forall_impl; [exact Hi|]. intros it Hit. ulia.
Qed.

Lemma fids_of flows : Forall (sendable Rev3) flows -> exists fids, mapM fid_for flows = Some fids /\
  Forall2 (fun id fid => is_u16 fid /\ valid_fid fid = true /\ wire_id_for_fid fid = Some id) flows fids.
Proof.
  induction 1 as [|id flows [Hu [fid Hf]] _ (fids & E & Hfs)]; [exists []; by split|].
  destruct (fid_for_inv id fid Hu Hf) as (H1 & H2 & H3 & _). exists (fid :: fids). cbn [mapM mbind option_bind].
  rewrite Hf. cbn [mbind option_bind]. rewrite E. split; [done|]. by constructor.
Qed.

Lemma fids_nodup flows fids : Forall2 (fun id fid => is_u16 fid /\ valid_fid fid = true /\ wire_id_for_fid fid = Some id) flows fids ->
  NoDup flows -> distinct_fids [] fids = true /\ Forall is_u16 fids.
Proof.
  intros H Hnd. rewrite distinct_fids_spec. split.
  - split_and!; [| |set_solver].
    + clear Hnd. induction H as [|id fid flows fids (H1 & H2 & H3) _ IH]; by constructor.
    + induction H as [|id fid flows fids (H1 & H2 & H3) Hf IH]; [constructor|]. apply list.NoDup_cons in Hnd as [Hni Hnd].
      apply list.NoDup_cons. split; [|by apply IH]. intros Hin. apply Hni.
      apply list_elem_of_lookup_1 in Hin as [k Hk]. destruct (Forall2_lookup_r _ _ _ _ _ Hf Hk) as (id' & Hid & _ & _ & H').
      rewrite H3 in H'. injection H' as ->. by eapply list_elem_of_lookup_2.
  - clear Hnd. induction H as [|id fid flows fids (H1 & H2 & H3) _ IH]; by constructor.
Qed.

Lemma r3_dict_run run views limit : indexed run views -> dict_ok (run_flows run) views ->
  Forall (fun i => sendable Rev3 (id_of i)) run -> limit <= 2 ^ 16 - 1 ->
  let cost := 3 + lsum (flow_len Rev3) (run_flows run) + lsum (fun i => 1 + plen i + item_len_len Rev3 (plen i)) run in
  cost <= limit -> exists b, encode_train_dict Rev3 (run_flows run) views limit = Ok b /\ len b = cost /\
    read_steady Rev3 b = Ok (flow_payload <$> run).
Proof.
  intros Hx Hd Hs Hl cost Hc. apply run_flows_all in Hs. cbn [encode_train_dict].
  destruct (fids_of _ Hs) as (fids & Em & Hf). rewrite Em. cbn [of_option ok_or res_bind].
  destruct (fids_nodup _ _ Hf (run_flows_nodup run)) as [Hdi Hu].
  assert (El : len fids = len (run_flows run)) by (unfold len; by rewrite (Forall2_length Hf)).
  assert (Ec : cost = 3 + 2 * len fids + lsum (dict_cost Rev3) views).
  { unfold cost. rewrite (indexed_cost Rev3 run views Hx), El. f_equal. f_equal. clear.
    induction (run_flows run) as [|x l IH]; [done|]. rewrite lsum_cons, len_cons. unfold flow_len in *. lia. }
  replace (len (run_flows run) >? MAX_TRAIN_ITEMS) with false by (destruct Hd; unfold MAX_TRAIN_ITEMS in *; lia). cbn [negb].
  destruct Hd as [H1 H2 H3 H4]. rewrite <- El in H2, H3. 
  destruct (r3_dict_ok fids views limit) as (b & Hb & Hlen); [by split | done | lia | ulia|].
  exists b. split_and!; [done | by rewrite Ec|].
  apply (r3_read_train (R3Train.TDict fids views) limit); [split; [done|] | done | done|].
  { eapply list.Forall_impl; [exact H3|]. intros it Hit. unfold MAX_TRAIN_ITEMS in *. ulia. }
  cbn [R3Train.train_items]. rewrite <- (indexed_items run views Hx). clear -Hx Hf. red in Hx. revert Hx Hf.
  generalize (run_flows run) as fl. intros fl Hx Hf. induction Hx as [|i v run views (Hn & Hg & Hp) _ IH]; [constructor|].
  cbn [map]. constructor; [|done]. rewrite Hg. cbn [fst snd default id from_option]. split; [|done]. unfold get in Hg.
  destruct (Forall2_lookup_l _ _ _ _ _ Hf Hg) as (fid & Hfid & _ & _ & Hw). unfold get. rewrite Hfid. exact Hw.
Qed.

Lemma single_flow run id : run_flows run = [id] -> Forall (fun i => id_of i = id) run.
Proof.
  intros E. apply list.Forall_forall. intros i Hi. assert (H : id_of i ∈ run_flows run).
  { apply run_flows_elem. by apply list_elem_of_fmap_2. }
  rewrite E in H. by apply list_elem_of_singleton in H.
Qed.

Lemma flow_payload_single run id : Forall (fun i => id_of i = id) run ->
  flow_payload <$> run = map (fun p => (id, p)) (si_payload <$> run).
Proof. induction 1 as [|i run Hi _ IH]; [done|]. cbn [fmap list_fmap map]. unfold flow_payload at 1. rewrite Hi. f_equal. exact IH. Qed.

Lemma r3_single_items fid id ps : wire_id_for_fid fid = Some id ->
  Forall2 (fun a b : Z * bytes => wire_id_for_fid a.1 = Some b.1 /\ a.2 = b.2) (map (fun p => (fid, p)) ps) (map (fun p => (id, p)) ps).
Proof. intros H. induction ps as [|p ps IH]; cbn [map]; by constructor. Qed.

(** A rev3 run of one flow: the frame the encoder chooses, with its length. *)
Lemma r3_single_run run id limit : run_flows run = [id] -> run <> [] -> len run <= R2_MAX_TRAIN_ITEMS -> sendable Rev3 id ->
  Forall (fun i => plen i <= limit) run -> limit <= 2 ^ 16 - 1 ->
  let ps := si_payload <$> run in
  let body := if equal_lengths run
              then or_else (encode_train_same_equal Rev3 id ps limit) (encode_train_same Rev3 id ps limit)
              else encode_train_same Rev3 id ps limit in
  let cost := if equal_lengths run
              then 4 + len_field (from_option plen 0 (head run)) + len run * from_option plen 0 (head run)
              else 4 + lsum (fun i => len_field (plen i) + plen i) run in
  cost <= limit -> exists b, body = Ok b /\ len b = cost /\ read_steady Rev3 b = Ok (flow_payload <$> run).
Proof.
  intros Ef Hne Hl [Hu [fid Hf]] Hp Hlim ps body cost Hc. destruct (fid_for_inv id fid Hu Hf) as (H1 & H2 & H3 & _).
  assert (Hitems : flow_payload <$> run = map (fun p => (id, p)) ps) by by apply flow_payload_single, single_flow.
  assert (Elen : len ps = len run) by (unfold len, ps; by rewrite length_fmap).
  assert (Hone : 1 <= len run) by (destruct run; [done|]; rewrite len_cons; pose proof (len_nonneg run); lia).
  assert (Hsm : Forall small ps).
  { unfold ps. apply Forall_fmap. eapply list.Forall_impl; [exact Hp|]. intros i Hi. unfold small, plen in *. cbn. lia. }
  unfold body. rewrite Hitems. cbn [encode_train_same_equal encode_train_same]. rewrite Hf. cbn [of_option ok_or res_bind].
  unfold R2_MAX_TRAIN_ITEMS in Hl. unfold cost in *. destruct (equal_lengths run) eqn:Ee.
  - destruct run as [|i0 run]; [done|]. cbn [from_option head] in *. unfold ps in *. cbn [fmap list_fmap] in *.
    assert (He : Forall (fun p : bytes => len p = len (si_payload i0)) (si_payload <$> run)).
    { unfold equal_lengths in Ee. cbn [forallb] in Ee. apply andb_true_iff in Ee as [_ Ee]. rewrite forallb_forall in Ee.
      apply Forall_fmap, list.Forall_forall. intros i Hi. specialize (Ee i (proj1 (list_elem_of_In _ _) Hi)).
      apply Z.eqb_eq in Ee. exact Ee. }
    unfold plen in Hc. destruct (r3_equal_ok fid (si_payload i0) (si_payload <$> run) limit) as (b & Hb & Hlen);
      [done | change (len (si_payload i0 :: (si_payload <$> run)) <= 64); lia | done | by apply Forall_inv in Hsm
      | rewrite Elen; exact Hc | ulia|].
    exists b. rewrite Hb. split_and!; [done | unfold plen; rewrite Hlen, Elen; done|].
    apply (r3_read_train (R3Train.TSameEqual fid (si_payload i0 :: (si_payload <$> run))) limit); [done..|].
    by apply r3_single_items.
  - pose proof (lsum_fmap same_cost si_payload run) as Ec. fold ps in Ec. unfold same_cost at 2 in Ec. unfold plen in *.
    rewrite <- Ec in *.
    destruct (r3_same_ok fid ps limit) as (b & Hb & Hlen); [done | lia | done | exact Hc | ulia|].
    exists b. rewrite Hb. split_and!; [done | exact Hlen|].
    apply (r3_read_train (R3Train.TSame fid ps) limit); [done..|]. by apply r3_single_items.
Qed.

Lemma encode_train_run_exact w limit run : 2 <= len run <= R2_MAX_TRAIN_ITEMS -> Forall (fun i => is_steady i = true) run ->
  Forall (fun i => sendable w (id_of i)) run -> limit <= 2 ^ 16 - 1 -> run_cost w run <= limit ->
  exists b, encode_train_run w run limit = Ok b /\ len b = run_cost w run /\ read_steady w b = Ok (flow_payload <$> run).
Proof.
  intros Hl Hst Hs Hlim Hc. assert (Hp := run_cost_covers w limit run Hst Hs Hc).
  assert (Hne : run <> []) by (intros ->; rewrite len_nil in Hl; lia).
  unfold encode_train_run. replace ((len run >? R2_MAX_TRAIN_ITEMS) || (len run =? 0)) with false by lia.
  destruct (index_run run Hst) as (views & -> & Hx); [lia|]. cbn [res_bind].
  assert (Hd := indexed_dict_ok run views limit Hx Hne ltac:(lia) Hlim Hp).
  destruct run as [|i0 [|i1 run]]; [done | change (len [i0]) with 1 in Hl; lia|]. set (all := i0 :: i1 :: run) in *.
  unfold run_cost in *. fold all in Hc |- *. destruct w.
  - cbn [or_else bool_decide andb] in *. rewrite bool_decide_eq_false_2 in * by done. cbn [andb] in *.
    by apply r2_dict_run.
  - rewrite bool_decide_eq_true_2 in * by done. cbn [andb] in *.
    destruct (run_flows all) as [|id [|id' fl]] eqn:Ef.
    + pose proof (len_run_flows all Hne) as Hn. rewrite Ef, len_nil in Hn. lia.
    + change (len [id] =? 1) with true in *. cbn iota in *.
      assert (Hid : sendable Rev3 id) by (apply run_flows_all in Hs; rewrite Ef in Hs; by apply Forall_inv in Hs).
      destruct (r3_single_run all id limit Ef Hne ltac:(lia) Hid Hp Hlim Hc) as (b & Hb & Hlen & Hr).
      exists b. unfold all at 1. fold all. change (forallb (fun i => plen i =? plen i0) all) with (equal_lengths all).
      rewrite Hb. by rewrite Hlen.
    + replace (len (id :: id' :: fl) =? 1) with false in * by (rewrite !len_cons; pose proof (len_nonneg fl); lia).
      rewrite <- Ef in *. cbn [or_else]. by apply r3_dict_run.
Qed.

Lemma encode_steady_frame w limit run : Forall (fun i => sendable w (id_of i)) run -> limit <= 2 ^ 16 - 1 ->
  frame_of w limit SteadyRun run ->
  exists body, encode_frame w SteadyRun run limit = Ok body /\ len body = run_cost w run /\
    read_steady w body = Ok (flow_payload <$> run).
Proof.
  intros Hs Hl (Hne & Hn & Hst & Hc). destruct run as [|i [|i1 run]]; [done| |].
  - apply Forall_inv in Hs, Hst. cbn [encode_frame]. rewrite steady_id_of by done. cbn [res_bind].
    destruct (encode_steady_exact w (id_of i) (si_payload i) limit Hs Hc) as (b & Hb & Hlen).
    exists b. split_and!; [done | exact Hlen|]. apply (read_data w _ _ limit); [apply Hs | done | done].
  - apply encode_train_run_exact; try done. rewrite !len_cons in *. pose proof (len_nonneg run). lia.
Qed.

(* ------------------------------------------------------------------ *)
(** ** Claims *)

(** C28: a frame is packed to exactly the length it was costed at.  Every run of
    steady items the stager claims, whose flows have ids on the wire, is
    encoded (the size-drop branch is dead): the body has exactly the length
    the incremental cost model admitted, so it fits the path limit, and the
    receiver reads from it the payloads of the run, in order, each with its
    flow.  The limit is at most 65535, as that of a QUIC datagram. *)
Theorem stage_pack_exact w limit run :
  Forall (fun i => sendable w (id_of i)) run -> limit <= 2 ^ 16 - 1 -> frame_of w limit SteadyRun run ->
  exists body, encode_frame w SteadyRun run limit = Ok body /\ len body = run_cost w run /\ len body <= limit /\
    read_steady w body = Ok (flow_payload <$> run).
Proof.
  intros Hs Hl Hf. destruct (encode_steady_frame w limit run Hs Hl Hf) as (b & Hb & Hlen & Hr).
  exists b. split_and!; [done | done | rewrite Hlen; apply Hf | done].
Qed.

Lemma stage_pack_exact_witness :
  let run := [mkR2StageItem 1 (KSteady 2) [7; 8]; mkR2StageItem 2 (KSteady 3) []; mkR2StageItem 1 (KSteady 2) [9]] in
  exists body, encode_frame Rev3 SteadyRun run 16 = Ok body /\ len body = run_cost Rev3 run /\ len body <= 16 /\
    read_steady Rev3 body = Ok [(2, [7; 8]); (3, []); (2, [9])].
Proof.
  apply (stage_pack_exact Rev3 16
    [mkR2StageItem 1 (KSteady 2) [7; 8]; mkR2StageItem 2 (KSteady 3) []; mkR2StageItem 1 (KSteady 2) [9]]).
  - repeat apply list.Forall_cons_2; try apply list.Forall_nil_2; (split; [concrete | eexists; reflexivity]).
  - concrete.
  - split; [discriminate|]. split; [concrete|]. split; [repeat constructor | concrete].
Defined.
