(* ===== verification/Drain.v ===== *)
(** The drain of the egress stager ([src/udp/r2_stage.rs]): encoding the claimed
    frames, sending them, requeueing what a refused frame left behind, and the
    loop that repeats this outside the stager's lock while other tasks use the
    stager.

    What the other tasks do is explicit.  Each time the drain asks for the
    stager's lock, a [Turn] says which operations they ran on the stager since
    the drain last held it and whether one of them holds the lock.  The QUIC
    connection is the parameter [DatagramConn]; datagrams that other users of
    the connection (fragments, controls) send between two sends of the drain
    are part of what the parameter may do, not separate steps. *)
From stdpp Require Import fin_maps.
From S2P Require Import Prelude Addr Codec R3 R3Train R2 R2Train Wire Frag Stage StageRun Pack.

Record R2DrainOutcome : Type := mkOutcome {
  do_frames : Z;
  do_items_sent : Z;
  do_items_dropped : Z;
  do_failed : option DatagramSend
}.

Definition R2DrainOutcome_default : R2DrainOutcome := mkOutcome 0 0 0 None.

Inductive R2DrainAttempt : Type := Drained (outcome : R2DrainOutcome) | Busy.

Definition is_busy (a : R2DrainAttempt) : bool := match a with Busy => true | Drained _ => false end.
Definition is_complete (a : R2DrainAttempt) : bool :=
  match a with Drained outcome => bool_decide (do_failed outcome = None) | Busy => false end.

Inductive DirectSend : Type :=
| DSent
| DTooLarge
| DTerminal (v : DatagramSend)
| DNotNow (item : R2StageItem).

(** [u32] saturating addition. *)
Definition sat_u32 (a b : Z) : Z := Z.min (a + b) (2 ^ 32 - 1).

(* ------------------------------------------------------------------ *)
(** ** Encoding the claimed frames *)

Definition with_body (b : option bytes) (f : PackedFrame) : PackedFrame :=
  mkPackedFrame b (pf_shape f) (pf_item_off f) (pf_item_len f).
Definition shift_off (n : Z) (f : PackedFrame) : PackedFrame :=
  mkPackedFrame (pf_body f) (pf_shape f) (saturating_sub (pf_item_off f) n) (pf_item_len f).

(** Frame [i] does not fit: it and its items leave the batch. *)
Definition drop_frame (i : nat) (start n : Z) (q : PackedFrames) : PackedFrames :=
  mkPackedFrames (take i (pk_frames q) ++ (shift_off (as_u32 n) <$> drop (S i) (pk_frames q)))
    (take (Z.to_nat start) (pk_items q) ++ drop (Z.to_nat (start + n)) (pk_items q)) (pk_wire q).

(** The loop of [encode_claimed]; each turn advances or removes a frame. *)
Fixpoint encode_go (turns i : nat) (limit : Z) (q : PackedFrames) (d : Drops) : res unit (PackedFrames * Drops) :=
  match pk_frames q !! i, turns with
  | None, _ => Ok (q, d)
  | Some _, O => Panic
  | Some f, S turns =>
      let start := pf_item_off f in
      let n := pf_item_len f in
      let! run := sub (pk_items q) start (start + n) in
      match encode_frame (pk_wire q) (pf_shape f) run limit with
      | Ok body =>
          encode_go turns (S i) limit
            (mkPackedFrames (<[i := with_body (Some body) f]> (pk_frames q)) (pk_items q) (pk_wire q)) d
      | Err _ => encode_go turns i limit (drop_frame i start n q) (book_too_large n d)
      | Panic => Panic
      end
  end.

Definition encode_claimed (limit : Z) (q : PackedFrames) (d : Drops) : res unit (PackedFrames * Drops) :=
  encode_go (length (pk_frames q)) 0 limit q d.

(* ------------------------------------------------------------------ *)
(** ** Sending and requeueing *)

Section Drain.
Context {BU : Build} {Conn : Type} `{DatagramConn Conn}.

(** What sending a batch changes; of [SendStats] the payload counters. *)
Record Link : Type := mkLink { lk_conn : Conn; lk_drops : Drops; lk_stats : SendStats }.

(** What a refused frame books for its items. *)
Definition book_refused (v : DatagramSend) (n : Z) (d : Drops) : Drops :=
  match v with
  | Blocked => book_buffer_full n d
  | TooLarge => book_too_large n d
  | _ => book_egress_dead n d
  end.

Definition book_payloads (items : list R2StageItem) (s : SendStats) : SendStats :=
  fold_left (fun s i => stat_payload (plen i) s) items s.

(** The loop of [send_packed_frames] from frame [idx] on; the missing body is a
    failed assertion. *)
Fixpoint send_go (turns idx : nat) (out : R2DrainOutcome) (q : PackedFrames) (l : Link) :
    res unit (R2DrainOutcome * PackedFrames * Link) :=
  match pk_frames q !! idx, turns with
  | None, _ => Ok (out, q, l)
  | Some _, O => Panic
  | Some f, S turns =>
      match pf_body f with
      | None => Panic
      | Some body =>
          let q := mkPackedFrames (<[idx := with_body None f]> (pk_frames q)) (pk_items q) (pk_wire q) in
          match try_send_datagram (lk_conn l) body with
          | (Sent, conn) =>
              let start := pf_item_off f in
              let! items := sub (pk_items q) start (start + pf_item_len f) in
              send_go turns (S idx)
                (mkOutcome (sat_u32 (do_frames out) 1) (sat_u32 (do_items_sent out) (pf_item_len f))
                   (do_items_dropped out) (do_failed out))
                q (mkLink conn (lk_drops l) (book_payloads items (lk_stats l)))
          | (other, conn) =>
              let dropped := pf_item_len f in
              Ok (mkOutcome (do_frames out) (do_items_sent out) dropped (Some other), q,
                  mkLink conn (book_refused other dropped (lk_drops l)) (lk_stats l))
          end
      end
  end.

Definition send_packed_frames (q : PackedFrames) (l : Link) : res unit (R2DrainOutcome * PackedFrames * Link) :=
  send_go (length (pk_frames q)) 0 R2DrainOutcome_default q l.

(** The items go back in reverse, so each session's order is restored. *)
Fixpoint requeue_go (items : list R2StageItem) (overflow : Z) (first : option (Z * option Z)) (st : R2Stager) :
    Z * option (Z * option Z) * R2Stager :=
  match items with
  | [] => (overflow, first, st)
  | item :: items =>
      match push_front item st with
      | (Err back, st) =>
          requeue_go items (overflow + 1) (match first with Some _ => first | None => Some (item_ids back) end) st
      | (_, st) => requeue_go items overflow first st
      end
  end.

Definition requeue_unsent (q : PackedFrames) (failed_frame : Z) (st : R2Stager) :
    Z * option (Z * option Z) * PackedFrames * R2Stager :=
  let cleared := mkPackedFrames [] (pk_items q) (pk_wire q) in
  match get (pk_frames q) (failed_frame + 1) with
  | None => (0, None, cleared, st)
  | Some first_unsent =>
      let start := pf_item_off first_unsent in
      if start >? len (pk_items q) then (0, None, cleared, st) else
      let '(overflow, first, st) := requeue_go (reverse (drop (Z.to_nat start) (pk_items q))) 0 None st in
      (overflow, first, mkPackedFrames [] (take (Z.to_nat start) (pk_items q)) (pk_wire q), st)
  end.

(* ------------------------------------------------------------------ *)
(** ** The drain *)

(** What the other tasks did before one request of the stager's lock. *)
Record Turn : Type := mkTurn { tn_held : bool; tn_ops : list StageOp }.

(** The state a drain works on; [dn_calls] lists the calls of
    [on_requeue_overflow]. *)
Record World : Type := mkWorld {
  dn_link : Link;
  dn_stage : R2Stager;
  dn_env : list Turn;
  dn_calls : list (option (Z * option Z))
}.

Definition with_link (l : Link) (s : World) : World := mkWorld l (dn_stage s) (dn_env s) (dn_calls s).
Definition with_stage (st : R2Stager) (s : World) : World := mkWorld (dn_link s) st (dn_env s) (dn_calls s).
Definition with_drops (d : Drops) (s : World) : World :=
  with_link (mkLink (lk_conn (dn_link s)) d (lk_stats (dn_link s))) s.

(** The other tasks take their turn; the lock is ours unless one of them holds
    it.  Past the end of the list they are idle. *)
Definition others_turn (s : World) : res unit (bool * World) :=
  match dn_env s with
  | [] => Ok (false, s)
  | t :: env =>
      let! '(st, d) := run_stage (tn_ops t) (dn_stage s) (lk_drops (dn_link s)) in
      Ok (tn_held t, mkWorld (mkLink (lk_conn (dn_link s)) d (lk_stats (dn_link s))) st env (dn_calls s))
  end.

(** [stage_lock]: whether the lock was obtained; without [try_only] it waits. *)
Definition stage_lock (try_only : bool) (s : World) : res unit (bool * World) :=
  let! '(held, s) := others_turn s in
  Ok (negb (try_only && held), s).

(** A drain in progress: the items handled, whether it touched the queue, the
    running total. *)
Record Progress : Type := mkProgress { pg_handled : Z; pg_progress : bool; pg_total : R2DrainOutcome }.

(** The claim under the lock: [None] when the queue is empty. *)
Definition claim_some (limit : Z) (p : Progress) (s : World) : res unit (option (bool * PackedFrames) * Progress * World) :=
  let st := dn_stage s in
  if stager_is_empty st then Ok (None, p, s) else
  let before := stager_len st in
  let! '(more, c) := claim_batch limit R2_PACK_BATCH_FRAMES R2_PACK_BATCH_ITEMS
                       (mkClaim st PackedFrames_default (lk_drops (dn_link s))) in
  let handled := saturating_add (pg_handled p) (saturating_sub before (stager_len (cl_stage c))) in
  Ok (Some (more, cl_packed c), mkProgress handled true (pg_total p), with_drops (cl_drops c) (with_stage (cl_stage c) s)).

Definition add_outcome (t o : R2DrainOutcome) : R2DrainOutcome :=
  mkOutcome (sat_u32 (do_frames t) (do_frames o)) (sat_u32 (do_items_sent t) (do_items_sent o))
    (sat_u32 (do_items_dropped t) (do_items_dropped o)) (do_failed t).
Definition with_failed (v : option DatagramSend) (t : R2DrainOutcome) : R2DrainOutcome :=
  mkOutcome (do_frames t) (do_items_sent t) (do_items_dropped t) v.

(** The batch after the claim: encode, send, and on a failure requeue.  Gives
    the outcome and whether the send failed. *)
Definition send_batch (limit : Z) (q : PackedFrames) (total : R2DrainOutcome) (s : World) :
    res unit (bool * R2DrainOutcome * World) :=
  let! '(q, d) := encode_claimed limit q (lk_drops (dn_link s)) in
  let s := with_drops d s in
  if bool_decide (pk_frames q = []) then Ok (false, total, s) else
  let! '(outcome, q, l) := send_packed_frames q (dn_link s) in
  let s := with_link l s in
  let total := add_outcome total outcome in
  match do_failed outcome with
  | None => Ok (false, total, s)
  | Some v =>
      let! '(_, s) := others_turn s in
      let '(overflow, first, _, st) := requeue_unsent q (do_frames outcome) (dn_stage s) in
      Ok (true, with_failed (Some v) total,
          mkWorld (dn_link s) st (dn_env s) (dn_calls s ++ replicate (Z.to_nat overflow) first))
  end.

(** The loop; [None] is a [try_only] attempt that did nothing. *)
Fixpoint drain_loop (turns : nat) (limit : Z) (try_only : bool) (p : Progress) (s : World) :
    res unit (option R2DrainOutcome * World) :=
  match turns with
  | O => Panic
  | S turns =>
      if datagram_send_buffer_space (lk_conn (dn_link s)) =? 0
      then Ok (Some (with_failed (Some Blocked) (pg_total p)), s) else
      let! '(mine, s) := stage_lock try_only s in
      if negb mine then Ok (if pg_progress p then Some (pg_total p) else None, s) else
      let! '(claimed, p, s) := claim_some limit p s in
      match claimed with
      | None => Ok (Some (pg_total p), s)
      | Some (more, q) =>
          let! '(failed, total, s) := send_batch limit q (pg_total p) s in
          if failed || negb more || (pg_handled p >=? R2_STAGE_MAX_ITEMS) then Ok (Some total, s)
          else drain_loop turns limit try_only (mkProgress (pg_handled p) (pg_progress p) total) s
      end
  end.

(** [gate_held]: whether another drain holds the gate when this one asks. *)
Definition drain_staged_inner (limit : Z) (try_only gate_held : bool) (s : World) : res unit (option R2DrainOutcome * World) :=
  let! '(mine, s) := stage_lock try_only s in
  if negb mine then Ok (None, s) else
  if try_only && gate_held then Ok (None, s) else
  let! '(mine, s) := stage_lock try_only s in
  if negb mine then Ok (None, s) else
  if stager_is_empty (dn_stage s) then Ok (Some R2DrainOutcome_default, s) else
  drain_loop (Z.to_nat R2_STAGE_MAX_ITEMS) limit try_only (mkProgress 0 false R2DrainOutcome_default) s.

Definition drain_staged (limit : Z) (gate_held : bool) (s : World) : res unit (R2DrainOutcome * World) :=
  let! '(r, s) := drain_staged_inner limit false gate_held s in
  match r with Some outcome => Ok (outcome, s) | None => Panic end.

Definition try_drain_staged (limit : Z) (gate_held : bool) (s : World) : res unit (R2DrainAttempt * World) :=
  let! '(r, s) := drain_staged_inner limit true gate_held s in
  Ok (match r with Some outcome => Drained outcome | None => Busy end, s).

Definition try_send_direct (item : R2StageItem) (limit : Z) (gate_held : bool) (s : World) : res unit (DirectSend * World) :=
  let! '(_, s) := others_turn s in
  let st := dn_stage s in
  if negb (stager_is_empty st) || negb (accepts (len (si_payload item)) st) then Ok (DNotNow item, s) else
  if gate_held then Ok (DNotNow item, s) else
  match encode_standalone_item_for (sg_wire st) item limit with
  | Panic => Panic
  | Err _ => Ok (DTooLarge, s)
  | Ok body =>
      let '(v, conn) := try_send_datagram (lk_conn (dn_link s)) body in
      Ok (match v with
          | Blocked => DNotNow item
          | Sent => DSent
          | TooLarge => DTooLarge
          | other => DTerminal other
          end, with_link (mkLink conn (lk_drops (dn_link s)) (lk_stats (dn_link s))) s)
  end.
End Drain.
Arguments Link Conn : clear implicits.
Arguments World Conn : clear implicits.

(* ------------------------------------------------------------------ *)
(** ** The encoders do not panic *)

Lemma or_else_no_panic {A} (a b : res unit A) : a <> Panic -> b <> Panic -> or_else a b <> Panic.
Proof. by destruct a. Qed.

(** The address of a queued item is one the type can hold. *)
Definition item_wf (i : R2StageItem) : Prop :=
  match si_kind i with KSteady _ => True | KOpen _ _ addr _ | KInline _ addr _ => addr_wf addr end.

Lemma header_no_panic addr : res_ok (header addr) <> Panic.
Proof. unfold header. destruct addr as [[ip port|ip port fi sc]|d port]; cbn [res_bind]; repeat (case_match; cbn [res_bind res_ok]); done. Qed.

Lemma put_addr_no_panic {E} addr h out : addr_wf addr -> res_ok (header addr) = Ok h -> @put_addr E out h <> Panic.
Proof.
  intros Hwf Hh. destruct (header addr) as [h'| |] eqn:E1; try done. injection Hh as ->.
  destruct (header_ok addr h Hwf E1) as (e & He & ->). by rewrite put_addr_ok.
Qed.

Lemma standalone_no_panic w item limit : item_wf item -> encode_standalone_item_for w item limit <> Panic.
Proof.
  unfold item_wf, encode_standalone_item_for. intros Hwf.
  destruct (si_kind item) as [id|id sess addr src|sess addr src]; destruct w;
    cbn [encode_data_steady encode_data_open encode_data_inline];
    unfold R2.encode_data_steady, R2.encode_data_open, R2.encode_data_inline; repeat np_step;
    unfold R3.encode_data_steady, R3.encode_data_src, R3.encode_data_open, R3.encode_data_inline; repeat np_step;
    first [apply header_no_panic | by eapply put_addr_no_panic | idtac].
  all: apply header_no_panic || (match goal with |- res_ok ?m <> Panic =>
         pose proof (require_fid_owner_no_panic a); destruct m eqn:?; naive_solver end).
Qed.

Lemma train_run_no_panic w run limit : run <> [] -> len run <= R2_MAX_TRAIN_ITEMS ->
  Forall (fun i => is_steady i = true) run -> encode_train_run w run limit <> Panic.
Proof.
  intros Hne Hl Hst. unfold encode_train_run. pose proof (len_nonempty run Hne).
  replace ((len run >? R2_MAX_TRAIN_ITEMS) || (len run =? 0)) with false by lia.
  destruct (index_run run Hst Hl) as (views & -> & _). cbn [res_bind].
  assert (Hd : encode_train_dict w (run_flows run) views limit <> Panic).
  { destruct w; cbn [encode_train_dict]; unfold R2Train.encode_train_dict, R3Train.encode_train_dict; repeat np_step. }
  assert (Hs : forall id ps, encode_train_same w id ps limit <> Panic).
  { intros. destruct w; cbn [encode_train_same]; unfold R2Train.encode_train_same, R3Train.encode_train_same; repeat np_step. }
  assert (He : forall id ps, encode_train_same_equal w id ps limit <> Panic).
  { intros. destruct w; cbn [encode_train_same_equal]; unfold R2Train.encode_train_same, R3Train.encode_train_same_equal; repeat np_step. }
  apply or_else_no_panic; [|done]. repeat case_match; try done; try apply or_else_no_panic; auto.
Qed.

Lemma encode_frame_no_panic w limit shape run : Forall item_wf run -> frame_of w limit shape run -> encode_frame w shape run limit <> Panic.
Proof.
  intros Hwf. destruct shape.
  - intros (i & -> & _). apply standalone_no_panic. by apply Forall_inv in Hwf.
  - intros (Hne & Hl & Hst & _). destruct run as [|i [|i1 run]]; [done| |by apply train_run_no_panic].
    cbn [encode_frame]. apply Forall_inv in Hst. rewrite steady_id_of by done. cbn [res_bind].
    pose proof (standalone_no_panic w (mkR2StageItem 0 (KSteady (id_of i)) (si_payload i)) limit I) as Hp. exact Hp.
Qed.

(* ------------------------------------------------------------------ *)
(** ** A batch as a list of frames *)

(** A frame of a batch: its shape, its items, its body once encoded. *)
Record Frame : Type := mkFrame { fm_shape : FrameShape; fm_run : list R2StageItem; fm_body : option bytes }.

Definition runs (l : list Frame) : list R2StageItem := concat (fm_run <$> l).

Fixpoint pack_frames (off : Z) (l : list Frame) : list PackedFrame :=
  match l with
  | [] => []
  | f :: l => mkPackedFrame (fm_body f) (fm_shape f) off (len (fm_run f)) :: pack_frames (off + len (fm_run f)) l
  end.

Definition pack (w : Wire) (l : list Frame) : PackedFrames := mkPackedFrames (pack_frames 0 l) (runs l) w.

Lemma runs_app l k : runs (l ++ k) = runs l ++ runs k.
Proof. unfold runs. by rewrite fmap_app, concat_app. Qed.

Lemma runs_cons f l : runs (f :: l) = fm_run f ++ runs l.
Proof. done. Qed.

Lemma pack_frames_app l k : forall off, pack_frames off (l ++ k) = pack_frames off l ++ pack_frames (off + len (runs l)) k.
Proof.
  induction l as [|f l IH]; intros off; cbn [app pack_frames]; [by rewrite Z.add_0_r|].
  rewrite IH, runs_cons, len_app. cbn [app]. do 3 f_equal. lia.
Qed.

Lemma length_pack_frames l : forall off, length (pack_frames off l) = length l.
Proof. induction l as [|f l IH]; intros off; cbn; [done|]. by rewrite IH. Qed.

Lemma pack_frames_at l f k off : pack_frames off (l ++ f :: k) !! length l =
  Some (mkPackedFrame (fm_body f) (fm_shape f) (off + len (runs l)) (len (fm_run f))).
Proof. rewrite pack_frames_app, <- (length_pack_frames l off). by apply list_lookup_middle. Qed.

Lemma pack_frames_end l off : pack_frames off l !! length l = None.
Proof. apply lookup_ge_None. by rewrite length_pack_frames. Qed.

Lemma sub_middle {E A} (a b c : list A) : @sub E A (a ++ b ++ c) (len a) (len a + len b) = Ok b.
Proof.
  unfold sub, slice. pose proof (len_nonneg b). pose proof (len_nonneg c). rewrite !len_app.
  replace ((len a <=? len a + len b) && (len a + len b <=? len a + (len b + len c))) with true by lia. cbn [or_panic].
  rewrite len_to_nat, drop_app_length. replace (len a + len b - len a) with (len b) by lia.
  by rewrite len_to_nat, take_app_length.
Qed.

Lemma pack_run {E} w l f k : @sub E _ (pk_items (pack w (l ++ f :: k))) (len (runs l)) (len (runs l) + len (fm_run f)) = Ok (fm_run f).
Proof. cbn [pack pk_items]. rewrite runs_app, runs_cons. apply sub_middle. Qed.

Definition set_body (b : option bytes) (f : Frame) : Frame := mkFrame (fm_shape f) (fm_run f) b.

Lemma pack_body w l f k b :
  mkPackedFrames (<[length l := with_body b (mkPackedFrame (fm_body f) (fm_shape f) (len (runs l)) (len (fm_run f)))]>
    (pk_frames (pack w (l ++ f :: k)))) (pk_items (pack w (l ++ f :: k))) w = pack w (l ++ set_body b f :: k).
Proof.
  unfold pack. cbn [pk_frames pk_items]. f_equal; [|by rewrite !runs_app].
  rewrite !pack_frames_app. rewrite insert_app_r_alt by (rewrite length_pack_frames; lia).
  rewrite length_pack_frames, Nat.sub_diag. done.
Qed.

Lemma shift_pack_frames n l : forall off, 0 <= off -> 0 <= n -> shift_off n <$> pack_frames (off + n) l = pack_frames off l.
Proof.
  induction l as [|f l IH]; intros off Ho Hn; cbn [pack_frames fmap list_fmap]; [done|]. f_equal.
  - unfold shift_off. cbn. f_equal. unfold saturating_sub. lia.
  - replace (off + n + len (fm_run f)) with (off + len (fm_run f) + n) by lia.
    apply IH; [pose proof (len_nonneg (fm_run f)); lia | done].
Qed.

Lemma pack_drop w l f k : len (fm_run f) < 2 ^ 32 ->
  drop_frame (length l) (len (runs l)) (len (fm_run f)) (pack w (l ++ f :: k)) = pack w (l ++ k).
Proof.
  intros Hl. unfold drop_frame, pack. cbn [pk_frames pk_items pk_wire]. pose proof (len_nonneg (fm_run f)).
  pose proof (len_nonneg (runs l)). f_equal.
  - rewrite !pack_frames_app. rewrite <- (length_pack_frames l 0) at 1 2. rewrite take_app_length.
    rewrite drop_app_ge, length_pack_frames by (rewrite length_pack_frames; lia).
    replace (S (length l) - length l)%nat with 1%nat by lia. cbn [pack_frames drop]. f_equal.
    unfold as_u32. rewrite Z.mod_small by lia. rewrite <- Z.add_assoc. rewrite Z.add_0_l. apply shift_pack_frames; lia.
  - rewrite !runs_app, runs_cons. rewrite len_to_nat, take_app_length. f_equal.
    replace (Z.to_nat (len (runs l) + len (fm_run f))) with (length (runs l) + length (fm_run f))%nat by (unfold len; lia).
    rewrite app_assoc, <- length_app. by rewrite drop_app_length.
Qed.

Definition encoded (w : Wire) (limit : Z) (f : Frame) : list Frame :=
  match encode_frame w (fm_shape f) (fm_run f) limit with Ok body => [set_body (Some body) f] | _ => [] end.
Definition unfit (w : Wire) (limit : Z) (f : Frame) : list R2StageItem :=
  match encode_frame w (fm_shape f) (fm_run f) limit with Ok _ => [] | _ => fm_run f end.

(** A frame the encoder handles. *)
Definition encodable (w : Wire) (limit : Z) (f : Frame) : Prop :=
  encode_frame w (fm_shape f) (fm_run f) limit <> Panic /\ len (fm_run f) < 2 ^ 32.

Lemma encode_go_spec w limit k : forall l d, is_u64 (dr_too_large d) -> Forall (encodable w limit) k ->
  encode_go (length k) (length l) limit (pack w (l ++ k)) d =
  Ok (pack w (l ++ concat (encoded w limit <$> k)), book_too_large (len (concat (unfit w limit <$> k))) d).
Proof.
  induction k as [|f k IH]; intros l d Hd Hk.
  { cbn [length encode_go fmap list_fmap concat pack pk_frames]. rewrite app_nil_r, pack_frames_end, len_nil.
    by rewrite book_too_large_0. }
  apply list.Forall_cons in Hk as [[Hf Hl] Hk]. cbn [length encode_go].
  replace (pk_frames (pack w (l ++ f :: k)) !! length l) with
    (Some (mkPackedFrame (fm_body f) (fm_shape f) (len (runs l)) (len (fm_run f)))) by (symmetry; apply (pack_frames_at l f k 0)).
  cbn [pf_item_off pf_item_len pf_shape]. rewrite pack_run. cbn [res_bind fmap list_fmap concat].
  change (pk_wire (pack w (l ++ f :: k))) with w. unfold encoded at 1, unfit at 1.
  destruct (encode_frame w (fm_shape f) (fm_run f) limit) as [body| |] eqn:E; [| |done].
  - rewrite pack_body. replace (S (length l)) with (length (l ++ [set_body (Some body) f])) by (rewrite length_app; cbn; lia).
    replace (l ++ set_body (Some body) f :: k) with ((l ++ [set_body (Some body) f]) ++ k) by by rewrite <- app_assoc.
    rewrite IH by done. cbn [app]. by rewrite <- app_assoc.
  - rewrite pack_drop by done. rewrite IH; [|apply book_too_large_u64 | done]. cbn [app]. by rewrite book_too_large_add, len_app.
Qed.

Lemma encode_claimed_spec w limit l d : is_u64 (dr_too_large d) -> Forall (encodable w limit) l ->
  encode_claimed limit (pack w l) d =
  Ok (pack w (concat (encoded w limit <$> l)), book_too_large (len (concat (unfit w limit <$> l))) d).
Proof.
  intros Hd Hl. unfold encode_claimed. cbn [pack pk_frames]. rewrite length_pack_frames.
  apply (encode_go_spec w limit l []); done.
Qed.

(* ------------------------------------------------------------------ *)
(** ** Sending a batch *)

(** A frame handed to the connection, with its verdict. *)
Record Try : Type := mkTry { ty_shape : FrameShape; ty_run : list R2StageItem; ty_body : bytes; ty_verdict : DatagramSend }.

Definition is_sent (t : Try) : bool := bool_decide (ty_verdict t = Sent).

Section SendRef.
Context {Conn : Type} `{DatagramConn Conn}.

(** The frames in order until one is refused: what was tried, the frames left
    after the refused one, the link. *)
Fixpoint send_ref (l : list Frame) (k : Link Conn) : list Try * list Frame * Link Conn :=
  match l with
  | [] => ([], [], k)
  | f :: l =>
      let body := default [] (fm_body f) in
      match try_send_datagram (lk_conn k) body with
      | (Sent, conn) =>
          let '(ts, rest, k) := send_ref l (mkLink conn (lk_drops k) (book_payloads (fm_run f) (lk_stats k))) in
          (mkTry (fm_shape f) (fm_run f) body Sent :: ts, rest, k)
      | (v, conn) =>
          ([mkTry (fm_shape f) (fm_run f) body v], l, mkLink conn (book_refused v (len (fm_run f)) (lk_drops k)) (lk_stats k))
      end
  end.

End SendRef.

Definition sent_runs (ts : list Try) : list R2StageItem := concat (ty_run <$> List.filter is_sent ts).
Definition refused_runs (ts : list Try) : list R2StageItem := concat (ty_run <$> List.filter (fun t => negb (is_sent t)) ts).
Definition sent_bodies (ts : list Try) : list bytes := ty_body <$> List.filter is_sent ts.
Definition tried_runs (ts : list Try) : list R2StageItem := concat (ty_run <$> ts).

(** The verdict of the first refused frame. *)
Definition refusal (ts : list Try) : option DatagramSend :=
  match List.filter (fun t => negb (is_sent t)) ts with [] => None | t :: _ => Some (ty_verdict t) end.

Definition tally (ts : list Try) : R2DrainOutcome :=
  mkOutcome (len (List.filter is_sent ts)) (len (sent_runs ts)) (len (refused_runs ts)) (refusal ts).

Lemma tally_sent t ts : ty_verdict t = Sent ->
  tally (t :: ts) = mkOutcome (1 + len (List.filter is_sent ts)) (len (ty_run t) + len (sent_runs ts)) (len (refused_runs ts)) (refusal ts).
Proof.
  intros Hs. assert (E : is_sent t = true) by (unfold is_sent; by rewrite bool_decide_eq_true_2).
  unfold tally, sent_runs, refused_runs, refusal. cbn [List.filter]. rewrite E. cbn [negb fmap list_fmap concat].
  by rewrite len_cons, len_app.
Qed.

Lemma tally_refused t : ty_verdict t <> Sent -> tally [t] = mkOutcome 0 0 (len (ty_run t)) (Some (ty_verdict t)).
Proof.
  intros Hs. assert (E : is_sent t = false) by (unfold is_sent; by rewrite bool_decide_eq_false_2).
  unfold tally, sent_runs, refused_runs, refusal. cbn [List.filter]. rewrite E. cbn [negb fmap list_fmap concat]. by rewrite app_nil_r.
Qed.

(** The batch after the send: the same frames, some bodies taken out. *)
Definition same_runs (l l' : list Frame) : Prop := fm_run <$> l = fm_run <$> l'.

Definition out_add (o : R2DrainOutcome) (t : R2DrainOutcome) : R2DrainOutcome :=
  mkOutcome (do_frames o + do_frames t) (do_items_sent o + do_items_sent t)
    (match do_failed t with Some _ => do_items_dropped t | None => do_items_dropped o end) (match do_failed t with Some v => Some v | None => do_failed o end).

Lemma sat_u32_small a b : a + b <= 2 ^ 32 - 1 -> sat_u32 a b = a + b.
Proof. unfold sat_u32. lia. Qed.

Section SendSpec.
Context {Conn : Type} `{DatagramConn Conn}.

Lemma send_go_spec w l2 : forall l1 out (k : Link Conn), Forall (fun f => is_Some (fm_body f)) l2 ->
  0 <= do_frames out -> do_frames out + len l2 <= 2 ^ 32 - 1 ->
  0 <= do_items_sent out -> do_items_sent out + len (runs l2) <= 2 ^ 32 - 1 ->
  exists ts rest k' l', send_ref l2 k = (ts, rest, k') /\ same_runs (l1 ++ l2) l' /\
  send_go (length l2) (length l1) out (pack w (l1 ++ l2)) k = Ok (out_add out (tally ts), pack w l', k').
Proof.
  induction l2 as [|f l2 IH]; intros l1 out k Hb Hf Hfl Hs Hsl.
  { eexists [], [], k, (l1 ++ []). split; [done|]. split; [done|]. cbn [length send_go pack pk_frames].
    rewrite app_nil_r, pack_frames_end. unfold out_add, tally. cbn. rewrite !Z.add_0_r. by destruct out. }
  apply list.Forall_cons in Hb as [[body Hbody] Hb]. cbn [length send_go send_ref].
  replace (pk_frames (pack w (l1 ++ f :: l2)) !! length l1) with
    (Some (mkPackedFrame (fm_body f) (fm_shape f) (len (runs l1)) (len (fm_run f)))) by (symmetry; apply (pack_frames_at l1 f l2 0)).
  cbn [pf_body]. rewrite Hbody. cbn [default id]. rewrite runs_cons, len_app in Hsl. rewrite len_cons in Hfl.
  pose proof (len_nonneg l2). pose proof (len_nonneg (fm_run f)). pose proof (len_nonneg (runs l2)).
  change (pk_wire (pack w (l1 ++ f :: l2))) with w. rewrite <- Hbody, pack_body, Hbody. cbn [pf_item_off pf_item_len].
  assert (Hsame : same_runs (l1 ++ f :: l2) (l1 ++ set_body None f :: l2)) by (unfold same_runs; by rewrite !fmap_app).
  destruct (try_send_datagram (lk_conn k) body) as [[] conn].
  2-5: eexists _, _, _, _; split; [reflexivity|]; split; [exact Hsame|]; rewrite tally_refused by done;
    unfold out_add; cbn; by rewrite !Z.add_0_r.
  change (len (fm_run f)) with (len (fm_run (set_body None f))) at 1. rewrite pack_run. cbn [res_bind set_body fm_run].
  edestruct (IH (l1 ++ [set_body None f])) as (ts & rest & k' & l' & Hr & Hsr & Hgo);
    [done | | | | | rewrite Hr; eexists _, _, _, l'; split; [reflexivity|]; split].
  5:{ etrans; [exact Hsame|]. rewrite <- Hsr. by rewrite <- app_assoc. }
  5:{ replace (l1 ++ set_body None f :: l2) with ((l1 ++ [set_body None f]) ++ l2) by by rewrite <- app_assoc.
      replace (S (length l1)) with (length (l1 ++ [set_body None f])) by (rewrite length_app; cbn; lia).
      etrans; [exact Hgo|]. rewrite tally_sent by done. unfold out_add, tally. cbn [do_frames do_items_sent do_items_dropped do_failed ty_run].
      do 4 f_equal; rewrite sat_u32_small by lia; lia. }
  all: cbn [do_frames do_items_sent]; rewrite sat_u32_small by lia; lia.
Qed.
End SendSpec.

(* ------------------------------------------------------------------ *)
(** ** Items of a session *)

Lemma of_session_app s l k : of_session s (l ++ k) = of_session s l ++ of_session s k.
Proof. apply List.filter_app. Qed.

Lemma of_session_sublist s l k : sublist l k -> sublist (of_session s l) (of_session s k).
Proof. induction 1 as [|x l k _ IH|x l k _ IH]; cbn; [done | by case_match; [constructor|] |]. case_match; [by constructor | done]. Qed.

Lemma of_session_perm s l k : l ≡ₚ k -> of_session s l ≡ₚ of_session s k.
Proof.
  induction 1 as [|x l k _ IH|x y l|l1 l2 l3 _ IH1 _ IH2]; cbn; [done | case_match; by rewrite IH | | by etrans].
  repeat case_match; try done. constructor.
Qed.

Lemma sublist_perm_rest {A} (l k : list A) : sublist l k -> exists r, k ≡ₚ l ++ r.
Proof. intros Hs%sublist_submseteq. by apply submseteq_Permutation. Qed.

(* ------------------------------------------------------------------ *)
(** ** Requeueing *)

Lemma requeue_go_spec {BU : Build} items : Forall (fun i => stageable (plen i)) items -> forall n first st, stage_inv st -> exists kept lost first' st',
  requeue_go items n first st = (n + len lost, first', st') /\ stage_inv st' /\ same_conf st st' /\
  (forall s, queue_of s st' = of_session s (reverse kept) ++ queue_of s st) /\
  sublist kept items /\ items ≡ₚ kept ++ lost.
Proof.
  induction 1 as [|item items Hsm _ IH]; intros n first st Hi; cbn [requeue_go].
  { exists [], [], first, st. rewrite len_nil, Z.add_0_r. split_and!; try done. }
  destruct (push_front item st) as [r st1] eqn:E.
  destruct (push_front_spec item st r st1 Hi Hsm E) as [(-> & -> & _)|(_ & -> & Hi1 & [Hc Hq] & _)].
  - destruct (IH (n + 1) (match first with Some _ => first | None => Some (item_ids item) end) st Hi)
      as (kept & lost & f' & st' & -> & Hi' & Hc' & Hq' & Hs & Hp).
    exists kept, (item :: lost), f', st'. rewrite len_cons. split_and!; try done; [do 2 f_equal; lia | by constructor|].
    rewrite Hp. by rewrite Permutation_middle.
  - destruct (IH n first st1 Hi1) as (kept & lost & f' & st' & -> & Hi' & Hc' & Hq' & Hs & Hp).
    exists (item :: kept), lost, f', st'. split_and!; try done; [by etrans | | by constructor | by rewrite Hp].
    intros s. rewrite Hq', Hq, reverse_cons, of_session_app, <- app_assoc. f_equal. unfold of_session. cbn.
    case_decide as Hd; [subst; by rewrite Z.eqb_refl|]. by rewrite (proj2 (Z.eqb_neq _ _)).
Qed.

Lemma same_runs_runs l l' : same_runs l l' -> runs l = runs l'.
Proof. intros E. unfold runs. by rewrite E. Qed.

Lemma requeue_pack w l n st : 0 <= n ->
  exists q, requeue_unsent (pack w l) n st =
    let '(overflow, first, st') := requeue_go (reverse (runs (drop (S (Z.to_nat n)) l))) 0 None st in (overflow, first, q, st').
Proof.
  intros Hn. unfold requeue_unsent. unfold get. replace (Z.to_nat (n + 1)) with (S (Z.to_nat n)) by lia.
  cbn [pack pk_frames pk_items pk_wire]. set (k := S (Z.to_nat n)).
  destruct (decide (k < length l)%nat) as [Hk|Hk].
  - assert (E : exists f, l = take k l ++ f :: drop (S k) l).
    { destruct (lookup_lt_is_Some_2 l k Hk) as [f Hf]. exists f. by rewrite take_drop_middle. }
    destruct E as [f E]. assert (Hlk : length (take k l) = k) by (rewrite length_take; lia).
    pose proof (pack_frames_at (take k l) f (drop (S k) l) 0) as Hat. rewrite <- E, Hlk in Hat. rewrite Hat. cbn [pf_item_off].
    rewrite Z.add_0_l. assert (Er : runs l = runs (take k l) ++ runs (drop k l)) by by rewrite <- runs_app, take_drop.
    replace (len (runs (take k l)) >? len (runs l)) with false by (rewrite Er, len_app; pose proof (len_nonneg (runs (drop k l))); lia).
    rewrite len_to_nat, Er, drop_app_length.
    destruct (requeue_go _ _ _ _) as [[o fst] st']. by eexists.
  - assert (Hnone : pack_frames 0 l !! k = None) by (apply lookup_ge_None; rewrite length_pack_frames; lia).
    rewrite Hnone, drop_ge by lia. cbn. by eexists.
Qed.

(* ------------------------------------------------------------------ *)
(** ** What a send books *)

Definition book_tries (ts : list Try) (d : Drops) : Drops :=
  fold_left (fun d t => if is_sent t then d else book_refused (ty_verdict t) (len (ty_run t)) d) ts d.

Lemma book_tries_app ts us d : book_tries (ts ++ us) d = book_tries us (book_tries ts d).
Proof. apply fold_left_app. Qed.

Lemma book_too_large_refused v n m d : book_refused v n (book_too_large m d) = book_too_large m (book_refused v n d).
Proof.
  destruct v; unfold book_refused, book_too_large, book_buffer_full, book_egress_dead, as_u64; cbn; try done.
  f_equal. rewrite !Z.add_mod_idemp_l by done. f_equal. lia.
Qed.

Lemma book_too_large_tries m ts : forall d, book_tries ts (book_too_large m d) = book_too_large m (book_tries ts d).
Proof.
  induction ts as [|t ts IH]; intros d; [done|]. unfold book_tries in *. cbn [fold_left].
  destruct (is_sent t); [apply IH|]. by rewrite book_too_large_refused, IH.
Qed.

Lemma book_refused_u64 v n d : drops_u64 d -> drops_u64 (book_refused v n d).
Proof. unfold drops_u64. destruct v; cbn; try done. intros _. apply book_too_large_u64. Qed.

Lemma book_tries_u64 ts : forall d, drops_u64 d -> drops_u64 (book_tries ts d).
Proof. induction ts as [|t ts IH]; intros d Hd; [done|]. unfold book_tries in *. cbn. apply IH. case_match; [done | by apply book_refused_u64]. Qed.

Lemma book_payloads_app l k s : book_payloads (l ++ k) s = book_payloads k (book_payloads l s).
Proof. apply fold_left_app. Qed.

Lemma sent_bodies_app ts us : sent_bodies (ts ++ us) = sent_bodies ts ++ sent_bodies us.
Proof. unfold sent_bodies. by rewrite List.filter_app, fmap_app. Qed.
Lemma sent_runs_app ts us : sent_runs (ts ++ us) = sent_runs ts ++ sent_runs us.
Proof. unfold sent_runs. by rewrite List.filter_app, fmap_app, concat_app. Qed.
Lemma refused_runs_app ts us : refused_runs (ts ++ us) = refused_runs ts ++ refused_runs us.
Proof. unfold refused_runs. by rewrite List.filter_app, fmap_app, concat_app. Qed.
Lemma tried_runs_app ts us : tried_runs (ts ++ us) = tried_runs ts ++ tried_runs us.
Proof. unfold tried_runs. by rewrite fmap_app, concat_app. Qed.

Lemma refusal_none ts : refusal ts = None <-> List.filter (fun t => negb (is_sent t)) ts = [].
Proof. unfold refusal. by case_match. Qed.

Section SendRefSpec.
Context {Conn : Type} `{DatagramConn Conn}.

(** What a sequence of attempts changes on the link. *)
Record tried (ts : list Try) (k k' : Link Conn) : Prop := mkTried {
  td_conn : queued (lk_conn k') = queued (lk_conn k) ++ sent_bodies ts;
  td_drops : lk_drops k' = book_tries ts (lk_drops k);
  td_stats : lk_stats k' = book_payloads (sent_runs ts) (lk_stats k)
}.

Lemma tried_nil k : tried [] k k.
Proof. split; cbn; [by rewrite app_nil_r | done..]. Qed.

Lemma tried_trans ts us k1 k2 k3 : tried ts k1 k2 -> tried us k2 k3 -> tried (ts ++ us) k1 k3.
Proof.
  intros [C1 D1 S1] [C2 D2 S2]. split.
  - by rewrite C2, C1, sent_bodies_app, app_assoc.
  - by rewrite D2, D1, book_tries_app.
  - by rewrite S2, S1, sent_runs_app, book_payloads_app.
Qed.

(** The attempt made of a frame. *)
Definition try_of (f : Frame) (t : Try) : Prop :=
  ty_shape t = fm_shape f /\ ty_run t = fm_run f /\ fm_body f = Some (ty_body t).

Lemma send_ref_spec l : forall k ts rest k', Forall (fun f => is_Some (fm_body f)) l -> send_ref l k = (ts, rest, k') ->
  tried ts k k' /\ (exists tl, l = tl ++ rest /\ Forall2 try_of tl ts) /\
  match refusal ts with
  | None => rest = []
  | Some v => v <> Sent /\ len ts = len (List.filter is_sent ts) + 1
  end.
Proof.
  induction l as [|f l IH]; intros k ts rest k' Hb E; cbn [send_ref] in E.
  { injection E as <- <- <-. split; [apply tried_nil|]. split; [by exists []|done]. }
  apply list.Forall_cons in Hb as [[body Hbody] Hb]. rewrite Hbody in E. cbn [default id] in E.
  destruct (try_send_datagram (lk_conn k) body) as [v conn] eqn:Es. pose proof (try_send_queues _ _ _ _ Es) as Hq.
  destruct v.
  2-5: injection E as <- <- <-; split; [split; [exact Hq | reflexivity | reflexivity]|];
    split; [exists [f]; split; [done|]; constructor; [done | constructor] | done].
  destruct (send_ref l _) as [[ts1 rest1] k1] eqn:E1. injection E as <- <- <-.
  destruct (IH _ _ _ _ Hb E1) as (Ht & (tl & -> & Htl) & Hr). split; [|split].
  - change (tried ([mkTry (fm_shape f) (fm_run f) body Sent] ++ ts1) k k1). eapply tried_trans; [|exact Ht].
    split; [exact Hq | reflexivity|]. cbn [lk_stats]. f_equal. symmetry. apply (app_nil_r (fm_run f)).
  - exists (f :: tl). split; [done|]. by constructor.
  - change (refusal (mkTry (fm_shape f) (fm_run f) body Sent :: ts1)) with (refusal ts1). destruct (refusal ts1); [|done].
    destruct Hr as [? Hr]. split; [done|]. cbn [List.filter].
    change (is_sent (mkTry (fm_shape f) (fm_run f) body Sent)) with true. cbn iota. rewrite !len_cons, Hr. lia.
Qed.
End SendRefSpec.
