(* ===== verification/DrainRun.v ===== *)
(** The drain of the egress stager under interference: it ends whatever the
    other tasks do, and while they only push, no item is lost, duplicated or
    sent out of its session's order. *)
From stdpp Require Import fin_maps.
From S2P Require Import Prelude Addr Codec R3 R3Train R2 R2Train Wire Frag Stage StageRun Pack Drain.

(* ------------------------------------------------------------------ *)
(** ** The frames of a claim *)

Definition piece_frames (p : Piece) : list Frame :=
  match p with PFrame shape run => [mkFrame shape run None] | PDrop _ => [] end.
Definition piece_dropped (p : Piece) : list R2StageItem := match p with PFrame _ _ => [] | PDrop i => [i] end.

Definition frames_of (ps : list Piece) : list Frame := concat (piece_frames <$> ps).
Definition dropped_of (ps : list Piece) : list R2StageItem := concat (piece_dropped <$> ps).
Definition popped_of (ps : list Piece) : list R2StageItem := concat (piece_items <$> ps).

Lemma push_frame_pack w l shape run : len (runs l) + len run < 2 ^ 32 ->
  Stage.push_frame shape run (pack w l) = pack w (l ++ [mkFrame shape run None]).
Proof.
  intros Hl. pose proof (len_nonneg (runs l)). pose proof (len_nonneg run). unfold Stage.push_frame, pack. cbn [pk_frames pk_items pk_wire].
  rewrite pack_frames_app, runs_app, runs_cons. cbn [pack_frames fm_run fm_body fm_shape runs concat fmap list_fmap].
  rewrite app_nil_r. unfold as_u32. by rewrite !Z.mod_small by lia.
Qed.

Lemma pieces_pack w ps : forall l, len (runs l) + len (popped_of ps) < 2 ^ 32 ->
  fold_left put_piece ps (pack w l) = pack w (l ++ frames_of ps).
Proof.
  induction ps as [|p ps IH]; intros l Hl; cbn [fold_left]; [by rewrite app_nil_r|].
  change (popped_of (p :: ps)) with (piece_items p ++ popped_of ps) in Hl.
  change (frames_of (p :: ps)) with (piece_frames p ++ frames_of ps). rewrite len_app in Hl. pose proof (len_nonneg (popped_of ps)).
  destruct p as [shape run|i]; cbn [put_piece piece_frames piece_items] in *.
  - rewrite push_frame_pack, IH; [by rewrite <- app_assoc | | lia]. rewrite runs_app, len_app, runs_cons.
    cbn [fm_run]. change (runs []) with (@nil R2StageItem). rewrite app_nil_r. lia.
  - rewrite IH; [done|]. change (len [i]) with 1 in Hl. lia.
Qed.

Lemma popped_frames ps : sublist (runs (frames_of ps)) (popped_of ps) /\ popped_of ps ≡ₚ runs (frames_of ps) ++ dropped_of ps.
Proof.
  induction ps as [|p ps [Hs Hp]]; [done|]. change (popped_of (p :: ps)) with (piece_items p ++ popped_of ps).
  change (frames_of (p :: ps)) with (piece_frames p ++ frames_of ps).
  change (dropped_of (p :: ps)) with (piece_dropped p ++ dropped_of ps).
  rewrite runs_app. destruct p as [shape run|i]; cbn [piece_items piece_frames piece_dropped].
  - unfold runs at 1 3. cbn. rewrite app_nil_r, <- app_assoc. split; [by apply sublist_app | by rewrite Hp].
  - change (runs []) with (@nil R2StageItem). cbn [app]. split; [by constructor|]. rewrite Hp. apply Permutation_middle.
Qed.

Lemma len_dropped ps : lsum piece_drops ps = len (dropped_of ps).
Proof.
  induction ps as [|p ps IH]; [done|]. rewrite lsum_cons, IH. change (dropped_of (p :: ps)) with (piece_dropped p ++ dropped_of ps).
  rewrite len_app. by destruct p.
Qed.

Lemma encoded_runs w limit l : let F := concat (encoded w limit <$> l) in
  sublist (runs F) (runs l) /\ runs l ≡ₚ runs F ++ concat (unfit w limit <$> l) /\
  Forall (fun f => is_Some (fm_body f)) F.
Proof.
  induction l as [|f l (Hs & Hp & Hb)]; [done|]. cbn zeta. cbn [fmap list_fmap concat]. rewrite runs_app, runs_cons.
  unfold encoded at 1 3 5, unfit at 1. destruct (encode_frame _ _ _ _) as [body| |].
  - change (runs [set_body (Some body) f]) with (fm_run f ++ []). rewrite app_nil_r, <- app_assoc. cbn [app].
    split_and!; [by apply sublist_app | by rewrite Hp | by constructor].
  - change (runs []) with (@nil R2StageItem). cbn [app]. split_and!; [by apply sublist_inserts_l | | done].
    rewrite Hp. rewrite !app_assoc. by rewrite (Permutation_app_comm (fm_run f)).
  - change (runs []) with (@nil R2StageItem). cbn [app]. split_and!; [by apply sublist_inserts_l | | done].
    rewrite Hp. rewrite !app_assoc. by rewrite (Permutation_app_comm (fm_run f)).
Qed.

(** Every encoded frame is one of the frames claimed, with its body. *)
Lemma encoded_elem w limit l f : f ∈ concat (encoded w limit <$> l) -> exists g body, g ∈ l /\ f = set_body (Some body) g /\
  encode_frame w (fm_shape g) (fm_run g) limit = Ok body.
Proof.
  intros Hf. induction l as [|g l IH]; [by apply not_elem_of_nil in Hf|]. cbn [fmap list_fmap concat] in Hf.
  apply elem_of_app in Hf as [Hf|Hf].
  - unfold encoded in Hf. destruct (encode_frame _ _ _ _) as [body| |] eqn:E; [|by apply not_elem_of_nil in Hf..].
    apply list_elem_of_singleton in Hf as ->. exists g, body. split; [constructor | done].
  - destruct (IH Hf) as (g' & body & Hg & ?). exists g', body. split; [by constructor | done].
Qed.

Lemma frames_of_elem ps f : f ∈ frames_of ps -> exists p, p ∈ ps /\ p = PFrame (fm_shape f) (fm_run f).
Proof.
  induction ps as [|p ps IH]; [by intros ?%not_elem_of_nil|]. change (frames_of (p :: ps)) with (piece_frames p ++ frames_of ps).
  intros [Hf|Hf]%elem_of_app.
  - destruct p; [|by apply not_elem_of_nil in Hf]. apply list_elem_of_singleton in Hf as ->. eexists. split; [constructor | done].
  - destruct (IH Hf) as (p' & Hp & ->). eexists. split; [by constructor | done].
Qed.

(* ------------------------------------------------------------------ *)
(** ** The other tasks *)

Section Others.
Context {BU : Build}.

(** A queued item: its address is one the type can hold, and its payload is inside
    the staging contract where the build asserts it. *)
Definition staged_wf (i : R2StageItem) : Prop := item_wf i /\ stageable (plen i).
Definition items_wf (st : R2Stager) : Prop := forall s, Forall staged_wf (queue_of s st).

Definition turn_op_wf (op : StageOp) : Prop :=
  stage_op_wf op /\
  match op with
  | SPush i | SRequeue i => item_wf i
  | SPushBatch l => Forall item_wf l
  | _ => True
  end.

Lemma queues_become_wf s q st st' : items_wf st -> Forall staged_wf q -> queues_become s q st st' -> items_wf st'.
Proof. intros Hw Hq [_ Hb] s'. rewrite Hb. case_decide; [done | apply Hw]. Qed.

Lemma push_wf item st : stage_inv st -> items_wf st -> staged_wf item -> items_wf (push item st).2.
Proof.
  intros Hi Hw Hit. destruct (push item st) as [r st'] eqn:E.
  destruct (push_spec _ _ _ _ Hi (proj2 Hit) E) as [(_ & -> & _)|(_ & _ & _ & Hb & _)]; [done|].
  eapply queues_become_wf; [exact Hw | | exact Hb]. apply Forall_app. split; [apply Hw | by constructor].
Qed.

Lemma push_each_wf items : forall st, stage_inv st -> items_wf st -> Forall staged_wf items -> items_wf (push_each items st).2.
Proof.
  induction items as [|i items IH]; intros st Hi Hw Hl; cbn [push_each]; [done|].
  apply list.Forall_cons in Hl as [Hit Hl]. pose proof (push_wf i st Hi Hw Hit) as Hw1.
  destruct (push i st) as [r st'] eqn:E. destruct (push_spec i st r st' Hi (proj2 Hit) E) as [(-> & -> & _)|(_ & -> & Hi' & _)]; [done|].
  by apply IH.
Qed.

Lemma filter_wf keep n st st' : items_wf st -> purged keep n st st' -> items_wf st'.
Proof.
  intros Hw P s. rewrite (pu_queue _ _ _ _ P). apply list.Forall_forall. intros i Hi%list_elem_of_In.
  apply filter_In in Hi as [Hi _]. apply list_elem_of_In in Hi. specialize (Hw s). rewrite list.Forall_forall in Hw. by apply Hw.
Qed.

Lemma do_stage_op_wf op st d st' d' : stage_inv st -> drops_u64 d -> turn_op_wf op -> items_wf st ->
  do_stage_op op st d = Ok (st', d') -> items_wf st'.
Proof.
  intros Hi Hd [Hwf Hit] Hw E. destruct op as [item|items|item|limit mf mi|s|id|s id| |n]; cbn [do_stage_op] in E.
  - injection E as <- <-. by apply push_wf.
  - destruct (push_batch_eq items st) as (r & Eb & _). rewrite Eb in E. injection E as <- <-. apply push_each_wf; [done..|]. by apply list.Forall_and.
  - injection E as <- <-. destruct (push_front item st) as [r st1] eqn:E1.
    destruct (push_front_spec _ _ _ _ Hi Hwf E1) as [(_ & -> & _)|(_ & _ & _ & Hb & _)]; [done|].
    eapply queues_become_wf; [exact Hw | | exact Hb]. constructor; [done | apply Hw].
  - destruct Hwf as [Hf Hm]. destruct (claim_batch_spec limit mf mi (mkClaim st PackedFrames_default d) Hi Hd Hf Hm)
      as (ps & c' & Ec & _ & Hb & _). rewrite Ec in E. injection E as <- <-. intros s.
    pose proof (cd_queue _ _ _ (bt_claimed _ _ _ _ Hb) s) as Hq. specialize (Hw s). cbn [cl_stage] in Hq. rewrite Hq in Hw.
    by apply Forall_app in Hw as [_ Hw].
  - destruct (drop_session s st d) as [[n st1] d1] eqn:E1. injection E as <- <-.
    destruct (drop_session_spec _ _ _ _ _ _ Hi E1) as [P _]. by eapply filter_wf.
  - destruct (drop_flow id st d) as [[n st1] d1] eqn:E1. injection E as <- <-.
    destruct (stage_drop_flow_spec _ _ _ _ _ _ Hi E1) as [P _]. by eapply filter_wf.
  - destruct (drop_flow_scoped s id st d) as [[n st1] d1] eqn:E1. injection E as <- <-.
    destruct (drop_flow_scoped_spec _ _ _ _ _ _ _ Hi E1) as [P _]. by eapply filter_wf.
  - injection E as <- <-. intros s. unfold queue_of. cbn. rewrite lookup_empty. constructor.
  - injection E as <- <-. intros s. unfold set_max_train_items. case_match; apply (Hw s).
Qed.

Lemma run_stage_wf ops : forall st d, stage_inv st -> drops_u64 d -> Forall turn_op_wf ops -> items_wf st ->
  exists st' d', run_stage ops st d = Ok (st', d') /\ stage_inv st' /\ drops_u64 d' /\ same_limits st st' /\ items_wf st'.
Proof.
  induction ops as [|op ops IH]; intros st d Hi Hd Hwf Hw; cbn [run_stage]; [by exists st, d|].
  apply list.Forall_cons in Hwf as [Hop Hwf].
  destruct (do_stage_op_inv op st d Hi Hd (proj1 Hop)) as (st1 & d1 & E & Hi1 & Hd1 & Hl1).
  pose proof (do_stage_op_wf _ _ _ _ _ Hi Hd Hop Hw E) as Hw1. rewrite E. cbn [res_bind].
  destruct (IH st1 d1 Hi1 Hd1 Hwf Hw1) as (st2 & d2 & ? & ? & ? & ? & ?). exists st2, d2. split_and!; try done; by etrans.
Qed.

(** Tasks that only push. *)
Definition pushes (op : StageOp) : list R2StageItem := match op with SPush i => [i] | _ => [] end.
Definition only_push (op : StageOp) : Prop := exists i, op = SPush i.
Definition offered (env : list Turn) : list R2StageItem := concat ((fun t => concat (pushes <$> tn_ops t)) <$> env).
Definition producers (env : list Turn) : Prop := Forall (fun t => Forall only_push (tn_ops t)) env.

Lemma run_pushes ops : forall st d, stage_inv st -> Forall stage_op_wf ops -> Forall only_push ops -> exists st' arrived,
  run_stage ops st d = Ok (st', d) /\ sublist arrived (concat (pushes <$> ops)) /\
  forall s, queue_of s st' = queue_of s st ++ of_session s arrived.
Proof.
  induction ops as [|op ops IH]; intros st d Hi Hwf Ho; cbn [run_stage].
  { exists st, []. split_and!; [done | done|]. intros s. by rewrite app_nil_r. }
  apply list.Forall_cons in Hwf as [Hop Hwf]. apply list.Forall_cons in Ho as [[i ->] Ho]. cbn [do_stage_op res_bind pushes fmap list_fmap concat].
  destruct (push i st) as [r st1] eqn:E. cbn [snd]. destruct (push_spec _ _ _ _ Hi Hop E) as [(_ & -> & _)|(_ & _ & Hi1 & [_ Hb] & _)].
  - destruct (IH st d Hi Hwf Ho) as (st' & arr & -> & Hs & Hq). exists st', arr. split_and!; [done | by constructor | done].
  - destruct (IH st1 d Hi1 Hwf Ho) as (st' & arr & -> & Hs & Hq). exists st', (i :: arr). split_and!; [done | by constructor|].
    intros s. rewrite Hq, Hb. unfold of_session. cbn. case_decide as Hd.
    + subst. rewrite Z.eqb_refl, <- app_assoc. done.
    + by rewrite (proj2 (Z.eqb_neq _ _)).
Qed.

(* ------------------------------------------------------------------ *)
(** ** What a part of a drain did *)

End Others.

Section Drained.
Context {BU : Build} {Conn : Type} `{DatagramConn Conn}.
Implicit Types s : World Conn.

Definition MAX_QUEUE : Z := 2 ^ 31.

Record world_ok s : Prop := mkWorldOk {
  wo_inv : stage_inv (dn_stage s);
  wo_items : items_wf (dn_stage s);
  wo_max : sg_max_items (dn_stage s) <= MAX_QUEUE;
  wo_drops : drops_u64 (lk_drops (dn_link s));
  wo_env : Forall (fun t => Forall turn_op_wf (tn_ops t)) (dn_env s)
}.

(** A frame the drain handed to the connection. *)
Definition try_ok (w : Wire) (limit : Z) (t : Try) : Prop :=
  frame_of w limit (ty_shape t) (ty_run t) /\ encode_frame w (ty_shape t) (ty_run t) limit = Ok (ty_body t).

(** From [s] to [s'] the frames of [ts] were tried, the items of [nofit] did not
    fit a frame, those of [lost] found the queue full again, and the other
    tasks pushed [arrived]. *)
Record drained (ts : list Try) (nofit lost arrived : list R2StageItem) s s' : Prop := mkDrained {
  dd_conn : queued (lk_conn (dn_link s')) = queued (lk_conn (dn_link s)) ++ sent_bodies ts;
  dd_drops : lk_drops (dn_link s') = book_too_large (len nofit) (book_tries ts (lk_drops (dn_link s)));
  dd_stats : lk_stats (dn_link s') = book_payloads (sent_runs ts) (lk_stats (dn_link s));
  dd_calls : len (dn_calls s') = len (dn_calls s) + len lost;
  dd_fifo : forall x, sublist (of_session x (tried_runs ts) ++ queue_of x (dn_stage s'))
                        (queue_of x (dn_stage s) ++ of_session x arrived);
  dd_all : forall x, queue_of x (dn_stage s) ++ of_session x arrived ≡ₚ
                       of_session x (tried_runs ts ++ nofit ++ lost) ++ queue_of x (dn_stage s');
  dd_env : exists used, dn_env s = used ++ dn_env s' /\ sublist arrived (offered used)
}.

Lemma drained_nil s : drops_u64 (lk_drops (dn_link s)) -> drained [] [] [] [] s s.
Proof.
  intros Hd. split.
  - symmetry. apply app_nil_r.
  - symmetry. by apply book_too_large_0.
  - done.
  - rewrite len_nil. lia.
  - intros x. cbn. by rewrite app_nil_r.
  - intros x. cbn. by rewrite app_nil_r.
  - by exists [].
Qed.

Lemma offered_app e f : offered (e ++ f) = offered e ++ offered f.
Proof. unfold offered. by rewrite fmap_app, concat_app. Qed.

Lemma perm_trans_parts {A} (q0 a1 a2 q1 q2 t1 n1 l1 t2 n2 l2 : list A) :
  q0 ++ a1 ≡ₚ t1 ++ n1 ++ l1 ++ q1 -> q1 ++ a2 ≡ₚ t2 ++ n2 ++ l2 ++ q2 ->
  q0 ++ a1 ++ a2 ≡ₚ (t1 ++ t2) ++ (n1 ++ n2) ++ (l1 ++ l2) ++ q2.
Proof.
  intros H1 H2. rewrite app_assoc, H1, <- !app_assoc. rewrite H2.
  rewrite (Permutation_app_swap_app l1 t2), (Permutation_app_swap_app n1 t2).
  rewrite (Permutation_app_swap_app l1 n2). done.
Qed.

Lemma drained_trans ts1 n1 l1 a1 ts2 n2 l2 a2 s1 s2 s3 :
  drained ts1 n1 l1 a1 s1 s2 -> drained ts2 n2 l2 a2 s2 s3 ->
  drained (ts1 ++ ts2) (n1 ++ n2) (l1 ++ l2) (a1 ++ a2) s1 s3.
Proof.
  intros [C1 D1 S1 K1 F1 P1 (u1 & E1 & A1)] [C2 D2 S2 K2 F2 P2 (u2 & E2 & A2)]. split.
  - by rewrite C2, C1, sent_bodies_app, app_assoc.
  - rewrite D2, D1, book_tries_app, book_too_large_tries, book_too_large_add, len_app. done.
  - by rewrite S2, S1, sent_runs_app, book_payloads_app.
  - rewrite K2, K1, len_app. lia.
  - intros x. rewrite tried_runs_app, !of_session_app, <- app_assoc.
    etrans; [apply sublist_app; [done | apply F2]|]. rewrite !app_assoc. by apply sublist_app; [apply F1|].
  - intros x. specialize (P1 x). specialize (P2 x). rewrite !of_session_app, <- !app_assoc in P1, P2.
    rewrite tried_runs_app, !of_session_app, <- !app_assoc. rewrite !app_assoc. rewrite <- !app_assoc.
    rewrite (perm_trans_parts _ _ _ _ _ _ _ _ _ _ _ P1 P2). by rewrite <- !app_assoc.
  - exists (u1 ++ u2). rewrite E1, E2, offered_app, app_assoc. split; [done | by apply sublist_app].
Qed.

(** One turn of the other tasks. *)
Lemma others_turn_spec s : world_ok s -> exists held s', others_turn s = Ok (held, s') /\ world_ok s' /\
  same_limits (dn_stage s) (dn_stage s') /\ lk_conn (dn_link s') = lk_conn (dn_link s) /\
  (dn_env s = [] -> held = false /\ s' = s) /\
  (producers (dn_env s) -> producers (dn_env s') /\ exists arrived, drained [] [] [] arrived s s').
Proof.
  intros [Hi Hw Hm Hd He]. unfold others_turn. destruct (dn_env s) as [|t env] eqn:Ee.
  { exists false, s. split; [done|]. split; [by split; rewrite ?Ee|]. split; [done|]. split; [done|]. split; [done|].
    intros _. split; [rewrite Ee; constructor|]. exists []. by apply drained_nil. }
  apply list.Forall_cons in He as [Ht He].
  destruct (run_stage_wf (tn_ops t) _ _ Hi Hd Ht Hw) as (st' & d' & E & Hi' & Hd' & Hl' & Hw'). rewrite E. cbn [res_bind].
  eexists _, _. split; [reflexivity|]. split; [|split; [done|]; split; [done|]; split; [done|]].
  { split; cbn; try done. rewrite (proj2 Hl'). exact Hm. }
  intros Hp. apply list.Forall_cons in Hp as [Hp Hps]. split; [done|].
  destruct (run_pushes (tn_ops t) _ (lk_drops (dn_link s)) Hi (list.Forall_impl _ _ _ Ht (fun op H => proj1 H)) Hp) as (st2 & arr & E2 & Ha & Hq). rewrite E2 in E. injection E as <- <-.
  exists arr. split.
  - symmetry. apply app_nil_r.
  - symmetry. by apply book_too_large_0.
  - done.
  - rewrite len_nil. cbn. lia.
  - intros x. cbn. by rewrite Hq.
  - intros x. cbn. by rewrite Hq.
  - exists [t]. split; [done|]. unfold offered. cbn. by rewrite app_nil_r.
Qed.

Lemma stage_lock_spec try_only s : world_ok s -> exists mine s', stage_lock try_only s = Ok (mine, s') /\ world_ok s' /\
  same_limits (dn_stage s) (dn_stage s') /\ lk_conn (dn_link s') = lk_conn (dn_link s) /\
  (try_only = false -> mine = true) /\ (dn_env s = [] -> mine = true /\ s' = s) /\
  (producers (dn_env s) -> producers (dn_env s') /\ exists arrived, drained [] [] [] arrived s s').
Proof.
  intros Ho. destruct (others_turn_spec s Ho) as (held & s' & E & Ho' & Hl & Hcn & He & Hp). unfold stage_lock. rewrite E. cbn [res_bind].
  eexists _, s'. split; [reflexivity|]. split_and!; try done; [by intros ->|].
  intros Hnil. destruct (He Hnil) as [-> ->]. by rewrite andb_false_r.
Qed.

(** A claim: its pieces, and the batch they make. *)
Record claimed_some (limit : Z) (ps : list Piece) (q : PackedFrames) s s' : Prop := mkClaimedSome {
  cs_ok : world_ok s';
  cs_pieces : Forall (piece_ok (sg_wire (dn_stage s)) limit) ps;
  cs_queue : claimed (popped_of ps) (dn_stage s) (dn_stage s');
  cs_packed : q = pack (sg_wire (dn_stage s)) (frames_of ps);
  cs_same : lk_conn (dn_link s') = lk_conn (dn_link s) /\ lk_stats (dn_link s') = lk_stats (dn_link s) /\
            dn_env s' = dn_env s /\ dn_calls s' = dn_calls s;
  cs_drops : lk_drops (dn_link s') = book_too_large (len (dropped_of ps)) (lk_drops (dn_link s));
  cs_wf : Forall staged_wf (popped_of ps);
  cs_len : 1 <= len (popped_of ps) <= MAX_QUEUE
}.

Lemma queued_bound st : stage_inv st -> 0 <= sg_queued_items st <= sg_max_items st.
Proof.
  intros Hi. split; [|apply Hi]. rewrite (sv_items _ _ Hi). apply (msum_nonneg len len_list_nonneg).
Qed.

Lemma popped_wf popped st st' : items_wf st -> stage_inv st -> claimed popped st st' -> Forall staged_wf popped.
Proof.
  intros Hw Hi Hc. apply list.Forall_forall. intros i Hin. specialize (Hw (si_session i)). rewrite (cd_queue _ _ _ Hc) in Hw.
  apply Forall_app in Hw as [Hw _]. rewrite list.Forall_forall in Hw. apply Hw. apply list_elem_of_In. unfold of_session.
  apply filter_In. split; [by apply list_elem_of_In | by rewrite Z.eqb_refl].
Qed.

Lemma claim_some_spec limit p s : world_ok s -> 0 <= pg_handled p <= 2 ^ 32 -> stager_is_empty (dn_stage s) = false ->
  exists ps q s', claim_some limit p s =
    Ok (Some (negb (stager_is_empty (dn_stage s')), q), mkProgress (pg_handled p + len (popped_of ps)) true (pg_total p), s') /\
    claimed_some limit ps q s s'.
Proof.
  intros [Hi Hw Hm Hd He] Hh Hne. unfold claim_some. rewrite Hne.
  destruct (claim_batch_spec limit R2_PACK_BATCH_FRAMES R2_PACK_BATCH_ITEMS
    (mkClaim (dn_stage s) PackedFrames_default (lk_drops (dn_link s))) Hi Hd) as (ps & [st' q d'] & E & Hi' & [O C P D] & Hps); [done..|].
  rewrite E. cbn [res_bind cl_stage cl_packed cl_drops] in *. pose proof (cd_items _ _ _ C) as Hcnt.
  fold (popped_of ps) in C, Hcnt. pose proof (queued_bound _ Hi) as Hb. pose proof (queued_bound _ Hi') as Hb'.
  unfold stager_is_empty in Hne. zbool. unfold MAX_QUEUE in *.
  assert (Hpos : 1 <= len (popped_of ps)).
  { destruct ps as [|pc ps]; [by destruct (Hps ltac:(lia))|]. apply list.Forall_cons in O as [Hpc _]. apply piece_nonempty in Hpc.
    change (popped_of (pc :: ps)) with (piece_items pc ++ popped_of ps). rewrite len_app. pose proof (len_nonneg (popped_of ps)). lia. }
  unfold stager_len, saturating_sub. rewrite Z.max_l by lia. unfold saturating_add. rewrite Z.min_l by (unfold usize_max; lia).
  eexists ps, q, _. split; [repeat f_equal; lia|]. assert (Hpk : q = pack (sg_wire (dn_stage s)) (frames_of ps)).
  { rewrite P. change (retag _ PackedFrames_default) with (pack (sg_wire (dn_stage s)) []).
    rewrite pieces_pack; [done|]. change (runs []) with (@nil R2StageItem). rewrite len_nil. lia. }
  split; cbn; try done.
  - split; cbn; try done; [|by rewrite (proj1 (proj2 (cd_conf _ _ _ C)))|rewrite D; apply book_too_large_u64].
    intros x. specialize (Hw x). rewrite (cd_queue _ _ _ C x) in Hw. by apply Forall_app in Hw as [_ Hw].
  - by rewrite D, len_dropped.
  - by eapply popped_wf.
  - unfold MAX_QUEUE. lia.
Qed.

(* ------------------------------------------------------------------ *)
(** ** Encoding and sending a claim *)

Definition out_ok (o : R2DrainOutcome) : Prop :=
  0 <= do_frames o <= 2 ^ 32 - 1 /\ 0 <= do_items_sent o <= 2 ^ 32 - 1 /\ 0 <= do_items_dropped o <= 2 ^ 32 - 1.

(** The running total after the attempts of one batch. *)
Definition total_after (total : R2DrainOutcome) (ts : list Try) : R2DrainOutcome :=
  with_failed (match refusal ts with Some v => Some v | None => do_failed total end) (add_outcome total (tally ts)).

Lemma total_after_nil total : out_ok total -> total_after total [] = total.
Proof.
  intros (H1 & H2 & H3). unfold total_after. change (tally []) with (mkOutcome 0 0 0 None). destruct total. cbn in *.
  unfold with_failed, add_outcome. cbn. f_equal; (rewrite sat_u32_small by lia; lia).
Qed.

Lemma total_after_ok total ts : out_ok total -> out_ok (total_after total ts).
Proof.
  intros (H1 & H2 & H3). pose proof (len_nonneg (List.filter is_sent ts)). pose proof (len_nonneg (sent_runs ts)).
  pose proof (len_nonneg (refused_runs ts)). unfold out_ok, total_after, with_failed, add_outcome, tally, sat_u32. cbn. lia.
Qed.

Lemma claimed_encodable limit ps q s s' : claimed_some limit ps q s s' ->
  Forall (encodable (sg_wire (dn_stage s)) limit) (frames_of ps).
Proof.
  intros [_ O _ _ _ _ W L]. apply list.Forall_forall. intros f (p & Hp & ->)%frames_of_elem. rewrite list.Forall_forall in O.
  specialize (O _ Hp). cbn in O. assert (Hsub : fm_run f ⊆ popped_of ps).
  { intros i Hi. apply list_elem_of_In. apply in_concat. exists (fm_run f). split; [|by apply list_elem_of_In].
    apply list_elem_of_In, list_elem_of_fmap. by exists (PFrame (fm_shape f) (fm_run f)). }
  split.
  - apply encode_frame_no_panic; [|done]. apply list.Forall_forall. intros i Hi%Hsub. rewrite list.Forall_forall in W. by apply W.
  - destruct (fm_shape f); [destruct O as (i & -> & _); done|]. destruct O as (_ & O & _). unfold R2_MAX_TRAIN_ITEMS in O. lia.
Qed.

(** The attempts made of the encoded frames of a claim. *)
Lemma attempts_ok w limit ps tl rest ts : Forall (piece_ok w limit) ps ->
  concat (encoded w limit <$> frames_of ps) = tl ++ rest -> Forall2 try_of tl ts ->
  Forall (try_ok w limit) ts /\ tried_runs ts = runs tl.
Proof.
  intros O E H2. assert (Hel : Forall (fun f => exists g body, g ∈ frames_of ps /\ f = set_body (Some body) g /\
    encode_frame w (fm_shape g) (fm_run g) limit = Ok body) tl).
  { apply list.Forall_forall. intros f Hf. apply encoded_elem. rewrite E. set_solver. }
  clear E. induction H2 as [|f t tl ts (H1 & H2 & H3) _ IH]; [done|].
  apply list.Forall_cons in Hel as [(g & body & Hg & -> & He) Hel]. destruct (IH Hel) as [IH1 IH2].
  split; [|unfold tried_runs in *; cbn [fmap list_fmap concat]; by rewrite IH2, H2].
  constructor; [|done]. cbn in H1, H2, H3. injection H3 as ->. unfold try_ok. rewrite H1, H2. split; [|done].
  apply frames_of_elem in Hg as (p & Hp & ->). rewrite list.Forall_forall in O. apply (O _ Hp).
Qed.

(** Where the items of a claim are after the batch. *)
Lemma batch_queues ps F N tl rest kept lost arrived (q0 q1 q3 : Z -> list R2StageItem) :
  sublist (runs F) (runs (frames_of ps)) -> runs (frames_of ps) ≡ₚ runs F ++ N -> F = tl ++ rest ->
  sublist kept (runs rest) -> runs rest ≡ₚ kept ++ lost ->
  (forall x, q0 x = of_session x (popped_of ps) ++ q1 x) ->
  (forall x, q3 x = of_session x kept ++ q1 x ++ of_session x arrived) -> forall x,
  sublist (of_session x (runs tl) ++ q3 x) (q0 x ++ of_session x arrived) /\
  q0 x ++ of_session x arrived ≡ₚ of_session x (runs tl ++ (dropped_of ps ++ N) ++ lost) ++ q3 x.
Proof.
  intros Hs Hp -> Hk Hl Hq0 Hq3 x. destruct (popped_frames ps) as [Hps Hpp]. rewrite Hq0, Hq3, runs_app in *. split.
  - rewrite (app_assoc (of_session x (runs tl))), <- of_session_app, <- app_assoc. apply sublist_app; [|done].
    apply of_session_sublist. etrans; [|exact Hps]. etrans; [|exact Hs]. by apply sublist_app.
  - assert (E : popped_of ps ≡ₚ (runs tl ++ (dropped_of ps ++ N) ++ lost) ++ kept).
    { rewrite Hpp, Hp, Hl, <- !app_assoc. apply Permutation_app_head.
      by rewrite (Permutation_app_comm kept), (Permutation_app_comm lost), (Permutation_app_comm N), <- !app_assoc. }
    rewrite (of_session_perm x _ _ E), of_session_app, <- !app_assoc. done.
Qed.

(** What one batch did, from before its claim. *)
Record batch_done (limit : Z) (ps : list Piece) (ts : list Try) s0 s s' : Prop := mkBatchDone {
  bd_ok : world_ok s';
  bd_limits : same_limits (dn_stage s0) (dn_stage s');
  bd_tries : Forall (try_ok (sg_wire (dn_stage s0)) limit) ts;
  bd_len : len (tried_runs ts) <= len (popped_of ps);
  bd_quiet : refusal ts = None -> dn_stage s' = dn_stage s /\ dn_env s' = dn_env s;
  bd_drained : producers (dn_env s0) -> producers (dn_env s') /\ exists nofit lost arrived, drained ts nofit lost arrived s0 s'
}.

Lemma len_sublist {A} (l k : list A) : sublist l k -> len l <= len k.
Proof. intros Hs%sublist_length. unfold len. lia. Qed.

Lemma len_frames limit ps q s s' : claimed_some limit ps q s s' -> len (frames_of ps) <= len (popped_of ps).
Proof.
  intros [_ O _ _ _ _ _ _]. induction O as [|p ps Hp _ IH]; [done|]. change (popped_of (p :: ps)) with (piece_items p ++ popped_of ps).
  change (frames_of (p :: ps)) with (piece_frames p ++ frames_of ps). rewrite !len_app. apply piece_nonempty in Hp.
  destruct p; cbn [piece_frames] in *; [change (len [mkFrame shape run None]) with 1 | rewrite len_nil]; lia.
Qed.

Lemma len_encoded w limit l : len (concat (encoded w limit <$> l)) <= len l.
Proof.
  induction l as [|f l IH]; [done|]. cbn [fmap list_fmap concat]. rewrite len_app, len_cons. unfold encoded at 1.
  destruct (encode_frame _ _ _ _) as [b| |]; [change (len [set_body (Some b) f]) with 1 | rewrite len_nil..]; lia.
Qed.

Lemma out_add_default ts : out_add R2DrainOutcome_default (tally ts) = tally ts.
Proof.
  unfold out_add, tally, R2DrainOutcome_default. cbn [do_frames do_items_sent do_items_dropped do_failed]. rewrite !Z.add_0_l.
  destruct (refusal ts) eqn:E; [done|]. apply refusal_none in E. unfold refused_runs. by rewrite E.
Qed.

(** The part before the other tasks get the stager back. *)
Lemma send_part limit ps q s0 s : claimed_some limit ps q s0 s ->
  let w := sg_wire (dn_stage s0) in let F := concat (encoded w limit <$> frames_of ps) in
  let d := book_too_large (len (concat (unfit w limit <$> frames_of ps))) (lk_drops (dn_link s)) in
  exists ts rest k l', encode_claimed limit q (lk_drops (dn_link s)) = Ok (pack w F, d) /\
    send_packed_frames (pack w F) (mkLink (lk_conn (dn_link s)) d (lk_stats (dn_link s))) = Ok (tally ts, pack w l', k) /\
    send_ref F (mkLink (lk_conn (dn_link s)) d (lk_stats (dn_link s))) = (ts, rest, k) /\ same_runs F l'.
Proof.
  intros C w F d. pose proof (cs_packed _ _ _ _ _ C) as ->. pose proof (len_frames _ _ _ _ _ C) as Hlf. pose proof (cs_len _ _ _ _ _ C) as Hlen.
  pose proof (len_encoded w limit (frames_of ps)) as Hle. fold F in Hle. destruct (encoded_runs w limit (frames_of ps)) as (Hs & _ & Hb).
  fold F in Hs, Hb. apply len_sublist in Hs. pose proof (len_sublist _ _ (proj1 (popped_frames ps))) as Hs2. unfold MAX_QUEUE in Hlen.
  destruct (send_go_spec w F [] R2DrainOutcome_default (mkLink (lk_conn (dn_link s)) d (lk_stats (dn_link s))) Hb)
    as (ts & rest & k & l' & Hr & Hsr & Hgo); try (cbn; lia).
  exists ts, rest, k, l'. split_and!; [|  | done | done].
  - apply encode_claimed_spec; [apply (cs_ok _ _ _ _ _ C) | by eapply claimed_encodable].
  - unfold send_packed_frames. cbn [pack pk_frames]. rewrite length_pack_frames. etrans; [exact Hgo|]. by rewrite out_add_default.
Qed.

Lemma sublist_same_length {A} (l k : list A) : sublist l k -> length l = length k -> l = k.
Proof.
  induction 1 as [|x l k _ IH|x l k Hs _]; intros E; cbn in E; [done | f_equal; apply IH; lia|].
  apply sublist_length in Hs. lia.
Qed.

Lemma sublist_elem {A} (l k : list A) x : sublist l k -> x ∈ l -> x ∈ k.
Proof. induction 1; set_solver. Qed.

Lemma sublist_rev {A} (l k : list A) : sublist l k -> sublist (reverse l) (reverse k).
Proof.
  induction 1 as [|x l k _ IH|x l k _ IH]; [done | |]; rewrite !reverse_cons; [by apply sublist_app | by apply sublist_inserts_r].
Qed.

(** The other tasks only append. *)
Lemma others_append arrived s s' : drained [] [] [] arrived s s' ->
  forall x, queue_of x (dn_stage s') = queue_of x (dn_stage s) ++ of_session x arrived.
Proof.
  intros D x. apply sublist_same_length; [apply (dd_fifo _ _ _ _ _ _ D)|]. symmetry. apply Permutation_length, (dd_all _ _ _ _ _ _ D).
Qed.

(** The frames after the refused one. *)
Lemma rest_frames tl rest ts l' : Forall2 try_of tl ts -> same_runs (tl ++ rest) l' -> len ts = len (List.filter is_sent ts) + 1 ->
  runs (drop (S (Z.to_nat (len (List.filter is_sent ts)))) l') = runs rest.
Proof.
  intros Ht Hs Hl. replace (S (Z.to_nat (len (List.filter is_sent ts)))) with (length tl).
  2:{ rewrite (Forall2_length Ht). unfold len in *. lia. }
  unfold runs. rewrite fmap_drop, <- Hs, <- fmap_drop. by rewrite drop_app_length.
Qed.

Lemma requeue_spec w l' n rest s : world_ok s -> 0 <= n -> runs (drop (S (Z.to_nat n)) l') = runs rest -> Forall staged_wf (runs rest) ->
  exists q kept lost first st', requeue_unsent (pack w l') n (dn_stage s) = (len lost, first, q, st') /\
    world_ok (with_stage st' s) /\ same_limits (dn_stage s) st' /\ sublist kept (runs rest) /\ runs rest ≡ₚ kept ++ lost /\
    forall x, queue_of x st' = of_session x kept ++ queue_of x (dn_stage s).
Proof.
  intros [Wi Ww Wm Wd We] Hn Hrest Hwf. destruct (requeue_pack w l' n (dn_stage s) Hn) as [q Eq]. rewrite Hrest in Eq.
  assert (Hsm : Forall (fun i => stageable (plen i)) (reverse (runs rest))) by (apply Forall_reverse; eapply list.Forall_impl; [exact Hwf | by intros i []]).
  destruct (requeue_go_spec (reverse (runs rest)) Hsm 0 None (dn_stage s) Wi) as (kept & lost & first & st' & E & Hi & Hc & Hq & Hs & Hp).
  rewrite E, Z.add_0_l in Eq. assert (Hk : sublist (reverse kept) (runs rest)).
  { rewrite <- (reverse_involutive (runs rest)). by apply sublist_rev. }
  exists q, (reverse kept), lost, first, st'. split_and!; [done | | by apply same_conf_limits | done | | done].
  - split; cbn; try done; [|by rewrite (proj1 (proj2 Hc))]. intros x. rewrite Hq. apply Forall_app. split; [|apply Ww].
    apply list.Forall_forall. intros i Hi'. rewrite list.Forall_forall in Hwf. apply Hwf.
    apply (sublist_elem _ _ _ Hk).
    apply list_elem_of_In in Hi'. unfold of_session in Hi'. apply filter_In in Hi' as [Hi' _]. by apply list_elem_of_In.
  - rewrite <- (reverse_Permutation (runs rest)), Hp. by rewrite reverse_Permutation.
Qed.

(** The attempts [ts] of a claim and what they left: the frames [rest], the link
    [k]. *)
Record part_done (limit : Z) (ps : list Piece) (ts : list Try) (tl rest : list Frame) (nofit : list R2StageItem) (k : Link Conn) s0 s :
    Prop := mkPartDone {
  pt_tries : Forall (try_ok (sg_wire (dn_stage s0)) limit) ts;
  pt_sub : sublist (runs (tl ++ rest)) (runs (frames_of ps));
  pt_perm : runs (frames_of ps) ≡ₚ runs (tl ++ rest) ++ nofit;
  pt_runs : tried_runs ts = runs tl;
  pt_conn : queued (lk_conn k) = queued (lk_conn (dn_link s0)) ++ sent_bodies ts;
  pt_stats : lk_stats k = book_payloads (sent_runs ts) (lk_stats (dn_link s0));
  pt_drops : lk_drops k = book_too_large (len (dropped_of ps ++ nofit)) (book_tries ts (lk_drops (dn_link s0)))
}.

Lemma part_sub limit ps ts tl rest N k s0 s : part_done limit ps ts tl rest N k s0 s -> sublist (runs tl ++ runs rest) (popped_of ps).
Proof. intros P. etrans; [|apply popped_frames]. rewrite <- runs_app. apply P. Qed.

Lemma part_of limit ps q s0 s ts rest k (d : Drops) : claimed_some limit ps q s0 s ->
  let w := sg_wire (dn_stage s0) in let F := concat (encoded w limit <$> frames_of ps) in let N := concat (unfit w limit <$> frames_of ps) in
  d = book_too_large (len N) (lk_drops (dn_link s)) ->
  send_ref F (mkLink (lk_conn (dn_link s)) d (lk_stats (dn_link s))) = (ts, rest, k) ->
  exists tl, F = tl ++ rest /\ Forall2 try_of tl ts /\ part_done limit ps ts tl rest N k s0 s /\
    match refusal ts with None => rest = [] | Some v => v <> Sent /\ len ts = len (List.filter is_sent ts) + 1 end.
Proof.
  intros C w F N -> Hr. destruct (encoded_runs w limit (frames_of ps)) as (Hs & Hp & Hb). fold F N in Hs, Hp, Hb.
  destruct (send_ref_spec F _ _ _ _ Hb Hr) as (Htd & (tl & HF & Htl) & Hrest).
  destruct (attempts_ok w limit ps tl rest ts (cs_pieces _ _ _ _ _ C) HF Htl) as [Hok Hruns].
  destruct (cs_same _ _ _ _ _ C) as (Sc & Ss & _). exists tl. split_and!; [done | done | | done]. rewrite HF in Hs, Hp. split; try done.
  - rewrite (td_conn _ _ _ Htd). cbn [lk_conn]. by rewrite Sc.
  - rewrite (td_stats _ _ _ Htd). cbn [lk_stats]. by rewrite Ss.
  - rewrite (td_drops _ _ _ Htd). cbn [lk_drops]. rewrite (cs_drops _ _ _ _ _ C), book_too_large_add, len_app. apply book_too_large_tries.
Qed.

(** Every frame was sent. *)
Lemma batch_sent limit ps q ts tl N k s0 s : claimed_some limit ps q s0 s -> part_done limit ps ts tl [] N k s0 s ->
  same_limits (dn_stage s0) (dn_stage s) -> batch_done limit ps ts s0 s (with_link k s).
Proof.
  intros C P Hlim. destruct (cs_same _ _ _ _ _ C) as (Sc & Ss & Se & Sk). pose proof (cs_ok _ _ _ _ _ C) as [Wi Ww Wm Wd We].
  pose proof (part_sub _ _ _ _ _ _ _ _ _ P) as Hsub. rewrite app_nil_r in Hsub. split; try done; [| apply P | |].
  - split; try done. cbn. rewrite (pt_drops _ _ _ _ _ _ _ _ _ P). apply book_too_large_u64.
  - rewrite (pt_runs _ _ _ _ _ _ _ _ _ P). by apply len_sublist.
  - intros Hprod. cbn. rewrite Se. split; [done|]. exists (dropped_of ps ++ N), [], [].
    assert (HQ := batch_queues ps _ N tl [] [] [] [] (fun x => queue_of x (dn_stage s0)) (fun x => queue_of x (dn_stage s))
      (fun x => queue_of x (dn_stage s)) (pt_sub _ _ _ _ _ _ _ _ _ P) (pt_perm _ _ _ _ _ _ _ _ _ P) eq_refl (ltac:(done)) (ltac:(done))
      (cd_queue _ _ _ (cs_queue _ _ _ _ _ C))).
    rewrite <- (pt_runs _ _ _ _ _ _ _ _ _ P) in HQ. split; cbn [with_link dn_link dn_stage dn_env dn_calls]; try apply P.
    + rewrite Sk, len_nil. lia.
    + intros x. apply HQ. intros y. cbn. by rewrite app_nil_r.
    + intros x. apply HQ. intros y. cbn. by rewrite app_nil_r.
    + exists []. by rewrite Se.
Qed.

(** A frame was refused: the other tasks took a turn, then the rest was
    requeued. *)
Lemma batch_refused limit ps q ts tl rest N k s0 s s2 kept lost first st' : claimed_some limit ps q s0 s ->
  part_done limit ps ts tl rest N k s0 s -> same_limits (dn_stage s0) st' -> refusal ts <> None ->
  (producers (dn_env s) -> producers (dn_env s2) /\ exists arrived, drained [] [] [] arrived (with_link k s) s2) ->
  world_ok (with_stage st' s2) -> sublist kept (runs rest) -> runs rest ≡ₚ kept ++ lost ->
  (forall x, queue_of x st' = of_session x kept ++ queue_of x (dn_stage s2)) ->
  batch_done limit ps ts s0 s (mkWorld (dn_link s2) st' (dn_env s2) (dn_calls s2 ++ replicate (Z.to_nat (len lost)) first)).
Proof.
  intros C P Hlim Hrf Hpr Ho3 Hk Hlo Hq3. destruct (cs_same _ _ _ _ _ C) as (Sc & Ss & Se & Sk).
  pose proof (part_sub _ _ _ _ _ _ _ _ _ P) as Hsub. split; try done; [| apply P | |].
  - destruct Ho3. by split.
  - rewrite (pt_runs _ _ _ _ _ _ _ _ _ P). apply len_sublist in Hsub. rewrite len_app in Hsub. pose proof (len_nonneg (runs rest)). lia.
  - intros Hprod. rewrite <- Se in Hprod. destruct (Hpr Hprod) as (Hp2 & arrived & D). split; [done|].
    exists (dropped_of ps ++ N), lost, arrived. pose proof (others_append _ _ _ D) as Hq2.
    destruct D as [D1 D2 D3 D4 _ _ D7]. cbn in D1, D2, D3, D7, Hq2. rewrite len_nil in D4. cbn [dn_calls with_link] in D4.
    assert (HQ := batch_queues ps _ N tl rest kept lost arrived (fun x => queue_of x (dn_stage s0)) (fun x => queue_of x (dn_stage s))
      (fun x => queue_of x st') (pt_sub _ _ _ _ _ _ _ _ _ P) (pt_perm _ _ _ _ _ _ _ _ _ P) eq_refl Hk Hlo (cd_queue _ _ _ (cs_queue _ _ _ _ _ C))).
    rewrite <- (pt_runs _ _ _ _ _ _ _ _ _ P) in HQ. split; cbn.
    + rewrite D1, app_nil_r. apply P.
    + rewrite D2, (pt_drops _ _ _ _ _ _ _ _ _ P). apply book_too_large_0, book_too_large_u64.
    + rewrite D3. apply P.
    + rewrite len_app, D4, Sk. unfold len. rewrite length_replicate. lia.
    + intros x. apply HQ. intros y. by rewrite Hq3, Hq2.
    + intros x. apply HQ. intros y. by rewrite Hq3, Hq2.
    + by rewrite <- Se.
Qed.

Lemma send_batch_spec limit total ps q s0 s : claimed_some limit ps q s0 s -> out_ok total ->
  same_limits (dn_stage s0) (dn_stage s) -> exists ts s',
  send_batch limit q total s = Ok (bool_decide (refusal ts <> None), total_after total ts, s') /\ batch_done limit ps ts s0 s s'.
Proof.
  intros C Ht Hlim. destruct (send_part limit ps q s0 s C) as (ts & rest & k & l' & He & Hgo & Hr & Hsr).
  destruct (part_of limit ps q s0 s ts rest k _ C eq_refl Hr) as (tl & HF & Htl & P & Hrest).
  set (F := concat _) in He, Hgo, Hr, Hsr, HF. set (d := book_too_large _ _) in *.
  unfold send_batch. rewrite He. cbn [res_bind pack pk_frames]. destruct (refusal ts) as [v|] eqn:Ev.
  - destruct Hrest as [Hv Hn]. assert (HneF : F <> []).
    { intros E0. rewrite E0 in HF. symmetry in HF. apply app_eq_nil in HF as [-> _]. inversion Htl; subst. done. }
    rewrite bool_decide_eq_false_2 by (destruct F; done). cbn [dn_link with_drops with_link]. rewrite Hgo. cbn [res_bind].
    change (do_failed (tally ts)) with (refusal ts). rewrite Ev. assert (Ho1 : world_ok (with_link k s)).
    { destruct (cs_ok _ _ _ _ _ C). split; try done. cbn. rewrite (pt_drops _ _ _ _ _ _ _ _ _ P). apply book_too_large_u64. }
    destruct (others_turn_spec _ Ho1) as (held & s2 & Eo & Ho2 & Hl2 & _ & _ & Hpr).
    change (with_link k (with_drops d s)) with (with_link k s). rewrite Eo. cbn [res_bind].
    rewrite HF in Hsr. pose proof (rest_frames tl rest ts l' Htl Hsr Hn) as Hrr. assert (Hwfr : Forall staged_wf (runs rest)).
    { apply list.Forall_forall. intros i Hi. pose proof (cs_wf _ _ _ _ _ C) as Hw. rewrite list.Forall_forall in Hw. apply Hw.
      apply (sublist_elem _ _ _ (part_sub _ _ _ _ _ _ _ _ _ P)). set_solver. }
    destruct (requeue_spec (sg_wire (dn_stage s0)) l' (do_frames (tally ts)) rest s2 Ho2)
      as (q' & kept & lost & first & st' & Er & Ho3 & Hl3 & Hk & Hlo & Hq3); [apply len_nonneg | done | done|]. rewrite Er.
    eexists ts, _. rewrite bool_decide_eq_true_2 by by rewrite Ev. split; [unfold total_after; by rewrite Ev|].
    eapply batch_refused; try done; [|by rewrite Ev]. etrans; [exact Hlim|]. by etrans.
  - subst rest. exists ts, (with_link k s). rewrite (bool_decide_eq_false_2 (refusal ts <> None)) by (rewrite Ev; by intros []).
    split; [|by eapply batch_sent]. rewrite app_nil_r in HF. case_bool_decide as HF0.
    + assert (F = []) as HF1 by (by destruct F). rewrite HF1 in *. subst tl. inversion Htl; subst ts.
      cbn in Hr. injection Hr as <-. by rewrite total_after_nil.
    + cbn [dn_link with_drops with_link]. rewrite Hgo. cbn [res_bind]. change (do_failed (tally ts)) with (refusal ts).
      rewrite Ev. unfold total_after. by rewrite Ev.
Qed.

(* ------------------------------------------------------------------ *)
(** ** The loop *)

Lemma try_nonempty w limit t : try_ok w limit t -> 1 <= len (ty_run t).
Proof.
  intros [Hf _]. destruct (ty_shape t); cbn in Hf; [by destruct Hf as (i & -> & _)|]. apply len_nonempty, Hf.
Qed.

Lemma tally_bounds w limit ts : Forall (try_ok w limit) ts ->
  len (List.filter is_sent ts) <= len (tried_runs ts) /\ len (sent_runs ts) + len (refused_runs ts) = len (tried_runs ts).
Proof.
  induction 1 as [|t ts Ht _ [IH1 IH2]]; [done|]. apply try_nonempty in Ht. unfold sent_runs, refused_runs, tried_runs in *.
  cbn [List.filter fmap list_fmap concat]. rewrite len_app. destruct (is_sent t); cbn [negb fmap list_fmap concat];
    rewrite ?len_cons, ?len_app; lia.
Qed.

Lemma total_after_tally w limit ts0 ts : refusal ts0 = None -> Forall (try_ok w limit) (ts0 ++ ts) ->
  len (tried_runs (ts0 ++ ts)) <= 2 ^ 32 - 1 -> total_after (tally ts0) ts = tally (ts0 ++ ts).
Proof.
  intros H0 Hok Hl. destruct (tally_bounds _ _ _ Hok) as [B1 B2]. unfold total_after, with_failed, add_outcome, tally.
  cbn [do_frames do_items_sent do_items_dropped do_failed]. rewrite sent_runs_app, refused_runs_app, !List.filter_app, !len_app in *.
  pose proof (len_nonneg (sent_runs ts0)). pose proof (len_nonneg (refused_runs ts0)). pose proof (len_nonneg (sent_runs ts)).
  pose proof (len_nonneg (refused_runs ts)). rewrite !sat_u32_small by lia. f_equal.
  apply refusal_none in H0. unfold refusal. rewrite List.filter_app, H0. cbn [app]. by destruct (List.filter (fun t => negb (is_sent t)) ts).
Qed.

(** What the loop reports: the tally of the attempts, or that the send buffer
    was full before the next claim. *)
Definition reports (ts : list Try) (out : R2DrainOutcome) (s : World Conn) : Prop :=
  out = tally ts \/
  (refusal ts = None /\ datagram_send_buffer_space (lk_conn (dn_link s)) = 0 /\ out = with_failed (Some Blocked) (tally ts)).

Record loop_done (limit handled : Z) (try_only : bool) (ts0 ts : list Try) (r : option R2DrainOutcome) s s' : Prop := mkLoopDone {
  ld_ok : world_ok s';
  ld_limits : same_limits (dn_stage s) (dn_stage s');
  ld_tries : Forall (try_ok (sg_wire (dn_stage s)) limit) ts;
  ld_some : try_only = false -> is_Some r;
  ld_none : r = None -> ts0 = [] /\ ts = [] /\ handled = 0 /\ lk_conn (dn_link s') = lk_conn (dn_link s);
  ld_report : forall out, r = Some out -> reports (ts0 ++ ts) out s';
  ld_drained : producers (dn_env s) -> exists nofit lost arrived, drained ts nofit lost arrived s s';
  ld_flush : dn_env s = [] -> forall out, r = Some out -> do_failed out = None ->
    stager_len (dn_stage s') = 0 \/ R2_STAGE_MAX_ITEMS <= handled + (stager_len (dn_stage s) - stager_len (dn_stage s'))
}.

(** The first request of the lock before the loop, then the loop. *)
Lemma loop_done_step limit h h' try_only ts0 ts1 ts2 r s0 s1 s2 :
  same_limits (dn_stage s0) (dn_stage s1) -> Forall (try_ok (sg_wire (dn_stage s0)) limit) ts1 ->
  (producers (dn_env s0) -> producers (dn_env s1) /\ exists nofit lost arrived, drained ts1 nofit lost arrived s0 s1) ->
  (dn_env s0 = [] -> dn_env s1 = [] /\ h' = h + (stager_len (dn_stage s0) - stager_len (dn_stage s1))) ->
  (h' = 0 -> h = 0 /\ lk_conn (dn_link s1) = lk_conn (dn_link s0)) ->
  loop_done limit h' try_only (ts0 ++ ts1) ts2 r s1 s2 -> loop_done limit h try_only ts0 (ts1 ++ ts2) r s0 s2.
Proof.
  intros Hl Hok1 Hp He Hz [O L T S N R D F]. split.
  - done.
  - by etrans.
  - apply Forall_app. split; [done|]. by rewrite <- (proj1 Hl).
  - done.
  - intros Hr. destruct (N Hr) as (E & -> & E' & ->). apply app_eq_nil in E as [-> ->]. destruct (Hz E'). done.
  - intros out Hr. rewrite app_assoc. by apply R.
  - intros Hpr. destruct (Hp Hpr) as (Hpr1 & n1 & l1 & a1 & D1). destruct (D Hpr1) as (n2 & l2 & a2 & D2).
    eexists _, _, _. by eapply drained_trans.
  - intros Hnil out Hr Hf. destruct (He Hnil) as [Hn1 Eh]. destruct (F Hn1 out Hr Hf); [by left | right; lia].
Qed.

Lemma refusal_app_none ts us : refusal ts = None -> refusal (ts ++ us) = refusal us.
Proof. intros E%refusal_none. unfold refusal. by rewrite List.filter_app, E. Qed.

(** The lock, the claim and the batch together. *)
Lemma lock_batch limit ps ts q s s1 s2 s3 : same_limits (dn_stage s) (dn_stage s1) ->
  (producers (dn_env s) -> producers (dn_env s1) /\ exists arrived, drained [] [] [] arrived s s1) ->
  claimed_some limit ps q s1 s2 -> batch_done limit ps ts s1 s2 s3 ->
  same_limits (dn_stage s) (dn_stage s3) /\ Forall (try_ok (sg_wire (dn_stage s)) limit) ts /\
  (producers (dn_env s) -> producers (dn_env s3) /\ exists nofit lost arrived, drained ts nofit lost arrived s s3).
Proof.
  intros Hl Hp C B. split_and!.
  - etrans; [exact Hl | apply B].
  - rewrite <- (proj1 Hl). apply B.
  - intros Hpr. destruct (Hp Hpr) as (Hpr1 & a & D). destruct (bd_drained _ _ _ _ _ _ B Hpr1) as (Hpr3 & n & l & a' & D').
    split; [done|]. eexists _, _, _. exact (drained_trans _ _ _ _ _ _ _ _ _ _ _ D D').
Qed.

Lemma drain_loop_spec limit try_only turns : forall p ts0 s, world_ok s -> pg_total p = tally ts0 -> refusal ts0 = None ->
  Forall (try_ok (sg_wire (dn_stage s)) limit) ts0 -> len (tried_runs ts0) <= pg_handled p ->
  0 <= pg_handled p < R2_STAGE_MAX_ITEMS -> R2_STAGE_MAX_ITEMS - pg_handled p <= Z.of_nat turns ->
  (pg_progress p = false -> ts0 = [] /\ pg_handled p = 0) ->
  exists r s' ts, drain_loop turns limit try_only p s = Ok (r, s') /\ loop_done limit (pg_handled p) try_only ts0 ts r s s'.
Proof.
  unfold R2_STAGE_MAX_ITEMS. induction turns as [|turns IH]; intros p ts0 s Ho Ht Hr0 Hok0 Hlen Hh Hturns Hprog; [lia|]. cbn [drain_loop].
  pose proof (wo_drops _ Ho) as Hd. destruct (datagram_send_buffer_space _ =? 0) eqn:Esp.
  { zbool. eexists _, s, []. split; [reflexivity|]. split; try done; [|intros _; exists [], [], []; by apply drained_nil |].
    - intros out [= <-]. rewrite app_nil_r. right. split_and!; [done | done | by rewrite Ht].
    - intros _ out [= <-]. done. }
  destruct (stage_lock_spec try_only s Ho) as (mine & s1 & -> & Ho1 & Hl1 & Hcn1 & Hm1 & He1 & Hp1). cbn [res_bind].
  assert (Hp1' : producers (dn_env s) -> producers (dn_env s1) /\ exists nofit lost arrived, drained [] nofit lost arrived s s1).
  { intros Hp. destruct (Hp1 Hp) as (? & a & ?). split; [done|]. by exists [], [], a. }
  destruct mine; cbn [negb].
  2:{ eexists _, s1, []. split; [reflexivity|]. split; try done.
      - intros Hf. by specialize (Hm1 Hf).
      - destruct (pg_progress p); [done|]. intros _. by destruct (Hprog eq_refl) as [-> ->].
      - intros out Hr. rewrite app_nil_r. left. destruct (pg_progress p); [|done]. by injection Hr as <-.
      - intros Hpr. apply Hp1', Hpr.
      - intros Hnil. by destruct (He1 Hnil) as [[=] _]. }
  destruct (stager_is_empty (dn_stage s1)) eqn:Ee.
  { unfold claim_some. rewrite Ee. cbn [res_bind]. eexists _, s1, []. split; [reflexivity|]. split; try done.
    - intros out [= <-]. rewrite app_nil_r. left. exact Ht.
    - intros Hpr. apply Hp1', Hpr.
    - intros _ out _ _. left. unfold stager_is_empty in Ee. by zbool. }
  destruct (claim_some_spec limit p s1 Ho1 ltac:(lia) Ee) as (ps & q & s2 & -> & C). cbn [res_bind pg_total pg_handled pg_progress].
  pose proof (cs_queue _ _ _ _ _ C) as Hq. pose proof (cd_items _ _ _ Hq) as Hcnt. pose proof (cs_len _ _ _ _ _ C) as Hpl. unfold MAX_QUEUE in Hpl.
  assert (Hout : out_ok (pg_total p)).
  { rewrite Ht. destruct (tally_bounds _ _ _ Hok0) as [B1 B2]. pose proof (len_nonneg (List.filter is_sent ts0)).
    pose proof (len_nonneg (sent_runs ts0)). pose proof (len_nonneg (refused_runs ts0)). unfold out_ok, tally. cbn. lia. }
  destruct (send_batch_spec limit (pg_total p) ps q s1 s2 C Hout (same_conf_limits _ _ (cd_conf _ _ _ Hq))) as (ts1 & s3 & -> & B).
  cbn [res_bind]. destruct (lock_batch limit ps ts1 q s s1 s2 s3 Hl1 Hp1 C B) as (Hl3 & Hok1 & Hp3).
  assert (Hok : Forall (try_ok (sg_wire (dn_stage s)) limit) (ts0 ++ ts1)) by by apply Forall_app.
  assert (Hlen3 : len (tried_runs (ts0 ++ ts1)) <= pg_handled p + len (popped_of ps)).
  { rewrite tried_runs_app, len_app. pose proof (bd_len _ _ _ _ _ _ B). lia. }
  rewrite Ht, (total_after_tally _ _ _ _ Hr0 Hok) by lia.
  assert (Hquiet : dn_env s = [] -> refusal ts1 = None ->
    dn_env s3 = [] /\ pg_handled p + len (popped_of ps) = pg_handled p + (stager_len (dn_stage s) - stager_len (dn_stage s3)) /\
    stager_len (dn_stage s3) = stager_len (dn_stage s2)).
  { intros Hnil Hr1. destruct (bd_quiet _ _ _ _ _ _ B Hr1) as [-> ->]. destruct (He1 Hnil) as [_ ->].
    destruct (cs_same _ _ _ _ _ C) as (_ & _ & -> & _). split_and!; [done | unfold stager_len; lia | done]. }
  destruct (bool_decide (refusal ts1 <> None) || _ || _) eqn:Estop.
  - eexists _, s3, ts1. split; [reflexivity|]. split; try done; [apply B | intros out [= <-]; by left | intros Hpr; apply Hp3, Hpr|].
    intros Hnil out [= <-] Hf. change (refusal (ts0 ++ ts1) = None) in Hf. rewrite refusal_app_none in Hf by done. destruct (Hquiet Hnil Hf) as (_ & Ecnt & El).
    rewrite bool_decide_eq_false_2 in Estop by (rewrite Hf; by intros []). cbn [orb] in Estop. rewrite negb_involutive in Estop.
    unfold stager_is_empty in Estop. rewrite El. apply orb_true_iff in Estop as [Estop|Estop]; zbool; [by left | right; rewrite <- El; lia].
  - apply orb_false_iff in Estop as [Estop Hge]. apply orb_false_iff in Estop as [Er1 _]. zbool. unfold R2_STAGE_MAX_ITEMS in Hge. apply bool_decide_eq_false in Er1.
    assert (Hr1 : refusal ts1 = None) by (destruct (refusal ts1); [by destruct Er1|done]).
    destruct (IH (mkProgress (pg_handled p + len (popped_of ps)) true (tally (ts0 ++ ts1))) (ts0 ++ ts1) s3) as (r & s' & ts & -> & L);
      cbn [pg_total pg_handled pg_progress]; try done; try lia; [apply B | | by rewrite (proj1 Hl3) |].
    { by rewrite refusal_app_none. }
    exists r, s', (ts1 ++ ts). split; [done|]. eapply loop_done_step; [exact Hl3 | exact Hok1 | exact Hp3 | | | exact L].
    + intros Hnil. destruct (Hquiet Hnil Hr1) as (? & ? & _). done.
    + cbn. intros. lia.
Qed.

(** Returning without touching the queue. *)
Lemma loop_done_idle limit try_only r s : world_ok s ->
  (r = None /\ try_only = true) \/ (r = Some R2DrainOutcome_default /\ stager_len (dn_stage s) = 0) ->
  loop_done limit 0 try_only [] [] r s s.
Proof.
  intros Ho Hr. pose proof (drained_nil s (wo_drops _ Ho)). split; try done.
  - intros ->. destruct Hr as [[_ ?]|[-> _]]; [done | by eexists].
  - intros out ->. destruct Hr as [[? _]|[[= ->] _]]; [done | by left].
  - intros _. by exists [], [], [].
  - intros _ out -> _. destruct Hr as [[? _]|[_ ?]]; [done | by left].
Qed.

Lemma loop_done_lock limit try_only ts r s s1 s' : same_limits (dn_stage s) (dn_stage s1) -> lk_conn (dn_link s1) = lk_conn (dn_link s) ->
  (dn_env s = [] -> s1 = s) -> (producers (dn_env s) -> producers (dn_env s1) /\ exists arrived, drained [] [] [] arrived s s1) ->
  loop_done limit 0 try_only [] ts r s1 s' -> loop_done limit 0 try_only [] ts r s s'.
Proof.
  intros Hl Hc He Hp L. apply (loop_done_step limit 0 0 try_only [] [] ts r s s1 s'); try done.
  - intros Hpr. destruct (Hp Hpr) as (? & a & ?). split; [done|]. by exists [], [], a.
  - intros Hnil. rewrite (He Hnil). split; [done | lia].
Qed.

Lemma drain_inner_spec limit try_only gate s : world_ok s -> exists r s' ts,
  drain_staged_inner limit try_only gate s = Ok (r, s') /\ loop_done limit 0 try_only [] ts r s s'.
Proof.
  intros Ho. unfold drain_staged_inner.
  destruct (stage_lock_spec try_only s Ho) as (m1 & s1 & -> & Ho1 & Hl1 & Hc1 & Hm1 & He1 & Hp1). cbn [res_bind].
  assert (Hidle : forall s, world_ok s -> try_only = true -> loop_done limit 0 try_only [] [] None s s) by (intros; apply loop_done_idle; auto).
  enough (Hs1 : exists r s' ts, (if negb m1 then Ok (None, s1) else if try_only && gate then Ok (None, s1) else
     let! '(mine, s) := stage_lock try_only s1 in
     if negb mine then Ok (None, s) else
     if stager_is_empty (dn_stage s) then Ok (Some R2DrainOutcome_default, s) else
     drain_loop (Z.to_nat R2_STAGE_MAX_ITEMS) limit try_only (mkProgress 0 false R2DrainOutcome_default) s) = Ok (r, s') /\
     loop_done limit 0 try_only [] ts r s1 s').
  { destruct Hs1 as (r & s' & ts & E & L). exists r, s', ts. split; [exact E|]. eapply loop_done_lock; try done. intros Hnil. by apply He1. }
  destruct m1; cbn [negb]; [|exists None, s1, []; split; [done | apply Hidle; [done|]; destruct try_only; [done | by specialize (Hm1 eq_refl)]]].
  destruct (try_only && gate) eqn:Eg; [exists None, s1, []; apply andb_true_iff in Eg as [? _]; auto|].
  destruct (stage_lock_spec try_only s1 Ho1) as (m2 & s2 & -> & Ho2 & Hl2 & Hc2 & Hm2 & He2 & Hp2). cbn [res_bind].
  enough (Hs2 : exists r s' ts, (if negb m2 then Ok (None, s2) else
     if stager_is_empty (dn_stage s2) then Ok (Some R2DrainOutcome_default, s2) else
     drain_loop (Z.to_nat R2_STAGE_MAX_ITEMS) limit try_only (mkProgress 0 false R2DrainOutcome_default) s2) = Ok (r, s') /\
     loop_done limit 0 try_only [] ts r s2 s').
  { destruct Hs2 as (r & s' & ts & E & L). exists r, s', ts. split; [exact E|]. eapply loop_done_lock; try done. intros Hnil. by apply He2. }
  destruct m2; cbn [negb]; [|exists None, s2, []; split; [done | apply Hidle; [done|]; destruct try_only; [done | by specialize (Hm2 eq_refl)]]].
  destruct (stager_is_empty (dn_stage s2)) eqn:Ee.
  { eexists _, s2, []. split; [done|]. apply loop_done_idle; [done|]. right. unfold stager_is_empty in Ee. zbool. done. }
  destruct (drain_loop_spec limit try_only (Z.to_nat R2_STAGE_MAX_ITEMS) (mkProgress 0 false R2DrainOutcome_default) [] s2 Ho2)
    as (r & s' & ts & E & L); try done; try (cbn; lia). by exists r, s', ts.
Qed.
End Drained.

(* ------------------------------------------------------------------ *)
(** ** Direct sends *)

(** A direct send never panics.  It sends only from an empty stager whose gate
    is free, so it overtakes nothing, and then the connection gets exactly the
    item's frame; in every other case the connection's queue is as it was. *)
Lemma direct_send_spec {BU : Build} {Conn} `{DatagramConn Conn} item limit gate (s : World Conn) : world_ok s -> item_wf item ->
  exists r s', try_send_direct item limit gate s = Ok (r, s') /\
    match r with
    | DSent => gate = false /\ stager_len (dn_stage s') = 0 /\ exists body,
        encode_standalone_item_for (sg_wire (dn_stage s')) item limit = Ok body /\
        queued (lk_conn (dn_link s')) = queued (lk_conn (dn_link s)) ++ [body]
    | DNotNow i => i = item /\ queued (lk_conn (dn_link s')) = queued (lk_conn (dn_link s))
    | _ => queued (lk_conn (dn_link s')) = queued (lk_conn (dn_link s))
    end.
Proof.
  intros Ho Hit. destruct (others_turn_spec s Ho) as (held & s1 & E & Ho1 & _ & Hc & _). unfold try_send_direct. rewrite E. cbn [res_bind].
  destruct (negb (stager_is_empty _) || _) eqn:Eb; [eexists _, _; split; [reflexivity|]; by rewrite Hc|].
  destruct gate; [eexists _, _; split; [reflexivity|]; by rewrite Hc|].
  pose proof (standalone_no_panic (sg_wire (dn_stage s1)) item limit Hit).
  destruct (encode_standalone_item_for _ _ _) as [body| |] eqn:Ee; [|eexists _, _; split; [reflexivity|]; by rewrite Hc | done].
  destruct (try_send_datagram (lk_conn (dn_link s1)) body) as [v conn] eqn:Es. apply try_send_queues in Es. rewrite Hc in Es.
  eexists _, _. split; [reflexivity|]. apply orb_false_iff in Eb as [Eb _]. apply negb_false_iff in Eb.
  unfold stager_is_empty in Eb. zbool. destruct v; cbn; rewrite Es, ?app_nil_r; try done. split_and!; [done | done|]. by exists body.
Qed.

(* ------------------------------------------------------------------ *)
(** ** Claims *)

(** C27: a drain always returns.  Whatever the other tasks do to the stager
    between its lock holds, whatever verdicts the connection gives and whether
    or not the gate is held, the blocking drain returns an outcome (it never
    reports contention) and the non-blocking one returns, within
    [R2_STAGE_MAX_ITEMS] turns and without a panic: no slice is out of range,
    no frame is without its body, no assertion fails.  The stager's invariant
    holds again afterwards, and a busy attempt left the connection alone.  This
    holds in every build.  Where debug assertions are on, the assertion of
    [r3_item_len_len] is among them, and then [world_ok] asks that no payload in
    the queue, and none that another task pushes or requeues, is above 65535 bytes:
    the documented staging contract, which [push] itself does not check
    ([StageRun.big_payload_panics]). *)
Theorem drain_returns {BU : Build} {Conn} `{DatagramConn Conn} limit gate (s : World Conn) : world_ok s ->
  (exists out s', drain_staged limit gate s = Ok (out, s') /\ world_ok s') /\
  (exists a s', try_drain_staged limit gate s = Ok (a, s') /\ world_ok s' /\
     (is_busy a = true -> lk_conn (dn_link s') = lk_conn (dn_link s))).
Proof.
  intros Ho. split.
  - destruct (drain_inner_spec limit false gate s Ho) as (r & s' & ts & E & L). destruct (ld_some _ _ _ _ _ _ _ _ L eq_refl) as [out ->].
    exists out, s'. unfold drain_staged. rewrite E. split; [done | apply L].
  - destruct (drain_inner_spec limit true gate s Ho) as (r & s' & ts & E & L). unfold try_drain_staged. rewrite E.
    eexists _, s'. split; [reflexivity|]. split; [apply L|]. destruct r as [out|]; [done|]. intros _. by apply (ld_none _ _ _ _ _ _ _ _ L).
Qed.

(** C26: a drain accounts for every item and keeps each session's order.  While
    the other tasks only push, the connection gets the bodies of the frames
    sent, in order, each the encoding of a frame that fits the limit; per
    session, the items of the frames tried, followed by what is left in the
    queue, are in the order of the queue before followed by what was pushed
    meanwhile; every item of those is in a frame tried, counted as too large,
    reported by the overflow callback, or still queued.  The outcome, the drop
    counters and the delivery counters are the tally of the frames tried, or
    the buffer was full before the next claim.  With no other task at work, a
    drain that reports no failure has emptied the queue.  As for [drain_returns],
    a build with debug assertions is one in which no staged payload is above 65535
    bytes. *)
Theorem drain_accounts {BU : Build} {Conn} `{DatagramConn Conn} limit gate (s : World Conn) : world_ok s -> producers (dn_env s) ->
  exists out s' ts nofit lost arrived, drain_staged limit gate s = Ok (out, s') /\
    queued (lk_conn (dn_link s')) = queued (lk_conn (dn_link s)) ++ sent_bodies ts /\
    Forall (try_ok (sg_wire (dn_stage s)) limit) ts /\
    (forall x, sublist (of_session x (tried_runs ts) ++ queue_of x (dn_stage s')) (queue_of x (dn_stage s) ++ of_session x arrived)) /\
    (forall x, queue_of x (dn_stage s) ++ of_session x arrived ≡ₚ
       of_session x (tried_runs ts ++ nofit ++ lost) ++ queue_of x (dn_stage s')) /\
    sublist arrived (offered (dn_env s)) /\
    reports ts out s' /\
    lk_drops (dn_link s') = book_too_large (len nofit) (book_tries ts (lk_drops (dn_link s))) /\
    lk_stats (dn_link s') = book_payloads (sent_runs ts) (lk_stats (dn_link s)) /\
    len (dn_calls s') = len (dn_calls s) + len lost /\
    (dn_env s = [] -> do_failed out = None -> stager_len (dn_stage s) <= R2_STAGE_MAX_ITEMS -> stager_len (dn_stage s') = 0).
Proof.
  intros Ho Hp. destruct (drain_inner_spec limit false gate s Ho) as (r & s' & ts & E & L).
  destruct (ld_some _ _ _ _ _ _ _ _ L eq_refl) as [out ->]. destruct (ld_drained _ _ _ _ _ _ _ _ L Hp) as (nofit & lost & arrived & D).
  exists out, s', ts, nofit, lost, arrived. unfold drain_staged. rewrite E. destruct D as [D1 D2 D3 D4 D5 D6 (used & D7 & D8)].
  split_and!; try done; [apply L | | by apply (ld_report _ _ _ _ _ _ _ _ L)|].
  - rewrite D7, offered_app. by apply sublist_inserts_r.
  - intros Hnil Hf Hlen. destruct (ld_flush _ _ _ _ _ _ _ _ L Hnil out eq_refl Hf); [done|].
    pose proof (queued_bound _ (wo_inv _ (ld_ok _ _ _ _ _ _ _ _ L))). unfold stager_len in *. lia.
Qed.

Definition demo_world : World BufConn :=
  mkWorld (mkLink (mkBufConn 4000 []) (mkDrops 0 0 0) (mkSendStats 0 0 0 0 0))
    (push_each [demo_item 1 (KSteady 2) 10; demo_item 2 (KOpen 4 2 (AddrDomain [97] 53) false) 5; demo_item 1 (KSteady 2) 7]
       (R2Stager_new_with_wire Rev3)).2
    [mkTurn false [SPush (demo_item 3 (KSteady 6) 4)]; mkTurn true []; mkTurn false [SPush (demo_item 1 (KSteady 2) 1)]] [].

#[local] Existing Instance debug_build.

Lemma demo_world_ok : world_ok demo_world.
Proof.
  assert (Hi : stage_inv (R2Stager_new_with_wire Rev3)) by (apply new_stage_inv; unfold R2_STAGE_MAX_ITEMS, R2_STAGE_MAX_BYTES, usize_max; lia).
  split.
  - apply push_each_inv; [repeat constructor; vm_compute; congruence | done].
  - apply push_each_wf; [done | |]; [intros x; unfold queue_of; cbn; rewrite lookup_empty; constructor|].
    repeat apply list.Forall_cons_2; try apply list.Forall_nil_2; cbn; try done. repeat split; try done; repeat constructor; done.
  - by vm_compute.
  - unfold drops_u64, is_u64. cbn. lia.
  - repeat constructor; vm_compute; congruence.
Qed.

Lemma drain_returns_witness : exists out s' a s'', drain_staged 1200 false demo_world = Ok (out, s') /\
  try_drain_staged 1200 false demo_world = Ok (a, s'').
Proof.
  destruct (drain_returns 1200 false demo_world demo_world_ok) as [(out & s' & H1 & _) (a & s'' & H2 & _)].
  exists out, s', a, s''. split; [exact H1 | exact H2].
Defined.

Lemma drain_accounts_witness : exists out s' ts, drain_staged 1200 false demo_world = Ok (out, s') /\
  queued (lk_conn (dn_link s')) = sent_bodies ts /\ reports ts out s'.
Proof.
  assert (Hp : producers (dn_env demo_world)) by (repeat constructor; by eexists).
  destruct (drain_accounts 1200 false demo_world demo_world_ok Hp) as (out & s' & ts & n & l & a & H1 & H2 & _ & _ & _ & _ & H3 & _).
  exists out, s', ts. split; [exact H1|]. split; [exact H2 | exact H3].
Defined.
