(* ===== verification/DnsKey.v ===== *)
(** Cache keys of DNS names ([src/dns/key.rs]): the normalised name, the
    per-port key built into a stack buffer or an owned [String], and the
    host-only key.  A [&str] is the list of its UTF-8 bytes. *)
From stdpp Require Import pretty.
From S2P Require Import Prelude Addr.

Definition DNS_KEY_BUF : Z := 255 + 1 + 5.
Definition DNS_HOST_KEY_BUF : Z := 255.

(** [u8::to_ascii_lowercase]. *)
Definition to_ascii_lowercase (b : Z) : Z := if between 65 b 90 then b + 32 else b.

(** [n.to_string().as_bytes()] of an unsigned integer. *)
Definition string_bytes (s : string) : bytes :=
  (fun c => Z.of_N (Ascii.N_of_ascii c)) <$> String.list_ascii_of_string s.
Definition decimal (n : Z) : bytes := string_bytes (pretty (Z.to_N n)).

(** The loop of [dns_name_bytes]; each turn drops a byte, so [length hb]
    turns are enough. *)
Fixpoint strip_dots (turns : nat) (hb : bytes) : bytes :=
  match turns with
  | O => hb
  | S turns =>
      if (1 <? len hb) && bool_decide (list.last hb = Some 46)
      then strip_dots turns (take (length hb - 1) hb)
      else hb
  end.
Definition dns_name_bytes (host : bytes) : bytes := strip_dots (length host) host.

(** [String::from_utf8(bytes).expect(..)]. *)
Definition expect_utf8 (b : bytes) : res unit bytes := if utf8_valid b then Ok b else Panic.

Definition dns_key_owned (host : bytes) (port : Z) : res unit bytes :=
  let hb := dns_name_bytes host in
  let bytes := to_ascii_lowercase <$> hb in
  let bytes := bytes ++ [0] in
  let bytes := bytes ++ decimal port in
  expect_utf8 bytes.

(** [for (dst, b) in buf.iter_mut().zip(hb) { *dst = b.to_ascii_lowercase(); }] *)
Fixpoint lower_into (buf hb : bytes) : bytes :=
  match buf, hb with
  | _ :: buf, b :: hb => to_ascii_lowercase b :: lower_into buf hb
  | _, _ => buf
  end.

(** The digit loop of [dns_key]: decrementing [i] at 0 panics, so it makes at
    most five turns. *)
Fixpoint digits_loop (turns : nat) (p i : Z) (digits : bytes) : res unit (bytes * Z) :=
  match turns with
  | O => Panic
  | S turns =>
      if i =? 0 then Panic
      else
        let i := i - 1 in
        let digits := <[Z.to_nat i := 48 + as_u8 (p mod 10)]> digits in
        let p := p / 10 in
        if p =? 0 then Ok (digits, i) else digits_loop turns p i digits
  end.

(** The key, and the caller's buffer as the call leaves it. *)
Definition dns_key (host : bytes) (port : Z) (buf : bytes) : res unit (bytes * bytes) :=
  let hb := dns_name_bytes host in
  guard! negb (DNS_KEY_BUF <? len hb + 1 + 5) else tt in
  let buf := lower_into buf hb in
  let pos := len hb in
  let! buf := write_at buf pos [0] in
  let pos := pos + 1 in
  let! '(digits, i) := digits_loop 6 port 5 [0; 0; 0; 0; 0] in
  let! ds := sub_from digits i in
  let! buf := write_at buf pos ds in
  let pos := pos + (5 - i) in
  let! key := sub buf 0 pos in
  guard! utf8_valid key else tt in
  Ok (key, buf).

Definition dns_host_key_owned (host : bytes) : res unit bytes :=
  let hb := dns_name_bytes host in
  expect_utf8 (to_ascii_lowercase <$> hb).

Definition dns_host_key (host : bytes) (buf : bytes) : res unit (bytes * bytes) :=
  let hb := dns_name_bytes host in
  guard! negb (DNS_HOST_KEY_BUF <? len hb) else tt in
  let buf := lower_into buf hb in
  let! key := sub buf 0 (len hb) in
  guard! utf8_valid key else tt in
  Ok (key, buf).

(** The two-step choice of every caller ([lookup_cached_fast_with_ttl],
    [resolve_all_cached]): the borrowed key, or the owned one when the name is
    too long for the buffer. *)
Definition memo_key_of (host : bytes) (port : Z) : res unit bytes :=
  match dns_key host port (repeat 0 (Z.to_nat DNS_KEY_BUF)) with
  | Ok (k, _) => Ok k
  | Err _ => dns_key_owned host port
  | Panic => Panic
  end.
Definition host_key_of (host : bytes) : res unit bytes :=
  match dns_host_key host (repeat 0 (Z.to_nat DNS_HOST_KEY_BUF)) with
  | Ok (k, _) => Ok k
  | Err _ => dns_host_key_owned host
  | Panic => Panic
  end.

(* ------------------------------------------------------------------ *)
(** ** UTF-8 and the normalisation *)

Lemma utf8_app a b : utf8_valid a = true -> utf8_valid (a ++ b) = utf8_valid b.
Proof.
  induction a as [a IH] using (induction_ltof1 _ (@length Z)). unfold ltof in IH.
  destruct a as [|x a]; [done|]. cbn [utf8_valid app].
  destruct (x <? 0x80); [apply IH; cbn; lia|].
  destruct (between 0xC2 x 0xDF).
  { destruct a as [|y a]; [done|]. cbn [app]. rewrite !andb_true_iff. intros [-> ?]. apply IH; [cbn; lia|done]. }
  destruct (between 0xE0 x 0xEF).
  { destruct a as [|y [|z a]]; [done..|]. cbn [app]. rewrite !andb_true_iff. intros [[-> ->] ?].
    apply IH; [cbn; lia|done]. }
  destruct (between 0xF0 x 0xF4); [|done].
  destruct a as [|y [|z [|v a]]]; [done..|]. cbn [app]. rewrite !andb_true_iff. intros [[[-> ->] ->] ?].
  apply IH; [cbn; lia|done].
Qed.

(** Dropping a trailing ASCII byte leaves a valid string. *)
Lemma utf8_snoc a c : 0 <= c < 0x80 -> utf8_valid (a ++ [c]) = true -> utf8_valid a = true.
Proof.
  intros Hc. induction a as [a IH] using (induction_ltof1 _ (@length Z)). unfold ltof in IH.
  assert (Hcont : is_cont c = false) by (unfold is_cont, between; lia).
  destruct a as [|x a]; [done|]. cbn [utf8_valid app].
  destruct (x <? 0x80); [apply IH; cbn; lia|].
  destruct (between 0xC2 x 0xDF).
  { destruct a as [|y a]; cbn [app]; [by rewrite Hcont|]. rewrite !andb_true_iff. intros [-> ?].
    split; [done|]. apply IH; [cbn; lia|done]. }
  destruct (between 0xE0 x 0xEF).
  { destruct a as [|y [|z a]]; cbn [app]; [done|by rewrite Hcont, andb_false_r|].
    rewrite !andb_true_iff. intros [[-> ->] ?]. split; [done|]. apply IH; [cbn; lia|done]. }
  destruct (between 0xF0 x 0xF4); [|done].
  destruct a as [|y [|z [|v a]]]; cbn [app]; [done|done|by rewrite Hcont, andb_false_r|].
  rewrite !andb_true_iff. intros [[[-> ->] ->] ?]. split; [done|]. apply IH; [cbn; lia|done].
Qed.

Lemma lower_ascii x : (to_ascii_lowercase x <? 0x80) = (x <? 0x80).
Proof. unfold to_ascii_lowercase, between. repeat case_match; lia. Qed.

Lemma lower_between lo hi x : 0x80 <= lo -> between lo (to_ascii_lowercase x) hi = between lo x hi.
Proof. unfold to_ascii_lowercase, between. repeat case_match; lia. Qed.

Lemma lower_eqb k x : 0x80 <= k -> (to_ascii_lowercase x =? k) = (x =? k).
Proof. unfold to_ascii_lowercase, between. repeat case_match; lia. Qed.

Lemma utf8_lower a : utf8_valid (to_ascii_lowercase <$> a) = utf8_valid a.
Proof.
  induction a as [a IH] using (induction_ltof1 _ (@length Z)). unfold ltof in IH.
  destruct a as [|x a]; [done|]. cbn [fmap list_fmap utf8_valid].
  rewrite lower_ascii, !(lower_between _ _ x), !lower_eqb by lia.
  destruct (x <? 0x80); [apply IH; cbn; lia|].
  destruct (between 0xC2 x 0xDF).
  { destruct a as [|y a]; [done|]. cbn [fmap list_fmap]. unfold is_cont. rewrite lower_between by lia. f_equal. apply IH. cbn; lia. }
  destruct (between 0xE0 x 0xEF).
  { destruct a as [|y [|z a]]; [done..|]. cbn [fmap list_fmap]. unfold is_cont. rewrite !lower_between by lia.
    f_equal. apply IH. cbn; lia. }
  destruct (between 0xF0 x 0xF4); [|done].
  destruct a as [|y [|z [|v a]]]; [done..|]. cbn [fmap list_fmap]. unfold is_cont. rewrite !lower_between by lia.
  f_equal. apply IH. cbn; lia.
Qed.

(** [dns_name_bytes] keeps a nonempty prefix and drops only dots. *)
Lemma strip_dots_spec n hb : exists k,
  hb = strip_dots n hb ++ repeat 46 k /\ (strip_dots n hb = [] -> hb = []).
Proof.
  revert hb; induction n as [|n IH]; intros hb; [exists 0%nat; by rewrite app_nil_r|].
  cbn [strip_dots]. destruct (_ && _) eqn:E; [|exists 0%nat; by rewrite app_nil_r].
  apply andb_true_iff in E as [Hl Hd]. apply bool_decide_eq_true in Hd.
  apply last_Some in Hd as [hb' ->]. rewrite length_app, Nat.add_sub, take_app_length.
  destruct (IH hb') as (k & Hk & Hn). exists (S k). split.
  - rewrite Hk at 1. rewrite <- app_assoc. f_equal. clear. induction k; [done|]. cbn. by f_equal.
  - intros E. rewrite (Hn E) in Hl. by vm_compute in Hl.
Qed.

(** A name that has been normalised is at most one byte or does not end in a dot. *)
Lemma strip_dots_done n hb : (length hb <= n)%nat ->
  len (strip_dots n hb) <= 1 \/ list.last (strip_dots n hb) <> Some 46.
Proof.
  revert hb; induction n as [|n IH]; intros hb Hl.
  { destruct hb; [|cbn in Hl; lia]. left; by cbn. }
  cbn [strip_dots]. destruct (_ && _) eqn:E.
  - apply IH. rewrite length_take. apply andb_true_iff in E as [E _]. unfold len in E. lia.
  - apply andb_false_iff in E as [E|E]; [left; lia|right; by apply bool_decide_eq_false in E].
Qed.

Lemma utf8_dots a k : utf8_valid (a ++ repeat 46 k) = true -> utf8_valid a = true.
Proof.
  revert a; induction k as [|k IH]; intros a; [by rewrite app_nil_r|].
  replace (repeat 46 (S k)) with ([46] ++ repeat 46 k) by done. rewrite app_assoc.
  intros H. apply IH in H. apply utf8_snoc in H; [done|lia].
Qed.

Definition norm_name (host : bytes) : bytes := to_ascii_lowercase <$> dns_name_bytes host.

Lemma utf8_name host : utf8_valid host = true -> utf8_valid (norm_name host) = true.
Proof.
  intros H. unfold norm_name. rewrite utf8_lower. unfold dns_name_bytes.
  destruct (strip_dots_spec (length host) host) as (k & Hk & _). rewrite Hk in H. by apply utf8_dots in H.
Qed.

(* ------------------------------------------------------------------ *)
(** ** The digit loop writes the decimal form *)

Definition is_digit (b : Z) : Prop := 48 <= b <= 57.

Lemma digit_char p : 0 <= p ->
  Z.of_N (Ascii.N_of_ascii (pretty_N_char (Z.to_N p `mod` 10))) = 48 + as_u8 (p mod 10).
Proof.
  intros Hp. replace (Z.to_N p `mod` 10)%N with (Z.to_N (p mod 10)) by (by rewrite Z2N.inj_mod).
  pose proof (Z.mod_pos_bound p 10 eq_refl) as Hr. generalize dependent (p mod 10). intros r Hr.
  assert (r = 0 \/ r = 1 \/ r = 2 \/ r = 3 \/ r = 4 \/ r = 5 \/ r = 6 \/ r = 7 \/ r = 8 \/ r = 9) by lia.
  repeat (destruct H as [->|H]; [done|]). by subst.
Qed.

Lemma digits_loop_go turns p i ds s : 0 < p -> p < 10 ^ i -> 0 <= i <= len ds -> i < Z.of_nat turns ->
  drop (Z.to_nat i) ds = string_bytes s -> Forall is_digit (string_bytes s) ->
  exists ds' i', digits_loop turns p i ds = Ok (ds', i') /\ 0 <= i' < i /\ len ds' = len ds /\
    drop (Z.to_nat i') ds' = string_bytes (pretty_N_go (Z.to_N p) s) /\
    Forall is_digit (string_bytes (pretty_N_go (Z.to_N p) s)).
Proof.
  revert p i ds s; induction turns as [|turns IH]; intros p i ds s Hp Hlt Hi Ht Hd Hs; [lia|].
  assert (i <> 0) by (intros ->; cbn in Hlt; lia). cbn [digits_loop].
  replace (i =? 0) with false by (symmetry; by apply Z.eqb_neq).
  set (c := 48 + as_u8 (p mod 10)). set (ds1 := <[Z.to_nat (i - 1):=c]> ds).
  assert (Hl1 : len ds1 = len ds) by (unfold len, ds1; by rewrite length_insert).
  set (s1 := String.String (pretty_N_char (Z.to_N p `mod` 10)) s).
  assert (Hs1 : string_bytes s1 = c :: string_bytes s) by (unfold string_bytes; cbn; by rewrite digit_char by lia).
  assert (Hd1 : drop (Z.to_nat (i - 1)) ds1 = string_bytes s1).
  { rewrite Hs1, <- Hd. unfold ds1. unfold len in Hi.
    replace (Z.to_nat i) with (S (Z.to_nat (i - 1))) by lia.
    rewrite (drop_S _ c (Z.to_nat (i - 1))) by (apply list_lookup_insert_eq; lia).
    by rewrite drop_insert_lt by lia. }
  assert (Hc : Forall is_digit (string_bytes s1)).
  { rewrite Hs1. constructor; [|done]. unfold is_digit, c, as_u8. pose proof (Z.mod_pos_bound p 10 eq_refl).
    rewrite Z.mod_small by lia. lia. }
  rewrite pretty_N_go_step by lia. fold s1.
  replace (Z.to_N p `div` 10)%N with (Z.to_N (p / 10)) by (by rewrite Z2N.inj_div by lia).
  destruct (p / 10 =? 0) eqn:E.
  - apply Z.eqb_eq in E. rewrite E. exists ds1, (i - 1). rewrite pretty_N_go_0. repeat split; [lia..|done|done|done].
  - apply Z.eqb_neq in E. assert (0 <= p / 10) by (apply Z.div_pos; lia).
    destruct (IH (p / 10) (i - 1) ds1 s1) as (ds' & i' & -> & ? & ? & ? & ?); [lia| |lia|lia|done|done|].
    { apply Z.div_lt_upper_bound; [lia|]. replace (10 * 10 ^ (i - 1)) with (10 ^ i); [done|].
      rewrite <- Z.pow_succ_r by lia. f_equal. lia. }
    exists ds', i'. repeat split; [lia..|done|done].
Qed.

Lemma digits_loop_spec p : is_u16 p -> exists ds i,
  digits_loop 6 p 5 [0; 0; 0; 0; 0] = Ok (ds, i) /\ 0 <= i <= 4 /\ len ds = 5 /\
  drop (Z.to_nat i) ds = decimal p /\ Forall is_digit (decimal p).
Proof.
  intros Hp. unfold is_u16 in Hp. destruct (Z.eq_dec p 0) as [->|Hz].
  { eexists _, _. split; [vm_compute; reflexivity|]. split; [lia|]. do 2 (split; [by vm_compute|]). vm_compute. repeat constructor; congruence. }
  destruct (digits_loop_go 6 p 5 [0; 0; 0; 0; 0] EmptyString) as (ds & i & E & Hi & Hl & Hd & Hf);
    [lia|lia|by vm_compute|lia|done|constructor|].
  assert (Hdec : decimal p = string_bytes (pretty_N_go (Z.to_N p) EmptyString)).
  { unfold decimal, pretty, pretty_N. by rewrite decide_False by lia. }
  rewrite Hdec. exists ds, i. repeat split; try done; lia.
Qed.

Lemma decimal_digits p : is_u16 p -> Forall is_digit (decimal p).
Proof. intros Hp. by destruct (digits_loop_spec p Hp) as (? & ? & _ & _ & _ & _ & ?). Qed.

Lemma decimal_len p : is_u16 p -> 1 <= len (decimal p) <= 5.
Proof.
  intros Hp. destruct (digits_loop_spec p Hp) as (ds & i & _ & Hi & Hl & <- & _).
  unfold len in *. rewrite length_drop. lia.
Qed.

#[local] Instance ascii_byte_inj : Inj (=) (=) (fun c => Z.of_N (Ascii.N_of_ascii c)).
Proof.
  intros a b E. apply N2Z.inj in E.
  rewrite <- (Ascii.ascii_N_embedding a), <- (Ascii.ascii_N_embedding b). by f_equal.
Qed.

Lemma decimal_inj p q : 0 <= p -> 0 <= q -> decimal p = decimal q -> p = q.
Proof.
  intros Hp Hq H. apply Z2N.inj; [done..|]. apply (inj pretty).
  rewrite <- (String.string_of_list_ascii_of_string (pretty (Z.to_N p))),
    <- (String.string_of_list_ascii_of_string (pretty (Z.to_N q))).
  f_equal. unfold decimal, string_bytes in H. by apply (inj (fmap _)) in H.
Qed.

Lemma utf8_digits l : Forall is_digit l -> utf8_valid l = true.
Proof. induction 1; [done|]. cbn [utf8_valid]. unfold is_digit in *. destruct (_ <? _) eqn:E; [done|lia]. Qed.

(* ------------------------------------------------------------------ *)
(** ** Both forms of a key *)

Lemma lower_into_spec buf hb : (length hb <= length buf)%nat ->
  lower_into buf hb = (to_ascii_lowercase <$> hb) ++ drop (length hb) buf.
Proof.
  revert hb; induction buf as [|d buf IH]; intros [|b hb] Hl; cbn in *; [done|lia|done|].
  f_equal. apply IH. lia.
Qed.

Definition memo_key (host : bytes) (port : Z) : bytes := norm_name host ++ 0 :: decimal port.

Lemma memo_key_utf8 host port : utf8_valid host = true -> is_u16 port -> utf8_valid (memo_key host port) = true.
Proof.
  intros Hh Hp. unfold memo_key. rewrite utf8_app by by apply utf8_name.
  cbn [utf8_valid]. by apply utf8_digits, decimal_digits.
Qed.

Lemma len_norm host : len (norm_name host) = len (dns_name_bytes host).
Proof. unfold norm_name, len. by rewrite length_fmap. Qed.

Lemma sub_prefix_at {E A} (a b : list A) n : n = len a -> @sub E A (a ++ b) 0 n = Ok a.
Proof. intros ->. apply sub_prefix. Qed.

Lemma dns_key_owned_eq host port : utf8_valid host = true -> is_u16 port ->
  dns_key_owned host port = Ok (memo_key host port).
Proof.
  intros Hh Hp. unfold dns_key_owned, expect_utf8. rewrite <- app_assoc.
  change (_ ++ [0] ++ decimal port) with (memo_key host port). by rewrite memo_key_utf8.
Qed.

Lemma dns_key_eq host port buf : utf8_valid host = true -> is_u16 port -> len buf = DNS_KEY_BUF ->
  len (dns_name_bytes host) <= 255 ->
  exists rest, dns_key host port buf = Ok (memo_key host port, memo_key host port ++ rest).
Proof.
  intros Hh Hp Hb Hl. unfold dns_key, DNS_KEY_BUF in *.
  replace (negb _) with true by (symmetry; apply negb_true_iff; lia).
  rewrite lower_into_spec by (unfold len in *; lia). fold (norm_name host).
  assert (Hd : exists z a b, drop (length (dns_name_bytes host)) buf = [z] ++ a ++ b /\ len a = len (decimal port)).
  { destruct (drop (length (dns_name_bytes host)) buf) as [|z r] eqn:E.
    { apply (f_equal length) in E. rewrite length_drop in E. unfold len in *. cbn in E. lia. }
    exists z, (take (length (decimal port)) r), (drop (length (decimal port)) r).
    rewrite take_drop. split; [done|]. apply (f_equal length) in E. rewrite length_drop in E. cbn in E.
    pose proof (decimal_len port Hp). unfold len in *. rewrite length_take. lia. }
  destruct Hd as (z & a & b & -> & Ha).
  rewrite (write_at_middle (norm_name host) [z] [0] (a ++ b)) by (done || by rewrite len_norm). cbn [res_bind].
  destruct (digits_loop_spec port Hp) as (ds & i & -> & Hi & Hds & Hdrop & _). cbn [res_bind].
  unfold sub_from, slice_from. replace (_ <=? _) with true by (symmetry; apply Z.leb_le; lia). cbn [or_panic res_bind].
  rewrite Hdrop, (write_at_middle (norm_name host ++ [0]) a (decimal port) b);
    [|by rewrite <- !app_assoc|by rewrite len_app, len_norm|done]. cbn [res_bind].
  assert (Hi' : 5 - i = len (decimal port)) by (rewrite <- Hdrop; unfold len in *; rewrite length_drop; lia).
  replace ((norm_name host ++ [0]) ++ decimal port ++ b) with (memo_key host port ++ b)
    by (unfold memo_key; by rewrite <- !app_assoc).
  rewrite sub_prefix_at by (unfold memo_key; rewrite Hi', len_app, len_cons, len_norm; lia). cbn [res_bind].
  rewrite memo_key_utf8 by done. by exists b.
Qed.

Lemma dns_host_key_owned_eq host : utf8_valid host = true -> dns_host_key_owned host = Ok (norm_name host).
Proof. intros Hh. unfold dns_host_key_owned, expect_utf8. fold (norm_name host). by rewrite utf8_name. Qed.

Lemma dns_host_key_eq host buf : utf8_valid host = true -> len buf = DNS_HOST_KEY_BUF ->
  len (dns_name_bytes host) <= 255 ->
  exists rest, dns_host_key host buf = Ok (norm_name host, norm_name host ++ rest).
Proof.
  intros Hh Hb Hl. unfold dns_host_key, DNS_HOST_KEY_BUF in *.
  replace (negb _) with true by (symmetry; apply negb_true_iff; lia).
  rewrite lower_into_spec by (unfold len in *; lia). fold (norm_name host).
  rewrite sub_prefix_at by by rewrite len_norm. cbn [res_bind]. rewrite utf8_name by done. eauto.
Qed.

Lemma dns_key_long host port buf : 255 < len (dns_name_bytes host) -> dns_key host port buf = Nope.
Proof. intros H. unfold dns_key, DNS_KEY_BUF. by replace (negb _) with false by (symmetry; apply negb_false_iff; lia). Qed.

Lemma dns_host_key_long host buf : 255 < len (dns_name_bytes host) -> dns_host_key host buf = Nope.
Proof. intros H. unfold dns_host_key, DNS_HOST_KEY_BUF. by replace (negb _) with false by (symmetry; apply negb_false_iff; lia). Qed.

Lemma memo_key_of_eq host port : utf8_valid host = true -> is_u16 port -> memo_key_of host port = Ok (memo_key host port).
Proof.
  intros Hh Hp. unfold memo_key_of.
  destruct (Z_le_gt_dec (len (dns_name_bytes host)) 255).
  - by destruct (dns_key_eq host port (repeat 0 (Z.to_nat DNS_KEY_BUF)) Hh Hp eq_refl l) as [? ->].
  - rewrite dns_key_long by lia. by apply dns_key_owned_eq.
Qed.

Lemma host_key_of_eq host : utf8_valid host = true -> host_key_of host = Ok (norm_name host).
Proof.
  intros Hh. unfold host_key_of.
  destruct (Z_le_gt_dec (len (dns_name_bytes host)) 255).
  - by destruct (dns_host_key_eq host (repeat 0 (Z.to_nat DNS_HOST_KEY_BUF)) Hh eq_refl l) as [? ->].
  - rewrite dns_host_key_long by lia. by apply dns_host_key_owned_eq.
Qed.

(* ------------------------------------------------------------------ *)
(** ** Keys identify names *)

(** Two spellings of a DNS name: equal up to case and trailing dots. *)
Definition same_dns_name (h1 h2 : bytes) : Prop := exists j k,
  (to_ascii_lowercase <$> h1) ++ repeat 46 j = (to_ascii_lowercase <$> h2) ++ repeat 46 k.

Lemma norm_name_dots host : exists k, to_ascii_lowercase <$> host = norm_name host ++ repeat 46 k.
Proof.
  unfold norm_name, dns_name_bytes. destruct (strip_dots_spec (length host) host) as (k & Hk & _). exists k.
  rewrite Hk at 1. rewrite fmap_app. f_equal. clear. induction k; [done|]. cbn. by f_equal.
Qed.

Lemma norm_name_nonempty host : host <> [] -> norm_name host <> [].
Proof.
  intros Hh H. apply fmap_nil_inv in H. unfold dns_name_bytes in H.
  destruct (strip_dots_spec (length host) host) as (_ & _ & Hn). auto.
Qed.

Lemma lower_dot b : to_ascii_lowercase b = 46 -> b = 46.
Proof. unfold to_ascii_lowercase, between. case_match; lia. Qed.

Lemma norm_name_last host x : norm_name host = x ++ [46] -> x = [].
Proof.
  intros H. destruct (strip_dots_done (length host) host) as [Hl|Hl]; [done| |].
  - change (strip_dots (length host) host) with (dns_name_bytes host) in Hl.
    rewrite <- len_norm, H, len_app in Hl. change (len [46]) with 1 in Hl.
    destruct x; [done|]. rewrite len_cons in Hl. pose proof (len_nonneg x). lia.
  - exfalso. apply Hl. unfold norm_name in H. apply fmap_app_inv in H as (l1 & l2 & _ & H1 & H2).
    destruct l2 as [|b [|? ?]]; cbn in H1; [done| |done]. injection H1 as H1. symmetry in H1. apply lower_dot in H1 as ->.
    change (strip_dots (length host) host) with (dns_name_bytes host). rewrite H2. apply last_snoc.
Qed.

Lemma repeat_snoc {A} (x : A) k : repeat x (S k) = repeat x k ++ [x].
Proof. induction k; [done|]. cbn in *. by f_equal. Qed.

Lemma norm_dots_eq h1 h2 j k : h2 <> [] ->
  (j <= k)%nat -> norm_name h1 ++ repeat 46 j = norm_name h2 ++ repeat 46 k -> norm_name h1 = norm_name h2.
Proof.
  intros Hn Hjk H. replace k with ((k - j) + j)%nat in H by lia.
  rewrite repeat_app, app_assoc in H. apply app_inv_tail in H.
  destruct (k - j)%nat as [|d]; [by rewrite app_nil_r in H|].
  rewrite repeat_snoc, app_assoc in H. apply norm_name_last in H. apply app_eq_nil in H as [H _].
  by apply norm_name_nonempty in H.
Qed.

Lemma norm_name_same h1 h2 : h1 <> [] -> h2 <> [] -> norm_name h1 = norm_name h2 <-> same_dns_name h1 h2.
Proof.
  intros N1 N2. unfold same_dns_name. destruct (norm_name_dots h1) as [a Ha]. destruct (norm_name_dots h2) as [b Hb].
  rewrite Ha, Hb. split.
  - intros E. exists b, a. rewrite <- !app_assoc, <- !repeat_app, E, (Nat.add_comm a b). done.
  - intros (j & k & H). rewrite <- !app_assoc, <- !repeat_app in H.
    destruct (Nat.le_ge_cases (a + j) (b + k)); [by eapply norm_dots_eq|].
    symmetry. eapply norm_dots_eq; [|done|symmetry; exact H]. done.
Qed.

Lemma decimal_no_nul p : is_u16 p -> 0 ∉ decimal p.
Proof.
  intros Hp H. pose proof (decimal_digits p Hp) as Hd. rewrite list.Forall_forall in Hd. apply Hd in H.
  unfold is_digit in H. lia.
Qed.

(** The port has no NUL, so the last NUL of a key separates name and port. *)
Lemma memo_key_inj h1 p1 h2 p2 : is_u16 p1 -> is_u16 p2 -> memo_key h1 p1 = memo_key h2 p2 ->
  norm_name h1 = norm_name h2 /\ p1 = p2.
Proof.
  unfold memo_key. intros Hp1 Hp2 H. apply not_elem_of_app_cons_inv_r in H as (? & _ & H); [|by apply decimal_no_nul..].
  apply decimal_inj in H; [done|unfold is_u16 in *; lia..].
Qed.

(** The two ways of building a key give the same bytes.  For a UTF-8 name
    the owned forms never fail, the borrowed forms give exactly the owned bytes
    for every content of the caller's buffer when the name without its trailing
    dots is at most 255 bytes and refuse every longer one, and the key a caller
    ends up with is the owned one in both cases. *)
Theorem dns_key_forms (host : bytes) (port : Z) (buf hbuf : bytes) :
  utf8_valid host = true -> is_u16 port -> len buf = DNS_KEY_BUF -> len hbuf = DNS_HOST_KEY_BUF ->
  exists key hkey, dns_key_owned host port = Ok key /\ dns_host_key_owned host = Ok hkey /\
    memo_key_of host port = Ok key /\ host_key_of host = Ok hkey /\
    (if len (dns_name_bytes host) <=? 255
     then (exists rest, dns_key host port buf = Ok (key, key ++ rest)) /\
          (exists rest, dns_host_key host hbuf = Ok (hkey, hkey ++ rest))
     else dns_key host port buf = Nope /\ dns_host_key host hbuf = Nope).
Proof.
  intros Hh Hp Hb Hhb. exists (memo_key host port), (norm_name host).
  rewrite dns_key_owned_eq, dns_host_key_owned_eq, memo_key_of_eq, host_key_of_eq by done.
  do 4 (split; [done|]). destruct (_ <=? _) eqn:E; zbool.
  - split; [by apply dns_key_eq|by apply dns_host_key_eq].
  - split; [apply dns_key_long|apply dns_host_key_long]; lia.
Qed.

Lemma dns_key_forms_witness : exists key hkey,
  dns_key_owned [65; 46; 98; 46] 443 = Ok key /\ dns_host_key_owned [65; 46; 98; 46] = Ok hkey /\
  memo_key_of [65; 46; 98; 46] 443 = Ok key /\ host_key_of [65; 46; 98; 46] = Ok hkey /\
  (exists rest, dns_key [65; 46; 98; 46] 443 (repeat 7 261) = Ok (key, key ++ rest)) /\
  (exists rest, dns_host_key [65; 46; 98; 46] (repeat 7 255) = Ok (hkey, hkey ++ rest)).
Proof. apply (dns_key_forms [65; 46; 98; 46] 443 (repeat 7 261) (repeat 7 255)); concrete. Defined.

(** keys identify targets.  Two nonempty names with their ports get the same
    memo key exactly when the ports are equal and the names are the same DNS
    name, and the same host key exactly when they are the same DNS name: no two
    targets share a cache entry, and every spelling of a name finds the one
    entry. *)
Theorem dns_key_identifies (h1 h2 : bytes) (p1 p2 : Z) :
  utf8_valid h1 = true -> utf8_valid h2 = true -> h1 <> [] -> h2 <> [] -> is_u16 p1 -> is_u16 p2 ->
  (memo_key_of h1 p1 = memo_key_of h2 p2 <-> p1 = p2 /\ same_dns_name h1 h2) /\
  (host_key_of h1 = host_key_of h2 <-> same_dns_name h1 h2).
Proof.
  intros U1 U2 N1 N2 P1 P2. rewrite !memo_key_of_eq, !host_key_of_eq, <- norm_name_same by done.
  split; [split|split]; [|intros [-> E]; unfold memo_key; by rewrite E|congruence|congruence].
  intros E. injection E as E. by apply memo_key_inj in E as [? ?].
Qed.

Lemma dns_key_identifies_witness :
  (memo_key_of [65; 46; 98] 53 = memo_key_of [97; 46; 66; 46] 53 <-> 53 = 53 /\ same_dns_name [65; 46; 98] [97; 46; 66; 46]) /\
  (host_key_of [65; 46; 98] = host_key_of [97; 46; 66; 46] <-> same_dns_name [65; 46; 98] [97; 46; 66; 46]).
Proof. apply (dns_key_identifies [65; 46; 98] [97; 46; 66; 46] 53 53); first [discriminate|concrete]. Defined.
