(* ===== verification/DnsPolicy.v ===== *)
(** The egress policy on addresses ([src/dns/policy.rs]): the tables of
    non-global networks, [is_global_ip], and the IPv4-mapped form of an
    address.

    [ipnet]'s [contains] is third-party code: it is the operation of the class
    [IpNet], which assumes what its documentation says, that a network contains
    the addresses that agree with it on the first [prefix_len] bits. *)
From S2P Require Import Prelude Addr.

(** [std::net::IpAddr], each family as its octets. *)
Inductive IpAddr : Type :=
| IpV4 (o : bytes)
| IpV6 (o : bytes).

#[export] Instance IpAddr_eq_dec : EqDecision IpAddr.
Proof. solve_decision. Defined.

Definition ip_ok (ip : IpAddr) : Prop :=
  match ip with
  | IpV4 o => len o = 4 /\ bytes_ok o
  | IpV6 o => len o = 16 /\ bytes_ok o
  end.

(** [Ipv6Addr::new] and [Ipv6Addr::segments]. *)
Definition v6_new (s : list Z) : bytes := s ≫= be16.
Fixpoint segments (o : bytes) : list Z :=
  match o with
  | a :: b :: r => of_be16 a b :: segments r
  | _ => []
  end.

(** [Ipv6Addr::to_ipv4_mapped] and [Ipv4Addr::to_ipv6_mapped]. *)
Definition mapped_prefix : bytes := repeat 0 10 ++ [0xff; 0xff].
Definition to_ipv4_mapped (o : bytes) : option bytes :=
  if bool_decide (take 12 o = mapped_prefix) then Some (drop 12 o) else None.
Definition to_ipv6_mapped (o : bytes) : bytes := mapped_prefix ++ o.

(** [SocketAddr::ip], [SocketAddr::port], [SocketAddr::new]. *)
Definition sa_ip (a : SocketAddr) : IpAddr :=
  match a with SockV4 ip _ => IpV4 ip | SockV6 ip _ _ _ => IpV6 ip end.
Definition sa_port (a : SocketAddr) : Z :=
  match a with SockV4 _ p => p | SockV6 _ p _ _ => p end.
Definition sa_new (ip : IpAddr) (port : Z) : SocketAddr :=
  match ip with IpV4 o => SockV4 o port | IpV6 o => SockV6 o port 0 0 end.

(* ------------------------------------------------------------------ *)
(** ** Networks *)

(** [Ipv4Net] and [Ipv6Net]: the octets of the address and the prefix length. *)
Record Net : Type := mkNet { net_addr : bytes; prefix_len : Z }.

(** The number a big-endian octet string stands for. *)
Definition of_be (o : bytes) : Z := fold_left (fun v b => v * 2 ^ 8 + b) o 0.

(** The first [prefix_len] of [8 * len] bits agree. *)
Definition prefix_agrees (net : Net) (o : bytes) : Prop :=
  let host_bits := 8 * len (net_addr net) - prefix_len net in
  of_be o / 2 ^ host_bits = of_be (net_addr net) / 2 ^ host_bits.

Class IpNet : Type := {
  contains : Net -> bytes -> bool;
  contains_spec net o :
    len o = len (net_addr net) -> bytes_ok o -> bytes_ok (net_addr net) ->
    0 <= prefix_len net <= 8 * len (net_addr net) ->
    contains net o = true <-> prefix_agrees net o
}.

(** [Ipv4Net::new_assert(Ipv4Addr::new(a, b, c, d), p)] and the IPv6 form; the
    assertion on the prefix length is made at compile time. *)
Definition net4 (a b c d p : Z) : Net := mkNet [a; b; c; d] p.
Definition net6 (s0 s1 s2 s3 s4 s5 s6 s7 p : Z) : Net := mkNet (v6_new [s0; s1; s2; s3; s4; s5; s6; s7]) p.

Definition NON_GLOBAL_V4 : list Net :=
  [ net4 0 0 0 0 8;
    net4 10 0 0 0 8;
    net4 100 64 0 0 10;
    net4 127 0 0 0 8;
    net4 169 254 0 0 16;
    net4 172 16 0 0 12;
    net4 192 0 0 0 24;
    net4 192 0 2 0 24;
    net4 192 88 99 0 24;
    net4 192 168 0 0 16;
    net4 192 175 48 0 24;
    net4 192 31 196 0 24;
    net4 192 52 193 0 24;
    net4 198 18 0 0 15;
    net4 198 51 100 0 24;
    net4 203 0 113 0 24;
    net4 224 0 0 0 4;
    net4 240 0 0 0 4 ].

Definition NON_GLOBAL_V6 : list Net :=
  [ net6 0 0 0 0 0 0 0 0 8;
    net6 0x0100 0 0 0 0 0 0 0 16;
    net6 0x0200 0 0 0 0 0 0 0 7;
    net6 0x0400 0 0 0 0 0 0 0 6;
    net6 0x0800 0 0 0 0 0 0 0 5;
    net6 0x1000 0 0 0 0 0 0 0 4;
    net6 0x2001 0 0 0 0 0 0 0 23;
    net6 0x2001 0x0001 0 0 0 0 0 1 128;
    net6 0x2001 0x0001 0 0 0 0 0 2 128;
    net6 0x2001 0x0001 0 0 0 0 0 3 128;
    net6 0x2001 0x0002 0 0 0 0 0 0 48;
    net6 0x2001 0x0003 0 0 0 0 0 0 32;
    net6 0x2001 0x0004 0x0112 0 0 0 0 0 48;
    net6 0x2001 0x0010 0 0 0 0 0 0 28;
    net6 0x2001 0x0020 0 0 0 0 0 0 28;
    net6 0x2001 0x0030 0 0 0 0 0 0 28;
    net6 0x2001 0x0db8 0 0 0 0 0 0 32;
    net6 0x2002 0 0 0 0 0 0 0 16;
    net6 0x2620 0x004f 0x8000 0 0 0 0 0 48;
    net6 0x3fff 0 0 0 0 0 0 0 20;
    net6 0x5f00 0 0 0 0 0 0 0 16;
    net6 0x0064 0xff9b 0 0 0 0 0 0 32;
    net6 0xfc00 0 0 0 0 0 0 0 7;
    net6 0xfe00 0 0 0 0 0 0 0 9;
    net6 0xfe80 0 0 0 0 0 0 0 10;
    net6 0xfec0 0 0 0 0 0 0 0 10;
    net6 0xff00 0 0 0 0 0 0 0 8 ].

(** The segment at a constant index of the eight. *)
Definition seg (s : list Z) (i : nat) : Z := default 0 (s !! i).

Definition embedded_v4 (s : list Z) : bytes :=
  [as_u8 (Z.shiftr (seg s 6) 8); as_u8 (seg s 6); as_u8 (Z.shiftr (seg s 7) 8); as_u8 (seg s 7)].

Definition all_zero (s : list Z) : bool := forallb (fun x => x =? 0) s.

Section Policy.
Context `{IpNet}.

(** The [IpAddr::V4] arm of [is_global_ip], which the embedded forms call again. *)
Definition is_global_v4 (v4 : bytes) : bool :=
  negb (existsb (fun net => contains net v4) NON_GLOBAL_V4).

Definition is_global_ip (ip : IpAddr) : bool :=
  match ip with
  | IpV4 v4 => is_global_v4 v4
  | IpV6 v6 =>
      match to_ipv4_mapped v6 with
      | Some mapped => is_global_v4 mapped
      | None =>
          let s := segments v6 in
          if all_zero (take 4 s) && (seg s 4 =? 0xffff) && (seg s 5 =? 0)
          then is_global_v4 (embedded_v4 s)
          else if (seg s 0 =? 0x0064) && (seg s 1 =? 0xff9b) && all_zero (take 4 (drop 2 s))
          then is_global_v4 (embedded_v4 s)
          else if all_zero (take 6 s)
          then is_global_v4 (embedded_v4 s)
          else negb (existsb (fun net => contains net v6) NON_GLOBAL_V6)
      end
  end.

End Policy.

Definition unmap (ip : IpAddr) : IpAddr :=
  match ip with
  | IpV6 v => match to_ipv4_mapped v with Some o => IpV4 o | None => ip end
  | _ => ip
  end.

Definition map_for_dual (addr : SocketAddr) : SocketAddr :=
  match addr with
  | SockV4 ip port => sa_new (IpV6 (to_ipv6_mapped ip)) port
  | v6 => v6
  end.

(** The documented [contains], computed. *)
#[export] Instance prefix_agrees_dec net o : Decision (prefix_agrees net o).
Proof. unfold prefix_agrees. apply _. Defined.
Definition prefix_net : IpNet := {|
  contains net o := bool_decide (prefix_agrees net o);
  contains_spec net o _ _ _ _ := bool_decide_eq_true _
|}.

(* ------------------------------------------------------------------ *)
(** ** The IPv4 table *)

(** The special-purpose IPv4 space by octets, in the order of the table. *)
Definition special_v4 (a b c : Z) : bool :=
  (a =? 0) || ((a =? 10)
  || ((a =? 100) && between 64 b 127 || ((a =? 127)
  || ((a =? 169) && (b =? 254) || ((a =? 172) && between 16 b 31
  || ((a =? 192) && (b =? 0) && (c =? 0) || ((a =? 192) && (b =? 0) && (c =? 2)
  || ((a =? 192) && (b =? 88) && (c =? 99) || ((a =? 192) && (b =? 168)
  || ((a =? 192) && (b =? 175) && (c =? 48) || ((a =? 192) && (b =? 31) && (c =? 196)
  || ((a =? 192) && (b =? 52) && (c =? 193) || ((a =? 198) && between 18 b 19
  || ((a =? 198) && (b =? 51) && (c =? 100) || ((a =? 203) && (b =? 0) && (c =? 113)
  || (224 <=? a)))))))))))))))).

(** The special-purpose IPv6 space by leading segments. *)
Definition special_v6 (s0 s1 s2 : Z) : bool :=
  (s0 <=? 0x100) || between 0x200 s0 0x1fff
  || (s0 =? 0x2001) && ((s1 <=? 0x1ff) || (s1 =? 0xdb8)) || (s0 =? 0x2002)
  || (s0 =? 0x2620) && (s1 =? 0x4f) && (s2 =? 0x8000)
  || (s0 =? 0x3fff) && (s1 <=? 0xfff) || (s0 =? 0x5f00) || (0xfc00 <=? s0).

Lemma be16_fold v s r : is_u16 s ->
  fold_left (fun v b => v * 2 ^ 8 + b) (be16 s ++ r) v = fold_left (fun v b => v * 2 ^ 8 + b) r (v * 65536 + s).
Proof.
  intros Hs. unfold be16. cbn [app fold_left]. f_equal. unfold is_u16 in Hs.
  rewrite (Z.mod_small (s / 2 ^ 8)) by (split; [apply Z.div_pos|apply Z.div_lt_upper_bound]; lia).
  pose proof (Z_div_mod_eq_full s (2 ^ 8)). lia.
Qed.

Lemma of_be_v6 s0 s1 s2 s3 s4 s5 s6 s7 : Forall is_u16 [s0; s1; s2; s3; s4; s5; s6; s7] ->
  of_be (v6_new [s0; s1; s2; s3; s4; s5; s6; s7]) =
  ((((((s0 * 65536 + s1) * 65536 + s2) * 65536 + s3) * 65536 + s4) * 65536 + s5) * 65536 + s6) * 65536 + s7.
Proof.
  intros Hu. repeat (apply list.Forall_cons in Hu as [? Hu]). unfold of_be, v6_new. cbn [mbind list_bind].
  rewrite !be16_fold by done. done.
Qed.

Lemma v6_new_ok s : bytes_ok (v6_new s).
Proof. induction s as [|x s IH]; [constructor|]. cbn [v6_new mbind list_bind]. apply bytes_ok_app_2; [apply be16_ok|done]. Qed.

Section PolicyProofs.
Context `{IpNet}.

(** A network whose address has no host bits is a range of addresses. *)
Lemma contains_range (net : Net) (o : bytes) (n w : Z) :
  len o = len (net_addr net) -> bytes_ok o -> bytes_ok (net_addr net) ->
  0 <= prefix_len net <= 8 * len (net_addr net) -> w = 2 ^ (8 * len (net_addr net) - prefix_len net) ->
  n = of_be (net_addr net) -> n mod w = 0 ->
  contains net o = (n <=? of_be o) && (of_be o <? n + w).
Proof.
  intros Hl Ho Hn Hp Hw En Hm. apply eq_bool_prop_intro. rewrite !Is_true_true, contains_spec by done.
  unfold prefix_agrees. cbv zeta. rewrite <- Hw, <- En. assert (0 < w) by (rewrite Hw; apply Z.pow_pos_nonneg; lia).
  rewrite andb_true_iff, Z.leb_le, Z.ltb_lt. pose proof (Z_div_mod_eq_full n w). pose proof (Z_div_mod_eq_full (of_be o) w).
  pose proof (Z.mod_pos_bound (of_be o) w). split; [intros E|intros []; symmetry; apply Z.div_unique with (of_be o - n)]; nia.
Qed.

(** A network test of the table as a test on octets. *)
Lemma v4_test (a b c d n w : Z) (net : Net) (t : bool) : bytes_ok [a; b; c; d] ->
  (let v := ((a * 256 + b) * 256 + c) * 256 + d in (n <=? v) && (v <? n + w) = t) ->
  len (net_addr net) = 4 -> bytes_ok (net_addr net) -> 0 <= prefix_len net <= 32 ->
  w = 2 ^ (32 - prefix_len net) -> n = of_be (net_addr net) -> n mod w = 0 ->
  contains net [a; b; c; d] = t.
Proof.
  intros Ho Ht Hl Hn Hp Hw En Hm. rewrite (contains_range net [a; b; c; d] n w); try done; rewrite ?Hl; done.
Qed.

Ltac v4_net :=
  eapply v4_test; [done| |done|by apply bytes_ok_compute|done|vm_compute; reflexivity|vm_compute; reflexivity|done];
  unfold between; cbv zeta; lia.

Lemma global_v4 a b c d : bytes_ok [a; b; c; d] -> is_global_v4 [a; b; c; d] = negb (special_v4 a b c).
Proof.
  intros Ho. unfold is_global_v4. f_equal. unfold NON_GLOBAL_V4, special_v4. cbn [existsb].
  assert (Hu := Ho). repeat (apply bytes_ok_cons in Hu as [? Hu]). unfold is_u8, between in *.
  repeat (apply f_equal2; [v4_net|]). rewrite orb_false_r.
  transitivity (between 224 a 239 || between 240 a 255); [|unfold between; lia].
  apply f_equal2; v4_net.
Qed.

(* ------------------------------------------------------------------ *)
(** ** The IPv6 table *)

Lemma v6_test (s0 s1 s2 s3 s4 s5 s6 s7 n w : Z) (net : Net) (t : bool) :
  Forall is_u16 [s0; s1; s2; s3; s4; s5; s6; s7] ->
  (let v := ((((((s0 * 65536 + s1) * 65536 + s2) * 65536 + s3) * 65536 + s4) * 65536 + s5) * 65536 + s6) * 65536 + s7 in
   (n <=? v) && (v <? n + w) = t) ->
  len (net_addr net) = 16 -> bytes_ok (net_addr net) -> 0 <= prefix_len net <= 128 ->
  w = 2 ^ (128 - prefix_len net) -> n = of_be (net_addr net) -> n mod w = 0 ->
  contains net (v6_new [s0; s1; s2; s3; s4; s5; s6; s7]) = t.
Proof.
  intros Hs Ht Hl Hn Hp Hw En Hm. rewrite (contains_range net _ n w); try done; rewrite ?Hl; try done.
  - rewrite of_be_v6 by done. exact Ht.
  - apply v6_new_ok.
Qed.

Ltac v6_net :=
  eapply v6_test; [done| |done|by apply bytes_ok_compute|done|vm_compute; reflexivity|vm_compute; reflexivity|done];
  unfold between; cbv zeta; lia.

Lemma global_v6_table s0 s1 s2 s3 s4 s5 s6 s7 : Forall is_u16 [s0; s1; s2; s3; s4; s5; s6; s7] ->
  existsb (fun net => contains net (v6_new [s0; s1; s2; s3; s4; s5; s6; s7])) NON_GLOBAL_V6 = special_v6 s0 s1 s2.
Proof.
  intros Hs. assert (Hu := Hs). repeat (apply list.Forall_cons in Hu as [? Hu]). unfold is_u16 in *.
  transitivity (
    (s0 <=? 0xff) || ((s0 =? 0x100) || (between 0x200 s0 0x3ff || (between 0x400 s0 0x7ff
    || (between 0x800 s0 0xfff || (between 0x1000 s0 0x1fff || ((s0 =? 0x2001) && (s1 <=? 0x1ff)
    || ((s0 =? 0x2001) && (s1 =? 1) && (s2 =? 0) && (s3 =? 0) && (s4 =? 0) && (s5 =? 0) && (s6 =? 0) && (s7 =? 1)
    || ((s0 =? 0x2001) && (s1 =? 1) && (s2 =? 0) && (s3 =? 0) && (s4 =? 0) && (s5 =? 0) && (s6 =? 0) && (s7 =? 2)
    || ((s0 =? 0x2001) && (s1 =? 1) && (s2 =? 0) && (s3 =? 0) && (s4 =? 0) && (s5 =? 0) && (s6 =? 0) && (s7 =? 3)
    || ((s0 =? 0x2001) && (s1 =? 2) && (s2 =? 0) || ((s0 =? 0x2001) && (s1 =? 3)
    || ((s0 =? 0x2001) && (s1 =? 4) && (s2 =? 0x112) || ((s0 =? 0x2001) && between 0x10 s1 0x1f
    || ((s0 =? 0x2001) && between 0x20 s1 0x2f || ((s0 =? 0x2001) && between 0x30 s1 0x3f
    || ((s0 =? 0x2001) && (s1 =? 0xdb8) || ((s0 =? 0x2002)
    || ((s0 =? 0x2620) && (s1 =? 0x4f) && (s2 =? 0x8000) || ((s0 =? 0x3fff) && (s1 <=? 0xfff)
    || ((s0 =? 0x5f00) || ((s0 =? 0x64) && (s1 =? 0xff9b) || (between 0xfc00 s0 0xfdff
    || (between 0xfe00 s0 0xfe7f || (between 0xfe80 s0 0xfebf || (between 0xfec0 s0 0xfeff
    || ((0xff00 <=? s0) || false))))))))))))))))))))))))))).
  - unfold NON_GLOBAL_V6. cbn [existsb]. repeat (apply f_equal2; [v6_net|]). done.
  - unfold special_v6, between. apply eq_true_iff_eq. clear Hs Hu H3 H4 H5 H6 H7.
    rewrite !orb_true_iff, !andb_true_iff, !orb_true_iff, !Z.leb_le, !Z.eqb_eq. split.
    + intros Hc. repeat first [destruct Hc as [Hc|Hc]; [lia|]|discriminate Hc].
    + assert (C1 : s0 <= 0x100 -> s0 <= 0xff \/ s0 = 0x100) by lia.
      assert (C2 : 0x200 <= s0 <= 0x1fff ->
        0x200 <= s0 <= 0x3ff \/ 0x400 <= s0 <= 0x7ff \/ 0x800 <= s0 <= 0xfff \/ 0x1000 <= s0 <= 0x1fff) by lia.
      assert (C3 : 0xfc00 <= s0 -> 0xfc00 <= s0 <= 0xfdff \/ 0xfe00 <= s0 <= 0xfe7f \/ 0xfe80 <= s0 <= 0xfebf \/
        0xfec0 <= s0 <= 0xfeff \/ 0xff00 <= s0) by lia.
      intros Hc. repeat destruct Hc as [Hc|Hc]; [apply C1 in Hc|apply C2 in Hc|destruct Hc as [E [Hc|Hc]]; pose proof (conj E Hc) as Hc'; clear Hc; rename Hc' into Hc|..|apply C3 in Hc];
        repeat match type of Hc with _ \/ _ => destruct Hc as [Hc|Hc] end;
        repeat first [exact Hc|left; exact Hc|right].
Qed.

(* ------------------------------------------------------------------ *)
(** ** The verdict on every address *)

Lemma segments_new s : Forall is_u16 s -> segments (v6_new s) = s.
Proof.
  induction 1 as [|x s Hx _ IH]; [done|]. cbn [v6_new mbind list_bind]. unfold be16 at 1. cbn [app segments].
  rewrite of_be16_be16 by done. f_equal. exact IH.
Qed.

Lemma be16_inj a b : is_u16 a -> is_u16 b -> be16 a = be16 b -> a = b.
Proof.
  intros Ha Hb E. pose proof (of_be16_be16 a Ha) as Ea. pose proof (of_be16_be16 b Hb) as Eb.
  unfold be16 in E. injection E as E1 E2. by rewrite <- Ea, <- Eb, E1, E2.
Qed.

Lemma mapped_new s0 s1 s2 s3 s4 s5 s6 s7 : Forall is_u16 [s0; s1; s2; s3; s4; s5; s6; s7] ->
  to_ipv4_mapped (v6_new [s0; s1; s2; s3; s4; s5; s6; s7]) =
  if all_zero [s0; s1; s2; s3; s4] && (s5 =? 0xffff) then Some (be16 s6 ++ be16 s7) else None.
Proof.
  intros Hs. unfold to_ipv4_mapped. change (drop 12 _) with (be16 s6 ++ be16 s7).
  change (take 12 _) with (v6_new [s0; s1; s2; s3; s4; s5]).
  change mapped_prefix with (v6_new [0; 0; 0; 0; 0; 0xffff]).
  replace (bool_decide _) with (all_zero [s0; s1; s2; s3; s4] && (s5 =? 0xffff)); [done|].
  apply eq_true_iff_eq. rewrite bool_decide_eq_true. unfold all_zero. cbn [forallb].
  rewrite !andb_true_iff, !Z.eqb_eq. split.
  - intros [(-> & -> & -> & -> & -> & _) ->]. done.
  - intros E. apply (f_equal segments) in E. rewrite !segments_new in E.
    + injection E as -> -> -> -> -> ->. done.
    + repeat (apply list.Forall_cons_2; [unfold is_u16; lia|]). apply list.Forall_nil_2.
    + repeat (apply list.Forall_cons in Hs as [? Hs]). repeat (apply list.Forall_cons_2; [done|]). apply list.Forall_nil_2.
Qed.

Lemma embedded_eq s0 s1 s2 s3 s4 s5 s6 s7 : is_u16 s6 -> is_u16 s7 ->
  embedded_v4 [s0; s1; s2; s3; s4; s5; s6; s7] = be16 s6 ++ be16 s7.
Proof.
  intros H6 H7. unfold embedded_v4, seg. cbn [lookup list_lookup default]. unfold as_u8, be16.
  by rewrite !Z.shiftr_div_pow2 by lia.
Qed.

Lemma global_be16 s6 s7 : is_u16 s6 -> is_u16 s7 ->
  is_global_v4 (be16 s6 ++ be16 s7) = negb (special_v4 (s6 / 256) (s6 mod 256) (s7 / 256)).
Proof.
  intros H6 H7. unfold be16. cbn [app]. rewrite global_v4.
  - unfold is_u16 in *. rewrite !(Z.mod_small (_ / _)) by (split; [apply Z.div_pos|apply Z.div_lt_upper_bound]; lia). done.
  - apply (bytes_ok_app_2 (be16 s6) (be16 s7)); apply be16_ok.
Qed.

(** The forms that carry an IPv4 address: mapped, translated, NAT64, compatible. *)
Definition embeds_v4 (s0 s1 s2 s3 s4 s5 : Z) : bool :=
  all_zero [s0; s1; s2; s3; s4] && (s5 =? 0xffff)
  || all_zero [s0; s1; s2; s3] && (s4 =? 0xffff) && (s5 =? 0)
  || (s0 =? 0x64) && (s1 =? 0xff9b) && all_zero [s2; s3; s4; s5]
  || all_zero [s0; s1; s2; s3; s4; s5].

(** C33: the address policy, by octets and segments.  An IPv4 address is global
    unless it lies in the listed special-purpose space.  An IPv6 address of one
    of the four forms that carry an IPv4 address has the verdict of that
    address, whatever the IPv6 table says, and any other IPv6 address is global
    unless its leading segments lie in the listed IPv6 space; in particular
    [0101::/16] to [01ff::/16] are global. *)
Theorem is_global_exact :
  (forall a b c d, bytes_ok [a; b; c; d] -> is_global_ip (IpV4 [a; b; c; d]) = negb (special_v4 a b c)) /\
  (forall s0 s1 s2 s3 s4 s5 s6 s7, Forall is_u16 [s0; s1; s2; s3; s4; s5; s6; s7] ->
     is_global_ip (IpV6 (v6_new [s0; s1; s2; s3; s4; s5; s6; s7])) =
     if embeds_v4 s0 s1 s2 s3 s4 s5
     then negb (special_v4 (s6 / 256) (s6 mod 256) (s7 / 256))
     else negb (special_v6 s0 s1 s2)).
Proof.
  split; [intros; by apply global_v4|].
  intros s0 s1 s2 s3 s4 s5 s6 s7 Hs. unfold is_global_ip. rewrite mapped_new, segments_new by done.
  assert (Hu := Hs). repeat (apply list.Forall_cons in Hu as [? Hu]).
  rewrite embedded_eq, global_v6_table by done. unfold embeds_v4, seg.
  cbn [lookup list_lookup default take drop id].
  destruct (_ && (s5 =? 0xffff)); [by rewrite global_be16|]. cbn [orb].
  destruct (_ && (s5 =? 0)); [by rewrite global_be16|]. cbn [orb].
  destruct (_ && all_zero [s2; s3; s4; s5]); [by rewrite global_be16|]. cbn [orb].
  destruct (all_zero _); [by rewrite global_be16|done].
Qed.

(** Mapping an address for a dual-stack socket and unmapping it is the
    identity on addresses that are not already mapped, keeps the port, leaves
    an IPv6 address alone, and never changes the policy's verdict. *)
Theorem dual_map_roundtrip (a : SocketAddr) : ip_ok (sa_ip a) ->
  unmap (sa_ip (map_for_dual a)) = unmap (sa_ip a) /\
  (match a with SockV4 ip _ => unmap (sa_ip a) = IpV4 ip | SockV6 _ _ _ _ => map_for_dual a = a end) /\
  sa_port (map_for_dual a) = sa_port a /\
  is_global_ip (sa_ip (map_for_dual a)) = is_global_ip (sa_ip a) /\
  is_global_ip (unmap (sa_ip a)) = is_global_ip (sa_ip a).
Proof.
  assert (Hm : forall o, to_ipv4_mapped (to_ipv6_mapped o) = Some o).
  { intros o. unfold to_ipv4_mapped, to_ipv6_mapped. by rewrite take_app_length', drop_app_length', bool_decide_eq_true_2. }
  destruct a as [ip p|ip p f sc]; cbn [map_for_dual sa_new sa_ip sa_port unmap is_global_ip ip_ok].
  - rewrite Hm. done.
  - intros _. destruct (to_ipv4_mapped ip) eqn:E; [done|]. cbn [is_global_ip]. rewrite E. done.
Qed.

End PolicyProofs.

Lemma is_global_exact_witness :
  @is_global_ip prefix_net (IpV4 [100; 64; 0; 1]) = false /\
  @is_global_ip prefix_net (IpV6 (v6_new [0x64; 0xff9b; 0; 0; 0; 0; 0x0a00; 1])) = false /\
  @is_global_ip prefix_net (IpV6 (v6_new [0x0101; 0; 0; 0; 0; 0; 0; 1])) = true.
Proof.
  destruct (@is_global_exact prefix_net) as [H4 H6]. rewrite H4, !H6; [vm_compute; auto|..].
  1, 2: repeat (apply list.Forall_cons_2; [unfold is_u16; lia|]); apply list.Forall_nil_2.
  by apply bytes_ok_compute.
Defined.

Lemma dual_map_roundtrip_witness :
  unmap (sa_ip (map_for_dual (SockV4 [10; 0; 0; 1] 53))) = unmap (IpV4 [10; 0; 0; 1]) /\
  @is_global_ip prefix_net (sa_ip (map_for_dual (SockV4 [10; 0; 0; 1] 53))) = @is_global_ip prefix_net (IpV4 [10; 0; 0; 1]).
Proof.
  destruct (@dual_map_roundtrip prefix_net (SockV4 [10; 0; 0; 1] 53)) as (H1 & _ & _ & H2 & _).
  - split; [done|by apply bytes_ok_compute].
  - split; [exact H1|exact H2].
Defined.
