(* ===== verification/DnsMemo.v ===== *)
(** The per-thread DNS memo ([src/dns/memo.rs]), its clocks ([src/time]) and the
    synchronous lookup on it ([lookup_cached_fast_with_ttl] of
    [src/dns/resolve.rs]).

    One thread's memo is a value; the process-wide epoch and the clocks are
    arguments, read where the source reads them, so that other threads may move
    them between two reads. *)
From S2P Require Import Prelude Addr DnsKey DnsPolicy.

(* ------------------------------------------------------------------ *)
(** ** Clocks *)

(** A reading of the clock in nanoseconds: the live instant, and the sample that
    quanta's upkeep thread last published. *)
Record Clock : Type := mkClock { ck_now : Z; ck_recent : Z }.

Definition UPKEEP_INTERVAL_MS : Z := 1000.
Definition ms (n : Z) : Z := n * 10 ^ 6.

(** [millis_at]: milliseconds since the first reading, here instant 0. *)
Definition millis_at (at_ : Z) : Z := as_u64 (saturating_sub at_ 0 / 10 ^ 6).
Definition mono_millis (c : Clock) : Z := millis_at (ck_now c).
Definition coarse_millis (c : Clock) : Z := millis_at (ck_recent c).

(** What the upkeep thread promises: the sample is at most one interval behind
    the live clock and never ahead of it.  Times stay below [2^63] ns. *)
Definition clock_ok (c : Clock) : Prop :=
  0 <= ck_recent c /\ ck_recent c <= ck_now c <= ck_recent c + ms UPKEEP_INTERVAL_MS /\ ck_now c < 2 ^ 63.

(* ------------------------------------------------------------------ *)
(** ** Slots *)

Definition MEMO_KEY_BYTES : Z := 255 + 1 + 5.
Definition MEMO_SETS : Z := 64.
Definition MEMO_WAYS : Z := 2.

Record DnsMemoSlot : Type := mkSlot {
  sl_hash : Z;
  sl_empty : bool;
  sl_addr : option SocketAddr;
  sl_len : Z;
  sl_key : bytes;
  sl_expires_ms : Z;
  sl_neg_epoch : Z
}.

Definition EMPTY : DnsMemoSlot := mkSlot 0 true None 0 (repeat 0 (Z.to_nat MEMO_KEY_BYTES)) 0 0.

(** [coarse_deadline]: the deadline in the coarse epoch. *)
Definition coarse_deadline (c : Clock) (expires : Z) : Z :=
  let remain_ms := as_u64 (saturating_sub expires (ck_now c) / 10 ^ 6) in
  Z.min (coarse_millis c + remain_ms) (2 ^ 64 - 1).

(** [DnsMemoSlot::new]. *)
Definition slot_new (c : Clock) (key : bytes) (hash : Z) (addr : option SocketAddr) (expires neg_epoch : Z)
    : option DnsMemoSlot :=
  if MEMO_KEY_BYTES <? len key then None
  else Some (mkSlot hash false addr (as_u16 (len key)) (key ++ drop (length key) (sl_key EMPTY))
               (coarse_deadline c expires) (match addr with None => neg_epoch | Some _ => 0 end)).

(** [DnsMemoSlot::matches]. *)
Definition matches (s : DnsMemoSlot) (hash : Z) (key : bytes) : bool :=
  negb (sl_empty s) && (sl_hash s =? hash) && (sl_len s =? len key)
  && bool_decide (take (Z.to_nat (sl_len s)) (sl_key s) = key).

(* ------------------------------------------------------------------ *)
(** ** The hash *)

Definition wrapping_mul (a b : Z) : Z := as_u64 (a * b).

(** [u64::from_le_bytes]. *)
Fixpoint of_le (b : bytes) : Z := match b with [] => 0 | x :: b => x + 2 ^ 8 * of_le b end.

Definition HASH_K : Z := 0x9e3779b97f4a7c15.

(** [bytes.as_chunks::<8>()] with the loop over the chunks; the remainder is
    what is left when fewer than eight bytes are. *)
Fixpoint hash_chunks (b : bytes) (h : Z) : bytes * Z :=
  match b with
  | b0 :: b1 :: b2 :: b3 :: b4 :: b5 :: b6 :: b7 :: r =>
      hash_chunks r (wrapping_mul (Z.lxor h (of_le [b0; b1; b2; b3; b4; b5; b6; b7])) HASH_K)
  | rem => (rem, h)
  end.

Definition hash_finish (h : Z) : Z :=
  let h := Z.lxor h (Z.shiftr h 30) in
  let h := wrapping_mul h 0xbf58476d1ce4e5b9 in
  let h := Z.lxor h (Z.shiftr h 27) in
  let h := wrapping_mul h 0x94d049bb133111eb in
  Z.lxor h (Z.shiftr h 31).

Definition dns_memo_hash (key : bytes) : Z :=
  let h := wrapping_mul (as_u64 (len key)) HASH_K in
  let '(rem, h) := hash_chunks key h in
  let h :=
    match rem with
    | [] => h
    | _ =>
        let tail := rem ++ drop (length rem) (repeat 0 8) in
        wrapping_mul (Z.lxor h (of_le tail)) HASH_K
    end in
  hash_finish h.

Definition dns_memo_set (hash : Z) : Z := Z.land hash (MEMO_SETS - 1).

(* ------------------------------------------------------------------ *)
(** ** The table *)

(** [[[DnsMemoSlot; MEMO_WAYS]; MEMO_SETS]]. *)
Abbreviation Memo := (list (DnsMemoSlot * DnsMemoSlot)).

Definition memo_init : Memo := repeat (EMPTY, EMPTY) (Z.to_nat MEMO_SETS).

Record MemoHit : Type := mkHit { mh_addr : option SocketAddr; mh_expires_ms : Z; mh_neg_epoch : Z }.

Definition hit_of (s : DnsMemoSlot) : MemoHit := mkHit (sl_addr s) (sl_expires_ms s) (sl_neg_epoch s).

Definition split_hit (s : DnsMemoSlot) : option MemoHit * option MemoHit :=
  match sl_addr s with
  | None => (None, Some (hit_of s))
  | Some _ => (Some (hit_of s), None)
  end.

Definition memo_peek_both (m : Memo) (key : bytes) : res unit (option MemoHit * option MemoHit) :=
  let hash := dns_memo_hash key in
  let set := dns_memo_set hash in
  let! ways := idx m set in
  Ok (if matches ways.1 hash key then split_hit ways.1
      else if matches ways.2 hash key then split_hit ways.2
      else (None, None)).

(** [memo_store]; [epoch_now] is the epoch when the guard reads it. *)
Definition memo_store (c : Clock) (epoch_now : Z) (m : Memo) (key : bytes) (addr : option SocketAddr)
    (expires epoch : Z) (epoch_guard : option Z) : res unit (Memo * bool) :=
  let hash := dns_memo_hash key in
  let set := dns_memo_set hash in
  match slot_new c key hash addr expires epoch with
  | None => Ok (m, false)
  | Some slot =>
      if match epoch_guard with Some expected => negb (epoch_now =? expected) | None => false end
      then Ok (m, false)
      else
        let! ways := idx m set in
        let ways :=
          if matches ways.1 hash key then (slot, ways.2)
          else if matches ways.2 hash key then (slot, ways.1)
          else (slot, ways.1) in
        Ok (<[Z.to_nat set := ways]> m, true)
  end.

(** [memo_put]; [epoch] is the epoch it samples for a negative write. *)
Definition memo_put (c : Clock) (epoch : Z) (m : Memo) (key : bytes) (addr : option SocketAddr) (expires : Z)
    : res unit Memo :=
  let epoch := match addr with None => epoch | Some _ => 0 end in
  let! '(m, _) := memo_store c 0 m key addr expires epoch None in
  Ok m.

(** [memo_put_with_epoch]; the epoch is read before the call of [memo_store] and
    again inside it. *)
Definition memo_put_with_epoch (c : Clock) (epoch1 epoch2 : Z) (m : Memo) (key : bytes) (addr : option SocketAddr)
    (expires expected_epoch : Z) : res unit (Memo * bool) :=
  match addr with
  | Some _ => memo_store c epoch2 m key addr expires 0 None
  | None =>
      if negb (epoch1 =? expected_epoch) then Ok (m, false)
      else memo_store c epoch2 m key addr expires expected_epoch (Some expected_epoch)
  end.

(** [NEG_EPOCH.fetch_add(1)]. *)
Definition bump_neg_epoch (epoch : Z) : Z := as_u64 (epoch + 1).

(* ------------------------------------------------------------------ *)
(** ** The synchronous lookup *)

Inductive CachedLookup : Type :=
| LAddr (a : SocketAddr)
| LNegative
| LUnknown.

Definition lookup_cached_fast_with_ttl (c : Clock) (epoch : Z) (m : Memo) (host : bytes) (port : Z)
    : res unit (CachedLookup * Z) :=
  let! key := memo_key_of host port in
  let! '(pos, neg) := memo_peek_both m key in
  match pos, neg with
  | None, None => Ok (LUnknown, 0)
  | _, _ =>
      let now := coarse_millis c in
      let negative :=
        match neg with
        | Some h =>
            if (now <? mh_expires_ms h) && (mh_neg_epoch h =? epoch) then Ok (LNegative, 0) else Ok (LUnknown, 0)
        | None => Ok (LUnknown, 0)
        end in
      match pos with
      | Some h =>
          if now <? mh_expires_ms h
          then Ok (match mh_addr h with Some a => (LAddr a, mh_expires_ms h - now) | None => (LUnknown, 0) end)
          else negative
      | None => negative
      end
  end.
Definition lookup_cached_fast (c : Clock) (epoch : Z) (m : Memo) (host : bytes) (port : Z) : res unit CachedLookup :=
  let! '(r, _) := lookup_cached_fast_with_ttl c epoch m host port in Ok r.
Definition lookup_cached_sync (c : Clock) (epoch : Z) (m : Memo) (host : bytes) (port : Z) : res unit (option SocketAddr) :=
  let! r := lookup_cached_fast c epoch m host port in
  Ok (match r with LAddr a => Some a | _ => None end).

(* ------------------------------------------------------------------ *)
(** ** The hash is a 64-bit number and its finalizer merges nothing *)

Lemma u64_bits n : is_u64 n <-> (0 <= n /\ n = n mod 2 ^ 64).
Proof.
  unfold is_u64. split; [intros H; split; [lia|symmetry; by apply Z.mod_small]|].
  intros [H ->]. apply Z.mod_pos_bound. lia.
Qed.

Lemma lxor_u64 a b : is_u64 a -> is_u64 b -> is_u64 (Z.lxor a b).
Proof.
  intros Ha Hb. apply u64_bits. split; [apply Z.lxor_nonneg; unfold is_u64 in *; lia|].
  apply u64_bits in Ha as [_ Ha], Hb as [_ Hb].
  rewrite <- Z.land_ones in * by lia. apply Z.bits_inj'. intros n Hn.
  rewrite Z.land_spec, Z.lxor_spec. rewrite Ha, Hb, !Z.land_spec.
  by destruct (Z.testbit a n), (Z.testbit b n), (Z.testbit (Z.ones 64) n).
Qed.

Lemma shiftr_u64 a k : 0 <= k -> is_u64 a -> is_u64 (Z.shiftr a k).
Proof.
  intros Hk [Ha Ha']. rewrite Z.shiftr_div_pow2 by done.
  assert (0 < 2 ^ k) by (apply Z.pow_pos_nonneg; lia).
  split; [by apply Z.div_pos|]. eapply Z.le_lt_trans; [|exact Ha']. apply Z.div_le_upper_bound; nia.
Qed.

Lemma xorshift_u64 a k : 0 <= k -> is_u64 a -> is_u64 (Z.lxor a (Z.shiftr a k)).
Proof. intros. apply lxor_u64; [done|by apply shiftr_u64]. Qed.

Lemma hash_finish_u64 h : is_u64 (hash_finish h).
Proof. unfold hash_finish. apply xorshift_u64; [lia|apply as_u64_u64]. Qed.

Lemma dns_memo_hash_u64 key : is_u64 (dns_memo_hash key).
Proof. unfold dns_memo_hash. destruct (hash_chunks _ _). apply hash_finish_u64. Qed.

Lemma memo_set_mod h : dns_memo_set h = h mod 64.
Proof. unfold dns_memo_set, MEMO_SETS. change (64 - 1) with (Z.ones 6). by rewrite Z.land_ones. Qed.

Lemma memo_set_bound h : 0 <= dns_memo_set h < 64.
Proof. rewrite memo_set_mod. by apply Z.mod_pos_bound. Qed.

(** A xor-shift loses no bit: equal results have a difference that equals its own shift. *)
Lemma xorshift_inj k a b : 0 < k -> is_u64 a -> is_u64 b ->
  Z.lxor a (Z.shiftr a k) = Z.lxor b (Z.shiftr b k) -> a = b.
Proof.
  intros Hk Ha Hb E. set (d := Z.lxor a b).
  assert (Hd : is_u64 d) by by apply lxor_u64.
  assert (Es : d = Z.shiftr d k).
  { unfold d. rewrite Z.shiftr_lxor. apply Z.bits_inj'. intros n Hn.
    apply (f_equal (fun z => Z.testbit z n)) in E. rewrite !Z.lxor_spec in *.
    destruct (Z.testbit a n), (Z.testbit b n), (Z.testbit (Z.shiftr a k) n), (Z.testbit (Z.shiftr b k) n); done. }
  rewrite Z.shiftr_div_pow2 in Es by lia. unfold is_u64 in Hd.
  assert (2 <= 2 ^ k) by (change 2 with (2 ^ 1) at 1; apply Z.pow_le_mono_r; lia).
  assert (d = 0). { pose proof (Z.div_lt d (2 ^ k)). destruct (Z.eq_dec d 0); [done|lia]. }
  by apply Z.lxor_eq.
Qed.

(** Multiplying by an odd constant is undone by its inverse. *)
Lemma wrapping_mul_inj m mi a b : m * mi mod 2 ^ 64 = 1 -> is_u64 a -> is_u64 b ->
  wrapping_mul a m = wrapping_mul b m -> a = b.
Proof.
  intros Hm Ha Hb E. unfold wrapping_mul, as_u64 in E.
  assert (Hinv : forall x, is_u64 x -> (x * m mod 2 ^ 64) * mi mod 2 ^ 64 = x).
  { intros x Hx. rewrite Z.mul_mod_idemp_l by lia. replace (x * m * mi) with (x * (m * mi)) by ring.
    rewrite <- Z.mul_mod_idemp_r, Hm, Z.mul_1_r by lia. by apply Z.mod_small. }
  rewrite <- (Hinv a), <- (Hinv b), E by done. done.
Qed.

Lemma hash_finish_inj a b : is_u64 a -> is_u64 b -> hash_finish a = hash_finish b -> a = b.
Proof.
  intros Ha Hb E. unfold hash_finish in E.
  apply xorshift_inj in E; [|lia|apply as_u64_u64..].
  apply (wrapping_mul_inj _ 0x319642b2d24d8ec3) in E; [|reflexivity|apply xorshift_u64; [lia|apply as_u64_u64]..].
  apply xorshift_inj in E; [|lia|apply as_u64_u64..].
  apply (wrapping_mul_inj _ 0x96de1b173f119089) in E; [|reflexivity|by apply xorshift_u64..].
  apply xorshift_inj in E; done.
Qed.

(* ------------------------------------------------------------------ *)
(** ** Well-formed tables *)

Definition slot_key (s : DnsMemoSlot) : bytes := take (Z.to_nat (sl_len s)) (sl_key s).

(** A slot of set [i] has its field widths; a live one carries the hash of its
    key, sits in the set of that hash, and only a negative one has an epoch. *)
Definition slot_ok (i : nat) (s : DnsMemoSlot) : Prop :=
  len (sl_key s) = MEMO_KEY_BYTES /\ 0 <= sl_len s <= MEMO_KEY_BYTES /\
  is_u64 (sl_hash s) /\ is_u64 (sl_expires_ms s) /\
  (sl_empty s = false -> sl_hash s = dns_memo_hash (slot_key s) /\ dns_memo_set (sl_hash s) = Z.of_nat i /\
     (sl_addr s <> None -> sl_neg_epoch s = 0)).

Definition ways_ok (i : nat) (w : DnsMemoSlot * DnsMemoSlot) : Prop :=
  slot_ok i w.1 /\ slot_ok i w.2 /\
  (sl_empty w.1 = false -> sl_empty w.2 = false -> slot_key w.1 <> slot_key w.2).

Definition memo_wf (m : Memo) : Prop :=
  length m = Z.to_nat MEMO_SETS /\ forall i w, m !! i = Some w -> ways_ok i w.

Definition live_key (s : DnsMemoSlot) (key : bytes) : Prop := sl_empty s = false /\ slot_key s = key.

Lemma len_slot_key i s : slot_ok i s -> len (slot_key s) = sl_len s.
Proof. intros (H1 & H2 & _). unfold slot_key, len in *. rewrite length_take. lia. Qed.

(** Under the invariant a match is a match of the key: the hash decides nothing. *)
Lemma matches_spec i s key : slot_ok i s ->
  matches s (dns_memo_hash key) key = true <-> live_key s key.
Proof.
  intros Hs. assert (Hl := len_slot_key i s Hs). destruct Hs as (_ & _ & _ & _ & Hs).
  unfold matches, live_key. fold (slot_key s).
  rewrite !andb_true_iff, negb_true_iff, bool_decide_eq_true, !Z.eqb_eq. split; [tauto|].
  intros [He <-]. destruct (Hs He) as (Hh & _). repeat split; [done|done|lia].
Qed.

Lemma matches_false i s key : slot_ok i s -> ~ live_key s key ->
  matches s (dns_memo_hash key) key = false.
Proof. intros Hs Hn. apply not_true_iff_false. by rewrite (matches_spec i). Qed.

Lemma EMPTY_ok i : slot_ok i EMPTY.
Proof. repeat split; try discriminate; vm_compute; congruence. Qed.

Lemma memo_init_wf : memo_wf memo_init.
Proof.
  split; [unfold memo_init; by rewrite List.repeat_length|]. intros i w Hw. apply list_elem_of_lookup_2, list_elem_of_In, repeat_spec in Hw as ->.
  split; [apply EMPTY_ok|]. split; [apply EMPTY_ok|]. discriminate.
Qed.

Definition set_of (key : bytes) : nat := Z.to_nat (dns_memo_set (dns_memo_hash key)).

Lemma memo_idx {E} m key : memo_wf m -> exists w, m !! set_of key = Some w /\
  @idx E _ m (dns_memo_set (dns_memo_hash key)) = Ok w /\ ways_ok (set_of key) w.
Proof.
  intros [Hl Hw]. pose proof (memo_set_bound (dns_memo_hash key)) as Hb.
  destruct (lookup_lt_is_Some_2 m (set_of key)) as [w Ew].
  { rewrite Hl. unfold set_of, MEMO_SETS. lia. }
  exists w. split; [done|]. split; [|by apply Hw]. unfold idx, get. fold (set_of key). by rewrite Ew.
Qed.

(** What the table holds for a key. *)
Definition memo_get (m : Memo) (key : bytes) : option MemoHit :=
  w ← m !! set_of key;
  if matches w.1 (dns_memo_hash key) key then Some (hit_of w.1)
  else if matches w.2 (dns_memo_hash key) key then Some (hit_of w.2)
  else None.

Definition split_opt (h : option MemoHit) : option MemoHit * option MemoHit :=
  match h with
  | None => (None, None)
  | Some h => match mh_addr h with None => (None, Some h) | Some _ => (Some h, None) end
  end.

Lemma memo_peek_get m key : memo_wf m -> memo_peek_both m key = Ok (split_opt (memo_get m key)).
Proof.
  intros Hm. destruct (@memo_idx unit m key Hm) as (w & Ew & Ei & _). unfold memo_peek_both, memo_get.
  rewrite Ei, Ew. cbn [res_bind mbind option_bind].
  repeat case_match; cbn [split_opt]; unfold split_hit, hit_of; cbn; done.
Qed.

(* ------------------------------------------------------------------ *)
(** ** One write *)

Definition fits (key : bytes) : bool := len key <=? MEMO_KEY_BYTES.

Definition new_hit (c : Clock) (addr : option SocketAddr) (expires epoch : Z) : MemoHit :=
  mkHit addr (coarse_deadline c expires) (match addr with None => epoch | Some _ => 0 end).

Lemma coarse_deadline_u64 c expires : is_u64 (coarse_deadline c expires).
Proof.
  unfold coarse_deadline, coarse_millis, millis_at.
  pose proof (as_u64_u64 (saturating_sub expires (ck_now c) / 10 ^ 6)).
  pose proof (as_u64_u64 (saturating_sub (ck_recent c) 0 / 10 ^ 6)). unfold is_u64 in *. lia.
Qed.

Lemma slot_new_spec c key addr expires epoch : fits key = true ->
  exists s, slot_new c key (dns_memo_hash key) addr expires epoch = Some s /\
    slot_ok (set_of key) s /\ live_key s key /\ hit_of s = new_hit c addr expires epoch.
Proof.
  intros Hf. unfold fits in Hf. unfold slot_new. replace (_ <? _) with false by lia. eexists; split; [done|].
  pose proof (len_nonneg key) as Hn. zbool.
  assert (El : as_u16 (len key) = len key) by (apply Z.mod_small; unfold MEMO_KEY_BYTES in *; lia).
  assert (Ek : forall r, take (Z.to_nat (as_u16 (len key))) (key ++ r) = key)
    by (intros r; by rewrite El, len_to_nat, take_app_length).
  unfold slot_ok, live_key, slot_key, hit_of, new_hit. cbn [sl_key sl_len sl_hash sl_expires_ms sl_empty sl_addr sl_neg_epoch].
  rewrite Ek, El. repeat split; try done; try lia.
  - unfold len in *. rewrite length_app, length_drop. change (length (sl_key EMPTY)) with 261%nat. unfold MEMO_KEY_BYTES in *. lia.
  - apply dns_memo_hash_u64.
  - apply dns_memo_hash_u64.
  - apply coarse_deadline_u64.
  - apply coarse_deadline_u64.
  - unfold set_of. pose proof (memo_set_bound (dns_memo_hash key)). lia.
  - by destruct addr.
Qed.

Lemma slot_new_long c key hash addr expires epoch : fits key = false -> slot_new c key hash addr expires epoch = None.
Proof. unfold fits, slot_new. intros. by replace (_ <? _) with true by lia. Qed.

(** The ways of a set after the write of [s]. *)
Definition put_ways (s : DnsMemoSlot) (hash : Z) (key : bytes) (w : DnsMemoSlot * DnsMemoSlot) :=
  if matches w.1 hash key then (s, w.2) else if matches w.2 hash key then (s, w.1) else (s, w.1).

Lemma put_ways_ok i s key w : slot_ok i s -> live_key s key -> ways_ok i w ->
  ways_ok i (put_ways s (dns_memo_hash key) key w).
Proof.
  intros Hs [_ Hk] (H1 & H2 & Hd). unfold put_ways. destruct (matches w.1 _ key) eqn:E.
  - apply (matches_spec i) in E as [He Ek]; [|done]. split; [done|]. split; [done|]. cbn. intros _ E2.
    rewrite Hk, <- Ek. by apply Hd.
  - assert (Hn : ways_ok i (s, w.1)).
    { split; [done|]. split; [done|]. cbn. intros _ E1 Ek. rewrite Hk in Ek.
      apply not_true_iff_false in E. apply E, (matches_spec i); done. }
    by destruct (matches w.2 _ key).
Qed.

Lemma store_get m key s w : memo_wf m -> m !! set_of key = Some w -> slot_ok (set_of key) s -> live_key s key ->
  let m' := <[set_of key := put_ways s (dns_memo_hash key) key w]> m in
  memo_wf m' /\ memo_get m' key = Some (hit_of s) /\
  forall k, k <> key -> memo_get m' k = memo_get m k \/ (memo_get m' k = None /\ set_of k = set_of key).
Proof.
  intros [Hl Hw] Ew Hs Hk m'. assert (Hi : (set_of key < length m)%nat) by by eapply lookup_lt_Some.
  assert (Ho := Hw _ _ Ew). assert (Hp := put_ways_ok _ _ _ _ Hs Hk Ho).
  split; [|split].
  - split; [unfold m'; by rewrite length_insert|]. intros i w' Hi'. unfold m' in Hi'.
    apply list_lookup_insert_Some in Hi' as [(E & <- & _)|[_ Hi']]; [by subst i|by apply Hw].
  - unfold memo_get, m'. rewrite list_lookup_insert_eq by done. cbn [mbind option_bind].
    assert (E1 : (put_ways s (dns_memo_hash key) key w).1 = s) by (unfold put_ways; by repeat case_match).
    rewrite E1. by rewrite (proj2 (matches_spec _ s key Hs) Hk).
  - intros k Hne. unfold memo_get, m'. destruct (decide (set_of k = set_of key)) as [E|E].
    2: { left. by rewrite list_lookup_insert_ne. }
    rewrite E, list_lookup_insert_eq, Ew by done. cbn [mbind option_bind].
    destruct Ho as (O1 & O2 & Hd). unfold put_ways.
    assert (Hsk : matches s (dns_memo_hash k) k = false).
    { apply (matches_false (set_of key)); [done|]. intros [_ E']. destruct Hk as [_ Hk]. congruence. }
    destruct (matches w.1 (dns_memo_hash key) key) eqn:M1.
    + cbn [fst snd]. rewrite Hsk. apply (matches_spec _ _ _ O1) in M1 as [_ M1].
      rewrite (matches_false (set_of key) w.1 k) by (done || by intros [_ ?]; congruence). by left.
    + assert (E2 : (if matches w.2 (dns_memo_hash key) key then (s, w.1) else (s, w.1)) = (s, w.1)) by by case_match.
      rewrite E2. cbn [fst snd]. rewrite Hsk. destruct (matches w.1 (dns_memo_hash k) k) eqn:M1'; [by left|].
      destruct (matches w.2 (dns_memo_hash k) k) eqn:M2'; [by right|by left].
Qed.

Definition guard_passes (epoch_now : Z) (g : option Z) : bool :=
  match g with Some e => epoch_now =? e | None => true end.

(** [m'] is [m] with [h] written under [key]: other keys keep what they had or,
    in the same set, are forgotten. *)
Definition written (m m' : Memo) (key : bytes) (h : MemoHit) : Prop :=
  memo_wf m' /\ memo_get m' key = Some h /\
  forall k, k <> key -> memo_get m' k = memo_get m k \/ (memo_get m' k = None /\ set_of k = set_of key).

Lemma memo_store_spec c e m key addr expires epoch g : memo_wf m ->
  if fits key && guard_passes e g
  then exists m', memo_store c e m key addr expires epoch g = Ok (m', true) /\ written m m' key (new_hit c addr expires epoch)
  else memo_store c e m key addr expires epoch g = Ok (m, false).
Proof.
  intros Hm. unfold memo_store.
  destruct (fits key) eqn:Hf; [|by rewrite slot_new_long]. cbn [andb].
  destruct (slot_new_spec c key addr expires epoch Hf) as (s & -> & Hs & Hk & Hh).
  replace (match g with Some e' => negb (e =? e') | None => false end) with (negb (guard_passes e g)) by by destruct g.
  destruct (guard_passes e g); cbn [negb]; [|done].
  destruct (@memo_idx unit m key Hm) as (w & Ew & -> & _). cbn [res_bind]. eexists; split; [done|].
  rewrite <- Hh. apply (store_get m key s w Hm Ew Hs Hk).
Qed.

(* ------------------------------------------------------------------ *)
(** ** Runs of writes *)

Inductive MemoOp : Type :=
| MPut (c : Clock) (epoch : Z) (key : bytes) (addr : option SocketAddr) (expires : Z)
| MPutEpoch (c : Clock) (epoch1 epoch2 : Z) (key : bytes) (addr : option SocketAddr) (expires expected : Z).

Definition run_op (m : Memo) (op : MemoOp) : res unit Memo :=
  match op with
  | MPut c e key addr expires => memo_put c e m key addr expires
  | MPutEpoch c e1 e2 key addr expires expected =>
      let! '(m, _) := memo_put_with_epoch c e1 e2 m key addr expires expected in Ok m
  end.

Fixpoint run_ops (m : Memo) (ops : list MemoOp) : res unit Memo :=
  match ops with
  | [] => Ok m
  | op :: ops => let! m := run_op m op in run_ops m ops
  end.

Definition op_key (op : MemoOp) : bytes :=
  match op with MPut _ _ key _ _ => key | MPutEpoch _ _ _ key _ _ _ => key end.

(** What the memo promises of a write: a key of at most 261 bytes is stored,
    except a fenced negative one whose epoch has moved. *)
Definition op_accepted (op : MemoOp) : bool :=
  match op with
  | MPut _ _ key _ _ => fits key
  | MPutEpoch _ e1 e2 key None _ expected => fits key && (e1 =? expected) && (e2 =? expected)
  | MPutEpoch _ _ _ key (Some _) _ _ => fits key
  end.

Definition op_hit (op : MemoOp) : MemoHit :=
  match op with
  | MPut c e _ addr expires => new_hit c addr expires e
  | MPutEpoch c _ _ _ addr expires expected => new_hit c addr expires expected
  end.

Lemma run_op_spec m op : memo_wf m ->
  exists m', run_op m op = Ok m' /\ if op_accepted op then written m m' (op_key op) (op_hit op) else m' = m.
Proof.
  intros Hm. destruct op as [c e key addr expires|c e1 e2 key addr expires ex]; cbn [run_op op_key op_hit op_accepted].
  - unfold memo_put. pose proof (memo_store_spec c 0 m key addr expires (match addr with None => e | Some _ => 0 end) None Hm) as H.
    cbn [guard_passes] in H. rewrite andb_true_r in H. destruct (fits key).
    + destruct H as (m' & -> & Hw). exists m'. split; [done|]. by destruct addr.
    + rewrite H. by exists m.
  - unfold memo_put_with_epoch. destruct addr as [a|].
    + pose proof (memo_store_spec c e2 m key (Some a) expires 0 None Hm) as H.
      cbn [guard_passes] in H. rewrite andb_true_r in H. destruct (fits key).
      * destruct H as (m' & -> & Hw). by exists m'.
      * rewrite H. by exists m.
    + destruct (e1 =? ex) eqn:E1; cbn [negb]; [|rewrite andb_false_r; cbn; by exists m]. rewrite andb_true_r.
      pose proof (memo_store_spec c e2 m key None expires ex (Some ex) Hm) as H. cbn [guard_passes] in H.
      destruct (fits key && (e2 =? ex)).
      * destruct H as (m' & -> & Hw). by exists m'.
      * rewrite H. by exists m.
Qed.

Lemma run_op_wf m op m' : memo_wf m -> run_op m op = Ok m' -> memo_wf m'.
Proof.
  intros Hm E. destruct (run_op_spec m op Hm) as (m1 & E1 & H). rewrite E1 in E. injection E as ->.
  destruct (op_accepted op); [apply H|by subst].
Qed.

Lemma run_ops_app m a b : run_ops m (a ++ b) = let! m := run_ops m a in run_ops m b.
Proof.
  revert m; induction a as [|op a IH]; intros m; [done|]. cbn [app run_ops].
  destruct (run_op m op); cbn [res_bind]; [apply IH|done|done].
Qed.

(** The map a memo stands for. *)
Abbreviation MemoMap := (gmap bytes MemoHit).
Definition abs_op (M : MemoMap) (op : MemoOp) : MemoMap :=
  if op_accepted op then <[op_key op := op_hit op]> M else M.
Definition abs_ops (ops : list MemoOp) : MemoMap := fold_left abs_op ops ∅.

(** The memo holds a part of the map. *)
Definition refines (m : Memo) (M : MemoMap) : Prop :=
  memo_wf m /\ forall key h, memo_get m key = Some h -> M !! key = Some h.

Lemma refines_init : refines memo_init ∅.
Proof.
  split; [apply memo_init_wf|]. intros key h. unfold memo_get.
  destruct (memo_init !! set_of key) as [w|] eqn:E; [|done].
  unfold memo_init in E. apply list_elem_of_lookup_2, list_elem_of_In, repeat_spec in E as ->. done.
Qed.

Lemma refines_step m M op : refines m M -> exists m', run_op m op = Ok m' /\ refines m' (abs_op M op) /\
  (op_accepted op = true -> memo_get m' (op_key op) = Some (op_hit op)).
Proof.
  intros [Hm HM]. destruct (run_op_spec m op Hm) as (m' & E & H). exists m'. split; [done|]. unfold abs_op.
  destruct (op_accepted op).
  - destruct H as (Hw & Hg & Ho). split; [|done]. split; [done|]. intros k h Hk.
    destruct (decide (k = op_key op)) as [->|Hne]; [rewrite lookup_insert_eq; congruence|].
    rewrite lookup_insert_ne by done. apply HM. destruct (Ho k Hne) as [<-|[? _]]; congruence.
  - subst. split; [done|discriminate].
Qed.

Lemma refines_run m M ops : refines m M -> exists m', run_ops m ops = Ok m' /\ refines m' (fold_left abs_op ops M).
Proof.
  revert m M; induction ops as [|op ops IH]; intros m M H; [by exists m|]. cbn [run_ops fold_left].
  destruct (refines_step m M op H) as (m1 & -> & H1 & _). cbn [res_bind]. by apply IH.
Qed.

(** The memo's type invariant.  Whatever writes a thread makes, each of them
    returns, and the table keeps 64 sets of two slots whose fields have their
    widths, in which a live slot carries the hash of its own key and sits in
    that hash's set, a positive slot has no epoch, and no key occupies both ways
    of a set; probes of it return too. *)
Theorem memo_typed (ops : list MemoOp) : exists m, run_ops memo_init ops = Ok m /\ memo_wf m /\
  forall key, exists r, memo_peek_both m key = Ok r.
Proof.
  destruct (refines_run memo_init ∅ ops refines_init) as (m & E & Hm & _). exists m. split; [done|]. split; [done|].
  intros key. eexists. by apply memo_peek_get.
Qed.

(** C32: the memo is a map that may forget.  After any sequence of writes, a probe
    of a key answers nothing or exactly the last write accepted under that very
    key, as a positive or a negative hit; the key of an accepted last write is
    always answered.  A hash collision can never make one key answer for
    another. *)
Theorem memo_refines_map (ops : list MemoOp) : exists m, run_ops memo_init ops = Ok m /\
  (forall key, memo_peek_both m key = Ok (None, None) \/
     exists h, abs_ops ops !! key = Some h /\ memo_peek_both m key = Ok (split_opt (Some h))) /\
  (forall op ops', ops = ops' ++ [op] -> op_accepted op = true ->
     memo_peek_both m (op_key op) = Ok (split_opt (Some (op_hit op)))).
Proof.
  destruct (refines_run memo_init ∅ ops refines_init) as (m & E & Hm & HM). exists m. split; [done|]. split.
  - intros key. rewrite memo_peek_get by done. destruct (memo_get m key) as [h|] eqn:Eh; [right|by left].
    exists h. split; [by apply HM|done].
  - intros op ops' -> Ha. rewrite run_ops_app in E. destruct (refines_run memo_init ∅ ops' refines_init) as (m1 & E1 & H1).
    rewrite E1 in E. cbn [res_bind run_ops] in E. destruct (refines_step m1 _ op H1) as (m2 & E2 & H2 & Hg).
    rewrite E2 in E. injection E as <-. rewrite memo_peek_get, Hg by done. done.
Qed.
