(* ===== verification/DnsAnswer.v ===== *)
(** The pure parts of name resolution ([src/dns/resolve.rs], [src/dns/store.rs]):
    lifetimes, the order and size of a cached answer, the client's dial
    candidates, and the registry that paces background refreshes.  Instants and
    durations are nanoseconds. *)
From stdpp Require Import fin_maps.
From S2P Require Import Prelude Addr DnsKey DnsPolicy DnsMemo.

(* ------------------------------------------------------------------ *)
(** ** Lifetimes *)

Definition secs (n : Z) : Z := n * 10 ^ 9.

Definition DNS_CACHE_TTL_MS : Z := 120000.
Definition DNS_CACHE_TTL : Z := ms DNS_CACHE_TTL_MS.
Definition DNS_RECORD_TTL_MIN : Z := secs 10.
Definition DNS_RECORD_TTL_MAX : Z := secs 300.
Definition DNS_STALE_WINDOW : Z := secs 3600.
Definition DNS_STALE_MEMO_TTL : Z := secs 5.
Definition DNS_NEG_TTL : Z := secs 10.
Definition DNS_INCONCLUSIVE_TTL : Z := ms 1000.
Definition DNS_CACHE_MAX : Z := 10240.
Definition DNS_NEG_MAX : Z := 4096.
Definition DNS_CACHE_MAX_ADDRS : Z := 32.
Definition DNS_LOOKUP_TIMEOUT : Z := ms 5000.

(** [Ord::clamp]. *)
Definition clamp (x lo hi : Z) : Z := if x <? lo then lo else if hi <? x then hi else x.

Definition positive_life (deadline now : Z) : option Z :=
  if now <? deadline then Some (deadline - now) else None.

Definition record_ttl (ttl : Z) : Z := clamp ttl DNS_RECORD_TTL_MIN DNS_RECORD_TTL_MAX.

(** [LookupFailure] and the refusal the callers see; messages are left out. *)
Inductive LookupFailure : Type := Verdict | Inconclusive.
Definition is_verdict (f : LookupFailure) : bool := match f with Verdict => true | Inconclusive => false end.
Definition retry_ttl (f : LookupFailure) : Z :=
  match f with Verdict => DNS_NEG_TTL | Inconclusive => DNS_INCONCLUSIVE_TTL end.

(** [LookupFailure::from_resolver], of what [is_no_records_found] says. *)
Definition from_resolver (no_records_found : bool) : LookupFailure :=
  if no_records_found then Verdict else Inconclusive.

(** The name handed to the resolver; [is_ip] says whether it parses as an address. *)
Definition query_name (is_ip : bytes -> bool) (host : bytes) : bytes :=
  if bool_decide (46 ∈ host) && negb (bool_decide (list.last host = Some 46)) && negb (is_ip host)
  then host ++ [46] else host.

(* ------------------------------------------------------------------ *)
(** ** Preference and the cached set *)

Inductive IpPreference : Type := Ipv6 | Ipv4.
#[export] Instance IpPreference_eq_dec : EqDecision IpPreference.
Proof. solve_decision. Defined.

Definition is_ipv4 (ip : IpAddr) : bool := match ip with IpV4 _ => true | IpV6 _ => false end.

Definition sort_key_ip (p : IpPreference) (ip : IpAddr) : Z :=
  match p with
  | Ipv6 => if is_ipv4 ip then 1 else 0
  | Ipv4 => if is_ipv4 ip then 0 else 1
  end.
Definition sort_key (p : IpPreference) (a : SocketAddr) : Z := sort_key_ip p (sa_ip a).

(** [Vec::truncate]. *)
Definition truncate {A} (n : Z) (l : list A) : list A := take (Z.to_nat n) l.

Definition prepare_cache_ips (pref : IpPreference) (ips : list IpAddr) : list IpAddr :=
  let '(preferred, other) := List.partition (fun ip => sort_key_ip pref ip =? 0) ips in
  let half := DNS_CACHE_MAX_ADDRS / 2 in
  let other := truncate (saturating_sub DNS_CACHE_MAX_ADDRS (Z.min (len preferred) half)) other in
  let preferred := truncate (DNS_CACHE_MAX_ADDRS - len other) preferred in
  preferred ++ other.

(* ------------------------------------------------------------------ *)
(** ** Dial candidates *)

(** [v4.next().or_else(|| v6.next())] or the other way round: the address and
    what the two iterators have left. *)
Definition dial_next (want_v4 : bool) (v4 v6 : list SocketAddr) : option (SocketAddr * list SocketAddr * list SocketAddr) :=
  if want_v4 then
    match v4, v6 with
    | a :: v4, _ => Some (a, v4, v6)
    | [], a :: v6 => Some (a, [], v6)
    | [], [] => None
    end
  else
    match v6, v4 with
    | a :: v6, _ => Some (a, v4, v6)
    | [], a :: v4 => Some (a, v4, [])
    | [], [] => None
    end.

(** The loop of [dial_candidates_for]; each turn adds an address, so [max] turns
    are enough. *)
Fixpoint dial_loop (turns : nat) (max : Z) (want_v4 : bool) (v4 v6 out : list SocketAddr) : list SocketAddr :=
  match turns with
  | O => out
  | S turns =>
      if len out <? max then
        match dial_next want_v4 v4 v6 with
        | None => out
        | Some (a, v4, v6) => dial_loop turns max (negb want_v4) v4 v6 (out ++ [a])
        end
      else out
  end.

Definition sa_is_ipv4 (a : SocketAddr) : bool := is_ipv4 (sa_ip a).

Definition dial_candidates_for (pref : IpPreference) (addrs : list SocketAddr) (max : Z) : list SocketAddr :=
  let max := Z.max max 1 in
  dial_loop (Z.to_nat max) max (bool_decide (pref = Ipv4))
    (List.filter sa_is_ipv4 addrs) (List.filter (fun a => negb (sa_is_ipv4 a)) addrs) [].

(* ------------------------------------------------------------------ *)
(** ** The refresh registry *)

Definition DNS_REFRESH_COOLDOWN : Z := secs 5.
Definition DNS_REFRESH_SWEEP_MIN : Z := 256.

Record RefreshRegistry : Type := mkRegistry {
  rg_entries : gmap bytes Z;
  rg_sweep_at : Z
}.

Definition refresh_registry : RefreshRegistry := mkRegistry ∅ DNS_REFRESH_SWEEP_MIN.

(** [Drop for RefreshClaim]. *)
Definition drop_claim (g : RefreshRegistry) (host_key : bytes) (now : Z) : RefreshRegistry :=
  let until := now + DNS_REFRESH_COOLDOWN in
  match rg_entries g !! host_key with
  | Some slot => mkRegistry (<[host_key := Z.min slot until]> (rg_entries g)) (rg_sweep_at g)
  | None => g
  end.

Definition map_len {A} (m : gmap bytes A) : Z := Z.of_nat (size m).

(** [claim_refresh]: the registry and whether the slot was claimed. *)
Definition claim_refresh (g : RefreshRegistry) (host_key : bytes) (now : Z) : RefreshRegistry * bool :=
  if match rg_entries g !! host_key with Some until => now <? until | None => false end then (g, false)
  else
    let g :=
      if rg_sweep_at g <=? map_len (rg_entries g) then
        let entries := filter (fun e => now < e.2) (rg_entries g) in
        mkRegistry entries (clamp (saturating_mul (map_len entries) 2) DNS_REFRESH_SWEEP_MIN DNS_CACHE_MAX)
      else g in
    if DNS_CACHE_MAX <=? map_len (rg_entries g) then (g, false)
    else
      (mkRegistry (<[host_key := now + DNS_LOOKUP_TIMEOUT + DNS_REFRESH_COOLDOWN]> (rg_entries g)) (rg_sweep_at g), true).

(* ------------------------------------------------------------------ *)
(** ** The cached set *)

Definition preferred_ip (pref : IpPreference) (ip : IpAddr) : bool := sort_key_ip pref ip =? 0.

Lemma partition_filter {A} (f : A -> bool) l :
  List.partition f l = (List.filter f l, List.filter (fun x => negb (f x)) l).
Proof. induction l as [|x l IH]; [done|]. cbn. rewrite IH. by destruct (f x). Qed.

Lemma len_filter_split {A} (f : A -> bool) l : len (List.filter f l) + len (List.filter (fun x => negb (f x)) l) = len l.
Proof. induction l as [|x l IH]; [done|]. cbn [List.filter]. destruct (f x); cbn [negb]; rewrite !len_cons; lia. Qed.

Lemma forallb_filter {A} (f : A -> bool) l : forallb f (List.filter f l) = true.
Proof. apply forallb_forall. intros x Hx. apply filter_In in Hx. tauto. Qed.

(** The answer that the positive cache keeps.  It has the preferred family
    first and, within each family, the resolver's own order from its first
    record on; it has all records when there are at most 32 and exactly 32 of
    them otherwise; and a family loses records only when it keeps at least 16,
    so neither family is ever dropped for the other. *)
Theorem prepare_cache_ips_spec (pref : IpPreference) (ips : list IpAddr) :
  let P := List.filter (preferred_ip pref) ips in
  let O := List.filter (fun ip => negb (preferred_ip pref ip)) ips in
  exists np no, prepare_cache_ips pref ips = take (Z.to_nat np) P ++ take (Z.to_nat no) O /\
    len (prepare_cache_ips pref ips) = Z.min 32 (len ips) /\
    0 <= np <= len P /\ 0 <= no <= len O /\ np + no = Z.min 32 (len ips) /\
    (np < len P -> 16 <= np) /\ (no < len O -> 16 <= no).
Proof.
  intros P O. unfold prepare_cache_ips. rewrite partition_filter.
  change (List.filter (fun ip => sort_key_ip pref ip =? 0) ips) with P.
  change (List.filter _ ips) with O.
  pose proof (len_filter_split (preferred_ip pref) ips) as Hs. fold P O in Hs.
  pose proof (len_nonneg P) as HP. pose proof (len_nonneg O) as HO.
  unfold truncate, saturating_sub. change DNS_CACHE_MAX_ADDRS with 32. change (32 / 2) with 16.
  remember (Z.max (32 - Z.min (len P) 16) 0) as k eqn:Hk. rewrite (len_take k) by lia.
  exists (Z.min (32 - Z.min k (len O)) (len P)), (Z.min k (len O)).
  rewrite len_app, !len_take by lia.
  assert (Hm : forall n (l : list IpAddr), 0 <= n -> take (Z.to_nat (Z.min n (len l))) l = take (Z.to_nat n) l).
  { intros n l Hn. unfold len. destruct (Z.le_ge_cases n (Z.of_nat (length l))); [by rewrite Z.min_l|].
    rewrite Z.min_r, !take_ge by lia. done. }
  rewrite !Hm by lia. split; [done|]. lia.
Qed.

(* ------------------------------------------------------------------ *)
(** ** Dial candidates *)

(** What the loop adds to [out]: [n4] and [n6] leading addresses of the two
    families, alternating. *)
Definition dial_spec (max : Z) (want : bool) (v4 v6 out res : list SocketAddr) : Prop :=
  exists more n4 n6, res = out ++ more /\
    List.filter sa_is_ipv4 more = take (Z.to_nat n4) v4 /\
    List.filter (fun a => negb (sa_is_ipv4 a)) more = take (Z.to_nat n6) v6 /\
    0 <= n4 <= len v4 /\ 0 <= n6 <= len v6 /\
    n4 + n6 = Z.max 0 (Z.min (max - len out) (len v4 + len v6)) /\ len more = n4 + n6 /\
    (n4 < len v4 -> n6 <= n4 + (if want then 0 else 1)) /\ (n6 < len v6 -> n4 <= n6 + (if want then 1 else 0)) /\
    (0 < n4 + n6 -> head more = if want then head (v4 ++ v6) else head (v6 ++ v4)).

Lemma dial_spec_stop max want v4 v6 out : max <= len out \/ (v4 = [] /\ v6 = []) -> dial_spec max want v4 v6 out out.
Proof.
  intros H. exists [], 0, 0. rewrite app_nil_r. pose proof (len_nonneg v4). pose proof (len_nonneg v6).
  assert (Z.max 0 (Z.min (max - len out) (len v4 + len v6)) = 0) by (destruct H as [?|[-> ->]]; [lia|rewrite ?len_nil in *; change (len (@nil SocketAddr)) with 0; lia]).
  repeat split; try done; try lia; destruct want; lia.
Qed.

Lemma take_pos {A} n (a : A) r : 0 <= n -> take (Z.to_nat (n + 1)) (a :: r) = a :: take (Z.to_nat n) r.
Proof. intros. rewrite Z.add_1_r, Z2Nat.inj_succ by done. done. Qed.

(** A turn that takes an IPv4 address, and one that takes an IPv6 address. *)
Lemma dial_spec_v4 max want a r v6 out res : sa_is_ipv4 a = true -> len out < max -> (want = true \/ v6 = []) ->
  dial_spec max (negb want) r v6 (out ++ [a]) res -> dial_spec max want (a :: r) v6 out res.
Proof.
  intros Ha Hlt Hw (more & n4 & n6 & -> & F4 & F6 & B4 & B6 & Hs & Hl & C4 & C6 & _).
  exists (a :: more), (n4 + 1), n6. rewrite take_pos, !len_cons by lia. rewrite len_app in Hs. change (len [a]) with 1 in Hs.
  cbn [List.filter]. rewrite Ha, F4, F6. cbn [negb]. split; [by rewrite <- app_assoc|].
  pose proof (len_nonneg r). pose proof (len_nonneg v6).
  repeat split; try done; try lia; destruct Hw as [->| ->]; cbn [negb] in *; rewrite ?len_nil in *; try lia; try done;
    destruct want; cbn [negb] in *; try lia; done.
Qed.

Lemma dial_spec_v6 max want a r v4 out res : sa_is_ipv4 a = false -> len out < max -> (want = false \/ v4 = []) ->
  dial_spec max (negb want) v4 r (out ++ [a]) res -> dial_spec max want v4 (a :: r) out res.
Proof.
  intros Ha Hlt Hw (more & n4 & n6 & -> & F4 & F6 & B4 & B6 & Hs & Hl & C4 & C6 & _).
  exists (a :: more), n4, (n6 + 1). rewrite take_pos, !len_cons by lia. rewrite len_app in Hs. change (len [a]) with 1 in Hs.
  cbn [List.filter]. rewrite Ha, F4, F6. cbn [negb]. split; [by rewrite <- app_assoc|].
  pose proof (len_nonneg r). pose proof (len_nonneg v4).
  repeat split; try done; try lia; destruct Hw as [->| ->]; cbn [negb] in *; rewrite ?len_nil in *; try lia; try done;
    destruct want; cbn [negb] in *; try lia; done.
Qed.

Lemma dial_loop_spec turns max want v4 v6 out :
  forallb sa_is_ipv4 v4 = true -> forallb (fun a => negb (sa_is_ipv4 a)) v6 = true ->
  max - len out <= Z.of_nat turns -> dial_spec max want v4 v6 out (dial_loop turns max want v4 v6 out).
Proof.
  revert want v4 v6 out; induction turns as [|turns IH]; intros want v4 v6 out H4 H6 Ht.
  { cbn [dial_loop]. apply dial_spec_stop. left. lia. }
  cbn [dial_loop]. destruct (_ <? _) eqn:El; [|apply dial_spec_stop; left; lia]. zbool.
  assert (Hn : forall a, max - len (out ++ [a]) <= Z.of_nat turns) by (intros a; rewrite len_app; change (len [a]) with 1; lia).
  unfold dial_next. destruct want, v4 as [|a4 v4], v6 as [|a6 v6]; cbn [forallb] in H4, H6; try apply andb_true_iff in H4 as [? H4];
    try apply andb_true_iff in H6 as [H6' H6]; try apply negb_true_iff in H6'; try (apply dial_spec_stop; by right).
  all: first [apply dial_spec_v4; [done|done|by auto|]|apply dial_spec_v6; [done|done|by auto|]]; apply IH; cbn [forallb];
    try apply andb_true_iff; rewrite ?negb_true_iff; auto.
Qed.

(** The dial list of the client.  It has as many of the addresses as [max]
    (at least one) allows, in each family the leading ones in their own order;
    the families alternate starting with the preferred one, so neither family
    gets ahead of the other by more than one while the other has addresses left,
    and the first candidate is the preferred family's first address when there
    is one. *)
Theorem dial_candidates_spec (pref : IpPreference) (addrs : list SocketAddr) (max : Z) :
  let v4 := List.filter sa_is_ipv4 addrs in
  let v6 := List.filter (fun a => negb (sa_is_ipv4 a)) addrs in
  let out := dial_candidates_for pref addrs max in
  exists n4 n6, List.filter sa_is_ipv4 out = take (Z.to_nat n4) v4 /\
    List.filter (fun a => negb (sa_is_ipv4 a)) out = take (Z.to_nat n6) v6 /\
    0 <= n4 <= len v4 /\ 0 <= n6 <= len v6 /\
    len out = n4 + n6 /\ n4 + n6 = Z.min (Z.max max 1) (len addrs) /\
    (n4 < len v4 -> n6 <= n4 + 1) /\ (n6 < len v6 -> n4 <= n6 + 1) /\
    head out = match pref with Ipv4 => head (v4 ++ v6) | Ipv6 => head (v6 ++ v4) end.
Proof.
  intros v4 v6 out. pose proof (len_filter_split sa_is_ipv4 addrs) as Hs. fold v4 v6 in Hs.
  destruct (dial_loop_spec (Z.to_nat (Z.max max 1)) (Z.max max 1) (bool_decide (pref = Ipv4)) v4 v6 [])
    as (more & n4 & n6 & Eo & F4 & F6 & B4 & B6 & Hn & Hl & C4 & C6 & Hh);
    [apply forallb_filter|apply (forallb_filter (fun a => negb (sa_is_ipv4 a)))|rewrite len_nil; lia|].
  change (len (@nil SocketAddr)) with 0 in Hn. rewrite Z.sub_0_r in Hn. cbn [app] in Eo. change (dial_loop _ _ _ _ _ _) with out in Eo. rewrite Eo.
  exists n4, n6. repeat split; try done; try lia.
  1, 2: intros; destruct (bool_decide _); lia.
  destruct (Z.eq_dec (n4 + n6) 0) as [E0|E0].
  - assert (Hm : len more = 0) by lia. destruct more; [|rewrite len_cons in Hm; pose proof (len_nonneg more); lia].
    assert (E4 : len v4 = 0) by (pose proof (len_nonneg v6); lia). assert (E6 : len v6 = 0) by lia.
    destruct v4; [|rewrite len_cons in E4; pose proof (len_nonneg v4); lia].
    destruct v6; [|rewrite len_cons in E6; pose proof (len_nonneg v6); lia]. by destruct pref.
  - rewrite Hh by lia. by destruct pref.
Qed.

(* ------------------------------------------------------------------ *)
(** ** Refreshes are paced *)

Inductive RegOp : Type :=
| RClaim (host_key : bytes) (now : Z)
| RDrop (host_key : bytes) (now : Z).

Definition reg_time (op : RegOp) : Z := match op with RClaim _ t | RDrop _ t => t end.

(** The registry and the refreshes it granted, in order. *)
Definition reg_step (st : RefreshRegistry * list (bytes * Z)) (op : RegOp) : RefreshRegistry * list (bytes * Z) :=
  let '(g, log) := st in
  match op with
  | RClaim k now => let '(g, granted) := claim_refresh g k now in (g, if granted then log ++ [(k, now)] else log)
  | RDrop k now => (drop_claim g k now, log)
  end.
Definition reg_run (ops : list RegOp) : RefreshRegistry * list (bytes * Z) := fold_left reg_step ops (refresh_registry, []).

(** The clock does not run backwards. *)
Fixpoint times_from (t : Z) (ops : list RegOp) : Prop :=
  match ops with [] => True | op :: ops => t <= reg_time op /\ times_from (reg_time op) ops end.

(** At instant [now]: the sizes are in bounds, a name granted before is still
    held or its cooldown is over, and the grants so far are paced. *)
Record reg_inv (now : Z) (g : RefreshRegistry) (log : list (bytes * Z)) : Prop := {
  ri_size : map_len (rg_entries g) <= DNS_CACHE_MAX;
  ri_sweep : DNS_REFRESH_SWEEP_MIN <= rg_sweep_at g <= DNS_CACHE_MAX;
  ri_past : forall k t, (k, t) ∈ log -> t <= now /\
    match rg_entries g !! k with Some u => t + DNS_REFRESH_COOLDOWN <= u | None => t + DNS_REFRESH_COOLDOWN <= now end;
  ri_paced : forall i j k t1 t2, (i < j)%nat -> log !! i = Some (k, t1) -> log !! j = Some (k, t2) ->
    t1 + DNS_REFRESH_COOLDOWN <= t2
}.

Lemma reg_inv_later now now' g log : now <= now' -> reg_inv now g log -> reg_inv now' g log.
Proof.
  intros Hle [Hs Hw Hp Hl]. split; [done|done| |done]. intros k t Hk. destruct (Hp k t Hk) as [? ?]. case_match; lia.
Qed.

Lemma reg_init_inv : reg_inv 0 refresh_registry [].
Proof. split; [vm_compute; congruence|vm_compute; split; congruence|intros ?? H; by apply elem_of_nil in H|intros; done]. Qed.

Lemma drop_claim_inv now g log k : reg_inv now g log -> reg_inv now (drop_claim g k now) log.
Proof.
  intros [Hs Hw Hp Hl]. unfold drop_claim. destruct (rg_entries g !! k) as [u|] eqn:E; [|by split].
  split; cbn [rg_entries rg_sweep_at]; [|done| |done].
  - unfold map_len in *. rewrite map_size_insert, E. done.
  - intros k' t Hk. destruct (Hp k' t Hk) as [Ht Hu]. split; [done|]. destruct (decide (k' = k)) as [->|Hne].
    + rewrite lookup_insert_eq. rewrite E in Hu. lia.
    + by rewrite lookup_insert_ne.
Qed.

(** The sweep of [claim_refresh]: it forgets only names whose time has come. *)
Lemma sweep_inv now g log : reg_inv now g log ->
  reg_inv now (mkRegistry (filter (fun e => now < e.2) (rg_entries g))
    (clamp (saturating_mul (map_len (filter (fun e => now < e.2) (rg_entries g))) 2) DNS_REFRESH_SWEEP_MIN DNS_CACHE_MAX)) log.
Proof.
  intros [Hs Hw Hp Hl]. split; cbn [rg_entries rg_sweep_at]; [| | |done].
  - unfold map_len in *. pose proof (map_size_filter (fun e => now < e.2) (rg_entries g)). lia.
  - unfold clamp, DNS_REFRESH_SWEEP_MIN, DNS_CACHE_MAX. repeat case_match; lia.
  - intros k t Hk. destruct (Hp k t Hk) as [Ht Hu]. split; [done|].
    destruct (filter _ _ !! k) as [u|] eqn:E.
    + apply map_lookup_filter_Some in E as [E _]. by rewrite E in Hu.
    + destruct (rg_entries g !! k) as [u|] eqn:E'; [|done].
      apply map_lookup_filter_None in E as [E|E]; [congruence|]. specialize (E u E'). cbn in E. lia.
Qed.

Lemma insert_claim_inv now g log k : reg_inv now g log -> map_len (rg_entries g) < DNS_CACHE_MAX ->
  match rg_entries g !! k with Some u => u <= now | None => True end ->
  reg_inv now (mkRegistry (<[k := now + DNS_LOOKUP_TIMEOUT + DNS_REFRESH_COOLDOWN]> (rg_entries g)) (rg_sweep_at g))
    (log ++ [(k, now)]).
Proof.
  intros [Hs Hw Hp Hl] Hlt Hk. split; cbn [rg_entries rg_sweep_at]; [|done| |].
  - unfold map_len in *. rewrite map_size_insert. case_match; unfold id; lia.
  - intros k' t Hin. assert (Hto : 0 <= DNS_LOOKUP_TIMEOUT) by (vm_compute; congruence).
    apply elem_of_app in Hin as [Hin|Hin%list_elem_of_singleton].
    + destruct (Hp k' t Hin) as [Ht Hu]. split; [done|]. destruct (decide (k' = k)) as [->|Hne];
        [rewrite lookup_insert_eq; lia|by rewrite lookup_insert_ne].
    + injection Hin as -> ->. rewrite lookup_insert_eq. lia.
  - intros i j k' t1 t2 Hij H1 H2. apply lookup_app_Some in H2 as [H2|[Hj H2]].
    { rewrite lookup_app_l in H1 by (apply lookup_lt_Some in H2; lia). by eapply Hl. }
    apply list_lookup_singleton_Some in H2 as [Hj0 H2]. injection H2 as -> ->.
    rewrite lookup_app_l in H1 by lia. apply list_elem_of_lookup_2, Hp in H1 as [_ H1]. case_match; lia.
Qed.

Lemma claim_refresh_inv now g log k : reg_inv now g log ->
  let '(g', granted) := claim_refresh g k now in reg_inv now g' (if granted then log ++ [(k, now)] else log).
Proof.
  intros Hi. unfold claim_refresh.
  destruct (match rg_entries g !! k with Some u => now <? u | None => false end) eqn:Ec; [done|].
  assert (Hk : match rg_entries g !! k with Some u => u <= now | None => True end)
    by (destruct (rg_entries g !! k); [lia|done]).
  set (g1 := if rg_sweep_at g <=? map_len (rg_entries g) then _ else g).
  assert (H1 : reg_inv now g1 log /\ match rg_entries g1 !! k with Some u => u <= now | None => True end).
  { unfold g1. destruct (_ <=? _); [|done]. split; [by apply sweep_inv|]. cbn [rg_entries].
    destruct (filter _ _ !! k) eqn:E; [|done]. apply map_lookup_filter_Some in E as [E _]. by rewrite E in Hk. }
  destruct H1 as [H1 Hk1]. destruct (DNS_CACHE_MAX <=? _) eqn:Em; [done|]. apply insert_claim_inv; [done|lia|done].
Qed.

Lemma reg_run_inv now g log ops : reg_inv now g log -> times_from now ops ->
  exists now', let '(g', log') := fold_left reg_step ops (g, log) in reg_inv now' g' log'.
Proof.
  revert now g log; induction ops as [|op ops IH]; intros now g log Hi Ht; [by exists now|].
  destruct Ht as [Hle Ht]. apply (reg_inv_later _ (reg_time op)) in Hi; [|done]. cbn [fold_left].
  destruct op as [k t|k t]; cbn [reg_step reg_time] in *.
  - pose proof (claim_refresh_inv t g log k Hi) as H. destruct (claim_refresh g k t) as [g' granted]. by apply (IH t).
  - apply (IH t); [by apply drop_claim_inv|done].
Qed.

(** Background refreshes are paced.  However claims and ends of attempts
    interleave on a clock that does not run backwards, two refreshes of the same
    name are granted at least [DNS_REFRESH_COOLDOWN] apart, the registry never
    holds more than [DNS_CACHE_MAX] names, and its sweep threshold stays between
    [DNS_REFRESH_SWEEP_MIN] and [DNS_CACHE_MAX]. *)
Theorem refresh_paced (ops : list RegOp) : times_from 0 ops ->
  let '(g, log) := reg_run ops in
  (forall i j k t1 t2, (i < j)%nat -> log !! i = Some (k, t1) -> log !! j = Some (k, t2) ->
     t1 + DNS_REFRESH_COOLDOWN <= t2) /\
  map_len (rg_entries g) <= DNS_CACHE_MAX /\ DNS_REFRESH_SWEEP_MIN <= rg_sweep_at g <= DNS_CACHE_MAX.
Proof.
  intros Ht. destruct (reg_run_inv 0 refresh_registry [] ops reg_init_inv Ht) as [now H].
  unfold reg_run. destruct (fold_left _ _ _) as [g log]. destruct H as [? ? _ ?]. done.
Qed.

Lemma refresh_paced_witness :
  let '(g, log) := reg_run [RClaim [97] 1; RDrop [97] 2; RClaim [97] 3; RClaim [97] (2 + secs 5)] in
  log = [([97], 1); ([97], 2 + secs 5)] /\ 1 + DNS_REFRESH_COOLDOWN <= 2 + secs 5 /\
  map_len (rg_entries g) <= DNS_CACHE_MAX.
Proof.
  assert (Ht : times_from 0 [RClaim [97] 1; RDrop [97] 2; RClaim [97] 3; RClaim [97] (2 + secs 5)]).
  { vm_compute. repeat split; congruence. }
  pose proof (refresh_paced _ Ht) as H. vm_compute in H. vm_compute.
  destruct H as (_ & H & _). repeat split; [congruence|exact H].
Defined.
