(* ===== verification/DnsCache.v ===== *)
(** Resolution through the shared caches ([resolve_all_cached],
    [materialize_cached], [record_refusal], [withdraw_refusal_if_answered],
    [request_refresh], [refresh_positive] and [resolve_server_addrs_fresh] of
    [src/dns/resolve.rs]) as a system of interleaved tasks.

    A task is a position in the code between two accesses to what other tasks
    see: the two caches, the negative epoch, the refresh registry or a thread's
    memo.  A step performs one access, with the clock readings that belong to
    it.  The tasks interleave freely, and a task may be on another thread after
    each step.

    The caches are moka's, which is third-party code: the class [MokaCache]
    states what its documentation says of [get], [insert], [remove] and the time
    to live, and a cache may forget any entry at any time.  [try_get_with] is
    used through its contract: it answers a value that the cache holds, runs the
    caller's initialisation, or hands out the outcome of an initialisation of the
    same key by another caller.  That two initialisations of a key never overlap
    is not used.  Upstream answers are arbitrary.  A future that is dropped
    half-way stands still for ever in its position. *)
From stdpp Require Import fin_maps.
From S2P Require Import Prelude Addr DnsKey DnsPolicy DnsMemo DnsAnswer.

(* ------------------------------------------------------------------ *)
(** ** The cache interface *)

(** [holds c k t v]: the last insertion under [k] put [v] at instant [t], and it
    has been neither removed nor evicted. *)
Class MokaCache (V : Type) (ttl : Z) : Type := {
  cache : Type;
  holds : cache -> bytes -> Z -> V -> Prop;
  cache_new : cache;
  cache_get : cache -> Z -> bytes -> option V;
  cache_insert : cache -> Z -> bytes -> V -> cache;
  cache_remove : cache -> Z -> bytes -> option V * cache;
  new_holds k t v : ~ holds cache_new k t v;
  get_holds c now k v : cache_get c now k = Some v -> exists t, holds c k t v /\ now < t + ttl;
  insert_holds c now k v k' t' v' : holds (cache_insert c now k v) k' t' v' ->
    (k' = k /\ t' = now /\ v' = v) \/ (k' <> k /\ holds c k' t' v');
  remove_holds c now k k' t' v' : holds (cache_remove c now k).2 k' t' v' -> k' <> k /\ holds c k' t' v'
}.
Arguments cache V ttl {_}.

(** A cache that keeps every entry for exactly its time to live. *)
Section MapCache.
Context (V : Type) (ttl : Z).
Definition map_get (c : gmap bytes (Z * V)) (now : Z) (k : bytes) : option V :=
  match c !! k with Some (t, v) => if now <? t + ttl then Some v else None | None => None end.
Definition map_cache : MokaCache V ttl.
Proof.
  refine {| cache := gmap bytes (Z * V); holds c k t v := c !! k = Some (t, v); cache_new := ∅;
            cache_get := map_get; cache_insert c now k v := <[k := (now, v)]> c;
            cache_remove c now k := (map_get c now k, delete k c) |}.
  - intros k t v H. by rewrite lookup_empty in H.
  - intros c now k v. unfold map_get. destruct (c !! k) as [[t w]|]; [|done]. case_match; [|done].
    intros [= ->]. exists t. split; [done|lia].
  - intros c now k v k' t' v' H. cbn in H. apply lookup_insert_Some in H as [[-> [= -> ->]]|[? ?]]; auto.
  - intros c now k k' t' v' H. cbn in H. apply lookup_delete_Some in H as [? ?]. auto.
Defined.
End MapCache.

Definition POS_TTL : Z := DNS_RECORD_TTL_MAX + DNS_STALE_WINDOW.

(** [DnsCacheVal]: the freshness deadline and the addresses. *)
Abbreviation DnsCacheVal := (Z * list IpAddr)%type.

(* ------------------------------------------------------------------ *)
(** ** Tasks *)

(** What a caller of [resolve_all_cached] gets: the addresses, or the time the
    refusal may be kept. *)
Inductive Resolved : Type := ROk (addrs : list SocketAddr) | RErr (retry : Z).

Inductive Pc : Type :=
(* resolve_server_addrs_fresh, before it calls resolve_all_cached *)
| PFreshPos
| PFreshNeg
| PFreshBump
(* resolve_all_cached *)
| PStart
| PStale (deadline : Z) (ips : list IpAddr)
| PSample
| PProbeNeg (epoch_before_probe : Z)
| PRefuse (epoch_before_probe remaining : Z)
| PRefuseMemo (epoch_before_probe remaining expires epoch1 : Z)
| PFlight
(* the initialisation future *)
| PLookup
| PClearNeg (deadline : Z) (ips : list IpAddr)
| PClearBump (deadline : Z) (ips : list IpAddr)
| PPublish (deadline : Z) (ips : list IpAddr)
(* record_refusal, inside it *)
| PRecord (failure : LookupFailure)
| PRecordInsert (failure : LookupFailure) (expires epoch : Z)
| PRecordCheck (failure : LookupFailure) (expires epoch : Z)
| PRecordMemo (failure : LookupFailure) (expires epoch epoch1 : Z)
(* withdraw_refusal_if_answered *)
| PWithdraw (retry : Z)
| PWithdrawNeg (retry deadline : Z) (ips : list IpAddr)
| PWithdrawBump (retry deadline : Z) (ips : list IpAddr)
(* materialize_cached; [after] is what the caller of it returns *)
| PMaterialize (after : option Z) (deadline : Z) (ips : list IpAddr)
| PMemo (after : option Z) (addrs : list SocketAddr) (first_ : SocketAddr) (memo_deadline : Z)
| PDone (r : Resolved)
(* the task of request_refresh, refresh_positive *)
| PRefresh
| PRefreshLookup
| PRefreshCheck (now : Z) (ips : list IpAddr) (ttl : Z)
| PRefreshInsert (deadline : Z) (ips : list IpAddr)
| PRefreshNeg
| PRefreshBump
| PRefreshDrop
| PRefreshDone.

Record Task : Type := mkTask {
  tk_host : bytes;
  tk_port : Z;
  tk_memo_key : bytes;
  tk_host_key : bytes;
  tk_pc : Pc
}.

Definition at_pc (tk : Task) (pc : Pc) : Task :=
  mkTask (tk_host tk) (tk_port tk) (tk_memo_key tk) (tk_host_key tk) pc.

(** A call of [resolve_all_cached] starts with its two keys. *)
Definition start_task (host : bytes) (port : Z) (pc : Pc) : res unit Task :=
  let! memo_key := memo_key_of host port in
  let! host_key := host_key_of host in
  Ok (mkTask host port memo_key host_key pc).

(** [materialize_cached] without the memo write. *)
Definition attach_port (ips : list IpAddr) (port : Z) : list SocketAddr := (fun ip => sa_new ip port) <$> ips.
Definition memo_deadline_of (deadline now : Z) : Z :=
  match positive_life deadline now with
  | Some life => now + life
  | None =>
      let leaves := deadline + DNS_STALE_WINDOW in
      now + Z.min DNS_STALE_MEMO_TTL (saturating_sub leaves now)
  end.

(* ------------------------------------------------------------------ *)
(** ** The shared state *)

(** What has happened, for the statements: a lookup of the name answered at [t]
    with records and their time to live, or failed and its refusal was dated
    [t]; a refusal of the name was read from the negative cache or put there; the epoch was bumped. *)
Inductive Event : Type :=
| EvAnswer (host_key : bytes) (t ttl : Z) (ips : list IpAddr)
| EvFail (host_key : bytes) (t : Z) (f : LookupFailure)
| EvVerdict (host_key : bytes) (expires : Z)
| EvBump.

(** The outcome of an initialisation as [try_get_with] hands it out. *)
Inductive Flight : Type :=
| FOwner
| FValue (v : DnsCacheVal)
| FError (retry : Z).

(** What a step depends on beside the state: the thread it runs on, the answer
    of the upstream lookup, the part of [try_get_with], and whether the refresh
    limiter has a permit. *)
Record Choice : Type := mkChoice {
  ch_thread : nat;
  ch_lookup : (list IpAddr * Z) + LookupFailure;
  ch_flight : Flight;
  ch_permit : bool
}.

Section System.
Context {PC : MokaCache DnsCacheVal POS_TTL} {NC : MokaCache Z DNS_NEG_TTL} (pref : IpPreference).

Record World : Type := mkWorld {
  w_clock : Clock;
  w_pos : cache DnsCacheVal POS_TTL;
  w_neg : cache Z DNS_NEG_TTL;
  w_epoch : Z;
  w_memos : nat -> Memo;
  w_reg : RefreshRegistry;
  w_hist : list Event
}.

Definition world_init (c : Clock) : World :=
  mkWorld c cache_new cache_new 0 (fun _ => memo_init) refresh_registry [].

Definition w_now (w : World) : Z := ck_now (w_clock w).
Definition with_clock (c : Clock) (w : World) : World :=
  mkWorld c (w_pos w) (w_neg w) (w_epoch w) (w_memos w) (w_reg w) (w_hist w).
Definition with_pos (p : cache DnsCacheVal POS_TTL) (w : World) : World :=
  mkWorld (w_clock w) p (w_neg w) (w_epoch w) (w_memos w) (w_reg w) (w_hist w).
Definition with_neg (n : cache Z DNS_NEG_TTL) (w : World) : World :=
  mkWorld (w_clock w) (w_pos w) n (w_epoch w) (w_memos w) (w_reg w) (w_hist w).
Definition with_memo (t : nat) (m : Memo) (w : World) : World :=
  mkWorld (w_clock w) (w_pos w) (w_neg w) (w_epoch w) (fun t' => if decide (t' = t) then m else w_memos w t')
    (w_reg w) (w_hist w).
Definition with_reg (g : RefreshRegistry) (w : World) : World :=
  mkWorld (w_clock w) (w_pos w) (w_neg w) (w_epoch w) (w_memos w) g (w_hist w).
Definition log (e : Event) (w : World) : World :=
  mkWorld (w_clock w) (w_pos w) (w_neg w) (w_epoch w) (w_memos w) (w_reg w) (w_hist w ++ [e]).

(** [bump_neg_epoch()]. *)
Definition bump (w : World) : World :=
  let w := log EvBump w in
  mkWorld (w_clock w) (w_pos w) (w_neg w) (bump_neg_epoch (w_epoch w)) (w_memos w) (w_reg w) (w_hist w).

(** [negatives().remove(key).await.is_some()]. *)
Definition remove_neg (k : bytes) (w : World) : bool * World :=
  let '(old, n) := cache_remove (w_neg w) (w_now w) k in
  (match old with Some _ => true | None => false end, with_neg n w).

(** A write to the memo of the thread the step runs on; [None] if it panics. *)
Definition write_memo (t : nat) (f : Memo -> res unit Memo) (w : World) : option World :=
  match f (w_memos w t) with Ok m => Some (with_memo t m w) | _ => None end.
Definition put_with_epoch (t : nat) (key : bytes) (expires epoch epoch1 : Z) (w : World) : option World :=
  write_memo t (fun m =>
    let! '(m, _) := memo_put_with_epoch (w_clock w) epoch1 (w_epoch w) m key None expires epoch in Ok m) w.

(** What [materialize_cached] gives back to its caller. *)
Definition returned (after : option Z) (addrs : list SocketAddr) : Pc :=
  PDone (match after with Some retry => RErr retry | None => ROk addrs end).

(** The outcome of a step: the state, the task, and the refresh task it spawned;
    [None] when the task has nothing left to do. *)
Abbreviation Outcome := (option (World * Task * list Task)).
Definition go_to (tk : Task) (pc : Pc) (w : World) : Outcome := Some (w, at_pc tk pc, []).

(** [resolve_server_addrs_fresh], up to the call of [resolve_all_cached]. *)
Definition fresh_step (w : World) (tk : Task) : Outcome :=
  let host_key := tk_host_key tk in
  match tk_pc tk with
  | PFreshPos => go_to tk PFreshNeg (with_pos (cache_remove (w_pos w) (w_now w) host_key).2 w)
  | PFreshNeg => let '(some, w) := remove_neg host_key w in go_to tk (if some then PFreshBump else PStart) w
  | PFreshBump => go_to tk PStart (bump w)
  | _ => None
  end.

(** [resolve_all_cached] outside the initialisation future. *)
Definition resolve_step (w : World) (tk : Task) (ch : Choice) : Outcome :=
  let host_key := tk_host_key tk in
  match tk_pc tk with
  | PStart =>
      match cache_get (w_pos w) (w_now w) host_key with
      | Some (deadline, ips) =>
          match positive_life deadline (w_now w) with
          | None => go_to tk (PStale deadline ips) w
          | Some _ => go_to tk (PMaterialize None deadline ips) w
          end
      | None => go_to tk PSample w
      end
  | PSample => go_to tk (PProbeNeg (w_epoch w)) w
  | PProbeNeg epoch_before_probe =>
      match cache_get (w_neg w) (w_now w) host_key with
      | Some expires_at =>
          let remaining := saturating_sub expires_at (w_now w) in
          if negb (remaining =? 0)
          then go_to tk (PRefuse epoch_before_probe remaining) (log (EvVerdict host_key expires_at) w)
          else go_to tk PFlight w
      | None => go_to tk PFlight w
      end
  | PRefuse epoch remaining => go_to tk (PRefuseMemo epoch remaining (w_now w + remaining) (w_epoch w)) w
  | PRefuseMemo epoch remaining expires epoch1 =>
      w ← put_with_epoch (ch_thread ch) (tk_memo_key tk) expires epoch epoch1 w;
      go_to tk (PDone (RErr remaining)) w
  | PFlight =>
      match ch_flight ch with
      | FOwner => go_to tk PLookup w
      | FValue (deadline, ips) => go_to tk (PMaterialize None deadline ips) w
      | FError retry => go_to tk (PWithdraw retry) w
      end
  | _ => None
  end.

(** The initialisation future that [resolve_all_cached] hands to [try_get_with]. *)
Definition init_step (w : World) (tk : Task) (ch : Choice) : Outcome :=
  let host_key := tk_host_key tk in
  match tk_pc tk with
  | PLookup =>
      match ch_lookup ch with
      | inl (ips, ttl) =>
          let now := w_now w in
          go_to tk (PClearNeg (now + record_ttl ttl) (prepare_cache_ips pref ips)) (log (EvAnswer host_key now ttl ips) w)
      | inr failure => go_to tk (PRecord failure) w
      end
  | PClearNeg deadline ips =>
      let '(some, w) := remove_neg host_key w in
      go_to tk (if some then PClearBump deadline ips else PPublish deadline ips) w
  | PClearBump deadline ips => go_to tk (PPublish deadline ips) (bump w)
  | PPublish deadline ips =>
      go_to tk (PMaterialize None deadline ips) (with_pos (cache_insert (w_pos w) (w_now w) host_key (deadline, ips)) w)
  | _ => None
  end.

(** [record_refusal]. *)
Definition record_step (w : World) (tk : Task) (ch : Choice) : Outcome :=
  let host_key := tk_host_key tk in
  match tk_pc tk with
  | PRecord failure =>
      go_to tk (PRecordInsert failure (w_now w + retry_ttl failure) (w_epoch w))
        (log (EvFail host_key (w_now w) failure) w)
  | PRecordInsert failure expires epoch =>
      go_to tk (PRecordCheck failure expires epoch)
        (log (EvVerdict host_key expires) (with_neg (cache_insert (w_neg w) (w_now w) host_key expires) w))
  | PRecordCheck failure expires epoch => go_to tk (PRecordMemo failure expires epoch (w_epoch w)) w
  | PRecordMemo failure expires epoch epoch1 =>
      w ← put_with_epoch (ch_thread ch) (tk_memo_key tk) expires epoch epoch1 w;
      go_to tk (PWithdraw (retry_ttl failure)) w
  | _ => None
  end.

(** [withdraw_refusal_if_answered]. *)
Definition withdraw_step (w : World) (tk : Task) : Outcome :=
  let host_key := tk_host_key tk in
  match tk_pc tk with
  | PWithdraw retry =>
      match cache_get (w_pos w) (w_now w) host_key with
      | None => go_to tk (PDone (RErr retry)) w
      | Some (deadline, ips) =>
          match positive_life deadline (w_now w) with
          | None => go_to tk (PDone (RErr retry)) w
          | Some _ => go_to tk (PWithdrawNeg retry deadline ips) w
          end
      end
  | PWithdrawNeg retry deadline ips =>
      let '(some, w) := remove_neg host_key w in
      go_to tk (if some then PWithdrawBump retry deadline ips else PMaterialize (Some retry) deadline ips) w
  | PWithdrawBump retry deadline ips => go_to tk (PMaterialize (Some retry) deadline ips) (bump w)
  | _ => None
  end.

(** [materialize_cached]. *)
Definition materialize_step (w : World) (tk : Task) (ch : Choice) : Outcome :=
  match tk_pc tk with
  | PMaterialize after deadline ips =>
      let addrs := attach_port ips (tk_port tk) in
      match addrs with
      | [] => go_to tk (returned after addrs) w
      | first_ :: _ => go_to tk (PMemo after addrs first_ (memo_deadline_of deadline (w_now w))) w
      end
  | PMemo after addrs first_ memo_deadline =>
      w ← write_memo (ch_thread ch)
            (fun m => memo_put (w_clock w) (w_epoch w) m (tk_memo_key tk) (Some first_) memo_deadline) w;
      go_to tk (returned after addrs) w
  | _ => None
  end.

(** [request_refresh]: the claim, and the task it spawns. *)
Definition request_step (w : World) (tk : Task) : Outcome :=
  match tk_pc tk with
  | PStale deadline ips =>
      let '(g, granted) := claim_refresh (w_reg w) (tk_host_key tk) (w_now w) in
      Some (with_reg g w, at_pc tk (PMaterialize None deadline ips), if granted then [at_pc tk PRefresh] else [])
  | _ => None
  end.

(** [refresh_positive], and the end of its claim. *)
Definition refresh_step (w : World) (tk : Task) (ch : Choice) : Outcome :=
  let host_key := tk_host_key tk in
  match tk_pc tk with
  | PRefresh => go_to tk (if ch_permit ch then PRefreshLookup else PRefreshDrop) w
  | PRefreshLookup =>
      match ch_lookup ch with
      | inl (ips, ttl) => go_to tk (PRefreshCheck (w_now w) ips ttl) (log (EvAnswer host_key (w_now w) ttl ips) w)
      | inr failure => go_to tk PRefreshDrop w
      end
  | PRefreshCheck now ips ttl =>
      let already_fresh :=
        match cache_get (w_pos w) (w_now w) host_key with
        | Some (deadline, _) => match positive_life deadline now with Some _ => true | None => false end
        | None => false
        end in
      if already_fresh then go_to tk PRefreshDrop w
      else go_to tk (PRefreshInsert (now + record_ttl ttl) (prepare_cache_ips pref ips)) w
  | PRefreshInsert deadline ips =>
      go_to tk PRefreshNeg (with_pos (cache_insert (w_pos w) (w_now w) host_key (deadline, ips)) w)
  | PRefreshNeg =>
      let '(some, w) := remove_neg host_key w in go_to tk (if some then PRefreshBump else PRefreshDrop) w
  | PRefreshBump => go_to tk PRefreshDrop (bump w)
  | PRefreshDrop => go_to tk PRefreshDone (with_reg (drop_claim (w_reg w) host_key (w_now w)) w)
  | _ => None
  end.

(** One step of a task, by the function it is in. *)
Definition task_step (w : World) (tk : Task) (ch : Choice) : Outcome :=
  match tk_pc tk with
  | PFreshPos | PFreshNeg | PFreshBump => fresh_step w tk
  | PStart | PSample | PProbeNeg _ | PRefuse _ _ | PRefuseMemo _ _ _ _ | PFlight => resolve_step w tk ch
  | PLookup | PClearNeg _ _ | PClearBump _ _ | PPublish _ _ => init_step w tk ch
  | PRecord _ | PRecordInsert _ _ _ | PRecordCheck _ _ _ | PRecordMemo _ _ _ _ => record_step w tk ch
  | PWithdraw _ | PWithdrawNeg _ _ _ | PWithdrawBump _ _ _ => withdraw_step w tk
  | PMaterialize _ _ _ | PMemo _ _ _ _ => materialize_step w tk ch
  | PStale _ _ => request_step w tk
  | PRefresh | PRefreshLookup | PRefreshCheck _ _ _ | PRefreshInsert _ _ | PRefreshNeg | PRefreshBump | PRefreshDrop =>
      refresh_step w tk ch
  | PDone _ | PRefreshDone => None
  end.

(* ------------------------------------------------------------------ *)
(** ** Runs *)

(** What is known of an entry of the positive and of the negative cache. *)
Definition known_answer (h : list Event) (k : bytes) (v : DnsCacheVal) : Prop := exists t ttl ips,
  EvAnswer k t ttl ips ∈ h /\ v = (t + record_ttl ttl, prepare_cache_ips pref ips).
Definition known_refusal (h : list Event) (k : bytes) (expires : Z) : Prop := exists t f,
  EvFail k t f ∈ h /\ expires = t + retry_ttl f.

(** What [try_get_with] may hand out: a value of the cache, or the outcome of an
    initialisation of the same key. *)
Definition flight_ok (w : World) (tk : Task) (ch : Choice) : Prop :=
  match tk_pc tk, ch_flight ch with
  | PFlight, FValue v => (exists now, cache_get (w_pos w) now (tk_host_key tk) = Some v) \/ known_answer (w_hist w) (tk_host_key tk) v
  | PFlight, FError retry => exists t f, EvFail (tk_host_key tk) t f ∈ w_hist w /\ retry = retry_ttl f
  | _, _ => True
  end.

(** A name as the callers pass it. *)
Definition target_ok (host : bytes) (port : Z) : Prop := utf8_valid host = true /\ is_u16 port.

Inductive step : World * list Task -> World * list Task -> Prop :=
| s_call w tasks host port fresh tk : target_ok host port ->
    start_task host port (if fresh : bool then PFreshPos else PStart) = Ok tk ->
    step (w, tasks) (w, tasks ++ [tk])
| s_task w tasks i tk ch w' tk' spawned : tasks !! i = Some tk -> flight_ok w tk ch ->
    task_step w tk ch = Some (w', tk', spawned) ->
    step (w, tasks) (w', <[i := tk']> tasks ++ spawned)
| s_tick w tasks c : clock_ok c -> ck_now (w_clock w) <= ck_now c -> ck_recent (w_clock w) <= ck_recent c ->
    step (w, tasks) (with_clock c w, tasks)
| s_evict_pos w tasks p : (forall k t v, holds p k t v -> holds (w_pos w) k t v) ->
    step (w, tasks) (with_pos p w, tasks)
| s_evict_neg w tasks n : (forall k t v, holds n k t v -> holds (w_neg w) k t v) ->
    step (w, tasks) (with_neg n w, tasks).

Inductive reachable : World * list Task -> Prop :=
| r_init c : clock_ok c -> reachable (world_init c, [])
| r_step s s' : reachable s -> step s s' -> reachable s'.

(* ------------------------------------------------------------------ *)
(** ** What the state and the tasks know *)

Definition is_bump (e : Event) : bool := match e with EvBump => true | _ => false end.
Definition bumps (h : list Event) : Z := len (List.filter is_bump h).

(** An epoch sampled at some point of the history. *)
Definition sampled (h : list Event) (e : Z) : Prop := exists n, e = as_u64 n /\ 0 <= n <= bumps h.

(** A refusal of the name was read or recorded, after the epoch was sampled as [e]. *)
Definition verdict_at (h : list Event) (k : bytes) (e : Z) : Prop := exists h1 x h2,
  h = h1 ++ EvVerdict k x :: h2 /\ sampled h1 e /\ known_refusal h1 k x.

(** A memo life that ends with the entry's stale window, or has ended. *)
Definition hit_ok (h : list Event) (c : Clock) (key : bytes) (hit : MemoHit) : Prop := exists host port,
  target_ok host port /\ key = memo_key host port /\
  match mh_addr hit with
  | Some a => exists deadline ips ip rest, known_answer h (norm_name host) (deadline, ips) /\ ips = ip :: rest /\
      a = sa_new ip port /\
      (mh_expires_ms hit <= coarse_millis c \/ ms (mh_expires_ms hit) <= deadline + DNS_STALE_WINDOW)
  | None => verdict_at h (norm_name host) (mh_neg_epoch hit)
  end.

Definition pc_ok (h : list Event) (c : Clock) (k : bytes) (port : Z) (pc : Pc) : Prop :=
  match pc with
  | PProbeNeg e => sampled h e
  | PRefuse e remaining | PRefuseMemo e remaining _ _ => verdict_at h k e /\ 0 < remaining <= DNS_NEG_TTL
  | PRecordInsert _ x e => sampled h e /\ known_refusal h k x
  | PRecordCheck _ _ e | PRecordMemo _ _ e _ => verdict_at h k e
  | PStale d ips | PClearNeg d ips | PClearBump d ips | PPublish d ips | PRefreshInsert d ips =>
      known_answer h k (d, ips)
  | PWithdraw retry => 0 < retry <= DNS_NEG_TTL
  | PWithdrawNeg retry d ips | PWithdrawBump retry d ips => known_answer h k (d, ips) /\ 0 < retry <= DNS_NEG_TTL
  | PMaterialize after d ips =>
      known_answer h k (d, ips) /\ match after with Some retry => 0 < retry <= DNS_NEG_TTL | None => True end
  | PMemo after addrs first_ md => exists d ips, known_answer h k (d, ips) /\ addrs = attach_port ips port /\
      head addrs = Some first_ /\ (md <= ck_now c \/ md <= d + DNS_STALE_WINDOW) /\
      match after with Some retry => 0 < retry <= DNS_NEG_TTL | None => True end
  | PDone (ROk addrs) => exists d ips, known_answer h k (d, ips) /\ addrs = attach_port ips port
  | PDone (RErr retry) => 0 < retry <= DNS_NEG_TTL
  | PRefreshCheck now ips ttl => EvAnswer k now ttl ips ∈ h
  | _ => True
  end.

Definition task_ok (h : list Event) (c : Clock) (tk : Task) : Prop :=
  target_ok (tk_host tk) (tk_port tk) /\ tk_memo_key tk = memo_key (tk_host tk) (tk_port tk) /\
  tk_host_key tk = norm_name (tk_host tk) /\ pc_ok h c (tk_host_key tk) (tk_port tk) (tk_pc tk).

Record world_ok (w : World) : Prop := {
  wo_clock : clock_ok (w_clock w);
  wo_epoch : w_epoch w = as_u64 (bumps (w_hist w));
  wo_pos k t v : holds (w_pos w) k t v -> known_answer (w_hist w) k v;
  wo_neg k t x : holds (w_neg w) k t x -> known_refusal (w_hist w) k x;
  wo_past k t f : EvFail k t f ∈ w_hist w -> t <= w_now w;
  wo_memo t : memo_wf (w_memos w t) /\
    forall key hit, memo_get (w_memos w t) key = Some hit -> hit_ok (w_hist w) (w_clock w) key hit
}.

(* ------------------------------------------------------------------ *)
(** ** Knowledge is kept *)

Definition later (c c' : Clock) : Prop := ck_now c <= ck_now c' /\ ck_recent c <= ck_recent c'.

Lemma bumps_app a b : bumps (a ++ b) = bumps a + bumps b.
Proof. unfold bumps. by rewrite List.filter_app, len_app. Qed.

Lemma bumps_nonneg h : 0 <= bumps h.
Proof. apply len_nonneg. Qed.

Lemma known_answer_app h l k v : known_answer h k v -> known_answer (h ++ l) k v.
Proof. intros (t & ttl & ips & H & E). exists t, ttl, ips. split; [|done]. apply elem_of_app. by left. Qed.

Lemma known_refusal_app h l k x : known_refusal h k x -> known_refusal (h ++ l) k x.
Proof. intros (t & f & H & E). exists t, f. split; [|done]. apply elem_of_app. by left. Qed.

Lemma sampled_app h l e : sampled h e -> sampled (h ++ l) e.
Proof. intros (n & E & H). exists n. rewrite bumps_app. pose proof (bumps_nonneg l). split; [done|lia]. Qed.

Lemma verdict_at_app h l k e : verdict_at h k e -> verdict_at (h ++ l) k e.
Proof. intros (h1 & x & h2 & -> & H). exists h1, x, (h2 ++ l). by rewrite <- app_assoc. Qed.

Lemma coarse_mono c c' : clock_ok c -> clock_ok c' -> later c c' -> coarse_millis c <= coarse_millis c'.
Proof.
  intros (Hr & Hn & Hb) (Hr' & Hn' & Hb') [_ Hl]. unfold coarse_millis, millis_at, saturating_sub.
  rewrite !Z.sub_0_r, !Z.max_l by lia.
  assert (Hu : forall x, 0 <= x < 2 ^ 63 -> as_u64 (x / 10 ^ 6) = x / 10 ^ 6).
  { intros x Hx. apply as_u64_small. split; [apply Z.div_pos; lia|].
    unfold usize_max. apply Z.div_le_upper_bound; lia. }
  rewrite !Hu by lia. apply Z.div_le_mono; lia.
Qed.

Lemma hit_ok_mono h l c c' key hit : clock_ok c -> clock_ok c' -> later c c' ->
  hit_ok h c key hit -> hit_ok (h ++ l) c' key hit.
Proof.
  intros Hc Hc' Hl (host & port & Ht & Ek & H). exists host, port. split; [done|]. split; [done|].
  destruct (mh_addr hit).
  - destruct H as (d & ips & ip & rest & Ha & E & Ea & Hx). exists d, ips, ip, rest.
    split; [by apply known_answer_app|]. do 2 (split; [done|]).
    pose proof (coarse_mono c c' Hc Hc' Hl). destruct Hx; [left; lia|by right].
  - by apply verdict_at_app.
Qed.

Lemma pc_ok_mono h l c c' k port pc : later c c' -> pc_ok h c k port pc -> pc_ok (h ++ l) c' k port pc.
Proof.
  intros [Hn _]. destruct pc; try match goal with r : Resolved |- _ => destruct r end; cbn [pc_ok]; try done;
    try (intros [? ?]; split);
    eauto using sampled_app, known_answer_app, verdict_at_app, known_refusal_app.
  - intros (d & ips & Ha & E & Eh & Hm & Hr). exists d, ips. split; [by apply known_answer_app|].
    do 2 (split; [done|]). split; [|done]. destruct Hm; [left; lia|by right].
  - intros (d & ips & Ha & E). exists d, ips. split; [by apply known_answer_app|done].
  - intros. apply elem_of_app. by left.
Qed.

Lemma task_ok_mono h l c c' tk : later c c' -> task_ok h c tk -> task_ok (h ++ l) c' tk.
Proof. intros Hl (H1 & H2 & H3 & H4). do 3 (split; [done|]). by eapply pc_ok_mono. Qed.

Lemma later_refl c : later c c.
Proof. split; lia. Qed.

(* ------------------------------------------------------------------ *)
(** ** Each access keeps the state in order *)

Lemma world_ok_log e w : world_ok w -> is_bump e = false -> (forall k t f, e = EvFail k t f -> t <= w_now w) ->
  world_ok (log e w).
Proof.
  intros [Hc He Hp Hn Ht Hm] Hb Hf. split; cbn [log w_clock w_pos w_neg w_epoch w_memos w_hist].
  - done.
  - rewrite bumps_app, He. unfold bumps at 3. cbn [List.filter]. rewrite Hb. by rewrite Z.add_0_r.
  - intros k t v H. by eapply known_answer_app, Hp.
  - intros k t x H. by eapply known_refusal_app, Hn.
  - intros k t f H. apply elem_of_app in H as [H|H%list_elem_of_singleton]; [by eapply Ht|by eapply Hf].
  - intros t. destruct (Hm t) as [Hw Hh]. split; [done|]. intros key hit H. apply Hh in H.
    by eapply hit_ok_mono; [..|apply later_refl|].
Qed.

Lemma world_ok_bump w : world_ok w -> world_ok (bump w).
Proof.
  intros [Hc He Hp Hn Ht Hm]. split; cbn [bump log w_clock w_pos w_neg w_epoch w_memos w_hist].
  - done.
  - rewrite bumps_app, He. unfold bump_neg_epoch, as_u64. change (bumps [EvBump]) with 1.
    by rewrite Z.add_mod_idemp_l by lia.
  - intros k t v H. by eapply known_answer_app, Hp.
  - intros k t x H. by eapply known_refusal_app, Hn.
  - intros k t f H. apply elem_of_app in H as [H|H%list_elem_of_singleton]; [by eapply Ht|done].
  - intros t. destruct (Hm t) as [Hw Hh]. split; [done|]. intros key hit H. apply Hh in H.
    by eapply hit_ok_mono; [..|apply later_refl|].
Qed.

Lemma world_ok_pos p w : world_ok w -> (forall k t v, holds p k t v -> known_answer (w_hist w) k v) -> world_ok (with_pos p w).
Proof. intros [] H. by split. Qed.

Lemma world_ok_neg n w : world_ok w -> (forall k t x, holds n k t x -> known_refusal (w_hist w) k x) -> world_ok (with_neg n w).
Proof. intros [] H. by split. Qed.

Lemma world_ok_reg g w : world_ok w -> world_ok (with_reg g w).
Proof. intros []. by split. Qed.

Lemma world_ok_clock c w : world_ok w -> clock_ok c -> later (w_clock w) c -> world_ok (with_clock c w).
Proof.
  intros [Hc He Hp Hn Ht Hm] Hc' Hl. split; cbn [with_clock w_clock w_pos w_neg w_epoch w_memos w_hist]; try done.
  - intros k t f H. apply Ht in H. destruct Hl. unfold w_now in *. cbn. lia.
  - intros t. destruct (Hm t) as [Hw Hh]. split; [done|]. intros key hit H. apply Hh in H.
    rewrite <- (app_nil_r (w_hist w)). apply (hit_ok_mono _ _ _ _ _ _ Hc Hc' Hl H).
Qed.

Lemma world_ok_insert_pos k v w : world_ok w -> known_answer (w_hist w) k v ->
  world_ok (with_pos (cache_insert (w_pos w) (w_now w) k v) w).
Proof.
  intros Hw Hk. apply world_ok_pos; [done|]. intros k' t' v' H. apply insert_holds in H as [(-> & _ & ->)|[_ H]]; [done|].
  by eapply wo_pos.
Qed.

Lemma world_ok_insert_neg k x w : world_ok w -> known_refusal (w_hist w) k x ->
  world_ok (with_neg (cache_insert (w_neg w) (w_now w) k x) w).
Proof.
  intros Hw Hk. apply world_ok_neg; [done|]. intros k' t' v' H. apply insert_holds in H as [(-> & _ & ->)|[_ H]]; [done|].
  by eapply wo_neg.
Qed.

Lemma world_ok_remove_pos k w : world_ok w -> world_ok (with_pos (cache_remove (w_pos w) (w_now w) k).2 w).
Proof. intros Hw. apply world_ok_pos; [done|]. intros k' t' v' H. apply remove_holds in H as [_ H]. by eapply wo_pos. Qed.

Lemma remove_neg_ok k w b w' : world_ok w -> remove_neg k w = (b, w') ->
  world_ok w' /\ w_hist w' = w_hist w /\ w_clock w' = w_clock w.
Proof.
  intros Hw H. unfold remove_neg in H. destruct (cache_remove (w_neg w) (w_now w) k) as [old n] eqn:E.
  injection H as <- <-. split; [|done]. apply world_ok_neg; [done|]. intros k' t' v' H.
  assert (H' : holds (cache_remove (w_neg w) (w_now w) k).2 k' t' v') by by rewrite E.
  apply remove_holds in H' as [_ H']. by eapply wo_neg.
Qed.

(** A write to a memo: the new entry is in order and the others were before. *)
Lemma world_ok_memo t op w m : world_ok w -> run_op (w_memos w t) op = Ok m ->
  (op_accepted op = true -> hit_ok (w_hist w) (w_clock w) (op_key op) (op_hit op)) -> world_ok (with_memo t m w).
Proof.
  intros [Hc He Hp Hn Ht Hm] Hr Hok. split; cbn [with_memo w_clock w_pos w_neg w_epoch w_memos w_hist]; try done.
  intros t'. destruct (decide (t' = t)) as [->|_]; [|apply Hm].
  destruct (Hm t) as [Hw Hh]. destruct (run_op_spec (w_memos w t) op Hw) as (m' & E & H). rewrite Hr in E. injection E as <-.
  destruct (op_accepted op); [|by subst].
  destruct H as (Hw' & Hg & Ho). split; [done|]. intros key hit Hk. destruct (decide (key = op_key op)) as [->|Hne].
  - rewrite Hg in Hk. injection Hk as <-. by apply Hok.
  - destruct (Ho key Hne) as [E|[E _]]; rewrite E in Hk; [by apply Hh|done].
Qed.

Lemma put_with_epoch_ok t key expires e e1 w w' host port : world_ok w -> put_with_epoch t key expires e e1 w = Some w' ->
  target_ok host port -> key = memo_key host port -> verdict_at (w_hist w) (norm_name host) e ->
  world_ok w' /\ w_hist w' = w_hist w /\ w_clock w' = w_clock w.
Proof.
  intros Hw H Ht Ek Hv. unfold put_with_epoch, write_memo in H.
  destruct (let! '(m, _) := _ in Ok m) as [m|?|] eqn:E; [|done..]. injection H as <-. split; [|done].
  apply (world_ok_memo t (MPutEpoch (w_clock w) e1 (w_epoch w) key None expires e)); [done|exact E|].
  intros _. cbn [op_key op_hit]. exists host, port. done.
Qed.

Lemma coarse_deadline_bound c md limit : clock_ok c -> md <= ck_now c \/ md <= limit ->
  coarse_deadline c md <= coarse_millis c \/ ms (coarse_deadline c md) <= limit.
Proof.
  intros (Hr & Hn & Hb) Hmd. unfold coarse_deadline. destruct (Z_le_gt_dec md (ck_now c)) as [Hle|Hgt].
  - left. unfold saturating_sub. rewrite Z.max_r by lia. change (as_u64 (0 / 10 ^ 6)) with 0. lia.
  - right. destruct Hmd as [?|Hmd]; [lia|]. unfold saturating_sub. rewrite Z.max_l by lia.
    set (r := (md - ck_now c) / 10 ^ 6).
    assert (Hr0 : 0 <= r) by (apply Z.div_pos; lia).
    assert (as_u64 r <= r) by (unfold as_u64; apply Z.mod_le; lia).
    assert (r * 10 ^ 6 <= md - ck_now c) by (pose proof (Z.mul_div_le (md - ck_now c) (10 ^ 6)); lia).
    assert (Hc : coarse_millis c * 10 ^ 6 <= ck_recent c).
    { unfold coarse_millis, millis_at, saturating_sub. rewrite Z.sub_0_r, Z.max_l by lia.
      assert (as_u64 (ck_recent c / 10 ^ 6) <= ck_recent c / 10 ^ 6) by (unfold as_u64; apply Z.mod_le; [apply Z.div_pos; lia|lia]).
      pose proof (Z.mul_div_le (ck_recent c) (10 ^ 6)). lia. }
    unfold ms. nia.
Qed.

Lemma put_answer_ok t w m tk d ips first_ md : world_ok w -> task_ok (w_hist w) (w_clock w) tk ->
  memo_put (w_clock w) (w_epoch w) (w_memos w t) (tk_memo_key tk) (Some first_) md = Ok m ->
  known_answer (w_hist w) (tk_host_key tk) (d, ips) -> head (attach_port ips (tk_port tk)) = Some first_ ->
  md <= ck_now (w_clock w) \/ md <= d + DNS_STALE_WINDOW -> world_ok (with_memo t m w).
Proof.
  intros Hw (Ht & Ek & Eh & _) Hp Hk Hf Hmd.
  apply (world_ok_memo t (MPut (w_clock w) (w_epoch w) (tk_memo_key tk) (Some first_) md)); [done|exact Hp|].
  intros _. cbn [op_key op_hit]. exists (tk_host tk), (tk_port tk). do 2 (split; [done|]). cbn [new_hit mh_addr mh_expires_ms].
  destruct ips as [|ip rest]; [done|]. injection Hf as <-. exists d, (ip :: rest), ip, rest. rewrite <- Eh.
  do 3 (split; [done|]). apply coarse_deadline_bound; [apply Hw|done].
Qed.

(* ------------------------------------------------------------------ *)
(** ** Each step keeps everything in order *)

Definition stepped (w : World) (r : World * Task * list Task) : Prop :=
  let '(w', tk', spawned) := r in
  world_ok w' /\ w_clock w' = w_clock w /\ (exists l, w_hist w' = w_hist w ++ l) /\
  task_ok (w_hist w') (w_clock w') tk' /\ Forall (task_ok (w_hist w') (w_clock w')) spawned.

Lemma stepped_go w w' tk pc l : task_ok (w_hist w) (w_clock w) tk -> world_ok w' -> w_clock w' = w_clock w ->
  w_hist w' = w_hist w ++ l -> pc_ok (w_hist w') (w_clock w') (tk_host_key tk) (tk_port tk) pc ->
  stepped w (w', at_pc tk pc, []).
Proof.
  intros (H1 & H2 & H3 & _) Hw Hc Hh Hp. split; [done|]. split; [done|]. split; [by exists l|].
  split; [|constructor]. do 3 (split; [done|]). done.
Qed.

Lemma stepped_same w w' tk pc : task_ok (w_hist w) (w_clock w) tk -> world_ok w' -> w_clock w' = w_clock w ->
  w_hist w' = w_hist w -> pc_ok (w_hist w) (w_clock w) (tk_host_key tk) (tk_port tk) pc ->
  stepped w (w', at_pc tk pc, []).
Proof.
  intros Ht Hw Hc Hh Hp. apply (stepped_go w w' tk pc []); [done..| |]; rewrite Hh; [by rewrite app_nil_r|by rewrite Hc].
Qed.

Lemma stepped_remove w w' tk b (pc1 pc2 : Pc) : task_ok (w_hist w) (w_clock w) tk -> world_ok w ->
  remove_neg (tk_host_key tk) w = (b, w') ->
  pc_ok (w_hist w) (w_clock w) (tk_host_key tk) (tk_port tk) pc1 ->
  pc_ok (w_hist w) (w_clock w) (tk_host_key tk) (tk_port tk) pc2 ->
  stepped w (w', at_pc tk (if b then pc1 else pc2), []).
Proof.
  intros Ht Hw Hr H1 H2. destruct (remove_neg_ok _ _ _ _ Hw Hr) as (Hw' & Hh & Hc).
  apply stepped_same; [done..|]. by destruct b.
Qed.

Lemma stepped_bump w tk pc : task_ok (w_hist w) (w_clock w) tk -> world_ok w ->
  pc_ok (w_hist w) (w_clock w) (tk_host_key tk) (tk_port tk) pc -> stepped w (bump w, at_pc tk pc, []).
Proof.
  intros Ht Hw Hp. apply (stepped_go w _ tk pc [EvBump]); [done|by apply world_ok_bump|done|done|].
  apply (pc_ok_mono (w_hist w) [EvBump] (w_clock w)); [apply later_refl|done].
Qed.

Lemma sampled_now w : world_ok w -> sampled (w_hist w) (w_epoch w).
Proof. intros Hw. exists (bumps (w_hist w)). split; [by apply wo_epoch|]. pose proof (bumps_nonneg (w_hist w)). lia. Qed.

Lemma get_pos_known w now k v : world_ok w -> cache_get (w_pos w) now k = Some v -> known_answer (w_hist w) k v.
Proof. intros Hw H. apply get_holds in H as (t & H & _). by eapply wo_pos. Qed.

Lemma get_neg_known w now k x : world_ok w -> cache_get (w_neg w) now k = Some x -> known_refusal (w_hist w) k x.
Proof. intros Hw H. apply get_holds in H as (t & H & _). by eapply wo_neg. Qed.

Lemma retry_bound f : 0 < retry_ttl f <= DNS_NEG_TTL.
Proof. destruct f; vm_compute; split; congruence. Qed.

Lemma verdict_snoc h k x e : sampled h e -> known_refusal h k x -> verdict_at (h ++ [EvVerdict k x]) k e.
Proof. intros. by exists h, x, []. Qed.

Lemma memo_deadline_bound d now : memo_deadline_of d now <= now \/ memo_deadline_of d now <= d + DNS_STALE_WINDOW.
Proof.
  unfold memo_deadline_of, positive_life, saturating_sub. assert (0 <= DNS_STALE_WINDOW) by (vm_compute; congruence).
  destruct (now <? d) eqn:E; lia.
Qed.

Ltac unfold_step :=
  match goal with
  | H : task_step _ _ _ = Some _ |- _ =>
      unfold task_step, fresh_step, resolve_step, init_step, record_step, withdraw_step, materialize_step, request_step,
        refresh_step, go_to in H
  end.

(** The positions before and beside [resolve_all_cached]: the forced refresh and
    the background refresh. *)
Definition side_pc (pc : Pc) : bool :=
  match pc with
  | PFreshPos | PFreshNeg | PFreshBump | PRefresh | PRefreshLookup | PRefreshCheck _ _ _ | PRefreshInsert _ _
  | PRefreshNeg | PRefreshBump | PRefreshDrop | PRefreshDone => true
  | _ => false
  end.

Lemma task_step_side_ok w tk ch r : side_pc (tk_pc tk) = true -> world_ok w -> task_ok (w_hist w) (w_clock w) tk ->
  task_step w tk ch = Some r -> stepped w r.
Proof.
  intros Hside Hw Ht Hs. assert (Hp := Ht). destruct Hp as (_ & _ & _ & Hp). unfold_step.
  destruct (tk_pc tk) eqn:Epc; try discriminate Hside; cbn [pc_ok] in Hp; cbv beta zeta in Hs; try (injection Hs as <-).
  - apply stepped_same; [done|by apply world_ok_remove_pos|done..].
  - destruct (remove_neg _ w) eqn:E. injection Hs as <-. by apply stepped_remove.
  - by apply stepped_bump.
  - apply stepped_same; [done..|]. by destruct (ch_permit ch).
  - destruct (ch_lookup ch) as [[ips ttl]|f]; injection Hs as <-; [|by apply stepped_same].
    eapply stepped_go; [done|by apply world_ok_log|done|done|]. apply elem_of_app. right. by apply list_elem_of_singleton.
  - destruct (match cache_get _ _ _ with Some _ => _ | None => _ end); injection Hs as <-; apply stepped_same; try done.
    by exists now, ttl, ips.
  - apply stepped_same; [done|by apply world_ok_insert_pos|done..].
  - destruct (remove_neg _ w) eqn:E. injection Hs as <-. by apply stepped_remove.
  - by apply stepped_bump.
  - apply stepped_same; [done|by apply world_ok_reg|done..].
  - discriminate.
Qed.

(** The positions of [record_refusal] and [withdraw_refusal_if_answered]. *)
Definition refusal_pc (pc : Pc) : bool :=
  match pc with
  | PSample | PProbeNeg _ | PRefuse _ _ | PRefuseMemo _ _ _ _ | PRecord _ | PRecordInsert _ _ _ | PRecordCheck _ _ _
  | PRecordMemo _ _ _ _ | PWithdraw _ | PWithdrawNeg _ _ _ | PWithdrawBump _ _ _ => true
  | _ => false
  end.

Lemma remaining_bound w k x : world_ok w -> known_refusal (w_hist w) k x -> saturating_sub x (w_now w) <= DNS_NEG_TTL.
Proof.
  intros Hw (t & f & H & ->). apply (wo_past w Hw) in H. pose proof (retry_bound f). unfold saturating_sub. lia.
Qed.

Lemma task_step_refusal_ok w tk ch r : refusal_pc (tk_pc tk) = true -> world_ok w -> task_ok (w_hist w) (w_clock w) tk ->
  task_step w tk ch = Some r -> stepped w r.
Proof.
  intros Hside Hw Ht Hs. assert (Hp := Ht). destruct Hp as (Ht1 & Ht2 & Ht3 & Hp). unfold_step.
  destruct (tk_pc tk) eqn:Epc; try discriminate Hside; cbn [pc_ok] in Hp; cbv beta zeta in Hs; try (injection Hs as <-).
  - apply stepped_same; [done..|]. by apply sampled_now.
  - destruct (cache_get (w_neg w) _ _) as [x|] eqn:E; [|injection Hs as <-; by apply stepped_same].
    destruct (negb _) eqn:Er; injection Hs as <-; [|by apply stepped_same]. apply get_neg_known in E; [|done].
    eapply stepped_go; [done|by apply world_ok_log|done|done|]. split; [by apply verdict_snoc|].
    pose proof (remaining_bound _ _ _ Hw E). unfold saturating_sub in *. lia.
  - by apply stepped_same.
  - destruct Hp as [Hv Hr]. destruct (put_with_epoch _ _ _ _ _ _) as [w'|] eqn:E; [|done]. injection Hs as <-.
    rewrite Ht3 in Hv. destruct (put_with_epoch_ok _ _ _ _ _ _ _ _ _ Hw E Ht1 Ht2 Hv) as (? & ? & ?). by apply stepped_same.
  - eapply stepped_go; [done|apply world_ok_log; [done|done|by intros ??? [= _ <- _]]|done|done|].
    split; [by apply sampled_app, sampled_now|]. exists (w_now w), failure. split; [|done].
    apply elem_of_app. right. by apply list_elem_of_singleton.
  - destruct Hp as [Hsm Hk]. eapply stepped_go; [done|apply world_ok_log; [by apply world_ok_insert_neg|done..]|done|done|].
    by apply verdict_snoc.
  - by apply stepped_same.
  - destruct (put_with_epoch _ _ _ _ _ _) as [w'|] eqn:E; [|done]. injection Hs as <-.
    rewrite Ht3 in Hp. destruct (put_with_epoch_ok _ _ _ _ _ _ _ _ _ Hw E Ht1 Ht2 Hp) as (? & ? & ?).
    apply stepped_same; [done..|]. apply retry_bound.
  - destruct (cache_get (w_pos w) _ _) as [[d ips]|] eqn:E; [|injection Hs as <-; by apply stepped_same].
    apply get_pos_known in E; [|done]. destruct (positive_life _ _); injection Hs as <-; by apply stepped_same.
  - destruct (remove_neg _ w) eqn:E. injection Hs as <-. by apply stepped_remove.
  - by apply stepped_bump.
Qed.

Lemma returned_ok h c k port after addrs d ips : known_answer h k (d, ips) -> addrs = attach_port ips port ->
  match after with Some retry => 0 < retry <= DNS_NEG_TTL | None => True end -> pc_ok h c k port (returned after addrs).
Proof. intros Hk Ea Hr. destruct after; [done|]. by exists d, ips. Qed.

Lemma task_step_ok w tk ch r : world_ok w -> task_ok (w_hist w) (w_clock w) tk -> flight_ok w tk ch ->
  task_step w tk ch = Some r -> stepped w r.
Proof.
  intros Hw Ht Hf Hs. destruct (side_pc (tk_pc tk)) eqn:Eside; [by eapply task_step_side_ok|].
  destruct (refusal_pc (tk_pc tk)) eqn:Eref; [by eapply task_step_refusal_ok|].
  assert (Hp := Ht). destruct Hp as (Ht1 & Ht2 & Ht3 & Hp). unfold flight_ok in Hf. unfold_step.
  destruct (tk_pc tk) eqn:Epc; try discriminate Eside; try discriminate Eref; cbn [pc_ok] in Hp; cbv beta zeta in Hs;
    try (injection Hs as <-).
  - destruct (cache_get (w_pos w) _ _) as [[d ips]|] eqn:E; [|injection Hs as <-; by apply stepped_same].
    apply get_pos_known in E; [|done]. destruct (positive_life _ _); injection Hs as <-; by apply stepped_same.
  - destruct (claim_refresh _ _ _) as [g granted]. injection Hs as <-.
    split; [by apply world_ok_reg|]. do 2 (split; [by try exists []; rewrite ?app_nil_r|]).
    split; [by repeat (split; [done|])|]. destruct granted; [|constructor]. apply list.Forall_singleton. by repeat (split; [done|]).
  - destruct (ch_flight ch) as [|[d ips]|retry]; injection Hs as <-; apply stepped_same; try done.
    + destruct Hf as [[now Hf]|Hf]; [|done]. by apply get_pos_known in Hf.
    + destruct Hf as (t & f & _ & ->). apply retry_bound.
  - destruct (ch_lookup ch) as [[ips ttl]|f]; injection Hs as <-; [|by apply stepped_same].
    eapply stepped_go; [done|by apply world_ok_log|done|done|]. exists (w_now w), ttl, ips. split; [|done].
    apply elem_of_app. right. by apply list_elem_of_singleton.
  - destruct (remove_neg _ w) eqn:E. injection Hs as <-. by apply stepped_remove.
  - by apply stepped_bump.
  - apply stepped_same; [done|by apply world_ok_insert_pos|done..].
  - destruct Hp as [Hk Hr]. destruct (attach_port ips (tk_port tk)) as [|a rest] eqn:Ea; injection Hs as <-; apply stepped_same; try done.
    + by eapply returned_ok.
    + exists deadline, ips. rewrite Ea. do 3 (split; [done|]). split; [|done]. apply memo_deadline_bound.
  - destruct Hp as (d & ips & Hk & Ea & Eh & Hmd & Hr). unfold write_memo in Hs.
    destruct (memo_put _ _ _ _ _ _) as [m|?|] eqn:Em; [|done..]. injection Hs as <-.
    apply stepped_same; [done| |done|done|by eapply returned_ok]. eapply put_answer_ok; [done|done|exact Em|done|by rewrite <- Ea|done].
  - discriminate.
Qed.

(* ------------------------------------------------------------------ *)
(** ** Every reachable state is in order *)

Definition state_ok (s : World * list Task) : Prop :=
  world_ok s.1 /\ Forall (task_ok (w_hist s.1) (w_clock s.1)) s.2.

Lemma world_init_ok c : clock_ok c -> world_ok (world_init c).
Proof.
  intros Hc. split; cbn [world_init w_clock w_pos w_neg w_epoch w_memos w_hist]; try done.
  - intros k t v H. by apply new_holds in H.
  - intros k t v H. by apply new_holds in H.
  - intros k t f H. by apply elem_of_nil in H.
  - intros t. split; [apply memo_init_wf|]. intros key hit H. by apply refines_init in H.
Qed.

Lemma step_ok s s' : state_ok s -> step s s' -> state_ok s'.
Proof.
  intros [Hw Ht] Hs. destruct Hs as [w tasks host port fresh tk Hh Es|w tasks i tk ch w' tk' sp Hi Hf Hs|w tasks c Hc Hn Hr|w tasks p Hp|w tasks n Hn];
    unfold state_ok in *; cbn [fst snd] in *.
  - split; [done|]. apply list.Forall_app. split; [done|]. apply list.Forall_singleton. unfold start_task in Es. destruct Hh as [Hu Hp].
    rewrite memo_key_of_eq, host_key_of_eq in Es by done. injection Es as <-. do 3 (split; [done|]). by destruct fresh.
  - assert (Htk : task_ok (w_hist w) (w_clock w) tk) by by eapply (Forall_lookup_1 _ tasks).
    destruct (task_step_ok w tk ch _ Hw Htk Hf Hs) as (Hw' & Hc & [l Hl] & Htk' & Hsp). split; [done|].
    apply list.Forall_app. split; [|done]. apply Forall_insert; [|done]. eapply list.Forall_impl; [exact Ht|].
    intros tk1 H1. rewrite Hl, Hc. by eapply task_ok_mono; [apply later_refl|].
  - split; [by apply world_ok_clock|]. eapply list.Forall_impl; [exact Ht|]. intros tk H. cbn [with_clock w_hist w_clock].
    rewrite <- (app_nil_r (w_hist w)). by eapply task_ok_mono.
  - split; [|done]. apply world_ok_pos; [done|]. intros k t v H. by eapply wo_pos, Hp.
  - split; [|done]. apply world_ok_neg; [done|]. intros k t v H. by eapply wo_neg, Hn.
Qed.

Lemma reachable_ok s : reachable s -> state_ok s.
Proof. induction 1 as [c Hc|s s' _ IH Hs]; [split; [by apply world_init_ok|constructor]|by eapply step_ok]. Qed.

(** What the synchronous lookup reads is what the memo holds for the key. *)
Lemma lookup_hit c e m host port r : memo_wf m -> target_ok host port ->
  lookup_cached_fast_with_ttl c e m host port = Ok r -> r <> (LUnknown, 0) ->
  exists hit, memo_get m (memo_key host port) = Some hit /\ coarse_millis c < mh_expires_ms hit /\
    match mh_addr hit with
    | Some a => r = (LAddr a, mh_expires_ms hit - coarse_millis c)
    | None => r = (LNegative, 0) /\ mh_neg_epoch hit = e
    end.
Proof.
  intros Hm [Hu Hp] H Hr. unfold lookup_cached_fast_with_ttl in H. rewrite memo_key_of_eq in H by done. cbn [res_bind] in H.
  rewrite memo_peek_get in H by done. cbn [res_bind] in H.
  destruct (memo_get m (memo_key host port)) as [hit|]; cbn [split_opt] in H; [|congruence]. exists hit. split; [done|].
  destruct (mh_addr hit) as [a|] eqn:Ea; cbv zeta beta in H.
  - rewrite Ea in H. destruct (_ <? _) eqn:El; [|congruence]. injection H as <-. split; [lia|done].
  - destruct (_ && _) eqn:El; [|congruence]. injection H as <-. apply andb_true_iff in El as [El Ee]. split; [lia|]. split; [done|lia].
Qed.

Lemma live_time c x : clock_ok c -> coarse_millis c < x -> ck_now c < ms x + ms UPKEEP_INTERVAL_MS.
Proof.
  intros (Hr & Hn & Hb) H. unfold coarse_millis, millis_at, saturating_sub in H. rewrite Z.sub_0_r, Z.max_l in H by lia.
  assert (Hu : as_u64 (ck_recent c / 10 ^ 6) = ck_recent c / 10 ^ 6).
  { apply as_u64_small. split; [apply Z.div_pos; lia|]. unfold usize_max. apply Z.div_le_upper_bound; lia. }
  rewrite Hu in H. pose proof (Z.mul_succ_div_gt (ck_recent c) (10 ^ 6)). unfold ms in *. lia.
Qed.

(** C30: a refusal is never outdated by an announced success.  In every reachable
    state, when a thread's memo answers that a name is refused, a lookup of that
    very name failed, its refusal was read from the shared negative cache or put
    there, and since then the epoch has not been bumped: whichever task finds
    that some name resolves again and bumps the epoch, no thread answers from a
    refusal it took over before, whatever the interleaving. *)
Theorem refusal_current (w : World) (tasks : list Task) (thread : nat) (host : bytes) (port : Z) :
  reachable (w, tasks) -> target_ok host port -> bumps (w_hist w) < 2 ^ 64 ->
  lookup_cached_fast (w_clock w) (w_epoch w) (w_memos w thread) host port = Ok LNegative ->
  exists h1 x h2 t f, w_hist w = h1 ++ EvVerdict (norm_name host) x :: h2 /\ bumps h2 = 0 /\
    EvFail (norm_name host) t f ∈ h1 /\ x = t + retry_ttl f.
Proof.
  intros Hr Ht Hb H. apply reachable_ok in Hr as [Hw _]. cbn [fst] in Hw. destruct (wo_memo w Hw thread) as [Hm Hh].
  unfold lookup_cached_fast in H. destruct (lookup_cached_fast_with_ttl _ _ _ _ _) as [[r n]|?|] eqn:E; [|done..]. injection H as ->.
  destruct (lookup_hit _ _ _ _ _ _ Hm Ht E) as (hit & Hg & _ & Hc); [congruence|].
  apply Hh in Hg as (host' & port' & [_ Hp'] & Ek & Hv). destruct Ht as [_ Hp]. apply memo_key_inj in Ek as [En _]; [|done..].
  destruct (mh_addr hit); [done|]. destruct Hc as [_ Ee]. destruct Hv as (h1 & x & h2 & Eh & (n' & En' & Hn') & t & f & Hf & ->).
  exists h1, (t + retry_ttl f), h2, t, f. rewrite En. repeat split; [done| |done].
  rewrite (wo_epoch w Hw), En' in Ee. pose proof (bumps_nonneg h2).
  assert (Hs : bumps (w_hist w) = bumps h1 + bumps h2) by (rewrite Eh, bumps_app; done).
  unfold as_u64 in Ee. rewrite !Z.mod_small in Ee by lia. lia.
Qed.

(** C31: the synchronous lookup answers with what an upstream lookup of the same
    name answered, on the port that was asked for: the address is the first of
    the set the positive cache keeps for that answer, the lifetime handed out is
    positive, and the answer's own clamped lifetime plus the stale window ended
    less than one tick of the coarse clock ago, if at all. *)
Theorem sync_answer_origin (w : World) (tasks : list Task) (thread : nat) (host : bytes) (port : Z) (a : SocketAddr) (left : Z) :
  reachable (w, tasks) -> target_ok host port ->
  lookup_cached_fast_with_ttl (w_clock w) (w_epoch w) (w_memos w thread) host port = Ok (LAddr a, left) ->
  0 < left /\ exists t ttl ips ip, EvAnswer (norm_name host) t ttl ips ∈ w_hist w /\
    head (prepare_cache_ips pref ips) = Some ip /\ a = sa_new ip port /\
    w_now w < t + record_ttl ttl + DNS_STALE_WINDOW + ms UPKEEP_INTERVAL_MS.
Proof.
  intros Hr Ht E. apply reachable_ok in Hr as [Hw _]. cbn [fst] in Hw. destruct (wo_memo w Hw thread) as [Hm Hh].
  destruct (lookup_hit _ _ _ _ _ _ Hm Ht E) as (hit & Hg & Hl & Hc); [congruence|].
  apply Hh in Hg as (host' & port' & [_ Hp'] & Ek & Hv). destruct Ht as [_ Hp]. apply memo_key_inj in Ek as [En ->]; [|done..].
  destruct (mh_addr hit) as [a'|]; [|by destruct Hc]. injection Hc as -> ->. split; [lia|].
  destruct Hv as (d & ips & ip & rest & (t & ttl & raw & Ha & Ed) & Ei & -> & Hx). injection Ed as -> Ed.
  exists t, ttl, raw, ip. rewrite En, <- Ed, Ei. repeat split; [done|]. destruct Hx as [?|Hx]; [lia|].
  pose proof (live_time _ _ (wo_clock w Hw) Hl). unfold w_now in *. lia.
Qed.

(** a resolution that returns addresses returns the whole set that the
    positive cache keeps for an upstream answer about the same name, each with
    the caller's port, and a resolution that fails returns a time to keep the
    refusal that is positive and at most [DNS_NEG_TTL], however the tasks
    interleaved. *)
Theorem async_answer_origin (w : World) (tasks : list Task) (tk : Task) (r : Resolved) :
  reachable (w, tasks) -> tk ∈ tasks -> tk_pc tk = PDone r ->
  match r with
  | ROk addrs => exists t ttl ips, EvAnswer (norm_name (tk_host tk)) t ttl ips ∈ w_hist w /\
      addrs = attach_port (prepare_cache_ips pref ips) (tk_port tk)
  | RErr retry => 0 < retry <= DNS_NEG_TTL
  end.
Proof.
  intros Hr Hin Epc. apply reachable_ok in Hr as [Hw Ht]. cbn [fst snd] in *. rewrite list.Forall_forall in Ht.
  destruct (Ht tk Hin) as (_ & _ & Ek & Hp). rewrite Epc, Ek in Hp. destruct r as [addrs|retry]; [|exact Hp].
  destruct Hp as (d & ips & (t & ttl & raw & Ha & Ed) & ->). injection Ed as _ ->. by exists t, ttl, raw.
Qed.

(* ------------------------------------------------------------------ *)
(** ** Executions *)

Inductive Action : Type :=
| ACall (host : bytes) (port : Z) (fresh : bool)
| AStep (i : nat) (ch : Choice)
| ATick (c : Clock).

Definition clock_okb (c : Clock) : bool :=
  (0 <=? ck_recent c) && (ck_recent c <=? ck_now c) && (ck_now c <=? ck_recent c + ms UPKEEP_INTERVAL_MS) && (ck_now c <? 2 ^ 63).

(** One action, where every initialisation is run by its own caller. *)
Definition exec1 (s : World * list Task) (a : Action) : option (World * list Task) :=
  let '(w, tasks) := s in
  match a with
  | ACall host port fresh =>
      if utf8_valid host && (0 <=? port) && (port <? 2 ^ 16) then
        match start_task host port (if fresh then PFreshPos else PStart) with
        | Ok tk => Some (w, tasks ++ [tk])
        | _ => None
        end
      else None
  | AStep i ch =>
      tk ← tasks !! i;
      match ch_flight ch, task_step w tk ch with
      | FOwner, Some (w', tk', spawned) => Some (w', <[i := tk']> tasks ++ spawned)
      | _, _ => None
      end
  | ATick c =>
      if clock_okb c && (ck_now (w_clock w) <=? ck_now c) && (ck_recent (w_clock w) <=? ck_recent c)
      then Some (with_clock c w, tasks) else None
  end.
Fixpoint exec (s : World * list Task) (l : list Action) : option (World * list Task) :=
  match l with [] => Some s | a :: l => s ← exec1 s a; exec s l end.

Lemma clock_okb_ok c : clock_okb c = true -> clock_ok c.
Proof. unfold clock_okb, clock_ok. rewrite !andb_true_iff. lia. Qed.

Lemma exec1_step s a s' : exec1 s a = Some s' -> step s s'.
Proof.
  destruct s as [w tasks]. unfold exec1. destruct a as [host port fresh|i ch|c].
  - destruct (_ && _) eqn:E; [|done]. apply andb_true_iff in E as [E E2]. apply andb_true_iff in E as [E0 E1].
    destruct (start_task _ _ _) eqn:Es; [|done..]. intros [= <-]. eapply s_call; [|done]. split; [done|]. unfold is_u16. lia.
  - destruct (tasks !! i) as [tk|] eqn:Ei; [|done]. cbn [mbind option_bind]. destruct (ch_flight ch) eqn:Ef; [|done..].
    destruct (task_step w tk ch) as [[[w' tk'] sp]|] eqn:Es; [|done]. intros [= <-]. eapply s_task; [done| |done].
    unfold flight_ok. rewrite Ef. by destruct (tk_pc tk).
  - destruct (_ && _) eqn:E; [|done]. apply andb_true_iff in E as [E E2]. apply andb_true_iff in E as [E0 E1].
    intros [= <-]. apply s_tick; [by apply clock_okb_ok|lia..].
Qed.

Lemma exec_reachable s l s' : reachable s -> exec s l = Some s' -> reachable s'.
Proof.
  revert s; induction l as [|a l IH]; intros s Hr; [intros [= <-]; done|]. cbn [exec].
  destruct (exec1 s a) as [s1|] eqn:E; [|done]. cbn [mbind option_bind]. apply IH. by eapply r_step, exec1_step.
Qed.

End System.

(* ------------------------------------------------------------------ *)
(** ** Concrete runs on caches that forget nothing early *)

#[local] Existing Instance map_cache.

Definition clock0 : Clock := mkClock 0 0.
Definition ip1 : IpAddr := IpV4 [192; 0; 9; 1].
Definition answers (thread : nat) : Choice := mkChoice thread (inl ([ip1], secs 10)) FOwner true.
Definition fails (thread : nat) : Choice := mkChoice thread (inr Verdict) FOwner true.

(** The state after a run, and whether the run is possible. *)
Definition run_state (l : list Action) : World * list Task :=
  default (world_init clock0, []) (exec Ipv4 (world_init clock0, []) l).

Lemma run_reachable l : reachable Ipv4 (run_state l).
Proof.
  assert (H0 : reachable Ipv4 (world_init clock0, [])) by (by apply r_init, clock_okb_ok).
  unfold run_state. destruct (exec Ipv4 _ l) eqn:E; cbn [default]; [by eapply exec_reachable|done].
Qed.

Lemma run_reachable_pair l : reachable Ipv4 ((run_state l).1, (run_state l).2).
Proof. rewrite <- surjective_pairing. apply run_reachable. Qed.

(** A cold resolution of ["a"] by task 0 that gets an answer, and one that fails. *)
Definition cold_run (n : nat) (ch : Choice) : list Action := ACall [97] 53 false :: repeat (AStep 0 ch) n.

Lemma refusal_current_witness :
  let w := (run_state (cold_run 10 (fails 3))).1 in
  lookup_cached_fast (w_clock w) (w_epoch w) (w_memos w 3%nat) [65; 46] 53 = Ok LNegative /\
  exists h1 x h2 t f, w_hist w = h1 ++ EvVerdict [97] x :: h2 /\ bumps h2 = 0 /\
    EvFail [97] t f ∈ h1 /\ x = t + retry_ttl f.
Proof.
  intros w. assert (H : lookup_cached_fast (w_clock w) (w_epoch w) (w_memos w 3%nat) [65; 46] 53 = Ok LNegative)
    by (vm_compute; reflexivity).
  split; [exact H|].
  apply (refusal_current Ipv4 w (run_state (cold_run 10 (fails 3))).2 3 [65; 46] 53);
    [apply run_reachable_pair|vm_compute; repeat split; congruence|vm_compute; congruence|exact H].
Defined.

Lemma sync_answer_origin_witness :
  let w := (run_state (cold_run 9 (answers 3))).1 in
  0 < 10000 /\ exists t ttl ips ip, EvAnswer [97] t ttl ips ∈ w_hist w /\
    head (prepare_cache_ips Ipv4 ips) = Some ip /\ SockV4 [192; 0; 9; 1] 53 = sa_new ip 53 /\
    w_now w < t + record_ttl ttl + DNS_STALE_WINDOW + ms UPKEEP_INTERVAL_MS.
Proof.
  intros w. apply (sync_answer_origin Ipv4 w (run_state (cold_run 9 (answers 3))).2 3 [65; 46] 53);
    [apply run_reachable_pair|vm_compute; repeat split; congruence|vm_compute; reflexivity].
Defined.

Lemma async_answer_origin_witness :
  let w := (run_state (cold_run 9 (answers 3))).1 in
  exists t ttl ips, EvAnswer [97] t ttl ips ∈ w_hist w /\
    [SockV4 [192; 0; 9; 1] 53] = attach_port (prepare_cache_ips Ipv4 ips) 53.
Proof.
  intros w. set (tk := mkTask [97] 53 [97; 0; 53; 51] [97] (PDone (ROk [SockV4 [192; 0; 9; 1] 53]))).
  apply (async_answer_origin Ipv4 w (run_state (cold_run 9 (answers 3))).2 tk (ROk [SockV4 [192; 0; 9; 1] 53]));
    [apply run_reachable_pair| |reflexivity].
  assert (E : (run_state (cold_run 9 (answers 3))).2 = [tk]) by (vm_compute; reflexivity).
  rewrite E. apply list_elem_of_singleton. reflexivity.
Defined.

(** A stale answer can be served past its stale window.  A name whose records
    ask for 10 s is answered at instant 0 and never again; 3899 s later, 289 s
    after its freshness deadline plus [DNS_STALE_WINDOW], a caller still gets
    that address, because the cache keeps an entry for the longest record
    lifetime plus the window and nothing compares the entry's own deadline with
    the window. *)
Theorem stale_past_window :
  let before := run_state (cold_run 9 (answers 3) ++ [ATick (mkClock (secs 3899) (secs 3899))]) in
  w_hist before.1 = [EvAnswer [97] 0 (secs 10) [ip1]] /\
  0 + record_ttl (secs 10) + DNS_STALE_WINDOW + secs 289 = w_now before.1 /\
  exists after, exec Ipv4 before (ACall [97] 53 false :: repeat (AStep 1 (fails 3)) 4) = Some after /\
    (tk_pc <$> after.2 !! 1%nat) = Some (PDone (ROk [sa_new ip1 53])).
Proof.
  intros before. split; [vm_compute; reflexivity|]. split; [vm_compute; reflexivity|].
  destruct (exec Ipv4 before _) as [after|] eqn:E.
  - exists after. split; [reflexivity|].
    assert (H : (tk_pc <$> (default before (exec Ipv4 before (ACall [97] 53 false :: repeat (AStep 1 (fails 3)) 4))).2 !! 1%nat)
                = Some (PDone (ROk [sa_new ip1 53]))) by (vm_compute; reflexivity).
    by rewrite E in H.
  - assert (H : (if exec Ipv4 before (ACall [97] 53 false :: repeat (AStep 1 (fails 3)) 4) is Some _ then true else false) = true)
      by (vm_compute; reflexivity).
    by rewrite E in H.
Qed.
