(* ===== verification/Pin.v ===== *)
(** Destination pinning in the server ([src/bin/myquic2-server/pin.rs]): the
    recent-destination ring that filters replies, the per-session destination
    memo, the connection pin, and the cached address policy. *)
From S2P Require Import Prelude Addr DnsKey DnsPolicy DnsMemo.

(* ------------------------------------------------------------------ *)
(** ** Recent destinations *)

Definition RECENT_DST_CAP : Z := 16.

Record RecentAddrs : Type := mkRecent { ra_slots : list (option IpAddr); ra_pos : Z }.

Definition RecentAddrs_default : RecentAddrs := mkRecent (repeat None (Z.to_nat RECENT_DST_CAP)) 0.

(** [self.slots[i]] for an index that is reduced modulo the capacity. *)
Definition slot_at (r : RecentAddrs) (i : Z) : option IpAddr := mjoin (ra_slots r !! Z.to_nat (i mod RECENT_DST_CAP)).

Definition contains_ip (r : RecentAddrs) (ip : IpAddr) : bool :=
  if negb (ra_pos r =? 0) && bool_decide (slot_at r (ra_pos r - 1) = Some ip) then true
  else bool_decide (Some ip ∈ ra_slots r).

Definition recent_push (r : RecentAddrs) (dst : SocketAddr) : RecentAddrs :=
  let ip := unmap (sa_ip dst) in
  if contains_ip r ip then r
  else mkRecent (<[Z.to_nat (ra_pos r mod RECENT_DST_CAP) := Some ip]> (ra_slots r)) (as_u64 (ra_pos r + 1)).

Definition recent_contains (r : RecentAddrs) (src : SocketAddr) : bool := contains_ip r (unmap (sa_ip src)).

(* ------------------------------------------------------------------ *)
(** ** Keys *)

Definition DEST_KEY_BYTES : Z := 255.

Record PortKey : Type := mkPortKey { pk_host_len : Z; pk_host : bytes; pk_port : Z }.

Definition PortKey_EMPTY : PortKey := mkPortKey 0 (repeat 0 (Z.to_nat DEST_KEY_BYTES)) 0.

Definition PortKey_new (host : bytes) (port : Z) : option PortKey :=
  if DEST_KEY_BYTES <? len host then None
  else Some (mkPortKey (as_u8 (len host)) (host ++ drop (length host) (pk_host PortKey_EMPTY)) port).

Definition pk_matches (k : PortKey) (host : bytes) (port : Z) : bool :=
  (pk_port k =? port) && (pk_host_len k =? len host)
  && bool_decide (take (Z.to_nat (pk_host_len k)) (pk_host k) = host).

(* ------------------------------------------------------------------ *)
(** ** The session's destination memo *)

Record DestMemo : Type := mkDest { dm_key : PortKey; dm_addr : SocketAddr; dm_expires : Z }.

Definition DestMemo_NONE : DestMemo := mkDest PortKey_EMPTY (SockV4 [0; 0; 0; 0] 0) 0.

Definition dest_get (d : DestMemo) (now : Z) (host : bytes) (port : Z) : option SocketAddr :=
  if (now <? dm_expires d) && pk_matches (dm_key d) host port then Some (dm_addr d) else None.

Definition dest_is_for (d : DestMemo) (host : bytes) (port : Z) (addr : SocketAddr) : bool :=
  bool_decide (dm_addr d = addr) && pk_matches (dm_key d) host port.

Definition DEST_PIN_TTL_MS : Z := 30000.
Definition DEST_PIN_REFRESH_MS : Z := DEST_PIN_TTL_MS / 4.

Definition pin_life_ms (remaining_ms : Z) : Z := Z.min DEST_PIN_TTL_MS remaining_ms.

(* ------------------------------------------------------------------ *)
(** ** The connection pin *)

Definition PIN_HOST_BYTES : Z := 255.

Record ConnPin : Type := mkPin {
  cp_sess : Z;
  cp_host_len : Z;
  cp_host : bytes;
  cp_port : Z;
  cp_addr : SocketAddr;
  cp_expires : Z
}.

Definition pin_is_for (pin : ConnPin) (host : bytes) (port : Z) : bool :=
  (cp_port pin =? port) && (cp_host_len pin =? len host)
  && bool_decide (take (Z.to_nat (cp_host_len pin)) (cp_host pin) = host).

Definition pin_arm (c : Clock) (pin : option ConnPin) (s : Z) (host : bytes) (port : Z) (addr : SocketAddr) (life_ms : Z)
    : option ConnPin :=
  if PIN_HOST_BYTES <? len host then pin
  else
    let n := as_u8 (len host) in
    Some (mkPin s n (take (Z.to_nat n) host ++ drop (Z.to_nat n) (repeat 0 (Z.to_nat PIN_HOST_BYTES))) port addr
            (coarse_millis c + pin_life_ms life_ms)).

(* ------------------------------------------------------------------ *)
(** ** The cached policy *)

Definition SLOTS : Z := 64.

Definition ip_fold (words : list Z) : Z := fold_left (fun h o => as_u64 (wrapping_mul h HASH_K + o)) words 0.
Definition ip_cache_idx (ip : IpAddr) : Z :=
  match ip with
  | IpV4 o => ip_fold o mod SLOTS
  | IpV6 o => ip_fold (segments o) mod SLOTS
  end.

Abbreviation PolicyCache := (list (option IpAddr * bool)).
Definition policy_cache_init : PolicyCache := repeat (None, false) (Z.to_nat SLOTS).

Section Cached.
Context `{IpNet}.

(** The slot's index is reduced modulo the array's length. *)
Definition is_global_ip_cached (c : PolicyCache) (ip : IpAddr) : bool * PolicyCache :=
  let i := Z.to_nat (ip_cache_idx ip) in
  let slot := c !!! i in
  if bool_decide (slot.1 = Some ip) then (slot.2, c)
  else
    let v := is_global_ip ip in
    (v, <[i := (Some ip, v)]> c).

Definition fast_allow (c : PolicyCache) (allow_private : bool) (dst : SocketAddr) : bool * PolicyCache :=
  if allow_private then (true, c) else is_global_ip_cached c (sa_ip dst).

(** What the memo may hold: verdicts of the policy itself. *)
Definition policy_ok (c : PolicyCache) : Prop :=
  length c = Z.to_nat SLOTS /\ forall i ip v, c !! i = Some (Some ip, v) -> v = is_global_ip ip.

Lemma policy_init_ok : policy_ok policy_cache_init.
Proof.
  split; [by apply List.repeat_length|]. intros i ip v E.
  apply list_elem_of_lookup_2, list_elem_of_In, repeat_spec in E. done.
Qed.

Lemma ip_cache_idx_lt ip : (Z.to_nat (ip_cache_idx ip) < Z.to_nat SLOTS)%nat.
Proof. assert (0 <= ip_cache_idx ip < SLOTS) by (unfold ip_cache_idx; destruct ip; by apply Z.mod_pos_bound). lia. Qed.

(** A collision costs a slot, never a wrong verdict. *)
Lemma is_global_ip_cached_spec c ip : policy_ok c ->
  (is_global_ip_cached c ip).1 = is_global_ip ip /\ policy_ok (is_global_ip_cached c ip).2.
Proof.
  intros [Hl Hc]. unfold is_global_ip_cached. pose proof (ip_cache_idx_lt ip) as Hi.
  destruct (lookup_lt_is_Some_2 c (Z.to_nat (ip_cache_idx ip)) ltac:(lia)) as [[o v] E].
  rewrite (list_lookup_total_correct _ _ _ E). cbn [fst snd]. case_bool_decide as Ho.
  - subst o. split; [by apply Hc in E|done].
  - split; [done|]. split; [cbn [snd]; by rewrite length_insert|]. intros j ip' v' Ej. cbn [snd] in Ej.
    destruct (decide (j = Z.to_nat (ip_cache_idx ip))) as [->|Hj].
    + rewrite list_lookup_insert_eq in Ej by lia. by simplify_eq.
    + rewrite list_lookup_insert_ne in Ej by done. by apply Hc in Ej.
Qed.

Lemma fast_allow_spec c allow dst : policy_ok c ->
  (fast_allow c allow dst).1 = allow || is_global_ip (sa_ip dst) /\ policy_ok (fast_allow c allow dst).2.
Proof. intros Hc. unfold fast_allow. destruct allow; [done|]. by apply is_global_ip_cached_spec. Qed.

End Cached.

(* ------------------------------------------------------------------ *)
(** ** The ring is the last sixteen distinct destinations *)

(** The allowlist a ring stands for, the latest first. *)
Definition recent_spec (l : list IpAddr) (dst : SocketAddr) : list IpAddr :=
  let ip := unmap (sa_ip dst) in
  if bool_decide (ip ∈ l) then l else take (Z.to_nat RECENT_DST_CAP) (ip :: l).

(** A ring after [n] writes that stands for [l]: counted back from the last
    write, its slots are the elements of [l]. *)
Definition ring_ok (r : RecentAddrs) (l : list IpAddr) (n : Z) : Prop :=
  length (ra_slots r) = Z.to_nat RECENT_DST_CAP /\ ra_pos r = as_u64 n /\ 0 <= n /\
  len l = Z.min n RECENT_DST_CAP /\
  forall j, 0 <= j < RECENT_DST_CAP -> slot_at r (n - 1 - j) = l !! Z.to_nat j.

Lemma ring_init : ring_ok RecentAddrs_default [] 0.
Proof.
  split; [done|]. split; [done|]. split; [lia|]. split; [done|]. intros j Hj. unfold slot_at, RecentAddrs_default. cbn [ra_slots].
  unfold RECENT_DST_CAP in *. rewrite lookup_nil.
  destruct (repeat None (Z.to_nat 16) !! Z.to_nat ((0 - 1 - j) mod 16)) as [x|] eqn:E; [|done].
  apply list_elem_of_lookup_2, list_elem_of_In, repeat_spec in E as ->. done.
Qed.

Lemma ring_elem r l n ip : ring_ok r l n -> Some ip ∈ ra_slots r <-> ip ∈ l.
Proof.
  intros (Hl & _ & Hn & Hll & Hs). unfold slot_at, RECENT_DST_CAP in *. rewrite !list_elem_of_lookup. split.
  - intros [i Hi]. assert ((i < 16)%nat) by (apply lookup_lt_Some in Hi; lia).
    exists (Z.to_nat ((n - 1 - Z.of_nat i) mod 16)).
    pose proof (Z.mod_pos_bound (n - 1 - Z.of_nat i) 16 eq_refl) as Hb. rewrite <- Hs by lia.
    replace ((n - 1 - (n - 1 - Z.of_nat i) mod 16) mod 16) with (Z.of_nat i).
    + by rewrite Nat2Z.id, Hi.
    + rewrite Zminus_mod_idemp_r. replace (n - 1 - (n - 1 - Z.of_nat i)) with (Z.of_nat i) by lia. symmetry. apply Z.mod_small. lia.
  - intros [j Hj]. assert (Z.of_nat j < 16) by (apply lookup_lt_Some in Hj; unfold len in Hll; lia).
    exists (Z.to_nat ((n - 1 - Z.of_nat j) mod 16)). specialize (Hs (Z.of_nat j) ltac:(lia)). rewrite Nat2Z.id, Hj in Hs.
    destruct (ra_slots r !! _) as [x|]; cbn in Hs; [by rewrite Hs|done].
Qed.

Lemma ring_contains r l n ip : ring_ok r l n -> contains_ip r ip = bool_decide (ip ∈ l).
Proof.
  intros Hr. assert (He := ring_elem r l n ip Hr). unfold contains_ip. destruct (negb _ && _) eqn:E.
  - symmetry. apply bool_decide_eq_true. apply andb_true_iff in E as [_ E]. apply bool_decide_eq_true in E. apply He.
    unfold slot_at in E. destruct (ra_slots r !! _) as [x|] eqn:Ex; cbn in E; [|done]. subst x. by eapply list_elem_of_lookup_2.
  - apply bool_decide_ext. exact He.
Qed.

Lemma as_u64_mod16 n : as_u64 n mod 16 = n mod 16.
Proof. unfold as_u64. symmetry. apply Znumtheory.Zmod_div_mod; [lia|lia|]. exists (2 ^ 60). reflexivity. Qed.

Lemma ring_push r l n dst : ring_ok r l n -> exists n', ring_ok (recent_push r dst) (recent_spec l dst) n'.
Proof.
  intros Hr. unfold recent_push, recent_spec. rewrite (ring_contains r l n) by done.
  case_bool_decide as Hin; [by exists n|]. exists (n + 1). destruct Hr as (Hl & Hp & Hn & Hll & Hs).
  unfold ring_ok, slot_at in *. cbn [ra_slots ra_pos]. unfold RECENT_DST_CAP in *. rewrite Hp, as_u64_mod16.
  set (ip := unmap (sa_ip dst)). pose proof (Z.mod_pos_bound n 16 eq_refl) as Hb.
  split; [by rewrite length_insert|]. split; [unfold as_u64; by rewrite Zplus_mod_idemp_l|]. split; [lia|].
  split; [rewrite len_take, len_cons by lia; lia|].
  intros j Hj. rewrite lookup_take_lt by lia. destruct (Z.eq_dec j 0) as [->|Hj0].
  - replace (n + 1 - 1 - 0) with n by lia. by rewrite list_lookup_insert_eq by lia.
  - replace (n + 1 - 1 - j) with (n - 1 - (j - 1)) by lia.
    assert (Hne : (n - 1 - (j - 1)) mod 16 <> n mod 16).
    { replace (n - 1 - (j - 1)) with (n - j) by lia. intros E.
      assert (Hz : j mod 16 = 0). { replace j with (n - (n - j)) by lia. by rewrite Zminus_mod, E, Z.sub_diag. }
      rewrite Z.mod_small in Hz by lia. lia. }
    pose proof (Z.mod_pos_bound (n - 1 - (j - 1)) 16 eq_refl). rewrite list_lookup_insert_ne by lia.
    rewrite Hs by lia. replace (Z.to_nat j) with (S (Z.to_nat (j - 1))) by lia. done.
Qed.

Lemma ring_run dsts r l n : ring_ok r l n ->
  exists n', ring_ok (fold_left recent_push dsts r) (fold_left recent_spec dsts l) n'.
Proof.
  revert r l n; induction dsts as [|d dsts IH]; intros r l n Hr; [by exists n|]. cbn [fold_left].
  destruct (ring_push r l n d Hr) as [n' Hr']. by apply (IH _ _ n').
Qed.

(** What the allowlist holds: destinations that were sent to, and all of the
    last sixteen distinct ones. *)
Lemma recent_spec_sound dsts l ip : ip ∈ fold_left recent_spec dsts l -> ip ∈ l \/ exists d, d ∈ dsts /\ ip = unmap (sa_ip d).
Proof.
  revert l; induction dsts as [|d dsts IH]; intros l H; [by left|]. cbn [fold_left] in H.
  destruct (IH _ H) as [Hl|(d' & Hd & ->)]; [|right; exists d'; split; [set_solver|done]].
  unfold recent_spec in Hl. case_bool_decide; [by left|]. apply subseteq_take, elem_of_cons in Hl as [->|Hl]; [|by left]. right. exists d. split; [set_solver|done].
Qed.

(** C13: the reply filter.  After any sequence of sends, a source passes exactly
    when its unmapped address is in the list of the last sixteen distinct
    destinations, kept in order of first use: it never passes for an address the
    session has not sent to, the port and the IPv4-mapped spelling do not
    matter, and the destination just sent to always passes. *)
Theorem reply_filter_exact (dsts : list SocketAddr) (src : SocketAddr) :
  let r := fold_left recent_push dsts RecentAddrs_default in
  recent_contains r src = bool_decide (unmap (sa_ip src) ∈ fold_left recent_spec dsts []) /\
  (recent_contains r src = true -> exists d, d ∈ dsts /\ unmap (sa_ip d) = unmap (sa_ip src)) /\
  (forall d dsts', dsts = dsts' ++ [d] -> unmap (sa_ip d) = unmap (sa_ip src) -> recent_contains r src = true).
Proof.
  intros r. destruct (ring_run dsts _ _ 0 ring_init) as [n Hr]. fold r in Hr. unfold recent_contains.
  rewrite (ring_contains _ _ _ _ Hr). split; [done|]. split.
  - intros H%bool_decide_eq_true. apply recent_spec_sound in H as [H|(d & Hd & E)]; [by apply elem_of_nil in H|]. by exists d.
  - intros d dsts' -> <-. apply bool_decide_eq_true. rewrite fold_left_app. cbn [fold_left]. unfold recent_spec at 1.
    case_bool_decide as Hin; [done|]. cbn. set_solver.
Qed.
