(* ===== verification/FastTable.v ===== *)
(** The datagram reader's fast table ([FastTable] of
    [src/bin/myquic2-server/accept.rs]): a set-associative cache from session ids
    to the session's handles, with the side cache of domain pins.

    The arrays have fixed lengths; every index comes from [probe], [arm_index] or
    a scan of the pins, and [ft_inv] keeps it in range.  A slot's socket, stamp,
    abort handle and epoch are those of one session, named by its handle. *)
From S2P Require Import Prelude Addr DnsKey DnsPolicy DnsMemo Pin.

(** [size_of::<FastSess>()], the layout the code asserts. *)
Definition FAST_SESS_SIZE : Z := 88.
Definition FAST_TABLE_ARRAY_BYTES : Z := 128 * (432 + 12).
Definition FAST_SESS_SLOTS : Z := FAST_TABLE_ARRAY_BYTES / (FAST_SESS_SIZE + 12).
Definition FAST_TABLE_GROUPS : Z := 8.
Definition FAST_GROUP_SLOTS : Z := FAST_SESS_SLOTS / FAST_TABLE_GROUPS.
Definition DOMAIN_PIN_SLOTS : Z := 48.
Definition EMPTY_TAG : Z := 0.
Definition FAST_STATS_EVERY : Z := 8192.

Record FastSess : Type := mkFastSess { fs_sess : Z; fs_h : Z; fs_last_dst : option (Z * SocketAddr * Z) }.

Record FastTable : Type := mkFast {
  ft_tags : list Z;
  ft_ages : list Z;
  ft_slots : list (option FastSess);
  ft_pin_tags : list Z;
  ft_pins : list (option ConnPin);
  ft_probe_cache : option (Z * nat);
  ft_hits : Z;
  ft_misses : Z
}.

Definition FastTable_new : FastTable :=
  mkFast (repeat EMPTY_TAG (Z.to_nat FAST_SESS_SLOTS)) (repeat 0 (Z.to_nat FAST_SESS_SLOTS)) (repeat None (Z.to_nat FAST_SESS_SLOTS))
    (repeat EMPTY_TAG (Z.to_nat DOMAIN_PIN_SLOTS)) (repeat None (Z.to_nat DOMAIN_PIN_SLOTS)) None 0 0.

Definition with_fast (tags ages : list Z) (slots : list (option FastSess)) (cache : option (Z * nat)) (t : FastTable) : FastTable :=
  mkFast tags ages slots (ft_pin_tags t) (ft_pins t) cache (ft_hits t) (ft_misses t).
Definition with_pins (tags : list Z) (pins : list (option ConnPin)) (t : FastTable) : FastTable :=
  mkFast (ft_tags t) (ft_ages t) (ft_slots t) tags pins (ft_probe_cache t) (ft_hits t) (ft_misses t).
Definition with_counts (hits misses : Z) (t : FastTable) : FastTable :=
  mkFast (ft_tags t) (ft_ages t) (ft_slots t) (ft_pin_tags t) (ft_pins t) (ft_probe_cache t) hits misses.

(** [.iter().position(p)]. *)
Fixpoint position {A} (p : A -> bool) (l : list A) : option nat :=
  match l with
  | [] => None
  | x :: l => if p x then Some 0%nat else S <$> position p l
  end.

Definition group_ways : nat := Z.to_nat FAST_GROUP_SLOTS.
Definition group_start (s : Z) : nat := Z.to_nat (Z.land s (FAST_TABLE_GROUPS - 1) * FAST_GROUP_SLOTS).

Definition probe (t : FastTable) (s : Z) : option nat :=
  if s =? EMPTY_TAG then None
  else (fun i => (group_start s + i)%nat) <$> position (fun tag => tag =? s) (take group_ways (drop (group_start s) (ft_tags t))).

Definition probe_cached (s : Z) (t : FastTable) : option nat * FastTable :=
  let scan := let idx := probe t s in (idx, with_fast (ft_tags t) (ft_ages t) (ft_slots t) ((fun i => (s, i)) <$> idx) t) in
  match ft_probe_cache t with
  | Some (cached, idx) => if (cached =? s) && (ft_tags t !!! idx =? s) then (Some idx, t) else scan
  | None => scan
  end.

(** What goes to the process-wide counters, and the table. *)
Definition flush_stats (t : FastTable) : (Z * Z) * FastTable := ((ft_hits t, ft_misses t), with_counts 0 0 t).
Definition note_path (hit : bool) (t : FastTable) : (Z * Z) * FastTable :=
  let t := if hit then with_counts (ft_hits t + 1) (ft_misses t) t else with_counts (ft_hits t) (ft_misses t + 1) t in
  if Z.land (ft_hits t + ft_misses t) (FAST_STATS_EVERY - 1) =? 0 then flush_stats t else ((0, 0), t).

(** The one pass of [arm_index] over a set: the slot of [s], else the first free
    one, else the quietest. *)
Fixpoint arm_scan (t : FastTable) (s : Z) (idxs : list nat) (free : option nat) (victim : nat) (oldest : Z) : nat :=
  match idxs with
  | [] => default victim free
  | idx :: idxs =>
      let tag := ft_tags t !!! idx in
      if negb (s =? EMPTY_TAG) && (tag =? s) then idx
      else if tag =? EMPTY_TAG then arm_scan t s idxs (match free with None => Some idx | Some _ => free end) victim oldest
      else if ft_ages t !!! idx <? oldest then arm_scan t s idxs free idx (ft_ages t !!! idx)
      else arm_scan t s idxs free victim oldest
  end.
Definition arm_index (t : FastTable) (s : Z) : nat :=
  arm_scan t s (seq (group_start s) group_ways) None (group_start s) (2 ^ 64 - 1).

Definition get_slot (t : FastTable) (idx : nat) : option FastSess := mjoin (ft_slots t !! idx).

(** [insert]; [last] is the session's stamp.  The debug assertion on the set is
    [ft_inv]'s. *)
Definition fast_insert (idx : nat) (entry : FastSess) (last : Z) (t : FastTable) : FastTable :=
  with_fast (<[idx := fs_sess entry]> (ft_tags t)) (<[idx := last]> (ft_ages t)) (<[idx := Some entry]> (ft_slots t)) None t.

Definition fast_touch (idx : nat) (stamp : Z) (t : FastTable) : FastTable :=
  if ft_ages t !!! idx <? stamp then with_fast (ft_tags t) (<[idx := stamp]> (ft_ages t)) (ft_slots t) (ft_probe_cache t) t else t.

(** The slot's mirror, written through [get_mut]. *)
Definition set_last_dst (idx : nat) (m : option (Z * SocketAddr * Z)) (t : FastTable) : FastTable :=
  with_fast (ft_tags t) (ft_ages t) (alter (fmap (fun e => mkFastSess (fs_sess e) (fs_h e) m)) idx (ft_slots t)) (ft_probe_cache t) t.

(* ------------------------------------------------------------------ *)
(** ** Domain pins *)

Definition pin_clear (s : Z) (t : FastTable) : FastTable :=
  match position (fun tag => tag =? s) (ft_pin_tags t) with
  | Some idx => with_pins (<[idx := EMPTY_TAG]> (ft_pin_tags t)) (<[idx := None]> (ft_pins t)) t
  | None => t
  end.

Definition pin_get (c : Clock) (s : Z) (host : bytes) (port : Z) (t : FastTable) : option SocketAddr :=
  match position (fun tag => tag =? s) (ft_pin_tags t) with
  | Some idx =>
      match mjoin (ft_pins t !! idx) with
      | Some pin => if (cp_sess pin =? s) && pin_is_for pin host port && (coarse_millis c <? cp_expires pin) then Some (cp_addr pin) else None
      | None => None
      end
  | None => None
  end.

(** The pin that expires first. *)
Fixpoint pin_victim (pins : list (option ConnPin)) (i victim : nat) (earliest : Z) : nat :=
  match pins with
  | [] => victim
  | p :: pins =>
      let expires := match p with Some p => cp_expires p | None => 0 end in
      if expires <? earliest then pin_victim pins (S i) i expires else pin_victim pins (S i) victim earliest
  end.

Definition pin_slot (s : Z) (t : FastTable) : nat :=
  match position (fun tag => tag =? s) (ft_pin_tags t) with
  | Some i => i
  | None =>
      match position (fun tag => tag =? EMPTY_TAG) (ft_pin_tags t) with
      | Some i => i
      | None => pin_victim (ft_pins t) 0 0 (2 ^ 64 - 1)
      end
  end.
Definition pin_store (pin : ConnPin) (t : FastTable) : FastTable :=
  let idx := pin_slot (cp_sess pin) t in
  with_pins (<[idx := cp_sess pin]> (ft_pin_tags t)) (<[idx := Some pin]> (ft_pins t)) t.

Definition pin_cache (c : Clock) (s : Z) (host : bytes) (port : Z) (addr : SocketAddr) (life : Z) (t : FastTable) : FastTable :=
  match pin_arm c None s host port addr life with
  | Some pin => pin_store pin t
  | None => t
  end.

(** [clear]: the entry and the pin of a session. *)
Definition fast_clear (s : Z) (t : FastTable) : bool * FastTable :=
  let t := pin_clear s t in
  let t := with_fast (ft_tags t) (ft_ages t) (ft_slots t) None t in
  match probe t s with
  | Some idx => (true, with_fast (<[idx := EMPTY_TAG]> (ft_tags t)) (<[idx := 0]> (ft_ages t)) (<[idx := None]> (ft_slots t)) None t)
  | None => (false, t)
  end.

(** [arm_fast] on a fresh memo entry: [finished] and [last] are what the slot's
    handles say now; [h] is the memo's session, with its stamp [last_h]. *)
Definition arm_fresh (s h : Z) (finished : Z -> bool) (last : Z -> Z) (t : FastTable) : FastTable :=
  let idx := arm_index t s in
  match get_slot t idx with
  | Some slot =>
      if (fs_sess slot =? s) && negb (finished (fs_h slot)) then fast_touch idx (last (fs_h slot)) t
      else fast_insert idx (mkFastSess s h None) (last h) t
  | None => fast_insert idx (mkFastSess s h None) (last h) t
  end.

(* ------------------------------------------------------------------ *)
(** ** The invariant *)

Definition in_group (s : Z) (i : nat) : Prop := (group_start s <= i < group_start s + group_ways)%nat.

Record ft_inv (t : FastTable) : Prop := mkFtInv {
  fi_tags : length (ft_tags t) = Z.to_nat FAST_SESS_SLOTS;
  fi_ages : length (ft_ages t) = Z.to_nat FAST_SESS_SLOTS;
  fi_slots : length (ft_slots t) = Z.to_nat FAST_SESS_SLOTS;
  fi_free i : ft_tags t !! i = Some EMPTY_TAG -> ft_slots t !! i = Some None;
  fi_used i s : ft_tags t !! i = Some s -> s <> EMPTY_TAG -> in_group s i /\ exists e, ft_slots t !! i = Some (Some e) /\ fs_sess e = s;
  fi_once i j s : ft_tags t !! i = Some s -> ft_tags t !! j = Some s -> s <> EMPTY_TAG -> i = j;
  fi_cache s i : ft_probe_cache t = Some (s, i) -> s <> EMPTY_TAG /\ (i < Z.to_nat FAST_SESS_SLOTS)%nat;
  fi_pin_tags : length (ft_pin_tags t) = Z.to_nat DOMAIN_PIN_SLOTS;
  fi_pins : length (ft_pins t) = Z.to_nat DOMAIN_PIN_SLOTS
}.

(** Stamps are machine words. *)
Definition ages_ok (t : FastTable) : Prop := forall i a, ft_ages t !! i = Some a -> is_u64 a.

Lemma group_fits s : (group_start s + group_ways <= Z.to_nat FAST_SESS_SLOTS)%nat.
Proof.
  unfold group_start, group_ways. assert (H : 0 <= Z.land s (FAST_TABLE_GROUPS - 1) <= 7).
  { change (FAST_TABLE_GROUPS - 1) with (Z.ones 3). rewrite Z.land_ones by lia. pose proof (Z.mod_pos_bound s (2 ^ 3) eq_refl). lia. }
  change FAST_GROUP_SLOTS with 71. change FAST_SESS_SLOTS with 568. lia.
Qed.

Lemma position_Some {A} (p : A -> bool) l i : position p l = Some i -> exists x, l !! i = Some x /\ p x = true.
Proof.
  revert i; induction l as [|x l IH]; intros i E; cbn in E; [done|]. destruct (p x) eqn:Ep; [injection E as <-; by exists x|].
  apply fmap_Some in E as (j & Ej & ->). by apply IH.
Qed.
Lemma position_None {A} (p : A -> bool) l i x : position p l = None -> l !! i = Some x -> p x = false.
Proof.
  revert i; induction l as [|y l IH]; intros i E Ei; cbn in E; [done|]. destruct (p y) eqn:Ep; [done|]. apply fmap_None in E.
  destruct i as [|i]; cbn in Ei; [by simplify_eq | by eapply IH].
Qed.

Lemma group_lookup (l : list Z) s i : (i < group_ways)%nat -> take group_ways (drop (group_start s) l) !! i = l !! (group_start s + i)%nat.
Proof. intros Hi. by rewrite lookup_take_lt, lookup_drop. Qed.

(** The probe finds a session's slot, and only it. *)
Lemma probe_iff t s i : ft_inv t -> s <> EMPTY_TAG -> probe t s = Some i <-> ft_tags t !! i = Some s.
Proof.
  intros Ht Hs. unfold probe. rewrite (proj2 (Z.eqb_neq _ _)) by done.
  assert (Hin : forall j, position (fun tag => tag =? s) (take group_ways (drop (group_start s) (ft_tags t))) = Some j ->
    ft_tags t !! (group_start s + j)%nat = Some s).
  { intros j Hj. apply position_Some in Hj as (x & Hx & E). apply Z.eqb_eq in E as ->. rewrite <- group_lookup; [done|].
    apply lookup_lt_Some in Hx. rewrite length_take in Hx. lia. }
  split.
  - intros (j & Hj & ->)%fmap_Some. by apply Hin.
  - intros Ei. destruct (fi_used _ Ht i s Ei Hs) as [[Hlo Hhi] _]. destruct (position _ _) as [j|] eqn:Ej; cbn.
    + f_equal. eapply (fi_once _ Ht); [by apply Hin | exact Ei | done].
    + exfalso. assert (Hb := position_None _ _ (i - group_start s) s Ej). rewrite group_lookup in Hb by lia.
      replace (group_start s + (i - group_start s))%nat with i in Hb by lia. specialize (Hb Ei). rewrite Z.eqb_refl in Hb. done.
Qed.

Lemma probe_empty t : probe t EMPTY_TAG = None.
Proof. done. Qed.

(** The session's entry, as the probe reaches it. *)
Definition fast_lookup (t : FastTable) (s : Z) : option FastSess :=
  match probe t s with Some i => get_slot t i | None => None end.

Lemma fast_lookup_Some t s e : ft_inv t -> s <> EMPTY_TAG ->
  fast_lookup t s = Some e <-> exists i, ft_tags t !! i = Some s /\ ft_slots t !! i = Some (Some e).
Proof.
  intros Ht Hs. unfold fast_lookup, get_slot. split.
  - destruct (probe t s) as [i|] eqn:Ep; [|done]. intros E. exists i. split; [by apply probe_iff|]. destruct (ft_slots t !! i) as [[x|]|]; cbn in E; congruence.
  - intros (i & Ei & Es). rewrite (proj2 (probe_iff t s i Ht Hs) Ei), Es. done.
Qed.

Lemma fast_lookup_None t s : ft_inv t -> s <> EMPTY_TAG -> fast_lookup t s = None <-> forall i, ft_tags t !! i <> Some s.
Proof.
  intros Ht Hs. split.
  - intros E i Ei. destruct (fi_used _ Ht i s Ei Hs) as (_ & e & Ee & _). assert (fast_lookup t s = Some e) by (apply fast_lookup_Some; eauto). congruence.
  - intros Hn. destruct (fast_lookup t s) as [e|] eqn:E; [|done]. apply fast_lookup_Some in E as (i & Ei & _); [|done..]. by destruct (Hn i).
Qed.

(** Lookups only look at the two arrays. *)
Lemma fast_lookup_same t t' s : ft_tags t' = ft_tags t -> ft_slots t' = ft_slots t -> fast_lookup t' s = fast_lookup t s.
Proof. intros E1 E2. unfold fast_lookup, probe, get_slot. by rewrite E1, E2. Qed.

Lemma probe_cached_spec s t : ft_inv t -> (probe_cached s t).1 = probe t s /\ ft_inv (probe_cached s t).2 /\
  ft_tags (probe_cached s t).2 = ft_tags t /\ ft_ages (probe_cached s t).2 = ft_ages t /\ ft_slots (probe_cached s t).2 = ft_slots t /\
  ft_pin_tags (probe_cached s t).2 = ft_pin_tags t /\ ft_pins (probe_cached s t).2 = ft_pins t.
Proof.
  intros Ht. unfold probe_cached.
  assert (Hscan : ft_inv (with_fast (ft_tags t) (ft_ages t) (ft_slots t) ((fun i => (s, i)) <$> probe t s) t)).
  { pose proof Ht as Ht'. destruct Ht. split; try done. cbn. intros s' i E. apply fmap_Some in E as (j & Ej & [= -> ->]).
    assert (Hs : s <> EMPTY_TAG) by (intros ->; by rewrite probe_empty in Ej). split; [done|].
    apply probe_iff in Ej; [|done..]. apply lookup_lt_Some in Ej. lia. }
  destruct (ft_probe_cache t) as [[cached idx]|] eqn:Ec; [|done]. destruct (_ && _) eqn:Eb; [|done]. cbn [fst snd]. split; [|done].
  apply andb_true_iff in Eb as [->%Z.eqb_eq Et%Z.eqb_eq]. destruct (fi_cache _ Ht _ _ Ec) as [Hs Hi].
  symmetry. apply probe_iff; [done | done|]. destruct (lookup_lt_is_Some_2 (ft_tags t) idx) as [x Ex]; [rewrite (fi_tags _ Ht); done|].
  rewrite (list_lookup_total_correct _ _ _ Ex) in Et. congruence.
Qed.

(* ------------------------------------------------------------------ *)
(** ** Choosing a slot *)

Section Arm.
Context (t : FastTable) (s : Z).
Hypothesis Hs : s <> EMPTY_TAG.

Abbreviation tag i := (ft_tags t !!! i).
Abbreviation age i := (ft_ages t !!! i).

Lemma arm_scan_own idxs : forall free victim oldest i, i ∈ idxs -> tag i = s ->
  tag (arm_scan t s idxs free victim oldest) = s /\ arm_scan t s idxs free victim oldest ∈ idxs.
Proof.
  induction idxs as [|j idxs IH]; intros free victim oldest i Hi Hti; [by apply elem_of_nil in Hi|]. cbn [arm_scan].
  rewrite (proj2 (Z.eqb_neq s EMPTY_TAG)) by done. cbn [negb andb].
  destruct (tag j =? s) eqn:Ej; [apply Z.eqb_eq in Ej; set_solver|]. apply elem_of_cons in Hi as [->|Hi]; [lia|].
  destruct (tag j =? EMPTY_TAG); [|destruct (age j <? oldest)]; match goal with |- context [arm_scan t s idxs ?f ?v ?o] => destruct (IH f v o i Hi Hti) end; set_solver.
Qed.

Lemma arm_scan_free idxs : (forall i, i ∈ idxs -> tag i <> s) -> forall f victim oldest, arm_scan t s idxs (Some f) victim oldest = f.
Proof.
  induction idxs as [|j idxs IH]; intros Hn f victim oldest; [done|]. cbn [arm_scan].
  rewrite (proj2 (Z.eqb_neq (tag j) s)), andb_false_r by (apply Hn; set_solver).
  repeat case_match; (apply IH; intros; apply Hn; set_solver).
Qed.

Lemma arm_scan_first idxs : (forall i, i ∈ idxs -> tag i <> s) -> forall victim oldest i, i ∈ idxs -> tag i = EMPTY_TAG ->
  tag (arm_scan t s idxs None victim oldest) = EMPTY_TAG /\ arm_scan t s idxs None victim oldest ∈ idxs.
Proof.
  induction idxs as [|j idxs IH]; intros Hn victim oldest i Hi Hti; [by apply elem_of_nil in Hi|]. cbn [arm_scan].
  rewrite (proj2 (Z.eqb_neq (tag j) s)), andb_false_r by (apply Hn; set_solver).
  assert (Hn' : forall i, i ∈ idxs -> tag i <> s) by (intros; apply Hn; set_solver).
  destruct (tag j =? EMPTY_TAG) eqn:Ej; [apply Z.eqb_eq in Ej; rewrite arm_scan_free by done; set_solver|].
  apply elem_of_cons in Hi as [->|Hi]; [lia|].
  destruct (age j <? oldest); match goal with |- context [arm_scan t s idxs ?f ?v ?o] => destruct (IH Hn' v o i Hi Hti) end; set_solver.
Qed.

Lemma arm_scan_lru idxs : (forall i, i ∈ idxs -> tag i <> s /\ tag i <> EMPTY_TAG) -> forall victim oldest,
  let r := arm_scan t s idxs None victim oldest in
  (r = victim /\ forall i, i ∈ idxs -> oldest <= age i) \/ (r ∈ idxs /\ age r < oldest /\ forall i, i ∈ idxs -> age r <= age i).
Proof.
  induction idxs as [|j idxs IH]; intros Hn victim oldest; cbn [arm_scan]; [left; set_solver|].
  destruct (Hn j ltac:(set_solver)) as [H1 H2]. rewrite (proj2 (Z.eqb_neq (tag j) s)), andb_false_r, (proj2 (Z.eqb_neq (tag j) EMPTY_TAG)) by done.
  assert (Hn' : forall i, i ∈ idxs -> tag i <> s /\ tag i <> EMPTY_TAG) by (intros; apply Hn; set_solver).
  destruct (age j <? oldest) eqn:Ea.
  - right. destruct (IH Hn' j (age j)) as [[-> Hr]|(Hr1 & Hr2 & Hr3)].
    + split_and!; [set_solver | lia |]. intros i [->|Hi]%elem_of_cons; [lia | auto].
    + split_and!; [set_solver | lia |]. intros i [->|Hi]%elem_of_cons; [lia | auto].
  - destruct (IH Hn' victim oldest) as [[-> Hr]|(Hr1 & Hr2 & Hr3)].
    + left. split; [done|]. intros i [->|Hi]%elem_of_cons; [lia | auto].
    + right. split_and!; [set_solver | done |]. intros i [->|Hi]%elem_of_cons; [lia | auto].
Qed.
End Arm.
