(* ===== verification/FastRun.v ===== *)
(** The fast table over any sequence of arms, clears, hits and pins. *)
From S2P Require Import Prelude Addr DnsKey DnsPolicy DnsMemo Pin FastTable.

Lemma new_table_inv : ft_inv FastTable_new.
Proof.
  assert (Hr : forall {A} (x y : A) n i, repeat x n !! i = Some y -> y = x) by (intros A x y n i E; by apply list_elem_of_lookup_2, list_elem_of_In, repeat_spec in E).
  split; cbn [FastTable_new ft_tags ft_ages ft_slots ft_pin_tags ft_pins ft_probe_cache]; try (by apply List.repeat_length); try done.
  - intros i E. assert ((i < Z.to_nat FAST_SESS_SLOTS)%nat) as Hi by (apply lookup_lt_Some in E; by rewrite List.repeat_length in E).
    destruct (lookup_lt_is_Some_2 (repeat (@None FastSess) (Z.to_nat FAST_SESS_SLOTS)) i) as [x Ex]; [by rewrite List.repeat_length|]. rewrite Ex. f_equal. by apply Hr in Ex.
  - intros i s E Hs. by apply Hr in E.
  - intros i j s E _ Hs. by apply Hr in E.
Qed.

(* ------------------------------------------------------------------ *)
(** ** Where a session is armed *)

Lemma new_ages : ages_ok FastTable_new.
Proof. intros i a E. cbn [FastTable_new ft_ages] in E. apply list_elem_of_lookup_2, list_elem_of_In, repeat_spec in E as ->. unfold is_u64. lia. Qed.

Lemma tag_total t i : ft_inv t -> (i < Z.to_nat FAST_SESS_SLOTS)%nat -> ft_tags t !! i = Some (ft_tags t !!! i).
Proof. intros Ht Hi. apply list_lookup_lookup_total_lt. by rewrite (fi_tags _ Ht). Qed.
Lemma age_total t i : ft_inv t -> (i < Z.to_nat FAST_SESS_SLOTS)%nat -> ft_ages t !! i = Some (ft_ages t !!! i).
Proof. intros Ht Hi. apply list_lookup_lookup_total_lt. by rewrite (fi_ages _ Ht). Qed.

Lemma in_group_lt s i : in_group s i -> (i < Z.to_nat FAST_SESS_SLOTS)%nat.
Proof. pose proof (group_fits s). unfold in_group. lia. Qed.

(** The chosen slot is in the set: the session's own when it has one; else a free
    one when there is one; else one whose stamp is the least of the set. *)
Inductive arm_choice (t : FastTable) (s : Z) (i : nat) : Prop :=
| arm_own : ft_tags t !! i = Some s -> arm_choice t s i
| arm_free : fast_lookup t s = None -> ft_tags t !! i = Some EMPTY_TAG -> arm_choice t s i
| arm_evict v : fast_lookup t s = None -> ft_tags t !! i = Some v -> v <> EMPTY_TAG -> v <> s ->
    (forall j, in_group s j -> ft_tags t !!! j <> EMPTY_TAG /\ (ages_ok t -> ft_ages t !!! i <= ft_ages t !!! j)) -> arm_choice t s i.

Lemma arm_index_spec t s : ft_inv t -> s <> EMPTY_TAG -> in_group s (arm_index t s) /\ arm_choice t s (arm_index t s).
Proof.
  intros Ht Hs. unfold arm_index. set (idxs := seq (group_start s) group_ways).
  assert (Hg : forall i, i ∈ idxs <-> in_group s i) by (intros i; unfold idxs, in_group; rewrite elem_of_seq; lia).
  assert (Htag : forall i, i ∈ idxs -> ft_tags t !! i = Some (ft_tags t !!! i)) by (intros i Hi; apply tag_total; [done | by eapply in_group_lt, Hg]).
  assert (Hstart : group_start s ∈ idxs) by (apply Hg; unfold in_group; change group_ways with 71%nat; lia).
  destruct (decide (Exists (fun i => ft_tags t !!! i = s) idxs)) as [Hex|Hno].
  { apply list.Exists_exists in Hex as (i & Hi & Hti). destruct (arm_scan_own t s Hs idxs None (group_start s) (2 ^ 64 - 1) i Hi Hti) as [E Hin].
    split; [by apply Hg|]. apply arm_own. rewrite Htag by done. by rewrite E. }
  assert (Hne : forall i, i ∈ idxs -> ft_tags t !!! i <> s) by (intros i Hi E; apply Hno, list.Exists_exists; eauto).
  assert (Hnone : fast_lookup t s = None).
  { apply fast_lookup_None; [done..|]. intros i E. destruct (fi_used _ Ht i s E Hs) as [Hi _]. apply Hg in Hi. apply (Hne i Hi). by apply list_lookup_total_correct. }
  destruct (decide (Exists (fun i => ft_tags t !!! i = EMPTY_TAG) idxs)) as [Hex|Hful].
  { apply list.Exists_exists in Hex as (i & Hi & Hti). destruct (arm_scan_first t s Hs idxs Hne (group_start s) (2 ^ 64 - 1) i Hi Hti) as [E Hin].
    split; [by apply Hg|]. apply arm_free; [done|]. rewrite Htag by done. by rewrite E. }
  assert (Hocc : forall i, i ∈ idxs -> ft_tags t !!! i <> s /\ ft_tags t !!! i <> EMPTY_TAG)
    by (intros i Hi; split; [by apply Hne | intros E; apply Hful, list.Exists_exists; eauto]).
  pose proof (arm_scan_lru t s Hs idxs Hocc (group_start s) (2 ^ 64 - 1)) as Hr. cbv zeta in Hr.
  set (r := arm_scan t s idxs None (group_start s) (2 ^ 64 - 1)) in *.
  assert (Hrin : r ∈ idxs /\ (ages_ok t -> forall j, j ∈ idxs -> ft_ages t !!! r <= ft_ages t !!! j)).
  { destruct Hr as [[-> Hr]|(H1 & _ & H3)]; [|done]. split; [done|]. intros Ha j Hj. pose proof (Hr j Hj).
    pose proof (age_total t (group_start s) Ht ltac:(eapply in_group_lt, Hg; done)) as E. apply Ha in E. unfold is_u64 in E. lia. }
  destruct Hrin as [Hrin Hmin]. split; [by apply Hg|]. destruct (Hocc r Hrin) as [H1 H2].
  eapply arm_evict; [done | by apply Htag | done | done |]. intros j Hj. apply Hg in Hj. split; [by apply Hocc | intros Ha; by apply Hmin].
Qed.

(* ------------------------------------------------------------------ *)
(** ** Steps *)

Lemma insert_inv t s h i a last_dst : ft_inv t -> s <> EMPTY_TAG -> in_group s i -> arm_choice t s i ->
  let t' := fast_insert i (mkFastSess s h last_dst) a t in
  ft_inv t' /\ fast_lookup t' s = Some (mkFastSess s h last_dst) /\
  forall s', s' <> EMPTY_TAG -> s' <> s -> fast_lookup t' s' = if decide (ft_tags t !! i = Some s') then None else fast_lookup t s'.
Proof.
  intros Ht Hs Hg Hc t'. pose proof (in_group_lt s i Hg) as Hi.
  assert (Hother : forall j, ft_tags t !! j = Some s -> j = i).
  { intros j Ej. destruct Hc as [Hi'|Hn _|v Hn _ _ _ _]; [by eapply (fi_once _ Ht)|..]; (rewrite fast_lookup_None in Hn by done; by destruct (Hn j)). }
  assert (Ht' : ft_inv t').
  { split; cbn [t' fast_insert with_fast ft_tags ft_ages ft_slots ft_pin_tags ft_pins ft_probe_cache fs_sess]; rewrite ?length_insert; try apply Ht; try done.
    - intros j [(_ & E & _)|[Hne E]]%list_lookup_insert_Some; [congruence|]. rewrite list_lookup_insert_ne by done. by apply (fi_free _ Ht).
    - intros j s' [(-> & -> & _)|[Hne E]]%list_lookup_insert_Some Hs'.
      + split; [done|]. eexists. split; [apply list_lookup_insert_eq; by rewrite (fi_slots _ Ht) | done].
      + rewrite list_lookup_insert_ne by done. by apply (fi_used _ Ht).
    - intros j k s' [(-> & E1 & _)|[Hne E1]]%list_lookup_insert_Some [(Hk & E2 & _)|[Hne' E2]]%list_lookup_insert_Some Hs'.
      + done.
      + subst s'. symmetry. by apply Hother.
      + subst s'. rewrite (Hother j E1). done.
      + by eapply (fi_once _ Ht). }
  assert (Htags : ft_tags t' = <[i := s]> (ft_tags t)) by done. assert (Hslots : ft_slots t' = <[i := Some (mkFastSess s h last_dst)]> (ft_slots t)) by done.
  split_and!; [done | |].
  - apply fast_lookup_Some; [done..|]. exists i. rewrite Htags, Hslots, !list_lookup_insert_eq by (rewrite ?(fi_tags _ Ht), ?(fi_slots _ Ht); done). done.
  - intros s' Hs' Hne. destruct (decide _) as [E|Hn].
    + apply fast_lookup_None; [done..|]. rewrite Htags. intros j [(_ & E' & _)|[Hj E']]%list_lookup_insert_Some; [congruence|].
      apply Hj. by eapply (fi_once _ Ht).
    + apply option_eq. intros e. rewrite !fast_lookup_Some by done. rewrite Htags, Hslots. split; intros (j & Ej & Es); exists j.
      * apply list_lookup_insert_Some in Ej as [(_ & E' & _)|[Hj Ej]]; [congruence|]. by rewrite list_lookup_insert_ne in Es.
      * rewrite !list_lookup_insert_ne by congruence. done.
Qed.

Lemma touch_inv t i a : ft_inv t -> ft_inv (fast_touch i a t).
Proof. intros Ht. unfold fast_touch. destruct (_ <? _); [|done]. split; cbn; rewrite ?length_insert; apply Ht. Qed.

(** Every operation writes machine words for stamps. *)
Lemma ages_insert t i a tags slots cache : ages_ok t -> is_u64 a -> ages_ok (with_fast tags (<[i := a]> (ft_ages t)) slots cache t).
Proof. intros Ht Ha j b [(_ & <- & _)|[_ E]]%list_lookup_insert_Some; [done | by eapply Ht]. Qed.
Lemma touch_ages t i a : ages_ok t -> is_u64 a -> ages_ok (fast_touch i a t).
Proof. intros Ht Ha. unfold fast_touch. destruct (_ <? _); [by apply ages_insert | done]. Qed.
Lemma touch_lookup t i a s : fast_lookup (fast_touch i a t) s = fast_lookup t s.
Proof. unfold fast_touch. destruct (_ <? _); [by apply fast_lookup_same | done]. Qed.

Lemma pins_inv t tags pins : ft_inv t -> length tags = length (ft_pin_tags t) -> length pins = length (ft_pins t) -> ft_inv (with_pins tags pins t).
Proof. intros [] H1 H2. split; cbn; try done; congruence. Qed.

Lemma pin_clear_inv s t : ft_inv t -> ft_inv (pin_clear s t).
Proof. intros Ht. unfold pin_clear. destruct (position _ _); [|done]. apply pins_inv; [done | by rewrite length_insert..]. Qed.

Lemma clear_spec s t : ft_inv t ->
  let r := fast_clear s t in
  ft_inv r.2 /\ r.1 = bool_decide (is_Some (fast_lookup t s)) /\
  (s <> EMPTY_TAG -> fast_lookup r.2 s = None) /\ forall s', s' <> EMPTY_TAG -> s' <> s -> fast_lookup r.2 s' = fast_lookup t s'.
Proof.
  intros Ht. unfold fast_clear. set (t1 := pin_clear s t). assert (Ht1 : ft_inv t1) by (by apply pin_clear_inv).
  assert (Es : ft_tags t1 = ft_tags t /\ ft_slots t1 = ft_slots t) by (unfold t1, pin_clear; by destruct (position _ _)). destruct Es as [E1 E2].
  set (t2 := with_fast _ _ _ None t1). assert (Ht2 : ft_inv t2) by (destruct Ht1; by split).
  assert (Hl : forall s, fast_lookup t2 s = fast_lookup t s) by (intros x; by apply fast_lookup_same). clearbody t2. clear t1 Ht1 E1 E2. cbv zeta.
  destruct (decide (s = EMPTY_TAG)) as [->|Hs].
  { rewrite probe_empty. cbn [fst snd]. split_and!; [done | by rewrite bool_decide_eq_false_2 by (unfold fast_lookup; rewrite probe_empty; by intros []) | done | intros; apply Hl]. }
  destruct (probe t2 s) as [i|] eqn:Ep; cbn [fst snd].
  - apply probe_iff in Ep; [|done..]. destruct (fi_used _ Ht2 i s Ep Hs) as (Hg & e & Ee & _). pose proof (in_group_lt s i Hg) as Hi.
    set (t' := with_fast _ _ _ _ t2). assert (Htags : ft_tags t' = <[i := EMPTY_TAG]> (ft_tags t2)) by done.
    assert (Hslots : ft_slots t' = <[i := None]> (ft_slots t2)) by done.
    assert (Ht' : ft_inv t').
    { split; cbn; rewrite ?length_insert; try apply Ht2; try done.
      - intros j [(-> & _ & _)|[Hne E]]%list_lookup_insert_Some; [apply list_lookup_insert_eq; by rewrite (fi_slots _ Ht2)|].
        rewrite list_lookup_insert_ne by done. by apply (fi_free _ Ht2).
      - intros j s' [(_ & -> & _)|[Hne E]]%list_lookup_insert_Some Hs'; [done|]. rewrite list_lookup_insert_ne by done. by apply (fi_used _ Ht2).
      - intros j k s' [(_ & -> & _)|[_ A]]%list_lookup_insert_Some [(_ & E & _)|[_ B]]%list_lookup_insert_Some Hs'; try done; by eapply (fi_once _ Ht2). }
    split_and!; [done | | intros _ |].
    + rewrite bool_decide_eq_true_2; [done|]. rewrite <- Hl. exists e. apply fast_lookup_Some; eauto.
    + apply fast_lookup_None; [done..|]. rewrite Htags. intros j [(_ & E & _)|[Hj E]]%list_lookup_insert_Some; [done|]. apply Hj. by eapply (fi_once _ Ht2).
    + intros s' Hs' Hne. rewrite <- Hl. apply option_eq. intros x. rewrite !fast_lookup_Some by done. rewrite Htags, Hslots. split; intros (j & Ej & Ex); exists j.
      * apply list_lookup_insert_Some in Ej as [(_ & E & _)|[Hj Ej]]; [done|]. by rewrite list_lookup_insert_ne in Ex.
      * rewrite !list_lookup_insert_ne by congruence. done.
  - assert (Hn : fast_lookup t2 s = None) by (unfold fast_lookup; by rewrite Ep). split_and!; [done | | done | intros; apply Hl].
    rewrite bool_decide_eq_false_2; [done|]. rewrite <- Hl, Hn. by intros [].
Qed.

Lemma set_last_slot t i m j : ft_slots (set_last_dst i m t) !! j =
  if decide (i = j) then fmap (fun e => mkFastSess (fs_sess e) (fs_h e) m) <$> (ft_slots t !! j) else ft_slots t !! j.
Proof. unfold set_last_dst. cbn [with_fast ft_slots]. destruct (decide (i = j)) as [->|Hne]; [by rewrite list_lookup_alter_eq | by rewrite list_lookup_alter_ne]. Qed.

Lemma set_last_inv t i m : ft_inv t -> ft_inv (set_last_dst i m t).
Proof.
  intros Ht. split; try apply Ht.
  - cbn. rewrite length_alter. apply Ht.
  - intros j E. rewrite set_last_slot, (fi_free _ Ht j E). by destruct (decide _).
  - intros j s E Hs. destruct (fi_used _ Ht j s E Hs) as (Hg & e & Ee & <-). split; [done|]. rewrite set_last_slot, Ee.
    destruct (decide _); cbn; eauto.
Qed.

Lemma set_last_lookup t i m s : fs_h <$> fast_lookup (set_last_dst i m t) s = fs_h <$> fast_lookup t s.
Proof.
  unfold fast_lookup. change (probe (set_last_dst i m t) s) with (probe t s). destruct (probe t s) as [j|]; [|done]. unfold get_slot. rewrite set_last_slot.
  destruct (decide _); [|done]. by destruct (ft_slots t !! j) as [[e0|]|].
Qed.

(* ------------------------------------------------------------------ *)
(** ** Pins *)

(** A pin sits under its session's tag, and a session has one tag. *)
Record pin_inv (t : FastTable) : Prop := mkPinInv {
  pi_tag i p : ft_pins t !! i = Some (Some p) -> ft_pin_tags t !! i = Some (cp_sess p);
  pi_once i j s : ft_pin_tags t !! i = Some s -> ft_pin_tags t !! j = Some s -> s <> EMPTY_TAG -> i = j
}.

Definition pin_of (t : FastTable) (s : Z) : option ConnPin :=
  match position (fun tag => tag =? s) (ft_pin_tags t) with Some i => mjoin (ft_pins t !! i) | None => None end.

Lemma position_tag (l : list Z) s i : position (fun tag => tag =? s) l = Some i -> l !! i = Some s.
Proof. intros (x & Hx & ->%Z.eqb_eq)%position_Some. done. Qed.
Lemma position_no_tag (l : list Z) s i : position (fun tag => tag =? s) l = None -> l !! i <> Some s.
Proof. intros E Ei. pose proof (position_None _ _ _ _ E Ei) as Hb. cbn in Hb. by rewrite Z.eqb_refl in Hb. Qed.

Lemma pin_of_Some t s p : pin_inv t -> s <> EMPTY_TAG -> pin_of t s = Some p <-> exists i, ft_pins t !! i = Some (Some p) /\ cp_sess p = s.
Proof.
  intros Hp Hs. unfold pin_of. split.
  - destruct (position _ _) as [i|] eqn:Ei; [|done]. intros E. destruct (ft_pins t !! i) as [[q|]|] eqn:Eq; cbn in E; try done. injection E as ->.
    exists i. split; [done|]. apply position_tag in Ei. apply (pi_tag _ Hp) in Eq. congruence.
  - intros (i & Ei & <-). pose proof (pi_tag _ Hp _ _ Ei) as Et. destruct (position _ _) as [j|] eqn:Ej; [|by apply position_no_tag with (i := i) in Ej].
    apply position_tag in Ej. rewrite (pi_once _ Hp _ _ _ Ej Et Hs), Ei. done.
Qed.

Lemma pin_victim_lt pins : forall i v e n, (v < n)%nat -> (i + length pins <= n)%nat -> (pin_victim pins i v e < n)%nat.
Proof. induction pins as [|p pins IH]; intros i v e n Hv Hn; cbn in *; [done|]. case_match; apply IH; lia. Qed.

Lemma pin_slot_lt t s : ft_inv t -> (pin_slot s t < Z.to_nat DOMAIN_PIN_SLOTS)%nat.
Proof.
  intros Ht. unfold pin_slot. repeat case_match; try (match goal with E : position _ _ = Some _ |- _ => apply position_tag, lookup_lt_Some in E end; by rewrite (fi_pin_tags _ Ht) in *).
  apply pin_victim_lt; rewrite ?(fi_pins _ Ht); unfold DOMAIN_PIN_SLOTS; lia.
Qed.

Lemma pin_store_spec t p : ft_inv t -> pin_inv t ->
  let t' := pin_store p t in
  ft_inv t' /\ pin_inv t' /\ (cp_sess p <> EMPTY_TAG -> pin_of t' (cp_sess p) = Some p) /\
  forall s q, s <> EMPTY_TAG -> s <> cp_sess p -> pin_of t' s = Some q -> pin_of t s = Some q.
Proof.
  intros Ht Hp t'. pose proof (pin_slot_lt t (cp_sess p) Ht) as Hi. set (i := pin_slot (cp_sess p) t) in *.
  assert (Et : ft_pin_tags t' = <[i := cp_sess p]> (ft_pin_tags t)) by done. assert (Ep : ft_pins t' = <[i := Some p]> (ft_pins t)) by done.
  assert (Hown : forall j, ft_pin_tags t !! j = Some (cp_sess p) -> cp_sess p <> EMPTY_TAG -> j = i).
  { intros j Ej Hs. unfold i, pin_slot. destruct (position (fun tag => tag =? cp_sess p) _) as [k|] eqn:Ek.
    - apply position_tag in Ek. by eapply (pi_once _ Hp).
    - by apply position_no_tag with (i := j) in Ek. }
  assert (Hp' : pin_inv t').
  { split; rewrite Et, ?Ep.
    - intros j q [(<- & [= <-] & _)|[Hne E]]%list_lookup_insert_Some; [apply list_lookup_insert_eq; by rewrite (fi_pin_tags _ Ht)|].
      rewrite list_lookup_insert_ne by done. by apply (pi_tag _ Hp).
    - intros j k s [(<- & E1 & _)|[Hne E1]]%list_lookup_insert_Some [(<- & E2 & _)|[Hne' E2]]%list_lookup_insert_Some Hs; subst; [done | | | by eapply (pi_once _ Hp)].
      + symmetry. by apply Hown.
      + by apply Hown. }
  split_and!; [apply pins_inv; [done | by rewrite length_insert..] | done | |].
  - intros Hs. apply pin_of_Some; [done..|]. exists i. rewrite Ep, list_lookup_insert_eq by (by rewrite (fi_pins _ Ht)). done.
  - intros s q Hs Hne (j & Ej & Eq)%pin_of_Some; [|done..]. apply pin_of_Some; [done..|]. exists j. split; [|done]. rewrite Ep in Ej.
    apply list_lookup_insert_Some in Ej as [(_ & [= ->] & _)|[_ Ej]]; [congruence | done].
Qed.

Lemma pin_clear_spec t s : ft_inv t -> pin_inv t ->
  let t' := pin_clear s t in
  pin_inv t' /\ (s <> EMPTY_TAG -> pin_of t' s = None) /\ forall s' q, s' <> EMPTY_TAG -> s' <> s -> pin_of t' s' = Some q -> pin_of t s' = Some q.
Proof.
  intros Ht Hp t'. unfold t', pin_clear. destruct (position _ _) as [i|] eqn:Ei.
  2: { split_and!; [done | intros _; unfold pin_of; by rewrite Ei | done]. }
  apply position_tag in Ei. assert (Hi := lookup_lt_Some _ _ _ Ei). set (t1 := with_pins _ _ t).
  assert (Et : ft_pin_tags t1 = <[i := EMPTY_TAG]> (ft_pin_tags t)) by done. assert (Ep : ft_pins t1 = <[i := None]> (ft_pins t)) by done.
  assert (Hp' : pin_inv t1).
  { split; rewrite Et, ?Ep.
    - intros j q [(_ & E & _)|[Hne E]]%list_lookup_insert_Some; [done|]. rewrite list_lookup_insert_ne by done. by apply (pi_tag _ Hp).
    - intros j k s' [(_ & E1 & _)|[_ E1]]%list_lookup_insert_Some [(_ & E2 & _)|[_ E2]]%list_lookup_insert_Some Hs; try congruence. by eapply (pi_once _ Hp). }
  split_and!; [done | |].
  - intros Hs. destruct (pin_of t1 s) as [q|] eqn:Eq; [|done]. apply pin_of_Some in Eq as (j & Ej & Es); [|done..]. rewrite Ep in Ej.
    apply list_lookup_insert_Some in Ej as [(_ & E & _)|[Hne Ej]]; [done|]. destruct Hne. apply (pi_tag _ Hp) in Ej. eapply (pi_once _ Hp); [exact Ei | congruence | done].
  - intros s' q Hs Hne (j & Ej & Eq)%pin_of_Some; [|done..]. apply pin_of_Some; [done..|]. exists j. split; [|done]. rewrite Ep in Ej.
    apply list_lookup_insert_Some in Ej as [(_ & E & _)|[_ Ej]]; [done | done].
Qed.

(** A pin armed for a name answers that name and port only. *)
Lemma pin_arm_for c s host0 port0 addr life p host port : pin_arm c None s host0 port0 addr life = Some p -> pin_is_for p host port = true ->
  host = host0 /\ port = port0 /\ cp_sess p = s /\ cp_addr p = addr /\ cp_expires p = coarse_millis c + pin_life_ms life.
Proof.
  unfold pin_arm, PIN_HOST_BYTES. destruct (255 <? len host0) eqn:Ed; [done|]. intros [= <-]. unfold pin_is_for. cbn.
  intros [[->%Z.eqb_eq _]%andb_true_iff Hh%bool_decide_eq_true]%andb_true_iff. pose proof (len_nonneg host0). apply Z.ltb_ge in Ed.
  assert (En : Z.to_nat (as_u8 (len host0)) = length host0). { unfold as_u8. rewrite Z.mod_small by lia. unfold len. by rewrite Nat2Z.id. }
  rewrite En, firstn_all, take_app_length in Hh. done.
Qed.

(* ------------------------------------------------------------------ *)
(** ** Runs *)

(** What the datagram reader does to its table: [arm_fast] on a fresh memo entry
    and on a stale one, the table's part of a [try_stage] that staged, and a
    domain pin. *)
Inductive FastOp : Type :=
| FArm (s h : Z) (finished : Z -> bool) (last : Z -> Z)
| FStale (s : Z)
| FHit (s : Z) (stamp : Z) (mirror : option (Z * SocketAddr * Z))
| FPin (c : Clock) (s : Z) (host : bytes) (port : Z) (addr : SocketAddr) (life : Z).

Definition fast_step (op : FastOp) (t : FastTable) : FastTable :=
  match op with
  | FArm s h finished last => arm_fresh s h finished last t
  | FStale s => (fast_clear s t).2
  | FHit s stamp mirror =>
      match probe_cached s t with
      | (Some idx, t) => fast_touch idx stamp (set_last_dst idx mirror t)
      | (None, t) => t
      end
  | FPin c s host port addr life => pin_cache c s host port addr life t
  end.

(** The ids the server arms are not zero, and stamps are machine words. *)
Definition op_ok (op : FastOp) : Prop :=
  match op with
  | FArm s _ _ last => s <> EMPTY_TAG /\ forall h, is_u64 (last h)
  | FHit _ stamp _ => is_u64 stamp
  | _ => True
  end.

(** The latest operation first. *)
Definition fast_run (ops : list FastOp) : FastTable := foldr fast_step FastTable_new ops.

Lemma arm_fresh_spec s h finished last t : ft_inv t -> s <> EMPTY_TAG ->
  let t' := arm_fresh s h finished last t in
  ft_inv t' /\
  (exists e, fast_lookup t' s = Some e /\ (e = mkFastSess s h None \/ fast_lookup t s = Some e /\ finished (fs_h e) = false)) /\
  forall s', s' <> EMPTY_TAG -> s' <> s ->
    fast_lookup t' s' = fast_lookup t s' \/
    (fast_lookup t' s' = None /\ fast_lookup t s = None /\ exists i, probe t s' = Some i /\
     forall j, in_group s j -> ft_tags t !!! j <> EMPTY_TAG /\ (ages_ok t -> ft_ages t !!! i <= ft_ages t !!! j)).
Proof.
  intros Ht Hs t'. destruct (arm_index_spec t s Ht Hs) as [Hg Hc].
  assert (Hins : let t1 := fast_insert (arm_index t s) (mkFastSess s h None) (last h) t in
    ft_inv t1 /\ fast_lookup t1 s = Some (mkFastSess s h None) /\ forall s', s' <> EMPTY_TAG -> s' <> s ->
    fast_lookup t1 s' = fast_lookup t s' \/ (fast_lookup t1 s' = None /\ fast_lookup t s = None /\ exists i, probe t s' = Some i /\
     forall j, in_group s j -> ft_tags t !!! j <> EMPTY_TAG /\ (ages_ok t -> ft_ages t !!! i <= ft_ages t !!! j))).
  { intros t1. destruct (insert_inv t s h _ (last h) None Ht Hs Hg Hc) as (H1 & H2 & H3). split_and!; [done | done |].
    intros s' Hs' Hne. unfold t1. rewrite H3 by done. destruct (decide _) as [E|]; [right | by left]. split; [done|].
    destruct Hc as [E'|_ E'|v Hn E' _ _ Hmin]; [congruence | congruence |]. split; [done|]. exists (arm_index t s). split; [by apply probe_iff | done]. }
  unfold t', arm_fresh. destruct (get_slot t (arm_index t s)) as [slot|] eqn:Eg.
  2: { destruct Hins as (H1 & H2 & H3). split_and!; [done | eauto | done]. }
  destruct (_ && _) eqn:Eb; [|destruct Hins as (H1 & H2 & H3); split_and!; [done | eauto | done]].
  apply andb_true_iff in Eb as [Es%Z.eqb_eq Ef%negb_true_iff]. clear Hins.
  assert (Elk : fast_lookup t s = Some slot).
  { apply fast_lookup_Some; [done..|]. exists (arm_index t s). unfold get_slot in Eg.
    destruct (ft_slots t !! arm_index t s) as [[x|]|] eqn:Ex; cbn in Eg; try done. injection Eg as ->. split; [|done].
    pose proof (tag_total t _ Ht (in_group_lt _ _ Hg)) as Et. rewrite Et. f_equal. destruct (decide (ft_tags t !!! arm_index t s = EMPTY_TAG)) as [E0|E0].
    - rewrite E0 in Et. apply (fi_free _ Ht) in Et. congruence.
    - destruct (fi_used _ Ht _ _ Et E0) as (_ & e & Ee & He). congruence. }
  split_and!; [by apply touch_inv | | intros s' _ _; left; apply touch_lookup]. exists slot. rewrite touch_lookup. auto.
Qed.

(** [FHit] leaves every session's handle alone. *)
Lemma hit_spec s stamp mirror t : ft_inv t ->
  let t' := fast_step (FHit s stamp mirror) t in
  ft_inv t' /\ (forall s', fs_h <$> fast_lookup t' s' = fs_h <$> fast_lookup t s') /\ ft_pin_tags t' = ft_pin_tags t /\ ft_pins t' = ft_pins t.
Proof.
  intros Ht. cbn [fast_step]. destruct (probe_cached_spec s t Ht) as (_ & Hi & E1 & _ & E2 & E3 & E4).
  destruct (probe_cached s t) as [[i|] t1]; cbn [snd] in *.
  - split_and!; [by apply touch_inv, set_last_inv | | unfold fast_touch; by destruct (_ <? _) | unfold fast_touch; by destruct (_ <? _)].
    intros s'. by rewrite touch_lookup, set_last_lookup, (fast_lookup_same t t1).
  - split_and!; [done | | done | done]. intros s'. by rewrite (fast_lookup_same t t1).
Qed.

Lemma arm_fresh_pins s h finished last t : ft_pin_tags (arm_fresh s h finished last t) = ft_pin_tags t /\ ft_pins (arm_fresh s h finished last t) = ft_pins t.
Proof. unfold arm_fresh, fast_insert, fast_touch. repeat case_match; done. Qed.

Lemma clear_pins s t : ft_pin_tags (fast_clear s t).2 = ft_pin_tags (pin_clear s t) /\ ft_pins (fast_clear s t).2 = ft_pins (pin_clear s t).
Proof. unfold fast_clear. by case_match. Qed.

(** Pins only look at the two pin arrays. *)
Lemma pin_of_same t t' s : ft_pin_tags t' = ft_pin_tags t -> ft_pins t' = ft_pins t -> pin_of t' s = pin_of t s.
Proof. intros E1 E2. unfold pin_of. by rewrite E1, E2. Qed.
Lemma pin_inv_same t t' : ft_pin_tags t' = ft_pin_tags t -> ft_pins t' = ft_pins t -> pin_inv t -> pin_inv t'.
Proof. intros E1 E2 [H1 H2]. split; rewrite E1, ?E2; done. Qed.

Lemma fast_step_inv op t : op_ok op -> ft_inv t -> pin_inv t -> ft_inv (fast_step op t) /\ pin_inv (fast_step op t).
Proof.
  intros Ho Ht Hp. destruct op as [s h fin last|s|s stamp m|c s host port addr life]; cbn [op_ok] in Ho.
  - destruct Ho. split; [by apply arm_fresh_spec|]. eapply pin_inv_same; [apply arm_fresh_pins.. | done].
  - cbn [fast_step]. split; [by apply clear_spec|]. destruct (clear_pins s t). eapply pin_inv_same; [done | done |]. by apply pin_clear_spec.
  - destruct (hit_spec s stamp m t Ht) as (H1 & _ & H2 & H3). split; [done|]. by eapply pin_inv_same.
  - cbn [fast_step]. unfold pin_cache. destruct (pin_arm _ _ _ _ _ _ _) as [p|]; [|done]. by destruct (pin_store_spec t p Ht Hp) as (? & ? & _).
Qed.

Lemma fast_step_ages op t : op_ok op -> ft_inv t -> ages_ok t -> ages_ok (fast_step op t).
Proof.
  intros Ho Ht Ha. destruct op as [s h fin last|s|s stamp m|c s host port addr life]; cbn [op_ok fast_step] in *.
  - destruct Ho as [_ Hl]. unfold arm_fresh, fast_insert. repeat case_match; first [by apply touch_ages | by apply ages_insert].
  - assert (Hz : is_u64 0) by (unfold is_u64; lia). unfold fast_clear, pin_clear. repeat case_match; first [by apply ages_insert | exact Ha].
  - destruct (probe_cached_spec s t Ht) as (_ & _ & _ & E & _). destruct (probe_cached s t) as [[i|] t1]; cbn [snd] in E.
    + apply touch_ages; [|done]. intros j b Ej. cbn in Ej. rewrite E in Ej. by eapply Ha.
    + intros j b Ej. rewrite E in Ej. by eapply Ha.
  - unfold pin_cache. case_match; exact Ha.
Qed.

Lemma fast_run_inv ops : Forall op_ok ops -> ft_inv (fast_run ops) /\ pin_inv (fast_run ops).
Proof.
  induction 1 as [|op ops Ho _ [IH1 IH2]]; cbn; [|by apply fast_step_inv]. split; [apply new_table_inv|].
  assert (Hr : forall {A} (x y : A) n i, repeat x n !! i = Some y -> y = x) by (intros A x y n i E; by apply list_elem_of_lookup_2, list_elem_of_In, repeat_spec in E).
  split; cbn [FastTable_new ft_pins ft_pin_tags]; [intros i p E; by apply Hr in E | intros i j s E _ Hs; by apply Hr in E].
Qed.

Lemma fast_run_ages ops : Forall op_ok ops -> ages_ok (fast_run ops).
Proof.
  induction 1 as [|op ops Ho Hops IH]; cbn; [apply new_ages | apply fast_step_ages; [done | by apply fast_run_inv | done]].
Qed.

(** arming a session keeps the table a per-set least-recently-used cache.
    After any run of arms, clears, hits and pins, [arm_fast] on a fresh session
    leaves that session reachable, with its new handle, or with the handle the
    slot already had and whose reader is still running.  No other session's entry
    is touched, except that an arm of a session that had no slot, in a set with no
    free one, drops one session, whose activity stamp is the least of the whole
    set. *)
Theorem fast_arm_lru ops s h finished last : Forall op_ok ops -> s <> EMPTY_TAG ->
  let t := fast_run ops in
  let t' := arm_fresh s h finished last t in
  (exists e, fast_lookup t' s = Some e /\ (e = mkFastSess s h None \/ fast_lookup t s = Some e /\ finished (fs_h e) = false)) /\
  forall s', s' <> EMPTY_TAG -> s' <> s ->
    fast_lookup t' s' = fast_lookup t s' \/
    (fast_lookup t' s' = None /\ fast_lookup t s = None /\ exists i, probe t s' = Some i /\
     forall j, in_group s j -> ft_tags t !!! j <> EMPTY_TAG /\ ft_ages t !!! i <= ft_ages t !!! j).
Proof.
  intros Ho Hs t t'. destruct (fast_run_inv ops Ho) as [Ht _]. pose proof (fast_run_ages ops Ho) as Ha.
  destruct (arm_fresh_spec s h finished last t Ht Hs) as (_ & Hself & Hoth). split; [done|]. intros s' Hs' Hne.
  destruct (Hoth s' Hs' Hne) as [?|(E1 & E2 & i & Ei & Hmin)]; [by left|]. right. split_and!; [done | done |]. exists i. split; [done|].
  intros j Hj. destruct (Hmin j Hj). auto.
Qed.

(** A full set: sessions 8, 16, .., 568 all map to the first one; 576 takes the
    slot of 24, the quietest. *)
Definition full_set : list FastOp := (fun n => FArm (8 * Z.of_nat n) (Z.of_nat n) (fun _ => false) (fun h => if h =? 3 then 5 else 100)) <$> seq 1 71.

Lemma fast_arm_lru_witness :
  fast_lookup (fast_run full_set) 24 = Some (mkFastSess 24 3 None) /\
  fast_lookup (arm_fresh 576 72 (fun _ => false) (fun _ => 900) (fast_run full_set)) 24 = None /\
  fast_lookup (arm_fresh 576 72 (fun _ => false) (fun _ => 900) (fast_run full_set)) 16 = Some (mkFastSess 16 2 None) /\
  exists e, fast_lookup (arm_fresh 576 72 (fun _ => false) (fun _ => 900) (fast_run full_set)) 576 = Some e.
Proof.
  split; [vm_compute; reflexivity|]. split; [vm_compute; reflexivity|]. split; [vm_compute; reflexivity|].
  destruct (fast_arm_lru full_set 576 72 (fun _ => false) (fun _ => 900)) as [(e & E & _) _]; [| done | by exists e].
  apply list.Forall_forall. intros op (n & -> & Hn%elem_of_seq)%list_elem_of_fmap. cbn [op_ok]. unfold EMPTY_TAG. split; [lia|]. intros h. case_match; unfold is_u64; lia.
Defined.

(** Nothing in [ops] drops the session's entry or pins another name for it. *)
Definition keeps_entry (s : Z) (op : FastOp) : Prop := op <> FStale s.
Definition keeps_pin (s : Z) (op : FastOp) : Prop :=
  match op with FStale s' => s' <> s | FPin _ s' host _ _ _ => s' <> s \/ PIN_HOST_BYTES < len host | _ => True end.

(** The handle of a session's entry was armed for it, after its last clear. *)
Lemma lookup_armed ops s e : Forall op_ok ops -> s <> EMPTY_TAG -> fast_lookup (fast_run ops) s = Some e ->
  exists post fin last pre, ops = post ++ FArm s (fs_h e) fin last :: pre /\ Forall (keeps_entry s) post.
Proof.
  intros Ho Hs. revert e. induction Ho as [|op ops Hop Ho IH]; intros e E.
  { exfalso. assert (En : fast_lookup FastTable_new s = None); [|cbn in E; congruence]. apply fast_lookup_None; [apply new_table_inv | done |].
    intros i Ei. cbn [FastTable_new ft_tags] in Ei. apply list_elem_of_lookup_2, list_elem_of_In, repeat_spec in Ei. done. }
  destruct (fast_run_inv ops Ho) as [Ht Hp]. cbn [fast_run foldr] in E. fold (fast_run ops) in E.
  assert (Hold : forall e', fast_lookup (fast_run ops) s = Some e' -> fs_h e' = fs_h e -> keeps_entry s op ->
    exists post fin last pre, op :: ops = post ++ FArm s (fs_h e) fin last :: pre /\ Forall (keeps_entry s) post).
  { intros e' E' <- Hk. destruct (IH e' E') as (post & fin & last & pre & -> & Hpost). exists (op :: post), fin, last, pre. by split; [|constructor]. }
  destruct op as [s' h fin last|s'|s' stamp m|c s' host port addr life].
  - destruct Hop as [Hs' Hl]. destruct (arm_fresh_spec s' h fin last _ Ht Hs') as (_ & (e' & E' & Hor) & Hoth). cbn [fast_step] in E. destruct (decide (s = s')) as [<-|Hne].
    + rewrite E in E'. injection E' as <-. destruct Hor as [->|[E' _]]; [|by eapply Hold].
      exists [], fin, last, ops. by split.
    + destruct (Hoth s Hs Hne) as [E1|[E1 _]]; [|congruence]. rewrite E in E1. by eapply Hold.
  - cbn [fast_step] in E. destruct (clear_spec s' _ Ht) as (_ & _ & Hc & Hoth). destruct (decide (s = s')) as [<-|Hne]; [rewrite Hc in E by done; done|].
    rewrite Hoth in E by done. eapply Hold; [exact E | done | congruence].
  - destruct (hit_spec s' stamp m _ Ht) as (_ & Hl & _). specialize (Hl s). rewrite E in Hl. destruct (fast_lookup (fast_run ops) s) as [e'|] eqn:E'; cbn in Hl; [|done].
    eapply Hold; [done | congruence | done].
  - assert (Es : fast_lookup (fast_step (FPin c s' host port addr life) (fast_run ops)) s = fast_lookup (fast_run ops) s).
    { cbn [fast_step]. unfold pin_cache. destruct (pin_arm _ _ _ _ _ _ _); [by apply fast_lookup_same | done]. }
    rewrite Es in E. by eapply Hold.
Qed.



(** C21: the pin cache never misroutes.  After any run, [pin_get] answers an
    address only if that address was pinned for exactly this session, name and
    port, by the last pin of the session, which no clear followed, and whose life
    (at most [DEST_PIN_TTL_MS], and at most what the resolution had left) is not
    over. *)
Theorem pin_exact ops c s host port addr : Forall op_ok ops -> s <> EMPTY_TAG -> pin_get c s host port (fast_run ops) = Some addr ->
  exists post c0 life pre, ops = post ++ FPin c0 s host port addr life :: pre /\ Forall (keeps_pin s) post /\
  coarse_millis c < coarse_millis c0 + Z.min DEST_PIN_TTL_MS life.
Proof.
  intros Ho Hs E.
  assert (Hof : exists p, pin_of (fast_run ops) s = Some p /\ pin_is_for p host port = true /\ coarse_millis c < cp_expires p /\ cp_addr p = addr).
  { unfold pin_get in E. unfold pin_of. destruct (position _ _) as [i|]; [|done]. destruct (mjoin _) as [p|]; [|done]. destruct (_ && _) eqn:Eb; [|done].
    apply andb_true_iff in Eb as [[_ Hf]%andb_true_iff Hx%Z.ltb_lt]. exists p. split_and!; [done | done | done | congruence]. }
  clear E. induction Ho as [|op ops Hop Ho IH].
  { destruct Hof as (p & Ep & _). cbn [fast_run foldr] in Ep. apply pin_of_Some in Ep as (i & Ei & _); [| apply (fast_run_inv []); constructor | done].
    cbn [FastTable_new ft_pins] in Ei. apply list_elem_of_lookup_2, list_elem_of_In, repeat_spec in Ei. done. }
  destruct (fast_run_inv ops Ho) as [Ht Hp]. destruct Hof as (p & Ep & Hfor & Hx & Ha). cbn [fast_run foldr] in Ep. fold (fast_run ops) in Ep.
  assert (Hold : pin_of (fast_run ops) s = Some p -> keeps_pin s op ->
    exists post c0 life pre, op :: ops = post ++ FPin c0 s host port addr life :: pre /\ Forall (keeps_pin s) post /\
    coarse_millis c < coarse_millis c0 + Z.min DEST_PIN_TTL_MS life).
  { intros E' Hk. destruct IH as (post & c0 & life & pre & -> & Hpost & Hlt); [by exists p|]. exists (op :: post), c0, life, pre. split_and!; [done | by constructor | done]. }
  destruct op as [s' h fin last|s'|s' stamp m|c1 s' host1 port1 addr1 life1].
  - destruct (arm_fresh_pins s' h fin last (fast_run ops)) as [E1 E2]. rewrite <- (pin_of_same _ _ _ E1 E2) in Hold. by apply Hold.
  - cbn [fast_step] in Ep. destruct (clear_pins s' (fast_run ops)) as [E1 E2]. rewrite (pin_of_same _ _ _ E1 E2) in Ep.
    destruct (pin_clear_spec (fast_run ops) s' Ht Hp) as (_ & Hn & Hoth). destruct (decide (s = s')) as [<-|Hne]; [rewrite Hn in Ep; done|].
    apply Hold; [by eapply Hoth | cbn; congruence].
  - destruct (hit_spec s' stamp m _ Ht) as (_ & _ & E1 & E2). rewrite <- (pin_of_same _ _ _ E1 E2) in Hold. by apply Hold.
  - cbn [fast_step] in Ep. unfold pin_cache in Ep. destruct (pin_arm c1 None s' host1 port1 addr1 life1) as [q|] eqn:Eq.
    2: { apply Hold; [done|]. right. unfold pin_arm in Eq. case_match eqn:El; [lia | done]. }
    assert (Esq : cp_sess q = s') by (unfold pin_arm in Eq; case_match; [done|]; by injection Eq as <-).
    destruct (pin_store_spec _ q Ht Hp) as (_ & _ & Hself & Hoth). rewrite Esq in *. destruct (decide (s = s')) as [<-|Hne].
    + rewrite (Hself Hs) in Ep. injection Ep as ->. destruct (pin_arm_for _ _ _ _ _ _ _ _ _ Eq Hfor) as (-> & -> & _ & <- & Hexp).
      rewrite <- Ha. exists [], c1, life1, ops. split_and!; [done | constructor | unfold pin_life_ms in Hexp; lia].
    + apply Hold; [by eapply Hoth | by left; congruence].
Qed.

(** "a" is pinned for session 16 and "b" then displaces it. *)
Lemma pin_exact_witness :
  let ops := [FPin (mkClock 0 0) 16 [98] 53 (SockV4 [2; 2; 2; 2] 53) 9000; FPin (mkClock 0 0) 16 [97] 53 (SockV4 [1; 1; 1; 1] 53) 9000] in
  pin_get (mkClock 0 0) 16 [97] 53 (fast_run ops) = None /\ pin_get (mkClock 0 0) 16 [98] 54 (fast_run ops) = None /\
  exists post c0 life pre, ops = post ++ FPin c0 16 [98] 53 (SockV4 [2; 2; 2; 2] 53) life :: pre /\ Forall (keeps_pin 16) post /\
  coarse_millis (mkClock 0 0) < coarse_millis c0 + Z.min DEST_PIN_TTL_MS life.
Proof.
  split; [vm_compute; reflexivity|]. split; [vm_compute; reflexivity|].
  apply pin_exact; [repeat constructor | done | vm_compute; reflexivity].
Defined.
