(* ===== verification/ReplyMemo.v ===== *)
(** Classifying replies on the server ([src/bin/myquic2-server/reader.rs]): the
    direct-mapped memo in front of the reverse-table scan, the no-ACK context
    window of revision 3, and the mailbox through which the peer asks for a
    context again ([R2ConnState] of [accept.rs]).

    A published table is immutable and known by its address: [Arc::ptr_eq] is
    equality of addresses, and the memo owns the snapshot it remembers, so the
    address is not used for another table meanwhile.  The bindings are shared
    with the tasks that confirm and close flows: a classification reads them at
    three times, for the memo's check, for the scan and for the recording, and
    each reading is a heap of its own, whose bindings are what that reading saw. *)
From S2P Require Import Prelude Addr DnsKey DnsPolicy DnsMemo Wire Binding Flow FlowRun.

(* ------------------------------------------------------------------ *)
(** ** The memo *)

Definition REPLY_SOURCE_MEMO_SLOTS : Z := 8.

Record ReplySourceMemoEntry : Type := mkReplyMemo {
  rm_src : SocketAddr;
  rm_snapshot : Z;
  rm_binding : Arc;
  rm_exact : bool;
  rm_observed_reply_src : option SocketAddr;
  rm_observed_acked : bool
}.
Abbreviation ReplySourceMemo := (list (option ReplySourceMemoEntry)).
Definition ReplySourceMemo_default : ReplySourceMemo := repeat None (Z.to_nat REPLY_SOURCE_MEMO_SLOTS).

(** [u32::from(v4)] and [u32::from_ne_bytes], little-endian. *)
Definition u32_be (o : list Z) : Z := fold_left (fun n b => n * 256 + b) o 0.
Definition u32_le (o : list Z) : Z := u32_be (reverse o).
Definition fold_v6 (o : list Z) (i : nat) : Z :=
  Z.lxor (Z.lxor (Z.lxor (o !!! i) (o !!! (i + 4)%nat)) (o !!! (i + 8)%nat)) (o !!! (i + 12)%nat).

Definition reply_slot_of (src : SocketAddr) : nat :=
  let ip := match sa_ip src with IpV4 o => u32_be o | IpV6 o => u32_le (map (fold_v6 o) [0; 1; 2; 3]%nat) end in
  let h := Z.lxor ip (wrapping_mul (sa_port src) 0x9E37) in
  let h := Z.lxor h (Z.shiftr h 16) in
  Z.to_nat (Z.land h (REPLY_SOURCE_MEMO_SLOTS - 1)).

Definition matched_binding (m : SourceMatch) : Arc := match m with Exact b | Rebind b => b end.
Definition matched_exact (m : SourceMatch) : bool := match m with Exact _ => true | Rebind _ => false end.

Section Reading.
Context (h : Heap).

Definition reply_memo_lookup (memo : ReplySourceMemo) (snapshot : Z) (src : SocketAddr) : option SourceMatch :=
  match mjoin (memo !! reply_slot_of src) with
  | None => None
  | Some e =>
      let b := h !!! rm_binding e in
      if negb (bool_decide (rm_src e = src)) || negb (snapshot =? rm_snapshot e) || bool_decide (binding_state b = Closed)
         || negb (bool_decide (fb_reply_src b = rm_observed_reply_src e)) || negb (Bool.eqb (fb_reply_src_acked b) (rm_observed_acked e))
      then None
      else Some (if rm_exact e then Exact (rm_binding e) else Rebind (rm_binding e))
  end.

(** The two observed fields are read here, after the scan. *)
Definition reply_memo_record (memo : ReplySourceMemo) (src : SocketAddr) (snapshot : Z) (m : SourceMatch) : ReplySourceMemo :=
  let l := matched_binding m in
  <[reply_slot_of src := Some (mkReplyMemo src snapshot l (matched_exact m) (fb_reply_src (h !!! l)) (fb_reply_src_acked (h !!! l)))]> memo.

(** The scan, with the closed verdicts filtered out. *)
Definition scan_source (t : SessionFlows) (src : SocketAddr) : option SourceMatch :=
  match match_source h src t with
  | Some m => if bool_decide (binding_state (h !!! matched_binding m) = Closed) then None else Some m
  | None => None
  end.
End Reading.

(** The memo's check reads [h0], the scan [h1], the recording [h2]. *)
Definition classify_reply_source (h0 h1 h2 : Heap) (snapshot : Z) (t : SessionFlows) (src : SocketAddr) (memo : ReplySourceMemo)
    : option SourceMatch * ReplySourceMemo :=
  match reply_memo_lookup h0 memo snapshot src with
  | Some m => (Some m, memo)
  | None =>
      match scan_source h1 t src with
      | Some m => (Some m, reply_memo_record h2 memo src snapshot m)
      | None => (None, memo)
      end
  end.

(* ------------------------------------------------------------------ *)
(** ** The memo against the scan *)

(** A reader's replies so far: each with what its three readings saw of the
    bindings, the snapshot's address and table, and the source. *)
Record ReplyEvent : Type := mkReplyEvent {
  re_check : Heap; re_scan : Heap; re_record : Heap; re_ptr : Z; re_table : SessionFlows; re_src : SocketAddr
}.

Definition memo_after (past : list ReplyEvent) : ReplySourceMemo :=
  fold_left (fun memo r => (classify_reply_source (re_check r) (re_scan r) (re_record r) (re_ptr r) (re_table r) (re_src r) memo).2)
    past ReplySourceMemo_default.

(** What a scan reads of a binding, apart from its state. *)
Definition same_target (a b : FlowBinding) : Prop := fb_target a = fb_target b /\ fb_resolved a = fb_resolved b.
Definition same_reply (a b : FlowBinding) : Prop := fb_reply_src a = fb_reply_src b /\ fb_reply_src_acked a = fb_reply_src_acked b.

Lemma match_source_inputs h h' src t : (forall l, l ∈ flows_iter t -> same_target (h !!! l) (h' !!! l) /\ same_reply (h !!! l) (h' !!! l)) ->
  match_source h src t = match_source h' src t.
Proof.
  unfold match_source. generalize (@None Arc) at 1 3 as ex. generalize (@None Arc) as rb.
  induction (flows_iter t) as [|l bs IH]; intros rb ex Hs; [done|]. cbn [match_source_go].
  destruct (Hs l ltac:(set_solver)) as [[Ht Hr] [Hp Ha]].
  unfold target_is, target_hit, resolved_contains. rewrite Ht, Hr, Hp, Ha.
  assert (Hs' : forall l, l ∈ bs -> same_target (h !!! l) (h' !!! l) /\ same_reply (h !!! l) (h' !!! l)) by (intros x Hx; apply Hs; set_solver).
  repeat case_match; try done; by apply IH.
Qed.

(** An entry of the memo is the verdict of a scan of one of the replies, with what
    the recording read. *)
Definition scanned (e : ReplySourceMemoEntry) (r : ReplyEvent) : Prop :=
  re_src r = rm_src e /\ re_ptr r = rm_snapshot e /\
  (exists m, scan_source (re_scan r) (re_table r) (re_src r) = Some m /\ matched_binding m = rm_binding e /\ matched_exact m = rm_exact e) /\
  fb_reply_src (re_record r !!! rm_binding e) = rm_observed_reply_src e /\ fb_reply_src_acked (re_record r !!! rm_binding e) = rm_observed_acked e.

Lemma memo_entries past : forall i e, memo_after past !! i = Some (Some e) -> exists r, r ∈ past /\ scanned e r.
Proof.
  induction past as [|r past IH] using rev_ind; intros i e E.
  - apply list_elem_of_lookup_2, list_elem_of_In, repeat_spec in E. done.
  - unfold memo_after in E. rewrite fold_left_app in E. cbn [fold_left] in E. fold (memo_after past) in E.
    assert (Hold : memo_after past !! i = Some (Some e) -> exists r', r' ∈ past ++ [r] /\ scanned e r').
    { intros E'. destruct (IH _ _ E') as (r' & Hr & Hs). exists r'. split; [set_solver | done]. }
    unfold classify_reply_source in E. destruct (reply_memo_lookup _ _ _ _) as [m|]; [by apply Hold|].
    destruct (scan_source (re_scan r) (re_table r) (re_src r)) as [m|] eqn:Es; [|by apply Hold].
    unfold reply_memo_record in E. cbn [snd] in E. apply list_lookup_insert_Some in E as [(_ & E & _)|[_ E]]; [|by apply Hold].
    injection E as <-. exists r. split; [set_solver|]. split_and!; [done | done | by exists m | done | done].
Qed.

(** A reply leaves the memo usable for the bindings [h]: no target or resolved set
    differs; a binding its scan did not choose has the source it had for the scan;
    and the chosen one had the same source for the recording as for the scan. *)
Definition steady_since (t : SessionFlows) (h : Heap) (r : ReplyEvent) : Prop :=
  re_table r = t /\ forall l, l ∈ flows_iter t -> same_target (re_scan r !!! l) (h !!! l) /\
    if bool_decide (matched_binding <$> scan_source (re_scan r) t (re_src r) = Some l)
    then same_reply (re_scan r !!! l) (re_record r !!! l)
    else same_reply (re_scan r !!! l) (h !!! l).

(** C22: the reply memo answers what the scan would.  After any replies, on any
    snapshots and states of the bindings, a verdict taken from the memo is the one
    a full scan would give of the bindings the memo's check read, and without one
    the verdict is that of the scan it falls back to; provided that, since each
    reply on the same snapshot, no target or resolved set has changed, no binding
    other than the one that reply chose has learned another source or had it
    confirmed, and the chosen one did neither between that reply's scan and its
    recording.  From the recording on, the chosen one may change, close or be
    confirmed freely, and a collision never matters. *)
Theorem reply_memo_exact past h0 h1 h2 ptr t src :
  (forall r, r ∈ past -> re_ptr r = ptr -> steady_since t h0 r) ->
  (classify_reply_source h0 h1 h2 ptr t src (memo_after past)).1 =
  match reply_memo_lookup h0 (memo_after past) ptr src with Some _ => scan_source h0 t src | None => scan_source h1 t src end.
Proof.
  intros Hp. unfold classify_reply_source. destruct (reply_memo_lookup h0 (memo_after past) ptr src) as [m|] eqn:El; [|by destruct (scan_source h1 t src)].
  unfold reply_memo_lookup in El. destruct (mjoin _) as [e|] eqn:Ee; [|done].
  destruct (memo_after past !! reply_slot_of src) as [[e'|]|] eqn:Ei; cbn in Ee; [injection Ee as -> | done | done].
  destruct (memo_entries _ _ _ Ei) as (r & Hr & Es & Ep & (m' & Hm & Eb & Ex) & E1 & E2).
  destruct (_ || _) eqn:Eo; [done|]. apply orb_false_iff in Eo as [[[[O1 O2]%orb_false_iff O3]%orb_false_iff O4]%orb_false_iff O5].
  apply negb_false_iff in O1 as O1%bool_decide_eq_true, O2 as O2%Z.eqb_eq, O4 as O4%bool_decide_eq_true, O5 as O5%Bool.eqb_prop.
  apply bool_decide_eq_false in O3. subst src ptr. destruct (Hp r Hr Ep) as [<- Hl].
  assert (Hsame : match_source (re_scan r) (re_src r) (re_table r) = match_source h0 (re_src r) (re_table r)).
  { apply match_source_inputs. intros l Hin. destruct (Hl l Hin) as [Ht Ho]. split; [done|]. rewrite Hm in Ho. cbn in Ho.
    case_bool_decide as Hd; [|exact Ho]. injection Hd as <-. destruct Ho as [Ho1 Ho2]. rewrite Eb in Ho1, Ho2 |- *. split; congruence. }
  cbn [fst]. unfold scan_source in Hm |- *. rewrite <- Es, <- Hsame. destruct (match_source (re_scan r) (re_src r) (re_table r)) as [m0|]; [|done].
  destruct (bool_decide _); [done|]. injection Hm as ->. rewrite Eb, bool_decide_eq_false_2 by done. rewrite <- El, <- Ex, <- Eb. by destruct m'.
Qed.

Definition host_at (port : Z) : SocketAddr := SockV4 [9; 9; 9; 9] port.
(** Two flows to one host, the second with a learned source. *)
Definition two_flows (acked : bool) : Heap :=
  {[ 1%positive := mkFlowBinding 2 5 (AddrIp (host_at 1)) 1 0 None false [];
     2%positive := mkFlowBinding 4 5 (AddrIp (host_at 2)) 1 0 (Some (host_at 3)) acked [] ]}.

(** The other bindings do matter.  With the second source unconfirmed the scan
    rebinds the first flow, and so does the memo after the confirmation arrived,
    which a scan would prefer. *)
Lemma late_ack_shadowed :
  let t := mkSessionFlows [Some 1%positive; Some 2%positive] in
  let memo := memo_after [mkReplyEvent (two_flows false) (two_flows false) (two_flows false) 7 t (host_at 3)] in
  (classify_reply_source (two_flows true) (two_flows true) (two_flows true) 7 t (host_at 3) memo).1 = Some (Rebind 1%positive) /\
  scan_source (two_flows true) t (host_at 3) = Some (Exact 2%positive).
Proof. vm_compute. done. Qed.

(** So does the chosen one while it is being recorded.  The confirmation arrives
    between the scan and the recording: the verdict of the unconfirmed source is
    recorded beside the confirmed one, and the memo repeats it for as long as
    nothing else changes, where a scan would call the source exact. *)
Lemma raced_ack_shadowed :
  let t := mkSessionFlows [Some 2%positive] in
  let memo := memo_after [mkReplyEvent (two_flows false) (two_flows false) (two_flows true) 7 t (host_at 3)] in
  (classify_reply_source (two_flows true) (two_flows true) (two_flows true) 7 t (host_at 3) memo).1 = Some (Rebind 2%positive) /\
  scan_source (two_flows true) t (host_at 3) = Some (Exact 2%positive).
Proof. vm_compute. done. Qed.

Lemma reply_memo_exact_witness :
  let t := mkSessionFlows [Some 1%positive; Some 2%positive] in
  let h := two_flows false in
  (classify_reply_source h h h 7 t (host_at 3) (memo_after [mkReplyEvent h h h 7 t (host_at 3)])).1 = scan_source h t (host_at 3).
Proof.
  intros t h. rewrite (reply_memo_exact [mkReplyEvent h h h 7 t (host_at 3)] h h h 7 t (host_at 3)).
  - vm_compute. reflexivity.
  - intros r Hr _. apply list_elem_of_singleton in Hr as ->. split; [reflexivity|]. intros l _. split; [split; reflexivity|]. case_bool_decide; split; reflexivity.
Defined.

(* ------------------------------------------------------------------ *)
(** ** Context repairs *)

Definition R3_CONTEXT_K : Z := 2.
Definition CTX_NEED_CAP : Z := 64.

(** [ctx_need] and [ctx_need_epoch] of the connection. *)
Record CtxNeed : Type := mkCtxNeed { cx_ids : list Z; cx_epoch : Z }.

Definition note_need_context (wire_id : Z) (m : CtxNeed) : CtxNeed :=
  let ids := if CTX_NEED_CAP <=? len (cx_ids m) then [] else cx_ids m in
  let ids := if bool_decide (wire_id ∈ ids) then ids else ids ++ [wire_id] in
  mkCtxNeed ids (as_u64 (cx_epoch m + 1)).

Definition take_need_context (m : CtxNeed) (seen : Z) : option (list Z) * Z :=
  if cx_epoch m =? seen then (None, seen) else (Some (cx_ids m), cx_epoch m).

(** The part of [R2ReplyState] the context window uses. *)
Record CtxWindow : Type := mkCtxWindow { cw_wire : Wire; cw_sent : gmap Z Z; cw_epoch : Z }.

Definition sync_ctx_repairs (m : CtxNeed) (st : CtxWindow) : CtxWindow :=
  match cw_wire st with
  | Rev3 =>
      match take_need_context m (cw_epoch st) with
      | (Some ids, seen) => mkCtxWindow (cw_wire st) (fold_left (fun s w => <[w := 0]> s) ids ∅) seen
      | (None, _) => st
      end
  | Rev2 => st
  end.

Definition context_due (st : CtxWindow) (wire_id : Z) : bool :=
  match cw_wire st with
  | Rev3 => match cw_sent st !! wire_id with Some sent => sent <? R3_CONTEXT_K | None => false end
  | Rev2 => false
  end.

(** The new window, and whether the binding is marked confirmed. *)
Definition note_ctx_sent (wire_id : Z) (st : CtxWindow) : bool * CtxWindow :=
  match cw_wire st with
  | Rev3 =>
      let sent := Z.min (default 0 (cw_sent st !! wire_id) + 1) 255 in
      if R3_CONTEXT_K <=? sent then (true, mkCtxWindow (cw_wire st) (delete wire_id (cw_sent st)) (cw_epoch st))
      else (false, mkCtxWindow (cw_wire st) (<[wire_id := sent]> (cw_sent st)) (cw_epoch st))
  | Rev2 => (false, st)
  end.

Lemma notes_keep ws : forall m w, w ∈ cx_ids m -> len (cx_ids m) + len ws <= CTX_NEED_CAP ->
  w ∈ cx_ids (fold_left (fun m w => note_need_context w m) ws m).
Proof.
  induction ws as [|x ws IH]; intros m w Hin Hle; [done|]. rewrite len_cons in Hle. pose proof (len_nonneg ws). cbn [fold_left]. apply IH.
  - unfold note_need_context. cbn [cx_ids]. rewrite (proj2 (Z.leb_gt _ _)) by lia. case_bool_decide; set_solver.
  - unfold note_need_context. cbn [cx_ids]. rewrite (proj2 (Z.leb_gt _ _)) by lia. case_bool_decide; [lia|]. rewrite len_app, len_cons, len_nil. lia.
Qed.

Lemma notes_epoch ws : forall m, is_u64 (cx_epoch m) -> cx_epoch (fold_left (fun m w => note_need_context w m) ws m) = as_u64 (cx_epoch m + len ws).
Proof.
  induction ws as [|x ws IH]; intros m Hm; cbn [fold_left].
  - rewrite len_nil, Z.add_0_r. symmetry. apply as_u64_small. unfold is_u64, usize_max in *. lia.
  - rewrite IH by apply as_u64_u64. cbn [note_need_context cx_epoch]. rewrite len_cons. unfold as_u64. rewrite Zplus_mod_idemp_l. f_equal. lia.
Qed.

Lemma window_fresh ids w : forall s, (w ∈ ids \/ s !! w = Some 0) -> fold_left (fun (s : gmap Z Z) w => <[w := 0]> s) ids s !! w = Some 0.
Proof.
  induction ids as [|x ids IH]; intros s Hw; cbn [fold_left]; [destruct Hw as [[]%elem_of_nil|]; done|]. apply IH.
  destruct (decide (x = w)) as [->|Hne]; [right; apply lookup_insert_eq|].
  destruct Hw as [[->|]%elem_of_cons|Hw]; [done | by left | right; by rewrite lookup_insert_ne].
Qed.

(** C23: a peer that lost a flow's context gets it back.  When the peer asks for
    the context of [w] and a reader that was up to date replies next, with fewer
    than [CTX_NEED_CAP] other requests pending, the reader opens the flow's context
    window: exactly its next [R3_CONTEXT_K] frames on [w] are due to carry the
    context, the last of them confirms the source, and nothing is repeated until
    another request arrives. *)
Theorem context_repaired m w ws st :
  cw_wire st = Rev3 -> is_u64 (cx_epoch m) -> cw_epoch st = cx_epoch m -> len (cx_ids m) + 1 + len ws <= CTX_NEED_CAP ->
  let m' := fold_left (fun m w => note_need_context w m) (w :: ws) m in
  let st0 := sync_ctx_repairs m' st in
  let '(ack1, st1) := note_ctx_sent w st0 in
  let '(ack2, st2) := note_ctx_sent w st1 in
  context_due st0 w = true /\ ack1 = false /\ context_due st1 w = true /\ ack2 = true /\ context_due st2 w = false /\
  sync_ctx_repairs m' st2 = st2.
Proof.
  intros Hw Hm He Hle m' st0. pose proof (len_nonneg ws). pose proof (len_nonneg (cx_ids m)).
  assert (Hin : w ∈ cx_ids m').
  { subst m'. cbn [fold_left]. apply notes_keep; unfold note_need_context; cbn [cx_ids]; rewrite (proj2 (Z.leb_gt _ _)) by lia; case_bool_decide; try set_solver; [lia|].
    rewrite len_app, len_cons, len_nil. lia. }
  assert (Hne : cx_epoch m' <> cx_epoch m).
  { subst m'. rewrite notes_epoch by done. rewrite len_cons. unfold as_u64, is_u64, CTX_NEED_CAP in *. intros E.
    pose proof (Z.div_mod (cx_epoch m + len (w :: ws)) (2 ^ 64) ltac:(lia)) as Hd. rewrite len_cons in Hd. rewrite E in Hd. lia. }
  assert (E0 : st0 = mkCtxWindow Rev3 (fold_left (fun s w => <[w := 0]> s) (cx_ids m') ∅) (cx_epoch m')).
  { unfold st0, sync_ctx_repairs, take_need_context. rewrite Hw, He. by rewrite (proj2 (Z.eqb_neq _ _)) by done. }
  rewrite E0. set (s0 := fold_left _ (cx_ids m') ∅). assert (Hs0 : s0 !! w = Some 0) by (apply window_fresh; by left).
  unfold note_ctx_sent at 1. cbn [cw_wire cw_sent cw_epoch]. rewrite Hs0. change (R3_CONTEXT_K <=? Z.min (default 0 (Some 0) + 1) 255) with false. cbv iota.
  unfold note_ctx_sent. cbn [cw_wire cw_sent cw_epoch]. rewrite lookup_insert_eq.
  change (R3_CONTEXT_K <=? Z.min (default 0 (Some (Z.min (default 0 (Some 0) + 1) 255)) + 1) 255) with true. cbv iota.
  unfold context_due, sync_ctx_repairs, take_need_context. cbn [cw_wire cw_sent cw_epoch]. rewrite Hs0, lookup_insert_eq, lookup_delete_eq, Z.eqb_refl. done.
Qed.

Lemma context_repaired_witness :
  context_due (sync_ctx_repairs (note_need_context 6 (mkCtxNeed [] 3)) (mkCtxWindow Rev3 ∅ 3)) 6 = true.
Proof.
  pose proof (context_repaired (mkCtxNeed [] 3) 6 [] (mkCtxWindow Rev3 ∅ 3)) as Hc. cbv zeta in Hc. cbn [fold_left] in Hc.
  destruct (note_ctx_sent 6 _) as [ack1 st1] in Hc. destruct (note_ctx_sent 6 st1) as [ack2 st2].
  apply Hc; [reflexivity | vm_compute; split; congruence | reflexivity | vm_compute; congruence].
Defined.
