(* ===== verification/DnsGate.v ===== *)
(** The per-connection DNS gate of [src/bin/myquic2-server/forward.rs]
    ([DnsGate]): one resolver waiter per (session, name, port), the datagrams
    that arrive meanwhile parked behind it, and the short-lived refusals.

    The hasher is std's randomly seeded one: a parameter.  The mutex makes each
    access of the slot array one step.  The one-slot hint is three atomics: a
    section of the lock gives the stores it makes, in their order, and a claim reads
    the three without the lock ([claim_hint] takes what each load returned), so a
    reading may fall between the stores of a section, or across several. *)
From S2P Require Import Prelude DnsKey DnsMemo DnsAnswer.

Definition DNS_GATE_SLOTS : Z := 8.
Definition DNS_GATE_INFLIGHT_TTL_MS : Z := 15000.
Definition DNS_GATE_PARK_ITEMS : Z := 4.
Definition DNS_GATE_PARK_BYTES : Z := 8 * 1024.
Definition DNS_GATE_FILTERED_TTL_MS : Z := 60000.

(** [Hasher::write_*]: what the key feeds to the hasher, in order. *)
Inductive HashWrite : Type := W32 (n : Z) | W16 (n : Z) | W8 (n : Z) | WSize (n : Z).

Class GateHasher : Type := { finish_hash : list HashWrite -> Z }.

(** [gate_ttl_ms] of a duration in nanoseconds. *)
Definition gate_ttl_ms (ttl : Z) : Z := Z.min (ttl / 10 ^ 6) (2 ^ 64 - 1).

Definition filtered_ttl_ms (c : Clock) (epoch : Z) (m : Memo) (host : bytes) (port : Z) : res unit Z :=
  let! r := lookup_cached_fast_with_ttl c epoch m host port in
  let life := if r.2 =? 0 then DNS_CACHE_TTL_MS else r.2 in
  Ok (Z.min life DNS_GATE_FILTERED_TTL_MS).

Inductive GateState : Type := GInFlight | GUnusable.

#[export] Instance GateState_eq_dec : EqDecision GateState.
Proof. solve_decision. Defined.

Inductive GateClaim : Type := Proceed (generation : Z) | InFlight | Unusable.

Record GateEntry : Type := mkGate {
  ge_key : Z;
  ge_state : GateState;
  ge_deadline : Z;
  ge_generation : Z;
  ge_parked : list bytes;
  ge_parked_bytes : Z
}.

(** [GateInner] and the three atomics of the hint. *)
Record DnsGate : Type := mkDnsGate {
  dg_entries : list (option GateEntry);
  dg_next_generation : Z;
  dg_hot_key : Z;
  dg_hot_state : Z;
  dg_hot_deadline : Z
}.

Definition DnsGate_new : DnsGate := mkDnsGate (repeat None (Z.to_nat DNS_GATE_SLOTS)) 0 0 0 0.

Definition with_entries (es : list (option GateEntry)) (g : DnsGate) : DnsGate :=
  mkDnsGate es (dg_next_generation g) (dg_hot_key g) (dg_hot_state g) (dg_hot_deadline g).

Definition state_code (s : GateState) : Z := match s with GInFlight => 1 | GUnusable => 2 end.
Definition state_claim (s : GateState) : GateClaim := match s with GInFlight => InFlight | GUnusable => Unusable end.

(** One store to the hint, and a sequence of them. *)
Inductive HotStore : Type := HDeadline (d : Z) | HState (n : Z) | HKey (k : Z).
Definition hot_store (g : DnsGate) (x : HotStore) : DnsGate :=
  match x with
  | HDeadline d => mkDnsGate (dg_entries g) (dg_next_generation g) (dg_hot_key g) (dg_hot_state g) d
  | HState n => mkDnsGate (dg_entries g) (dg_next_generation g) (dg_hot_key g) n (dg_hot_deadline g)
  | HKey k => mkDnsGate (dg_entries g) (dg_next_generation g) k (dg_hot_state g) (dg_hot_deadline g)
  end.
Definition hot_stores (l : list HotStore) (g : DnsGate) : DnsGate := fold_left hot_store l g.

Definition publish_hot (key : Z) (s : GateState) (deadline : Z) : list HotStore := [HDeadline deadline; HState (state_code s); HKey key].
Definition clear_hot : list HotStore := [HKey 0].

(** A section that ran to its end: what it answers, its stores made. *)
Definition settle {A} (r : A * list HotStore * DnsGate) : A * DnsGate := (r.1.1, hot_stores r.1.2 r.2).

Section Gate.
Context `{GateHasher}.

(** The name's end: trailing dots go, the first byte stays. *)
Definition gate_key (s : Z) (host : bytes) (port : Z) : Z :=
  let name := dns_name_bytes host in
  finish_hash (W32 s :: W16 port :: ((fun b => W8 (to_ascii_lowercase b)) <$> name) ++ [WSize (len name)]).

Definition live_for (key now : Z) (e : GateEntry) : bool := (ge_key e =? key) && (now <? ge_deadline e).

(** [.iter().flatten().find(p)], with the slot it is found in, and
    [.iter().position(p)]. *)
Fixpoint find_slot (p : GateEntry -> bool) (es : list (option GateEntry)) : option (nat * GateEntry) :=
  match es with
  | [] => None
  | Some e :: rest => if p e then Some (0%nat, e) else prod_map S id <$> find_slot p rest
  | None :: rest => prod_map S id <$> find_slot p rest
  end.
Definition find_entry (p : GateEntry -> bool) (es : list (option GateEntry)) : option GateEntry := snd <$> find_slot p es.
Fixpoint slot_pos (p : option GateEntry -> bool) (es : list (option GateEntry)) : option nat :=
  match es with
  | [] => None
  | e :: rest => if p e then Some 0%nat else S <$> slot_pos p rest
  end.
Definition reusable (now : Z) (e : option GateEntry) : bool :=
  match e with None => true | Some x => ge_deadline x <=? now end.

(** The fast read of the hint, outside the lock, from what its loads return: the
    key, then the deadline, then the state. *)
Definition hint_for (key hot_key : Z) : bool := negb (key =? 0) && (hot_key =? key).
Definition hint_state (hot_state : Z) : option GateClaim :=
  if hot_state =? 1 then Some InFlight else if hot_state =? 2 then Some Unusable else None.
Definition claim_hint (key now hot_key hot_deadline hot_state : Z) : option GateClaim :=
  if hint_for key hot_key then
    if now <? hot_deadline then hint_state hot_state else None
  else None.

(** The rest of [DnsGate::claim], under the lock. *)
Definition claim_locked (key now : Z) (g : DnsGate) : GateClaim * list HotStore * DnsGate :=
  let es := dg_entries g in
  let hit :=
    match find_entry (fun e => live_for key now e && bool_decide (ge_state e = GInFlight)) es with
    | Some e => Some e
    | None => find_entry (live_for key now) es
    end in
  match hit with
  | Some e => (state_claim (ge_state e), publish_hot key (ge_state e) (ge_deadline e), g)
  | None =>
      let generation := dg_next_generation g in
      let slot := default (Z.to_nat (generation mod DNS_GATE_SLOTS)) (slot_pos (reusable now) es) in
      let deadline := saturating_add now DNS_GATE_INFLIGHT_TTL_MS in
      let es := <[slot := Some (mkGate key GInFlight deadline generation [] 0)]> es in
      let g := mkDnsGate es (as_u32 (generation + 1)) (dg_hot_key g) (dg_hot_state g) (dg_hot_deadline g) in
      (Proceed generation, publish_hot key GInFlight deadline, g)
  end.

(** [DnsGate::claim] with nobody else at the gate. *)
Definition gate_claim (s : Z) (host : bytes) (port now_ms : Z) (g : DnsGate) : GateClaim * DnsGate :=
  let key := gate_key s host port in
  match claim_hint key now_ms (dg_hot_key g) (dg_hot_deadline g) (dg_hot_state g) with
  | Some c => (c, g)
  | None => settle (claim_locked key now_ms g)
  end.

Definition set_parked (e : GateEntry) (parked : list bytes) (n : Z) : GateEntry :=
  mkGate (ge_key e) (ge_state e) (ge_deadline e) (ge_generation e) parked n.

Definition gate_park (s : Z) (host : bytes) (port now_ms : Z) (payload : bytes) (g : DnsGate) : bool * DnsGate :=
  let key := gate_key s host port in
  match find_slot (fun e => (ge_key e =? key) && bool_decide (ge_state e = GInFlight) && (now_ms <? ge_deadline e)) (dg_entries g) with
  | None => (false, g)
  | Some (i, e) =>
      if (DNS_GATE_PARK_ITEMS <=? len (ge_parked e))
         || (DNS_GATE_PARK_BYTES <? saturating_add (ge_parked_bytes e) (len payload))
      then (false, g)
      else (true, with_entries (<[i := Some (set_parked e (ge_parked e ++ [payload]) (ge_parked_bytes e + len payload))]> (dg_entries g)) g)
  end.

Definition owned_by (key generation : Z) (e : GateEntry) : bool := (ge_key e =? key) && (ge_generation e =? generation).

Definition take_parked (s : Z) (host : bytes) (port generation : Z) (g : DnsGate) : list bytes * DnsGate :=
  match find_slot (owned_by (gate_key s host port) generation) (dg_entries g) with
  | None => ([], g)
  | Some (i, e) => (ge_parked e, with_entries (<[i := Some (set_parked e [] 0)]> (dg_entries g)) g)
  end.

(** The sum over the claim's entries, each left without its followers. *)
Definition drain_entry (key generation : Z) (o : option GateEntry) : option GateEntry :=
  match o with
  | Some e => Some (if owned_by key generation e then set_parked e [] 0 else e)
  | None => None
  end.
Definition parked_lost (key generation : Z) (es : list (option GateEntry)) : Z :=
  foldr (fun o acc => match o with
    | Some e => if owned_by key generation e then len (ge_parked e) + acc else acc
    | None => acc end) 0 es.

(** [DnsGate::finish], with the number of [REFUSED] it counts. *)
Definition gate_finish (s : Z) (host : bytes) (port generation : Z) (unusable : option Z) (now : Z) (g : DnsGate) : Z * list HotStore * DnsGate :=
  let key := gate_key s host port in
  let lost := parked_lost key generation (dg_entries g) in
  let es := drain_entry key generation <$> dg_entries g in
  let verdict ttl i :=
    let deadline := saturating_add now (gate_ttl_ms ttl) in
    (lost, publish_hot key GUnusable deadline, with_entries (<[i := Some (mkGate key GUnusable deadline generation [] 0)]> es) g) in
  match find_slot (owned_by key generation) es with
  | Some (i, _) =>
      match unusable with
      | Some ttl => verdict ttl i
      | None => (lost, clear_hot, with_entries (<[i := None]> es) g)
      end
  | None =>
      match unusable with
      | Some ttl =>
          if existsb (fun o => match o with Some e => live_for key now e | None => false end) es then (lost, [], with_entries es g)
          else match slot_pos (reusable now) es with
               | Some i => verdict ttl i
               | None => (lost, [], with_entries es g)
               end
      | None =>
          if existsb (fun o => match o with Some e => ge_key e =? key | None => false end) es then (lost, [], with_entries es g)
          else (lost, clear_hot, with_entries es g)
      end
  end.

End Gate.
