(* ===== verification/DnsGateRun.v ===== *)
(** The DNS gate over any sequence of calls: its bounds, its hint, and what
    becomes of every payload parked behind a lookup. *)
From S2P Require Import Prelude DnsKey DnsMemo DnsAnswer DnsGate.

(** One call on a connection's gate; a claim comes from [forward_server_dgram],
    the rest from it or from the waiter it spawned. *)
Inductive GateOp : Type :=
| OClaim (s : Z) (host : bytes) (port now : Z)
| OPark (s : Z) (host : bytes) (port now : Z) (payload : bytes)
| OTake (s : Z) (host : bytes) (port generation : Z)
| OFinish (s : Z) (host : bytes) (port generation : Z) (unusable : option Z) (now : Z).

(** Where the parked payloads went, in numbers. *)
Record Tally : Type := mkTally {
  tl_accepted : Z;     (** [park] answered true *)
  tl_taken : Z;        (** handed back by [take_parked] *)
  tl_refused : Z;      (** counted by [finish] *)
  tl_dropped : Z       (** in a slot a claim or a verdict overwrote *)
}.

Definition parked_in (o : option GateEntry) : Z := match o with Some e => len (ge_parked e) | None => 0 end.
Definition parked_total (es : list (option GateEntry)) : Z := foldr (fun o n => parked_in o + n) 0 es.

Definition byte_total (l : list bytes) : Z := foldr (fun b n => len b + n) 0 l.

(* ------------------------------------------------------------------ *)
(** ** Slots *)

Lemma find_slot_Some p es i e : find_slot p es = Some (i, e) -> es !! i = Some (Some e) /\ p e = true.
Proof.
  revert i; induction es as [|[x|] es IH]; intros i E; cbn in E; [done| |].
  - destruct (p x) eqn:Ep; [by simplify_eq|]. destruct (find_slot p es) as [[j y]|] eqn:Ef; cbn in E; [|done]. simplify_eq. by apply IH.
  - destruct (find_slot p es) as [[j y]|] eqn:Ef; cbn in E; [|done]. simplify_eq. by apply IH.
Qed.

Lemma find_slot_None p es i e : find_slot p es = None -> es !! i = Some (Some e) -> p e = false.
Proof.
  revert i; induction es as [|[x|] es IH]; intros i E Ei; cbn in E; [done| |].
  - destruct (p x) eqn:Ep; [done|]. apply fmap_None in E. destruct i as [|i]; cbn in Ei; [by simplify_eq | by eapply IH].
  - apply fmap_None in E. destruct i as [|i]; cbn in Ei; [done | by eapply IH].
Qed.

Lemma find_slot_unique p es i e : es !! i = Some (Some e) -> p e = true ->
  (forall j e', es !! j = Some (Some e') -> p e' = true -> j = i) -> find_slot p es = Some (i, e).
Proof.
  intros Ei Hp Hu. destruct (find_slot p es) as [[j e']|] eqn:Ef.
  - apply find_slot_Some in Ef as [Ej Hp']. rewrite (Hu j e' Ej Hp') in Ej |- *. by simplify_eq.
  - eapply find_slot_None in Ef; [|exact Ei]. congruence.
Qed.

Lemma slot_pos_Some p es i : slot_pos p es = Some i -> exists o, es !! i = Some o /\ p o = true.
Proof.
  revert i; induction es as [|x es IH]; intros i E; cbn in E; [done|]. destruct (p x) eqn:Ep; [simplify_eq; by exists x|].
  apply fmap_Some in E as (j & Ej & ->). by apply IH.
Qed.

Lemma parked_in_nonneg o : 0 <= parked_in o.
Proof. destruct o; cbn; [apply len_nonneg | done]. Qed.

Lemma parked_total_insert es i o o' : es !! i = Some o -> parked_total (<[i := o']> es) = parked_total es - parked_in o + parked_in o'.
Proof.
  revert i; induction es as [|x es IH]; intros [|i] Hi; cbn in Hi; try done.
  - simplify_eq. change (parked_in o' + parked_total es = parked_in o + parked_total es - parked_in o + parked_in o'). lia.
  - change (parked_in x + parked_total (<[i := o']> es) = parked_in x + parked_total es - parked_in o + parked_in o'). rewrite (IH i) by done. lia.
Qed.

Lemma parked_total_nonneg es : 0 <= parked_total es.
Proof. induction es as [|o es IH]; cbn; [done|]. pose proof (parked_in_nonneg o). unfold parked_total in IH. lia. Qed.

(** What the hint looks at. *)
Definition sig (o : option GateEntry) : option (Z * GateState * Z) := (fun e => (ge_key e, ge_state e, ge_deadline e)) <$> o.

Section Gate.
Context `{GateHasher}.

(** How many payloads a call overwrites unseen: a claim that takes a slot, and a
    verdict that goes into a slot of another claim. *)
Definition claim_slot (now : Z) (g : DnsGate) : nat :=
  default (Z.to_nat (dg_next_generation g mod DNS_GATE_SLOTS)) (slot_pos (reusable now) (dg_entries g)).
Definition claim_drops (key now : Z) (g : DnsGate) : Z :=
  match (claim_locked key now g).1.1 with
  | Proceed _ => parked_in (dg_entries g !!! claim_slot now g)
  | _ => 0
  end.
Definition finish_drops (s : Z) (host : bytes) (port generation : Z) (unusable : option Z) (now : Z) (g : DnsGate) : Z :=
  let key := gate_key s host port in
  match find_slot (owned_by key generation) (dg_entries g), unusable with
  | None, Some _ =>
      if existsb (fun o => match o with Some e => live_for key now e | None => false end) (dg_entries g) then 0
      else match slot_pos (reusable now) (dg_entries g) with Some i => parked_in (dg_entries g !!! i) | None => 0 end
  | _, _ => 0
  end.

(** The section of the lock a call runs: the hint stores it makes, and the gate
    before it makes them. *)
Definition section (op : GateOp) (g : DnsGate) : list HotStore * DnsGate :=
  match op with
  | OClaim s host port now => let r := claim_locked (gate_key s host port) now g in (r.1.2, r.2)
  | OPark s host port now payload => ([], (gate_park s host port now payload g).2)
  | OTake s host port generation => ([], (take_parked s host port generation g).2)
  | OFinish s host port generation unusable now => let r := gate_finish s host port generation unusable now g in (r.1.2, r.2)
  end.
Definition count (op : GateOp) (g : DnsGate) (t : Tally) : Tally :=
  match op with
  | OClaim s host port now =>
      mkTally (tl_accepted t) (tl_taken t) (tl_refused t) (tl_dropped t + claim_drops (gate_key s host port) now g)
  | OPark s host port now payload =>
      mkTally (tl_accepted t + Z.b2z (gate_park s host port now payload g).1) (tl_taken t) (tl_refused t) (tl_dropped t)
  | OTake s host port generation =>
      mkTally (tl_accepted t) (tl_taken t + len (take_parked s host port generation g).1) (tl_refused t) (tl_dropped t)
  | OFinish s host port generation unusable now =>
      mkTally (tl_accepted t) (tl_taken t) (tl_refused t + (gate_finish s host port generation unusable now g).1.1)
        (tl_dropped t + finish_drops s host port generation unusable now g)
  end.

(** A run of the gate: sections of the lock, and the single stores of the one that
    holds it; a call that finds the lock taken waits. *)
Inductive GateEvent : Type := ESection (op : GateOp) | EStore.
Record GateRun : Type := mkGateRun { gr_gate : DnsGate; gr_pending : list HotStore; gr_tally : Tally }.

Definition gate_event (r : GateRun) (e : GateEvent) : GateRun :=
  match e, gr_pending r with
  | ESection op, [] => let '(st, g) := section op (gr_gate r) in mkGateRun g st (count op (gr_gate r) (gr_tally r))
  | EStore, x :: st => mkGateRun (hot_store (gr_gate r) x) st (gr_tally r)
  | _, _ => r
  end.
Definition gate_run (evs : list GateEvent) : GateRun := fold_left gate_event evs (mkGateRun DnsGate_new [] (mkTally 0 0 0 0)).

(** What a claim's three loads answer when they fall into the states [g1], [g2]
    and [g3]. *)
Definition reading (key now : Z) (g1 g2 g3 : DnsGate) : option GateClaim :=
  claim_hint key now (dg_hot_key g1) (dg_hot_deadline g2) (dg_hot_state g3).

(* ------------------------------------------------------------------ *)
(** ** The invariant *)

(** One entry: its queue is within bounds and its byte count is exact; a
    verdict has no queue. *)
Definition entry_ok (e : GateEntry) : Prop :=
  len (ge_parked e) <= DNS_GATE_PARK_ITEMS /\ ge_parked_bytes e = byte_total (ge_parked e) /\ ge_parked_bytes e <= DNS_GATE_PARK_BYTES /\
  (ge_state e = GUnusable -> ge_parked e = []).

(** The hint repeats an entry of the table. *)
Definition hint_ok (g : DnsGate) : Prop :=
  dg_hot_key g <> 0 -> exists i st, sig <$> dg_entries g !! i = Some (Some (dg_hot_key g, st, dg_hot_deadline g)) /\ state_code st = dg_hot_state g.

Record gate_ok (g : DnsGate) : Prop := mkGateOk {
  go_len : length (dg_entries g) = Z.to_nat DNS_GATE_SLOTS;
  go_entries i e : dg_entries g !! i = Some (Some e) -> entry_ok e;
  go_hint : hint_ok g
}.

Lemma init_ok : gate_ok DnsGate_new.
Proof.
  split; [done| |by intros []]. intros i e E. apply list_elem_of_lookup_2, list_elem_of_In, repeat_spec in E. done.
Qed.

Lemma empty_entry_ok key st deadline generation : entry_ok (mkGate key st deadline generation [] 0).
Proof. split_and!; done. Qed.

(** The entries change but what the hint looks at does not. *)
Lemma same_sig_ok g es : gate_ok g -> sig <$> es = sig <$> dg_entries g -> (forall i e, es !! i = Some (Some e) -> entry_ok e) -> gate_ok (with_entries es g).
Proof.
  intros [Hl He Hh] Es Hes. split; cbn; [|done|].
  - rewrite <- Hl. by rewrite <- (length_fmap sig es), Es, length_fmap.
  - intros Hk. destruct (Hh Hk) as (i & st & Ei & Est). exists i, st. cbn. split; [|done]. by rewrite <- list_lookup_fmap, Es, list_lookup_fmap.
Qed.

Lemma sig_insert (es : list (option GateEntry)) i e e' : es !! i = Some (Some e) -> ge_key e' = ge_key e -> ge_state e' = ge_state e -> ge_deadline e' = ge_deadline e ->
  sig <$> <[i := Some e']> es = sig <$> es.
Proof.
  intros Ei Ek Es Ed. rewrite list_fmap_insert. apply list_insert_id. rewrite list_lookup_fmap, Ei. cbn. by rewrite Ek, Es, Ed.
Qed.

Lemma insert_entries_ok (es : list (option GateEntry)) i o : (forall i e, es !! i = Some (Some e) -> entry_ok e) -> (forall e, o = Some e -> entry_ok e) ->
  forall j e, <[i := o]> es !! j = Some (Some e) -> entry_ok e.
Proof. intros He Ho j e E. apply list_lookup_insert_Some in E as [(_ & E & _)|[_ E]]; [by apply Ho | by eapply He]. Qed.

(** A new entry, published. *)
Lemma publish_ok g es gen i key st deadline generation : gate_ok g -> (forall i e, es !! i = Some (Some e) -> entry_ok e) ->
  length es = length (dg_entries g) -> (i < length es)%nat ->
  gate_ok (hot_stores (publish_hot key st deadline) (mkDnsGate (<[i := Some (mkGate key st deadline generation [] 0)]> es) gen (dg_hot_key g) (dg_hot_state g) (dg_hot_deadline g))).
Proof.
  intros Hg He El Hi. split; cbn.
  - rewrite length_insert, El. apply Hg.
  - apply insert_entries_ok; [done|]. intros e [= <-]. apply empty_entry_ok.
  - intros _. exists i, st. cbn. by rewrite list_lookup_insert_eq.
Qed.

Lemma gen_slot_lt g : gate_ok g -> (Z.to_nat (dg_next_generation g mod DNS_GATE_SLOTS) < length (dg_entries g))%nat.
Proof. intros Hg. rewrite (go_len _ Hg). pose proof (Z.mod_pos_bound (dg_next_generation g) DNS_GATE_SLOTS eq_refl). unfold DNS_GATE_SLOTS in *. lia. Qed.

Lemma claim_slot_lt now g : gate_ok g -> (claim_slot now g < length (dg_entries g))%nat.
Proof.
  intros Hg. unfold claim_slot. destruct (slot_pos _ _) as [i|] eqn:E; cbn; [|by apply gen_slot_lt].
  apply slot_pos_Some in E as (o & E & _). by eapply lookup_lt_Some.
Qed.

(** A found entry, published. *)
Lemma refresh_ok g i e : gate_ok g -> dg_entries g !! i = Some (Some e) -> gate_ok (hot_stores (publish_hot (ge_key e) (ge_state e) (ge_deadline e)) g).
Proof. intros [Hl He _] Ei. split; cbn; [done|done|]. intros _. exists i, (ge_state e). cbn. by rewrite Ei. Qed.

Lemma live_hit_ok g key p e : gate_ok g -> (forall e, p e = true -> ge_key e = key) -> find_entry p (dg_entries g) = Some e ->
  gate_ok (hot_stores (publish_hot key (ge_state e) (ge_deadline e)) g).
Proof.
  intros Hg Hp Ef. unfold find_entry in Ef. apply fmap_Some in Ef as ([i e'] & Ef & ->). apply find_slot_Some in Ef as [Ei He]. cbn.
  rewrite <- (Hp _ He). by eapply refresh_ok.
Qed.

Lemma stores_entries l : forall g, dg_entries (hot_stores l g) = dg_entries g /\ dg_next_generation (hot_stores l g) = dg_next_generation g.
Proof.
  induction l as [|x l IH]; intros g; [done|]. change (hot_stores (x :: l) g) with (hot_stores l (hot_store g x)).
  destruct (IH (hot_store g x)) as [-> ->]. by destruct x.
Qed.

(** Each section keeps the invariant, once its stores are made, and accounts for
    every payload. *)
Lemma claim_ok key now g : gate_ok g ->
  let r := claim_locked key now g in
  gate_ok (hot_stores r.1.2 r.2) /\ parked_total (dg_entries r.2) = parked_total (dg_entries g) - claim_drops key now g /\ 0 <= claim_drops key now g.
Proof.
  intros Hg. unfold claim_drops, claim_locked. set (es := dg_entries g). set (hit := match find_entry _ es with Some e => Some e | None => _ end).
  destruct hit as [e|] eqn:Ehit.
  - cbn [fst snd]. assert (gate_ok (hot_stores (publish_hot key (ge_state e) (ge_deadline e)) g)).
    { subst hit. destruct (find_entry _ es) as [e'|] eqn:E1 in Ehit; [injection Ehit as ->|];
        (eapply (live_hit_ok g key); [exact Hg | | eassumption]); intros x; unfold live_for; naive_solver lia. }
    destruct (state_claim (ge_state e)) eqn:Es; [by destruct (ge_state e)|..]; (split_and!; [done | fold es; lia | done]).
  - cbn [fst snd]. assert (Hs := claim_slot_lt now g Hg). destruct (lookup_lt_is_Some_2 es (claim_slot now g) Hs) as [o Eo].
    fold es. rewrite (list_lookup_total_correct _ _ _ Eo). unfold claim_slot in *. fold es in Eo, Hs |- *. split_and!; [|cbn [dg_entries]; rewrite (parked_total_insert _ _ _ _ Eo); change (parked_in (Some (mkGate key GInFlight _ _ [] 0))) with 0; fold es; lia | apply parked_in_nonneg].
    apply (publish_ok g es); [done | apply Hg | done | done].
Qed.

Lemma set_parked_ok e l n : entry_ok (set_parked e l n) <-> len l <= DNS_GATE_PARK_ITEMS /\ n = byte_total l /\ n <= DNS_GATE_PARK_BYTES /\ (ge_state e = GUnusable -> l = []).
Proof. done. Qed.

Lemma requeue_ok g i e l n : gate_ok g -> dg_entries g !! i = Some (Some e) -> entry_ok (set_parked e l n) ->
  gate_ok (with_entries (<[i := Some (set_parked e l n)]> (dg_entries g)) g) /\
  parked_total (<[i := Some (set_parked e l n)]> (dg_entries g)) = parked_total (dg_entries g) - len (ge_parked e) + len l.
Proof.
  intros Hg Ei He. split.
  - apply same_sig_ok; [done | by eapply sig_insert |]. apply insert_entries_ok; [apply Hg|]. by intros e' [= <-].
  - by rewrite (parked_total_insert _ _ _ _ Ei).
Qed.

Lemma byte_total_app a b : byte_total (a ++ b) = byte_total a + byte_total b.
Proof. induction a as [|x a IH]; cbn; [done|]. unfold byte_total in *. lia. Qed.
Lemma byte_total_nonneg l : 0 <= byte_total l.
Proof. induction l as [|x l IH]; cbn; [done|]. pose proof (len_nonneg x). unfold byte_total in IH. lia. Qed.

Lemma park_ok s host port now payload g : gate_ok g ->
  let r := gate_park s host port now payload g in
  gate_ok r.2 /\ parked_total (dg_entries r.2) = parked_total (dg_entries g) + Z.b2z r.1.
Proof.
  intros Hg. unfold gate_park. destruct (find_slot _ _) as [[i e]|] eqn:Ef; [|cbn; split; [done|lia]].
  apply find_slot_Some in Ef as [Ei Hp]. apply andb_true_iff in Hp as [[_ Hst%bool_decide_eq_true]%andb_true_iff _]. destruct (_ || _) eqn:Eb; [cbn; split; [done|lia]|]. cbn [fst snd with_entries dg_entries].
  destruct (go_entries _ Hg i e Ei) as (H1 & H2 & H3 & H4). zbool.
  assert (Hs : saturating_add (ge_parked_bytes e) (len payload) <= DNS_GATE_PARK_BYTES -> ge_parked_bytes e + len payload <= DNS_GATE_PARK_BYTES)
    by (unfold saturating_add, usize_max, DNS_GATE_PARK_BYTES; lia).
  destruct (requeue_ok g i e (ge_parked e ++ [payload]) (ge_parked_bytes e + len payload) Hg Ei) as [Hok Hn].
  - apply set_parked_ok. rewrite len_app, len_cons, len_nil, byte_total_app. unfold DNS_GATE_PARK_ITEMS in *. cbn. split_and!; [lia | lia | apply Hs; lia | congruence].
  - split; [done|]. rewrite Hn, len_app, len_cons, len_nil. cbn. lia.
Qed.

Lemma take_ok s host port generation g : gate_ok g ->
  let r := take_parked s host port generation g in
  gate_ok r.2 /\ parked_total (dg_entries r.2) = parked_total (dg_entries g) - len r.1.
Proof.
  intros Hg. unfold take_parked. destruct (find_slot _ _) as [[i e]|] eqn:Ef; [|cbn; split; [done|rewrite len_nil; lia]].
  apply find_slot_Some in Ef as [Ei _]. cbn [fst snd with_entries dg_entries].
  destruct (requeue_ok g i e [] 0 Hg Ei) as [Hok Hn]; [by apply set_parked_ok|]. split; [done|]. rewrite Hn, len_nil. lia.
Qed.

Lemma drain_sig key generation (es : list (option GateEntry)) : sig <$> (drain_entry key generation <$> es) = sig <$> es.
Proof. rewrite <- list_fmap_compose. apply list_fmap_ext. intros i [e|] _; cbn; [|done]. by destruct (owned_by _ _ e). Qed.

Lemma drain_ok key generation g : gate_ok g ->
  let es := drain_entry key generation <$> dg_entries g in
  gate_ok (with_entries es g) /\ parked_total es = parked_total (dg_entries g) - parked_lost key generation (dg_entries g).
Proof.
  intros Hg es. split.
  - apply same_sig_ok; [done | apply drain_sig |]. intros i e E. subst es. rewrite list_lookup_fmap in E.
    destruct (dg_entries g !! i) as [[x|]|] eqn:Ei; cbn in E; [|done|done]. injection E as <-.
    destruct (owned_by _ _ x); [by apply set_parked_ok | by eapply go_entries].
  - subst es. unfold parked_total, parked_lost. induction (dg_entries g) as [|[e|] es IH]; cbn; [done| |lia].
    destruct (owned_by key generation e); cbn; rewrite ?len_nil; lia.
Qed.

Lemma find_drain key generation p es : (forall e, p (if owned_by key generation e then set_parked e [] 0 else e) = p e) ->
  find_slot p (drain_entry key generation <$> es) = prod_map id (fun e => if owned_by key generation e then set_parked e [] 0 else e) <$> find_slot p es.
Proof.
  intros Hp. induction es as [|[e|] es IH]; cbn; [done| |].
  - rewrite Hp. destruct (p e); cbn; [done|]. rewrite IH. by destruct (find_slot p es) as [[? ?]|].
  - rewrite IH. by destruct (find_slot p es) as [[? ?]|].
Qed.

(** When no entry is the claim's own, the drain changes nothing. *)
Lemma drain_none key generation es : find_slot (owned_by key generation) es = None -> drain_entry key generation <$> es = es.
Proof.
  intros Hn. apply list_eq. intros i. rewrite list_lookup_fmap. destruct (es !! i) as [[e|]|] eqn:Ei; cbn; [|done|done].
  by rewrite (find_slot_None _ _ _ _ Hn Ei).
Qed.

Lemma clear_ok g : gate_ok g -> gate_ok (hot_stores clear_hot g).
Proof. intros [? ? _]. split; [done|done|]. by intros []. Qed.

(** A slot that the finish overwrites, with a verdict or with nothing. *)
Lemma verdict_ok g i o key deadline generation : gate_ok g -> dg_entries g !! i = Some o ->
  let g' := with_entries (<[i := Some (mkGate key GUnusable deadline generation [] 0)]> (dg_entries g)) g in
  gate_ok (hot_stores (publish_hot key GUnusable deadline) g') /\ parked_total (dg_entries g') = parked_total (dg_entries g) - parked_in o.
Proof.
  intros Hg Ei. split.
  - apply (publish_ok g (dg_entries g)); [done | apply Hg | done | by eapply lookup_lt_Some].
  - cbn [with_entries dg_entries]. rewrite (parked_total_insert _ _ _ _ Ei). cbn. rewrite len_nil. lia.
Qed.

Lemma removed_ok g i o : gate_ok g -> dg_entries g !! i = Some o ->
  let g' := with_entries (<[i := None]> (dg_entries g)) g in
  gate_ok (hot_stores clear_hot g') /\ parked_total (dg_entries g') = parked_total (dg_entries g) - parked_in o.
Proof.
  intros Hg Ei. split.
  - split; cbn; [rewrite length_insert; apply Hg | apply insert_entries_ok; [apply Hg | done] | by intros []].
  - cbn [with_entries dg_entries]. rewrite (parked_total_insert _ _ _ _ Ei). cbn. lia.
Qed.

Lemma finish_ok s host port generation unusable now g : gate_ok g ->
  let r := gate_finish s host port generation unusable now g in
  let d := finish_drops s host port generation unusable now g in
  gate_ok (hot_stores r.1.2 r.2) /\ parked_total (dg_entries r.2) = parked_total (dg_entries g) - r.1.1 - d /\ 0 <= r.1.1 /\ 0 <= d.
Proof.
  intros Hg. unfold gate_finish, finish_drops. cbv zeta. set (key := gate_key s host port). cbn [fst].
  assert (Hlost : 0 <= parked_lost key generation (dg_entries g)).
  { unfold parked_lost. induction (dg_entries g) as [|[e|] es IH]; cbn; [done| |done]. pose proof (len_nonneg (ge_parked e)). destruct (owned_by _ _ e); lia. }
  assert (Efd := find_drain key generation (owned_by key generation) (dg_entries g) ltac:(intros e; by destruct (owned_by key generation e) eqn:Eo)).
  destruct (drain_ok key generation g Hg) as [Hd Hn]. set (es := drain_entry key generation <$> dg_entries g) in *.
  set (g1 := with_entries es g) in *. change es with (dg_entries g1) in Hn.
  rewrite Efd.
  destruct (find_slot (owned_by key generation) (dg_entries g)) as [[i e]|] eqn:Ef; cbn [fmap option_fmap option_map prod_map fst snd id].
  - apply find_slot_Some in Ef as [Ei Ho]. assert (Ei' : dg_entries g1 !! i = Some (Some (set_parked e [] 0))).
    { subst g1 es. cbn [with_entries dg_entries]. rewrite list_lookup_fmap, Ei. cbn. by rewrite Ho. }
    destruct unusable as [ttl|].
    + destruct (verdict_ok g1 i _ key (saturating_add now (gate_ttl_ms ttl)) generation Hd Ei') as [Hok Hp]. split_and!; [exact Hok | | done | done].
      cbn [fst snd]. etrans; [exact Hp|]. rewrite Hn. cbn. rewrite len_nil. lia.
    + destruct (removed_ok g1 i _ Hd Ei') as [Hok Hp]. split_and!; [exact Hok | | done | done].
      cbn [fst snd]. etrans; [exact Hp|]. rewrite Hn. cbn. rewrite len_nil. lia.
  - assert (Ees : es = dg_entries g) by (by apply drain_none). assert (E1 : dg_entries g1 = dg_entries g) by exact Ees.
    destruct unusable as [ttl|].
    + fold g1. rewrite Ees. destruct (existsb _ (dg_entries g)); [cbn [fst snd]; split_and!; [done | lia | done | done]|].
      destruct (slot_pos (reusable now) (dg_entries g)) as [i|] eqn:Es; [|cbn [fst snd]; split_and!; [done | lia | done | done]].
      apply slot_pos_Some in Es as (o & Ei & _). rewrite (list_lookup_total_correct _ _ _ Ei). rewrite <- E1 in Ei.
      destruct (verdict_ok g1 i o key (saturating_add now (gate_ttl_ms ttl)) generation Hd Ei) as [Hok Hp]. rewrite Hn in Hp. rewrite E1 in Hok, Hp.
      split_and!; [exact Hok | | done | apply parked_in_nonneg]. cbn [fst snd]. etrans; [exact Hp|]. lia.
    + destruct (existsb _ es); cbn [fst snd]; fold g1; (split_and!; [first [done | by apply clear_ok] | lia | done | done]).
Qed.

(** A section, whatever it is. *)
Lemma section_ok op g t : gate_ok g -> 
  let '(st, g') := section op g in
  let t' := count op g t in
  gate_ok (hot_stores st g') /\
  tl_accepted t' - tl_accepted t = (tl_taken t' - tl_taken t) + (tl_refused t' - tl_refused t) + (tl_dropped t' - tl_dropped t) + (parked_total (dg_entries g') - parked_total (dg_entries g)) /\
  tl_taken t <= tl_taken t' /\ tl_refused t <= tl_refused t' /\ tl_dropped t <= tl_dropped t'.
Proof.
  intros Hg. destruct op as [s host port now|s host port now payload|s host port generation|s host port generation unusable now];
    cbn [section count tl_accepted tl_taken tl_refused tl_dropped].
  - destruct (claim_ok (gate_key s host port) now g Hg) as (? & ? & ?). split_and!; [done | lia..].
  - pose proof (park_ok s host port now payload g Hg) as [? ?]. split_and!; [done | lia..].
  - pose proof (take_ok s host port generation g Hg) as [? ?]. pose proof (len_nonneg (take_parked s host port generation g).1). split_and!; [done | lia..].
  - pose proof (finish_ok s host port generation unusable now g Hg) as (? & ? & ? & ?). split_and!; [done | lia..].
Qed.

(** The invariant of a run: with the stores under way made, the gate is in order;
    and every payload is accounted for. *)
Definition balanced (r : GateRun) : Prop :=
  let t := gr_tally r in
  gate_ok (hot_stores (gr_pending r) (gr_gate r)) /\
  tl_accepted t = tl_taken t + tl_refused t + tl_dropped t + parked_total (dg_entries (gr_gate r)) /\
  0 <= tl_taken t /\ 0 <= tl_refused t /\ 0 <= tl_dropped t.

Lemma event_balanced r e : balanced r -> balanced (gate_event r e).
Proof.
  destruct r as [g pend t]. intros Hb. destruct e as [op|], pend as [|x pend]; cbn [gate_event gr_pending gr_gate gr_tally]; try exact Hb.
  - destruct Hb as (Hg & Hb & H1 & H2 & H3). cbn in Hg, Hb, H1, H2, H3. pose proof (section_ok op g t Hg) as Hs. destruct (section op g) as [st g'].
    destruct Hs as (? & ? & ? & ? & ?). unfold balanced. cbn [gr_pending gr_gate gr_tally]. split_and!; [done | lia..].
  - destruct Hb as (Hg & Hb & H1 & H2 & H3). cbn [gr_pending gr_gate gr_tally] in *. unfold balanced. cbn [gr_pending gr_gate gr_tally]. split_and!; [exact Hg | | done..].
    by destruct x.
Qed.

Lemma run_balanced evs : balanced (gate_run evs).
Proof.
  unfold gate_run. assert (Hb : balanced (mkGateRun DnsGate_new [] (mkTally 0 0 0 0))) by (split_and!; [apply init_ok | done..]).
  revert Hb. generalize (mkGateRun DnsGate_new [] (mkTally 0 0 0 0)). induction evs as [|e evs IH]; intros x Hx; cbn; [done|]. by apply IH, event_balanced.
Qed.

(** C11: the gate's bounds and the fate of every parked payload.  In any run of
    the gate, with the sections of its lock in any order and the hint stores of each
    made one by one: each of the eight slots queues at most [DNS_GATE_PARK_ITEMS]
    payloads and [DNS_GATE_PARK_BYTES] bytes, its byte count is exact and a verdict
    queues nothing; every payload [park] accepted is still queued, was handed to a
    waiter, was counted by a [finish], or lay in a slot that a later claim or verdict
    overwrote; and a reading of the hint whose three loads fall where nobody holds
    the lock answers only what a live slot of its key says.  A reading that overlaps
    a section has no such guarantee: it can put the deadline and the state of
    another name under this key ([torn_hint]).  A claim that its hint answers changes
    nothing, so [OClaim] stands for the claims that go on to the lock. *)
Theorem gate_payloads evs :
  let r := gate_run evs in let g := gr_gate r in let t := gr_tally r in
  length (dg_entries g) = Z.to_nat DNS_GATE_SLOTS /\
  (forall i e, dg_entries g !! i = Some (Some e) ->
     len (ge_parked e) <= DNS_GATE_PARK_ITEMS /\ ge_parked_bytes e = byte_total (ge_parked e) /\ ge_parked_bytes e <= DNS_GATE_PARK_BYTES /\
     (ge_state e = GUnusable -> ge_parked e = [])) /\
  (gr_pending r = [] -> forall key now v, reading key now g g g = Some v ->
     exists i e, dg_entries g !! i = Some (Some e) /\ live_for key now e = true /\ state_claim (ge_state e) = v) /\
  tl_accepted t = tl_taken t + tl_refused t + tl_dropped t + parked_total (dg_entries g) /\
  0 <= tl_taken t /\ 0 <= tl_refused t /\ 0 <= tl_dropped t.
Proof.
  pose proof (run_balanced evs) as Hb. destruct (gate_run evs) as [g pend t]. destruct Hb as (Hg & Hb & H1 & H2 & H3). cbn [gr_gate gr_pending gr_tally] in *.
  pose proof (go_len _ Hg) as Hl. pose proof (go_entries _ Hg) as He. rewrite (proj1 (stores_entries pend g)) in Hl, He.
  split_and!; [exact Hl | exact He | | done..]. intros -> key now v. unfold reading, claim_hint, hint_for, hint_state. destruct (_ && _) eqn:Ek; [|done].
  destruct (now <? dg_hot_deadline g) eqn:Ed; [|done]. apply andb_true_iff in Ek as [Ek0 Ek]. intros Ev.
  destruct (go_hint _ Hg) as (i & st & Ei & Est); [cbn; lia|]. apply fmap_Some in Ei as ([e|] & Ei & Ee); cbn in Ee; [|done]. injection Ee as E1 E2 E3.
  exists i, e. split; [done|]. split; [unfold live_for; lia|]. cbn in Est. rewrite <- Est, E2 in Ev. by destruct (ge_state e); cbn in Ev; simplify_eq.
Qed.

(* ------------------------------------------------------------------ *)
(** ** The queue of one claim *)

(** A call with its stores made. *)
Definition after (g : DnsGate) (op : GateOp) : DnsGate := let '(st, g) := section op g in hot_stores st g.

(** Only a generation that a claim has handed out comes back. *)
Definition issued (g : DnsGate) (op : GateOp) : bool :=
  match op with OTake _ _ _ n | OFinish _ _ _ n _ _ => n <? dg_next_generation g | _ => true end.
Fixpoint calls_ok (ops : list GateOp) (g : DnsGate) : bool :=
  match ops with [] => true | op :: ops => issued g op && calls_ok ops (after g op) end.

(** What may happen between the claim [gen] of [key] and its waiter's return:
    anything but that return, until the claim's deadline. *)
Definition meanwhile (key now deadline gen : Z) (op : GateOp) : bool :=
  match op with
  | OClaim _ _ _ t | OPark _ _ _ t _ => (now <=? t) && (t <? deadline)
  | OTake s host port n => negb ((gate_key s host port =? key) && (n =? gen))
  | OFinish s host port n _ t => (now <=? t) && (t <? deadline) && negb ((gate_key s host port =? key) && (n =? gen))
  end.
(** A claim that takes slot [i]; while the slot is live it does so only when all
    eight are, and the round robin has come to [i]. *)
Definition evicts (i : nat) (op : GateOp) (g : DnsGate) : bool :=
  match op with
  | OClaim s host port t => match (claim_locked (gate_key s host port) t g).1.1 with Proceed _ => Nat.eqb (claim_slot t g) i | _ => false end
  | _ => false
  end.
Fixpoint spared (i : nat) (ops : list GateOp) (g : DnsGate) : bool :=
  match ops with [] => true | op :: ops => negb (evicts i op g) && spared i ops (after g op) end.

(** The payloads parked for [key]: offered, and accepted. *)
Definition offers (key : Z) (op : GateOp) : list bytes :=
  match op with OPark s host port _ payload => if gate_key s host port =? key then [payload] else [] | _ => [] end.
Definition offered (key : Z) (ops : list GateOp) : list bytes := concat (offers key <$> ops).
Definition accepts (key : Z) (op : GateOp) (g : DnsGate) : list bytes :=
  match op with OPark s host port t payload => if (gate_park s host port t payload g).1 then offers key op else [] | _ => [] end.
Fixpoint accepted (key : Z) (ops : list GateOp) (g : DnsGate) : list bytes :=
  match ops with [] => [] | op :: ops => accepts key op g ++ accepted key ops (after g op) end.

Section Claim.
Variables (key now deadline gen : Z) (i : nat).

(** Not a rival: of another name, or neither in flight nor of this claim. *)
Definition other (e : GateEntry) : Prop :=
  ge_key e = key -> ~ (ge_state e = GInFlight /\ now < ge_deadline e) /\ ge_generation e <> gen.

(** Slot [i] holds the claim, with the queue [q], and no other slot has a rival. *)
Record holds (q : list bytes) (es : list (option GateEntry)) : Prop := mkHolds {
  ho_slot : es !! i = Some (Some (mkGate key GInFlight deadline gen q (byte_total q)));
  ho_fits : byte_total q <= DNS_GATE_PARK_BYTES;
  ho_other j e : es !! j = Some (Some e) -> j <> i -> other e
}.

Lemma holds_set q q' es : holds q es -> byte_total q' <= DNS_GATE_PARK_BYTES ->
  holds q' (<[i := Some (mkGate key GInFlight deadline gen q' (byte_total q'))]> es).
Proof.
  intros [Hs Hf Ho] Hf'. split; [apply list_lookup_insert_eq; by eapply lookup_lt_Some | done|].
  intros j e [(-> & _ & _)|[_ E]]%list_lookup_insert_Some; [done | by eapply Ho].
Qed.

Lemma holds_put q es j o : holds q es -> j <> i -> (forall e, o = Some e -> other e) -> holds q (<[j := o]> es).
Proof.
  intros [Hs Hf Ho] Hj Hn. split; [by rewrite list_lookup_insert_ne | done|].
  intros k e [(-> & E & _)|[_ E]]%list_lookup_insert_Some Hk; [by apply Hn | by eapply Ho].
Qed.

(** The claim is in its slot while it lives. *)
Lemma holds_owned q es n j e k : holds q es -> negb ((k =? key) && (n =? gen)) = true -> es !! j = Some (Some e) -> owned_by k n e = true -> j <> i.
Proof. intros [Hs _ _] Hne Ej Ho ->. rewrite Hs in Ej. injection Ej as <-. unfold owned_by in Ho. cbn in Ho. zbool; lia. Qed.
Lemma holds_reusable q es t j : holds q es -> t < deadline -> slot_pos (reusable t) es = Some j -> j <> i.
Proof. intros [Hs _ _] Ht (o & Ej & Hr)%slot_pos_Some ->. rewrite Hs in Ej. injection Ej as <-. cbn in Hr. zbool; lia. Qed.

Lemma holds_drain q es k n : holds q es -> negb ((k =? key) && (n =? gen)) = true -> holds q (drain_entry k n <$> es).
Proof.
  intros Hh Hne. split; [|apply Hh|].
  - rewrite list_lookup_fmap, (ho_slot _ _ Hh). cbn. destruct (owned_by _ _ _) eqn:Eo; [|done]. by destruct (holds_owned q es n i _ k Hh Hne (ho_slot _ _ Hh) Eo).
  - intros j e E Hj. rewrite list_lookup_fmap in E. destruct (es !! j) as [[x|]|] eqn:Ej; cbn in E; [|done|done]. injection E as <-.
    pose proof (ho_other _ _ Hh j x Ej Hj) as Hx. destruct (owned_by k n x); exact Hx.
Qed.

Lemma take_holds q s host port n g : holds q (dg_entries g) -> negb ((gate_key s host port =? key) && (n =? gen)) = true ->
  holds q (dg_entries (take_parked s host port n g).2).
Proof.
  intros Hh Hne. unfold take_parked. destruct (find_slot _ _) as [[j e]|] eqn:Ef; [|done]. apply find_slot_Some in Ef as [Ej Ho]. cbn [snd with_entries dg_entries].
  assert (Hj := holds_owned _ _ _ _ _ _ Hh Hne Ej Ho). apply holds_put; [done | done|]. intros e' [= <-]. exact (ho_other _ _ Hh j e Ej Hj).
Qed.

Lemma verdict_other k n d : negb ((k =? key) && (n =? gen)) = true -> other (mkGate k GUnusable d n [] 0).
Proof. intros Hne Hk. cbn in *. subst k. rewrite Z.eqb_refl in Hne. cbn in Hne. split; [by intros [? _] | zbool; lia]. Qed.

Lemma finish_holds q s host port n u t g : holds q (dg_entries g) -> t < deadline -> negb ((gate_key s host port =? key) && (n =? gen)) = true ->
  holds q (dg_entries (gate_finish s host port n u t g).2).
Proof.
  intros Hh Ht Hne. unfold gate_finish. cbv zeta. set (k := gate_key s host port) in *. assert (Hd := holds_drain _ _ k n Hh Hne).
  set (es := drain_entry k n <$> dg_entries g) in *. destruct (find_slot (owned_by k n) es) as [[j e]|] eqn:Ef.
  - apply find_slot_Some in Ef as [Ej Ho]. assert (Hj := holds_owned _ _ _ _ _ _ Hd Hne Ej Ho).
    destruct u as [ttl|]; cbn [fst snd with_entries dg_entries]; (apply holds_put; [done | done|]); intros e' [= <-]. by apply verdict_other.
  - destruct u as [ttl|]; [|by destruct (existsb _ es)]. destruct (existsb _ es); [done|]. destruct (slot_pos (reusable t) es) as [j|] eqn:Es; [|done].
    cbn [fst snd with_entries dg_entries]. apply holds_put; [done | by eapply holds_reusable|]. intros e' [= <-]. by apply verdict_other.
Qed.

Lemma claim_holds_other q k t g : holds q (dg_entries g) -> t < deadline ->
  match (claim_locked k t g).1.1 with Proceed _ => Nat.eqb (claim_slot t g) i | _ => false end = false ->
  holds q (dg_entries (claim_locked k t g).2).
Proof.
  intros Hh Ht. unfold claim_locked. set (es := dg_entries g) in *. destruct (find_entry _ es) as [e|] eqn:E1; [done|].
  destruct (find_entry (live_for k t) es) as [e|] eqn:E2; [done|]. cbn [fst snd dg_entries]. unfold claim_slot. fold es. intros He. apply Nat.eqb_neq in He.
  apply holds_put; [done | done|]. intros e' [= <-] Hk. cbn in Hk. subst k. unfold find_entry in E2. apply fmap_None in E2.
  pose proof (find_slot_None _ _ _ _ E2 (ho_slot _ _ Hh)) as Hl. unfold live_for in Hl. cbn in Hl. rewrite Z.eqb_refl in Hl. cbn in Hl. zbool; lia.
Qed.

Lemma find_slot_claim q es t : holds q es -> now <= t < deadline ->
  find_slot (fun e => (ge_key e =? key) && bool_decide (ge_state e = GInFlight) && (t <? ge_deadline e)) es =
    Some (i, mkGate key GInFlight deadline gen q (byte_total q)).
Proof.
  intros Hh Ht. apply find_slot_unique; [apply Hh | cbn [ge_key ge_state ge_deadline]; rewrite Z.eqb_refl, bool_decide_eq_true_2 by done; cbn; lia|].
  intros j e Ej Hp. destruct (decide (j = i)) as [|Hj]; [done|]. exfalso. apply andb_true_iff in Hp as [[Hp1 Hp2%bool_decide_eq_true]%andb_true_iff Hp3].
  destruct (ho_other _ _ Hh j e Ej Hj) as [Hno _]; [lia|]. apply Hno. split; [done | lia].
Qed.

(** A park of this name: last in the queue while the bounds allow. *)
Lemma park_holds q s host port t p g : holds q (dg_entries g) -> now <= t < deadline ->
  let r := gate_park s host port t p g in
  if gate_key s host port =? key then
    holds (q ++ if r.1 then [p] else []) (dg_entries r.2) /\
    (len q + 1 <= DNS_GATE_PARK_ITEMS -> byte_total q + len p <= DNS_GATE_PARK_BYTES -> r.1 = true)
  else holds q (dg_entries r.2).
Proof.
  intros Hh Ht. unfold gate_park. set (k := gate_key s host port). destruct (k =? key) eqn:Ek.
  - apply Z.eqb_eq in Ek. rewrite Ek, (find_slot_claim q _ t Hh Ht). cbn [ge_parked ge_parked_bytes]. pose proof (ho_fits _ _ Hh) as Hf.
    assert (Hsat : saturating_add (byte_total q) (len p) = byte_total q + len p \/ DNS_GATE_PARK_BYTES < byte_total q + len p)
      by (unfold saturating_add, usize_max, DNS_GATE_PARK_BYTES in *; lia).
    destruct (_ || _) eqn:Eb; cbn [fst snd].
    + rewrite app_nil_r. split; [done|]. intros H1 H2. exfalso. apply orb_true_iff in Eb as [Eb|Eb]; lia.
    + split; [|done]. unfold set_parked. cbn [ge_key ge_state ge_deadline ge_generation with_entries dg_entries]. apply orb_false_iff in Eb as [_ Eb].
      replace (byte_total q + len p) with (byte_total (q ++ [p])) by (rewrite byte_total_app; cbn; lia). eapply holds_set; [exact Hh|].
      rewrite byte_total_app. cbn. unfold saturating_add, usize_max, DNS_GATE_PARK_BYTES in *. lia.
  - destruct (find_slot _ _) as [[j e]|] eqn:Ef; [|done]. destruct (_ || _); [done|]. cbn [snd with_entries dg_entries].
    apply find_slot_Some in Ef as [Ej Hp]. apply andb_true_iff in Hp as [[Hp _]%andb_true_iff _]. assert (Hj : j <> i).
    { intros ->. rewrite (ho_slot _ _ Hh) in Ej. injection Ej as <-. cbn in Hp. zbool; lia. }
    apply holds_put; [done | done|]. intros e' [= <-]. exact (ho_other _ _ Hh j e Ej Hj).
Qed.

Lemma after_entries g op : dg_entries (after g op) = dg_entries (section op g).2.
Proof. unfold after. destruct (section op g) as [st g']. apply stores_entries. Qed.

Lemma meanwhile_fifo ops : forall q g, holds q (dg_entries g) -> forallb (meanwhile key now deadline gen) ops = true -> spared i ops g = true ->
  let acc := accepted key ops g in
  holds (q ++ acc) (dg_entries (fold_left after ops g)) /\ acc `sublist_of` offered key ops /\
  (len q + len (offered key ops) <= DNS_GATE_PARK_ITEMS -> byte_total q + byte_total (offered key ops) <= DNS_GATE_PARK_BYTES -> acc = offered key ops).
Proof.
  induction ops as [|op ops IH]; intros q g Hh Hm Hs; cbn [accepted fold_left]; [rewrite app_nil_r; by split_and!|].
  cbn [forallb spared] in Hm, Hs. apply andb_true_iff in Hm as [Hm Hms]. apply andb_true_iff in Hs as [Hs Hss]. apply negb_true_iff in Hs.
  assert (Ho : offered key (op :: ops) = offers key op ++ offered key ops) by done. rewrite Ho.
  assert (Hstep : holds (q ++ accepts key op g) (dg_entries (after g op)) /\ accepts key op g `sublist_of` offers key op /\
    (len q + len (offers key op) <= DNS_GATE_PARK_ITEMS -> byte_total q + byte_total (offers key op) <= DNS_GATE_PARK_BYTES -> accepts key op g = offers key op)).
  { rewrite after_entries. destruct op as [s h p t|s h p t pl|s h p n|s h p n u t]; cbn [section snd accepts offers meanwhile evicts] in *; rewrite ?app_nil_r.
    - split_and!; [apply claim_holds_other; [done | zbool; lia | done] | done | done].
    - pose proof (park_holds q s h p t pl g Hh ltac:(zbool; lia)) as Hp. cbv zeta in Hp. destruct (gate_key s h p =? key).
      + destruct Hp as [Hp Hall]. split_and!; [exact Hp | destruct (gate_park _ _ _ _ _ _).1; [done | apply sublist_nil_l]|].
        intros H1 H2. change (len [pl]) with 1 in H1. cbn in H2. rewrite Hall; [done | done | lia].
      + assert (E : (if (gate_park s h p t pl g).1 then [] else []) = @nil bytes) by by destruct (gate_park _ _ _ _ _ _).1. rewrite E, app_nil_r. by split_and!.
    - split_and!; [by apply take_holds | done | done].
    - apply andb_true_iff in Hm as [Hm Hne]. split_and!; [apply finish_holds; [done | zbool; lia | done] | done | done]. }
  destruct Hstep as (Hh' & Hsub & Hall). destruct (IH _ _ Hh' Hms Hss) as (IH1 & IH2 & IH3). rewrite <- app_assoc in IH1.
  split_and!; [exact IH1 | by apply sublist_app|]. intros H1 H2. rewrite len_app in H1. rewrite byte_total_app in H2.
  pose proof (len_nonneg (offered key ops)). pose proof (byte_total_nonneg (offered key ops)). rewrite (Hall ltac:(lia) ltac:(lia)) in *.
  f_equal. apply IH3; [rewrite len_app; lia | rewrite byte_total_app; lia].
Qed.

End Claim.

(** The generations in the slots were handed out before. *)
Definition gens_ok (n : Z) (g : DnsGate) : Prop :=
  gate_ok g /\ 0 <= dg_next_generation g <= n /\ forall j e, dg_entries g !! j = Some (Some e) -> ge_generation e < dg_next_generation g.

Lemma after_ok g op : gate_ok g -> gate_ok (after g op).
Proof. intros Hg. pose proof (section_ok op g (mkTally 0 0 0 0) Hg) as Hs. unfold after. destruct (section op g) as [st g']. by destruct Hs. Qed.

Lemma insert_gens n j o (es : list (option GateEntry)) : (forall k e, es !! k = Some (Some e) -> ge_generation e < n) -> (forall e, o = Some e -> ge_generation e < n) ->
  forall k e, <[j := o]> es !! k = Some (Some e) -> ge_generation e < n.
Proof. intros Hes Ho k e [(_ & E & _)|[_ E]]%list_lookup_insert_Some; [by apply Ho | by eapply Hes]. Qed.

Lemma drain_gens k n m (es : list (option GateEntry)) : (forall j e, es !! j = Some (Some e) -> ge_generation e < m) ->
  forall j e, (drain_entry k n <$> es) !! j = Some (Some e) -> ge_generation e < m.
Proof.
  intros Hes j e E. rewrite list_lookup_fmap in E. destruct (es !! j) as [[x|]|] eqn:Ej; cbn in E; [|done|done]. injection E as <-.
  specialize (Hes _ _ Ej). by destruct (owned_by k n x).
Qed.

Lemma after_gens n g op : gens_ok n g -> issued g op = true -> n + 1 < 2 ^ 32 -> gens_ok (n + 1) (after g op).
Proof.
  intros (Hg & Hn & Hes) Hi Hb. split; [by apply after_ok|]. unfold after.
  destruct op as [s h p t|s h p t pl|s h p m|s h p m u t]; cbn [section].
  - rewrite !(proj1 (stores_entries _ _)), !(proj2 (stores_entries _ _)). unfold claim_locked. destruct (find_entry _ _); [cbn; split; [lia | done]|].
    destruct (find_entry _ _); [cbn; split; [lia | done]|]. cbn. unfold as_u32. rewrite Z.mod_small by lia. split; [lia|].
    apply insert_gens; [intros k e E; specialize (Hes k e E); lia | intros e [= <-]; cbn; lia].
  - cbn. unfold gate_park. destruct (find_slot _ _) as [[j e]|] eqn:Ef; [|cbn; split; [lia | done]]. apply find_slot_Some in Ef as [Ej _].
    destruct (_ || _); cbn; (split; [lia|]); [done|]. apply insert_gens; [done|]. intros e' [= <-]. exact (Hes j e Ej).
  - cbn. unfold take_parked. destruct (find_slot _ _) as [[j e]|] eqn:Ef; [|cbn; split; [lia | done]]. apply find_slot_Some in Ef as [Ej _]. cbn. split; [lia|].
    apply insert_gens; [done|]. intros e' [= <-]. exact (Hes j e Ej).
  - rewrite !(proj1 (stores_entries _ _)), !(proj2 (stores_entries _ _)). cbn in Hi. apply Z.ltb_lt in Hi. unfold gate_finish. cbv zeta.
    assert (Hd := drain_gens (gate_key s h p) m _ _ Hes). set (es := drain_entry _ _ <$> _) in *.
    destruct (find_slot _ es) as [[j e]|]; destruct u as [ttl|]; [| | destruct (existsb _ es); [|destruct (slot_pos _ es)] | destruct (existsb _ es)];
      cbn; (split; [lia|]); first [exact Hd | apply insert_gens; [exact Hd | intros e' E; simplify_eq; cbn; lia]].
Qed.

Lemma calls_gens ops : forall n g, gens_ok n g -> calls_ok ops g = true -> n + len ops < 2 ^ 32 -> gens_ok (n + len ops) (fold_left after ops g).
Proof.
  induction ops as [|op ops IH]; intros n g Hg Hc Hb; cbn [fold_left]; [by rewrite len_nil, Z.add_0_r|]. cbn [calls_ok] in Hc. apply andb_true_iff in Hc as [Hi Hc].
  rewrite len_cons in *. pose proof (len_nonneg ops). replace (n + (1 + len ops)) with (n + 1 + len ops) by lia. apply IH; [apply after_gens; [done..|lia] | done | lia].
Qed.

Lemma new_gens : gens_ok 0 DnsGate_new.
Proof. split; [apply init_ok|]. split; [done|]. intros j e E. apply list_elem_of_lookup_2, list_elem_of_In, repeat_spec in E. done. Qed.

(** A claim that proceeds holds its slot. *)
Lemma claim_holds key now gen st g g1 : gate_ok g ->
  (forall j e, dg_entries g !! j = Some (Some e) -> ge_generation e < dg_next_generation g) ->
  claim_locked key now g = (Proceed gen, st, g1) ->
  holds key now (saturating_add now DNS_GATE_INFLIGHT_TTL_MS) gen (claim_slot now g) [] (dg_entries g1).
Proof.
  intros Hg Hfresh E. unfold claim_locked in E. destruct (find_entry _ (dg_entries g)) as [e|] eqn:E1 in E; [by destruct (ge_state e)|].
  destruct (find_entry (live_for key now) (dg_entries g)) as [e|] eqn:E2; [by destruct (ge_state e)|]. injection E as <- _ <-.
  unfold find_entry in E2. apply fmap_None in E2. cbn [dg_entries]. fold (claim_slot now g).
  split; [apply list_lookup_insert_eq; by apply claim_slot_lt | done|]. intros j e [(-> & _ & _)|[_ Ej]]%list_lookup_insert_Some Hj Hk; [done|]. split.
  - intros [_ Hd]. pose proof (find_slot_None _ _ _ _ E2 Ej) as Hl. unfold live_for in Hl. zbool; lia.
  - specialize (Hfresh _ _ Ej). lia.
Qed.


End Gate.

(* ------------------------------------------------------------------ *)
(** ** Concrete runs *)

(** A hash of the number of words written: names of different lengths differ. *)
Definition len_hash : GateHasher := {| finish_hash l := 1 + len l |}.
#[local] Existing Instance len_hash.

Definition name_a : bytes := [97].
Definition name_k : bytes := [107; 46; 107].

(** Between the claim and the take: two followers, a claim of another name, its
    verdict, and a late waiter of an older claim of the same name. *)
Definition busy : list GateOp :=
  [OPark 1 name_a 53 20001 [1]; OClaim 1 name_k 53 20002; OPark 1 name_a 53 20003 [2; 3];
   OFinish 1 name_k 53 2 (Some (10 ^ 10)) 20004; OFinish 1 name_a 53 0 (Some (10 ^ 10)) 20005].
Definition old_claim : list GateOp := [OClaim 1 name_a 53 0].
Definition claimed : GateClaim * list HotStore * DnsGate := claim_locked (gate_key 1 name_a 53) 20000 (fold_left after old_claim DnsGate_new).


(** A reading of the hint across two sections: a claim of [name_a] loads its key,
    the lookup of [name_a] ends well, another name is found unusable, and the claim
    loads that name's deadline and state.  It is refused, although its name has no
    slot, was never unusable, and the lock would let it proceed. *)
Definition resolved_a : list GateEvent := [ESection (OClaim 1 name_a 53 0); EStore; EStore; EStore].
Definition refused_k : list GateEvent :=
  resolved_a ++ [ESection (OFinish 1 name_a 53 0 None 1); EStore; ESection (OClaim 1 name_k 53 1); EStore; EStore; EStore;
                 ESection (OFinish 1 name_k 53 1 (Some (10 ^ 10)) 2); EStore; EStore; EStore].
Lemma torn_hint :
  let key := gate_key 1 name_a 53 in let g1 := gr_gate (gate_run resolved_a) in let g2 := gr_gate (gate_run refused_k) in
  reading key 3 g1 g2 g2 = Some Unusable /\ (claim_locked key 3 g2).1.1 = Proceed 2 /\
  (forall e, Some e ∈ dg_entries g2 -> ge_key e <> key).
Proof. split; [vm_compute; reflexivity|]. split; [vm_compute; reflexivity|]. intros e He. vm_compute in He. vm_compute. intros Hk.
  repeat (apply elem_of_cons in He as [He|He]; [first [discriminate He | injection He as ->; discriminate Hk]|]). by apply not_elem_of_nil in He.
Qed.

(** The stores of one section seen halfway: the deadline of the new hint is there,
    its state and key are not, and the old key is refused past its own deadline. *)
Lemma torn_publish :
  let key := gate_key 1 name_a 53 in
  let g := gr_gate (gate_run (resolved_a ++ [ESection (OClaim 1 name_k 53 15000); EStore])) in
  reading key 15000 g g g = Some InFlight /\ (claim_locked key 15000 g).1.1 = Proceed 2.
Proof. vm_compute. done. Qed.

(** A claim that finds a slot past its deadline takes its parked payloads with
    it: the waiter of the old claim is late, and nothing counts them. *)
Definition sections (ops : list GateOp) : list GateEvent := concat ((fun op => [ESection op; EStore; EStore; EStore]) <$> ops).
Lemma claim_drops_parked :
  gr_tally (gate_run (sections [OClaim 1 name_a 53 0; OPark 1 name_a 53 1 [7]; OClaim 1 name_k 53 15000; OTake 1 name_a 53 0; OFinish 1 name_a 53 0 None 15001])) =
    mkTally 1 0 0 1.
Proof. vm_compute. reflexivity. Qed.

(** A waiter that outlived its claim finds its own expired slot and writes its
    verdict there: the hint then says [Unusable] over the newer claim of the same
    name, which is in flight. *)
Lemma late_verdict_over_newer_claim :
  let g := gr_gate (gate_run (sections [OClaim 1 name_a 53 0; OClaim 1 name_k 53 0; OFinish 1 name_a 53 0 None 1; OClaim 1 name_k 53 15000;
                      OFinish 1 name_k 53 1 (Some (10 * 10 ^ 9)) 15001])) in
  (gate_claim 1 name_k 53 15002 g).1 = Unusable /\ (claim_locked (gate_key 1 name_k 53) 15002 g).1.1 = InFlight.
Proof. vm_compute. done. Qed.
