(* ===== verification/Sess.v ===== *)
(** The server's session state ([src/bin/myquic2-server/table.rs], [memo.rs] and
    the creation path of [reader.rs]): the sharded session tables, the sessions
    they share with their readers and the thread memos, the process-wide budget
    and the connection's cancellation registries.

    Every definition here is one atomic access or one critical section of the
    program, as a function on the server's state; [SessTask] puts them together
    into the program's functions.  A section that holds a shard's write lock is
    one function: nothing it mutates can be seen half-way, except [live], whose
    readers use it only as a hint ([note_empty_state]).  The stamps it reads
    without a lock ([last]) are read at the instant of the section.

    A session is created with its socket, its reply reader, its idle stamp, its
    reply allowlist and its reverse flow table, each behind an [Arc] that the
    table entry, the reader and the memos share; one handle names them all. *)
From stdpp Require Import fin_maps.
From S2P Require Import Prelude Addr DnsKey DnsPolicy DnsMemo DnsAnswer Wire Binding Flow Pin DnsGate.

Definition SESS_SHARDS : Z := 8.
Definition SWEEP_PURGE_BATCH : Z := 16.
Definition MAX_SESSIONS_GLOBAL : Z := 8192.
Definition LOCAL_SESS_MAX : Z := 4096.
Definition LOCAL_SESS_TARGET : Z := LOCAL_SESS_MAX - 64.
Definition SESS_IDLE_MS : Z := 180000.
Definition MIN_SESSION_SHARE : Z := 1024.
Definition SESS_MEMO_SLOTS : Z := 2048.
Definition TOUCH_SLOTS : Z := 128.
Definition TOUCH_INTERVAL_MS : Z := 1000.
Definition MAX_PENDING_DNS_OPENS : Z := 16.
Definition MAX_PENDING_DNS_PAYLOADS : Z := 64.
Definition MAX_PENDING_DNS_BYTES : Z := 256 * 1024.
Definition R2_MAX_RESOLVED_ADDRS : Z := 16.
Definition UNREACHABLE_SLOTS : Z := 16.
Definition UNREACHABLE_TTL_MS : Z := 10000.

(* ------------------------------------------------------------------ *)
(** ** Data *)

(** What one creation allocates.  [ss_conn], [ss_sess] and [ss_guard] record
    which call made it: the connection, the id it was made for and the
    cancellation flag the call was guarded by. *)
Record Session : Type := mkSession {
  ss_conn : Z;
  ss_sess : Z;
  ss_guard : option Z;
  ss_finished : bool;       (** [reader.is_finished()] *)
  ss_aborted : bool;        (** [reader.abort()] was called *)
  ss_sock : bool;           (** some owner still keeps the socket alive *)
  ss_last : Z;
  ss_recent : RecentAddrs;
  ss_epoch : Z;
  ss_flows : SessionFlows
}.

Definition with_finished (v : bool) (x : Session) : Session :=
  mkSession (ss_conn x) (ss_sess x) (ss_guard x) v (ss_aborted x) (ss_sock x) (ss_last x) (ss_recent x) (ss_epoch x) (ss_flows x).
Definition with_aborted (v : bool) (x : Session) : Session :=
  mkSession (ss_conn x) (ss_sess x) (ss_guard x) (ss_finished x) v (ss_sock x) (ss_last x) (ss_recent x) (ss_epoch x) (ss_flows x).
Definition with_sock (v : bool) (x : Session) : Session :=
  mkSession (ss_conn x) (ss_sess x) (ss_guard x) (ss_finished x) (ss_aborted x) v (ss_last x) (ss_recent x) (ss_epoch x) (ss_flows x).
Definition with_last (v : Z) (x : Session) : Session :=
  mkSession (ss_conn x) (ss_sess x) (ss_guard x) (ss_finished x) (ss_aborted x) (ss_sock x) v (ss_recent x) (ss_epoch x) (ss_flows x).
Definition with_recent (v : RecentAddrs) (x : Session) : Session :=
  mkSession (ss_conn x) (ss_sess x) (ss_guard x) (ss_finished x) (ss_aborted x) (ss_sock x) (ss_last x) v (ss_epoch x) (ss_flows x).
Definition with_epoch (v : Z) (x : Session) : Session :=
  mkSession (ss_conn x) (ss_sess x) (ss_guard x) (ss_finished x) (ss_aborted x) (ss_sock x) (ss_last x) (ss_recent x) v (ss_flows x).
Definition with_flows (v : SessionFlows) (x : Session) : Session :=
  mkSession (ss_conn x) (ss_sess x) (ss_guard x) (ss_finished x) (ss_aborted x) (ss_sock x) (ss_last x) (ss_recent x) (ss_epoch x) v.

(** A table entry; it owns one permit of the global pool. *)
Record SessEntry : Type := mkEntry { se_sess : Z; se_h : Z; se_dest : DestMemo }.

Abbreviation SessMap := (gmap Z SessEntry).

Inductive ReplyFilter : Type := Restricted | FullCone.

Record SessTable : Type := mkTable {
  st_shards : list SessMap;
  st_filter : ReplyFilter;
  st_counted : bool;
  st_cached_len : Z;
  st_cached_len_ms : Z;
  st_inserts_since_sample : Z;
  st_live : Z
}.

Definition SessTable_new (f : ReplyFilter) : SessTable :=
  mkTable (repeat ∅ (Z.to_nat SESS_SHARDS)) f false 0 0 0 0.

Definition with_shards (v : list SessMap) (t : SessTable) : SessTable :=
  mkTable v (st_filter t) (st_counted t) (st_cached_len t) (st_cached_len_ms t) (st_inserts_since_sample t) (st_live t).
Definition with_counted (v : bool) (t : SessTable) : SessTable :=
  mkTable (st_shards t) (st_filter t) v (st_cached_len t) (st_cached_len_ms t) (st_inserts_since_sample t) (st_live t).
Definition with_cached_len (v : Z) (t : SessTable) : SessTable :=
  mkTable (st_shards t) (st_filter t) (st_counted t) v (st_cached_len_ms t) (st_inserts_since_sample t) (st_live t).
Definition with_cached_len_ms (v : Z) (t : SessTable) : SessTable :=
  mkTable (st_shards t) (st_filter t) (st_counted t) (st_cached_len t) v (st_inserts_since_sample t) (st_live t).
Definition with_inserts (v : Z) (t : SessTable) : SessTable :=
  mkTable (st_shards t) (st_filter t) (st_counted t) (st_cached_len t) (st_cached_len_ms t) v (st_live t).
Definition with_live (v : Z) (t : SessTable) : SessTable :=
  mkTable (st_shards t) (st_filter t) (st_counted t) (st_cached_len t) (st_cached_len_ms t) (st_inserts_since_sample t) v.

(** [PendingDnsLookup]: a domain OPEN whose name is being looked up. *)
Record PendingLookup : Type := mkPending { pl_target : TargetAddr; pl_cancelled : Z; pl_queued : list bytes }.

(** One connection: its session table with the DNS gate, the [R2ConnState]
    parts that sessions and closes share, and what QUIC says of it. *)
Record Conn : Type := mkConn {
  cn_table : SessTable;
  cn_gate : DnsGate;
  cn_reg : FlowRegistry;
  cn_ids : FlowIds;
  cn_wire : Wire;
  cn_pending : gmap (Z * Z) PendingLookup;   (** [pending_dns_opens] *)
  cn_pending_bytes : Z;
  cn_waiters : gmap Z (list Z);       (** [dns_waiters] *)
  cn_closed : bool;                   (** [conn.closed()] has resolved *)
  cn_dgram : bool                     (** [max_datagram_size().is_some()] *)
}.

Definition Conn_new (f : ReplyFilter) (w : Wire) : Conn :=
  mkConn (SessTable_new f) DnsGate_new (FlowRegistry_new R2_MAX_FLOWS_PER_CONN) (FlowIds_new true) w ∅ 0 ∅ false true.

#[export] Instance Conn_inhabited : Inhabited Conn := populate (Conn_new Restricted Rev2).
#[export] Instance Session_inhabited : Inhabited Session :=
  populate (mkSession 0 0 None true true false 0 RecentAddrs_default 0 SessionFlows_new).

Definition with_table (v : SessTable) (c : Conn) : Conn :=
  mkConn v (cn_gate c) (cn_reg c) (cn_ids c) (cn_wire c) (cn_pending c) (cn_pending_bytes c) (cn_waiters c) (cn_closed c) (cn_dgram c).
Definition with_gate (v : DnsGate) (c : Conn) : Conn :=
  mkConn (cn_table c) v (cn_reg c) (cn_ids c) (cn_wire c) (cn_pending c) (cn_pending_bytes c) (cn_waiters c) (cn_closed c) (cn_dgram c).
Definition with_reg (v : FlowRegistry) (c : Conn) : Conn :=
  mkConn (cn_table c) (cn_gate c) v (cn_ids c) (cn_wire c) (cn_pending c) (cn_pending_bytes c) (cn_waiters c) (cn_closed c) (cn_dgram c).
Definition with_ids (v : FlowIds) (c : Conn) : Conn :=
  mkConn (cn_table c) (cn_gate c) (cn_reg c) v (cn_wire c) (cn_pending c) (cn_pending_bytes c) (cn_waiters c) (cn_closed c) (cn_dgram c).
Definition with_pending (v : gmap (Z * Z) PendingLookup) (n : Z) (c : Conn) : Conn :=
  mkConn (cn_table c) (cn_gate c) (cn_reg c) (cn_ids c) (cn_wire c) v n (cn_waiters c) (cn_closed c) (cn_dgram c).
Definition with_waiters (v : gmap Z (list Z)) (c : Conn) : Conn :=
  mkConn (cn_table c) (cn_gate c) (cn_reg c) (cn_ids c) (cn_wire c) (cn_pending c) (cn_pending_bytes c) v (cn_closed c) (cn_dgram c).
Definition with_quic (closed dgram : bool) (c : Conn) : Conn :=
  mkConn (cn_table c) (cn_gate c) (cn_reg c) (cn_ids c) (cn_wire c) (cn_pending c) (cn_pending_bytes c) (cn_waiters c) closed dgram.

(** A slot of a thread's session memo: all its pointers are the session's. *)
Record SessMemo : Type := mkSessMemo { sm_conn : Z; sm_sess : Z; sm_h : Z }.
Record TouchMemo : Type := mkTouch { tm_conn : Z; tm_sess : Z; tm_ms : Z }.

(** One worker thread's locals. *)
Record Thread : Type := mkThread {
  th_memo : list (option SessMemo);
  th_touch : list (option TouchMemo);
  th_policy : PolicyCache;
  th_unreachable : list (option SocketAddr * Z)
}.

Definition Thread_new : Thread :=
  mkThread (repeat None (Z.to_nat SESS_MEMO_SLOTS)) (repeat None (Z.to_nat TOUCH_SLOTS)) policy_cache_init
    (repeat (None, 0) (Z.to_nat UNREACHABLE_SLOTS)).
#[export] Instance Thread_inhabited : Inhabited Thread := populate Thread_new.

Record Server : Type := mkServer {
  sv_conns : gmap Z Conn;
  sv_sess : gmap Z Session;
  sv_heap : Heap;                     (** the flow bindings *)
  sv_flags : gmap Z bool;             (** the cancellation flags *)
  sv_threads : gmap Z Thread;
  sv_permits : Z;                     (** [session_limiter]: permits left *)
  sv_holders : Z;                     (** [session_holders] *)
  sv_sweep_last : Z;                  (** [FAIR_SWEEP_LAST_MS] *)
  sv_clock : Clock;
  sv_sock_ok : bool;                  (** whether a UDP socket can be made now *)
  sv_sent : list (Z * SocketAddr)     (** the datagrams handed to the kernel, the last first *)
}.

Definition Server_new : Server := mkServer ∅ ∅ ∅ ∅ ∅ MAX_SESSIONS_GLOBAL 0 0 (mkClock 0 0) true [].

Definition set_conns (v : gmap Z Conn) (s : Server) : Server :=
  mkServer v (sv_sess s) (sv_heap s) (sv_flags s) (sv_threads s) (sv_permits s) (sv_holders s) (sv_sweep_last s) (sv_clock s) (sv_sock_ok s) (sv_sent s).
Definition set_sess (v : gmap Z Session) (s : Server) : Server :=
  mkServer (sv_conns s) v (sv_heap s) (sv_flags s) (sv_threads s) (sv_permits s) (sv_holders s) (sv_sweep_last s) (sv_clock s) (sv_sock_ok s) (sv_sent s).
Definition set_heap (v : Heap) (s : Server) : Server :=
  mkServer (sv_conns s) (sv_sess s) v (sv_flags s) (sv_threads s) (sv_permits s) (sv_holders s) (sv_sweep_last s) (sv_clock s) (sv_sock_ok s) (sv_sent s).
Definition set_flags (v : gmap Z bool) (s : Server) : Server :=
  mkServer (sv_conns s) (sv_sess s) (sv_heap s) v (sv_threads s) (sv_permits s) (sv_holders s) (sv_sweep_last s) (sv_clock s) (sv_sock_ok s) (sv_sent s).
Definition set_threads (v : gmap Z Thread) (s : Server) : Server :=
  mkServer (sv_conns s) (sv_sess s) (sv_heap s) (sv_flags s) v (sv_permits s) (sv_holders s) (sv_sweep_last s) (sv_clock s) (sv_sock_ok s) (sv_sent s).
Definition set_permits (v : Z) (s : Server) : Server :=
  mkServer (sv_conns s) (sv_sess s) (sv_heap s) (sv_flags s) (sv_threads s) v (sv_holders s) (sv_sweep_last s) (sv_clock s) (sv_sock_ok s) (sv_sent s).
Definition set_holders (v : Z) (s : Server) : Server :=
  mkServer (sv_conns s) (sv_sess s) (sv_heap s) (sv_flags s) (sv_threads s) (sv_permits s) v (sv_sweep_last s) (sv_clock s) (sv_sock_ok s) (sv_sent s).
Definition set_sweep_last (v : Z) (s : Server) : Server :=
  mkServer (sv_conns s) (sv_sess s) (sv_heap s) (sv_flags s) (sv_threads s) (sv_permits s) (sv_holders s) v (sv_clock s) (sv_sock_ok s) (sv_sent s).
Definition set_env (ck : Clock) (sock_ok : bool) (s : Server) : Server :=
  mkServer (sv_conns s) (sv_sess s) (sv_heap s) (sv_flags s) (sv_threads s) (sv_permits s) (sv_holders s) (sv_sweep_last s) ck sock_ok (sv_sent s).
Definition log_sent (h : Z) (dst : SocketAddr) (s : Server) : Server :=
  mkServer (sv_conns s) (sv_sess s) (sv_heap s) (sv_flags s) (sv_threads s) (sv_permits s) (sv_holders s) (sv_sweep_last s) (sv_clock s) (sv_sock_ok s) ((h, dst) :: sv_sent s).

Definition conn_of (sv : Server) (c : Z) : Conn := sv_conns sv !!! c.
Definition table_of (sv : Server) (c : Z) : SessTable := cn_table (conn_of sv c).
Definition sess_of (sv : Server) (h : Z) : Session := sv_sess sv !!! h.
Definition thread_of (sv : Server) (th : Z) : Thread := default Thread_new (sv_threads sv !! th).
Definition upd_conn (c : Z) (f : Conn -> Conn) (sv : Server) : Server := set_conns (alter f c (sv_conns sv)) sv.
Definition upd_table (c : Z) (f : SessTable -> SessTable) : Server -> Server :=
  upd_conn c (fun cn => with_table (f (cn_table cn)) cn).
Definition upd_sess (h : Z) (f : Session -> Session) (sv : Server) : Server := set_sess (alter f h (sv_sess sv)) sv.
Definition upd_thread (th : Z) (f : Thread -> Thread) (sv : Server) : Server :=
  set_threads (<[th := f (thread_of sv th)]> (sv_threads sv)) sv.

(** [Arc::new]: a handle no session has. *)
Definition fresh_key {A} (m : gmap Z A) : Z := fresh (dom m).

(* ------------------------------------------------------------------ *)
(** ** Shards *)

Definition shard_idx (s : Z) : nat := Z.to_nat (s mod SESS_SHARDS).
Definition shard (t : SessTable) (i : nat) : SessMap := st_shards t !!! i.
Definition set_shard (i : nat) (m : SessMap) (t : SessTable) : SessTable := with_shards (<[i := m]> (st_shards t)) t.
Definition entry_of (t : SessTable) (s : Z) : option SessEntry := shard t (shard_idx s) !! s.

Definition msize {A} (m : gmap Z A) : Z := Z.of_nat (size m).
(** What [len] measures when nothing else runs. *)
Definition table_len (t : SessTable) : Z := foldr (fun m n => msize m + n) 0 (st_shards t).

Definition note_live_insert (t : SessTable) : SessTable := with_live (as_u64 (st_live t + 1)) t.
Definition note_live_remove (n : Z) (t : SessTable) : SessTable :=
  if negb (n =? 0) then with_live (saturating_sub (st_live t) n) t else t.

(** [HashMap::iter] visits the entries in an order of its own. *)
Class HashIter : Type := {
  hash_iter : SessMap -> list (Z * SessEntry);
  hash_iter_perm m : hash_iter m ≡ₚ map_to_list m
}.

(** The [dest] argument of a creation: the name, the port, the address it was
    resolved to and the life that resolution has left. *)
Abbreviation Dest := (option (bytes * Z * SocketAddr * Z)).

Section Ops.
Context `{HashIter}.

Definition is_idle (sv : Server) (now : Z) (e : SessEntry) : bool :=
  SESS_IDLE_MS <=? saturating_sub now (ss_last (sess_of sv (se_h e))).

(** The keys a sweep finds expired. *)
Definition expired_keys (sv : Server) (m : SessMap) (now : Z) : list Z :=
  fst <$> List.filter (fun p => is_idle sv now p.2) (hash_iter m).

Fixpoint take_idle (sv : Server) (w : SessMap) (keys : list Z) (now : Z) : SessMap * list SessEntry :=
  match keys with
  | [] => (w, [])
  | k :: keys =>
      match w !! k with
      | Some e =>
          if is_idle sv now e then
            let '(w, out) := take_idle sv (delete k w) keys now in (w, e :: out)
          else take_idle sv w keys now
      | None => take_idle sv w keys now
      end
  end.

Definition sweep_local (sv : Server) (w : SessMap) : SessMap * list SessEntry :=
  let now := mono_millis (sv_clock sv) in
  take_idle sv w (expired_keys sv w now) now.

Definition fair_sess_cap (sv : Server) : Z :=
  let holders := Z.max (sv_holders sv) 1 in
  clamp (MAX_SESSIONS_GLOBAL / holders) MIN_SESSION_SHARE LOCAL_SESS_MAX.

Definition shard_over_share (shard_len fair_cap : Z) : bool := Z.max (fair_cap / SESS_SHARDS) 1 <=? shard_len.

(** [registry.remove_sessions] and [registry.remove_session] on a connection. *)
Definition purge_sessions (c : Z) (ids : list Z) (sv : Server) : Server :=
  let '(_, heap, reg) := remove_sessions ids (sv_heap sv) (cn_reg (conn_of sv c)) in
  upd_conn c (with_reg reg) (set_heap heap sv).
Definition purge_session (c : Z) (s : Z) (sv : Server) : Server :=
  let '(_, heap, reg) := remove_session s (sv_heap sv) (cn_reg (conn_of sv c)) in
  upd_conn c (with_reg reg) (set_heap heap sv).

(** The batched purge of a reap, skipped when nothing was reaped. *)
Definition purge_reaped (c : Z) (reaped : list SessEntry) (sv : Server) : Server :=
  match reaped with [] => sv | _ => purge_sessions c (se_sess <$> reaped) sv end.

(* ------------------------------------------------------------------ *)
(** ** Sections under a shard's write lock *)

(** One chunk of [sweep_all_with]. *)
Definition sweep_chunk (c : Z) (i : nat) (now : Z) (chunk : list Z) (sv : Server) : list SessEntry * Server :=
  let '(m, evicted) := take_idle sv (shard (table_of sv c) i) chunk now in
  let sv := upd_table c (fun t => note_live_remove (len evicted) (set_shard i m t)) sv in
  (evicted, purge_reaped c evicted sv).

(** One shard of [drain_all]. *)
Definition drain_shard (c : Z) (i : nat) (sv : Server) : list SessEntry * Server :=
  let m := shard (table_of sv c) i in
  (snd <$> hash_iter m, upd_table c (fun t => note_live_remove (msize m) (set_shard i ∅ t)) sv).

(** The section of [r2_close_session]. *)
Definition close_section (c s : Z) (sv : Server) : option SessEntry * Server :=
  let e := entry_of (table_of sv c) s in
  let sv := match e with
    | Some _ => upd_table c (fun t => note_live_remove 1 (set_shard (shard_idx s) (delete s (shard t (shard_idx s))) t)) sv
    | None => sv end in
  (e, purge_session c s sv).

Definition add_permits (n : Z) (sv : Server) : Server := set_permits (sv_permits sv + n) sv.

(** The section of an exiting reader: its entry, if the table still holds the
    one it was started for; the rest of the entry is dropped here. *)
Definition exit_section (c s h : Z) (sv : Server) : bool * Server :=
  match entry_of (table_of sv c) s with
  | Some e =>
      if se_h e =? h then
        let sv := upd_table c (fun t => set_shard (shard_idx s) (delete s (shard t (shard_idx s))) t) sv in
        let sv := upd_table c (note_live_remove 1) (purge_session c s sv) in
        (true, add_permits 1 sv)
      else (false, sv)
  | None => (false, sv)
  end.

(** [claim_fair_sweep] inside a section, where its two accesses are adjacent. *)
Definition claim_sweep_now (sv : Server) : bool * Server :=
  let now := mono_millis (sv_clock sv) in
  if saturating_sub now (sv_sweep_last sv) <? 1000 then (false, sv) else (true, set_sweep_last now sv).

(** The memo of a new entry. *)
Definition dest_of (ck : Clock) (dest : Dest) : DestMemo :=
  match dest with
  | Some (h, p, a, life) =>
      match PortKey_new h p with
      | Some key => mkDest key a (coarse_millis ck + pin_life_ms life)
      | None => DestMemo_NONE
      end
  | None => DestMemo_NONE
  end.

Inductive Published : Type :=
| PLive (h : Z)
| PCancelled (stale_dead swept : list SessEntry)
| PDead (stale_dead swept : list SessEntry)
| PInserted (stale_dead swept : list SessEntry).

Definition flag_set (sv : Server) (f : option Z) : bool :=
  match f with Some f => default false (sv_flags sv !! f) | None => false end.

(** The end of the publish section of [get_or_create_sess_guarded]: the flag is
    read again, and the entry goes in unless its reader is already gone. *)
Definition publish_tail (c s h : Z) (dest : Dest) (cancelled : option Z) (stale_dead swept : list SessEntry) (sv : Server)
    : Published * Server :=
  if flag_set sv cancelled then
    (PCancelled stale_dead swept, add_permits 1 (upd_sess h (with_aborted true) sv))
  else if ss_finished (sess_of sv h) then
    (PDead stale_dead swept,
     add_permits 1 (upd_sess h (with_aborted true)
       (upd_table c (fun t => note_live_remove 1 (note_live_insert t)) sv)))
  else
    let e := mkEntry s h (dest_of (sv_clock sv) dest) in
    (PInserted stale_dead swept,
     upd_table c (fun t => note_live_insert (set_shard (shard_idx s) (<[s := e]> (shard t (shard_idx s))) t)) sv).

(** From the over-share test on: an over-full shard is swept, the bindings of
    what was removed are purged. *)
Definition publish_rest (c s h : Z) (dest : Dest) (cancelled : option Z) (stale_dead : list SessEntry) (w : SessMap) (sv : Server)
    : Published * Server :=
  let i := shard_idx s in
  let '(swept, sv) :=
    if shard_over_share (msize w) (fair_sess_cap sv) then
      let '(won, sv) := claim_sweep_now sv in
      if won then
        let '(w, swept) := sweep_local sv w in
        (swept, upd_table c (fun t => note_live_remove (len swept) (set_shard i w t)) sv)
      else ([], sv)
    else ([], sv) in
  publish_tail c s h dest cancelled stale_dead swept (purge_reaped c (stale_dead ++ swept) sv).

(** The whole section: a live entry wins; a dead one goes first. *)
Definition publish (c s h : Z) (dest : Dest) (cancelled : option Z) (sv : Server) : Published * Server :=
  let i := shard_idx s in
  let w := shard (table_of sv c) i in
  match w !! s with
  | Some e =>
      if ss_finished (sess_of sv (se_h e)) then
        let w := delete s w in
        publish_rest c s h dest cancelled [e] w (upd_table c (fun t => note_live_remove 1 (set_shard i w t)) sv)
      else (PLive (se_h e), sv)
  | None => publish_rest c s h dest cancelled [] w sv
  end.

(* ------------------------------------------------------------------ *)
(** ** Sections under a shard's read lock *)

(** The table path of [get_or_create_sess_guarded]: a live entry's session. *)
Definition live_entry (c s : Z) (sv : Server) : option Z :=
  match entry_of (table_of sv c) s with
  | Some e => if ss_finished (sess_of sv (se_h e)) then None else Some (se_h e)
  | None => None
  end.

Definition sess_dest_lookup_ttl (c now s : Z) (host : bytes) (port : Z) (sv : Server) : option (SocketAddr * Z) :=
  match entry_of (table_of sv c) s with
  | Some e =>
      match dest_get (se_dest e) now host port with
      | Some addr => Some (addr, saturating_sub (dm_expires (se_dest e)) now)
      | None => None
      end
  | None => None
  end.

(** The two sections of [sess_dest_store]. *)
Definition dest_is_fresh (c now s : Z) (host : bytes) (port : Z) (addr : SocketAddr) (sv : Server) : bool :=
  match entry_of (table_of sv c) s with
  | Some e => dest_is_for (se_dest e) host port addr && (DEST_PIN_REFRESH_MS <? saturating_sub (dm_expires (se_dest e)) now)
  | None => false
  end.
Definition dest_write (c s : Z) (d : DestMemo) : Server -> Server :=
  upd_table c (fun t => set_shard (shard_idx s) (alter (fun e => mkEntry (se_sess e) (se_h e) d) s (shard t (shard_idx s))) t).

(* ------------------------------------------------------------------ *)
(** ** Thread memos *)

Definition sess_memo_idx (conn sess : Z) : nat :=
  Z.to_nat (Z.lxor (wrapping_mul conn 31) (wrapping_mul sess 0x9e3779b9) mod SESS_MEMO_SLOTS).
Definition touch_memo_idx (conn sess : Z) : nat :=
  Z.to_nat (Z.lxor (wrapping_mul conn 31) (wrapping_mul sess 0x9e3779b9) mod TOUCH_SLOTS).

Definition set_memo (i : nat) (x : option SessMemo) (t : Thread) : Thread := mkThread (<[i := x]> (th_memo t)) (th_touch t) (th_policy t) (th_unreachable t).
Definition set_touch (i : nat) (x : option TouchMemo) (t : Thread) : Thread := mkThread (th_memo t) (<[i := x]> (th_touch t)) (th_policy t) (th_unreachable t).
Definition set_policy (x : PolicyCache) (t : Thread) : Thread := mkThread (th_memo t) (th_touch t) x (th_unreachable t).
Definition set_unreachable (i : nat) (x : option SocketAddr * Z) (t : Thread) : Thread :=
  mkThread (th_memo t) (th_touch t) (th_policy t) (<[i := x]> (th_unreachable t)).

Definition sess_memo_put (th c s h : Z) : Server -> Server :=
  upd_thread th (set_memo (sess_memo_idx c s) (Some (mkSessMemo c s h))).

Definition memo_slot (th c s : Z) (sv : Server) : option SessMemo := mjoin (th_memo (thread_of sv th) !! sess_memo_idx c s).

Definition sess_memo_forget (th c s h : Z) (sv : Server) : Server :=
  match memo_slot th c s sv with
  | Some x => if (sm_conn x =? c) && (sm_sess x =? s) && (sm_h x =? h)
              then upd_thread th (set_memo (sess_memo_idx c s) None) sv else sv
  | None => sv
  end.

(** The gate of [touch_session_throttled]: whether the stamp is due. *)
Definition touch_due (th c s gate : Z) (sv : Server) : bool * Server :=
  let i := touch_memo_idx c s in
  let put := upd_thread th (set_touch i (Some (mkTouch c s gate))) sv in
  match mjoin (th_touch (thread_of sv th) !! i) with
  | Some e =>
      if (tm_conn e =? c) && (tm_sess e =? s) then
        if TOUCH_INTERVAL_MS <=? saturating_sub gate (tm_ms e) then (true, put) else (false, sv)
      else (true, put)
  | None => (true, put)
  end.

(** [fast_allow] and the other uses of the policy memo. *)
Definition allowed (th : Z) (allow_private : bool) (dst : SocketAddr) `{IpNet} (sv : Server) : bool * Server :=
  let '(v, c) := fast_allow (th_policy (thread_of sv th)) allow_private dst in
  (v, upd_thread th (set_policy c) sv).

Definition unreachable_idx (addr : SocketAddr) : nat :=
  let h := match sa_ip addr with IpV4 o => ip_fold o | IpV6 o => ip_fold (segments o) end in
  Z.to_nat (Z.land (as_u64 (wrapping_mul h HASH_K + sa_port addr)) (UNREACHABLE_SLOTS - 1)).
Definition mark_unreachable (th : Z) (addr : SocketAddr) (sv : Server) : Server :=
  upd_thread th (set_unreachable (unreachable_idx addr) (Some addr, saturating_add (coarse_millis (sv_clock sv)) UNREACHABLE_TTL_MS)) sv.
Definition is_unreachable (th : Z) (addr : SocketAddr) (sv : Server) : bool :=
  match th_unreachable (thread_of sv th) !! unreachable_idx addr with
  | Some slot => bool_decide (slot.1 = Some addr) && (coarse_millis (sv_clock sv) <? slot.2)
  | None => false
  end.

(** [policy_resolved], and [deliver_resolved_server_dgram]'s filter without its bound. *)
Definition policy_filter (allow_private : bool) `{IpNet} : list SocketAddr -> list SocketAddr :=
  List.filter (fun a => allow_private || is_global_ip (sa_ip a)).
Definition policy_resolved (addrs : list SocketAddr) (allow_private : bool) `{IpNet} : list SocketAddr :=
  take (Z.to_nat R2_MAX_RESOLVED_ADDRS) (policy_filter allow_private addrs).

(* ------------------------------------------------------------------ *)
(** ** Cancellation registries *)

Definition set_all_flags (fs : list Z) (sv : Server) : Server :=
  set_flags (foldr (fun f m => <[f := true]> m) (sv_flags sv) fs) sv.

(** The flags of the session's lookups in flight. *)
Definition pending_flags (s : Z) (c : Conn) : list Z :=
  (fun p => pl_cancelled p.2) <$> List.filter (fun p => p.1.1 =? s) (map_to_list (cn_pending c)).
Definition waiter_flags (s : Z) (c : Conn) : list Z := default [] (cn_waiters c !! s).

Definition cancel_pending_opens_for_session (c s : Z) (sv : Server) : list Z * Server :=
  let fs := pending_flags s (conn_of sv c) in (fs, set_all_flags fs sv).
Definition cancel_dns_waiters_for_session (c s : Z) (sv : Server) : list Z * Server :=
  let fs := waiter_flags s (conn_of sv c) in (fs, set_all_flags fs sv).

(** [Arc::new(AtomicBool::new(false))]. *)
Definition new_flag (sv : Server) : Z * Server :=
  let f := fresh_key (sv_flags sv) in (f, set_flags (<[f := false]> (sv_flags sv)) sv).

Definition begin_dns_waiter (c s : Z) (sv : Server) : Z * Server :=
  let '(f, sv) := new_flag sv in
  (f, upd_conn c (fun cn => with_waiters (<[s := default [] (cn_waiters cn !! s) ++ [f]]> (cn_waiters cn)) cn) sv).

(** [Drop for DnsWaiter]. *)
Definition drop_waiter (c s f : Z) : Server -> Server :=
  upd_conn c (fun cn =>
    match cn_waiters cn !! s with
    | Some fs =>
        match List.filter (fun x => negb (x =? f)) fs with
        | [] => with_waiters (delete s (cn_waiters cn)) cn
        | fs => with_waiters (<[s := fs]> (cn_waiters cn)) cn
        end
    | None => cn
    end).

Inductive PendingOpen : Type := Started (flag : Z) | Duplicate | PendingFull.

Definition begin_pending_open (c s id : Z) (target : TargetAddr) (sv : Server) : PendingOpen * Server :=
  let set := cn_pending (conn_of sv c) in
  match set !! (s, id) with
  | Some _ => (Duplicate, sv)
  | None =>
      if MAX_PENDING_DNS_OPENS <=? Z.of_nat (size set) then (PendingFull, sv)
      else
        let '(f, sv) := new_flag sv in
        (Started f, upd_conn c (fun cn => with_pending (<[(s, id) := mkPending target f []]> (cn_pending cn)) (cn_pending_bytes cn) cn) sv)
  end.

Inductive PendingPayload : Type := Queued | QueueFull | QueueCancelled | QueueConflict | NotPending.

(** [reserve_pending_bytes]: the new count, when the budget has room. *)
Definition reserve_pending_bytes (n used : Z) : option Z :=
  if n =? 0 then Some used
  else match checked_add used n with
       | Some next => if next <=? MAX_PENDING_DNS_BYTES then Some next else None
       | None => None
       end.

Definition queue_pending_open_payload (c s id : Z) (target : TargetAddr) (payload : bytes) (sv : Server) : PendingPayload * Server :=
  let cn := conn_of sv c in
  match cn_pending cn !! (s, id) with
  | None => (NotPending, sv)
  | Some e =>
      if flag_set sv (Some (pl_cancelled e)) then (QueueCancelled, sv)
      else if negb (bool_decide (pl_target e = target)) then (QueueConflict, sv)
      else if MAX_PENDING_DNS_PAYLOADS <=? len (pl_queued e) then (QueueFull, sv)
      else match reserve_pending_bytes (len payload) (cn_pending_bytes cn) with
           | None => (QueueFull, sv)
           | Some used =>
               let e := mkPending (pl_target e) (pl_cancelled e) (pl_queued e ++ [payload]) in
               (Queued, upd_conn c (fun cn => with_pending (<[(s, id) := e]> (cn_pending cn)) used cn) sv)
           end
  end.

Definition bytes_of (l : list bytes) : Z := foldr (fun b n => len b + n) 0 l.

(** [take_pending_payloads] of an entry that is still in the map. *)
Definition take_pending_payloads (c s id : Z) (sv : Server) : list bytes * Server :=
  match cn_pending (conn_of sv c) !! (s, id) with
  | None => ([], sv)
  | Some e =>
      (pl_queued e,
       upd_conn c (fun cn => with_pending (<[(s, id) := mkPending (pl_target e) (pl_cancelled e) []]> (cn_pending cn))
                               (as_u64 (cn_pending_bytes cn - bytes_of (pl_queued e))) cn) sv)
  end.

(** [Drop for PendingDnsOpen]: the key goes, then what is left in the queue. *)
Definition drop_pending (c s id : Z) (sv : Server) : list bytes * Server :=
  let '(left_, sv) := take_pending_payloads c s id sv in
  (left_, upd_conn c (fun cn => with_pending (delete (s, id) (cn_pending cn)) (cn_pending_bytes cn) cn) sv).

End Ops.
