(* ===== verification/SessTask.v ===== *)
(** The server's functions over its session state, as programs whose steps are
    the atomic accesses and critical sections of [Sess], and the system in which
    any number of them run at once, interleaved step by step.

    The tokio tasks of a connection (its datagram reader, the DNS waiters it
    spawns, the reply readers, the 60 s sweeper) call these functions from
    several threads; nothing orders them beyond the locks. *)
From stdpp Require Import fin_maps relations.
From S2P Require Import Prelude Addr DnsKey DnsPolicy DnsMemo DnsAnswer Wire Binding Flow Pin DnsGate Sess.

(* ------------------------------------------------------------------ *)
(** ** Programs *)

Inductive task (A : Type) : Type :=
| Ret (a : A)
| Atom {B : Type} (f : Server -> B * Server) (k : B -> task A).
Arguments Ret {A} a.
Arguments Atom {A B} f k.

Fixpoint tbind {A B} (p : task A) (k : A -> task B) : task B :=
  match p with
  | Ret a => k a
  | Atom f k' => Atom f (fun b => tbind (k' b) k)
  end.

Notation "'atom!' x ':=' f 'in' k" := (Atom f (fun x => k))
  (at level 10, x binder, f at level 200, k at level 200) : mq_scope.
Notation "'call!' x ':=' p 'in' k" := (tbind p (fun x => k))
  (at level 10, x binder, p at level 200, k at level 200) : mq_scope.

(** A step that only reads, and one that only writes. *)
Definition read {B} (f : Server -> B) (sv : Server) : B * Server := (f sv, sv).
Definition write (f : Server -> Server) (sv : Server) : unit * Server := (tt, f sv).

(** Run alone, to the end. *)
Fixpoint solo {A} (p : task A) (sv : Server) : A * Server :=
  match p with
  | Ret a => (a, sv)
  | Atom f k => let '(b, sv) := f sv in solo (k b) sv
  end.

Fixpoint for_each {A} (l : list A) (p : A -> task unit) : task unit :=
  match l with
  | [] => Ret tt
  | x :: l => call! _ := p x in for_each l p
  end.

(** [slice::chunks]. *)
Fixpoint chunks_go {A} (turns : nat) (n : nat) (l : list A) : list (list A) :=
  match turns, l with
  | S turns, _ :: _ => take n l :: chunks_go turns n (drop n l)
  | _, _ => []
  end.
Definition chunks {A} (n : Z) (l : list A) : list (list A) := chunks_go (length l) (Z.to_nat n) l.

Definition mono : Server -> Z * Server := read (fun sv => mono_millis (sv_clock sv)).
Definition coarse : Server -> Z * Server := read (fun sv => coarse_millis (sv_clock sv)).

Section Tasks.
Context `{HashIter} `{GateHasher} `{IpNet}.

(* ------------------------------------------------------------------ *)
(** ** The table *)

(** [ShardedSessTable::note_empty_state]: [counted.swap] and the holder count. *)
Definition swap_counted (c : Z) (v : bool) (sv : Server) : bool * Server :=
  (st_counted (table_of sv c), upd_table c (with_counted v) sv).
Definition holders_add (d : Z) (sv : Server) : Server := set_holders (as_u64 (sv_holders sv + d)) sv.

Definition note_empty_state (c : Z) : task unit :=
  atom! any := read (fun sv => 0 <? st_live (table_of sv c)) in
  if any then
    atom! old := swap_counted c true in
    if negb old then atom! _ := write (holders_add 1) in Ret tt else Ret tt
  else
    atom! old := swap_counted c false in
    if old then atom! _ := write (holders_add (-1)) in Ret tt else Ret tt.

(** [len]: one shard's read lock after another. *)
Fixpoint len_from (c : Z) (shards : list nat) (n : Z) : task Z :=
  match shards with
  | [] => Ret n
  | i :: shards => atom! m := read (fun sv => msize (shard (table_of sv c) i)) in len_from c shards (n + m)
  end.
Definition all_shards : list nat := seq 0 (Z.to_nat SESS_SHARDS).
Definition tlen (c : Z) : task Z := len_from c all_shards 0.

Definition len_upper_bound (c now_ms : Z) : task Z :=
  atom! stamp := read (fun sv => st_cached_len_ms (table_of sv c)) in
  atom! cached := read (fun sv => st_cached_len (table_of sv c)) in
  atom! since := read (fun sv => st_inserts_since_sample (table_of sv c)) in
  if saturating_sub now_ms stamp <? 1000 then Ret (saturating_add cached since)
  else
    atom! _ := write (upd_table c (with_inserts 0)) in
    call! n := tlen c in
    atom! _ := write (upd_table c (with_cached_len n)) in
    atom! _ := write (upd_table c (with_cached_len_ms now_ms)) in
    Ret n.

Definition note_insert (c : Z) : task unit :=
  atom! _ := write (upd_table c (fun t => with_inserts (as_u64 (st_inserts_since_sample t + 1)) t)) in Ret tt.

Definition store_len (c n now_ms : Z) : task unit :=
  atom! _ := write (upd_table c (with_cached_len n)) in
  atom! _ := write (upd_table c (with_cached_len_ms now_ms)) in
  atom! _ := write (upd_table c (with_inserts 0)) in
  Ret tt.

Definition claim_fair_sweep (now_ms : Z) : task bool :=
  atom! last := read sv_sweep_last in
  if saturating_sub now_ms last <? 1000 then Ret false
  else atom! ok := (fun sv => if sv_sweep_last sv =? last then (true, set_sweep_last now_ms sv) else (false, sv)) in Ret ok.

(** The sweep of one shard, and of all. *)
Fixpoint sweep_chunks (c : Z) (i : nat) (now : Z) (cs : list (list Z)) (out : list SessEntry) : task (list SessEntry) :=
  match cs with
  | [] => Ret out
  | chunk :: cs => atom! evicted := sweep_chunk c i now chunk in sweep_chunks c i now cs (out ++ evicted)
  end.
Fixpoint sweep_shards (c now : Z) (shards : list nat) (out : list SessEntry) : task (list SessEntry) :=
  match shards with
  | [] => Ret out
  | i :: shards =>
      atom! expired := read (fun sv => expired_keys sv (shard (table_of sv c) i) now) in
      call! out := sweep_chunks c i now (chunks SWEEP_PURGE_BATCH expired) out in
      sweep_shards c now shards out
  end.
Definition sweep_all_with (c now : Z) : task (list SessEntry) :=
  call! out := sweep_shards c now all_shards [] in
  call! _ := note_empty_state c in
  Ret out.

Fixpoint drain_shards (c : Z) (shards : list nat) (out : list SessEntry) : task (list SessEntry) :=
  match shards with
  | [] => Ret out
  | i :: shards => atom! drained := drain_shard c i in drain_shards c shards (out ++ drained)
  end.
Definition drain_all (c : Z) : task (list SessEntry) :=
  call! out := drain_shards c all_shards [] in
  call! _ := note_empty_state c in
  Ret out.

(** [abort_evicted]; dropping the entry returns its permit. *)
Definition abort_evicted (l : list SessEntry) : task unit :=
  for_each l (fun e => atom! _ := write (fun sv => add_permits 1 (upd_sess (se_h e) (with_aborted true) sv)) in Ret tt).

(** [r2_mark_reaped_entry_closed] and [r2_finish_reaped_entries]. *)
Definition mark_binding (l : Arc) : task unit :=
  atom! _ := write (fun sv => set_heap (call mark_closed l (sv_heap sv)) sv) in Ret tt.
Definition mark_session_closed (h : Z) : task unit :=
  atom! flows := read (fun sv => ss_flows (sess_of sv h)) in
  if SessionFlows_is_empty flows then Ret tt
  else
    call! _ := for_each (flows_iter flows) mark_binding in
    atom! _ := write (upd_sess h (with_flows SessionFlows_new)) in
    Ret tt.
Definition finish_reaped (l : list SessEntry) : task unit := for_each l (fun e => mark_session_closed (se_h e)).

(** A sweep and what every caller does with the evicted entries. *)
Definition sweep_and_reap (c now : Z) : task unit :=
  call! evicted := sweep_all_with c now in
  call! _ := finish_reaped evicted in
  abort_evicted evicted.

(** The teardown of a closed connection. *)
Definition teardown (c : Z) : task unit :=
  call! drained := drain_all c in
  atom! _ := write (purge_sessions c (se_sess <$> drained)) in
  call! _ := finish_reaped drained in
  abort_evicted drained.

(* ------------------------------------------------------------------ *)
(** ** Memos *)

Definition touch_session_throttled (th c s h : Z) : task unit :=
  atom! gate := coarse in
  atom! due := touch_due th c s gate in
  if due then
    atom! now := mono in
    atom! _ := write (upd_sess h (with_last now)) in
    Ret tt
  else Ret tt.

Inductive SessHit : Type := Miss | Fresh (h : Z) | Stale.

Definition sess_memo_lookup (th c s : Z) : task SessHit :=
  atom! slot := read (memo_slot th c s) in
  match slot with
  | Some x =>
      if (sm_conn x =? c) && (sm_sess x =? s) then
        let stale := atom! _ := write (upd_thread th (set_memo (sess_memo_idx c s) None)) in Ret Stale in
        atom! finished := read (fun sv => ss_finished (sess_of sv (sm_h x))) in
        if finished then stale
        else
          atom! alive := read (fun sv => ss_sock (sess_of sv (sm_h x))) in
          if alive then Ret (Fresh (sm_h x)) else stale
      else Ret Miss
  | None => Ret Miss
  end.

Definition sess_dest_store (c s : Z) (host : bytes) (port : Z) (addr : SocketAddr) (remaining_ms : Z) : task unit :=
  match PortKey_new host port with
  | None => Ret tt
  | Some key =>
      atom! now := coarse in
      atom! fresh := read (dest_is_fresh c now s host port addr) in
      if fresh then Ret tt
      else atom! _ := write (dest_write c s (mkDest key addr (now + pin_life_ms remaining_ms))) in Ret tt
  end.

Definition store_dest (c s : Z) (dest : Dest) : task unit :=
  match dest with
  | Some (h, p, d, life) => sess_dest_store c s h p d life
  | None => Ret tt
  end.

(* ------------------------------------------------------------------ *)
(** ** Creation *)

(** [try_acquire_owned] on the global pool. *)
Definition try_acquire (sv : Server) : bool * Server :=
  if 0 <? sv_permits sv then (true, set_permits (sv_permits sv - 1) sv) else (false, sv).

(** The fair-share gate: whether the creation may go on. *)
Definition fair_gate (c : Z) : task bool :=
  atom! fair_cap := read fair_sess_cap in
  atom! now := mono in
  call! ub := len_upper_bound c now in
  if fair_cap <=? ub then
    call! won := claim_fair_sweep now in
    if won then
      call! _ := sweep_and_reap c now in
      atom! now2 := mono in
      call! n2 := tlen c in
      call! _ := store_len c n2 now2 in
      Ret (n2 <? fair_cap)
    else Ret false
  else Ret true.

(** The permit, with one throttled reap when the pool is empty. *)
Definition take_permit (c : Z) : task bool :=
  atom! ok := try_acquire in
  if ok then Ret true
  else
    atom! now := mono in
    call! won := claim_fair_sweep now in
    if won then
      atom! now := mono in
      call! _ := sweep_and_reap c now in
      atom! ok := try_acquire in
      Ret ok
    else Ret false.

(** The socket, the stamp and the reader of a new session. *)
Definition new_session (c s : Z) (guard : option Z) (sv : Server) : Z * Server :=
  let h := fresh_key (sv_sess sv) in
  (h, set_sess (<[h := mkSession c s guard false false true (mono_millis (sv_clock sv)) RecentAddrs_default 0 SessionFlows_new]> (sv_sess sv)) sv).

Definition reap_both (stale_dead swept : list SessEntry) : task unit :=
  call! _ := finish_reaped stale_dead in
  call! _ := finish_reaped swept in
  call! _ := abort_evicted stale_dead in
  abort_evicted swept.

(** What follows the publish section. *)
Definition after_publish (th c s h : Z) (dest : Dest) (out : Published) : task (option Z) :=
  match out with
  | PLive h' =>
      call! _ := touch_session_throttled th c s h' in
      atom! _ := write (fun sv => add_permits 1 (upd_sess h (with_aborted true) sv)) in
      atom! _ := write (sess_memo_put th c s h') in
      call! _ := store_dest c s dest in
      Ret (Some h')
  | PCancelled stale_dead swept =>
      call! _ := note_empty_state c in
      call! _ := reap_both stale_dead swept in
      Ret None
  | PDead stale_dead swept =>
      call! _ := note_empty_state c in
      call! _ := reap_both stale_dead swept in
      Ret None
  | PInserted stale_dead swept =>
      call! _ := note_insert c in
      call! _ := note_empty_state c in
      atom! _ := write (sess_memo_put th c s h) in
      call! _ := reap_both stale_dead swept in
      Ret (Some h)
  end.

(** From the fair-share gate on: a session that is not in the table. *)
Definition create_sess (th c s : Z) (dest : Dest) (cancelled : option Z) : task (option Z) :=
  call! admitted := fair_gate c in
  if negb admitted then Ret None else
  atom! dgram := read (fun sv => cn_dgram (conn_of sv c)) in
  if negb dgram then Ret None else
  call! permit := take_permit c in
  if negb permit then Ret None else
  atom! ok := read sv_sock_ok in
  if negb ok then atom! _ := write (add_permits 1) in Ret None else
  atom! h := new_session c s cancelled in
  atom! out := publish c s h dest cancelled in
  after_publish th c s h dest out.

Definition get_or_create_sess_guarded (th c s : Z) (dest : Dest) (cancelled : option Z) : task (option Z) :=
  if s =? 0 then Ret None else
  call! hit := sess_memo_lookup th c s in
  match hit with
  | Fresh h =>
      call! _ := touch_session_throttled th c s h in
      call! _ := store_dest c s dest in
      Ret (Some h)
  | Stale | Miss =>
      atom! live := read (live_entry c s) in
      match live with
      | Some h =>
          call! _ := touch_session_throttled th c s h in
          atom! _ := write (sess_memo_put th c s h) in
          call! _ := store_dest c s dest in
          Ret (Some h)
      | None => create_sess th c s dest cancelled
      end
  end.

Definition get_or_create_sess (th c s : Z) (dest : Dest) : task (option Z) := get_or_create_sess_guarded th c s dest None.

(* ------------------------------------------------------------------ *)
(** ** Closes *)

(** What a reply reader does when it leaves its loop. *)
Definition reader_exit (th c s h : Z) : task unit :=
  atom! _ := write (sess_memo_forget th c s h) in
  atom! removed := exit_section c s h in
  call! _ := (if removed then mark_session_closed h else Ret tt) in
  call! _ := note_empty_state c in
  atom! _ := write (upd_sess h (with_finished true)) in
  Ret tt.

Definition r2_close_session (c s : Z) : task bool :=
  atom! entry := close_section c s in
  call! _ := note_empty_state c in
  match entry with
  | None => Ret false
  | Some e =>
      call! _ := mark_session_closed (se_h e) in
      call! _ := abort_evicted [e] in
      Ret true
  end.

(** The close arms of [r2_handle_ctl] and [handle_control_message], with the
    flags they set. *)
Definition close_session (c s : Z) : task (list Z) :=
  atom! opens := cancel_pending_opens_for_session c s in
  atom! waiters := cancel_dns_waiters_for_session c s in
  call! _ := r2_close_session c s in
  Ret (opens ++ waiters).

(* ------------------------------------------------------------------ *)
(** ** Flow bindings *)

(** [flows.rcu(..)] with an insertion. *)
Definition rcu_insert (h : Z) (l : Arc) (sv : Server) : bool * Server :=
  let '(ok, t) := SessionFlows_insert (sv_heap sv) l (ss_flows (sess_of sv h)) in
  (ok, upd_sess h (with_flows t) sv).

(** [r2_install] up to [registry.insert].  The shard's read guard keeps the
    entry in the table from the liveness check to the insertion, so the two are
    one step. *)
Definition install_section (c s wire_id : Z) (target : TargetAddr) (resolved : list SocketAddr) (sv : Server)
    : res RegistryError (Z * Arc) * Server :=
  match live_entry c s sv with
  | None => (Err Full, sv)
  | Some h =>
      let flows := ss_flows (sess_of sv h) in
      if is_full (sv_heap sv) flows && negb (bool_decide (is_Some (find_id (sv_heap sv) wire_id flows))) then (Err Full, sv)
      else
        let '(l, heap) := new_shared wire_id s target (sv_heap sv) in
        let heap := match resolved with [] => heap | _ => alter (set_resolved resolved) l heap end in
        let heap := Flow.call mark_open l heap in
        let '(r, reg) := registry_insert heap l (cn_reg (conn_of sv c)) in
        let sv := upd_conn c (with_reg reg) (set_heap heap sv) in
        match r with
        | Ok l' => (Ok (h, l'), sv)
        | Err e => (Err e, sv)
        | Panic => (Panic, sv)
        end
  end.

(** [registry.remove(wire_id)]. *)
Definition registry_take (c wire_id : Z) (sv : Server) : option Arc * Server :=
  let '(r, reg) := registry_remove (sv_heap sv) wire_id (cn_reg (conn_of sv c)) in
  (r, upd_conn c (with_reg reg) sv).

Definition mark_opt (l : option Arc) : task unit := match l with Some l => mark_binding l | None => Ret tt end.

Definition r2_install (c s wire_id : Z) (target : TargetAddr) (resolved : list SocketAddr) : task (res RegistryError Arc) :=
  atom! r := install_section c s wire_id target resolved in
  match r with
  | Ok (h, inserted) =>
      atom! published := rcu_insert h inserted in
      if negb published then
        atom! removed := registry_take c wire_id in
        call! _ := mark_opt removed in
        Ret (Err Full)
      else Ret (Ok inserted)
  | Err e => Ret (Err e)
  | Panic => Ret Panic
  end.

Definition r2_remove_flow (c wire_id : Z) : task (option Arc) :=
  atom! r := registry_take c wire_id in
  match r with
  | None => Ret None
  | Some l =>
      call! _ := mark_binding l in
      atom! live := read (fun sv => live_entry c (fb_session (sv_heap sv !!! l)) sv) in
      call! _ := match live with
        | Some h => atom! _ := write (fun sv => upd_sess h (with_flows (SessionFlows_remove (sv_heap sv) wire_id (ss_flows (sess_of sv h))).2) sv) in Ret tt
        | None => Ret tt end in
      Ret (Some l)
  end.

(** [install_unsolicited]: a reply reader's own flow, without the shard lock. *)
Definition insert_unsolicited (c s wire_id : Z) (src : SocketAddr) (sv : Server) : option Arc * Server :=
  let '(l, heap) := new_shared wire_id s (AddrIp src) (sv_heap sv) in
  let heap := Flow.call mark_open l (alter (set_reply_src src) l heap) in
  let '(r, reg) := registry_insert heap l (cn_reg (conn_of sv c)) in
  (match r with Ok l' => Some l' | _ => None end, upd_conn c (with_reg reg) (set_heap heap sv)).

Definition install_unsolicited (c s h : Z) (src : SocketAddr) : task (option Arc) :=
  atom! full := read (fun sv => is_full (sv_heap sv) (ss_flows (sess_of sv h))) in
  if full then Ret None else
  atom! room := read (fun sv => has_capacity (cn_reg (conn_of sv c))) in
  if negb room then Ret None else
  atom! id := (fun sv => let '(id, ids) := alloc_wire_id (cn_ids (conn_of sv c)) (cn_wire (conn_of sv c)) in (id, upd_conn c (with_ids ids) sv)) in
  match id with
  | None => Ret None
  | Some wire_id =>
      atom! r := insert_unsolicited c s wire_id src in
      match r with
      | None => Ret None
      | Some l =>
          atom! published := rcu_insert h l in
          if negb published then
            atom! _ := registry_take c wire_id in
            call! _ := mark_binding l in
            Ret None
          else Ret (Some l)
      end
  end.

(* ------------------------------------------------------------------ *)
(** ** Forwarding *)

(** [remember_dst].  The [rcu] is one step: a lost race is retried on the newer
    snapshot.  (An attempt that pushed and lost still moves the epoch, once more
    than here.) *)
Definition recent_missing (c s : Z) (dst : SocketAddr) (sv : Server) : option Z :=
  match entry_of (table_of sv c) s with
  | Some e => if bool_decide (Some (unmap (sa_ip dst)) ∈ ra_slots (ss_recent (sess_of sv (se_h e)))) then None else Some (se_h e)
  | None => None
  end.
Definition rcu_recent (h : Z) (dst : SocketAddr) (sv : Server) : bool * Server :=
  let cur := ss_recent (sess_of sv h) in
  if bool_decide (Some (unmap (sa_ip dst)) ∈ ra_slots cur) then (false, sv)
  else (true, upd_sess h (with_recent (recent_push cur dst)) sv).
Definition bump_epoch (h : Z) : Server -> Server := upd_sess h (fun x => with_epoch (as_u64 (ss_epoch x + 1)) x).

Definition remember_dst (c s : Z) (dst : SocketAddr) : task unit :=
  atom! missing := read (recent_missing c s dst) in
  match missing with
  | None => Ret tt
  | Some h =>
      atom! pushed := rcu_recent h dst in
      if pushed then atom! _ := write (bump_epoch h) in Ret tt else Ret tt
  end.

(** [mirror_record] for a reader whose armed session is [epoch]. *)
Definition mirror_record (c s : Z) (dst : SocketAddr) (epoch : option Z) (mirror : option (Z * SocketAddr * Z))
    : task (option (Z * SocketAddr * Z)) :=
  match epoch with
  | None => call! _ := remember_dst c s dst in Ret None
  | Some h =>
      atom! e := read (fun sv => ss_epoch (sess_of sv h)) in
      if bool_decide (mirror = Some (s, dst, e)) then Ret mirror
      else
        call! _ := remember_dst c s dst in
        atom! e := read (fun sv => ss_epoch (sess_of sv h)) in
        Ret (Some (s, dst, e))
  end.

(** What the kernel answers to one [sendto]: accepted (or queued for a retry),
    refused with a routing error, refused otherwise. *)
Inductive SendResult : Type := SendOk | SendNoRoute | SendFailed.

(** [udp_try_send_or_return] on the dual-stack socket of session [h], to
    [map_for_dual dst]; the log keeps [dst]. *)
Definition send_to (h : Z) (dst : SocketAddr) (r : SendResult) (sv : Server) : SendResult * Server :=
  (r, log_sent h dst sv).

Inductive ForwardResolution : Type := FNegative | FAddr (dst : SocketAddr) (life : Z) | FUnresolved.

(** [resolve_forward_target]; [memo] is what [lookup_cached_fast_with_ttl] says. *)
Definition from_session (c s : Z) (host : bytes) (port : Z) : task (option (SocketAddr * Z)) :=
  atom! now := coarse in
  atom! r := read (sess_dest_lookup_ttl c now s host port) in
  Ret r.
Definition serve_target (th : Z) (allow_private : bool) (a : SocketAddr * Z) : task ForwardResolution :=
  atom! ok := allowed th allow_private a.1 in
  if negb ok then Ret FUnresolved else
  atom! bad := read (is_unreachable th a.1) in
  if bad then Ret FUnresolved else Ret (FAddr a.1 a.2).
Definition resolve_forward_target (th c s : Z) (host : bytes) (port : Z) (allow_private : bool) (memo : CachedLookup * Z)
    : task ForwardResolution :=
  let fallback :=
    call! r := from_session c s host port in
    match r with Some v => serve_target th allow_private v | None => Ret FUnresolved end in
  match memo with
  | (LNegative, _) => Ret FNegative
  | (LAddr dst, life) =>
      atom! ok := allowed th allow_private dst in
      if negb ok then fallback else
      atom! bad := read (is_unreachable th dst) in
      if bad then fallback else serve_target th allow_private (dst, life)
  | (LUnknown, _) => fallback
  end.

(** What [resolve_all_cached] answers. *)
Abbreviation Answer := (LookupFailure + list SocketAddr)%type.

Inductive DeliveryOutcome : Type := Delivered | DUnusable (ttl : Z) | NotDelivered.

(** The walk over the allowed addresses. *)
Fixpoint walk (th h : Z) (send : SocketAddr -> SendResult) (is_first : bool) (l : list SocketAddr) : task (option SocketAddr) :=
  match l with
  | [] => Ret None
  | cand :: l =>
      atom! bad := read (is_unreachable th cand) in
      if negb is_first && bad then walk th h send false l
      else
        atom! r := send_to h cand (send cand) in
        match r with
        | SendOk => Ret (Some cand)
        | SendNoRoute => atom! _ := write (mark_unreachable th cand) in walk th h send false l
        | SendFailed => Ret None
        end
  end.

(** [deliver_resolved_server_dgram]; [life] is the remaining life the memo
    reports for the answer and [filtered_ttl] the window of a filtered one. *)
Definition deliver (th c s : Z) (host : bytes) (port : Z) (allow_private : bool) (answer : Answer) (life filtered_ttl : Z)
    (send : SocketAddr -> SendResult) (waiter : option Z) : task DeliveryOutcome :=
  match answer with
  | inl f => Ret (DUnusable (retry_ttl f))
  | inr addrs =>
      let remaining_ms := if life =? 0 then DNS_CACHE_TTL_MS else life in
      match policy_filter allow_private addrs with
      | [] => Ret (DUnusable filtered_ttl)
      | preferred :: rest =>
          atom! cancelled := read (fun sv => flag_set sv waiter) in
          if cancelled then Ret NotDelivered else
          call! sock := get_or_create_sess_guarded th c s (Some (host, port, preferred, remaining_ms)) waiter in
          match sock with
          | None => Ret NotDelivered
          | Some h =>
              atom! cancelled := read (fun sv => flag_set sv waiter) in
              if cancelled then Ret NotDelivered else
              call! sent := walk th h send true (preferred :: rest) in
              match sent with
              | None => Ret NotDelivered
              | Some a =>
                  call! _ := remember_dst c s a in
                  if bool_decide (a = preferred) then Ret Delivered
                  else call! _ := sess_dest_store c s host port a remaining_ms in Ret Delivered
              end
          end
      end
  end.

(** The gate's calls.  A section of its lock is one step, and each store to the
    hint another (the steps of other sections may come in between, which the lock
    rules out: more runs than the code has); a claim first loads the hint, key,
    deadline and state, without the lock. *)
Definition on_gate {A} (c : Z) (f : DnsGate -> A * DnsGate) (sv : Server) : A * Server :=
  let '(a, g) := f (cn_gate (conn_of sv c)) in (a, upd_conn c (with_gate g) sv).
Definition store_hint (c : Z) (x : HotStore) : Server -> Server := upd_conn c (fun cn => with_gate (hot_store (cn_gate cn) x) cn).
Definition gate_section {A} (c : Z) (f : DnsGate -> A * list HotStore * DnsGate) : task A :=
  atom! r := on_gate c f in
  call! _ := for_each r.2 (fun x => atom! _ := write (store_hint c x) in Ret tt) in
  Ret r.1.
Definition claim_gate (c s : Z) (host : bytes) (port now : Z) : task GateClaim :=
  let key := gate_key s host port in
  let lock := call! v := gate_section c (claim_locked key now) in Ret v in
  atom! k := read (fun sv => dg_hot_key (cn_gate (conn_of sv c))) in
  if negb (hint_for key k) then lock else
  atom! deadline := read (fun sv => dg_hot_deadline (cn_gate (conn_of sv c))) in
  if negb (now <? deadline) then lock else
  atom! st := read (fun sv => dg_hot_state (cn_gate (conn_of sv c))) in
  match hint_state st with Some v => Ret v | None => lock end.

(** What the environment answers to one delivery. *)
Record Reply : Type := mkReply { rp_answer : Answer; rp_life : Z; rp_filtered : Z; rp_send : SocketAddr -> SendResult }.

(** The parked followers, delivered without the waiter's flag. *)
Fixpoint deliver_parked (th c s : Z) (host : bytes) (port : Z) (allow_private : bool) (parked : list bytes) (replies : list Reply) : task unit :=
  match parked, replies with
  | _ :: parked, r :: replies =>
      call! _ := deliver th c s host port allow_private (rp_answer r) (rp_life r) (rp_filtered r) (rp_send r) None in
      deliver_parked th c s host port allow_private parked replies
  | _, _ => Ret tt
  end.

(** The task [forward_server_dgram] spawns for an unresolved name. *)
Definition dns_waiter (th c s : Z) (host : bytes) (port : Z) (allow_private : bool) (generation flag : Z) (first : Reply)
    (followers : list Reply) : task unit :=
  call! outcome := deliver th c s host port allow_private (rp_answer first) (rp_life first) (rp_filtered first) (rp_send first) (Some flag) in
  call! _ := match outcome with
    | DUnusable _ => Ret tt
    | _ =>
        atom! parked := on_gate c (take_parked s host port generation) in
        deliver_parked th c s host port allow_private parked followers
    end in
  atom! now := coarse in
  call! _ := gate_section c (gate_finish s host port generation (match outcome with DUnusable ttl => Some ttl | _ => None end) now) in
  atom! _ := write (drop_waiter c s flag) in
  Ret tt.

(** A deferred send.  [sg_dst] is the destination before [map_for_dual]. *)
Record StagedSend : Type := mkStaged { sg_h : Z; sg_dst : SocketAddr; sg_payload : bytes }.

(** How a forward ends: in the caller's burst buffer when it lends one, otherwise
    with the kernel. *)
Definition emit (h : Z) (dst : SocketAddr) (payload : bytes) (send : SocketAddr -> SendResult) (staged : option (list StagedSend))
    : task (SendResult * option (list StagedSend)) :=
  match staged with
  | Some l => Ret (SendOk, Some (l ++ [mkStaged h dst payload]))
  | None => atom! r := send_to h dst (send dst) in Ret (r, None)
  end.

(** [forward_server_dgram]; [budget] is whether the slow path has a permit.
    [FSpawned] hands the claim to a [dns_waiter]. *)
Inductive Forwarded : Type := FDropped | FSent (dst : SocketAddr) (life : Z) | FSpawned (generation flag : Z).

Definition forward_server_dgram (th c s : Z) (addr : TargetAddr) (payload : bytes) (allow_private : bool)
    (memo : CachedLookup * Z) (send : SocketAddr -> SendResult) (budget : bool) (staged : option (list StagedSend))
    : task (Forwarded * option (list StagedSend)) :=
  match addr with
  | AddrIp dst =>
      atom! ok := allowed th allow_private dst in
      if negb ok then Ret (FDropped, staged) else
      call! sock := get_or_create_sess th c s None in
      match sock with
      | None => Ret (FDropped, staged)
      | Some h =>
          call! _ := remember_dst c s dst in
          call! e := emit h dst payload send staged in
          Ret (FSent dst DNS_CACHE_TTL_MS, e.2)
      end
  | AddrDomain host port =>
      call! r := resolve_forward_target th c s host port allow_private memo in
      match r with
      | FNegative => Ret (FDropped, staged)
      | FAddr dst life =>
          call! sock := get_or_create_sess th c s (Some (host, port, dst, life)) in
          match sock with
          | None => Ret (FDropped, staged)
          | Some h =>
              call! _ := remember_dst c s dst in
              call! e := emit h dst payload send staged in
              match e.1 with
              | SendNoRoute => atom! _ := write (mark_unreachable th dst) in Ret (FDropped, e.2)
              | _ => Ret (FSent dst life, e.2)
              end
          end
      | FUnresolved =>
          if negb budget then Ret (FDropped, staged) else
          atom! now := coarse in
          call! v := claim_gate c s host port now in
          match v with
          | Proceed generation =>
              atom! flag := begin_dns_waiter c s in
              Ret (FSpawned generation flag, staged)
          | InFlight => atom! _ := on_gate c (gate_park s host port now payload) in Ret (FDropped, staged)
          | Unusable => Ret (FDropped, staged)
          end
      end
  end.

(** [r2_forward_domain_open_bg]; [pending] is the flag of its coalescing entry. *)
Fixpoint send_queued (h : Z) (dst : SocketAddr) (pending : Z) (send : SocketAddr -> SendResult) (queued : list bytes) : task unit :=
  match queued with
  | [] => Ret tt
  | _ :: queued =>
      atom! cancelled := read (fun sv => flag_set sv (Some pending)) in
      if cancelled then send_queued h dst pending send queued
      else atom! _ := send_to h dst (send dst) in send_queued h dst pending send queued
  end.

Definition domain_open_body (th c s id : Z) (host : bytes) (port : Z) (allow_private : bool) (pending : Z) (reply : Reply) (budget : bool) : task unit :=
  atom! closed := read (fun sv => cn_closed (conn_of sv c)) in
  if closed || negb budget then Ret tt else
  match rp_answer reply with
  | inl _ => Ret tt
  | inr addrs =>
      match policy_resolved addrs allow_private with
      | [] => Ret tt
      | dst :: rest =>
          atom! closed := read (fun sv => cn_closed (conn_of sv c)) in
          if closed then Ret tt else
          atom! cancelled := read (fun sv => flag_set sv (Some pending)) in
          if cancelled then Ret tt else
          let remaining_ms := if rp_life reply =? 0 then DNS_CACHE_TTL_MS else rp_life reply in
          call! sock := get_or_create_sess_guarded th c s (Some (host, port, dst, remaining_ms)) (Some pending) in
          match sock with
          | None => Ret tt
          | Some h =>
              atom! cancelled := read (fun sv => flag_set sv (Some pending)) in
              if cancelled then Ret tt else
              call! _ := remember_dst c s dst in
              atom! _ := send_to h dst (rp_send reply dst) in
              atom! queued := take_pending_payloads c s id in
              call! _ := send_queued h dst pending (rp_send reply) queued in
              call! _ := r2_install c s id (AddrDomain host port) (dst :: rest) in
              Ret tt
          end
      end
  end.

Definition domain_open (th c s id : Z) (host : bytes) (port : Z) (allow_private : bool) (pending : Z) (reply : Reply) (budget : bool) : task unit :=
  call! _ := domain_open_body th c s id host port allow_private pending reply budget in
  atom! _ := drop_pending c s id in
  Ret tt.

End Tasks.
