(* ===== verification/FastPath.v ===== *)
(** The datagram reader's forwarding path around its fast table
    ([src/bin/myquic2-server/accept.rs], [pin.rs]): resolve from the pins, the
    session's memo or the thread's DNS memo; stage on a table hit; otherwise flush
    what is staged, forward on the slow path and arm the table.

    The table and the staged sends belong to the one task that reads a
    connection's datagrams, so they are threaded through as values; everything
    shared is reached by the steps of [SessTask]. *)
From stdpp Require Import fin_maps.
From S2P Require Import Prelude Addr DnsKey DnsPolicy DnsMemo DnsAnswer Wire Binding Flow Pin FastTable DnsGate Sess SessTask.

Definition LAST_HOP_DRAIN : Z := 32.

(** What the datagram reader owns. *)
Record Reader : Type := mkReader { rd_fast : FastTable; rd_staged : list StagedSend }.
Definition Reader_new : Reader := mkReader FastTable_new [].

(* ------------------------------------------------------------------ *)
(** ** Flushing *)

Fixpoint span {A} (p : A -> bool) (l : list A) : list A * list A :=
  match l with
  | [] => ([], [])
  | x :: l' => if p x then let '(a, b) := span p l' in (x :: a, b) else ([], l)
  end.

Definition same_run (a b : StagedSend) : bool := (sg_h b =? sg_h a) && bool_decide (map_for_dual (sg_dst b) = map_for_dual (sg_dst a)).

(** One [udp_try_send_grouped]: the frames, in order. *)
Definition send_group (group : list StagedSend) (sv : Server) : Server := fold_left (fun sv x => log_sent (sg_h x) (sg_dst x) sv) group sv.

(** Runs of consecutive sends to one socket and destination, each in groups of at
    most [LAST_HOP_DRAIN]; a turn per run. *)
Fixpoint flush_runs (turns : nat) (staged : list StagedSend) : task unit :=
  match turns, staged with
  | S turns, x :: rest =>
      let '(run, rest) := span (same_run x) rest in
      call! _ := for_each (chunks LAST_HOP_DRAIN (x :: run)) (fun g => atom! _ := write (send_group g) in Ret tt) in
      flush_runs turns rest
  | _, _ => Ret tt
  end.
Definition flush_staged_sends (r : Reader) : task Reader :=
  call! _ := flush_runs (length (rd_staged r)) (rd_staged r) in
  Ret (mkReader (rd_fast r) []).

Section Path.
Context `{HashIter} `{GateHasher} `{IpNet}.

(* ------------------------------------------------------------------ *)
(** ** Resolving *)

(** [resolve_pin]; [memo] is what [lookup_cached_fast_with_ttl] says. *)
Definition pin_hit (pin : option ConnPin) (now pinned_sess s : Z) (host : bytes) (port : Z) : option SocketAddr :=
  match pin with
  | Some p => if (s =? pinned_sess) && (cp_sess p =? s) && pin_is_for p host port && (now <? cp_expires p) then Some (cp_addr p) else None
  | None => None
  end.
Definition adopt (th s : Z) (host : bytes) (port : Z) (allow_private : bool) (pin : option ConnPin) (dst : SocketAddr) (life : Z)
    : task (option SocketAddr * option ConnPin) :=
  atom! ok := allowed th allow_private dst in
  if ok then atom! ck := read sv_clock in Ret (Some dst, pin_arm ck pin s host port dst life) else Ret (None, pin).
Definition resolve_pin (th c : Z) (pin : option ConnPin) (pinned_sess s : Z) (host : bytes) (port : Z) (allow_private : bool)
    (memo : CachedLookup * Z) : task (option SocketAddr * option ConnPin) :=
  atom! now := coarse in
  match pin_hit pin now pinned_sess s host port with
  | Some a => Ret (Some a, pin)
  | None =>
      atom! known := read (sess_dest_lookup_ttl c now s host port) in
      match known, memo with
      | Some (dst, memo_life), _ => adopt th s host port allow_private pin dst memo_life
      | None, (LAddr dst, ttl_ms) => adopt th s host port allow_private pin dst ttl_ms
      | None, _ => Ret (None, pin)
      end
  end.

Definition resolve_fast (th c : Z) (t : FastTable) (s : Z) (a : TargetAddr) (allow_private : bool) (memo : CachedLookup * Z)
    : task (option SocketAddr * FastTable) :=
  match a with
  | AddrIp dst => Ret (Some dst, t)
  | AddrDomain host port =>
      atom! ck := read sv_clock in
      match pin_get ck s host port t with
      | Some dst => Ret (Some dst, t)
      | None =>
          call! r := resolve_pin th c None s s host port allow_private memo in
          Ret (match r with
               | (Some dst, Some pin) => (Some dst, pin_store pin t)
               | (dst, _) => (dst, t)
               end)
      end
  end.

(* ------------------------------------------------------------------ *)
(** ** Staging *)

Definition try_stage_inner (th c s : Z) (dst : SocketAddr) (payload : bytes) (allow_private : bool) (r : Reader) : task (bool * Reader) :=
  let '(idx, t) := probe_cached s (rd_fast r) in
  let r := mkReader t (rd_staged r) in
  match idx with
  | None => Ret (false, r)
  | Some idx =>
      match get_slot t idx with
      | None => Ret (false, r)
      | Some slot =>
          if negb (fs_sess slot =? s) then Ret (false, r) else
          atom! finished := read (fun sv => ss_finished (sess_of sv (fs_h slot))) in
          if finished then Ret (false, r) else
          atom! ok := allowed th allow_private dst in
          if negb ok then Ret (false, r) else
          atom! sock := read (fun sv => ss_sock (sess_of sv (fs_h slot))) in
          if negb sock then Ret (false, r) else
          call! _ := touch_session_throttled th c s (fs_h slot) in
          call! m := mirror_record c s dst (Some (fs_h slot)) (fs_last_dst slot) in
          atom! stamp := read (fun sv => ss_last (sess_of sv (fs_h slot))) in
          Ret (true, mkReader (fast_touch idx stamp (set_last_dst idx m t)) (rd_staged r ++ [mkStaged (fs_h slot) dst payload]))
      end
  end.

(** [try_stage]; the counters it publishes are not kept. *)
Definition try_stage (th c s : Z) (dst : SocketAddr) (payload : bytes) (allow_private : bool) (r : Reader) : task (bool * Reader) :=
  call! out := try_stage_inner th c s dst payload allow_private r in
  Ret (out.1, mkReader (note_path out.1 (rd_fast out.2)).2 (rd_staged out.2)).

(* ------------------------------------------------------------------ *)
(** ** Arming *)

Definition arm_fast (th c s : Z) (t : FastTable) : task FastTable :=
  call! hit := sess_memo_lookup th c s in
  match hit with
  | Fresh h =>
      atom! finished := read (fun sv h => ss_finished (sess_of sv h)) in
      atom! last := read (fun sv h => ss_last (sess_of sv h)) in
      Ret (arm_fresh s h finished last t)
  | Stale => Ret (fast_clear s t).2
  | Miss => Ret t
  end.

Definition arm_fast_with_target (th c s : Z) (a : TargetAddr) (used : Forwarded) (t : FastTable) : task (bool * FastTable) :=
  match used with
  | FSent dst life =>
      call! t := arm_fast th c s t in
      match a with
      | AddrDomain host port => atom! ck := read sv_clock in Ret (true, pin_cache ck s host port dst life t)
      | AddrIp _ => Ret (true, t)
      end
  | _ => Ret (false, t)
  end.

(* ------------------------------------------------------------------ *)
(** ** One item *)

Inductive ItemOut : Type := IStaged | IForwarded (f : Forwarded).
(** What [forward_v3_item] returns. *)
Definition accepted (o : ItemOut) : bool := match o with IStaged | IForwarded (FSent _ _) => true | _ => false end.

(** From the resolved destination on: stage it, or flush what is staged, forward
    and arm.  The single and fragment arms of the datagram loop and
    [forward_v3_item] do this after [resolve_fast]; a BATCH resolves once and does
    it for each payload, with the answer of an earlier one where there was none. *)
Definition forward_wanted (th c s : Z) (a : TargetAddr) (want : option SocketAddr) (payload : bytes) (allow_private : bool) (memo : CachedLookup * Z)
    (send : SocketAddr -> SendResult) (budget : bool) (r : Reader) : task (ItemOut * Reader) :=
  call! staged :=
    match want with
    | Some dst => try_stage th c s dst payload allow_private r
    | None => Ret (false, r)
    end in
  if staged.1 then Ret (IStaged, staged.2) else
  call! r := flush_staged_sends staged.2 in
  call! used := forward_server_dgram th c s a payload allow_private memo send budget None in
  call! armed := arm_fast_with_target th c s a used.1 (rd_fast r) in
  Ret (IForwarded used.1, mkReader armed.2 (rd_staged r)).

(** [forward_v3_item]; [memo] and [memo2] are the thread's DNS memo at the two
    times it is asked. *)
Definition forward_v3_item (th c s : Z) (a : TargetAddr) (payload : bytes) (allow_private : bool) (memo memo2 : CachedLookup * Z)
    (send : SocketAddr -> SendResult) (budget : bool) (r : Reader) : task (ItemOut * Reader) :=
  call! want := resolve_fast th c (rd_fast r) s a allow_private memo in
  forward_wanted th c s a want.1 payload allow_private memo2 send budget (mkReader want.2 (rd_staged r)).

(* ------------------------------------------------------------------ *)
(** ** Installed flows *)

(** [r2_forward_flow_resolved]: the payload of a flow whose binding was looked up;
    a miss of the fast table still goes into the burst.  The repair request for
    an id that was never installed is a control message and is left out; the
    forward's DNS memo, kernel answer and lookup budget are not asked for an
    address that is staged. *)
Definition r2_forward_flow_resolved (th c : Z) (binding : option Arc) (payload : bytes) (allow_private : bool) (r : Reader) : task (bool * Reader) :=
  match binding with
  | None => Ret (false, r)
  | Some l =>
      atom! b := read (fun sv => sv_heap sv !!! l) in
      if fb_state b =? CLOSED then Ret (false, r) else
      match (match target_ip b with Some a => Some a | None => resolved_first b end) with
      | None => Ret (false, r)
      | Some dst =>
          let s := fb_session b in
          call! staged := try_stage th c s dst payload allow_private r in
          if staged.1 then Ret staged else
          call! used := forward_server_dgram th c s (AddrIp dst) payload allow_private (LUnknown, 0) (fun _ => SendOk) true (Some (rd_staged staged.2)) in
          let r := mkReader (rd_fast staged.2) (default [] used.2) in
          match used.1 with
          | FSent _ _ => call! t := arm_fast th c s (rd_fast r) in Ret (true, mkReader t (rd_staged r))
          | _ => Ret (false, r)
          end
      end
  end.

Definition r2_forward_flow_item (th c wire_id : Z) (payload : bytes) (allow_private : bool) (r : Reader) : task (bool * Reader) :=
  atom! binding := read (fun sv => registry_get wire_id (cn_reg (conn_of sv c))) in
  r2_forward_flow_resolved th c binding payload allow_private r.

(* ------------------------------------------------------------------ *)
(** ** An OPEN *)

(** What is left to do when the handler returns: nothing, a lookup to be spawned
    for the pending OPEN of this flag, or what an ordinary forward left. *)
Inductive OpenOut : Type := ODone | OLookup (pending : Z) | OItem (f : ItemOut).

(** The synchronous arm for a domain the thread or the session knows: the handler
    sends the payload itself. *)
Definition open_known (th c s : Z) (host : bytes) (port : Z) (payload : bytes) (dst : SocketAddr) (life : Z) (send : SocketAddr -> SendResult) (r : Reader)
    : task (option (list SocketAddr) * Reader) :=
  call! r := flush_staged_sends r in
  call! sock := get_or_create_sess th c s (Some (host, port, dst, life)) in
  match sock with
  | None => Ret (None, r)
  | Some h =>
      call! _ := remember_dst c s dst in
      atom! _ := send_to h dst (send dst) in
      call! t := arm_fast th c s (rd_fast r) in
      atom! ck := read sv_clock in
      Ret (Some [dst], mkReader (pin_cache ck s host port dst life t) (rd_staged r))
  end.

(** The cold arm: one lookup for each [(session, id)], later payloads behind it. *)
Definition open_cold (th c s id : Z) (host : bytes) (port : Z) (payload : bytes) (allow_private : bool) (memo memo2 : CachedLookup * Z)
    (send : SocketAddr -> SendResult) (budget : bool) (r : Reader) : task (OpenOut * Reader) :=
  let target := AddrDomain host port in
  atom! p := begin_pending_open c s id target in
  match p with
  | Started pending => Ret (OLookup pending, r)
  | PendingFull => Ret (ODone, r)
  | Duplicate =>
      atom! q := queue_pending_open_payload c s id target payload in
      match q with
      | NotPending => call! out := forward_v3_item th c s target payload allow_private memo memo2 send budget r in Ret (OItem out.1, out.2)
      | _ => Ret (ODone, r)
      end
  end.

(** The install that follows a delivery; the ACK and the rejects are control
    frames and are left out. *)
Definition open_install (c s id : Z) (target : TargetAddr) (resolved : list SocketAddr) (r : Reader) : task (OpenOut * Reader) :=
  call! _ := r2_install c s id target resolved in Ret (ODone, r).

(** [r2_ingress_open]; [memo], [memo2] and [memo3] are the thread's DNS memo each
    time it is asked. *)
Definition r2_ingress_open (th c s id : Z) (target : TargetAddr) (payload : bytes) (allow_private : bool) (memo memo2 memo3 : CachedLookup * Z)
    (send : SocketAddr -> SendResult) (budget : bool) (r : Reader) : task (OpenOut * Reader) :=
  if (s =? 0) || wire_id_server_owned id then Ret (ODone, r) else
  atom! existing := read (fun sv => match registry_get id (cn_reg (conn_of sv c)) with Some l => Some (sv_heap sv !!! l) | None => None end) in
  if match existing with Some b => negb (fb_session b =? s) || negb (bool_decide (fb_target b = target)) | None => false end then Ret (ODone, r) else
  match target with
  | AddrIp dst =>
      atom! ok := allowed th allow_private dst in
      if negb ok then Ret (ODone, r) else
      call! r := flush_staged_sends r in
      call! used := forward_server_dgram th c s (AddrIp dst) payload allow_private memo send budget None in
      match used.1 with
      | FSent _ _ =>
          call! t := arm_fast th c s (rd_fast r) in
          open_install c s id target [] (mkReader t (rd_staged r))
      | _ => Ret (ODone, r)
      end
  | AddrDomain host port =>
      atom! q := queue_pending_open_payload c s id target payload in
      match q with
      | NotPending =>
          call! known := resolve_forward_target th c s host port allow_private memo in
          match known with
          | FAddr dst life =>
              call! out := open_known th c s host port payload dst life send r in
              match out.1 with
              | None => Ret (ODone, out.2)
              | Some resolved => open_install c s id target resolved out.2
              end
          | _ => open_cold th c s id host port payload allow_private memo2 memo3 send budget r
          end
      | _ => Ret (ODone, r)
      end
  end.

End Path.
