(* ===== verification/SessSys.v ===== *)
(** The system of the server's session tasks: which functions may start, how
    their steps interleave, and what the environment does in between. *)
From stdpp Require Import fin_maps relations.
From S2P Require Import Prelude Addr DnsKey DnsPolicy DnsMemo DnsAnswer Wire Binding Flow Pin FastTable DnsGate Sess SessTask FastPath.

(** The calls the server's tasks make.  The datagram reader's carry what it owns
    from call to call: [JItem] is a payload with its address ([forward_v3_item],
    and the single and fragment arms of its loop), [JWanted] a further payload of a
    BATCH, [JFlow] a payload of an installed flow, [JTrainItem] one whose binding
    its TRAIN has looked up, [JIngress] an OPEN, [JFlush] the end of a burst.
    [JWaiter] and [JDomain] are the lookups these spawn; [JRemoveFlow] and [JClose]
    come from the control stream; [JExit] and [JUnsolicited] belong to a reply
    reader, [JSweep] and [JTeardown] to the sweeper.  [JForward], [JCreate],
    [JQueue], [JOpen] and [JInstall] are parts of the reader's calls made alone. *)
Inductive Job : Type :=
| JForward (th c s : Z) (addr : TargetAddr) (payload : bytes) (memo : CachedLookup * Z) (send : SocketAddr -> SendResult) (budget : bool)
| JWaiter (th c s : Z) (host : bytes) (port generation flag : Z) (first : Reply) (followers : list Reply)
| JDomain (th c s id : Z) (host : bytes) (port pending : Z) (reply : Reply) (budget : bool)
| JCreate (th c s : Z) (dest : Dest)
| JOpen (th c s id : Z) (host : bytes) (port : Z) (reply : Reply) (budget : bool)
| JQueue (c s id : Z) (target : TargetAddr) (payload : bytes)
| JInstall (c s id : Z) (target : TargetAddr) (resolved : list SocketAddr)
| JRemoveFlow (c id : Z)
| JClose (c s : Z)
| JExit (th h : Z)
| JUnsolicited (h : Z) (src : SocketAddr)
| JItem (th c : Z) (r : Reader) (s : Z) (addr : TargetAddr) (payload : bytes) (memo memo2 : CachedLookup * Z) (send : SocketAddr -> SendResult) (budget : bool)
| JWanted (th c : Z) (r : Reader) (s : Z) (addr : TargetAddr) (want : option SocketAddr) (payload : bytes) (memo : CachedLookup * Z) (send : SocketAddr -> SendResult) (budget : bool)
| JFlow (th c : Z) (r : Reader) (wire_id : Z) (payload : bytes)
| JTrainItem (th c : Z) (r : Reader) (binding : option Arc) (payload : bytes)
| JIngress (th c : Z) (r : Reader) (s id : Z) (target : TargetAddr) (payload : bytes) (memo memo2 memo3 : CachedLookup * Z) (send : SocketAddr -> SendResult) (budget : bool)
| JFlush (c : Z) (r : Reader)
| JSweep (c : Z)
| JTeardown (c : Z).

Inductive Outcome : Type :=
| OSock (h : option Z)
| OForward (f : Forwarded)
| OFlags (fs : list Z)
| OReader (r : Reader) (f : option ItemOut)
| OOpen (r : Reader) (f : OpenOut)
| OUnit.

Record Config : Type := mkConfig {
  cf_sv : Server;
  cf_run : list (Job * task Outcome);    (** the calls in flight *)
  cf_done : list (Job * Outcome)         (** the calls that returned, the last first *)
}.

Section System.
Context `{HashIter} `{GateHasher} `{IpNet} (allow_private : bool).

Definition unit_task {A} (p : task A) : task Outcome := call! _ := p in Ret OUnit.

(** A reply reader's calls are for the session it was started with. *)
Definition job_task (sv : Server) (j : Job) : task Outcome :=
  match j with
  | JForward th c s addr payload memo send budget =>
      call! r := forward_server_dgram th c s addr payload allow_private memo send budget None in Ret (OForward r.1)
  | JWaiter th c s host port generation flag first followers =>
      unit_task (dns_waiter th c s host port allow_private generation flag first followers)
  | JDomain th c s id host port pending reply budget => unit_task (domain_open th c s id host port allow_private pending reply budget)
  | JCreate th c s dest => call! r := get_or_create_sess th c s dest in Ret (OSock r)
  | JOpen th c s id host port reply budget =>
      atom! r := begin_pending_open c s id (AddrDomain host port) in
      match r with
      | Started f => unit_task (domain_open th c s id host port allow_private f reply budget)
      | Duplicate | PendingFull => Ret OUnit
      end
  | JQueue c s id target payload => atom! _ := queue_pending_open_payload c s id target payload in Ret OUnit
  | JInstall c s id target resolved => unit_task (r2_install c s id target resolved)
  | JRemoveFlow c id => unit_task (r2_remove_flow c id)
  | JClose c s => call! fs := close_session c s in Ret (OFlags fs)
  | JExit th h => unit_task (reader_exit th (ss_conn (sess_of sv h)) (ss_sess (sess_of sv h)) h)
  | JUnsolicited h src => unit_task (install_unsolicited (ss_conn (sess_of sv h)) (ss_sess (sess_of sv h)) h src)
  | JItem th c r s addr payload memo memo2 send budget =>
      call! out := forward_v3_item th c s addr payload allow_private memo memo2 send budget r in Ret (OReader out.2 (Some out.1))
  | JWanted th c r s addr want payload memo send budget =>
      call! out := forward_wanted th c s addr want payload allow_private memo send budget r in Ret (OReader out.2 (Some out.1))
  | JFlow th c r wire_id payload => call! out := r2_forward_flow_item th c wire_id payload allow_private r in Ret (OReader out.2 None)
  | JTrainItem th c r binding payload => call! out := r2_forward_flow_resolved th c binding payload allow_private r in Ret (OReader out.2 None)
  | JIngress th c r s id target payload memo memo2 memo3 send budget =>
      call! out := r2_ingress_open th c s id target payload allow_private memo memo2 memo3 send budget r in Ret (OOpen out.2 out.1)
  | JFlush c r => call! r := flush_staged_sends r in Ret (OReader r None)
  | JSweep c => atom! now := mono in unit_task (sweep_and_reap c now)
  | JTeardown c => unit_task (teardown c)
  end.

(** What a returned call leaves to its connection's datagram reader. *)
Definition left_reader (j : Job) (o : Outcome) : option (Z * Reader) :=
  match j, o with
  | JItem _ c _ _ _ _ _ _ _ _, OReader r (Some _) | JWanted _ c _ _ _ _ _ _ _ _, OReader r (Some _) => Some (c, r)
  | JFlow _ c _ _ _, OReader r _ | JTrainItem _ c _ _ _, OReader r _ | JFlush c _, OReader r _ => Some (c, r)
  | JIngress _ c _ _ _ _ _ _ _ _ _ _, OOpen r _ => Some (c, r)
  | _, _ => None
  end.
(** A reader starts from nothing and goes on from what an earlier call of its
    connection left.  (Not only the latest: the law of one task per connection is
    not needed here.) *)
Definition reader_from (d : list (Job * Outcome)) (c : Z) (r : Reader) : Prop :=
  r = Reader_new \/ exists x, x ∈ d /\ left_reader x.1 x.2 = Some (c, r).

(** What must hold for a call to be made: its connection exists and its session
    id is one the wire can carry; a reply reader calls for its own session; only a
    full-cone reader installs flows of its own; the teardown waits for the close. *)
Definition conn_open (sv : Server) (c : Z) : Prop := is_Some (sv_conns sv !! c).
Definition job_ok (sv : Server) (d : list (Job * Outcome)) (j : Job) : Prop :=
  match j with
  | JForward _ c s _ _ _ _ _ | JCreate _ c s _ | JOpen _ c s _ _ _ _ _ | JQueue c s _ _ _ | JInstall c s _ _ _ | JClose c s => conn_open sv c /\ is_u32 s
  | JRemoveFlow c _ | JSweep c => conn_open sv c
  | JWaiter _ _ _ _ _ _ _ _ _ | JDomain _ _ _ _ _ _ _ _ _ => False
  | JExit _ h => conn_open sv (ss_conn (sess_of sv h))
  | JUnsolicited h _ => conn_open sv (ss_conn (sess_of sv h)) /\ st_filter (table_of sv (ss_conn (sess_of sv h))) = FullCone
  | JItem _ c r s _ _ _ _ _ _ => conn_open sv c /\ is_u32 s /\ reader_from d c r
  | JWanted _ c r s _ _ _ _ _ _ | JIngress _ c r s _ _ _ _ _ _ _ _ => conn_open sv c /\ is_u32 s /\ reader_from d c r
  | JFlow _ c r _ _ | JTrainItem _ c r _ _ | JFlush c r => conn_open sv c /\ reader_from d c r
  | JTeardown c => exists cn, sv_conns sv !! c = Some cn /\ cn_closed cn = true
  end.

(** The waiter a forward spawns and the lookup an OPEN spawns, with whatever the
    resolver and the kernel will answer them. *)
Definition spawned (j : Job) (o : Outcome) (j' : Job) : Prop :=
  match j, o with
  | JForward th c s (AddrDomain host port) _ _ _ _, OForward (FSpawned generation flag) =>
      exists th' first followers, j' = JWaiter th' c s host port generation flag first followers
  | JItem _ c _ s (AddrDomain host port) _ _ _ _ _, OReader _ (Some (IForwarded (FSpawned generation flag)))
  | JWanted _ c _ s (AddrDomain host port) _ _ _ _ _, OReader _ (Some (IForwarded (FSpawned generation flag)))
  | JIngress _ c _ s _ (AddrDomain host port) _ _ _ _ _ _, OOpen _ (OItem (IForwarded (FSpawned generation flag))) =>
      exists th' first followers, j' = JWaiter th' c s host port generation flag first followers
  | JIngress _ c _ s id (AddrDomain host port) _ _ _ _ _ _, OOpen _ (OLookup pending) =>
      exists th' reply budget, j' = JDomain th' c s id host port pending reply budget
  | _, _ => False
  end.

(** The clock runs, sockets come and go, connections open and close, aborted
    readers stop, and a socket nobody holds is closed. *)
Definition in_some_table (sv : Server) (h : Z) : Prop :=
  exists c s e, entry_of (table_of sv c) s = Some e /\ se_h e = h.

Inductive env_step (sv : Server) : Server -> Prop :=
| env_clock ck ok : clock_ok ck -> ck_now (sv_clock sv) <= ck_now ck -> ck_recent (sv_clock sv) <= ck_recent ck ->
    env_step sv (set_env ck ok sv)
| env_connect c f w : sv_conns sv !! c = None -> env_step sv (set_conns (<[c := Conn_new f w]> (sv_conns sv)) sv)
| env_quic c closed dgram : (cn_closed (conn_of sv c) = true -> closed = true) ->
    env_step sv (upd_conn c (with_quic closed dgram) sv)
| env_aborted h : ss_aborted (sess_of sv h) = true -> env_step sv (upd_sess h (with_finished true) sv)
| env_drop h : ss_finished (sess_of sv h) = true -> ~ in_some_table sv h -> env_step sv (upd_sess h (with_sock false) sv).

Inductive sys_step : Config -> Config -> Prop :=
| sys_start sv l d j : job_ok sv d j -> sys_step (mkConfig sv l d) (mkConfig sv ((j, job_task sv j) :: l) d)
| sys_act sv B (f : Server -> B * Server) k l1 l2 d j :
    sys_step (mkConfig sv (l1 ++ (j, Atom f k) :: l2) d) (mkConfig (f sv).2 (l1 ++ (j, k (f sv).1) :: l2) d)
| sys_return sv o l1 l2 d j :
    sys_step (mkConfig sv (l1 ++ (j, Ret o) :: l2) d) (mkConfig sv (l1 ++ l2) ((j, o) :: d))
| sys_spawn sv o l1 l2 d j j' : spawned j o j' ->
    sys_step (mkConfig sv (l1 ++ (j, Ret o) :: l2) d) (mkConfig sv ((j', job_task sv j') :: l1 ++ l2) ((j, o) :: d))
| sys_env sv sv' l d : env_step sv sv' -> sys_step (mkConfig sv l d) (mkConfig sv' l d).

Definition initial : Config := mkConfig Server_new [] [].
Definition reachable (g : Config) : Prop := rtc sys_step initial g.

(** A scheduler for concrete runs: what to do next, each with its check. *)
Inductive Sched : Type :=
| SStart (j : Job)
| SRun (i : nat) (n : nat)        (** [n] steps of the [i]-th call *)
| SEnd (i : nat)
| SSpawn (i : nat) (j : Job)
| SEnv (f : Server -> Server).

Definition set_nth {A} (i : nat) (x : A) (l : list A) : list A := <[i := x]> l.

Fixpoint run_steps {A} (n : nat) (p : task A) (sv : Server) : task A * Server :=
  match n, p with
  | S n, Atom f k => let '(b, sv) := f sv in run_steps n (k b) sv
  | _, _ => (p, sv)
  end.

Definition sched_step (x : Sched) (g : Config) : Config :=
  let '(mkConfig sv l d) := g in
  match x with
  | SStart j => mkConfig sv ((j, job_task sv j) :: l) d
  | SRun i n =>
      match l !! i with
      | Some (j, p) => let '(p, sv) := run_steps n p sv in mkConfig sv (<[i := (j, p)]> l) d
      | None => g
      end
  | SEnd i => match l !! i with Some (j, Ret o) => mkConfig sv (delete i l) ((j, o) :: d) | _ => g end
  | SSpawn i j' =>
      match l !! i with
      | Some (j, Ret o) => mkConfig sv ((j', job_task sv j') :: delete i l) ((j, o) :: d)
      | _ => g
      end
  | SEnv f => mkConfig (f sv) l d
  end.

Definition sched_ok (x : Sched) (g : Config) : Prop :=
  match x with
  | SStart j => job_ok (cf_sv g) (cf_done g) j
  | SSpawn i j' => exists j o, cf_run g !! i = Some (j, Ret o) /\ spawned j o j'
  | SEnv f => env_step (cf_sv g) (f (cf_sv g))
  | _ => True
  end.

Fixpoint sched_run (xs : list Sched) (g : Config) : Config :=
  match xs with
  | [] => g
  | x :: xs => sched_run xs (sched_step x g)
  end.
Fixpoint sched_all_ok (xs : list Sched) (g : Config) : Prop :=
  match xs with
  | [] => True
  | x :: xs => sched_ok x g /\ sched_all_ok xs (sched_step x g)
  end.

Lemma run_steps_rtc n : forall j p sv sv' p' l1 l2 d, run_steps n p sv = (p', sv') ->
  rtc sys_step (mkConfig sv (l1 ++ (j, p) :: l2) d) (mkConfig sv' (l1 ++ (j, p') :: l2) d).
Proof.
  induction n as [|n IH]; intros j p sv sv' p' l1 l2 d E; cbn in E; [by simplify_eq|].
  destruct p as [o|B f k]; [by simplify_eq|]. destruct (f sv) as [b sv1] eqn:Ef.
  eapply rtc_l; [|by eapply IH]. pose proof (sys_act sv B f k l1 l2 d j) as Hs. by rewrite Ef in Hs.
Qed.

Lemma split_at {A} (l : list A) i x : l !! i = Some x -> l = take i l ++ x :: drop (S i) l /\ delete i l = take i l ++ drop (S i) l.
Proof. intros E. split; [symmetry; by apply take_drop_middle | apply delete_take_drop]. Qed.

Lemma sched_step_rtc x g : sched_ok x g -> rtc sys_step g (sched_step x g).
Proof.
  destruct g as [sv l d]. destruct x as [j|i n|i|i j'|f]; cbn [sched_ok sched_step cf_sv cf_run]; intros Hok.
  - by apply rtc_once, sys_start.
  - destruct (l !! i) as [[j p]|] eqn:E; [|done]. destruct (run_steps n p sv) as [p' sv'] eqn:Er.
    destruct (split_at _ _ _ E) as [El _]. rewrite El at 1.
    rewrite insert_take_drop by (by eapply lookup_lt_Some). by eapply run_steps_rtc.
  - destruct (l !! i) as [[j [o|]]|] eqn:E; try done. destruct (split_at _ _ _ E) as [El ->]. rewrite El at 1.
    apply rtc_once, sys_return.
  - destruct Hok as (j & o & E & Hs). rewrite E. destruct (split_at _ _ _ E) as [El ->]. rewrite El at 1.
    by eapply rtc_once, sys_spawn.
  - by apply rtc_once, sys_env.
Qed.

Lemma sched_run_rtc xs : forall g, sched_all_ok xs g -> rtc sys_step g (sched_run xs g).
Proof. induction xs as [|x xs IH]; intros g Hok; [done|]. destruct Hok as [Hx Hxs]. etrans; [by apply sched_step_rtc|by apply IH]. Qed.

End System.
