(* ===== verification/SessDemo.v ===== *)
(** Concrete runs of the session system: instances for its parameters and a
    tactic that checks every step of a schedule by evaluation. *)
From stdpp Require Import fin_maps relations.
From S2P Require Import Prelude Addr DnsKey DnsPolicy DnsMemo DnsAnswer Wire Binding Flow Pin DnsGate DnsGateRun Sess SessTask SessSys.

(** The documented behaviour of [HashMap::iter], computed: all entries, in key
    order; the hasher is [DnsGateRun.len_hash]. *)
Definition list_iter : HashIter := {| hash_iter := map_to_list; hash_iter_perm m := reflexivity _ |}.

#[export] Existing Instance prefix_net.
#[export] Existing Instance list_iter.
#[export] Existing Instance len_hash.

Definition connect (c : Z) (f : ReplyFilter) : Sched := SEnv (fun sv => set_conns (<[c := Conn_new f Rev2]> (sv_conns sv)) sv).
Definition at_ms (t : Z) : Sched := SEnv (set_env (mkClock (ms t) (ms t)) true).
(** A call from its start to its return, with nothing in between. *)
Definition whole (j : Job) : list Sched := [SStart j; SRun 0 200; SEnd 0].

(** One check of a schedule: each condition is a lookup or a comparison. *)
Ltac sched_one :=
  cbv beta;
  lazymatch goal with
  | |- conn_open _ _ => apply (bool_decide_eq_true_1 (is_Some _)); vm_compute; reflexivity
  | |- is_u32 _ => vm_compute; split; congruence
  | |- env_step _ _ =>
      first [ apply env_connect; vm_compute; reflexivity
            | apply env_clock; [vm_compute; split_and!; congruence | vm_compute; congruence | vm_compute; congruence]
            | apply env_aborted; vm_compute; reflexivity ]
  | |- exists _ _, _ /\ _ => do 2 eexists; split; [vm_compute; reflexivity | do 3 eexists; reflexivity]
  | |- _ /\ _ => split; sched_one
  | |- True => exact I
  | |- _ = _ => vm_compute; reflexivity
  | _ => idtac
  end.
Ltac sched_steps :=
  lazymatch goal with
  | |- sched_all_ok _ [] _ => exact I
  | |- sched_all_ok _ (_ :: _) _ => split; [cbn [sched_ok job_ok connect at_ms]; sched_one | sched_steps]
  | |- sched_all_ok _ _ _ => progress hnf; split; [cbn [sched_ok job_ok connect at_ms]; sched_one | sched_steps]
  | |- True => exact I
  end.

Module Demo.
Definition host : bytes := [97; 46; 98].
Definition peer : SocketAddr := SockV4 [8; 8; 8; 8] 53.
Definition answer : Reply := mkReply (inr [peer]) 5000 0 (fun _ => SendOk).

(** A lookup is cancelled by a close while it is in flight; the session is then
    made again by a datagram, found by another thread, and gets a flow. *)
Definition steps : list Sched :=
  [connect 1 Restricted; SStart (JOpen 1 1 5 9 host 53 answer true); SRun 0 2] ++
  whole (JClose 1 5) ++
  whole (JForward 1 1 5 (AddrIp peer) [1] (LUnknown, 0) (fun _ => SendOk) true) ++
  whole (JCreate 2 1 5 None) ++
  whole (JInstall 1 5 7 (AddrIp peer) []) ++
  [SRun 0 200; SEnd 0].
Definition final : Config := sched_run false steps initial.

Lemma final_reachable : reachable false final.
Proof. apply sched_run_rtc. unfold steps, whole. cbn [app]. sched_steps. Qed.
End Demo.
