(* ===== verification/SessInv.v ===== *)
(** The invariant of the server's session state, what no step may take back
    ([ext]), and the two quantities the steps conserve: permits against table
    entries, and holders against counted tables. *)
From stdpp Require Import fin_maps.
From S2P Require Import Prelude Addr DnsKey DnsPolicy DnsMemo DnsAnswer Wire Binding Flow FlowRun Pin DnsGate Sess SessTask.

(* ------------------------------------------------------------------ *)
(** ** Tables *)

Lemma shard_idx_lt s : (shard_idx s < Z.to_nat SESS_SHARDS)%nat.
Proof. unfold shard_idx. pose proof (Z.mod_pos_bound s SESS_SHARDS eq_refl). lia. Qed.

Lemma msize_nonneg {A} (m : gmap Z A) : 0 <= msize m.
Proof. unfold msize. lia. Qed.

Lemma shards_sum_nonneg (l : list SessMap) : 0 <= foldr (fun m n => msize m + n) 0 l.
Proof. induction l as [|m l IH]; cbn; [done|]. pose proof (msize_nonneg m). lia. Qed.

Lemma shards_sum_insert (l : list SessMap) i m m' : l !! i = Some m ->
  foldr (fun m n => msize m + n) 0 (<[i := m']> l) = foldr (fun m n => msize m + n) 0 l - msize m + msize m' /\
  msize m <= foldr (fun m n => msize m + n) 0 l.
Proof.
  revert i; induction l as [|x l IH]; intros [|i] E; try done; cbn in E.
  - simplify_eq. cbn. pose proof (shards_sum_nonneg l). lia.
  - destruct (IH _ E) as [IH1 IH2]. pose proof (msize_nonneg x).
    change (<[S i := m']> (x :: l)) with (x :: <[i := m']> l). cbn [foldr]. lia.
Qed.

Section Shards.
Context (t : SessTable) (Hlen : length (st_shards t) = Z.to_nat SESS_SHARDS).

Lemma shard_lookup i : (i < Z.to_nat SESS_SHARDS)%nat -> st_shards t !! i = Some (shard t i).
Proof. intros Hi. unfold shard. apply list_lookup_lookup_total_lt. lia. Qed.

Lemma shard_set i m j : (i < Z.to_nat SESS_SHARDS)%nat -> shard (set_shard i m t) j = if decide (i = j) then m else shard t j.
Proof.
  intros Hi. unfold shard, set_shard. cbn. case_decide as E.
  - subst. apply list_lookup_total_insert_eq. lia.
  - by apply list_lookup_total_insert_ne.
Qed.

Lemma entry_set i m s : (i < Z.to_nat SESS_SHARDS)%nat ->
  entry_of (set_shard i m t) s = if decide (i = shard_idx s) then m !! s else entry_of t s.
Proof. intros Hi. unfold entry_of. rewrite shard_set by done. by case_decide. Qed.

Lemma table_len_set i m : (i < Z.to_nat SESS_SHARDS)%nat ->
  table_len (set_shard i m t) = table_len t - msize (shard t i) + msize m /\ msize (shard t i) <= table_len t.
Proof. intros Hi. apply shards_sum_insert. by apply shard_lookup. Qed.

End Shards.

Lemma table_len_nonneg t : 0 <= table_len t.
Proof. apply shards_sum_nonneg. Qed.

(* ------------------------------------------------------------------ *)
(** ** The invariant *)

(** Who a session was made by: the connection, the id, the guard. *)
Abbreviation Ident := (Z * Z * option Z)%type.
Definition ident (sv : Server) (h : Z) : option Ident :=
  (fun x => (ss_conn x, ss_sess x, ss_guard x)) <$> sv_sess sv !! h.

(** One connection: every entry is in the shard of its id and names a session
    made for that id on this connection; [live] is exact; the registry's indexes
    are exact; and, where only the datagram path installs flows, every
    registered flow has its session in the table until the connection closes. *)
Record table_ok (I : Z -> option Ident) (c : Z) (t : SessTable) : Prop := mkTableOk {
  to_len : length (st_shards t) = Z.to_nat SESS_SHARDS;
  to_entry i s e : (i < Z.to_nat SESS_SHARDS)%nat -> shard t i !! s = Some e ->
    i = shard_idx s /\ s <> 0 /\ se_sess e = s /\ exists g, I (se_h e) = Some (c, s, g);
  to_live : st_live t = table_len t
}.

Definition bound_ok (hp : Heap) (cn : Conn) : Prop :=
  st_filter (cn_table cn) = Restricted -> cn_closed cn = false ->
  forall s id, registered hp (cn_reg cn) s id -> is_Some (entry_of (cn_table cn) s).

Record conn_ok (I : Z -> option Ident) (hp : Heap) (c : Z) (cn : Conn) : Prop := mkConnOk {
  co_table : table_ok I c (cn_table cn);
  co_reg : reg_inv hp (cn_reg cn);
  co_bound : bound_ok hp cn
}.

Section Inv.
Context `{IpNet} (allow_private : bool).

Definition send_ok (a : SocketAddr) : Prop := allow_private = true \/ is_global_ip (sa_ip a) = true.

(** A thread's memo slot names a session made for its key, and its policy memo
    holds verdicts of the policy. *)
Definition thread_ok (I : Z -> option Ident) (t : Thread) : Prop :=
  (forall i x, th_memo t !! i = Some (Some x) -> exists g, I (sm_h x) = Some (sm_conn x, sm_sess x, g)) /\
  policy_ok (th_policy t).

Record inv (sv : Server) : Prop := mkInv {
  iv_conns c cn : sv_conns sv !! c = Some cn -> conn_ok (ident sv) (sv_heap sv) c cn;
  iv_threads th t : sv_threads sv !! th = Some t -> thread_ok (ident sv) t;
  iv_permits : 0 <= sv_permits sv;
  iv_holders : is_u64 (sv_holders sv);
  iv_sent : Forall (fun p => send_ok p.2) (sv_sent sv)
}.

(* ------------------------------------------------------------------ *)
(** ** What stays *)

Definition has (sv : Server) (c s h : Z) : Prop :=
  exists cn e, sv_conns sv !! c = Some cn /\ entry_of (cn_table cn) s = Some e /\ se_h e = h.
Definition guarded_by (sv : Server) (h f : Z) : Prop := exists c s, ident sv h = Some (c, s, Some f).

(** Sessions keep their identity, connections their filter, flags stay set; and
    once a flag is set, no entry guarded by it appears. *)
Record ext (sv sv' : Server) : Prop := mkExt {
  ex_ident h i : ident sv h = Some i -> ident sv' h = Some i;
  ex_conns c cn : sv_conns sv !! c = Some cn -> exists cn', sv_conns sv' !! c = Some cn' /\
    st_filter (cn_table cn') = st_filter (cn_table cn) /\ (cn_closed cn = true -> cn_closed cn' = true);
  ex_flags f : sv_flags sv !! f = Some true -> sv_flags sv' !! f = Some true;
  ex_known f : is_Some (sv_flags sv !! f) -> is_Some (sv_flags sv' !! f);
  ex_guard f c s h : sv_flags sv !! f = Some true -> has sv' c s h -> guarded_by sv' h f -> has sv c s h /\ guarded_by sv h f
}.

#[export] Instance ext_preorder : PreOrder ext.
Proof.
  split.
  - intros sv. split; auto. intros c cn E. by exists cn.
  - intros a b d A B. split.
    + intros h i Hi. by apply (ex_ident _ _ B), (ex_ident _ _ A).
    + intros c cn E. destruct (ex_conns _ _ A _ _ E) as (cn1 & H1 & F1 & C1). destruct (ex_conns _ _ B _ _ H1) as (cn2 & H2 & F2 & C2).
      exists cn2. split_and!; [done|congruence|auto].
    + intros f Hf. by apply (ex_flags _ _ B), (ex_flags _ _ A).
    + intros f Hf. by apply (ex_known _ _ B), (ex_known _ _ A).
    + intros f c s h Hf Hh Hg. destruct (ex_guard _ _ B f c s h (ex_flags _ _ A _ Hf) Hh Hg) as [Hh1 Hg1].
      by apply (ex_guard _ _ A f c s h).
Qed.

(* ------------------------------------------------------------------ *)
(** ** What is conserved *)

Definition entries_total (sv : Server) : Z := gsum (fun cn => table_len (cn_table cn)) (sv_conns sv).
Definition counted_total (sv : Server) : Z := gsum (fun cn => Z.b2z (st_counted (cn_table cn))) (sv_conns sv).

Definition budget (sv : Server) : Z := sv_permits sv + entries_total sv.
Definition surplus (sv : Server) : Z := sv_holders sv - counted_total sv.

(** A step that keeps the invariant and moves the two balances by [dp], [dh]. *)
Record moves (dp dh : Z) (sv sv' : Server) : Prop := mkMoves {
  mv_inv : inv sv';
  mv_ext : ext sv sv';
  mv_budget : budget sv' = budget sv + dp;
  mv_surplus : as_u64 (surplus sv') = as_u64 (surplus sv + dh)
}.

Lemma moves_refl sv : inv sv -> moves 0 0 sv sv.
Proof. intros Hi. split; [done | reflexivity | lia | by rewrite Z.add_0_r]. Qed.

Lemma as_u64_add_l a b d : as_u64 a = as_u64 b -> as_u64 (a + d) = as_u64 (b + d).
Proof. unfold as_u64. intros E. by rewrite Zplus_mod, E, <- Zplus_mod. Qed.

Lemma moves_trans dp dh dp' dh' a b d : moves dp dh a b -> moves dp' dh' b d -> moves (dp + dp') (dh + dh') a d.
Proof.
  intros [A1 A2 A3 A4] [B1 B2 B3 B4]. split; [done | by etrans | lia |].
  rewrite B4, (as_u64_add_l _ _ _ A4). f_equal. lia.
Qed.

Lemma moves_seq dp dh dp1 dh1 dp2 dh2 a b d : moves dp1 dh1 a b -> moves dp2 dh2 b d -> dp = dp1 + dp2 -> dh = dh1 + dh2 -> moves dp dh a d.
Proof. intros A B -> ->. by eapply moves_trans. Qed.

Lemma moves_eq dp dh dp' dh' a b : moves dp' dh' a b -> dp = dp' -> dh = dh' -> moves dp dh a b.
Proof. by intros ? -> ->. Qed.

(* ------------------------------------------------------------------ *)
(** ** Monotonicity *)

Lemma table_ok_mono (I I' : Z -> option Ident) c t : (forall h i, I h = Some i -> I' h = Some i) -> table_ok I c t -> table_ok I' c t.
Proof. intros HI [? He ?]. split; [done| |done]. intros i s e Hi Hs. destruct (He i s e Hi Hs) as (? & ? & ? & g & ?). naive_solver. Qed.

Lemma bound_ok_le hp hp' cn : reg_inv hp (cn_reg cn) -> heap_le hp hp' -> bound_ok hp cn -> bound_ok hp' cn.
Proof. intros Hr Hle Hb Hf Hc s id Hreg. apply (Hb Hf Hc s id). eapply registered_le; [apply Hr | exact Hle | done]. Qed.

Lemma conn_ok_mono (I I' : Z -> option Ident) hp hp' c cn : (forall h i, I h = Some i -> I' h = Some i) -> heap_le hp hp' ->
  conn_ok I hp c cn -> conn_ok I' hp' c cn.
Proof.
  intros HI Hle [Ht Hr Hb]. split; [by eapply table_ok_mono | by eapply reg_inv_le | by eapply bound_ok_le].
Qed.

Lemma thread_ok_mono (I I' : Z -> option Ident) t : (forall h i, I h = Some i -> I' h = Some i) -> thread_ok I t -> thread_ok I' t.
Proof. intros HI [Hm Hp]. split; [|done]. intros i x Hx. destruct (Hm _ _ Hx) as [g Hg]. eauto. Qed.

(** Nothing but the tables' entries decides what a step may publish: a step that
    keeps the connections keeps [ex_guard]. *)
Lemma ext_same_conns sv sv' : inv sv -> sv_conns sv' = sv_conns sv ->
  (forall h i, ident sv h = Some i -> ident sv' h = Some i) ->
  (forall f b, sv_flags sv !! f = Some b -> exists b', sv_flags sv' !! f = Some b' /\ (b = true -> b' = true)) -> ext sv sv'.
Proof.
  intros Hi Hc HI Hf. split.
  - done.
  - intros c cn E. exists cn. by rewrite Hc.
  - intros f E. destruct (Hf _ _ E) as (b' & E' & Hb). rewrite E'. by rewrite Hb.
  - intros f [b E]. destruct (Hf _ _ E) as (b' & E' & _). by rewrite E'.
  - intros f c s h _ (cn & e & E & Es & <-) (c' & s' & Hg). rewrite Hc in E. split; [by exists cn, e|].
    destruct (to_entry _ _ _ (co_table _ _ _ _ (iv_conns _ Hi _ _ E)) _ _ _ (shard_idx_lt s) Es) as (_ & _ & _ & g & HI1).
    pose proof (HI _ _ HI1) as HI2. exists c, s. congruence.
Qed.

(** Steps that leave the connections alone. *)
Lemma moves_quiet sv sv' : inv sv -> sv_conns sv' = sv_conns sv -> heap_le (sv_heap sv) (sv_heap sv') ->
  (forall h i, ident sv h = Some i -> ident sv' h = Some i) ->
  (forall f b, sv_flags sv !! f = Some b -> exists b', sv_flags sv' !! f = Some b' /\ (b = true -> b' = true)) ->
  (forall th t, sv_threads sv' !! th = Some t -> thread_ok (ident sv') t) ->
  0 <= sv_permits sv' -> is_u64 (sv_holders sv') -> Forall (fun p => send_ok p.2) (sv_sent sv') ->
  moves (sv_permits sv' - sv_permits sv) (sv_holders sv' - sv_holders sv) sv sv'.
Proof.
  intros Hi Hc Hh HI Hf Ht Hp Hhd Hs. split.
  - split; try done. intros c cn E. rewrite Hc in E. eapply conn_ok_mono; [exact HI | exact Hh | by apply Hi].
  - by apply ext_same_conns.
  - unfold budget, entries_total. rewrite Hc. lia.
  - unfold surplus, counted_total. rewrite Hc. f_equal. lia.
Qed.

(** Steps on one connection. *)
Lemma moves_conn sv sv' c cn cn' : inv sv -> sv_conns sv !! c = Some cn -> sv_conns sv' = <[c := cn']> (sv_conns sv) ->
  (forall h, ident sv' h = ident sv h) -> heap_le (sv_heap sv) (sv_heap sv') -> sv_flags sv' = sv_flags sv ->
  sv_threads sv' = sv_threads sv -> 0 <= sv_permits sv' -> sv_holders sv' = sv_holders sv -> sv_sent sv' = sv_sent sv ->
  conn_ok (ident sv') (sv_heap sv') c cn' ->
  st_filter (cn_table cn') = st_filter (cn_table cn) -> (cn_closed cn = true -> cn_closed cn' = true) ->
  (forall s e, entry_of (cn_table cn') s = Some e ->
     (exists e0, entry_of (cn_table cn) s = Some e0 /\ se_h e0 = se_h e) \/
     (forall f, guarded_by sv (se_h e) f -> sv_flags sv !! f <> Some true)) ->
  moves (sv_permits sv' - sv_permits sv + table_len (cn_table cn') - table_len (cn_table cn))
    (Z.b2z (st_counted (cn_table cn)) - Z.b2z (st_counted (cn_table cn'))) sv sv'.
Proof.
  intros Hi E Hc HI Hle Hf Hth Hp Hh Hs Hok Hfil Hcl Hnew. split.
  - split; [|rewrite Hth|done|rewrite Hh; by apply Hi|rewrite Hs; by apply Hi].
    + intros c' cn0. rewrite Hc. intros [[<- <-]|[Hne E']]%lookup_insert_Some; [done|].
      eapply (conn_ok_mono (ident sv)); [intros h i; by rewrite HI | exact Hle | by apply Hi].
    + intros th t Et. eapply (thread_ok_mono (ident sv)); [intros h i; by rewrite HI | by eapply Hi].
  - split.
    + intros h i. by rewrite HI.
    + intros c' cn0 E'. rewrite Hc. destruct (decide (c' = c)) as [->|Hne].
      * simplify_eq. exists cn'. by rewrite lookup_insert_eq.
      * exists cn0. by rewrite lookup_insert_ne.
    + intros f. by rewrite Hf.
    + intros f. by rewrite Hf.
    + intros f c' s h Hset (cn0 & e & E' & Es & <-) Hg. assert (Hg0 : guarded_by sv (se_h e) f) by (destruct Hg as (? & ? & Hg); rewrite HI in Hg; by do 2 eexists).
      split; [|done]. rewrite Hc in E'. apply lookup_insert_Some in E' as [[<- <-]|[Hne E']]; [|by exists cn0, e].
      destruct (Hnew _ _ Es) as [(e0 & Es0 & Eh)|Hno]; [by exists cn, e0|]. by destruct (Hno _ Hg0).
  - unfold budget, entries_total. rewrite Hc, (gsum_replace _ _ _ _ _ E). lia.
  - unfold surplus, counted_total. rewrite Hc, Hh, (gsum_replace _ _ _ _ _ E). f_equal. lia.
Qed.

Lemma upd_conn_conns sv c cn f : sv_conns sv !! c = Some cn -> sv_conns (upd_conn c f sv) = <[c := f cn]> (sv_conns sv).
Proof.
  intros E. cbn. apply map_eq. intros k. destruct (decide (k = c)) as [->|Hne].
  - by rewrite lookup_alter_eq, E, lookup_insert_eq.
  - by rewrite lookup_alter_ne, lookup_insert_ne.
Qed.

Lemma conn_of_eq sv c cn : sv_conns sv !! c = Some cn -> conn_of sv c = cn.
Proof. intros E. unfold conn_of. by rewrite (lookup_total_correct _ _ _ E). Qed.

End Inv.
