(* ===== verification/SessAtoms.v ===== *)
(** Each atomic step of the session tasks keeps the invariant and moves the two
    balances by a known amount. *)
From stdpp Require Import fin_maps.
From S2P Require Import Prelude Addr DnsKey DnsPolicy DnsMemo DnsAnswer Wire Binding Flow FlowRun Pin DnsGate Sess SessTask SessInv.

(* ------------------------------------------------------------------ *)
(** ** Purging a registry *)

Lemma registered_fun h r s s' id : registered h r s id -> registered h r s' id -> s = s'.
Proof. intros (l & b & ? & ? & <-) (l' & b' & ? & ? & <-). congruence. Qed.

Lemma remove_session_registered s h r n h' r' : reg_inv h r -> remove_session s h r = (n, h', r') ->
  reg_inv h' r' /\ heap_le h h' /\ forall s' id, registered h' r' s' id -> registered h r s' id /\ s' <> s.
Proof.
  intros Hr E. destruct (remove_session_spec s h r Hr) as (n1 & h1 & r1 & ids & E1 & Hi & Hle & P & Hids).
  rewrite E1 in E. simplify_eq. split_and!; [done..|]. intros s' id Hreg.
  pose proof (take_index_core s h r _ _ (ri_core _ _ Hr) eq_refl) as Hc. cbn [fst snd] in Hc.
  apply (purged_registered _ _ _ _ _ _ s' id Hc P) in Hreg as [Hreg Hn]. change (registered h r s' id) in Hreg.
  split; [done|]. intros ->. by apply Hn, Hids.
Qed.

Lemma remove_sessions_registered ss : forall h r n h' r', reg_inv h r -> remove_sessions ss h r = (n, h', r') ->
  reg_inv h' r' /\ heap_le h h' /\ forall s id, registered h' r' s id -> registered h r s id /\ s ∉ ss.
Proof.
  intros h r n h' r' Hr E. rewrite remove_sessions_each_eq in E. revert h r n h' r' Hr E.
  induction ss as [|s ss IH]; intros h r n h' r' Hr E; cbn [remove_each] in E.
  - simplify_eq. split_and!; [done|reflexivity|]. intros s id Hs. split; [done|]. apply not_elem_of_nil.
  - destruct (remove_session s h r) as [[n1 h1] r1] eqn:E1. destruct (remove_each ss h1 r1) as [[n2 h2] r2] eqn:E2. simplify_eq.
    destruct (remove_session_registered _ _ _ _ _ _ Hr E1) as (Hr1 & Hle1 & H1).
    destruct (IH _ _ _ _ _ Hr1 E2) as (Hr2 & Hle2 & H2). split_and!; [done|by etrans|].
    intros s' id Hs. destruct (H2 _ _ Hs) as [Hs1 Hn]. destruct (H1 _ _ Hs1). split; [done|]. apply not_elem_of_cons. done.
Qed.

(* ------------------------------------------------------------------ *)
(** ** Evictions *)

(** [out] is what went from [m] to [m']. *)
Record evicts (m m' : SessMap) (out : list SessEntry) : Prop := mkEvicts {
  ev_sub : m' ⊆ m;
  ev_len : len out = msize m - msize m';
  ev_gone s e : m !! s = Some e -> m' !! s = None -> e ∈ out;
  ev_was e : e ∈ out -> exists s, m !! s = Some e /\ m' !! s = None
}.

Lemma evicts_nil m : evicts m m [].
Proof. split; [done | by rewrite len_nil, Z.sub_diag | congruence | intros e ?%elem_of_nil; done]. Qed.

Lemma msize_delete {A} (m : gmap Z A) k x : m !! k = Some x -> msize (delete k m) = msize m - 1.
Proof. intros E. unfold msize. rewrite map_size_delete_Some by done. assert (size m <> 0%nat) by (intros Hz%map_size_empty_inv; subst; by rewrite lookup_empty in E). lia. Qed.

Lemma msize_insert {A} (m : gmap Z A) k x : m !! k = None -> msize (<[k := x]> m) = msize m + 1.
Proof. intros E. unfold msize. rewrite map_size_insert_None by done. lia. Qed.

Lemma evicts_cons m m' out s e : m !! s = Some e -> evicts (delete s m) m' out -> evicts m m' (e :: out).
Proof.
  intros Hs [H1 H2 H3 H4]. split.
  - etrans; [exact H1 | apply delete_subseteq].
  - rewrite len_cons, H2, (msize_delete m s e) by done. lia.
  - intros s' e' Hs' Hn. destruct (decide (s' = s)) as [->|Hne]; [simplify_eq; apply elem_of_cons; by left|].
    apply elem_of_cons. right. apply (H3 s'); [by rewrite lookup_delete_ne | done].
  - intros e' [->|He]%elem_of_cons.
    + exists s. split; [done|]. destruct (m' !! s) eqn:E; [|done]. eapply lookup_weaken in E; [|exact H1]. by rewrite lookup_delete_eq in E.
    + destruct (H4 _ He) as (s' & Hs' & Hn). exists s'. split; [|done]. by apply lookup_delete_Some in Hs' as [_ ?].
Qed.

Lemma evicts_delete m s e : m !! s = Some e -> evicts m (delete s m) [e].
Proof. intros Hs. eapply evicts_cons; [done | apply evicts_nil]. Qed.

(** A sweep takes entries that are idle at its [now], and no other. *)
Lemma take_idle_spec sv keys now : forall w w' out, take_idle sv w keys now = (w', out) ->
  evicts w w' out /\ Forall (fun e => is_idle sv now e = true) out /\
  (forall s e, w !! s = Some e -> s ∈ keys -> is_idle sv now e = true -> w' !! s = None).
Proof.
  induction keys as [|k keys IH]; intros w w' out E; cbn [take_idle] in E.
  - simplify_eq. split_and!; [apply evicts_nil | done | intros s e _ ?%elem_of_nil; done].
  - destruct (w !! k) as [e|] eqn:Ek.
    + destruct (is_idle sv now e) eqn:Ei.
      * destruct (take_idle sv (delete k w) keys now) as [w1 out1] eqn:E1. simplify_eq.
        destruct (IH _ _ _ E1) as (He & Hf & Hk). split_and!; [by eapply evicts_cons | by constructor |].
        intros s e' Hs [->|Hin]%elem_of_cons Hi.
        -- destruct (w' !! k) eqn:Ew; [|done]. eapply lookup_weaken in Ew; [|apply He]. by rewrite lookup_delete_eq in Ew.
        -- destruct (decide (s = k)) as [->|Hne].
           ++ destruct (w' !! k) eqn:Ew; [|done]. eapply lookup_weaken in Ew; [|apply He]. by rewrite lookup_delete_eq in Ew.
           ++ eapply Hk; [by rewrite lookup_delete_ne | done | done].
      * destruct (IH _ _ _ E) as (He & Hf & Hk). split_and!; [done..|]. intros s e' Hs [->|Hin]%elem_of_cons Hi; [congruence | eauto].
    + destruct (IH _ _ _ E) as (He & Hf & Hk). split_and!; [done..|]. intros s e' Hs [->|Hin]%elem_of_cons Hi; [congruence | eauto].
Qed.

(* ------------------------------------------------------------------ *)
(** ** One table *)

Lemma entry_shards t t' s : st_shards t' = st_shards t -> entry_of t' s = entry_of t s.
Proof. intros E. unfold entry_of, shard. by rewrite E. Qed.

Section Table.
Context (I : Z -> option Ident) (c : Z) (t : SessTable) (Ht : table_ok I c t).

Lemma live_remove_set i m n : (i < Z.to_nat SESS_SHARDS)%nat -> n = msize (shard t i) - msize m -> 0 <= n ->
  let t' := note_live_remove n (set_shard i m t) in
  st_live t' = table_len t' /\ st_shards t' = st_shards (set_shard i m t) /\ st_filter t' = st_filter t /\ st_counted t' = st_counted t.
Proof.
  intros Hi -> Hn t'. destruct (table_len_set t (to_len _ _ _ Ht) i m Hi) as [E1 E2]. pose proof (to_live _ _ _ Ht) as Hl.
  subst t'. unfold note_live_remove. destruct (negb (_ =? 0)) eqn:E; cbn [st_live st_shards st_filter st_counted with_live set_shard with_shards].
  - split; [|done]. change (table_len (with_live _ _)) with (table_len (set_shard i m t)). rewrite E1, Hl.
    unfold saturating_sub. pose proof (msize_nonneg m). lia.
  - split; [|done]. apply negb_false_iff, Z.eqb_eq in E. change (st_live t = table_len (set_shard i m t)). lia.
Qed.

Lemma shards_ok t' i m : (i < Z.to_nat SESS_SHARDS)%nat -> st_shards t' = st_shards (set_shard i m t) ->
  st_live t' = table_len t' ->
  (forall s e, m !! s = Some e -> i = shard_idx s /\ s <> 0 /\ se_sess e = s /\ exists g, I (se_h e) = Some (c, s, g)) ->
  table_ok I c t'.
Proof.
  intros Hi Es Hl Hm. split; [|intros j s e Hj Hs|done].
  - rewrite Es. cbn. rewrite length_insert. apply Ht.
  - assert (Hsh : shard t' j = shard (set_shard i m t) j) by (unfold shard; by rewrite Es).
    rewrite Hsh, shard_set in Hs by (done || apply Ht). case_decide as E; [subst; by apply Hm | by apply Ht].
Qed.

Lemma sub_entries i m : (i < Z.to_nat SESS_SHARDS)%nat -> m ⊆ shard t i -> forall s e, m !! s = Some e ->
  i = shard_idx s /\ s <> 0 /\ se_sess e = s /\ exists g, I (se_h e) = Some (c, s, g).
Proof. intros Hi Hsub s e Hs. eapply to_entry; [exact Ht | done | by eapply lookup_weaken]. Qed.

(** An eviction keeps a table good. *)
Lemma evict_table i m out : (i < Z.to_nat SESS_SHARDS)%nat -> evicts (shard t i) m out ->
  let t' := note_live_remove (len out) (set_shard i m t) in
  table_ok I c t' /\ table_len t' = table_len t - len out /\ st_filter t' = st_filter t /\ st_counted t' = st_counted t /\
  (forall s, entry_of t' s = if decide (i = shard_idx s) then m !! s else entry_of t s).
Proof.
  intros Hi He t'. subst t'. destruct (live_remove_set i m (len out) Hi (ev_len _ _ _ He) (len_nonneg _)) as (H1 & H2 & H3 & H4).
  split_and!; [|..|done|done|].
  - eapply shards_ok; [exact Hi | done | done |]. apply sub_entries; [done | apply He].
  - trans (table_len (set_shard i m t)); [unfold table_len; by rewrite H2|].
    destruct (table_len_set t (to_len _ _ _ Ht) i m Hi). pose proof (ev_len _ _ _ He). lia.
  - intros s. unfold entry_of at 1, shard. rewrite H2. fold (shard (set_shard i m t) (shard_idx s)).
    rewrite shard_set by (done || apply Ht). by case_decide.
Qed.

End Table.

(* ------------------------------------------------------------------ *)
(** ** Steps that leave the connections alone *)

Section Quiet.
Context `{IpNet} (allow_private : bool).

Notation inv := (inv allow_private).
Notation moves := (moves allow_private).

Lemma ident_upd sv h f : (forall x, ss_conn (f x) = ss_conn x /\ ss_sess (f x) = ss_sess x /\ ss_guard (f x) = ss_guard x) ->
  forall h', ident (upd_sess h f sv) h' = ident sv h'.
Proof.
  intros Hf h'. unfold ident, upd_sess. cbn [sv_sess set_sess]. destruct (decide (h' = h)) as [->|Hne].
  - rewrite lookup_alter_eq. destruct (sv_sess sv !! h) as [x|]; [|done]. cbn. destruct (Hf x) as (-> & -> & ->). done.
  - by rewrite lookup_alter_ne.
Qed.

Lemma flags_refl (m : gmap Z bool) f b : m !! f = Some b -> exists b', m !! f = Some b' /\ (b = true -> b' = true).
Proof. intros E. by exists b. Qed.

(** An update of one session that keeps who made it. *)
Lemma upd_sess_moves sv h f : inv sv ->
  (forall x, ss_conn (f x) = ss_conn x /\ ss_sess (f x) = ss_sess x /\ ss_guard (f x) = ss_guard x) ->
  moves 0 0 sv (upd_sess h f sv).
Proof.
  intros Hi Hf. pose proof (ident_upd sv h f Hf) as HI.
  replace 0 with (sv_permits (upd_sess h f sv) - sv_permits sv) at 1 by (cbn; lia).
  replace 0 with (sv_holders (upd_sess h f sv) - sv_holders sv) by (cbn; lia).
  apply moves_quiet; try done; [intros h' i; by rewrite HI | intros f' b; apply flags_refl | | apply Hi..].
  intros th t Et. apply (thread_ok_mono (ident sv)); [intros h' i; by rewrite HI | by eapply Hi].
Qed.

(** A change of the process's counters, the clock or the log. *)
Lemma env_moves sv sv' : inv sv -> sv_conns sv' = sv_conns sv -> sv_sess sv' = sv_sess sv -> sv_heap sv' = sv_heap sv ->
  sv_flags sv' = sv_flags sv -> sv_threads sv' = sv_threads sv -> 0 <= sv_permits sv' -> is_u64 (sv_holders sv') ->
  Forall (fun p => send_ok allow_private p.2) (sv_sent sv') ->
  moves (sv_permits sv' - sv_permits sv) (sv_holders sv' - sv_holders sv) sv sv'.
Proof.
  intros Hi Hc Hs Hh Hf Ht Hp Hho Hl. assert (HI : forall h, ident sv' h = ident sv h) by (intros; unfold ident; by rewrite Hs).
  apply moves_quiet; try done; [by rewrite Hh | intros h i; by rewrite HI | intros f b; rewrite Hf; apply flags_refl |].
  rewrite Ht. intros th t Et. apply (thread_ok_mono (ident sv)); [intros h i; by rewrite HI | by eapply Hi].
Qed.

Lemma heap_moves sv hp : inv sv -> heap_le (sv_heap sv) hp -> moves 0 0 sv (set_heap hp sv).
Proof.
  intros Hi Hle. replace 0 with (sv_permits (set_heap hp sv) - sv_permits sv) at 1 by (cbn; lia).
  replace 0 with (sv_holders (set_heap hp sv) - sv_holders sv) by (cbn; lia).
  apply moves_quiet; try done; [intros f b; apply flags_refl | by apply Hi..].
Qed.

Lemma flags_moves sv fl : inv sv -> (forall f b, sv_flags sv !! f = Some b -> exists b', fl !! f = Some b' /\ (b = true -> b' = true)) ->
  moves 0 0 sv (set_flags fl sv).
Proof.
  intros Hi Hf. replace 0 with (sv_permits (set_flags fl sv) - sv_permits sv) at 1 by (cbn; lia).
  replace 0 with (sv_holders (set_flags fl sv) - sv_holders sv) by (cbn; lia).
  apply moves_quiet; try done; by apply Hi.
Qed.

Lemma upd_thread_moves sv th f : inv sv -> (forall t, thread_ok (ident sv) t -> thread_ok (ident sv) (f t)) ->
  moves 0 0 sv (upd_thread th f sv).
Proof.
  intros Hi Hf. replace 0 with (sv_permits (upd_thread th f sv) - sv_permits sv) at 1 by (cbn; lia).
  replace 0 with (sv_holders (upd_thread th f sv) - sv_holders sv) by (cbn; lia).
  apply moves_quiet; try done; [intros f' b; apply flags_refl | | by apply Hi..].
  intros th' t. cbn. intros [[<- <-]|[_ Et]]%lookup_insert_Some; [|by eapply Hi].
  apply Hf. unfold thread_of. destruct (sv_threads sv !! th) as [t0|] eqn:E; cbn; [by eapply Hi|].
  split; [|apply policy_init_ok]. intros i x Hx. apply list_elem_of_lookup_2, list_elem_of_In, repeat_spec in Hx. done.
Qed.

Lemma set_memo_ok (I : Z -> option Ident) i c s h t : (exists g, I h = Some (c, s, g)) -> thread_ok I t ->
  thread_ok I (set_memo i (Some (mkSessMemo c s h)) t).
Proof.
  intros Hg [Hm Hp]. split; [|done]. intros j x Hx. cbn in Hx. apply list_lookup_insert_Some in Hx as [(_ & Ex & _)|[_ Hx]]; [by simplify_eq|by eapply Hm].
Qed.

Lemma clear_memo_ok (I : Z -> option Ident) i t : thread_ok I t -> thread_ok I (set_memo i None t).
Proof. intros [Hm Hp]. split; [|done]. intros j x Hx. cbn in Hx. apply list_lookup_insert_Some in Hx as [(_ & ? & _)|[_ Hx]]; [done|by eapply Hm]. Qed.

Lemma sess_memo_put_moves sv th c s h : inv sv -> (exists g, ident sv h = Some (c, s, g)) -> moves 0 0 sv (sess_memo_put th c s h sv).
Proof. intros Hi Hg. apply upd_thread_moves; [done|]. intros t. by apply set_memo_ok. Qed.

Lemma sess_memo_forget_moves sv th c s h : inv sv -> moves 0 0 sv (sess_memo_forget th c s h sv).
Proof.
  intros Hi. unfold sess_memo_forget. destruct (memo_slot _ _ _ _) as [x|]; [|by apply moves_refl].
  destruct (_ && _); [|by apply moves_refl]. apply upd_thread_moves; [done|]. intros t. apply clear_memo_ok.
Qed.

(** What a memo slot says of its session. *)
Lemma memo_slot_ident sv th c s x : inv sv -> memo_slot th c s sv = Some x -> exists g, ident sv (sm_h x) = Some (sm_conn x, sm_sess x, g).
Proof.
  intros Hi. unfold memo_slot, thread_of. destruct (sv_threads sv !! th) as [t|] eqn:E; cbn.
  - destruct (th_memo t !! _) as [o|] eqn:Eo; cbn; [|done]. intros ->. by eapply (iv_threads _ _ Hi).
  - destruct (repeat _ _ !! _) as [o|] eqn:Eo; cbn; [|done]. intros ->.
    apply list_elem_of_lookup_2, list_elem_of_In, repeat_spec in Eo. done.
Qed.

Lemma touch_due_moves sv th c s gate : inv sv -> moves 0 0 sv (touch_due th c s gate sv).2.
Proof.
  intros Hi. assert (Hp : moves 0 0 sv (upd_thread th (set_touch (touch_memo_idx c s) (Some (mkTouch c s gate))) sv)).
  { apply upd_thread_moves; [done|]. intros t [? ?]. by split. }
  unfold touch_due. repeat case_match; cbn [snd]; try done; by apply moves_refl.
Qed.

Lemma allowed_moves sv th dst : inv sv -> moves 0 0 sv (allowed th allow_private dst sv).2 /\
  ((allowed th allow_private dst sv).1 = true -> send_ok allow_private dst).
Proof.
  intros Hi. unfold allowed. assert (Hp : policy_ok (th_policy (thread_of sv th))).
  { unfold thread_of. destruct (sv_threads sv !! th) as [t|] eqn:E; cbn; [by apply (iv_threads _ _ Hi _ _ E) | apply policy_init_ok]. }
  destruct (fast_allow_spec (th_policy (thread_of sv th)) allow_private dst Hp) as [Hv Hc].
  destruct (fast_allow _ _ _) as [v pc]. cbn [fst snd] in *. split.
  - apply upd_thread_moves; [done|]. intros t [Hm _]. by split.
  - intros ->. symmetry in Hv. apply orb_true_iff in Hv as [->|?]; [by left | by right].
Qed.

Lemma mark_unreachable_moves sv th a : inv sv -> moves 0 0 sv (mark_unreachable th a sv).
Proof. intros Hi. apply upd_thread_moves; [done|]. intros t [? ?]. by split. Qed.

Lemma add_permits_moves sv n : inv sv -> 0 <= n -> moves n 0 sv (add_permits n sv).
Proof.
  intros Hi Hn. replace n with (sv_permits (add_permits n sv) - sv_permits sv) at 1 by (cbn; lia).
  replace 0 with (sv_holders (add_permits n sv) - sv_holders sv) by (cbn; lia).
  apply env_moves; try done; try by apply Hi. cbn. pose proof (iv_permits _ _ Hi). lia.
Qed.

Lemma try_acquire_moves sv : inv sv -> moves (if (try_acquire sv).1 then -1 else 0) 0 sv (try_acquire sv).2.
Proof.
  intros Hi. unfold try_acquire. destruct (0 <? sv_permits sv) eqn:E; cbn [fst snd]; [|by apply moves_refl]. zbool.
  set (sv' := set_permits _ _). replace (-1) with (sv_permits sv' - sv_permits sv) at 1 by (cbn; lia).
  replace 0 with (sv_holders sv' - sv_holders sv) by (cbn; lia). apply env_moves; try done; try by apply Hi. cbn. lia.
Qed.

Lemma sweep_last_moves sv v : inv sv -> moves 0 0 sv (set_sweep_last v sv).
Proof.
  intros Hi. replace 0 with (sv_permits (set_sweep_last v sv) - sv_permits sv) at 1 by (cbn; lia).
  replace 0 with (sv_holders (set_sweep_last v sv) - sv_holders sv) by (cbn; lia). apply env_moves; try done; by apply Hi.
Qed.

Lemma send_to_moves sv h dst r : inv sv -> send_ok allow_private dst -> moves 0 0 sv (send_to h dst r sv).2.
Proof.
  intros Hi Hd. cbn [send_to snd]. set (sv' := log_sent h dst sv). replace 0 with (sv_permits sv' - sv_permits sv) at 1 by (cbn; lia).
  replace 0 with (sv_holders sv' - sv_holders sv) by (cbn; lia). apply env_moves; try done; try by apply Hi.
  cbn. constructor; [done|by apply Hi].
Qed.

Lemma holders_add_moves sv d : inv sv -> moves 0 d sv (holders_add d sv).
Proof.
  intros Hi. assert (Hm : moves 0 (sv_holders (holders_add d sv) - sv_holders sv) sv (holders_add d sv)).
  { replace 0 with (sv_permits (holders_add d sv) - sv_permits sv) at 1 by (cbn; lia).
    apply env_moves; try done; try by apply Hi. apply as_u64_u64. }
  destruct Hm as [H1 H2 H3 H4]. split; [done..|]. unfold surplus, holders_add. cbn [sv_holders set_holders].
  change (counted_total (set_holders _ sv)) with (counted_total sv). unfold as_u64.
  rewrite Zminus_mod_idemp_l. f_equal. lia.
Qed.

Lemma new_session_moves sv c s guard : inv sv -> let r := new_session c s guard sv in
  moves 0 0 sv r.2 /\ ident r.2 r.1 = Some (c, s, guard).
Proof.
  intros Hi. cbn [new_session fst snd]. set (h := fresh_key (sv_sess sv)). set (x := mkSession _ _ _ _ _ _ _ _ _ _).
  set (sv' := set_sess _ sv). assert (Hh : sv_sess sv !! h = None) by apply not_elem_of_dom, is_fresh.
  assert (HI : forall h' i, ident sv h' = Some i -> ident sv' h' = Some i).
  { intros h' i. unfold ident. cbn. destruct (decide (h' = h)) as [->|Hne]; [by rewrite Hh|]. by rewrite lookup_insert_ne. }
  split; [|unfold ident; cbn; by rewrite lookup_insert_eq].
  replace 0 with (sv_permits sv' - sv_permits sv) at 1 by (cbn; lia). replace 0 with (sv_holders sv' - sv_holders sv) by (cbn; lia).
  apply moves_quiet; try done; [intros f b; apply flags_refl | | by apply Hi..].
  intros th t Et. apply (thread_ok_mono (ident sv)); [exact HI | by eapply Hi].
Qed.

End Quiet.

(* ------------------------------------------------------------------ *)
(** ** Steps on one connection *)

Section OnConn.
Context `{IpNet} (allow_private : bool).

Notation inv := (inv allow_private).
Notation moves := (moves allow_private).

Lemma upd_conn_none sv c f : sv_conns sv !! c = None -> upd_conn c f sv = sv.
Proof.
  intros E. unfold upd_conn, set_conns. destruct sv as [conns]. cbn in *. f_equal. apply map_eq. intros k.
  destruct (decide (k = c)) as [->|Hne]; [by rewrite lookup_alter_eq, E | by rewrite lookup_alter_ne].
Qed.

Lemma table_ok_same I c t t' : table_ok I c t -> st_shards t' = st_shards t -> st_live t' = st_live t -> table_ok I c t'.
Proof.
  intros [H1 H2 H3] Es El. split; [by rewrite Es| |rewrite El, H3; unfold table_len; by rewrite Es].
  intros i s e Hi. unfold shard. rewrite Es. by apply H2.
Qed.

(** Everything but the entries, [live] and the registry. *)
Lemma conn_aux_moves sv c cn f : inv sv -> sv_conns sv !! c = Some cn ->
  let cn' := f cn in
  st_shards (cn_table cn') = st_shards (cn_table cn) -> st_live (cn_table cn') = st_live (cn_table cn) ->
  st_filter (cn_table cn') = st_filter (cn_table cn) -> cn_reg cn' = cn_reg cn -> (cn_closed cn = true -> cn_closed cn' = true) ->
  moves 0 (Z.b2z (st_counted (cn_table cn)) - Z.b2z (st_counted (cn_table cn'))) sv (upd_conn c f sv).
Proof.
  intros Hi E cn' Es El Ef Er Hcl. pose proof (iv_conns _ _ Hi _ _ E) as [Ht Hr Hb].
  assert (Hen : forall s, entry_of (cn_table cn') s = entry_of (cn_table cn) s) by (intros s; unfold entry_of, shard; by rewrite Es).
  replace 0 with (sv_permits (upd_conn c f sv) - sv_permits sv + table_len (cn_table cn') - table_len (cn_table cn))
    by (cbn; unfold table_len; rewrite Es; lia).
  eapply moves_conn; try done; [by apply upd_conn_conns | by apply Hi | | intros s e Hs; left; exists e; by rewrite <- Hen].
  split; [by eapply table_ok_same | by rewrite Er |]. intros Hf Hc s id. rewrite Er, Hen. apply Hb; [by rewrite <- Ef|].
  destruct (cn_closed cn); [|done]. by rewrite Hcl in Hc.
Qed.

Lemma conn_quiet_moves sv c f : inv sv ->
  (forall cn, cn_table (f cn) = cn_table cn /\ cn_reg (f cn) = cn_reg cn /\ (cn_closed cn = true -> cn_closed (f cn) = true)) ->
  moves 0 0 sv (upd_conn c f sv).
Proof.
  intros Hi Hf. destruct (sv_conns sv !! c) as [cn|] eqn:E; [|rewrite upd_conn_none by done; by apply moves_refl].
  destruct (Hf cn) as (Et & Er & Hc).
  replace 0 with (Z.b2z (st_counted (cn_table cn)) - Z.b2z (st_counted (cn_table (f cn)))) at 2 by (rewrite Et; lia).
  apply conn_aux_moves; try done; by rewrite Et.
Qed.

Lemma table_quiet_moves sv c f : inv sv ->
  (forall t, st_shards (f t) = st_shards t /\ st_live (f t) = st_live t /\ st_filter (f t) = st_filter t /\ st_counted (f t) = st_counted t) ->
  moves 0 0 sv (upd_table c f sv).
Proof.
  intros Hi Hf. unfold upd_table. destruct (sv_conns sv !! c) as [cn|] eqn:E; [|rewrite upd_conn_none by done; by apply moves_refl].
  destruct (Hf (cn_table cn)) as (E1 & E2 & E3 & E4).
  replace 0 with (Z.b2z (st_counted (cn_table cn)) - Z.b2z (st_counted (f (cn_table cn)))) at 2 by (rewrite E4; lia).
  by apply (conn_aux_moves sv c cn (fun cn => with_table (f (cn_table cn)) cn)).
Qed.

Lemma swap_counted_moves sv c v : inv sv -> is_Some (sv_conns sv !! c) ->
  moves 0 (Z.b2z (swap_counted c v sv).1 - Z.b2z v) sv (swap_counted c v sv).2.
Proof.
  intros Hi [cn E]. unfold swap_counted. cbn [fst snd]. unfold table_of. rewrite (conn_of_eq _ _ _ E).
  by apply (conn_aux_moves sv c cn (fun cn => with_table (with_counted v (cn_table cn)) cn)).
Qed.

(** A change of one shard that only takes entries out, with the purge of the
    registry that goes with it. *)
Lemma evict_moves sv sv' c cn t' reg' i m out : inv sv -> sv_conns sv !! c = Some cn ->
  (i < Z.to_nat SESS_SHARDS)%nat -> evicts (shard (cn_table cn) i) m out ->
  st_shards t' = st_shards (set_shard i m (cn_table cn)) -> st_live t' = table_len t' ->
  st_filter t' = st_filter (cn_table cn) -> st_counted t' = st_counted (cn_table cn) ->
  reg_inv (sv_heap sv') reg' -> heap_le (sv_heap sv) (sv_heap sv') ->
  (cn_closed cn = false -> forall s id, registered (sv_heap sv') reg' s id -> registered (sv_heap sv) (cn_reg cn) s id /\ s ∉ se_sess <$> out) ->
  sv_conns sv' = <[c := with_reg reg' (with_table t' cn)]> (sv_conns sv) ->
  (forall h, ident sv' h = ident sv h) -> sv_flags sv' = sv_flags sv -> sv_threads sv' = sv_threads sv ->
  0 <= sv_permits sv' -> sv_holders sv' = sv_holders sv -> sv_sent sv' = sv_sent sv ->
  moves (sv_permits sv' - sv_permits sv - len out) 0 sv sv'.
Proof.
  intros Hi E Hlt He Es El Ef Ect Hr Hle Hreg Hc HI Hfl Hth Hp Hh Hs. pose proof (iv_conns _ _ Hi _ _ E) as [Ht Hr0 Hb].
  assert (Hlen : table_len t' = table_len (cn_table cn) - len out).
  { trans (table_len (set_shard i m (cn_table cn))); [unfold table_len; by rewrite Es|].
    destruct (table_len_set _ (to_len _ _ _ Ht) i m Hlt). pose proof (ev_len _ _ _ He). lia. }
  assert (Hen : forall s, entry_of t' s = if decide (i = shard_idx s) then m !! s else entry_of (cn_table cn) s).
  { intros s. trans (entry_of (set_shard i m (cn_table cn)) s); [unfold entry_of, shard; by rewrite Es|].
    apply entry_set; [apply Ht | done]. }
  replace (sv_permits sv' - sv_permits sv - len out) with
    (sv_permits sv' - sv_permits sv + table_len (cn_table (with_reg reg' (with_table t' cn))) - table_len (cn_table cn)) by (cbn; lia).
  replace 0 with (Z.b2z (st_counted (cn_table cn)) - Z.b2z (st_counted (cn_table (with_reg reg' (with_table t' cn))))) by (cbn; rewrite Ect; lia).
  eapply moves_conn; try done.
  - split; [|done|].
    + apply (table_ok_mono (ident sv)); [intros h j; by rewrite HI|]. eapply shards_ok; [exact Ht | exact Hlt | done | done |].
      eapply sub_entries; [exact Ht | done | apply He].
    + cbn. intros Hf Hcl s id Hs'. destruct (Hreg Hcl _ _ Hs') as [Hs0 Hn].
      destruct (Hb (eq_trans (eq_sym Ef) Hf) Hcl _ _ Hs0) as [e Ee]. cbn [cn_table with_reg with_table]. rewrite Hen. case_decide as Ei; [|by exists e].
      destruct (m !! s) as [e'|] eqn:Em; [by exists e'|]. subst i. pose proof (ev_gone _ _ _ He _ _ Ee Em) as Hout.
      destruct (to_entry _ _ _ Ht _ _ _ Hlt Ee) as (_ & _ & Hse & _). destruct Hn. apply list_elem_of_fmap. by exists e.
  - intros s e He'. cbn in He'. rewrite Hen in He'. left. exists e. split; [|done]. case_decide as Ei; [|done].
    subst i. unfold entry_of. eapply lookup_weaken; [exact He' | apply He].
Qed.

End OnConn.

(* ------------------------------------------------------------------ *)
(** ** Critical sections *)

Section Sections.
Context `{HashIter} `{IpNet} (allow_private : bool).

Notation inv := (inv allow_private).
Notation moves := (moves allow_private).

Lemma upd_conn_eq sv c cn f : sv_conns sv !! c = Some cn -> upd_conn c f sv = set_conns (<[c := f cn]> (sv_conns sv)) sv.
Proof. intros E. unfold upd_conn. f_equal. exact (upd_conn_conns sv c cn f E). Qed.

Lemma upd_table_eq sv c cn f : sv_conns sv !! c = Some cn ->
  upd_table c f sv = set_conns (<[c := with_table (f (cn_table cn)) cn]> (sv_conns sv)) sv.
Proof. exact (upd_conn_eq sv c cn (fun cn => with_table (f (cn_table cn)) cn)). Qed.

(** The state after a table update and a purge. *)
Definition placed (c : Z) (cn : Conn) (t : SessTable) (reg : FlowRegistry) (hp : Heap) (sv : Server) : Server :=
  set_conns (<[c := with_reg reg (with_table t cn)]> (sv_conns sv)) (set_heap hp sv).

Lemma purge_sessions_placed sv c cn t ids n hp reg :
  remove_sessions ids (sv_heap sv) (cn_reg cn) = (n, hp, reg) ->
  purge_sessions c ids (set_conns (<[c := with_table t cn]> (sv_conns sv)) sv) = placed c cn t reg hp sv.
Proof.
  intros Er. unfold purge_sessions, conn_of. cbn [sv_conns set_conns sv_heap]. rewrite lookup_total_insert_eq. cbn [cn_reg with_table].
  rewrite Er. rewrite (upd_conn_eq _ c (with_table t cn)) by (cbn; apply lookup_insert_eq).
  unfold placed. cbn. by rewrite insert_insert_eq.
Qed.

Lemma purge_session_placed sv c cn t s n hp reg :
  remove_session s (sv_heap sv) (cn_reg cn) = (n, hp, reg) ->
  purge_session c s (set_conns (<[c := with_table t cn]> (sv_conns sv)) sv) = placed c cn t reg hp sv.
Proof.
  intros Er. unfold purge_session, conn_of. cbn [sv_conns set_conns sv_heap]. rewrite lookup_total_insert_eq. cbn [cn_reg with_table].
  rewrite Er. rewrite (upd_conn_eq _ c (with_table t cn)) by (cbn; apply lookup_insert_eq).
  unfold placed. cbn. by rewrite insert_insert_eq.
Qed.

(** The purge of exactly what was evicted, or of one session that is not in
    the table any more. *)
Lemma placed_moves sv c cn t reg hp i m out : inv sv -> sv_conns sv !! c = Some cn -> (i < Z.to_nat SESS_SHARDS)%nat ->
  evicts (shard (cn_table cn) i) m out ->
  st_shards t = st_shards (set_shard i m (cn_table cn)) -> st_live t = table_len t ->
  st_filter t = st_filter (cn_table cn) -> st_counted t = st_counted (cn_table cn) ->
  (exists n, remove_sessions (se_sess <$> out) (sv_heap sv) (cn_reg cn) = (n, hp, reg)) ->
  moves (- len out) 0 sv (placed c cn t reg hp sv).
Proof.
  intros Hi E Hlt He Es El Ef Ec [n Er]. pose proof (iv_conns _ _ Hi _ _ E) as [Ht Hr Hb].
  destruct (remove_sessions_registered _ _ _ _ _ _ Hr Er) as (Hr' & Hle & Hreg).
  replace (- len out) with (sv_permits (placed c cn t reg hp sv) - sv_permits sv - len out) by (cbn; lia).
  eapply evict_moves; try done. apply Hi.
Qed.

(** What a chunk of a sweep leaves. *)
Lemma sweep_chunk_placed sv c cn i now chunk m out n hp reg : sv_conns sv !! c = Some cn ->
  take_idle sv (shard (cn_table cn) i) chunk now = (m, out) ->
  remove_sessions (se_sess <$> out) (sv_heap sv) (cn_reg cn) = (n, hp, reg) ->
  sweep_chunk c i now chunk sv = (out, placed c cn (note_live_remove (len out) (set_shard i m (cn_table cn))) reg hp sv).
Proof.
  intros E Et Er. unfold sweep_chunk, table_of. rewrite (conn_of_eq _ _ _ E), Et. f_equal. rewrite (upd_table_eq _ _ _ _ E).
  unfold purge_reaped. destruct out as [|e out]; [|by rewrite (purge_sessions_placed _ _ _ _ _ _ _ _ Er)].
  unfold remove_sessions in Er. rewrite bool_decide_eq_true_2 in Er by done. simplify_eq. by destruct sv, cn.
Qed.

Lemma sweep_chunk_moves sv c i now chunk : inv sv -> is_Some (sv_conns sv !! c) -> (i < Z.to_nat SESS_SHARDS)%nat ->
  moves (- len (sweep_chunk c i now chunk sv).1) 0 sv (sweep_chunk c i now chunk sv).2.
Proof.
  intros Hi [cn E] Hlt. destruct (take_idle sv (shard (cn_table cn) i) chunk now) as [m out] eqn:Et.
  destruct (remove_sessions (se_sess <$> out) (sv_heap sv) (cn_reg cn)) as [[n hp] reg] eqn:Er.
  rewrite (sweep_chunk_placed _ _ _ _ _ _ _ _ _ _ _ E Et Er). apply take_idle_spec in Et as (He & _ & _). cbn [fst snd].
  pose proof (iv_conns _ _ Hi _ _ E) as [Ht Hr Hb].
  destruct (live_remove_set _ _ _ Ht i m (len out) Hlt (ev_len _ _ _ He) (len_nonneg _)) as (H1 & H2 & H3 & H4).
  eapply placed_moves; eauto.
Qed.

Lemma close_section_moves sv c s : inv sv -> is_Some (sv_conns sv !! c) ->
  let r := close_section c s sv in
  moves (match r.1 with Some _ => -1 | None => 0 end) 0 sv r.2 /\ (forall h, ~ has r.2 c s h) /\
  (forall e, r.1 = Some e -> exists g, ident sv (se_h e) = Some (c, s, g)).
Proof.
  intros Hi [cn E] r. subst r. unfold close_section, table_of. rewrite (conn_of_eq _ _ _ E). set (t := cn_table cn).
  pose proof (iv_conns _ _ Hi _ _ E) as [Ht Hr Hb]. fold t in Ht. cbn [fst snd]. pose proof (shard_idx_lt s) as Hlt.
  destruct (remove_session s (sv_heap sv) (cn_reg cn)) as [[n hp] reg] eqn:Er.
  assert (Er' : remove_sessions [s] (sv_heap sv) (cn_reg cn) = (n, hp, reg)).
  { rewrite remove_sessions_each_eq. cbn [remove_each]. rewrite Er. by rewrite Z.add_0_r. }
  destruct (entry_of t s) as [e|] eqn:Ee.
  - rewrite (upd_table_eq _ _ _ _ E). fold t. rewrite (purge_session_placed _ _ _ _ _ _ _ _ Er). unfold entry_of in Ee.
    assert (He := evicts_delete _ _ _ Ee). destruct (to_entry _ _ _ Ht _ _ _ Hlt Ee) as (_ & _ & Hse & g & Hg).
    destruct (live_remove_set _ _ _ Ht _ (delete s (shard t (shard_idx s))) 1 Hlt) as (H1 & H2 & H3 & H4);
      [rewrite (msize_delete _ _ _ Ee); lia | lia |].
    split; [|split].
    + change (-1) with (- len [e]). eapply placed_moves; try done. exists n. cbn. by rewrite Hse.
    + intros h (cn0 & e0 & E0 & Ee0 & _). unfold placed in E0. cbn [sv_conns set_conns set_heap] in E0. rewrite lookup_insert_eq in E0. injection E0 as <-. cbn [cn_table with_reg with_table] in Ee0.
      rewrite (entry_shards _ _ s H2), entry_set, decide_True, lookup_delete_eq in Ee0 by (done || apply Ht). done.
    + intros e0 [= <-]. by exists g.
  - assert (Hpl : purge_session c s sv = placed c cn t reg hp sv).
    { unfold purge_session. rewrite (conn_of_eq _ _ _ E), Er. rewrite (upd_conn_eq _ c cn) by done. unfold placed. cbn. by destruct cn. }
    rewrite Hpl. split; [|split; [|done]].
    + destruct (remove_session_registered _ _ _ _ _ _ Hr Er) as (Hr' & Hle & Hreg).
      replace 0 with (sv_permits (placed c cn t reg hp sv) - sv_permits sv - len (@nil SessEntry)) at 1 by (rewrite len_nil; unfold placed; cbn [sv_permits set_conns set_heap]; lia).
      eapply (evict_moves _ _ _ _ _ t reg (shard_idx s) (shard t (shard_idx s)) []); try done; [apply evicts_nil | | apply Ht | | by apply Hi].
      * cbn. rewrite list_insert_id; [done|]. apply shard_lookup; [apply Ht | done].
      * intros _ s' id Hs'. split; [by apply Hreg in Hs' as [? _] | apply not_elem_of_nil].
    + intros h (cn0 & e0 & E0 & Ee0 & _). unfold placed in E0. cbn [sv_conns set_conns set_heap] in E0. rewrite lookup_insert_eq in E0. injection E0 as <-. cbn in Ee0. congruence.
Qed.

Lemma drain_shard_moves sv c cn i : inv sv -> sv_conns sv !! c = Some cn -> cn_closed cn = true -> (i < Z.to_nat SESS_SHARDS)%nat ->
  moves (- len (drain_shard c i sv).1) 0 sv (drain_shard c i sv).2.
Proof.
  intros Hi E Hcl Hlt. unfold drain_shard, table_of. rewrite (conn_of_eq _ _ _ E). cbn [fst snd]. set (m := shard (cn_table cn) i).
  pose proof (iv_conns _ _ Hi _ _ E) as [Ht Hr Hb]. rewrite (upd_table_eq _ _ _ _ E). set (out := snd <$> hash_iter m).
  assert (Hlen : len out = msize m).
  { unfold out, len, msize. rewrite length_fmap, hash_iter_perm, length_map_to_list. done. }
  assert (He : evicts m ∅ out).
  { split; [apply map_empty_subseteq | rewrite Hlen; change (msize (∅ : SessMap)) with 0; lia | |].
    - intros s e Hs _. apply list_elem_of_fmap. exists (s, e). split; [done|]. rewrite hash_iter_perm. by apply elem_of_map_to_list.
    - intros e He. apply list_elem_of_fmap in He as ([s e'] & -> & He). rewrite hash_iter_perm in He. apply elem_of_map_to_list in He. by exists s. }
  destruct (live_remove_set _ _ _ Ht i ∅ (msize m) Hlt) as (H1 & H2 & H3 & H4); [change (msize (∅ : SessMap)) with 0; unfold m; lia | apply msize_nonneg |].
  set (t' := note_live_remove _ _) in *. set (sv' := set_conns _ _).
  replace (- len out) with (sv_permits sv' - sv_permits sv - len out) by (cbn; lia).
  eapply (evict_moves _ sv sv' c cn t' (cn_reg cn) i ∅ out); try done; [congruence | by apply Hi].
Qed.

(** The reader's exit section is the close section of its own session, and the
    entry is dropped at once. *)
Lemma exit_section_moves sv c s h : inv sv -> is_Some (sv_conns sv !! c) -> moves 0 0 sv (exit_section c s h sv).2.
Proof.
  intros Hi [cn E]. unfold exit_section, table_of. rewrite (conn_of_eq _ _ _ E). set (t := cn_table cn).
  destruct (entry_of t s) as [e|] eqn:Ee; [|by apply moves_refl]. destruct (se_h e =? h); [|by apply moves_refl]. cbn [snd].
  pose proof (iv_conns _ _ Hi _ _ E) as [Ht Hr Hb]. fold t in Ht. pose proof (shard_idx_lt s) as Hlt.
  destruct (remove_session s (sv_heap sv) (cn_reg cn)) as [[n hp] reg] eqn:Er.
  assert (Er' : remove_sessions [s] (sv_heap sv) (cn_reg cn) = (n, hp, reg)).
  { rewrite remove_sessions_each_eq. cbn [remove_each]. rewrite Er. by rewrite Z.add_0_r. }
  set (m := delete s (shard t (shard_idx s))).
  assert (Hs : upd_table c (note_live_remove 1) (purge_session c s (upd_table c (fun t => set_shard (shard_idx s) (delete s (shard t (shard_idx s))) t) sv))
    = placed c cn (note_live_remove 1 (set_shard (shard_idx s) m t)) reg hp sv).
  { rewrite (upd_table_eq _ _ _ _ E). fold t. rewrite (purge_session_placed _ _ _ _ _ _ _ _ Er). unfold placed at 1.
    erewrite upd_table_eq by apply lookup_insert_eq. unfold placed. cbn. by rewrite insert_insert_eq. }
  rewrite Hs. unfold entry_of in Ee. assert (He := evicts_delete _ _ _ Ee).
  destruct (to_entry _ _ _ Ht _ _ _ Hlt Ee) as (_ & _ & Hse & g & Hg).
  destruct (live_remove_set _ _ _ Ht _ m 1 Hlt) as (H1 & H2 & H3 & H4); [unfold m; rewrite (msize_delete _ _ _ Ee); lia | lia |].
  assert (Hm : moves (- len [e]) 0 sv (placed c cn (note_live_remove 1 (set_shard (shard_idx s) m t)) reg hp sv)).
  { eapply placed_moves; try done. exists n. cbn. by rewrite Hse. }
  eapply moves_seq; [exact Hm | apply (add_permits_moves _ _ 1); [apply Hm | lia] | done | done].
Qed.

Lemma evicts_app m m1 m2 o1 o2 : evicts m m1 o1 -> evicts m1 m2 o2 -> evicts m m2 (o1 ++ o2).
Proof.
  intros [A1 A2 A3 A4] [B1 B2 B3 B4]. split.
  - by etrans.
  - rewrite len_app. lia.
  - intros s e Hs Hn. apply elem_of_app. destruct (m1 !! s) as [e1|] eqn:E1; [|left; by eapply A3].
    right. apply (B3 s); [|done]. eapply lookup_weaken in E1 as E2; [|exact A1]. congruence.
  - intros e [He|He]%elem_of_app.
    + destruct (A4 _ He) as (s & Hs & Hn). exists s. split; [done|]. destruct (m2 !! s) eqn:E; [|done].
      eapply lookup_weaken in E; [|exact B1]. congruence.
    + destruct (B4 _ He) as (s & Hs & Hn). exists s. split; [|done]. by eapply lookup_weaken.
Qed.

(** A table is no longer than the permits it holds. *)
Lemma table_len_budget sv c cn : inv sv -> sv_conns sv !! c = Some cn -> table_len (cn_table cn) <= budget sv.
Proof.
  intros Hi E. unfold budget. pose proof (iv_permits _ _ Hi).
  pose proof (gsum_le (fun cn => table_len (cn_table cn)) _ _ _ (fun y => table_len_nonneg (cn_table y)) E) as Hle. cbv beta in Hle. unfold entries_total. lia.
Qed.

(** An aborted reader whose entry, or whose permit, is dropped. *)
Lemma abort_drop_moves sv h : inv sv -> moves 1 0 sv (add_permits 1 (upd_sess h (with_aborted true) sv)).
Proof.
  intros Hi. assert (Hm : moves 0 0 sv (upd_sess h (with_aborted true) sv)) by by apply upd_sess_moves.
  eapply moves_seq; [exact Hm | apply (add_permits_moves _ _ 1); [apply Hm | lia] | done | done].
Qed.

(** The end of the publish section: the caller's permit goes back, or into the
    entry. *)
Lemma publish_tail_moves sv c cn s h dest cancelled stale swept : inv sv -> sv_conns sv !! c = Some cn ->
  budget sv <= MAX_SESSIONS_GLOBAL -> s <> 0 -> entry_of (cn_table cn) s = None -> ident sv h = Some (c, s, cancelled) ->
  moves 1 0 sv (publish_tail c s h dest cancelled stale swept sv).2.
Proof.
  intros Hi E Hbud Hs0 Hnone Hid. pose proof (iv_conns _ _ Hi _ _ E) as [Ht Hr Hb]. pose proof (shard_idx_lt s) as Hlt.
  pose proof (table_len_budget _ _ _ Hi E) as Hl. pose proof (to_live _ _ _ Ht) as Hlive. pose proof (table_len_nonneg (cn_table cn)) as Hl0.
  unfold publish_tail. destruct (flag_set sv cancelled) eqn:Efl; [|destruct (ss_finished (sess_of sv h))]; cbn [snd].
  - by apply abort_drop_moves.
  - assert (Hm : moves 0 0 sv (upd_table c (fun t => note_live_remove 1 (note_live_insert t)) sv)).
    { eapply moves_eq; [apply (conn_aux_moves _ _ _ cn); try done | done | unfold note_live_remove; cbn; lia]. cbn. rewrite Hlive.
      unfold MAX_SESSIONS_GLOBAL in Hbud. rewrite as_u64_small by (unfold usize_max; lia). unfold saturating_sub. lia. }
    eapply moves_seq; [exact Hm | apply abort_drop_moves; apply Hm | done | done].
  - rewrite (upd_table_eq _ _ _ _ E). set (t := cn_table cn) in *. set (e := mkEntry s h _). set (m := <[s := e]> (shard t (shard_idx s))).
    set (t' := note_live_insert _). set (sv' := set_conns _ _).
    assert (Hes : st_shards t' = st_shards (set_shard (shard_idx s) m t)) by done.
    assert (Hlen : table_len t' = table_len t + 1).
    { trans (table_len (set_shard (shard_idx s) m t)); [done|]. destruct (table_len_set _ (to_len _ _ _ Ht) _ m Hlt).
      unfold m in *. rewrite (msize_insert _ _ e Hnone) in *. lia. }
    assert (Hen : forall s', entry_of t' s' = if decide (shard_idx s = shard_idx s') then m !! s' else entry_of t s').
    { intros s'. rewrite (entry_shards _ _ s' Hes). apply entry_set; [apply Ht | done]. }
    assert (Hp : sv_permits sv' = sv_permits sv) by done.
    eapply moves_eq; [eapply (moves_conn _ sv sv' c cn (with_table t' cn)); try done; [by apply Hi | |] | cbn [cn_table with_table]; fold t; lia | change (st_counted (cn_table (with_table t' cn))) with (st_counted (cn_table cn)); lia].
    + split; [|done|].
      * change (table_ok (ident sv) c t'). eapply shards_ok; [exact Ht | exact Hlt | done | |].
        -- change (st_live t') with (as_u64 (st_live t + 1)). rewrite Hlen, Hlive. apply as_u64_small. fold t in Hl0, Hl.
           unfold usize_max, MAX_SESSIONS_GLOBAL in *. lia.
        -- intros s' e'. unfold m. intros [[<- <-]|[Hne He]]%lookup_insert_Some; [|by eapply (to_entry _ _ _ Ht)].
           split_and!; try done. by exists cancelled.
      * intros Hf Hcl s' id Hreg. destruct (Hb Hf Hcl _ _ Hreg) as [e' He']. cbn [cn_table with_table]. rewrite Hen.
        case_decide as Ei; [|by exists e']. unfold m. destruct (decide (s' = s)) as [->|Hne]; [by rewrite lookup_insert_eq; eexists|].
        rewrite lookup_insert_ne by done. rewrite Ei. by exists e'.
    + intros s' e' He'. cbn [cn_table with_table] in He'. rewrite Hen in He'. case_decide as Ei; [|by left; exists e'].
      unfold m in He'. apply lookup_insert_Some in He' as [[<- <-]|[Hne He]].
      * right. cbn. intros f (c' & s'' & Hg) Hset. rewrite Hid in Hg. simplify_eq. cbn in Efl. rewrite Hset in Efl. done.
      * left. exists e'. split; [|done]. unfold entry_of. by rewrite <- Ei.
Qed.

(** [sv] after some entries of one shard went: what is left is still to be
    purged from the registry. *)
Definition half_done (sv0 : Server) (c : Z) (cn : Conn) (i : nat) (w : SessMap) (out : list SessEntry) (sv : Server) : Prop :=
  exists t n, sv = set_conns (<[c := with_table t cn]> (sv_conns sv0)) (set_sweep_last n sv0) /\
    evicts (shard (cn_table cn) i) w out /\
    st_shards t = st_shards (set_shard i w (cn_table cn)) /\ st_live t = table_len t /\
    st_filter t = st_filter (cn_table cn) /\ st_counted t = st_counted (cn_table cn).

Lemma half_done_purge sv0 c cn i w out sv : inv sv0 -> sv_conns sv0 !! c = Some cn -> (i < Z.to_nat SESS_SHARDS)%nat ->
  half_done sv0 c cn i w out sv ->
  let sv' := purge_reaped c out sv in
  moves (- len out) 0 sv0 sv' /\ (exists cn', sv_conns sv' !! c = Some cn' /\ forall s, i = shard_idx s -> entry_of (cn_table cn') s = w !! s).
Proof.
  intros Hi E Hlt (t & n & -> & He & Es & El & Ef & Ec). set (sv1 := set_sweep_last n sv0).
  assert (Hm1 : moves 0 0 sv0 sv1) by by apply sweep_last_moves. pose proof (iv_conns _ _ Hi _ _ E) as [Ht Hr Hb].
  destruct (remove_sessions (se_sess <$> out) (sv_heap sv0) (cn_reg cn)) as [[k hp] reg] eqn:Er.
  set (sv' := purge_reaped c out _).
  assert (Hpl : sv' = placed c cn t reg hp sv1).
  { subst sv'. unfold purge_reaped. destruct out as [|e out]; [|exact (purge_sessions_placed sv1 c cn t _ _ _ _ Er)].
    unfold remove_sessions in Er. rewrite bool_decide_eq_true_2 in Er by done. simplify_eq. by destruct sv0, cn. }
  rewrite Hpl. split.
  - eapply moves_seq; [exact Hm1 | | by rewrite Z.add_0_l | done]. eapply placed_moves; try done; [apply Hm1 | by exists k].
  - eexists. split; [apply lookup_insert_eq|]. intros s ->. cbn [cn_table with_reg with_table].
    rewrite (entry_shards _ _ s Es), entry_set, decide_True by (done || apply Ht). done.
Qed.

Lemma half_done_sweep sv0 c cn i w out sv w' swept : inv sv0 -> sv_conns sv0 !! c = Some cn -> (i < Z.to_nat SESS_SHARDS)%nat ->
  half_done sv0 c cn i w out sv -> evicts w w' swept ->
  half_done sv0 c cn i w' (out ++ swept) (upd_table c (fun t => note_live_remove (len swept) (set_shard i w' t)) sv).
Proof.
  intros Hi E Hlt (t & n & -> & He & Es & El & Ef & Ec) He'. pose proof (iv_conns _ _ Hi _ _ E) as [Ht Hr Hb].
  assert (Ht1 : table_ok (ident sv0) c t).
  { eapply shards_ok; [exact Ht | exact Hlt | done | done |]. eapply sub_entries; [exact Ht | done | apply He]. }
  assert (Hsh : shard t i = w). { unfold shard. rewrite Es. fold (shard (set_shard i w (cn_table cn)) i). rewrite shard_set, decide_True by (done || apply Ht). done. }
  destruct (live_remove_set _ _ _ Ht1 i w' (len swept) Hlt) as (H1 & H2 & H3 & H4); [rewrite Hsh; apply He' | apply len_nonneg |].
  exists (note_live_remove (len swept) (set_shard i w' t)), n. split_and!.
  - erewrite upd_table_eq by apply lookup_insert_eq. cbn. by rewrite insert_insert_eq.
  - by eapply evicts_app.
  - rewrite H2. cbn. rewrite Es. cbn. by rewrite list_insert_insert_eq.
  - done.
  - congruence.
  - congruence.
Qed.

Lemma publish_rest_moves sv0 sv c cn s h dest cancelled stale w : inv sv0 -> sv_conns sv0 !! c = Some cn ->
  half_done sv0 c cn (shard_idx s) w stale sv -> w !! s = None ->
  budget sv0 <= MAX_SESSIONS_GLOBAL -> s <> 0 -> ident sv0 h = Some (c, s, cancelled) ->
  let r := publish_rest c s h dest cancelled stale w sv in
  exists swept, moves (1 - len stale - len swept) 0 sv0 r.2 /\
    (r.1 = PCancelled stale swept \/ r.1 = PDead stale swept \/ r.1 = PInserted stale swept).
Proof.
  intros Hi E Hh Hw Hbud Hs0 Hid r. pose proof (shard_idx_lt s) as Hlt. subst r. unfold publish_rest.
  set (p := if shard_over_share _ _ then _ else _).
  assert (Hp : exists w', half_done sv0 c cn (shard_idx s) w' (stale ++ p.1) p.2 /\ w' !! s = None).
  { assert (Hd : half_done sv0 c cn (shard_idx s) w (stale ++ []) sv) by by rewrite app_nil_r.
    subst p. destruct (shard_over_share _ _); [|by exists w]. unfold claim_sweep_now.
    destruct (_ <? 1000); [by exists w|]. set (sv1 := set_sweep_last _ sv).
    assert (Hd1 : half_done sv0 c cn (shard_idx s) w stale sv1).
    { destruct Hh as (t & n & -> & Hr). eexists t, _. split; [reflexivity | exact Hr]. }
    unfold sweep_local. destruct (take_idle sv1 w _ _) as [w' swept] eqn:Et. apply take_idle_spec in Et as (He & _ & _). cbn [fst snd].
    exists w'. split; [by eapply half_done_sweep|]. destruct (w' !! s) eqn:Ew; [|done]. eapply lookup_weaken in Ew; [|apply He]. congruence. }
  destruct p as [swept sv2]. cbn [fst snd] in Hp. destruct Hp as (w' & Hh' & Hw'). exists swept.
  destruct (half_done_purge _ _ _ _ _ _ _ Hi E Hlt Hh') as [Hm (cn' & Ecn' & Hen)]. set (sv3 := purge_reaped c (stale ++ swept) sv2) in *.
  assert (Ht : moves 1 0 sv3 (publish_tail c s h dest cancelled stale swept sv3).2).
  { eapply publish_tail_moves; try done; [apply Hm | | by rewrite Hen | by apply (ex_ident _ _ (mv_ext _ _ _ _ _ Hm))].
    rewrite (mv_budget _ _ _ _ _ Hm). pose proof (len_nonneg (stale ++ swept)). lia. }
  split; [eapply moves_seq; [exact Hm | exact Ht | rewrite len_app; lia | done]|].
  unfold publish_tail. destruct (flag_set _ _); [by left|]. destruct (ss_finished _); [right; by left | right; by right].
Qed.

Lemma publish_moves sv c s h dest cancelled : inv sv -> is_Some (sv_conns sv !! c) ->
  budget sv <= MAX_SESSIONS_GLOBAL -> s <> 0 -> ident sv h = Some (c, s, cancelled) ->
  let r := publish c s h dest cancelled sv in
  (exists h' g, r = (PLive h', sv) /\ ident sv h' = Some (c, s, g)) \/
  exists stale swept, moves (1 - len stale - len swept) 0 sv r.2 /\
    (r.1 = PCancelled stale swept \/ r.1 = PDead stale swept \/ r.1 = PInserted stale swept).
Proof.
  intros Hi [cn E] Hbud Hs0 Hid r. subst r. unfold publish, table_of. rewrite (conn_of_eq _ _ _ E).
  pose proof (iv_conns _ _ Hi _ _ E) as [Ht Hr Hb]. pose proof (shard_idx_lt s) as Hlt.
  assert (Hd : half_done sv c cn (shard_idx s) (shard (cn_table cn) (shard_idx s)) [] sv).
  { exists (cn_table cn), (sv_sweep_last sv). split; [|split; [apply evicts_nil | split; [|split; [apply Ht | done]]]].
    - destruct sv, cn; unfold set_conns, set_sweep_last; cbn in *. by rewrite insert_id.
    - cbn. rewrite list_insert_id; [done|]. apply shard_lookup; [apply Ht | done]. }
  destruct (shard (cn_table cn) (shard_idx s) !! s) as [e|] eqn:Ee.
  - destruct (to_entry _ _ _ Ht _ _ _ Hlt Ee) as (_ & _ & _ & g & Hg).
    destruct (ss_finished (sess_of sv (se_h e))); [right|left; by exists (se_h e), g].
    assert (Hd1 := half_done_sweep _ _ _ _ _ _ _ _ _ Hi E Hlt Hd (evicts_delete _ _ _ Ee)). change (len [e]) with 1 in Hd1.
    destruct (publish_rest_moves _ _ _ _ s h dest cancelled [e] _ Hi E Hd1 (lookup_delete_eq _ _) Hbud Hs0 Hid) as (swept & Hm & Hres).
    by exists [e], swept.
  - right. destruct (publish_rest_moves _ _ _ _ s h dest cancelled [] _ Hi E Hd Ee Hbud Hs0 Hid) as (swept & Hm & Hres). by exists [], swept.
Qed.

(* ------------------------------------------------------------------ *)
(** ** Destination memos, flags and gates *)

Lemma dest_write_moves sv c s d : inv sv -> moves 0 0 sv (dest_write c s d sv).
Proof.
  intros Hi. unfold dest_write. destruct (sv_conns sv !! c) as [cn|] eqn:E; [|unfold upd_table; rewrite upd_conn_none by done; by apply moves_refl].
  pose proof (iv_conns _ _ Hi _ _ E) as [Ht Hr Hb]. pose proof (shard_idx_lt s) as Hlt. rewrite (upd_table_eq _ _ _ _ E).
  set (t := cn_table cn) in *. set (f := fun e => mkEntry (se_sess e) (se_h e) d). set (m := alter f s (shard t (shard_idx s))).
  set (t' := set_shard _ m t). set (sv' := set_conns _ sv).
  assert (Hm : forall s' e, m !! s' = Some e -> exists e0, shard t (shard_idx s) !! s' = Some e0 /\ se_h e0 = se_h e /\ se_sess e0 = se_sess e).
  { intros s' e. unfold m. destruct (decide (s' = s)) as [->|Hne].
    - rewrite lookup_alter_eq. intros (e0 & -> & ->)%fmap_Some. by exists e0.
    - rewrite lookup_alter_ne by done. intros He. by exists e. }
  assert (Hsz : msize m = msize (shard t (shard_idx s))).
  { unfold msize, m. f_equal. rewrite <- !size_dom. f_equal. apply dom_alter_L. }
  assert (Hlen : table_len t' = table_len t). { destruct (table_len_set _ (to_len _ _ _ Ht) _ m Hlt). unfold t'. lia. }
  assert (Hen : forall s', entry_of t' s' = if decide (shard_idx s = shard_idx s') then m !! s' else entry_of t s').
  { intros s'. apply entry_set; [apply Ht | done]. }
  assert (Hback : forall s' e, entry_of t' s' = Some e -> exists e0, entry_of t s' = Some e0 /\ se_h e0 = se_h e).
  { intros s' e. rewrite Hen. case_decide as Ei; [|intros He; by exists e]. intros (e0 & H1 & H2 & _)%Hm. exists e0. unfold entry_of. by rewrite <- Ei. }
  eapply moves_eq; [eapply (moves_conn _ sv sv' c cn (with_table t' cn)); try done; [by apply Hi | | intros s' e He; left; by apply Hback] | |].
  - split; [|done|].
    + change (table_ok (ident sv) c t'). eapply shards_ok; [exact Ht | exact Hlt | done | rewrite Hlen; apply Ht |].
      intros s' e (e0 & H1 & H2 & H3)%Hm. rewrite <- H2, <- H3. by eapply (to_entry _ _ _ Ht).
    + intros Hf Hcl s' id Hreg. destruct (Hb Hf Hcl _ _ Hreg) as [e He]. cbn [cn_table with_table]. rewrite Hen.
      case_decide as Ei; [|by exists e]. unfold m. fold t in He. unfold entry_of in He. rewrite <- Ei in He.
      destruct (decide (s' = s)) as [->|Hne]; [rewrite lookup_alter_eq, He | rewrite lookup_alter_ne, He by done]; by eexists.
  - assert (Hp : sv_permits sv' = sv_permits sv) by done. cbn [cn_table with_table]. fold t. lia.
  - change (st_counted (cn_table (with_table t' cn))) with (st_counted (cn_table cn)). lia.
Qed.

Lemma set_all_lookup fs (m : gmap Z bool) f : foldr (fun f m => <[f := true]> m) m fs !! f = if bool_decide (f ∈ fs) then Some true else m !! f.
Proof.
  induction fs as [|x fs IH]; [done|]. cbn [foldr]. destruct (decide (x = f)) as [->|Hne].
  - rewrite lookup_insert_eq, bool_decide_eq_true_2; [done|]. apply elem_of_cons. by left.
  - rewrite lookup_insert_ne, IH by done. case_bool_decide as Hin.
    + rewrite bool_decide_eq_true_2; [done|]. apply elem_of_cons. by right.
    + rewrite bool_decide_eq_false_2; [done|]. intros [->|?]%elem_of_cons; done.
Qed.

Lemma set_all_flags_moves sv fs : inv sv -> moves 0 0 sv (set_all_flags fs sv) /\ Forall (fun f => sv_flags (set_all_flags fs sv) !! f = Some true) fs.
Proof.
  intros Hi. split.
  - apply flags_moves; [done|]. intros f b E. rewrite set_all_lookup. case_bool_decide; [by exists true | by exists b].
  - apply list.Forall_forall. intros f Hf. cbn. by rewrite set_all_lookup, bool_decide_eq_true_2.
Qed.

Lemma new_flag_moves sv : inv sv -> moves 0 0 sv (new_flag sv).2 /\ is_Some (sv_flags (new_flag sv).2 !! (new_flag sv).1).
Proof.
  intros Hi. cbn [new_flag fst snd]. set (f := fresh_key _). assert (Hf : sv_flags sv !! f = None) by apply not_elem_of_dom, is_fresh. split.
  - apply flags_moves; [done|]. intros f' b E. exists b. by rewrite lookup_insert_ne by congruence.
  - cbn. by rewrite lookup_insert_eq.
Qed.

Lemma begin_dns_waiter_moves sv c s : inv sv -> let r := begin_dns_waiter c s sv in moves 0 0 sv r.2.
Proof.
  intros Hi r. subst r. unfold begin_dns_waiter. destruct (new_flag_moves sv Hi) as [Hm _]. destruct (new_flag sv) as [f sv1]. cbn [fst snd] in *.
  eapply moves_seq; [exact Hm | apply conn_quiet_moves; [apply Hm | done] | done | done].
Qed.

Lemma drop_waiter_moves sv c s f : inv sv -> moves 0 0 sv (drop_waiter c s f sv).
Proof. intros Hi. apply conn_quiet_moves; [done|]. intros cn. by repeat case_match. Qed.

Lemma begin_pending_open_moves sv c s id target : inv sv -> moves 0 0 sv (begin_pending_open c s id target sv).2.
Proof.
  intros Hi. unfold begin_pending_open. repeat case_match; cbn [snd]; try by apply moves_refl.
  destruct (new_flag_moves sv Hi) as [Hm _]. simplify_eq. rewrite H3 in Hm. cbn [snd] in Hm.
  eapply moves_seq; [exact Hm | apply conn_quiet_moves; [apply Hm | done] | done | done].
Qed.

Lemma queue_payload_moves sv c s id target payload : inv sv -> moves 0 0 sv (queue_pending_open_payload c s id target payload sv).2.
Proof. intros Hi. unfold queue_pending_open_payload. repeat case_match; cbn [snd]; try (by apply moves_refl); by apply conn_quiet_moves. Qed.

Lemma take_payloads_moves sv c s id : inv sv -> moves 0 0 sv (take_pending_payloads c s id sv).2.
Proof. intros Hi. unfold take_pending_payloads. case_match; cbn [snd]; [by apply conn_quiet_moves | by apply moves_refl]. Qed.

Lemma drop_pending_moves sv c s id : inv sv -> moves 0 0 sv (drop_pending c s id sv).2.
Proof.
  intros Hi. unfold drop_pending. pose proof (take_payloads_moves sv c s id Hi) as Hm. destruct (take_pending_payloads _ _ _ _) as [l sv1]. cbn [snd] in *.
  eapply moves_seq; [exact Hm | apply conn_quiet_moves; [apply Hm | done] | done | done].
Qed.

Lemma on_gate_moves {A} sv c (f : DnsGate -> A * DnsGate) : inv sv -> moves 0 0 sv (on_gate c f sv).2.
Proof. intros Hi. unfold on_gate. destruct (f _) as [a g]. cbn [snd]. by apply conn_quiet_moves. Qed.

(* ------------------------------------------------------------------ *)
(** ** The registry *)

(** A change of the registry and the heap that registers nothing for a session
    outside the table. *)
Lemma reg_moves sv c reg hp : inv sv -> heap_le (sv_heap sv) hp ->
  (forall cn, sv_conns sv !! c = Some cn -> reg_inv hp reg /\
     (st_filter (cn_table cn) = Restricted -> cn_closed cn = false ->
        forall s id, registered hp reg s id -> registered (sv_heap sv) (cn_reg cn) s id \/ is_Some (entry_of (cn_table cn) s))) ->
  moves 0 0 sv (upd_conn c (with_reg reg) (set_heap hp sv)).
Proof.
  intros Hi Hle Hr. pose proof (heap_moves allow_private sv hp Hi Hle) as Hm.
  destruct (sv_conns sv !! c) as [cn|] eqn:E; [|by rewrite upd_conn_none]. destruct (Hr _ eq_refl) as [Hreg Hb].
  pose proof (iv_conns _ _ Hi _ _ E) as [Ht Hr0 Hb0]. rewrite (upd_conn_eq _ c cn) by done. set (sv' := set_conns _ _).
  eapply moves_eq; [eapply (moves_conn _ sv sv' c cn (with_reg reg cn)); try done; [by apply Hi | | intros s e He; left; by exists e] | |].
  - split; [done|done|]. intros Hf Hcl s id Hs. destruct (Hb Hf Hcl _ _ Hs) as [Hs0|Hin]; [|done]. by apply (Hb0 Hf Hcl s id).
  - assert (Hp : sv_permits sv' = sv_permits sv) by done. cbn [cn_table with_reg]. lia.
  - cbn [cn_table with_reg]. lia.
Qed.

Lemma registry_insert_registered hp l b r s id : hp !! l = Some b -> reg_inv hp r ->
  reg_inv hp (registry_insert hp l r).2 /\
  (registered hp (registry_insert hp l r).2 s id -> registered hp r s id \/ s = fb_session b).
Proof.
  intros Hl Hr. split; [by eapply (registry_insert_stable reg_inv)|]. intros (l' & b' & Hm & Hb' & Hs).
  unfold registry_insert in Hm. rewrite (lookup_total_some _ _ _ Hl) in Hm.
  destruct (r_map r !! fb_wire_id b) as [l0|] eqn:E; [case_match; left; by exists l', b'|].
  destruct (_ >=? _); [left; by exists l', b'|]. cbn in Hm. apply lookup_insert_Some in Hm as [[_ <-]|[_ Hm]]; [right; congruence | left; by exists l', b'].
Qed.

Lemma alter_le f l (h : Heap) : (forall b, fb_wire_id (f b) = fb_wire_id b /\ fb_session (f b) = fb_session b /\ fb_target (f b) = fb_target b /\ fb_state (f b) = fb_state b) ->
  heap_le h (alter f l h).
Proof.
  intros Hf l' b Hl. destruct (decide (l' = l)) as [->|Hne].
  - exists (f b). rewrite lookup_alter_eq, Hl. destruct (Hf b) as (? & ? & ? & Hst). split_and!; try done. by rewrite Hst.
  - exists b. by rewrite lookup_alter_ne.
Qed.

(** Installing a fresh binding of session [s], after whatever is done to it. *)
Lemma insert_moves sv c s wire_id target g : inv sv ->
  let '(l, heap) := new_shared wire_id s target (sv_heap sv) in
  (heap_le heap (g l heap)) ->
  (forall cn, sv_conns sv !! c = Some cn -> st_filter (cn_table cn) = Restricted -> cn_closed cn = false -> is_Some (entry_of (cn_table cn) s)) ->
  moves 0 0 sv (upd_conn c (with_reg (registry_insert (g l heap) l (cn_reg (conn_of sv c))).2) (set_heap (g l heap) sv)).
Proof.
  intros Hi. destruct (new_shared wire_id s target (sv_heap sv)) as [l heap] eqn:En. apply new_shared_fresh in En as [Hl ->]. intros Hg Hin.
  set (h0 := <[l := _]> (sv_heap sv)) in *. assert (Hle0 : heap_le (sv_heap sv) h0) by by apply heap_le_insert.
  destruct (Hg l _ (lookup_insert_eq _ _ _)) as (b & Hb & _ & Hs & _). cbn in Hs.
  apply reg_moves; [done | by etrans |]. intros cn E. rewrite (conn_of_eq _ _ _ E). pose proof (co_reg _ _ _ _ (iv_conns _ _ Hi _ _ E)) as Hr.
  assert (Hr' : reg_inv (g l h0) (cn_reg cn)) by (eapply reg_inv_le; [exact Hr | by etrans]).
  split; [by apply (registry_insert_registered _ _ _ _ 0 0 Hb Hr')|]. intros Hf Hcl s' id Hreg.
  apply (registry_insert_registered _ _ _ _ s' id Hb Hr') in Hreg as [Hreg | ->]; [|right; rewrite Hs; by eapply Hin].
  left. eapply registered_le; [apply Hr | | exact Hreg]. by etrans.
Qed.

Lemma live_entry_in sv c s h : live_entry c s sv = Some h -> exists e, entry_of (table_of sv c) s = Some e /\ se_h e = h.
Proof. unfold live_entry. destruct (entry_of _ _) as [e|]; [|done]. case_match; [done|]. intros [= <-]. by exists e. Qed.

Lemma live_entry_ident sv c s h : inv sv -> is_Some (sv_conns sv !! c) -> live_entry c s sv = Some h -> exists g, ident sv h = Some (c, s, g).
Proof.
  intros Hi [cn E] (e & He & <-)%live_entry_in. unfold table_of in He. rewrite (conn_of_eq _ _ _ E) in He.
  destruct (to_entry _ _ _ (co_table _ _ _ _ (iv_conns _ _ Hi _ _ E)) _ _ _ (shard_idx_lt s) He) as (_ & _ & _ & Hg). done.
Qed.

Lemma install_section_moves sv c s wire_id target resolved : inv sv -> moves 0 0 sv (install_section c s wire_id target resolved sv).2.
Proof.
  intros Hi. unfold install_section. destruct (live_entry c s sv) as [h|] eqn:El; [|by apply moves_refl].
  destruct (_ && _); [by apply moves_refl|].
  pose proof (insert_moves sv c s wire_id target (fun l heap => call mark_open l (match resolved with [] => heap | _ => alter (set_resolved resolved) l heap end)) Hi) as Hm.
  destruct (new_shared wire_id s target (sv_heap sv)) as [l heap]. cbv beta in Hm.
  set (hp := call mark_open l _) in *. destruct (registry_insert hp l (cn_reg (conn_of sv c))) as [r reg] eqn:Er. cbn [snd] in Hm.
  assert (Hg : moves 0 0 sv (upd_conn c (with_reg reg) (set_heap hp sv))).
  { apply Hm.
    - subst hp. etrans; [|apply mark_open_le]. destruct resolved as [|a l0]; [done|]. by apply (alter_le (set_resolved (a :: l0)) l).
    - intros cn E _ _. apply live_entry_in in El as (e & He & _). unfold table_of in He. rewrite (conn_of_eq _ _ _ E) in He. by exists e. }
  by destruct r.
Qed.

Lemma insert_unsolicited_moves sv c s wire_id src : inv sv ->
  (forall cn, sv_conns sv !! c = Some cn -> st_filter (cn_table cn) = FullCone) -> moves 0 0 sv (insert_unsolicited c s wire_id src sv).2.
Proof.
  intros Hi Hf. unfold insert_unsolicited.
  pose proof (insert_moves sv c s wire_id (AddrIp src) (fun l heap => call mark_open l (alter (set_reply_src src) l heap)) Hi) as Hm.
  destruct (new_shared wire_id s _ (sv_heap sv)) as [l heap]. cbv beta in Hm.
  set (hp := call mark_open l _) in *. destruct (registry_insert hp l (cn_reg (conn_of sv c))) as [r reg] eqn:Er. cbn [snd] in *.
  apply Hm; [subst hp; etrans; [by apply (alter_le (set_reply_src src) l) | apply mark_open_le]|]. intros cn E Hr. by rewrite (Hf _ E) in Hr.
Qed.

Lemma registry_take_moves sv c wire_id : inv sv -> moves 0 0 sv (registry_take c wire_id sv).2.
Proof.
  intros Hi. unfold registry_take. destruct (registry_remove (sv_heap sv) wire_id (cn_reg (conn_of sv c))) as [r reg] eqn:Er. cbn [snd].
  assert (Hs : upd_conn c (with_reg reg) sv = upd_conn c (with_reg reg) (set_heap (sv_heap sv) sv)) by by destruct sv.
  rewrite Hs. apply reg_moves; [done | reflexivity |]. intros cn E. rewrite (conn_of_eq _ _ _ E) in Er.
  pose proof (co_reg _ _ _ _ (iv_conns _ _ Hi _ _ E)) as Hr. split.
  - pose proof (registry_remove_stable reg_inv (sv_heap sv) wire_id (cn_reg cn) Hr) as Hr'. by rewrite Er in Hr'.
  - intros _ _ s id (l & b & Hm & Hb). left. exists l, b. split; [|done]. pose proof (registry_remove_map (sv_heap sv) wire_id (cn_reg cn)) as Hsub.
    rewrite Er in Hsub. by eapply lookup_weaken.
Qed.

Lemma purge_sessions_moves sv c ids : inv sv -> is_Some (sv_conns sv !! c) -> moves 0 0 sv (purge_sessions c ids sv).
Proof.
  intros Hi [cn E]. unfold purge_sessions. rewrite (conn_of_eq _ _ _ E).
  destruct (remove_sessions ids (sv_heap sv) (cn_reg cn)) as [[n hp] reg] eqn:Er.
  pose proof (co_reg _ _ _ _ (iv_conns _ _ Hi _ _ E)) as Hr.
  destruct (remove_sessions_registered _ _ _ _ _ _ Hr Er) as (Hr' & Hle & Hreg).
  apply reg_moves; [done..|]. intros cn' E'. simplify_eq. split; [done|]. intros _ _ s id Hs. left. by apply Hreg in Hs as [? _].
Qed.

End Sections.
