(* ===== verification/SessSafe.v ===== *)
(** A small program logic for the session tasks: whatever other tasks do between
    two steps of a task, its own steps keep the invariant, and the permits it
    holds account for what it does to the budget. *)
From stdpp Require Import fin_maps.
From S2P Require Import Prelude Addr DnsKey DnsPolicy DnsMemo DnsAnswer Wire Binding Flow FlowRun Pin DnsGate Sess SessTask SessInv SessAtoms.

Section Logic.
Context `{IpNet} (allow_private : bool).

Notation inv := (inv allow_private).
Notation moves := (moves allow_private).

(** [p], holding [hp] permits and owing [hh] to the holder count, last saw [s0];
    the others may have moved the state to any [sv] since. *)
Fixpoint safe {A} (Q : A -> Z -> Z -> Server -> Prop) (hp hh : Z) (s0 : Server) (p : task A) : Prop :=
  match p with
  | Ret a => Q a hp hh s0
  | Atom f k => forall sv, ext s0 sv -> inv sv -> 0 <= hp -> budget sv + hp <= MAX_SESSIONS_GLOBAL ->
      exists dp dh, moves dp dh sv (f sv).2 /\ 0 <= hp - dp /\ safe Q (hp - dp) (hh - dh) (f sv).2 (k (f sv).1)
  end.

Lemma safe_weaken {A} (Q Q' : A -> Z -> Z -> Server -> Prop) hp hh s0 p :
  (forall a hp hh s, ext s0 s -> Q a hp hh s -> Q' a hp hh s) -> safe Q hp hh s0 p -> safe Q' hp hh s0 p.
Proof.
  revert hp hh s0; induction p as [a|B f k IH]; intros hp hh s0 HQ Hs; cbn in *; [by apply HQ|].
  intros sv He Hi H0 Hb. destruct (Hs sv He Hi H0 Hb) as (dp & dh & Hm & Hp & Hk). exists dp, dh. split_and!; [done..|].
  eapply IH; [|exact Hk]. intros a hp' hh' s Hes. apply HQ. etrans; [exact He|]. etrans; [apply Hm | exact Hes].
Qed.

Lemma safe_bind {A B} (Q : A -> Z -> Z -> Server -> Prop) (Q' : B -> Z -> Z -> Server -> Prop) hp hh s0 p k :
  safe Q hp hh s0 p -> (forall a hp hh s, ext s0 s -> Q a hp hh s -> safe Q' hp hh s (k a)) -> safe Q' hp hh s0 (tbind p k).
Proof.
  revert hp hh s0; induction p as [a|C f k' IH]; intros hp hh s0 Hp Hk; cbn in *; [by apply Hk|].
  intros sv He Hi H0 Hb. destruct (Hp sv He Hi H0 Hb) as (dp & dh & Hm & Hpos & Hs). exists dp, dh. split_and!; [done..|].
  eapply IH; [exact Hs|]. intros a hp' hh' s Hes. apply Hk. etrans; [exact He|]. etrans; [apply Hm | exact Hes].
Qed.

(** A later view is as good. *)
Lemma safe_ext {A} (Q : A -> Z -> Z -> Server -> Prop) hp hh s0 s1 p :
  (forall a hp hh s s', ext s s' -> Q a hp hh s -> Q a hp hh s') -> ext s0 s1 -> safe Q hp hh s0 p -> safe Q hp hh s1 p.
Proof. intros HQ He. destruct p as [a|B f k]; cbn; [by apply HQ|]. intros Hs sv He' Hi H0 Hb. apply Hs; try done. by etrans. Qed.

(** [p] needs [n] permits in hand, gains [d a] when it returns [a], and then
    [P a] holds; what it owes the holder count is settled. *)
Definition gives {A} (n : Z) (d : A -> Z) (P : A -> Server -> Prop) (s0 : Server) (p : task A) : Prop :=
  forall hp hh, n <= hp -> safe (fun a hp' hh' s => hp' = hp + d a /\ hh' = hh /\ P a s) hp hh s0 p.

Lemma gives_ret {A} n (d : A -> Z) (P : A -> Server -> Prop) s0 a : P a s0 -> d a = 0 -> gives n d P s0 (Ret a).
Proof. intros HP Hd hp hh Hn. cbn. split_and!; [lia | done | done]. Qed.

Lemma gives_atom {A B} n (d : A -> Z) (P : A -> Server -> Prop) s0 (f : Server -> B * Server) k :
  (forall sv, ext s0 sv -> inv sv -> budget sv + n <= MAX_SESSIONS_GLOBAL ->
     exists dp, moves dp 0 sv (f sv).2 /\ dp <= n /\ gives (n - dp) (fun a => d a + dp) P (f sv).2 (k (f sv).1)) ->
  gives n d P s0 (Atom f k).
Proof.
  intros Hs hp hh Hn sv He Hi H0 Hb. destruct (Hs sv He Hi ltac:(lia)) as (dp & Hm & Hle & Hg). exists dp, 0. split_and!; [done | lia |].
  eapply safe_weaken; [|apply Hg; lia]. cbn. intros a hp' hh' s _ (-> & -> & HP). split_and!; [lia | lia | done].
Qed.

Lemma gives_quiet {A B} n (d : A -> Z) (P : A -> Server -> Prop) s0 (f : Server -> B * Server) k :
  (forall sv, ext s0 sv -> inv sv -> moves 0 0 sv (f sv).2 /\ gives n d P (f sv).2 (k (f sv).1)) -> gives n d P s0 (Atom f k).
Proof.
  intros Hs hp hh Hn sv He Hi H0 Hb. destruct (Hs sv He Hi) as [Hm Hg]. exists 0, 0. split_and!; [done | lia |].
  eapply safe_weaken; [|apply Hg; lia]. cbn. intros a hp' hh' s _ (-> & -> & HP). split_and!; [lia | lia | done].
Qed.

Lemma gives_read {A B} n (d : A -> Z) (P : A -> Server -> Prop) s0 (f : Server -> B) k :
  (forall sv, ext s0 sv -> inv sv -> gives n d P sv (k (f sv))) -> gives n d P s0 (Atom (read f) k).
Proof. intros Hs. apply gives_quiet. intros sv He Hi. split; [by apply moves_refl | by apply Hs]. Qed.

Lemma gives_write {A} n (d : A -> Z) (P : A -> Server -> Prop) s0 (f : Server -> Server) (k : unit -> task A) :
  (forall sv, ext s0 sv -> inv sv -> moves 0 0 sv (f sv) /\ gives n d P (f sv) (k tt)) -> gives n d P s0 (Atom (write f) k).
Proof. intros Hs. apply gives_quiet. intros sv He Hi. by apply Hs. Qed.

Lemma gives_bind {A B} n (d : A -> Z) (P : A -> Server -> Prop) (d' : B -> Z) (P' : B -> Server -> Prop) s0 p k :
  gives n d P s0 p ->
  (forall a s, ext s0 s -> P a s -> gives (n + d a) (fun b => d' b - d a) P' s (k a)) -> gives n d' P' s0 (tbind p k).
Proof.
  intros Hp Hk hp hh Hn. eapply safe_bind; [by apply Hp|]. cbn. intros a hp' hh' s He (-> & -> & HP).
  eapply safe_weaken; [|apply (Hk a s He HP); lia]. cbn. intros b hp' hh' s' _ (-> & -> & HP'). split_and!; [lia | done | done].
Qed.

(** A call that neither needs nor moves permits. *)
Definition quiet {A} (P : A -> Server -> Prop) (s0 : Server) (p : task A) : Prop := forall n, 0 <= n -> gives n (fun _ => 0) P s0 p.

Lemma gives_call {A B} n (P : A -> Server -> Prop) (d' : B -> Z) (P' : B -> Server -> Prop) s0 p k :
  0 <= n -> quiet P s0 p -> (forall a s, ext s0 s -> P a s -> gives n d' P' s (k a)) -> gives n d' P' s0 (tbind p k).
Proof.
  intros Hn0 Hp Hk. eapply gives_bind; [by apply Hp|]. intros a s He HP hp hh Hn.
  eapply safe_weaken; [|apply (Hk a s He HP); lia]. cbn. intros b hp' hh' s' _ (-> & -> & HP'). split_and!; [lia | done | done].
Qed.

Lemma quiet_weaken {A} (P P' : A -> Server -> Prop) s0 p : (forall a s, ext s0 s -> P a s -> P' a s) -> quiet P s0 p -> quiet P' s0 p.
Proof.
  intros HP Hq n Hn0 hp hh Hn. eapply safe_weaken; [|by apply (Hq n)]. cbn. intros a hp' hh' s He (-> & -> & HPa). split_and!; [done | done | by apply HP].
Qed.

Lemma gives_weaken {A} n n' (d d' : A -> Z) (P P' : A -> Server -> Prop) s0 p :
  (forall a s, ext s0 s -> P a s -> P' a s /\ d a = d' a) -> n <= n' -> gives n d P s0 p -> gives n' d' P' s0 p.
Proof.
  intros HP Hn Hg hp hh Hle. eapply safe_weaken; [|apply Hg; lia]. cbn. intros a hp' hh' s He (-> & -> & HPa).
  destruct (HP a s He HPa) as [HP' Hd]. split_and!; [lia | done | done].
Qed.

Abbreviation any := (fun _ _ => True).

Lemma quiet_for_each {A} (l : list A) (p : A -> task unit) s0 : (forall x s, x ∈ l -> ext s0 s -> quiet any s (p x)) -> quiet any s0 (for_each l p).
Proof.
  revert s0; induction l as [|x l IH]; intros s0 Hp n Hn; cbn [for_each]; [by apply gives_ret|].
  eapply gives_call; [done | apply Hp; [by apply elem_of_cons; left | reflexivity]|]. intros _ s He _. apply (IH s); [|done].
  intros y s' Hy Hs'. apply Hp; [apply elem_of_cons; by right | by etrans].
Qed.

(** The connection a task works on. *)
Definition conn_in (c : Z) (sv : Server) : Prop := is_Some (sv_conns sv !! c).

Lemma conn_in_ext c sv sv' : ext sv sv' -> conn_in c sv -> conn_in c sv'.
Proof. intros He [cn E]. destruct (ex_conns _ _ He _ _ E) as (cn' & E' & _). by exists cn'. Qed.

Lemma ident_ext sv sv' h i : ext sv sv' -> ident sv h = Some i -> ident sv' h = Some i.
Proof. intros He. apply He. Qed.

Definition made_for (c s h : Z) (sv : Server) : Prop := exists g, ident sv h = Some (c, s, g).

Lemma made_for_ext c s h sv sv' : ext sv sv' -> made_for c s h sv -> made_for c s h sv'.
Proof. intros He [g Hg]. exists g. by apply He. Qed.

End Logic.

#[export] Hint Resolve conn_in_ext made_for_ext : sess.
Abbreviation any := (fun _ _ => True).
