(* ===== verification/SessProgs.v ===== *)
(** The session tasks, one by one, in the logic of [SessSafe]. *)
From stdpp Require Import fin_maps.
From S2P Require Import Prelude Addr DnsKey DnsPolicy DnsMemo DnsAnswer Wire Binding Flow FlowRun Pin DnsGate Sess SessTask SessInv SessAtoms SessSafe.

Section Progs.
Context `{HashIter} `{GateHasher} `{IpNet} (allow_private : bool).

Notation inv := (inv allow_private).
Notation moves := (moves allow_private).
Notation gives := (gives allow_private).
Notation quiet := (quiet allow_private).

(** One read; one write that moves nothing. *)
Ltac rd := apply gives_read; intros ?sv ?He ?Hi.
Ltac wr := apply gives_write; intros ?sv ?He ?Hi; split.
Ltac ret := apply gives_ret; [try done|try done].

(** The table's own counters. *)
Lemma counters_moves sv c f : inv sv ->
  (forall t, st_shards (f t) = st_shards t /\ st_live (f t) = st_live t /\ st_filter (f t) = st_filter t /\ st_counted (f t) = st_counted t) ->
  moves 0 0 sv (upd_table c f sv).
Proof. apply table_quiet_moves. Qed.

Lemma note_empty_state_quiet c s0 : conn_in c s0 -> quiet any s0 (note_empty_state c).
Proof.
  intros Hc n Hn hp hh Hle. unfold note_empty_state. cbn [safe]. intros sv He Hi H0' Hb. exists 0, 0.
  split; [by apply moves_refl|]. split; [lia|]. cbn [read fst snd].
  assert (Hc' := conn_in_ext _ _ _ He Hc).
  destruct (0 <? st_live (table_of sv c)); cbn [safe]; intros sv1 He1 Hi1 _ Hb1; (assert (Hc1 := conn_in_ext _ _ _ He1 Hc')).
  - exists 0, (Z.b2z (swap_counted c true sv1).1 - 1). split; [by apply (swap_counted_moves _ _ _ true)|]. split; [lia|].
    destruct (swap_counted c true sv1).1; cbn [negb safe]; [split_and!; [lia | cbn; lia | done]|].
    intros sv2 He2 Hi2 _ Hb2. exists 0, 1. split; [by apply holders_add_moves|]. split; [lia|]. cbn. split_and!; [lia | lia | done].
  - exists 0, (Z.b2z (swap_counted c false sv1).1 - 0). split; [by apply (swap_counted_moves _ _ _ false)|]. split; [lia|].
    destruct (swap_counted c false sv1).1; cbn [safe]; [|split_and!; [lia | cbn; lia | done]].
    intros sv2 He2 Hi2 _ Hb2. exists 0, (-1). split; [by apply holders_add_moves|]. split; [lia|]. cbn. split_and!; [lia | lia | done].
Qed.

Lemma len_from_quiet c l s0 m : quiet any s0 (len_from c l m).
Proof. intros n Hn. revert m s0; induction l as [|i l IH]; intros m s0; cbn [len_from]; [ret|]. rd. apply IH. Qed.

Lemma len_upper_bound_quiet c now s0 : quiet any s0 (len_upper_bound c now).
Proof.
  intros n Hn. unfold len_upper_bound. rd. rd. rd. case_match; [ret|]. wr; [by apply counters_moves|].
  eapply gives_call; [done | apply len_from_quiet|]. intros a s _ _. wr; [by apply counters_moves|]. wr; [by apply counters_moves|]. ret.
Qed.

Lemma note_insert_quiet c s0 : quiet any s0 (note_insert c).
Proof. intros n Hn. wr; [by apply counters_moves | ret]. Qed.

Lemma store_len_quiet c m now s0 : quiet any s0 (store_len c m now).
Proof. intros n Hn. do 3 (wr; [by apply counters_moves|]). ret. Qed.

Lemma claim_fair_sweep_quiet now s0 : quiet any s0 (claim_fair_sweep now).
Proof.
  intros n Hn. unfold claim_fair_sweep. rd. case_match; [ret|]. apply gives_quiet. intros sv' He' Hi'.
  split; [case_match; [by apply sweep_last_moves | by apply moves_refl] | ret].
Qed.

Lemma sweep_chunks_gives c i now cs : forall n s0 out, 0 <= n -> conn_in c s0 -> (i < Z.to_nat SESS_SHARDS)%nat ->
  gives n (fun out' => len out' - len out) (fun out' _ => len out <= len out') s0 (sweep_chunks c i now cs out).
Proof.
  induction cs as [|ch cs IH]; intros n s0 out Hn Hc Hi0; cbn [sweep_chunks]; [ret; lia|].
  apply gives_atom. intros sv He Hi _. assert (Hc' := conn_in_ext _ _ _ He Hc).
  assert (Hm := sweep_chunk_moves allow_private sv c i now ch Hi Hc' Hi0). set (r := sweep_chunk c i now ch sv) in *.
  exists (- len r.1). pose proof (len_nonneg r.1). split_and!; [done | lia |].
  eapply gives_weaken; [| |apply (IH n); [done | eapply conn_in_ext; [apply Hm | done] | done]]; [|lia].
  cbv beta. intros out' s _. rewrite len_app. lia.
Qed.

Lemma sweep_shards_gives c now l : forall n s0 out, 0 <= n -> conn_in c s0 -> Forall (fun i => i < Z.to_nat SESS_SHARDS)%nat l ->
  gives n (fun out' => len out' - len out) (fun out' _ => len out <= len out') s0 (sweep_shards c now l out).
Proof.
  induction l as [|i l IH]; intros n s0 out Hn Hc Hl; cbn [sweep_shards]; [ret; lia|]. inversion_clear Hl as [|?? Hi0 Hl'].
  rd. assert (Hc' := conn_in_ext _ _ _ He Hc). eapply gives_bind; [by apply sweep_chunks_gives|]. cbv beta. intros out' s Hs Hle.
  eapply gives_weaken; [| |apply (IH n); [done | by eapply conn_in_ext | done]]; [|lia]. cbv beta. intros out'' s' _. lia.
Qed.

Lemma all_shards_lt : Forall (fun i => i < Z.to_nat SESS_SHARDS)%nat all_shards.
Proof. apply list.Forall_forall. intros i Hi. apply list_elem_of_In, in_seq in Hi. lia. Qed.

(** A task that hands its caller [len out] entries, with their permits. *)
Definition yields (s0 : Server) (p : task (list SessEntry)) : Prop := forall n, 0 <= n -> gives n len any s0 p.

Lemma sweep_all_yields c now s0 : conn_in c s0 -> yields s0 (sweep_all_with c now).
Proof.
  intros Hc n Hn. unfold sweep_all_with. eapply gives_bind; [apply sweep_shards_gives; [done | done | apply all_shards_lt]|].
  cbv beta. intros out s He Hle. pose proof (len_nonneg out). rewrite len_nil. eapply gives_call; [lia | apply note_empty_state_quiet; by eapply conn_in_ext|].
  intros _ s' _ _. ret. lia.
Qed.

Definition closed_in (c : Z) (sv : Server) : Prop := exists cn, sv_conns sv !! c = Some cn /\ cn_closed cn = true.

Lemma closed_in_ext c sv sv' : ext sv sv' -> closed_in c sv -> closed_in c sv'.
Proof. intros He (cn & E & Hcl). destruct (ex_conns _ _ He _ _ E) as (cn' & E' & _ & Hc). exists cn'. auto. Qed.

Lemma drain_shards_gives c l : forall n s0 out, 0 <= n -> closed_in c s0 -> Forall (fun i => i < Z.to_nat SESS_SHARDS)%nat l ->
  gives n (fun out' => len out' - len out) (fun out' _ => len out <= len out') s0 (drain_shards c l out).
Proof.
  induction l as [|i l IH]; intros n s0 out Hn Hc Hl; cbn [drain_shards]; [ret; lia|]. inversion_clear Hl as [|?? Hi0 Hl'].
  apply gives_atom. intros sv He Hi _. assert (Hc' := closed_in_ext _ _ _ He Hc). destruct Hc' as (cn & E & Hcl).
  assert (Hm := drain_shard_moves allow_private sv c cn i Hi E Hcl Hi0). set (r := drain_shard c i sv) in *.
  exists (- len r.1). pose proof (len_nonneg r.1). split_and!; [done | lia |].
  eapply gives_weaken; [| |apply (IH n); [done | eapply closed_in_ext; [apply Hm | by exists cn] | done]]; [|lia].
  cbv beta. intros out' s _. rewrite len_app. lia.
Qed.

Lemma closed_conn_in c sv : closed_in c sv -> conn_in c sv.
Proof. intros (cn & E & _). by exists cn. Qed.

Lemma drain_all_yields c s0 : closed_in c s0 -> yields s0 (drain_all c).
Proof.
  intros Hc n Hn. unfold drain_all. eapply gives_bind; [apply drain_shards_gives; [done | done | apply all_shards_lt]|].
  cbv beta. intros out s He Hle. pose proof (len_nonneg out). rewrite len_nil.
  eapply gives_call; [lia | apply note_empty_state_quiet, closed_conn_in; by eapply closed_in_ext|]. intros _ s' _ _. ret. lia.
Qed.

(** [abort_evicted] gives the permits back. *)
Lemma abort_evicted_gives l : forall n s0, len l <= n -> gives n (fun _ => - len l) any s0 (abort_evicted l).
Proof.
  induction l as [|e l IH]; intros n s0 Hn; cbn [abort_evicted for_each tbind]; [by apply gives_ret|].
  pose proof (len_nonneg l). rewrite len_cons in Hn. apply gives_atom. intros sv He Hi _. exists 1. split_and!; [by apply abort_drop_moves | lia |].
  eapply gives_weaken; [| |apply (IH (n - 1)); lia]; [|lia]. cbv beta. intros _ s _ _. rewrite len_cons. split; [done|lia].
Qed.

Lemma mark_binding_quiet l s0 : quiet any s0 (mark_binding l).
Proof. intros n Hn. wr; [apply heap_moves; [done | apply close_le] | ret]. Qed.

Lemma mark_session_closed_quiet h s0 : quiet any s0 (mark_session_closed h).
Proof.
  intros n Hn. unfold mark_session_closed. rd. case_match; [ret|]. eapply gives_call; [done | apply quiet_for_each; intros; apply mark_binding_quiet|].
  intros _ s _ _. wr; [by apply upd_sess_moves | ret].
Qed.

Lemma finish_reaped_quiet l s0 : quiet any s0 (finish_reaped l).
Proof. apply quiet_for_each. intros. apply mark_session_closed_quiet. Qed.

(** Reaping what a sweep or a drain yields settles everything. *)
Lemma reap_quiet s0 p (k : list SessEntry -> task unit) : yields s0 p -> (forall out s, ext s0 s -> quiet any s (k out)) ->
  quiet any s0 (tbind p (fun out => tbind (k out) (fun _ => tbind (finish_reaped out) (fun _ => abort_evicted out)))).
Proof.
  intros Hp Hk n Hn. eapply gives_bind; [by apply Hp|]. cbv beta. intros out s He _. pose proof (len_nonneg out).
  eapply gives_call; [lia | by apply Hk|]. intros _ s1 _ _. eapply gives_call; [lia | apply finish_reaped_quiet|]. intros _ s2 _ _.
  eapply gives_weaken; [| |by apply (abort_evicted_gives out (n + len out)); lia]; [|lia]. cbv beta. intros _ s3 _ _. split; [done|lia].
Qed.

Lemma sweep_and_reap_quiet c now s0 : conn_in c s0 -> quiet any s0 (sweep_and_reap c now).
Proof. intros Hc. apply (reap_quiet s0 _ (fun _ => Ret tt)); [by apply sweep_all_yields|]. intros out s _ n Hn. ret. Qed.

Lemma teardown_quiet c s0 : closed_in c s0 -> quiet any s0 (teardown c).
Proof.
  intros Hc. apply (reap_quiet s0 _ (fun drained => atom! _ := write (purge_sessions c (se_sess <$> drained)) in Ret tt)); [by apply drain_all_yields|].
  intros out s He n Hn. wr; [apply purge_sessions_moves; [done | apply closed_conn_in; eauto using closed_in_ext]|ret].
Qed.

(* ------------------------------------------------------------------ *)
(** ** Memos *)

Lemma touch_quiet th c s h s0 : quiet any s0 (touch_session_throttled th c s h).
Proof.
  intros n Hn. unfold touch_session_throttled, coarse, mono. rd. apply gives_quiet. intros sv1 He1 Hi1. split; [by apply touch_due_moves|].
  case_match; [|ret]. rd. wr; [by apply upd_sess_moves|ret].
Qed.

Lemma put_moves sv th c s h : inv sv -> made_for c s h sv -> moves 0 0 sv (sess_memo_put th c s h sv).
Proof. intros Hi Hh. by apply sess_memo_put_moves. Qed.

Lemma sess_memo_lookup_quiet th c s s0 :
  quiet (fun r sv => match r with Fresh h => made_for c s h sv | _ => True end) s0 (sess_memo_lookup th c s).
Proof.
  intros n Hn. unfold sess_memo_lookup. rd. destruct (memo_slot th c s sv) as [x|] eqn:Em; [|ret].
  destruct (_ && _) eqn:Ek; [|ret]. apply andb_true_iff in Ek as [Ec%Z.eqb_eq Es%Z.eqb_eq].
  assert (Hst : forall s1, gives n (fun _ => 0) (fun r sv => match r with Fresh h => made_for c s h sv | _ => True end) s1
    (atom! _ := write (upd_thread th (set_memo (sess_memo_idx c s) None)) in Ret Stale)).
  { intros s1. wr; [apply upd_thread_moves; [done|]; intros t; apply clear_memo_ok | ret]. }
  destruct (memo_slot_ident _ _ _ _ _ _ Hi Em) as [g Hg]. rewrite Ec, Es in Hg.
  rd. case_match; [apply Hst|]. rd. case_match; [|apply Hst]. ret. exists g. by apply (ex_ident _ _ He1), (ex_ident _ _ He0).
Qed.

Lemma sess_dest_store_quiet c s host port addr life s0 : quiet any s0 (sess_dest_store c s host port addr life).
Proof.
  intros n Hn. unfold sess_dest_store, coarse. case_match; [|ret]. rd. rd. case_match; [ret|]. wr; [by apply dest_write_moves|ret].
Qed.

Lemma store_dest_quiet c s dest s0 : quiet any s0 (store_dest c s dest).
Proof. unfold store_dest. destruct dest as [[[[h p] d] life]|]; [apply sess_dest_store_quiet|]. intros n Hn. ret. Qed.

(* ------------------------------------------------------------------ *)
(** ** Creation *)

Lemma fair_gate_quiet c s0 : conn_in c s0 -> quiet any s0 (fair_gate c).
Proof.
  intros Hc n Hn. unfold fair_gate, mono. rd. rd. eapply gives_call; [done | apply len_upper_bound_quiet|]. intros ub s He1 _.
  case_match; [|ret]. eapply gives_call; [done | apply claim_fair_sweep_quiet|]. intros won s' He2 _. case_match; [|ret].
  eapply gives_call; [done | apply sweep_and_reap_quiet; eauto 6 using conn_in_ext|]. intros _ s1 _ _.
  rd. eapply gives_call; [done | apply len_from_quiet|]. intros n2 s2 _ _. eapply gives_call; [done | apply store_len_quiet|]. intros _ s3 _ _. ret.
Qed.

Lemma try_acquire_gives n s0 : 0 <= n -> gives n (fun b : bool => if b then 1 else 0) any s0 (atom! ok := try_acquire in Ret ok).
Proof.
  intros Hn. apply gives_atom. intros sv He Hi _. eexists. split; [by apply try_acquire_moves|].
  destruct (try_acquire sv) as [[] sv']; cbn [fst snd]; (split; [lia | by apply gives_ret]).
Qed.

Lemma take_permit_gives c n s0 : 0 <= n -> conn_in c s0 -> gives n (fun b : bool => if b then 1 else 0) any s0 (take_permit c).
Proof.
  intros Hn Hc. unfold take_permit. apply gives_atom. intros sv He Hi _. eexists. split; [by apply try_acquire_moves|].
  assert (Hc1 : conn_in c (try_acquire sv).2). { eapply conn_in_ext; [apply (try_acquire_moves allow_private sv Hi) | by eapply conn_in_ext]. }
  destruct (try_acquire sv) as [[] sv']; cbn [fst snd] in *; (split; [lia|]); [by apply gives_ret|].
  eapply (gives_weaken _ n); [| |]; [| |unfold mono; rd; eapply gives_call; [done | apply claim_fair_sweep_quiet|]; intros won s1 He1 _; destruct won].
  4: { by apply (gives_ret _ _ (fun b : bool => if b then 1 else 0) any). }
  3: { rd. eapply gives_call; [done | apply sweep_and_reap_quiet; eauto 6 using conn_in_ext|]. intros _ s2 _ _. by apply try_acquire_gives. }
  - cbv beta. intros a s _ _. split; [done|lia].
  - lia.
Qed.

Definition sock_for (c s : Z) (r : option Z) (sv : Server) : Prop := match r with Some h => made_for c s h sv | None => True end.

(** What is left of a creation after its section gives back all it holds. *)
Lemma reap_both_gives stale swept n s0 : len stale + len swept <= n ->
  gives n (fun _ => - len stale - len swept) any s0 (reap_both stale swept).
Proof.
  intros Hn. pose proof (len_nonneg stale). pose proof (len_nonneg swept). unfold reap_both.
  eapply gives_call; [lia | apply finish_reaped_quiet|]. intros _ s1 _ _. eapply gives_call; [lia | apply finish_reaped_quiet|]. intros _ s2 _ _.
  eapply gives_bind; [by apply (abort_evicted_gives stale n); lia|]. cbv beta. intros _ s3 _ _.
  eapply gives_weaken; [| |apply (abort_evicted_gives swept (n - len stale)); lia]; [|lia]. cbv beta. intros _ s4 _ _. split; [done|lia].
Qed.

Lemma after_publish_gives th c s h dest stale swept out n s0 : 0 <= n -> conn_in c s0 -> made_for c s h s0 ->
  out = PCancelled stale swept \/ out = PDead stale swept \/ out = PInserted stale swept ->
  gives (n + len stale + len swept) (fun _ => - len stale - len swept) (sock_for c s) s0 (after_publish th c s h dest out).
Proof.
  intros Hn Hc Hh Hout. pose proof (len_nonneg stale). pose proof (len_nonneg swept).
  assert (Hreap : forall s1 P (r : option Z), (forall s2, ext s1 s2 -> P r s2) ->
    gives (n + len stale + len swept) (fun _ => - len stale - len swept) P s1 (call! _ := reap_both stale swept in Ret r)).
  { intros s1 P r HP. eapply gives_bind; [apply (reap_both_gives _ _ (n + len stale + len swept)); lia|]. cbv beta. intros _ s2 He2 _. apply gives_ret; [by apply HP | lia]. }
  destruct Hout as [->|[->| ->]]; cbn [after_publish].
  - eapply gives_call; [lia | by apply note_empty_state_quiet|]. intros _ s1 _ _. by apply Hreap.
  - eapply gives_call; [lia | by apply note_empty_state_quiet|]. intros _ s1 _ _. by apply Hreap.
  - eapply gives_call; [lia | apply note_insert_quiet|]. intros _ s1 He1 _.
    eapply gives_call; [lia | apply note_empty_state_quiet; by eapply conn_in_ext|]. intros _ s2 He2 _.
    wr; [apply put_moves; [done|]; eauto 6 using made_for_ext|]. apply Hreap. intros s3 He3. cbn [sock_for].
    eapply made_for_ext; [exact He3|]. eapply made_for_ext; [apply (put_moves); [done|]; eauto 6 using made_for_ext|]. eauto 6 using made_for_ext.
Qed.

Lemma after_live_quiet th c s h h' dest n s0 : 1 <= n -> made_for c s h' s0 ->
  gives n (fun _ => -1) (sock_for c s) s0 (after_publish th c s h dest (PLive h')).
Proof.
  intros Hn Hh. cbn [after_publish]. eapply gives_call; [lia | apply touch_quiet|]. intros _ s1 He1 _.
  apply gives_atom. intros sv He Hi _. exists 1. split_and!; [by apply abort_drop_moves | lia |].
  assert (Hh1 : made_for c s h' (add_permits 1 (upd_sess h (with_aborted true) sv))).
  { eapply made_for_ext; [by apply (abort_drop_moves allow_private)|]. eauto using made_for_ext. }
  wr; [apply put_moves; eauto using made_for_ext|].
  assert (Hh2 : made_for c s h' (sess_memo_put th c s h' sv0)).
  { eapply made_for_ext; [apply (put_moves); eauto using made_for_ext|]. eauto using made_for_ext. }
  eapply gives_call; [lia | apply store_dest_quiet|]. intros _ s2 He2 _. apply gives_ret; [cbn; eauto using made_for_ext | lia].
Qed.

Lemma create_sess_quiet th c s dest cancelled s0 : conn_in c s0 -> s <> 0 ->
  quiet (sock_for c s) s0 (create_sess th c s dest cancelled).
Proof.
  intros Hc Hs0 n Hn. unfold create_sess. eapply gives_call; [done | by apply fair_gate_quiet|]. intros ad s1 He1 _. case_match; [ret|].
  rd. case_match; [ret|]. eapply gives_bind; [apply take_permit_gives; [done | eauto 6 using conn_in_ext]|]. cbv beta. intros permit s2 He2 _.
  destruct permit; cbn [negb]; [|ret]. rd. case_match.
  { apply gives_atom. intros sv1 He3 Hi3 _. exists 1. cbn [write fst snd]. split_and!; [by apply (add_permits_moves _ _ 1) | lia | by apply gives_ret]. }
  apply gives_quiet. intros sv1 He3 Hi3. destruct (new_session_moves allow_private sv1 c s cancelled Hi3) as [Hm Hid]. split; [done|].
  set (h := (new_session c s cancelled sv1).1) in *. assert (Hc1 : conn_in c (new_session c s cancelled sv1).2).
  { eapply conn_in_ext; [apply Hm|]. eauto 8 using conn_in_ext. }
  apply gives_atom. intros sv2 He4 Hi4 Hb. assert (Hid2 := ex_ident _ _ He4 _ _ Hid). assert (Hc2 := conn_in_ext _ _ _ He4 Hc1).
  destruct (publish_moves allow_private sv2 c s h dest cancelled Hi4 Hc2 ltac:(lia) Hs0 Hid2) as [(h' & g & -> & Hg)|(stale & swept & Hmv & Hout)].
  - exists 0. cbn [fst snd]. split_and!; [by apply moves_refl | lia |]. eapply gives_weaken; [| |apply (after_live_quiet th c s h h' dest (n + 1)); [lia | by exists g]]; [|lia].
    cbv beta. intros r s3 _ Hr. split; [done|lia].
  - pose proof (len_nonneg stale). pose proof (len_nonneg swept). exists (1 - len stale - len swept). split_and!; [done | lia |].
    eapply gives_weaken; [| |eapply (after_publish_gives th c s h dest stale swept _ n); [done | | | exact Hout]]; [|lia| |].
    + cbv beta. intros r s3 _ Hr. split; [done|lia].
    + eapply conn_in_ext; [apply Hmv | done].
    + eapply made_for_ext; [apply Hmv | by exists cancelled].
Qed.

Lemma get_or_create_quiet th c s dest cancelled s0 : conn_in c s0 ->
  quiet (sock_for c s) s0 (get_or_create_sess_guarded th c s dest cancelled).
Proof.
  intros Hc n Hn. unfold get_or_create_sess_guarded. destruct (s =? 0) eqn:E0; [ret|]. zbool.
  eapply gives_call; [done | apply sess_memo_lookup_quiet|]. intros hit s1 He1 Hh. cbv beta in Hh.
  assert (Hmiss : gives n (fun _ => 0) (sock_for c s) s1 (atom! live := read (live_entry c s) in
    match live with
    | Some h => call! _ := touch_session_throttled th c s h in atom! _ := write (sess_memo_put th c s h) in call! _ := store_dest c s dest in Ret (Some h)
    | None => create_sess th c s dest cancelled end)).
  { rd. assert (Hc1 : conn_in c sv) by eauto 6 using conn_in_ext. destruct (live_entry c s sv) as [h|] eqn:El; [|by apply create_sess_quiet].
    assert (Hf : made_for c s h sv) by by eapply live_entry_ident.
    eapply gives_call; [done | apply touch_quiet|]. intros _ s2 He2 _. wr; [apply put_moves; eauto 6 using made_for_ext|].
    assert (Hf2 : made_for c s h (sess_memo_put th c s h sv0)).
    { eapply made_for_ext; [apply (put_moves); eauto 6 using made_for_ext|]. eauto 6 using made_for_ext. }
    eapply gives_call; [done | apply store_dest_quiet|]. intros _ s3 He3 _. ret. cbn. eauto using made_for_ext. }
  destruct hit as [|h|]; [exact Hmiss | | exact Hmiss].
  eapply gives_call; [done | apply touch_quiet|]. intros _ s2 He2 _. eapply gives_call; [done | apply store_dest_quiet|]. intros _ s3 He3 _.
  ret. cbn. eauto using made_for_ext.
Qed.

(* ------------------------------------------------------------------ *)
(** ** Closes *)

Lemma reader_exit_quiet th c s h s0 : conn_in c s0 -> quiet any s0 (reader_exit th c s h).
Proof.
  intros Hc n Hn. unfold reader_exit. wr; [by apply sess_memo_forget_moves|].
  assert (Hc1 : conn_in c (sess_memo_forget th c s h sv)). { eapply conn_in_ext; [by apply (sess_memo_forget_moves allow_private) | eauto using conn_in_ext]. }
  apply gives_quiet. intros sv1 He1 Hi1. assert (Hc2 := conn_in_ext _ _ _ He1 Hc1). assert (Hm := exit_section_moves allow_private sv1 c s h Hi1 Hc2).
  split; [done|]. assert (Hc3 := conn_in_ext _ _ _ (mv_ext _ _ _ _ _ Hm) Hc2).
  eapply (gives_call _ _ any); [done | case_match; [apply mark_session_closed_quiet | intros ??; ret]|]. intros _ s2 He2 _.
  eapply gives_call; [done | apply note_empty_state_quiet; eauto using conn_in_ext|]. intros _ s3 _ _. wr; [by apply upd_sess_moves|ret].
Qed.

(** No entry of session [s] is guarded by a flag of [fs], and none will be. *)
Definition closed_for (c s : Z) (fs : list Z) (sv : Server) : Prop :=
  Forall (fun f => sv_flags sv !! f = Some true /\ forall h, has sv c s h -> ~ guarded_by sv h f) fs.

Lemma closed_for_ext c s fs sv sv' : ext sv sv' -> closed_for c s fs sv -> closed_for c s fs sv'.
Proof.
  intros He Hf. eapply list.Forall_impl; [exact Hf|]. cbn. intros f [Hset Hno]. split; [by apply He|].
  intros h Hh Hg. destruct (ex_guard _ _ He f c s h Hset Hh Hg) as [Hh0 Hg0]. by apply (Hno h).
Qed.

Lemma flags_set_ext sv sv' fs : ext sv sv' -> Forall (fun f => sv_flags sv !! f = Some true) fs -> Forall (fun f => sv_flags sv' !! f = Some true) fs.
Proof. intros He Hf. eapply list.Forall_impl; [exact Hf|]. cbn. intros f. apply He. Qed.

Lemma r2_close_session_quiet c s s0 fs : conn_in c s0 -> Forall (fun f => sv_flags s0 !! f = Some true) fs ->
  quiet (fun _ sv => closed_for c s fs sv) s0 (r2_close_session c s).
Proof.
  intros Hc Hfs n Hn. unfold r2_close_session. apply gives_atom. intros sv He Hi _. assert (Hc1 := conn_in_ext _ _ _ He Hc).
  destruct (close_section_moves allow_private sv c s Hi Hc1) as (Hm & Hno & Hid). set (r := close_section c s sv) in *.
  assert (Hcl : closed_for c s fs r.2).
  { apply (list.Forall_impl _ _ _ (flags_set_ext _ _ _ (mv_ext _ _ _ _ _ Hm) (flags_set_ext _ _ _ He Hfs))). cbn. intros f Hf. split; [done|]. intros h Hh. by destruct (Hno h). }
  assert (Hc2 := conn_in_ext _ _ _ (mv_ext _ _ _ _ _ Hm) Hc1). eexists. split; [exact Hm|]. destruct r as [[e|] sv1]; cbn [fst snd] in *; (split; [lia|]).
  - eapply gives_call; [lia | by apply note_empty_state_quiet|]. intros _ s1 He1 _. eapply gives_call; [lia | apply mark_session_closed_quiet|]. intros _ s2 He2 _.
    eapply gives_bind; [apply (abort_evicted_gives [e] (n - -1)); rewrite len_cons, len_nil; lia|]. cbv beta. intros _ s3 He3 _.
    apply gives_ret; [eauto 6 using closed_for_ext|]. change (len [e]) with 1. lia.
  - eapply gives_call; [lia | by apply note_empty_state_quiet|]. intros _ s1 He1 _. apply gives_ret; [eauto using closed_for_ext | lia].
Qed.

Lemma close_session_quiet c s s0 : conn_in c s0 -> quiet (fun fs sv => closed_for c s fs sv) s0 (close_session c s).
Proof.
  intros Hc n Hn. unfold close_session. apply gives_quiet. intros sv He Hi. cbn [cancel_pending_opens_for_session fst snd].
  set (fs1 := pending_flags s (conn_of sv c)). destruct (set_all_flags_moves allow_private sv fs1 Hi) as [Hm1 Hf1]. split; [done|].
  apply gives_quiet. intros sv1 He1 Hi1. cbn [cancel_dns_waiters_for_session fst snd].
  set (fs2 := waiter_flags s (conn_of sv1 c)). destruct (set_all_flags_moves allow_private sv1 fs2 Hi1) as [Hm2 Hf2]. split; [done|].
  eapply (gives_call _ _ (fun _ sv => closed_for c s (fs1 ++ fs2) sv)); [done | apply r2_close_session_quiet|].
  - eapply conn_in_ext; [apply Hm2|]. eapply conn_in_ext; [exact He1|]. eapply conn_in_ext; [apply Hm1|]. eauto using conn_in_ext.
  - apply list.Forall_app. split; [|done]. eapply flags_set_ext; [apply Hm2|]. by eapply flags_set_ext.
  - intros _ s1 _ Hcl. by ret.
Qed.

(* ------------------------------------------------------------------ *)
(** ** Flow bindings *)

Lemma rcu_insert_moves sv h l : inv sv -> moves 0 0 sv (rcu_insert h l sv).2.
Proof. intros Hi. unfold rcu_insert. case_match. cbn [snd]. by apply upd_sess_moves. Qed.

Lemma r2_install_quiet c s id target resolved s0 : quiet any s0 (r2_install c s id target resolved).
Proof.
  intros n Hn. unfold r2_install. apply gives_quiet. intros sv He Hi. split; [by apply install_section_moves|].
  destruct (install_section _ _ _ _ _ _).1 as [[h l]| |]; [|ret|ret]. apply gives_quiet. intros sv1 He1 Hi1. split; [by apply rcu_insert_moves|].
  case_match; [|ret]. apply gives_quiet. intros sv2 He2 Hi2. split; [by apply registry_take_moves|].
  eapply (gives_call _ _ any); [done | unfold mark_opt; case_match; [apply mark_binding_quiet | intros ??; ret]|]. intros _ s3 _ _. ret.
Qed.

Lemma r2_remove_flow_quiet c id s0 : quiet any s0 (r2_remove_flow c id).
Proof.
  intros n Hn. unfold r2_remove_flow. apply gives_quiet. intros sv He Hi. split; [by apply registry_take_moves|].
  case_match; [|ret]. eapply gives_call; [done | apply mark_binding_quiet|]. intros _ s1 _ _. rd.
  eapply (gives_call _ _ any); [done | case_match; [intros ??; wr; [by apply upd_sess_moves | ret] | intros ??; ret]|]. intros _ s2 _ _. ret.
Qed.

Definition full_cone (c : Z) (sv : Server) : Prop := forall cn, sv_conns sv !! c = Some cn -> st_filter (cn_table cn) = FullCone.

Lemma full_cone_ext c sv sv' : conn_in c sv -> ext sv sv' -> full_cone c sv -> full_cone c sv'.
Proof. intros [cn E] He Hf cn' E'. destruct (ex_conns _ _ He _ _ E) as (cn1 & E1 & Hs & _). rewrite E1 in E'. simplify_eq. rewrite Hs. by apply Hf. Qed.

Lemma install_unsolicited_quiet c s h src s0 : conn_in c s0 -> full_cone c s0 -> quiet any s0 (install_unsolicited c s h src).
Proof.
  intros Hc Hf n Hn. unfold install_unsolicited. rd. case_match; [ret|]. rd. case_match; [ret|].
  apply gives_quiet. intros sv1 He1 Hi1. assert (Hm : moves 0 0 sv1 (let '(id, ids) := alloc_wire_id (cn_ids (conn_of sv1 c)) (cn_wire (conn_of sv1 c)) in (id, upd_conn c (with_ids ids) sv1)).2).
  { case_match. cbn [snd]. by apply conn_quiet_moves. } split; [exact Hm|]. set (r := let '(id, ids) := _ in _) in *.
  assert (Hext : ext s0 r.2). { etrans; [exact He|]. etrans; [exact He0|]. etrans; [exact He1 | apply Hm]. }
  destruct r as [[id|] sv2]; cbn [fst snd] in *; [|ret]. apply gives_quiet. intros sv3 He3 Hi3.
  split; [apply insert_unsolicited_moves; [done|]; eapply full_cone_ext; [exact Hc | by etrans | done]|].
  case_match; [|ret]. apply gives_quiet. intros sv4 He4 Hi4. split; [by apply rcu_insert_moves|]. case_match; [|ret].
  apply gives_quiet. intros sv5 He5 Hi5. split; [by apply registry_take_moves|]. eapply gives_call; [done | apply mark_binding_quiet|]. intros _ s6 _ _. ret.
Qed.

(* ------------------------------------------------------------------ *)
(** ** Forwarding *)

Notation send_ok := (send_ok allow_private).

Lemma rcu_recent_moves sv h dst : inv sv -> moves 0 0 sv (rcu_recent h dst sv).2.
Proof. intros Hi. unfold rcu_recent. case_match; cbn [snd]; [by apply moves_refl | by apply upd_sess_moves]. Qed.

Lemma remember_dst_quiet c s dst s0 : quiet any s0 (remember_dst c s dst).
Proof.
  intros n Hn. unfold remember_dst. rd. case_match; [|ret]. apply gives_quiet. intros sv1 He1 Hi1. split; [by apply rcu_recent_moves|].
  case_match; [|ret]. wr; [by apply upd_sess_moves|ret].
Qed.

Definition resolved_ok (r : ForwardResolution) : Prop := match r with FAddr a _ => send_ok a | _ => True end.

Lemma serve_target_quiet th a s0 : quiet (fun r _ => resolved_ok r) s0 (serve_target th allow_private a).
Proof.
  intros n Hn. unfold serve_target. apply gives_quiet. intros sv He Hi. destruct (allowed_moves allow_private sv th a.1 Hi) as [Hm Hok]. split; [done|].
  case_match eqn:E; [ret|]. apply negb_false_iff in E. rd. case_match; [ret|]. ret. by apply Hok.
Qed.

Lemma resolve_forward_target_quiet th c s host port memo s0 :
  quiet (fun r _ => resolved_ok r) s0 (resolve_forward_target th c s host port allow_private memo).
Proof.
  intros n Hn. unfold resolve_forward_target.
  set (fb := call! r := from_session c s host port in _).
  assert (Hfb : forall s1, gives n (fun _ => 0) (fun r _ => resolved_ok r) s1 fb).
  { intros s1. subst fb. unfold from_session, coarse. cbn [tbind]. rd. rd. case_match; [by apply serve_target_quiet | ret]. }
  destruct memo as [[dst| |] life]; [|ret|apply Hfb]. apply gives_quiet. intros sv He Hi. split; [by apply allowed_moves|].
  case_match; [apply Hfb|]. rd. case_match; [apply Hfb|]. by apply serve_target_quiet.
Qed.

Lemma walk_quiet th h send l : forall fst s0, Forall send_ok l -> quiet (fun r _ => forall a, r = Some a -> send_ok a) s0 (walk th h send fst l).
Proof.
  induction l as [|a l IH]; intros fst s0 Hl n Hn; cbn [walk]; [ret|]. inversion_clear Hl as [|?? Ha Hl']. rd. case_match; [by apply IH|].
  apply gives_quiet. intros sv1 He1 Hi1. split; [by apply send_to_moves|]. cbn [send_to Datatypes.fst].
  destruct (send a); [ret; by intros ? [= <-] | wr; [by apply mark_unreachable_moves | by apply IH] | ret].
Qed.

Lemma policy_filter_ok l : Forall send_ok (policy_filter allow_private l).
Proof.
  apply list.Forall_forall. intros a Ha. apply list_elem_of_In, filter_In in Ha as [_ Ha]. apply orb_true_iff in Ha as [?|?]; [by left | by right].
Qed.

Lemma deliver_quiet th c s host port answer life fttl send waiter s0 : conn_in c s0 ->
  quiet any s0 (deliver th c s host port allow_private answer life fttl send waiter).
Proof.
  intros Hc n Hn. unfold deliver. destruct answer as [f|addrs]; [ret|]. pose proof (policy_filter_ok addrs) as Hok.
  destruct (policy_filter allow_private addrs) as [|pref rest]; [ret|]. rd. case_match; [ret|].
  eapply gives_call; [done | apply get_or_create_quiet; eauto using conn_in_ext|]. intros sock s1 He1 _. destruct sock as [h|]; [|ret].
  rd. case_match; [ret|]. eapply gives_call; [done | by apply walk_quiet|]. intros sent s2 He2 _. destruct sent as [a|]; [|ret].
  eapply gives_call; [done | apply remember_dst_quiet|]. intros _ s3 _ _. case_match; [ret|].
  eapply gives_call; [done | apply sess_dest_store_quiet|]. intros _ s4 _ _. ret.
Qed.

Lemma gate_section_quiet {A} c (f : DnsGate -> A * list HotStore * DnsGate) s0 : quiet any s0 (gate_section c f).
Proof.
  intros n Hn. unfold gate_section. apply gives_quiet. intros sv He Hi. split; [by apply on_gate_moves|].
  eapply gives_call; [done | apply quiet_for_each; intros x s1 _ _ m Hm; wr; [by apply conn_quiet_moves | ret]|]. intros _ s1 _ _. ret.
Qed.

Lemma claim_gate_quiet c s host port now s0 : quiet any s0 (claim_gate c s host port now).
Proof.
  intros n Hn. unfold claim_gate. cbv zeta. set (lock := call! v := gate_section c _ in Ret v).
  assert (Hl : forall s1, gives n (fun _ => 0) any s1 lock) by (intros s1; eapply gives_call; [done | apply gate_section_quiet|]; intros v s2 _ _; ret).
  rd. case_match; [apply Hl|]. rd. case_match; [apply Hl|]. rd. case_match; [ret | apply Hl].
Qed.

Lemma deliver_parked_quiet th c s host port parked : forall replies s0, conn_in c s0 ->
  quiet any s0 (deliver_parked th c s host port allow_private parked replies).
Proof.
  induction parked as [|p parked IH]; intros replies s0 Hc n Hn; cbn [deliver_parked]; [ret|]. destruct replies as [|r replies]; [ret|].
  eapply gives_call; [done | by apply deliver_quiet|]. intros _ s1 He1 _. apply IH; eauto using conn_in_ext.
Qed.

Lemma dns_waiter_quiet th c s host port gen flag fst followers s0 : conn_in c s0 ->
  quiet any s0 (dns_waiter th c s host port allow_private gen flag fst followers).
Proof.
  intros Hc n Hn. unfold dns_waiter. eapply gives_call; [done | by apply deliver_quiet|]. intros o s1 He1 _.
  assert (Hpark : quiet any s1 (atom! parked := on_gate c (take_parked s host port gen) in deliver_parked th c s host port allow_private parked followers)).
  { intros m Hm0. apply gives_quiet. intros sv He Hi. assert (Hm := on_gate_moves allow_private sv c (take_parked s host port gen) Hi). split; [done|].
    apply deliver_parked_quiet; [|done]. eapply conn_in_ext; [apply Hm|]. eauto using conn_in_ext. }
  eapply (gives_call _ _ any); [done | destruct o; [exact Hpark | intros ??; ret | exact Hpark]|]. intros _ s2 _ _.
  unfold coarse. rd. eapply gives_call; [done | apply gate_section_quiet|]. intros _ s3 _ _. wr; [by apply drop_waiter_moves | ret].
Qed.

(** What a forward reports as sent went to an allowed address, for a real session. *)
Definition sent_ok (s : Z) (f : Forwarded) : Prop := match f with FSent dst _ => send_ok dst /\ s <> 0 | _ => True end.

Lemma get_or_create_nonzero th c s dest cancelled s0 : conn_in c s0 ->
  quiet (fun r sv => sock_for c s r sv /\ (s = 0 -> r = None)) s0 (get_or_create_sess_guarded th c s dest cancelled).
Proof.
  intros Hc. destruct (decide (s = 0)) as [->|Hne]; [intros n Hn; ret|].
  eapply quiet_weaken; [|by apply get_or_create_quiet]. intros r sv _ Hr. by split.
Qed.

(** A send ends with the kernel, or last in the burst buffer, on the session's
    socket and for an allowed address. *)
Definition staged_more (c s : Z) (staged staged' : option (list StagedSend)) (sv : Server) : Prop :=
  match staged, staged' with
  | None, None => True
  | Some l, Some l' => l' = l \/ exists h dst payload, l' = l ++ [mkStaged h dst payload] /\ send_ok dst /\ made_for c s h sv
  | _, _ => False
  end.
Lemma staged_more_refl c s st sv : staged_more c s st st sv.
Proof. destruct st; cbn; auto. Qed.
Hint Resolve staged_more_refl : core.
Lemma staged_more_ext c s st st' sv sv' : ext sv sv' -> staged_more c s st st' sv -> staged_more c s st st' sv'.
Proof.
  intros He. destruct st, st'; cbn; try done. intros [->|(h & d & p & -> & ? & ?)]; [by left|]. right. eauto 10 using made_for_ext.
Qed.

Lemma emit_quiet c s h dst payload send st s0 : send_ok dst -> made_for c s h s0 ->
  quiet (fun r sv => staged_more c s st r.2 sv) s0 (emit h dst payload send st).
Proof.
  intros Hd Hh n Hn. unfold emit. destruct st as [l|]; [ret; right; eauto 8|].
  apply gives_quiet. intros sv He Hi. split; [by apply send_to_moves | ret].
Qed.

Definition forward_post (c s : Z) (st : option (list StagedSend)) (r : Forwarded * option (list StagedSend)) (sv : Server) : Prop :=
  sent_ok s r.1 /\ staged_more c s st r.2 sv.

Lemma forward_quiet th c s addr payload memo send bud st s0 : conn_in c s0 ->
  quiet (forward_post c s st) s0 (forward_server_dgram th c s addr payload allow_private memo send bud st).
Proof.
  intros Hc n Hn. unfold forward_server_dgram. destruct addr as [dst|host port].
  - apply gives_quiet. intros sv He Hi. destruct (allowed_moves allow_private sv th dst Hi) as [Hm Hok]. split; [done|].
    case_match eqn:E; [by ret|]. apply negb_false_iff in E. apply Hok in E.
    eapply gives_call; [done | apply get_or_create_nonzero; eapply conn_in_ext; [apply Hm|]; eauto using conn_in_ext|]. intros sock s1 He1 [Hsk Hnz].
    destruct sock as [h|]; [|by ret]. eapply gives_call; [done | apply remember_dst_quiet|]. intros _ s2 He2 _.
    eapply gives_call; [done | apply (emit_quiet c s); [done | by eapply made_for_ext]|]. intros e s3 He3 Hst. ret. split; [split; [done | intros E0; by apply Hnz in E0] | done].
  - eapply gives_call; [done | apply resolve_forward_target_quiet|]. intros r s1 He1 Hr. cbv beta in Hr. destruct r as [|dst life|]; [by ret| |].
    + eapply gives_call; [done | apply get_or_create_nonzero; eauto using conn_in_ext|]. intros sock s2 He2 [Hsk Hnz]. destruct sock as [h|]; [|by ret].
      eapply gives_call; [done | apply remember_dst_quiet|]. intros _ s3 He3 _.
      eapply gives_call; [done | apply (emit_quiet c s); [done | by eapply made_for_ext]|]. intros e s4 He4 Hst. cbv beta in Hst.
      assert (s <> 0) by (intros E0; by apply Hnz in E0). destruct e.1; [by ret | | by ret].
      wr; [by apply mark_unreachable_moves|]. ret. split; [done|]. eapply staged_more_ext; [|exact Hst].
      etrans; [exact He | by apply (mark_unreachable_moves allow_private)].
    + case_match; [by ret|]. unfold coarse. rd. eapply gives_call; [done | apply claim_gate_quiet|]. intros v s2 _ _. destruct v; [| |by ret].
      * apply gives_quiet. intros sv1 He3 Hi3. split; [by apply begin_dns_waiter_moves | by ret].
      * apply gives_quiet. intros sv1 He3 Hi3. split; [by apply on_gate_moves | by ret].
Qed.

Lemma send_queued_quiet h dst pending send l : forall s0, send_ok dst -> quiet any s0 (send_queued h dst pending send l).
Proof.
  induction l as [|b l IH]; intros s0 Hd n Hn; cbn [send_queued]; [ret|]. rd. case_match; [by apply IH|].
  apply gives_quiet. intros sv1 He1 Hi1. split; [by apply send_to_moves | by apply IH].
Qed.

Lemma domain_open_quiet th c s id host port pending reply bud s0 : conn_in c s0 ->
  quiet any s0 (domain_open th c s id host port allow_private pending reply bud).
Proof.
  intros Hc n Hn. unfold domain_open. eapply (gives_call _ _ any); [done| |intros _ s1 _ _; apply gives_quiet; intros sv1 He1 Hi1; split; [by apply drop_pending_moves | ret]].
  clear n Hn. intros n Hn. unfold domain_open_body. rd. case_match; [ret|]. destruct (rp_answer reply) as [f|addrs]; [ret|].
  assert (Hok : Forall send_ok (policy_resolved addrs allow_private)) by apply list.Forall_take, policy_filter_ok.
  destruct (policy_resolved addrs allow_private) as [|dst rest]; [ret|]. inversion_clear Hok as [|?? Hd _]. rd. case_match; [ret|]. rd. case_match; [ret|].
  eapply gives_call; [done | apply get_or_create_quiet; eauto 8 using conn_in_ext|]. intros sock s1 He2 _. destruct sock as [h|]; [|ret].
  rd. case_match; [ret|]. eapply gives_call; [done | apply remember_dst_quiet|]. intros _ s2 _ _. apply gives_quiet. intros sv3 He4 Hi4. split; [by apply send_to_moves|].
  apply gives_quiet. intros sv4 He5 Hi5. split; [by apply take_payloads_moves|]. eapply gives_call; [done | by apply send_queued_quiet|]. intros _ s3 _ _.
  eapply gives_call; [done | apply r2_install_quiet|]. intros _ s4 _ _. ret.
Qed.

End Progs.
