(* ===== verification/FastProgs.v ===== *)
(** The datagram reader's forwarding path in the logic of [SessSafe]: what a
    reader owns stays about its own connection and inside the address policy. *)
From stdpp Require Import fin_maps.
From S2P Require Import Prelude Addr DnsKey DnsPolicy DnsMemo DnsAnswer Wire Binding Flow FlowRun Pin FastTable FastRun DnsGate Sess SessTask FastPath SessInv SessAtoms SessSafe SessProgs.

(* ------------------------------------------------------------------ *)
(** ** Where the entries and pins of a table come from *)

(** Every entry satisfies [P] and every pin [Q]. *)
Definition entries (P : FastSess -> Prop) (t : FastTable) : Prop := forall i e, ft_slots t !! i = Some (Some e) -> P e.
Definition all_pins (Q : SocketAddr -> Prop) (t : FastTable) : Prop := forall i p, ft_pins t !! i = Some (Some p) -> Q (cp_addr p).

Lemma insert_all {A} (P : A -> Prop) (l : list (option A)) i x :
  (forall j e, l !! j = Some (Some e) -> P e) -> (forall e, x = Some e -> P e) -> forall j e, <[i := x]> l !! j = Some (Some e) -> P e.
Proof. intros Hl Hx j e [(_ & E & _)|[_ E]]%list_lookup_insert_Some; [by apply Hx | by eapply Hl]. Qed.

Lemma touch_slots i a t : ft_slots (fast_touch i a t) = ft_slots t /\ ft_pins (fast_touch i a t) = ft_pins t.
Proof. unfold fast_touch. by case_match. Qed.

Lemma arm_fresh_entries P s h fin last t : entries P t -> P (mkFastSess s h None) -> entries P (arm_fresh s h fin last t).
Proof.
  intros Ht Hn. unfold arm_fresh, fast_insert, entries. repeat case_match; rewrite ?(proj1 (touch_slots _ _ _)); try exact Ht; cbn;
    (apply insert_all; [exact Ht | by intros e [= <-]]).
Qed.

Lemma clear_entries P s t : entries P t -> entries P (fast_clear s t).2.
Proof.
  intros Ht. unfold fast_clear, pin_clear, entries. repeat case_match; cbn; try exact Ht; (apply insert_all; [exact Ht | done]).
Qed.

Lemma pin_store_entries P p t : entries P t -> entries P (pin_store p t).
Proof. done. Qed.

Lemma pin_store_pins (Q : SocketAddr -> Prop) p t : all_pins Q t -> Q (cp_addr p) -> all_pins Q (pin_store p t).
Proof. intros Ht Hp. unfold all_pins, pin_store. cbn. apply (insert_all (fun p => Q (cp_addr p))); [exact Ht | by intros q [= <-]]. Qed.

Lemma clear_pins_all Q s t : all_pins Q t -> all_pins Q (fast_clear s t).2.
Proof.
  intros Ht. unfold all_pins. rewrite (proj2 (clear_pins s t)). unfold pin_clear. case_match; [|exact Ht]. cbn.
  apply (insert_all (fun p => Q (cp_addr p))); [exact Ht | done].
Qed.

Lemma pin_arm_addr ck s host port addr life p : pin_arm ck None s host port addr life = Some p -> cp_addr p = addr.
Proof. unfold pin_arm. case_match; [done|]. by intros [= <-]. Qed.

Lemma note_path_same b t : ft_tags (note_path b t).2 = ft_tags t /\ ft_slots (note_path b t).2 = ft_slots t /\ ft_pins (note_path b t).2 = ft_pins t /\
  (ft_inv t -> ft_inv (note_path b t).2).
Proof. unfold note_path, flush_stats. destruct b; case_match; cbn; (split_and!; [done..|]); intros []; by split. Qed.

Lemma set_last_entries (P : FastSess -> Prop) i m t : (forall e, P e -> P (mkFastSess (fs_sess e) (fs_h e) m)) -> entries P t -> entries P (set_last_dst i m t).
Proof.
  intros Hm Ht j e. rewrite set_last_slot. destruct (decide (i = j)) as [->|]; [|apply Ht]. intros E.
  destruct (ft_slots t !! j) as [[e'|]|] eqn:Ee; cbn in E; try done. injection E as <-. by apply Hm, (Ht j).
Qed.

Lemma probe_cached_same s t : ft_slots (probe_cached s t).2 = ft_slots t /\ ft_pins (probe_cached s t).2 = ft_pins t.
Proof. unfold probe_cached. repeat case_match; done. Qed.

(* ------------------------------------------------------------------ *)
(** ** The reader's state *)

Section Reader.
Context `{HashIter} `{GateHasher} `{IpNet} (allow_private : bool).

Notation inv := (inv allow_private).
Notation moves := (moves allow_private).
Notation gives := (gives allow_private).
Notation quiet := (quiet allow_private).
Notation send_ok := (send_ok allow_private).

Ltac rd := apply gives_read; intros ?sv ?He ?Hi.
Ltac wr := apply gives_write; intros ?sv ?He ?Hi; split.
Ltac ret := apply gives_ret; [try done|try done].

Record table_ok (c : Z) (sv : Server) (t : FastTable) : Prop := mkTableOk {
  tk_inv : ft_inv t;
  tk_slots : entries (fun e => made_for c (fs_sess e) (fs_h e) sv) t;
  tk_pins : all_pins send_ok t
}.
Definition staged_ok (c : Z) (sv : Server) (x : StagedSend) : Prop := send_ok (sg_dst x) /\ exists s, made_for c s (sg_h x) sv.
Definition reader_ok (c : Z) (sv : Server) (r : Reader) : Prop := table_ok c sv (rd_fast r) /\ Forall (staged_ok c sv) (rd_staged r).

Lemma table_ok_ext c sv sv' t : ext sv sv' -> table_ok c sv t -> table_ok c sv' t.
Proof. intros He [A1 A2 A3]. split; [done | | done]. intros i e E. eapply made_for_ext; [exact He | by eapply A2]. Qed.
Lemma staged_ok_ext c sv sv' x : ext sv sv' -> staged_ok c sv x -> staged_ok c sv' x.
Proof. intros He [A1 [s Hs]]. split; [done|]. exists s. by eapply made_for_ext. Qed.
Lemma reader_ok_ext c sv sv' r : ext sv sv' -> reader_ok c sv r -> reader_ok c sv' r.
Proof. intros He [A1 A2]. split; [by eapply table_ok_ext|]. eapply list.Forall_impl; [exact A2|]. intros x. by apply staged_ok_ext. Qed.

Lemma reader_new_ok c sv : reader_ok c sv Reader_new.
Proof.
  split; [|constructor]. split; [apply new_table_inv | |]; intros i x E; cbn [Reader_new rd_fast FastTable_new ft_slots ft_pins] in E;
    by apply list_elem_of_lookup_2, list_elem_of_In, repeat_spec in E.
Qed.

(* ------------------------------------------------------------------ *)
(** ** Its programs *)

Lemma send_group_moves sv g : inv sv -> Forall (fun x => send_ok (sg_dst x)) g -> moves 0 0 sv (send_group g sv).
Proof.
  unfold send_group. intros Hi Hg. revert sv Hi. induction Hg as [|x g Hx Hg IH]; intros sv Hi; cbn [fold_left]; [by apply moves_refl|].
  pose proof (send_to_moves allow_private sv (sg_h x) (sg_dst x) SendOk Hi Hx) as Hm. cbn [send_to snd] in Hm.
  eapply moves_eq; [eapply moves_trans; [exact Hm | apply IH, Hm] | lia | lia].
Qed.

Lemma span_app {A} (p : A -> bool) l : l = (span p l).1 ++ (span p l).2.
Proof. induction l as [|x l IH]; cbn; [done|]. destruct (p x); [|done]. destruct (span p l) as [a b]. cbn in *. by rewrite <- IH. Qed.

Lemma chunks_go_concat {A} turns n (l : list A) : (0 < n)%nat -> (length l <= turns)%nat -> concat (chunks_go turns n l) = l.
Proof.
  intros Hn. revert l; induction turns as [|turns IH]; intros l Hl; [destruct l; [done | cbn in Hl; lia]|]. destruct l as [|x l]; [done|].
  cbn [chunks_go concat]. rewrite IH; [apply take_drop|]. rewrite length_drop. cbn in *. lia.
Qed.
Lemma drain_chunks {A} (l : list A) : concat (chunks LAST_HOP_DRAIN l) = l.
Proof. apply chunks_go_concat; unfold LAST_HOP_DRAIN; lia. Qed.

Lemma send_groups_quiet gs s0 : Forall (Forall (fun x => send_ok (sg_dst x))) gs ->
  quiet any s0 (for_each gs (fun g => atom! _ := write (send_group g) in Ret tt)).
Proof.
  intros Hg. apply quiet_for_each. intros g s Hin _ n Hn. rewrite list.Forall_forall in Hg. wr; [by apply send_group_moves, Hg | ret].
Qed.

Lemma flush_runs_quiet turns : forall l s0, Forall (fun x => send_ok (sg_dst x)) l -> quiet any s0 (flush_runs turns l).
Proof.
  induction turns as [|turns IH]; intros l s0 Hl n Hn; [ret|]. destruct l as [|x l]; cbn [flush_runs]; [ret|]. inversion_clear Hl as [|?? Hx Hl'].
  pose proof (span_app (same_run x) l) as Es. destruct (span (same_run x) l) as [run rest]. cbn [fst snd] in Es. subst l. apply list.Forall_app in Hl' as [Hr1 Hr2].
  eapply gives_call; [done | apply send_groups_quiet | intros _ s1 _ _; by apply IH].
  apply list.Forall_forall. intros g Hg. apply list.Forall_forall. intros y Hy.
  assert (Hin : y ∈ x :: run) by (rewrite <- (drain_chunks (x :: run)); apply list_elem_of_In, in_concat; setoid_rewrite <- list_elem_of_In; eauto).
  apply elem_of_cons in Hin as [->|Hin]; [done|]. rewrite list.Forall_forall in Hr1. by apply Hr1.
Qed.

Lemma flush_quiet c r s0 : reader_ok c s0 r -> quiet (fun r' sv => reader_ok c sv r' /\ rd_staged r' = []) s0 (flush_staged_sends r).
Proof.
  intros [Ht Hs] n Hn. unfold flush_staged_sends. eapply gives_call; [done | apply flush_runs_quiet; eapply list.Forall_impl; [exact Hs | by intros x [? _]]|].
  intros _ s1 He _. ret. split; [|done]. split; [by eapply table_ok_ext | constructor].
Qed.

Lemma adopt_quiet th s host port dst life s0 :
  quiet (fun r _ => forall p, r.2 = Some p -> send_ok (cp_addr p)) s0 (adopt th s host port allow_private None dst life).
Proof.
  intros n Hn. unfold adopt. apply gives_quiet. intros sv He Hi. destruct (allowed_moves allow_private sv th dst Hi) as [Hm Hok]. split; [done|].
  destruct (allowed th allow_private dst sv).1; [|ret]. rd. ret. cbn [snd]. intros p E. apply pin_arm_addr in E as ->. by apply Hok.
Qed.

Lemma resolve_fast_quiet th c t s a memo s0 : table_ok c s0 t ->
  quiet (fun r sv => table_ok c sv r.2) s0 (resolve_fast th c t s a allow_private memo).
Proof.
  intros Ht n Hn. unfold resolve_fast. destruct a as [dst|host port]; [ret|]. rd. assert (Ht1 := table_ok_ext _ _ _ _ He Ht). case_match; [ret|].
  eapply (gives_call _ _ (fun r _ => forall p, r.2 = Some p -> send_ok (cp_addr p))); [done | |].
  - clear n Hn. intros n Hn. unfold resolve_pin, coarse. rd. cbn [pin_hit]. rd. repeat case_match; first [by apply adopt_quiet | ret].
  - intros r s1 He1 Hr. assert (Ht2 := table_ok_ext _ _ _ _ He1 Ht1). ret. destruct r as [[dst|] [p|]]; cbn [snd]; try exact Ht2.
    destruct Ht2 as [A1 A2 A3]. split; [apply pins_inv; [done | by rewrite length_insert..] | exact A2 | apply pin_store_pins; [done | by apply Hr]].
Qed.

Lemma mirror_quiet c s dst e m s0 : quiet any s0 (mirror_record c s dst e m).
Proof.
  intros n Hn. unfold mirror_record. destruct e as [h|].
  - rd. case_match; [ret|]. eapply gives_call; [done | apply remember_dst_quiet|]. intros _ s1 _ _. rd. ret.
  - eapply gives_call; [done | apply remember_dst_quiet|]. intros _ s1 _ _. ret.
Qed.

(** What a stage leaves: a sound reader, and on a hit one more send, with this
    session's socket. *)
Definition stage_post (c s : Z) (dst : SocketAddr) (payload : bytes) (r : Reader) (out : bool * Reader) (sv : Server) : Prop :=
  reader_ok c sv out.2 /\
  (out.1 = true -> exists h, rd_staged out.2 = rd_staged r ++ [mkStaged h dst payload] /\ made_for c s h sv).

Lemma try_stage_inner_quiet th c s dst payload r s0 : reader_ok c s0 r ->
  quiet (stage_post c s dst payload r) s0 (try_stage_inner th c s dst payload allow_private r).
Proof.
  intros [[Hi Hs Hp] Hst] n Hn. unfold try_stage_inner. destruct (probe_cached_spec s _ Hi) as (_ & Hi' & _). destruct (probe_cached_same s (rd_fast r)) as [Es Ep].
  destruct (probe_cached s (rd_fast r)) as [idx t]. cbn [snd] in *.
  assert (Hr : reader_ok c s0 (mkReader t (rd_staged r))).
  { split; [|done]. split; cbn; [done | unfold entries; by rewrite Es | unfold all_pins; by rewrite Ep]. }
  assert (Hmiss : forall s1, ext s0 s1 -> gives n (fun _ => 0) (stage_post c s dst payload r) s1 (Ret (false, mkReader t (rd_staged r)))).
  { intros s1 He. ret. split; [by eapply reader_ok_ext | done]. }
  clear Es Ep. destruct idx as [idx|]; [|by apply Hmiss]. destruct (get_slot t idx) as [slot|] eqn:Eg; [|by apply Hmiss].
  assert (Hm0 : made_for c (fs_sess slot) (fs_h slot) s0).
  { unfold get_slot in Eg. destruct (ft_slots t !! idx) as [[x|]|] eqn:Ex; cbn in Eg; try done. injection Eg as ->. by apply (tk_slots _ _ _ (proj1 Hr) idx). }
  destruct (fs_sess slot =? s) eqn:E; cbn [negb]; [|by apply Hmiss]. apply Z.eqb_eq in E. rewrite E in Hm0.
  rd. case_match; [by apply Hmiss|]. apply gives_quiet. intros sv1 He1 Hi1. destruct (allowed_moves allow_private sv1 th dst Hi1) as [Hm Hok]. split; [done|].
  assert (Hx : ext s0 (allowed th allow_private dst sv1).2) by (etrans; [exact He|]; etrans; [exact He1 | apply Hm]).
  destruct (allowed th allow_private dst sv1).1; cbn [negb]; [|by apply Hmiss]. specialize (Hok eq_refl). rd. case_match; [apply Hmiss; by etrans|].
  eapply gives_call; [done | apply touch_quiet|]. intros _ s2 He3 _. eapply gives_call; [done | apply mirror_quiet|]. intros m s3 He4 _. rd. ret.
  assert (Hx' : ext s0 sv2) by (repeat (etrans; [eassumption|]); reflexivity).
  assert (Hh : made_for c s (fs_h slot) sv2) by (eapply made_for_ext; [exact Hx' | done]). destruct (reader_ok_ext _ _ _ _ Hx' Hr) as [[T1 T2 T3] T4]. cbn in T1, T2, T3, T4.
  split; [|intros _; by exists (fs_h slot)]. split; cbn.
  - split; [by apply touch_inv, set_last_inv | |].
    + unfold entries. rewrite (proj1 (touch_slots _ _ _)). by apply set_last_entries.
    + unfold all_pins. by rewrite (proj2 (touch_slots _ _ _)).
  - apply list.Forall_app. split; [done|]. constructor; [|constructor]. split; [done | by exists s].
Qed.

Lemma try_stage_quiet th c s dst payload r s0 : reader_ok c s0 r ->
  quiet (stage_post c s dst payload r) s0 (try_stage th c s dst payload allow_private r).
Proof.
  intros Hr n Hn. unfold try_stage. eapply gives_call; [done | by apply try_stage_inner_quiet|]. intros [b r'] s1 He [[Ht Hs] Hst]. ret.
  split; [|exact Hst]. split; [|done]. cbn. destruct (note_path_same b (rd_fast r')) as (_ & E2 & E3 & Hinv). destruct Ht as [T1 T2 T3].
  split; [by apply Hinv | unfold entries; by rewrite E2 | unfold all_pins; by rewrite E3].
Qed.

Lemma arm_fast_quiet th c s t s0 : s <> 0 -> table_ok c s0 t -> quiet (fun t' sv => table_ok c sv t') s0 (arm_fast th c s t).
Proof.
  intros Hs Ht n Hn. unfold arm_fast. eapply gives_call; [done | apply sess_memo_lookup_quiet|]. intros hit s1 He Hh. cbv beta in Hh.
  assert (Ht1 := table_ok_ext _ _ _ _ He Ht). destruct hit as [|h|].
  - ret.
  - rd. rd. ret. assert (Hx : ext s1 sv0) by (by etrans). destruct (table_ok_ext _ _ _ _ Hx Ht1) as [T1 T2 T3]. split.
    + by apply arm_fresh_spec.
    + apply arm_fresh_entries; [done|]. by eapply made_for_ext.
    + unfold all_pins. by rewrite (proj2 (arm_fresh_pins _ _ _ _ _)).
  - ret. destruct Ht1 as [T1 T2 T3]. split; [by apply clear_spec | by apply clear_entries | by apply clear_pins_all].
Qed.

Lemma arm_target_quiet th c s a used t s0 : sent_ok allow_private s used -> table_ok c s0 t ->
  quiet (fun r sv => table_ok c sv r.2) s0 (arm_fast_with_target th c s a used t).
Proof.
  intros Hu Ht n Hn. unfold arm_fast_with_target. destruct used as [|dst life|g f]; [ret| |ret]. destruct Hu as [Hd Hs].
  eapply gives_call; [done | by apply arm_fast_quiet|]. intros t' s1 He Ht'. cbv beta in Ht'. destruct a as [d|host port]; [ret|]. rd. ret. cbn [snd].
  destruct (table_ok_ext _ _ _ _ He0 Ht') as [T1 T2 T3]. unfold pin_cache. destruct (pin_arm _ _ _ _ _ _ _) as [p|] eqn:Ep; [|done].
  split; [apply pins_inv; [done | by rewrite length_insert..] | exact T2 | apply pin_store_pins; [done|]]. by apply pin_arm_addr in Ep as ->.
Qed.

(** What an item leaves: a sound reader; a staged item is the last staged send,
    with this session's socket; a forwarded one went after everything staged. *)
Definition item_post (c s : Z) (payload : bytes) (r : Reader) (out : ItemOut * Reader) (sv : Server) : Prop :=
  reader_ok c sv out.2 /\
  match out.1 with
  | IStaged => exists h dst, rd_staged out.2 = rd_staged r ++ [mkStaged h dst payload] /\ made_for c s h sv
  | IForwarded f => rd_staged out.2 = [] /\ sent_ok allow_private s f
  end.

Lemma item_post_ext c s payload r out sv sv' : ext sv sv' -> item_post c s payload r out sv -> item_post c s payload r out sv'.
Proof.
  intros He [Hr Ho]. split; [by eapply reader_ok_ext|]. destruct out.1; [|done]. destruct Ho as (h & dst & E & Hh). exists h, dst.
  split; [done | by eapply made_for_ext].
Qed.

Lemma forward_wanted_quiet th c s a want payload memo send budget r s0 : conn_in c s0 -> reader_ok c s0 r ->
  quiet (item_post c s payload r) s0 (forward_wanted th c s a want payload allow_private memo send budget r).
Proof.
  intros Hc Hr n Hn. unfold forward_wanted.
  eapply (gives_call _ _ (fun out sv => reader_ok c sv out.2 /\ (out.1 = true -> exists h dst, rd_staged out.2 = rd_staged r ++ [mkStaged h dst payload] /\ made_for c s h sv))); [done | |].
  { destruct want as [dst|]; [|intros m Hm; ret]. eapply quiet_weaken; [|by apply try_stage_quiet]. intros out sv _ [A1' A2']. split; [done|].
    intros E. destruct (A2' E) as (h & E1 & E2). eauto. }
  intros st s2 He2 [Hr2 Hst2]. destruct st as [[] r2]; cbn [fst snd] in *; [ret; split; [done | by apply Hst2]|].
  eapply gives_call; [done | by apply flush_quiet|]. intros r3 s3 He3 [Hr3 E3].
  eapply gives_call; [done | apply forward_quiet; eapply conn_in_ext; [exact He3|]; by eapply conn_in_ext|].
  intros used s4 He4 [Hu _]. eapply gives_call; [done | apply arm_target_quiet; [done | eapply table_ok_ext; [exact He4 | apply Hr3]]|].
  intros [b t] s5 He5 Ht5. ret. split; cbn; [|done]. split; [done|]. cbn. rewrite E3. constructor.
Qed.

Lemma forward_item_quiet th c s a payload memo memo2 send budget r s0 : conn_in c s0 -> reader_ok c s0 r ->
  quiet (item_post c s payload r) s0 (forward_v3_item th c s a payload allow_private memo memo2 send budget r).
Proof.
  intros Hc [Ht Hst] n Hn. unfold forward_v3_item. eapply gives_call; [done | by apply resolve_fast_quiet|]. intros want s1 He Hw. cbv beta in Hw.
  apply (forward_wanted_quiet th c s a want.1 payload memo2 send budget (mkReader want.2 (rd_staged r))); [by eapply conn_in_ext | | done].
  split; [done|]. eapply list.Forall_impl; [exact Hst|]. intros x. by apply staged_ok_ext.
Qed.

(* ------------------------------------------------------------------ *)
(** ** Installed flows and OPENs *)

(** A flow's payload leaves a sound reader: whatever binding was looked up, what
    it adds to the burst is on the session's socket and inside the policy. *)
Lemma flow_resolved_quiet th c l payload r s0 : conn_in c s0 -> reader_ok c s0 r ->
  quiet (fun out sv => reader_ok c sv out.2) s0 (r2_forward_flow_resolved th c l payload allow_private r).
Proof.
  intros Hc Hr n Hn. unfold r2_forward_flow_resolved. destruct l as [l|]; [|ret]. rd. assert (Hr1 := reader_ok_ext _ _ _ _ He Hr).
  assert (Hc1 := conn_in_ext _ _ _ He Hc). set (b := sv_heap sv !!! l). case_match; [ret|]. set (d := match target_ip b with Some _ => _ | None => _ end).
  destruct d as [dst|]; [|ret]. eapply gives_call; [done | by apply try_stage_quiet|]. intros st s1 He1 [Hr2 _]. destruct st as [[] r2]; cbn [fst snd] in *; [ret|].
  eapply gives_call; [done | apply forward_quiet; by eapply conn_in_ext|]. intros [used st] s2 He2 [Hu Hst]. cbn [fst snd] in *.
  destruct (reader_ok_ext _ _ _ _ He2 Hr2) as [Ht2 Hs2].
  assert (Hs : Forall (staged_ok c s2) (default [] st)).
  { destruct st as [l'|]; [|done]. cbn in Hst |- *. destruct Hst as [->|(h & d & p & -> & Hd & Hh)]; [done|]. apply list.Forall_app. split; [done|].
    constructor; [|constructor]. split; [done | eauto]. }
  destruct used as [|u life|]; [ret; by split | | ret; by split]. destruct Hu as [_ Hs0].
  eapply gives_call; [done | by apply arm_fast_quiet|]. intros t s3 He3 Ht3. ret. split; [done|]. cbn. eapply list.Forall_impl; [exact Hs|]. intros x. by apply staged_ok_ext.
Qed.

Lemma flow_item_quiet th c id payload r s0 : conn_in c s0 -> reader_ok c s0 r ->
  quiet (fun out sv => reader_ok c sv out.2) s0 (r2_forward_flow_item th c id payload allow_private r).
Proof. intros Hc Hr n Hn. unfold r2_forward_flow_item. rd. apply flow_resolved_quiet; [by eapply conn_in_ext | by eapply reader_ok_ext | done]. Qed.

Lemma open_install_quiet c s id target resolved r s0 : reader_ok c s0 r ->
  quiet (fun out sv => reader_ok c sv out.2) s0 (open_install c s id target resolved r).
Proof.
  intros Hr n Hn. unfold open_install. eapply gives_call; [done | apply r2_install_quiet|]. intros _ s1 He _. ret. by eapply reader_ok_ext.
Qed.

Lemma open_known_quiet th c s host port payload dst life send r s0 : conn_in c s0 -> reader_ok c s0 r -> send_ok dst ->
  quiet (fun out sv => reader_ok c sv out.2) s0 (open_known th c s host port payload dst life send r).
Proof.
  intros Hc Hr Hd n Hn. unfold open_known. eapply gives_call; [done | by apply flush_quiet|]. intros r1 s1 He1 [Hr1 E1].
  eapply gives_call; [done | apply get_or_create_nonzero; by eapply conn_in_ext|]. intros sock s2 He2 [_ Hnz]. assert (Hr2 := reader_ok_ext _ _ _ _ He2 Hr1).
  destruct sock as [h|]; [|ret]. assert (s <> 0) by (intros E0; by apply Hnz in E0). eapply gives_call; [done | apply remember_dst_quiet|]. intros _ s3 He3 _.
  apply gives_quiet. intros sv He4 Hi. assert (Hm := send_to_moves allow_private sv h dst (send dst) Hi Hd). split; [done|].
  assert (Hr3 : reader_ok c (send_to h dst (send dst) sv).2 r1) by (eapply reader_ok_ext; [apply Hm|]; eapply reader_ok_ext; [exact He4|]; by eapply reader_ok_ext).
  eapply gives_call; [done | apply arm_fast_quiet; [done | apply Hr3]|]. intros t s4 He5 Ht. cbv beta in Ht. rd. ret. split; cbn [snd rd_fast rd_staged].
  - destruct (table_ok_ext _ _ _ _ He Ht) as [T1 T2 T3]. unfold pin_cache. destruct (pin_arm _ _ _ _ _ _ _) as [p|] eqn:Ep; [|done].
    split; [apply pins_inv; [done | by rewrite length_insert..] | exact T2 | apply pin_store_pins; [done|]]. by apply pin_arm_addr in Ep as ->.
  - rewrite E1. constructor.
Qed.

(** What an OPEN leaves: a sound reader. *)
Definition open_post (c : Z) (out : OpenOut * Reader) (sv : Server) : Prop := reader_ok c sv out.2.

Lemma open_cold_quiet th c s id host port payload memo memo2 send budget r s0 : conn_in c s0 -> reader_ok c s0 r ->
  quiet (open_post c) s0 (open_cold th c s id host port payload allow_private memo memo2 send budget r).
Proof.
  intros Hc Hr n Hn. unfold open_cold. apply gives_quiet. intros sv He Hi. assert (Hm := begin_pending_open_moves allow_private sv c s id (AddrDomain host port) Hi).
  split; [done|]. assert (Hx : ext s0 (begin_pending_open c s id (AddrDomain host port) sv).2) by (etrans; [exact He | apply Hm]).
  assert (Hr1 := reader_ok_ext _ _ _ _ Hx Hr). destruct (begin_pending_open _ _ _ _ _).1; [ret | | ret].
  apply gives_quiet. intros sv1 He1 Hi1. assert (Hm1 := queue_payload_moves allow_private sv1 c s id (AddrDomain host port) payload Hi1). split; [done|].
  assert (Hx1 : ext s0 (queue_pending_open_payload c s id (AddrDomain host port) payload sv1).2) by (etrans; [exact Hx|]; etrans; [exact He1 | apply Hm1]).
  assert (Hr2 := reader_ok_ext _ _ _ _ Hx1 Hr). destruct (queue_pending_open_payload _ _ _ _ _ _).1; try by ret.
  eapply gives_call; [done | apply forward_item_quiet; [by eapply conn_in_ext | done]|]. intros out s2 He2 [Hr3 _]. by ret.
Qed.

Lemma ingress_open_quiet th c s id target payload memo memo2 memo3 send budget r s0 : conn_in c s0 -> reader_ok c s0 r ->
  quiet (open_post c) s0 (r2_ingress_open th c s id target payload allow_private memo memo2 memo3 send budget r).
Proof.
  intros Hc Hr n Hn. unfold r2_ingress_open. case_match; [ret|]. rd. assert (Hc1 := conn_in_ext _ _ _ He Hc). assert (Hr1 := reader_ok_ext _ _ _ _ He Hr).
  set (bad := match _ with Some _ => _ | None => _ end). destruct bad; [ret|]. destruct target as [dst|host port].
  - apply gives_quiet. intros sv1 He1 Hi1. assert (Hm := proj1 (allowed_moves allow_private sv1 th dst Hi1)). split; [done|].
    assert (Hx : ext sv (allowed th allow_private dst sv1).2) by (etrans; [exact He1 | apply Hm]). assert (Hr2 := reader_ok_ext _ _ _ _ Hx Hr1).
    destruct (allowed th allow_private dst sv1).1; cbn [negb]; [|ret]. eapply gives_call; [done | by apply flush_quiet|]. intros r1 s1 He2 [Hr3 E3].
    eapply gives_call; [done | apply forward_quiet; eapply conn_in_ext; [exact He2|]; by eapply conn_in_ext|]. intros used s2 He3 [Hu _].
    assert (Hr4 := reader_ok_ext _ _ _ _ He3 Hr3). destruct used.1 as [|u life|]; [ret | | ret]. destruct Hu as [_ Hs0].
    eapply gives_call; [done | apply arm_fast_quiet; [done | apply Hr4]|]. intros t s3 He4 Ht. apply open_install_quiet; [|done]. split; [done|]. cbn. rewrite E3. constructor.
  - apply gives_quiet. intros sv1 He1 Hi1. assert (Hm := queue_payload_moves allow_private sv1 c s id (AddrDomain host port) payload Hi1). split; [done|].
    assert (Hx : ext sv (queue_pending_open_payload c s id (AddrDomain host port) payload sv1).2) by (etrans; [exact He1 | apply Hm]).
    assert (Hr2 := reader_ok_ext _ _ _ _ Hx Hr1). assert (Hc2 := conn_in_ext _ _ _ Hx Hc1). destruct (queue_pending_open_payload _ _ _ _ _ _).1; try by ret.
    eapply gives_call; [done | apply resolve_forward_target_quiet|]. intros known s1 He2 Hk. cbv beta in Hk. assert (Hr3 := reader_ok_ext _ _ _ _ He2 Hr2).
    assert (Hc3 := conn_in_ext _ _ _ He2 Hc2). destruct known as [|dst life|]; [by apply open_cold_quiet | | by apply open_cold_quiet].
    eapply gives_call; [done | by apply open_known_quiet|]. intros [[l|] r4] s2 He3 Hr4; cbn [fst snd] in *; [by apply open_install_quiet | by ret].
Qed.

End Reader.
