(* ===== verification/SessRun.v ===== *)
(** What holds of the server's sessions in every interleaving of its tasks. *)
From stdpp Require Import fin_maps relations.
From S2P Require Import Prelude Addr DnsKey DnsPolicy DnsMemo DnsAnswer Wire Binding Flow FlowRun Pin FastTable FastRun DnsGate Sess SessTask FastPath SessSys SessInv SessAtoms SessSafe SessProgs FastProgs.

Section Run.
Context `{HashIter} `{GateHasher} `{IpNet} (allow_private : bool).

Notation inv := (inv allow_private).
Notation moves := (moves allow_private).
Notation safe := (safe allow_private).
Notation quiet := (quiet allow_private).
Notation sys_step := (sys_step allow_private).
Notation reachable := (reachable allow_private).
Notation job_task := (job_task allow_private).

(** What a call leaves true for good. *)
Definition job_post (j : Job) (o : Outcome) (sv : Server) : Prop :=
  match j, o with
  | JCreate _ c s _, OSock r => sock_for c s r sv
  | JClose c s, OFlags fs => closed_for c s fs sv
  | JItem _ c r s _ payload _ _ _ _, OReader r' (Some f) => item_post allow_private c s payload r (f, r') sv
  | JWanted _ c r s _ _ payload _ _ _, OReader r' (Some f) => item_post allow_private c s payload r (f, r') sv
  | JFlow _ c _ _ _, OReader r' _ | JTrainItem _ c _ _ _, OReader r' _ => reader_ok allow_private c sv r'
  | JIngress _ c _ _ _ _ _ _ _ _ _ _, OOpen r' o => open_post allow_private c (o, r') sv
  | JFlush c _, OReader r' _ => reader_ok allow_private c sv r' /\ rd_staged r' = []
  | _, _ => True
  end.

Lemma job_post_ext j o sv sv' : ext sv sv' -> job_post j o sv -> job_post j o sv'.
Proof.
  intros He. destruct j; destruct o as [[hx|]| | |r' [f|]|r' f|]; cbn; try done;
    first [by apply made_for_ext | by apply closed_for_ext | by apply item_post_ext | by apply reader_ok_ext
          | intros [Hr ?]; split; [by eapply reader_ok_ext | done]].
Qed.

Definition post (j : Job) (o : Outcome) (hp hh : Z) (sv : Server) : Prop := hp = 0 /\ hh = 0 /\ job_post j o sv.

Lemma post_ext j o hp hh sv sv' : ext sv sv' -> post j o hp hh sv -> post j o hp hh sv'.
Proof. intros He (? & ? & Hp). split_and!; [done..|]. by eapply job_post_ext. Qed.

(** Where a call may be made from; a lookup's call is that of the reader that
    spawned it. *)
Definition call_ok (sv : Server) (j : Job) : Prop :=
  match j with
  | JForward _ c _ _ _ _ _ _ | JWaiter _ c _ _ _ _ _ _ _ | JDomain _ c _ _ _ _ _ _ _ | JItem _ c _ _ _ _ _ _ _ _
  | JWanted _ c _ _ _ _ _ _ _ _ | JIngress _ c _ _ _ _ _ _ _ _ _ _ => conn_in c sv
  | _ => True
  end.

Lemma call_ok_ext sv sv' j : ext sv sv' -> call_ok sv j -> call_ok sv' j.
Proof. intros He. destruct j; cbn; try done; by apply conn_in_ext. Qed.

Lemma quiet_post {A} j (P : A -> Server -> Prop) sv (p : task A) (k : A -> Outcome) :
  quiet P sv p -> (forall a s, ext sv s -> P a s -> job_post j (k a) s) -> safe (post j) 0 0 sv (tbind p (fun a => Ret (k a))).
Proof.
  intros Hq HP. eapply safe_bind; [by apply (Hq 0)|]. cbn. intros a hp hh s He (-> & -> & Ha). split_and!; [done..|]. by apply HP.
Qed.

(** A reader's state is sound wherever it comes from. *)
Lemma reader_from_ok sv d c r : Forall (fun x => job_post x.1 x.2 sv) d -> reader_from d c r -> reader_ok allow_private c sv r.
Proof.
  intros Hd [->|([j o] & Hin & E)]; [apply reader_new_ok|]. rewrite list.Forall_forall in Hd. specialize (Hd _ Hin). cbn in E, Hd.
  destruct j; try done; destruct o as [| | |r' [f|]|r' f|]; try done; injection E as -> ->; apply Hd.
Qed.

(** The calls that only a spawn starts. *)
Definition lookup_job (j : Job) : Prop :=
  match j with JWaiter _ _ _ _ _ _ _ _ _ | JDomain _ _ _ _ _ _ _ _ _ => True | _ => False end.

Lemma job_safe sv d j : inv sv -> Forall (fun x => job_post x.1 x.2 sv) d -> job_ok sv d j \/ (call_ok sv j /\ lookup_job j) ->
  safe (post j) 0 0 sv (job_task sv j).
Proof.
  intros Hi Hd [Hj|[Hj Hl]]; [destruct j; cbn in Hj; try done | destruct j; try done; cbn in Hj]; unfold job_task, SessSys.job_task, unit_task.
  - destruct Hj. eapply (quiet_post _ any); [|done]. eapply quiet_weaken; [|by apply forward_quiet]. done.
  - destruct Hj. by eapply quiet_post; [by apply get_or_create_quiet|].
  - destruct Hj as [Hc Hs]. cbn [SessSafe.safe]. intros sv1 He Hi1 _ _. exists 0, 0. assert (Hm := begin_pending_open_moves allow_private sv1 c s id (AddrDomain host port) Hi1).
    split_and!; [done | lia |]. destruct (begin_pending_open _ _ _ _ _) as [r sv2]. cbn [fst snd] in *.
    destruct r; [|done|done]. eapply (quiet_post _ any); [|done]. apply domain_open_quiet. eapply conn_in_ext; [apply Hm | by eapply conn_in_ext].
  - cbn [SessSafe.safe]. intros sv1 He Hi1 _ _. exists 0, 0. split_and!; [by apply queue_payload_moves | lia | done].
  - by eapply (quiet_post _ any); [apply r2_install_quiet|].
  - by eapply (quiet_post _ any); [apply r2_remove_flow_quiet|].
  - destruct Hj. by eapply quiet_post; [by apply close_session_quiet|].
  - by eapply (quiet_post _ any); [by apply reader_exit_quiet|].
  - destruct Hj as [Hc Hf]. eapply (quiet_post _ any); [|done]. apply install_unsolicited_quiet; [done|].
    intros cn E. unfold table_of in Hf. by rewrite (conn_of_eq _ _ _ E) in Hf.
  - destruct Hj as (Hc & Hs & Hr). apply (reader_from_ok sv) in Hr; [|done]. eapply quiet_post; [by apply forward_item_quiet|]. intros [f r'] s' _ Hp. exact Hp.
  - destruct Hj as (Hc & Hs & Hr). apply (reader_from_ok sv) in Hr; [|done]. eapply quiet_post; [by apply forward_wanted_quiet|]. intros [f r'] s' _ Hp. exact Hp.
  - destruct Hj as [Hc Hr]. apply (reader_from_ok sv) in Hr; [|done]. eapply quiet_post; [by apply flow_item_quiet|]. intros [f r'] s' _ Hp. exact Hp.
  - destruct Hj as [Hc Hr]. apply (reader_from_ok sv) in Hr; [|done]. eapply quiet_post; [by apply flow_resolved_quiet|]. intros [f r'] s' _ Hp. exact Hp.
  - destruct Hj as (Hc & Hs & Hr). apply (reader_from_ok sv) in Hr; [|done]. eapply quiet_post; [by apply ingress_open_quiet|]. intros [f r'] s' _ Hp. exact Hp.
  - destruct Hj as [Hc Hr]. apply (reader_from_ok sv) in Hr; [|done]. eapply quiet_post; [by apply flush_quiet|]. intros r' s' _ Hp. exact Hp.
  - cbn [SessSafe.safe mono]. intros sv1 He Hi1 _ _. exists 0, 0. split_and!; [by apply moves_refl | lia |].
    eapply (quiet_post _ any); [|done]. apply sweep_and_reap_quiet. by eapply conn_in_ext.
  - by eapply (quiet_post _ any); [by apply teardown_quiet|].
  - by eapply (quiet_post _ any); [by apply dns_waiter_quiet|].
  - by eapply (quiet_post _ any); [by apply domain_open_quiet|].
Qed.

(* ------------------------------------------------------------------ *)
(** ** The pool *)

Definition task_ok (sv : Server) (t : Job * task Outcome) (h : Z * Z) : Prop :=
  0 <= h.1 /\ call_ok sv t.1 /\ safe (post t.1) h.1 h.2 sv t.2.

Lemma task_ok_ext sv sv' t h : ext sv sv' -> task_ok sv t h -> task_ok sv' t h.
Proof.
  intros He (H0' & Hc & Hs). split_and!; [done | by eapply call_ok_ext |]. eapply safe_ext; [|exact He|exact Hs]. intros. by eapply post_ext.
Qed.

Definition held (hs : list (Z * Z)) : Z := foldr (fun h n => h.1 + n) 0 hs.
Definition owed (hs : list (Z * Z)) : Z := foldr (fun h n => h.2 + n) 0 hs.

Lemma held_app a b : held (a ++ b) = held a + held b.
Proof. induction a as [|x a IH]; cbn; [done|]. unfold held in *. cbn. lia. Qed.
Lemma owed_app a b : owed (a ++ b) = owed a + owed b.
Proof. induction a as [|x a IH]; cbn; [done|]. unfold owed in *. cbn. lia. Qed.

Lemma held_nonneg sv l hs : Forall2 (task_ok sv) l hs -> 0 <= held hs.
Proof. induction 1 as [|t h l hs (H0' & _) _ IH]; cbn; [done|]. unfold held in *. lia. Qed.

Record cfg_ok (g : Config) (hs : list (Z * Z)) : Prop := mkCfgOk {
  ck_inv : inv (cf_sv g);
  ck_tasks : Forall2 (task_ok (cf_sv g)) (cf_run g) hs;
  ck_budget : budget (cf_sv g) + held hs = MAX_SESSIONS_GLOBAL;
  ck_owed : as_u64 (surplus (cf_sv g) + owed hs) = 0;
  ck_done : Forall (fun d => job_post d.1 d.2 (cf_sv g)) (cf_done g)
}.

Lemma tasks_ext sv sv' l hs : ext sv sv' -> Forall2 (task_ok sv) l hs -> Forall2 (task_ok sv') l hs.
Proof. intros He. apply Forall2_impl. intros t h. by apply task_ok_ext. Qed.

Lemma done_ext sv sv' (d : list (Job * Outcome)) : ext sv sv' -> Forall (fun d => job_post d.1 d.2 sv) d -> Forall (fun d => job_post d.1 d.2 sv') d.
Proof. intros He Hd. eapply list.Forall_impl; [exact Hd|]. intros x. by apply job_post_ext. Qed.

(** The new state of a step that moves the balances while the pool's holdings
    move the other way. *)
Lemma cfg_moves sv sv' l l' d hs hs' dp dh : cfg_ok (mkConfig sv l d) hs -> moves dp dh sv sv' -> Forall2 (task_ok sv') l' hs' ->
  held hs' = held hs - dp -> owed hs' = owed hs - dh -> cfg_ok (mkConfig sv' l' d) hs'.
Proof.
  intros [Hi Ht Hb Ho Hd] Hm Hl Eh Eo. cbn in *. split; cbn.
  - apply Hm.
  - done.
  - rewrite (mv_budget _ _ _ _ _ Hm). lia.
  - rewrite Eo. pose proof (as_u64_add_l _ _ (owed hs - dh) (mv_surplus _ _ _ _ _ Hm)) as E. rewrite E, <- Ho. f_equal. lia.
  - eapply done_ext; [apply Hm | done].
Qed.

Lemma new_shard f i : (i < Z.to_nat SESS_SHARDS)%nat -> shard (SessTable_new f) i = ∅.
Proof.
  intros Hlt. unfold shard. cbn [SessTable_new st_shards]. apply list_lookup_total_correct.
  unfold SESS_SHARDS in *. do 8 (destruct i as [|i]; [done|]). lia.
Qed.

Lemma connect_moves sv c f w : inv sv -> sv_conns sv !! c = None -> moves 0 0 sv (set_conns (<[c := Conn_new f w]> (sv_conns sv)) sv).
Proof.
  intros Hi E. set (sv' := set_conns _ sv). split.
  - split; try by apply Hi. intros c' cn Ec. cbn [sv' set_conns sv_conns] in Ec. revert Ec. intros [[<- <-]|[Hne E']]%lookup_insert_Some; [|by apply Hi]. split.
    + split; [done| |done]. intros i s e Hlt Es. cbn [cn_table Conn_new] in Es. by rewrite new_shard, lookup_empty in Es by done.
    + eapply reg_inv_le; [apply new_reg_inv; unfold R2_MAX_FLOWS_PER_CONN, usize_max; lia | intros l b Hl; by rewrite lookup_empty in Hl].
    + intros _ _ s id (l & b & Hl & _). cbn in Hl. by rewrite lookup_empty in Hl.
  - split; try done.
    + intros c' cn E'. exists cn. cbn. rewrite lookup_insert_ne by congruence. done.
    + intros f' c' s h _ (cn & e & E' & Es & <-) Hg. split; [|done]. cbn in E'. apply lookup_insert_Some in E' as [[<- <-]|[Hne E']]; [|by exists cn, e].
      unfold entry_of in Es. cbn [cn_table Conn_new] in Es. by rewrite new_shard, lookup_empty in Es by apply shard_idx_lt.
  - unfold budget, entries_total. cbn [sv_conns sv' set_conns sv_permits]. rewrite gsum_insert by done. change (table_len (cn_table (Conn_new f w))) with 0. lia.
  - unfold surplus, counted_total. cbn [sv_conns sv' set_conns sv_holders]. rewrite gsum_insert by done. f_equal. cbn. lia.
Qed.

Lemma env_step_moves sv sv' : inv sv -> env_step sv sv' -> moves 0 0 sv sv'.
Proof.
  intros Hi [ck ok _ _ _|c f w E|c cl dg Hcl|h _|h _ _]; [| by apply connect_moves | | by apply upd_sess_moves | by apply upd_sess_moves].
  - eapply moves_eq; [apply env_moves; try done; by apply Hi | cbn; lia | cbn; lia].
  - destruct (sv_conns sv !! c) as [cn|] eqn:E; [|rewrite upd_conn_none by done; by apply moves_refl].
    rewrite (conn_of_eq _ _ _ E) in Hcl. eapply moves_eq; [apply (conn_aux_moves _ _ _ cn); done | done | cbn; lia].
Qed.

(** A call that starts holds nothing; one that returns has given all back. *)
Lemma cfg_start sv l d j hs : cfg_ok (mkConfig sv l d) hs -> call_ok sv j -> safe (post j) 0 0 sv (job_task sv j) ->
  cfg_ok (mkConfig sv ((j, job_task sv j) :: l) d) ((0, 0) :: hs).
Proof. intros [Hi Ht Hb Ho Hd] Hc Hs. cbn in *. split; cbn; [done| |done..]. by constructor. Qed.

Lemma cfg_return sv o l1 l2 d j hs : cfg_ok (mkConfig sv (l1 ++ (j, Ret o) :: l2) d) hs ->
  call_ok sv j /\ exists hs', cfg_ok (mkConfig sv (l1 ++ l2) ((j, o) :: d)) hs'.
Proof.
  intros [Hi Ht Hb Ho Hd]. cbn in *. apply Forall2_app_inv_l in Ht as (h1 & h' & Ht1 & Ht' & ->).
  apply Forall2_cons_inv_l in Ht' as (h & h2 & (Hp & Hc & (Ep & Eh & Hpost)) & Ht2 & ->). split; [done|]. exists (h1 ++ h2).
  rewrite held_app in Hb. rewrite owed_app in Ho. unfold held, owed in *. cbn in Hb, Ho, Hpost, Ep, Eh. rewrite Ep in Hb. rewrite Eh in Ho.
  split; cbn; [done | by apply Forall2_app | rewrite held_app; unfold held; lia | rewrite owed_app, <- Ho; unfold owed; f_equal; lia | by constructor].
Qed.

Lemma spawned_call sv j o j' : spawned j o j' -> call_ok sv j -> call_ok sv j' /\ lookup_job j'.
Proof.
  intros Hsp Hc. destruct j; destruct o as [|fw| |r' [[|fw]|]|r' [|fl|[|fw]]|]; cbn in Hsp; try done;
    lazymatch type of Hsp with context [match ?a with AddrIp _ => _ | AddrDomain _ _ => _ end] => destruct a; try done end;
    try (destruct fw; try done); destruct Hsp as (th' & fi & fol & ->); by split.
Qed.

Lemma cfg_act sv B (f : Server -> B * Server) k l1 l2 d j hs : cfg_ok (mkConfig sv (l1 ++ (j, Atom f k) :: l2) d) hs ->
  exists hs', cfg_ok (mkConfig (f sv).2 (l1 ++ (j, k (f sv).1) :: l2) d) hs'.
Proof.
  intros Hok. pose proof Hok as [Hi Ht Hb Ho Hd]. cbn in *. apply Forall2_app_inv_l in Ht as (h1 & h' & Ht1 & Ht' & ->).
  apply Forall2_cons_inv_l in Ht' as (h & h2 & (Hp & Hc & Hs) & Ht2 & ->). cbn in Hp, Hc, Hs.
  pose proof (held_nonneg _ _ _ Ht1). pose proof (held_nonneg _ _ _ Ht2). rewrite held_app in Hb. change (held (h :: h2)) with (h.1 + held h2) in Hb.
  destruct (Hs sv (reflexivity _) Hi Hp ltac:(lia)) as (dp & dh & Hm & Hp' & Hk).
  exists (h1 ++ (h.1 - dp, h.2 - dh) :: h2). eapply (cfg_moves sv _ _ _ _ _ _ dp dh); [exact Hok | exact Hm | | |].
  - apply Forall2_app; [eapply tasks_ext; [apply Hm | done]|]. constructor; [|eapply tasks_ext; [apply Hm | done]].
    split_and!; [done | cbn; eapply call_ok_ext; [apply Hm | done] | done].
  - rewrite !held_app. unfold held. cbn. lia.
  - rewrite !owed_app. unfold owed. cbn. lia.
Qed.

Lemma cfg_step g g' hs : cfg_ok g hs -> sys_step g g' -> exists hs', cfg_ok g' hs'.
Proof.
  intros Hok Hs. revert Hok. destruct Hs as [sv l d j Hj|sv B f k l1 l2 d j|sv o l1 l2 d j|sv o l1 l2 d j j' Hsp|sv sv' l d He]; intros Hok.
  - exists ((0, 0) :: hs). apply cfg_start; [done | | eapply job_safe; [apply (ck_inv _ _ Hok) | apply (ck_done _ _ Hok) | by left]]. destruct j; cbn in *; naive_solver.
  - by eapply cfg_act.
  - by eapply cfg_return.
  - destruct (cfg_return _ _ _ _ _ _ _ Hok) as (Hc & hs' & Hok'). pose proof (spawned_call _ _ _ _ Hsp Hc) as Hj'.
    eexists. apply cfg_start; [exact Hok' | apply Hj' | eapply job_safe; [apply (ck_inv _ _ Hok) | apply (ck_done _ _ Hok) | by right]].
  - exists hs. pose proof (env_step_moves _ _ (ck_inv _ _ Hok) He) as Hm.
    eapply (cfg_moves sv _ _ _ _ _ _ 0 0); [exact Hok | exact Hm | eapply tasks_ext; [apply Hm | apply (ck_tasks _ _ Hok)] | lia | lia].
Qed.

Lemma initial_ok : cfg_ok initial [].
Proof.
  split; cbn; [|constructor|done|done|constructor]. by split.
Qed.

Lemma cfg_reachable g : reachable g -> exists hs, cfg_ok g hs.
Proof.
  unfold SessSys.reachable. intros Hr. apply (rtc_ind_r (R := sys_step) (fun g => exists hs, cfg_ok g hs) initial); [by exists []; apply initial_ok | | exact Hr].
  intros y z _ Hs [hs Hok]. by eapply cfg_step.
Qed.

End Run.
