(* ===== verification/SessSweep.v ===== *)
(** What the 60 s sweep does to a table when nothing else runs. *)
From stdpp Require Import fin_maps.
From S2P Require Import Prelude Addr DnsKey DnsPolicy DnsMemo DnsAnswer Wire Binding Flow FlowRun Pin DnsGate Sess SessTask SessSys SessDemo SessInv SessAtoms SessSafe.

Lemma solo_bind {A B} (p : task A) (k : A -> task B) sv : solo (tbind p k) sv = let '(a, sv) := solo p sv in solo (k a) sv.
Proof. revert sv; induction p as [a|C f k' IH]; intros sv; cbn; [done|]. destruct (f sv). apply IH. Qed.

Section Sweep.
Context `{HashIter} `{IpNet} (allow_private : bool) (c now : Z).

Notation inv := (inv allow_private).

Definition entry (sv : Server) (s : Z) : option SessEntry := entry_of (table_of sv c) s.
Definition flow_of (sv : Server) (s id : Z) : Prop := registered (sv_heap sv) (cn_reg (conn_of sv c)) s id.

(** The idle sessions whose id is in [D] are gone, with their flows; [out] lists
    them; everything else is as it was. *)
Definition goes (sv : Server) (D : Z -> bool) (s : Z) (e : SessEntry) : bool := D s && is_idle sv now e.
Definition stays (sv : Server) (D : Z -> bool) (s : Z) : option SessEntry :=
  match entry sv s with Some e => if goes sv D s e then None else Some e | None => None end.

Record swept (D : Z -> bool) (sv sv' : Server) (out : list SessEntry) : Prop := mkSwept {
  sw_inv : inv sv';
  sw_conn : is_Some (sv_conns sv' !! c);
  sw_sess : sv_sess sv' = sv_sess sv;
  sw_entry s : entry sv' s = stays sv D s;
  sw_out e : e ∈ out <-> exists s, entry sv s = Some e /\ goes sv D s e = true;
  sw_len : len out = table_len (table_of sv c) - table_len (table_of sv' c);
  sw_flow s id : flow_of sv' s id -> flow_of sv s id /\ entry sv' s = entry sv s
}.

Lemma goes_sess sv sv' D s e : sv_sess sv' = sv_sess sv -> goes sv' D s e = goes sv D s e.
Proof. intros E. unfold goes, is_idle, sess_of. by rewrite E. Qed.

Lemma swept_refl sv : inv sv -> is_Some (sv_conns sv !! c) -> swept (fun _ => false) sv sv [].
Proof.
  intros Hi Hc. split; [done | done | done | | | rewrite len_nil; lia | done].
  - intros s. unfold stays, goes. cbn. by destruct (entry sv s).
  - intros e. split; [intros []%elem_of_nil | by intros (s & _ & E)].
Qed.

Lemma swept_ext D D' sv sv' out : (forall s e, entry sv s = Some e -> goes sv D s e = goes sv D' s e) -> swept D sv sv' out -> swept D' sv sv' out.
Proof.
  intros HD [A1 A2 A3 A4 A5 A6 A7]. split; try done.
  - intros s. rewrite A4. unfold stays. destruct (entry sv s) as [e|] eqn:E; [|done]. by rewrite (HD s e).
  - intros e. rewrite A5. split; intros (s & E & Hg); exists s; (split; [done|]); [by rewrite <- (HD s e) | by rewrite (HD s e)].
Qed.

Lemma swept_trans D D' a b d o o' : swept D a b o -> swept D' b d o' -> swept (fun s => D s || D' s) a d (o ++ o').
Proof.
  intros [A1 A2 A3 A4 A5 A6 A7] [B1 B2 B3 B4 B5 B6 B7].
  assert (Hg : forall s e, goes a (fun s => D s || D' s) s e = goes a D s e || goes b D' s e).
  { intros s e. rewrite (goes_sess a b) by done. unfold goes. by destruct (D s), (D' s), (is_idle a now e). }
  split; [done | done | congruence | | | rewrite len_app; lia |].
  - intros s. rewrite B4. unfold stays. rewrite A4. unfold stays. destruct (entry a s) as [e|]; [|done]. rewrite Hg.
    destruct (goes a D s e); [done|]. by destruct (goes b D' s e).
  - intros e. rewrite elem_of_app, A5, B5. split.
    + intros [(s & E & Hx)|(s & E & Hx)]; exists s; rewrite Hg, Hx; [done|]. rewrite A4 in E. unfold stays in E.
      destruct (entry a s) as [e'|]; [|done]. destruct (goes a D s e'); [done|]. by rewrite orb_true_r.
    + intros (s & E & Hx). rewrite Hg in Hx. destruct (goes a D s e) eqn:Ed; [left; by exists s|]. right. exists s. split; [|done].
      rewrite A4. unfold stays. by rewrite E, Ed.
  - intros s id Hf. destruct (B7 s id Hf) as [Hb Eb]. destruct (A7 s id Hb) as [Ha Ea]. split; [done | congruence].
Qed.

(** What [take_idle] leaves under each key. *)
Lemma take_idle_lookup sv keys s : forall w w' out, take_idle sv w keys now = (w', out) ->
  w' !! s = match w !! s with Some e => if bool_decide (s ∈ keys) && is_idle sv now e then None else Some e | None => None end.
Proof.
  assert (Hc : forall k keys (e : SessEntry), (k = s -> is_idle sv now e = false) ->
    bool_decide (s ∈ k :: keys) && is_idle sv now e = bool_decide (s ∈ keys) && is_idle sv now e).
  { intros k ks e Hk. destruct (decide (k = s)) as [->|Hne]; [by rewrite Hk, !andb_false_r|]. f_equal. apply bool_decide_ext. set_solver. }
  induction keys as [|k keys IH]; intros w w' out E; cbn [take_idle] in E.
  - simplify_eq. by destruct (w' !! s).
  - destruct (w !! k) as [e|] eqn:Ek; [destruct (is_idle sv now e) eqn:Ei|].
    + destruct (take_idle sv (delete k w) keys now) as [w1 out1] eqn:E1. simplify_eq. rewrite (IH _ _ _ E1).
      destruct (decide (k = s)) as [->|Hne].
      * rewrite lookup_delete_eq, Ek, Ei. by rewrite bool_decide_eq_true_2 by set_solver.
      * rewrite lookup_delete_ne by done. destruct (w !! s) as [e'|]; [|done]. by rewrite Hc.
    + rewrite (IH _ _ _ E). destruct (w !! s) as [e'|] eqn:Es; [|done]. rewrite Hc; [done|]. intros ->. congruence.
    + rewrite (IH _ _ _ E). destruct (w !! s) as [e'|] eqn:Es; [|done]. rewrite Hc; [done|]. intros ->. congruence.
Qed.

(** One chunk, under the shard's lock. *)
Lemma sweep_chunk_swept sv i chunk : inv sv -> is_Some (sv_conns sv !! c) -> (i < Z.to_nat SESS_SHARDS)%nat ->
  let '(out, sv') := sweep_chunk c i now chunk sv in
  swept (fun s => bool_decide (shard_idx s = i) && bool_decide (s ∈ chunk)) sv sv' out.
Proof.
  intros Hi [cn E] Hlt. pose proof (sweep_chunk_moves allow_private sv c i now chunk Hi (mk_is_Some _ _ E) Hlt) as Hm.
  destruct (take_idle sv (shard (cn_table cn) i) chunk now) as [m out] eqn:Et.
  destruct (remove_sessions (se_sess <$> out) (sv_heap sv) (cn_reg cn)) as [[n hp] reg] eqn:Er.
  rewrite (sweep_chunk_placed _ _ _ _ _ _ _ _ _ _ _ E Et Er) in *. pose proof (fun s => take_idle_lookup _ _ s _ _ _ Et) as Hl.
  apply take_idle_spec in Et as (He & _ & _). cbn [fst snd] in Hm.
  pose proof (iv_conns _ _ Hi _ _ E) as [Ht Hr Hb]. set (t' := note_live_remove _ _) in *. set (sv' := placed _ _ _ _ _ _) in *.
  destruct (evict_table _ _ _ Ht i m out Hlt He) as (Ht' & Hlen & _ & _ & Hent). fold t' in Ht', Hlen, Hent.
  destruct (remove_sessions_registered _ _ _ _ _ _ Hr Er) as (_ & _ & Hreg).
  assert (E' : sv_conns sv' !! c = Some (with_reg reg (with_table t' cn))) by (apply lookup_insert_eq).
  assert (Et : table_of sv c = cn_table cn) by (unfold table_of; by rewrite (conn_of_eq _ _ _ E)).
  assert (Et' : table_of sv' c = t') by (unfold table_of; by rewrite (conn_of_eq _ _ _ E')).
  assert (En : forall s, i = shard_idx s -> entry sv s = shard (cn_table cn) i !! s) by (intros s ->; unfold entry; by rewrite Et).
  assert (Es : forall s, entry sv' s = stays sv (fun s => bool_decide (shard_idx s = i) && bool_decide (s ∈ chunk)) s).
  { intros s. unfold entry at 1. rewrite Et', Hent. unfold stays, goes. case_decide as Hs.
    - rewrite Hl, (En s Hs). rewrite (bool_decide_eq_true_2 (shard_idx s = i)) by done. done.
    - rewrite (bool_decide_eq_false_2 (shard_idx s = i)) by done. unfold entry. rewrite Et. by destruct (entry_of _ s). }
  assert (Hw : forall e, e ∈ out <-> exists s, i = shard_idx s /\ entry sv s = Some e /\ entry sv' s = None).
  { intros e. unfold entry at 2. rewrite Et'. split.
    - intros (s & Hs & Hn)%(ev_was _ _ _ He). destruct (to_entry _ _ _ Ht i s e Hlt Hs) as (Hx & _). exists s. rewrite (En s Hx), Hent, decide_True by done. done.
    - intros (s & Hx & Hs & Hn). rewrite Hent, decide_True in Hn by done. rewrite (En s Hx) in Hs. by eapply (ev_gone _ _ _ He). }
  split; [apply Hm | by eexists | done | exact Es | | by rewrite Et, Et'; lia |].
  - intros e. rewrite Hw. split; intros (s & Hx).
    + destruct Hx as (Hs & Hx & Hn). exists s. split; [done|]. rewrite Es in Hn. unfold stays in Hn. rewrite Hx in Hn. by destruct (goes _ _ s e).
    + destruct Hx as (Hx & Hg). exists s. rewrite Es. unfold stays. rewrite Hx, Hg. split_and!; [|done..]. unfold goes in Hg.
      symmetry. apply andb_true_iff in Hg as [[Hg%bool_decide_eq_true _]%andb_true_iff _]. exact Hg.
  - intros s id Hf. unfold flow_of in *. rewrite (conn_of_eq _ _ _ E') in Hf. rewrite (conn_of_eq _ _ _ E). destruct (Hreg s id Hf) as [Hf' Hn].
    split; [done|]. rewrite Es. unfold stays. destruct (entry sv s) as [e|] eqn:Ee; [|done]. destruct (goes _ _ s e) eqn:Hg; [|done].
    exfalso. apply Hn, list_elem_of_fmap. exists e.
    assert (Hs : shard_idx s = i) by (unfold goes in Hg; by apply andb_true_iff in Hg as [[Hg%bool_decide_eq_true _]%andb_true_iff _]).
    rewrite (En s (eq_sym Hs)) in Ee. destruct (to_entry _ _ _ Ht i s e Hlt Ee) as (_ & _ & Hse & _). split; [done|].
    apply Hw. exists s. rewrite Es. unfold stays. rewrite (En s (eq_sym Hs)), Ee, Hg. done.
Qed.

(** The chunks of a shard. *)
Lemma chunks_concat {A} n (l : list A) : 0 < n -> concat (chunks n l) = l.
Proof.
  intros Hn. unfold chunks. assert (Hgo : forall t (l : list A), (length l <= t)%nat -> concat (chunks_go t (Z.to_nat n) l) = l); [|by apply Hgo].
  induction t as [|t IH]; intros [|x l'] Hl; cbn [chunks_go concat length] in *; try done; [lia|].
  rewrite IH; [apply take_drop|]. rewrite length_drop. cbn. lia.
Qed.

Lemma sweep_chunks_swept i cs : forall sv out, inv sv -> is_Some (sv_conns sv !! c) -> (i < Z.to_nat SESS_SHARDS)%nat ->
  exists out' sv', solo (sweep_chunks c i now cs out) sv = (out ++ out', sv') /\
    swept (fun s => bool_decide (shard_idx s = i) && bool_decide (s ∈ concat cs)) sv sv' out'.
Proof.
  induction cs as [|chunk cs IH]; intros sv out Hi Hc Hlt; cbn [sweep_chunks solo].
  - exists [], sv. rewrite app_nil_r. split; [done|]. eapply swept_ext; [|by apply swept_refl]. intros s e _. unfold goes. cbn.
    by rewrite (bool_decide_eq_false_2 (s ∈ [])), andb_false_r by set_solver.
  - pose proof (sweep_chunk_swept sv i chunk Hi Hc Hlt) as Hs. destruct (sweep_chunk c i now chunk sv) as [ev sv1].
    destruct (IH sv1 (out ++ ev) ltac:(apply Hs) ltac:(apply Hs) Hlt) as (out' & sv' & -> & Hs').
    exists (ev ++ out'), sv'. rewrite app_assoc. split; [done|]. eapply swept_ext; [|by eapply swept_trans]. intros s e _. unfold goes. f_equal. cbn [concat].
    rewrite <- andb_orb_distrib_r. f_equal. destruct (bool_decide (s ∈ chunk)) eqn:E1, (bool_decide (s ∈ concat cs)) eqn:E2; cbn; symmetry;
      rewrite ?bool_decide_eq_true, ?bool_decide_eq_false, elem_of_app in *; tauto.
Qed.

(** The keys found under the read lock are the idle ones. *)
Lemma expired_iff sv i s e : shard (table_of sv c) i !! s = Some e -> s ∈ expired_keys sv (shard (table_of sv c) i) now <-> is_idle sv now e = true.
Proof.
  intros Es. unfold expired_keys. rewrite list_elem_of_fmap. split.
  - intros ([k e'] & -> & Hin%list_elem_of_In). apply filter_In in Hin as [Hin Hidle]. apply list_elem_of_In in Hin.
    rewrite hash_iter_perm in Hin. apply elem_of_map_to_list in Hin. cbn in *. congruence.
  - intros Hidle. exists (s, e). split; [done|]. apply list_elem_of_In, filter_In. split; [|done]. apply list_elem_of_In.
    rewrite hash_iter_perm. by apply elem_of_map_to_list.
Qed.

Lemma sweep_shards_swept ixs : forall sv out, inv sv -> is_Some (sv_conns sv !! c) -> Forall (fun i => (i < Z.to_nat SESS_SHARDS)%nat) ixs ->
  exists out' sv', solo (sweep_shards c now ixs out) sv = (out ++ out', sv') /\ swept (fun s => bool_decide (shard_idx s ∈ ixs)) sv sv' out'.
Proof.
  induction ixs as [|i ixs IH]; intros sv out Hi Hc Hlt; cbn [sweep_shards solo].
  - exists [], sv. rewrite app_nil_r. split; [done|]. eapply swept_ext; [|by apply swept_refl]. intros s e _. unfold goes. by rewrite bool_decide_eq_false_2 by set_solver.
  - apply list.Forall_cons in Hlt as [Hlt Hlts]. cbn [read]. rewrite solo_bind.
    destruct (sweep_chunks_swept i (chunks SWEEP_PURGE_BATCH (expired_keys sv (shard (table_of sv c) i) now)) sv out Hi Hc Hlt) as (o1 & sv1 & -> & Hs).
    rewrite chunks_concat in Hs by done. destruct (IH sv1 (out ++ o1) ltac:(apply Hs) ltac:(apply Hs) Hlts) as (o2 & sv2 & -> & Hs').
    exists (o1 ++ o2), sv2. rewrite app_assoc. split; [done|]. eapply swept_ext; [|by eapply swept_trans]. intros s e Ee. unfold goes.
    destruct (is_idle sv now e) eqn:Eidle; [|by rewrite !andb_false_r]. rewrite !andb_true_r.
    destruct (decide (shard_idx s = i)) as [Hx|Hne].
    + rewrite (bool_decide_eq_true_2 (shard_idx s = i)) by done. rewrite (bool_decide_eq_true_2 (shard_idx s ∈ i :: ixs)) by set_solver.
      rewrite bool_decide_eq_true_2; [done|]. apply (expired_iff sv i s e); [|done]. unfold entry, entry_of in Ee. by rewrite <- Hx.
    + rewrite (bool_decide_eq_false_2 (shard_idx s = i)) by done. cbn [andb orb]. apply bool_decide_ext. set_solver.
Qed.

(** [note_empty_state] alone. *)
Lemma solo_note_empty sv : is_Some (sv_conns sv !! c) ->
  let sv' := (solo (note_empty_state c) sv).2 in
  sv_sess sv' = sv_sess sv /\ sv_heap sv' = sv_heap sv /\ cn_reg (conn_of sv' c) = cn_reg (conn_of sv c) /\
  table_of sv' c = with_counted (0 <? st_live (table_of sv c)) (table_of sv c).
Proof.
  intros [cn E]. unfold note_empty_state. cbn [solo read].
  assert (Hw : forall v, (swap_counted c v sv).2 = set_conns (<[c := with_table (with_counted v (cn_table cn)) cn]> (sv_conns sv)) sv)
    by (intros v; cbn [swap_counted snd]; by apply upd_table_eq).
  assert (Et : table_of sv c = cn_table cn) by (unfold table_of; by rewrite (conn_of_eq _ _ _ E)).
  destruct (0 <? st_live (table_of sv c)); cbn [solo]; rewrite (surjective_pairing (swap_counted _ _ _)), Hw; cbn [fst swap_counted];
    destruct (st_counted (table_of sv c)); cbn [negb solo write snd holders_add]; rewrite Et; unfold table_of, conn_of; cbn;
    by rewrite lookup_total_insert_eq, lookup_total_alt, E.
Qed.

Lemma sweep_all_swept sv : inv sv -> is_Some (sv_conns sv !! c) ->
  exists out sv1 sv', solo (sweep_all_with c now) sv = (out, sv') /\ swept (fun _ => true) sv sv1 out /\
    sv_heap sv' = sv_heap sv1 /\ cn_reg (conn_of sv' c) = cn_reg (conn_of sv1 c) /\
    table_of sv' c = with_counted (0 <? st_live (table_of sv1 c)) (table_of sv1 c).
Proof.
  intros Hi Hc. unfold sweep_all_with. rewrite solo_bind.
  destruct (sweep_shards_swept all_shards sv [] Hi Hc) as (out & sv1 & -> & Hs); [apply list.Forall_forall; intros i Hin; apply elem_of_seq in Hin; lia|].
  rewrite app_nil_l, solo_bind. pose proof (solo_note_empty sv1 (sw_conn _ _ _ _ Hs)) as (_ & E2 & E3 & E4).
  destruct (solo (note_empty_state c) sv1) as [u sv'] eqn:En. cbn [snd solo] in *. exists out, sv1, sv'. split_and!; [done| |done..].
  eapply swept_ext; [|exact Hs]. intros s e _. unfold goes. rewrite bool_decide_eq_true_2; [done|]. apply elem_of_seq. pose proof (shard_idx_lt s). lia.
Qed.

End Sweep.
