(* ===== verification/SessLaws.v ===== *)
(** The laws of the server's session layer, each true in every reachable
    configuration of the system of [SessSys], with concrete runs that reach the
    situations they speak of. *)
From stdpp Require Import fin_maps relations.
From S2P Require Import Prelude Addr DnsKey DnsPolicy DnsMemo DnsAnswer Wire Binding Flow FlowRun Pin DnsGate Sess SessTask SessSys SessDemo SessInv SessAtoms SessSafe SessProgs SessRun SessSweep.

Section Laws.
Context `{HashIter} `{GateHasher} `{IpNet} (allow_private : bool).

Notation reachable := (reachable allow_private).

Lemma ident_sess sv h c s g : ident sv h = Some (c, s, g) ->
  ss_conn (sess_of sv h) = c /\ ss_sess (sess_of sv h) = s /\ ss_guard (sess_of sv h) = g.
Proof.
  unfold ident, sess_of. rewrite lookup_total_alt. destruct (sv_sess sv !! h) as [x|]; cbn; [|done]. by intros [= <- <- <-].
Qed.

(** C5: the session budget.  Whatever the tasks of all connections are doing,
    there are never more than [MAX_SESSIONS_GLOBAL] table entries, and permits
    left plus entries never exceed the pool; with no call in flight the two add up
    to it exactly, so no permit is lost or minted by any error, cancellation,
    sweep, exit or teardown path, and the holder count is the number of tables
    that count themselves as non-empty.  Each table's [live] is its exact size,
    and every entry sits in its id's shard, under its own non-zero id, with a
    session made for that id on that connection. *)
Theorem session_budget g : reachable g ->
  let sv := cf_sv g in
  0 <= sv_permits sv /\ 0 <= entries_total sv /\ sv_permits sv + entries_total sv <= MAX_SESSIONS_GLOBAL /\
  (cf_run g = [] -> sv_permits sv + entries_total sv = MAX_SESSIONS_GLOBAL /\ sv_holders sv = as_u64 (counted_total sv)) /\
  (forall c cn, sv_conns sv !! c = Some cn ->
    st_live (cn_table cn) = table_len (cn_table cn) /\
    forall i s e, (i < Z.to_nat SESS_SHARDS)%nat -> shard (cn_table cn) i !! s = Some e ->
      i = shard_idx s /\ s <> 0 /\ se_sess e = s /\ ss_conn (sess_of sv (se_h e)) = c /\ ss_sess (sess_of sv (se_h e)) = s).
Proof.
  intros Hr sv. destruct (cfg_reachable _ _ Hr) as [hs [Hi Ht Hb Ho Hd]]. fold sv in Hi, Ht, Hb, Ho, Hd. unfold budget in Hb.
  pose proof (held_nonneg _ _ _ _ Ht). split_and!; [apply Hi | apply gsum_nonneg; intros; apply table_len_nonneg | lia | |].
  - intros E. rewrite E in Ht. apply Forall2_nil_inv_l in Ht as ->. cbn in Hb, Ho. split; [lia|].
    unfold surplus in Ho. rewrite Z.add_0_r in Ho. pose proof (iv_holders _ _ Hi) as Hh. unfold is_u64 in Hh.
    pose proof (as_u64_add_l _ 0 (counted_total sv) Ho) as E'. rewrite Z.sub_add, Z.add_0_l in E'.
    rewrite <- E'. symmetry. apply as_u64_small. unfold usize_max. lia.
  - intros c cn E. destruct (iv_conns _ _ Hi c cn E) as [Htab _ _]. split; [apply Htab|].
    intros i s e Hlt Es. destruct (to_entry _ _ _ Htab i s e Hlt Es) as (? & ? & ? & gu & Hg).
    destruct (ident_sess _ _ _ _ _ Hg) as (? & ? & ?). done.
Qed.

(** C8: the socket a creation hands out belongs to the session it was asked
    for.  Whichever path returned it, the thread's memo, the table, or a publish
    that lost or won the race, and however many sessions were evicted, closed and
    recreated in between, it was made for this connection and this id: traffic
    never leaves through another session's socket. *)
Theorem socket_of_session g th c s dest h : reachable g -> (JCreate th c s dest, OSock (Some h)) ∈ cf_done g ->
  ss_conn (sess_of (cf_sv g) h) = c /\ ss_sess (sess_of (cf_sv g) h) = s.
Proof.
  intros Hr Hin. destruct (cfg_reachable _ _ Hr) as [hs Hok]. pose proof (ck_done _ _ _ Hok) as Hd.
  rewrite list.Forall_forall in Hd. destruct (Hd _ Hin) as [gu Hg]. by destruct (ident_sess _ _ _ _ _ Hg) as (? & ? & ?).
Qed.

(** C6: a close is final for the lookups it cancels, as far as the sessions they
    make under their own flag go.  Once [close_session] has returned, every flag it
    set stays set, and at no later time does the table hold, for that connection
    and session id, a session made under one of them: a lookup that was about to
    publish reads its flag under the shard's lock and drops what it made, and one
    that published before is removed by the close itself.  [ss_guard] records the
    [cancelled] flag a session was made with, so the claim is about the cancelled
    lookup's own datagram and its domain OPEN.  It does not extend to the followers
    parked behind a cancelled waiter: those are delivered without a flag and can
    make the session again, as the run [SessRace.Recreate] shows. *)
Theorem close_is_final g c s fs (f : Z) : reachable g -> (JClose c s, OFlags fs) ∈ cf_done g -> f ∈ fs ->
  sv_flags (cf_sv g) !! f = Some true /\
  (forall e, is_Some (sv_conns (cf_sv g) !! c) -> entry_of (table_of (cf_sv g) c) s = Some e ->
     ss_guard (sess_of (cf_sv g) (se_h e)) <> Some f).
Proof.
  intros Hr Hin Hf. destruct (cfg_reachable _ _ Hr) as [hs Hok]. pose proof (ck_done _ _ _ Hok) as Hd.
  rewrite list.Forall_forall in Hd. pose proof (Hd _ Hin) as Hc. cbn in Hc. unfold closed_for in Hc. rewrite list.Forall_forall in Hc.
  destruct (Hc _ Hf) as [Hset Hno]. split; [done|]. intros e [cn Ec] Es Hg. unfold table_of in Es. rewrite (conn_of_eq _ _ _ Ec) in Es.
  apply (Hno (se_h e)); [by exists cn, e|].
  destruct (iv_conns _ _ (ck_inv _ _ _ Hok) c cn Ec) as [Htab _ _].
  destruct (to_entry _ _ _ Htab _ _ _ (shard_idx_lt s) Es) as (_ & _ & _ & gu & Hi).
  destruct (ident_sess _ _ _ _ _ Hi) as (_ & _ & E). exists c, s. by rewrite <- Hg, E.
Qed.

(** C7: no flow outlives its session under the restricted reply filter.  While a
    connection is open, every flow in its registry belongs to a session that is in
    the table, in every interleaving of opens, closes, sweeps, reader exits and
    domain lookups: an eviction purges the registry under the lock that removes
    the entry, and an install holds the lock from its liveness check to its
    insertion. *)
Theorem no_orphan_flow g c cn s id : reachable g -> sv_conns (cf_sv g) !! c = Some cn ->
  st_filter (cn_table cn) = Restricted -> cn_closed cn = false ->
  registered (sv_heap (cf_sv g)) (cn_reg cn) s id -> is_Some (entry_of (cn_table cn) s).
Proof.
  intros Hr Ec Hf Hcl Hreg. destruct (cfg_reachable _ _ Hr) as [hs Hok].
  destruct (iv_conns _ _ (ck_inv _ _ _ Hok) c cn Ec) as [_ _ Hb]. by eapply Hb.
Qed.

(** C10: the idle sweep is exact.  Run alone from any reachable state, it removes
    from the table precisely the sessions whose last activity is
    [SESS_IDLE_MS] or more before its [now], returns precisely those, leaves every
    other entry as it was, takes the evicted sessions' flows out of the registry
    and no other flow in, and ends with the table counted as a holder exactly when
    an entry is left.  In particular the two-phase, chunked scan misses nothing. *)
Theorem sweep_exact g c now : reachable g -> is_Some (sv_conns (cf_sv g) !! c) ->
  let sv := cf_sv g in
  let '(out, sv') := solo (sweep_all_with c now) sv in
  (forall s, entry_of (table_of sv' c) s =
     match entry_of (table_of sv c) s with Some e => if is_idle sv now e then None else Some e | None => None end) /\
  (forall e, e ∈ out <-> exists s, entry_of (table_of sv c) s = Some e /\ is_idle sv now e = true) /\
  len out = table_len (table_of sv c) - table_len (table_of sv' c) /\
  (forall s id, registered (sv_heap sv') (cn_reg (conn_of sv' c)) s id ->
     registered (sv_heap sv) (cn_reg (conn_of sv c)) s id /\ entry_of (table_of sv' c) s = entry_of (table_of sv c) s) /\
  st_counted (table_of sv' c) = (0 <? table_len (table_of sv' c)).
Proof.
  intros Hr Hc sv. destruct (cfg_reachable _ _ Hr) as [hs Hok].
  destruct (sweep_all_swept allow_private c now sv (ck_inv _ _ _ Hok) Hc) as (out & sv1 & sv' & -> & [A1 [cn A2] A3 A4 A5 A6 A7] & Eh & Er & Et).
  rewrite Et, Eh, Er. assert (Hent : forall s, entry_of (with_counted (0 <? st_live (table_of sv1 c)) (table_of sv1 c)) s = entry c sv1 s)
    by (intros s; by apply entry_shards).
  split_and!; [| done | done | |].
  - intros s. rewrite Hent. apply A4.
  - intros s id Hf. rewrite Hent. by apply A7.
  - cbn [with_counted st_counted]. unfold table_of. rewrite (conn_of_eq _ _ _ A2).
    destruct (iv_conns _ _ A1 c cn A2) as [Htab _ _]. by rewrite (to_live _ _ _ Htab).
Qed.
End Laws.

(** C9: without [allow_private_target] the server never sends into special-use
    address space.  In every interleaving, every datagram a task hands to the kernel
    on a session's socket goes to an address the policy calls global, even though
    the verdict may come from a thread's collision-prone memo.  The log [sv_sent]
    covers every such send of the server: the immediate sends of
    [forward_server_dgram] for an IP target and for a memoised or session-pinned
    name, the flush of the burst buffer (filled by fast-table hits, and by
    [forward_server_dgram] for the payloads of installed flows), the direct send of
    an OPEN whose name is known, the walk of a DNS waiter over a resolver answer,
    for its own datagram and for the parked followers, and the lookup of a cold
    OPEN with the payloads queued behind it. *)
Theorem no_private_send `{HashIter} `{GateHasher} `{IpNet} g : reachable false g ->
  Forall (fun p => is_global_ip (sa_ip p.2) = true) (sv_sent (cf_sv g)).
Proof.
  intros Hr. destruct (cfg_reachable _ _ Hr) as [hs Hok]. eapply list.Forall_impl; [apply (ck_inv _ _ _ Hok)|].
  by intros p [?|?].
Qed.

(* ------------------------------------------------------------------ *)
(** ** Witnesses: the run of [Demo] *)

Lemma session_budget_witness :
  sv_permits (cf_sv Demo.final) = 8191 /\ sv_permits (cf_sv Demo.final) + entries_total (cf_sv Demo.final) = MAX_SESSIONS_GLOBAL.
Proof.
  split; [vm_compute; reflexivity|]. destruct (session_budget false Demo.final Demo.final_reachable) as (_ & _ & _ & Hq & _).
  apply Hq. vm_compute. reflexivity.
Defined.

Lemma socket_of_session_witness : ss_conn (sess_of (cf_sv Demo.final) 0) = 1 /\ ss_sess (sess_of (cf_sv Demo.final) 0) = 5.
Proof.
  apply (socket_of_session false Demo.final 2 1 5 None 0 Demo.final_reachable).
  apply (list_elem_of_lookup_2 _ 2). vm_compute. reflexivity.
Defined.

Lemma close_is_final_witness : sv_flags (cf_sv Demo.final) !! 0 = Some true /\
  exists e, entry_of (table_of (cf_sv Demo.final) 1) 5 = Some e /\ ss_guard (sess_of (cf_sv Demo.final) (se_h e)) <> Some 0.
Proof.
  destruct (close_is_final false Demo.final 1 5 [0] 0 Demo.final_reachable) as [Hf Hno]; [|by apply list_elem_of_singleton|].
  - apply (list_elem_of_lookup_2 _ 4). vm_compute. reflexivity.
  - split; [exact Hf|]. destruct (entry_of (table_of (cf_sv Demo.final) 1) 5) as [e|] eqn:E; [|vm_compute in E; discriminate].
    exists e. split; [reflexivity|]. apply Hno; [|reflexivity]. apply (bool_decide_eq_true_1 (is_Some _)). vm_compute. reflexivity.
Defined.

Lemma no_orphan_flow_witness : is_Some (entry_of (table_of (cf_sv Demo.final) 1) 5).
Proof.
  destruct (sv_conns (cf_sv Demo.final) !! 1) as [cn|] eqn:E; [|vm_compute in E; discriminate].
  unfold table_of. rewrite (conn_of_eq _ _ _ E). apply (no_orphan_flow false Demo.final 1 cn 5 7 Demo.final_reachable E).
  - rewrite <- (conn_of_eq _ _ _ E). vm_compute. reflexivity.
  - rewrite <- (conn_of_eq _ _ _ E). vm_compute. reflexivity.
  - rewrite <- (conn_of_eq _ _ _ E). exists 1%positive. eexists. split_and!; vm_compute; reflexivity.
Defined.

Lemma no_private_send_witness : length (sv_sent (cf_sv Demo.final)) = 1%nat /\
  Forall (fun p => is_global_ip (sa_ip p.2) = true) (sv_sent (cf_sv Demo.final)).
Proof. split; [vm_compute; reflexivity | exact (no_private_send Demo.final Demo.final_reachable)]. Defined.

Lemma sweep_exact_witness :
  entry_of (table_of (cf_sv Demo.final) 1) 5 <> None /\
  entry_of (table_of (solo (sweep_all_with 1 SESS_IDLE_MS) (cf_sv Demo.final)).2 1) 5 = None.
Proof.
  assert (Hc : is_Some (sv_conns (cf_sv Demo.final) !! 1)) by (apply (bool_decide_eq_true_1 (is_Some _)); vm_compute; reflexivity).
  pose proof (sweep_exact false Demo.final 1 SESS_IDLE_MS Demo.final_reachable Hc) as Hs. cbv zeta in Hs.
  destruct (solo (sweep_all_with 1 SESS_IDLE_MS) (cf_sv Demo.final)) as [out sv']. destruct Hs as (Hs & _). split; [vm_compute; discriminate|].
  cbn [snd]. rewrite Hs. vm_compute. reflexivity.
Defined.
