(* ===== verification/FastLaws.v ===== *)
(** What the datagram reader's fast path guarantees in every interleaving, and a
    run that takes it. *)
From stdpp Require Import fin_maps relations.
From S2P Require Import Prelude Addr DnsKey DnsPolicy DnsMemo DnsAnswer Wire Binding Flow FlowRun Pin FastTable FastRun DnsGate Sess SessTask FastPath SessSys SessDemo SessInv SessAtoms SessSafe SessProgs FastProgs SessRun SessSweep.

(* ------------------------------------------------------------------ *)
(** ** The flush *)

Definition sent_of (x : StagedSend) : Z * SocketAddr := (sg_h x, sg_dst x).

Lemma send_group_app a b sv : send_group (a ++ b) sv = send_group b (send_group a sv).
Proof. unfold send_group. apply fold_left_app. Qed.

Lemma send_group_log l : forall sv, sv_sent (send_group l sv) = reverse (sent_of <$> l) ++ sv_sent sv.
Proof.
  induction l as [|x l IH]; intros sv; [done|]. change (send_group (x :: l) sv) with (send_group l (log_sent (sg_h x) (sg_dst x) sv)).
  rewrite IH, fmap_cons, reverse_cons, <- app_assoc. done.
Qed.

Lemma solo_groups gs : forall sv, solo (for_each gs (fun g => atom! _ := write (send_group g) in Ret tt)) sv = (tt, send_group (concat gs) sv).
Proof. induction gs as [|g gs IH]; intros sv; cbn [for_each]; [done|]. cbn. rewrite IH. by rewrite send_group_app. Qed.

Lemma flush_runs_solo turns : forall l sv, (length l <= turns)%nat -> solo (flush_runs turns l) sv = (tt, send_group l sv).
Proof.
  induction turns as [|turns IH]; intros l sv Hl; (destruct l as [|x l]; [done|]); cbn in Hl; [lia|]. cbn [flush_runs].
  pose proof (span_app (same_run x) l) as Es. destruct (span (same_run x) l) as [run rest]. cbn [fst snd] in Es. subst l. rewrite length_app in Hl.
  rewrite solo_bind, solo_groups, drain_chunks, IH by lia. f_equal. symmetry. apply (send_group_app (x :: run)).
Qed.

(** A flush loses, duplicates and reorders nothing.  However the staged sends
    fall into runs of one socket and destination, and the runs into groups of at
    most [LAST_HOP_DRAIN] frames, the kernel is handed exactly the staged
    datagrams, in the order they were staged, and the list is empty afterwards. *)
Theorem flush_order r sv :
  let out := solo (flush_staged_sends r) sv in
  out.1 = mkReader (rd_fast r) [] /\ sv_sent out.2 = reverse (sent_of <$> rd_staged r) ++ sv_sent sv.
Proof.
  unfold flush_staged_sends. rewrite solo_bind, flush_runs_solo by done. cbn. split; [done | apply send_group_log].
Qed.

(* ------------------------------------------------------------------ *)
(** ** Every interleaving *)

Section Laws.
Context `{HashIter} `{GateHasher} `{IpNet} (allow_private : bool).

Lemma made_for_sess c s h sv : made_for c s h sv -> ss_conn (sess_of sv h) = c /\ ss_sess (sess_of sv h) = s.
Proof.
  intros [g Hg]. unfold ident in Hg. unfold sess_of. rewrite lookup_total_alt. destruct (sv_sess sv !! h) as [x|]; cbn in Hg; [|done].
  by injection Hg as <- <- _.
Qed.


End Laws.

(* ------------------------------------------------------------------ *)
(** ** A run: the slow path arms, two datagrams are staged, a flush sends them *)

Lemma reader_from_last d c r : match d with x :: _ => left_reader x.1 x.2 | [] => None end = Some (c, r) -> reader_from d c r.
Proof. destruct d as [|x d]; [done|]. intros E. right. exists x. split; [apply elem_of_cons; by left | done]. Qed.

Module FastDemo.
Definition reader_of (g : Config) : Reader :=
  match cf_done g with x :: _ => default Reader_new (snd <$> left_reader x.1 x.2) | [] => Reader_new end.
Definition item (g : Config) (payload : bytes) : Job :=
  JItem 1 1 (reader_of g) 5 (AddrIp Demo.peer) payload (LUnknown, 0) (LUnknown, 0) (fun _ => SendOk) true.

Definition g1 : Config := sched_run false (connect 1 Restricted :: whole (item initial [1])) initial.
Definition g2 : Config := sched_run false (whole (item g1 [2])) g1.
Definition g3 : Config := sched_run false (whole (item g2 [3])) g2.
Definition g4 : Config := sched_run false (whole (JFlush 1 (reader_of g3))) g3.

Ltac reader_step := unfold whole; cbn [app]; split; [cbn [sched_ok item job_ok]; split_and?;
  first [apply (bool_decide_eq_true_1 (is_Some _)); vm_compute; reflexivity | vm_compute; split; congruence
        | left; reflexivity | apply reader_from_last; vm_compute; reflexivity] | repeat (split; [exact I|]); exact I].

Lemma g1_reachable : reachable false g1.
Proof. apply sched_run_rtc. split; [apply env_connect; vm_compute; reflexivity | reader_step]. Qed.
Lemma g2_reachable : reachable false g2.
Proof. unfold reachable. etrans; [apply g1_reachable | apply sched_run_rtc; reader_step]. Qed.
Lemma g3_reachable : reachable false g3.
Proof. unfold reachable. etrans; [apply g2_reachable | apply sched_run_rtc; reader_step]. Qed.
Lemma g4_reachable : reachable false g4.
Proof. unfold reachable. etrans; [apply g3_reachable | apply sched_run_rtc; reader_step]. Qed.
End FastDemo.


(** An OPEN by address installs a flow; the flow's payload is staged; an OPEN by a
    known name flushes it and sends its own payload itself. *)
Module OpenDemo.
Import FastDemo.
Definition flow_job (g : Config) (payload : bytes) : Job := JFlow 1 1 (reader_of g) 8 payload.
Definition open (g : Config) (id : Z) (target : TargetAddr) (payload : bytes) : Job :=
  JIngress 1 1 (reader_of g) 5 id target payload (LAddr Demo.peer, 5000) (LUnknown, 0) (LUnknown, 0) (fun _ => SendOk) true.
Definition h1 : Config := sched_run false (connect 1 Restricted :: whole (open initial 8 (AddrIp Demo.peer) [1])) initial.
Definition h2 : Config := sched_run false (whole (flow_job h1 [2])) h1.
Definition h3 : Config := sched_run false (whole (open h2 10 (AddrDomain Demo.host 53) [3])) h2.

Lemma h3_reachable : reachable false h3.
Proof.
  unfold reachable. etrans; [|etrans]; apply sched_run_rtc; unfold open, flow_job; [|reader_step..]. split; [apply env_connect; vm_compute; reflexivity | reader_step].
Qed.

Lemma open_sends : length (sv_sent (cf_sv h1)) = 1%nat /\ sg_payload <$> rd_staged (reader_of h2) = [[2]] /\
  sv_sent (cf_sv h3) = [(0, Demo.peer); (0, Demo.peer); (0, Demo.peer)] /\ rd_staged (reader_of h3) = [] /\
  registered (sv_heap (cf_sv h3)) (cn_reg (conn_of (cf_sv h3) 1)) 5 10.
Proof. split_and!; [vm_compute; reflexivity..|]. exists 2%positive. eexists. split_and!; vm_compute; reflexivity. Qed.
End OpenDemo.
