(* ===== verification/SessRace.v ===== *)
(** Interleavings of the session tasks that the code's comments rule out, as
    concrete runs of the system: each is reachable, step by step. *)
From stdpp Require Import fin_maps relations.
From S2P Require Import Prelude Addr DnsKey DnsPolicy DnsMemo DnsAnswer Wire Binding Flow FlowRun Pin DnsGate DnsGateRun Sess SessTask SessSys SessDemo SessInv.

(* ------------------------------------------------------------------ *)
(** ** A flow that outlives its association *)

(** A full-cone reader has passed its bounds checks when the client closes the
    session; it installs its flow nevertheless, and exits. *)
Module Orphan.
Definition src : SocketAddr := SockV4 [9; 9; 9; 9] 5000.
Definition steps : list Sched :=
  [connect 1 FullCone] ++ whole (JCreate 1 1 5 None) ++
  [SStart (JUnsolicited 0 src); SRun 0 3] ++ whole (JClose 1 5) ++ [SRun 0 20; SEnd 0] ++ whole (JExit 1 0).
Definition final : Config := sched_run false steps initial.

(** [install_unsolicited] takes no shard lock, so the law of [no_orphan_flow] does
    not extend to full-cone connections: with every call returned and the reader
    gone, an open flow of the closed session is still registered. *)
Lemma full_cone_orphan : reachable false final /\ cf_run final = [] /\
  entry_of (table_of (cf_sv final) 1) 5 = None /\ registered (sv_heap (cf_sv final)) (cn_reg (conn_of (cf_sv final) 1)) 5 3 /\
  fb_state (sv_heap (cf_sv final) !!! 1%positive) = 1.
Proof.
  split_and!; [| vm_compute; reflexivity | vm_compute; reflexivity | | vm_compute; reflexivity].
  - apply sched_run_rtc. unfold steps, whole. cbn [app]. sched_steps.
  - exists 1%positive. eexists. split_and!; vm_compute; reflexivity.
Qed.
End Orphan.

(* ------------------------------------------------------------------ *)
(** ** A close that does not stop the parked followers *)

(** Two datagrams for a cold name, the second parked behind the first's lookup;
    the client closes the session; the answer arrives. *)
Module Recreate.
Definition fwd (p : bytes) : Job := JForward 1 1 5 (AddrDomain Demo.host 53) p (LUnknown, 0) (fun _ => SendOk) true.
Definition waiter : Job := JWaiter 2 1 5 Demo.host 53 0 0 Demo.answer [Demo.answer].
Definition steps : list Sched :=
  [connect 1 Restricted; SStart (fwd [1]); SRun 0 200; SSpawn 0 waiter] ++
  whole (fwd [2]) ++ whole (JClose 1 5) ++ [SRun 0 400; SEnd 0].
Definition final : Config := sched_run false steps initial.

(** The waiter's own datagram is cancelled, the follower is delivered without a
    flag and makes the session again: [close_is_final] speaks of the sessions the
    cancelled lookup makes for itself, not of the ones it makes for followers. *)
Lemma follower_recreates : reachable false final /\ cf_run final = [] /\
  (exists d, cf_done final !! 1%nat = Some (JClose 1 5, OFlags [0]) /\ cf_done final !! 0%nat = Some d /\ d.1 = waiter) /\
  is_Some (entry_of (table_of (cf_sv final) 1) 5) /\ sv_sent (cf_sv final) = [(0, Demo.peer)] /\ sv_permits (cf_sv final) = MAX_SESSIONS_GLOBAL - 1.
Proof.
  split_and!; [| vm_compute; reflexivity | | apply (bool_decide_eq_true_1 (is_Some _)); vm_compute; reflexivity | vm_compute; reflexivity | vm_compute; reflexivity].
  - apply sched_run_rtc. unfold steps, whole, fwd, waiter. cbn [app]. sched_steps.
  - eexists. split_and!; vm_compute; reflexivity.
Qed.
End Recreate.

(* ------------------------------------------------------------------ *)
(** ** A holder count below zero *)

(** A creation has swapped [counted] and not yet added to [session_holders] when
    the session is closed. *)
Module Wrap.
Definition steps : list Sched := [connect 1 Restricted; SStart (JCreate 1 1 5 None); SRun 0 15] ++ whole (JClose 1 5).
Definition final : Config := sched_run false steps initial.

(** The close's [fetch_sub] comes first and wraps: until the creation runs again,
    every connection's share is the minimum instead of the whole pool's. *)
Lemma holders_wrap : reachable false final /\ sv_holders (cf_sv final) = 2 ^ 64 - 1 /\ fair_sess_cap (cf_sv final) = MIN_SESSION_SHARE.
Proof.
  split_and!; [| vm_compute; reflexivity | vm_compute; reflexivity].
  apply sched_run_rtc. unfold steps, whole. cbn [app]. sched_steps.
Qed.
End Wrap.

(* ------------------------------------------------------------------ *)
(** ** An upper bound below the length *)

(** One call of [len_upper_bound] at 999 ms has read the stamp; another, at
    1000 ms, resets the insert counter; the first reads the old length and the new
    counter. *)
Module Torn.
Definition sv0 : Server := cf_sv (sched_run false ([connect 1 Restricted] ++ whole (JCreate 1 1 5 None)) initial).
Definition early : task Z * Server := run_steps 1 (len_upper_bound 1 999) sv0.
Definition reset : task Z * Server := run_steps 4 (len_upper_bound 1 1000) early.2.

(** The order of the loads does not make the sum a bound: a fresh stamp of the
    older sample still goes with a counter that is already reset. *)
Lemma bound_torn : table_len (table_of sv0 1) = 1 /\ (solo early.1 reset.2).1 = 0.
Proof. vm_compute. done. Qed.
End Torn.
