(* ===== verification/Window.v ===== *)
(** The uplink queue window of a client connection ([SpaceCache] and the
    admission functions of [src/bin/myquic2-client/rev2.rs]).

    A payload is admitted when the bytes already waiting for the wire leave room
    in a budget of [window_ms] of the path's rate.  The bytes waiting inside the
    QUIC connection are read from a cache, one packed word, and only an
    admission the cache would refuse reads them from the connection. *)
From Stdlib Require Import Floats.SpecFloat.
From stdpp Require Import fin_maps.
From S2P Require Import Prelude Addr R3 R2 Wire Stage.

Definition UDP_QUEUE_WINDOW_MS : Z := 10.
Definition UDP_QUEUE_FLOOR_BYTES : Z := 8 * 1024.
Definition QUEUE_SAMPLE_MS : Z := 250.
Definition SINCE_MASK : Z := 2 ^ 32 - 1.

(* ------------------------------------------------------------------ *)
(** ** [SpaceCache]

    Every access is one atomic operation on one word; [note_admitted] and
    [resample] are the operation of their successful exchange, or of the lost
    one. *)

(** [v & !SINCE_MASK]: the hint in its place, of a [u64]. *)
Definition hint_bits (v : Z) : Z := Z.shiftl (Z.shiftr v 32) 32.

Definition space (packed : Z) : Z :=
  let hint := Z.shiftr packed 32 in
  let since := Z.land packed SINCE_MASK in
  saturating_sub hint since.

Definition note_admitted (n : Z) (packed : Z) : Z :=
  let n := Z.min n SINCE_MASK in
  let since := Z.min (saturating_add (Z.land packed SINCE_MASK) n) SINCE_MASK in
  Z.lor (hint_bits packed) since.

Definition observe (packed : Z) : Z := packed.

(** The debug assertion that the buffer is below 4 GiB is left out, as in a
    release build. *)
Definition resample (observed space : Z) (packed : Z) : Z :=
  let hint := Z.min space (2 ^ 32 - 1) in
  if packed =? observed then Z.shiftl hint 32 else packed.

Definition cache_clear : Z := 0.

(* ------------------------------------------------------------------ *)
(** ** The byte budget

    [f64] arithmetic is the binary64 arithmetic of [SpecFloat]. *)

Definition f64 : Type := spec_float.
Definition f64_div : f64 -> f64 -> f64 := SFdiv 53 1024.
Definition f64_mul : f64 -> f64 -> f64 := SFmul 53 1024.
Definition f64_add : f64 -> f64 -> f64 := SFadd 53 1024.

(** [n as f64] of an unsigned integer. *)
Definition as_f64 (n : Z) : f64 := binary_normalize 53 1024 n 0 false.

(** [x as usize]: towards zero, saturating, and zero for a NaN. *)
Definition f64_as_usize (x : f64) : Z :=
  match x with
  | S754_zero _ | S754_nan => 0
  | S754_infinity s => if s then 0 else usize_max
  | S754_finite s m e => if s then 0 else Z.min (Z.shiftl (Z.pos m) e) usize_max
  end.

Record Duration : Type := mkDuration { d_secs : Z; d_nanos : Z }.

(** The derived order, seconds first. *)
Definition duration_max (a b : Duration) : Duration :=
  if (d_secs a <? d_secs b) || ((d_secs a =? d_secs b) && (d_nanos a <=? d_nanos b)) then b else a.

Definition from_millis (ms : Z) : Duration := mkDuration (ms / 1000) (ms mod 1000 * 1000000).

Definition as_secs_f64 (d : Duration) : f64 :=
  f64_add (as_f64 (d_secs d)) (f64_div (as_f64 (d_nanos d)) (as_f64 1000000000)).

(** [x.clamp(lo, hi)]. *)
Definition clamp (x lo hi : Z) : Z := if x <? lo then lo else if x >? hi then hi else x.

Definition queue_window_bytes (cwnd : Z) (rtt : Duration) (window_ms : Z) : Z :=
  if window_ms =? 0 then 0 else
  let rtt := duration_max rtt (from_millis 1) in
  let per_second := f64_div (as_f64 cwnd) (as_secs_f64 rtt) in
  let budget := f64_mul per_second (f64_div (as_f64 window_ms) (as_f64 1000)) in
  clamp (f64_as_usize budget) UDP_QUEUE_FLOOR_BYTES R2_STAGE_MAX_BYTES.

(* ------------------------------------------------------------------ *)
(** ** What fits *)

Definition fits_queue_window (cap capacity space staged batched n : Z) : bool :=
  let occupancy := saturating_sub capacity space in
  saturating_add (saturating_add (saturating_add staged occupancy) batched) n <=? cap.

Definition fits_standalone_window (cap capacity space staged n : Z) : bool :=
  let occupancy := saturating_sub capacity space in
  let queued := saturating_add staged occupancy in
  if n >? cap then queued <=? cap else saturating_add queued n <=? cap.

(* ------------------------------------------------------------------ *)
(** ** Admission *)

(** The window's fields of [ConnRev2]. *)
Record QueueWindow : Type := mkQueueWindow {
  qw_window_ms : Z;
  qw_dg_send_bytes : Z;
  qw_dg_space : Z;
  qw_cap_bytes : Z;
  qw_sampled_ms : Z
}.

(** Before [configure_queue_window], with the transport's default buffer. *)
Definition QueueWindow_new (dg_send_bytes : Z) : QueueWindow := mkQueueWindow 0 dg_send_bytes 0 0 0.

Definition with_space (packed : Z) (q : QueueWindow) : QueueWindow :=
  mkQueueWindow (qw_window_ms q) (qw_dg_send_bytes q) packed (qw_cap_bytes q) (qw_sampled_ms q).

Definition configure_queue_window (window_ms dg_send_bytes : Z) (q : QueueWindow) : QueueWindow :=
  mkQueueWindow window_ms dg_send_bytes cache_clear 0 (qw_sampled_ms q).

(** What one admission reads besides the window: the monotonic clock, the
    connection's path ([stats().path]: the congestion window and the round trip
    time), the space the connection reports and the stager's backlog. *)
Record Reading : Type := mkReading {
  rd_mono : Z;
  rd_cwnd : Z;
  rd_rtt : Duration;
  rd_space : Z;
  rd_staged : Z
}.

Definition refresh_queue_cap (r : Reading) (window_ms : Z) (q : QueueWindow) : QueueWindow :=
  if saturating_sub (rd_mono r) (qw_sampled_ms q) <? QUEUE_SAMPLE_MS then q else
  mkQueueWindow (qw_window_ms q) (qw_dg_send_bytes q) (qw_dg_space q)
    (queue_window_bytes (rd_cwnd r) (rd_rtt r) window_ms) (rd_mono r).

Definition queue_window_cap (r : Reading) (q : QueueWindow) : option Z * QueueWindow :=
  if qw_window_ms q =? 0 then (None, q) else
  let q := refresh_queue_cap r (qw_window_ms q) q in
  (if qw_cap_bytes q =? 0 then None else Some (qw_cap_bytes q), q).

(** The body both admissions share: ask the cache, then the connection. *)
Definition admit_by (fits : Z -> bool) (r : Reading) (n : Z) (q : QueueWindow) : bool * QueueWindow :=
  if fits (space (qw_dg_space q)) then (true, with_space (note_admitted n (qw_dg_space q)) q) else
  let observed := observe (qw_dg_space q) in
  let q := with_space (resample observed (rd_space r) (qw_dg_space q)) q in
  if fits (rd_space r) then (true, with_space (note_admitted n (qw_dg_space q)) q) else (false, q).

Definition admit_uplink (r : Reading) (n batched : Z) (q : QueueWindow) : bool * QueueWindow :=
  match queue_window_cap r q with
  | (None, q) => (true, q)
  | (Some cap, q) =>
      admit_by (fun sp => fits_queue_window cap (qw_dg_send_bytes q) sp (rd_staged r) batched n) r n q
  end.

Definition admit_standalone (r : Reading) (n : Z) (q : QueueWindow) : bool * QueueWindow :=
  match queue_window_cap r q with
  | (None, q) => (true, q)
  | (Some cap, q) =>
      admit_by (fun sp => fits_standalone_window cap (qw_dg_send_bytes q) sp (rd_staged r) n) r n q
  end.

(* ------------------------------------------------------------------ *)
(** ** The packed word *)

Definition word (hint since : Z) : Z := hint * 2 ^ 32 + since.

Lemma word_hint hint since : 0 <= since < 2 ^ 32 -> Z.shiftr (word hint since) 32 = hint.
Proof. intros Hs. unfold word. rewrite Z.shiftr_div_pow2, Z.div_add_l, Z.div_small by lia. lia. Qed.

Lemma word_since hint since : 0 <= since < 2 ^ 32 -> Z.land (word hint since) SINCE_MASK = since.
Proof.
  intros Hs. unfold word. change SINCE_MASK with (Z.ones 32). rewrite Z.land_ones by lia.
  rewrite Z.add_comm, Z.mod_add, Z.mod_small by lia. done.
Qed.

Lemma space_word hint since : 0 <= since < 2 ^ 32 -> space (word hint since) = Z.max (hint - since) 0.
Proof. intros Hs. unfold space, saturating_sub. by rewrite word_hint, word_since. Qed.

Lemma word_note n hint since : 0 <= n -> 0 <= since < 2 ^ 32 ->
  note_admitted n (word hint since) = word hint (Z.min (since + n) SINCE_MASK).
Proof.
  intros Hn Hs. unfold note_admitted, hint_bits. rewrite word_hint, word_since by done.
  replace (Z.min (saturating_add since (Z.min n SINCE_MASK)) SINCE_MASK) with (Z.min (since + n) SINCE_MASK)
    by (unfold saturating_add, SINCE_MASK, usize_max; lia).
  set (k := Z.min (since + n) SINCE_MASK). assert (Hk : 0 <= k < 2 ^ 32) by (subst k; unfold SINCE_MASK; lia).
  unfold word. rewrite Z.shiftl_mul_pow2 by lia.
  assert (Hz : Z.land (hint * 2 ^ 32) k = 0).
  { apply Z.bits_inj'. intros i Hi. rewrite Z.land_spec, Z.bits_0. destruct (Z_lt_dec i 32).
    - by rewrite Z.mul_pow2_bits_low by lia.
    - rewrite (Z.bits_above_log2 k i); [by rewrite andb_false_r | lia|].
      destruct (decide (k = 0)) as [->|]; [cbn; lia|]. assert (Z.log2 k < 32) by (apply Z.log2_lt_pow2; lia). lia. }
  by rewrite (Z.add_nocarry_lxor _ _ Hz), (Z.lxor_lor _ _ Hz).
Qed.

Lemma word_sample sp : Z.shiftl (Z.min sp (2 ^ 32 - 1)) 32 = word (Z.min sp (2 ^ 32 - 1)) 0.
Proof. unfold word. rewrite Z.shiftl_mul_pow2 by lia. lia. Qed.

(* ------------------------------------------------------------------ *)
(** ** The budget's bounds *)

Lemma queue_window_bounds cwnd rtt ms : ms <> 0 ->
  UDP_QUEUE_FLOOR_BYTES <= queue_window_bytes cwnd rtt ms <= R2_STAGE_MAX_BYTES.
Proof.
  intros Hms. unfold queue_window_bytes. rewrite (proj2 (Z.eqb_neq _ _)) by done.
  unfold clamp, UDP_QUEUE_FLOOR_BYTES, R2_STAGE_MAX_BYTES. repeat case_match; zbool; lia.
Qed.

(** Ten milliseconds of 125 kB per 100 ms, of a path at its floor, at its
    ceiling, and below a millisecond of round trip. *)
Example window_values :
  queue_window_bytes 125000 (from_millis 100) 10 = 12500 /\
  queue_window_bytes 1200 (from_millis 200) 10 = 8192 /\
  queue_window_bytes (2 ^ 64 - 1) (from_millis 1) 10 = 262144 /\
  queue_window_bytes 12000 (mkDuration 0 5) 1 = queue_window_bytes 12000 (from_millis 1) 1 /\
  queue_window_bytes 125000 (from_millis 100) 0 = 0.
Proof. vm_compute. done. Qed.

(* ------------------------------------------------------------------ *)
(** ** Histories of one connection

    On the sharded runtime every admission of a connection runs on its thread,
    so the admissions, the datagrams handed to the connection and the bytes its
    driver sends are one sequence. *)

Inductive WinEvent : Type :=
| WUplink (mono cwnd : Z) (rtt : Duration) (staged n batched : Z)
| WStandalone (mono cwnd : Z) (rtt : Duration) (staged n : Z)
| WHand (n : Z)      (** a datagram of [n] bytes is queued in the connection *)
| WFree (n : Z).     (** the driver sent [n] bytes *)

(** The window, the connection's free space, and since the last probe the
    payload bytes admitted under a budget and the bytes handed over. *)
Record WinState : Type := mkWinState { ws_q : QueueWindow; ws_free : Z; ws_admitted : Z; ws_handed : Z }.

Definition admission (e : WinEvent) (s : WinState) : option (bool * QueueWindow) :=
  match e with
  | WUplink mono cwnd rtt staged n batched =>
      Some (admit_uplink (mkReading mono cwnd rtt (ws_free s) staged) n batched (ws_q s))
  | WStandalone mono cwnd rtt staged n => Some (admit_standalone (mkReading mono cwnd rtt (ws_free s) staged) n (ws_q s))
  | _ => None
  end.

(** The budget in force at an admission. *)
Definition budget (e : WinEvent) (s : WinState) : option Z :=
  match e with
  | WUplink mono cwnd rtt staged _ _ | WStandalone mono cwnd rtt staged _ =>
      (queue_window_cap (mkReading mono cwnd rtt (ws_free s) staged) (ws_q s)).1
  | _ => None
  end.

(** The rule with the connection's space [sp] read at every admission. *)
Definition probe_rule (e : WinEvent) (cap sp : Z) (s : WinState) : bool :=
  match e with
  | WUplink _ _ _ staged n batched => fits_queue_window cap (qw_dg_send_bytes (ws_q s)) sp staged batched n
  | WStandalone _ _ _ staged n => fits_standalone_window cap (qw_dg_send_bytes (ws_q s)) sp staged n
  | _ => true
  end.

Definition ev_len (e : WinEvent) : Z := match e with WUplink _ _ _ _ n _ | WStandalone _ _ _ _ n | WHand n | WFree n => n end.

(** Whether the admission read the connection. *)
Definition probes (e : WinEvent) (s : WinState) : bool :=
  match budget e s with Some cap => negb (probe_rule e cap (space (qw_dg_space (ws_q s))) s) | None => false end.

Definition win_step (e : WinEvent) (s : WinState) : WinState :=
  match e with
  | WHand n => mkWinState (ws_q s) (saturating_sub (ws_free s) n) (ws_admitted s) (ws_handed s + n)
  | WFree n => mkWinState (ws_q s) (ws_free s + n) (ws_admitted s) (ws_handed s)
  | _ =>
      match admission e s with
      | Some (ok, q) =>
          let counted := bool_decide (is_Some (budget e s)) in
          let s := if probes e s then mkWinState q (ws_free s) 0 0 else mkWinState q (ws_free s) (ws_admitted s) (ws_handed s) in
          mkWinState (ws_q s) (ws_free s) (ws_admitted s + if ok && counted then ev_len e else 0) (ws_handed s)
      | None => s
      end
  end.

Definition win_run (es : list WinEvent) (s : WinState) : WinState := foldl (fun s e => win_step e s) s es.

(** A connection just dialled, with [free] bytes of its buffer free. *)
Definition win_start (window_ms dg_send_bytes free : Z) : WinState :=
  mkWinState (configure_queue_window window_ms dg_send_bytes (QueueWindow_new dg_send_bytes)) free 0 0.

Definition ev_ok (e : WinEvent) : Prop :=
  match e with
  | WUplink _ _ _ staged n batched => 0 <= staged /\ 0 <= n /\ 0 <= batched
  | WStandalone _ _ _ staged n => 0 <= staged /\ 0 <= n
  | WHand n | WFree n => 0 <= n
  end.

(** How far the bytes handed over exceed the payload bytes admitted. *)
Definition excess (s : WinState) : Z := Z.max (ws_handed s - ws_admitted s) 0.

(** The cached word, since the probe that saw [sp0] bytes free. *)
Record win_inv (s : WinState) : Prop := mkWinInv {
  wi_word : exists hint since sp0, qw_dg_space (ws_q s) = word hint since /\ 0 <= since < 2 ^ 32 /\
    0 <= hint <= SINCE_MASK /\ hint <= sp0 /\ Z.min (ws_admitted s) SINCE_MASK <= since /\ sp0 - ws_handed s <= ws_free s;
  wi_free : 0 <= ws_free s;
  wi_counts : 0 <= ws_admitted s /\ 0 <= ws_handed s;
  wi_cap : qw_cap_bytes (ws_q s) = 0 \/ UDP_QUEUE_FLOOR_BYTES <= qw_cap_bytes (ws_q s) <= R2_STAGE_MAX_BYTES;
  wi_ms : 0 <= qw_window_ms (ws_q s)
}.

(** The cache overstates the free space by at most the excess. *)
Lemma win_space s : win_inv s -> 0 <= space (qw_dg_space (ws_q s)) <= ws_free s + excess s.
Proof.
  intros [(hint & since & sp0 & -> & Hs & Hh & Hsp & Ha & Hf) H0 [H1 H2] _ _].
  rewrite space_word by done. unfold excess, SINCE_MASK in *. lia.
Qed.

Lemma queue_window_cap_inv s r cap q : win_inv s -> queue_window_cap r (ws_q s) = (cap, q) ->
  qw_dg_space q = qw_dg_space (ws_q s) /\ qw_dg_send_bytes q = qw_dg_send_bytes (ws_q s) /\ qw_window_ms q = qw_window_ms (ws_q s) /\
  (qw_cap_bytes q = 0 \/ UDP_QUEUE_FLOOR_BYTES <= qw_cap_bytes q <= R2_STAGE_MAX_BYTES) /\
  (forall c, cap = Some c -> c = qw_cap_bytes q /\ UDP_QUEUE_FLOOR_BYTES <= c <= R2_STAGE_MAX_BYTES).
Proof.
  intros Hi. pose proof (wi_cap _ Hi) as Hc. unfold queue_window_cap, refresh_queue_cap.
  destruct (qw_window_ms (ws_q s) =? 0) eqn:E; [intros [= <- <-]; by split_and!|]. apply Z.eqb_neq in E.
  destruct (saturating_sub _ _ <? QUEUE_SAMPLE_MS); intros [= <- <-]; cbn [qw_dg_space qw_dg_send_bytes qw_window_ms qw_cap_bytes];
    (split; [done|]; split; [done|]; split; [done|]; split).
  - done.
  - intros c. case_match; [done|]. intros [= <-]. zbool. destruct Hc; [done | by split].
  - right. by apply queue_window_bounds.
  - pose proof (queue_window_bounds (rd_cwnd r) (rd_rtt r) (qw_window_ms (ws_q s)) E).
    intros c. case_match; [done|]. by intros [= <-].
Qed.

(** The bytes waiting for the wire before the payload, when the connection has
    [sp] bytes free. *)
Definition backlog (e : WinEvent) (sp : Z) (s : WinState) : Z :=
  let occupancy := Z.max (qw_dg_send_bytes (ws_q s) - sp) 0 in
  match e with
  | WUplink _ _ _ staged _ batched => staged + occupancy + batched
  | WStandalone _ _ _ staged _ => staged + occupancy
  | _ => 0
  end.

(** A standalone payload that no backlog would leave room for is judged by the
    backlog alone. *)
Definition oversized (e : WinEvent) (cap : Z) : bool :=
  match e with WStandalone _ _ _ _ n => n >? cap | _ => false end.

(** What a rule compares with the budget.  Each rule is monotone in the space,
    and a space overstated by [x] costs at most [x] bytes of the budget. *)
Definition demand (e : WinEvent) (cap sp : Z) (s : WinState) : Z :=
  match e with
  | WUplink _ _ _ _ _ _ | WStandalone _ _ _ _ _ => backlog e sp s + (if oversized e cap then 0 else ev_len e)
  | _ => 0
  end.

Lemma sat_le a b cap : 0 <= a -> 0 <= b -> 0 <= cap < usize_max -> saturating_add a b <= cap <-> a + b <= cap.
Proof. unfold saturating_add. lia. Qed.

Lemma probe_rule_demand e cap sp s : ev_ok e -> 0 <= cap <= R2_STAGE_MAX_BYTES ->
  probe_rule e cap sp s = true <-> demand e cap sp s <= cap.
Proof.
  assert (Hu : R2_STAGE_MAX_BYTES < usize_max) by reflexivity. intros He Hc. destruct e; cbn in *; try (split; intros; [lia | done]);
    unfold fits_queue_window, fits_standalone_window, saturating_sub, saturating_add; repeat case_match; zbool; lia.
Qed.

Lemma demand_shift e cap sp x s : 0 <= x -> demand e cap sp s <= demand e cap (sp + x) s + x.
Proof. intros Hx. destruct e; cbn; try lia; repeat case_match; lia. Qed.

Lemma demand_mono e cap sp sp' s : sp <= sp' -> demand e cap sp' s <= demand e cap sp s.
Proof. intros Hx. destruct e; cbn; try lia; repeat case_match; lia. Qed.

Lemma resample_same w sp : resample (observe w) sp w = word (Z.min sp (2 ^ 32 - 1)) 0.
Proof. unfold resample, observe. by rewrite Z.eqb_refl, word_sample. Qed.

(** What an admission answers and leaves in the cache. *)
Definition admitted_word (e : WinEvent) (s : WinState) : bool * Z :=
  let w := qw_dg_space (ws_q s) in
  match budget e s with
  | None => (true, w)
  | Some cap =>
      if probe_rule e cap (space w) s then (true, note_admitted (ev_len e) w) else
      let w := word (Z.min (ws_free s) (2 ^ 32 - 1)) 0 in
      if probe_rule e cap (ws_free s) s then (true, note_admitted (ev_len e) w) else (false, w)
  end.

Lemma admission_spec e s ok q : win_inv s -> admission e s = Some (ok, q) ->
  (ok, qw_dg_space q) = admitted_word e s /\ qw_dg_send_bytes q = qw_dg_send_bytes (ws_q s) /\
  qw_window_ms q = qw_window_ms (ws_q s) /\ (qw_cap_bytes q = 0 \/ UDP_QUEUE_FLOOR_BYTES <= qw_cap_bytes q <= R2_STAGE_MAX_BYTES).
Proof.
  intros Hi. unfold admitted_word. destruct e as [mono cwnd rtt staged n batched|mono cwnd rtt staged n|n|n];
    cbn [admission budget ev_len probe_rule]; try done; unfold admit_uplink, admit_standalone;
    destruct (queue_window_cap _ _) as [cap q0] eqn:E;
    destruct (queue_window_cap_inv _ _ _ _ Hi E) as (Hw & Hd & Hm & Hc & _); cbn [fst];
    (destruct cap as [cap|]; [|intros [= <- <-]; by rewrite Hw]);
    unfold admit_by; rewrite Hd, Hw, resample_same; cbn [rd_space rd_staged with_space qw_dg_space];
    repeat case_match; intros [= <- <-]; done.
Qed.

Lemma probes_word e s ok w : admitted_word e s = (ok, w) ->
  if probes e s then w = (if ok then note_admitted (ev_len e) else id) (word (Z.min (ws_free s) (2 ^ 32 - 1)) 0)
  else ok = true /\ (w = qw_dg_space (ws_q s) \/ w = note_admitted (ev_len e) (qw_dg_space (ws_q s))).
Proof.
  unfold admitted_word, probes. destruct (budget e s) as [cap|]; [|intros [= <- <-]; auto].
  destruct (probe_rule e cap (space _) s); cbn [negb]; [intros [= <- <-]; auto|].
  by destruct (probe_rule e cap (ws_free s) s); intros [= <- <-].
Qed.

(** The cached word and its ghosts survive an admission of [n] bytes. *)
Lemma noted hint since n adm : 0 <= n -> 0 <= adm -> 0 <= since < 2 ^ 32 -> Z.min adm SINCE_MASK <= since ->
  exists since', note_admitted n (word hint since) = word hint since' /\ 0 <= since' < 2 ^ 32 /\ Z.min (adm + n) SINCE_MASK <= since'.
Proof.
  intros Hn Ha Hs Hm. rewrite word_note by done. eexists. split; [done|]. unfold SINCE_MASK in *. lia.
Qed.

Lemma ev_len_ok e : ev_ok e -> 0 <= ev_len e.
Proof. destruct e; cbn; lia. Qed.

Lemma win_admit_inv e s : ev_ok e -> is_Some (admission e s) -> win_inv s -> win_inv (win_step e s).
Proof.
  intros He [[ok q] Ha] Hi. destruct (admission_spec _ _ _ _ Hi Ha) as (Hw & Hd & Hm & Hc).
  pose proof (ev_len_ok e He) as Hn. pose proof (probes_word e s ok (qw_dg_space q) (eq_sym Hw)) as Hp.
  assert (Hs : win_step e s = let s' := if probes e s then mkWinState q (ws_free s) 0 0 else mkWinState q (ws_free s) (ws_admitted s) (ws_handed s) in
    mkWinState (ws_q s') (ws_free s') (ws_admitted s' + if ok && bool_decide (is_Some (budget e s)) then ev_len e else 0) (ws_handed s'))
    by (destruct e; cbn [win_step]; try done; by rewrite Ha).
  rewrite Hs. destruct Hi as [(hint & since & sp0 & Hword & Hsi & Hh & Hsp & Hadm & Hf) H0 [H1 H2] _ Hms]. clear Hs.
  assert (Hb : probes e s = true -> bool_decide (is_Some (budget e s)) = true)
    by (unfold probes; destruct (budget e s); [intros _; by apply bool_decide_eq_true_2 | done]).
  destruct (probes e s) eqn:Ep; cbn [ws_q ws_free ws_admitted ws_handed]; split; cbn [ws_q ws_free ws_admitted ws_handed];
    rewrite ?Hm; try done; try (repeat case_match; lia).
  - rewrite Hb, andb_true_r by done. destruct ok.
    + destruct (noted (Z.min (ws_free s) (2 ^ 32 - 1)) 0 (ev_len e) 0) as (since' & E & ? & ?); try (unfold SINCE_MASK; lia).
      exists (Z.min (ws_free s) (2 ^ 32 - 1)), since', (ws_free s). rewrite Hp, E. unfold SINCE_MASK in *. split_and!; try done; lia.
    + exists (Z.min (ws_free s) (2 ^ 32 - 1)), 0, (ws_free s). rewrite Hp. unfold SINCE_MASK in *. split_and!; try done; lia.
  - destruct Hp as [-> Hp]. cbn [andb]. destruct (decide (is_Some (budget e s))) as [Hsome|Hno].
    + rewrite bool_decide_eq_true_2 by done. unfold admitted_word in Hw. destruct Hsome as [cap Hcap].
      unfold probes in Ep. rewrite Hcap in Hw, Ep. apply negb_false_iff in Ep. rewrite Ep, Hword in Hw. injection Hw as Hw.
      destruct (noted hint since (ev_len e) (ws_admitted s)) as (since' & E & ? & ?); try done.
      exists hint, since', sp0. rewrite Hw, E. split_and!; done || lia.
    + rewrite bool_decide_eq_false_2 by done. unfold admitted_word in Hw. destruct (budget e s); [by destruct Hno|].
      injection Hw as Hw. exists hint, since, sp0. rewrite Hw, Z.add_0_r. split_and!; done || lia.
Qed.

Lemma win_step_inv e s : ev_ok e -> win_inv s -> win_inv (win_step e s).
Proof.
  intros He Hi. destruct e as [mono cwnd rtt staged n batched|mono cwnd rtt staged n|n|n]; cbn in He.
  1, 2: apply win_admit_inv; [done | cbn; by eexists | done].
  all: destruct Hi as [(hint & since & sp0 & Hword & Hs & Hh & Hsp & Ha & Hf) H0 [H1 H2] Hc Hms];
    split; cbn; unfold saturating_sub; try done; try lia; exists hint, since, sp0; split_and!; done || lia.
Qed.

Lemma win_run_inv es : forall s, Forall ev_ok es -> win_inv s -> win_inv (win_run es s).
Proof.
  induction es as [|e es IH]; intros s He Hi; [done|]. apply list.Forall_cons in He as [He Hes]. cbn. by apply IH, win_step_inv.
Qed.

Lemma win_start_inv window_ms dg free : 0 <= window_ms -> 0 <= free -> win_inv (win_start window_ms dg free).
Proof. intros. split; cbn; try done; try lia. exists 0, 0, 0. unfold SINCE_MASK. split_and!; done || lia. Qed.

Lemma budget_bounds e s cap : win_inv s -> budget e s = Some cap -> UDP_QUEUE_FLOOR_BYTES <= cap <= R2_STAGE_MAX_BYTES.
Proof.
  intros Hi. destruct e; cbn [budget]; try done; destruct (queue_window_cap _ _) as [c q] eqn:E; cbn; intros ->;
    eapply (queue_window_cap_inv _ _ _ _ Hi E); done.
Qed.

(* ------------------------------------------------------------------ *)
(** ** The claim *)

(** C19: admission through the cache.  Over any history of a dialled connection
    (admissions, datagrams queued in it, bytes sent by its driver), with the
    window armed and a budget sampled, the budget is between its floor and the
    stager's cap.  A refused payload is one the rule that reads the connection
    at every payload refuses too.  With an admitted one the bytes waiting,
    itself included, exceed the budget by at most the excess: what was handed to
    the connection since the last probe beyond the payload bytes admitted (frame
    headers, control frames).  A standalone payload larger than the whole budget
    is the exception: it is admitted when the bytes waiting before it are within
    the budget, up to the excess, and overshoots by its own length.  With no
    excess the answer is the one of the rule.  While the window is off, or no
    rate was sampled, every payload is admitted. *)
Theorem window_admission window_ms dg_send_bytes free es e :
  0 <= window_ms -> 0 <= free -> Forall ev_ok es -> ev_ok e ->
  let s := win_run es (win_start window_ms dg_send_bytes free) in
  forall ok q, admission e s = Some (ok, q) ->
  match budget e s with
  | None => ok = true
  | Some cap =>
      UDP_QUEUE_FLOOR_BYTES <= cap <= R2_STAGE_MAX_BYTES /\
      (ok = false -> probe_rule e cap (ws_free s) s = false) /\
      (ok = true -> oversized e cap = false -> backlog e (ws_free s) s + ev_len e <= cap + excess s) /\
      (ok = true -> oversized e cap = true -> backlog e (ws_free s) s <= cap + excess s) /\
      (excess s = 0 -> ok = probe_rule e cap (ws_free s) s)
  end.
Proof.
  intros Hms Hf Hes He s ok q Ha. assert (Hi : win_inv s) by by apply win_run_inv, win_start_inv.
  destruct (admission_spec _ _ _ _ Hi Ha) as (Hw & _). unfold admitted_word in Hw.
  destruct (budget e s) as [cap|] eqn:Eb; [|by injection Hw].
  pose proof (budget_bounds _ _ _ Hi Eb) as Hc. pose proof (win_space s Hi) as Hsp.
  assert (Hc' : 0 <= cap <= R2_STAGE_MAX_BYTES) by (unfold UDP_QUEUE_FLOOR_BYTES in Hc; lia).
  pose proof (probe_rule_demand e cap (space (qw_dg_space (ws_q s))) s He Hc') as Hcached.
  pose proof (probe_rule_demand e cap (ws_free s) s He Hc') as Hexact.
  pose proof (demand_shift e cap (ws_free s) (excess s) s) as Hshift.
  pose proof (demand_mono e cap _ _ s (proj2 Hsp)) as Hmono. assert (0 <= excess s) by (unfold excess; lia).
  assert (Hd : ok = true -> demand e cap (ws_free s) s <= cap + excess s).
  { destruct (probe_rule e cap (space _) s); [intros _; apply proj1 in Hcached; specialize (Hcached eq_refl); lia|].
    destruct (probe_rule e cap (ws_free s) s); injection Hw as -> _; [intros _; apply proj1 in Hexact; specialize (Hexact eq_refl); lia | done]. }
  assert (He' : demand e cap (ws_free s) s = backlog e (ws_free s) s + (if oversized e cap then 0 else ev_len e)) by (destruct e; done).
  rewrite He' in Hd. split; [done|]. split; [|split; [intros Hok Ho; rewrite Ho in Hd; by apply Hd|split; [intros Hok Ho; rewrite Ho in Hd; specialize (Hd Hok); lia|]]].
  - destruct (probe_rule e cap (space _) s); [by injection Hw as -> _|]. by destruct (probe_rule e cap (ws_free s) s); injection Hw as -> _.
  - destruct (probe_rule e cap (space _) s) eqn:E1.
    + injection Hw as -> _. apply proj1 in Hcached. specialize (Hcached eq_refl). intros Hx. symmetry. apply Hexact. rewrite Hx in *. lia.
    + by destruct (probe_rule e cap (ws_free s) s); injection Hw as -> _.
Qed.

(** A history at 125 kB per 100 ms (a budget of 12500 bytes): the first payload
    is probed, the next are admitted from the cache, and the headers of what was
    handed over are the excess. *)
Definition demo_events : list WinEvent :=
  [WUplink 1000 125000 (from_millis 100) 0 1000 0; WHand 1016;
   WUplink 1001 125000 (from_millis 100) 0 1000 0; WHand 1016; WFree 500].
Definition demo_next : WinEvent := WStandalone 1002 125000 (from_millis 100) 200 9000.

Lemma window_admission_witness :
  let s := win_run demo_events (win_start 10 1048576 1048576) in
  budget demo_next s = Some 12500 /\ excess s = 32 /\ backlog demo_next (ws_free s) s + ev_len demo_next = 10732 /\
  backlog demo_next (ws_free s) s + ev_len demo_next <= 12500 + 32.
Proof.
  split; [vm_compute; reflexivity|]. split; [vm_compute; reflexivity|]. split; [vm_compute; reflexivity|].
  assert (E : exists q, admission demo_next (win_run demo_events (win_start 10 1048576 1048576)) = Some (true, q))
    by (eexists; vm_compute; reflexivity).
  destruct E as [q E].
  assert (Hes : Forall ev_ok demo_events).
  { unfold demo_events. repeat apply list.Forall_cons_2; try apply list.Forall_nil_2; cbn [ev_ok]; lia. }
  assert (Hn : ev_ok demo_next) by (unfold demo_next; cbn [ev_ok]; lia).
  pose proof (window_admission 10 1048576 1048576 demo_events demo_next ltac:(lia) ltac:(lia) Hes Hn true q E) as H.
  assert (Hb : budget demo_next (win_run demo_events (win_start 10 1048576 1048576)) = Some 12500) by (vm_compute; reflexivity).
  assert (Hx : excess (win_run demo_events (win_start 10 1048576 1048576)) = 32) by (vm_compute; reflexivity).
  cbv zeta in H. rewrite Hb, Hx in H. destruct H as (_ & _ & H & _). by apply H.
Defined.

(** Against an empty connection with the floor as budget, a standalone payload of
    60 KiB is admitted, and nothing is in excess. *)
Lemma oversized_overshoots :
  let s := win_start 10 1048576 1048576 in
  let e := WStandalone 1000 1200 (from_millis 200) 0 61440 in
  budget e s = Some UDP_QUEUE_FLOOR_BYTES /\ excess s = 0 /\ oversized e UDP_QUEUE_FLOOR_BYTES = true /\
  fst <$> admission e s = Some true /\ backlog e (ws_free s) s + ev_len e = 61440.
Proof. vm_compute. done. Qed.

(* ------------------------------------------------------------------ *)
(** ** A stale publish

    With several producers on one connection (the shared runtime) the exchange
    of [resample] succeeds whenever the word is the observed one again, also
    when admissions and another sample came in between. *)

Inductive CacheOp : Type :=
| CNote (n : Z)
| CPublish (observed probed : Z).

Definition cache_op (op : CacheOp) (packed : Z) : Z :=
  match op with CNote n => note_admitted n packed | CPublish observed probed => resample observed probed packed end.

(** Two producers start on a fresh word with an empty buffer of 4096 bytes.  The
    first reads both and is descheduled; the second publishes its probe, fills
    the buffer and publishes that nothing is free, which is the fresh word
    again; then the first publishes 4096 free bytes of a full buffer. *)
Lemma stale_publish : let fresh := cache_clear in
  space (foldl (fun w op => cache_op op w) fresh [CPublish fresh 4096; CNote 4096; CPublish (word 4096 4096) 0]) = 0 /\
  space (foldl (fun w op => cache_op op w) fresh
           [CPublish fresh 4096; CNote 4096; CPublish (word 4096 4096) 0; CPublish fresh 4096]) = 4096.
Proof. vm_compute. done. Qed.
