(* ===== verification/Client.v ===== *)
(** The client's uplink ([src/bin/myquic2-client/rev2.rs]): the state of one
    connection generation ([ConnRev2]), the state of one association
    ([UplinkFlows]), and the path of a payload from the association to the
    connection: the flow it rides on, the burst batch, the standalone sends, and
    the hold that keeps payloads while no connection exists.

    The flow tables, the stager and its drain, the fragmenter and the queue
    window are those of the other components.  What other tasks do to the
    stager between two requests of its lock is the list of turns of [Drain]; the
    rest of the state is the association's own during one send, which has no
    await point.  The QUIC connection is the parameter [DatagramConn], with what
    [QuicConn] adds; clocks are read at most once per send and are arguments. *)
From stdpp Require Import fin_maps.
From S2P Require Import Prelude Addr Codec R3 R3Train R3Ctl R2 R2Train Wire Frag Binding Flow Stage Pack Drain Window.

Definition BATCH_SMALL_MAX : Z := 512.
Definition CTL_QUEUE : Z := 64.
Definition REJECT_TTL_TRANSIENT_MS : Z := 1000.
Definition REJECT_TTL_POLICY_MS : Z := 30000.
Definition MAX_REJECTED_TARGETS : Z := 64.
Definition PENDING_MAX_ITEMS : Z := 64.
Definition PENDING_MAX_BYTES : Z := 64 * 1024.
Definition PENDING_TTL_MS : Z := 500.
Definition R2_REJECT_POLICY : Z := 1.
Definition R2_REJECT_TABLE_FULL : Z := 2.
Definition R2_REJECT_DNS : Z := 3.
Definition DATAGRAM_BUFFER : Z := 1024 * 1024.
Definition DATAGRAM_BUFFER_BULK : Z := 2 * 1024 * 1024.

Definition datagram_send_buffer_bytes (bulk : bool) : Z := if bulk then DATAGRAM_BUFFER_BULK else DATAGRAM_BUFFER.

(** What the uplink asks of a [quinn::Connection] besides sending. *)
Class QuicConn (Conn : Type) : Type := {
  handshake_data : Conn -> bool;     (** [handshake_data().is_some()] *)
  path_cwnd : Conn -> Z;             (** [stats().path] *)
  path_rtt : Conn -> Duration
}.

(* ------------------------------------------------------------------ *)
(** ** Rejected targets *)

Definition reject_ttl_ms (reason : Z) : Z :=
  if (reason =? R2_REJECT_TABLE_FULL) || (reason =? R2_REJECT_DNS) then REJECT_TTL_TRANSIENT_MS else REJECT_TTL_POLICY_MS.

Record RejectedTarget : Type := mkRejectedTarget { rj_target : TargetAddr; rj_at_ms : Z; rj_ttl_ms : Z }.

Definition rj_expired (now_ms : Z) (e : RejectedTarget) : bool := saturating_sub now_ms (rj_at_ms e) >=? rj_ttl_ms e.

(** [iter_mut().find(|e| e.target == target)], and the two stores. *)
Fixpoint refresh_rejected (target : TargetAddr) (now_ms ttl_ms : Z) (l : list RejectedTarget) : option (list RejectedTarget) :=
  match l with
  | [] => None
  | e :: l =>
      if bool_decide (rj_target e = target) then Some (mkRejectedTarget target now_ms ttl_ms :: l)
      else cons e <$> refresh_rejected target now_ms ttl_ms l
  end.

Definition note_rejected (target : TargetAddr) (reason now_ms : Z) (l : list RejectedTarget) : list RejectedTarget :=
  let ttl_ms := reject_ttl_ms reason in
  let l := List.filter (fun e => saturating_sub now_ms (rj_at_ms e) <? rj_ttl_ms e) l in
  match refresh_rejected target now_ms ttl_ms l with
  | Some l => l
  | None =>
      let l := if len l >=? MAX_REJECTED_TARGETS then drop 1 l else l in
      l ++ [mkRejectedTarget target now_ms ttl_ms]
  end.

(** The read scan, then the pruning one when an entry expired. *)
Definition is_rejected (addr : TargetAddr) (now_ms : Z) (l : list RejectedTarget) : bool * list RejectedTarget :=
  let hit := existsb (fun e => bool_decide (rj_target e = addr)) l in
  let stale := existsb (rj_expired now_ms) l in
  if negb stale then (hit, l) else
  let l := List.filter (fun e => negb (rj_expired now_ms e)) l in
  (existsb (fun e => bool_decide (rj_target e = addr)) l, l).

(* ------------------------------------------------------------------ *)
(** ** [ConnRev2] *)

(** The sending half of the control channel: the messages queued, and whether
    the task that reads them is gone. *)
Record CtlSender : Type := mkCtlSender { ct_queue : list CtlMessage; ct_closed : bool }.

(** The fields of [ConnRev2] but the stager; the registry and the allocator are
    those of [Flow.World], together with the shared bindings. *)
Record ConnRev2 : Type := mkConnRev2 {
  cn_epoch : Z;
  cn_wire : Wire;
  cn_flows : Flow.World;
  cn_ctl : CtlState;
  cn_ready : bool;
  cn_max_frame_bytes : Z;
  cn_rejected : list RejectedTarget;
  cn_ctl_tx : option CtlSender;
  cn_ctx_repair_rate : R3Ctl.CtlRate;
  cn_handshake_done : bool;
  cn_stage_retry : bool;
  cn_window : QueueWindow
}.

(** [with_stager]: a fresh generation, next to the bindings that live. *)
Definition ConnRev2_new (epoch : Z) (w : Wire) (h : Heap) : ConnRev2 :=
  let static_caps := bool_decide (w = Rev3) in
  mkConnRev2 epoch w (Flow.mkWorld h (FlowIds_new false) (FlowRegistry_new R2_MAX_FLOWS_PER_CONN)) CtlState_new static_caps
    (if static_caps then R2_DEFAULT_MAX_FRAME_BYTES else 0) [] None default_budget false false
    (QueueWindow_new (datagram_send_buffer_bytes false)).

Definition with_flows (f : Flow.World) (c : ConnRev2) : ConnRev2 :=
  mkConnRev2 (cn_epoch c) (cn_wire c) f (cn_ctl c) (cn_ready c) (cn_max_frame_bytes c) (cn_rejected c) (cn_ctl_tx c)
    (cn_ctx_repair_rate c) (cn_handshake_done c) (cn_stage_retry c) (cn_window c).
Definition with_rejected (l : list RejectedTarget) (c : ConnRev2) : ConnRev2 :=
  mkConnRev2 (cn_epoch c) (cn_wire c) (cn_flows c) (cn_ctl c) (cn_ready c) (cn_max_frame_bytes c) l (cn_ctl_tx c)
    (cn_ctx_repair_rate c) (cn_handshake_done c) (cn_stage_retry c) (cn_window c).
Definition with_handshake_done (c : ConnRev2) : ConnRev2 :=
  mkConnRev2 (cn_epoch c) (cn_wire c) (cn_flows c) (cn_ctl c) (cn_ready c) (cn_max_frame_bytes c) (cn_rejected c) (cn_ctl_tx c)
    (cn_ctx_repair_rate c) true (cn_stage_retry c) (cn_window c).
(** [stage_retry.notify_one()]. *)
Definition notify_retry (c : ConnRev2) : ConnRev2 :=
  mkConnRev2 (cn_epoch c) (cn_wire c) (cn_flows c) (cn_ctl c) (cn_ready c) (cn_max_frame_bytes c) (cn_rejected c) (cn_ctl_tx c)
    (cn_ctx_repair_rate c) (cn_handshake_done c) true (cn_window c).
Definition with_window (q : QueueWindow) (c : ConnRev2) : ConnRev2 :=
  mkConnRev2 (cn_epoch c) (cn_wire c) (cn_flows c) (cn_ctl c) (cn_ready c) (cn_max_frame_bytes c) (cn_rejected c) (cn_ctl_tx c)
    (cn_ctx_repair_rate c) (cn_handshake_done c) (cn_stage_retry c) q.

Definition frame_limit (conn_limit : Z) (c : ConnRev2) : Z :=
  if cn_max_frame_bytes c =? 0 then conn_limit else Z.min conn_limit (cn_max_frame_bytes c).

(* ------------------------------------------------------------------ *)
(** ** The hold *)

Record HeldPayload : Type := mkHeldPayload { hp_target : TargetAddr; hp_payload : bytes; hp_enqueued_ms : Z }.

Record UplinkPending : Type := mkUplinkPending { pd_items : list HeldPayload; pd_bytes : Z }.

Definition UplinkPending_default : UplinkPending := mkUplinkPending [] 0.

Definition try_push (target : TargetAddr) (payload : bytes) (now_ms : Z) (p : UplinkPending) : bool * UplinkPending :=
  if (len (pd_items p) >=? PENDING_MAX_ITEMS) || (saturating_add (pd_bytes p) (len payload) >? PENDING_MAX_BYTES)
  then (false, p)
  else (true, mkUplinkPending (pd_items p ++ [mkHeldPayload target payload now_ms]) (pd_bytes p + len payload)).

Definition pending_pop_front (p : UplinkPending) : option (HeldPayload * UplinkPending) :=
  match pd_items p with
  | [] => None
  | item :: items => Some (item, mkUplinkPending items (pd_bytes p - len (hp_payload item)))
  end.

Definition pending_push_front (item : HeldPayload) (p : UplinkPending) : UplinkPending :=
  mkUplinkPending (item :: pd_items p) (pd_bytes p + len (hp_payload item)).

(** The loop of [expire], over the items from the front. *)
Fixpoint expire_go (now_ms : Z) (items : list HeldPayload) (bytes n : Z) : Z * UplinkPending :=
  match items with
  | [] => (n, mkUplinkPending [] bytes)
  | front :: rest =>
      if saturating_sub now_ms (hp_enqueued_ms front) <? PENDING_TTL_MS then (n, mkUplinkPending items bytes)
      else expire_go now_ms rest (bytes - len (hp_payload front)) (n + 1)
  end.

Definition expire (now_ms : Z) (p : UplinkPending) : Z * UplinkPending := expire_go now_ms (pd_items p) (pd_bytes p) 0.

Definition pending_clear (p : UplinkPending) : Z * UplinkPending := (len (pd_items p), UplinkPending_default).

(* ------------------------------------------------------------------ *)
(** ** [UplinkFlows] *)

Record UplinkFlows : Type := mkUplinkFlows {
  up_flows : SessionFlows;
  up_epoch : Z;
  up_closed : bool;
  up_last : option (TargetAddr * Arc);
  up_pending : UplinkPending;
  up_stage_batch : list R2StageItem;
  up_stage_batch_bytes : Z
}.

Definition UplinkFlows_new : UplinkFlows :=
  mkUplinkFlows SessionFlows_new 0 false None UplinkPending_default [] 0.

(** [closed.take()]. *)
Definition take_closed (u : UplinkFlows) : bool * UplinkFlows :=
  (up_closed u, mkUplinkFlows (up_flows u) (up_epoch u) false (up_last u) (up_pending u) (up_stage_batch u) (up_stage_batch_bytes u)).
Definition with_table (t : SessionFlows) (last : option (TargetAddr * Arc)) (u : UplinkFlows) : UplinkFlows :=
  mkUplinkFlows t (up_epoch u) (up_closed u) last (up_pending u) (up_stage_batch u) (up_stage_batch_bytes u).
Definition with_batch (l : list R2StageItem) (n : Z) (u : UplinkFlows) : UplinkFlows :=
  mkUplinkFlows (up_flows u) (up_epoch u) (up_closed u) (up_last u) (up_pending u) l n.
Definition with_pending (p : UplinkPending) (u : UplinkFlows) : UplinkFlows :=
  mkUplinkFlows (up_flows u) (up_epoch u) (up_closed u) (up_last u) p (up_stage_batch u) (up_stage_batch_bytes u).

(* ------------------------------------------------------------------ *)
(** ** The state of a send *)

(** [prefer_severe] of [assoc.rs]. *)
Definition severity (failed : option DatagramSend) : Z :=
  match failed with
  | None | Some Sent => 0
  | Some Blocked | Some TooLarge => 1
  | Some Unsupported => 2
  | Some ConnectionLost => 3
  end.
Definition prefer_severe (first second : PayloadSend) : PayloadSend :=
  if severity (ps_failed second) >? severity (ps_failed first) then second else first.

(** [PayloadSend::complete]. *)
Definition send_complete (p : PayloadSend) : bool := bool_decide (ps_failed p = None).

Definition nothing_sent : PayloadSend := mkPayloadSend 0 None.

(** The clocks a send reads. *)
Record Clocks : Type := mkClocks { ck_coarse : Z; ck_mono : Z }.

Section Client.
Context {BU : Build} {Conn : Type} `{DatagramConn Conn} `{QuicConn Conn}.

(** The generation, its stager and connection, the association with its
    fragmenter, and the two drop counters the stager does not book. *)
Record Client : Type := mkClient {
  cl_conn : ConnRev2;
  cl_drain : Drain.World Conn;
  cl_up : UplinkFlows;
  cl_frag : R2Fragmenter;
  cl_over_cap : Z;
  cl_no_egress : Z
}.

Definition set_conn (c : ConnRev2) (s : Client) : Client :=
  mkClient c (cl_drain s) (cl_up s) (cl_frag s) (cl_over_cap s) (cl_no_egress s).
Definition set_drain (d : Drain.World Conn) (s : Client) : Client :=
  mkClient (cl_conn s) d (cl_up s) (cl_frag s) (cl_over_cap s) (cl_no_egress s).
Definition set_up (u : UplinkFlows) (s : Client) : Client :=
  mkClient (cl_conn s) (cl_drain s) u (cl_frag s) (cl_over_cap s) (cl_no_egress s).
Definition set_frag (f : R2Fragmenter) (s : Client) : Client :=
  mkClient (cl_conn s) (cl_drain s) (cl_up s) f (cl_over_cap s) (cl_no_egress s).
Definition book_over_cap (s : Client) : Client :=
  mkClient (cl_conn s) (cl_drain s) (cl_up s) (cl_frag s) (as_u64 (cl_over_cap s + 1)) (cl_no_egress s).
Definition book_no_egress (n : Z) (s : Client) : Client :=
  mkClient (cl_conn s) (cl_drain s) (cl_up s) (cl_frag s) (cl_over_cap s) (as_u64 (cl_no_egress s + n)).

Definition quic (s : Client) : Conn := lk_conn (dn_link (cl_drain s)).
Definition book (f : Drops -> Drops) (s : Client) : Client :=
  set_drain (Drain.with_drops (f (lk_drops (dn_link (cl_drain s)))) (cl_drain s)) s.

Definition set_world (f : Flow.World) (s : Client) : Client := set_conn (with_flows f (cl_conn s)) s.

(** The stager's lock, waited for. *)
Definition lock_stager (s : Client) : res unit Client :=
  let! '(_, d) := others_turn (cl_drain s) in Ok (set_drain d s).

(* ------------------------------------------------------------------ *)
(** ** Draining the connection's stager *)

(** [ConnRev2::drain_stage]: every overflow of a requeue is a full buffer, and
    the retry task is woken when items are left or the lock is taken. *)
Definition drain_stage (limit : Z) (s : Client) : res unit (R2DrainOutcome * Client) :=
  let d := cl_drain s in
  let! '(outcome, d) := drain_staged limit false (Drain.mkWorld (dn_link d) (dn_stage d) (dn_env d) []) in
  let s := book (book_buffer_full (len (dn_calls d))) (set_drain (Drain.mkWorld (dn_link d) (dn_stage d) (dn_env d) []) s) in
  let! '(held, d) := others_turn (cl_drain s) in
  let s := set_drain d s in
  let has_backlog := held || negb (stager_is_empty (dn_stage d)) in
  Ok (outcome, if has_backlog then set_conn (notify_retry (cl_conn s)) s else s).

(** [out.frames.min(u8::MAX)]; the other counters are statistics. *)
Definition map_drain_outcome (out : R2DrainOutcome) : PayloadSend :=
  mkPayloadSend (Z.min (do_frames out) 255) (do_failed out).

Definition drain_conn_stage (limit : Z) (s : Client) : res unit (PayloadSend * Client) :=
  let! '(out, s) := drain_stage limit s in Ok (map_drain_outcome out, s).

(* ------------------------------------------------------------------ *)
(** ** The burst batch *)

Definition drop_stage_batch (s : Client) : Client :=
  let dropped := len (up_stage_batch (cl_up s)) in
  book (book_egress_dead dropped) (set_up (with_batch [] 0 (cl_up s)) s).

(** One attempt of [flush_stage]: what fits leaves the batch.  [None] is a full
    stager. *)
Definition push_stage_batch (s : Client) : res unit (option Z * Client) :=
  let! s := lock_stager s in
  let! '(r, items, st) := push_batch (up_stage_batch (cl_up s)) (dn_stage (cl_drain s)) in
  let s := set_drain (Drain.with_stage st (cl_drain s)) s in
  let s := set_up (with_batch items (up_stage_batch_bytes (cl_up s)) (cl_up s)) s in
  Ok (match r with Ok queued => Some queued | _ => None end, s).

(** The [Ok] arm of the loop. *)
Definition flush_pushed (queued limit : Z) (drained : PayloadSend) (s : Client) : res unit (PayloadSend * Client) :=
  let s := set_up (with_batch (up_stage_batch (cl_up s)) 0 (cl_up s)) s in
  let! '(drained, s) :=
    if queued >=? R2_MAX_TRAIN_ITEMS then
      let! '(sent, s) := drain_conn_stage limit s in Ok (prefer_severe drained sent, s)
    else Ok (drained, s) in
  Ok (match ps_failed drained with
      | None => mkPayloadSend (Z.max (ps_frames drained) 1) None
      | Some failed => mkPayloadSend (ps_frames drained) (Some failed)
      end, s).

Definition flush_stage (limit : Z) (s : Client) : res unit (PayloadSend * Client) :=
  let u := cl_up s in
  if bool_decide (up_stage_batch u = []) then Ok (nothing_sent, s) else
  if negb (up_epoch u =? cn_epoch (cl_conn s)) then Ok (nothing_sent, drop_stage_batch s) else
  let! '(pushed, s) := push_stage_batch s in
  match pushed with
  | Some queued => flush_pushed queued limit nothing_sent s
  | None =>
      let! '(sent, s) := drain_conn_stage limit s in
      let drained := prefer_severe nothing_sent sent in
      let! '(pushed, s) := push_stage_batch s in
      match pushed with
      | Some queued => flush_pushed queued limit drained s
      | None =>
          let s := book (book_buffer_full (len (up_stage_batch (cl_up s)))) s in
          let s := set_up (with_batch [] 0 (cl_up s)) s in
          Ok (mkPayloadSend (ps_frames drained)
                (match ps_failed drained with Some v => Some v | None => Some Blocked end), s)
      end
  end.

(* ------------------------------------------------------------------ *)
(** ** Following the connection *)

(** The loop of [sync] over the table of a closed session. *)
Definition close_flow (f : Flow.World) (l : Arc) : Flow.World :=
  let h := call mark_closed l (w_heap f) in
  Flow.mkWorld h (w_ids f) (registry_remove h (fb_wire_id (h !!! l)) (w_reg f)).2.
Definition close_flows (ls : list Arc) (f : Flow.World) : Flow.World := foldl close_flow f ls.

Definition sync (s : Client) : Client :=
  let '(closed, u) := take_closed (cl_up s) in
  let s := set_up u s in
  if negb (up_epoch u =? cn_epoch (cl_conn s)) then
    let s := drop_stage_batch s in
    let u := cl_up s in
    set_up (mkUplinkFlows SessionFlows_new (cn_epoch (cl_conn s)) (up_closed u) None (up_pending u)
              (up_stage_batch u) (up_stage_batch_bytes u)) s
  else if closed then
    let s := drop_stage_batch s in
    let s := set_world (close_flows (flows_iter (up_flows (cl_up s))) (cn_flows (cl_conn s))) s in
    set_up (with_table SessionFlows_new None (cl_up s)) s
  else s.

(* ------------------------------------------------------------------ *)
(** ** The flow of a payload *)

Definition heap (s : Client) : Heap := w_heap (cn_flows (cl_conn s)).
Definition registry (s : Client) : FlowRegistry := w_reg (cn_flows (cl_conn s)).
Definition set_registry (r : FlowRegistry) (s : Client) : Client :=
  set_world (Flow.mkWorld (heap s) (w_ids (cn_flows (cl_conn s))) r) s.

(** [state() != FlowState::Closed]. *)
Definition not_closed (b : FlowBinding) : bool := negb (bool_decide (binding_state b = Closed)).

Definition memo_hit (h : Heap) (sess : Z) (addr : TargetAddr) (last : option (TargetAddr * Arc)) : option Arc :=
  match last with
  | Some (cached_addr, cached) =>
      if bool_decide (cached_addr = addr) && (fb_session (h !!! cached) =? sess) && not_closed (h !!! cached)
      then Some cached else None
  | None => None
  end.

(** [flows.insert(..)], with the memo of a success. *)
Definition bind (addr : TargetAddr) (l : Arc) (s : Client) : option Client :=
  match SessionFlows_insert (heap s) l (up_flows (cl_up s)) with
  | (true, t) => Some (set_up (with_table t (Some (addr, l)) (cl_up s)) s)
  | (false, _) => None
  end.

(** The last part of [ensure_binding]: a flow of this endpoint. *)
Definition open_new (sess : Z) (addr : TargetAddr) (s : Client) : option Arc * Client :=
  if negb (has_capacity (registry s)) then (None, s) else
  match insert_new_for (cn_wire (cl_conn s)) sess addr (cn_flows (cl_conn s)) with
  | (Ok l, f) =>
      let s := set_world f s in
      match bind addr l s with
      | Some s => (Some l, s)
      | None => (None, set_registry (registry_remove (heap s) (fb_wire_id (heap s !!! l)) (registry s)).2 s)
      end
  | (_, f) => (None, set_world f s)
  end.

(** From the full-table check on. *)
Definition reuse_or_open (sess : Z) (addr : TargetAddr) (now_ms : Z) (s : Client) : option Arc * Client :=
  if is_full (heap s) (up_flows (cl_up s)) then (None, s) else
  let '(rejected, l) := is_rejected addr now_ms (cn_rejected (cl_conn s)) in
  let s := set_conn (with_rejected l (cl_conn s)) s in
  if rejected then (None, s) else
  match find_server_flow (heap s) sess addr (registry s) with
  | Some server =>
      if is_open (heap s !!! server) then
        match bind addr server s with Some s => (Some server, s) | None => (None, s) end
      else if bool_decide (binding_state (heap s !!! server) = Closed) then
        open_new sess addr (set_registry (registry_remove (heap s) (fb_wire_id (heap s !!! server)) (registry s)).2 s)
      else open_new sess addr s
  | None => open_new sess addr s
  end.

Definition ensure_binding (sess : Z) (addr : TargetAddr) (now_ms : Z) (s : Client) : option Arc * Client :=
  match memo_hit (heap s) sess addr (up_last (cl_up s)) with
  | Some cached => (Some cached, s)
  | None =>
      let s := set_up (with_table (up_flows (cl_up s)) None (cl_up s)) s in
      match find (heap s) addr (up_flows (cl_up s)) with
      | Some existing =>
          let b := heap s !!! existing in
          if not_closed b then
            (Some existing, set_up (with_table (up_flows (cl_up s)) (Some (addr, existing)) (cl_up s)) s)
          else
            let s := set_up (with_table (SessionFlows_remove (heap s) (fb_wire_id b) (up_flows (cl_up s))).2 None (cl_up s)) s in
            reuse_or_open sess addr now_ms (set_registry (registry_remove (heap s) (fb_wire_id b) (registry s)).2 s)
      | None => reuse_or_open sess addr now_ms s
      end
  end.

(** [ConnRev2::is_handshake_done]. *)
Definition is_handshake_done (s : Client) : bool * Client :=
  if cn_handshake_done (cl_conn s) then (true, s) else
  if handshake_data (quic s) then (true, set_conn (with_handshake_done (cl_conn s)) s) else (false, s).

(** [take_context_slot] through the [Arc]; alone, its loop ends in one turn. *)
Definition take_slot (l : Arc) (h : Heap) : bool * Heap :=
  (default false (solo take_context_slot (h !!! l)).1, alter (fun b => (solo take_context_slot b).2) l h).

Definition uses_binding_context (l : Arc) (handshake_done : bool) (s : Client) : bool * Client :=
  match cn_wire (cl_conn s) with
  | Rev2 => (negb (is_open (heap s !!! l)), s)
  | Rev3 =>
      if negb handshake_done then (true, s) else
      let '(context, h) := take_slot l (heap s) in
      (context, set_world (Flow.mkWorld h (w_ids (cn_flows (cl_conn s))) (registry s)) s)
  end.

(* ------------------------------------------------------------------ *)
(** ** Admission *)

(** What an admission reads; the stager's lock is taken for its backlog. *)
Definition reading (mono : Z) (s : Client) : Reading :=
  mkReading mono (path_cwnd (quic s)) (path_rtt (quic s)) (datagram_send_buffer_space (quic s)) (sg_queued_bytes (dn_stage (cl_drain s))).

(** The window's lock of the stager is taken only while a budget is in force. *)
Definition lock_if_armed (mono : Z) (s : Client) : res unit Client :=
  match (queue_window_cap (reading mono s) (cn_window (cl_conn s))).1 with Some _ => lock_stager s | None => Ok s end.

Definition client_admit_uplink (mono n batched : Z) (s : Client) : res unit (bool * Client) :=
  let! s := lock_if_armed mono s in
  let '(ok, q) := Window.admit_uplink (reading mono s) n batched (cn_window (cl_conn s)) in
  Ok (ok, set_conn (with_window q (cl_conn s)) s).

Definition client_admit_standalone (mono n : Z) (s : Client) : res unit (bool * Client) :=
  let! s := lock_if_armed mono s in
  let '(ok, q) := Window.admit_standalone (reading mono s) n (cn_window (cl_conn s)) in
  Ok (ok, set_conn (with_window q (cl_conn s)) s).

(** A payload the window refuses is dropped and counted. *)
Definition over_queue_window (s : Client) : PayloadSend * Client := (nothing_sent, book_over_cap s).

Definition stage_or_count (limit mono : Z) (item : R2StageItem) (s : Client) : res unit (PayloadSend * Client) :=
  let! '(ok, s) := client_admit_uplink mono (len (si_payload item)) (up_stage_batch_bytes (cl_up s)) s in
  if negb ok then Ok (over_queue_window s) else
  let u := cl_up s in
  let s := set_up (with_batch (up_stage_batch u ++ [item])
                     (saturating_add (up_stage_batch_bytes u) (len (si_payload item))) u) s in
  if len (up_stage_batch (cl_up s)) >=? R2_MAX_TRAIN_ITEMS then flush_stage limit s else
  Ok (mkPayloadSend 1 None, s).

(* ------------------------------------------------------------------ *)
(** ** Standalone sends *)

Definition set_quic (c : Conn) (st : SendStats) (s : Client) : Client :=
  set_drain (Drain.with_link (mkLink c (lk_drops (dn_link (cl_drain s))) st) (cl_drain s)) s.

(** The frame of a payload that is sent alone. *)
Definition single_body (w : Wire) (sess : Z) (addr : TargetAddr) (payload : bytes) (flow : option Z) (context : bool) (limit : Z) :
    res unit bytes :=
  match flow with
  | Some wire_id =>
      if negb context then encode_data_steady w wire_id payload limit
      else encode_data_open w wire_id sess addr false payload limit
  | None => encode_data_inline w sess addr false payload limit
  end.

(** [None]: the frame does not fit the limit. *)
Definition try_single_data (limit sess : Z) (addr : TargetAddr) (payload : bytes) (flow : option Z) (w : Wire) (context : bool)
    (s : Client) : res unit (option PayloadSend * Client) :=
  match single_body w sess addr payload flow context limit with
  | Panic => Panic
  | Err _ => Ok (None, s)
  | Ok body =>
      let stats := lk_stats (dn_link (cl_drain s)) in
      match try_send_datagram (quic s) body with
      | (Sent, conn) => Ok (Some (mkPayloadSend 1 None), set_quic conn (stat_payload (len payload) stats) s)
      | (other, conn) => Ok (Some (mkPayloadSend 0 (Some other)), set_quic conn stats s)
      end
  end.

(** [frag.send(..)] with the association's fragmenter on the connection. *)
Definition frag_send (limit : Z) (flow : R2FragFlow) (payload : bytes) (s : Client) : res unit (PayloadSend * Client) :=
  let! '(sent, f) := Frag.send limit flow payload (Frag.mkWorld (cl_frag s) (quic s) (lk_stats (dn_link (cl_drain s)))) in
  Ok (sent, set_frag (w_frag f) (set_quic (w_conn f) (w_stats f) s)).

Definition frag_flow (sess : Z) (addr : TargetAddr) (flow : option Z) (context : bool) : R2FragFlow :=
  match flow with
  | Some wire_id => if negb context then Frag.Steady wire_id else Frag.Opening wire_id sess addr false
  | None => Frag.Inline sess addr false
  end.

(** Whether the verdict of a single frame is final. *)
Definition final_verdict (sent : PayloadSend) : bool :=
  send_complete sent || negb (bool_decide (ps_failed sent = Some Blocked) || bool_decide (ps_failed sent = Some TooLarge)).

Definition send_standalone (limit sess : Z) (addr : TargetAddr) (payload : bytes) (flow : option Z) (w : Wire) (context : bool)
    (s : Client) : res unit (PayloadSend * Client) :=
  let! '(single, s) := try_single_data limit sess addr payload flow w context s in
  match single with
  | Some sent => if final_verdict sent then Ok (sent, s) else frag_send limit (frag_flow sess addr flow context) payload s
  | None => frag_send limit (frag_flow sess addr flow context) payload s
  end.

Definition bad_address_header (s : Client) : PayloadSend * Client :=
  (mkPayloadSend 0 (Some TooLarge), book (book_too_large 1) s).

(** The batch and the queue first, so that the payload overtakes nothing. *)
Definition flush_and_drain (limit : Z) (s : Client) : res unit (PayloadSend * Client) :=
  let! '(flushed, s) := flush_stage limit s in
  let! '(drained, s) := drain_conn_stage limit s in
  Ok (prefer_severe flushed drained, s).

(** A payload above [BATCH_SMALL_MAX]. *)
Definition send_large (limit mono sess : Z) (addr : TargetAddr) (payload : bytes) (flow : option Z) (context : bool)
    (s : Client) : res unit (PayloadSend * Client) :=
  let! '(before, s) := flush_and_drain limit s in
  let! '(ok, s) := client_admit_standalone mono (len payload) s in
  let! '(sent, s) :=
    if ok then send_standalone limit sess addr payload flow (cn_wire (cl_conn s)) context s
    else Ok (over_queue_window s) in
  Ok (prefer_severe before sent, s).

Definition send_uplink (ck : Clocks) (conn_limit sess : Z) (addr : TargetAddr) (payload : bytes) (s : Client) :
    res unit (PayloadSend * Client) :=
  let s := sync s in
  let s := set_frag (set_wire (cn_wire (cl_conn s)) (cl_frag s)) s in
  let limit := frame_limit conn_limit (cl_conn s) in
  match header addr with
  | Ok _ =>
      match ensure_binding sess addr (ck_coarse ck) s with
      | (None, s) =>
          if len payload >? BATCH_SMALL_MAX then send_large limit (ck_mono ck) sess addr payload None false s
          else stage_or_count limit (ck_mono ck) (mkR2StageItem sess (KInline sess addr false) payload) s
      | (Some l, s) =>
          let '(done, s) := is_handshake_done s in
          let '(context, s) := uses_binding_context l done s in
          let wire_id := fb_wire_id (heap s !!! l) in
          if len payload <=? BATCH_SMALL_MAX then
            let kind := if context then KOpen wire_id sess addr false else KSteady wire_id in
            stage_or_count limit (ck_mono ck) (mkR2StageItem sess kind payload) s
          else send_large limit (ck_mono ck) sess addr payload (Some wire_id) context s
      end
  | _ =>
      let! '(before, s) := flush_and_drain limit s in
      let '(bad, s) := bad_address_header s in
      Ok (prefer_severe before bad, s)
  end.

(* ------------------------------------------------------------------ *)
(** ** Held payloads *)

Definition hold_pending (target : TargetAddr) (payload : bytes) (mono : Z) (s : Client) : bool * Client :=
  let '(ok, p) := try_push target payload mono (up_pending (cl_up s)) in
  (ok, set_up (with_pending p (cl_up s)) s).

(** [book_hold_loss]: one lost datagram each. *)
Definition expire_pending (mono : Z) (s : Client) : Z * Client :=
  let '(n, p) := expire mono (up_pending (cl_up s)) in
  (n, book_no_egress n (set_up (with_pending p (cl_up s)) s)).

Definition clear_pending (s : Client) : Z * Client :=
  let '(n, p) := pending_clear (up_pending (cl_up s)) in
  (n, book_no_egress n (set_up (with_pending p (cl_up s)) s)).

(** The verdict that puts the payload back. *)
Definition egress_lost (sent : PayloadSend) : bool :=
  bool_decide (ps_failed sent = Some ConnectionLost) || bool_decide (ps_failed sent = Some Unsupported).

(** The loop of [flush_pending_on]; each turn takes one item of the hold, and
    reads the clocks of its own send. *)
Fixpoint flush_pending_go (cks : list Clocks) (limit sess : Z) (aggregate : PayloadSend) (s : Client) :
    res unit (PayloadSend * Client) :=
  match pending_pop_front (up_pending (cl_up s)), cks with
  | None, _ => Ok (aggregate, s)
  | Some _, [] => Panic
  | Some (item, p), ck :: cks =>
      let s := set_up (with_pending p (cl_up s)) s in
      let! '(sent, s) := send_uplink ck limit sess (hp_target item) (hp_payload item) s in
      let aggregate := mkPayloadSend (Z.min (ps_frames aggregate + ps_frames sent) 255)
                         (ps_failed (prefer_severe aggregate sent)) in
      if egress_lost sent
      then Ok (aggregate, set_up (with_pending (pending_push_front item (up_pending (cl_up s))) (cl_up s)) s)
      else flush_pending_go cks limit sess aggregate s
  end.

Definition flush_pending_on (cks : list Clocks) (limit sess : Z) (s : Client) : res unit (PayloadSend * Client) :=
  flush_pending_go cks limit sess nothing_sent s.

(* ------------------------------------------------------------------ *)
(** ** Leaving *)

(** The local cleanup of [send_sess_close]: the bindings and the queued payloads
    of the session, on the generation the association was synced to. *)
Definition release_session (sess epoch : Z) (s : Client) : res unit Client :=
  if negb (epoch =? 0) && (cn_epoch (cl_conn s) =? epoch) then
    let '(_, h, reg) := remove_session sess (heap s) (registry s) in
    let s := set_world (Flow.mkWorld h (w_ids (cn_flows (cl_conn s))) reg) s in
    let! s := lock_stager s in
    let '(_, st, d) := Stage.drop_session sess (dn_stage (cl_drain s)) (lk_drops (dn_link (cl_drain s))) in
    Ok (set_drain (Drain.with_drops d (Drain.with_stage st (cl_drain s))) s)
  else Ok s.
End Client.
Arguments Client Conn : clear implicits.
