(* ===== verification/RejectRun.v ===== *)
(** The targets the server refuses: the table of [note_rejected] and
    [is_rejected] against the window of each refusal. *)
From S2P Require Import Prelude Addr Window Client.

(** A target is refused at [now] when an entry of it has not run out. *)
Definition live (now : Z) (e : RejectedTarget) : bool := negb (rj_expired now e).
Definition rejected_at (l : list RejectedTarget) (addr : TargetAddr) (now : Z) : bool :=
  existsb (fun e => bool_decide (rj_target e = addr) && live now e) l.

(** The entries are of distinct targets and few. *)
Definition rejects_ok (l : list RejectedTarget) : Prop := NoDup (rj_target <$> l) /\ len l <= MAX_REJECTED_TARGETS.

Lemma existsb_filter {A} (f g : A -> bool) l : existsb f (List.filter g l) = existsb (fun x => f x && g x) l.
Proof. induction l as [|x l IH]; [done|]. cbn. destruct (g x); cbn; rewrite IH; [by rewrite andb_true_r | by rewrite andb_false_r]. Qed.

Lemma existsb_ext' {A} (f g : A -> bool) l : (forall x, x ∈ l -> f x = g x) -> existsb f l = existsb g l.
Proof. induction l as [|x l IH]; intros Hf; [done|]. cbn. rewrite Hf by left. rewrite IH; [done|]. intros y Hy. apply Hf. by right. Qed.

Lemma live_le now now' e : now <= now' -> live now' e = true -> live now e = true.
Proof. unfold live, rj_expired, saturating_sub. intros Hle. rewrite !negb_true_iff, !Z.geb_leb, !Z.leb_gt. lia. Qed.

(** The two scans of [is_rejected] read the window, and prune what ran out. *)
Lemma is_rejected_spec addr now l : (is_rejected addr now l).1 = rejected_at l addr now /\ (is_rejected addr now l).2 = List.filter (live now) l.
Proof.
  unfold is_rejected, rejected_at. destruct (existsb (rj_expired now) l) eqn:E; cbn [negb fst snd].
  - split; [|done]. by rewrite existsb_filter.
  - assert (Hl : forall e, e ∈ l -> live now e = true).
    { intros e He. unfold live. destruct (rj_expired now e) eqn:Ee; [|done].
      exfalso. apply not_true_iff_false in E. apply E, existsb_exists. exists e. by rewrite <- list_elem_of_In. }
    split; [apply existsb_ext'; intros e He; by rewrite Hl, andb_true_r|]. clear E. induction l as [|e l IH]; [done|]. cbn. rewrite Hl by left.
    f_equal. apply IH. intros x Hx. apply Hl. by right.
Qed.

Lemma rejected_filter now now' l addr : now <= now' -> rejected_at (List.filter (live now) l) addr now' = rejected_at l addr now'.
Proof.
  intros Hle. unfold rejected_at. rewrite existsb_filter. apply existsb_ext'. intros e _. destruct (live now' e) eqn:E; [|by rewrite !andb_false_r].
  by rewrite (live_le now now' e Hle E), andb_true_r.
Qed.

Lemma filter_ok f l : rejects_ok l -> rejects_ok (List.filter f l).
Proof.
  intros [Hn Hl]. split.
  - clear Hl. induction l as [|e l IH]; [done|]. cbn in *. apply list.NoDup_cons in Hn as [Hx Hn]. destruct (f e); [|by apply IH]. cbn. apply list.NoDup_cons. split; [|by apply IH].
    intros (y & Ey & Hy)%list_elem_of_fmap. apply Hx. apply list_elem_of_fmap. exists y. split; [done|]. apply list_elem_of_In in Hy. apply list_elem_of_In. by apply List.filter_In in Hy as [? _].
  - pose proof (List.filter_length_le f l). unfold len in *. lia.
Qed.

Lemma rejected_absent l addr t : addr ∉ (rj_target <$> l) -> rejected_at l addr t = false.
Proof.
  intros Hn. apply not_true_iff_false. intros (y & Hy & Hb)%existsb_exists. apply andb_true_iff in Hb as [Hb _]. apply bool_decide_eq_true in Hb.
  apply Hn. rewrite <- Hb. apply list_elem_of_fmap. exists y. split; [done|]. by apply list_elem_of_In.
Qed.

Lemma refresh_spec target now ttl l : NoDup (rj_target <$> l) ->
  match refresh_rejected target now ttl l with
  | Some l' => rj_target <$> l' = rj_target <$> l /\
      (forall addr t, rejected_at l' addr t = if bool_decide (addr = target) then live t (mkRejectedTarget target now ttl) else rejected_at l addr t)
  | None => target ∉ (rj_target <$> l)
  end.
Proof.
  induction l as [|e l IH]; cbn [refresh_rejected]; [intros _; apply not_elem_of_nil|]. intros [Hx Hn]%list.NoDup_cons. case_bool_decide as Et.
  - split; [by cbn; rewrite Et|]. intros addr t. unfold rejected_at. cbn [existsb rj_target]. rewrite Et. case_bool_decide as Ea.
    + subst addr. rewrite bool_decide_true by done. cbn [andb]. fold (rejected_at l target t). rewrite rejected_absent; [by rewrite orb_false_r|]. by rewrite <- Et.
    + by rewrite !bool_decide_false by congruence.
  - specialize (IH Hn). destruct (refresh_rejected target now ttl l) as [l'|]; cbn [fmap option_fmap option_map].
    + destruct IH as [E1 E2]. split; [by rewrite !fmap_cons, E1|]. intros addr t. unfold rejected_at in *. cbn [existsb]. rewrite E2. case_bool_decide as Ea; [|done].
      subst addr. by rewrite bool_decide_false by congruence.
    + apply not_elem_of_cons. split; [congruence | done].
Qed.

Lemma rejected_snoc l e addr t : rejected_at (l ++ [e]) addr t = rejected_at l addr t || (bool_decide (rj_target e = addr) && live t e).
Proof. unfold rejected_at. rewrite existsb_app. cbn. by rewrite orb_false_r. Qed.

(** The entry a note forgets: the oldest, and only of a table full of live
    entries of other targets. *)
Definition evicted (target : TargetAddr) (now : Z) (l : list RejectedTarget) (addr : TargetAddr) : Prop :=
  MAX_REJECTED_TARGETS <= len (List.filter (live now) l) /\ target ∉ (rj_target <$> List.filter (live now) l) /\
  rj_target <$> head (List.filter (live now) l) = Some addr.

(** A new entry, at the end of a table that has room for it. *)
Definition reject_room (l : list RejectedTarget) : list RejectedTarget := if len l >=? MAX_REJECTED_TARGETS then drop 1 l else l.

Lemma reject_room_spec l : rejects_ok l -> NoDup (rj_target <$> reject_room l) /\ len (reject_room l) < MAX_REJECTED_TARGETS /\
  (forall a, a ∈ (rj_target <$> reject_room l) -> a ∈ (rj_target <$> l)) /\
  (forall a t, ~ (MAX_REJECTED_TARGETS <= len l /\ rj_target <$> head l = Some a) -> rejected_at (reject_room l) a t = rejected_at l a t).
Proof.
  intros [Hn Hl]. unfold reject_room. destruct (len l >=? MAX_REJECTED_TARGETS) eqn:E; zbool; [|done].
  destruct l as [|e l]; [done|]. change (drop 1 (e :: l)) with (drop 0 l). rewrite drop_0. rewrite fmap_cons in Hn. apply list.NoDup_cons in Hn as [_ Hn]. rewrite len_cons in Hl. split_and!; [done | lia | |].
  - intros a Ha. rewrite fmap_cons. by right.
  - intros a t Ha. unfold rejected_at. cbn [existsb]. rewrite (bool_decide_false (rj_target e = a)); [done|]. intros <-. apply Ha. split; [lia | done].
Qed.

Lemma note_rejected_eq target reason now l : note_rejected target reason now l =
  match refresh_rejected target now (reject_ttl_ms reason) (List.filter (live now) l) with
  | Some l => l
  | None => reject_room (List.filter (live now) l) ++ [mkRejectedTarget target now (reject_ttl_ms reason)]
  end.
Proof.
  unfold note_rejected. rewrite (List.filter_ext (fun e => saturating_sub now (rj_at_ms e) <? rj_ttl_ms e) (live now)); [done|].
  intros e. unfold live, rj_expired. rewrite Z.geb_leb, Z.leb_antisym. by rewrite negb_involutive.
Qed.

Lemma note_rejected_spec target reason now l : rejects_ok l -> rejects_ok (note_rejected target reason now l) /\
  forall addr t, ~ evicted target now l addr -> rejected_at (note_rejected target reason now l) addr t =
    if bool_decide (addr = target) then live t (mkRejectedTarget target now (reject_ttl_ms reason)) else rejected_at (List.filter (live now) l) addr t.
Proof.
  intros Hok. pose proof (filter_ok (live now) l Hok) as Hk. rewrite note_rejected_eq. unfold evicted. set (k := List.filter (live now) l) in *.
  pose proof (refresh_spec target now (reject_ttl_ms reason) k (proj1 Hk)) as Hr. destruct (refresh_rejected _ _ _ k) as [l'|].
  - destruct Hr as [E Hr]. split; [|intros addr t _; apply Hr]. destruct Hk as [Hn Hl]. split; [by rewrite E|].
    assert (length l' = length k) by (apply (f_equal length) in E; by rewrite !length_fmap in E). unfold len in *. lia.
  - destruct (reject_room_spec k Hk) as (R1 & R2 & R3 & R4). split.
    + split; [|rewrite len_app; unfold len in *; cbn; lia]. rewrite fmap_app. apply list.NoDup_app. split_and!; [done | | apply list.NoDup_singleton].
      intros a Ha Ht. apply list_elem_of_singleton in Ht. subst a. by apply Hr, R3.
    + intros addr t He. rewrite rejected_snoc. cbn [rj_target]. case_bool_decide as Ea.
      * subst addr. rewrite rejected_absent by (intros Ha; by apply Hr, R3). by rewrite bool_decide_true.
      * rewrite bool_decide_false by congruence. rewrite orb_false_r. apply R4. intros [? ?]. by apply He.
Qed.

(** C40: The table of refused targets is the window of each refusal.  A read
    answers exactly the entries that have not run out and prunes the others,
    which changes no later answer.  A refusal noted at [now] holds for its own
    window (one second when the server's table is full or its DNS failed, thirty
    otherwise) and no longer; the answers for every other target stay as they
    are, but for the oldest of 64 live entries, which makes room.  The table
    keeps at most 64 entries of distinct targets. *)
Theorem rejects_window l target reason now : rejects_ok l ->
  rejects_ok (note_rejected target reason now l) /\
  (forall t, (is_rejected target t (note_rejected target reason now l)).1 = (saturating_sub t now <? reject_ttl_ms reason)) /\
  (forall addr t, now <= t -> addr <> target -> ~ evicted target now l addr ->
     (is_rejected addr t (note_rejected target reason now l)).1 = (is_rejected addr t l).1) /\
  (forall addr addr' t, now <= t -> rejects_ok (is_rejected addr now l).2 /\ (is_rejected addr' t (is_rejected addr now l).2).1 = (is_rejected addr' t l).1).
Proof.
  intros Hok. destruct (note_rejected_spec target reason now l Hok) as [H1 H2]. split_and!; [done|..].
  - intros t. rewrite (proj1 (is_rejected_spec _ _ _)), H2, bool_decide_true by (done || (intros (_ & Hn & Hh); apply Hn;
      destruct (List.filter (live now) l) as [|e k]; [done|]; cbn in Hh; injection Hh as <-; rewrite fmap_cons; left)).
    unfold live, rj_expired. cbn. rewrite Z.geb_leb, Z.leb_antisym. by rewrite negb_involutive.
  - intros addr t Ht Ha He. by rewrite !(proj1 (is_rejected_spec _ _ _)), H2, bool_decide_false, rejected_filter.
  - intros addr addr' t Ht. destruct (is_rejected_spec addr now l) as [_ ->]. split; [by apply filter_ok|].
    by rewrite !(proj1 (is_rejected_spec _ _ _)), rejected_filter.
Qed.

(** A refusal of the server's DNS ends after a second; one of its policy lives on. *)
Lemma rejects_window_witness :
  let a := AddrDomain [97] 53 in let b := AddrDomain [98] 53 in
  let l := note_rejected b R2_REJECT_POLICY 5000 [] in
  (is_rejected a 5999 (note_rejected a R2_REJECT_DNS 5000 l)).1 = true /\
  (is_rejected a 6000 (note_rejected a R2_REJECT_DNS 5000 l)).1 = false /\
  (is_rejected b 6000 (note_rejected a R2_REJECT_DNS 5000 l)).1 = true.
Proof.
  intros a b l. assert (Hok : rejects_ok l).
  { split; [vm_compute; apply list.NoDup_singleton | vm_compute; discriminate]. }
  destruct (rejects_window l a R2_REJECT_DNS 5000 Hok) as (_ & H1 & H2 & _). rewrite !H1. split_and!; [reflexivity | reflexivity|].
  rewrite H2; [reflexivity | lia | discriminate|]. intros [He _]. vm_compute in He. by apply He.
Defined.
