(* ===== verification/Dispatch.v ===== *)
(** The client's dispatcher ([src/bin/myquic2-client/dispatcher.rs]): what one
    task per connection generation does with the datagrams and the control
    messages of the server.  It routes replies to the associations, installs the
    flows the server opens, follows its control plane, and writes the staged
    replies to the relay sockets in runs.

    The dispatcher shares the generation's state with the associations: the
    state holds one association in full ([Client]) and of the others the entry
    the hub publishes.  The counters of [counters] and [dgram_drops] that only
    report are not modelled. *)
From stdpp Require Import fin_maps.
From S2P Require Import Prelude Addr Codec R3 R3Train R3Ctl R2 R2Train Wire Frag Partial Reasm Binding Flow Stage Pack Drain DnsPolicy DnsMemo Window Client.

Definition DISPATCH_CACHE : Z := 4096.
Definition LAST_HOP_DRAIN : Z := 32.
Definition TRAIN_HASH_CAP : Z := 128.
Definition R2_ACK_OPEN : Z := 0.

(** What the dispatcher uses of an association: its relay socket, by identity. *)
Record AssocEntry : Type := mkAssocEntry {
  en_relay : Z;
  en_app : option SocketAddr;
  en_alive : bool;
  en_replied : bool;
  en_raw_reply : bool;
  en_reply_v6 : bool
}.

(** A slot of the dispatcher's cache; the entry is a [Weak]. *)
Record DispatchSlot : Type := mkDispatchSlot {
  sl_sess : Z;
  sl_entry : option positive;
  sl_app : option SocketAddr
}.

Record StagedReply : Type := mkStagedReply {
  sr_sock : option Z;
  sr_app : SocketAddr;
  sr_dst : SocketAddr;
  sr_payload : bytes;
  sr_raw : bool;
  sr_reply_v6 : bool
}.

Inductive Lookup : Type :=
| Hit (entry : positive) (app : SocketAddr)
| NoEntry
| NoApp.

(** [binding.reply_src().or_else(|| binding.target.socket_addr())]. *)
Definition r2_reply_dst (b : FlowBinding) : option SocketAddr :=
  match fb_reply_src b with Some a => Some a | None => socket_addr (fb_target b) end.

Section Dispatch.
Context {LO : Layout} {BU : Build} {Conn : Type} `{DatagramConn Conn} `{QuicConn Conn}.

(** This thread's DNS memo, with the clock and the epoch it is read at. *)
Context (dns_clock : DnsMemo.Clock) (dns_epoch : Z) (dns_memo : Memo).

(** An entry is in [ds_entries] while something holds it, so that a [Weak] to it
    can be upgraded. *)
Record Disp : Type := mkDisp {
  ds_client : Client Conn;
  ds_reasm : R2Reassembler;
  ds_entries : gmap positive AssocEntry;
  ds_hub : gmap Z positive;
  ds_cache : list DispatchSlot;
  ds_out : list StagedReply
}.

Definition set_client (c : Client Conn) (s : Disp) : Disp :=
  mkDisp c (ds_reasm s) (ds_entries s) (ds_hub s) (ds_cache s) (ds_out s).
Definition set_reasm (r : R2Reassembler) (s : Disp) : Disp :=
  mkDisp (ds_client s) r (ds_entries s) (ds_hub s) (ds_cache s) (ds_out s).
Definition set_cache (c : list DispatchSlot) (s : Disp) : Disp :=
  mkDisp (ds_client s) (ds_reasm s) (ds_entries s) (ds_hub s) c (ds_out s).

Definition d_conn (s : Disp) : ConnRev2 := cl_conn (ds_client s).
Definition d_heap (s : Disp) : Heap := heap (ds_client s).
Definition d_registry (s : Disp) : FlowRegistry := registry (ds_client s).
Definition on_client (f : Client Conn -> Client Conn) (s : Disp) : Disp := set_client (f (ds_client s)) s.
Definition on_conn (f : ConnRev2 -> ConnRev2) (s : Disp) : Disp := on_client (fun c => set_conn (f (cl_conn c)) c) s.
Definition on_heap (f : Heap -> Heap) (s : Disp) : Disp :=
  on_client (fun c => set_world (Flow.mkWorld (f (heap c)) (w_ids (cn_flows (cl_conn c))) (registry c)) c) s.

(* ------------------------------------------------------------------ *)
(** ** Associations *)

Definition push_out (r : StagedReply) (s : Disp) : Disp :=
  mkDisp (ds_client s) (ds_reasm s) (ds_entries s) (ds_hub s) (ds_cache s) (ds_out s ++ [r]).

(** [entry.mark_replied()]. *)
Definition mark_replied (e : positive) (s : Disp) : Disp :=
  mkDisp (ds_client s) (ds_reasm s)
    (alter (fun x => mkAssocEntry (en_relay x) (en_app x) (en_alive x) true (en_raw_reply x) (en_reply_v6 x)) e (ds_entries s))
    (ds_hub s) (ds_cache s) (ds_out s).

(** [stage_reply] and [stage_reply_follow], pushed. *)
Definition stage_reply (e : positive) (app dst : SocketAddr) (payload : bytes) (s : Disp) : Disp :=
  match ds_entries s !! e with
  | Some x => push_out (mkStagedReply (Some (en_relay x)) app dst payload (en_raw_reply x) (en_reply_v6 x)) (mark_replied e s)
  | None => s
  end.
Definition stage_reply_follow (e : positive) (app dst : SocketAddr) (payload : bytes) (s : Disp) : Disp :=
  match ds_entries s !! e with
  | Some x => push_out (mkStagedReply None app dst payload (en_raw_reply x) (en_reply_v6 x)) (mark_replied e s)
  | None => s
  end.

Definition set_slot (idx : nat) (sl : DispatchSlot) (s : Disp) : Disp := set_cache (<[idx := sl]> (ds_cache s)) s.

(** [Weak::upgrade] of the slot's entry, if it is of this session and alive. *)
Definition cached_entry (sess : Z) (sl : DispatchSlot) (s : Disp) : option (positive * AssocEntry) :=
  if negb (sl_sess sl =? sess) then None else
  e ← sl_entry sl; x ← ds_entries s !! e; if en_alive x then Some (e, x) else None.

Definition found (e : positive) (app : option SocketAddr) : Lookup :=
  match app with Some app => Hit e app | None => NoApp end.

Definition lookup_entry (sess : Z) (s : Disp) : res unit (Lookup * Disp) :=
  let idx := Z.to_nat (Z.land sess (DISPATCH_CACHE - 1)) in
  match ds_cache s !! idx with
  | None => Panic
  | Some sl =>
      match cached_entry sess sl s with
      | Some (e, x) =>
          match sl_app sl with
          | Some app => Ok (Hit e app, s)
          | None => Ok (found e (en_app x), set_slot idx (mkDispatchSlot (sl_sess sl) (sl_entry sl) (en_app x)) s)
          end
      | None =>
          match e ← ds_hub s !! sess; x ← ds_entries s !! e; Some (e, x) with
          | None => Ok (NoEntry, set_slot idx (mkDispatchSlot sess None None) s)
          | Some (e, x) =>
              if negb (en_alive x) then Ok (NoEntry, set_slot idx (mkDispatchSlot sess None None) s) else
              Ok (found e (en_app x), set_slot idx (mkDispatchSlot sess (Some e) (en_app x)) s)
          end
      end
  end.

Definition r2_lookup (sess : Z) (s : Disp) : res unit (option (positive * SocketAddr) * Disp) :=
  let! '(r, s) := lookup_entry sess s in
  Ok (match r with Hit e app => Some (e, app) | _ => None end, s).

(** A name is looked up in this thread's memo only. *)
Definition r2_addr_dst (addr : TargetAddr) : res unit (option SocketAddr) :=
  match addr with
  | AddrIp dst => Ok (Some dst)
  | AddrDomain h p =>
      let! r := lookup_cached_fast dns_clock dns_epoch dns_memo h p in
      Ok (match r with LAddr dst => Some dst | LNegative | LUnknown => None end)
  end.

(* ------------------------------------------------------------------ *)
(** ** Answers to the server *)

(** [r2_send_ctl]. *)
Definition r2_send_ctl (ctl : R2.Ctl) (s : Disp) : DatagramSend * Disp :=
  let '(v, conn) := try_send_datagram (quic (ds_client s)) (encode_ctl ctl) in
  (v, on_client (fun c => set_quic conn (lk_stats (dn_link (cl_drain c))) c) s).

Definition send_flow_ack (id : Z) (s : Disp) : Disp := (r2_send_ctl (R2.FlowAck id R2_ACK_OPEN) s).2.

Definition with_ctl_tx (tx : option CtlSender) (c : ConnRev2) : ConnRev2 :=
  mkConnRev2 (cn_epoch c) (cn_wire c) (cn_flows c) (cn_ctl c) (cn_ready c) (cn_max_frame_bytes c) (cn_rejected c) tx
    (cn_ctx_repair_rate c) (cn_handshake_done c) (cn_stage_retry c) (cn_window c).
Definition with_repair_rate (r : R3Ctl.CtlRate) (c : ConnRev2) : ConnRev2 :=
  mkConnRev2 (cn_epoch c) (cn_wire c) (cn_flows c) (cn_ctl c) (cn_ready c) (cn_max_frame_bytes c) (cn_rejected c) (cn_ctl_tx c)
    r (cn_handshake_done c) (cn_stage_retry c) (cn_window c).

(** [ConnRev2::send_ctl]: a full or closed queue drops the message. *)
Definition send_ctl (msg : CtlMessage) (c : ConnRev2) : bool * ConnRev2 :=
  if negb (bool_decide (cn_wire c = Rev3)) then (false, c) else
  match cn_ctl_tx c with
  | Some tx =>
      if ct_closed tx || (len (ct_queue tx) >=? CTL_QUEUE) then (false, c)
      else (true, with_ctl_tx (Some (mkCtlSender (ct_queue tx ++ [msg]) false)) c)
  | None => (false, c)
  end.

Definition send_need_context (wire_id now_ms : Z) (c : ConnRev2) : bool * ConnRev2 :=
  if negb (bool_decide (cn_wire c = Rev3)) then (false, c) else
  match fid_for wire_id with
  | None => (false, c)
  | Some fid =>
      let '(ok, rate) := allow now_ms (cn_ctx_repair_rate c) in
      let c := with_repair_rate rate c in
      if negb ok then (false, c) else send_ctl (NeedContext fid) c
  end.

Definition send_flow_reject (id reason : Z) (s : Disp) : Disp :=
  match cn_wire (d_conn s) with
  | Rev2 => (r2_send_ctl (R2.FlowReject id reason) s).2
  | Rev3 =>
      match fid_for id with
      | None => s
      | Some fid => on_conn (fun c => (send_ctl (Reject fid reason) c).2) s
      end
  end.

(** [now_ms] is the coarse clock the repair reads. *)
Definition repair_unknown_flow (wire_id now_ms : Z) (s : Disp) : Disp :=
  match cn_wire (d_conn s) with
  | Rev3 => on_conn (fun c => (send_need_context wire_id now_ms c).2) s
  | Rev2 => s
  end.

(* ------------------------------------------------------------------ *)
(** ** Flows the server opens *)

(** [new_shared], [set_reply_src], [mark_open], [registry.insert]. *)
Definition install_server_flow (id : Z) (sess : option Z) (addr : option TargetAddr) (s : Disp) : res unit (option Arc * Disp) :=
  if negb (wire_id_server_owned id) then Ok (None, send_flow_reject id R2_REJECT_POLICY s) else
  match sess, addr with
  | Some sess, Some addr =>
      let! src := r2_addr_dst addr in
      match src with
      | None => Ok (None, send_flow_reject id R2_REJECT_POLICY s)
      | Some src =>
          let '(l, h) := new_shared id sess (AddrIp src) (d_heap s) in
          let h := call mark_open l (alter (set_reply_src src) l h) in
          let '(r, reg) := registry_insert h l (d_registry s) in
          let s := on_client (set_world (Flow.mkWorld h (w_ids (cn_flows (d_conn s))) reg)) s in
          match r with
          | Ok binding => Ok (Some binding, s)
          | Err Full => Ok (None, send_flow_reject id R2_REJECT_TABLE_FULL s)
          | Err Conflict => Ok (None, send_flow_reject id R2_REJECT_POLICY s)
          | Panic => Panic
          end
      end
  | _, _ => Ok (None, send_flow_reject id R2_REJECT_POLICY s)
  end.

(* ------------------------------------------------------------------ *)
(** ** The control plane *)

(** The session of the association that [ds_client] holds. *)
Context (own : Z).

(** [hub.entry(sess)] is alive: its signal is raised. *)
Definition raise_closed (sess : Z) (s : Disp) : Disp :=
  match e ← ds_hub s !! sess; ds_entries s !! e with
  | Some x =>
      if en_alive x && (sess =? own) then
        on_client (fun c =>
          let u := cl_up c in
          set_up (mkUplinkFlows (up_flows u) (up_epoch u) true (up_last u) (up_pending u) (up_stage_batch u)
                    (up_stage_batch_bytes u)) c) s
      else s
  | None => s
  end.

Definition with_ctl (k : CtlState) (c : ConnRev2) : ConnRev2 :=
  mkConnRev2 (cn_epoch c) (cn_wire c) (cn_flows c) k (cn_ready c) (cn_max_frame_bytes c) (cn_rejected c) (cn_ctl_tx c)
    (cn_ctx_repair_rate c) (cn_handshake_done c) (cn_stage_retry c) (cn_window c).

(** The generation's stager, under its lock. *)
Definition on_stager (f : R2Stager -> Stage.Drops -> Z * R2Stager * Stage.Drops) (s : Disp) : res unit Disp :=
  let! c := lock_stager (ds_client s) in
  let '(_, st, d) := f (dn_stage (cl_drain c)) (lk_drops (dn_link (cl_drain c))) in
  Ok (set_client (set_drain (Drain.with_drops d (Drain.with_stage st (cl_drain c))) c) s).

(** [ConnRev2::on_caps]. *)
Definition on_caps (caps : Caps) (s : Disp) : res unit Disp :=
  if negb (bool_decide (cn_wire (d_conn s) = Rev2)) then Ok s else
  let s := on_conn (fun c => with_ctl (set_caps caps (cn_ctl c)) c) s in
  if negb (wire_ver caps =? R2_WIRE_VER) then Ok s else
  let frame_bytes := if max_frame_bytes caps =? 0 then R2_DEFAULT_MAX_FRAME_BYTES else max_frame_bytes caps in
  let s := on_conn (fun c => mkConnRev2 (cn_epoch c) (cn_wire c) (cn_flows c) (cn_ctl c) (cn_ready c) frame_bytes
                      (cn_rejected c) (cn_ctl_tx c) (cn_ctx_repair_rate c) (cn_handshake_done c) (cn_stage_retry c) (cn_window c)) s in
  let! s := on_stager (fun st d => (0, set_max_train_items (max_train_items caps) st, d)) s in
  Ok (on_conn (fun c => mkConnRev2 (cn_epoch c) (cn_wire c) (cn_flows c) (cn_ctl c) true (cn_max_frame_bytes c)
                 (cn_rejected c) (cn_ctl_tx c) (cn_ctx_repair_rate c) (cn_handshake_done c) (cn_stage_retry c) (cn_window c)) s).

(** A close or a reject of a known flow: out of the registry, then its partial
    payloads and its queued items, then the binding itself. *)
Definition drop_known_flow (id : Z) (s : Disp) : res unit (option Arc * Disp) :=
  let h := d_heap s in
  match registry_remove h id (d_registry s) with
  | (None, _) => Ok (None, s)
  | (Some l, reg) =>
      let s := on_client (set_registry reg) s in
      let s := set_reasm (Reasm.drop_flow id (ds_reasm s)).2 s in
      let! s := on_stager (drop_flow_scoped (fb_session (h !!! l)) id) s in
      Ok (Some l, on_heap (call mark_closed l) s)
  end.

Definition note_flow_rejected (l : Arc) (reason now_ms : Z) (s : Disp) : Disp :=
  on_conn (fun c => with_rejected (note_rejected (fb_target (d_heap s !!! l)) reason now_ms (cn_rejected c)) c) s.

Definition reject_flow (id reason now_ms : Z) (s : Disp) : res unit Disp :=
  let! '(l, s) := drop_known_flow id s in
  Ok (match l with Some l => note_flow_rejected l reason now_ms s | None => s end).

Definition close_session (sess : Z) (s : Disp) : res unit Disp :=
  let s := set_reasm (Reasm.drop_session sess (ds_reasm s)).2 s in
  let! s := on_stager (Stage.drop_session sess) s in
  let '(_, h, reg) := remove_session sess (d_heap s) (d_registry s) in
  let s := on_client (set_world (Flow.mkWorld h (w_ids (cn_flows (d_conn s))) reg)) s in
  Ok (raise_closed sess s).

(** The frames whose handling purges, which the rate bounds. *)
Definition purges (ctl : R2.Ctl) : bool :=
  match ctl with R2.SessClose _ _ | R2.FlowClose _ | R2.FlowReject _ _ => true | _ => false end.

Definition apply_r2_ctl (ctl : R2.Ctl) (now_ms : Z) (s : Disp) : res unit Disp :=
  match ctl with
  | R2.CapsMsg caps => on_caps caps s
  | R2.FlowAck id _ =>
      Ok (match registry_get id (d_registry s) with Some l => on_heap (call mark_open l) s | None => s end)
  | R2.FlowReject id reason => reject_flow id reason now_ms s
  | R2.FlowClose id => let! '(_, s) := drop_known_flow id s in Ok s
  | R2.SessClose sess _ => close_session sess s
  | R2.Hello _ _ => Ok s
  end.

Definition handle_r2_ctl_at (d : bytes) (now_ms : Z) (s : Disp) : res unit Disp :=
  if negb (bool_decide (cn_wire (d_conn s) = Rev2)) then Ok s else
  match decode_ctl d with
  | Panic => Panic
  | Err _ => Ok s
  | Ok ctl =>
      if purges ctl then
        let '(ok, k) := ctl_allowed now_ms (cn_ctl (d_conn s)) in
        let s := on_conn (with_ctl k) s in
        if negb ok then Ok s else apply_r2_ctl ctl now_ms s
      else apply_r2_ctl ctl now_ms s
  end.

Definition handle_r3_ctl (msg : CtlMessage) (now_ms : Z) (s : Disp) : res unit Disp :=
  match msg with
  | Reject fid reason =>
      match wire_id_for_fid fid with Some id => reject_flow id reason now_ms s | None => Ok s end
  | R3Ctl.SessClose sess _ => close_session sess s
  | R3Ctl.FlowClose fid _ =>
      match wire_id_for_fid fid with Some id => let! '(_, s) := drop_known_flow id s in Ok s | None => Ok s end
  | NeedContext fid =>
      match wire_id_for_fid fid with
      | None => Ok s
      | Some id =>
          Ok (match registry_get id (d_registry s) with Some l => on_heap (call rearm_context l) s | None => s end)
      end
  | Goaway => Ok s
  | AssocClose _ _ => Ok s
  end.

(* ------------------------------------------------------------------ *)
(** ** Data *)

(** [binding.set_reply_src(src)]. *)
Definition learn_src (l : Arc) (src : SocketAddr) (s : Disp) : Disp := on_heap (alter (set_reply_src src) l) s.

(** The flow of a frame that names an id: the registered one, one the frame
    opens, or none. *)
Definition flow_of (id : Z) (sess : option Z) (addr : option TargetAddr) (now_ms : Z) (s : Disp) : res unit (option Arc * Disp) :=
  match registry_get id (d_registry s) with
  | Some l => Ok (Some l, s)
  | None =>
      if bool_decide (cn_wire (d_conn s) = Rev3) && bool_decide (addr = None) && wire_id_server_owned id
      then Ok (None, repair_unknown_flow id now_ms s)
      else install_server_flow id sess addr s
  end.

(** An extended frame of another session than its flow's. *)
Definition wrong_session (sess : option Z) (b : FlowBinding) : bool :=
  match sess with Some s => negb (s =? fb_session b) | None => false end.

(** A frame with [SRC] teaches the reply source; rev2 confirms it. *)
Definition learn_reply_src (l : Arc) (src : option SocketAddr) (s : Disp) : Disp :=
  match src with
  | None => s
  | Some src =>
      let s := learn_src l src s in
      match cn_wire (d_conn s) with Rev2 => send_flow_ack (fb_wire_id (d_heap s !!! l)) s | Rev3 => s end
  end.

(** The association of the session, and its reply. *)
Definition reply_to (sess : Z) (dst : SocketAddr) (payload : bytes) (s : Disp) : res unit (Z * Disp) :=
  let! '(r, s) := r2_lookup sess s in
  match r with
  | None => Ok (0, s)
  | Some (e, app) => Ok (1, stage_reply e app dst payload s)
  end.

Definition dispatch_r2_data (d : bytes) (now_ms : Z) (s : Disp) : res unit (Z * Disp) :=
  match decode_data (cn_wire (d_conn s)) d with
  | Panic => Panic
  | Err _ => Ok (0, s)
  | Ok f =>
      match dv_wire_id f with
      | None =>
          match dv_sess f, dv_addr f with
          | Some sess, Some addr =>
              let! '(r, s) := r2_lookup sess s in
              match r with
              | None => Ok (0, s)
              | Some (e, app) =>
                  let! dst := r2_addr_dst addr in
                  match dst with
                  | None => Ok (0, s)
                  | Some dst => Ok (1, stage_reply e app dst (dv_payload f) s)
                  end
              end
          | _, _ => Ok (0, s)
          end
      | Some id =>
          let! '(l, s) := flow_of id (dv_sess f) (dv_addr f) now_ms s in
          match l with
          | None => Ok (0, s)
          | Some l =>
              if wrong_session (dv_sess f) (d_heap s !!! l) then Ok (0, s) else
              let! src := if dv_src f then match dv_addr f with Some a => r2_addr_dst a | None => Ok None end else Ok None in
              let s := learn_reply_src l src s in
              let s := on_heap (call mark_open l) s in
              match r2_reply_dst (d_heap s !!! l) with
              | None => Ok (0, s)
              | Some dst => reply_to (fb_session (d_heap s !!! l)) dst (dv_payload f) s
              end
          end
      end
  end.

(** The payload of a completed fragment set. *)
Definition dispatch_assembled (a : R2Assembled) (now_ms : Z) (s : Disp) : res unit (Z * Disp) :=
  match a_wire_id a with
  | Some id =>
      let! '(l, s) := flow_of id (a_sess a) (a_addr a) now_ms s in
      match l with
      | None => Ok (0, s)
      | Some l =>
          if wrong_session (a_sess a) (d_heap s !!! l) then Ok (0, s) else
          let s := on_heap (call mark_open l) s in
          let! src := if a_src a then match a_addr a with Some x => r2_addr_dst x | None => Ok None end else Ok None in
          let s := learn_reply_src l src s in
          match (match src with Some x => Some x | None => r2_reply_dst (d_heap s !!! l) end) with
          | None => Ok (0, s)
          | Some dst => reply_to (fb_session (d_heap s !!! l)) dst (a_payload a) s
          end
      end
  | None =>
      match a_sess a, a_addr a with
      | Some sess, Some addr =>
          let! dst := r2_addr_dst addr in
          match dst with
          | None => Ok (0, s)
          | Some dst => reply_to sess dst (a_payload a) s
          end
      | _, _ => Ok (0, s)
      end
  end.

Definition dispatch_r2_frag (d : bytes) (now_ms : Z) (s : Disp) : res unit (Z * Disp) :=
  match decode_frag (cn_wire (d_conn s)) d with
  | Panic => Panic
  | Err _ => Ok (0, s)
  | Ok f =>
      let! '(a, r) := push_view d f now_ms (ds_reasm s) in
      let s := set_reasm r s in
      match a with None => Ok (0, s) | Some a => dispatch_assembled a now_ms s end
  end.

(* ------------------------------------------------------------------ *)
(** ** Trains

    The first pass gives every distinct id a slot through a table of
    [TRAIN_HASH_CAP] buckets; one read of the registry fills the slots; the
    second pass resolves each slot once and stages the items. *)

Record TrainTable : Type := mkTrainTable {
  tt_slots : list (Z * option Arc);
  tt_slot_of : list (option nat)      (** [None] is [u16::MAX] *)
}.

Definition TrainTable_new : TrainTable := mkTrainTable [] (replicate (Z.to_nat TRAIN_HASH_CAP) None).

(** [(wire_id.wrapping_mul(0x9E37_79B1) as usize) & (TRAIN_HASH_CAP - 1)]. *)
Definition train_hash (wire_id : Z) : Z := Z.land (as_u32 (wire_id * 0x9E3779B1)) (TRAIN_HASH_CAP - 1).

(** The loop from bucket [h] on; the arrays of [TRAIN_MAX] slots are full past
    [R2_MAX_TRAIN_ITEMS]. *)
Fixpoint probe (turns : nat) (h wire_id : Z) (t : TrainTable) : res unit (nat * TrainTable) :=
  match turns with
  | O => Panic
  | S turns =>
      match tt_slot_of t !! Z.to_nat h with
      | None => Panic
      | Some None =>
          let s := length (tt_slots t) in
          if len (tt_slots t) >=? R2_MAX_TRAIN_ITEMS then Panic else
          Ok (s, mkTrainTable (tt_slots t ++ [(wire_id, None)]) (<[Z.to_nat h := Some s]> (tt_slot_of t)))
      | Some (Some s) =>
          match tt_slots t !! s with
          | None => Panic
          | Some (id, _) =>
              if id =? wire_id then Ok (s, t) else probe turns (Z.land (h + 1) (TRAIN_HASH_CAP - 1)) wire_id t
          end
      end
  end.

(** The slot of every item. *)
Fixpoint dedupe (its : list (Z * bytes)) (t : TrainTable) : res unit (list nat * TrainTable) :=
  match its with
  | [] => Ok ([], t)
  | (wire_id, _) :: its =>
      let! '(s, t) := probe (Z.to_nat TRAIN_HASH_CAP) (train_hash wire_id) wire_id t in
      let! '(ss, t) := dedupe its t in
      Ok (s :: ss, t)
  end.

Inductive Resolved : Type := Pending | RHit (sess : Z) (dst : SocketAddr) | RUnknown.

(** The second pass's variables. *)
Record TrainRun : Type := mkTrainRun {
  tr_resolved : list Resolved;
  tr_last : option (Z * positive * SocketAddr);
  tr_staged : Z
}.

(** The session and the destination of an item of slot [slot]. *)
Definition resolve_slot (slots : list (Z * option Arc)) (now_ms : Z) (slot : nat) (v : TrainRun) (s : Disp) :
    res unit (option (Z * SocketAddr) * TrainRun * Disp) :=
  match tr_resolved v !! slot with
  | None => Panic
  | Some (RHit sess dst) => Ok (Some (sess, dst), v, s)
  | Some RUnknown => Ok (None, v, s)
  | Some Pending =>
      match slots !! slot with
      | None => Panic
      | Some (id, None) =>
          let s := if bool_decide (cn_wire (d_conn s) = Rev3) && wire_id_server_owned id then repair_unknown_flow id now_ms s else s in
          Ok (None, mkTrainRun (<[slot := RUnknown]> (tr_resolved v)) (tr_last v) (tr_staged v), s)
      | Some (_, Some l) =>
          let s := on_heap (call mark_open l) s in
          match r2_reply_dst (d_heap s !!! l) with
          | None => Ok (None, v, s)
          | Some dst =>
              let sess := fb_session (d_heap s !!! l) in
              Ok (Some (sess, dst), mkTrainRun (<[slot := RHit sess dst]> (tr_resolved v)) (tr_last v) (tr_staged v), s)
          end
      end
  end.

(** The same association as the item staged before is not looked up again. *)
Definition same_assoc (sess : Z) (last : option (Z * positive * SocketAddr)) : option (positive * SocketAddr) :=
  match last with Some (psess, e, app) => if psess =? sess then Some (e, app) else None | None => None end.

Definition stage_item (sess : Z) (dst : SocketAddr) (payload : bytes) (v : TrainRun) (s : Disp) : res unit (TrainRun * Disp) :=
  match same_assoc sess (tr_last v) with
  | Some (e, app) => Ok (mkTrainRun (tr_resolved v) (tr_last v) (tr_staged v + 1), stage_reply_follow e app dst payload s)
  | None =>
      let! '(r, s) := r2_lookup sess s in
      match r with
      | None => Ok (v, s)
      | Some (e, app) =>
          Ok (mkTrainRun (tr_resolved v) (Some (sess, e, app)) (tr_staged v + 1), stage_reply e app dst payload s)
      end
  end.

Fixpoint train_items (slots : list (Z * option Arc)) (now_ms : Z) (its : list (nat * bytes)) (v : TrainRun) (s : Disp) :
    res unit (TrainRun * Disp) :=
  match its with
  | [] => Ok (v, s)
  | (slot, payload) :: its =>
      let! '(r, v, s) := resolve_slot slots now_ms slot v s in
      match r with
      | None => train_items slots now_ms its v s
      | Some (sess, dst) =>
          let! '(v, s) := stage_item sess dst payload v s in
          train_items slots now_ms its v s
      end
  end.

(** What follows the decoding of a frame with the items [its]. *)
Definition dispatch_items (its : list (Z * bytes)) (now_ms : Z) (s : Disp) : res unit (Z * Disp) :=
  let! '(item_slot, t) := dedupe its TrainTable_new in
  let slots := get_batch (tt_slots t) (d_registry s) in
  let v := mkTrainRun (replicate (Z.to_nat R2_MAX_TRAIN_ITEMS) Pending) None 0 in
  let! '(v, s) := train_items slots now_ms (zip item_slot its.*2) v s in
  Ok (tr_staged v, s).

Definition dispatch_r2_train (d : bytes) (now_ms : Z) (s : Disp) : res unit (Z * Disp) :=
  match decode_train (cn_wire (d_conn s)) d with
  | Panic => Panic
  | Err _ => Ok (0, s)
  | Ok t =>
      match iterate (S (Z.to_nat R2_MAX_TRAIN_ITEMS)) (items t) with
      | Ok its => dispatch_items its now_ms s
      | _ => Panic
      end
  end.

(* ------------------------------------------------------------------ *)
(** ** One datagram *)

Definition dispatch_frame_kind (k : FrameKind) (d : bytes) (now_ms : Z) (s : Disp) : res unit (Z * Disp) :=
  match k with
  | KCtl => let! s := handle_r2_ctl_at d now_ms s in Ok (0, s)
  | KData => dispatch_r2_data d now_ms s
  | KTrain => dispatch_r2_train d now_ms s
  | KFrag => dispatch_r2_frag d now_ms s
  end.
End Dispatch.
Arguments Disp Conn : clear implicits.

(* ------------------------------------------------------------------ *)
(** ** Writing the staged replies *)

(** A port in network order. *)
Definition port_be (p : Z) : bytes := [p / 256; p mod 256].

Definition encode_reply_header (dst : SocketAddr) : bytes :=
  [0; 0; 0] ++ match dst with
               | SockV4 ip port => [1] ++ ip ++ port_be port
               | SockV6 ip port _ _ => [4] ++ ip ++ port_be port
               end.

(** A call of [udp_try_send_grouped]: the socket, the address, and the frames,
    each a header and a payload. *)
Record Group : Type := mkGroup { gr_sock : Z; gr_dst : SocketAddr; gr_frames : list (bytes * bytes) }.

Definition reply_frame (r : StagedReply) : bytes * bytes :=
  (if sr_raw r then [] else encode_reply_header (sr_dst r), sr_payload r).

(** The item joins the run of [head] on [sock]. *)
Definition joins (sock : Z) (head r : StagedReply) : bool :=
  bool_decide (sr_app r = sr_app head) && Bool.eqb (sr_reply_v6 r) (sr_reply_v6 head) && Bool.eqb (sr_raw r) (sr_raw head) &&
  match sr_sock r with None => true | Some x => x =? sock end.

Fixpoint run_of (f : StagedReply -> bool) (l : list StagedReply) : list StagedReply * list StagedReply :=
  match l with
  | [] => ([], [])
  | x :: l' => if f x then let '(a, b) := run_of f l' in (x :: a, b) else ([], l)
  end.

(** [LAST_HOP_DRAIN] frames per call. *)
Fixpoint chunked (turns : nat) (l : list (bytes * bytes)) : list (list (bytes * bytes)) :=
  match turns, l with
  | O, _ | _, [] => []
  | S turns, _ => take (Z.to_nat LAST_HOP_DRAIN) l :: chunked turns (drop (Z.to_nat LAST_HOP_DRAIN) l)
  end.

(** The loop of [flush_staged]; a run without its socket is the failed
    [expect]. *)
Fixpoint flush_go (turns : nat) (staged : list StagedReply) : res unit (list Group) :=
  match staged, turns with
  | [], _ => Ok []
  | _, O => Panic
  | head :: rest, S turns =>
      match sr_sock head with
      | None => Panic
      | Some sock =>
          let '(run, rest) := run_of (joins sock head) rest in
          let dst := if sr_reply_v6 head then map_for_dual (sr_app head) else sr_app head in
          let frames := reply_frame <$> head :: run in
          let! gs := flush_go turns rest in
          Ok ((mkGroup sock dst <$> chunked (length frames) frames) ++ gs)
      end
  end.

Definition flush_staged (staged : list StagedReply) : res unit (list Group) := flush_go (length staged) staged.
