(* ===== verification/DispatchRun.v ===== *)
(** The client's dispatcher at work: the id table of a train, the cache of
    associations, and the replies written for a burst. *)
From stdpp Require Import fin_maps.
From S2P Require Import Prelude Addr Codec R3 R3Train R3Ctl R2 R2Train Wire Frag Partial Reasm Binding Flow FlowRun Stage StageRun Pack Drain DnsPolicy DnsMemo Window Client Dispatch.

(* ------------------------------------------------------------------ *)
(** ** The id table of a train *)

Definition bucket (h : Z) (k : nat) : nat := Z.to_nat ((h + Z.of_nat k) mod TRAIN_HASH_CAP).

Definition taken (t : TrainTable) (b : nat) : Prop := exists s, tt_slot_of t !! b = Some (Some s).

(** Each slot's id is found by walking from its hash over taken buckets. *)
Record table_ok (t : TrainTable) : Prop := mkTableOk {
  to_len : length (tt_slot_of t) = Z.to_nat TRAIN_HASH_CAP;
  to_count : length (List.filter (fun o : option nat => match o with Some _ => true | None => false end) (tt_slot_of t)) = length (tt_slots t);
  to_slots : forall b s, tt_slot_of t !! b = Some (Some s) -> exists id, tt_slots t !! s = Some (id, None);
  to_nodup : NoDup (tt_slots t).*1;
  to_walk : forall s id o, tt_slots t !! s = Some (id, o) -> exists k, tt_slot_of t !! bucket (train_hash id) k = Some (Some s) /\
    forall j, (j < k)%nat -> taken t (bucket (train_hash id) j)
}.

Lemma land_cap x : Z.land x (TRAIN_HASH_CAP - 1) = x mod TRAIN_HASH_CAP.
Proof. change (TRAIN_HASH_CAP - 1) with (Z.ones 7). by rewrite Z.land_ones by lia. Qed.

Lemma bucket_lt h k : (bucket h k < Z.to_nat TRAIN_HASH_CAP)%nat.
Proof. unfold bucket. pose proof (Z.mod_pos_bound (h + Z.of_nat k) TRAIN_HASH_CAP ltac:(done)). lia. Qed.

Lemma train_hash_bound id : 0 <= train_hash id < TRAIN_HASH_CAP.
Proof. unfold train_hash. rewrite land_cap. by apply Z.mod_pos_bound. Qed.

Lemma bucket_next h k : Z.land (Z.of_nat (bucket h k) + 1) (TRAIN_HASH_CAP - 1) = Z.of_nat (bucket h (S k)).
Proof.
  rewrite land_cap. unfold bucket. pose proof (Z.mod_pos_bound (h + Z.of_nat k) TRAIN_HASH_CAP ltac:(done)).
  pose proof (Z.mod_pos_bound (h + Z.of_nat (S k)) TRAIN_HASH_CAP ltac:(done)).
  rewrite !Z2Nat.id by lia. rewrite Zplus_mod_idemp_l. f_equal. lia.
Qed.

Lemma bucket_0 h : 0 <= h < TRAIN_HASH_CAP -> Z.of_nat (bucket h 0) = h.
Proof. intros Hh. unfold bucket. rewrite Z.add_0_r, Z.mod_small by done. lia. Qed.

(** Every bucket is met in a walk of the table's length. *)
Lemma bucket_onto h b : (b < Z.to_nat TRAIN_HASH_CAP)%nat -> exists k, (k < Z.to_nat TRAIN_HASH_CAP)%nat /\ bucket h k = b.
Proof.
  intros Hb. exists (Z.to_nat ((Z.of_nat b - h) mod TRAIN_HASH_CAP)).
  pose proof (Z.mod_pos_bound (Z.of_nat b - h) TRAIN_HASH_CAP ltac:(done)). split; [lia|]. unfold bucket.
  rewrite Z2Nat.id, Zplus_mod_idemp_r by lia. replace (h + (Z.of_nat b - h)) with (Z.of_nat b) by lia.
  rewrite Z.mod_small by (unfold TRAIN_HASH_CAP in *; lia). lia.
Qed.

Lemma table_room t h : table_ok t -> (forall k, (k < Z.to_nat TRAIN_HASH_CAP)%nat -> taken t (bucket h k)) ->
  length (tt_slots t) = Z.to_nat TRAIN_HASH_CAP.
Proof.
  intros Ht Ha. rewrite <- (to_count _ Ht), <- (to_len _ Ht). f_equal. apply filter_all.
  apply list.Forall_lookup_2. intros b o Hb. pose proof (lookup_lt_Some _ _ _ Hb) as Hl. rewrite (to_len _ Ht) in Hl.
  destruct (bucket_onto h b Hl) as (k & Hk & <-). destruct (Ha k Hk) as [s Hs]. by rewrite Hs in Hb; injection Hb as <-.
Qed.

Definition is_taken (o : option nat) : bool := match o with Some _ => true | None => false end.

Lemma count_insert (l : list (option nat)) b s : l !! b = Some None ->
  length (List.filter is_taken (<[b := Some s]> l)) = S (length (List.filter is_taken l)).
Proof.
  intros Hb. apply list_elem_of_split_length in Hb as (l1 & l2 & -> & ->).
  rewrite insert_app_r_alt, Nat.sub_diag by lia. cbn [list_insert insert]. rewrite !List.filter_app, !length_app. cbn. lia.
Qed.

(** The table with a new id in the free bucket [b] of its walk. *)
Lemma table_insert t id k : table_ok t -> (forall s o, tt_slots t !! s <> Some (id, o)) ->
  tt_slot_of t !! bucket (train_hash id) k = Some None -> (forall j, (j < k)%nat -> taken t (bucket (train_hash id) j)) ->
  table_ok (mkTrainTable (tt_slots t ++ [(id, None)]) (<[bucket (train_hash id) k := Some (length (tt_slots t))]> (tt_slot_of t))).
Proof.
  intros Ht Hnew Hb Hw. pose proof Ht as [Hl Hc Hs Hn Hk].
  assert (Hkeep : forall c, taken t c -> tt_slot_of t !! c = <[bucket (train_hash id) k := Some (length (tt_slots t))]> (tt_slot_of t) !! c).
  { intros c [s Hc']. rewrite list_lookup_insert_ne; [done|]. intros <-. congruence. }
  split; cbn [tt_slots tt_slot_of].
  - by rewrite length_insert.
  - change (fun o : option nat => match o with Some _ => true | None => false end) with is_taken in *.
    rewrite count_insert by done. rewrite length_app. cbn. lia.
  - intros c s Hcs. apply list_lookup_insert_Some in Hcs as [(_ & [= <-] & _)|[Hne Hcs]].
    + exists id. apply lookup_app_Some. right. split; [done|]. by rewrite Nat.sub_diag.
    + destruct (Hs _ _ Hcs) as [id' Hid]. exists id'. by apply lookup_app_l_Some.
  - rewrite fmap_app. cbn. apply list.NoDup_app. split_and!; [done | | apply NoDup_singleton].
    intros x Hx. apply list_elem_of_fmap in Hx as ([x' o] & -> & Hx). apply list_elem_of_lookup_1 in Hx as [s Hx].
    rewrite list_elem_of_singleton. cbn. intros ->. by eapply Hnew.
  - intros s x o Hx. apply lookup_app_Some in Hx as [Hx|[Hle Hx]].
    + destruct (Hk _ _ _ Hx) as (k' & Hk' & Hj). exists k'. split; [rewrite <- Hkeep; [done | by eexists]|].
      intros j Hjk. destruct (Hj j Hjk) as [s' Hs']. exists s'. rewrite <- Hkeep; [done | by eexists].
    + destruct (s - length (tt_slots t))%nat as [|n] eqn:E; [|by destruct n]. injection Hx as <- <-.
      assert (s = length (tt_slots t)) as -> by lia. exists k. split.
      * apply list_lookup_insert_eq. rewrite Hl. apply bucket_lt.
      * intros j Hj. destruct (Hw j Hj) as [s' Hs']. exists s'. rewrite <- Hkeep; [done | by eexists].
Qed.

Lemma probe_spec t id : table_ok t -> (length (tt_slots t) < Z.to_nat R2_MAX_TRAIN_ITEMS)%nat ->
  forall turns k, (turns + k = Z.to_nat TRAIN_HASH_CAP)%nat ->
  (forall j, (j < k)%nat -> exists s x, tt_slot_of t !! bucket (train_hash id) j = Some (Some s) /\ tt_slots t !! s = Some (x, None) /\ x <> id) ->
  exists s t', probe turns (Z.of_nat (bucket (train_hash id) k)) id t = Ok (s, t') /\ table_ok t' /\
    tt_slots t' !! s = Some (id, None) /\ (tt_slots t' = tt_slots t \/ tt_slots t' = tt_slots t ++ [(id, None)]).
Proof.
  intros Ht Hroom turns. induction turns as [|turns IH]; intros k Hk Hw.
  - exfalso. assert (Hf : length (tt_slots t) = Z.to_nat TRAIN_HASH_CAP).
    { apply (table_room t (train_hash id)); [done|]. intros j Hj. destruct (Hw j ltac:(lia)) as (s & _ & Hs & _). by exists s. }
    rewrite Hf in Hroom. unfold TRAIN_HASH_CAP, R2_MAX_TRAIN_ITEMS in Hroom. lia.
  - cbn [probe]. rewrite Nat2Z.id. pose proof (bucket_lt (train_hash id) k) as Hb. rewrite <- (to_len _ Ht) in Hb.
    apply lookup_lt_is_Some in Hb as [o Ho]. rewrite Ho. destruct o as [s|].
    + destruct (to_slots _ Ht _ _ Ho) as [x Hx]. rewrite Hx. destruct (x =? id) eqn:E.
      * zbool. subst x. exists s, t. auto.
      * zbool. rewrite bucket_next. apply IH; [lia|]. intros j Hj. destruct (decide (j = k)) as [->|]; [|apply Hw; lia].
        exists s, x. done.
    + replace (len (tt_slots t) >=? R2_MAX_TRAIN_ITEMS) with false by (unfold len, R2_MAX_TRAIN_ITEMS in *; lia).
      eexists _, _. split; [reflexivity|]. cbn [tt_slots]. split_and!; [|rewrite lookup_app_r by lia; by rewrite Nat.sub_diag | by right].
      apply table_insert; try done.
      * intros s o Hs. destruct (to_walk _ Ht _ _ _ Hs) as (k' & Hk' & Hj). destruct (lt_eq_lt_dec k k') as [[Hlt| ->]|Hgt].
        -- destruct (Hj k Hlt) as [s' Hs']. congruence.
        -- congruence.
        -- destruct (Hw k' Hgt) as (s' & x & Hs' & Hx & Hne). rewrite Hk' in Hs'. injection Hs' as ->. congruence.
      * intros j Hj. destruct (Hw j Hj) as (s & _ & Hs & _). by exists s.
Qed.

Lemma table_new_ok : table_ok TrainTable_new.
Proof.
  split; cbn [TrainTable_new tt_slots tt_slot_of].
  - apply length_replicate.
  - reflexivity.
  - intros b s Hb. by apply lookup_replicate in Hb as [? _].
  - constructor.
  - intros s id o. by rewrite lookup_nil.
Qed.

(** Every item gets the slot of its id; the table only grows. *)
Lemma dedupe_spec its : forall t, table_ok t -> (length its + length (tt_slots t) <= Z.to_nat R2_MAX_TRAIN_ITEMS)%nat ->
  exists ss t', dedupe its t = Ok (ss, t') /\ table_ok t' /\ tt_slots t `prefix_of` tt_slots t' /\
    (length (tt_slots t') <= Z.to_nat R2_MAX_TRAIN_ITEMS)%nat /\
    Forall2 (fun s p => tt_slots t' !! s = Some (p.1, None)) ss its.
Proof.
  induction its as [|[id p] its IH]; intros t Ht Hl; cbn [dedupe length] in *.
  { exists [], t. split_and!; try done; lia || constructor. }
  destruct (probe_spec t id Ht ltac:(lia) (Z.to_nat TRAIN_HASH_CAP) 0 ltac:(lia)) as (s & t1 & E & Ht1 & Hs & Hg).
  { intros j Hj. lia. }
  rewrite bucket_0 in E by apply train_hash_bound. rewrite E. cbn [res_bind].
  destruct (IH t1 Ht1) as (ss & t' & E' & Ht' & Hp & Hle & Hf).
  { destruct Hg as [->| ->]; rewrite ?length_app; cbn; lia. }
  rewrite E'. cbn [res_bind]. exists (s :: ss), t'. split_and!; try done.
  - destruct Hg as [<- | Hg]; [done|]. etrans; [|exact Hp]. rewrite Hg. by apply prefix_app_r.
  - constructor; [|done]. by eapply prefix_lookup_Some.
Qed.

(* ------------------------------------------------------------------ *)
(** ** Writing a burst *)

(** One datagram to an application: the socket, the address, the header and the
    payload. *)
Definition Delivery : Type := Z * SocketAddr * (bytes * bytes).

Definition delivered (gs : list Group) : list Delivery :=
  concat ((fun g => (fun f => (gr_sock g, gr_dst g, f)) <$> gr_frames g) <$> gs).

Definition to_app (r : StagedReply) : SocketAddr := if sr_reply_v6 r then map_for_dual (sr_app r) else sr_app r.

(** What each reply of a burst is meant to be: a follower rides on the socket of
    the reply before it. *)
Fixpoint meant (sock : option Z) (l : list StagedReply) : list Delivery :=
  match l with
  | [] => []
  | r :: l =>
      let sock := match sr_sock r with Some x => Some x | None => sock end in
      (default 0 sock, to_app r, reply_frame r) :: meant sock l
  end.

(** A follower has the application and the reply mode of the reply before it. *)
Definition same_mode (a b : StagedReply) : Prop :=
  sr_app b = sr_app a /\ sr_reply_v6 b = sr_reply_v6 a /\ sr_raw b = sr_raw a.

Fixpoint linked (prev : option StagedReply) (l : list StagedReply) : Prop :=
  match l with
  | [] => True
  | r :: l =>
      match sr_sock r, prev with
      | Some _, _ => True
      | None, Some p => same_mode p r
      | None, None => False
      end /\ linked (Some r) l
  end.

Lemma chunked_concat turns : forall l, (length l <= turns)%nat -> concat (chunked turns l) = l.
Proof.
  induction turns as [|turns IH]; intros [|x l] Hl; try done; [cbn in Hl; lia|].
  cbn [chunked concat]. rewrite IH; [apply take_drop|]. rewrite length_drop. cbn in *. unfold LAST_HOP_DRAIN. lia.
Qed.

Lemma delivered_app a b : delivered (a ++ b) = delivered a ++ delivered b.
Proof. unfold delivered. by rewrite fmap_app, concat_app. Qed.

Lemma delivered_run sock dst fs : delivered (mkGroup sock dst <$> chunked (length fs) fs) = (fun f => (sock, dst, f)) <$> fs.
Proof.
  unfold delivered. rewrite <- list_fmap_compose.
  transitivity ((fun f => (sock, dst, f)) <$> concat (chunked (length fs) fs)); [|by rewrite chunked_concat].
  induction (chunked (length fs) fs) as [|c cs IH]; [done|]. cbn [fmap list_fmap concat]. rewrite fmap_app. f_equal. exact IH.
Qed.

Lemma joins_mode sock head r : joins sock head r = true -> same_mode head r /\ (sr_sock r = None \/ sr_sock r = Some sock).
Proof.
  unfold joins, same_mode. intros Hj. rewrite !andb_true_iff, bool_decide_eq_true, !Bool.eqb_true_iff in Hj.
  destruct Hj as (((-> & ->) & ->) & Hs). destruct (sr_sock r) as [x|]; [|auto]. zbool. subst. auto.
Qed.

(** A run takes the followers of its head: what it leaves starts with a socket. *)
Lemma run_of_spec sock head : forall l prev, linked (Some prev) l -> same_mode head prev ->
  let '(run, rest) := run_of (joins sock head) l in
  linked None rest /\ (length rest <= length l)%nat /\
  meant (Some sock) l = ((fun r => (sock, to_app head, reply_frame r)) <$> run) ++ meant None rest.
Proof.
  induction l as [|r l IH]; intros prev Hl Hm; cbn [run_of]; [done|]. cbn [linked] in Hl. destruct Hl as [Hr Hl].
  destruct (joins sock head r) eqn:Ej.
  - destruct (joins_mode _ _ _ Ej) as [Hmode Hs]. specialize (IH r Hl Hmode).
    destruct (run_of (joins sock head) l) as [run rest]. destruct IH as (I1 & I2 & I3). split_and!; [done | cbn; lia|].
    cbn [meant fmap list_fmap]. assert (Hd : match sr_sock r with Some x => Some x | None => Some sock end = Some sock) by (by destruct Hs as [->| ->]).
    rewrite Hd, I3. cbn. f_equal. unfold to_app. destruct Hmode as (-> & -> & _). done.
  - destruct (sr_sock r) as [x|] eqn:Es.
    + split_and!; [cbn; by rewrite Es | cbn; lia|]. cbn [fmap list_fmap app meant]. by rewrite Es.
    + exfalso. destruct Hr as (E1 & E2 & E3), Hm as (E4 & E5 & E6). revert Ej. unfold joins. rewrite Es, E1, E2, E3, E4, E5, E6.
      rewrite bool_decide_eq_true_2 by done. by rewrite !Bool.eqb_reflx.
Qed.

Lemma flush_go_spec turns : forall l, linked None l -> (length l <= turns)%nat ->
  exists gs, flush_go turns l = Ok gs /\ delivered gs = meant None l.
Proof.
  induction turns as [|turns IH]; intros [|head l] Hl Hn; try (by exists []); [cbn in Hn; lia|].
  cbn [linked] in Hl. destruct Hl as [Hh Hl]. cbn [flush_go meant]. destruct (sr_sock head) as [sock|] eqn:Es; [|done].
  pose proof (run_of_spec sock head l head Hl ltac:(done)) as Hr. destruct (run_of (joins sock head) l) as [run rest].
  destruct Hr as (R1 & R2 & R3). destruct (IH rest R1) as (gs & E & Hd); [cbn in Hn; lia|]. rewrite E. cbn [res_bind].
  eexists. split; [reflexivity|]. rewrite delivered_app, delivered_run, Hd. unfold to_app in *.
  cbn [fmap list_fmap default option_map from_option]. rewrite R3. cbn. f_equal. f_equal. by rewrite <- list_fmap_compose.
Qed.

Lemma linked_app l : forall prev k, linked prev l -> linked None k -> linked prev (l ++ k).
Proof.
  induction l as [|r l IH]; intros prev k Hl Hk; cbn [app linked] in *.
  - destruct k as [|r k]; [done|]. cbn in *. destruct (sr_sock r); [done | tauto].
  - destruct Hl as [Hr Hl]. split; [done|]. by apply IH.
Qed.

(* ------------------------------------------------------------------ *)
(** ** The cache of associations *)

Section Run.
Context {LO : Layout} {BU : Build} {Conn : Type} `{DatagramConn Conn} `{QuicConn Conn}.
Implicit Types s : Disp Conn.

(** What the hub answers, without the cache. *)
Definition hub_lookup (sess : Z) s : Lookup :=
  match e ← ds_hub s !! sess; x ← ds_entries s !! e; Some (e, x) with
  | None => NoEntry
  | Some (e, x) => if negb (en_alive x) then NoEntry else found e (en_app x)
  end.

(** A cached entry that is still alive is the hub's of its session, and a cached
    application address is the entry's. *)
Record cache_ok s : Prop := mkCacheOk {
  ca_len : length (ds_cache s) = Z.to_nat DISPATCH_CACHE;
  ca_slot : forall i sl e x, ds_cache s !! i = Some sl -> sl_entry sl = Some e -> ds_entries s !! e = Some x -> en_alive x = true ->
    ds_hub s !! sl_sess sl = Some e /\ (forall a, sl_app sl = Some a -> en_app x = Some a)
}.

Lemma set_slot_ok i sl s : cache_ok s ->
  (forall e x, sl_entry sl = Some e -> ds_entries s !! e = Some x -> en_alive x = true ->
    ds_hub s !! sl_sess sl = Some e /\ (forall a, sl_app sl = Some a -> en_app x = Some a)) ->
  cache_ok (set_slot i sl s).
Proof.
  intros [Hl Hs] Hn. split; cbn; [by rewrite length_insert|]. intros j sl' e x Hj. apply list_lookup_insert_Some in Hj as [(_ & <- & _)|[_ Hj]]; eauto.
Qed.

(** The same state but for the cache. *)
Definition cache_step s s' : Prop := s' = s \/ exists i sl, s' = set_slot i sl s.

Lemma lookup_entry_spec sess s : cache_ok s -> exists s', lookup_entry sess s = Ok (hub_lookup sess s, s') /\ cache_ok s' /\ cache_step s s'.
Proof.
  intros Hc. pose proof Hc as [Hl Hs]. unfold lookup_entry. set (idx := Z.to_nat (Z.land sess (DISPATCH_CACHE - 1))).
  assert (Hi : (idx < length (ds_cache s))%nat).
  { rewrite Hl. subst idx. change (DISPATCH_CACHE - 1) with (Z.ones 12). rewrite Z.land_ones by lia.
    pose proof (Z.mod_pos_bound sess (2 ^ 12) ltac:(lia)). unfold DISPATCH_CACHE. lia. }
  apply lookup_lt_is_Some in Hi as [sl Hsl]. rewrite Hsl. unfold hub_lookup.
  destruct (cached_entry sess sl s) as [[e x]|] eqn:Ec.
  - unfold cached_entry in Ec. destruct (sl_sess sl =? sess) eqn:Es; [|done]. cbn [negb] in Ec. zbool.
    destruct (sl_entry sl) as [e'|] eqn:Ee; [|done]. cbn in Ec. destruct (ds_entries s !! e') as [x'|] eqn:Ex; [|done]. cbn in Ec.
    destruct (en_alive x') eqn:Ea; [|done]. injection Ec as -> ->. destruct (Hs _ _ _ _ Hsl Ee Ex Ea) as [Hh Happ].
    rewrite <- Es, Hh. cbn. rewrite Ex. cbn. rewrite Ea. cbn. destruct (sl_app sl) as [a|] eqn:Esa.
    + exists s. rewrite (Happ a eq_refl). split_and!; [done | done | by left].
    + eexists. split; [reflexivity|]. split; [|right; by eexists _, _]. apply set_slot_ok; [done|].
      cbn. intros e2 x2 [= <-] Hx2 _. rewrite Ex in Hx2. injection Hx2 as <-. auto.
  - destruct (ds_hub s !! sess) as [e|] eqn:Eh; cbn.
    2:{ eexists. split; [reflexivity|]. split; [apply set_slot_ok; [done | by intros] | right; by eexists _, _]. }
    destruct (ds_entries s !! e) as [x|] eqn:Ex; cbn.
    2:{ eexists. split; [reflexivity|]. split; [apply set_slot_ok; [done | by intros] | right; by eexists _, _]. }
    destruct (en_alive x) eqn:Ea; cbn.
    2:{ eexists. split; [reflexivity|]. split; [apply set_slot_ok; [done | by intros] | right; by eexists _, _]. }
    eexists. split; [reflexivity|]. split; [|right; by eexists _, _]. apply set_slot_ok; [done|].
    cbn. intros e2 x2 [= <-] Hx2 _. rewrite Ex in Hx2. injection Hx2 as <-. auto.
Qed.

(* ------------------------------------------------------------------ *)
(** ** What a train leaves as it is *)

Definition en_view (x : AssocEntry) := (en_relay x, en_app x, en_alive x, en_raw_reply x, en_reply_v6 x).

Record sim s s' : Prop := mkSim {
  sm_reg : d_registry s' = d_registry s;
  sm_wire : cn_wire (d_conn s') = cn_wire (d_conn s);
  sm_heap : forall l, fb_session (d_heap s' !!! l) = fb_session (d_heap s !!! l) /\ r2_reply_dst (d_heap s' !!! l) = r2_reply_dst (d_heap s !!! l);
  sm_hub : ds_hub s' = ds_hub s;
  sm_entries : forall e, en_view <$> ds_entries s' !! e = en_view <$> ds_entries s !! e
}.

#[local] Instance sim_preorder : PreOrder sim.
Proof.
  split; [by intros s|]. intros a b c [R1 W1 H1' U1 E1] [R2 W2 H2' U2 E2]. split; try congruence.
  - intros l. destruct (H1' l), (H2' l). split; congruence.
Qed.

Lemma sim_cache s s' : cache_step s s' -> sim s s'.
Proof. by intros [->|(i & sl & ->)]. Qed.

Lemma sim_lookup s s' sess : sim s s' -> hub_lookup sess s' = hub_lookup sess s.
Proof.
  intros [_ _ _ U E]. unfold hub_lookup. rewrite U. destruct (ds_hub s !! sess) as [e|]; [|done]. cbn. specialize (E e).
  destruct (ds_entries s' !! e) as [x'|], (ds_entries s !! e) as [x|]; try done. cbn in *. unfold en_view in E. injection E as _ -> -> _ _. done.
Qed.

Lemma sim_cache_ok s s' : cache_ok s -> sim s s' -> ds_cache s' = ds_cache s -> cache_ok s'.
Proof.
  intros [Hl Hs] [_ _ _ U E] Hc. split; [by rewrite Hc|]. intros i sl e x Hi He Hx Ha. rewrite Hc in Hi. specialize (E e). rewrite Hx in E.
  destruct (ds_entries s !! e) as [x0|] eqn:E0; [|done]. cbn in E. unfold en_view in E. injection E as E1 E2 E3 E4 E5.
  rewrite U. destruct (Hs i sl e x0 Hi He E0) as [? Hap]; [congruence|]. split; [done|]. intros a Ha'. rewrite E2. by apply Hap.
Qed.

Lemma on_heap_sim f s : (forall l, fb_session (f (d_heap s) !!! l) = fb_session (d_heap s !!! l) /\ r2_reply_dst (f (d_heap s) !!! l) = r2_reply_dst (d_heap s !!! l)) ->
  sim s (on_heap f s).
Proof. intros Hf. by split. Qed.

Lemma mark_open_stores b : exists v, (solo mark_open b).2 = Binding.store Cstate v b.
Proof. destruct b. unfold mark_open, solo, Binding.load, Binding.store. cbn. repeat case_match; by eexists. Qed.

Lemma mark_open_sim l s : sim s (on_heap (call mark_open l) s).
Proof.
  apply on_heap_sim. intros l'. unfold call. rewrite !lookup_total_alt. destruct (decide (l' = l)) as [->|Hne].
  - rewrite lookup_alter_eq. destruct (d_heap s !! l) as [b|]; [|done]. cbn [fmap option_fmap option_map default].
    destruct (mark_open_stores b) as [v ->]. by destruct b.
  - by rewrite lookup_alter_ne.
Qed.

Lemma on_conn_sim f s : (forall c, cn_flows (f c) = cn_flows c) -> (forall c, cn_wire (f c) = cn_wire c) -> sim s (on_conn f s).
Proof.
  intros Hf Hw. assert (Hc : cn_flows (cl_conn (ds_client (on_conn f s))) = cn_flows (cl_conn (ds_client s))) by apply Hf.
  split; unfold d_registry, d_heap, registry, heap; rewrite ?Hc; try done. apply Hw.
Qed.

Lemma send_ctl_keeps msg c : cn_flows (send_ctl msg c).2 = cn_flows c /\ cn_wire (send_ctl msg c).2 = cn_wire c.
Proof. unfold send_ctl. by repeat case_match. Qed.

Lemma need_context_keeps id now c : cn_flows (send_need_context id now c).2 = cn_flows c /\ cn_wire (send_need_context id now c).2 = cn_wire c.
Proof.
  unfold send_need_context. repeat case_match; try done. cbn. destruct (send_ctl_keeps (NeedContext z) (with_repair_rate c0 c)). done.
Qed.

Lemma repair_sim id now s : sim s (repair_unknown_flow id now s).
Proof. unfold repair_unknown_flow. case_match; [done|]. apply on_conn_sim; intros c; apply need_context_keeps. Qed.

Lemma mark_replied_sim e s : sim s (mark_replied e s).
Proof.
  split; try done. intros e'. cbn. destruct (decide (e' = e)) as [->|]; [|by rewrite lookup_alter_ne].
  rewrite lookup_alter_eq. by destruct (ds_entries s !! e).
Qed.

(* ------------------------------------------------------------------ *)
(** ** Trains *)

(** The session and the destination of an id, and the delivery to a session. *)
Definition id_target (id : Z) s : option (Z * SocketAddr) :=
  l ← r_map (d_registry s) !! id;
  dst ← r2_reply_dst (d_heap s !!! l);
  Some (fb_session (d_heap s !!! l), dst).

Definition delivery_to (sess : Z) (dst : SocketAddr) (payload : bytes) s : option Delivery :=
  match hub_lookup sess s with
  | Hit e app =>
      x ← ds_entries s !! e;
      Some (en_relay x, if en_reply_v6 x then map_for_dual app else app,
            (if en_raw_reply x then [] else encode_reply_header dst, payload))
  | _ => None
  end.

(** One item on its own: look up its flow, then the flow's association. *)
Definition item_delivery s (it : Z * bytes) : option Delivery :=
  '(sess, dst) ← id_target it.1 s; delivery_to sess dst it.2 s.

Definition tail_sock (sock : option Z) (l : list StagedReply) : option Z :=
  foldl (fun sock r => match sr_sock r with Some x => Some x | None => sock end) sock l.

Lemma meant_snoc l r : forall sock, meant sock (l ++ [r]) =
  meant sock l ++ [(default 0 (match sr_sock r with Some x => Some x | None => tail_sock sock l end), to_app r, reply_frame r)].
Proof. induction l as [|x l IH]; intros sock; cbn [app meant]; [done|]. by rewrite IH. Qed.

Lemma linked_snoc l r : forall prev, linked prev l ->
  match sr_sock r with
  | Some _ => True
  | None => match (match list.last l with Some p => Some p | None => prev end) with Some p => same_mode p r | None => False end
  end -> linked prev (l ++ [r]).
Proof.
  induction l as [|x l IH]; intros prev Hl Hr; cbn [app linked] in *; [done|]. destruct Hl as [Hx Hl]. split; [done|]. apply IH; [done|].
  destruct (sr_sock r); [done|]. rewrite last_cons in Hr. by destruct (list.last l).
Qed.

(** What a train does to a flow it names and to an association it replies to. *)
Definition marked_binding (b : FlowBinding) : FlowBinding := if fb_state b =? OPENING then Binding.store Cstate OPEN b else b.
Definition replied (x : AssocEntry) : AssocEntry :=
  mkAssocEntry (en_relay x) (en_app x) (en_alive x) true (en_raw_reply x) (en_reply_v6 x).

(** The flows of some ids, and the association of an item. *)
Definition flows_of (ids : list Z) s : list Arc := omap (fun id => r_map (d_registry s) !! id) ids.
Definition item_entry s (it : Z * bytes) : option positive :=
  '(sess, _) ← id_target it.1 s; match hub_lookup sess s with Hit e _ => Some e | _ => None end.

(** [s'] is [s] after the flows of [ids] were marked open and the associations of
    [done] replied to. *)
Record marked (ids : list Z) (done : list (Z * bytes)) s s' : Prop := mkMarked {
  mk_reg : d_registry s' = d_registry s;
  mk_wire : cn_wire (d_conn s') = cn_wire (d_conn s);
  mk_hub : ds_hub s' = ds_hub s;
  mk_flows : forall l, d_heap s' !! l = (if bool_decide (l ∈ flows_of ids s) then marked_binding else id) <$> d_heap s !! l;
  mk_entries : forall e, ds_entries s' !! e = (if bool_decide (e ∈ omap (item_entry s) done) then replied else id) <$> ds_entries s !! e
}.

Lemma mark_open_opened b : (solo mark_open b).2 = marked_binding b.
Proof. destruct b. unfold mark_open, solo, marked_binding, Binding.load, Binding.store. cbn. by repeat (case_match; cbn). Qed.

Lemma opened_twice b : marked_binding (marked_binding b) = marked_binding b.
Proof. unfold marked_binding at 2 3. destruct (fb_state b =? OPENING) eqn:E; [by destruct b | unfold marked_binding; by rewrite E]. Qed.

Lemma fmap_id_opt {A} (o : option A) : id <$> o = o.
Proof. by destruct o. Qed.

Lemma marked_refl s : marked [] [] s s.
Proof. split; try done; intros x; cbn; by rewrite fmap_id_opt. Qed.

(** An id without a flow marks nothing; a flow is marked once or more. *)
Lemma marked_unknown ids done s s' id : marked ids done s s' -> r_map (d_registry s) !! id = None -> marked (ids ++ [id]) done s s'.
Proof.
  intros [A1 A2 A3 A4 A5] E. split; try done. intros l. rewrite A4. unfold flows_of. rewrite omap_app. cbn [omap list_omap]. by rewrite E, app_nil_r.
Qed.

Lemma marked_again ids done s s' id : marked ids done s s' -> id ∈ ids -> marked (ids ++ [id]) done s s'.
Proof.
  intros [A1 A2 A3 A4 A5] Hin. split; try done. intros l. rewrite A4.
  assert (E : l ∈ flows_of ids s <-> l ∈ flows_of (ids ++ [id]) s); [|by rewrite (bool_decide_ext _ _ E)].
  unfold flows_of. rewrite omap_app, elem_of_app, !list_elem_of_omap. split; [by left|].
  intros [?|(i & Hi & E)]; [done|]. apply list_elem_of_singleton in Hi as ->. by exists id.
Qed.

Lemma marked_open ids done s s' id l : marked ids done s s' -> r_map (d_registry s) !! id = Some l ->
  marked (ids ++ [id]) done s (on_heap (call mark_open l) s').
Proof.
  intros [A1 A2 A3 A4 A5] E. split; try done. intros l'. change (d_heap (on_heap (call mark_open l) s')) with (call mark_open l (d_heap s')).
  unfold call, flows_of. rewrite omap_app. cbn [omap list_omap]. rewrite E. destruct (decide (l' = l)) as [->|Hne].
  - rewrite lookup_alter_eq, A4, (bool_decide_eq_true_2 (l ∈ _ ++ _)) by set_solver. destruct (d_heap s !! l) as [b|]; [|done]. cbn [fmap option_fmap option_map].
    f_equal. etrans; [apply mark_open_opened|]. case_bool_decide; [apply opened_twice | done].
  - rewrite lookup_alter_ne by done. rewrite A4. unfold flows_of. rewrite (bool_decide_ext (l' ∈ _ ++ _) (l' ∈ omap (fun i => r_map (d_registry s) !! i) ids)) by set_solver. done.
Qed.

Lemma marked_sim ids done s s' : marked ids done s s' -> sim s s'.
Proof.
  intros [A1 A2 A3 A4 A5]. split; try done.
  - intros l. rewrite !lookup_total_alt, A4. case_bool_decide; [|by rewrite fmap_id_opt]. destruct (d_heap s !! l) as [b|]; [|done]. cbn.
    unfold marked_binding. case_match; [|done]. by destruct b.
  - intros e. rewrite A5. case_bool_decide; [|by rewrite fmap_id_opt]. by destruct (ds_entries s !! e).
Qed.

(** Steps that leave the flows and the associations alone. *)
Lemma marked_step ids done s s1 s2 : marked ids done s s1 -> d_registry s2 = d_registry s1 -> cn_wire (d_conn s2) = cn_wire (d_conn s1) ->
  ds_hub s2 = ds_hub s1 -> d_heap s2 = d_heap s1 -> ds_entries s2 = ds_entries s1 -> marked ids done s s2.
Proof. intros [A1 A2 A3 A4 A5] E1 E2 E3 E4 E5. split; [congruence.. | |]; intros x; [by rewrite E4 | by rewrite E5]. Qed.

Lemma marked_skip ids done s s' it : marked ids done s s' -> item_entry s it = None -> marked ids (done ++ [it]) s s'.
Proof. intros [A1 A2 A3 A4 A5] E. split; try done. intros e. rewrite A5, omap_app. cbn [omap list_omap]. by rewrite E, app_nil_r. Qed.

Lemma marked_reply ids done s s' it e r : marked ids done s s' -> item_entry s it = Some e -> marked ids (done ++ [it]) s (push_out r (mark_replied e s')).
Proof.
  intros [A1 A2 A3 A4 A5] E. split; try done. intros e'. cbn [push_out mark_replied ds_entries]. rewrite omap_app. cbn [omap list_omap]. rewrite E.
  destruct (decide (e' = e)) as [->|Hne].
  - rewrite lookup_alter_eq, A5, (bool_decide_eq_true_2 (e ∈ _ ++ _)) by set_solver. destruct (ds_entries s !! e) as [x|]; [|done]. cbn. f_equal.
    by case_bool_decide.
  - rewrite lookup_alter_ne by done. rewrite A5, (bool_decide_ext (e' ∈ _ ++ _) (e' ∈ omap (item_entry s) done)) by set_solver. done.
Qed.

Lemma repair_marked ids done s s' id now : marked ids done s s' -> marked ids done s (repair_unknown_flow id now s').
Proof.
  intros Hm. unfold repair_unknown_flow. case_match; [done|]. set (f := fun c => _). assert (Hf : forall c, cn_flows (f c) = cn_flows c /\ cn_wire (f c) = cn_wire c) by (intros c; apply need_context_keeps).
  assert (Hc : cn_flows (cl_conn (ds_client (on_conn f s'))) = cn_flows (cl_conn (ds_client s'))) by apply Hf.
  eapply marked_step; [exact Hm | | | done | | done]; [unfold d_registry, registry; by rewrite Hc | apply Hf | unfold d_heap, heap; by rewrite Hc].
Qed.

(** The loop after the items [done] from [s0], with the replies [outs] staged and
    the ids [seen] resolved. *)
Record train_inv s0 (slots : list (Z * option Arc)) (seen : list Z) (done : list (Z * bytes)) (outs : list StagedReply) (v : TrainRun) s : Prop := mkTrainInv {
  ti_marked : marked seen done s0 s;
  ti_cache : cache_ok s;
  ti_out : ds_out s = ds_out s0 ++ outs;
  ti_linked : linked None outs;
  ti_meant : meant None outs = omap (item_delivery s0) done;
  ti_staged : tr_staged v = len outs;
  ti_len : length (tr_resolved v) = Z.to_nat R2_MAX_TRAIN_ITEMS;
  ti_memo : forall slot id o, slots !! slot = Some (id, o) ->
    match tr_resolved v !! slot with
    | Some (RHit sess dst) => id_target id s0 = Some (sess, dst) /\ id ∈ seen
    | Some RUnknown => r_map (d_registry s0) !! id = None
    | _ => True
    end;
  ti_last : forall sess e app, tr_last v = Some (sess, e, app) -> hub_lookup sess s0 = Hit e app /\
    exists x r, ds_entries s0 !! e = Some x /\ list.last outs = Some r /\ tail_sock None outs = Some (en_relay x) /\
      sr_app r = app /\ sr_reply_v6 r = en_reply_v6 x /\ sr_raw r = en_raw_reply x
}.

Lemma id_target_sim s s' id : sim s s' -> id_target id s' = id_target id s.
Proof.
  intros [R _ Hh _ _]. unfold id_target. rewrite R. destruct (r_map (d_registry s) !! id) as [l|]; [|done]. cbn.
  destruct (Hh l) as [-> ->]. done.
Qed.

(** Resolving a slot gives the target of its id, whatever was remembered. *)
Lemma resolve_slot_spec s0 slots now seen done outs v s slot id : train_inv s0 slots seen done outs v s ->
  slots !! slot = Some (id, r_map (d_registry s0) !! id) -> (slot < Z.to_nat R2_MAX_TRAIN_ITEMS)%nat ->
  exists v' s', resolve_slot slots now slot v s = Ok (id_target id s0, v', s') /\ train_inv s0 slots (seen ++ [id]) done outs v' s'.
Proof.
  intros I Hs Hb. pose proof I as [Imk Ic Io Il Im Ist Ilen Imemo Ilast]. pose proof (marked_sim _ _ _ _ Imk) as Isim. unfold resolve_slot.
  destruct (tr_resolved v !! slot) as [r|] eqn:Er; [|apply lookup_ge_None in Er; lia].
  pose proof (Imemo _ _ _ Hs) as Hm. rewrite Er in Hm.
  assert (Hup : forall r', match r' with RHit sess dst => id_target id s0 = Some (sess, dst) | RUnknown => r_map (d_registry s0) !! id = None | Pending => True end ->
    forall s', sim s s' -> marked (seen ++ [id]) done s0 s' -> ds_out s' = ds_out s -> ds_cache s' = ds_cache s ->
    train_inv s0 slots (seen ++ [id]) done outs (mkTrainRun (<[slot := r']> (tr_resolved v)) (tr_last v) (tr_staged v)) s').
  { intros r' Hr' s' Hsim Hmk Hout Hca. split; cbn [tr_resolved tr_last tr_staged]; try done.
    - by eapply sim_cache_ok.
    - by rewrite Hout.
    - by rewrite length_insert.
    - intros sl i o Hsl. destruct (decide (sl = slot)) as [->|Hne].
      + rewrite Hs in Hsl. injection Hsl as <- _. rewrite list_lookup_insert_eq by lia. destruct r'; try done. split; [done | set_solver].
      + rewrite list_lookup_insert_ne by done. specialize (Imemo _ _ _ Hsl). destruct (tr_resolved v !! sl) as [[]|]; try done. split; [apply Imemo | set_solver]. }
  assert (Hsame : forall r', tr_resolved v !! slot = Some r' -> mkTrainRun (<[slot := r']> (tr_resolved v)) (tr_last v) (tr_staged v) = v)
    by (intros r' E'; rewrite list_insert_id by done; by destruct v).
  destruct r as [|sess dst|].
  - rewrite Hs. destruct (r_map (d_registry s0) !! id) as [l|] eqn:El.
    + assert (Ht : id_target id (on_heap (call mark_open l) s) = id_target id s0).
      { apply id_target_sim. etrans; [done | apply mark_open_sim]. }
      unfold id_target at 1 in Ht. rewrite (sm_reg _ _ (mark_open_sim l s)), (sm_reg _ _ Isim), El in Ht. cbn [mbind option_bind] in Ht.
      destruct (r2_reply_dst (d_heap (on_heap (call mark_open l) s) !!! l)) as [dst|] eqn:Ed; cbn [mbind option_bind] in Ht.
      * eexists _, _. split; [by rewrite <- Ht|]. apply Hup; [by rewrite <- Ht | apply mark_open_sim | by apply marked_open | done | done].
      * exists v, (on_heap (call mark_open l) s). split; [by rewrite <- Ht|].
        rewrite <- (Hsame Pending Er). apply Hup; [done | apply mark_open_sim | by apply marked_open | done | done].
    + assert (Ht : id_target id s0 = None) by (unfold id_target; by rewrite El).
      rewrite Ht. eexists _, _. split; [reflexivity|]. apply Hup; [done|..].
      * case_match; [apply repair_sim | done].
      * apply marked_unknown; [|done]. case_match; [by apply repair_marked | done].
      * case_match; [|done]. unfold repair_unknown_flow. by case_match.
      * case_match; [|done]. unfold repair_unknown_flow. by case_match.
  - destruct Hm as [Hm Hin]. exists v, s. rewrite Hm. split; [done|]. rewrite <- (Hsame _ Er). apply Hup; [done | done | by apply marked_again | done | done].
  - exists v, s. unfold id_target. rewrite Hm. split; [done|]. rewrite <- (Hsame _ Er). apply Hup; [done | done | by apply marked_unknown | done | done].
Qed.

(** A reply pushed for the entry [x]. *)
Definition reply_for (sock : option Z) (x : AssocEntry) (app dst : SocketAddr) (payload : bytes) : StagedReply :=
  mkStagedReply sock app dst payload (en_raw_reply x) (en_reply_v6 x).

Lemma stage_reply_eq e app dst payload s x : ds_entries s !! e = Some x ->
  stage_reply e app dst payload s = push_out (reply_for (Some (en_relay x)) x app dst payload) (mark_replied e s).
Proof. intros Hx. unfold stage_reply. by rewrite Hx. Qed.

Lemma stage_follow_eq e app dst payload s x : ds_entries s !! e = Some x ->
  stage_reply_follow e app dst payload s = push_out (reply_for None x app dst payload) (mark_replied e s).
Proof. intros Hx. unfold stage_reply_follow. by rewrite Hx. Qed.

Lemma push_reply_sim r e s : sim s (push_out r (mark_replied e s)).
Proof. destruct (mark_replied_sim e s). by split. Qed.

Lemma sim_entry s s' e x : sim s s' -> ds_entries s !! e = Some x -> exists x', ds_entries s' !! e = Some x' /\ en_view x' = en_view x.
Proof.
  intros [_ _ _ _ E] Hx. specialize (E e). rewrite Hx in E. destruct (ds_entries s' !! e) as [x'|]; [|done]. exists x'. split; [done|]. by apply (inj Some) in E.
Qed.

Lemma hub_hit sess s e app : hub_lookup sess s = Hit e app -> exists x, ds_entries s !! e = Some x.
Proof.
  unfold hub_lookup. destruct (ds_hub s !! sess) as [e'|]; [|done]. cbn. destruct (ds_entries s !! e') as [x|] eqn:E; [|done]. cbn.
  destruct (en_alive x); cbn; [|done]. unfold found. destruct (en_app x); [|done]. intros [= <- _]. by exists x.
Qed.

(** One more reply, for an item whose association is known. *)
Lemma train_push s0 slots seen done outs v s id p sess dst e app x x0 sock :
  train_inv s0 slots seen done outs v s -> id_target id s0 = Some (sess, dst) -> hub_lookup sess s0 = Hit e app ->
  ds_entries s0 !! e = Some x0 -> en_view x = en_view x0 ->
  (sock = Some (en_relay x) \/ sock = None /\ tr_last v = Some (sess, e, app)) ->
  train_inv s0 slots seen (done ++ [(id, p)]) (outs ++ [reply_for sock x app dst p])
    (mkTrainRun (tr_resolved v) (Some (sess, e, app)) (tr_staged v + 1)) (push_out (reply_for sock x app dst p) (mark_replied e s)).
Proof.
  intros [Imk Ic Io Il Im Ist Ilen Imemo Ilast] Ht Hh Hx0 Hv Hsock. unfold en_view in Hv. injection Hv as V1 V2 V3 V4 V5.
  assert (Hdel : item_delivery s0 (id, p) = Some (en_relay x0, if en_reply_v6 x0 then map_for_dual app else app,
    (if en_raw_reply x0 then [] else encode_reply_header dst, p))).
  { unfold item_delivery, delivery_to. cbn [fst snd]. rewrite Ht. cbn. rewrite Hh. cbn. by rewrite Hx0. }
  assert (Htail : (match sock with Some y => Some y | None => tail_sock None outs end) = Some (en_relay x0)).
  { destruct Hsock as [-> | [-> Hl]]; [by rewrite V1|]. destruct (Ilast _ _ _ Hl) as (_ & x1 & r & Hx1 & _ & Hts & _).
    rewrite Hx0 in Hx1. by injection Hx1 as <-. }
  split; cbn [tr_resolved tr_last tr_staged]; try done.
  - apply marked_reply; [done|]. unfold item_entry. cbn [fst]. rewrite Ht. cbn. by rewrite Hh.
  - eapply sim_cache_ok; [done | apply push_reply_sim | done].
  - cbn. by rewrite Io, app_assoc.
  - apply linked_snoc; [done|]. cbn [reply_for sr_sock]. destruct Hsock as [-> | [-> Hl]]; [done|].
    destruct (Ilast _ _ _ Hl) as (_ & x1 & r & Hx1 & Hr & _ & R1 & R2 & R3). rewrite Hx0 in Hx1. injection Hx1 as <-. rewrite Hr.
    unfold same_mode. cbn. by rewrite R1, R2, R3, V4, V5.
  - rewrite meant_snoc, Im, omap_app. cbn [reply_for sr_sock]. rewrite Htail. f_equal. cbn [omap list_omap]. rewrite Hdel. cbn.
    unfold to_app, reply_frame. cbn. by rewrite V4, V5.
  - rewrite len_app, Ist. done.
  - intros sess' e' app' [= <- <- <-]. split; [done|]. exists x0, (reply_for sock x app dst p). split_and!; try done.
    + by rewrite last_snoc.
    + unfold tail_sock. rewrite foldl_app. cbn. exact Htail.
Qed.

Lemma stage_item_spec s0 slots seen done outs v s id p sess dst : train_inv s0 slots seen done outs v s -> id_target id s0 = Some (sess, dst) ->
  exists v' s' outs', stage_item sess dst p v s = Ok (v', s') /\ train_inv s0 slots seen (done ++ [(id, p)]) outs' v' s'.
Proof.
  intros I Ht. pose proof (marked_sim _ _ _ _ (ti_marked _ _ _ _ _ _ _ I)) as Isim. pose proof I as [Imk Ic Io Il Im Ist Ilen Imemo Ilast]. unfold stage_item.
  destruct (same_assoc sess (tr_last v)) as [[e app]|] eqn:Ea.
  - assert (Hl : tr_last v = Some (sess, e, app)).
    { unfold same_assoc in Ea. destruct (tr_last v) as [[[ps e'] app']|]; [|done]. destruct (ps =? sess) eqn:E; [|done]. zbool. by injection Ea as -> ->; subst. }
    destruct (Ilast _ _ _ Hl) as (Hh & x0 & r & Hx0 & _). destruct (sim_entry _ _ _ _ Isim Hx0) as (x & Hx & Hv).
    rewrite (stage_follow_eq _ _ _ _ _ _ Hx). eexists _, _, _. split; [reflexivity|]. rewrite Hl.
    eapply (train_push s0 slots seen done outs v s id p sess dst e app x x0 None); eauto.
  - unfold r2_lookup. destruct (lookup_entry_spec sess s Ic) as (s1 & -> & Hc1 & Hst). cbn [res_bind].
    rewrite (sim_lookup _ _ _ Isim). pose proof (sim_cache _ _ Hst) as Hs1.
    assert (I1 : train_inv s0 slots seen done outs v s1).
    { split; try done; destruct Hst as [->|(i & sl & ->)]; try done. by eapply marked_step. }
    destruct (hub_lookup sess s0) as [e app| |] eqn:Eh.
    + destruct (hub_hit _ _ _ _ Eh) as [x0 Hx0]. destruct (sim_entry _ _ _ _ (marked_sim _ _ _ _ (ti_marked _ _ _ _ _ _ _ I1)) Hx0) as (x & Hx & Hv).
      rewrite (stage_reply_eq _ _ _ _ _ _ Hx). eexists _, _, _. split; [reflexivity|].
      eapply (train_push s0 slots seen done outs v s1 id p sess dst e app x x0 (Some (en_relay x))); eauto.
    + exists v, s1, outs. split; [done|]. destruct I1. split; try done.
      * apply marked_skip; [done|]. unfold item_entry. cbn [fst]. rewrite Ht. cbn. by rewrite Eh.
      * rewrite omap_app. cbn [omap list_omap]. unfold item_delivery, delivery_to. cbn [fst snd]. rewrite Ht. cbn. rewrite Eh. by rewrite app_nil_r.
    + exists v, s1, outs. split; [done|]. destruct I1. split; try done.
      * apply marked_skip; [done|]. unfold item_entry. cbn [fst]. rewrite Ht. cbn. by rewrite Eh.
      * rewrite omap_app. cbn [omap list_omap]. unfold item_delivery, delivery_to. cbn [fst snd]. rewrite Ht. cbn. rewrite Eh. by rewrite app_nil_r.
Qed.

Lemma train_items_spec s0 slots now : forall its ss done outs v s, train_inv s0 slots done.*1 done outs v s ->
  Forall2 (fun sl (p : Z * bytes) => (sl < Z.to_nat R2_MAX_TRAIN_ITEMS)%nat /\ slots !! sl = Some (p.1, r_map (d_registry s0) !! p.1)) ss its ->
  exists v' s' outs', train_items slots now (zip ss its.*2) v s = Ok (v', s') /\ train_inv s0 slots (done ++ its).*1 (done ++ its) outs' v' s'.
Proof.
  induction its as [|[id p] its IH]; intros ss done outs v s I Hf.
  { apply list.Forall2_nil_inv_r in Hf as ->. exists v, s, outs. by rewrite app_nil_r. }
  apply list.Forall2_cons_inv_r in Hf as (sl & ss' & [Hb Hs] & Hf & ->). cbn [fst] in Hs. cbn [fmap list_fmap zip zip_with train_items snd].
  destruct (resolve_slot_spec s0 slots now _ done outs v s sl id I Hs Hb) as (v1 & s1 & -> & I1). cbn [res_bind].
  assert (Hnext : forall o2 v2 s2, train_inv s0 slots (done.*1 ++ [id]) (done ++ [(id, p)]) o2 v2 s2 -> exists v' s' outs',
    train_items slots now (zip ss' its.*2) v2 s2 = Ok (v', s') /\ train_inv s0 slots (done ++ (id, p) :: its).*1 (done ++ (id, p) :: its) outs' v' s').
  { intros o2 v2 s2 I2. destruct (IH ss' (done ++ [(id, p)]) o2 v2 s2) as (v' & s' & o' & E & I'); [by rewrite fmap_app | done|].
    exists v', s', o'. split; [done|]. by rewrite <- app_assoc in I'. }
  destruct (id_target id s0) as [[sess dst]|] eqn:Et.
  - destruct (stage_item_spec s0 slots _ done outs v1 s1 id p sess dst I1 Et) as (v2 & s2 & o2 & -> & I2). cbn [res_bind]. by eapply Hnext.
  - apply (Hnext outs). destruct I1. split; try done.
    + apply marked_skip; [done|]. unfold item_entry. cbn [fst]. by rewrite Et.
    + rewrite omap_app. cbn [omap list_omap]. unfold item_delivery. cbn [fst]. rewrite Et. cbn. by rewrite app_nil_r.
Qed.

(** C17: a train is dispatched item by item.  For any items of a decoded train
    (the codec bounds their number), and an association cache that agrees with the
    hub (as it does in every run, [hub_exact]), the shared table that gives every
    id one slot, the resolution remembered per slot, and the lookups skipped for
    consecutive items of one association change nothing: the dispatch returns,
    stages as many replies as it reports, and writing them delivers exactly
    what every item on its own would (its flow's destination, the hub's
    association of its flow's session), in the order of the train, each on the
    relay socket of its own association.  Exactly the flows the items name are
    marked open, if they were opening, exactly the associations that got a reply
    are marked replied, and all else of the flows, the registry, the hub and the
    associations is left as it was; the cache still agrees. *)
Theorem train_dispatch_exact its now s : cache_ok s -> (length its <= Z.to_nat R2_MAX_TRAIN_ITEMS)%nat -> exists n s' outs,
  dispatch_items its now s = Ok (n, s') /\ n = len outs /\ ds_out s' = ds_out s ++ outs /\ cache_ok s' /\ marked its.*1 its s s' /\
  exists gs, flush_staged outs = Ok gs /\ delivered gs = omap (item_delivery s) its.
Proof.
  intros Hc Hl. unfold dispatch_items.
  destruct (dedupe_spec its TrainTable_new table_new_ok) as (ss & t & -> & Ht & _ & Hle & Hf); [cbn; lia|]. cbn [res_bind].
  destruct (train_items_spec s (get_batch (tt_slots t) (d_registry s)) now its ss [] []
    (mkTrainRun (replicate (Z.to_nat R2_MAX_TRAIN_ITEMS) Pending) None 0) s) as (v & s' & outs & -> & I).
  - split; try done.
    + apply marked_refl.
    + by rewrite app_nil_r.
    + intros sl id o Hs. cbn [tr_resolved]. destruct (replicate _ _ !! sl) as [r|] eqn:E; [|done]. by apply lookup_replicate in E as [-> _].
  - eapply list.Forall2_impl; [exact Hf|]. cbn beta. intros sl [id p] Hsl. cbn [fst] in *.
    split; [apply lookup_lt_Some in Hsl; lia|]. unfold get_batch. rewrite list_lookup_fmap, Hsl. done.
  - cbn [res_bind]. destruct I as [Imk Ic Io Il Im Ist _ _ _]. exists (tr_staged v), s', outs. split_and!; try done.
    destruct (flush_go_spec (length outs) outs Il ltac:(lia)) as (gs & E & Hd). exists gs. split; [done|]. by rewrite Hd, Im.
Qed.
End Run.

(* ------------------------------------------------------------------ *)
(** ** A concrete client *)

(** A connection that is past its handshake, for the witnesses. *)
#[export] Instance BufConn_quic : QuicConn BufConn :=
  {| handshake_data := fun _ => true; path_cwnd := fun _ => 12000; path_rtt := fun _ => mkDuration 0 20000000 |}.

Definition demo_drain (w : Wire) : Drain.World BufConn :=
  Drain.mkWorld (mkLink (mkBufConn 4000 []) (mkDrops 0 0 0) (mkSendStats 0 0 0 0 0)) (R2Stager_new_with_wire w) [] [].

Definition demo_target : TargetAddr := AddrIp (SockV4 [1; 2; 3; 4] 53).

(** A flow of session 7 that this endpoint opened. *)
Definition demo_client : Client BufConn :=
  let c := ConnRev2_new 1 Rev2 ∅ in
  mkClient (with_flows (insert_new_for Rev2 7 demo_target (cn_flows c)).2 c) (demo_drain Rev2) UplinkFlows_new R2Fragmenter_new 0 0.

Definition demo_app : SocketAddr := SockV4 [10; 0; 0; 1] 4000.

Definition demo_disp : Disp BufConn :=
  mkDisp demo_client (R2Reassembler_new (Reasm.mkDrops 0 0 0)) {[ 1%positive := mkAssocEntry 5 (Some demo_app) true false false false ]} {[ 7 := 1%positive ]}
    (replicate (Z.to_nat DISPATCH_CACHE) (mkDispatchSlot 0 None None)) [].

Lemma demo_cache_ok : cache_ok demo_disp.
Proof.
  split; [apply length_replicate|]. intros i sl e x Hi He. apply lookup_replicate in Hi as [-> _]. done.
Qed.

(** Two items of the flow around one of an unknown id: two replies in one write. *)
Lemma train_dispatch_exact_witness : exists n s' outs gs,
  dispatch_items [(2, [1; 1]); (9, [5]); (2, [3])] 0 demo_disp = Ok (n, s') /\ n = 2 /\ ds_out s' = outs /\ flush_staged outs = Ok gs /\
  delivered gs = omap (item_delivery demo_disp) [(2, [1; 1]); (9, [5]); (2, [3])] /\
  length (omap (item_delivery demo_disp) [(2, [1; 1]); (9, [5]); (2, [3])]) = 2%nat.
Proof.
  destruct (train_dispatch_exact [(2, [1; 1]); (9, [5]); (2, [3])] 0 demo_disp demo_cache_ok) as (n & s' & outs & E & _ & Ho & _ & _ & gs & Hg & Hd); [vm_compute; lia|].
  exists n, s', outs, gs. split_and!; try done.
  assert (E2 : exists q, dispatch_items [(2, [1; 1]); (9, [5]); (2, [3])] 0 demo_disp = Ok (2, q)) by (eexists; vm_compute; reflexivity).
  destruct E2 as [q E2]. rewrite E in E2. by injection E2.
Defined.
