(* ===== verification/UplinkInv.v ===== *)
(** The client's flow tables while many associations and the dispatcher share
    one connection: what each operation does to the shared bindings and the
    registry, and the invariant of an association's table. *)
From stdpp Require Import fin_maps relations.
From S2P Require Import Prelude Addr Codec R3 R3Train R3Ctl R2 R2Train Wire Frag Partial Reasm Binding Flow FlowRun Stage StageRun Pack Drain DrainRun DnsPolicy DnsMemo Window Client Dispatch DispatchRun.

Abbreviation client_id id := (wire_id_server_owned id = false).

(** The tables of the client's side of a connection. *)
Definition tables_ok (w : Flow.World) : Prop := FlowRun.world_ok w /\ fi_server_owned (w_ids w) = false.

(* ------------------------------------------------------------------ *)
(** ** Steps of the shared tables *)

(** What a step may do: bindings keep their identity and stay closed, an id of
    this endpoint leaves the registry only with its binding closed, and appears
    only by being allocated. *)
Record world_step (w w' : Flow.World) : Prop := mkWorldStep {
  st_ok : tables_ok w';
  st_heap : heap_le (w_heap w) (w_heap w');
  st_next : fi_next (w_ids w) <= fi_next (w_ids w');
  st_keep : forall id l, client_id id -> r_map (w_reg w) !! id = Some l ->
    r_map (w_reg w') !! id = Some l \/ r_map (w_reg w') !! id = None /\ fb_state (w_heap w' !!! l) = CLOSED;
  st_new : forall id l, client_id id -> r_map (w_reg w') !! id = Some l ->
    r_map (w_reg w) !! id = Some l \/ fi_next (w_ids w) < wire_id_local id
}.

Lemma tables_live w id l : tables_ok w -> r_map (w_reg w) !! id = Some l -> exists b, w_heap w !! l = Some b /\ fb_wire_id b = id.
Proof. intros ((Hi & _) & _) Hm. apply (rc_live _ _ (ri_core _ _ Hi) _ _ Hm). Qed.

Lemma tables_local w id l : tables_ok w -> client_id id -> r_map (w_reg w) !! id = Some l -> wire_id_local id <= fi_next (w_ids w).
Proof. intros ((_ & _ & Ho) & Hf) Hc Hl. apply (Ho _ _ Hl). congruence. Qed.

Lemma heap_le_lookup h h' l b : heap_le h h' -> h !! l = Some b -> exists b', h' !! l = Some b' /\ h' !!! l = b' /\
  fb_wire_id b' = fb_wire_id b /\ fb_session b' = fb_session b /\ fb_target b' = fb_target b /\ (fb_state b = CLOSED -> fb_state b' = CLOSED).
Proof. intros Hle Hb. destruct (Hle _ _ Hb) as (b' & Hb' & ?). exists b'. split; [done|]. split; [by apply lookup_total_some|done]. Qed.

Lemma world_step_refl w : tables_ok w -> world_step w w.
Proof. intros Ho. split; auto; try done; lia. Qed.

Lemma world_step_trans a b c : tables_ok a -> world_step a b -> world_step b c -> world_step a c.
Proof.
  intros Ho [A1 A2 A3 A4 A5] [B1 B2 B3 B4 B5]. split; auto; try lia; [by etrans|..].
  - intros id l Hc Hl. destruct (A4 id l Hc Hl) as [Hb|[Hb Hcl]]; [by apply B4|].
    pose proof (tables_local _ _ _ Ho Hc Hl). right. split.
    + destruct (r_map (w_reg c) !! id) as [l'|] eqn:E; [|done]. destruct (B5 id l' Hc E); [congruence | lia].
    + destruct (tables_live _ _ _ Ho Hl) as (x & Hx & _). destruct (heap_le_lookup _ _ _ _ A2 Hx) as (y & Hy & Ey & _).
      eapply closed_le; [exact B2 | exact Hy |]. congruence.
  - intros id l Hc Hl. destruct (B5 id l Hc Hl) as [Hb|Hb]; [by apply A5 | right; lia].
Qed.

(** The bindings change, the tables do not. *)
Lemma step_heap w h : tables_ok w -> heap_le (w_heap w) h -> world_step w (Flow.mkWorld h (w_ids w) (w_reg w)).
Proof.
  intros [(Hi & Hids & Ho) Hf] Hle. split; cbn; auto; try lia. split; [|done]. split_and!; try done. by eapply reg_inv_le.
Qed.

(** A binding leaves the registry and is closed, before or after. *)
Lemma step_remove w id l h : tables_ok w -> r_map (w_reg w) !! id = Some l -> heap_le (w_heap w) h ->
  wire_id_server_owned id = true \/ fb_state (h !!! l) = CLOSED ->
  world_step w (Flow.mkWorld h (w_ids w) (registry_remove (w_heap w) id (w_reg w)).2).
Proof.
  intros Ho Hl Hle Hcl. pose proof Ho as [(Hi & Hids & Hown) Hf].
  assert (Hm : r_map (registry_remove (w_heap w) id (w_reg w)).2 = delete id (r_map (w_reg w))) by (unfold registry_remove; by rewrite Hl).
  split; cbn; auto; try lia.
  - split; [|done]. split_and!; [|done|eapply own_ids_sub; [done | apply registry_remove_map]]. cbn.
    eapply reg_inv_le; [|exact Hle]. by apply (registry_remove_stable reg_inv).
  - intros id' l' Hc Hl'. rewrite Hm. destruct (decide (id' = id)) as [->|Hne].
    + right. rewrite Hl in Hl'. injection Hl' as <-. split; [by rewrite lookup_delete_eq|]. destruct Hcl as [Hs|Hs]; [congruence | done].
    + left. by rewrite lookup_delete_ne.
  - intros id' l' Hc. rewrite Hm. intros [_ Hl']%lookup_delete_Some. by left.
Qed.

(** [close_flow] of an association's table, or of the dispatcher. *)
Lemma registry_remove_none h id r : r_map r !! id = None -> registry_remove h id r = (None, r).
Proof. intros E. unfold registry_remove. by rewrite E. Qed.

(** The removal reads only the identity of the binding. *)
Lemma registry_remove_le h h' id r : reg_core h r -> heap_le h h' -> registry_remove h' id r = registry_remove h id r.
Proof.
  intros Hc Hle. unfold registry_remove. destruct (r_map r !! id) as [l|] eqn:E; [|done].
  destruct (rc_live _ _ Hc _ _ E) as (b & Hb & _). destruct (heap_le_lookup _ _ _ _ Hle Hb) as (b' & _ & Hb' & Hid & Hs & _).
  rewrite Hb', (lookup_total_some _ _ _ Hb). unfold unindex_binding. by rewrite Hid, Hs.
Qed.

(** A new flow of this endpoint. *)
Lemma step_insert_new wr sess addr w : tables_ok w -> world_step w (insert_new_for wr sess addr w).2.
Proof.
  intros Ho. pose proof Ho as [Hok Hf]. pose proof (insert_new_for_ok wr sess addr w Hok) as Hok'. revert Hok'. rewrite insert_new_for_spec by done.
  destruct (no_room wr w) eqn:En; cbn [snd]; [intros _; by apply world_step_refl|]. intros Hok'.
  set (l := fresh (dom (w_heap w))) in *. assert (Hl : w_heap w !! l = None) by apply not_elem_of_dom, is_fresh.
  unfold no_room in En. apply orb_false_iff in En as [E1 E2]. zbool. assert (Hn : fi_next (w_ids w) < MAX_LOCAL_FLOW_ID) by (apply (alloc_limit _ wr); lia).
  destruct (next_wire_id_parts (w_ids w) (proj1 (proj2 Hok)) Hn) as (_ & Hloc & Hown).
  split; cbn [w_heap w_ids w_reg opened fi_next fi_server_owned]; try lia.
  - by split.
  - by apply heap_le_insert.
  - intros id l' Hc Hl'. left. unfold opened. cbn. rewrite lookup_insert_ne; [done|]. intros <-. cbn in *.
    rewrite own_ids_fresh in Hl'; try done; apply Hok.
  - intros id l' Hc Hl'. unfold opened in Hl'. cbn in Hl'. apply lookup_insert_Some in Hl' as [[<- <-]|[_ ?]]; [right | by left]. cbn. lia.
Qed.

(** A binding the server opened. *)
Lemma step_peer_open w h l b : tables_ok w -> heap_le (w_heap w) h -> h !! l = Some b -> wire_id_server_owned (fb_wire_id b) = true ->
  world_step w (Flow.mkWorld h (w_ids w) (registry_insert h l (w_reg w)).2).
Proof.
  intros Ho Hle Hb Hs. pose proof Ho as [(Hi & Hids & Hown) Hf]. split; cbn; auto; try lia.
  - split; [|done]. split_and!; [|done|].
    + eapply (registry_insert_stable reg_inv); [by eapply reg_inv_le | done].
    + cbn. intros id l' [Hm|E]%registry_insert_map Hown'; [by eapply Hown|]. rewrite (lookup_total_some _ _ _ Hb) in E. subst id. congruence.
  - intros id l' Hc Hl'. left. unfold registry_insert. rewrite (lookup_total_some _ _ _ Hb). repeat case_match; cbn; try done.
    rewrite lookup_insert_ne; [done|]. intros <-. congruence.
  - intros id l' Hc. unfold registry_insert. rewrite (lookup_total_some _ _ _ Hb). repeat case_match; cbn; try (by left).
    intros [[<- _]|[_ ?]]%lookup_insert_Some; [congruence | by left].
Qed.

(** A session's bindings are removed and closed. *)
Lemma step_remove_session w sess : tables_ok w -> let '(_, h, r) := remove_session sess (w_heap w) (w_reg w) in world_step w (Flow.mkWorld h (w_ids w) r).
Proof.
  intros Ho. pose proof Ho as [Hok Hf]. pose proof Hok as (Hi & Hids & Hown).
  pose proof (do_reg_op_own Rev2 (OpSessClose sess) w Hok I) as Hok'. destruct w as [h ids r]. cbn [do_reg_op w_heap w_ids w_reg] in *.
  destruct (remove_session_spec sess h r Hi) as (n & h' & r' & xs & E & Hi' & Hle & P & _). rewrite E in *.
  split; cbn; auto; try lia; [by split|..].
  - intros id l Hc Hl. rewrite (pg_map _ _ _ _ _ _ P). case_decide as Hd; [right | by left].
    split; [done|]. by eapply (pg_closed _ _ _ _ _ _ P).
  - intros id l Hc. rewrite (pg_map _ _ _ _ _ _ P). case_decide; [done | by left].
Qed.

(* ------------------------------------------------------------------ *)
(** ** An association's table *)

(** A binding an association refers to: of its session, and if this endpoint
    opened it, registered until it is closed. *)
Definition entry_ok (w : Flow.World) (sess : Z) (l : Arc) : Prop :=
  exists b, w_heap w !! l = Some b /\ fb_session b = sess /\
    (client_id (fb_wire_id b) -> wire_id_local (fb_wire_id b) <= fi_next (w_ids w) /\
       (r_map (w_reg w) !! fb_wire_id b = Some l \/ r_map (w_reg w) !! fb_wire_id b = None /\ fb_state b = CLOSED)).

Lemma entry_step w w' sess l : tables_ok w -> world_step w w' -> entry_ok w sess l -> entry_ok w' sess l.
Proof.
  intros Ho [A1 A2 A3 A4 A5] (b & Hb & Hs & Hc). destruct (heap_le_lookup _ _ _ _ A2 Hb) as (b' & Hb' & Et & E1 & E2 & E3 & E4).
  exists b'. rewrite E1, E2. split_and!; try done. intros Hcl. destruct (Hc Hcl) as [Hn Hr]. split; [lia|]. destruct Hr as [Hr|[Hr Hs']].
  - destruct (A4 _ _ Hcl Hr) as [?|[? Hc']]; [by left | right]. split; [done|]. congruence.
  - right. split; [|auto]. destruct (r_map (w_reg w') !! fb_wire_id b) as [l'|] eqn:E; [|done]. destruct (A5 _ _ Hcl E); [congruence | lia].
Qed.

Lemma entry_registered w sess l : tables_ok w -> (exists id, r_map (w_reg w) !! id = Some l) -> fb_session (w_heap w !!! l) = sess -> entry_ok w sess l.
Proof.
  intros Ho [id Hl] Hs. destruct (tables_live _ _ _ Ho Hl) as (b & Hb & Hid). rewrite (lookup_total_some _ _ _ Hb) in Hs.
  exists b. split_and!; [done..|]. rewrite Hid. intros Hc. split; [by eapply tables_local | by left].
Qed.

Record assoc_ok (w : Flow.World) (sess : Z) (u : UplinkFlows) : Prop := mkAssocOk {
  tb_entries : Forall (entry_ok w sess) (flows_iter (up_flows u));
  tb_last : forall a l, up_last u = Some (a, l) -> entry_ok w sess l /\ fb_target (w_heap w !!! l) = a
}.

Lemma table_step w w' sess u : tables_ok w -> world_step w w' -> assoc_ok w sess u -> assoc_ok w' sess u.
Proof.
  intros Ho Hs [He Hl]. split.
  - eapply list.Forall_impl; [done|]. intros l. by apply entry_step.
  - intros a l E. destruct (Hl _ _ E) as [Hk Ht]. split; [by eapply entry_step|]. destruct Hk as (b & Hb & _).
    destruct (heap_le_lookup _ _ _ _ (st_heap _ _ Hs) Hb) as (b' & _ & Et & _ & _ & E3 & _). rewrite Et, E3.
    by rewrite (lookup_total_some _ _ _ Hb) in Ht.
Qed.

Lemma flows_iter_elem t l : l ∈ flows_iter t <-> Some l ∈ entries t.
Proof. unfold flows_iter. rewrite list_elem_of_omap. split; [intros (x & Hx & E); unfold id in E; by subst | intros Hx; by exists (Some l)]. Qed.

(** The updates of the table keep the others' entries. *)
Lemma insert_elems h l t t' : SessionFlows_insert h l t = (true, t') -> forall x, x ∈ flows_iter t' -> x ∈ flows_iter t \/ x = l.
Proof.
  unfold SessionFlows_insert. destruct (find_id h _ t); [intros [= <-]; auto|]. destruct (list_find _ _) as [[i e]|]; [|done].
  intros [= <-] x. rewrite !flows_iter_elem. cbn. intros Hx. apply list_elem_of_lookup_1 in Hx as [j Hj].
  apply list_lookup_insert_Some in Hj as [(_ & [= <-] & _)|[_ Hj]]; [by right | left; by eapply list_elem_of_lookup_2].
Qed.

Lemma remove_elems h id t x : x ∈ flows_iter (SessionFlows_remove h id t).2 -> x ∈ flows_iter t.
Proof.
  unfold SessionFlows_remove. destruct (list_find _ _) as [[i e]|]; [|done]. rewrite !flows_iter_elem. cbn. intros Hx.
  apply list_elem_of_lookup_1 in Hx as [j Hj]. apply list_lookup_insert_Some in Hj as [(_ & ? & _)|[_ Hj]]; [done|]. by eapply list_elem_of_lookup_2.
Qed.

(** A table that is not full takes any binding. *)
Lemma insert_not_full h l t : is_full h t = false -> exists t', SessionFlows_insert h l t = (true, t').
Proof.
  unfold is_full. rewrite negb_false_iff, existsb_exists. intros (e & He & Hr). apply list_elem_of_In in He.
  destruct (reclaimable_room h t e He Hr) as [_ Hi]. specialize (Hi l).
  destruct (SessionFlows_insert h l t) as [ok t']. cbn in Hi. subst ok. by exists t'.
Qed.

(* ------------------------------------------------------------------ *)
(** ** Following the connection *)

Lemma registry_remove_heap w h id : tables_ok w -> heap_le (w_heap w) h -> registry_remove h id (w_reg w) = registry_remove (w_heap w) id (w_reg w).
Proof. intros ((Hi & _) & _) Hle. apply registry_remove_le; [apply Hi | done]. Qed.

Lemma call_closed l h b : h !! l = Some b -> fb_state (call mark_closed l h !!! l) = CLOSED.
Proof. intros Hb. unfold call. rewrite lookup_total_alt, lookup_alter_eq, Hb. done. Qed.

(** Closing a binding of the association through its table. *)
Lemma close_flow_step w sess l : tables_ok w -> entry_ok w sess l -> world_step w (close_flow w l).
Proof.
  intros Ho (b & Hb & Hs & Hc). unfold close_flow. set (h := call mark_closed l (w_heap w)). assert (Hle : heap_le (w_heap w) h) by apply close_le.
  destruct (heap_le_lookup _ _ _ _ Hle Hb) as (b' & _ & Et & E1 & _). rewrite Et, E1, registry_remove_heap by done.
  destruct (r_map (w_reg w) !! fb_wire_id b) as [l'|] eqn:E.
  - apply (step_remove w (fb_wire_id b) l'); try done. destruct (wire_id_server_owned (fb_wire_id b)) eqn:Eo; [by left|right].
    destruct (Hc eq_refl) as [_ [Hr|[Hr _]]]; [|congruence]. assert (l' = l) as -> by congruence. by eapply call_closed.
  - rewrite registry_remove_none by done. by apply step_heap.
Qed.

Lemma close_flows_step ls sess : forall w, tables_ok w -> Forall (entry_ok w sess) ls -> world_step w (close_flows ls w).
Proof.
  induction ls as [|l ls IH]; intros w Ho Hf; [by apply world_step_refl|]. apply list.Forall_cons in Hf as [Hl Hf].
  pose proof (close_flow_step w sess l Ho Hl) as H1. eapply world_step_trans; [done | exact H1|]. apply (IH (close_flow w l)); [apply H1|].
  eapply list.Forall_impl; [exact Hf|]. intros x. by apply entry_step.
Qed.

(* ------------------------------------------------------------------ *)
(** ** The flow of a payload *)

Section Uplink.
Context {BU : Build} {Conn : Type} `{DatagramConn Conn} `{QuicConn Conn}.
Implicit Types s : Client Conn.

Definition tables s : Flow.World := cn_flows (cl_conn s).

(** What choosing a flow leaves alone. *)
Record same_but_flows s s' : Prop := mkSameButFlows {
  sb_drain : cl_drain s' = cl_drain s;
  sb_frag : cl_frag s' = cl_frag s;
  sb_batch : up_stage_batch (cl_up s') = up_stage_batch (cl_up s) /\ up_stage_batch_bytes (cl_up s') = up_stage_batch_bytes (cl_up s);
  sb_pending : up_pending (cl_up s') = up_pending (cl_up s);
  sb_epoch : up_epoch (cl_up s') = up_epoch (cl_up s) /\ cn_epoch (cl_conn s') = cn_epoch (cl_conn s);
  sb_closed : up_closed (cl_up s') = up_closed (cl_up s);
  sb_wire : cn_wire (cl_conn s') = cn_wire (cl_conn s);
  sb_window : cn_window (cl_conn s') = cn_window (cl_conn s);
  sb_limit : cn_max_frame_bytes (cl_conn s') = cn_max_frame_bytes (cl_conn s);
  sb_counts : cl_over_cap s' = cl_over_cap s /\ cl_no_egress s' = cl_no_egress s
}.

#[export] Instance same_but_flows_preorder : PreOrder same_but_flows.
Proof.
  split; [by split|]. intros a b c [A1 A2 [A3 A3'] A4 [A5 A5'] A6 A7 A8 A9 [A10 A10']] [B1 B2 [B3 B3'] B4 [B5 B5'] B6 B7 B8 B9 [B10 B10']].
  split; try split; congruence.
Qed.

(** A step of the tables and of the association's own table. *)
Record flow_step (sess : Z) s s' : Prop := mkFlowStep {
  fs_same : same_but_flows s s';
  fs_world : world_step (tables s) (tables s');
  fs_assoc : assoc_ok (tables s') sess (cl_up s')
}.

Lemma flow_step_trans sess a b c : tables_ok (tables a) -> flow_step sess a b -> flow_step sess b c -> flow_step sess a c.
Proof.
  intros Ho [A1 A2 A3] [B1 B2 B3]. split; [by etrans | by eapply world_step_trans | done].
Qed.

(** The binding that [ensure_binding] answers. *)
Definition bound_ok (sess : Z) (addr : TargetAddr) (l : Arc) s : Prop :=
  exists b, heap s !! l = Some b /\ fb_session b = sess /\ fb_target b = addr /\ fb_state b <> CLOSED /\
    (client_id (fb_wire_id b) -> r_map (registry s) !! fb_wire_id b = Some l).

Lemma not_closed_state b : not_closed b = true <-> fb_state b <> CLOSED.
Proof.
  unfold not_closed, binding_state, FlowState_from_u8. rewrite negb_true_iff, bool_decide_eq_false. cbn.
  destruct (fb_state b =? 1) eqn:E1; [zbool; rewrite E1; done|]. destruct (fb_state b =? 2) eqn:E2; zbool; [rewrite E2; naive_solver|]. naive_solver.
Qed.

Lemma entry_bound sess addr l s : entry_ok (tables s) sess l -> fb_target (heap s !!! l) = addr -> not_closed (heap s !!! l) = true ->
  bound_ok sess addr l s.
Proof.
  intros (b & Hb & Hs & Hc) Ht Hn. change (w_heap (tables s)) with (heap s) in Hb. rewrite (lookup_total_some _ _ _ Hb) in *. apply not_closed_state in Hn.
  exists b. split_and!; try done. intros Hcl. destruct (Hc Hcl) as [_ [?|[_ ?]]]; done.
Qed.

(** Putting a binding in the table and in the memo. *)
Lemma bind_ok sess addr l s s' : assoc_ok (tables s) sess (cl_up s) -> entry_ok (tables s) sess l -> fb_target (heap s !!! l) = addr ->
  bind addr l s = Some s' -> same_but_flows s s' /\ cl_conn s' = cl_conn s /\ assoc_ok (tables s') sess (cl_up s').
Proof.
  intros [He Hl] Hk Ht. unfold bind. destruct (SessionFlows_insert _ _ _) as [[|] t] eqn:E; [|done]. intros [= <-]. split_and!; [by split | done|].
  split; cbn.
  - rewrite list.Forall_forall in *. intros x Hx. destruct (insert_elems _ _ _ _ E x Hx) as [?| ->]; [by apply He | done].
  - intros a x [= <- <-]. by split.
Qed.

(** Why a payload has to be sent inline. *)
Definition refused (addr : TargetAddr) (now : Z) s s' : Prop :=
  is_full (heap s') (up_flows (cl_up s')) = true \/ (is_rejected addr now (cn_rejected (cl_conn s))).1 = true \/
  no_room (cn_wire (cl_conn s')) (tables s') = true.

(** What choosing a flow gives: a binding, the old ids or one new one; or none,
    for one of the reasons, and no id is spent. *)
Definition ensured (sess : Z) (addr : TargetAddr) (now : Z) s (o : option Arc) s' : Prop :=
  flow_step sess s s' /\
  match o with
  | Some l => bound_ok sess addr l s' /\
      (w_ids (tables s') = w_ids (tables s) \/
       heap s !! l = None /\ heap s' !! l = Some (FlowBinding_new (next_wire_id (w_ids (tables s))) sess addr) /\
       fi_next (w_ids (tables s')) = fi_next (w_ids (tables s)) + 1)
  | None => w_ids (tables s') = w_ids (tables s) /\ refused addr now s s'
  end.

Lemma tables_set_world f s : tables (set_world f s) = f.
Proof. done. Qed.

Lemma is_full_insert h l b t : (forall x, x ∈ flows_iter t -> is_Some (h !! x)) -> h !! l = None -> is_full h t = false -> is_full (<[l := b]> h) t = false.
Proof.
  intros Hin Hl. unfold is_full. rewrite !negb_false_iff, !existsb_exists. intros (e & He & Hr). exists e. split; [done|].
  destruct e as [x|]; [|done]. cbn in *. destruct (Hin x) as [bx Hx]; [apply flows_iter_elem, list_elem_of_In, He|].
  rewrite lookup_total_insert_ne; [done|]. intros ->. congruence.
Qed.

Lemma assoc_present w sess u : assoc_ok w sess u -> forall x, x ∈ flows_iter (up_flows u) -> is_Some (w_heap w !! x).
Proof. intros [He _] x Hx. rewrite list.Forall_forall in He. destruct (He x Hx) as (b & Hb & _). by exists b. Qed.

Lemma open_new_spec sess addr s : tables_ok (tables s) -> assoc_ok (tables s) sess (cl_up s) -> is_full (heap s) (up_flows (cl_up s)) = false ->
  exists o s', open_new sess addr s = (o, s') /\ flow_step sess s s' /\
    match o with
    | Some l => bound_ok sess addr l s' /\ heap s !! l = None /\
        heap s' !! l = Some (FlowBinding_new (next_wire_id (w_ids (tables s))) sess addr) /\ fi_next (w_ids (tables s')) = fi_next (w_ids (tables s)) + 1
    | None => s' = s /\ no_room (cn_wire (cl_conn s)) (tables s) = true
    end.
Proof.
  intros Ho Ha Hf. pose proof (flow_step_refl := mkFlowStep sess s s ltac:(by split) (world_step_refl _ Ho) Ha). unfold open_new.
  destruct (has_capacity (registry s)) eqn:Ec; cbn [negb].
  2:{ exists None, s. split_and!; try done. unfold no_room. apply orb_true_iff. left. unfold has_capacity in Ec. change (w_reg (tables s)) with (registry s). zbool. lia. }
  pose proof (step_insert_new (cn_wire (cl_conn s)) sess addr (tables s) Ho) as Hst. unfold tables in Hst at 2.
  pose proof (insert_new_for_spec (cn_wire (cl_conn s)) sess addr (tables s) (proj1 Ho)) as E. unfold tables in E at 1. rewrite E in *. clear E.
  destruct (no_room _ (tables s)) eqn:En; cbn [fst snd] in Hst.
  { exists None, s. split; [|split; done]. unfold set_world, with_flows, tables. by destruct s as [[] ? ? ? ?]. }
  cbv zeta in *. set (l := fresh (dom (w_heap (tables s)))) in *. cbn [snd] in Hst.
  assert (Hl : heap s !! l = None) by apply not_elem_of_dom, is_fresh.
  set (w' := opened l sess addr (tables s)) in *.
  assert (Hb' : w_heap w' !! l = Some (FlowBinding_new (next_wire_id (w_ids (tables s))) sess addr)) by apply lookup_insert_eq.
  assert (Hk : entry_ok w' sess l).
  { apply entry_registered; [apply Hst | | by rewrite (lookup_total_some _ _ _ Hb')]. exists (next_wire_id (w_ids (tables s))). apply lookup_insert_eq. }
  assert (Ha' : assoc_ok w' sess (cl_up s)) by by eapply table_step.
  destruct (insert_not_full (w_heap w') l (up_flows (cl_up s))) as [t Ht].
  { apply is_full_insert; [by apply (assoc_present (tables s) sess) | done | done]. }
  destruct (bind addr l (set_world w' s)) as [s'|] eqn:Eb; [|unfold bind in Eb; change (heap (set_world w' s)) with (w_heap w') in Eb; cbn [cl_up set_world set_conn] in Eb; by rewrite Ht in Eb].
  destruct (bind_ok sess addr l (set_world w' s) s' Ha' Hk) as (B1 & B2 & B3); [change (heap (set_world w' s)) with (w_heap w'); by rewrite (lookup_total_some _ _ _ Hb') | done|].
  assert (Etab : tables s' = w') by (unfold tables; by rewrite B2).
  exists (Some l), s'. split; [done|]. split.
  - split; [etrans; [|exact B1]; by split | by rewrite Etab | done].
  - split_and!; try done.
    + exists (FlowBinding_new (next_wire_id (w_ids (tables s))) sess addr). unfold heap, registry. fold (tables s'). rewrite Etab.
      split_and!; try done. intros _. cbn. apply lookup_insert_eq.
    + unfold heap. fold (tables s'). by rewrite Etab.
    + by rewrite Etab.
Qed.

(** A closed binding leaves the registry, or a server's. *)
Lemma set_registry_step s id l : tables_ok (tables s) -> r_map (registry s) !! id = Some l ->
  wire_id_server_owned id = true \/ fb_state (heap s !!! l) = CLOSED ->
  world_step (tables s) (tables (set_registry (registry_remove (heap s) id (registry s)).2 s)).
Proof. intros Ho Hl Hc. by apply (step_remove (tables s) id l (heap s)). Qed.

Lemma set_rejected_step sess l s : tables_ok (tables s) -> assoc_ok (tables s) sess (cl_up s) ->
  flow_step sess s (set_conn (with_rejected l (cl_conn s)) s).
Proof. intros Ho Ha. split; [by split | by apply world_step_refl | done]. Qed.

Lemma ensured_after sess addr now s s1 o s' : tables_ok (tables s) -> flow_step sess s s1 -> cn_rejected (cl_conn s1) = cn_rejected (cl_conn s) \/ o <> None ->
  heap s1 = heap s -> w_ids (tables s1) = w_ids (tables s) -> ensured sess addr now s1 o s' -> ensured sess addr now s o s'.
Proof.
  intros Ho Hs Hr Hh Hi [He Hm]. split; [by eapply flow_step_trans|]. rewrite Hi in Hm. rewrite Hh in Hm. destruct o as [l|]; [done|].
  destruct Hr as [Hr|]; [|done]. unfold refused in *. by rewrite <- Hr.
Qed.

(** From the capacity check on, with the table known not to be full. *)
Lemma open_new_ensured sess addr now s : tables_ok (tables s) -> assoc_ok (tables s) sess (cl_up s) -> is_full (heap s) (up_flows (cl_up s)) = false ->
  ensured sess addr now s (open_new sess addr s).1 (open_new sess addr s).2.
Proof.
  intros Ho Ha Hf. destruct (open_new_spec sess addr s Ho Ha Hf) as (o & s' & -> & Hs & Hm). cbn [fst snd]. split; [done|].
  destruct o as [l|]; [naive_solver|]. destruct Hm as [-> Hn]. split; [done|]. right. by right.
Qed.

Lemma found_server_flow h sess addr r l : reg_core h r -> find_server_flow h sess addr r = Some l -> exists b,
  h !! l = Some b /\ r_map r !! fb_wire_id b = Some l /\ wire_id_server_owned (fb_wire_id b) = true /\ fb_session b = sess /\ fb_target b = addr.
Proof.
  intros Hc. unfold find_server_flow. case_match; [done|]. intros Hl. apply List.find_some in Hl as [Hin Hf].
  apply list_elem_of_In, list_elem_of_fmap in Hin as ([id l0] & -> & Hin). apply elem_of_map_to_list in Hin.
  destruct (rc_live _ _ Hc _ _ Hin) as (b & Hb & Hid). cbn in *. exists b. rewrite (lookup_total_some _ _ _ Hb) in Hf.
  apply andb_true_iff in Hf as [[Ho Hs]%andb_true_iff Ht]. rewrite Hid in *. split_and!; try done; [by zbool | by case_bool_decide].
Qed.

Lemma reuse_or_open_spec sess addr now s : tables_ok (tables s) -> assoc_ok (tables s) sess (cl_up s) ->
  ensured sess addr now s (reuse_or_open sess addr now s).1 (reuse_or_open sess addr now s).2.
Proof.
  intros Ho Ha. pose proof (mkFlowStep sess s s ltac:(by split) (world_step_refl _ Ho) Ha) as Hrefl. unfold reuse_or_open.
  destruct (is_full (heap s) (up_flows (cl_up s))) eqn:Ef; [split; [done|]; split; [done | by left]|].
  destruct (is_rejected addr now (cn_rejected (cl_conn s))) as [rej lr] eqn:Er. set (s1 := set_conn (with_rejected lr (cl_conn s)) s).
  pose proof (set_rejected_step sess lr s Ho Ha) as Hs1. fold s1 in Hs1.
  destruct rej; [split; [done|]; split; [done | right; left; by rewrite Er]|].
  assert (Hgo : forall s2, flow_step sess s1 s2 -> heap s2 = heap s -> w_ids (tables s2) = w_ids (tables s) -> up_flows (cl_up s2) = up_flows (cl_up s) ->
    ensured sess addr now s (open_new sess addr s2).1 (open_new sess addr s2).2).
  { intros s2 Hs2 Hh Hi Hu. pose proof (flow_step_trans sess s s1 s2 Ho Hs1 Hs2) as Hs12.
    assert (Ho2 : tables_ok (tables s2)) by apply Hs12. assert (Ha2 : assoc_ok (tables s2) sess (cl_up s2)) by apply Hs12.
    assert (Hf2 : is_full (heap s2) (up_flows (cl_up s2)) = false) by by rewrite Hh, Hu.
    destruct (open_new_spec sess addr s2 Ho2 Ha2 Hf2) as (o & s' & -> & Hs' & Hm). cbn [fst snd]. split; [by eapply flow_step_trans|].
    destruct o as [l|]; [rewrite Hh, Hi in Hm; naive_solver|]. destruct Hm as [-> Hn]. split; [done | right; by right]. }
  destruct (find_server_flow (heap s1) sess addr (registry s1)) as [server|] eqn:Esf;
    [|apply Hgo; try done; split; [by split | by apply world_step_refl | done]].
  change (heap s1) with (heap s) in *. change (registry s1) with (registry s) in *.
  destruct (found_server_flow _ _ _ _ _ (ri_core _ _ (proj1 (proj1 Ho))) Esf) as (b & Hb & Hr & Hown & Hsess & Htgt).
  change (w_heap (tables s)) with (heap s) in Hb. rewrite (lookup_total_some _ _ _ Hb).
  assert (Hk : entry_ok (tables s1) sess server).
  { exists b. split_and!; try done. congruence. }
  destruct (is_open b) eqn:Eo.
  - destruct (bind addr server s1) as [s'|] eqn:Eb.
    + destruct (bind_ok sess addr server s1 s' (fs_assoc _ _ _ Hs1) Hk) as (B1 & B2 & B3); [change (heap s1) with (heap s); by rewrite (lookup_total_some _ _ _ Hb) | done|].
      assert (Et : tables s' = tables s) by (unfold tables; by rewrite B2). cbn [fst snd]. split.
      * split; [etrans; [apply Hs1 | done] | rewrite Et; by apply world_step_refl | done].
      * split; [|left; by rewrite Et]. exists b. unfold heap, registry. fold (tables s'). rewrite Et. split_and!; try done.
        unfold is_open in Eo. zbool. by rewrite Eo.
    + exfalso. unfold bind in Eb. destruct (insert_not_full (heap s1) server (up_flows (cl_up s1)) Ef) as [t Ht]. by rewrite Ht in Eb.
  - case_bool_decide as Ecl; [|apply Hgo; try done; by split; [split | apply world_step_refl|]].
    apply Hgo; try done. pose proof (set_registry_step s1 (fb_wire_id b) server Ho Hr (or_introl Hown)) as Hst.
    split; [by split | exact Hst|]. by eapply table_step.
Qed.

(** The choice of a flow, whatever the tables hold. *)
Lemma ensure_binding_spec sess addr now s : tables_ok (tables s) -> assoc_ok (tables s) sess (cl_up s) ->
  ensured sess addr now s (ensure_binding sess addr now s).1 (ensure_binding sess addr now s).2.
Proof.
  intros Ho Ha. pose proof (mkFlowStep sess s s ltac:(by split) (world_step_refl _ Ho) Ha) as Hrefl. pose proof Ha as [He Hl]. unfold ensure_binding.
  destruct (memo_hit (heap s) sess addr (up_last (cl_up s))) as [l|] eqn:Em.
  { unfold memo_hit in Em. destruct (up_last (cl_up s)) as [[a l']|] eqn:El; [|done]. case_match eqn:E; [|done]. injection Em as <-.
    apply andb_true_iff in E as [[E1 E2]%andb_true_iff E3]. case_bool_decide as Ea; [|done]. subst a. destruct (Hl _ _ eq_refl) as [Hk Ht].
    split; [done|]. split; [by apply entry_bound | by left]. }
  set (s1 := set_up (with_table (up_flows (cl_up s)) None (cl_up s)) s).
  assert (Hs1 : flow_step sess s s1) by (split; [by split | by apply world_step_refl | by split]).
  destruct (find (heap s1) addr (up_flows (cl_up s1))) as [x|] eqn:Ef.
  - apply List.find_some in Ef as [Hin Ht]. apply list_elem_of_In in Hin. case_bool_decide as Ht'; [|done]. clear Ht.
    change (up_flows (cl_up s1)) with (up_flows (cl_up s)) in Hin. change (heap s1) with (heap s) in *.
    assert (Hk : entry_ok (tables s) sess x) by (rewrite list.Forall_forall in He; by apply He).
    destruct (not_closed (heap s !!! x)) eqn:En.
    + cbn [fst snd]. split.
      * split; [by split | by apply world_step_refl|]. split; [done|]. intros a y [= <- <-]. by split.
      * split; [by apply entry_bound | by left].
    + set (b := heap s !!! x) in *. set (s2 := set_up (with_table _ None _) s1).
      assert (Hs2 : flow_step sess s s2).
      { split; [by split | by apply world_step_refl|]. split; [|done]. cbn. rewrite list.Forall_forall in *. intros y Hy. apply He. by eapply remove_elems. }
      set (s3 := set_registry _ s2).
      assert (Hst : world_step (tables s2) (tables s3)).
      { subst s3. change (heap s2) with (heap s). change (registry s2) with (registry s).
        destruct (r_map (registry s) !! fb_wire_id b) as [l'|] eqn:Er; [|rewrite registry_remove_none by done; by apply (step_heap (tables s2))].
        apply (set_registry_step s2 (fb_wire_id b) l'); try done. destruct Hk as (bx & Hbx & _ & Hc). change (w_heap (tables s)) with (heap s) in Hbx.
        assert (b = bx) as -> by (subst b; by apply lookup_total_some). destruct (wire_id_server_owned (fb_wire_id bx)) eqn:Eo; [by left | right].
        destruct (Hc eq_refl) as [_ Hr]. change (w_reg (tables s)) with (registry s) in Hr. assert (l' = x) as -> by (destruct Hr as [|[]]; congruence).
        change (heap s2) with (heap s). rewrite (lookup_total_some _ _ _ Hbx). destruct (decide (fb_state bx = CLOSED)) as [|Hn]; [done|].
        apply not_closed_state in Hn. congruence. }
      assert (Hs3 : flow_step sess s s3).
      { eapply flow_step_trans; [done | exact Hs2|]. split; [by split | done | by eapply table_step; [| |apply Hs2]]. }
      eapply ensured_after; [done | exact Hs3 | by left | done | done | apply reuse_or_open_spec; apply Hs3].
  - eapply ensured_after; [done | exact Hs1 | by left | done | done | apply reuse_or_open_spec; apply Hs1].
Qed.
End Uplink.
