(* ===== verification/UplinkRun.v ===== *)
(** The client's uplink at work: every send returns, with the association's and
    the connection's invariants kept. *)
From stdpp Require Import fin_maps relations.
From S2P Require Import Prelude Addr Codec R3 R3Train R3Ctl R2 R2Train Wire Frag Partial Reasm Binding Flow FlowRun Stage StageRun Pack Drain DrainRun DnsPolicy DnsMemo Window Client Dispatch DispatchRun UplinkInv.

(* ------------------------------------------------------------------ *)
(** ** The fragmenter never panics *)

Definition flow_addr_wf (flow : R2FragFlow) : Prop :=
  match flow with Frag.Steady _ => True | Frag.Opening _ _ addr _ | Frag.Inline _ addr _ => addr_wf addr end.

Lemma require_owner_ok fid owner bad : res_ok (require_fid_owner fid owner bad) <> Panic.
Proof. unfold require_fid_owner. by repeat case_match. Qed.

Ltac np_enc := repeat np_step; first [apply header_no_panic | by eapply put_addr_no_panic | apply require_owner_ok | done].

Lemma frag_steady_no_panic w id fr idx total chunk limit : encode_frag_steady w id fr idx total chunk limit <> Panic.
Proof.
  destruct w; cbn [encode_frag_steady]; unfold R2.encode_frag_steady, R3.encode_frag_steady; repeat np_step;
    unfold R3.encode_frag_steady; repeat np_step.
Qed.

Lemma frag_open_no_panic w id sess addr src fr idx total chunk limit : addr_wf addr ->
  encode_frag_open w id sess addr src fr idx total chunk limit <> Panic.
Proof.
  intros Hwf. destruct w; cbn [encode_frag_open]; [unfold R2.encode_frag_open; np_enc|].
  repeat np_step; unfold R3.encode_frag_open, R3.encode_frag_src; np_enc.
Qed.

Lemma frag_inline_no_panic w sess addr src fr idx total chunk limit : addr_wf addr ->
  encode_frag_inline w sess addr src fr idx total chunk limit <> Panic.
Proof. intros Hwf. destruct w; cbn [encode_frag_inline]; unfold R2.encode_frag_inline, R3.encode_frag_inline; np_enc. Qed.

Definition ctx_addr_wf (h : FragHeaders) : Prop := match h_ctx h with Some (_, addr, _) => addr_wf addr | None => True end.

Lemma encode_fragment_no_panic w h fr idx total chunk limit : ctx_addr_wf h ->
  encode_fragment w (h_wire_id h) (h_ctx h) fr idx total chunk limit <> Panic.
Proof.
  unfold ctx_addr_wf, encode_fragment. intros Hh. destruct (h_wire_id h), (h_ctx h) as [[[sess addr] src]|]; try done;
    repeat case_match; auto using frag_steady_no_panic, frag_open_no_panic, frag_inline_no_panic.
Qed.

Lemma headers_ctx w flow h : flow_addr_wf flow -> headers w flow = Ok h -> ctx_addr_wf h.
Proof. unfold headers, ctx_addr_wf. intros Hf Hh. destruct w, flow; res_inv; subst h; done. Qed.

Lemma headers_no_panic w flow : headers w flow <> Panic.
Proof. unfold headers. destruct w, flow; repeat np_step; apply header_no_panic. Qed.

Lemma sub_from_take {E A} (b : list A) o : 0 <= o <= len b -> @sub_from E A b o = Ok (drop (Z.to_nat o) b).
Proof. intros Ho. unfold sub_from, slice_from. rewrite (proj2 (Z.leb_le _ _)) by lia. done. Qed.

Lemma sub_take {E A} (b : list A) n : 0 <= n <= len b -> @sub E A b 0 n = Ok (take (Z.to_nat n) b).
Proof.
  intros Hn. unfold sub, slice. rewrite (proj2 (Z.leb_le 0 n)), (proj2 (Z.leb_le n (len b))) by lia. cbn. by rewrite Z.sub_0_r.
Qed.

Section Send.
Context {BU : Build} {Conn : Type} `{DatagramConn Conn}.

Lemma send_frames_returns h p fr limit payload : ctx_addr_wf h -> 0 <= p_first_chunk p -> 0 <= p_rest_chunk p ->
  forall n idx frames offset (s : Frag.World Conn), 0 <= offset <= len payload ->
  exists r s', send_frames n idx h p fr limit payload frames offset s = Ok (r, s').
Proof.
  intros Hh H1 H2. induction n as [|n IH]; intros idx frames offset s Ho; cbn [send_frames]; [by eexists _, _|].
  rewrite sub_from_take by lia. cbn [res_bind]. set (rem := drop (Z.to_nat offset) payload).
  assert (Hrem : len rem = len payload - offset) by (subst rem; rewrite len_drop; lia).
  set (cl := if idx =? 0 then Z.min (p_first_chunk p) (len rem) else Z.min (p_rest_chunk p) (len rem)).
  assert (Hcl : 0 <= cl <= len rem) by (subst cl; case_match; lia). rewrite sub_take by lia. cbn [res_bind].
  pose proof (encode_fragment_no_panic (fr_wire (w_frag s)) h fr idx (p_total p) (take (Z.to_nat cl) rem) limit Hh) as He.
  destruct (encode_fragment _ _ _ _ _ _ _ _) as [body| |] eqn:E; [|by eexists _, _ | done].
  destruct (try_send_datagram (w_conn s) body) as [[] conn]; try by eexists _, _. apply IH. lia.
Qed.

Lemma frag_send_returns limit flow payload (s : Frag.World Conn) : flow_addr_wf flow -> exists r s', Frag.send limit flow payload s = Ok (r, s').
Proof.
  intros Hf. unfold Frag.send. pose proof (headers_no_panic (fr_wire (w_frag s)) flow) as Hn.
  destruct (headers _ flow) as [h| |] eqn:Eh; [|by eexists _, _ | done].
  destruct (FragPlan_new _ _ _ _) as [p|] eqn:Ep; [|by eexists _, _]. case_match; [by eexists _, _|].
  apply plan_spec in Ep as (Hok & _); [|apply len_nonneg]. destruct Hok. apply send_frames_returns; try lia; [by eapply headers_ctx|].
  pose proof (len_nonneg payload). lia.
Qed.
End Send.

(* ------------------------------------------------------------------ *)
(** ** The invariant of an association on its connection *)

Definition batch_item_ok (sess : Z) (i : R2StageItem) : Prop :=
  item_wf i /\ si_session i = sess /\ len (si_payload i) <= BATCH_SMALL_MAX.

(** The client stages small payloads only. *)
Lemma batch_staged {BU : Build} sess i : batch_item_ok sess i -> staged_wf i.
Proof. intros (Hw & _ & Hl). split; [done|]. intros _. unfold plen, BATCH_SMALL_MAX in *. lia. Qed.

(** The batch holds less than a train, its byte counter is exact. *)
Record batch_ok (sess : Z) (u : UplinkFlows) : Prop := mkBatchOk {
  ba_items : Forall (batch_item_ok sess) (up_stage_batch u);
  ba_bytes : up_stage_batch_bytes u = payload_sum (up_stage_batch u);
  ba_len : len (up_stage_batch u) < R2_MAX_TRAIN_ITEMS
}.

(** The hold is within its bounds, its counter is exact, its payloads are in the
    order they came. *)
Definition held_bytes (l : list HeldPayload) : Z := foldr (fun i acc => len (hp_payload i) + acc) 0 l.

Record hold_ok (p : UplinkPending) : Prop := mkHoldOk {
  ho_bytes : pd_bytes p = held_bytes (pd_items p);
  ho_max : pd_bytes p <= PENDING_MAX_BYTES;
  ho_len : len (pd_items p) <= PENDING_MAX_ITEMS;
  ho_wf : Forall (fun i => addr_wf (hp_target i)) (pd_items p)
}.

Section Run.
Context {BU : Build} {Conn : Type} `{DatagramConn Conn} `{QuicConn Conn}.
Implicit Types s : Client Conn.

Record client_ok (sess : Z) s : Prop := mkClientOk {
  co_tables : tables_ok (tables s);
  co_drain : DrainRun.world_ok (cl_drain s);
  co_batch : batch_ok sess (cl_up s);
  co_hold : hold_ok (up_pending (cl_up s));
  co_assoc : up_epoch (cl_up s) = cn_epoch (cl_conn s) -> assoc_ok (tables s) sess (cl_up s)
}.

(** What the sending half of an operation leaves alone: everything but the
    stager, the connection, the batch, the fragmenter and the counters. *)
Record out_step s s' : Prop := mkOutStep {
  os_flows : cn_flows (cl_conn s') = cn_flows (cl_conn s);
  os_epoch : cn_epoch (cl_conn s') = cn_epoch (cl_conn s);
  os_wire : cn_wire (cl_conn s') = cn_wire (cl_conn s);
  os_table : up_flows (cl_up s') = up_flows (cl_up s) /\ up_last (cl_up s') = up_last (cl_up s) /\ up_epoch (cl_up s') = up_epoch (cl_up s);
  os_pending : up_pending (cl_up s') = up_pending (cl_up s) /\ up_closed (cl_up s') = up_closed (cl_up s)
}.

#[export] Instance out_step_preorder : PreOrder out_step.
Proof.
  split; [by split|]. intros a b c [A1 A2 A3 (A4 & A5 & A6) (A7 & A8)] [B1 B2 B3 (B4 & B5 & B6) (B7 & B8)]. split; split_and?; congruence.
Qed.

Lemma out_client sess s s' : client_ok sess s -> out_step s s' -> DrainRun.world_ok (cl_drain s') -> batch_ok sess (cl_up s') -> client_ok sess s'.
Proof.
  intros [C1 C2 C3 C4 C5] [E1 E2 E3 (E4 & E5 & E6) (E7 & E8)] Hd Hb. split; unfold tables; rewrite ?E1, ?E7; try done.
  rewrite E2, E6. intros He. destruct (C5 He) as [T1 T2]. split; rewrite ?E4, ?E5; done.
Qed.

(** An operation on the stager and the connection only. *)
Definition drain_step s s' : Prop := out_step s s' /\ up_stage_batch (cl_up s') = up_stage_batch (cl_up s) /\
  up_stage_batch_bytes (cl_up s') = up_stage_batch_bytes (cl_up s) /\ DrainRun.world_ok (cl_drain s').

Lemma drain_client sess s s' : client_ok sess s -> drain_step s s' -> client_ok sess s'.
Proof.
  intros C (O & E1 & E2 & Hd). apply (out_client sess s); try done. destruct (co_batch _ _ C). split; by rewrite ?E1, ?E2.
Qed.

Lemma drain_step_trans a b c : drain_step a b -> drain_step b c -> drain_step a c.
Proof. intros (O1 & E1 & E2 & _) (O2 & F1 & F2 & Hd). split_and!; [by etrans | congruence | congruence | done]. Qed.

Lemma set_drain_step d s : DrainRun.world_ok d -> drain_step s (set_drain d s).
Proof. intros Hd. split; [by split | done]. Qed.

Lemma book_ok f (d : Drain.World Conn) : (forall x, drops_u64 x -> drops_u64 (f x)) -> DrainRun.world_ok d -> DrainRun.world_ok (Drain.with_drops (f (lk_drops (dn_link d))) d).
Proof. intros Hf [W1 W2 W3 W4 W5]. split; cbn; auto. Qed.

Lemma book_step f s : (forall x, drops_u64 x -> drops_u64 (f x)) -> DrainRun.world_ok (cl_drain s) -> drain_step s (book f s).
Proof. intros Hf Hd. by apply set_drain_step, book_ok. Qed.

Lemma buffer_full_u64 n x : drops_u64 x -> drops_u64 (book_buffer_full n x).
Proof. done. Qed.
Lemma egress_dead_u64 n x : drops_u64 x -> drops_u64 (book_egress_dead n x).
Proof. done. Qed.

Lemma lock_stager_returns s : DrainRun.world_ok (cl_drain s) -> exists s', lock_stager s = Ok s' /\ drain_step s s'.
Proof.
  intros Hd. unfold lock_stager. destruct (others_turn_spec _ Hd) as (held & d' & -> & Hd' & _). cbn [res_bind].
  eexists. split; [reflexivity|]. by apply set_drain_step.
Qed.

Lemma calls_ok c (d : Drain.World Conn) : DrainRun.world_ok d -> DrainRun.world_ok (Drain.mkWorld (dn_link d) (dn_stage d) (dn_env d) c).
Proof. intros []. by split. Qed.

Lemma notify_step s : DrainRun.world_ok (cl_drain s) -> drain_step s (set_conn (notify_retry (cl_conn s)) s).
Proof. intros Hd. split; [by split | done]. Qed.

Lemma drain_stage_returns limit s : DrainRun.world_ok (cl_drain s) -> exists out s', drain_stage limit s = Ok (out, s') /\ drain_step s s'.
Proof.
  intros Hd. unfold drain_stage. destruct (drain_inner_spec limit false false _ (calls_ok [] _ Hd)) as (r & d1 & ts & E & L).
  destruct (ld_some _ _ _ _ _ _ _ _ L eq_refl) as [out ->]. unfold drain_staged. rewrite E. cbn [res_bind].
  set (s1 := book _ _). assert (H1 : drain_step s s1).
  { eapply drain_step_trans; [apply set_drain_step, (calls_ok []), L|]. apply book_step; [apply buffer_full_u64 | apply (calls_ok []), L]. }
  assert (Hd1 : DrainRun.world_ok (cl_drain s1)) by apply H1.
  destruct (others_turn_spec (cl_drain s1) Hd1) as (held & d2 & E2 & Hd2 & _). rewrite E2. cbn [res_bind].
  pose proof (drain_step_trans _ _ _ H1 (set_drain_step d2 s1 Hd2)) as H2. eexists _, _. split; [reflexivity|].
  case_match; [|done]. eapply drain_step_trans; [exact H2 | by apply notify_step].
Qed.

Lemma drain_conn_stage_returns limit s : DrainRun.world_ok (cl_drain s) -> exists r s', drain_conn_stage limit s = Ok (r, s') /\ drain_step s s'.
Proof.
  intros Hd. unfold drain_conn_stage. destruct (drain_stage_returns limit s Hd) as (out & s' & -> & Hs). cbn [res_bind]. by eexists _, s'.
Qed.

(* ------------------------------------------------------------------ *)
(** ** The batch *)

Lemma push_each_sub items : forall st, (push_each items st).1 `suffix_of` items.
Proof.
  induction items as [|i items IH]; intros st; cbn [push_each]; [done|]. destruct (push i st) as [r st']. case_match; cbn; try done.
  etrans; [apply IH|]. by apply suffix_cons_r.
Qed.

(** One attempt to push: what is left is the end of the batch, and nothing is
    left when the stager took it. *)
Lemma push_stage_batch_returns sess s : DrainRun.world_ok (cl_drain s) -> Forall (batch_item_ok sess) (up_stage_batch (cl_up s)) ->
  exists r s', push_stage_batch s = Ok (r, s') /\ out_step s s' /\ DrainRun.world_ok (cl_drain s') /\
    Forall (batch_item_ok sess) (up_stage_batch (cl_up s')) /\ (is_Some r -> up_stage_batch (cl_up s') = []).
Proof.
  intros Hd Hf. unfold push_stage_batch. destruct (lock_stager_returns s Hd) as (s1 & -> & O1 & E1 & _ & Hd1). cbn [res_bind].
  rewrite E1. destruct (push_batch_eq (up_stage_batch (cl_up s)) (dn_stage (cl_drain s1))) as (r & -> & Hr). cbn [res_bind].
  set (pe := push_each _ _) in *. eexists _, _. split; [reflexivity|]. cbn [cl_up set_up set_drain up_stage_batch with_batch].
  assert (Hw : DrainRun.world_ok (with_stage pe.2 (cl_drain s1))).
  { assert (Hst : Forall staged_wf (up_stage_batch (cl_up s))) by (eapply list.Forall_impl; [exact Hf | apply batch_staged]).
    assert (Hsm : Forall (fun i => stageable (plen i)) (up_stage_batch (cl_up s))) by (eapply list.Forall_impl; [exact Hst | by intros i []]).
    destruct Hd1 as [W1 W2 W3 W4 W5]. destruct (push_each_inv (up_stage_batch (cl_up s)) Hsm _ W1) as [I1 I2]. split; cbn; try done.
    - by apply push_each_wf.
    - apply same_conf_limits in I2 as [_ I2]. subst pe. by rewrite I2. }
  split_and!; try done.
  - etrans; [exact O1|]. by split.
  - pose proof (push_each_sub (up_stage_batch (cl_up s)) (dn_stage (cl_drain s1))) as [l Hl]. rewrite Hl in Hf. by apply Forall_app in Hf as [_ Hf].
  - subst r. case_bool_decide as Hn; [done | by intros [? ?]].
Qed.

Definition emptied sess s s' : Prop := out_step s s' /\ DrainRun.world_ok (cl_drain s') /\ batch_ok sess (cl_up s') /\ up_stage_batch (cl_up s') = [].

Lemma uplink_batch_nil sess u : up_stage_batch u = [] -> up_stage_batch_bytes u = 0 -> batch_ok sess u.
Proof. intros E1 E2. split; rewrite ?E1, ?E2; [constructor | done | done]. Qed.

Lemma flush_pushed_returns sess queued limit drained s : DrainRun.world_ok (cl_drain s) -> up_stage_batch (cl_up s) = [] ->
  exists r s', flush_pushed queued limit drained s = Ok (r, s') /\ emptied sess s s'.
Proof.
  intros Hd Hb. unfold flush_pushed. set (s1 := set_up _ s). assert (H1 : emptied sess s s1).
  { split_and!; try done. by apply uplink_batch_nil. }
  destruct (queued >=? R2_MAX_TRAIN_ITEMS).
  - destruct (drain_conn_stage_returns limit s1 Hd) as (r & s2 & -> & O2 & E1 & E2 & Hd2). cbn [res_bind]. eexists _, _. split; [reflexivity|].
    destruct H1 as (O1 & _). split_and!; [by etrans | done | apply uplink_batch_nil; by rewrite ?E1, ?E2 | by rewrite E1].
  - cbn [res_bind]. by eexists _, _.
Qed.

Lemma drop_stage_batch_empties sess s : DrainRun.world_ok (cl_drain s) -> emptied sess s (drop_stage_batch s).
Proof. intros Hd. split_and!; [by split | by apply book_ok | by apply uplink_batch_nil | done]. Qed.

Lemma flush_stage_returns sess limit s : DrainRun.world_ok (cl_drain s) -> Forall (batch_item_ok sess) (up_stage_batch (cl_up s)) ->
  (up_stage_batch (cl_up s) = [] -> up_stage_batch_bytes (cl_up s) = 0) ->
  exists r s', flush_stage limit s = Ok (r, s') /\ emptied sess s s'.
Proof.
  intros Hd Hf Hz. unfold flush_stage. case_bool_decide as Hn.
  { eexists _, _. split; [reflexivity|]. split_and!; try done. apply uplink_batch_nil; auto. }
  destruct (up_epoch (cl_up s) =? cn_epoch (cl_conn s)); cbn [negb].
  2:{ eexists _, _. split; [reflexivity|]. by apply drop_stage_batch_empties. }
  destruct (push_stage_batch_returns sess s Hd Hf) as (r1 & s1 & -> & O1 & Hd1 & Hf1 & E1). cbn [res_bind]. destruct r1 as [queued|].
  { destruct (flush_pushed_returns sess queued limit nothing_sent s1 Hd1 (E1 ltac:(by eexists))) as (r & s' & -> & O & ?).
    eexists _, _. split; [reflexivity|]. split; [by etrans | done]. }
  destruct (drain_conn_stage_returns limit s1 Hd1) as (rd & s2 & -> & O2 & B1 & B2 & Hd2). cbn [res_bind]. rewrite <- B1 in Hf1.
  destruct (push_stage_batch_returns sess s2 Hd2 Hf1) as (r3 & s3 & -> & O3 & Hd3 & Hf3 & E3). cbn [res_bind]. destruct r3 as [queued|].
  { destruct (flush_pushed_returns sess queued limit (prefer_severe nothing_sent rd) s3 Hd3 (E3 ltac:(by eexists))) as (r & s' & -> & O & ?).
    eexists _, _. split; [reflexivity|]. split; [by etrans; [|etrans; [|etrans]] | done]. }
  eexists _, _. split; [reflexivity|]. split_and!; [|by apply book_ok | by apply uplink_batch_nil | done].
  etrans; [exact O1|]. etrans; [exact O2|]. etrans; [exact O3|]. by split.
Qed.

Lemma flush_client sess limit s : client_ok sess s -> exists r s', flush_stage limit s = Ok (r, s') /\ out_step s s' /\ client_ok sess s'.
Proof.
  intros C. destruct (co_batch _ _ C) as [B1 B2 B3].
  destruct (flush_stage_returns sess limit s (co_drain _ _ C) B1) as (r & s' & -> & O & Hd & Hb & _); [intros E; by rewrite B2, E|].
  eexists _, _. split; [reflexivity|]. split; [done|]. by eapply out_client.
Qed.

(* ------------------------------------------------------------------ *)
(** ** Admission and staging *)

Lemma window_step q s : DrainRun.world_ok (cl_drain s) -> drain_step s (set_conn (with_window q (cl_conn s)) s).
Proof. intros Hd. split; [by split | done]. Qed.

Lemma lock_if_armed_returns mono s : DrainRun.world_ok (cl_drain s) -> exists s', lock_if_armed mono s = Ok s' /\ drain_step s s'.
Proof.
  intros Hd. unfold lock_if_armed. case_match; [by apply lock_stager_returns|]. exists s. split; [done|]. split; [by split | done].
Qed.

Lemma admit_uplink_returns mono n batched s : DrainRun.world_ok (cl_drain s) ->
  exists ok s', client_admit_uplink mono n batched s = Ok (ok, s') /\ drain_step s s'.
Proof.
  intros Hd. unfold client_admit_uplink. destruct (lock_if_armed_returns mono s Hd) as (s1 & -> & H1). cbn [res_bind].
  destruct (admit_uplink _ _ _ _) as [ok q]. eexists _, _. split; [reflexivity|]. eapply drain_step_trans; [exact H1|]. apply window_step, H1.
Qed.

Lemma admit_standalone_returns mono n s : DrainRun.world_ok (cl_drain s) ->
  exists ok s', client_admit_standalone mono n s = Ok (ok, s') /\ drain_step s s'.
Proof.
  intros Hd. unfold client_admit_standalone. destruct (lock_if_armed_returns mono s Hd) as (s1 & -> & H1). cbn [res_bind].
  destruct (admit_standalone _ _ _) as [ok q]. eexists _, _. split; [reflexivity|]. eapply drain_step_trans; [exact H1|]. apply window_step, H1.
Qed.

Lemma over_step s : DrainRun.world_ok (cl_drain s) -> drain_step s (book_over_cap s).
Proof. intros Hd. split; [by split | done]. Qed.

Lemma payload_sum_snoc l i : payload_sum (l ++ [i]) = payload_sum l + len (si_payload i).
Proof. induction l as [|x l IH]; cbn; [lia|]. unfold payload_sum in *. cbn in *. rewrite IH. lia. Qed.

Lemma batch_bytes_bound sess l : Forall (batch_item_ok sess) l -> 0 <= payload_sum l <= len l * BATCH_SMALL_MAX.
Proof.
  induction 1 as [|i l (_ & _ & Hi) _ IH]; [done|]. unfold payload_sum in *. cbn [foldr]. rewrite len_cons. pose proof (len_nonneg (si_payload i)). lia.
Qed.

Lemma stage_or_count_returns sess limit mono item s : client_ok sess s -> batch_item_ok sess item ->
  exists r s', stage_or_count limit mono item s = Ok (r, s') /\ out_step s s' /\ client_ok sess s'.
Proof.
  intros C Hi. unfold stage_or_count.
  destruct (admit_uplink_returns mono (len (si_payload item)) (up_stage_batch_bytes (cl_up s)) s (co_drain _ _ C)) as (ok & s1 & -> & H1). cbn [res_bind].
  pose proof (drain_client _ _ _ C H1) as C1. destruct ok; cbn [negb].
  2:{ eexists _, _. split; [reflexivity|]. pose proof (over_step s1 (co_drain _ _ C1)) as H2. split; [etrans; [apply H1 | apply H2] | by eapply drain_client]. }
  set (u := cl_up s1). destruct (co_batch _ _ C1) as [B1 B2 B3]. fold u in B1, B2, B3. pose proof (batch_bytes_bound _ _ B1) as Hb.
  set (s2 := set_up _ s1). assert (O2 : out_step s1 s2) by by split.
  assert (Hf2 : Forall (batch_item_ok sess) (up_stage_batch (cl_up s2))) by (cbn; apply Forall_app; split; [done | by constructor]).
  assert (Hb2 : up_stage_batch_bytes (cl_up s2) = payload_sum (up_stage_batch (cl_up s2))).
  { cbn. rewrite payload_sum_snoc, B2. destruct Hi as (_ & _ & Hi). pose proof (len_nonneg (si_payload item)). unfold saturating_add.
    rewrite Z.min_l; [done|]. unfold R2_MAX_TRAIN_ITEMS, BATCH_SMALL_MAX, usize_max in *. lia. }
  destruct (len (up_stage_batch (cl_up s2)) >=? R2_MAX_TRAIN_ITEMS) eqn:El.
  - destruct (flush_stage_returns sess limit s2 (co_drain _ _ C1) Hf2) as (r & s3 & -> & O3 & Hd3 & Hb3 & _); [intros E; by rewrite Hb2, E|].
    eexists _, _. split; [reflexivity|]. assert (O : out_step s1 s3) by by etrans. split; [by etrans; [apply H1|] | by eapply out_client].
  - eexists _, _. split; [reflexivity|]. split; [by etrans; [apply H1|]|]. eapply out_client; [exact C1 | done | apply C1|]. split; try done. zbool. lia.
Qed.

(* ------------------------------------------------------------------ *)
(** ** Standalone sends *)

(** The stage item whose frame a standalone payload gets. *)
Definition single_item (sess : Z) (addr : TargetAddr) (payload : bytes) (flow : option Z) (context : bool) : R2StageItem :=
  mkR2StageItem sess
    (match flow with
     | Some id => if negb context then KSteady id else KOpen id sess addr false
     | None => KInline sess addr false
     end) payload.

Lemma single_body_item w sess addr payload flow context limit :
  single_body w sess addr payload flow context limit = encode_standalone_item_for w (single_item sess addr payload flow context) limit.
Proof. by destruct flow, context. Qed.

Lemma single_item_wf sess addr payload flow context : addr_wf addr -> item_wf (single_item sess addr payload flow context).
Proof. by destruct flow, context. Qed.

Lemma set_quic_step c st s : DrainRun.world_ok (cl_drain s) -> drain_step s (set_quic c st s).
Proof. intros []. split; [by split|]. split_and!; [done..|by split]. Qed.

Lemma set_frag_step f s : DrainRun.world_ok (cl_drain s) -> drain_step s (set_frag f s).
Proof. intros Hd. split; [by split | done]. Qed.

Lemma drain_step_refl s : DrainRun.world_ok (cl_drain s) -> drain_step s s.
Proof. intros Hd. split; [by split | done]. Qed.

Lemma try_single_returns limit sess addr payload flow w context s : DrainRun.world_ok (cl_drain s) -> addr_wf addr ->
  exists r s', try_single_data limit sess addr payload flow w context s = Ok (r, s') /\ drain_step s s'.
Proof.
  intros Hd Hwf. unfold try_single_data. rewrite single_body_item.
  pose proof (standalone_no_panic w _ limit (single_item_wf sess addr payload flow context Hwf)) as Hn.
  destruct (encode_standalone_item_for _ _ _) as [body| |]; [|eexists _, _; split; [reflexivity | by apply drain_step_refl] | done].
  destruct (try_send_datagram (quic s) body) as [[] conn]; (eexists _, _; split; [reflexivity | by apply set_quic_step]).
Qed.

Lemma client_frag_returns limit flow payload s : DrainRun.world_ok (cl_drain s) -> flow_addr_wf flow ->
  exists r s', frag_send limit flow payload s = Ok (r, s') /\ drain_step s s'.
Proof.
  intros Hd Hf. unfold frag_send. destruct (frag_send_returns limit flow payload (Frag.mkWorld (cl_frag s) (quic s) (lk_stats (dn_link (cl_drain s)))) Hf) as (r & f & ->).
  cbn [res_bind]. eexists _, _. split; [reflexivity|]. eapply drain_step_trans; [by apply set_quic_step|]. by apply set_frag_step, set_quic_step.
Qed.

Lemma frag_flow_wf sess addr flow context : addr_wf addr -> flow_addr_wf (frag_flow sess addr flow context).
Proof. by destruct flow, context. Qed.

Lemma send_standalone_returns limit sess addr payload flow w context s : DrainRun.world_ok (cl_drain s) -> addr_wf addr ->
  exists r s', send_standalone limit sess addr payload flow w context s = Ok (r, s') /\ drain_step s s'.
Proof.
  intros Hd Hwf. unfold send_standalone. destruct (try_single_returns limit sess addr payload flow w context s Hd Hwf) as (r & s1 & -> & H1). cbn [res_bind].
  destruct (client_frag_returns limit (frag_flow sess addr flow context) payload s1) as (r2 & s2 & E & H2); [apply H1 | by apply frag_flow_wf|].
  assert (Hf : drain_step s s2) by by eapply drain_step_trans.
  destruct r as [sent|]; [destruct (final_verdict sent)|]; rewrite ?E; by eexists _, _.
Qed.

Lemma flush_and_drain_returns sess limit s : client_ok sess s -> exists r s', flush_and_drain limit s = Ok (r, s') /\ out_step s s' /\ client_ok sess s'.
Proof.
  intros C. unfold flush_and_drain. destruct (flush_client sess limit s C) as (r1 & s1 & -> & O1 & C1). cbn [res_bind].
  destruct (drain_conn_stage_returns limit s1 (co_drain _ _ C1)) as (r2 & s2 & -> & H2). cbn [res_bind]. eexists _, _. split; [reflexivity|].
  split; [etrans; [exact O1 | apply H2] | by eapply drain_client].
Qed.

Lemma send_large_returns limit mono sess addr payload flow context s : client_ok sess s -> addr_wf addr ->
  exists r s', send_large limit mono sess addr payload flow context s = Ok (r, s') /\ out_step s s' /\ client_ok sess s'.
Proof.
  intros C Hwf. unfold send_large. destruct (flush_and_drain_returns sess limit s C) as (r1 & s1 & -> & O1 & C1). cbn [res_bind].
  destruct (admit_standalone_returns mono (len payload) s1 (co_drain _ _ C1)) as (ok & s2 & -> & H2). cbn [res_bind].
  pose proof (drain_client _ _ _ C1 H2) as C2.
  assert (exists r s', (if ok then send_standalone limit sess addr payload flow (cn_wire (cl_conn s2)) context s2 else Ok (over_queue_window s2)) = Ok (r, s') /\ drain_step s2 s')
    as (r3 & s3 & -> & H3).
  { destruct ok; [apply send_standalone_returns; [apply C2 | done]|]. eexists _, _. split; [reflexivity | apply over_step, C2]. }
  cbn [res_bind]. eexists _, _. split; [reflexivity|]. split; [|by eapply drain_client].
  etrans; [exact O1|]. etrans; [apply H2 | apply H3].
Qed.

(* ------------------------------------------------------------------ *)
(** ** Following the connection *)

Record synced (sess : Z) s s' : Prop := mkSynced {
  sy_client : client_ok sess s';
  sy_epoch : up_epoch (cl_up s') = cn_epoch (cl_conn s');
  sy_closed : up_closed (cl_up s') = false;
  sy_world : world_step (tables s) (tables s');
  sy_pending : up_pending (cl_up s') = up_pending (cl_up s);
  sy_conn : cn_epoch (cl_conn s') = cn_epoch (cl_conn s) /\ cn_wire (cl_conn s') = cn_wire (cl_conn s) /\ cn_rejected (cl_conn s') = cn_rejected (cl_conn s);
  sy_table : up_epoch (cl_up s) <> cn_epoch (cl_conn s) \/ up_closed (cl_up s) = true ->
    flows_iter (up_flows (cl_up s')) = [] /\ up_last (cl_up s') = None /\ up_stage_batch (cl_up s') = []
}.

Lemma flows_iter_new : flows_iter SessionFlows_new = [].
Proof. reflexivity. Qed.

Lemma fresh_assoc w sess u : up_flows u = SessionFlows_new -> up_last u = None -> assoc_ok w sess u.
Proof. intros E1 E2. split; rewrite ?E1, ?E2, ?flows_iter_new; [constructor | done]. Qed.

Lemma sync_spec sess s : client_ok sess s -> synced sess s (sync s).
Proof.
  intros [C1 C2 C3 C4 C5]. unfold sync. cbn [take_closed].
  destruct (up_epoch (cl_up s) =? cn_epoch (cl_conn s)) eqn:Ee; cbn [negb up_epoch cl_conn set_up]; rewrite Ee; cbn [negb]; zbool.
  - pose proof (C5 Ee) as Ha. destruct (up_closed (cl_up s)) eqn:Ec.
    + pose proof (close_flows_step (flows_iter (up_flows (cl_up s))) sess (tables s) C1 (tb_entries _ _ _ Ha)) as Hst.
      split; try done; cbn; auto. split; try done; first [apply Hst | by apply book_ok | by apply uplink_batch_nil | intros _; by apply fresh_assoc].
    + split; try done; [|by apply world_step_refl | intros [?|?]; congruence].
      split; try done; first [by destruct C3; split | intros _; by destruct Ha; split].
  - split; try done; [|by apply world_step_refl]. split; try done; first [by apply book_ok | by apply uplink_batch_nil | intros _; by apply fresh_assoc].
Qed.

(* ------------------------------------------------------------------ *)
(** ** The route of a payload *)

(** The wire id and whether the frame carries its context, or none: inline. *)
Definition route (sess : Z) (addr : TargetAddr) (now : Z) s : option (Z * bool) * Client Conn :=
  match ensure_binding sess addr now s with
  | (None, s) => (None, s)
  | (Some l, s) =>
      let '(hs, s) := is_handshake_done s in
      let '(context, s) := uses_binding_context l hs s in
      (Some (fb_wire_id (heap s !!! l), context), s)
  end.

Definition on_route (limit mono sess : Z) (addr : TargetAddr) (payload : bytes) (r : option (Z * bool)) s : res unit (PayloadSend * Client Conn) :=
  let context := default false (snd <$> r) in
  if len payload <=? BATCH_SMALL_MAX then stage_or_count limit mono (single_item sess addr payload (fst <$> r) context) s
  else send_large limit mono sess addr payload (fst <$> r) context s.

Definition prepare s : Client Conn := let s := sync s in set_frag (set_wire (cn_wire (cl_conn s)) (cl_frag s)) s.

Lemma send_uplink_route ck conn_limit sess addr payload s : send_uplink ck conn_limit sess addr payload s =
  let s := prepare s in
  let limit := frame_limit conn_limit (cl_conn s) in
  match header addr with
  | Ok _ => let '(r, s) := route sess addr (ck_coarse ck) s in on_route limit (ck_mono ck) sess addr payload r s
  | _ => let! '(before, s) := flush_and_drain limit s in let '(bad, s) := bad_address_header s in Ok (prefer_severe before bad, s)
  end.
Proof.
  unfold send_uplink, prepare, route, on_route. cbv zeta. destruct (header addr); try done.
  destruct (ensure_binding _ _ _ _) as [[l|] s1].
  - destruct (is_handshake_done s1) as [hs s2]. destruct (uses_binding_context l hs s2) as [context s3]. cbn. by destruct context, (_ <=? _).
  - rewrite Z.gtb_ltb. cbn. destruct (len payload <=? BATCH_SMALL_MAX) eqn:E1, (BATCH_SMALL_MAX <? len payload) eqn:E2; try done; zbool; lia.
Qed.

(** How the context of a frame is chosen, from the binding before. *)
Definition context_choice (w : Wire) (hs : bool) (b b' : FlowBinding) (context : bool) : Prop :=
  match w with
  | Rev2 => b' = b /\ context = negb (fb_state b =? OPEN)
  | Rev3 =>
      if negb hs then b' = b /\ context = true
      else if fb_state b =? OPENING then
        context = true /\ b' = if fb_context_left b <=? 1 then store Ccontext_left 0 (store Cstate OPEN b) else store Ccontext_left (fb_context_left b - 1) b
      else context = false /\ b' = b
  end.

Definition handshaken s : bool := cn_handshake_done (cl_conn s) || handshake_data (quic s).

Lemma handshake_spec sess s : tables_ok (tables s) -> assoc_ok (tables s) sess (cl_up s) -> exists s', is_handshake_done s = (handshaken s, s') /\
  flow_step sess s s' /\ tables s' = tables s /\ cl_up s' = cl_up s.
Proof.
  intros Ho Ha. unfold is_handshake_done, handshaken. destruct (cn_handshake_done (cl_conn s)); cbn [orb].
  { exists s. split; [done|]. split; [|done]. split; [done | by apply world_step_refl | done]. }
  destruct (handshake_data (quic s)); eexists; (split; [reflexivity|]; split; [split; [by split | by apply world_step_refl | done] | done]).
Qed.

Lemma take_slot_spec l h b : h !! l = Some b -> exists context b', take_slot l h = (context, <[l := b']> h) /\ context_choice Rev3 true b b' context.
Proof.
  intros Hb. exists (default false (solo take_context_slot b).1), (solo take_context_slot b).2. unfold take_slot.
  rewrite (lookup_total_some _ _ _ Hb). split.
  - f_equal. apply map_eq. intros i. destruct (decide (i = l)) as [->|Hi].
    + by rewrite lookup_alter_eq, Hb, lookup_insert_eq.
    + by rewrite lookup_alter_ne, lookup_insert_ne.
  - rewrite take_context_slot_solo. cbn [context_choice negb]. by destruct (fb_state b =? OPENING).
Qed.

(** The choice leaves the binding's identity, and what is closed. *)
Lemma choice_same w hs b b' c : context_choice w hs b b' c -> fb_wire_id b' = fb_wire_id b /\ fb_session b' = fb_session b /\ fb_target b' = fb_target b /\
  (fb_state b = CLOSED -> fb_state b' = CLOSED) /\ (fb_state b <> CLOSED -> fb_state b' <> CLOSED).
Proof.
  destruct w; cbn [context_choice]; [by intros [-> _]|]. destruct hs; cbn [negb]; [|by intros [-> _]].
  destruct (fb_state b =? OPENING) eqn:E; [|by intros [_ ->]]. zbool. intros [_ ->]. rewrite E. case_match; cbn; rewrite ?E; done.
Qed.

(** A frame without context names a flow the peer knows: neither opening nor
    closed, and on rev3 never before the handshake. *)
Lemma choice_steady w hs b b' : context_choice w hs b b' false -> fb_state b <> CLOSED -> b' = b /\ fb_state b <> OPENING /\ (w = Rev3 -> hs = true).
Proof.
  destruct w; cbn [context_choice].
  - intros [-> Ho] Hc. symmetry in Ho. apply negb_false_iff in Ho. zbool. rewrite Ho. done.
  - destruct hs; cbn [negb]; [|by intros [_ ?]]. destruct (fb_state b =? OPENING) eqn:E; [by intros [? _]|]. zbool. by intros [_ ->].
Qed.

Lemma choice_le h l w hs b b' c : h !! l = Some b -> context_choice w hs b b' c -> heap_le h (<[l := b']> h).
Proof.
  intros Hb Hc x bx Hx. destruct (decide (x = l)) as [->|Hne]; [|exists bx; by rewrite lookup_insert_ne].
  destruct (choice_same _ _ _ _ _ Hc) as (? & ? & ? & ? & _). rewrite Hb in Hx. injection Hx as <-. exists b'. by rewrite lookup_insert_eq.
Qed.

Lemma uses_binding_context_spec sess l hs s b : tables_ok (tables s) -> assoc_ok (tables s) sess (cl_up s) -> heap s !! l = Some b ->
  exists context b' s', uses_binding_context l hs s = (context, s') /\ flow_step sess s s' /\ heap s' !! l = Some b' /\
    registry s' = registry s /\ w_ids (tables s') = w_ids (tables s) /\ context_choice (cn_wire (cl_conn s)) hs b b' context.
Proof.
  intros Ho Ha Hb. pose proof (mkFlowStep sess s s ltac:(by split) (world_step_refl _ Ho) Ha) as Hrefl. unfold uses_binding_context.
  rewrite (lookup_total_some _ _ _ Hb). destruct (cn_wire (cl_conn s)); [by eexists _, b, s|]. destruct hs; cbn [negb]; [|by eexists _, b, s].
  destruct (take_slot_spec l (heap s) b Hb) as (context & b' & -> & Hc).
  assert (Hst : world_step (tables s) (Flow.mkWorld (<[l := b']> (heap s)) (w_ids (cn_flows (cl_conn s))) (registry s))).
  { apply (step_heap (tables s)); [done|]. by eapply choice_le. }
  eexists _, b', _. split; [reflexivity|]. split_and!; try done; [|apply lookup_insert_eq]. split; [by split | exact Hst | by eapply table_step].
Qed.

(** What the route of a payload is. *)
Definition routed (sess : Z) (addr : TargetAddr) (now : Z) s (r : option (Z * bool)) s' : Prop :=
  flow_step sess s s' /\
  match r with
  | None => w_ids (tables s') = w_ids (tables s) /\ refused addr now s s'
  | Some (id, context) => exists l b b' s1, ensure_binding sess addr now s = (Some l, s1) /\ heap s1 !! l = Some b /\ heap s' !! l = Some b' /\
      fb_wire_id b' = id /\ fb_session b' = sess /\ fb_target b' = addr /\ fb_state b <> CLOSED /\
      (client_id id -> r_map (registry s') !! id = Some l) /\
      context_choice (cn_wire (cl_conn s)) (handshaken s1) b b' context /\
      (w_ids (tables s') = w_ids (tables s) \/
       heap s !! l = None /\ b = FlowBinding_new (next_wire_id (w_ids (tables s))) sess addr /\ fi_next (w_ids (tables s')) = fi_next (w_ids (tables s)) + 1)
  end.

Lemma route_spec sess addr now s r s' : tables_ok (tables s) -> assoc_ok (tables s) sess (cl_up s) -> route sess addr now s = (r, s') -> routed sess addr now s r s'.
Proof.
  intros Ho Ha. pose proof (ensure_binding_spec sess addr now s Ho Ha) as He. unfold route.
  destruct (ensure_binding sess addr now s) as [[l|] s1] eqn:E; cbn [fst snd] in He; [|by intros [= <- <-]].
  destruct He as (H1 & (b & Hb & Hs & Ht & Hn & Hr) & Hids).
  destruct (handshake_spec sess s1) as (s2 & -> & H2 & T2 & _); [apply H1 | apply H1|].
  assert (Hb2 : heap s2 !! l = Some b) by (change (heap s2) with (w_heap (tables s2)); by rewrite T2).
  destruct (uses_binding_context_spec sess l (handshaken s1) s2 b) as (context & b' & s3 & -> & H3 & Hb3 & R3 & I3 & Hc); [apply H2 | apply H2 | done|].
  intros [= <- <-]. destruct (choice_same _ _ _ _ _ Hc) as (C1 & C2 & C3 & _).
  assert (Hst : flow_step sess s s3) by (eapply flow_step_trans; [done | by eapply flow_step_trans | done]).
  rewrite (lookup_total_some _ _ _ Hb3), C1. split; [done|]. exists l, b, b', s1. split_and!; try done; try congruence.
  - rewrite R3. change (registry s2) with (w_reg (tables s2)). rewrite T2. exact Hr.
  - rewrite <- (sb_wire _ _ (fs_same _ _ _ H1)), <- (sb_wire _ _ (fs_same _ _ _ H2)). exact Hc.
  - rewrite I3, T2. destruct Hids as [?|(? & Hf & ?)]; [by left | right]. split_and!; try done. congruence.
Qed.

(* ------------------------------------------------------------------ *)
(** ** Sending *)

Lemma flow_client sess s s' : client_ok sess s -> flow_step sess s s' -> client_ok sess s'.
Proof.
  intros [C1 C2 C3 C4 C5] [[S1 S2 [S3 S3'] S4 [S5 S5'] S6 S7 S8 S9 _] W A]. split; rewrite ?S1, ?S4; try done; [apply W|].
  destruct C3. split; by rewrite ?S3, ?S3'.
Qed.

Lemma prepare_spec sess s : client_ok sess s -> synced sess s (prepare s).
Proof.
  intros C. destruct (sync_spec sess s C) as [S1 S2 S3 S4 S5 S6 S7]. unfold prepare. split; try done.
  eapply drain_client; [exact S1 | apply set_frag_step, S1].
Qed.

Lemma on_route_returns limit mono sess addr payload r s : client_ok sess s -> addr_wf addr ->
  exists p s', on_route limit mono sess addr payload r s = Ok (p, s') /\ out_step s s' /\ client_ok sess s'.
Proof.
  intros C Hwf. unfold on_route. case_match eqn:E; [|by apply send_large_returns]. apply stage_or_count_returns; [done|].
  zbool. split_and!; [by apply single_item_wf | done | done].
Qed.

(** What a send may do to the tables that are shared. *)
Record sends (sess : Z) s s' : Prop := mkSends {
  sn_client : client_ok sess s';
  sn_world : world_step (tables s) (tables s');
  sn_epoch : up_epoch (cl_up s') = cn_epoch (cl_conn s') /\ cn_epoch (cl_conn s') = cn_epoch (cl_conn s) /\ cn_wire (cl_conn s') = cn_wire (cl_conn s);
  sn_hold : up_pending (cl_up s') = up_pending (cl_up s)
}.

Lemma sends_after sess s s1 s' : synced sess s s1 -> out_step s1 s' -> client_ok sess s' -> sends sess s s'.
Proof.
  intros [S1 S2 S3 S4 S5 (S6 & S6' & _) S7] [E1 E2 E3 (E4 & E5 & E6) (E7 & E8)] C. split; [done | | split_and!; congruence | congruence].
  unfold tables in *. by rewrite E1.
Qed.

Lemma send_uplink_returns ck conn_limit sess addr payload s : client_ok sess s -> addr_wf addr ->
  exists p s', send_uplink ck conn_limit sess addr payload s = Ok (p, s') /\ sends sess s s'.
Proof.
  intros C Hwf. rewrite send_uplink_route. cbv zeta. pose proof (prepare_spec sess s C) as Hs. set (s1 := prepare s) in *.
  pose proof (sy_client _ _ _ Hs) as C1. set (limit := frame_limit _ _).
  assert (Hbad : exists p s', (let! '(before, s) := flush_and_drain limit s1 in let '(bad, s) := bad_address_header s in Ok (prefer_severe before bad, s)) = Ok (p, s') /\ sends sess s s').
  { destruct (flush_and_drain_returns sess limit s1 C1) as (r & s2 & -> & O2 & C2). cbn. eexists _, _. split; [reflexivity|].
    assert (H3 : drain_step s2 (book (book_too_large 1) s2)) by (apply book_step; [intros x _; apply book_too_large_u64 | apply C2]).
    eapply sends_after; [exact Hs | etrans; [exact O2 | apply H3] | by eapply drain_client]. }
  destruct (header addr); try exact Hbad. destruct (route sess addr (ck_coarse ck) s1) as [r s2] eqn:Er.
  apply route_spec in Er as [H2 _]; [|apply C1 | apply C1, Hs]. pose proof (flow_client _ _ _ C1 H2) as C2.
  destruct (on_route_returns limit (ck_mono ck) sess addr payload r s2 C2 Hwf) as (p & s3 & -> & [E1 E2 E3 (E4 & E5 & E6) (E7 & E8)] & C3).
  eexists _, _. split; [reflexivity|]. destruct Hs as [S1 S2 S3 S4 S5 (S6 & S6' & _) S7], H2 as [[F1 F2 F3 F4 [F5 F5'] F6 F7 _ _ _] F8 F9].
  split; [done | | split_and!; congruence | congruence]. unfold tables in *. rewrite E1. eapply world_step_trans; [apply C | exact S4 | exact F8].
Qed.

(* ------------------------------------------------------------------ *)
(** ** The hold *)

Lemma held_bytes_app a b : held_bytes (a ++ b) = held_bytes a + held_bytes b.
Proof. induction a as [|i a IH]; cbn; [done|]. unfold held_bytes in *. lia. Qed.

Lemma held_bytes_nonneg l : 0 <= held_bytes l.
Proof. induction l as [|i l IH]; cbn; [done|]. pose proof (len_nonneg (hp_payload i)). unfold held_bytes in *. lia. Qed.

Definition hold_room (payload : bytes) (p : UplinkPending) : Prop :=
  len (pd_items p) < PENDING_MAX_ITEMS /\ pd_bytes p + len payload <= PENDING_MAX_BYTES.

Lemma try_push_spec target payload now p : hold_ok p -> addr_wf target -> exists ok p', try_push target payload now p = (ok, p') /\ hold_ok p' /\
  (ok = true <-> hold_room payload p) /\
  pd_items p' = if ok then pd_items p ++ [mkHeldPayload target payload now] else pd_items p.
Proof.
  intros Hp Hwf. destruct Hp as [P1 P2 P3 P4]. pose proof (len_nonneg payload). pose proof (held_bytes_nonneg (pd_items p)).
  assert (Hsat : saturating_add (pd_bytes p) (len payload) >? PENDING_MAX_BYTES = (pd_bytes p + len payload >? PENDING_MAX_BYTES)).
  { unfold saturating_add. unfold PENDING_MAX_BYTES, usize_max in *. destruct (Z.le_gt_cases (pd_bytes p + len payload) (2 ^ 64 - 1)).
    - by rewrite Z.min_l. - rewrite Z.min_r by lia. rewrite !Z.gtb_ltb. by rewrite !(proj2 (Z.ltb_lt _ _)) by lia. }
  unfold try_push, hold_room. rewrite Hsat. destruct (_ || _) eqn:E; eexists _, _; (split; [reflexivity|]).
  - split_and!; [done | | done]. split; [done|]. apply orb_true_iff in E as [E|E]; zbool; lia.
  - apply orb_false_iff in E as [E1 E2]. zbool. split_and!; [|split; [lia | done] | done]. split; cbn.
    + rewrite held_bytes_app. unfold held_bytes in *. cbn. lia.
    + lia.
    + rewrite len_app. unfold len at 2. cbn. lia.
    + apply Forall_app. split; [done | by constructor].
Qed.

Definition stale (now : Z) (i : HeldPayload) : Prop := PENDING_TTL_MS <= saturating_sub now (hp_enqueued_ms i).

Lemma held_expire_go_spec now items : forall bytes n, exists gone rest, items = gone ++ rest /\
  expire_go now items bytes n = (n + len gone, mkUplinkPending rest (bytes - held_bytes gone)) /\
  Forall (stale now) gone /\ match rest with [] => True | i :: _ => ~ stale now i end.
Proof.
  induction items as [|i items IH]; intros bytes n; cbn [expire_go].
  { exists [], []. split_and!; try done. f_equal; [unfold len; cbn; lia | f_equal; cbn; lia]. }
  case_match eqn:E; zbool.
  - exists [], (i :: items). split_and!; try done; [f_equal; [unfold len; cbn; lia | f_equal; cbn; lia] | unfold stale; lia].
  - destruct (IH (bytes - len (hp_payload i)) (n + 1)) as (gone & rest & -> & -> & Hg & Hr). exists (i :: gone), rest. split_and!; try done.
    + f_equal; [rewrite len_cons; lia|]. f_equal. unfold held_bytes. cbn. lia.
    + by constructor.
Qed.

Lemma hold_ok_suffix gone rest p : hold_ok p -> pd_items p = gone ++ rest -> hold_ok (mkUplinkPending rest (pd_bytes p - held_bytes gone)).
Proof.
  intros [P1 P2 P3 P4] E. rewrite E in P1, P3, P4. rewrite held_bytes_app in P1. rewrite len_app in P3. pose proof (held_bytes_nonneg gone). pose proof (len_nonneg gone).
  apply Forall_app in P4 as [_ P4]. split; cbn [pd_items pd_bytes]; first [lia | done].
Qed.

(** The stale payloads at the front leave, all of them when the hold is in the
    order of its clock. *)
Definition in_order (l : list HeldPayload) : Prop := forall i j a b, (i <= j)%nat -> l !! i = Some a -> l !! j = Some b -> hp_enqueued_ms a <= hp_enqueued_ms b.

Lemma held_expire_spec now p : hold_ok p -> exists gone rest, pd_items p = gone ++ rest /\ Forall (stale now) gone /\
  expire now p = (len gone, mkUplinkPending rest (held_bytes rest)) /\ hold_ok (mkUplinkPending rest (held_bytes rest)) /\
  (in_order (pd_items p) -> Forall (fun i => ~ stale now i) rest).
Proof.
  intros Hp. unfold expire. destruct (held_expire_go_spec now (pd_items p) (pd_bytes p) 0) as (gone & rest & E & -> & Hg & Hr).
  pose proof (hold_ok_suffix gone rest p Hp E) as Hs. pose proof (ho_bytes _ Hs) as Hb. cbn in Hb. rewrite Hb in *. exists gone, rest. split_and!; try done.
  intros Ho. apply list.Forall_lookup. intros j b Hj. destruct rest as [|a rest]; [done|]. assert (hp_enqueued_ms a <= hp_enqueued_ms b) as Hle.
  { apply (Ho (length gone) (length gone + j)%nat); [lia|..]; rewrite E, lookup_app_r by lia; [by rewrite Nat.sub_diag|].
    by replace (length gone + j - length gone)%nat with j by lia. }
  unfold stale, saturating_sub in *. lia.
Qed.

Lemma set_pending_client sess p s : client_ok sess s -> hold_ok p -> client_ok sess (set_up (with_pending p (cl_up s)) s).
Proof. intros [C1 C2 C3 C4 C5] Hp. split; try done; [by destruct C3; split|]. intros He. destruct (C5 He) as [? ?]. by split. Qed.

(** The payloads that left the hold, each sent in its turn. *)
Inductive replayed (limit sess : Z) : list Clocks -> list HeldPayload -> Client Conn -> Client Conn -> Prop :=
| replayed_nil cks s : replayed limit sess cks [] s s
| replayed_cons ck cks item items p sent s s1 s2 :
    pending_pop_front (up_pending (cl_up s)) = Some (item, p) ->
    send_uplink ck limit sess (hp_target item) (hp_payload item) (set_up (with_pending p (cl_up s)) s) = Ok (sent, s1) ->
    egress_lost sent = false -> replayed limit sess cks items s1 s2 -> replayed limit sess (ck :: cks) (item :: items) s s2.

(** The connection was lost under a payload: it and all behind it stay. *)
Definition replay_ended (limit sess : Z) (rest : list HeldPayload) s1 s' : Prop :=
  match rest with
  | [] => s' = s1
  | item :: rest => exists ck p sent s2, pending_pop_front (up_pending (cl_up s1)) = Some (item, p) /\
      send_uplink ck limit sess (hp_target item) (hp_payload item) (set_up (with_pending p (cl_up s1)) s1) = Ok (sent, s2) /\ egress_lost sent = true /\
      s' = set_up (with_pending (pending_push_front item (up_pending (cl_up s2))) (cl_up s2)) s2
  end.

Definition world_leads s s' : Prop := world_step (tables s) (tables s') /\ cn_epoch (cl_conn s') = cn_epoch (cl_conn s) /\ cn_wire (cl_conn s') = cn_wire (cl_conn s).

Lemma flush_pending_spec limit sess : forall cks agg s, client_ok sess s -> (length (pd_items (up_pending (cl_up s))) <= length cks)%nat ->
  exists agg' s' gone rest s1, flush_pending_go cks limit sess agg s = Ok (agg', s') /\ client_ok sess s' /\ world_leads s s' /\
    pd_items (up_pending (cl_up s)) = gone ++ rest /\ replayed limit sess cks gone s s1 /\ pd_items (up_pending (cl_up s')) = rest /\ replay_ended limit sess rest s1 s' /\
    (up_epoch (cl_up s) <= cn_epoch (cl_conn s) -> up_epoch (cl_up s') <= cn_epoch (cl_conn s')).
Proof.
  induction cks as [|ck cks IH]; intros agg s C Hl; cbn [flush_pending_go].
  { destruct (pd_items (up_pending (cl_up s))) as [|i l] eqn:E; cbn in Hl; [|lia]. unfold pending_pop_front. rewrite E.
    eexists _, s, [], [], s. split_and!; try done; [|constructor]. split; [apply world_step_refl, C | done]. }
  unfold pending_pop_front. destruct (pd_items (up_pending (cl_up s))) as [|item l] eqn:E.
  { eexists _, s, [], [], s. split_and!; try done; [|constructor]. split; [apply world_step_refl, C | done]. }
  set (p := mkUplinkPending _ _). assert (Hp : hold_ok p).
  { pose proof (hold_ok_suffix [item] l _ (co_hold _ _ C) E) as Hs. unfold held_bytes in Hs. cbn in Hs. by rewrite Z.add_0_r in Hs. }
  assert (Hw : addr_wf (hp_target item)) by (pose proof (ho_wf _ (co_hold _ _ C)) as Hf; rewrite E in Hf; by apply Forall_inv in Hf).
  destruct (send_uplink_returns ck limit sess (hp_target item) (hp_payload item) _ (set_pending_client _ _ _ C Hp) Hw) as (sent & s1 & Es & S1).
  rewrite Es. cbn [res_bind]. destruct S1 as [C1 W1 (E1 & E1' & E1'') H1]. change (tables (set_up _ s)) with (tables s) in W1.
  assert (L1 : world_leads s s1) by by split_and!. assert (Epop : pending_pop_front (up_pending (cl_up s)) = Some (item, p)) by (unfold pending_pop_front; by rewrite E).
  destruct (egress_lost sent) eqn:El.
  - eexists _, _, [], (item :: l), s. split; [reflexivity|]. assert (Hf : pending_push_front item (up_pending (cl_up s1)) = up_pending (cl_up s)).
    { rewrite H1. unfold pending_push_front. cbn. rewrite <- E, Z.sub_add. by destruct (up_pending (cl_up s)). }
    split_and!; try done; [rewrite Hf; apply set_pending_client; [done | apply C] | constructor | by cbn; rewrite H1 | by eexists _, _, _, _ | cbn; lia].
  - destruct (IH (mkPayloadSend (Z.min (ps_frames agg + ps_frames sent) 255) (ps_failed (prefer_severe agg sent))) s1 C1) as (agg' & s' & gone & rest & s2 & -> & C' & L' & Ei & Hr & Hp' & He & Hle);
      [rewrite H1; cbn; cbn in Hl; lia|]. rewrite H1 in Ei. cbn in Ei. eexists _, _, (item :: gone), rest, s2. split; [reflexivity|]. split_and!; try done.
    + destruct L1 as (? & ? & ?), L' as (? & ? & ?). split_and!; [eapply world_step_trans; [apply C | done | done] | congruence | congruence].
    + by rewrite Ei.
    + by econstructor.
    + intros _. apply Hle. lia.
Qed.
End Run.
