(* ===== verification/UplinkSys.v ===== *)
(** The client's associations and its dispatcher on one connection: each
    handler keeps what the others rely on, and the whole runs from one
    generation of the connection to the next. *)
From stdpp Require Import fin_maps relations.
From S2P Require Import Prelude Addr Codec R3 R3Train R3Ctl R2 R2Train Wire Frag Partial Reasm Binding Flow FlowRun Stage StageRun Pack Drain DrainRun DnsPolicy DnsMemo Window Client Dispatch DispatchRun UplinkInv UplinkRun.

(* ------------------------------------------------------------------ *)
(** ** What an association relies on *)

Section Rely.
Context {BU : Build} {Conn : Type} `{DatagramConn Conn} `{QuicConn Conn}.
Implicit Types s : Client Conn.

(** The association's own state but its signal. *)
Definition same_assoc_state (u u' : UplinkFlows) : Prop :=
  up_flows u' = up_flows u /\ up_epoch u' = up_epoch u /\ up_last u' = up_last u /\ up_pending u' = up_pending u /\
  up_stage_batch u' = up_stage_batch u /\ up_stage_batch_bytes u' = up_stage_batch_bytes u.

(** A step of anybody else on the same generation. *)
Record rely s s' : Prop := mkRely {
  rl_world : world_step (tables s) (tables s');
  rl_drain : DrainRun.world_ok (cl_drain s');
  rl_gen : cn_epoch (cl_conn s') = cn_epoch (cl_conn s) /\ cn_wire (cl_conn s') = cn_wire (cl_conn s);
  rl_up : same_assoc_state (cl_up s) (cl_up s')
}.

Definition shared_ok s : Prop := tables_ok (tables s) /\ DrainRun.world_ok (cl_drain s).

Lemma rely_refl s : shared_ok s -> rely s s.
Proof. intros [? ?]. split; try done. by apply world_step_refl. Qed.

Lemma rely_trans a b c : shared_ok a -> rely a b -> rely b c -> rely a c.
Proof.
  intros [Ho _] [A1 A2 (A3 & A3') (A4 & A5 & A6 & A7 & A8 & A9)] [B1 B2 (B3 & B3') (B4 & B5 & B6 & B7 & B8 & B9)].
  split; [by eapply world_step_trans | done | split; congruence | split_and!; congruence].
Qed.

Lemma rely_shared s s' : rely s s' -> shared_ok s'.
Proof. intros []. split; [apply rl_world0 | done]. Qed.

(** The invariant of an association is stable under what others do. *)
Lemma rely_client sess s s' : client_ok sess s -> rely s s' -> client_ok sess s'.
Proof.
  intros [C1 C2 C3 C4 C5] [R1 R2 (R3 & R3') (R4 & R5 & R6 & R7 & R8 & R9)]. split; rewrite ?R7; try done; [apply R1 | |].
  - destruct C3. split; by rewrite ?R8, ?R9.
  - rewrite R3, R5. intros He. destruct (table_step _ _ _ _ C1 R1 (C5 He)) as [T1 T2]. split; by rewrite ?R4, ?R6.
Qed.

Lemma rely_conn f s : shared_ok s -> (forall c, cn_flows (f c) = cn_flows c /\ cn_epoch (f c) = cn_epoch c /\ cn_wire (f c) = cn_wire c) ->
  rely s (set_conn (f (cl_conn s)) s).
Proof.
  intros [Ho Hd] Hf. destruct (Hf (cl_conn s)) as (E1 & E2 & E3). split; try done. unfold tables. cbn. rewrite E1. by apply world_step_refl.
Qed.

Lemma rely_set_world w s : shared_ok s -> world_step (tables s) w -> rely s (set_world w s).
Proof. intros [_ Hd] Hw. by split. Qed.

Lemma rely_drain s s' : shared_ok s -> drain_step s s' -> rely s s'.
Proof.
  intros [Ho _] ([E1 E2 E3 (E4 & E5 & E6) (E7 & E8)] & B1 & B2 & Hd). split; try done. unfold tables. rewrite E1. by apply world_step_refl.
Qed.

Lemma rely_quic c st s : shared_ok s -> rely s (set_quic c st s).
Proof. intros Hs. apply rely_drain; [done|]. apply set_quic_step, Hs. Qed.
End Rely.

(* ------------------------------------------------------------------ *)
(** ** What the dispatcher guarantees *)

Lemma set_reply_le src l h : heap_le h (alter (set_reply_src src) l h).
Proof.
  intros x b Hb. destruct (decide (x = l)) as [->|Hne]; [|exists b; by rewrite lookup_alter_ne].
  exists (set_reply_src src b). by rewrite lookup_alter_eq, Hb.
Qed.

Section Guarantee.
Context {LO : Layout} {BU : Build} {Conn : Type} `{DatagramConn Conn} `{QuicConn Conn}.
Context (dns_clock : DnsMemo.Clock) (dns_epoch : Z) (dns_memo : Memo) (own : Z).
Implicit Types d : Disp Conn.

Definition drely d d' : Prop := rely (ds_client d) (ds_client d').
Definition dshared d : Prop := shared_ok (ds_client d).

Lemma drely_trans a b c : dshared a -> drely a b -> drely b c -> drely a c.
Proof. apply rely_trans. Qed.

Lemma drely_same d d' : dshared d -> ds_client d' = ds_client d -> drely d d'.
Proof. unfold drely. intros Hs ->. by apply rely_refl. Qed.

Lemma drely_shared d d' : drely d d' -> dshared d'.
Proof. apply rely_shared. Qed.

Lemma drely_conn f d : dshared d -> (forall c, cn_flows (f c) = cn_flows c /\ cn_epoch (f c) = cn_epoch c /\ cn_wire (f c) = cn_wire c) -> drely d (on_conn f d).
Proof. apply rely_conn. Qed.

Lemma drely_heap f d : dshared d -> heap_le (d_heap d) (f (d_heap d)) -> drely d (on_heap f d).
Proof. intros Hs Hle. apply rely_set_world; [done|]. apply (step_heap (tables (ds_client d))); [apply Hs | exact Hle]. Qed.

Lemma rearm_le l h : heap_le h (call rearm_context l h).
Proof. apply call_le. intros b. rewrite rearm_context_solo. cbn [snd]. case_match eqn:E; [done|]. zbool. cbn. case_match; cbn; naive_solver. Qed.

Lemma send_ctl_same msg c : cn_flows (send_ctl msg c).2 = cn_flows c /\ cn_epoch (send_ctl msg c).2 = cn_epoch c /\ cn_wire (send_ctl msg c).2 = cn_wire c.
Proof. unfold send_ctl. by repeat case_match. Qed.

Lemma need_context_flows id now c : cn_flows (send_need_context id now c).2 = cn_flows c /\ cn_epoch (send_need_context id now c).2 = cn_epoch c /\
  cn_wire (send_need_context id now c).2 = cn_wire c.
Proof.
  unfold send_need_context. case_match; [done|]. destruct (fid_for id) as [fid|]; [|done]. destruct (allow _ _) as [ok rate]. case_match; [done|].
  destruct (send_ctl_same (NeedContext fid) (with_repair_rate rate c)) as (-> & -> & ->). done.
Qed.

Lemma r2_send_ctl_rely ctl d : dshared d -> drely d (r2_send_ctl ctl d).2.
Proof. intros Hs. unfold r2_send_ctl. destruct (try_send_datagram _ _) as [v conn]. by apply rely_quic. Qed.

Lemma send_flow_reject_rely id reason d : dshared d -> drely d (send_flow_reject id reason d).
Proof.
  intros Hs. unfold send_flow_reject. destruct (cn_wire (d_conn d)); [by apply r2_send_ctl_rely|]. destruct (fid_for id); [|by apply drely_same].
  apply drely_conn; [done|]. intros c. apply send_ctl_same.
Qed.

Lemma repair_rely id now d : dshared d -> drely d (repair_unknown_flow id now d).
Proof. intros Hs. unfold repair_unknown_flow. case_match; [by apply drely_same|]. apply drely_conn; [done|]. intros c. apply need_context_flows. Qed.

(** A flow the server opens. *)
Lemma install_server_flow_rely id sess addr d o d' : dshared d -> install_server_flow dns_clock dns_epoch dns_memo id sess addr d = Ok (o, d') -> drely d d'.
Proof.
  intros Hs. unfold install_server_flow. destruct (wire_id_server_owned id) eqn:Eo; cbn [negb]; [|intros [= <- <-]; by apply send_flow_reject_rely].
  destruct sess as [sess|], addr as [addr|]; try (intros [= <- <-]; by apply send_flow_reject_rely).
  destruct (r2_addr_dst _ _ _ addr) as [[src|]| |]; cbn [res_bind]; [|intros [= <- <-]; by apply send_flow_reject_rely | done..].
  destruct (new_shared id sess (AddrIp src) (d_heap d)) as [l h0] eqn:En. apply new_shared_fresh in En as [Hl ->].
  set (h := call mark_open l _). assert (Hb : exists b, h !! l = Some b /\ fb_wire_id b = id).
  { destruct (mark_open_le l (alter (set_reply_src src) l (<[l:=FlowBinding_new id sess (AddrIp src)]> (d_heap d))) l
      (set_reply_src src (FlowBinding_new id sess (AddrIp src)))) as (b & Hb & E & _); [by rewrite lookup_alter_eq, lookup_insert_eq | by exists b]. }
  destruct Hb as (b & Hb & Hid). assert (Hle : heap_le (d_heap d) h).
  { etrans; [by apply (heap_le_insert _ l (FlowBinding_new id sess (AddrIp src)))|]. etrans; [apply (set_reply_le src l) | apply mark_open_le]. }
  assert (Hw : world_step (tables (ds_client d)) (Flow.mkWorld h (w_ids (cn_flows (d_conn d))) (registry_insert h l (d_registry d)).2)).
  { apply (step_peer_open (tables (ds_client d)) h l b); try done; [apply Hs | congruence]. }
  destruct (registry_insert h l (d_registry d)) as [r reg] eqn:Er. cbn [snd] in Hw. set (d1 := on_client _ d).
  assert (H1 : drely d d1) by by apply rely_set_world. pose proof (drely_shared _ _ H1) as Hs1.
  destruct r as [l'|[]|]; intros E; try done; injection E as <- <-; [done|..]; (eapply drely_trans; [done | exact H1 | by apply send_flow_reject_rely]).
Qed.

(* ------------------------------------------------------------------ *)
(** ** The control plane *)

Lemma stage_op_ok op (w : Drain.World Conn) st dr : DrainRun.world_ok w -> turn_op_wf op -> do_stage_op op (dn_stage w) (lk_drops (dn_link w)) = Ok (st, dr) ->
  DrainRun.world_ok (Drain.with_drops dr (Drain.with_stage st w)).
Proof.
  intros [W1 W2 W3 W4 W5] Hop E. destruct (run_stage_wf [op] (dn_stage w) (lk_drops (dn_link w)) W1 W4) as (st' & dr' & Er & R1 & R2 & R3 & R4); [by constructor | done|].
  cbn [run_stage] in Er. rewrite E in Er. cbn in Er. injection Er as <- <-. split; cbn; try done. destruct R3 as [_ ->]. done.
Qed.

(** A purge of the stager under its lock. *)
Lemma on_stager_returns f op d : DrainRun.world_ok (cl_drain (ds_client d)) -> turn_op_wf op ->
  (forall st dr, do_stage_op op st dr = let '(_, st', dr') := f st dr in Ok (st', dr')) ->
  exists c, on_stager f d = Ok (set_client c d) /\ drain_step (ds_client d) c.
Proof.
  intros Hs Hop Hf. unfold on_stager. destruct (lock_stager_returns (ds_client d) Hs) as (c & -> & Hc). cbn [res_bind].
  destruct (f _ _) as [[n st] dr] eqn:E. eexists. split; [reflexivity|]. eapply drain_step_trans; [exact Hc|]. apply set_drain_step.
  eapply stage_op_ok; [apply Hc | exact Hop|]. by rewrite Hf, E.
Qed.

Lemma drain_tables (c c' : Client Conn) : drain_step c c' -> tables c' = tables c.
Proof. intros (O & _). unfold tables. apply O. Qed.

Lemma drain_heap (c c' : Client Conn) : drain_step c c' -> heap c' = heap c /\ registry c' = registry c.
Proof. intros Hc. pose proof (drain_tables _ _ Hc) as E. unfold heap, registry, tables in *. by rewrite E. Qed.

(** A close or a reject: the flow is out of the registry and closed. *)
Lemma drop_known_flow_returns id d : dshared d -> exists o d', drop_known_flow id d = Ok (o, d') /\ drely d d'.
Proof.
  intros Hs. unfold drop_known_flow. destruct (r_map (d_registry d) !! id) as [l|] eqn:El.
  2:{ rewrite registry_remove_none by done. eexists _, _. split; [reflexivity | by apply drely_same]. }
  destruct (registry_remove (d_heap d) id (d_registry d)) as [o reg] eqn:Er.
  assert (o = Some l) as -> by (unfold registry_remove in Er; rewrite El in Er; by injection Er).
  assert (Hw : world_step (tables (ds_client d)) (Flow.mkWorld (call mark_closed l (d_heap d)) (w_ids (tables (ds_client d))) reg)).
  { replace reg with (registry_remove (d_heap d) id (d_registry d)).2 by by rewrite Er.
    apply (step_remove (tables (ds_client d)) id l); [apply Hs | done | apply close_le|]. right.
    destruct (tables_live _ _ _ (proj1 Hs) El) as (b & Hb & _). by eapply call_closed. }
  set (d1 := set_reasm _ _).
  destruct (on_stager_returns (drop_flow_scoped (fb_session (d_heap d !!! l)) id) (SDropFlowScoped (fb_session (d_heap d !!! l)) id) d1) as (c' & -> & Hc'); [apply Hs | done | done|].
  cbn [res_bind]. eexists _, _. split; [reflexivity|]. destruct (drain_heap _ _ Hc') as [Eh Eg]. pose proof (drain_tables _ _ Hc') as Et.
  destruct Hc' as ([O1 O2 O3 (O4 & O5 & O6) (O7 & O8)] & B1 & B2 & Hd). split; try done.
  unfold tables, d1 in *. cbn in *. rewrite Eh, Eg, O1. exact Hw.
Qed.

Lemma reject_flow_returns id reason now d : dshared d -> exists d', reject_flow id reason now d = Ok d' /\ drely d d'.
Proof.
  intros Hs. unfold reject_flow. destruct (drop_known_flow_returns id d Hs) as (o & d1 & -> & H1). cbn [res_bind].
  eexists. split; [reflexivity|]. destruct o as [l|]; [|done]. eapply drely_trans; [done | exact H1|]. apply drely_conn; [by eapply drely_shared | done].
Qed.

Lemma raise_closed_rely sess d : dshared d -> drely d (raise_closed own sess d).
Proof.
  intros Hs. unfold raise_closed. destruct (_ ≫= _) as [x|]; [|by apply drely_same]. case_match; [|by apply drely_same].
  destruct Hs as [Ho Hd]. split; try done. by apply world_step_refl.
Qed.

Lemma close_session_returns sess d : dshared d -> exists d', close_session own sess d = Ok d' /\ drely d d'.
Proof.
  intros Hs. unfold close_session. set (d1 := set_reasm _ d).
  destruct (on_stager_returns (Stage.drop_session sess) (SDropSession sess) d1) as (c & -> & Hc); [apply Hs | done | done|].
  cbn [res_bind]. pose proof (rely_drain _ _ Hs Hc : drely d (set_client c d1)) as H2. set (d2 := set_client c d1) in *. pose proof (drely_shared _ _ H2) as Hs2.
  pose proof (step_remove_session (tables (ds_client d2)) sess (proj1 Hs2)) as Hw.
  change (w_heap (tables (ds_client d2))) with (d_heap d2) in Hw. change (w_reg (tables (ds_client d2))) with (d_registry d2) in Hw.
  destruct (remove_session sess (d_heap d2) (d_registry d2)) as [[n h] reg].
  eexists. split; [reflexivity|]. eapply drely_trans; [done | exact H2|]. pose proof (rely_set_world _ _ Hs2 Hw) as H3.
  eapply (drely_trans d2 (on_client (set_world (Flow.mkWorld h (w_ids (tables (ds_client d2))) reg)) d2)); [done | exact H3|].
  apply raise_closed_rely. by eapply rely_shared.
Qed.

Lemma on_caps_returns caps d : dshared d -> exists d', on_caps caps d = Ok d' /\ drely d d'.
Proof.
  intros Hs. unfold on_caps. destruct (bool_decide _); cbn [negb]; [|eexists; split; [reflexivity | by apply drely_same]].
  set (d1 := on_conn _ d). assert (H1 : drely d d1) by by apply drely_conn. destruct (negb _); [by exists d1|].
  set (d2 := on_conn _ d1). assert (H2 : drely d d2) by (eapply drely_trans; [done | exact H1 | apply drely_conn; [by eapply drely_shared | done]]).
  destruct (on_stager_returns (fun st dr => (0, set_max_train_items (max_train_items caps) st, dr)) (SMaxTrain (max_train_items caps)) d2)
    as (c & -> & Hc); [apply (drely_shared _ _ H2) | done | done|]. cbn [res_bind]. eexists. split; [reflexivity|].
  pose proof (rely_drain _ _ (drely_shared _ _ H2) Hc : drely d2 (set_client c d2)) as H3.
  eapply drely_trans; [done | exact H2|]. eapply drely_trans; [by eapply drely_shared | exact H3|].
  apply drely_conn; [by eapply drely_shared | done].
Qed.

Lemma apply_r2_ctl_returns ctl now d : dshared d -> exists d', apply_r2_ctl own ctl now d = Ok d' /\ drely d d'.
Proof.
  intros Hs. destruct ctl; cbn [apply_r2_ctl].
  - eexists. split; [reflexivity | by apply drely_same].
  - by apply on_caps_returns.
  - eexists. split; [reflexivity|]. case_match; [apply drely_heap; [done | apply mark_open_le] | by apply drely_same].
  - by apply reject_flow_returns.
  - destruct (drop_known_flow_returns id d Hs) as (o & d1 & -> & H1). by eexists.
  - by apply close_session_returns.
Qed.

(** A control frame of rev2 is handled whatever its bytes. *)
Lemma handle_r2_ctl_returns b now d : bytes_ok b -> dshared d -> exists d', handle_r2_ctl_at own b now d = Ok d' /\ drely d d'.
Proof.
  intros Hb Hs. unfold handle_r2_ctl_at. destruct (bool_decide _); cbn [negb]; [|eexists; split; [reflexivity | by apply drely_same]].
  pose proof (R2.decode_ctl_no_panic b Hb) as Hn. destruct (decode_ctl b) as [ctl| |]; [|eexists; split; [reflexivity | by apply drely_same] | done].
  destruct (purges ctl); [|by apply apply_r2_ctl_returns]. destruct (ctl_allowed _ _) as [ok k]. set (d1 := on_conn _ d).
  assert (H1 : drely d d1) by by apply drely_conn. destruct (negb _); [by exists d1|].
  destruct (apply_r2_ctl_returns ctl now d1 (drely_shared _ _ H1)) as (d2 & -> & H2). exists d2. split; [done | by eapply drely_trans].
Qed.

Lemma handle_r3_ctl_returns msg now d : dshared d -> exists d', handle_r3_ctl own msg now d = Ok d' /\ drely d d'.
Proof.
  intros Hs. assert (Hsame : exists d', Ok d = @Ok unit _ d' /\ drely d d') by (eexists; split; [reflexivity | by apply drely_same]).
  destruct msg; cbn [handle_r3_ctl]; try (destruct (wire_id_for_fid _) as [id|]; [|exact Hsame]); try exact Hsame.
  all: first [by apply reject_flow_returns | by apply close_session_returns | idtac].
  all: try (destruct (drop_known_flow_returns id d Hs) as (o & d1 & -> & H1); by eexists).
  eexists. split; [reflexivity|]. case_match; [apply drely_heap; [done | apply rearm_le] | by apply drely_same].
Qed.

(* ------------------------------------------------------------------ *)
(** ** Data *)

Ltac drely_step H := eapply drely_trans; [done | exact H|].

Lemma r2_lookup_client sess d r d' : r2_lookup sess d = Ok (r, d') -> ds_client d' = ds_client d.
Proof. unfold r2_lookup, lookup_entry. intros E. repeat (case_match; cbn [res_bind] in E; try done); by simplify_eq. Qed.

Lemma stage_reply_client e app dst payload d : ds_client (stage_reply e app dst payload d) = ds_client d.
Proof. unfold stage_reply. by case_match. Qed.

Lemma stage_follow_client e app dst payload d : ds_client (stage_reply_follow e app dst payload d) = ds_client d.
Proof. unfold stage_reply_follow. by case_match. Qed.

Lemma reply_to_client sess dst payload d n d' : reply_to sess dst payload d = Ok (n, d') -> ds_client d' = ds_client d.
Proof.
  unfold reply_to. destruct (r2_lookup sess d) as [[r d1]| |] eqn:E; cbn [res_bind]; try done. apply r2_lookup_client in E.
  destruct r as [[e app]|]; intros [= <- <-]; [by rewrite stage_reply_client | done].
Qed.

Lemma flow_of_rely id sess addr now d o d' : dshared d -> flow_of dns_clock dns_epoch dns_memo id sess addr now d = Ok (o, d') -> drely d d'.
Proof.
  intros Hs. unfold flow_of. destruct (registry_get id (d_registry d)); [intros [= <- <-]; by apply drely_same|].
  case_match; [intros [= <- <-]; by apply repair_rely | by apply install_server_flow_rely].
Qed.

Lemma learn_rely l src d : dshared d -> drely d (learn_reply_src l src d).
Proof.
  intros Hs. unfold learn_reply_src. destruct src as [src|]; [|by apply drely_same].
  assert (H1 : drely d (learn_src l src d)) by (apply drely_heap; [done | apply set_reply_le]). case_match; [|done].
  drely_step H1. apply r2_send_ctl_rely. by eapply drely_shared.
Qed.

Lemma open_rely l d : dshared d -> drely d (on_heap (call mark_open l) d).
Proof. intros Hs. apply drely_heap; [done | apply mark_open_le]. Qed.

(** The reply of a flow, after the flow was found. *)
Lemma reply_rely dst sess payload d0 d n d' : dshared d0 -> drely d0 d ->
  (match dst with None => Ok (0, d) | Some dst => reply_to sess dst payload d end) = Ok (n, d') -> drely d0 d'.
Proof.
  intros Hs Hd. destruct dst as [dst|]; [|by intros [= <- <-]]. intros E%reply_to_client. unfold drely in *. by rewrite E.
Qed.

Lemma dispatch_r2_data_rely b now d n d' : dshared d -> dispatch_r2_data dns_clock dns_epoch dns_memo b now d = Ok (n, d') -> drely d d'.
Proof.
  intros Hs. unfold dispatch_r2_data. destruct (decode_data _ b) as [f| |]; [|intros [= <- <-]; by apply drely_same | done].
  destruct (dv_wire_id f) as [id|].
  - destruct (flow_of _ _ _ id _ _ now d) as [[o d1]| |] eqn:E; cbn [res_bind]; try done. apply flow_of_rely in E as H1; [|done].
    destruct o as [l|]; [|by intros [= <- <-]]. destruct (wrong_session _ _); [by intros [= <- <-]|].
    destruct (if dv_src f then _ else _) as [src| |]; cbn [res_bind]; try done. pose proof (learn_rely l src d1 (drely_shared _ _ H1)) as H2.
    pose proof (open_rely l _ (drely_shared _ _ H2)) as H3. apply reply_rely; [done|]. drely_step H1. eapply drely_trans; [by eapply drely_shared | exact H2 | exact H3].
  - destruct (dv_sess f) as [sess|], (dv_addr f) as [addr|]; try (intros [= <- <-]; by apply drely_same).
    destruct (r2_lookup sess d) as [[r d1]| |] eqn:E; cbn [res_bind]; try done. apply r2_lookup_client in E.
    destruct r as [[e app]|]; [|intros [= <- <-]; by apply drely_same]. destruct (r2_addr_dst _ _ _ addr) as [[dst|]| |]; cbn [res_bind]; try done;
      intros [= <- <-]; apply drely_same; rewrite ?stage_reply_client; done.
Qed.

Lemma dispatch_assembled_rely a now d n d' : dshared d -> dispatch_assembled dns_clock dns_epoch dns_memo a now d = Ok (n, d') -> drely d d'.
Proof.
  intros Hs. unfold dispatch_assembled. destruct (a_wire_id a) as [id|].
  - destruct (flow_of _ _ _ id _ _ now d) as [[o d1]| |] eqn:E; cbn [res_bind]; try done. apply flow_of_rely in E as H1; [|done].
    destruct o as [l|]; [|by intros [= <- <-]]. destruct (wrong_session _ _); [by intros [= <- <-]|].
    destruct (if a_src a then _ else _) as [src| |]; cbn [res_bind]; try done. pose proof (open_rely l _ (drely_shared _ _ H1)) as H2.
    pose proof (learn_rely l src _ (drely_shared _ _ H2)) as H3. apply reply_rely; [done|]. drely_step H1. eapply drely_trans; [by eapply drely_shared | exact H2 | exact H3].
  - destruct (a_sess a) as [sess|], (a_addr a) as [addr|]; try (intros [= <- <-]; by apply drely_same).
    destruct (r2_addr_dst _ _ _ addr) as [dst| |]; cbn [res_bind]; try done. apply reply_rely; [done | by apply drely_same].
Qed.

Lemma dispatch_r2_frag_rely b now d n d' : dshared d -> dispatch_r2_frag dns_clock dns_epoch dns_memo b now d = Ok (n, d') -> drely d d'.
Proof.
  intros Hs. unfold dispatch_r2_frag. destruct (decode_frag _ b) as [f| |]; [|intros [= <- <-]; by apply drely_same | done].
  destruct (push_view b f now (ds_reasm d)) as [[[a|] r]| |]; cbn [res_bind]; try done; [|intros [= <- <-]; by apply drely_same].
  intros E. apply dispatch_assembled_rely in E; [|exact Hs]. exact E.
Qed.

Lemma train_items_rely slots now its : forall v d v' d', dshared d -> train_items slots now its v d = Ok (v', d') -> drely d d'.
Proof.
  induction its as [|[slot payload] its IH]; intros v d v' d' Hs; cbn [train_items]; [intros [= <- <-]; by apply drely_same|].
  destruct (resolve_slot slots now slot v d) as [[[r v1] d1]| |] eqn:E; cbn [res_bind]; try done.
  assert (H1 : drely d d1).
  { unfold resolve_slot in E. destruct (tr_resolved v !! slot) as [[]|]; try done; try (injection E as <- <- <-; by apply drely_same).
    destruct (slots !! slot) as [[id [l|]]|]; try done.
    - destruct (r2_reply_dst _); injection E as <- <- <-; by apply open_rely.
    - injection E as <- <- <-. case_match; [by apply repair_rely | by apply drely_same]. }
  pose proof (drely_shared _ _ H1) as Hs1. destruct r as [[sess dst]|]; [|intros E2; drely_step H1; by eapply IH].
  destruct (stage_item sess dst payload v1 d1) as [[v2 d2]| |] eqn:E2; cbn [res_bind]; try done.
  assert (Ec : ds_client d2 = ds_client d1).
  { unfold stage_item in E2. destruct (same_assoc _ _) as [[e app]|]; [injection E2 as <- <-; apply stage_follow_client|].
    destruct (r2_lookup sess d1) as [[[[e app]|] d3]| |] eqn:E3; cbn [res_bind] in E2; try done; injection E2 as <- <-; apply r2_lookup_client in E3;
      rewrite ?stage_reply_client; done. }
  intros E4. drely_step H1. pose proof (drely_same _ _ Hs1 Ec) as H2. eapply drely_trans; [exact Hs1 | exact H2|]. eapply IH; [by eapply drely_shared | exact E4].
Qed.

(** A datagram of the server, whatever it is. *)
Lemma dispatch_rely k b now d n d' : bytes_ok b -> dshared d ->
  dispatch_frame_kind dns_clock dns_epoch dns_memo own k b now d = Ok (n, d') -> drely d d'.
Proof.
  intros Hb Hs. destruct k; cbn [dispatch_frame_kind].
  all: first [by apply dispatch_r2_data_rely | by apply dispatch_r2_frag_rely | idtac].
  all: try (destruct (handle_r2_ctl_returns b now d Hb Hs) as (d1 & -> & H1); cbn; by intros [= <- <-]).
  unfold dispatch_r2_train, dispatch_items. destruct (decode_train _ b) as [t| |]; [|intros [= <- <-]; by apply drely_same | done].
  destruct (iterate _ _) as [its| |]; try done. destruct (dedupe its _) as [[sl tt]| |]; cbn [res_bind]; try done.
  destruct (train_items _ _ _ _ d) as [[v d1]| |] eqn:E; cbn [res_bind]; try done. intros [= <- <-]. by eapply train_items_rely.
Qed.
End Guarantee.

(* ------------------------------------------------------------------ *)
(** ** The associations of a connection *)

Section System.
Context {LO : Layout} {BU : Build} {Conn : Type} `{DatagramConn Conn} `{QuicConn Conn}.
Implicit Types s : Client Conn.

(** What an association does between two waits. *)
Inductive Event : Type :=
| ESend (ck : Clocks) (limit : Z) (addr : TargetAddr) (payload : bytes)
| EFlush (limit : Z)
| EDrain (limit : Z)
| EHold (target : TargetAddr) (payload : bytes) (mono : Z)
| EExpire (mono : Z)
| EClear
| EReplay (cks : list Clocks) (limit : Z).

(** Addresses are what the type of the source holds; a replay has a clock for
    each payload the hold can have. *)
Definition event_wf (ev : Event) : Prop :=
  match ev with
  | ESend _ _ addr _ | EHold addr _ _ => addr_wf addr
  | EReplay cks _ => PENDING_MAX_ITEMS <= len cks
  | _ => True
  end.

Definition do_event (sess : Z) (ev : Event) s : res unit (Client Conn) :=
  match ev with
  | ESend ck limit addr payload => let! '(_, s) := send_uplink ck limit sess addr payload s in Ok s
  | EFlush limit => let! '(_, s) := flush_stage limit s in Ok s
  | EDrain limit => let! '(_, s) := flush_and_drain limit s in Ok s
  | EHold target payload mono => Ok (hold_pending target payload mono s).2
  | EExpire mono => Ok (expire_pending mono s).2
  | EClear => Ok (clear_pending s).2
  | EReplay cks limit => let! '(_, s) := flush_pending_on cks limit sess s in Ok s
  end.

(** What an event of one association means to the others. *)
Record guarantee s s' : Prop := mkGuarantee {
  gu_world : world_step (tables s) (tables s');
  gu_drain : DrainRun.world_ok (cl_drain s');
  gu_gen : cn_epoch (cl_conn s') = cn_epoch (cl_conn s) /\ cn_wire (cl_conn s') = cn_wire (cl_conn s)
}.

Lemma out_guarantee sess s s' : client_ok sess s -> out_step s s' -> client_ok sess s' -> guarantee s s'.
Proof.
  intros C [E1 E2 E3 _ _] C'. split; [|apply C' | done]. unfold tables. rewrite E1. apply world_step_refl, C.
Qed.

Lemma hold_default : hold_ok UplinkPending_default.
Proof. split; cbn; try done; unfold PENDING_MAX_BYTES, PENDING_MAX_ITEMS, len; cbn; lia. Qed.

Lemma book_none_client sess n s : client_ok sess s -> client_ok sess (book_no_egress n s).
Proof. by intros []. Qed.

Lemma set_pending_guarantee sess p n s : client_ok sess s -> guarantee s (book_no_egress n (set_up (with_pending p (cl_up s)) s)).
Proof. intros C. split; [apply world_step_refl, C | apply C | done]. Qed.

Definition epoch_le s : Prop := up_epoch (cl_up s) <= cn_epoch (cl_conn s).

(** Every event returns; it keeps the association's invariant and is a step the
    others can live with. *)
Lemma do_event_returns sess ev s : client_ok sess s -> event_wf ev -> epoch_le s ->
  exists s', do_event sess ev s = Ok s' /\ client_ok sess s' /\ guarantee s s' /\ epoch_le s'.
Proof.
  intros C Hwf He. unfold epoch_le in *. destruct ev as [ck limit addr payload|limit|limit|target payload mono|mono| |cks limit]; cbn [do_event event_wf] in *.
  - destruct (send_uplink_returns ck limit sess addr payload s C Hwf) as (p & s' & -> & [S1 S2 (S3 & S3' & S3'') S4]). eexists. split; [reflexivity|].
    split_and!; [done | split; [done | apply S1 | done] | lia].
  - destruct (flush_client sess limit s C) as (r & s' & -> & O & C'). eexists. split; [reflexivity|].
    split_and!; [done | by eapply out_guarantee | destruct O as [_ E _ (_ & _ & E') _]; lia].
  - destruct (flush_and_drain_returns sess limit s C) as (r & s' & -> & O & C'). eexists. split; [reflexivity|].
    split_and!; [done | by eapply out_guarantee | destruct O as [_ E _ (_ & _ & E') _]; lia].
  - unfold hold_pending. destruct (try_push_spec target payload mono (up_pending (cl_up s)) (co_hold _ _ C) Hwf) as (ok & p & -> & Hp & _).
    eexists. split; [reflexivity|]. split_and!; [by apply set_pending_client | split; [apply world_step_refl, C | apply C | done] | done].
  - unfold expire_pending. destruct (held_expire_spec mono (up_pending (cl_up s)) (co_hold _ _ C)) as (gone & rest & _ & _ & -> & Hp & _).
    eexists. split; [reflexivity|]. split_and!; [by apply book_none_client, set_pending_client | by eapply set_pending_guarantee | done].
  - eexists. split; [reflexivity|]. split_and!; [apply book_none_client, set_pending_client; [done | apply hold_default] | by eapply set_pending_guarantee | done].
  - destruct (flush_pending_spec limit sess cks nothing_sent s C) as (agg & s' & gone & rest & s1 & E & C' & (L1 & L2 & L3) & _ & _ & _ & _ & Hle).
    { pose proof (ho_len _ (co_hold _ _ C)). unfold len in *. lia. }
    unfold flush_pending_on. rewrite E. eexists. split; [reflexivity|]. split_and!; [done | split; [done | apply C' | done] | by apply Hle].
Qed.

(** An association leaves. *)
Lemma release_returns sess epoch s : shared_ok s -> exists s', release_session sess epoch s = Ok s' /\ guarantee s s'.
Proof.
  intros [Ho Hd]. unfold release_session. case_match; [|exists s; split; [done|]; split; [by apply world_step_refl | done | done]].
  pose proof (step_remove_session (tables s) sess Ho) as Hw. change (w_heap (tables s)) with (heap s) in Hw. change (w_reg (tables s)) with (registry s) in Hw.
  destruct (remove_session sess (heap s) (registry s)) as [[n h] reg]. set (s1 := set_world _ s).
  destruct (lock_stager_returns s1 Hd) as (s2 & -> & H2). cbn [res_bind]. destruct (Stage.drop_session _ _ _) as [[k st] dr] eqn:E.
  eexists. split; [reflexivity|]. destruct H2 as ([E1 E2 E3 _ _] & _ & _ & Hd2). split; cbn; try done.
  - unfold tables. cbn. rewrite E1. exact Hw.
  - eapply (stage_op_ok (SDropSession sess)); [done | done|]. cbn [do_stage_op]. by rewrite E.
Qed.

(** One connection generation and the associations on it. *)
Record Clients : Type := mkClients {
  y_conn : ConnRev2;
  y_drain : Drain.World Conn;
  y_assocs : gmap Z (UplinkFlows * R2Fragmenter);
  y_over_cap : Z;
  y_no_egress : Z
}.

(** The state as the association of [sess] sees it, and what it leaves. *)
Definition load (u : UplinkFlows) (f : R2Fragmenter) (y : Clients) : Client Conn :=
  mkClient (y_conn y) (y_drain y) u f (y_over_cap y) (y_no_egress y).
Definition keep (sess : Z) s (y : Clients) : Clients :=
  mkClients (cl_conn s) (cl_drain s) (alter (fun _ => (cl_up s, cl_frag s)) sess (y_assocs y)) (cl_over_cap s) (cl_no_egress s).
Definition set_assocs (m : gmap Z (UplinkFlows * R2Fragmenter)) (y : Clients) : Clients :=
  mkClients (y_conn y) (y_drain y) m (y_over_cap y) (y_no_egress y).

(** The tables of a new generation, next to the bindings that live. *)
Definition new_tables (h : Heap) : Flow.World := Flow.mkWorld h (FlowIds_new false) (FlowRegistry_new R2_MAX_FLOWS_PER_CONN).

(** The steps of the client: an association starts, works or leaves; the
    dispatcher handles a datagram or a control message; an association is told
    that the server closed its session; the network, the retry task and the
    parts of the connection's state with no table move; the connection is
    dialled again. *)
Inductive client_step : Clients -> Clients -> Prop :=
| sy_join y sess f : y_assocs y !! sess = None -> client_step y (set_assocs (<[sess := (UplinkFlows_new, f)]> (y_assocs y)) y)
| sy_event y sess u f ev s : y_assocs y !! sess = Some (u, f) -> event_wf ev -> do_event sess ev (load u f y) = Ok s -> client_step y (keep sess s y)
| sy_leave y sess u f s : y_assocs y !! sess = Some (u, f) -> release_session sess (up_epoch u) (load u f y) = Ok s ->
    client_step y (set_assocs (delete sess (y_assocs y)) (keep sess s y))
| sy_datagram y own u f clock epoch memo k b now n d d' : default (u, f) (y_assocs y !! own) = (u, f) -> bytes_ok b -> ds_client d = load u f y ->
    dispatch_frame_kind clock epoch memo own k b now d = Ok (n, d') -> client_step y (keep own (ds_client d') y)
| sy_ctl y own u f msg now d d' : default (u, f) (y_assocs y !! own) = (u, f) -> ds_client d = load u f y ->
    handle_r3_ctl own msg now d = Ok d' -> client_step y (keep own (ds_client d') y)
| sy_signal y sess u f : y_assocs y !! sess = Some (u, f) ->
    client_step y (set_assocs (<[sess := (mkUplinkFlows (up_flows u) (up_epoch u) true (up_last u) (up_pending u) (up_stage_batch u) (up_stage_batch_bytes u), f)]> (y_assocs y)) y)
| sy_network y c dr : DrainRun.world_ok dr -> cn_flows c = cn_flows (y_conn y) -> cn_epoch c = cn_epoch (y_conn y) -> cn_wire c = cn_wire (y_conn y) ->
    client_step y (mkClients c dr (y_assocs y) (y_over_cap y) (y_no_egress y))
| sy_redial y epoch w dr : cn_epoch (y_conn y) < epoch -> DrainRun.world_ok dr ->
    client_step y (mkClients (ConnRev2_new epoch w (w_heap (cn_flows (y_conn y)))) dr (y_assocs y) (y_over_cap y) (y_no_egress y)).

Inductive client_reach : Clients -> Prop :=
| sy_start epoch w h dr : 0 < epoch -> DrainRun.world_ok dr -> client_reach (mkClients (ConnRev2_new epoch w h) dr ∅ 0 0)
| sy_steps y y' : client_reach y -> client_step y y' -> client_reach y'.

Record clients_ok (y : Clients) : Prop := mkClientsOk {
  so_tables : tables_ok (cn_flows (y_conn y));
  so_drain : DrainRun.world_ok (y_drain y);
  so_epoch : 0 < cn_epoch (y_conn y);
  so_assocs : forall sess u f, y_assocs y !! sess = Some (u, f) -> client_ok sess (load u f y) /\ up_epoch u <= cn_epoch (y_conn y)
}.

Lemma new_tables_ok h : tables_ok (new_tables h).
Proof.
  split; [|done]. split_and!; [|unfold ids_ok, MAX_LOCAL_FLOW_ID; cbn; done | intros id l; cbn; by rewrite lookup_empty].
  eapply reg_inv_le; [apply new_reg_inv; unfold R2_MAX_FLOWS_PER_CONN, usize_max; lia|]. intros l x Hl. by rewrite lookup_empty in Hl.
Qed.

(** A step of the shared state that is fine for every association. *)
Lemma shared_step y y' : clients_ok y -> (forall u f, guarantee (load u f y) (load u f y')) ->
  (forall sess u f, y_assocs y' !! sess = Some (u, f) -> y_assocs y !! sess = Some (u, f) \/ client_ok sess (load u f y') /\ up_epoch u <= cn_epoch (y_conn y')) ->
  clients_ok y'.
Proof.
  intros [Y1 Y2 Y3 Y4] Hg Ha. pose proof (Hg UplinkFlows_new R2Fragmenter_new) as [G1 G2 (G3 & G4)]. cbn in G3. split; [apply G1 | done | cbn in *; lia|].
  intros sess u f Hu. destruct (Ha _ _ _ Hu) as [Hold|?]; [|done]. destruct (Y4 _ _ _ Hold) as [C He]. split; [|lia].
  destruct (Hg u f) as [R1 R2 R3]. eapply rely_client; [exact C|]. by split.
Qed.

(** What one association, or the dispatcher on its behalf, leaves. *)
Lemma keep_ok sess u f s y : clients_ok y -> guarantee (load u f y) s ->
  (y_assocs y !! sess = Some (u, f) -> client_ok sess s /\ up_epoch (cl_up s) <= cn_epoch (cl_conn s)) ->
  default (u, f) (y_assocs y !! sess) = (u, f) -> clients_ok (keep sess s y).
Proof.
  intros Hy Hg Hs Hd. eapply shared_step; [exact Hy | intros u' f'; destruct Hg; by split|]. intros sess' u' f' Hu. cbn in Hu.
  destruct (decide (sess' = sess)) as [->|Hne]; [|rewrite lookup_alter_ne in Hu by done; by left]. rewrite lookup_alter_eq in Hu.
  destruct (y_assocs y !! sess) as [[u0 f0]|]; [|done]. cbn in *. injection Hd as -> ->. injection Hu as <- <-. right. destruct (Hs eq_refl) as [[C1 C2 C3 C4 C5] He].
  split; [by split | done].
Qed.

Lemma rely_guarantee s s' : rely s s' -> guarantee s s'.
Proof. intros []. by split. Qed.

(** The dispatcher on the association of [sess]. *)
Lemma rely_keep sess u f s y : clients_ok y -> rely (load u f y) s -> default (u, f) (y_assocs y !! sess) = (u, f) -> clients_ok (keep sess s y).
Proof.
  intros Hy Hr Hd. eapply keep_ok; [done | by apply rely_guarantee | | done]. intros Hu. destruct (so_assocs _ Hy _ _ _ Hu) as [C He].
  split; [by eapply rely_client|]. destruct Hr as [_ _ (E1 & _) (_ & E2 & _)]. cbn in *. lia.
Qed.

Lemma clients_shared y u f : clients_ok y -> shared_ok (load u f y).
Proof. intros []. by split. Qed.

Lemma client_step_ok y y' : client_step y y' -> clients_ok y -> clients_ok y'.
Proof.
  intros Hst Hy. destruct Hst as [y sess f Hn|y sess u f ev s Hu Hwf E|y sess u f s Hu E|y own u f clock ep memo k b now n d d' Hu Hb Hd E|y own u f msg now d d' Hu Hd E
    |y sess u f Hu|y c dr Hd E1 E2 E3|y epoch w dr He Hd].
  - destruct Hy as [Y1 Y2 Y3 Y4]. split; try done. intros sess' u' f' Hu'. cbn in Hu'. apply lookup_insert_Some in Hu' as [[<- [= <- <-]]|[_ Hu']]; [|by apply Y4].
    split; [|cbn; lia]. split; try done; first [by apply uplink_batch_nil | apply hold_default | intros _; by apply fresh_assoc].
  - destruct (so_assocs _ Hy _ _ _ Hu) as [C He]. destruct (do_event_returns sess ev (load u f y) C Hwf He) as (s' & E' & C' & G & He').
    rewrite E in E'. injection E' as <-. eapply keep_ok; [done | exact G | done | by rewrite Hu].
  - destruct (release_returns sess (up_epoch u) (load u f y) (clients_shared _ _ _ Hy)) as (s' & E' & G). rewrite E in E'. injection E' as <-.
    eapply shared_step; [exact Hy | intros u' f'; destruct G; by split|]. intros sess' u' f' Hu'. cbn in Hu'. apply lookup_delete_Some in Hu' as [_ Hu']. by left.
  - apply (rely_keep own u f); [done | | done]. rewrite <- Hd. eapply dispatch_rely; [exact Hb | | exact E]. unfold dshared. rewrite Hd. by apply clients_shared.
  - apply (rely_keep own u f); [done | | done]. rewrite <- Hd. destruct (handle_r3_ctl_returns own msg now d) as (d1 & E1 & H1); [unfold dshared; rewrite Hd; by apply clients_shared|].
    rewrite E in E1. by injection E1 as <-.
  - destruct (so_assocs _ Hy _ _ _ Hu) as [C He]. destruct Hy as [Y1 Y2 Y3 Y4]. split; try done. intros sess' u' f' Hu'. cbn in Hu'.
    apply lookup_insert_Some in Hu' as [[<- [= <- <-]]|[_ Hu']]; [|by apply Y4]. split; [|done]. eapply rely_client; [exact C|]. split; try done. by apply world_step_refl.
  - eapply shared_step; [exact Hy | | by left]. intros u f. split; cbn; try done. unfold tables. cbn. rewrite E1. apply world_step_refl, Hy.
  - destruct Hy as [Y1 Y2 Y3 Y4]. split; cbn; try done; [apply new_tables_ok | lia|]. intros sess u f Hu. destruct (Y4 _ _ _ Hu) as [[C1 C2 C3 C4 C5] He']. split; [|lia].
    split; try done; [apply new_tables_ok|]. cbn. lia.
Qed.

Lemma client_reach_ok y : client_reach y -> clients_ok y.
Proof.
  induction 1 as [epoch w h dr He Hd|y y' _ IH Hst]; [|by eapply client_step_ok]. split; try done. apply new_tables_ok.
Qed.
End System.
Arguments Clients Conn : clear implicits.
