(* ===== verification/UplinkLaws.v ===== *)
(** What the client's uplink promises, in every state its associations, its
    dispatcher and its redials can reach. *)
From stdpp Require Import fin_maps relations.
From S2P Require Import Prelude Addr Codec R3 R3Train R3Ctl R2 R2Train Wire Frag Partial Reasm Binding Flow FlowRun Stage StageRun Pack Drain DrainRun DnsPolicy DnsMemo Window Client Dispatch DispatchRun UplinkInv UplinkRun UplinkSys.

Section Laws.
Context {LO : Layout} {BU : Build} {Conn : Type} `{DatagramConn Conn} `{QuicConn Conn}.

(** C15: a payload travels on its own flow or says where it goes.  Whatever the
    associations, the server's control plane and the redials did before, a send
    to an address the codec takes follows the connection first and then sends
    the payload on one route.  A wire id is only used for a binding of this
    session and this target that is not closed, and an id of this endpoint only
    while it is registered to that very binding; at most one id is spent, for a
    new binding.  A frame without context names a binding that is neither
    opening nor closed, and on rev3 never before the handshake is done, when
    the context is repeated without spending the binding's budget.  A payload
    goes inline, and no id is spent, only if the association's table is full, the
    target was refused, or the connection has no room for a flow. *)
Theorem uplink_route (y : Clients Conn) sess u f ck limit addr payload hd :
  client_reach y -> y_assocs y !! sess = Some (u, f) -> header addr = Ok hd ->
  let s := prepare (load u f y) in
  exists r s', send_uplink ck limit sess addr payload (load u f y) = on_route (frame_limit limit (cl_conn s)) (ck_mono ck) sess addr payload r s' /\
    routed sess addr (ck_coarse ck) s r s' /\
    (forall id, r = Some (id, false) -> exists l b, heap s' !! l = Some b /\ fb_wire_id b = id /\ fb_state b <> OPENING /\ fb_state b <> CLOSED).
Proof.
  intros Hy Hu Hh s. destruct (so_assocs _ (client_reach_ok _ Hy) _ _ _ Hu) as [C He]. pose proof (prepare_spec sess _ C) as Hs. fold s in Hs.
  rewrite send_uplink_route. cbv zeta. fold s. rewrite Hh. destruct (route sess addr (ck_coarse ck) s) as [r s'] eqn:Er.
  apply route_spec in Er as Hr; [|apply Hs | apply (co_assoc _ _ (sy_client _ _ _ Hs)), Hs]. exists r, s'. split_and!; [done | done|].
  intros id ->. destruct Hr as (_ & l & b & b' & s1 & _ & _ & Hb' & Hid & _ & _ & Hn & _ & Hc & _). exists l, b'.
  destruct (choice_steady _ _ _ _ Hc Hn) as (-> & Ho & _). done.
Qed.

(** C16: the uplink always returns.  In every reachable state, each thing an
    association does (a send of any payload to any address, a flush, a drain, a
    hold, an expiry, a replay of the hold) ends without a panic, in a reachable
    state again: the batch keeps less than a train of small payloads of its own
    session and counts their bytes exactly, the hold stays within 64 payloads
    and 64 KiB with its count exact, and the other associations and the
    connection's tables keep their invariants. *)
Theorem uplink_returns (y : Clients Conn) sess u f ev : client_reach y -> y_assocs y !! sess = Some (u, f) -> event_wf ev ->
  exists s, do_event sess ev (load u f y) = Ok s /\ client_reach (keep sess s y) /\ batch_ok sess (cl_up s) /\ hold_ok (up_pending (cl_up s)) /\
    forall sess' u' f', y_assocs (keep sess s y) !! sess' = Some (u', f') -> client_ok sess' (load u' f' (keep sess s y)).
Proof.
  intros Hy Hu Hwf. destruct (so_assocs _ (client_reach_ok _ Hy) _ _ _ Hu) as [C He].
  destruct (do_event_returns sess ev (load u f y) C Hwf He) as (s & E & C' & _). exists s.
  assert (Hy' : client_reach (keep sess s y)) by (eapply sy_steps; [exact Hy | by eapply sy_event]).
  split_and!; [done | done | apply C' | apply C'|]. intros sess' u' f' Hu'. by apply (so_assocs _ (client_reach_ok _ Hy')).
Qed.

(** C39: the hold is a queue.  Once an egress exists, a replay sends the held
    payloads from the oldest on, each once and in order, and ends when the hold
    is empty or a send finds the connection dead: then exactly the payloads
    from that one on are still held, the failed one first.  A payload is held
    only while there is room, behind all others; an expiry removes a prefix of
    stale payloads and counts it, all stale ones when the hold is in the order
    of its clock. *)
Theorem hold_fifo (y : Clients Conn) sess u f : client_reach y -> y_assocs y !! sess = Some (u, f) ->
  let p := up_pending u in
  (forall cks limit, PENDING_MAX_ITEMS <= len cks -> exists agg s' gone rest s1,
     flush_pending_on cks limit sess (load u f y) = Ok (agg, s') /\ pd_items p = gone ++ rest /\
     replayed limit sess cks gone (load u f y) s1 /\ replay_ended limit sess rest s1 s' /\
     up_pending (cl_up s') = mkUplinkPending rest (held_bytes rest)) /\
  (forall target payload now, addr_wf target -> exists ok p', try_push target payload now p = (ok, p') /\ (ok = true <-> hold_room payload p) /\
     pd_items p' = pd_items p ++ (if ok then [mkHeldPayload target payload now] else [])) /\
  (forall now, exists gone rest, pd_items p = gone ++ rest /\ expire now p = (len gone, mkUplinkPending rest (held_bytes rest)) /\
     Forall (stale now) gone /\ (in_order (pd_items p) -> Forall (fun i => ~ stale now i) rest)).
Proof.
  intros Hy Hu p. destruct (so_assocs _ (client_reach_ok _ Hy) _ _ _ Hu) as [C He]. pose proof (co_hold _ _ C : hold_ok p) as Hp. split_and!.
  - intros cks limit Hl. destruct (flush_pending_spec limit sess cks nothing_sent (load u f y) C) as (agg & s' & gone & rest & s1 & E & C' & _ & Ei & Hr & Hp' & Hd & _).
    { pose proof (ho_len _ Hp). unfold len in *. cbn [cl_up load]. fold p. lia. }
    exists agg, s', gone, rest, s1. split_and!; try done. pose proof (ho_bytes _ (co_hold _ _ C')) as Hb. rewrite Hp' in Hb.
    destruct (up_pending (cl_up s')) as [its tot]. cbn in *. congruence.
  - intros target payload now Hwf. destruct (try_push_spec target payload now p Hp Hwf) as (ok & p' & E & _ & Hok & Hi). exists ok, p'. split_and!; [done | done|].
    destruct ok; [done | by rewrite app_nil_r].
  - intros now. destruct (held_expire_spec now p Hp) as (gone & rest & E & Hg & Ee & _ & Ho). by exists gone, rest.
Qed.
End Laws.

(* ------------------------------------------------------------------ *)
(** ** A concrete run, in a build with debug assertions *)

#[local] Existing Instance debug_build.

Lemma demo_drain_ok w : DrainRun.world_ok (demo_drain w).
Proof.
  split; cbn [demo_drain dn_stage dn_link dn_env lk_drops].
  - apply new_stage_inv; unfold R2_STAGE_MAX_ITEMS, R2_STAGE_MAX_BYTES, usize_max; lia.
  - intros x. unfold queue_of. cbn. rewrite lookup_empty. constructor.
  - destruct w; by vm_compute.
  - unfold drops_u64, is_u64. cbn. lia.
  - constructor.
Qed.

(** One association, of session 7, on a rev3 connection. *)
Definition demo_clients : Clients BufConn :=
  set_assocs (<[7 := (UplinkFlows_new, R2Fragmenter_new)]> ∅) (mkClients (ConnRev2_new 1 Rev3 ∅) (demo_drain Rev3) ∅ 0 0).

Lemma demo_reach : client_reach demo_clients.
Proof.
  eapply sy_steps; [apply (sy_start 1 Rev3 ∅ (demo_drain Rev3)); [lia | apply demo_drain_ok]|]. by apply (sy_join (mkClients (ConnRev2_new 1 Rev3 ∅) (demo_drain Rev3) ∅ 0 0) 7 R2Fragmenter_new).
Qed.

Lemma demo_addr_wf : addr_wf demo_target.
Proof. cbn. repeat split; try done; repeat constructor; lia. Qed.

(** The first payload opens a flow, with its context. *)
Lemma uplink_route_witness : let s := prepare (load UplinkFlows_new R2Fragmenter_new demo_clients) in
  (exists r s', send_uplink (mkClocks 0 0) 1200 7 demo_target [1; 2; 3] (load UplinkFlows_new R2Fragmenter_new demo_clients) =
    on_route (frame_limit 1200 (cl_conn s)) 0 7 demo_target [1; 2; 3] r s' /\ routed 7 demo_target 0 s r s') /\
  (route 7 demo_target 0 s).1 = Some (2, true).
Proof.
  assert (Hh : exists hd, header demo_target = Ok hd) by (eexists; reflexivity). destruct Hh as [hd Hh].
  destruct (uplink_route demo_clients 7 UplinkFlows_new R2Fragmenter_new (mkClocks 0 0) 1200 demo_target [1; 2; 3] hd demo_reach (lookup_insert_eq _ _ _) Hh)
    as (r & s' & E & Hr & _).
  split; [exists r, s'; split; [exact E | exact Hr] | vm_compute; reflexivity].
Defined.

Lemma uplink_returns_witness : exists s, do_event 7 (ESend (mkClocks 0 0) 1200 demo_target [1; 2; 3]) (load UplinkFlows_new R2Fragmenter_new demo_clients) = Ok s /\
  client_reach (keep 7 s demo_clients).
Proof.
  destruct (uplink_returns demo_clients 7 UplinkFlows_new R2Fragmenter_new (ESend (mkClocks 0 0) 1200 demo_target [1; 2; 3]) demo_reach (lookup_insert_eq _ _ _) demo_addr_wf)
    as (s & E & Hy & _). exists s. split; [exact E | exact Hy].
Defined.

(** A payload waits for the connection, then leaves. *)
Definition demo_held : UplinkFlows := with_pending (try_push demo_target [9] 0 UplinkPending_default).2 UplinkFlows_new.
Definition demo_holding : Clients BufConn := keep 7 (load demo_held R2Fragmenter_new demo_clients) demo_clients.

Lemma demo_holding_reach : client_reach demo_holding.
Proof. eapply sy_steps; [apply demo_reach|]. eapply (sy_event _ 7 _ _ (EHold demo_target [9] 0)); [apply lookup_insert_eq | apply demo_addr_wf | reflexivity]. Qed.

Lemma hold_fifo_witness : exists agg s', flush_pending_on (replicate 64 (mkClocks 0 0)) 1200 7 (load demo_held R2Fragmenter_new demo_holding) = Ok (agg, s') /\
  pd_items (up_pending (cl_up s')) = [] /\ (expire 600 (up_pending demo_held)).1 = 1.
Proof.
  destruct (hold_fifo demo_holding 7 demo_held R2Fragmenter_new demo_holding_reach eq_refl) as (H1 & _ & _).
  destruct (H1 (replicate 64 (mkClocks 0 0)) 1200) as (agg & s' & gone & rest & s1 & E & _ & _ & _ & Hr); [by vm_compute|]. exists agg, s'. split; [exact E|].
  assert (E2 : exists q p, flush_pending_on (replicate 64 (mkClocks 0 0)) 1200 7 (load demo_held R2Fragmenter_new demo_holding) = Ok (q, p) /\ pd_items (up_pending (cl_up p)) = [])
    by (eexists _, _; split; [vm_compute; reflexivity | reflexivity]).
  destruct E2 as (q & p & E2 & E3). rewrite E in E2. injection E2 as _ ->. split; [exact E3 | reflexivity].
Defined.

(* ------------------------------------------------------------------ *)
(** ** Where a route ends *)

(** A binding the server opened has no context form on rev3: once its context is
    asked for again, the frames that should carry it are not encoded. *)
Lemma server_flow_has_no_open id sess addr payload limit body : is_u32 id -> wire_id_server_owned id = true ->
  encode_data_open Rev3 id sess addr false payload limit <> Ok body.
Proof.
  intros Hu Ho. cbn [encode_data_open andb]. destruct (fid_for id) as [fid|] eqn:E; cbn [of_option res_bind]; [|done].
  destruct (fid_for_inv id fid Hu E) as (_ & _ & _ & _ & Hc). rewrite Ho in Hc. change (of_option (Some fid)) with (@Ok unit Z fid). cbn [res_bind]. unfold R3.encode_data_open, require_fid_owner. by rewrite Hc.
Qed.

(** A connection with room for 1100 bytes. *)
Definition narrow_client : Client BufConn :=
  mkClient (ConnRev2_new 1 Rev3 ∅)
    (Drain.mkWorld (mkLink (mkBufConn 1100 []) (mkDrops 0 0 0) (mkSendStats 0 0 0 0 0)) (R2Stager_new_with_wire Rev3) [] [])
    UplinkFlows_new R2Fragmenter_new 0 0.

Fixpoint send_each (ps : list bytes) (s : Client BufConn) : res unit (Client BufConn) :=
  match ps with
  | [] => Ok s
  | p :: ps => let! '(_, s) := send_uplink (mkClocks 0 0) 1200 7 demo_target p s in send_each ps s
  end.

(** A payload sent alone goes out although its drain was blocked: here nine
    earlier payloads of the session are still queued when it has left. *)
Lemma large_overtakes : exists s, send_each ([1] :: [2] :: replicate 20 (replicate 100 3) ++ [replicate 600 4]) narrow_client = Ok s /\
  (fun b => (len b, List.last b 0)) <$> bc_queue (quic s) = [(15, 1); (15, 2); (602, 4)] /\ sg_queued_items (dn_stage (cl_drain s)) = 9.
Proof. eexists. split; [vm_compute; reflexivity|]. split; vm_compute; reflexivity. Qed.
