(* ===== verification/Hub.v ===== *)
(** The client's association hub ([src/bin/myquic2-client/hub.rs]): the sharded
    table of the associations, the reservation of session ids, and the life of
    an association's entry as the dispatcher's cache sees it.

    Every operation is one step: the shards are replaced as a whole ([rcu]) and
    the counters are single atomic updates.  An association's exit marks its
    entry dead before it releases its id, which is the order of [AliveGuard]
    inside [SessReservation] and of [PeerSession]'s drop. *)
From stdpp Require Import fin_maps.
From S2P Require Import Prelude Addr Codec R3 R3Train R3Ctl R2 R2Train Wire Frag Partial Reasm Binding Flow Stage Pack Drain DnsPolicy DnsMemo Window Client Dispatch DispatchRun.

Definition HUB_SHARDS : Z := 256.
Definition MAX_UDP_ASSOCS : Z := 4032.

Record UdpHub : Type := mkUdpHub {
  hb_subs : list (gmap Z positive);
  hb_next : Z;
  hb_len : Z;
  hb_max : Z
}.

Definition with_capacity (max : Z) : UdpHub :=
  mkUdpHub (replicate (Z.to_nat HUB_SHARDS) ∅) 1 0 (clamp max 1 MAX_UDP_ASSOCS).

Definition shard (s : Z) : nat := Z.to_nat (s mod HUB_SHARDS).

Definition hub_entry (s : Z) (h : UdpHub) : option positive := m ← hb_subs h !! shard s; m !! s.

Definition hub_publish (s : Z) (e : positive) (h : UdpHub) : UdpHub :=
  mkUdpHub (alter (insert s e) (shard s) (hb_subs h)) (hb_next h) (hb_len h) (hb_max h).

Definition unpublish (s : Z) (h : UdpHub) : UdpHub :=
  mkUdpHub (alter (delete s) (shard s) (hb_subs h)) (hb_next h) (hb_len h) (hb_max h).

Definition hub_release (s : Z) (h : UdpHub) : UdpHub :=
  let h := unpublish s h in mkUdpHub (hb_subs h) (hb_next h) (as_u64 (hb_len h - 1)) (hb_max h).

(** The search loop of [alloc_sess]. *)
Fixpoint alloc_go (turns : nat) (h : UdpHub) : res unit (Z * UdpHub) :=
  match turns with
  | O => Panic
  | S turns =>
      let s := hb_next h in
      let h := mkUdpHub (hb_subs h) (as_u32 (s + 1)) (hb_len h) (hb_max h) in
      if (s =? 0) || (s =? 2 ^ 32 - 1) then alloc_go turns h else
      if bool_decide (is_Some (hub_entry s h)) then alloc_go turns h else Ok (s, h)
  end.

(* ------------------------------------------------------------------ *)
(** ** The shards as one map *)

(** The map the dispatcher's probes read. *)
Definition flat (h : UdpHub) : gmap Z positive := ⋃ (hb_subs h).

(** Each published entry makes the loop turn at most once, as do the two
    reserved ids. *)
Definition alloc_turns (h : UdpHub) : nat := S (S (S (size (flat h)))).

Definition alloc_sess (h : UdpHub) : res unit (option Z * UdpHub) :=
  if hb_len h >=? hb_max h then Ok (None, h) else
  let h := mkUdpHub (hb_subs h) (hb_next h) (hb_len h + 1) (hb_max h) in
  let! '(s, h) := alloc_go (alloc_turns h) h in Ok (Some s, h).

Definition shards_ok (h : UdpHub) : Prop := length (hb_subs h) = Z.to_nat HUB_SHARDS /\
  forall i m s e, hb_subs h !! i = Some m -> m !! s = Some e -> i = shard s.

Lemma union_list_Some (l : list (gmap Z positive)) s e : (⋃ l) !! s = Some e -> exists i m, l !! i = Some m /\ m !! s = Some e.
Proof.
  induction l as [|m l IH]; cbn; [by rewrite lookup_empty|]. intros [Hm|[_ Hm]]%lookup_union_Some_raw; [by exists 0%nat, m|].
  destruct (IH Hm) as (i & m' & ? & ?). by exists (S i), m'.
Qed.

Lemma union_list_unique (l : list (gmap Z positive)) i m s e : l !! i = Some m -> m !! s = Some e ->
  (forall j m', l !! j = Some m' -> is_Some (m' !! s) -> j = i) -> (⋃ l) !! s = Some e.
Proof.
  revert i. induction l as [|m0 l IH]; intros i Hi Hm Hu; [done|]. cbn. destruct i as [|i].
  - injection Hi as ->. by apply lookup_union_Some_l.
  - rewrite lookup_union_r; [|destruct (m0 !! s) eqn:E; [by specialize (Hu 0%nat m0 eq_refl ltac:(by eexists)) | done]].
    apply (IH i); try done. intros j m' Hj Hs. specialize (Hu (S j) m' Hj Hs). by injection Hu.
Qed.

Lemma shard_lt s : (shard s < Z.to_nat HUB_SHARDS)%nat.
Proof. unfold shard, HUB_SHARDS. pose proof (Z.mod_pos_bound s 256 ltac:(lia)). lia. Qed.

Lemma flat_entry h s : shards_ok h -> flat h !! s = hub_entry s h.
Proof.
  intros [Hl Hs]. unfold hub_entry, flat. apply option_eq. intros e. split.
  - intros (i & m & Hi & Hm)%union_list_Some. rewrite <- (Hs _ _ _ _ Hi Hm), Hi. done.
  - intros (m & Hi & Hm)%bind_Some. apply (union_list_unique _ _ m s e Hi Hm). intros j m' Hj [e' He]. by apply (Hs _ _ _ _ Hj He).
Qed.

Lemma alter_shards (f : gmap Z positive -> gmap Z positive) s h next n mx : shards_ok h ->
  (forall m s' e, f m !! s' = Some e -> s' = s \/ m !! s' = Some e) -> shards_ok (mkUdpHub (alter f (shard s) (hb_subs h)) next n mx).
Proof.
  intros [Hl Hs] Hf. split; cbn; [by rewrite length_alter|]. intros i m s' e Hi Hm. destruct (decide (i = shard s)) as [->|Hne].
  - rewrite list_lookup_alter_eq in Hi. destruct (hb_subs h !! shard s) as [m0|] eqn:E; [|done]. injection Hi as <-.
    destruct (Hf _ _ _ Hm) as [->|Hm']; [done | by eapply Hs].
  - rewrite list_lookup_alter_ne in Hi by done. by eapply Hs.
Qed.

Lemma hub_shard s h : shards_ok h -> is_Some (hb_subs h !! shard s).
Proof. intros [Hl _]. apply lookup_lt_is_Some. rewrite Hl. apply shard_lt. Qed.

Lemma entry_publish s e h : shards_ok h -> shards_ok (hub_publish s e h) /\ (forall s', hub_entry s' (hub_publish s e h) = if decide (s' = s) then Some e else hub_entry s' h).
Proof.
  intros Ho. split.
  - apply alter_shards; [done|]. intros m s' e' Hm. apply lookup_insert_Some in Hm as [[<- _]|[_ ?]]; auto.
  - intros s'. unfold hub_entry. cbn. destruct (decide (shard s' = shard s)) as [E|E].
    + rewrite E, list_lookup_alter_eq. destruct (hub_shard s h Ho) as [m ->]. cbn. case_decide as Ed; [subst; by rewrite lookup_insert_eq | by rewrite lookup_insert_ne].
    + rewrite list_lookup_alter_ne by done. case_decide; [by subst | done].
Qed.

Lemma entry_unpublish s h next n mx : shards_ok h -> let h' := mkUdpHub (hb_subs (unpublish s h)) next n mx in
  shards_ok h' /\ (forall s', hub_entry s' h' = if decide (s' = s) then None else hub_entry s' h).
Proof.
  intros Ho h'. split.
  - apply alter_shards; [done|]. intros m s' e' Hm. apply lookup_delete_Some in Hm as [_ ?]. auto.
  - intros s'. unfold hub_entry. cbn. destruct (decide (shard s' = shard s)) as [E|E].
    + rewrite E, list_lookup_alter_eq. destruct (hub_shard s h Ho) as [m ->]. cbn. case_decide as Ed; [subst; by rewrite lookup_delete_eq | by rewrite lookup_delete_ne].
    + rewrite list_lookup_alter_ne by done. case_decide; [by subst | done].
Qed.

(* ------------------------------------------------------------------ *)
(** ** Reserving an id *)

Definition taken (h : UdpHub) (s : Z) : Prop := s = 0 \/ s = 2 ^ 32 - 1 \/ is_Some (hub_entry s h).

Lemma alloc_go_spec n : forall h, is_u32 (hb_next h) ->
  (exists s h', alloc_go n h = Ok (s, h') /\ is_u32 s /\ ~ taken h s /\ hb_subs h' = hb_subs h /\ is_u32 (hb_next h') /\ hb_len h' = hb_len h /\ hb_max h' = hb_max h) \/
  (forall i, 0 <= i < Z.of_nat n -> taken h ((hb_next h + i) mod 2 ^ 32)).
Proof.
  induction n as [|n IH]; intros h Hu; [right; lia|]. cbn [alloc_go]. set (h1 := mkUdpHub _ (as_u32 _) _ _).
  assert (Hu1 : is_u32 (hb_next h1)) by (cbn; unfold is_u32, as_u32; apply Z.mod_pos_bound; lia).
  assert (Hmod : forall i, (hb_next h1 + i) mod 2 ^ 32 = (hb_next h + (i + 1)) mod 2 ^ 32).
  { intros i. cbn. unfold as_u32. rewrite Zplus_mod_idemp_l. f_equal. lia. }
  assert (Hgo : taken h (hb_next h) -> (exists s h', alloc_go n h1 = Ok (s, h') /\ is_u32 s /\ ~ taken h s /\ hb_subs h' = hb_subs h /\ is_u32 (hb_next h') /\ hb_len h' = hb_len h /\ hb_max h' = hb_max h) \/
    (forall i, 0 <= i < Z.of_nat (S n) -> taken h ((hb_next h + i) mod 2 ^ 32))).
  { intros Ht. destruct (IH h1 Hu1) as [?|Ha]; [by left | right]. intros i Hi. destruct (decide (i = 0)) as [->|Hne].
    - rewrite Z.add_0_r, Z.mod_small by apply Hu. done.
    - specialize (Ha (i - 1) ltac:(lia)). rewrite Hmod in Ha. replace (i - 1 + 1) with i in Ha by lia. exact Ha. }
  destruct ((hb_next h =? 0) || _) eqn:E.
  - apply Hgo. apply orb_true_iff in E as [E|E]; zbool; [by left | by right; left].
  - case_bool_decide as Eb; [apply Hgo; right; by right|]. left. eexists _, h1. split; [reflexivity|]. apply orb_false_iff in E as [E1 E2]. zbool.
    split_and!; try done. by intros [?|[?|?]].
Qed.

(** The loop finds an id within its turns: there are more consecutive ids than
    published ones. *)
Lemma alloc_go_returns h : shards_ok h -> is_u32 (hb_next h) -> Z.of_nat (size (flat h)) + 3 <= 2 ^ 32 ->
  exists s h', alloc_go (alloc_turns h) h = Ok (s, h') /\ is_u32 s /\ ~ taken h s /\ hb_subs h' = hb_subs h /\ is_u32 (hb_next h') /\ hb_len h' = hb_len h /\ hb_max h' = hb_max h.
Proof.
  intros Ho Hu Hs. destruct (alloc_go_spec (alloc_turns h) h Hu) as [?|Ha]; [done|]. exfalso.
  set (ids := (fun i => (hb_next h + Z.of_nat i) mod 2 ^ 32) <$> seq 0 (alloc_turns h)).
  assert (Hnd : NoDup ids).
  { apply NoDup_fmap_2_strong; [|apply NoDup_seq]. intros i j Hi%elem_of_seq Hj%elem_of_seq E. unfold alloc_turns in *.
    assert (Hz : ((hb_next h + Z.of_nat i) - (hb_next h + Z.of_nat j)) mod 2 ^ 32 = 0) by (rewrite Zminus_mod, E, Z.sub_diag; done).
    apply Z.mod_divide in Hz as [q Hq]; [|lia]. assert (q = 0) by nia. lia. }
  assert (Hsub : list_to_set (C := gset Z) ids ⊆ {[0; 2 ^ 32 - 1]} ∪ dom (flat h)).
  { intros x Hx. apply elem_of_list_to_set, list_elem_of_fmap in Hx as (i & -> & Hi%elem_of_seq).
    destruct (Ha (Z.of_nat i) ltac:(lia)) as [->|[->|Hs']]; [set_solver.. |]. apply elem_of_union_r, elem_of_dom. by rewrite flat_entry. }
  apply subseteq_size in Hsub. rewrite size_list_to_set in Hsub by done. subst ids. rewrite length_fmap, length_seq in Hsub.
  assert (size ({[0%Z; (2 ^ 32 - 1)%Z]} ∪ dom (flat h) : gset Z) <= 2 + size (flat h))%nat.
  { rewrite <- size_dom. rewrite size_union_alt. pose proof (subseteq_size (dom (flat h) ∖ {[0; 2 ^ 32 - 1]}) (dom (flat h)) ltac:(set_solver)).
    assert (size ({[0; 2 ^ 32 - 1]} : gset Z) = 2%nat) by reflexivity. lia. }
  unfold alloc_turns in *. lia.
Qed.

(* ------------------------------------------------------------------ *)
(** ** The life of an association *)

(** An id that is reserved, published with a live entry, or on its way out. *)
Inductive Phase : Type :=
| Reserved
| Live (e : positive)
| Dead (e : positive).

Definition phase_entry (p : Phase) : option positive := match p with Reserved => None | Live e | Dead e => Some e end.

Section Life.
Context {Conn : Type} `{DatagramConn Conn} `{QuicConn Conn}.

(** The hub, the entries something holds, the dispatcher's cache, and the ids in
    use. *)
Record HubSys : Type := mkHubSys {
  hs_hub : UdpHub;
  hs_entries : gmap positive AssocEntry;
  hs_cache : list DispatchSlot;
  hs_phase : gmap Z Phase
}.

(** The dispatcher's state, with the rest from [d]. *)
Definition view (d : Disp Conn) (y : HubSys) : Disp Conn :=
  mkDisp (ds_client d) (ds_reasm d) (hs_entries y) (flat (hs_hub y)) (hs_cache y) (ds_out d).

Definition fresh_cache : list DispatchSlot := replicate (Z.to_nat DISPATCH_CACHE) (mkDispatchSlot 0 None None).

Definition with_app (a : SocketAddr) (x : AssocEntry) : AssocEntry :=
  mkAssocEntry (en_relay x) (Some a) (en_alive x) (en_replied x) (en_raw_reply x) (en_reply_v6 x).
(** [AliveGuard::drop]. *)
Definition killed (x : AssocEntry) : AssocEntry :=
  mkAssocEntry (en_relay x) (en_app x) false (en_replied x) (en_raw_reply x) (en_reply_v6 x).

(** An id is not handed out again while a reservation of it is unpublished (the
    counter comes back to it after [2^32 - 2] others); a [Weak] of the cache
    keeps the allocation it points to from being used again. *)
Inductive hub_step : HubSys -> HubSys -> Prop :=
| hu_open h es c ps s h' : alloc_sess h = Ok (Some s, h') -> ps !! s = None -> hub_step (mkHubSys h es c ps) (mkHubSys h' es c (<[s := Reserved]> ps))
| hu_publish h es c ps s e x : ps !! s = Some Reserved -> es !! e = None -> (forall sl, sl ∈ c -> sl_entry sl <> Some e) -> en_alive x = true ->
    hub_step (mkHubSys h es c ps) (mkHubSys (hub_publish s e h) (<[e := x]> es) c (<[s := Live e]> ps))
| hu_app h es c ps e x a : es !! e = Some x -> en_app x = None -> hub_step (mkHubSys h es c ps) (mkHubSys h (<[e := with_app a x]> es) c ps)
| hu_replied h es c ps e x : es !! e = Some x ->
    hub_step (mkHubSys h es c ps) (mkHubSys h (<[e := mkAssocEntry (en_relay x) (en_app x) (en_alive x) true (en_raw_reply x) (en_reply_v6 x)]> es) c ps)
| hu_die h es c ps s e x : ps !! s = Some (Live e) -> es !! e = Some x -> hub_step (mkHubSys h es c ps) (mkHubSys h (<[e := killed x]> es) c (<[s := Dead e]> ps))
| hu_release h es c ps s p : ps !! s = Some p -> (forall e, p <> Live e) -> hub_step (mkHubSys h es c ps) (mkHubSys (hub_release s h) es c (delete s ps))
| hu_free h es c ps e : (forall s, hub_entry s h <> Some e) -> hub_step (mkHubSys h es c ps) (mkHubSys h (delete e es) c ps)
| hu_lookup y d sess r d' : lookup_entry sess (view d y) = Ok (r, d') -> hub_step y (mkHubSys (hs_hub y) (hs_entries y) (ds_cache d') (hs_phase y))
| hu_redial h es c ps : hub_step (mkHubSys h es c ps) (mkHubSys h es fresh_cache ps).

Inductive hub_reach (max : Z) : HubSys -> Prop :=
| hu_start : hub_reach max (mkHubSys (with_capacity max) ∅ fresh_cache ∅)
| hu_steps y y' : hub_reach max y -> hub_step y y' -> hub_reach max y'.

Record hub_inv (max : Z) (y : HubSys) : Prop := mkHubInv {
  hi_shards : shards_ok (hs_hub y);
  hi_next : is_u32 (hb_next (hs_hub y));
  hi_max : hb_max (hs_hub y) = clamp max 1 MAX_UDP_ASSOCS;
  hi_len : hb_len (hs_hub y) = Z.of_nat (size (hs_phase y)) /\ hb_len (hs_hub y) <= hb_max (hs_hub y);
  hi_entry : forall s, hub_entry s (hs_hub y) = hs_phase y !! s ≫= phase_entry;
  hi_live : forall s e, hs_phase y !! s = Some (Live e) -> exists x, hs_entries y !! e = Some x /\ en_alive x = true;
  hi_dead : forall s e, hs_phase y !! s = Some (Dead e) -> exists x, hs_entries y !! e = Some x /\ en_alive x = false;
  hi_inj : forall s s' e, hs_phase y !! s ≫= phase_entry = Some e -> hs_phase y !! s' ≫= phase_entry = Some e -> s = s';
  hi_cache_len : length (hs_cache y) = Z.to_nat DISPATCH_CACHE;
  hi_slot : forall sl e x, sl ∈ hs_cache y -> sl_entry sl = Some e -> hs_entries y !! e = Some x -> en_alive x = true ->
    hs_phase y !! sl_sess sl = Some (Live e) /\ (forall a, sl_app sl = Some a -> en_app x = Some a)
}.

Lemma inv_cache_ok max d y : hub_inv max y -> cache_ok (view d y).
Proof.
  intros I. split; [apply I|]. intros i sl e x Hi He Hx Ha. cbn in *. destruct (hi_slot _ _ I sl e x) as [Hp Happ]; [by eapply list_elem_of_lookup_2 | done..|].
  split; [|done]. rewrite flat_entry by apply I. rewrite (hi_entry _ _ I), Hp. done.
Qed.

Lemma clamp_bounds x lo hi : lo <= hi -> lo <= clamp x lo hi <= hi.
Proof. unfold clamp. intros ?. repeat case_match; zbool; lia. Qed.

Lemma flat_bound max y : hub_inv max y -> Z.of_nat (size (flat (hs_hub y))) <= MAX_UDP_ASSOCS.
Proof.
  intros I. destruct (hi_len _ _ I) as [E1 E2]. rewrite (hi_max _ _ I) in E2. pose proof (clamp_bounds max 1 MAX_UDP_ASSOCS ltac:(done)).
  assert (size (flat (hs_hub y)) <= size (hs_phase y))%nat; [|lia]. rewrite <- !(size_dom (D := gset Z)). apply subseteq_size. intros s [e Hs]%elem_of_dom.
  rewrite flat_entry, (hi_entry _ _ I) in Hs by apply I. apply elem_of_dom. destruct (hs_phase y !! s); [by eexists | done].
Qed.

Lemma alloc_sess_spec max y : hub_inv max y -> exists o h', alloc_sess (hs_hub y) = Ok (o, h') /\
  match o with
  | None => h' = hs_hub y /\ hb_len (hs_hub y) = hb_max (hs_hub y)
  | Some s => is_u32 s /\ ~ taken (hs_hub y) s /\ hb_subs h' = hb_subs (hs_hub y) /\ is_u32 (hb_next h') /\ hb_len h' = hb_len (hs_hub y) + 1 /\
      hb_max h' = hb_max (hs_hub y) /\ hb_len h' <= hb_max h'
  end.
Proof.
  intros I. unfold alloc_sess. pose proof (hi_len _ _ I) as [_ Hle]. destruct (hb_len (hs_hub y) >=? hb_max (hs_hub y)) eqn:E; zbool.
  { eexists _, _. split; [reflexivity|]. split; [done | lia]. }
  set (h := mkUdpHub _ _ _ _). pose proof (flat_bound _ _ I). destruct (alloc_go_returns h) as (s & h' & -> & A1 & A2 & A3 & A4 & A5 & A6).
  - apply I.
  - apply I.
  - change (flat h) with (flat (hs_hub y)). unfold MAX_UDP_ASSOCS in *. lia.
  - cbn [res_bind]. eexists _, _. split; [reflexivity|]. cbn in *. split_and!; try done; try congruence. rewrite A5, A6. lia.
Qed.

(** The entries and the cache stay related when an entry only changes its app
    address from none, its liveness to dead, or its marks. *)
Lemma update_entry max h es c ps e x x' : hub_inv max (mkHubSys h es c ps) -> es !! e = Some x ->
  en_alive x' = en_alive x -> (forall a, en_app x = Some a -> en_app x' = Some a) ->
  hub_inv max (mkHubSys h (<[e := x']> es) c ps).
Proof.
  intros [I1 I2 I3 I4 I5 I6 I7 I8 I9 I10] He Ha Happ. cbn in *. split; cbn; try done.
  - intros s e0 Hs. destruct (I6 s e0 Hs) as (x0 & Hx0 & Hal). destruct (decide (e0 = e)) as [->|Hne]; [|exists x0; by rewrite lookup_insert_ne].
    exists x'. rewrite lookup_insert_eq. split; [done|]. congruence.
  - intros s e0 Hs. destruct (I7 s e0 Hs) as (x0 & Hx0 & Hal). destruct (decide (e0 = e)) as [->|Hne]; [|exists x0; by rewrite lookup_insert_ne].
    exists x'. rewrite lookup_insert_eq. split; [done|]. congruence.
  - intros sl e0 x0 Hin Hsl Hx0 Hal. apply lookup_insert_Some in Hx0 as [[<- <-]|[_ Hx0]]; [|by eapply I10].
    destruct (I10 sl e x Hin Hsl He) as [Hp Hq]; [congruence|]. split; [done|]. intros a Hsa. by apply Happ, Hq.
Qed.

Lemma open_inv max h es c ps s h' : hub_inv max (mkHubSys h es c ps) -> alloc_sess h = Ok (Some s, h') -> ps !! s = None ->
  hub_inv max (mkHubSys h' es c (<[s := Reserved]> ps)).
Proof.
  intros I E Hn. destruct (alloc_sess_spec _ _ I) as (o & h1 & E1 & A). cbn in E1. rewrite E in E1. injection E1 as <- <-.
  destruct A as (_ & _ & A3 & A4 & A5 & A6 & A7). destruct I as [I1 I2 I3 [I4 I4'] I5 I6 I7 I8 I9 I10]. cbn in *.
  assert (Hent : forall s', hub_entry s' h' = hub_entry s' h) by (intros s'; unfold hub_entry; by rewrite A3).
  assert (Hph : forall s', <[s := Reserved]> ps !! s' ≫= phase_entry = ps !! s' ≫= phase_entry).
  { intros s'. destruct (decide (s' = s)) as [->|Hne]; [by rewrite lookup_insert_eq, Hn | by rewrite lookup_insert_ne]. }
  split; cbn; try done.
  - unfold shards_ok. by rewrite A3.
  - congruence.
  - rewrite map_size_insert_None by done. lia.
  - intros s'. by rewrite Hent, I5, Hph.
  - intros s' e Hs. apply lookup_insert_Some in Hs as [[_ ?]|[_ Hs]]; [done | by eapply I6].
  - intros s' e Hs. apply lookup_insert_Some in Hs as [[_ ?]|[_ Hs]]; [done | by eapply I7].
  - intros s1 s2 e. rewrite !Hph. apply I8.
  - intros sl e x Hin Hsl Hx Hal. destruct (I10 _ _ _ Hin Hsl Hx Hal) as [Hp Hq]. split; [|done]. rewrite lookup_insert_ne; [done|]. intros Es. rewrite <- Es in Hp. congruence.
Qed.

Lemma publish_inv max h es c ps s e x : hub_inv max (mkHubSys h es c ps) -> ps !! s = Some Reserved -> es !! e = None ->
  (forall sl, sl ∈ c -> sl_entry sl <> Some e) -> en_alive x = true -> hub_inv max (mkHubSys (hub_publish s e h) (<[e := x]> es) c (<[s := Live e]> ps)).
Proof.
  intros [I1 I2 I3 [I4 I4'] I5 I6 I7 I8 I9 I10] Hs He Hc Ha. cbn in *. destruct (entry_publish s e h I1) as [P1 P2].
  assert (Hno : forall s', ps !! s' ≫= phase_entry <> Some e).
  { intros s'. destruct (ps !! s') as [[|e'|e']|] eqn:E; cbn; try done; intros [= ->]; [destruct (I6 _ _ E) as (? & ? & _) | destruct (I7 _ _ E) as (? & ? & _)]; congruence. }
  assert (Hph : forall s', <[s := Live e]> ps !! s' ≫= phase_entry = if decide (s' = s) then Some e else ps !! s' ≫= phase_entry).
  { intros s'. case_decide; [subst; by rewrite lookup_insert_eq | by rewrite lookup_insert_ne]. }
  split; cbn; try done.
  - rewrite map_size_insert_Some by (by eexists). done.
  - intros s'. by rewrite P2, Hph, I5.
  - intros s' e' [[_ [= <-]]|[_ Hs']]%lookup_insert_Some; [exists x; by rewrite lookup_insert_eq|]. destruct (I6 _ _ Hs') as (x' & Hx' & ?).
    exists x'. rewrite lookup_insert_ne by congruence. done.
  - intros s' e' [[_ ?]|[_ Hs']]%lookup_insert_Some; [done|]. destruct (I7 _ _ Hs') as (x' & Hx' & ?). exists x'. rewrite lookup_insert_ne by congruence. done.
  - intros s1 s2 e'. rewrite !Hph. do 2 case_decide; subst; try done; [intros [= <-] Hp; by destruct (Hno s2) | intros Hp [= <-]; by destruct (Hno s1) | apply I8].
  - intros sl e' x' Hin Hsl Hx Hal. apply lookup_insert_Some in Hx as [[<- _]|[_ Hx]]; [by destruct (Hc sl Hin)|].
    destruct (I10 _ _ _ Hin Hsl Hx Hal) as [Hp Hq]. split; [|done]. rewrite lookup_insert_ne; [done|]. intros Es. rewrite <- Es in Hp. congruence.
Qed.

Lemma die_inv max h es c ps s e x : hub_inv max (mkHubSys h es c ps) -> ps !! s = Some (Live e) -> es !! e = Some x ->
  hub_inv max (mkHubSys h (<[e := killed x]> es) c (<[s := Dead e]> ps)).
Proof.
  intros [I1 I2 I3 [I4 I4'] I5 I6 I7 I8 I9 I10] Hs He. cbn in *.
  assert (Hph : forall s', <[s := Dead e]> ps !! s' ≫= phase_entry = ps !! s' ≫= phase_entry).
  { intros s'. destruct (decide (s' = s)) as [->|Hne]; [by rewrite lookup_insert_eq, Hs | by rewrite lookup_insert_ne]. }
  assert (Hother : forall s' e', s' <> s -> ps !! s' ≫= phase_entry = Some e' -> e' <> e) by (intros s' e' Hne Hp ->; apply Hne; by eapply I8; [|rewrite Hs]).
  split; cbn; try done.
  - rewrite map_size_insert_Some by (by eexists). done.
  - intros s'. by rewrite I5, Hph.
  - intros s' e' [[_ ?]|[Hne Hs']]%lookup_insert_Some; [done|]. destruct (I6 _ _ Hs') as (x' & ? & ?). exists x'.
    rewrite lookup_insert_ne; [done|]. intros <-. by apply (Hother s' e); [|rewrite Hs'|].
  - intros s' e' [[_ [= <-]]|[Hne Hs']]%lookup_insert_Some; [exists (killed x); by rewrite lookup_insert_eq|]. destruct (I7 _ _ Hs') as (x' & ? & ?). exists x'.
    rewrite lookup_insert_ne; [done|]. intros <-. by apply (Hother s' e); [|rewrite Hs'|].
  - intros s1 s2 e'. rewrite !Hph. apply I8.
  - intros sl e' x' Hin Hsl Hx Hal. apply lookup_insert_Some in Hx as [[_ <-]|[Hne Hx]]; [done|].
    destruct (I10 _ _ _ Hin Hsl Hx Hal) as [Hp Hq]. split; [|done]. rewrite lookup_insert_ne; [done|]. intros Es. rewrite <- Es in Hp. congruence.
Qed.

Lemma release_inv max h es c ps s p : hub_inv max (mkHubSys h es c ps) -> ps !! s = Some p -> (forall e, p <> Live e) ->
  hub_inv max (mkHubSys (hub_release s h) es c (delete s ps)).
Proof.
  intros I Hs Hp. pose proof (clamp_bounds max 1 MAX_UDP_ASSOCS ltac:(done)) as Hcl. destruct I as [I1 I2 I3 [I4 I4'] I5 I6 I7 I8 I9 I10]. cbn in *.
  destruct (entry_unpublish s h (hb_next h) (as_u64 (hb_len h - 1)) (hb_max h) I1) as [P1 P2].
  assert (Hsz : size (delete s ps) = pred (size ps)) by (apply map_size_delete_Some; by eexists).
  assert (size ps <> 0%nat) by (intros E; apply map_size_empty_inv in E; subst ps; by rewrite lookup_empty in Hs).
  assert (Hlen : as_u64 (hb_len h - 1) = hb_len h - 1) by (unfold as_u64, MAX_UDP_ASSOCS in *; rewrite Z.mod_small; lia).
  split; cbn; try done.
  - rewrite Hlen, Hsz. lia.
  - intros s'. cbn in P2. rewrite P2. case_decide as Ed; [subst; by rewrite lookup_delete_eq | rewrite lookup_delete_ne by done; apply I5].
  - intros s' e [_ Hs']%lookup_delete_Some. by eapply I6.
  - intros s' e [_ Hs']%lookup_delete_Some. by eapply I7.
  - intros s1 s2 e Hp1 Hp2. apply (I8 s1 s2 e); [destruct (delete s ps !! s1) eqn:E | destruct (delete s ps !! s2) eqn:E]; try done; apply lookup_delete_Some in E as [_ ->]; done.
  - intros sl e x Hin Hsl Hx Hal. destruct (I10 _ _ _ Hin Hsl Hx Hal) as [Hq Ha]. split; [|done]. rewrite lookup_delete_ne; [done|]. intros Es. rewrite <- Es in Hq. naive_solver.
Qed.

Lemma free_inv max h es c ps e : hub_inv max (mkHubSys h es c ps) -> (forall s, hub_entry s h <> Some e) -> hub_inv max (mkHubSys h (delete e es) c ps).
Proof.
  intros [I1 I2 I3 I4 I5 I6 I7 I8 I9 I10] Hn. cbn in *.
  assert (Hne : forall s e', ps !! s ≫= phase_entry = Some e' -> e <> e') by (intros s e' Hp <-; apply (Hn s); by rewrite I5).
  split; cbn; try done.
  - intros s e' Hs. destruct (I6 _ _ Hs) as (x & ? & ?). exists x. rewrite lookup_delete_ne; [done|]. apply (Hne s). by rewrite Hs.
  - intros s e' Hs. destruct (I7 _ _ Hs) as (x & ? & ?). exists x. rewrite lookup_delete_ne; [done|]. apply (Hne s). by rewrite Hs.
  - intros sl e' x Hin Hsl [_ Hx]%lookup_delete_Some. by apply I10.
Qed.

Lemma lookup_inv max y d sess r d' : hub_inv max y -> lookup_entry sess (view d y) = Ok (r, d') ->
  hub_inv max (mkHubSys (hs_hub y) (hs_entries y) (ds_cache d') (hs_phase y)).
Proof.
  intros I E. destruct (lookup_entry_spec sess (view d y) (inv_cache_ok max d y I)) as (d1 & E1 & [Hl Hs] & Hst). rewrite E in E1. injection E1 as _ <-.
  assert (Hsame : ds_entries d' = hs_entries y /\ ds_hub d' = flat (hs_hub y)) by by destruct Hst as [->|(i & sl & ->)]. destruct Hsame as [Ee Eh].
  destruct I as [I1 I2 I3 I4 I5 I6 I7 I8 I9 I10]. split; try done. cbn. intros sl e x Hin Hsl Hx Hal. apply list_elem_of_lookup_1 in Hin as [i Hi].
  destruct (Hs i sl e x Hi Hsl ltac:(by rewrite Ee) Hal) as [Hh Ha]. split; [|done]. rewrite Eh, flat_entry, I5 in Hh by done.
  destruct (hs_phase y !! sl_sess sl) as [[|e'|e']|] eqn:Ep; cbn in Hh; try done; injection Hh as ->; [done|]. destruct (I7 _ _ Ep) as (x' & ? & ?). congruence.
Qed.

Lemma hub_step_inv max y y' : hub_step y y' -> hub_inv max y -> hub_inv max y'.
Proof.
  intros Hst I. destruct Hst; eauto using open_inv, publish_inv, die_inv, release_inv, free_inv, lookup_inv.
  - eapply update_entry; [done | done | done | congruence].
  - by eapply update_entry.
  - destruct I as [I1 I2 I3 I4 I5 I6 I7 I8 I9 I10]. split; cbn in *; try done.
    intros sl e x Hin He. apply list_elem_of_lookup_1 in Hin as [i Hi]. by apply lookup_replicate in Hi as [-> _].
Qed.

Lemma hub_reach_inv max y : hub_reach max y -> hub_inv max y.
Proof.
  induction 1 as [|y y' _ IH Hst]; [|by eapply hub_step_inv]. pose proof (clamp_bounds max 1 MAX_UDP_ASSOCS ltac:(done)).
  assert (Hnone : forall s, hub_entry s (with_capacity max) = None).
  { intros s. unfold hub_entry. cbn [with_capacity hb_subs]. rewrite lookup_replicate_2 by apply shard_lt. apply lookup_empty. }
  split; cbn [hs_hub hs_phase hs_cache hs_entries]; try done.
  - split; [apply length_replicate|]. intros i m s e Hi He. cbn in Hi. apply lookup_replicate in Hi as [-> _]. by rewrite lookup_empty in He.
  - rewrite map_size_empty. cbn. lia.
Qed.

(** A probe of the hub finds the live entry of its id. *)
Lemma phase_lookup max d y sess : hub_inv max y -> hub_lookup sess (view d y) =
  match hs_phase y !! sess with
  | Some (Live e) => match hs_entries y !! e with Some x => found e (en_app x) | None => NoEntry end
  | _ => NoEntry
  end.
Proof.
  intros I. unfold hub_lookup. cbn [view ds_hub ds_entries]. rewrite flat_entry, (hi_entry _ _ I) by apply I.
  destruct (hs_phase y !! sess) as [[|e|e]|] eqn:Ep; try done; cbn.
  - destruct (hi_live _ _ I _ _ Ep) as (x & -> & Ha). cbn. by rewrite Ha.
  - destruct (hi_dead _ _ I _ _ Ep) as (x & -> & Ha). cbn. by rewrite Ha.
Qed.

(** C18: the hub keeps its books, and the dispatcher's cache agrees with it.
    After any interleaving of reservations, publications, first app datagrams,
    replies, exits, releases, freed entries, lookups and redials: each entry sits
    in its id's shard; the count is the number of ids in use and never exceeds the
    clamped capacity; an id answers the entry it was published with until it is
    released, and no two ids share one; a lookup through the cache returns and
    answers what a probe of the hub itself would, so a cached handle never routes
    a reply to an association that has exited or to another session's; and
    [alloc_sess] returns: nothing exactly when the capacity is used up, else a
    32-bit id that is not reserved by the protocol and that no entry is published
    under. *)
Theorem hub_exact max y (d : Disp Conn) : hub_reach max y ->
  shards_ok (hs_hub y) /\
  hb_len (hs_hub y) = Z.of_nat (size (hs_phase y)) /\ hb_len (hs_hub y) <= clamp max 1 MAX_UDP_ASSOCS /\
  (forall s, hub_entry s (hs_hub y) = hs_phase y !! s ≫= phase_entry) /\
  (forall s s' e, hub_entry s (hs_hub y) = Some e -> hub_entry s' (hs_hub y) = Some e -> s = s') /\
  (forall sess, exists d', lookup_entry sess (view d y) =
     Ok (match hs_phase y !! sess with
         | Some (Live e) => match hs_entries y !! e with Some x => found e (en_app x) | None => NoEntry end
         | _ => NoEntry
         end, d')) /\
  (exists o h', alloc_sess (hs_hub y) = Ok (o, h') /\ (o = None <-> hb_len (hs_hub y) = clamp max 1 MAX_UDP_ASSOCS) /\
     forall s, o = Some s -> 0 < s < 2 ^ 32 - 1 /\ hub_entry s (hs_hub y) = None /\ hub_entry s h' = None /\ hb_len h' = hb_len (hs_hub y) + 1).
Proof.
  intros Hr. pose proof (hub_reach_inv _ _ Hr) as I. pose proof (hi_entry _ _ I) as He. pose proof (hi_len _ _ I) as [Hlen Hle].
  pose proof (hi_max _ _ I) as Hmax. rewrite Hmax in Hle. split_and!; [apply I | done | done | done | | |].
  - intros s s' e. rewrite !He. apply (hi_inj _ _ I).
  - intros sess. destruct (lookup_entry_spec sess (view d y) (inv_cache_ok max d y I)) as (d' & -> & _ & _). exists d'. do 2 f_equal. by apply phase_lookup with max.
  - destruct (alloc_sess_spec max y I) as (o & h' & E & Ho). exists o, h'. split; [done|]. destruct o as [s|].
    + destruct Ho as (Hu & Ht & Hsub & _ & Hl & Hm & Hle'). split; [split; [done | rewrite Hl, Hm, Hmax in Hle'; lia]|]. intros s0 [= <-].
      assert (Hn : hub_entry s (hs_hub y) = None) by (apply eq_None_not_Some; intros ?; apply Ht; by right; right).
      split; [|split; [done | split; [|done]]].
      * unfold taken, is_u32 in *. lia.
      * unfold hub_entry in *. by rewrite Hsub.
    + destruct Ho as [-> Heq]. split; [|done]. by rewrite Heq, Hmax.
Qed.

End Life.

Definition demo_entry : AssocEntry := mkAssocEntry 5 (Some demo_app) true false false false.

(** A hub of two: id 1 is published, id 2 reserved. *)
Definition demo_hub : HubSys :=
  mkHubSys (hub_publish 1 1 (mkUdpHub (hb_subs (with_capacity 2)) 3 2 2)) (<[1%positive := demo_entry]> ∅) fresh_cache
    (<[1 := Live 1]> (<[2 := Reserved]> (<[1 := Reserved]> ∅))).

Lemma demo_hub_reach : hub_reach (Conn := BufConn) 2 demo_hub.
Proof.
  eapply hu_steps; [eapply hu_steps; [eapply hu_steps; [apply hu_start|]|]|].
  - apply hu_open with (s := 1); reflexivity.
  - apply hu_open with (s := 2); reflexivity.
  - apply (hu_publish _ ∅ fresh_cache (<[2 := Reserved]> (<[1 := Reserved]> ∅)) 1 1 demo_entry); [reflexivity | reflexivity | | reflexivity].
    intros sl Hin. apply list_elem_of_lookup_1 in Hin as [i Hi]. by apply lookup_replicate in Hi as [-> _].
Qed.

(** Id 1 answers its entry, id 2 nothing yet, and a third association is
    refused. *)
Lemma hub_exact_witness : exists d1 d2 h', lookup_entry 1 (view demo_disp demo_hub) = Ok (Hit 1 demo_app, d1) /\
  lookup_entry 2 (view demo_disp demo_hub) = Ok (NoEntry, d2) /\ alloc_sess (hs_hub demo_hub) = Ok (None, h').
Proof.
  destruct (hub_exact 2 demo_hub demo_disp demo_hub_reach) as (_ & _ & _ & _ & _ & Hl & o & h' & Ha & [_ Ho] & _).
  destruct (Hl 1) as [d1 E1], (Hl 2) as [d2 E2]. exists d1, d2, h'. split_and!; [exact E1 | exact E2 | rewrite Ha, Ho by reflexivity; reflexivity].
Defined.
